(* ===== verification/_CoqProject ===== *)
-Q . S2P
Prelude.v
GoStrings.v
Slots.v
Probe.v
ClusterNodes.v
ClusterState.v
Topology.v
Reshard.v
Migration.v
ReplicationTypes.v
Info.v
Lineage.v
ReplicationState.v
Recovery.v
FailoverIntent.v
Capture.v
Gather.v
Partitions.v
ClusterGather.v
Operations.v
Kube.v
OperationWiring.v
Quarantine.v
AuthReport.v
ReshardDance.v
Rollout.v
ClusterRollout.v
ClusterWipe.v
ClusterRepair.v
ClusterMigration.v
ClusterReconcile.v
FailoverEngine.v
FailoverSafety.v
PodStart.v
PodScripts.v
SentinelClient.v
SentinelRecovery.v
SentinelReconcile.v
SentinelSafety.v
SentinelStatus.v
Controller.v
ControllerSafety.v
Spec.v
Metadata.v
RedisConf.v
Workloads.v
WatchScope.v
Discovery.v
Analyze.v
CliGather.v
Verify.v
Import.v
Chaos.v
EventMonitor.v
Inspect.v
Redact.v
