(* ===== verification/Prelude.v ===== *)
(** * Verification of the LittleRed operator

    LittleRed (src/) is a Kubernetes operator for Redis and Valkey.  A custom resource asks
    for a standalone server, a Sentinel-managed replication group, an operator-managed
    replication group ("failover mode") or a Redis Cluster; the operator builds the
    Kubernetes objects, probes the servers, and repairs the topology.  The code that decides
    is kept apart from the code that acts: planners are pure functions of a gathered state,
    and handlers gather, call a planner and carry its plan out.  What may go wrong is the
    loss of data: electing an empty or a stale server makes every other one resynchronise
    from it.  The development is about that: what the operator knows, what it decides from
    it, and what it does then.

    ** Parts of the program and files of the development

    - [Prelude] (this file): Go integers, time, map iteration, sorting and goroutine order
      ([GoRuntime]), and the lemmas shared by all files.
    - [GoStrings]: the parts of Go's strings and strconv that the code uses.
    - [Slots]: hash-slot ranges (src/internal/redis/cluster_client.go, GenerateSlotRanges,
      FormatSlotRange, ParseSlotRange, ExpandSlotRange).
    - [Probe]: classification of probe errors (src/internal/redis/probe_failure.go).
    - [ClusterNodes]: CLUSTER NODES and CLUSTER INFO replies (cluster_client.go).
    - [ClusterState]: the ground truth of a Redis Cluster, its health predicates and the
      planner that heals partitions with CLUSTER MEET (src/internal/redis/cluster_state.go).
    - [Topology]: names and shards of cluster pods, the choice of the master an empty pod
      joins (src/internal/controller/cluster_topology.go, src/internal/redis/
      shard_colocation.go).
    - [Reshard]: the planner that gives every shard a master of its own (reshard_plan.go).
    - [Migration]: the planner that moves a cluster of one StatefulSet into the layout with a
      StatefulSet per shard (migration_plan.go).
    - [ReplicationTypes], [Lineage], [ReplicationState]: the ground truth of a replication
      group (src/internal/redis/replication_state.go): which server is the master, which
      servers hold data, whether their histories have diverged ([holdersDiverged], a
      union-find over replication IDs), and which one is the most complete.
    - [Info], [Gather], [Partitions], [ClusterGather]: from the servers' replies to the ground truth
      (src/internal/redis/client.go, gather.go, src/internal/controller/gatherer.go).  The
      replies, as go-redis returns them, are the record [Wire]; the concurrent probes
      arrive in an arbitrary order.
    - [Recovery]: the planners that elect a master when none is known
      (src/internal/controller/leaderless_recovery.go, ghost_master_recovery.go,
      failover_plan.go) and the one that repoints stray replicas (replica_rescue_plan.go).
    - [FailoverIntent]: failover mode's record of intent, its master-death predicate and its
      background watcher (failover_plan.go, failover_intent.go, failover_monitor.go).
    - [Capture], [Quarantine]: capture of an instance by another Sentinel deployment, the
      debris of master names, and the quarantine (cross_instance.go, forsaken_plan.go,
      quarantine_plan.go, stale_master_name_plan.go and their handlers in
      littlered_controller.go).
    - [Operations], [OperationWiring]: heavy operations, their registry, fingerprints and the
      handlers that record them (operation_plan.go, operation_registry.go,
      operation_wiring.go, src/api/v1alpha1/operation_fingerprint.go).
    - [Kube]: the outside world.  A handler is a [prog], a tree of calls that continues with
      any answer; [safe] states what holds whatever is answered, [traced] what a call may
      depend on in the history of its pass, and [exec] runs a handler against an API server
      with the documented behaviour (the class [ApiServer]) and may stop it at any point.
      Reads through the cache may be answered with any earlier copy, and pods may come, go
      and change their status between any two calls.
    - [AuthReport]: the condition that reports refused credentials (auth_probe_report.go).
    - [ReshardDance]: moving a slot range key by key or by the atomic migration of the
      server (src/internal/redis/cluster_migrate.go, src/internal/controller/
      cluster_reshard.go).  The nodes are the class [RedisCluster], the documented effect of
      the commands on keys and slot marks, and [RedisClients] adds clients that write
      between any two commands.
    - [Rollout], [ClusterRollout]: the gate of a rolling update and the handlers that apply
      and advance it (cluster_rollout.go, cluster_reconcile.go).
    - [ClusterWipe]: recycling of dead cluster pods (cluster_wipe_recovery.go).
    - [ClusterRepair]: the client commands of cluster mode, the repair loop, the bootstrap
      and the status (cluster_client.go, cluster_reconcile.go).
    - [ClusterMigration]: the driver of the migration (cluster_migration.go).
    - [ClusterReconcile]: [reconcileCluster], which calls all of these (cluster_reconcile.go).
    - [FailoverEngine], [FailoverSafety]: the handlers of failover mode
      (failover_reconcile.go) and their theorems.  That the copies read while stamping are
      current is a hypothesis of its own ([undisturbed]), used only where it is needed.
    - [PodStart], [PodScripts]: the shell scripts inside the pods (resources.go,
      resources_failover.go): the start gate of failover mode with the annotations it polls,
      the startup scripts of Sentinel and cluster mode, the hooks of terminating pods.
    - [SentinelClient], [SentinelRecovery], [SentinelReconcile], [SentinelStatus],
      [SentinelSafety]: the Sentinel client (src/internal/redis/client.go), the handlers that
      carry elections out, the healing rules, the bootstrap, the labels and the status of
      Sentinel mode (littlered_controller.go, sentinel_monitor.go,
      sentinel_master_name_condition.go) and their theorems.
    - [Controller], [ControllerSafety]: [Reconcile] with validation, defaults, finalizer,
      bootstrap flag, dispatch, standalone mode, deletion and the start and stop of the
      monitors (littlered_controller.go).
    - [Spec], [Metadata], [RedisConf], [Workloads]: the remaining fields of the specification
      with their defaults (littlered_types.go, littlered_defaults.go); labels, annotations
      and selectors (metadata.go); the texts of redis.conf and sentinel.conf; the manifests
      behind the resources the handlers apply (resources.go, resources_failover.go).
    - [WatchScope]: the namespaces the operator watches, from two environment variables
      (src/internal/watchscope/watchscope.go).
    - [EventMonitor]: the goroutines that make the operator look early, the subscription to
      Sentinel events and the watcher of failover mode, as transition systems
      (sentinel_monitor.go, failover_monitor.go, client.go).
    - [Discovery], [Analyze], [CliGather], [Verify], [Import], [Inspect], [Redact]: the tool
      lrctl (src/internal/cli/, src/cmd/lrctl/cmd/): the search for the pods of an instance, the
      verdict on failover mode, the gatherer that runs redis-cli in the pods, the commands
      verify, status and inspect in text and JSON, the import of a running instance, and the
      redaction of passwords in a debug dump.  The commands in the pods are a parameter,
      like the replies of the network.
    - [Chaos]: the client that measures an instance under failures (src/test/chaos/client.go,
      src/cmd/littlered-chaos-client/main.go), as an interleaving of its goroutines.

    ** What the theorems show

    - Elections ([Recovery], [FailoverSafety]).  Each of the three planners elects exactly
      in its deadlock, past its cooldown; never while a server refuses the credential and so
      cannot be shown to be empty; and discards no known data unless the owner has opted in.
      The choice does not depend on map iteration order.  [Gather] establishes what these
      theorems assume of the state, and carries a refused credential from the wire to the
      vetoed election.
    - Lineages ([Lineage]).  The union-find terminates and decides exactly whether the
      holders form one connected component under shared replication IDs.
    - Failover mode ([FailoverIntent], [FailoverSafety]).  The intent is the newest master
      assignment; an election interrupted anywhere, from however old a list of pods, leaves the
      elected pod, an earlier claimant or nobody as the intended master, and it is read back
      exactly when it completed on current copies; a half-applied one is resumed; whatever is answered, a pass makes only permitted
      calls; Running is reported only while the observed master is replicated; after a
      label pass exactly the observed master carries the label; the watcher fires once per
      failure streak and as soon as it is due.
    - Capture and operations ([Capture], [Quarantine], [Operations], [OperationWiring]).  The
      quarantine is armed only when every pod is provably empty or a copy of the captor's
      data, and its markers move only along its life cycle, wherever a pass dies; a name is
      forgotten only if it is debris; operations start and complete as required, unfinished
      passes keep the record of a rename and a completing one writes it, and all of them
      drain.
    - Planners of Redis Cluster ([ClusterState], [Partitions], [ClusterGather], [Slots],
      [Topology], [Reshard], [Migration], [Rollout]).  Every gathered ground truth is well
      formed; MEET targets and seeds are nodes attributed to this instance, and the plan is
      deterministic and always defined; partitions partition the nodes, and are the connected
      components when the views are symmetric; the generated slot ranges are an exact,
      balanced partition; reshard moves take whole shards to distinct empty masters and
      terminate; a migration hands over only synchronised copies, and as many promotions as ranges are
      missing end its failover phase; a pod is
      released by a rolling update only after the higher ordinals were synchronised.
    - Handlers of Redis Cluster ([ReshardDance], [ClusterRollout], [ClusterWipe],
      [ClusterRepair], [ClusterMigration], [ClusterReconcile]).  Whatever is answered, and
      cut off anywhere, while clients write, moving a range loses no key, terminates, and
      completes on reliable nodes; every apply, deletion and command of a pass is justified by what the same pass
      has read, from the single commands of the repair up to the whole of [reconcileCluster].
      Three theorems state where the code falls short of what it means to do: a reverted
      template change stalls a rollout ([reverted_rollout_stalls]), an orphan that replaces
      another one is never promoted ([orphan_starves]), and two neighbouring shards on one
      master are never separated ([adjacent_shards_stall]).
    - Input ([Probe], [Info], [ClusterNodes]).  Credential refusals are always and only
      classified as such; INFO fields, slot ranges and both protocol versions of the
      Sentinel replies are read back as written.

    - Pods ([PodStart], [PodScripts]).  The startup script reads back exactly what the operator
      stamped; the start gate is characterised on every branch; a restarted, hence empty,
      server becomes a master at most as often as permissions were stamped
      ([master_restarts_permitted]); a permission may however be older than the death it is
      used for, when a running replica was seeded ([seeded_replica_returns_empty]) or the
      projected file lags ([lagging_permission_reused]).  A Sentinel-mode pod starts
      only on Sentinel's word, a cluster pod only when no peer takes it for the owner of slots
      ([forgotten_node_never_starts] is the case in which it never starts); a terminating
      master closes its writes or hands over, and every action of the hooks is listed in its
      order ([terminating_master_fences]).
    - Sentinel mode and the controller ([SentinelSafety], [SentinelStatus], [ControllerSafety]).
      Whatever is answered, every command to a Sentinel or server, every write of a pass and
      every effect of [Reconcile], the status writes of its preliminary part included, is
      accounted for by what the same pass has read and checked;
      Running is reported only on what was observed; at most the monitor of the mode runs.
    - Rendered objects ([Spec], [Metadata], [RedisConf], [Workloads]).  Defaults are idempotent;
      the lines of redis.conf give the documented settings in each mode and are followed by
      those of the raw block as they are (how a server reads the file is outside);
      each StatefulSet selects its own pods only, whatever labels users set; the master Service
      routes to the pods labelled as master only; every pod is complete (volumes, ports,
      ConfigMap and its hash, governing Service) and scraped once; every object a pass applies
      belongs to the mode of its resource.  [exporter_target] shows the one exporter that
      scrapes nothing.
    - Background goroutines and scope ([EventMonitor], [WatchScope]).  A Sentinel event becomes
      one reconciliation and no connection is left open, the watcher pushes what its streaks call for, and both end only when
      cancelled; the cache holds exactly the namespaces asked for, and the lease depends on the
      set of namespaces only.
    - The tool ([Discovery], [Analyze], [CliGather], [Verify], [Import], [Inspect]).  lrctl finds
      the pods the operator creates and gathers the state the operator gathers
      ([lrctl_operator_parity]); a healthy verdict means that the operator has nothing to do
      ([healthy_verdict_sound]) and exit status 0 what [exit_zero_guarantees] lists; a shell reads
      back the arguments it is given.  Lemmas beside these theorems show where the tool is wrong,
      such as [crossed_cluster_verdicts], [unhealthy_json_exits_zero],
      [valkey_imported_as_redis] and [swallowed_keyword_leaks].
    - The chaos client ([Chaos]).  Under every interleaving its counters add up, a server that
      keeps the writes it acknowledged is never accused, and the final sweep is exact.

    ** Conventions

    A Go [int] or [int64] is a [Z]; where the code computes without a guard the wrap-around
    is written out ([wrap64], [wrap32]).  Times are nanoseconds and [Time.Sub] saturates.
    Maps are [gmap]s; ranging over one goes through [go_range], an arbitrary permutation
    named by the source line of the loop, and unstable sorts through [sort_slice]; a theorem
    that quantifies over [GoRuntime] holds for every order.  A nil map entry never occurs in
    the maps modelled, so they hold plain values.  Recursion that is not structural is
    bounded: [uf_find] by the number of IDs, which bounds every path of the forest, and
    [bfs] by the number of nodes, each of which is enqueued once; both bounds are proved
    sufficient ([holdersDiverged_spec], [computePartitions_partition]).  The loop that drains
    a slot has as many rounds as keys may be moved, and each round moves one at least; that it
    never runs out of them is [drain_terminates].  Retries of [RetryOnConflict] are bounded by
    a number the theorems quantify over.  The waiting times of the handlers are not modelled.

    ** What is not modelled

    Kubernetes, go-redis, Redis and Sentinel are outside the program: their answers are
    parameters, and what is assumed of them is stated where it is used ([ApiServer],
    [RedisCluster], [RedisClients], [server_ids]); the parser of quantities, the digest and the JSON encoding are arguments of
    the builders that use them.  Pod affinity is copied into the pods unchanged and left out.
    Left out are the collection of the debug dump, which runs kubectl and writes files, the shell
    completion and client set-up of lrctl; the operator's entry point (flags, certificates, the manager);
    the ratios and texts of the chaos client's report; the generated deep copies, the generator
    of RBAC manifests, logging, metrics and the end-to-end test helpers: they call libraries or
    print, and decide nothing about an instance.  Timestamps are printed by a parameter, and what
    a [select] may choose is any ready case. *)

From stdpp Require Export base tactics option gmap strings list sorting pretty.
From Stdlib Require Export ZArith Lia.

(** ** Notations *)

Declare Scope go_scope.
Delimit Scope go_scope with go.

(** Equality and order of Go strings (byte-wise lexicographic). *)
Notation "a =? b" := (String.eqb a b) (at level 70) : go_scope.
Notation "a <? b" := (String.ltb a b) (at level 70) : go_scope.

(** ** Tactics *)

(** Split every boolean [if]/[match] scrutinee of the goal, keeping the equation. *)
Ltac split_ifs :=
  repeat (case_match; simplify_eq/=; try done).

(** Turn boolean hypotheses into propositions. *)
Ltac bool_hyps :=
  repeat match goal with
  | H : (_ && _)%bool = true |- _ => apply andb_true_iff in H as [??]
  | H : (_ || _)%bool = false |- _ => apply orb_false_iff in H as [??]
  | H : negb _ = true |- _ => apply negb_true_iff in H
  | H : negb _ = false |- _ => apply negb_false_iff in H
  | H : (_ =? _)%Z = true |- _ => apply Z.eqb_eq in H
  | H : (_ =? _)%Z = false |- _ => apply Z.eqb_neq in H
  | H : (_ <? _)%Z = true |- _ => apply Z.ltb_lt in H
  | H : (_ <? _)%Z = false |- _ => apply Z.ltb_ge in H
  | H : (_ <=? _)%Z = true |- _ => apply Z.leb_le in H
  | H : (_ <=? _)%Z = false |- _ => apply Z.leb_gt in H
  | H : String.eqb _ _ = true |- _ => apply String.eqb_eq in H
  | H : String.eqb _ _ = false |- _ => apply String.eqb_neq in H
  end.

(** Prove a decidable closed proposition by evaluation. *)
Ltac decide_true := apply (bool_decide_unpack _); vm_compute; exact I.

(** ** Machine integers and time

    A Go [int]/[int64] is a [Z] in the 64-bit range; arithmetic that the code
    performs without a guard is written with its wrap-around. *)

Definition int64_min : Z := - 2 ^ 63.
Definition int64_max : Z := 2 ^ 63 - 1.
Definition wrap64 (z : Z) : Z := (z + 2 ^ 63) `mod` 2 ^ 64 - 2 ^ 63.
Definition wrap32 (z : Z) : Z := (z + 2 ^ 31) `mod` 2 ^ 32 - 2 ^ 31.
Definition in_int64 (z : Z) : bool := (int64_min <=? z)%Z && (z <=? int64_max)%Z.

(** [time.Time] is a number of nanoseconds since the zero time, [time.Duration]
    an [int64] number of nanoseconds; [Time.Sub] saturates. *)
Definition time := Z.
Definition duration := Z.
Definition time_is_zero (t : time) : bool := (t =? 0)%Z.
Definition time_sub (a b : time) : duration :=
  Z.max int64_min (Z.min int64_max (a - b)).
Definition millisecond : duration := 1000000%Z.
Definition second : duration := 1000000000%Z.

Lemma wrap64_id z : in_int64 z = true → wrap64 z = z.
Proof.
  unfold in_int64, wrap64, int64_min, int64_max. intros; bool_hyps.
  rewrite Z.mod_small; lia.
Qed.

Lemma wrap32_id z : (- 2 ^ 31 ≤ z < 2 ^ 31)%Z → wrap32 z = z.
Proof. intros. unfold wrap32. rewrite Z.mod_small; lia. Qed.

Lemma time_sub_diag a : time_sub a a = 0%Z.
Proof. unfold time_sub. rewrite Z.sub_diag. reflexivity. Qed.

Lemma time_sub_lt a b d :
  (int64_min < d ≤ int64_max)%Z → (time_sub a b < d)%Z ↔ (a - b < d)%Z.
Proof. unfold time_sub, int64_min, int64_max. lia. Qed.

(** ** Outcomes

    Go code that may return a non-nil error or panic. *)

Inductive outcome (A : Type) :=
| Ok (a : A)
| Err
| Panic.
Arguments Ok {A} a.
Arguments Err {A}.
Arguments Panic {A}.

#[export] Instance outcome_bind : MBind outcome := λ A B f o,
  match o with Ok a => f a | Err => Err | Panic => Panic end.
#[export] Instance outcome_ret : MRet outcome := λ A a, Ok a.

(** ** What Go leaves unspecified

    [range] over a map visits the entries in an arbitrary order, which may differ
    from one loop to the next; [sort.Slice] is not stable, so the relative order of
    elements that compare equal is arbitrary; goroutines that append to one slice under
    a mutex do so in an arbitrary order ([go_schedule]).  [GoRuntime] is an arbitrary
    choice of all three.  A loop is named by its [site]: the source line of the [range]
    statement, in front of the path of calls and iterations that led to it, so that
    two loops, or two executions of one loop, never share an order by construction. *)

Definition site := list Z.

Class StrictWeak {A} (less : A → A → bool) : Prop := {
  less_asym x y : less x y = true → less y x = false;
  less_neg_trans x y z : less y x = false → less z y = false → less z x = false;
}.

(** [x] may precede [y] in a slice sorted by [less]. *)
Definition not_after {A} (less : A → A → bool) (x y : A) : Prop := less y x = false.

Class GoRuntime := {
  go_range : ∀ {K} `{Countable K} {V : Type}, site → gmap K V → list (K * V);
  go_range_perm : ∀ {K} `{Countable K} {V : Type} (s : site) (m : gmap K V),
    go_range s m ≡ₚ map_to_list m;
  sort_slice : ∀ {A : Type}, (A → A → bool) → list A → list A;
  sort_slice_perm : ∀ {A : Type} (less : A → A → bool) (l : list A),
    sort_slice less l ≡ₚ l;
  sort_slice_sorted : ∀ {A : Type} (less : A → A → bool) (l : list A),
    StrictWeak less → StronglySorted (not_after less) (sort_slice less l);
  go_schedule : ∀ {A : Type}, site → list A → list A;
  go_schedule_perm : ∀ {A : Type} (s : site) (l : list A), go_schedule s l ≡ₚ l;
}.

(** The values of a map, in iteration order. *)
Definition range_values `{GoRuntime} {V} (s : site) (m : gmap string V) : list V :=
  snd <$> go_range s m.

(** [sort.Strings] and [sort.Ints]: the orders are total, so the result is unique. *)
Definition sort_strings (l : list string) : list string := merge_sort String.le l.
Definition sort_ints (l : list Z) : list Z := merge_sort Z.le l.

(** The comparison [func(i, j int) bool { return key(s[i]) < key(s[j]) }]. *)
Definition less_by_string {A} (key : A → string) (x y : A) : bool :=
  (key x <? key y)%go.
Definition less_by_int {A} (key : A → Z) (x y : A) : bool := (key x <? key y)%Z.

(** ** Order and sorting lemmas *)

Lemma string_ltb_leb x y : (x <? y)%go = negb (String.leb y x).
Proof.
  unfold String.ltb, String.leb. rewrite (String.compare_antisym x y).
  by destruct (String.compare y x).
Qed.

Lemma string_ltb_ge x y : (x <? y)%go = false ↔ String.le y x.
Proof. rewrite string_ltb_leb, negb_false_iff. by rewrite <- Is_true_true. Qed.

Lemma string_ltb_le x y : (x <? y)%go = true → String.le x y.
Proof.
  rewrite string_ltb_leb, negb_true_iff. intros Hyx.
  destruct (total String.le x y) as [|Hle]; [done|].
  exfalso. apply Is_true_true in Hle. congruence.
Qed.

Lemma string_ltb_irrefl x : (x <? x)%go = false.
Proof. by apply string_ltb_ge. Qed.

#[export] Instance less_by_string_weak {A} (key : A → string) :
  StrictWeak (less_by_string key).
Proof.
  unfold less_by_string. split.
  - intros x y. rewrite string_ltb_leb, negb_true_iff, string_ltb_ge.
    intros H. destruct (String.leb_total (key x) (key y)) as [H'|H'].
    + by apply Is_true_true.
    + congruence.
  - intros x y z. rewrite !string_ltb_ge. by intros; etrans.
Qed.

#[export] Instance less_by_int_weak {A} (key : A → Z) : StrictWeak (less_by_int key).
Proof. unfold less_by_int. split; intros; bool_hyps; apply Z.ltb_ge; lia. Qed.

(** Two slices with the same elements sort to the same slice when no two distinct
    elements compare equal, whatever the runtime does with ties. *)
Lemma sort_slice_unique {A} (R1 R2 : GoRuntime) (less : A → A → bool) (l1 l2 : list A) :
  StrictWeak less →
  l1 ≡ₚ l2 →
  (∀ x y, x ∈ l1 → y ∈ l1 → less x y = false → less y x = false → x = y) →
  @sort_slice R1 _ less l1 = @sort_slice R2 _ less l2.
Proof.
  intros HW Hp Hinj.
  eapply (StronglySorted_unique_strong (not_after less)).
  - intros x y Hx Hy ??. apply Hinj; try done.
    + by rewrite (@sort_slice_perm R1) in Hx.
    + by rewrite (@sort_slice_perm R2), <- Hp in Hy.
  - by apply sort_slice_sorted.
  - by apply sort_slice_sorted.
  - by rewrite !sort_slice_perm.
Qed.

Lemma less_by_string_eq {A} (key : A → string) x y :
  less_by_string key x y = false → less_by_string key y x = false → key x = key y.
Proof.
  unfold less_by_string. rewrite !string_ltb_ge. intros. by apply (anti_symm String.le).
Qed.

Lemma less_by_int_eq {A} (key : A → Z) x y :
  less_by_int key x y = false → less_by_int key y x = false → key x = key y.
Proof. unfold less_by_int. intros; bool_hyps; lia. Qed.

Lemma sort_strings_perm l : sort_strings l ≡ₚ l.
Proof. apply merge_sort_Permutation. Qed.

Lemma sort_strings_sorted l : StronglySorted String.le (sort_strings l).
Proof. apply StronglySorted_merge_sort; apply _. Qed.

Lemma sort_strings_proper l1 l2 : l1 ≡ₚ l2 → sort_strings l1 = sort_strings l2.
Proof.
  intros Hp. eapply (StronglySorted_unique String.le); [apply sort_strings_sorted..|].
  by rewrite !sort_strings_perm.
Qed.

Lemma sort_ints_perm l : sort_ints l ≡ₚ l.
Proof. apply merge_sort_Permutation. Qed.

Lemma sort_ints_sorted l : StronglySorted Z.le (sort_ints l).
Proof. apply StronglySorted_merge_sort; apply _. Qed.

Lemma sort_ints_proper l1 l2 : l1 ≡ₚ l2 → sort_ints l1 = sort_ints l2.
Proof.
  intros Hp. eapply (StronglySorted_unique Z.le); [apply sort_ints_sorted..|].
  by rewrite !sort_ints_perm.
Qed.

(** ** Iteration lemmas *)

Section range.
Context `{GoRuntime}.

Lemma elem_of_go_range {V} s (m : gmap string V) k v :
  (k, v) ∈ go_range s m ↔ m !! k = Some v.
Proof. rewrite go_range_perm. apply elem_of_map_to_list. Qed.

Lemma elem_of_range_values {V} s (m : gmap string V) v :
  v ∈ range_values s m ↔ ∃ k, m !! k = Some v.
Proof.
  unfold range_values. rewrite list_elem_of_fmap. split.
  - intros ([k v'] & -> & Hin). exists k. by apply elem_of_go_range in Hin.
  - intros [k Hk]. exists (k, v). split; [done|]. by apply elem_of_go_range.
Qed.

Lemma NoDup_go_range_fst {V} s (m : gmap string V) : NoDup (go_range s m).*1.
Proof. rewrite go_range_perm. apply NoDup_fst_map_to_list. Qed.

Lemma NoDup_go_range {V} s (m : gmap string V) : NoDup (go_range s m).
Proof. eapply NoDup_fmap_1, NoDup_go_range_fst. Qed.

Lemma length_go_range {V} s (m : gmap string V) : length (go_range s m) = size m.
Proof. rewrite go_range_perm. apply length_map_to_list. Qed.
End range.

Lemma go_range_perm2 (R1 R2 : GoRuntime) {V} s1 s2 (m : gmap string V) :
  @go_range R1 _ _ _ _ s1 m ≡ₚ @go_range R2 _ _ _ _ s2 m.
Proof. by rewrite !go_range_perm. Qed.

Lemma range_values_perm2 (R1 R2 : GoRuntime) {V} s1 s2 (m : gmap string V) :
  @range_values R1 _ s1 m ≡ₚ @range_values R2 _ s2 m.
Proof. unfold range_values. by rewrite (go_range_perm2 R1 R2 s1 s2). Qed.

(** ** List lemmas shared by the components *)

(** A fold whose step commutes does not depend on the order of the list. *)
Lemma foldl_permutation {A B} (f : B → A → B) (b : B) (l1 l2 : list A) :
  (∀ b x y, f (f b x) y = f (f b y) x) → l1 ≡ₚ l2 → foldl f b l1 = foldl f b l2.
Proof.
  intros Hc Hp. revert b.
  induction Hp as [|x l1 l2 _ IH|x y l|l1 l2 l3 _ IH1 _ IH2]; intros b; simpl; auto.
  - by rewrite Hc.
  - by rewrite IH1.
Qed.

Lemma foldl_invariant {A B} (P : B → Prop) (f : B → A → B) (l : list A) : ∀ b,
  (∀ b x, P b → P (f b x)) → P b → P (foldl f b l).
Proof. induction l; simpl; auto. Qed.

Lemma existsb_permutation {A} (f : A → bool) l1 l2 :
  l1 ≡ₚ l2 → existsb f l1 = existsb f l2.
Proof.
  induction 1 as [|x l1 l2 _ IH|x y l|l1 l2 l3 _ IH1 _ IH2]; simpl; try congruence.
  destruct (f x), (f y); done.
Qed.

Lemma forallb_permutation {A} (f : A → bool) l1 l2 :
  l1 ≡ₚ l2 → forallb f l1 = forallb f l2.
Proof.
  induction 1 as [|x l1 l2 _ IH|x y l|l1 l2 l3 _ IH1 _ IH2]; simpl; try congruence.
  destruct (f x), (f y); done.
Qed.

Lemma existsb_elem_of {A} (f : A → bool) l :
  existsb f l = true ↔ ∃ x, x ∈ l ∧ f x = true.
Proof. rewrite existsb_exists. setoid_rewrite list_elem_of_In. done. Qed.

Lemma existsb_false_elem_of {A} (f : A → bool) l :
  existsb f l = false ↔ ∀ x, x ∈ l → f x = false.
Proof.
  rewrite <- not_true_iff_false, existsb_elem_of. split.
  - intros Hn x Hx. apply not_true_iff_false. intros ?. apply Hn; eauto.
  - intros Hall (x & Hx & Hf). rewrite (Hall x Hx) in Hf. done.
Qed.

Lemma forallb_elem_of {A} (f : A → bool) l :
  forallb f l = true ↔ ∀ x, x ∈ l → f x = true.
Proof. rewrite forallb_forall. setoid_rewrite list_elem_of_In. done. Qed.

(** A boolean filter as the code's [if cond { out = append(out, x) }] loops write it. *)
Definition bfilter {A} (f : A → bool) (l : list A) : list A := List.filter f l.

Lemma elem_of_bfilter {A} (f : A → bool) l x :
  x ∈ bfilter f l ↔ x ∈ l ∧ f x = true.
Proof. unfold bfilter. rewrite !list_elem_of_In. apply filter_In. Qed.

Lemma bfilter_app {A} (f : A → bool) l1 l2 : bfilter f (l1 ++ l2) = bfilter f l1 ++ bfilter f l2.
Proof. apply List.filter_app. Qed.

Lemma bfilter_permutation {A} (f : A → bool) l1 l2 :
  l1 ≡ₚ l2 → bfilter f l1 ≡ₚ bfilter f l2.
Proof.
  unfold bfilter.
  induction 1 as [|x l1 l2 _ IH|x y l|l1 l2 l3 _ IH1 _ IH2]; simpl; auto.
  - destruct (f x); auto.
  - destruct (f x), (f y); auto. apply Permutation_swap.
  - by rewrite IH1.
Qed.

Lemma bfilter_nil {A} (f : A → bool) l :
  bfilter f l = [] ↔ ∀ x, x ∈ l → f x = false.
Proof.
  split.
  - intros Hn x Hx. destruct (f x) eqn:E; [|done].
    assert (x ∈ bfilter f l) as Hin by (by apply elem_of_bfilter).
    rewrite Hn in Hin. by apply elem_of_nil in Hin.
  - intros Hall. destruct (bfilter f l) as [|y k] eqn:E; [done|].
    assert (y ∈ bfilter f l) as Hin by (rewrite E; left).
    apply elem_of_bfilter in Hin as [Hy Hf]. by rewrite Hall in Hf.
Qed.

Lemma foldl_insert {A} (kvs : list (string * A)) : ∀ m : gmap string A,
  NoDup kvs.*1 →
  foldl (λ m kv, <[kv.1 := kv.2]> m) m kvs = list_to_map kvs ∪ m.
Proof.
  induction kvs as [|[k v] kvs IH]; intros m Hnd; simpl; [by rewrite (left_id_L ∅ (∪))|].
  apply NoDup_cons in Hnd as [Hk Hnd]. rewrite IH by done.
  rewrite <-insert_union_r by (by apply not_elem_of_list_to_map_1).
  by rewrite insert_union_l.
Qed.

Lemma if_orb {A} (b1 b2 : bool) (x y : A) :
  (if b1 || b2 then x else y) = (if b1 then x else if b2 then x else y).
Proof. by destruct b1. Qed.

Lemma bfilter_length_mono {A} (f g : A → bool) l :
  (∀ x, x ∈ l → f x = true → g x = true) → (length (bfilter f l) ≤ length (bfilter g l))%nat.
Proof.
  unfold bfilter. induction l as [|x l IH]; intros Hfg; simpl; [done|].
  assert (length (List.filter f l) ≤ length (List.filter g l))%nat by (apply IH; set_solver).
  specialize (Hfg x ltac:(left)). destruct (f x); [rewrite Hfg by done; simpl; lia|].
  destruct (g x); simpl; lia.
Qed.

Lemma bfilter_length_strict {A} (f g : A → bool) l y :
  (∀ x, x ∈ l → f x = true → g x = true) → y ∈ l → g y = true → f y = false →
  (length (bfilter f l) < length (bfilter g l))%nat.
Proof.
  intros Hfg Hy Hg Hf. apply list_elem_of_split in Hy as (l1 & l2 & ->). unfold bfilter.
  rewrite !List.filter_app, !length_app. simpl. rewrite Hf, Hg. simpl.
  pose proof (bfilter_length_mono f g l1) as H1. pose proof (bfilter_length_mono f g l2) as H2.
  unfold bfilter in *. specialize (H1 ltac:(set_solver)). specialize (H2 ltac:(set_solver)). lia.
Qed.

Lemma NoDup_bfilter_fmap {A B} (g : A → B) (f : A → bool) l :
  NoDup (g <$> l) → NoDup (g <$> bfilter f l).
Proof.
  unfold bfilter. induction l as [|x l IH]; simpl; [done|].
  rewrite NoDup_cons. intros [Hx Hl]. destruct (f x); [|by apply IH]. simpl.
  apply NoDup_cons. split; [|by apply IH]. intros (y & Hy & Hin)%list_elem_of_fmap.
  apply Hx, list_elem_of_fmap. exists y. split; [done|]. by apply elem_of_bfilter in Hin as [? _].
Qed.

(** ** Two concrete runtimes

    They differ in the order of every map with more than one entry; the witnesses
    evaluate the definitions in one or both of them. *)

(** The comparison as a relation on which [merge_sort] computes. *)
Definition may_precede {A} (less : A → A → bool) (x y : A) : Prop :=
  Is_true (negb (less y x)).

#[export] Instance may_precede_dec {A} (less : A → A → bool) :
  RelDecision (may_precede less).
Proof. intros x y. unfold may_precede. apply _. Defined.

Lemma may_precede_not_after {A} (less : A → A → bool) x y :
  may_precede less x y ↔ not_after less x y.
Proof.
  unfold may_precede, not_after. rewrite Is_true_true. apply negb_true_iff.
Qed.

Lemma merge_sort_may_precede {A} (less : A → A → bool) (l : list A) :
  StrictWeak less → StronglySorted (not_after less) (merge_sort (may_precede less) l).
Proof.
  intros HW.
  assert (Transitive (may_precede less)).
  { intros x y z. rewrite !may_precede_not_after. apply less_neg_trans. }
  assert (Total (may_precede less)).
  { intros x y. rewrite !may_precede_not_after. unfold not_after.
    destruct (less y x) eqn:E; [right; by apply less_asym|by left]. }
  assert (StronglySorted (may_precede less) (merge_sort (may_precede less) l)) as HS
    by (apply StronglySorted_merge_sort; apply _).
  induction HS as [|x k _ IH Hall]; constructor; [done|].
  eapply Forall_impl; [done|]. intros y. by rewrite may_precede_not_after.
Qed.

Definition ref_runtime : GoRuntime.
Proof.
  refine {|
    go_range K _ _ V _ m := map_to_list m;
    sort_slice A less l := merge_sort (may_precede less) l;
    go_schedule A _ l := l;
  |}.
  - done.
  - intros. apply merge_sort_Permutation.
  - intros. by apply merge_sort_may_precede.
  - done.
Defined.

Definition rev_runtime : GoRuntime.
Proof.
  refine {|
    go_range K _ _ V _ m := reverse (map_to_list m);
    sort_slice A less l := merge_sort (may_precede less) (reverse l);
    go_schedule A _ l := reverse l;
  |}.
  - intros. by rewrite reverse_Permutation.
  - intros. rewrite merge_sort_Permutation. by rewrite reverse_Permutation.
  - intros. by apply merge_sort_may_precede.
  - intros. by rewrite reverse_Permutation.
Defined.

(** ** Hint database of the development *)

Create HintDb go discriminated.
#[export] Hint Resolve less_by_string_weak less_by_int_weak : go.
#[export] Hint Resolve sort_strings_perm sort_ints_perm go_range_perm2 range_values_perm2
  bfilter_permutation sort_slice_perm : go.
