(* ===== verification/GoStrings.v ===== *)
(** * The parts of Go's [strings] and [strconv] packages the operator uses

    Go strings are byte sequences; they are modelled by [string].  White space and
    case conversion are those of ASCII, which is all that the Redis replies, pod
    names and addresses handled here contain. *)

From Stdlib Require Import Ascii.
From S2P Require Import Prelude.

Open Scope go_scope.

(** ** [strings] *)

(** [strings.HasPrefix s p]. *)
Definition has_prefix (s p : string) : bool := String.prefix p s.

(** [strings.Contains s sub]. *)
Fixpoint str_contains (s sub : string) : bool :=
  String.prefix sub s ||
  match s with
  | EmptyString => false
  | String _ s' => str_contains s' sub
  end.

(** [strings.Split s sep] for a one-byte separator: never empty. *)
Fixpoint split_on (sep : ascii) (s : string) : list string :=
  match s with
  | EmptyString => [EmptyString]
  | String c s' =>
      if Ascii.eqb c sep then EmptyString :: split_on sep s'
      else match split_on sep s' with
           | [] => [String c EmptyString]
           | w :: ws => String c w :: ws
           end
  end.

(** [strings.SplitN s sep 2] for a one-byte separator. *)
Fixpoint split2_on (sep : ascii) (s : string) : list string :=
  match s with
  | EmptyString => [EmptyString]
  | String c s' =>
      if Ascii.eqb c sep then [EmptyString; s']
      else match split2_on sep s' with
           | [] => [String c EmptyString]
           | w :: ws => String c w :: ws
           end
  end.

(** [strings.Index s sep] for a one-byte separator, with the prefix before it:
    [Some p] is [s[:i]] for [i] the index found, [None] is [-1]. *)
Fixpoint before_byte (sep : ascii) (s : string) : option string :=
  match s with
  | EmptyString => None
  | String c s' =>
      if Ascii.eqb c sep then Some EmptyString else String c <$> before_byte sep s'
  end.

Fixpoint trim_left (s : string) : string :=
  match s with
  | String c s' => if Ascii.is_space c then trim_left s' else s
  | EmptyString => EmptyString
  end.

(** [strings.TrimSpace s]. *)
Definition trim_space (s : string) : string :=
  String.rev (trim_left (String.rev (trim_left s))).

(** [strings.Fields s]: the maximal runs of non-space bytes. *)
Definition fields (s : string) : list string := String.words s.

Definition lower_byte (c : ascii) : ascii :=
  let n := nat_of_ascii c in
  if (65 <=? n)%nat && (n <=? 90)%nat then ascii_of_nat (n + 32) else c.

(** [strings.ToLower s]. *)
Fixpoint to_lower (s : string) : string :=
  match s with
  | EmptyString => EmptyString
  | String c s' => String (lower_byte c) (to_lower s')
  end.

(** [strings.Join l sep]. *)
Fixpoint str_join (sep : string) (l : list string) : string :=
  match l with
  | [] => EmptyString
  | [s] => s
  | s :: l' => s +:+ sep +:+ str_join sep l'
  end.

(** ** [strconv] *)

Fixpoint parse_digits (acc : Z) (s : string) : option Z :=
  match s with
  | EmptyString => Some acc
  | String c s' =>
      match Ascii.is_nat c with
      | Some d => parse_digits (acc * 10 + Z.of_nat d) s'
      | None => None
      end
  end.

(** A non-empty run of decimal digits. *)
Definition parse_unsigned (s : string) : option Z :=
  match s with EmptyString => None | _ => parse_digits 0 s end.

(** [strconv.Atoi s], which is [strconv.ParseInt s 10 64]: an optional sign, at
    least one digit, and a value in range; [None] is any error. *)
Definition atoi (s : string) : option Z :=
  let r := match s with
           | String c s' =>
               if Ascii.eqb c "-"%char then Z.opp <$> parse_unsigned s'
               else if Ascii.eqb c "+"%char then parse_unsigned s'
               else parse_unsigned s
           | EmptyString => None
           end in
  match r with
  | Some z => if in_int64 z then Some z else None
  | None => None
  end.

(** [strconv.Itoa], and the verb [%d]. *)
Definition itoa (z : Z) : string := pretty z.

(** [strconv.Quote], and the verb [%q] of a string.  Bytes beyond ASCII, which no name
    handled here contains, are escaped one by one as those of an invalid encoding are. *)
Definition hex_digit (n : nat) : ascii :=
  ascii_of_nat (if (n <? 10)%nat then 48 + n else 87 + n).

Definition quote_byte (c : ascii) : string :=
  let n := nat_of_ascii c in
  let escaped c := String "092" (String c EmptyString) in
  match n with
  | 34 => escaped "034" | 92 => escaped "092"
  | 7 => escaped "a" | 8 => escaped "b" | 12 => escaped "f" | 10 => escaped "n"
  | 13 => escaped "r" | 9 => escaped "t" | 11 => escaped "v"
  | _ => if (31 <? n)%nat && (n <? 127)%nat then String c EmptyString
         else String "092" (String "x" (String (hex_digit (n / 16))
                (String (hex_digit (n mod 16)) EmptyString)))
  end%char.

Fixpoint quote_bytes (s : string) : string :=
  match s with
  | EmptyString => EmptyString
  | String c s' => quote_byte c +:+ quote_bytes s'
  end.

Definition Quote (s : string) : string :=
  String "034" (quote_bytes s +:+ String "034" EmptyString).

(** The digits of [strconv.ParseUint]: it stops at the first digit that leaves the 64-bit
    range, before it looks at the rest of the text. *)
Fixpoint scan_uint (acc : Z) (s : string) : option Z :=
  match s with
  | EmptyString => Some acc
  | String c s' =>
      match Ascii.is_nat c with
      | Some d => let acc' := (acc * 10 + Z.of_nat d)%Z in
                  if (2 ^ 64 - 1 <? acc')%Z then Some (2 ^ 64 - 1)%Z else scan_uint acc' s'
      | None => None
      end
  end.

Definition parse_uint (s : string) : option Z :=
  match s with EmptyString => None | _ => scan_uint 0 s end.

(** [n, _ = strconv.ParseInt(s, 10, 64)], and [strconv.Atoi] likewise: the value is 0 for
    a syntax error and the nearest bound for a value out of range. *)
Definition atoi_or_zero (s : string) : Z :=
  let r := match s with
           | String c s' =>
               if Ascii.eqb c "-"%char then Z.opp <$> parse_uint s'
               else if Ascii.eqb c "+"%char then parse_uint s'
               else parse_uint s
           | EmptyString => None
           end in
  match r with
  | Some z => Z.max int64_min (Z.min int64_max z)
  | None => 0%Z
  end.

(** ** Lemmas *)

Lemma split_on_ne_nil sep s : split_on sep s ≠ [].
Proof. destruct s; simpl; [done|]. case_match; [done|]. by case_match. Qed.

(** A byte that does not occur in [s]. *)
Fixpoint byte_free (c : ascii) (s : string) : Prop :=
  match s with
  | EmptyString => True
  | String d s' => d ≠ c ∧ byte_free c s'
  end.

Lemma split_on_free sep s : byte_free sep s → split_on sep s = [s].
Proof.
  induction s as [|c s IH]; simpl; [done|]. intros [Hc Hs].
  rewrite (IH Hs). destruct (Ascii.eqb_spec c sep); [done|]. done.
Qed.

Lemma byte_free_app c s t : byte_free c s → byte_free c t → byte_free c (s +:+ t).
Proof. induction s as [|d s IH]; [done|]. intros [? ?] ?. split; auto. Qed.

Lemma split_on_app sep s t :
  byte_free sep s → split_on sep (s +:+ String sep t) = s :: split_on sep t.
Proof.
  induction s as [|c s IH]; simpl.
  - intros _. change (EmptyString +:+ String sep t) with (String sep t). simpl.
    by rewrite Ascii.eqb_refl.
  - intros [Hc Hs]. change (String c s +:+ String sep t) with (String c (s +:+ String sep t)).
    simpl. destruct (Ascii.eqb_spec c sep); [done|]. by rewrite (IH Hs).
Qed.

Lemma is_nat_pretty_char (x : N) :
  (x < 10)%N → Ascii.is_nat (pretty_N_char x) = Some (N.to_nat x).
Proof.
  intros Hx.
  assert (x = 0 ∨ x = 1 ∨ x = 2 ∨ x = 3 ∨ x = 4 ∨ x = 5 ∨ x = 6 ∨ x = 7 ∨ x = 8 ∨ x = 9)%N
    as Hc by lia.
  by repeat destruct Hc as [->|Hc]; [..|subst].
Qed.

Lemma parse_digits_pretty_go (x : N) (s : string) :
  parse_digits 0 (pretty_N_go x s) = parse_digits (Z.of_N x) s.
Proof.
  revert s. induction (N.lt_wf_0 x) as [x _ IH]; intros s.
  destruct (decide (x = 0)%N) as [->|Hx].
  { by rewrite pretty_N_go_0. }
  rewrite pretty_N_go_step by lia.
  rewrite IH by (apply N.div_lt; lia). simpl.
  rewrite is_nat_pretty_char by (apply N.mod_lt; lia).
  f_equal. rewrite N_nat_Z.
  rewrite N2Z.inj_div, N2Z.inj_mod.
  pose proof (Z.div_mod (Z.of_N x) 10). lia.
Qed.

Lemma pretty_N_go_ne_empty (x : N) s : s ≠ EmptyString → pretty_N_go x s ≠ EmptyString.
Proof.
  revert s. induction (N.lt_wf_0 x) as [x _ IH]; intros s Hs.
  destruct (decide (x = 0)%N) as [->|Hx]; [by rewrite pretty_N_go_0|].
  rewrite pretty_N_go_step by lia. apply IH; [apply N.div_lt; lia|done].
Qed.

Lemma pretty_N_ne_empty (x : N) : pretty x ≠ EmptyString.
Proof.
  unfold pretty, pretty_N. case_decide; [done|].
  rewrite pretty_N_go_step by lia. by apply pretty_N_go_ne_empty.
Qed.

Lemma parse_unsigned_pretty (x : N) : parse_unsigned (pretty x) = Some (Z.of_N x).
Proof.
  unfold parse_unsigned. pose proof (pretty_N_ne_empty x).
  destruct (pretty x) eqn:E; [done|]. rewrite <- E.
  unfold pretty, pretty_N. case_decide; [by subst|].
  by rewrite parse_digits_pretty_go.
Qed.

(** Digits, and only digits. *)
Fixpoint all_digits (s : string) : Prop :=
  match s with
  | EmptyString => True
  | String c s' => Ascii.is_nat c ≠ None ∧ all_digits s'
  end.

Lemma all_digits_pretty_go (x : N) s : all_digits s → all_digits (pretty_N_go x s).
Proof.
  revert s. induction (N.lt_wf_0 x) as [x _ IH]; intros s Hs.
  destruct (decide (x = 0)%N) as [->|Hx]; [by rewrite pretty_N_go_0|].
  rewrite pretty_N_go_step by lia. apply IH; [apply N.div_lt; lia|]. simpl.
  by rewrite is_nat_pretty_char by (apply N.mod_lt; lia).
Qed.

Lemma all_digits_pretty_N (x : N) : all_digits (pretty x).
Proof. unfold pretty, pretty_N. case_decide; [done|]. by apply all_digits_pretty_go. Qed.

Lemma itoa_nonneg z : (0 ≤ z)%Z → itoa z = pretty (Z.to_N z).
Proof. intros. unfold itoa. by destruct z. Qed.

Lemma all_digits_itoa z : (0 ≤ z)%Z → all_digits (itoa z).
Proof. intros. rewrite itoa_nonneg by done. apply all_digits_pretty_N. Qed.

Lemma all_digits_free c s : Ascii.is_nat c = None → all_digits s → byte_free c s.
Proof. intros Hc. induction s; simpl; naive_solver. Qed.

(** Parsing is the inverse of printing on every 64-bit integer. *)
Lemma atoi_itoa z : in_int64 z = true → atoi (itoa z) = Some z.
Proof.
  intros Hz. unfold itoa, atoi. destruct z as [|p|p].
  - done.
  - change (pretty (Z.pos p)) with (pretty (N.pos p)).
    pose proof (all_digits_pretty_N (N.pos p)) as Hd.
    pose proof (parse_unsigned_pretty (N.pos p)) as Hp.
    destruct (pretty (N.pos p)) as [|c s]; [done|].
    destruct Hd as [Hc _].
    assert (Ascii.eqb c "-"%char = false) as -> by (apply Ascii.eqb_neq; naive_solver).
    assert (Ascii.eqb c "+"%char = false) as -> by (apply Ascii.eqb_neq; naive_solver).
    rewrite Hp. simpl Z.of_N. by rewrite Hz.
  - change (pretty (Z.neg p)) with (String "-" (pretty (N.pos p))).
    simpl. rewrite parse_unsigned_pretty. simpl.
    change (- Z.pos p)%Z with (Z.neg p). by rewrite Hz.
Qed.

Lemma itoa_inj z1 z2 : itoa z1 = itoa z2 → z1 = z2.
Proof. intros. unfold itoa in *. by apply (inj pretty). Qed.

Lemma has_prefix_app p s : has_prefix (p +:+ s) p = true.
Proof.
  unfold has_prefix. induction p as [|c p IH]; [by destruct s|].
  simpl. by destruct (Ascii.ascii_dec c c).
Qed.
