(* ===== verification/Slots.v ===== *)
(** * Hash-slot ranges (src/internal/redis/cluster_client.go)

    [GenerateSlotRanges], [FormatSlotRange], [ParseSlotRange] and
    [ExpandSlotRange].  The theorems show that the generated ranges are an exact,
    balanced partition of the 16384 slots and that printing and parsing a range are
    inverse to each other. *)

From Stdlib Require Import Ascii.
From S2P Require Import Prelude GoStrings.

Open Scope Z_scope.

(** ** Definitions *)

Definition totalClusterSlots : Z := 16384.

Record SlotRange := mkRange { Start : Z; End : Z }.

#[export] Instance SlotRange_eq_dec : EqDecision SlotRange.
Proof. solve_decision. Defined.

(** The loop [for i := range shards]; [n] iterations are left. *)
Fixpoint generate_loop (n : nat) (i start slotsPerShard remainder : Z) : list SlotRange :=
  match n with
  | O => []
  | S n' =>
      let count := if i <? remainder then slotsPerShard + 1 else slotsPerShard in
      mkRange start (start + count - 1)
        :: generate_loop n' (i + 1) (start + count) slotsPerShard remainder
  end.

Definition GenerateSlotRanges (shards : Z) : list SlotRange :=
  if shards <=? 0 then []
  else generate_loop (Z.to_nat shards) 0 0
         (Z.quot totalClusterSlots shards) (Z.rem totalClusterSlots shards).

Definition FormatSlotRange (start end_ : Z) : string :=
  if start =? end_ then itoa start
  else itoa start +:+ String "-" (itoa end_).

(** [None] is a non-nil [err]. *)
Definition ParseSlotRange (s : string) : option (Z * Z) :=
  match split_on "-"%char s with
  | [p0] => start ← atoi p0; Some (start, start)
  | [p0; p1] => start ← atoi p0; end_ ← atoi p1; Some (start, end_)
  | _ => None
  end.

(** [make([]int, end-start+1)] panics on a negative length. *)
Definition ExpandSlotRange (s : string) : outcome (list Z) :=
  match ParseSlotRange s with
  | None => Err
  | Some (start, end_) =>
      let len := wrap64 (end_ - start + 1) in
      if len <? 0 then Panic else Ok (seqZ start len)
  end.

(** ** Lemmas *)

(** The [k]-th range in closed form: [k] full shares, plus one slot for each earlier
    shard that received a remainder slot. *)
Definition range_start (q r k : Z) : Z := k * q + Z.min k r.

Lemma generate_loop_lookup n i start q r k :
  start = range_start q r i →
  0 ≤ i →
  (k < n)%nat →
  generate_loop n i start q r !! k =
    Some (mkRange (range_start q r (i + Z.of_nat k))
                  (range_start q r (i + Z.of_nat k + 1) - 1)).
Proof.
  revert i start k. induction n as [|n IH]; intros i start k Hs Hi Hk; [lia|].
  destruct k as [|k]; simpl.
  - rewrite Z.add_0_r. subst start. do 2 f_equal.
    unfold range_start. destruct (Z.ltb_spec i r); lia.
  - rewrite IH; [|subst; unfold range_start; destruct (Z.ltb_spec i r); lia|lia..].
    by replace (i + 1 + Z.of_nat k) with (i + Z.of_nat (S k)) by lia.
Qed.

Lemma length_generate_loop n i start q r : length (generate_loop n i start q r) = n.
Proof. revert i start. induction n; intros; simpl; auto. Qed.

Lemma length_GenerateSlotRanges shards :
  length (GenerateSlotRanges shards) = Z.to_nat shards.
Proof.
  unfold GenerateSlotRanges. destruct (Z.leb_spec shards 0).
  - by rewrite Z2Nat.nonpos.
  - apply length_generate_loop.
Qed.

(** The share of each shard and the number of shards that receive one slot more. *)
Definition per_shard (shards : Z) : Z := totalClusterSlots / shards.
Definition left_over (shards : Z) : Z := totalClusterSlots mod shards.

Lemma GenerateSlotRanges_lookup shards k r :
  GenerateSlotRanges shards !! k = Some r →
  0 < shards ∧ Z.of_nat k < shards ∧
  Start r = range_start (per_shard shards) (left_over shards) (Z.of_nat k) ∧
  End r = range_start (per_shard shards) (left_over shards) (Z.of_nat k + 1) - 1.
Proof.
  intros Hk. pose proof (lookup_lt_Some _ _ _ Hk) as Hlt.
  rewrite length_GenerateSlotRanges in Hlt.
  unfold GenerateSlotRanges, per_shard, left_over, totalClusterSlots in *.
  destruct (Z.leb_spec shards 0); [done|].
  rewrite Z.quot_div_nonneg, Z.rem_mod_nonneg in Hk by lia.
  pose proof (Z.mod_pos_bound 16384 shards).
  rewrite generate_loop_lookup in Hk by (unfold range_start; lia).
  simplify_eq/=. split_and!; (done || lia).
Qed.

Lemma range_start_total shards :
  0 < shards →
  range_start (per_shard shards) (left_over shards) shards = totalClusterSlots.
Proof.
  intros Hs. unfold range_start, per_shard, left_over.
  pose proof (Z.mod_pos_bound totalClusterSlots shards Hs).
  pose proof (Z.div_mod totalClusterSlots shards). lia.
Qed.

Lemma range_start_mono q r j k : 0 ≤ q → j ≤ k → range_start q r j ≤ range_start q r k.
Proof. unfold range_start. nia. Qed.

Lemma per_shard_pos shards : 0 < shards → 0 ≤ per_shard shards.
Proof. intros. apply Z.div_pos; unfold totalClusterSlots; lia. Qed.

(** Shard 0 always owns a slot. *)
Lemma range_start_1 shards : 0 < shards → 0 < range_start (per_shard shards) (left_over shards) 1.
Proof.
  intros Hs. pose proof (per_shard_pos shards Hs).
  pose proof (Z.mod_pos_bound totalClusterSlots shards Hs).
  unfold range_start, per_shard, left_over in *.
  pose proof (Z.div_mod totalClusterSlots shards).
  unfold totalClusterSlots in *.
  destruct (decide (16384 / shards = 0)); nia.
Qed.

Lemma GenerateSlotRanges_bounds shards k r :
  GenerateSlotRanges shards !! k = Some r →
  0 ≤ Start r ∧ 0 ≤ End r ∧ Start r - 1 ≤ End r ∧ End r < totalClusterSlots.
Proof.
  intros (Hs & Hlt & -> & ->)%GenerateSlotRanges_lookup.
  pose proof (range_start_total shards Hs) as Ht.
  pose proof (range_start_1 shards Hs) as H1.
  pose proof (per_shard_pos shards Hs) as Hq.
  set (q := per_shard shards) in *. set (m := left_over shards) in *.
  pose proof (range_start_mono q m 0 (Z.of_nat k)).
  pose proof (range_start_mono q m 1 (Z.of_nat k + 1)).
  pose proof (range_start_mono q m (Z.of_nat k) (Z.of_nat k + 1)).
  pose proof (range_start_mono q m (Z.of_nat k + 1) shards).
  assert (range_start q m 0 = 0).
  { pose proof (Z.mod_pos_bound totalClusterSlots shards Hs).
    unfold range_start, m, left_over. lia. }
  lia.
Qed.

Lemma range_in_int64 z : 0 ≤ z ≤ totalClusterSlots → in_int64 z = true.
Proof.
  unfold in_int64, int64_min, int64_max, totalClusterSlots. intros.
  apply andb_true_iff; split; apply Z.leb_le; lia.
Qed.

Lemma itoa_dash_free z : 0 ≤ z → byte_free "-"%char (itoa z).
Proof. intros. apply all_digits_free; [done|by apply all_digits_itoa]. Qed.

Lemma ParseSlotRange_FormatSlotRange s e :
  0 ≤ s ≤ int64_max → 0 ≤ e ≤ int64_max →
  ParseSlotRange (FormatSlotRange s e) = Some (s, e).
Proof.
  intros Hs He.
  assert (in_int64 s = true ∧ in_int64 e = true) as [Hs' He'].
  { unfold in_int64, int64_min, int64_max in *.
    by rewrite !andb_true_iff, !Z.leb_le; lia. }
  unfold FormatSlotRange, ParseSlotRange. destruct (Z.eqb_spec s e) as [->|].
  - rewrite split_on_free by (apply itoa_dash_free; lia). simpl.
    by rewrite atoi_itoa.
  - rewrite split_on_app, split_on_free by (apply itoa_dash_free; lia). simpl.
    by rewrite !atoi_itoa.
Qed.

Lemma generate_loop_concat n i start q r :
  0 ≤ q → 0 ≤ i → start = range_start q r i →
  concat ((λ g, seqZ (Start g) (End g - Start g + 1)) <$> generate_loop n i start q r)
    = seqZ start (range_start q r (i + Z.of_nat n) - start).
Proof.
  revert i start. induction n as [|n IH]; intros i start Hq Hi Hs; simpl.
  { rewrite Z.add_0_r, <- Hs, Z.sub_diag. done. }
  set (c := if i <? r then q + 1 else q).
  assert (range_start q r (i + 1) = start + c) as Hc.
  { subst start c. unfold range_start. destruct (Z.ltb_spec i r); lia. }
  assert (0 ≤ c) by (subst c; case_match; lia).
  rewrite IH by lia.
  replace (start + c - 1 - start + 1) with c by lia.
  replace (i + 1 + Z.of_nat n) with (i + Z.of_nat (S n)) by lia.
  pose proof (range_start_mono q r (i + 1) (i + Z.of_nat (S n))).
  replace (range_start q r (i + Z.of_nat (S n)) - start)
    with (c + (range_start q r (i + Z.of_nat (S n)) - (start + c))) by lia.
  rewrite seqZ_app by lia. done.
Qed.

Lemma ExpandSlotRange_generated shards k r :
  GenerateSlotRanges shards !! k = Some r →
  ExpandSlotRange (FormatSlotRange (Start r) (End r))
    = Ok (seqZ (Start r) (End r - Start r + 1)).
Proof.
  intros Hk. pose proof (GenerateSlotRanges_bounds _ _ _ Hk) as (? & ? & ? & ?).
  unfold ExpandSlotRange, totalClusterSlots in *.
  rewrite ParseSlotRange_FormatSlotRange by (unfold int64_max; lia). simpl.
  rewrite wrap64_id by (apply range_in_int64; unfold totalClusterSlots; lia).
  destruct (Z.ltb_spec (End r - Start r + 1) 0); [lia|done].
Qed.

(** Two ranges of one cluster shape that start and end alike are the same shard, so
    comparing bounds identifies the shard index. *)
Lemma GenerateSlotRanges_inj shards j k r :
  shards ≤ totalClusterSlots →
  GenerateSlotRanges shards !! j = Some r →
  GenerateSlotRanges shards !! k = Some r → j = k.
Proof.
  intros Hle (Hs & Hj & Hsj & _)%GenerateSlotRanges_lookup
    (_ & Hk & Hsk & _)%GenerateSlotRanges_lookup.
  assert (1 ≤ per_shard shards).
  { unfold per_shard. apply Z.div_le_lower_bound; lia. }
  unfold range_start in *. nia.
Qed.

(** ** Properties *)

(** The ranges [expanded] into slot numbers, in shard order, the way bootstrap hands
    them to CLUSTER ADDSLOTS. *)
Definition assigned_slots (shards : Z) : list (outcome (list Z)) :=
  (λ r, ExpandSlotRange (FormatSlotRange (Start r) (End r))) <$> GenerateSlotRanges shards.

(** The ranges generated for any positive shard count are an exact partition of
    the slot space: expanding them in shard order (as bootstrap does for CLUSTER
    ADDSLOTS) succeeds for every shard and enumerates each of the slots 0..16383
    exactly once, and no shard differs from another by more than one slot. *)
Theorem slot_ranges_partition (shards : Z) :
  0 < shards →
  ∃ parts : list (list Z),
    assigned_slots shards = Ok <$> parts ∧
    concat parts = seqZ 0 totalClusterSlots ∧
    (∀ p, p ∈ parts → Z.of_nat (length p) = totalClusterSlots / shards
                    ∨ Z.of_nat (length p) = totalClusterSlots / shards + 1).
Proof.
  intros Hs.
  exists ((λ r, seqZ (Start r) (End r - Start r + 1)) <$> GenerateSlotRanges shards).
  split_and!.
  - unfold assigned_slots. rewrite <- list_fmap_compose.
    apply list_eq. intros k. rewrite !list_lookup_fmap.
    destruct (GenerateSlotRanges shards !! k) as [r|] eqn:E; [|done]. simpl.
    by rewrite (ExpandSlotRange_generated _ _ _ E).
  - pose proof (range_start_total shards Hs) as Ht.
    unfold GenerateSlotRanges, per_shard, left_over, totalClusterSlots in *.
    destruct (Z.leb_spec shards 0); [lia|].
    rewrite Z.quot_div_nonneg, Z.rem_mod_nonneg by lia.
    pose proof (Z.mod_pos_bound 16384 shards Hs).
    rewrite generate_loop_concat; [|apply Z.div_pos; lia|lia|unfold range_start; lia].
    rewrite Z.add_0_l, Z2Nat.id, Z.sub_0_r by lia. by rewrite Ht.
  - intros p (r & -> & [k Hk]%list_elem_of_lookup)%list_elem_of_fmap.
    apply GenerateSlotRanges_lookup in Hk as (_ & Hk & -> & ->).
    rewrite length_seqZ. fold (per_shard shards).
    pose proof (per_shard_pos shards Hs). unfold range_start. lia.
Qed.

Lemma slot_ranges_partition_witness :
  0 < 3 ∧
  ∃ parts : list (list Z),
    assigned_slots 3 = Ok <$> parts ∧
    concat parts = seqZ 0 totalClusterSlots ∧
    (∀ p, p ∈ parts → Z.of_nat (length p) = totalClusterSlots / 3
                    ∨ Z.of_nat (length p) = totalClusterSlots / 3 + 1).
Proof. split; [lia|]. apply (slot_ranges_partition 3). lia. Defined.

(** Printing a slot range and parsing it back is the identity on every pair of
    non-negative 64-bit bounds, single-slot ranges included. *)
Theorem slot_range_roundtrip (s e : Z) :
  0 ≤ s ≤ int64_max → 0 ≤ e ≤ int64_max →
  ParseSlotRange (FormatSlotRange s e) = Some (s, e).
Proof. apply ParseSlotRange_FormatSlotRange. Qed.

Lemma slot_range_roundtrip_witness :
  0 ≤ 5461 ≤ int64_max ∧ 0 ≤ 10922 ≤ int64_max ∧
  ParseSlotRange (FormatSlotRange 5461 10922) = Some (5461, 10922).
Proof.
  assert (0 ≤ 5461 ≤ int64_max) as H1 by (unfold int64_max; lia).
  assert (0 ≤ 10922 ≤ int64_max) as H2 by (unfold int64_max; lia).
  split; [exact H1|]. split; [exact H2|]. exact (slot_range_roundtrip 5461 10922 H1 H2).
Defined.

Example three_shards :
  GenerateSlotRanges 3 = [mkRange 0 5461; mkRange 5462 10922; mkRange 10923 16383].
Proof. vm_compute. reflexivity. Qed.

Example parse_examples :
  (ParseSlotRange "0-5460", ParseSlotRange "42", ParseSlotRange "[7->-abc]",
   ParseSlotRange "1-2-3", ParseSlotRange "", ExpandSlotRange "9-3")
  = (Some (0, 5460), Some (42, 42), None, None, None, Panic).
Proof. vm_compute. reflexivity. Qed.
