(* ===== verification/Probe.v ===== *)
(** * Probe failures (src/internal/redis/probe_failure.go)

    Why a probe of a pod failed.  The error value itself comes from go-redis, the
    network stack and the context package; what [ClassifyProbeError] asks of it is
    its text and the answers of [errors.Is] / [errors.As], which is what
    [probe_error] records. *)

From Stdlib Require Import Ascii.
From S2P Require Import Prelude GoStrings.

(** ** Definitions *)

Inductive ProbeFailure :=
| ProbeOK
| ProbeUnroutable
| ProbeTimedOut
| ProbeAuthFailed
| ProbeProtocolError
| ProbeUnknown.

#[export] Instance ProbeFailure_eq_dec : EqDecision ProbeFailure.
Proof. solve_decision. Defined.

Definition is_auth_failed (f : ProbeFailure) : bool :=
  match f with ProbeAuthFailed => true | _ => false end.

Inductive errno := ECONNREFUSED | EHOSTUNREACH | ENETUNREACH.

Record probe_error := mkProbeError {
  err_text : string;               (* err.Error() *)
  err_is_ctx_deadline : bool;      (* errors.Is(err, context.DeadlineExceeded) *)
  err_is_os_deadline : bool;       (* errors.Is(err, os.ErrDeadlineExceeded) *)
  err_net_timeout : bool;          (* errors.As(err, &netErr) && netErr.Timeout() *)
  err_is_errno : errno → bool;     (* errors.Is(err, errno) *)
  err_is_dns : bool;               (* errors.As(err, &dnsErr) *)
  err_is_redis : bool;             (* errors.As(err, &redisErr) *)
}.

Definition authFailureMarkers : list string :=
  ["noauth"; "wrongpass"; "client sent auth, but no password is set"; "invalid password"].

Definition unroutableMarkers : list string :=
  ["connection refused"; "no route to host"; "network is unreachable"; "no such host"].

(** [None] is a nil error. *)
Definition ClassifyProbeError (err : option probe_error) : ProbeFailure :=
  match err with
  | None => ProbeOK
  | Some e =>
      let msg := to_lower (err_text e) in
      if existsb (str_contains msg) authFailureMarkers then ProbeAuthFailed
      else if err_is_ctx_deadline e || err_is_os_deadline e then ProbeTimedOut
      else if err_net_timeout e then ProbeTimedOut
      else if existsb (err_is_errno e) [ECONNREFUSED; EHOSTUNREACH; ENETUNREACH]
           then ProbeUnroutable
      else if err_is_dns e then ProbeUnroutable
      else if str_contains msg "i/o timeout" || str_contains msg "context deadline exceeded"
           then ProbeTimedOut
      else if existsb (str_contains msg) unroutableMarkers then ProbeUnroutable
      else if err_is_redis e then ProbeProtocolError
      else ProbeUnknown
  end.

(** The three bytes of the UTF-8 ellipsis. *)
Definition ellipsis : string :=
  String "226" (String "128" (String "166" EmptyString)).

Definition describe_max_len : nat := 160.

Definition DescribeProbeError (err : option probe_error) : string :=
  match err with
  | None => ""
  | Some e =>
      let msg := trim_space (err_text e) in
      if (describe_max_len <? String.length msg)%nat
      then String.substring 0 describe_max_len msg +:+ ellipsis
      else msg
  end.

(** ** Lemmas *)

Lemma length_substring_0 n s : (String.length (String.substring 0 n s) ≤ n)%nat.
Proof. revert n. induction s as [|c s IH]; intros [|n]; simpl; try lia. specialize (IH n). lia. Qed.

Lemma length_string_app s t :
  String.length (s +:+ t) = (String.length s + String.length t)%nat.
Proof.
  induction s as [|c s IH]; [done|].
  change (String c s +:+ t) with (String c (s +:+ t)). simpl. by rewrite IH.
Qed.

(** ** Properties *)

(** An error whose text carries one of the server's credential refusals is
    classified as an authentication failure whatever else the error is (a timeout, a
    routing failure, a wrapped reply), and nothing without such a text is; a nil error
    is the only one classified as OK. *)
Theorem ClassifyProbeError_auth (err : option probe_error) :
  (ClassifyProbeError err = ProbeAuthFailed ↔
     ∃ e marker, err = Some e ∧ marker ∈ authFailureMarkers ∧
                 str_contains (to_lower (err_text e)) marker = true) ∧
  (ClassifyProbeError err = ProbeOK ↔ err = None).
Proof.
  unfold ClassifyProbeError. destruct err as [e|].
  2:{ split; [|done]. split; [done|]. by intros (? & ? & ? & _). }
  destruct (existsb (str_contains (to_lower (err_text e))) authFailureMarkers) eqn:Ha.
  - apply existsb_elem_of in Ha as (m & Hm & Hc). split; [|split; discriminate].
    split; [eauto|done].
  - pose proof (proj1 (existsb_false_elem_of _ _) Ha) as Hno.
    split; split; [by repeat case_match| |by repeat case_match|done].
    intros (? & m & ? & Hm & Hc). simplify_eq. by rewrite (Hno m Hm) in Hc.
Qed.

(** The description of a probe error that is put in a status condition is never
    longer than 160 bytes plus the three bytes of the ellipsis. *)
Theorem DescribeProbeError_bounded (err : option probe_error) :
  (String.length (DescribeProbeError err) ≤ 163)%nat.
Proof.
  destruct err as [e|]; simpl; [|lia].
  unfold describe_max_len. destruct (Nat.ltb_spec 160 (String.length (trim_space (err_text e)))).
  - rewrite length_string_app. change (String.length ellipsis) with 3%nat.
    pose proof (length_substring_0 160 (trim_space (err_text e))). lia.
  - lia.
Qed.
