(* ===== verification/ClusterNodes.v ===== *)
(** * Parsing of CLUSTER NODES and CLUSTER INFO
    (src/internal/redis/cluster_client.go) *)

From Stdlib Require Import Ascii.
From S2P Require Import Prelude GoStrings.

(** ** Definitions *)

Record ClusterNodeInfo := mkClusterNodeInfo {
  ci_NodeID : string;
  ci_Addr : string;
  ci_Hostname : string;
  ci_Flags : list string;
  ci_MasterID : string;
  ci_PingSent : Z;
  ci_PongRecv : Z;
  ci_ConfigEpoch : Z;
  ci_LinkState : string;
  ci_Slots : list string;
}.

(** [slices.Contains]. *)
Definition slices_contains (l : list string) (x : string) : bool :=
  existsb (String.eqb x) l.

Definition IsMaster (n : ClusterNodeInfo) : bool := slices_contains (ci_Flags n) "master".
Definition IsReplica (n : ClusterNodeInfo) : bool := slices_contains (ci_Flags n) "slave".

Record ClusterInfo := mkClusterInfo {
  cinfo_State : string;
  cinfo_SlotsAssigned : Z;
  cinfo_SlotsOk : Z;
  cinfo_SlotsPfail : Z;
  cinfo_SlotsFail : Z;
  cinfo_KnownNodes : Z;
  cinfo_Size : Z;
  cinfo_CurrentEpoch : Z;
  cinfo_MyEpoch : Z;
  cinfo_StatsMessagesSent : Z;
  cinfo_StatsMessagesReceived : Z;
  cinfo_TotalLinksBufferLimitExc : Z;
  cinfo_AtomicSlotMigration : bool;
}.

Definition newline : ascii := "010".

(** One line of CLUSTER NODES; [None] is a line the loop skips. *)
Definition parse_cluster_node (line : string) : option ClusterNodeInfo :=
  if String.eqb line "" then None
  else match fields line with
       | id :: addr :: flags :: master :: ping :: pong :: epoch :: link :: slots =>
           let addrParts := split_on "," addr in
           let ipPort := default "" (head addrParts) in
           Some {|
             ci_NodeID := id;
             ci_Addr := default ipPort (before_byte "@" ipPort);
             ci_Hostname := default "" (addrParts !! 1%nat);
             ci_Flags := split_on "," flags;
             ci_MasterID := master;
             ci_PingSent := atoi_or_zero ping;
             ci_PongRecv := atoi_or_zero pong;
             ci_ConfigEpoch := atoi_or_zero epoch;
             ci_LinkState := link;
             ci_Slots := bfilter (λ s, negb (has_prefix s "[")) slots;
           |}
       | _ => None
       end.

Definition ParseClusterNodes (output : string) : list ClusterNodeInfo :=
  omap parse_cluster_node (split_on newline (trim_space output)).

(** The effect of one [key:value] field on the result being built. *)
Definition set_cluster_info_field (key value : string) (i : ClusterInfo) : ClusterInfo :=
  let '(mkClusterInfo st sa so sp sf kn sz ce me ms mr tl asm) := i in
  let asm := asm || has_prefix key "cluster_slot_migration" in
  let n := atoi_or_zero value in
  if String.eqb key "cluster_state" then
    mkClusterInfo value sa so sp sf kn sz ce me ms mr tl asm
  else if String.eqb key "cluster_slots_assigned" then
    mkClusterInfo st n so sp sf kn sz ce me ms mr tl asm
  else if String.eqb key "cluster_slots_ok" then
    mkClusterInfo st sa n sp sf kn sz ce me ms mr tl asm
  else if String.eqb key "cluster_slots_pfail" then
    mkClusterInfo st sa so n sf kn sz ce me ms mr tl asm
  else if String.eqb key "cluster_slots_fail" then
    mkClusterInfo st sa so sp n kn sz ce me ms mr tl asm
  else if String.eqb key "cluster_known_nodes" then
    mkClusterInfo st sa so sp sf n sz ce me ms mr tl asm
  else if String.eqb key "cluster_size" then
    mkClusterInfo st sa so sp sf kn n ce me ms mr tl asm
  else if String.eqb key "cluster_current_epoch" then
    mkClusterInfo st sa so sp sf kn sz n me ms mr tl asm
  else if String.eqb key "cluster_my_epoch" then
    mkClusterInfo st sa so sp sf kn sz ce n ms mr tl asm
  else if String.eqb key "cluster_stats_messages_sent" then
    mkClusterInfo st sa so sp sf kn sz ce me n mr tl asm
  else if String.eqb key "cluster_stats_messages_received" then
    mkClusterInfo st sa so sp sf kn sz ce me ms n tl asm
  else if String.eqb key "total_cluster_links_buffer_limit_exceeded" then
    mkClusterInfo st sa so sp sf kn sz ce me ms mr n asm
  else mkClusterInfo st sa so sp sf kn sz ce me ms mr tl asm.

Definition parse_cluster_info_line (i : ClusterInfo) (line : string) : ClusterInfo :=
  match split2_on ":" (trim_space line) with
  | [key; value] => set_cluster_info_field key (trim_space value) i
  | _ => i
  end.

Definition empty_cluster_info : ClusterInfo :=
  mkClusterInfo "" 0 0 0 0 0 0 0 0 0 0 0 false.

Definition ParseClusterInfo (output : string) : ClusterInfo :=
  foldl parse_cluster_info_line empty_cluster_info
    (split_on newline (trim_space output)).

(** ** Properties *)

(** Only owned slots are read as slots: whatever CLUSTER NODES text arrives, no
    parsed node carries a migrating or importing marker ([slot->-id], [slot-<-id]) in
    its slot list, so an importing but slotless node never looks like a slot owner. *)
Theorem ParseClusterNodes_owned_slots (output : string) (n : ClusterNodeInfo) (s : string) :
  n ∈ ParseClusterNodes output → s ∈ ci_Slots n → has_prefix s "[" = false.
Proof.
  unfold ParseClusterNodes. rewrite list_elem_of_omap.
  intros (line & _ & Hp) Hs. unfold parse_cluster_node in Hp.
  repeat case_match; simplify_eq/=.
  apply elem_of_bfilter in Hs as [_ Hs]. by apply negb_true_iff in Hs.
Qed.

Definition sample_nodes : string :=
  "07c37df 10.0.0.1:6379@16379,h1 myself,master - 0 1426238317239 4 connected 0-5460 [5461->-67ed2db]"
  +:+ String newline
  "67ed2db 10.0.0.2:6379@16379 slave 07c37df 0 1426238316232 4 connected".

Example ParseClusterNodes_sample :
  ((λ n, (ci_NodeID n, ci_Addr n, ci_Hostname n, ci_Flags n, ci_MasterID n, ci_Slots n))
     <$> ParseClusterNodes sample_nodes)
  = [("07c37df", "10.0.0.1:6379", "h1", ["myself"; "master"], "-", ["0-5460"]);
     ("67ed2db", "10.0.0.2:6379", "", ["slave"], "07c37df", [])].
Proof. vm_compute. reflexivity. Qed.

Lemma ParseClusterNodes_owned_slots_witness :
  ∃ n, n ∈ ParseClusterNodes sample_nodes ∧ "0-5460" ∈ ci_Slots n ∧
       has_prefix "0-5460" "[" = false.
Proof.
  assert (∃ n, n ∈ ParseClusterNodes sample_nodes ∧ "0-5460" ∈ ci_Slots n)
    as (n & Hn & Hs).
  { eexists. split; [vm_compute; left|simpl; left]. }
  exists n. split; [done|]. split; [done|].
  exact (ParseClusterNodes_owned_slots sample_nodes n "0-5460" Hn Hs).
Defined.
