(* ===== verification/ClusterState.v ===== *)
(** * Cluster ground truth and CLUSTER MEET attribution
    (src/internal/redis/cluster_state.go)

    The gathered view of a Redis Cluster, the health predicates on it, and the plan
    that decides which addresses the operator may introduce to the mesh. *)

From S2P Require Import Prelude GoStrings Slots Probe ClusterNodes.

Open Scope Z_scope.
Open Scope go_scope.

(** ** Definitions *)

Definition roleMaster : string := "master".
Definition roleReplica : string := "replica".
Definition flagFail : string := "fail".

Record ClusterNodeState := mkClusterNode {
  cn_PodName : string;
  cn_PodIP : string;
  cn_NodeID : string;
  cn_Slots : list string;
  cn_Role : string;
  cn_MasterNodeID : string;
  cn_LinkStatus : string;
  cn_Reachable : bool;
  cn_ProbeFailure : ProbeFailure;
  cn_ProbeError : string;
}.

#[export] Instance ClusterNodeState_eq_dec : EqDecision ClusterNodeState.
Proof. solve_decision. Defined.

(** [AllNodeIDs] only ever stores [true], so it is a set. *)
Record ClusterGroundTruth := mkGroundTruth {
  gt_Nodes : gmap string ClusterNodeState;
  gt_Partitions : list (list string);
  gt_GhostNodes : list string;
  gt_ClusterState : string;
  gt_TotalSlots : Z;
  gt_AllNodeIDs : gset string;
  gt_KnownNodes : gmap string (list string);
  gt_AtomicSlotMigration : bool;
}.

Definition NewClusterGroundTruth : ClusterGroundTruth :=
  mkGroundTruth ∅ [] [] "" 0 ∅ ∅ false.

(** A node that owns at least one slot range / none. *)
Definition owns_slots (n : ClusterNodeState) : bool :=
  match cn_Slots n with [] => false | _ => true end.
Definition is_master (n : ClusterNodeState) : bool := cn_Role n =? roleMaster.
Definition is_replica (n : ClusterNodeState) : bool := cn_Role n =? roleReplica.
Definition is_slot_master (n : ClusterNodeState) : bool := is_master n && owns_slots n.
Definition is_empty_master (n : ClusterNodeState) : bool :=
  is_master n && negb (owns_slots n).

Section ground_truth.
Context `{GoRuntime}.

Definition AuthFailedNodes (gt : ClusterGroundTruth) : list ClusterNodeState :=
  sort_slice (less_by_string cn_PodName)
    (bfilter (λ n, negb (cn_Reachable n) && is_auth_failed (cn_ProbeFailure n))
       (range_values [57] (gt_Nodes gt))).

Definition HasPartitions (gt : ClusterGroundTruth) : bool :=
  (1 <? length (gt_Partitions gt))%nat.

Definition HasGhostNodes (gt : ClusterGroundTruth) : bool :=
  (0 <? length (gt_GhostNodes gt))%nat.

Definition HasOrphanedSlots (gt : ClusterGroundTruth) : bool :=
  (gt_TotalSlots gt <? 16384)%Z.

Definition CountMasters (gt : ClusterGroundTruth) : Z :=
  foldl (λ count n, if is_slot_master n then count + 1 else count)%Z 0%Z
    (range_values [137] (gt_Nodes gt)).

Definition GetEmptyMasters (gt : ClusterGroundTruth) : list ClusterNodeState :=
  bfilter is_empty_master (range_values [173] (gt_Nodes gt)).

Definition HasEmptyMasters (gt : ClusterGroundTruth) : bool :=
  existsb is_empty_master (range_values [183] (gt_Nodes gt)).

Definition IsHealthy (gt : ClusterGroundTruth) (expectedNodes expectedShards : Z) : bool :=
  if (Z.of_nat (size (gt_Nodes gt)) <? expectedNodes)%Z then false
  else if negb (Z.of_nat (size (gt_AllNodeIDs gt)) =? expectedNodes)%Z then false
  else if HasPartitions gt then false
  else if negb (CountMasters gt =? expectedShards)%Z then false
  else if HasEmptyMasters gt then false
  else (gt_ClusterState gt =? "ok") && (gt_TotalSlots gt =? 16384)%Z.

(** The scan [for i, p := range gt.Partitions] for the first longest partition. *)
Fixpoint largest_partition (i maxIdx maxLen : nat) (ps : list (list string)) : nat :=
  match ps with
  | [] => maxIdx
  | p :: ps' =>
      if (maxLen <? length p)%nat then largest_partition (S i) i (length p) ps'
      else largest_partition (S i) maxIdx maxLen ps'
  end.

(** [Ok None] is a nil node; indexing an empty partition panics. *)
Definition GetLargestPartitionSeed (gt : ClusterGroundTruth)
  : outcome (option ClusterNodeState) :=
  match gt_Partitions gt with
  | [] => Ok (head (range_values [147] (gt_Nodes gt)))
  | _ =>
      match gt_Partitions gt !! largest_partition 0%nat 0%nat 0%nat (gt_Partitions gt) with
      | Some (targetID :: _) =>
          Ok (List.find (λ n, cn_NodeID n =? targetID) (range_values [163] (gt_Nodes gt)))
      | _ => Panic
      end
  end.

Definition NodeKnows (gt : ClusterGroundTruth) (observerID targetID : string) : bool :=
  slices_contains (default [] (gt_KnownNodes gt !! observerID)) targetID.

Definition GetMastersWithReplicas (gt : ClusterGroundTruth) : gmap string (list string) :=
  foldl (λ m n,
    if is_replica n && negb (cn_MasterNodeID n =? "-")
    then <[cn_MasterNodeID n := default [] (m !! cn_MasterNodeID n) ++ [cn_NodeID n]]> m
    else m) ∅ (range_values [202] (gt_Nodes gt)).
End ground_truth.

(** *** MEET attribution *)

Inductive MeetVerdict :=
| MeetAllowMember
| MeetAllowFresh
| MeetDenyNoAddress
| MeetDenyUnidentified
| MeetDenyNoView
| MeetDenyUnattributed.

#[export] Instance MeetVerdict_eq_dec : EqDecision MeetVerdict.
Proof. solve_decision. Defined.

Definition Allowed (v : MeetVerdict) : bool :=
  match v with MeetAllowMember | MeetAllowFresh => true | _ => false end.

Definition AdmissibleWhenConfirmed (v : MeetVerdict) : bool :=
  Allowed v || match v with MeetDenyUnattributed => true | _ => false end.

Record MeetCandidate := mkMeetCandidate {
  mc_PodName : string;
  mc_PodIP : string;
  mc_NodeID : string;
  mc_Identified : bool;
  mc_ViewKnown : bool;
  mc_KnownIDs : list string;
  mc_Slots : list string;
}.

(** The loop over [c.KnownIDs]: [None] is the early return of [MeetAllowMember],
    [Some peers] the number of peers counted. *)
Fixpoint count_peers (self : string) (ours : gset string) (ids : list string) (peers : nat)
  : option nat :=
  match ids with
  | [] => Some peers
  | id :: ids' =>
      if (id =? "") || (id =? self) then count_peers self ours ids' peers
      else if decide (id ∈ ours) then None
      else count_peers self ours ids' (S peers)
  end.

Definition AttributeMeetTarget (c : MeetCandidate) (ourNodeIDs : gset string)
  : MeetVerdict :=
  if mc_PodIP c =? "" then MeetDenyNoAddress
  else if negb (mc_Identified c) || (mc_NodeID c =? "") then MeetDenyUnidentified
  else if negb (mc_ViewKnown c) then MeetDenyNoView
  else match count_peers (mc_NodeID c) ourNodeIDs (mc_KnownIDs c) 0%nat with
       | None => MeetAllowMember
       | Some peers => if (0 <? peers)%nat then MeetDenyUnattributed else MeetAllowFresh
       end.

Definition nodeFlagsFailed (flags : list string) : bool :=
  existsb (λ f, (f =? flagFail) || (f =? "noaddr") || (f =? "handshake")) flags.

Definition MeetCandidateFromNodes (podName podIP nodeID : string)
  (view : list ClusterNodeInfo) : MeetCandidate :=
  let nodeID :=
    if nodeID =? "" then
      match List.find (λ v, slices_contains (ci_Flags v) "myself") view with
      | Some v => ci_NodeID v
      | None => nodeID
      end
    else nodeID in
  {| mc_PodName := podName;
     mc_PodIP := podIP;
     mc_NodeID := nodeID;
     mc_Identified := negb (nodeID =? "");
     mc_ViewKnown := negb (nodeID =? "");
     mc_KnownIDs := ci_NodeID <$> bfilter (λ v, negb (nodeFlagsFailed (ci_Flags v))) view;
     mc_Slots := foldl (λ acc v, if ci_NodeID v =? nodeID then ci_Slots v else acc) [] view |}.

Record MeetSkip := mkMeetSkip {
  ms_PodName : string;
  ms_PodIP : string;
  ms_NodeID : string;
  ms_Verdict : MeetVerdict;
}.

Record MeetPlan := mkMeetPlan {
  mp_Seed : option ClusterNodeState;
  mp_SeedVerdict : MeetVerdict;
  mp_Targets : list ClusterNodeState;
  mp_Skipped : list MeetSkip;
  mp_Unattributed : list MeetSkip;
}.

Definition meetCandidate (gt : ClusterGroundTruth) (n : ClusterNodeState) : MeetCandidate :=
  let view := gt_KnownNodes gt !! cn_NodeID n in
  {| mc_PodName := cn_PodName n;
     mc_PodIP := cn_PodIP n;
     mc_NodeID := cn_NodeID n;
     mc_Identified := cn_Reachable n && negb (cn_NodeID n =? "");
     mc_ViewKnown := negb (cn_NodeID n =? "") && bool_decide (is_Some view);
     mc_KnownIDs := default [] view;
     mc_Slots := cn_Slots n |}.

Section meet_plan.
Context `{GoRuntime}.

Definition ourIDs (gt : ClusterGroundTruth) : gset string :=
  foldl (λ ids n, if cn_Reachable n && negb (cn_NodeID n =? "")
                  then {[cn_NodeID n]} ∪ ids else ids) ∅
    (range_values [434] (gt_Nodes gt)).

(** One iteration of the loop over the sorted pod names. *)
Definition meet_step (gt : ClusterGroundTruth) (ids : gset string)
  (seed : ClusterNodeState) (plan : MeetPlan) (n : ClusterNodeState) : MeetPlan :=
  if negb (cn_NodeID n =? "") && (cn_NodeID n =? cn_NodeID seed) then plan
  else
    let v := AttributeMeetTarget (meetCandidate gt n) ids in
    let skip := mkMeetSkip (cn_PodName n) (cn_PodIP n) (cn_NodeID n) v in
    let '(mkMeetPlan sd sv targets skipped unatt) := plan in
    if AdmissibleWhenConfirmed v
    then mkMeetPlan sd sv (targets ++ [n]) skipped
           (if Allowed v then unatt else unatt ++ [skip])
    else mkMeetPlan sd sv targets (skipped ++ [skip]) unatt.

Definition sorted_nodes (gt : ClusterGroundTruth) : list ClusterNodeState :=
  omap (λ podName, gt_Nodes gt !! podName)
    (sort_strings (fst <$> go_range [453] (gt_Nodes gt))).

Definition PlanPartitionMeets (gt : ClusterGroundTruth) : outcome MeetPlan :=
  let ids := ourIDs gt in
  seed ← GetLargestPartitionSeed gt;
  match seed with
  | None => Ok (mkMeetPlan None MeetDenyUnidentified [] [] [])
  | Some seed =>
      let sv := AttributeMeetTarget (meetCandidate gt seed) ids in
      if negb (AdmissibleWhenConfirmed sv) then Ok (mkMeetPlan None sv [] [] [])
      else Ok (foldl (meet_step gt ids seed) (mkMeetPlan (Some seed) sv [] [] [])
                 (sorted_nodes gt))
  end.
End meet_plan.

(** ** Lemmas: attribution *)

(** There is evidence about the address: it can be dialled, it answered with an
    identity, and its own gossip view was read. *)
Definition has_evidence (c : MeetCandidate) : Prop :=
  mc_PodIP c ≠ "" ∧ mc_Identified c = true ∧ mc_NodeID c ≠ "" ∧ mc_ViewKnown c = true.

(** Its view names nobody but itself. *)
Definition isolated (c : MeetCandidate) : Prop :=
  ∀ id, id ∈ mc_KnownIDs c → id = "" ∨ id = mc_NodeID c.

(** Its view names another node of this instance. *)
Definition knows_ours (c : MeetCandidate) (ours : gset string) : Prop :=
  ∃ id, id ∈ mc_KnownIDs c ∧ id ≠ "" ∧ id ≠ mc_NodeID c ∧ id ∈ ours.

Lemma count_peers_spec self ours ids p :
  match count_peers self ours ids p with
  | None => ∃ id, id ∈ ids ∧ id ≠ "" ∧ id ≠ self ∧ id ∈ ours
  | Some q =>
      (p ≤ q)%nat ∧
      (∀ id, id ∈ ids → id ≠ "" → id ≠ self → id ∉ ours) ∧
      (q = p ↔ ∀ id, id ∈ ids → id = "" ∨ id = self)
  end.
Proof.
  revert p. induction ids as [|id ids IH]; intros p; simpl.
  { split_and!; [lia|set_solver|set_solver]. }
  destruct ((id =? "") || (id =? self)) eqn:E.
  - assert (id = "" ∨ id = self) as Hid.
    { apply orb_true_iff in E as [?|?]; bool_hyps; auto. }
    specialize (IH p). destruct (count_peers _ _ _ _) as [q|]; [|set_solver].
    set_solver.
  - apply orb_false_iff in E as [E1 E2]. bool_hyps. case_decide as Hin; [set_solver|].
    specialize (IH (S p)). destruct (count_peers _ _ _ _) as [q|]; [|set_solver].
    destruct IH as (Hle & Hno & _). split_and!; [lia|set_solver|].
    split; [lia|]. intros Hall. destruct (Hall id); set_solver.
Qed.

(** The verdict as a function of the evidence alone. *)
Lemma AttributeMeetTarget_spec c ours :
  (AttributeMeetTarget c ours = MeetAllowMember ↔ has_evidence c ∧ knows_ours c ours) ∧
  (AttributeMeetTarget c ours = MeetAllowFresh ↔ has_evidence c ∧ isolated c) ∧
  (AttributeMeetTarget c ours = MeetDenyUnattributed ↔
     has_evidence c ∧ ¬ isolated c ∧ ¬ knows_ours c ours).
Proof.
  unfold AttributeMeetTarget, has_evidence, isolated, knows_ours.
  destruct (String.eqb_spec (mc_PodIP c) "") as [E1|E1]; [naive_solver|].
  destruct (mc_Identified c) eqn:E2; simpl; [|naive_solver].
  destruct (String.eqb_spec (mc_NodeID c) "") as [E3|E3]; [naive_solver|].
  destruct (mc_ViewKnown c) eqn:E4; simpl; [|naive_solver].
  pose proof (count_peers_spec (mc_NodeID c) ours (mc_KnownIDs c) 0) as Hc.
  destruct (count_peers _ _ _ _) as [q|].
  - destruct Hc as (_ & Hno & Hz). destruct (Nat.ltb_spec 0 q) as [Hq|Hq].
    + split; [|split]; (split; [try discriminate|]).
      * intros (_ & id & ? & ? & ? & ?). by destruct (Hno id).
      * intros (_ & Hiso%Hz). lia.
      * intros _. split_and!; [done..|intros Hiso%Hz; lia|].
        intros (id & ? & ? & ? & ?). by destruct (Hno id).
      * done.
    + assert (q = 0%nat) as Hq0 by lia. pose proof (proj1 Hz Hq0) as Hiso.
      split; [|split]; (split; [try discriminate|]).
      * intros (_ & id & Hin & ? & ? & ?). by destruct (Hiso id Hin).
      * intros _. by split_and!.
      * done.
      * intros (_ & Hn & _). by destruct Hn.
  - destruct Hc as (id & Hin & ? & ? & ?).
    split; [|split]; (split; [try discriminate|]).
    + intros _. split_and!; eauto.
    + done.
    + intros (_ & Hiso). by destruct (Hiso id Hin).
    + intros (_ & _ & Hn). destruct Hn; eauto.
Qed.

Lemma knows_ours_dec c ours : Decision (knows_ours c ours).
Proof.
  refine (cast_if (decide (Exists (λ id, id ≠ "" ∧ id ≠ mc_NodeID c ∧ id ∈ ours)
                             (mc_KnownIDs c))));
  unfold knows_ours; rewrite Exists_exists in *; naive_solver.
Qed.

Lemma isolated_dec c : Decision (isolated c).
Proof.
  refine (cast_if (decide (Forall (λ id, id = "" ∨ id = mc_NodeID c) (mc_KnownIDs c))));
  unfold isolated; rewrite Forall_forall in *; naive_solver.
Qed.

Lemma admissible_evidence c ours :
  AdmissibleWhenConfirmed (AttributeMeetTarget c ours) = true ↔ has_evidence c.
Proof.
  destruct (AttributeMeetTarget_spec c ours) as (Hm & Hf & Hu). split.
  - destruct (AttributeMeetTarget c ours); simpl; try done; intros _.
    + by apply Hm.
    + by apply Hf.
    + by apply Hu.
  - intros He. destruct (knows_ours_dec c ours) as [Hk|Hk].
    { by rewrite (proj2 Hm). }
    destruct (isolated_dec c) as [Hi|Hi].
    { by rewrite (proj2 Hf). }
    by rewrite (proj2 Hu).
Qed.

Lemma allowed_spec c ours :
  Allowed (AttributeMeetTarget c ours) = true ↔
    has_evidence c ∧ (isolated c ∨ knows_ours c ours).
Proof.
  destruct (AttributeMeetTarget_spec c ours) as (Hm & Hf & Hu).
  split.
  - destruct (AttributeMeetTarget c ours); simpl; try done; intros _.
    + destruct (proj1 Hm eq_refl). auto.
    + destruct (proj1 Hf eq_refl). auto.
  - intros [He [Hi|Hk]].
    + by rewrite (proj2 Hf).
    + by rewrite (proj2 Hm).
Qed.

(** ** Lemmas: the seed *)

Lemma largest_partition_spec ps i m L :
  let r := largest_partition i m L ps in
  (r = m ∧ ∀ q, q ∈ ps → (length q ≤ L)%nat) ∨
  (∃ j p, ps !! j = Some p ∧ r = (i + j)%nat ∧ (L < length p)%nat ∧
          ∀ q, q ∈ ps → (length q ≤ length p)%nat).
Proof.
  revert i m L. induction ps as [|p ps IH]; intros i m L; simpl.
  { left. set_solver. }
  destruct (Nat.ltb_spec L (length p)) as [Hlt|Hge].
  - destruct (IH (S i) i (length p)) as [[Hr Hall]|(j & p' & Hj & Hr & Hl & Hall)].
    + right. exists 0%nat, p. simpl. split_and!; [done|lia|done|].
      intros q [->|Hq]%elem_of_cons; [lia|auto].
    + right. exists (S j), p'. simpl. split_and!; [done|lia|lia|].
      intros q [->|Hq]%elem_of_cons; [lia|auto].
  - destruct (IH (S i) m L) as [[Hr Hall]|(j & p' & Hj & Hr & Hl & Hall)].
    + left. split; [done|]. intros q [->|Hq]%elem_of_cons; [lia|auto].
    + right. exists (S j), p'. simpl. split_and!; [done|lia|lia|].
      intros q [->|Hq]%elem_of_cons; [lia|auto].
Qed.

(** The partition whose first member is the seed: non-empty and of maximal length. *)
Lemma largest_partition_lookup ps :
  ps ≠ [] → (∀ p, p ∈ ps → p ≠ []) →
  ∃ id p, ps !! largest_partition 0 0 0 ps = Some (id :: p) ∧
          ∀ q, q ∈ ps → (length q ≤ length (id :: p))%nat.
Proof.
  intros Hne Hall.
  destruct (largest_partition_spec ps 0 0 0) as [[_ Hz]|(j & p & Hj & Hr & Hl & Hmax)].
  - destruct ps as [|p ps]; [done|]. specialize (Hz p ltac:(left)).
    destruct p; [|simpl in Hz; lia]. by destruct (Hall []); [left|].
  - rewrite Hr. simpl. destruct p as [|id p]; [simpl in Hl; lia|]. eauto.
Qed.

Lemma find_permutation {A} (f : A → bool) (l1 l2 : list A) :
  l1 ≡ₚ l2 →
  (∀ x y, x ∈ l1 → y ∈ l1 → f x = true → f y = true → x = y) →
  List.find f l1 = List.find f l2.
Proof.
  intros Hp Hu.
  destruct (List.find f l1) as [x|] eqn:E1; destruct (List.find f l2) as [y|] eqn:E2; auto.
  - apply find_some in E1 as [Hx ?]. apply find_some in E2 as [Hy ?].
    f_equal. apply Hu; try done; apply list_elem_of_In; [done|].
    by rewrite Hp.
  - apply find_some in E1 as [Hx Hf]. rewrite (find_none _ _ E2 x) in Hf; [done|].
    by rewrite <- Hp.
  - apply find_some in E2 as [Hy Hf]. rewrite (find_none _ _ E1 y) in Hf; [done|].
    by rewrite Hp.
Qed.

(** ** Lemmas: health *)

Lemma foldl_count {A} (f : A → bool) (l : list A) (c : Z) :
  foldl (λ count n, if f n then count + 1 else count)%Z c l
    = (c + Z.of_nat (length (bfilter f l)))%Z.
Proof.
  revert c. induction l as [|x l IH]; intros c; simpl; [lia|].
  rewrite IH. unfold bfilter in *. simpl. destruct (f x); simpl; lia.
Qed.

Lemma bfilter_ext {A} (f g : A → bool) (l : list A) :
  (∀ x, x ∈ l → f x = g x) → bfilter f l = bfilter g l.
Proof.
  unfold bfilter. induction l as [|x l IH]; intros Hfg; simpl; [done|].
  rewrite (Hfg x) by left. rewrite IH; [done|]. intros y Hy. apply Hfg. by right.
Qed.

Lemma bfilter_fmap {A B} (h : A → B) (f : B → bool) (l : list A) :
  bfilter f (h <$> l) = h <$> bfilter (λ x, f (h x)) l.
Proof.
  unfold bfilter. induction l as [|x l IH]; [done|]. simpl.
  destruct (f (h x)); simpl; [f_equal|]; apply IH.
Qed.

(** The pods that report themselves a master. *)
Definition masters (gt : ClusterGroundTruth) : list ClusterNodeState :=
  bfilter is_master (map_to_list (gt_Nodes gt)).*2.

Lemma HasEmptyMasters_spec `{GoRuntime} gt :
  HasEmptyMasters gt = false ↔
    ∀ k n, gt_Nodes gt !! k = Some n → cn_Role n = roleMaster → cn_Slots n ≠ [].
Proof.
  unfold HasEmptyMasters. rewrite existsb_false_elem_of.
  unfold is_empty_master, is_master, owns_slots. split.
  - intros Hall k n Hk Hr Hs. specialize (Hall n).
    rewrite Hr, Hs, String.eqb_refl in Hall. simpl in Hall.
    assert (true = false); [|done]. apply Hall. apply elem_of_range_values. eauto.
  - intros Hall n [k Hk]%elem_of_range_values.
    destruct (String.eqb_spec (cn_Role n) roleMaster) as [Hr|]; [|done].
    specialize (Hall k n Hk Hr). by destruct (cn_Slots n).
Qed.

Lemma CountMasters_masters `{GoRuntime} gt :
  HasEmptyMasters gt = false → CountMasters gt = Z.of_nat (length (masters gt)).
Proof.
  intros Hem. unfold CountMasters. rewrite foldl_count, Z.add_0_l. f_equal.
  unfold masters.
  rewrite (Permutation_length (bfilter_permutation is_master _ (range_values [137] (gt_Nodes gt))
             ltac:(unfold range_values; by rewrite go_range_perm))).
  f_equal. apply bfilter_ext. intros n [k Hk]%elem_of_range_values.
  unfold is_slot_master, owns_slots, is_master.
  destruct (String.eqb_spec (cn_Role n) roleMaster) as [Hr|]; [|done].
  pose proof (proj1 (HasEmptyMasters_spec gt) Hem k n Hk Hr). by destruct (cn_Slots n).
Qed.

(** ** Lemmas: the MEET plan *)

Definition verdict (gt : ClusterGroundTruth) (ids : gset string) (n : ClusterNodeState)
  : MeetVerdict := AttributeMeetTarget (meetCandidate gt n) ids.
Definition skip_of (gt : ClusterGroundTruth) (ids : gset string) (n : ClusterNodeState)
  : MeetSkip := mkMeetSkip (cn_PodName n) (cn_PodIP n) (cn_NodeID n) (verdict gt ids n).
Definition same_id (seed n : ClusterNodeState) : bool :=
  negb (cn_NodeID n =? "") && (cn_NodeID n =? cn_NodeID seed).

Lemma meet_fold gt ids seed sd sv l t k u :
  foldl (meet_step gt ids seed) (mkMeetPlan sd sv t k u) l =
  mkMeetPlan sd sv
    (t ++ bfilter (λ n, negb (same_id seed n) && AdmissibleWhenConfirmed (verdict gt ids n)) l)
    (k ++ (skip_of gt ids <$>
             bfilter (λ n, negb (same_id seed n) &&
                           negb (AdmissibleWhenConfirmed (verdict gt ids n))) l))
    (u ++ (skip_of gt ids <$>
             bfilter (λ n, negb (same_id seed n) && AdmissibleWhenConfirmed (verdict gt ids n)
                           && negb (Allowed (verdict gt ids n))) l)).
Proof.
  revert t k u. induction l as [|n l IH]; intros t k u; simpl.
  { by rewrite !app_nil_r. }
  unfold meet_step at 2. fold (same_id seed n). fold (verdict gt ids n).
  unfold bfilter in *. simpl.
  destruct (same_id seed n); simpl; [by rewrite IH|].
  destruct (AdmissibleWhenConfirmed (verdict gt ids n)); simpl.
  - destruct (Allowed (verdict gt ids n)); rewrite IH; simpl; by rewrite <- !app_assoc.
  - rewrite IH. by rewrite <- !app_assoc.
Qed.

Lemma elem_of_sorted_nodes `{GoRuntime} gt n :
  n ∈ sorted_nodes gt ↔ ∃ k, gt_Nodes gt !! k = Some n.
Proof.
  unfold sorted_nodes. rewrite list_elem_of_omap. split.
  - intros (k & _ & Hk). eauto.
  - intros [k Hk]. exists k. split; [|done].
    rewrite sort_strings_perm. apply list_elem_of_fmap. exists (k, n).
    split; [done|]. by apply elem_of_go_range.
Qed.

Lemma elem_of_ourIDs_fold (ids0 : gset string) l id :
  id ∈ foldl (λ ids n, if cn_Reachable n && negb (cn_NodeID n =? "")
                       then {[cn_NodeID n]} ∪ ids else ids) ids0 l ↔
  id ∈ ids0 ∨ ∃ n, n ∈ l ∧ cn_Reachable n = true ∧ cn_NodeID n = id ∧ id ≠ "".
Proof.
  revert ids0. induction l as [|n l IH]; intros ids0; simpl; [set_solver|].
  rewrite IH. clear IH.
  destruct (cn_Reachable n && negb (cn_NodeID n =? "")) eqn:E.
  - bool_hyps. rewrite elem_of_union, elem_of_singleton. split.
    + intros [[->|?]|(m & Hm & ?)]; [|by left|]; right; [exists n|exists m];
        (split; [by constructor|done]).
    + intros [?|(m & [->|Hm]%elem_of_cons & ? & <- & ?)]; [by left; right|by left; left|].
      right. by exists m.
  - split.
    + intros [?|(m & Hm & ?)]; [by left|]. right. exists m. split; [by right|done].
    + intros [?|(m & [->|Hm]%elem_of_cons & Hr & <- & Hn)]; [by left| |right; by exists m].
      apply String.eqb_neq in Hn. by rewrite Hr, Hn in E.
Qed.

Lemma elem_of_ourIDs `{GoRuntime} gt id :
  id ∈ ourIDs gt ↔
  ∃ k n, gt_Nodes gt !! k = Some n ∧ cn_Reachable n = true ∧ cn_NodeID n = id ∧ id ≠ "".
Proof.
  unfold ourIDs. rewrite elem_of_ourIDs_fold.
  setoid_rewrite elem_of_range_values. split.
  - intros [?%not_elem_of_empty|(n & [k Hk] & ?)]; [done|]. by exists k, n.
  - intros (k & n & Hk & ?). right. exists n. split; [by exists k|done].
Qed.

Lemma ourIDs_proper (R1 R2 : GoRuntime) gt : @ourIDs R1 gt = @ourIDs R2 gt.
Proof. apply set_eq. intros id. by rewrite !elem_of_ourIDs. Qed.

Lemma sorted_nodes_proper (R1 R2 : GoRuntime) gt :
  @sorted_nodes R1 gt = @sorted_nodes R2 gt.
Proof.
  unfold sorted_nodes. f_equal. apply sort_strings_proper.
  by rewrite (go_range_perm2 R1 R2 [453] [453]).
Qed.

(** A candidate built from the ground truth has evidence exactly when its pod has an
    address, answered the identity probe and its CLUSTER NODES view was gathered. *)
Lemma has_evidence_node gt n :
  has_evidence (meetCandidate gt n) ↔
  cn_PodIP n ≠ "" ∧ cn_Reachable n = true ∧ cn_NodeID n ≠ "" ∧
  is_Some (gt_KnownNodes gt !! cn_NodeID n).
Proof.
  unfold has_evidence, meetCandidate; simpl.
  destruct (String.eqb_spec (cn_NodeID n) ""), (cn_Reachable n); simpl;
    rewrite ?bool_decide_eq_true; naive_solver.
Qed.

(** ** Properties *)

(** [IsHealthy] is exactly the intended steady state: enough pods, a mesh of
    exactly the expected members, no partition, exactly one master per shard with no
    master left without slots, a cluster that reports ok and all 16384 slots assigned;
    the map iteration order never matters. *)
Theorem IsHealthy_spec `{GoRuntime} (gt : ClusterGroundTruth) (expectedNodes expectedShards : Z) :
  IsHealthy gt expectedNodes expectedShards = true ↔
    (expectedNodes ≤ Z.of_nat (size (gt_Nodes gt)))%Z ∧
    Z.of_nat (size (gt_AllNodeIDs gt)) = expectedNodes ∧
    (length (gt_Partitions gt) ≤ 1)%nat ∧
    Z.of_nat (length (masters gt)) = expectedShards ∧
    (∀ k n, gt_Nodes gt !! k = Some n → cn_Role n = roleMaster → cn_Slots n ≠ []) ∧
    gt_ClusterState gt = "ok" ∧
    gt_TotalSlots gt = totalClusterSlots.
Proof.
  unfold IsHealthy, HasPartitions, totalClusterSlots. rewrite <- HasEmptyMasters_spec.
  destruct (Z.ltb_spec (Z.of_nat (size (gt_Nodes gt))) expectedNodes); [split; [done|lia]|].
  destruct (Z.eqb_spec (Z.of_nat (size (gt_AllNodeIDs gt))) expectedNodes); simpl;
    [|split; [done|tauto]].
  destruct (Nat.ltb_spec 1 (length (gt_Partitions gt))); [split; [done|lia]|].
  destruct (HasEmptyMasters gt) eqn:Hem.
  { split; [by case_match|]. by intros (_ & _ & _ & _ & ? & _). }
  rewrite (CountMasters_masters gt Hem).
  destruct (Z.eqb_spec (Z.of_nat (length (masters gt))) expectedShards); simpl;
    [|split; [done|tauto]].
  rewrite andb_true_iff, String.eqb_eq, Z.eqb_eq. tauto.
Qed.

(** MEET safety: the plan names a target only when this pass attributed it — the
    pod has an address, answered with its own node ID and its gossip view was read —
    and only when the seed it is introduced to passes the same test; the targets are
    all such nodes other than the seed; and a target that names peers none of which is
    a node of this instance is reported as unattributed, never admitted silently. *)
Theorem PlanPartitionMeets_sound `{GoRuntime} (gt : ClusterGroundTruth) (plan : MeetPlan) :
  PlanPartitionMeets gt = Ok plan →
  match mp_Seed plan with
  | None => mp_Targets plan = []
  | Some seed =>
      has_evidence (meetCandidate gt seed) ∧
      (∀ n, n ∈ mp_Targets plan ↔
         (∃ k, gt_Nodes gt !! k = Some n) ∧ cn_NodeID n ≠ cn_NodeID seed ∧
         has_evidence (meetCandidate gt n)) ∧
      (∀ n, n ∈ mp_Targets plan →
         isolated (meetCandidate gt n) ∨ knows_ours (meetCandidate gt n) (ourIDs gt) ∨
         mkMeetSkip (cn_PodName n) (cn_PodIP n) (cn_NodeID n) MeetDenyUnattributed
           ∈ mp_Unattributed plan)
  end.
Proof.
  unfold PlanPartitionMeets. set (ids := ourIDs gt).
  destruct (GetLargestPartitionSeed gt) as [[seed|]| |]; simpl; try done;
    [|by intros [= <-]].
  fold (verdict gt ids seed).
  destruct (AdmissibleWhenConfirmed (verdict gt ids seed)) eqn:Hs; simpl; [|by intros [= <-]].
  rewrite meet_fold. simpl. intros [= <-]. simpl.
  assert (∀ n, n ∈ bfilter (λ n, negb (same_id seed n) &&
                 AdmissibleWhenConfirmed (verdict gt ids n)) (sorted_nodes gt) ↔
    (∃ k, gt_Nodes gt !! k = Some n) ∧ cn_NodeID n ≠ cn_NodeID seed ∧
    has_evidence (meetCandidate gt n)) as Ht.
  { intros n. rewrite elem_of_bfilter, elem_of_sorted_nodes, andb_true_iff.
    unfold verdict. rewrite admissible_evidence, has_evidence_node, negb_true_iff.
    unfold same_id.
    destruct (String.eqb_spec (cn_NodeID n) ""), (String.eqb_spec (cn_NodeID n) (cn_NodeID seed));
      simpl; naive_solver. }
  split_and!.
  - by apply (admissible_evidence _ ids).
  - exact Ht.
  - intros n Hn. pose proof Hn as Hn'. apply elem_of_bfilter in Hn' as [Hin Hadm].
    apply andb_true_iff in Hadm as [Hsame Hadm].
    destruct (Allowed (verdict gt ids n)) eqn:Ha.
    { apply allowed_spec in Ha as [_ [?|?]]; auto. }
    right; right. apply list_elem_of_fmap. exists n. split.
    + unfold skip_of. by destruct (verdict gt ids n).
    + apply elem_of_bfilter. by rewrite Hsame, Hadm, Ha.
Qed.

(** The plan is deterministic: with at least one detected partition and node IDs
    that identify the nodes, any two map iteration orders give the same plan. *)
Theorem PlanPartitionMeets_deterministic (R1 R2 : GoRuntime) (gt : ClusterGroundTruth) :
  gt_Partitions gt ≠ [] →
  (∀ p, p ∈ gt_Partitions gt → p ≠ [] ∧ "" ∉ p) →
  (∀ k1 k2 n1 n2, gt_Nodes gt !! k1 = Some n1 → gt_Nodes gt !! k2 = Some n2 →
     cn_NodeID n1 = cn_NodeID n2 → cn_NodeID n1 ≠ "" → n1 = n2) →
  @PlanPartitionMeets R1 gt = @PlanPartitionMeets R2 gt.
Proof.
  intros Hne Hps Hinj.
  destruct (largest_partition_lookup (gt_Partitions gt) Hne) as (id & p & Hl & _).
  { intros q Hq. by apply Hps. }
  assert (id ≠ "") as Hid.
  { intros ->. destruct (Hps ("" :: p)) as [_ Hno].
    - by eapply list_elem_of_lookup_2.
    - apply Hno. left. }
  unfold PlanPartitionMeets, GetLargestPartitionSeed.
  rewrite (ourIDs_proper R1 R2 gt), (sorted_nodes_proper R1 R2 gt), Hl.
  rewrite (find_permutation _ (@range_values R1 _ [163] (gt_Nodes gt))
             (@range_values R2 _ [163] (gt_Nodes gt)));
    [by destruct (gt_Partitions gt)|apply range_values_perm2|].
  intros x y [kx Hx]%elem_of_range_values [ky Hy]%elem_of_range_values ??. bool_hyps.
  eapply Hinj; [done|done|congruence|congruence].
Qed.

(** *** Witnesses *)

(** Two live pods that know each other and a third that is only seen by address. *)
Definition sample_node (pod ip id : string) (reachable : bool) : ClusterNodeState :=
  mkClusterNode pod ip id ["0-5460"] roleMaster "-" "" reachable ProbeOK "".

Definition sample_gt : ClusterGroundTruth :=
  mkGroundTruth
    (<["a-0" := sample_node "a-0" "10.0.0.1" "n1" true]>
     (<["a-1" := sample_node "a-1" "10.0.0.2" "n2" true]>
      (<["a-2" := sample_node "a-2" "10.0.0.3" "" false]> ∅)))
    [["n1"]; ["n2"]] [] "fail" 5461 {["n1"; "n2"]}
    (<["n1" := ["n1"]]> (<["n2" := ["n2"; "x9"]]> ∅)) false.

Lemma PlanPartitionMeets_sound_witness :
  ∃ plan, @PlanPartitionMeets ref_runtime sample_gt = Ok plan ∧
          cn_PodName <$> mp_Targets plan = ["a-1"] ∧
          length (mp_Unattributed plan) = 1%nat ∧
          mp_Seed plan = Some (sample_node "a-0" "10.0.0.1" "n1" true) ∧
          has_evidence (meetCandidate sample_gt (sample_node "a-0" "10.0.0.1" "n1" true)).
Proof.
  assert (∃ plan, @PlanPartitionMeets ref_runtime sample_gt = Ok plan ∧
          cn_PodName <$> mp_Targets plan = ["a-1"] ∧
          length (mp_Unattributed plan) = 1%nat ∧
          mp_Seed plan = Some (sample_node "a-0" "10.0.0.1" "n1" true))
    as (plan & Hp & Ht & Hu & Hs).
  { eexists. split; [vm_compute; reflexivity|]. by split_and!. }
  exists plan. pose proof (@PlanPartitionMeets_sound ref_runtime sample_gt plan Hp) as H.
  rewrite Hs in H. destruct H as [He _]. by split_and!.
Defined.

Lemma PlanPartitionMeets_deterministic_witness :
  gt_Partitions sample_gt ≠ [] ∧
  @PlanPartitionMeets ref_runtime sample_gt = @PlanPartitionMeets rev_runtime sample_gt.
Proof.
  split; [done|]. apply PlanPartitionMeets_deterministic.
  - done.
  - apply Forall_forall. decide_true.
  - intros k1 k2 n1 n2 H1 H2. unfold sample_gt in *; simpl in *.
    repeat match goal with
    | H : <[_ := _]> _ !! _ = Some _ |- _ => apply lookup_insert_Some in H as [[<- <-]|[? H]]
    | H : (∅ : gmap string ClusterNodeState) !! _ = Some _ |- _ => by rewrite lookup_empty in H
    end; simpl; try done.
Defined.
