(* ===== verification/Topology.v ===== *)
(** * The per-shard cluster topology
    (src/internal/controller/cluster_topology.go, src/internal/redis/shard_colocation.go)

    The names of the pods of a sharded cluster, the shard a pod name belongs to, the
    choice of the master an empty pod is attached to, and the check that every Redis shard
    lives inside one StatefulSet.  Shard counts and replica counts are validated to be
    non-negative by the custom resource definition. *)

From Stdlib Require Import Ascii.
From S2P Require Import Prelude GoStrings Slots Probe ClusterNodes ClusterState.

Open Scope Z_scope.
Open Scope go_scope.

(** ** Definitions *)

Record ClusterPodRef := mkPodRef {
  ref_Name : string;
  ref_ShardIdx : Z;
  ref_Ordinal : Z;
  ref_IsMaster : bool;
}.

(** [lrName] is [lr.Name]. *)
Definition clusterShardStatefulSetName (lrName : string) (shardIdx : Z) : string :=
  lrName +:+ "-shard-" +:+ itoa shardIdx.

Definition clusterShardPodName (name : string) (shardIdx ordinal : Z) : string :=
  name +:+ "-shard-" +:+ itoa shardIdx +:+ "-" +:+ itoa ordinal.

Definition shardMasterPodName (name : string) (shardIdx : Z) : string :=
  clusterShardPodName name shardIdx 0.

Definition ClusterPodRefs (name : string) (shards replicasPerShard : Z) : list ClusterPodRef :=
  shardIdx ← seqZ 0 shards;
  ordinal ← seqZ 0 (replicasPerShard + 1);
  [mkPodRef (clusterShardPodName name shardIdx ordinal) shardIdx ordinal (ordinal =? 0)%Z].

(** [strings.CutPrefix]; [None] is [ok == false]. *)
Fixpoint cut_prefix (s p : string) : option string :=
  match p, s with
  | EmptyString, _ => Some s
  | String c p', String d s' => if Ascii.eqb c d then cut_prefix s' p' else None
  | String _ _, EmptyString => None
  end.

(** [\d+]: the whole of [s] is a non-empty run of digits. *)
Fixpoint digits_only (s : string) : bool :=
  match s with
  | EmptyString => true
  | String c s' => match Ascii.is_nat c with Some _ => digits_only s' | None => false end
  end.
Definition digit_run (s : string) : bool := negb (s =? "") && digits_only s.

(** [-shard-(\d+)-\d+$] matched at the beginning of [s], with the captured group. *)
Definition match_shard (s : string) : option string :=
  rest ← cut_prefix s "-shard-";
  match split_on "-"%char rest with
  | [k; o] => if digit_run k && digit_run o then Some k else None
  | _ => None
  end.

(** [FindStringSubmatch]: the leftmost match. *)
Fixpoint shardPodNameRE (s : string) : option string :=
  match match_shard s with
  | Some k => Some k
  | None => match s with EmptyString => None | String _ s' => shardPodNameRE s' end
  end.

Definition ShardIndexFromPodName (podName : string) : Z :=
  match shardPodNameRE podName with
  | None => -1
  | Some m => default (-1) (atoi m)
  end.

Record ShardColocationViolation := mkViolation {
  v_ReplicaPod : string;
  v_ReplicaShard : Z;
  v_MasterPod : string;
  v_MasterShard : Z;
}.

(** The judgement of one node of the second loop. *)
Definition colocation_violation (byID : gmap string ClusterNodeState) (n : ClusterNodeState)
  : option ShardColocationViolation :=
  if negb (cn_Role n =? roleReplica) then None
  else
    m ← byID !! cn_MasterNodeID n;
    let rShard := ShardIndexFromPodName (cn_PodName n) in
    let mShard := ShardIndexFromPodName (cn_PodName m) in
    if (rShard <? 0)%Z || (mShard <? 0)%Z then None
    else if negb (rShard =? mShard)%Z
    then Some (mkViolation (cn_PodName n) rShard (cn_PodName m) mShard)
    else None.

Section topology.
Context `{GoRuntime}.

Definition CheckShardColocation (gt : ClusterGroundTruth) : list ShardColocationViolation :=
  let byID : gmap string ClusterNodeState :=
    foldl (λ m n, <[cn_NodeID n := n]> m) ∅ (range_values [64] (gt_Nodes gt)) in
  sort_slice (less_by_string v_ReplicaPod)
    (omap (colocation_violation byID) (range_values [69] (gt_Nodes gt))).

(** A slot-owning master with less than its complement of replicas. *)
Definition needs_replica (replicaCounts : gmap string (list string)) (expectedReplicas : Z)
  (m : ClusterNodeState) : bool :=
  negb (negb (is_master m) || (length (cn_Slots m) =? 0)%nat)
  && negb (expectedReplicas <=? Z.of_nat (length (default [] (replicaCounts !! cn_NodeID m))))%Z.

(** The scan over the sorted candidates. *)
Fixpoint reattach_scan (myShard : Z) (replicaCounts : gmap string (list string))
  (expectedReplicas : Z) (fallback : option ClusterNodeState) (sorted : list ClusterNodeState)
  : option ClusterNodeState :=
  match sorted with
  | [] => fallback
  | m :: rest =>
      if negb (needs_replica replicaCounts expectedReplicas m)
      then reattach_scan myShard replicaCounts expectedReplicas fallback rest
      else if (0 <=? myShard)%Z && (ShardIndexFromPodName (cn_PodName m) =? myShard)%Z
      then Some m
      else reattach_scan myShard replicaCounts expectedReplicas
             (match fallback with None => Some m | Some _ => fallback end) rest
  end.

Definition chooseReattachTarget (emptyPodName : string) (nodes : list ClusterNodeState)
  (replicaCounts : gmap string (list string)) (expectedReplicas : Z) : option ClusterNodeState :=
  reattach_scan (ShardIndexFromPodName emptyPodName) replicaCounts expectedReplicas None
    (sort_slice (less_by_string cn_PodName) nodes).
End topology.

(** ** Lemmas *)

Lemma split_on_cat sep s t :
  split_on sep (s +:+ String sep t) = split_on sep s ++ split_on sep t.
Proof.
  induction s as [|c s IH].
  { simpl. by rewrite Ascii.eqb_refl. }
  change (String c s +:+ String sep t) with (String c (s +:+ String sep t)). cbn [split_on].
  rewrite IH. destruct (Ascii.eqb_spec c sep); [done|].
  pose proof (split_on_ne_nil sep s). by destruct (split_on sep s).
Qed.

Lemma cut_prefix_spec s p r : cut_prefix s p = Some r ↔ s = p +:+ r.
Proof.
  revert s. induction p as [|c p IH]; intros s.
  { change (EmptyString +:+ r) with r. destruct s; simpl; naive_solver. }
  change (String c p +:+ r) with (String c (p +:+ r)). destruct s as [|d s]; [done|]. simpl.
  destruct (Ascii.eqb_spec c d) as [->|Hcd].
  - rewrite IH. split; [by intros ->|by intros [= ->]].
  - split; [done|]. by intros [= ->].
Qed.

Lemma digits_only_spec s : digits_only s = true ↔ all_digits s.
Proof.
  induction s as [|c s IH]; simpl; [done|]. destruct (Ascii.is_nat c) eqn:Hc.
  - rewrite IH. split; [intros; split; [|done]; congruence|by intros [_ ?]].
  - split; [done|]. by intros [? _].
Qed.

Lemma digit_run_itoa z : 0 ≤ z → digit_run (itoa z) = true.
Proof.
  intros Hz. unfold digit_run. apply andb_true_iff. split.
  - apply negb_true_iff, String.eqb_neq. rewrite itoa_nonneg by done. apply pretty_N_ne_empty.
  - by apply digits_only_spec, all_digits_itoa.
Qed.

Lemma digit_run_free s : digit_run s = true → byte_free "-"%char s.
Proof.
  unfold digit_run. intros [_ Hs]%andb_true_iff. apply all_digits_free; [done|].
  by apply digits_only_spec.
Qed.

(** The end of a per-shard pod name, split at its dashes. *)
Lemma split_shard_tail q k o :
  digit_run k = true → digit_run o = true →
  split_on "-"%char (q +:+ "-shard-" +:+ k +:+ "-" +:+ o) =
    split_on "-"%char q ++ ["shard"; k; o].
Proof.
  intros Hk%digit_run_free Ho%digit_run_free.
  change ("-shard-" +:+ k +:+ "-" +:+ o)
    with (String "-" ("shard" +:+ String "-" (k +:+ String "-" o))).
  rewrite split_on_cat. f_equal. rewrite split_on_app by (vm_compute; naive_solver).
  rewrite split_on_app by done. by rewrite split_on_free.
Qed.

Lemma split_on_empty sep s : split_on sep s = [""] → s = "".
Proof.
  destruct s as [|c s]; [done|]. simpl. destruct (Ascii.eqb c sep).
  - intros [= Hn]. by apply split_on_ne_nil in Hn.
  - pose proof (split_on_ne_nil sep s). by destruct (split_on sep s).
Qed.

Lemma match_shard_tail k o :
  digit_run k = true → digit_run o = true →
  match_shard ("-shard-" +:+ k +:+ "-" +:+ o) = Some k.
Proof.
  intros Hk Ho. unfold match_shard.
  rewrite (proj2 (cut_prefix_spec _ _ (k +:+ "-" +:+ o)) eq_refl). simpl.
  change (k +:+ "-" +:+ o) with (k +:+ String "-" o).
  rewrite split_on_app, split_on_free by (by apply digit_run_free). by rewrite Hk, Ho.
Qed.

(** The pattern does not match earlier in the name. *)
Lemma match_shard_early q k o :
  digit_run k = true → digit_run o = true → q ≠ "" →
  match_shard (q +:+ "-shard-" +:+ k +:+ "-" +:+ o) = None.
Proof.
  intros Hk Ho Hq. unfold match_shard.
  destruct (cut_prefix _ "-shard-") as [rest|] eqn:Hc; [|done]. simpl.
  apply cut_prefix_spec in Hc.
  pose proof (split_shard_tail q k o Hk Ho) as Hs. rewrite Hc in Hs.
  change ("-shard-" +:+ rest) with ("" +:+ String "-" ("shard" +:+ String "-" rest)) in Hs.
  rewrite split_on_cat, split_on_app in Hs by (vm_compute; naive_solver). simpl in Hs.
  destruct (split_on "-"%char rest) as [|x [|y [|]]]; try done.
  pose proof (f_equal length Hs) as Hl. rewrite length_app in Hl. simpl in Hl.
  destruct (split_on "-"%char q) as [|q1 [|q2 qs]] eqn:Eq; simpl in Hl; [lia| |lia].
  simplify_eq/=. by apply split_on_empty in Eq.
Qed.

Lemma shardPodNameRE_name name k o :
  digit_run k = true → digit_run o = true →
  shardPodNameRE (name +:+ "-shard-" +:+ k +:+ "-" +:+ o) = Some k.
Proof.
  intros Hk Ho. induction name as [|c name IH].
  - change ("" +:+ ?x) with x. pose proof (match_shard_tail k o Hk Ho) as Hm.
    unfold shardPodNameRE. destruct ("-shard-" +:+ _) eqn:E; rewrite Hm; done.
  - pose proof (match_shard_early (String c name) k o Hk Ho ltac:(done)) as Hm.
    change (String c name +:+ ?x) with (String c (name +:+ x)) in *. cbn [shardPodNameRE].
    by rewrite Hm.
Qed.

Lemma ShardIndexFromPodName_name name k o :
  0 ≤ k ≤ int64_max → 0 ≤ o → ShardIndexFromPodName (clusterShardPodName name k o) = k.
Proof.
  intros Hk Ho. unfold ShardIndexFromPodName, clusterShardPodName.
  rewrite shardPodNameRE_name by (apply digit_run_itoa; lia).
  rewrite atoi_itoa; [done|]. unfold in_int64, int64_min, int64_max in *. lia.
Qed.

Lemma clusterShardPodName_inj name k1 o1 k2 o2 :
  0 ≤ k1 → 0 ≤ o1 → 0 ≤ k2 → 0 ≤ o2 →
  clusterShardPodName name k1 o1 = clusterShardPodName name k2 o2 → k1 = k2 ∧ o1 = o2.
Proof.
  intros Hk1 Ho1 Hk2 Ho2 He. apply (f_equal (split_on "-"%char)) in He.
  unfold clusterShardPodName in He. rewrite !split_shard_tail in He by (by apply digit_run_itoa).
  apply app_inv_head in He. simplify_eq. by split; apply itoa_inj.
Qed.

Lemma elem_of_ClusterPodRefs name shards rps r :
  r ∈ ClusterPodRefs name shards rps ↔
  ∃ k o, 0 ≤ k < shards ∧ 0 ≤ o ≤ rps ∧
    r = mkPodRef (clusterShardPodName name k o) k o (o =? 0)%Z.
Proof.
  unfold ClusterPodRefs. rewrite list_elem_of_bind. split.
  - intros (k & (o & Hr & Ho)%list_elem_of_bind & Hk). apply list_elem_of_singleton in Hr.
    apply elem_of_seqZ in Hk, Ho. exists k, o. split; [lia|]. split; [lia|done].
  - intros (k & o & Hk & Ho & ->). exists k. split; [|apply elem_of_seqZ; lia].
    apply list_elem_of_bind. exists o. split; [left|apply elem_of_seqZ; lia].
Qed.

(** The master of the scan: the first candidate of the pod's own shard, or else the first
    candidate. *)
Lemma reattach_scan_spec myShard counts expected fallback l :
  let same m := (0 <=? myShard)%Z && (ShardIndexFromPodName (cn_PodName m) =? myShard)%Z in
  let cands := bfilter (needs_replica counts expected) l in
  reattach_scan myShard counts expected fallback l =
    match head (bfilter same cands) with
    | Some m => Some m
    | None => match fallback with Some f => Some f | None => head cands end
    end.
Proof.
  intros same cands. subst cands. revert fallback. unfold bfilter.
  induction l as [|m l IH]; intros fallback; [by destruct fallback|]. cbn [reattach_scan].
  cbn [List.filter]. destruct (needs_replica counts expected m); cbn [negb]; [|apply IH].
  fold (same m). cbn [List.filter]. destruct (same m); [done|]. rewrite IH.
  by destruct (head _), fallback.
Qed.

Lemma length_bind_const {A B} (f : A → list B) n l :
  (∀ x, length (f x) = n) → length (l ≫= f) = (length l * n)%nat.
Proof.
  intros Hf. induction l as [|x l IH]; [done|]. csimpl. by rewrite length_app, Hf, IH.
Qed.

Section topology_lemmas.
Context `{GoRuntime}.

(** The candidates of [chooseReattachTarget], in the order of the scan. *)
Definition reattach_candidates (nodes : list ClusterNodeState)
  (counts : gmap string (list string)) (expected : Z) : list ClusterNodeState :=
  bfilter (needs_replica counts expected) (sort_slice (less_by_string cn_PodName) nodes).

Lemma elem_of_reattach_candidates nodes counts expected m :
  m ∈ reattach_candidates nodes counts expected ↔
  m ∈ nodes ∧ needs_replica counts expected m = true.
Proof. unfold reattach_candidates. by rewrite elem_of_bfilter, sort_slice_perm. Qed.

Lemma StronglySorted_bfilter {A} (R : A → A → Prop) (f : A → bool) l :
  StronglySorted R l → StronglySorted R (bfilter f l).
Proof.
  induction 1 as [|x l _ IH Hall]; [constructor|]. unfold bfilter in *. simpl.
  destruct (f x); [|done]. constructor; [done|]. apply Forall_forall. intros y Hy.
  rewrite Forall_forall in Hall. apply Hall. by apply (elem_of_bfilter f l y) in Hy as [? _].
Qed.

Lemma head_sorted {A} (R : A → A → Prop) (l : list A) x y :
  StronglySorted R l → head l = Some x → y ∈ l → y = x ∨ R x y.
Proof.
  destruct l as [|z l]; [done|]. intros Hs [= ->] [->|Hy]%elem_of_cons; [by left|].
  apply StronglySorted_inv in Hs as [_ Hall]. rewrite Forall_forall in Hall. right. by apply Hall.
Qed.

Lemma head_least {A} (key : A → string) (l : list A) x y :
  StronglySorted (not_after (less_by_string key)) l → head l = Some x → y ∈ l →
  String.le (key x) (key y).
Proof.
  intros Hs Hx Hy. destruct (head_sorted _ _ _ _ Hs Hx Hy) as [->|Hlt]; [done|].
  by apply string_ltb_ge.
Qed.
End topology_lemmas.

(** ** Theorems *)

(** The pods of a sharded cluster are distinct, there are (1 + replicas) of each
    shard, each carries a name from which its shard is recovered, and exactly ordinal 0 is
    the intended master. *)
Theorem ClusterPodRefs_spec (name : string) (shards rps : Z) :
  0 ≤ shards ≤ int64_max → 0 ≤ rps →
  NoDup (ref_Name <$> ClusterPodRefs name shards rps) ∧
  Z.of_nat (length (ClusterPodRefs name shards rps)) = shards * (1 + rps) ∧
  ∀ r, r ∈ ClusterPodRefs name shards rps →
    ShardIndexFromPodName (ref_Name r) = ref_ShardIdx r ∧
    (ref_IsMaster r = true ↔ ref_Name r = shardMasterPodName name (ref_ShardIdx r)).
Proof.
  intros Hs Hr. split; [|split].
  - apply NoDup_fmap_2_strong; [|unfold ClusterPodRefs; apply NoDup_bind].
    + intros r1 r2 (k1 & o1 & ? & ? & ->)%elem_of_ClusterPodRefs
        (k2 & o2 & ? & ? & ->)%elem_of_ClusterPodRefs. simpl. intros He.
      apply clusterShardPodName_inj in He as [-> ->]; [done|lia..].
    + intros k1 k2 r _ _ (o1 & H1%list_elem_of_singleton & _)%list_elem_of_bind
        (o2 & H2%list_elem_of_singleton & _)%list_elem_of_bind. by simplify_eq.
    + intros k _. apply NoDup_bind; [|intros o _; apply NoDup_singleton|apply NoDup_seqZ].
      intros o1 o2 r _ _ H1%list_elem_of_singleton H2%list_elem_of_singleton. by simplify_eq.
    + apply NoDup_seqZ.
  - unfold ClusterPodRefs. rewrite (length_bind_const _ (Z.to_nat (rps + 1))).
    + rewrite length_seqZ. lia.
    + intros k. rewrite (length_bind_const _ 1) by done. rewrite length_seqZ. lia.
  - intros r (k & o & Hk & Ho & ->)%elem_of_ClusterPodRefs. simpl. split.
    + apply ShardIndexFromPodName_name; lia.
    + rewrite Z.eqb_eq. split; [by intros ->|]. intros He. unfold shardMasterPodName in He.
      apply clusterShardPodName_inj in He; lia.
Qed.

(** An empty pod is attached to a slot-owning master that lacks a replica: to one of
    its own shard whenever there is one, and otherwise to the one with the least pod name;
    it is left alone only when no master lacks a replica. *)
Theorem chooseReattachTarget_spec `{GoRuntime} (em : string) (nodes : list ClusterNodeState)
  (counts : gmap string (list string)) (expected : Z) :
  let candidate m := m ∈ nodes ∧ needs_replica counts expected m = true in
  let mine m := 0 ≤ ShardIndexFromPodName em ∧
                ShardIndexFromPodName (cn_PodName m) = ShardIndexFromPodName em in
  match chooseReattachTarget em nodes counts expected with
  | None => ∀ m, ¬ candidate m
  | Some t =>
      candidate t ∧
      (∀ m, candidate m → mine m → mine t ∧ String.le (cn_PodName t) (cn_PodName m)) ∧
      ((∀ m, candidate m → ¬ mine m) →
       ∀ m, candidate m → String.le (cn_PodName t) (cn_PodName m))
  end.
Proof.
  intros candidate mine. unfold chooseReattachTarget. rewrite reattach_scan_spec.
  fold (reattach_candidates nodes counts expected).
  set (same m := (0 <=? _)%Z && _). set (cs := reattach_candidates nodes counts expected).
  assert (Hcand : ∀ m, m ∈ cs ↔ candidate m) by (intros; apply elem_of_reattach_candidates).
  assert (Hmine : ∀ m, same m = true ↔ mine m).
  { intros m. subst same mine. cbv beta. rewrite andb_true_iff, Z.leb_le, Z.eqb_eq. done. }
  assert (Hsort : StronglySorted (not_after (less_by_string cn_PodName)) cs)
    by (apply StronglySorted_bfilter, sort_slice_sorted, _).
  destruct (head (bfilter same cs)) as [t|] eqn:Ht.
  - assert (t ∈ bfilter same cs) as [Htc Hts]%elem_of_bfilter by (by apply head_Some_elem_of).
    split; [by apply Hcand|]. split; [|intros Hno; exfalso; by apply (Hno t); [apply Hcand|apply Hmine]].
    intros m Hc Hm. split; [by apply Hmine|].
    apply (head_least cn_PodName (bfilter same cs)); [by apply StronglySorted_bfilter|done|].
    apply elem_of_bfilter. split; [by apply Hcand|by apply Hmine].
  - assert (Hno : ∀ m, candidate m → ¬ mine m).
    { intros m Hc Hm. destruct (bfilter same cs) as [|x l] eqn:E; [|done].
      apply bfilter_nil with (x := m) in E; [|by apply Hcand]. apply Hmine in Hm. congruence. }
    destruct (head cs) as [t|] eqn:Hh.
    + split; [by apply Hcand, head_Some_elem_of|]. split; [intros m Hc Hm; by destruct (Hno m)|].
      intros _ m Hc. apply (head_least cn_PodName cs); [done|done|by apply Hcand].
    + intros m Hc%Hcand. destruct cs; [by apply elem_of_nil in Hc|done].
Qed.

Lemma byID_lookup (l : list ClusterNodeState) (m0 : gmap string ClusterNodeState) id :
  NoDup (cn_NodeID <$> l) →
  (foldl (λ m n, <[cn_NodeID n := n]> m) m0 l : gmap string ClusterNodeState) !! id =
    match List.find (λ n, cn_NodeID n =? id) l with Some n => Some n | None => m0 !! id end.
Proof.
  revert m0. induction l as [|n l IH]; intros m0 Hnd; [done|]. simpl.
  apply NoDup_cons in Hnd as [Hn Hnd]. rewrite IH by done.
  destruct (String.eqb_spec (cn_NodeID n) id) as [<-|Hne]; [|by rewrite lookup_insert_ne].
  destruct (List.find _ l) as [n'|] eqn:Hf; [|by rewrite lookup_insert_eq].
  apply find_some in Hf as [Hin He%String.eqb_eq]. exfalso. apply Hn.
  rewrite <-He. apply list_elem_of_fmap. exists n'. split; [done|]. by apply list_elem_of_In.
Qed.

(** On nodes with distinct identifiers the check reports nothing exactly when every
    replica and its gathered master, both with per-shard names, are in one shard. *)
Theorem CheckShardColocation_spec `{GoRuntime} (gt : ClusterGroundTruth) :
  NoDup (cn_NodeID <$> (map_to_list (gt_Nodes gt)).*2) →
  CheckShardColocation gt = [] ↔
  ∀ p q n m, gt_Nodes gt !! p = Some n → gt_Nodes gt !! q = Some m →
    is_replica n = true → cn_MasterNodeID n = cn_NodeID m →
    0 ≤ ShardIndexFromPodName (cn_PodName n) → 0 ≤ ShardIndexFromPodName (cn_PodName m) →
    ShardIndexFromPodName (cn_PodName n) = ShardIndexFromPodName (cn_PodName m).
Proof.
  intros Hnd. unfold CheckShardColocation.
  set (byID := foldl _ _ _).
  assert (Hby : ∀ n m, (∃ p, gt_Nodes gt !! p = Some m) →
                 cn_MasterNodeID n = cn_NodeID m ↔ byID !! cn_MasterNodeID n = Some m).
  { intros n m Hm%(elem_of_range_values [64]).
    assert (Hnd' : NoDup (cn_NodeID <$> range_values [64] (gt_Nodes gt)))
      by (unfold range_values; by rewrite go_range_perm).
    subst byID. rewrite byID_lookup by done. rewrite lookup_empty.
    destruct (List.find _ _) as [m'|] eqn:Hf; split; intros He; simplify_eq/=.
    - apply find_some in Hf as [Hin Hid%String.eqb_eq]. apply list_elem_of_In in Hin. f_equal.
      destruct (list_elem_of_lookup_1 _ _ Hin) as [i Hi], (list_elem_of_lookup_1 _ _ Hm) as [j Hj].
      assert (i = j) as ->; [|congruence]. eapply (NoDup_lookup _ _ _ (cn_NodeID m) Hnd');
        rewrite list_lookup_fmap, ?Hi, ?Hj; simpl; congruence.
    - by apply find_some in Hf as [_ ->%String.eqb_eq].
    - apply list_elem_of_In in Hm. eapply find_none in Hf; [|done].
      apply String.eqb_neq in Hf. congruence. }
  assert (Hemp : ∀ l : list ShardColocationViolation,
            sort_slice (less_by_string v_ReplicaPod) l = [] ↔ l = []).
  { intros l. split; intros Hl; [|by apply Permutation_nil_r; rewrite sort_slice_perm, Hl].
    apply Permutation_nil_r. by rewrite <-(sort_slice_perm (less_by_string v_ReplicaPod) l), Hl. }
  rewrite Hemp. split.
  - intros Hnil p q n m Hp Hq Hr Hid Hn0 Hm0.
    destruct (Z.eqb_spec (ShardIndexFromPodName (cn_PodName n)) (ShardIndexFromPodName (cn_PodName m)))
      as [|Hne]; [done|]. exfalso.
    assert (is_Some (colocation_violation byID n)) as [v Hv].
    { unfold colocation_violation. unfold is_replica in Hr. rewrite Hr. simpl.
      apply Hby in Hid; [|by exists q]. rewrite Hid. simpl.
      rewrite (proj2 (Z.ltb_ge _ _) Hn0), (proj2 (Z.ltb_ge _ _) Hm0). simpl.
      apply Z.eqb_neq in Hne. by rewrite Hne. }
    assert (v ∈ omap (colocation_violation byID) (range_values [69] (gt_Nodes gt))) as Hin.
    { apply list_elem_of_omap. exists n. split; [apply elem_of_range_values; by exists p|done]. }
    rewrite Hnil in Hin. by apply elem_of_nil in Hin.
  - intros Hall. destruct (omap _ _) as [|v vs] eqn:E; [done|]. exfalso.
    assert (v ∈ omap (colocation_violation byID) (range_values [69] (gt_Nodes gt))) as Hin
      by (rewrite E; left).
    apply list_elem_of_omap in Hin as (n & [p Hp]%elem_of_range_values & Hv).
    unfold colocation_violation in Hv. fold (is_replica n) in Hv.
    destruct (is_replica n) eqn:Hr; [|done]. simpl in Hv.
    destruct (byID !! cn_MasterNodeID n) as [m|] eqn:Hm; [|done]. simpl in Hv.
    destruct (_ || _) eqn:Hz; [done|]. apply orb_false_iff in Hz as [Hz1%Z.ltb_ge Hz2%Z.ltb_ge].
    destruct (_ =? _)%Z eqn:He; [done|]. apply Z.eqb_neq in He.
    assert (∃ q, gt_Nodes gt !! q = Some m) as [q Hq].
    { subst byID. rewrite byID_lookup in Hm
        by (unfold range_values; by rewrite go_range_perm).
      rewrite lookup_empty in Hm. destruct (List.find _ _) eqn:Hf; simplify_eq.
      apply find_some in Hf as [Hf _]. by apply list_elem_of_In, elem_of_range_values in Hf. }
    apply He, (Hall p q n m Hp Hq Hr); [by apply Hby; [by exists q|]|done..].
Qed.
