(* ===== verification/Reshard.v ===== *)
(** * Restoring one master per shard (src/internal/redis/reshard_plan.go)

    [PlanReshard] detects a master that owns more than one shard range while other masters
    own none, and plans the moves that give every shard a master of its own.  The theorems
    show that every planned move is between reachable masters of the right kind, that
    carrying the moves out one per pass terminates, and where it ends. *)

From S2P Require Import Prelude GoStrings Slots Probe ClusterNodes ClusterState Topology.

Open Scope Z_scope.
Open Scope go_scope.

(** ** Definitions *)

Record ReshardMove := mkReshardMove {
  mv_Start : Z;
  mv_End : Z;
  mv_Source : ClusterNodeState;
  mv_Dest : ClusterNodeState;
}.

Record ReshardPlan := mkReshardPlan {
  rp_Moves : list ReshardMove;
  rp_Reason : string;
}.

(** A nil node is [None]. *)
Definition SafeMissingShardTarget (node : option ClusterNodeState) : bool :=
  match node with
  | None => false
  | Some n => cn_Reachable n && is_master n && (length (cn_Slots n) =? 0)%nat
  end.

(** The loop [for i, r := range expected] that looks for an exact match; -1 if there is none. *)
Fixpoint range_index (i : Z) (expected : list SlotRange) (start end_ : Z) : Z :=
  match expected with
  | [] => -1
  | r :: rest =>
      if (Start r =? start)%Z && (End r =? end_)%Z then i else range_index (i + 1) rest start end_
  end.

(** The body of the loop over [n.Slots]; [inr] is the reason of an early return. *)
Definition scan_slot (expected : list SlotRange) (n : ClusterNodeState)
  (acc : list Z + string) (slotStr : string) : list Z + string :=
  match acc with
  | inr reason => inr reason
  | inl idxs =>
      match ParseSlotRange slotStr with
      | None =>
          inr ("unparseable slot range " +:+ Quote slotStr +:+ " on " +:+ cn_PodName n
               +:+ "; deferring")
      | Some (start, end_) =>
          let idx := range_index 0 expected start end_ in
          if (idx =? -1)%Z
          then inr ("non-aligned slot range " +:+ itoa start +:+ "-" +:+ itoa end_ +:+ " on "
                    +:+ cn_PodName n +:+ "; deferring to avoid data loss")
          else inl (idxs ++ [idx])
      end
  end.

(** [ownedShards] is keyed by the node's pointer, of which there is one for each key of
    [gt.Nodes]. *)
Abbreviation owned_shards := (gmap string (ClusterNodeState * list Z)).

(** The body of the loop over [gt.Nodes]. *)
Definition scan_node (expected : list SlotRange)
  (acc : owned_shards * list ClusterNodeState + string) (kn : string * ClusterNodeState)
  : owned_shards * list ClusterNodeState + string :=
  match acc with
  | inr reason => inr reason
  | inl (ownedShards, emptyMasters) =>
      let '(k, n) := kn in
      if negb (is_master n) || negb (cn_Reachable n) then acc
      else if (length (cn_Slots n) =? 0)%nat then inl (ownedShards, emptyMasters ++ [n])
      else match foldl (scan_slot expected n) (inl []) (cn_Slots n) with
           | inr reason => inr reason
           | inl idxs => inl (<[k := (n, idxs)]> ownedShards, emptyMasters)
           end
  end.

(** The surplus ranges of one master: all it owns but the one of lowest index. *)
Definition node_surplus (e : string * (ClusterNodeState * list Z)) : list (Z * ClusterNodeState) :=
  let '(_, (node, idxs)) := e in
  if (length idxs <=? 1)%nat then []
  else (λ idx, (idx, node)) <$> tail (sort_ints idxs).

(** By pod name, ties broken by node identifier. *)
Definition less_pod_id (x y : ClusterNodeState) : bool :=
  if negb (cn_PodName x =? cn_PodName y) then (cn_PodName x <? cn_PodName y)%go
  else (cn_NodeID x <? cn_NodeID y)%go.

(** [expected[surpluses[i].shardIdx]] panics out of range. *)
Definition reshard_move (expected : list SlotRange) (s : (Z * ClusterNodeState) * ClusterNodeState)
  : outcome ReshardMove :=
  match expected !! Z.to_nat s.1.1 with
  | Some r => Ok (mkReshardMove (Start r) (End r) s.1.2 s.2)
  | None => Panic
  end.

Fixpoint collect {A} (l : list (outcome A)) : outcome (list A) :=
  match l with
  | [] => Ok []
  | o :: l' => a ← o; rest ← collect l'; Ok (a :: rest)
  end.

Section reshard.
Context `{GoRuntime}.

Definition SlotsNeedingDrain (counts : gmap Z Z) : list Z :=
  sort_ints (fst <$> bfilter (λ '(_, n), (0 <? n)%Z) (go_range [62] counts)).

Definition PlanReshard (gt : ClusterGroundTruth) (shards : Z) : outcome ReshardPlan :=
  if (shards <=? 0)%Z then Ok (mkReshardPlan [] "invalid shard count")
  else
    let expected := GenerateSlotRanges shards in
    match foldl (scan_node expected) (inl (∅, [])) (go_range [100] (gt_Nodes gt)) with
    | inr reason => Ok (mkReshardPlan [] reason)
    | inl (ownedShards, emptyMasters) =>
        let surpluses := go_range [136] ownedShards ≫= node_surplus in
        if (length surpluses =? 0)%nat
        then Ok (mkReshardPlan [] "one master per shard; no reshard needed")
        else if (length emptyMasters =? 0)%nat
        then Ok (mkReshardPlan [] ("over-consolidated master(s) present but no reachable empty "
                                   +:+ "master to receive surplus; deferring"))
        else
          let surpluses := sort_slice (less_by_int fst) surpluses in
          let emptyMasters := sort_slice less_pod_id emptyMasters in
          moves ← collect (reshard_move expected <$> zip surpluses emptyMasters);
          let reason :=
            if (length emptyMasters <? length surpluses)%nat
            then itoa (Z.of_nat (length surpluses)) +:+ " surplus range(s) but "
                 +:+ itoa (Z.of_nat (length emptyMasters)) +:+ " empty master(s); moving "
                 +:+ itoa (Z.of_nat (Nat.min (length emptyMasters) (length surpluses)))
                 +:+ " this pass"
            else "" in
          Ok (mkReshardPlan moves reason)
    end.
End reshard.

(** ** Lemmas *)

(** *** Aligned ranges *)

(** The shard index a slot range of a node stands for. *)
Definition slot_index (expected : list SlotRange) (slotStr : string) : option Z :=
  '(start, end_) ← ParseSlotRange slotStr;
  let idx := range_index 0 expected start end_ in
  if (idx =? -1)%Z then None else Some idx.

Lemma range_index_spec i expected start end_ :
  0 ≤ i →
  (range_index i expected start end_ = -1 ∧
   ∀ r, r ∈ expected → ¬ (Start r = start ∧ End r = end_)) ∨
  ∃ (k : nat) r, range_index i expected start end_ = i + Z.of_nat k ∧
    expected !! k = Some r ∧ Start r = start ∧ End r = end_.
Proof.
  revert i. induction expected as [|r expected IH]; intros i Hi; simpl.
  { left. split; [done|]. intros r Hr. by apply elem_of_nil in Hr. }
  destruct ((Start r =? start)%Z && (End r =? end_)%Z) eqn:E.
  - apply andb_true_iff in E as [?%Z.eqb_eq ?%Z.eqb_eq]. right. exists 0%nat, r.
    split; [lia|done].
  - destruct (IH (i + 1)) as [[-> Hno]|(k & r' & -> & Hk & Hr')]; [lia| |].
    + left. split; [done|]. intros r' [->|Hr']%elem_of_cons [Hs He]; [|by apply (Hno r' Hr')].
      apply andb_false_iff in E as [E|E]; apply Z.eqb_neq in E; done.
    + right. exists (S k), r'. split; [lia|done].
Qed.

Lemma slot_index_spec expected s idx :
  slot_index expected s = Some idx →
  0 ≤ idx ∧ ∃ r, expected !! Z.to_nat idx = Some r ∧ ParseSlotRange s = Some (Start r, End r).
Proof.
  unfold slot_index. destruct (ParseSlotRange s) as [[st en]|]; [|done]. simpl.
  destruct (Z.eqb_spec (range_index 0 expected st en) (-1)) as [|Hne]; [done|]. intros [= <-].
  destruct (range_index_spec 0 expected st en) as [[? _]|(k & r & -> & Hk & <- & <-)]; [done|done|].
  split; [lia|]. exists r. by rewrite Z.add_0_l, Nat2Z.id.
Qed.

(** The indices of a node's ranges; [None] if one of them is not a shard range. *)
Definition owned_indices (expected : list SlotRange) (n : ClusterNodeState) : option (list Z) :=
  mapM (slot_index expected) (cn_Slots n).

Lemma scan_slot_fold expected n slots pre :
  match mapM (slot_index expected) slots with
  | Some idxs => foldl (scan_slot expected n) (inl pre) slots = inl (pre ++ idxs)
  | None => ∃ reason, foldl (scan_slot expected n) (inl pre) slots = inr reason
  end.
Proof.
  revert pre. induction slots as [|s slots IH]; intros pre; [simpl; by rewrite app_nil_r|].
  assert (Hstop : ∀ l reason, foldl (scan_slot expected n) (inr reason) l = inr reason)
    by (induction l; auto).
  simpl. unfold slot_index at 2.
  destruct (ParseSlotRange s) as [[st en]|]; simpl; [|eexists; apply Hstop].
  destruct (_ =? -1)%Z; simpl; [eexists; apply Hstop|].
  specialize (IH (pre ++ [range_index 0 expected st en])).
  destruct (mapM _ slots) as [idxs|]; simpl; [|done]. rewrite IH. by rewrite <-(assoc_L app).
Qed.

(** *** The scan *)

Definition reachable_master (n : ClusterNodeState) : bool := is_master n && cn_Reachable n.
Definition holds_ranges (n : ClusterNodeState) : bool :=
  reachable_master n && negb (length (cn_Slots n) =? 0)%nat.
Definition reachable_empty (n : ClusterNodeState) : bool :=
  reachable_master n && (length (cn_Slots n) =? 0)%nat.

Definition scan_entry (expected : list SlotRange) (kn : string * ClusterNodeState)
  : option (string * (ClusterNodeState * list Z)) :=
  if holds_ranges kn.2
  then (λ idxs, (kn.1, (kn.2, idxs))) <$> owned_indices expected kn.2
  else None.

Lemma scan_node_stop expected kns reason : foldl (scan_node expected) (inr reason) kns = inr reason.
Proof. by induction kns. Qed.

Lemma scan_node_one expected o e k n :
  if holds_ranges n
  then match owned_indices expected n with
       | Some idxs => scan_node expected (inl (o, e)) (k, n) = inl (<[k := (n, idxs)]> o, e)
       | None => ∃ reason, scan_node expected (inl (o, e)) (k, n) = inr reason
       end
  else scan_node expected (inl (o, e)) (k, n) =
         inl (o, e ++ if reachable_empty n then [n] else []).
Proof.
  unfold scan_node, holds_ranges, reachable_empty, reachable_master, owned_indices.
  pose proof (scan_slot_fold expected n (cn_Slots n) []) as Hs.
  destruct (is_master n), (cn_Reachable n); simpl; rewrite ?app_nil_r; try done.
  destruct (length (cn_Slots n) =? 0)%nat; simpl; [done|].
  destruct (mapM _ (cn_Slots n)); [by rewrite Hs|]. destruct Hs as [reason ->]. by exists reason.
Qed.

Definition scannable (expected : list SlotRange) (kn : string * ClusterNodeState) : bool :=
  negb (holds_ranges kn.2) || bool_decide (is_Some (owned_indices expected kn.2)).

Lemma scan_node_fold expected kns (o : owned_shards) e :
  if forallb (scannable expected) kns
  then foldl (scan_node expected) (inl (o, e)) kns =
         inl (foldl (λ m kv, <[kv.1 := kv.2]> m) o (omap (scan_entry expected) kns),
              e ++ bfilter reachable_empty kns.*2)
  else ∃ reason, foldl (scan_node expected) (inl (o, e)) kns = inr reason.
Proof.
  revert o e. induction kns as [|[k n] kns IH]; intros o e; [simpl; by rewrite app_nil_r|].
  pose proof (scan_node_one expected o e k n) as H1. unfold bfilter. cbn [forallb foldl].
  remember (scan_node expected (inl (o, e)) (k, n)) as st eqn:Est. clear Est.
  unfold scannable at 1. csimpl. unfold scan_entry at 1. cbn [fst snd].
  destruct (holds_ranges n) eqn:Hh; simpl.
  - assert (reachable_empty n = false) as ->.
    { unfold holds_ranges, reachable_empty in *. destruct (reachable_master n), (_ =? _)%nat; done. }
    destruct (owned_indices expected n) as [idxs|]; simpl.
    + rewrite H1. apply IH.
    + destruct H1 as [reason ->].
      exists reason. apply scan_node_stop.
  - rewrite H1. specialize (IH o (e ++ if reachable_empty n then [n] else [])).
    destruct (forallb _ kns); [|done]. rewrite IH, <-(assoc_L app). by destruct (reachable_empty n).
Qed.

(** *** The plan in closed form *)

(** The ranges that have to move, with the master that holds them, and the masters that can
    receive one. *)
Definition surpluses (expected : list SlotRange) (gt : ClusterGroundTruth)
  : list (Z * ClusterNodeState) :=
  map_to_list (gt_Nodes gt) ≫= λ kn, from_option node_surplus [] (scan_entry expected kn).
Definition empties (gt : ClusterGroundTruth) : list ClusterNodeState :=
  bfilter reachable_empty (map_to_list (gt_Nodes gt)).*2.

Definition move_of (expected : list SlotRange) (s : (Z * ClusterNodeState) * ClusterNodeState)
  : ReshardMove :=
  let r := default (mkRange 0 0) (expected !! Z.to_nat s.1.1) in
  mkReshardMove (Start r) (End r) s.1.2 s.2.

Lemma collect_fmap {A B} (f : A → outcome B) (g : A → B) l :
  (∀ x, x ∈ l → f x = Ok (g x)) → collect (f <$> l) = Ok (g <$> l).
Proof.
  induction l as [|x l IH]; intros Hf; [done|]. csimpl. rewrite (Hf x) by left. simpl.
  rewrite IH; [done|]. intros y Hy. apply Hf. by right.
Qed.

Lemma bind_omap {A B C} (f : A → option B) (g : B → list C) l :
  omap f l ≫= g = l ≫= λ x, from_option g [] (f x).
Proof.
  induction l as [|x l IH]; [done|]. csimpl. destruct (f x); csimpl; by rewrite IH.
Qed.

Lemma bind_permutation {A B} (f : A → list B) l1 l2 : l1 ≡ₚ l2 → l1 ≫= f ≡ₚ l2 ≫= f.
Proof. intros ->. done. Qed.

Lemma omap_scan_entry_fst expected kns :
  sublist (omap (scan_entry expected) kns).*1 kns.*1.
Proof.
  induction kns as [|[k n] kns IH]; [done|]. csimpl.
  destruct (scan_entry expected (k, n)) as [e|] eqn:He; [|by constructor].
  unfold scan_entry in He. simpl in He. destruct (holds_ranges n); [|done].
  destruct (owned_indices expected n); simplify_eq/=. by constructor.
Qed.

(** Every surplus is an aligned range of a reachable master that also holds another. *)
Lemma elem_of_surpluses expected gt idx n :
  (idx, n) ∈ surpluses expected gt ↔
  ∃ k idxs, gt_Nodes gt !! k = Some n ∧ holds_ranges n = true ∧
    owned_indices expected n = Some idxs ∧ (1 < length idxs)%nat ∧ idx ∈ tail (sort_ints idxs).
Proof.
  unfold surpluses. rewrite list_elem_of_bind. split.
  - intros ([k n'] & Hin & Hk%elem_of_map_to_list). unfold scan_entry in Hin. simpl in Hin.
    destruct (holds_ranges n') eqn:Hh; [|by apply elem_of_nil in Hin].
    destruct (owned_indices expected n') as [idxs|] eqn:Hi; [|by apply elem_of_nil in Hin].
    simpl in Hin. destruct (Nat.leb_spec (length idxs) 1); [by apply elem_of_nil in Hin|].
    apply list_elem_of_fmap in Hin as (i & [= -> ->] & Hin). by exists k, idxs.
  - intros (k & idxs & Hk & Hh & Hi & Hl & Hin). exists (k, n).
    split; [|by apply elem_of_map_to_list]. unfold scan_entry. simpl. rewrite Hh, Hi. simpl.
    destruct (Nat.leb_spec (length idxs) 1); [lia|]. apply list_elem_of_fmap. by exists idx.
Qed.

Lemma elem_of_owned_indices expected n idxs idx :
  owned_indices expected n = Some idxs → idx ∈ idxs →
  ∃ s, s ∈ cn_Slots n ∧ slot_index expected s = Some idx.
Proof.
  intros Hi%mapM_Some Hin. destruct (list_elem_of_lookup_1 _ _ Hin) as [i Hidx].
  destruct (Forall2_lookup_r _ _ _ _ _ Hi Hidx) as (s & Hs & He). exists s.
  split; [by eapply list_elem_of_lookup_2|done].
Qed.

Lemma elem_of_sorted_tail l x : x ∈ tail (sort_ints l) → x ∈ l.
Proof.
  intros Hx. rewrite <-(sort_ints_perm l). destruct (sort_ints l); [done|]. by right.
Qed.

Lemma surplus_move expected gt idx n d :
  (idx, n) ∈ surpluses expected gt →
  reshard_move expected ((idx, n), d) = Ok (move_of expected ((idx, n), d)).
Proof.
  intros (k & idxs & _ & _ & Hi & _ & Hin%elem_of_sorted_tail)%elem_of_surpluses.
  destruct (elem_of_owned_indices _ _ _ _ Hi Hin) as (s & _ & Hs).
  destruct (slot_index_spec _ _ _ Hs) as (_ & r & Hr & _).
  unfold reshard_move, move_of. simpl. by rewrite Hr.
Qed.

Section plan.
Context `{GoRuntime}.

#[export] Instance less_pod_id_weak : StrictWeak less_pod_id.
Proof.
  pose proof (less_by_string_weak cn_PodName) as HP. pose proof (less_by_string_weak cn_NodeID) as HI.
  unfold less_by_string in *. unfold less_pod_id. split.
  - intros x y. destruct (String.eqb_spec (cn_PodName x) (cn_PodName y)) as [E|E]; simpl.
    + rewrite E, String.eqb_refl. simpl. apply HI.
    + destruct (String.eqb_spec (cn_PodName y) (cn_PodName x)); [congruence|]. simpl. apply HP.
  - intros x y z. pose proof (less_neg_trans (less := λ a b, cn_PodName a <? cn_PodName b) x y z) as Hp.
    pose proof (less_neg_trans (less := λ a b, cn_NodeID a <? cn_NodeID b) x y z) as Hi. simpl in *.
    destruct (String.eqb_spec (cn_PodName y) (cn_PodName x)) as [Exy|Exy],
      (String.eqb_spec (cn_PodName z) (cn_PodName y)) as [Ezy|Ezy],
      (String.eqb_spec (cn_PodName z) (cn_PodName x)) as [Ezx|Ezx]; simpl; try congruence;
      rewrite ?Exy, ?Ezy in *; try done; try (by intros; apply Hp); try (by apply Hi).
    + intros H1 H2. exfalso. apply Exy. apply (anti_symm String.le).
      * rewrite <-Ezx. by apply string_ltb_ge.
      * by apply string_ltb_ge.
Qed.

Lemma PlanReshard_eq gt shards :
  0 < shards →
  let expected := GenerateSlotRanges shards in
  if forallb (scannable expected) (map_to_list (gt_Nodes gt))
  then ∃ ss es reason, ss ≡ₚ surpluses expected gt ∧ es ≡ₚ empties gt ∧
         PlanReshard gt shards = Ok (mkReshardPlan (move_of expected <$> zip ss es) reason)
  else ∃ reason, PlanReshard gt shards = Ok (mkReshardPlan [] reason).
Proof.
  intros Hs expected. unfold PlanReshard. destruct (Z.leb_spec shards 0); [lia|]. fold expected.
  pose proof (scan_node_fold expected (go_range [100] (gt_Nodes gt)) ∅ []) as Hf.
  rewrite (forallb_permutation _ _ (map_to_list (gt_Nodes gt))) in Hf by (by rewrite go_range_perm).
  destruct (forallb _ _); [|destruct Hf as [reason ->]; by exists reason]. rewrite Hf. clear Hf.
  set (entries := omap (scan_entry expected) (go_range [100] (gt_Nodes gt))).
  assert (Hnd : NoDup entries.*1).
  { eapply sublist_NoDup; [apply (NoDup_go_range_fst [100] (gt_Nodes gt))|apply omap_scan_entry_fst]. }
  set (ss0 := go_range [136] _ ≫= node_surplus).
  set (es0 := [] ++ bfilter reachable_empty (go_range [100] (gt_Nodes gt)).*2).
  assert (Hss : ss0 ≡ₚ surpluses expected gt).
  { unfold ss0. rewrite foldl_insert by done. rewrite (right_id_L ∅ (∪)).
    rewrite (bind_permutation _ _ entries) by (rewrite go_range_perm; by apply map_to_list_to_map).
    unfold entries. rewrite bind_omap. unfold surpluses. apply bind_permutation.
    apply go_range_perm. }
  assert (Hes : es0 ≡ₚ empties gt).
  { unfold es0, empties. simpl. apply bfilter_permutation. by rewrite go_range_perm. }
  destruct (Nat.eqb_spec (length ss0) 0) as [E|_].
  { apply length_zero_iff_nil in E. exists ss0, es0. eexists.
    split; [done|]. split; [done|]. by rewrite E. }
  destruct (Nat.eqb_spec (length es0) 0) as [E|_].
  { apply length_zero_iff_nil in E. exists ss0, es0. eexists.
    split; [done|]. split; [done|]. rewrite E. by destruct ss0. }
  exists (sort_slice (less_by_int fst) ss0), (sort_slice less_pod_id es0). eexists.
  split; [by rewrite sort_slice_perm|]. split; [by rewrite sort_slice_perm|].
  rewrite (collect_fmap _ (move_of expected)); [simpl; reflexivity|].
  intros [[idx n] d] Hin. apply (surplus_move _ gt). apply elem_of_zip_l in Hin.
  by rewrite sort_slice_perm, Hss in Hin.
Qed.

(** A planned move takes a shard range from a reachable master that has another one as well
    and gives it to a reachable master that has none. *)
Record surplus_range_move (shards : Z) (gt : ClusterGroundTruth) (mv : ReshardMove) : Prop := {
  pm_source : ∃ k, gt_Nodes gt !! k = Some (mv_Source mv);
  pm_holds : holds_ranges (mv_Source mv) = true ∧ (1 < length (cn_Slots (mv_Source mv)))%nat;
  pm_range : ∃ k r s, GenerateSlotRanges shards !! k = Some r ∧ mv_Start mv = Start r ∧ mv_End mv = End r ∧
    s ∈ cn_Slots (mv_Source mv) ∧ ParseSlotRange s = Some (Start r, End r);
  pm_dest : ∃ k, gt_Nodes gt !! k = Some (mv_Dest mv);
  pm_empty : reachable_empty (mv_Dest mv) = true;
}.

Lemma PlanReshard_moves gt shards plan mv :
  PlanReshard gt shards = Ok plan → mv ∈ rp_Moves plan → surplus_range_move shards gt mv.
Proof.
  intros Hp Hmv. destruct (Z.leb_spec shards 0) as [Hs|Hs].
  { unfold PlanReshard in Hp. destruct (Z.leb_spec shards 0); [|lia]. injection Hp as <-. by apply elem_of_nil in Hmv. }
  pose proof (PlanReshard_eq gt shards Hs) as He. cbv zeta in He. destruct (forallb _ _) eqn:Hall.
  2: { destruct He as [reason He]. rewrite He in Hp. injection Hp as <-. by apply elem_of_nil in Hmv. }
  destruct He as (ss & es & reason & Hss & Hes & He). rewrite He in Hp. injection Hp as <-.
  apply list_elem_of_fmap in Hmv as ([[idx n] d] & -> & Hin).
  pose proof (elem_of_zip_l _ _ _ _ Hin) as H1. pose proof (elem_of_zip_r _ _ _ _ Hin) as H2.
  rewrite Hss in H1. rewrite Hes in H2. clear Hin.
  apply elem_of_surpluses in H1 as (k & idxs & Hk & Hh & Hi & Hl & Hidx%elem_of_sorted_tail).
  unfold empties in H2. apply elem_of_bfilter in H2 as [([k' d'] & -> & Hd%elem_of_map_to_list)%list_elem_of_fmap Hemp].
  destruct (elem_of_owned_indices _ _ _ _ Hi Hidx) as (s & Hs' & Hsi).
  destruct (slot_index_spec _ _ _ Hsi) as (_ & r & Hr & Hpr).
  unfold move_of. split; cbn [mv_Source mv_Dest mv_Start mv_End fst snd]; rewrite ?Hr; cbn [default].
  - by exists k.
  - split; [done|]. apply mapM_Some, Forall2_length in Hi. lia.
  - by exists (Z.to_nat idx), r, s.
  - by exists k'.
  - done.
Qed.
End plan.

(** *** Carrying a move out *)

Definition set_Slots (n : ClusterNodeState) (slots : list string) : ClusterNodeState :=
  mkClusterNode (cn_PodName n) (cn_PodIP n) (cn_NodeID n) slots (cn_Role n) (cn_MasterNodeID n)
    (cn_LinkStatus n) (cn_Reachable n) (cn_ProbeFailure n) (cn_ProbeError n).
Definition with_Nodes (gt : ClusterGroundTruth) (nodes : gmap string ClusterNodeState)
  : ClusterGroundTruth :=
  mkGroundTruth nodes (gt_Partitions gt) (gt_GhostNodes gt) (gt_ClusterState gt)
    (gt_TotalSlots gt) (gt_AllNodeIDs gt) (gt_KnownNodes gt) (gt_AtomicSlotMigration gt).

(** The next gather after the range has changed hands. *)
Definition moved (gt : ClusterGroundTruth) (mv : ReshardMove) : ClusterGroundTruth :=
  let kept := filter (λ s, ParseSlotRange s ≠ Some (mv_Start mv, mv_End mv)) (cn_Slots (mv_Source mv)) in
  with_Nodes gt
    (<[cn_PodName (mv_Dest mv) :=
         set_Slots (mv_Dest mv) [FormatSlotRange (mv_Start mv) (mv_End mv)]]>
    (<[cn_PodName (mv_Source mv) := set_Slots (mv_Source mv) kept]> (gt_Nodes gt))).

(** What a gather of a cluster with whole shards looks like: nodes are keyed by pod name and
    every reachable master owns whole shard ranges, none listed twice. *)
Record whole_shards (shards : Z) (gt : ClusterGroundTruth) : Prop := {
  ws_keyed k n : gt_Nodes gt !! k = Some n → cn_PodName n = k;
  ws_aligned k n : gt_Nodes gt !! k = Some n → reachable_master n = true →
    ∃ idxs, owned_indices (GenerateSlotRanges shards) n = Some idxs ∧ NoDup idxs;
}.

(** The number of ranges beyond one on each reachable master. *)
Definition excess (gt : ClusterGroundTruth) : nat :=
  sum_list ((λ n, if reachable_master n then pred (length (cn_Slots n)) else 0%nat)
              <$> (map_to_list (gt_Nodes gt)).*2).

(** The ranges the reachable masters own. *)
Definition owned_ranges (gt : ClusterGroundTruth) : list (option (Z * Z)) :=
  (map_to_list (gt_Nodes gt)).*2 ≫=
    λ n, if reachable_master n then ParseSlotRange <$> cn_Slots n else [].

Lemma length_owned_indices expected n idxs :
  owned_indices expected n = Some idxs → length idxs = length (cn_Slots n).
Proof. intros Hi%mapM_Some. symmetry. by eapply Forall2_length. Qed.

Lemma length_surpluses shards gt :
  whole_shards shards gt → length (surpluses (GenerateSlotRanges shards) gt) = excess gt.
Proof.
  intros [_ Hal]. unfold surpluses, excess.
  assert (Hm : ∀ k n, (k, n) ∈ map_to_list (gt_Nodes gt) → gt_Nodes gt !! k = Some n)
    by (intros k n; apply elem_of_map_to_list).
  induction (map_to_list (gt_Nodes gt)) as [|[k n] l IH]; [done|]. csimpl.
  rewrite length_app, IH by (intros; apply Hm; by right). f_equal. specialize (Hm k n ltac:(left)).
  unfold scan_entry, holds_ranges. simpl. destruct (reachable_master n) eqn:Hr; [|done].
  destruct (Hal k n Hm Hr) as (idxs & Hi & _). pose proof (length_owned_indices _ _ _ Hi) as Hl.
  destruct (Nat.eqb_spec (length (cn_Slots n)) 0) as [E|E]; simpl; [by rewrite E|].
  rewrite Hi. simpl. destruct (Nat.leb_spec (length idxs) 1); simpl; [lia|].
  rewrite length_fmap. pose proof (sort_ints_perm idxs) as Hp%Permutation_length.
  destruct (sort_ints idxs); simpl in *; lia.
Qed.

(** Two entries of a map brought to the front. *)
Lemma map_to_list_two {V} (m : gmap string V) a b x y x' y' :
  m !! a = Some x → m !! b = Some y → a ≠ b →
  ∃ rest, (map_to_list m).*2 ≡ₚ x :: y :: rest ∧
          (map_to_list (<[b := y']> (<[a := x']> m))).*2 ≡ₚ x' :: y' :: rest.
Proof.
  intros Ha Hb Hab. exists (map_to_list (delete b (delete a m))).*2. split.
  - rewrite <-(insert_delete_id m a x) at 1 by done.
    rewrite <-(insert_delete_id (delete a m) b y) at 1 by (by rewrite lookup_delete_ne).
    rewrite map_to_list_insert by (rewrite lookup_insert_ne by done; rewrite lookup_delete_ne by done; apply lookup_delete_eq).
    rewrite map_to_list_insert by (apply lookup_delete_eq). done.
  - assert (<[b := y']> (<[a := x']> m) = <[a := x']> (<[b := y']> (delete b (delete a m)))) as ->.
    { rewrite insert_delete_eq. rewrite (insert_insert_ne _ a b) by done.
      by rewrite insert_delete_eq. }
    rewrite map_to_list_insert by (rewrite lookup_insert_ne by done; rewrite lookup_delete_ne by done; apply lookup_delete_eq).
    rewrite map_to_list_insert by (apply lookup_delete_eq). done.
Qed.

Lemma filter_all {A} (P : A → Prop) `{∀ x, Decision (P x)} (l : list A) : (∀ x, x ∈ l → P x) → filter P l = l.
Proof.
  induction l as [|x l IH]; intros Hall; [done|]. rewrite filter_cons_True by (apply Hall; left).
  rewrite IH; [done|]. intros y Hy. apply Hall. by right.
Qed.

(** Dropping one of the distinct ranges of a node. *)
Lemma owned_indices_drop expected n idxs idx r :
  owned_indices expected n = Some idxs → NoDup idxs → idx ∈ idxs →
  expected !! Z.to_nat idx = Some r →
  let kept := filter (λ s, ParseSlotRange s ≠ Some (Start r, End r)) (cn_Slots n) in
  (∃ idxs', owned_indices expected (set_Slots n kept) = Some idxs' ∧ NoDup idxs') ∧
  length (cn_Slots n) = S (length kept) ∧
  ParseSlotRange <$> cn_Slots n ≡ₚ Some (Start r, End r) :: (ParseSlotRange <$> kept).
Proof.
  unfold owned_indices. simpl. generalize (cn_Slots n) as slots. intros slots Hi%mapM_Some Hnd Hin Hr.
  destruct (list_elem_of_lookup_1 _ _ Hin) as [i Hidx].
  destruct (Forall2_lookup_r _ _ _ _ _ Hi Hidx) as (s & Hs & He).
  destruct (slot_index_spec _ _ _ He) as (_ & r' & Hr' & Hp). rewrite Hr in Hr'. simplify_eq.
  apply list_elem_of_split_length in Hs as (l1 & l2 & -> & ->).
  apply Forall2_app_inv_l in Hi as (i1 & i2' & H1 & H2 & ->).
  apply Forall2_cons_inv_l in H2 as (idx' & i2 & Hs2 & H2 & ->). rewrite He in Hs2. simplify_eq.
  assert (Hkeep : ∀ l js, Forall2 (λ x y, slot_index expected x = Some y) l js → idx' ∉ js →
            filter (λ s, ParseSlotRange s ≠ Some (Start r', End r')) l = l).
  { intros l js Hf Hno. apply filter_all. intros x Hx Hpx.
    destruct (list_elem_of_lookup_1 _ _ Hx) as [j Hj].
    destruct (Forall2_lookup_l _ _ _ _ _ Hf Hj) as (y & Hy & Hxy). apply Hno.
    assert (y = idx') as <-; [|by eapply list_elem_of_lookup_2].
    unfold slot_index in Hxy, He. rewrite Hpx in Hxy. rewrite Hp in He. simpl in *. congruence. }
  apply NoDup_app in Hnd as (Hnd1 & Hdis & [Hn2 Hnd2]%NoDup_cons).
  assert (filter (λ s, ParseSlotRange s ≠ Some (Start r', End r')) (l1 ++ s :: l2) = l1 ++ l2) as ->.
  { rewrite filter_app, filter_cons_False by (rewrite Hp; naive_solver).
    rewrite (Hkeep l1 i1), (Hkeep l2 i2); [done|done|done|done|]. intros Hbad. by apply (Hdis _ Hbad); left. }
  split; [|split].
  - exists (i1 ++ i2). split; [apply mapM_Some; by apply Forall2_app|].
    apply NoDup_app. split; [done|]. split; [|done]. intros x Hx Hx2. apply (Hdis x Hx). by right.
  - rewrite !length_app. simpl. lia.
  - rewrite !fmap_app. csimpl. rewrite Hp. by rewrite Permutation_middle.
Qed.

Section moves.
Context `{GoRuntime} (shards : Z) (gt : ClusterGroundTruth).
Hypothesis shards_pos : 0 < shards.
Hypothesis whole : whole_shards shards gt.

Lemma whole_scannable :
  forallb (scannable (GenerateSlotRanges shards)) (map_to_list (gt_Nodes gt)) = true.
Proof.
  apply forallb_elem_of. intros [k n] Hk%elem_of_map_to_list. unfold scannable. simpl.
  destruct (holds_ranges n) eqn:Hh; [|done]. simpl. apply bool_decide_eq_true.
  apply andb_true_iff in Hh as [Hr _].
  destruct (ws_aligned _ _ whole k n Hk Hr) as (idxs & Hi & _). by exists idxs.
Qed.

(** The plan pairs surpluses with empty masters. *)
Lemma plan_moves :
  ∃ ss es reason, ss ≡ₚ surpluses (GenerateSlotRanges shards) gt ∧ es ≡ₚ empties gt ∧
    PlanReshard gt shards =
      Ok (mkReshardPlan (move_of (GenerateSlotRanges shards) <$> zip ss es) reason).
Proof. pose proof (PlanReshard_eq gt shards shards_pos) as He. cbv zeta in He. by rewrite whole_scannable in He. Qed.

Lemma elem_of_empties d :
  d ∈ empties gt ↔ gt_Nodes gt !! cn_PodName d = Some d ∧ reachable_empty d = true.
Proof.
  unfold empties. rewrite elem_of_bfilter. f_equiv. split.
  - intros ([k n] & -> & Hk%elem_of_map_to_list)%list_elem_of_fmap. simpl.
    by rewrite (ws_keyed _ _ whole k n Hk).
  - intros Hd. apply list_elem_of_fmap. exists (cn_PodName d, d).
    split; [done|]. by apply elem_of_map_to_list.
Qed.

Lemma NoDup_empties : NoDup (cn_PodName <$> empties gt).
Proof.
  apply NoDup_bfilter_fmap.
  assert (cn_PodName <$> (map_to_list (gt_Nodes gt)).*2 = (map_to_list (gt_Nodes gt)).*1) as ->;
    [|apply NoDup_fst_map_to_list].
  rewrite <-list_fmap_compose. apply list_fmap_ext. intros i [k n] Hi. simpl.
  apply list_elem_of_lookup_2, elem_of_map_to_list in Hi. by apply (ws_keyed _ _ whole).
Qed.

(** What one planned move looks like. *)
Record sound_move (mv : ReshardMove) (idx : Z) (idxs : list Z) (r : SlotRange) : Prop := {
  sm_source : gt_Nodes gt !! cn_PodName (mv_Source mv) = Some (mv_Source mv);
  sm_master : reachable_master (mv_Source mv) = true;
  sm_owned : owned_indices (GenerateSlotRanges shards) (mv_Source mv) = Some idxs;
  sm_nodup : NoDup idxs;
  sm_idx : idx ∈ idxs;
  sm_kept : ∃ idx0, idx0 ∈ idxs ∧ idx0 < idx;
  sm_range : GenerateSlotRanges shards !! Z.to_nat idx = Some r;
  sm_start : mv_Start mv = Start r;
  sm_end : mv_End mv = End r;
  sm_dest : gt_Nodes gt !! cn_PodName (mv_Dest mv) = Some (mv_Dest mv);
  sm_empty : reachable_empty (mv_Dest mv) = true;
  sm_distinct : cn_PodName (mv_Source mv) ≠ cn_PodName (mv_Dest mv);
}.

Lemma move_of_sound idx n d :
  (idx, n) ∈ surpluses (GenerateSlotRanges shards) gt → d ∈ empties gt →
  ∃ idxs r, sound_move (move_of (GenerateSlotRanges shards) ((idx, n), d)) idx idxs r.
Proof.
  intros (k & idxs & Hk & Hh & Hi & Hl & Hin)%elem_of_surpluses [Hd He]%elem_of_empties.
  pose proof (ws_keyed _ _ whole k n Hk) as <-.
  assert (Hr : reachable_master n = true) by (by apply andb_true_iff in Hh as [? _]).
  destruct (ws_aligned _ _ whole _ n Hk Hr) as (idxs' & Hi' & Hnd). rewrite Hi in Hi'. simplify_eq.
  pose proof (elem_of_sorted_tail _ _ Hin) as Hidx.
  destruct (elem_of_owned_indices _ _ _ _ Hi Hidx) as (s & _ & Hs).
  destruct (slot_index_spec _ _ _ Hs) as (_ & r & Hrg & _).
  exists idxs', r. unfold move_of. split; simpl; rewrite ?Hrg; try done.
  - pose proof (sort_ints_sorted idxs') as Hsort. pose proof (sort_ints_perm idxs') as Hp.
    destruct (sort_ints idxs') as [|idx0 rest] eqn:E; [by apply elem_of_nil in Hin|]. simpl in Hin.
    assert (Hnd2 : NoDup (idx0 :: rest)) by (by rewrite Hp).
    apply StronglySorted_inv in Hsort as [_ Hall]. rewrite Forall_forall in Hall.
    exists idx0. split; [rewrite <-Hp; left|]. pose proof (Hall idx Hin).
    apply NoDup_cons in Hnd2 as [Hno _]. assert (idx0 ≠ idx) by (by intros ->). lia.
  - intros He2. rewrite He2 in Hk. rewrite Hk in Hd. simplify_eq.
    unfold holds_ranges, reachable_empty in *. destruct (length (cn_Slots d) =? 0)%nat;
      [by rewrite andb_false_r in Hh|by rewrite andb_false_r in He].
Qed.

Lemma elem_of_moves ss es mv :
  ss ≡ₚ surpluses (GenerateSlotRanges shards) gt → es ≡ₚ empties gt →
  mv ∈ move_of (GenerateSlotRanges shards) <$> zip ss es →
  ∃ idx idxs r, sound_move mv idx idxs r.
Proof.
  intros Hss Hes ([[idx n] d] & -> & Hin)%list_elem_of_fmap.
  pose proof (elem_of_zip_l _ _ _ _ Hin) as H1. pose proof (elem_of_zip_r _ _ _ _ Hin) as H2.
  rewrite Hss in H1. rewrite Hes in H2. exists idx. by apply move_of_sound.
Qed.
End moves.

Lemma parse_generated shards k r :
  GenerateSlotRanges shards !! k = Some r →
  ParseSlotRange (FormatSlotRange (Start r) (End r)) = Some (Start r, End r) ∧
  is_Some (slot_index (GenerateSlotRanges shards) (FormatSlotRange (Start r) (End r))).
Proof.
  intros Hk. destruct (GenerateSlotRanges_bounds _ _ _ Hk) as (? & ? & ? & ?).
  assert (Hp : ParseSlotRange (FormatSlotRange (Start r) (End r)) = Some (Start r, End r)).
  { apply ParseSlotRange_FormatSlotRange; unfold totalClusterSlots, int64_max in *; lia. }
  split; [done|]. unfold slot_index. rewrite Hp. simpl.
  destruct (range_index_spec 0 (GenerateSlotRanges shards) (Start r) (End r))
    as [[_ Hno]|(j & r' & -> & _)]; [done|by destruct (Hno r); [by eapply list_elem_of_lookup_2|]|].
  destruct (Z.eqb_spec (0 + Z.of_nat j) (-1)); [lia|by eexists].
Qed.

Lemma sum_list_perm (l1 l2 : list nat) : l1 ≡ₚ l2 → sum_list l1 = sum_list l2.
Proof. induction 1; simpl; lia. Qed.

Lemma reachable_master_set_Slots n slots : reachable_master (set_Slots n slots) = reachable_master n.
Proof. done. Qed.

(** A move carried out keeps the shards whole, gives no range away and takes one surplus and
    one empty master away. *)
Lemma moved_sound shards gt mv idx idxs r :
  whole_shards shards gt → sound_move shards gt mv idx idxs r →
  let gt' := moved gt mv in
  whole_shards shards gt' ∧ excess gt = S (excess gt') ∧
  length (empties gt) = S (length (empties gt')) ∧ owned_ranges gt' ≡ₚ owned_ranges gt.
Proof.
  intros Hw [Hsrc Hm Hown Hnd Hidx [idx0 [Hidx0 Hlt]] Hr Hst Hen Hdst He Hne] gt'.
  destruct (owned_indices_drop _ _ _ _ _ Hown Hnd Hidx Hr) as ((idxs' & Hown' & Hnd') & Hlen & Hperm).
  destruct (parse_generated _ _ _ Hr) as [Hparse [i Hi]].
  unfold gt', moved. rewrite Hst, Hen.
  set (kept := filter _ _) in *. set (src := mv_Source mv) in *. set (dst := mv_Dest mv) in *.
  apply andb_true_iff in He as [Hdm Hde%Nat.eqb_eq].
  destruct (map_to_list_two (gt_Nodes gt) (cn_PodName src) (cn_PodName dst) src dst
    (set_Slots src kept) (set_Slots dst [FormatSlotRange (Start r) (End r)]) Hsrc Hdst Hne)
    as (rest & Hl & Hl').
  assert (Hkept : kept ≠ []).
  { intros Hk. rewrite Hk in Hlen. simpl in Hlen. rewrite <-(length_owned_indices _ _ _ Hown) in Hlen.
    destruct idxs as [|a [|]]; simplify_eq/=. apply list_elem_of_singleton in Hidx0, Hidx. lia. }
  split; [split|split; [|split]].
  - intros k n. simpl. intros [[<- <-]|[_ [[<- <-]|[_ Hk]]%lookup_insert_Some]]%lookup_insert_Some;
      [done|done|by apply (ws_keyed _ _ Hw)].
  - intros k n. simpl. intros [[<- <-]|[_ [[<- <-]|[_ Hk]]%lookup_insert_Some]]%lookup_insert_Some.
    + intros _. exists [i]. split; [|apply NoDup_singleton]. unfold owned_indices. simpl. by rewrite Hi.
    + intros _. by exists idxs'.
    + by apply (ws_aligned _ _ Hw k).
  - unfold excess. rewrite (sum_list_perm _ _ (fmap_Permutation _ _ _ Hl)).
    simpl gt_Nodes. rewrite (sum_list_perm _ _ (fmap_Permutation _ _ _ Hl')). csimpl.
    rewrite !reachable_master_set_Slots, Hm, Hdm, Hlen, Hde. simpl.
    destruct kept; [done|]. simpl. lia.
  - unfold empties. rewrite (Permutation_length (bfilter_permutation reachable_empty _ _ Hl)).
    simpl gt_Nodes. rewrite (Permutation_length (bfilter_permutation reachable_empty _ _ Hl')).
    assert (reachable_empty src = false) as Hs1 by (unfold reachable_empty; by rewrite Hm, Hlen).
    assert (reachable_empty dst = true) as Hd1 by (unfold reachable_empty; by rewrite Hdm, Hde).
    assert (reachable_empty (set_Slots src kept) = false) as Hs2
      by (unfold reachable_empty; rewrite reachable_master_set_Slots, Hm; by destruct kept).
    assert (reachable_empty (set_Slots dst [FormatSlotRange (Start r) (End r)]) = false) as Hd2
      by (unfold reachable_empty; by rewrite reachable_master_set_Slots, Hdm).
    unfold bfilter. cbn [List.filter]. by rewrite Hs1, Hd1, Hs2, Hd2.
  - unfold owned_ranges. simpl gt_Nodes. rewrite Hl, Hl'. csimpl.
    rewrite !reachable_master_set_Slots, Hm, Hdm. apply length_zero_iff_nil in Hde. rewrite Hde.
    csimpl. rewrite Hparse, Hperm. csimpl. by rewrite Permutation_middle.
Qed.

(** ** Theorems *)

(** Every planned move takes a whole shard range off a reachable master that keeps a
    shard of lower index, and hands it to a reachable master that owns nothing and receives
    nothing else; as many ranges move as there are surplus ranges and empty masters to pair;
    and the planner never indexes out of range. *)
Theorem PlanReshard_sound `{GoRuntime} (gt : ClusterGroundTruth) (shards : Z) :
  0 < shards → whole_shards shards gt →
  ∃ plan, PlanReshard gt shards = Ok plan ∧
    NoDup ((λ mv, cn_PodName (mv_Dest mv)) <$> rp_Moves plan) ∧
    length (rp_Moves plan) = Nat.min (excess gt) (length (empties gt)) ∧
    ∀ mv, mv ∈ rp_Moves plan → ∃ idx idxs r, sound_move shards gt mv idx idxs r.
Proof.
  intros Hs Hw. destruct (plan_moves shards gt Hs Hw) as (ss & es & reason & Hss & Hes & ->).
  eexists. split; [done|]. simpl. split; [|split].
  - assert (Hnd : NoDup (cn_PodName <$> es)) by (rewrite Hes; by apply (NoDup_empties shards)).
    eapply sublist_NoDup; [exact Hnd|]. clear. revert es.
    induction ss as [|s ss IH]; intros [|e es]; csimpl;
      try apply sublist_nil_l. constructor. apply IH.
  - rewrite length_fmap, length_zip_with. by rewrite (Permutation_length Hss), (Permutation_length Hes), length_surpluses.
  - intros mv Hmv. by eapply elem_of_moves.
Qed.

(** The passes of the operator: each plans on what the previous one left, in whatever order
    the runtime chooses then, and carries the first move out. *)
Fixpoint reshard_passes (rt : nat → GoRuntime) (shards : Z) (passes : nat)
  (gt : ClusterGroundTruth) : ClusterGroundTruth :=
  match passes with
  | O => gt
  | S n =>
      match @PlanReshard (rt n) gt shards with
      | Ok (mkReshardPlan (mv :: _) _) => reshard_passes rt shards n (moved gt mv)
      | _ => gt
      end
  end.

(** Resharding terminates: after as many passes as there are surplus ranges nothing is
    left to move; if there were enough empty masters every reachable master then owns at
    most one range, otherwise every empty master has been used; and throughout, the same
    ranges are owned. *)
Theorem reshard_terminates (rt : nat → GoRuntime) (gt : ClusterGroundTruth) (shards : Z) :
  0 < shards → whole_shards shards gt →
  let gt' := reshard_passes rt shards (excess gt) gt in
  (∀ R : GoRuntime, ∃ reason, PlanReshard gt' shards = Ok (mkReshardPlan [] reason)) ∧
  excess gt' = (excess gt - length (empties gt))%nat ∧
  length (empties gt') = (length (empties gt) - excess gt)%nat ∧
  owned_ranges gt' ≡ₚ owned_ranges gt.
Proof.
  intros Hs Hw gt'. subst gt'. remember (excess gt) as n eqn:Hn. revert gt Hw Hn.
  assert (Hstop : ∀ gt, whole_shards shards gt → (excess gt = 0 ∨ length (empties gt) = 0)%nat →
    ∀ R : GoRuntime, ∃ reason, PlanReshard gt shards = Ok (mkReshardPlan [] reason)).
  { intros gt Hw H0 R. destruct (plan_moves shards gt Hs Hw) as (ss & es & reason & Hss & Hes & ->).
    exists reason. do 2 f_equal. rewrite <-(length_surpluses _ _ Hw), <-Hss, <-Hes in H0.
    destruct H0 as [E|E]; apply length_zero_iff_nil in E; rewrite E; [done|by destruct ss]. }
  induction n as [|n IH]; intros gt Hw Hn; simpl.
  { split; [apply Hstop; [done|by left]|]. split; [lia|]. split; [lia|done]. }
  destruct (@plan_moves (rt n) shards gt Hs Hw) as (ss & es & reason & Hss & Hes & ->).
  destruct (move_of _ <$> zip ss es) as [|mv mvs] eqn:Hm.
  - assert (length (empties gt) = 0)%nat as He.
    { apply (f_equal length) in Hm. rewrite length_fmap, length_zip_with in Hm.
      rewrite Hss, Hes, (length_surpluses _ _ Hw) in Hm. simpl in Hm. lia. }
    split; [apply Hstop; [done|by right]|]. split; [lia|]. split; [lia|done].
  - destruct (elem_of_moves shards gt Hw ss es mv Hss Hes) as (idx & idxs & r & Hsm).
    { rewrite Hm. left. }
    destruct (moved_sound _ _ _ _ _ _ Hw Hsm) as (Hw' & Hx & He & Ho).
    destruct (IH (moved gt mv) Hw') as (H1 & H2 & H3 & H4); [lia|].
    split; [done|]. split; [lia|]. split; [lia|]. by rewrite H4.
Qed.

(** ** A concrete cluster: one master holds two of three shards, another none *)

Definition whole_shardsb (shards : Z) (gt : ClusterGroundTruth) : bool :=
  forallb (λ '(k, n), (cn_PodName n =? k) &&
    (negb (reachable_master n) ||
     match owned_indices (GenerateSlotRanges shards) n with
     | Some idxs => bool_decide (NoDup idxs)
     | None => false
     end)) (map_to_list (gt_Nodes gt)).

Lemma whole_shardsb_true shards gt : whole_shardsb shards gt = true → whole_shards shards gt.
Proof.
  unfold whole_shardsb. rewrite forallb_elem_of. intros Hall.
  assert (H : ∀ k n, gt_Nodes gt !! k = Some n → cn_PodName n = k ∧ (reachable_master n = true →
    ∃ idxs, owned_indices (GenerateSlotRanges shards) n = Some idxs ∧ NoDup idxs)).
  { intros k n Hk. specialize (Hall (k, n) ltac:(by apply elem_of_map_to_list)). simpl in Hall.
    apply andb_true_iff in Hall as [->%String.eqb_eq Hall]. split; [done|]. intros Hr.
    rewrite Hr in Hall. simpl in Hall. destruct (owned_indices _ n) as [idxs|]; [|done].
    exists idxs. split; [done|]. by apply bool_decide_eq_true in Hall. }
  split; intros k n Hk; by destruct (H k n Hk).
Qed.

Definition shard_node (pod id : string) (slots : list string) : ClusterNodeState :=
  mkClusterNode pod pod id slots roleMaster "-" "" true ProbeOK "".

Definition consolidated : ClusterGroundTruth :=
  mkGroundTruth
    {[ "c-shard-0-0" := shard_node "c-shard-0-0" "a" ["5462-10922"; "0-5461"];
       "c-shard-1-0" := shard_node "c-shard-1-0" "b" [];
       "c-shard-2-0" := shard_node "c-shard-2-0" "c" ["10923-16383"] ]}
    [] [] "ok" 16384 ∅ ∅ false.

Lemma PlanReshard_sound_witness :
  ∃ plan, @PlanReshard ref_runtime consolidated 3 = Ok plan ∧ length (rp_Moves plan) = 1%nat ∧
    NoDup ((λ mv, cn_PodName (mv_Dest mv)) <$> rp_Moves plan).
Proof.
  assert (Hw : whole_shards 3 consolidated) by (apply whole_shardsb_true; vm_compute; reflexivity).
  destruct (@PlanReshard_sound ref_runtime consolidated 3 ltac:(lia) Hw) as (plan & Hp & Hnd & Hl & _).
  exists plan. split; [exact Hp|]. split; [|exact Hnd]. rewrite Hl. vm_compute. reflexivity.
Defined.

Lemma reshard_terminates_witness :
  excess consolidated = 1%nat ∧
  excess (reshard_passes (λ _, ref_runtime) 3 (excess consolidated) consolidated) = 0%nat.
Proof.
  assert (Hw : whole_shards 3 consolidated) by (apply whole_shardsb_true; vm_compute; reflexivity).
  split; [vm_compute; reflexivity|].
  destruct (reshard_terminates (λ _, ref_runtime) consolidated 3 ltac:(lia) Hw) as (_ & He & _).
  rewrite He. vm_compute. reflexivity.
Defined.
