(* ===== verification/Migration.v ===== *)
(** * Migrating a single-StatefulSet cluster (src/internal/redis/migration_plan.go)

    The planner of the in-place migration from the legacy layout to the per-shard one: the
    new pods are introduced, attached as replicas of the owners of their ranges, promoted
    one at a time, and only then are the legacy nodes forgotten and deleted.  A loop is
    named by its line, the loop that called it and the shard. *)

From S2P Require Import Prelude GoStrings Slots Probe ClusterNodes ClusterState Topology Reshard.

Open Scope Z_scope.
Open Scope go_scope.

(** ** Definitions *)

(** [MigrationNone] is the empty string of a plan that returned early. *)
Inductive MigrationPhase :=
| MigrationNone
| MigrationStandup
| MigrationMeet
| MigrationReplicate
| MigrationFailover
| MigrationDecommission
| MigrationComplete.

#[export] Instance MigrationPhase_eq_dec : EqDecision MigrationPhase.
Proof. solve_decision. Defined.

Definition migration_phase_text (p : MigrationPhase) : string :=
  match p with
  | MigrationNone => ""
  | MigrationStandup => "Standup"
  | MigrationMeet => "Meet"
  | MigrationReplicate => "Replicate"
  | MigrationFailover => "Failover"
  | MigrationDecommission => "Decommission"
  | MigrationComplete => "Complete"
  end.

Record ReplicaAttach := mkReplicaAttach {
  ra_ReplicaAddr : string;
  ra_MasterID : string;
}.

Record LegacyFacts := mkLegacyFacts {
  lf_SeedAddrs : list string;
  lf_LegacyNodeIDs : list string;
  lf_NewPodAddrs : gmap string string;
}.

Record FailoverAction := mkFailoverAction {
  fa_Addr : string;
  fa_Force : bool;
}.

Record MigrationPlan := mkMigrationPlan {
  mp_Phase : MigrationPhase;
  mp_Meets : list string;
  mp_Replicates : list ReplicaAttach;
  mp_Failovers : list FailoverAction;
  mp_Forgets : list string;
  mp_DeleteLegacy : bool;
  mp_ShardsMoved : Z;
  mp_TotalShards : Z;
  mp_Reason : string;
}.

Definition newMasterPodName (name : string) (k : Z) : string :=
  name +:+ "-shard-" +:+ itoa k +:+ "-0".
Definition newReplicaPodName (name : string) (k m : Z) : string :=
  name +:+ "-shard-" +:+ itoa k +:+ "-" +:+ itoa m.

Definition shardNewPods (name : string) (k rps : Z) : list string :=
  newMasterPodName name k :: (newReplicaPodName name k <$> seqZ 1 rps).

Definition expectedNewPods (name : string) (shards rps : Z) : list string :=
  seqZ 0 shards ≫= λ k,
    newMasterPodName name k :: (newReplicaPodName name k <$> seqZ 1 rps).

(** A node that is missing from the map is a nil pointer. *)
Definition IsLinkUpReplicaOf (rep : option ClusterNodeState) (masterNodeID : string) : bool :=
  match rep with
  | None => false
  | Some n => is_replica n && (cn_MasterNodeID n =? masterNodeID) && (cn_LinkStatus n =? "up")
  end.

Definition ownerNodeID (owner : option ClusterNodeState) : string :=
  match owner with None => "" | Some n => cn_NodeID n end.

Definition nodeOwnsRange (n : ClusterNodeState) (start end_ : Z) : bool :=
  existsb (λ s, match ParseSlotRange s with
                | Some (st, en) => (st =? start)%Z && (en =? end_)%Z
                | None => false
                end) (cn_Slots n).

Definition alignedRangeIndex (ranges : list SlotRange) (slotStr : string) : Z :=
  match ParseSlotRange slotStr with
  | None => -1
  | Some (st, en) => range_index 0 ranges st en
  end.

Definition allNewPodsMet (gt : ClusterGroundTruth) (name : string) (shards rps : Z) : bool :=
  forallb (λ p, bool_decide (is_Some (gt_Nodes gt !! p))) (expectedNewPods name shards rps).

Definition addr_of (addrs : gmap string string) (pod : string) : string :=
  default "" (addrs !! pod).

Definition missingNewPodMeets (gt : ClusterGroundTruth) (name : string) (shards rps : Z)
  (addrs : gmap string string) : list string :=
  omap (λ p, match gt_Nodes gt !! p with
             | Some _ => None
             | None => if negb (addr_of addrs p =? "") then Some (addr_of addrs p) else None
             end) (expectedNewPods name shards rps).

(** The counting loop over [ranges], whose index is [k]. *)
Definition countShardsOnNewMasters (gt : ClusterGroundTruth) (name : string)
  (ranges : list SlotRange) : Z :=
  foldl (λ count '(k, r),
    match gt_Nodes gt !! newMasterPodName name k with
    | Some m => if nodeOwnsRange m (Start r) (End r) then count + 1 else count
    | None => count
    end)%Z 0%Z (zip (seqZ 0 (Z.of_nat (length ranges))) ranges).

Definition planStandupOrMeet (plan : MigrationPlan) (gt : ClusterGroundTruth) (name : string)
  (shards rps : Z) (legacy : LegacyFacts) : MigrationPlan :=
  let meets := missingNewPodMeets gt name shards rps (lf_NewPodAddrs legacy) in
  let set phase meets reason :=
    mkMigrationPlan phase meets (mp_Replicates plan) (mp_Failovers plan) (mp_Forgets plan)
      (mp_DeleteLegacy plan) (mp_ShardsMoved plan) (mp_TotalShards plan) reason in
  if (0 <? length meets)%nat && (0 <? length (lf_SeedAddrs legacy))%nat
  then set MigrationMeet meets
         ("MEET " +:+ itoa (Z.of_nat (length meets)) +:+ " new pod(s) into the cluster")
  else set MigrationStandup (mp_Meets plan) "waiting for new shard pods to come up".

Section migration.
Context `{GoRuntime}.

Definition ownerOfRange (s : site) (gt : ClusterGroundTruth) (start end_ : Z)
  : option ClusterNodeState :=
  List.find (λ n, nodeOwnsRange n start end_) (range_values (253 :: s) (gt_Nodes gt)).

Definition presentLegacyNodes (s : site) (gt : ClusterGroundTruth) (legacyIDs : list string)
  : list ClusterNodeState :=
  let idset : gset string := list_to_set legacyIDs in
  bfilter (λ n, bool_decide (cn_NodeID n ∈ idset)) (range_values (449 :: s) (gt_Nodes gt)).

Definition presentLegacyIDsSorted (gt : ClusterGroundTruth) (legacyIDs : list string)
  : list string :=
  sort_strings (cn_NodeID <$> presentLegacyNodes [458] gt legacyIDs).

Definition anyLegacyOwnsSlots (gt : ClusterGroundTruth) (legacyIDs : list string) : bool :=
  existsb (λ n, (0 <? length (cn_Slots n))%nat) (presentLegacyNodes [468] gt legacyIDs).

(** The results [(reachable, total)]. *)
Definition countReachableMasters (gt : ClusterGroundTruth) : Z * Z :=
  foldl (λ '(reachable, total) n,
    if is_master n && (0 <? length (cn_Slots n))%nat
    then ((if cn_Reachable n then reachable + 1 else reachable), total + 1)
    else (reachable, total))%Z (0, 0)%Z (range_values [477] (gt_Nodes gt)).

Definition LegacyMigrationReady (gt : ClusterGroundTruth) (allLegacyPodsReady : bool) : bool :=
  if negb (gt_ClusterState gt =? "ok") then false
  else if negb (gt_TotalSlots gt =? totalClusterSlots)%Z then false
  else if negb allLegacyPodsReady then false
  else let '(reachable, total) := countReachableMasters gt in
       (0 <? total)%Z && (total <? reachable * 2)%Z.

(** The loop of [LegacyShapePreserved]; [None] is [return false]. *)
Definition shape_step (ranges : list SlotRange) (acc : option (gset Z * Z)) (n : ClusterNodeState)
  : option (gset Z * Z) :=
  '(ownedIdx, masters) ← acc;
  if negb (is_master n) || (length (cn_Slots n) =? 0)%nat then Some (ownedIdx, masters)
  else match cn_Slots n with
       | [slot] =>
           let idx := alignedRangeIndex ranges slot in
           if (idx =? -1)%Z || bool_decide (idx ∈ ownedIdx) then None
           else Some ({[idx]} ∪ ownedIdx, masters + 1)
       | _ => None
       end.

Definition LegacyShapePreserved (gt : ClusterGroundTruth) (shards replicasPerShard : Z) : bool :=
  if (shards <=? 0)%Z then false
  else if negb (Z.of_nat (size (gt_Nodes gt)) =? wrap64 (shards * wrap64 (1 + replicasPerShard)))%Z then false
  else
    match foldl (shape_step (GenerateSlotRanges shards)) (Some (∅, 0))
            (range_values [231] (gt_Nodes gt)) with
    | None => false
    | Some (ownedIdx, masters) =>
        (masters =? shards)%Z && (Z.of_nat (size ownedIdx) =? shards)%Z
    end.

(** One pod of the inner loop of [planReplicates]; the accumulator is
    [(replicates, deferred, unsynced)]. *)
Definition replicate_pod (gt : ClusterGroundTruth) (r : SlotRange)
  (owner : option ClusterNodeState) (addrs : gmap string string)
  (acc : list ReplicaAttach * Z * bool) (podName : string) : list ReplicaAttach * Z * bool :=
  let '(replicates, deferred, unsynced) := acc in
  match gt_Nodes gt !! podName with
  | None => acc
  | Some node =>
      if nodeOwnsRange node (Start r) (End r) then acc
      else if IsLinkUpReplicaOf (Some node) (ownerNodeID owner) then acc
      else match owner with
           | None => (replicates, deferred, true)
           | Some o =>
               if is_replica node && (cn_MasterNodeID node =? cn_NodeID o)
               then (replicates, deferred, true)
               else if negb (NodeKnows gt (cn_NodeID node) (cn_NodeID o))
               then (replicates, deferred + 1, true)
               else (replicates ++ [mkReplicaAttach (addr_of addrs podName) (cn_NodeID o)],
                     deferred, true)
           end
  end.

Definition planReplicates (gt : ClusterGroundTruth) (name : string) (rps : Z)
  (ranges : list SlotRange) (addrs : gmap string string) : list ReplicaAttach * Z * bool :=
  foldl (λ acc '(k, r),
    foldl (replicate_pod gt r (ownerOfRange [366; k] gt (Start r) (End r)) addrs) acc
      (shardNewPods name k rps))
    ([], 0, false) (zip (seqZ 0 (Z.of_nat (length ranges))) ranges).

(** [None] is [ok == false]. *)
Fixpoint nextFailover (gt : ClusterGroundTruth) (name : string) (krs : list (Z * SlotRange))
  (addrs : gmap string string) : option (FailoverAction * Z) :=
  match krs with
  | [] => None
  | (k, r) :: rest =>
      let masterName := newMasterPodName name k in
      let m0 := gt_Nodes gt !! masterName in
      if match m0 with Some m => nodeOwnsRange m (Start r) (End r) | None => false end
      then nextFailover gt name rest addrs
      else
        let force :=
          match ownerOfRange [417; k] gt (Start r) (End r) with
          | Some owner => negb (cn_Reachable owner) && IsLinkUpReplicaOf m0 (cn_NodeID owner)
          | None => false
          end in
        Some (mkFailoverAction (addr_of addrs masterName) force, k)
  end.

Definition PlanClusterMigration (gt : ClusterGroundTruth) (shards replicasPerShard : Z)
  (name : string) (legacy : LegacyFacts) : MigrationPlan :=
  if (shards <=? 0)%Z
  then mkMigrationPlan MigrationNone [] [] [] [] false 0 shards "invalid shard count"
  else
    let ranges := GenerateSlotRanges shards in
    let ShardsMoved := countShardsOnNewMasters gt name ranges in
    let plan phase reason :=
      mkMigrationPlan phase [] [] [] [] false ShardsMoved shards reason in
    if (length (presentLegacyNodes [135%Z] gt (lf_LegacyNodeIDs legacy)) =? 0)%nat
    then plan MigrationComplete "no legacy nodes remain; migration complete"
    else if negb (allNewPodsMet gt name shards replicasPerShard)
    then planStandupOrMeet (plan MigrationNone "") gt name shards replicasPerShard legacy
    else
      let '(replicates, deferred, unsynced) :=
        planReplicates gt name replicasPerShard ranges (lf_NewPodAddrs legacy) in
      let count := itoa (Z.of_nat (length replicates)) in
      if (unsynced : bool)
      then
        mkMigrationPlan MigrationReplicate [] replicates [] [] false ShardsMoved shards
          (if (0 <? deferred)%Z
           then "replicating " +:+ count +:+ " new pod(s) onto their range owner; "
                +:+ itoa deferred +:+ " deferred (owner not yet known via gossip)"
           else "replicating " +:+ count +:+ " new pod(s) onto their range owner")
      else
        match nextFailover gt name (zip (seqZ 0 (Z.of_nat (length ranges))) ranges)
                (lf_NewPodAddrs legacy) with
        | Some (fo, k) =>
            let r := default (mkRange 0 0) (ranges !! Z.to_nat k) in
            let mode :=
              if fa_Force fo then "forced TAKEOVER (range owner unreachable, replica synced)"
              else "coordinated" in
            mkMigrationPlan MigrationFailover [] [] [fo] [] false ShardsMoved shards
              ("promoting " +:+ name +:+ "-shard-" +:+ itoa k +:+ "-0 to own range "
               +:+ FormatSlotRange (Start r) (End r) +:+ " (" +:+ mode +:+ ")")
        | None =>
            let forgets := presentLegacyIDsSorted gt (lf_LegacyNodeIDs legacy) in
            mkMigrationPlan MigrationDecommission [] [] [] forgets
              (negb (anyLegacyOwnsSlots gt (lf_LegacyNodeIDs legacy))) ShardsMoved shards
              ("decommissioning " +:+ itoa (Z.of_nat (length forgets)) +:+ " legacy node(s)")
        end.
End migration.

(** ** Lemmas *)

Lemma elem_of_expectedNewPods name shards rps p :
  p ∈ expectedNewPods name shards rps ↔
  ∃ k, 0 ≤ k < shards ∧ p ∈ shardNewPods name k rps.
Proof.
  unfold expectedNewPods. rewrite list_elem_of_bind. split.
  - intros (k & Hp & Hk%elem_of_seqZ). exists k. split; [lia|done].
  - intros (k & Hk & Hp). exists k. split; [done|]. apply elem_of_seqZ. lia.
Qed.

(** The shards with their ranges, as the loops over [ranges] see them. *)
Definition numbered (ranges : list SlotRange) : list (Z * SlotRange) :=
  zip (seqZ 0 (Z.of_nat (length ranges))) ranges.

Lemma elem_of_numbered ranges k r :
  (k, r) ∈ numbered ranges ↔ 0 ≤ k ∧ ranges !! Z.to_nat k = Some r.
Proof.
  unfold numbered. split.
  - intros (i & Hi)%list_elem_of_lookup. apply lookup_zip_with_Some in Hi as (k' & r' & [= <- <-] & Hk & Hr).
    apply lookup_seqZ in Hk as [-> _]. rewrite Z.add_0_l, Nat2Z.id. split; [lia|done].
  - intros [Hk Hr]. apply list_elem_of_lookup. exists (Z.to_nat k). apply lookup_zip_with_Some.
    exists k, r. split; [done|]. split; [|done]. apply lookup_lt_Some in Hr. apply lookup_seqZ. lia.
Qed.

Lemma numbered_generated shards k :
  0 ≤ k < shards → ∃ r, (k, r) ∈ numbered (GenerateSlotRanges shards).
Proof.
  intros Hk. destruct (lookup_lt_is_Some_2 (GenerateSlotRanges shards) (Z.to_nat k)) as [r Hr].
  { rewrite length_GenerateSlotRanges. lia. }
  exists r. apply elem_of_numbered. split; [lia|done].
Qed.

Lemma numbered_bound shards k r : (k, r) ∈ numbered (GenerateSlotRanges shards) → 0 ≤ k < shards.
Proof.
  intros [Hk Hr]%elem_of_numbered. apply lookup_lt_Some in Hr.
  rewrite length_GenerateSlotRanges in Hr. lia.
Qed.

(** A pod that needs nothing more before a handover, given the owner of its range. *)
Definition settled (gt : ClusterGroundTruth) (r : SlotRange) (owner : option ClusterNodeState)
  (p : string) : bool :=
  match gt_Nodes gt !! p with
  | None => true
  | Some node => nodeOwnsRange node (Start r) (End r)
                 || IsLinkUpReplicaOf (Some node) (ownerNodeID owner)
  end.

Lemma replicate_pod_unsynced gt r owner addrs acc p :
  (replicate_pod gt r owner addrs acc p).2 = acc.2 || negb (settled gt r owner p).
Proof.
  unfold replicate_pod, settled. destruct acc as [[reps def] u].
  destruct (gt_Nodes gt !! p) as [node|]; simpl; [|by rewrite orb_false_r].
  destruct (nodeOwnsRange _ _ _); simpl; [by rewrite orb_false_r|].
  fold (IsLinkUpReplicaOf (Some node) (ownerNodeID owner)).
  destruct (IsLinkUpReplicaOf _ _); simpl; [by rewrite orb_false_r|].
  rewrite orb_true_r. by repeat case_match.
Qed.

Lemma replicate_pods_unsynced gt r owner addrs acc ps :
  (foldl (replicate_pod gt r owner addrs) acc ps).2 = acc.2 || existsb (λ p, negb (settled gt r owner p)) ps.
Proof.
  revert acc. induction ps as [|p ps IH]; intros acc; simpl; [by rewrite orb_false_r|].
  rewrite IH, replicate_pod_unsynced. by rewrite orb_assoc.
Qed.

Section planner.
Context `{GoRuntime}.

Lemma planReplicates_unsynced gt name rps ranges addrs :
  (planReplicates gt name rps ranges addrs).2 = false ↔
  ∀ k r p, (k, r) ∈ numbered ranges → p ∈ shardNewPods name k rps →
    settled gt r (ownerOfRange [366; k] gt (Start r) (End r)) p = true.
Proof.
  unfold planReplicates. fold (numbered ranges). generalize (numbered ranges) as krs. intros krs.
  assert (Hgen : ∀ acc, (foldl (λ acc '(k, r),
      foldl (replicate_pod gt r (ownerOfRange [366; k] gt (Start r) (End r)) addrs) acc
        (shardNewPods name k rps)) acc krs).2 =
    acc.2 || existsb (λ '(k, r), existsb (λ p, negb (settled gt r
      (ownerOfRange [366; k] gt (Start r) (End r)) p)) (shardNewPods name k rps)) krs).
  { induction krs as [|[k r] krs IH]; intros acc; cbn [foldl existsb]; [by rewrite orb_false_r|].
    rewrite IH, replicate_pods_unsynced. by rewrite orb_assoc. }
  rewrite Hgen. cbn [snd orb]. rewrite existsb_false_elem_of. split.
  - intros Hall k r p Hk Hp. apply negb_false_iff.
    exact (proj1 (existsb_false_elem_of _ _) (Hall _ Hk) p Hp).
  - intros Hall [k r] Hk. apply existsb_false_elem_of. intros p Hp. apply negb_false_iff. eauto.
Qed.

Lemma ownerOfRange_spec s gt st en o :
  ownerOfRange s gt st en = Some o → nodeOwnsRange o st en = true ∧ ∃ p, gt_Nodes gt !! p = Some o.
Proof.
  intros [Hin Hf]%find_some. split; [done|].
  by apply list_elem_of_In, elem_of_range_values in Hin.
Qed.

Definition attach_ok (gt : ClusterGroundTruth) (name : string) (rps : Z) (addrs : gmap string string)
  (krs : list (Z * SlotRange)) (ra : ReplicaAttach) : Prop :=
  ∃ k r p node o, (k, r) ∈ krs ∧ p ∈ shardNewPods name k rps ∧ gt_Nodes gt !! p = Some node ∧
    nodeOwnsRange node (Start r) (End r) = false ∧ nodeOwnsRange o (Start r) (End r) = true ∧
    (∃ q, gt_Nodes gt !! q = Some o) ∧ NodeKnows gt (cn_NodeID node) (cn_NodeID o) = true ∧
    ra = mkReplicaAttach (addr_of addrs p) (cn_NodeID o).

(** Every attachment planned is of a pod that does not own the range of its shard, to a node
    that does and that the pod knows. *)
Lemma planReplicates_attach gt name rps ranges addrs ra :
  ra ∈ (planReplicates gt name rps ranges addrs).1.1 → attach_ok gt name rps addrs (numbered ranges) ra.
Proof.
  unfold planReplicates. fold (numbered ranges).
  assert (Hin : ∀ k r ps acc, (k, r) ∈ numbered ranges → (∀ p, p ∈ ps → p ∈ shardNewPods name k rps) →
    (∀ ra, ra ∈ acc.1.1 → attach_ok gt name rps addrs (numbered ranges) ra) →
    ∀ ra, ra ∈ (foldl (replicate_pod gt r (ownerOfRange [366; k] gt (Start r) (End r)) addrs) acc ps).1.1 →
      attach_ok gt name rps addrs (numbered ranges) ra).
  { intros k r ps. induction ps as [|p ps IH]; intros acc Hk Hps Hacc; [done|]. cbn [foldl].
    apply IH; [done|intros q Hq; apply Hps; by right|]. intros ra'. unfold replicate_pod. destruct acc as [[reps def] u].
    destruct (gt_Nodes gt !! p) as [node|] eqn:Hn; [|apply Hacc].
    destruct (nodeOwnsRange node _ _) eqn:Hno; [apply Hacc|]. destruct (IsLinkUpReplicaOf _ _); [apply Hacc|].
    destruct (ownerOfRange _ _ _ _) as [o|] eqn:Ho; [|apply Hacc]. destruct (is_replica node && _); [apply Hacc|].
    destruct (negb _) eqn:Hkn; [apply Hacc|]. apply negb_false_iff in Hkn. cbn [fst].
    intros [Hr| ->%list_elem_of_singleton]%elem_of_app; [by apply Hacc|].
    apply ownerOfRange_spec in Ho as [Ho Hq]. exists k, r, p, node, o.
    split; [done|]. split; [apply Hps; by left|done]. }
  assert (Hgen : ∀ krs acc, (∀ k r, (k, r) ∈ krs → (k, r) ∈ numbered ranges) →
    (∀ ra, ra ∈ acc.1.1 → attach_ok gt name rps addrs (numbered ranges) ra) →
    ∀ ra, ra ∈ (foldl (λ acc '(k, r),
      foldl (replicate_pod gt r (ownerOfRange [366; k] gt (Start r) (End r)) addrs) acc
        (shardNewPods name k rps)) acc krs).1.1 → attach_ok gt name rps addrs (numbered ranges) ra).
  { induction krs as [|[k r] krs IH]; intros acc Hk Hacc; [done|]. cbn [foldl].
    apply IH; [intros; apply Hk; by right|]. apply Hin; [apply Hk; by left|done|done]. }
  apply Hgen; [done|]. intros ra' Hra. by apply elem_of_nil in Hra.
Qed.

Definition masters_own (gt : ClusterGroundTruth) (name : string) (k : Z) (r : SlotRange) : bool :=
  match gt_Nodes gt !! newMasterPodName name k with
  | Some m => nodeOwnsRange m (Start r) (End r)
  | None => false
  end.

Lemma nextFailover_None gt name krs addrs :
  nextFailover gt name krs addrs = None ↔
  ∀ k r, (k, r) ∈ krs → masters_own gt name k r = true.
Proof.
  induction krs as [|[k r] krs IH]; simpl.
  { split; [|done]. intros _ k r Hk. by apply elem_of_nil in Hk. }
  fold (masters_own gt name k r). destruct (masters_own gt name k r) eqn:Hm.
  - rewrite IH. split.
    + intros Hall k' r' [[= -> ->]|Hk]%elem_of_cons; [done|by apply Hall].
    + intros Hall k' r' Hk. apply Hall. by right.
  - split; [done|]. intros Hall. rewrite (Hall k r) in Hm by left. done.
Qed.

(** The promoted shard is the first whose new master does not own its range. *)
Lemma nextFailover_Some gt name krs addrs fo k :
  nextFailover gt name krs addrs = Some (fo, k) →
  ∃ r krs1 krs2, krs = krs1 ++ (k, r) :: krs2 ∧
    (∀ k' r', (k', r') ∈ krs1 → masters_own gt name k' r' = true) ∧
    masters_own gt name k r = false ∧
    fa_Addr fo = addr_of addrs (newMasterPodName name k) ∧
    (fa_Force fo = true → ∃ m0 o, gt_Nodes gt !! newMasterPodName name k = Some m0 ∧
       ownerOfRange [417; k] gt (Start r) (End r) = Some o ∧ cn_Reachable o = false ∧
       IsLinkUpReplicaOf (Some m0) (cn_NodeID o) = true).
Proof.
  induction krs as [|[k0 r0] krs IH]; simpl; [done|]. fold (masters_own gt name k0 r0).
  destruct (masters_own gt name k0 r0) eqn:Hm; intros Hn.
  - destruct (IH Hn) as (r & krs1 & krs2 & -> & H1 & H2 & H3 & H4).
    exists r, ((k0, r0) :: krs1), krs2. split; [done|]. split; [|done].
    intros k' r' [[= -> ->]|Hk]%elem_of_cons; [done|by apply H1].
  - simplify_eq. exists r0, [], krs. split; [done|]. split; [intros ?? Hk; by apply elem_of_nil in Hk|].
    split; [done|]. split; [done|]. simpl. destruct (ownerOfRange _ _ _ _) as [o|] eqn:Ho; [|done].
    intros [Hr Hl]%andb_true_iff. apply negb_true_iff in Hr.
    destruct (gt_Nodes gt !! newMasterPodName name k) as [m0|]; [|done]. by exists m0, o.
Qed.
End planner.

Section handover.
Context `{GoRuntime} (gt : ClusterGroundTruth) (name : string) (shards rps : Z).

Definition owns_in (r : SlotRange) (o : ClusterNodeState) : Prop :=
  nodeOwnsRange o (Start r) (End r) = true ∧ ∃ q, gt_Nodes gt !! q = Some o.

(** Every new pod is a member and holds a copy of its shard: it owns the range, or its
    replication link to an owner is up. *)
Definition copies_everywhere : Prop :=
  ∀ k r p, (k, r) ∈ numbered (GenerateSlotRanges shards) → p ∈ shardNewPods name k rps →
    ∃ node, gt_Nodes gt !! p = Some node ∧
      (nodeOwnsRange node (Start r) (End r) = true ∨
       ∃ o, owns_in r o ∧ IsLinkUpReplicaOf (Some node) (cn_NodeID o) = true).

(** A replica reports the identifier of its master. *)
Definition masters_named : Prop :=
  ∀ p n, gt_Nodes gt !! p = Some n → is_replica n = true → cn_MasterNodeID n ≠ "".

Lemma allNewPodsMet_spec :
  allNewPodsMet gt name shards rps = true ↔
  ∀ k p, 0 ≤ k < shards → p ∈ shardNewPods name k rps → is_Some (gt_Nodes gt !! p).
Proof.
  unfold allNewPodsMet. rewrite forallb_elem_of. setoid_rewrite bool_decide_eq_true.
  setoid_rewrite elem_of_expectedNewPods. naive_solver.
Qed.

Lemma synced_copies addrs :
  masters_named → allNewPodsMet gt name shards rps = true →
  (planReplicates gt name rps (GenerateSlotRanges shards) addrs).2 = false → copies_everywhere.
Proof.
  intros Hnamed Hmet Hs k r p Hk Hp. pose proof (numbered_bound _ _ _ Hk) as Hkb.
  destruct (proj1 allNewPodsMet_spec Hmet k p Hkb Hp) as [node Hn]. exists node. split; [done|].
  pose proof (proj1 (planReplicates_unsynced _ _ _ _ _) Hs k r p Hk Hp) as Hset.
  unfold settled in Hset. rewrite Hn in Hset. apply orb_true_iff in Hset as [?|Hl]; [by left|right].
  destruct (ownerOfRange [366; k] gt (Start r) (End r)) as [o|] eqn:Ho.
  - exists o. split; [by apply ownerOfRange_spec in Ho|done].
  - exfalso. simpl in Hl. apply andb_true_iff in Hl as [[Hr Hm%String.eqb_eq]%andb_true_iff _].
    by apply (Hnamed p node Hn Hr).
Qed.

Lemma master_in_shard k : newMasterPodName name k ∈ shardNewPods name k rps.
Proof. left. Qed.

(** The promoted pod is a synchronised copy of its range, and a forced promotion is of a
    copy of an unreachable owner. *)
Lemma failover_copy addrs fo k :
  copies_everywhere →
  nextFailover gt name (numbered (GenerateSlotRanges shards)) addrs = Some (fo, k) →
  ∃ r m0 o, (k, r) ∈ numbered (GenerateSlotRanges shards) ∧
    gt_Nodes gt !! newMasterPodName name k = Some m0 ∧
    fa_Addr fo = addr_of addrs (newMasterPodName name k) ∧
    nodeOwnsRange m0 (Start r) (End r) = false ∧ owns_in r o ∧
    IsLinkUpReplicaOf (Some m0) (cn_NodeID o) = true ∧
    (fa_Force fo = true → cn_Reachable o = false).
Proof.
  intros Hc (r & krs1 & krs2 & Hkrs & _ & Hno & Ha & Hf)%nextFailover_Some.
  assert (Hk : (k, r) ∈ numbered (GenerateSlotRanges shards)) by (rewrite Hkrs; set_solver).
  destruct (Hc k r _ Hk (master_in_shard k)) as (m0 & Hm & Hcopy).
  unfold masters_own in Hno. rewrite Hm in Hno.
  destruct Hcopy as [?|(o & Ho & Hl)]; [congruence|].
  destruct (fa_Force fo) eqn:Efo.
  - destruct (Hf eq_refl) as (m0' & o' & Hm' & Ho' & Hr & Hl'). rewrite Hm in Hm'. simplify_eq.
    exists r, m0', o'. apply ownerOfRange_spec in Ho'. done.
  - by exists r, m0, o.
Qed.

Lemma presentLegacy_spec s ids n :
  n ∈ presentLegacyNodes s gt ids ↔ cn_NodeID n ∈ ids ∧ ∃ p, gt_Nodes gt !! p = Some n.
Proof.
  unfold presentLegacyNodes. rewrite elem_of_bfilter, bool_decide_eq_true, elem_of_list_to_set.
  rewrite elem_of_range_values. naive_solver.
Qed.

(** The phases in the order in which the planner tries them. *)
Lemma plan_cases legacy :
  0 < shards →
  let ranges := GenerateSlotRanges shards in
  let plan := PlanClusterMigration gt shards rps name legacy in
  let present := presentLegacyNodes [135] gt (lf_LegacyNodeIDs legacy) in
  mp_Failovers plan = [] ∧ mp_Forgets plan = [] ∧ mp_DeleteLegacy plan = false ∧
    (mp_Phase plan = MigrationComplete ∧ present = [] ∨
     present ≠ [] ∧ allNewPodsMet gt name shards rps = false ∧
       (mp_Phase plan = MigrationStandup ∨
        mp_Phase plan = MigrationMeet ∧ lf_SeedAddrs legacy ≠ [] ∧ mp_Meets plan ≠ [] ∧
        mp_Meets plan = missingNewPodMeets gt name shards rps (lf_NewPodAddrs legacy)) ∨
     present ≠ [] ∧ allNewPodsMet gt name shards rps = true ∧ mp_Phase plan = MigrationReplicate ∧
       (planReplicates gt name rps ranges (lf_NewPodAddrs legacy)).2 = true) ∨
  present ≠ [] ∧ allNewPodsMet gt name shards rps = true ∧
    (planReplicates gt name rps ranges (lf_NewPodAddrs legacy)).2 = false ∧
    ((∃ fo k, nextFailover gt name (numbered ranges) (lf_NewPodAddrs legacy) = Some (fo, k) ∧
        mp_Phase plan = MigrationFailover ∧ mp_Failovers plan = [fo] ∧ mp_Forgets plan = [] ∧
        mp_DeleteLegacy plan = false) ∨
     nextFailover gt name (numbered ranges) (lf_NewPodAddrs legacy) = None ∧
       mp_Phase plan = MigrationDecommission ∧ mp_Failovers plan = [] ∧
       mp_Forgets plan = presentLegacyIDsSorted gt (lf_LegacyNodeIDs legacy) ∧
       mp_DeleteLegacy plan = negb (anyLegacyOwnsSlots gt (lf_LegacyNodeIDs legacy))).
Proof.
  intros Hs ranges plan present. unfold plan, PlanClusterMigration.
  destruct (Z.leb_spec shards 0); [lia|]. fold ranges present. fold (numbered ranges).
  destruct (Nat.eqb_spec (length present) 0) as [E|E].
  { apply length_zero_iff_nil in E. left. split_and!; try done. by left. }
  assert (Hp : present ≠ []) by (by intros ->).
  destruct (allNewPodsMet gt name shards rps) eqn:Hm; cbn [negb].
  - destruct (planReplicates _ _ _ _ _) as [[reps def] u] eqn:Hr.
    destruct u; [left; split_and!; try done; by right; right|]. right.
    split; [done|]. split; [done|]. split; [done|].
    destruct (nextFailover _ _ _ _) as [[fo k]|] eqn:Hf; [left; by exists fo, k|by right].
  - left. unfold planStandupOrMeet.
    destruct (_ && _) eqn:Eb; split_and!; try done; right; left; (split; [done|]; split; [done|]).
    + right. apply andb_true_iff in Eb as [Hm1%Nat.ltb_lt Hm2%Nat.ltb_lt]. split; [done|].
      split; [by destruct (lf_SeedAddrs legacy); simpl in *; [lia|]|]. simpl. split; [|done].
      intros E'. rewrite E' in Hm1. simpl in Hm1. lia.
    + by left.
Qed.

Lemma plan_attaches legacy ra :
  ra ∈ mp_Replicates (PlanClusterMigration gt shards rps name legacy) →
  attach_ok gt name rps (lf_NewPodAddrs legacy) (numbered (GenerateSlotRanges shards)) ra.
Proof.
  intros Hra. apply planReplicates_attach. revert Hra. unfold PlanClusterMigration, planStandupOrMeet.
  destruct (_ <=? _)%Z; [by intros ?%elem_of_nil|]. destruct (_ =? 0)%nat; [by intros ?%elem_of_nil|].
  destruct (negb _); [destruct (_ && _); by intros ?%elem_of_nil|].
  destruct (planReplicates _ _ _ _ _) as [[reps def] u]. destruct u; [done|].
  destruct (nextFailover _ _ _ _) as [[fo k]|]; by intros ?%elem_of_nil.
Qed.

Lemma plan_meets legacy addr :
  addr ∈ mp_Meets (PlanClusterMigration gt shards rps name legacy) →
  ∃ p, p ∈ expectedNewPods name shards rps ∧ gt_Nodes gt !! p = None ∧
    addr = addr_of (lf_NewPodAddrs legacy) p ∧ addr ≠ "".
Proof.
  intros Ha. assert (addr ∈ missingNewPodMeets gt name shards rps (lf_NewPodAddrs legacy)) as Hm.
  { revert Ha. unfold PlanClusterMigration, planStandupOrMeet.
    destruct (_ <=? _)%Z; [by intros ?%elem_of_nil|]. destruct (_ =? 0)%nat; [by intros ?%elem_of_nil|].
    destruct (negb _); [destruct (_ && _); [done|by intros ?%elem_of_nil]|].
    destruct (planReplicates _ _ _ _ _) as [[reps def] u]. destruct u; [by intros ?%elem_of_nil|].
    destruct (nextFailover _ _ _ _) as [[fo k]|]; by intros ?%elem_of_nil. }
  apply list_elem_of_omap in Hm as (p & Hp & He). exists p. split; [done|].
  destruct (gt_Nodes gt !! p); [done|]. split; [done|].
  destruct (String.eqb_spec (addr_of (lf_NewPodAddrs legacy) p) ""); [done|]. by injection He as <-.
Qed.
End handover.

(** *** The shape of a legacy cluster *)

(** The one shard a slot-owning master stands for. *)
Definition master_index (ranges : list SlotRange) (n : ClusterNodeState) : option Z :=
  match cn_Slots n with [s] => slot_index ranges s | _ => None end.

Lemma alignedRangeIndex_slot_index ranges s :
  slot_index ranges s =
    if (alignedRangeIndex ranges s =? -1)%Z then None else Some (alignedRangeIndex ranges s).
Proof. unfold slot_index, alignedRangeIndex. by destruct (ParseSlotRange s) as [[st en]|]. Qed.

Lemma shape_step_stop ranges l : foldl (shape_step ranges) None l = None.
Proof. by induction l. Qed.

Lemma shape_step_one ranges S m n :
  shape_step ranges (Some (S, m)) n =
    if is_slot_master n
    then match master_index ranges n with
         | Some i => if bool_decide (i ∈ S) then None else Some ({[i]} ∪ S, m + 1)
         | None => None
         end
    else Some (S, m).
Proof.
  unfold shape_step, is_slot_master, owns_slots, master_index. simpl.
  destruct (is_master n); simpl; [|done]. destruct (cn_Slots n) as [|s [|s2 l]]; simpl; try done.
  rewrite alignedRangeIndex_slot_index. by destruct (_ =? -1)%Z.
Qed.

Lemma shape_fold ranges l : ∀ S m S' m',
  foldl (shape_step ranges) (Some (S, m)) l = Some (S', m') ↔
  ∃ idxs, mapM (master_index ranges) (bfilter is_slot_master l) = Some idxs ∧ NoDup idxs ∧
    (∀ i, i ∈ idxs → i ∉ S) ∧ S' = list_to_set idxs ∪ S ∧ m' = m + Z.of_nat (length idxs).
Proof.
  unfold bfilter. induction l as [|n l IH]; intros S m S' m'; cbn [foldl List.filter].
  { split.
    - intros [= <- <-]. exists []. split; [done|]. split; [constructor|].
      split; [intros i Hi; by apply elem_of_nil in Hi|]. split; [set_solver|simpl; lia].
    - intros (idxs & [= <-] & _ & _ & -> & ->). do 2 f_equal; [set_solver|simpl; lia]. }
  rewrite shape_step_one. destruct (is_slot_master n); [|apply IH]. simpl.
  destruct (master_index ranges n) as [i|]; simpl; [|rewrite shape_step_stop; naive_solver].
  case_bool_decide as Hi.
  - rewrite shape_step_stop. split; [done|]. intros (idxs & Hx & _ & Hno & _).
    destruct (mapM _ _) as [js|]; [|done]. injection Hx as <-. destruct (Hno i); [left|done].
  - rewrite IH. destruct (mapM _ _) as [js|]; [|naive_solver]. simpl. split.
    + intros (idxs & [= <-] & Hnd & Hno & -> & ->). exists (i :: js). split; [done|].
      split; [apply NoDup_cons; split; [|done]; intros Hbad; apply (Hno i Hbad); set_solver|].
      split; [intros j [->|Hj]%elem_of_cons; [done|]; specialize (Hno j Hj); set_solver|].
      split; [set_solver|]. simpl. lia.
    + intros (idxs & [= <-] & [Hni Hnd]%NoDup_cons & Hno & -> & ->). exists js. split; [done|].
      split; [done|]. split; [|split; [set_solver|simpl; lia]].
      intros j Hj. rewrite not_elem_of_union, not_elem_of_singleton.
      split; [by intros ->|]. apply Hno. by right.
Qed.

Lemma master_index_bound shards n i :
  master_index (GenerateSlotRanges shards) n = Some i → 0 ≤ i < shards.
Proof.
  unfold master_index. destruct (cn_Slots n) as [|s [|]]; try done.
  intros (H0 & r & Hr & _)%slot_index_spec. apply lookup_lt_Some in Hr.
  rewrite length_GenerateSlotRanges in Hr. lia.
Qed.

Lemma mapM_permutation {A B} (f : A → option B) l1 l2 k1 :
  l1 ≡ₚ l2 → mapM f l1 = Some k1 → ∃ k2, mapM f l2 = Some k2 ∧ k1 ≡ₚ k2.
Proof.
  intros Hp. revert k1. induction Hp as [|x l1 l2 _ IH|x y l|l1 l2 l3 _ IH1 _ IH2]; intros k1 Hk.
  - by exists k1.
  - simpl in *. destruct (f x) as [b|]; [|done]. simpl in *.
    destruct (mapM f l1) as [k|]; [|done]. injection Hk as <-.
    destruct (IH k eq_refl) as (k2 & -> & Hk2). exists (b :: k2). split; [done|]. by constructor.
  - simpl in *. destruct (f y) as [b|], (f x) as [c|], (mapM f l) as [k|]; simpl in *; try done.
    injection Hk as <-. exists (c :: b :: k). split; [done|]. apply Permutation_swap.
  - destruct (IH1 _ Hk) as (k2 & Hk2 & H12). destruct (IH2 _ Hk2) as (k3 & Hk3 & H23).
    exists k3. split; [done|]. by rewrite H12.
Qed.

(** Distinct numbers below a bound, as many as the bound, are all of them. *)
Lemma all_indices (l : list Z) (n : Z) :
  0 ≤ n → NoDup l → (∀ i, i ∈ l → 0 ≤ i < n) → Z.of_nat (length l) = n → l ≡ₚ seqZ 0 n.
Proof.
  intros Hn Hnd Hb Hl. apply submseteq_length_Permutation.
  - apply NoDup_submseteq; [done|]. intros i Hi. apply elem_of_seqZ. specialize (Hb i Hi). lia.
  - rewrite length_seqZ. lia.
Qed.

(** ** Theorems *)

(** A legacy cluster is accepted for migration exactly when it has the expected number
    of members, computed in 64 bits, and its slot-owning masters own one whole shard range
    each, every shard exactly once; the map order does not matter. *)
Theorem LegacyShapePreserved_spec `{GoRuntime} (gt : ClusterGroundTruth) (shards rps : Z) :
  LegacyShapePreserved gt shards rps = true ↔
  0 < shards ∧ Z.of_nat (size (gt_Nodes gt)) = wrap64 (shards * wrap64 (1 + rps)) ∧
  ∃ idxs, mapM (master_index (GenerateSlotRanges shards))
            (bfilter is_slot_master (map_to_list (gt_Nodes gt)).*2) = Some idxs ∧
          idxs ≡ₚ seqZ 0 shards.
Proof.
  unfold LegacyShapePreserved. destruct (Z.leb_spec shards 0); [split; [done|lia]|].
  destruct (Z.eqb_spec (Z.of_nat (size (gt_Nodes gt))) (wrap64 (shards * wrap64 (1 + rps)))) as [Hsz|]; simpl;
    [|split; [done|naive_solver]].
  set (ranges := GenerateSlotRanges shards).
  assert (Hperm : bfilter is_slot_master (range_values [231] (gt_Nodes gt)) ≡ₚ
                  bfilter is_slot_master (map_to_list (gt_Nodes gt)).*2)
    by (apply bfilter_permutation; unfold range_values; by rewrite go_range_perm).
  split.
  - destruct (foldl _ _ _) as [[owned ms]|] eqn:Hf; [|done].
    apply shape_fold in Hf as (idxs & Hm & Hnd & _ & _ & ->). intros [Hms%Z.eqb_eq _]%andb_true_iff.
    split; [done|]. split; [done|]. destruct (mapM_permutation _ _ _ _ Hperm Hm) as (idxs' & Hm' & Hp).
    exists idxs'. split; [done|]. rewrite <-Hp. apply all_indices; [lia|done| |lia].
    intros i Hi. apply mapM_Some in Hm. destruct (list_elem_of_lookup_1 _ _ Hi) as [j Hj].
    destruct (Forall2_lookup_r _ _ _ _ _ Hm Hj) as (n & _ & Hx). by apply master_index_bound in Hx.
  - intros (_ & _ & idxs & Hm & Hp). symmetry in Hperm.
    destruct (mapM_permutation _ _ _ _ Hperm Hm) as (idxs' & Hm' & Hp').
    assert (Hall : idxs' ≡ₚ seqZ 0 shards) by (by rewrite <-Hp').
    assert (Hlen : Z.of_nat (length idxs') = shards) by (rewrite Hall, length_seqZ; lia).
    assert (Hnd : NoDup idxs') by (rewrite Hall; apply NoDup_seqZ).
    rewrite (proj2 (shape_fold ranges _ ∅ 0 (list_to_set idxs' ∪ ∅) (0 + Z.of_nat (length idxs'))));
      [|exists idxs'; split_and!; [done|done|set_solver|done|done]].
    rewrite (right_id_L ∅ (∪)), size_list_to_set by done. rewrite Z.add_0_l, Hlen.
    by rewrite !Z.eqb_refl.
Qed.

Lemma plan_hands_over `{GoRuntime} (gt : ClusterGroundTruth) (shards rps : Z)
  (name : string) (legacy : LegacyFacts) :
  0 < shards → masters_named gt →
  let plan := PlanClusterMigration gt shards rps name legacy in
  (mp_Failovers plan ≠ [] ∨ mp_Forgets plan ≠ [] ∨ mp_DeleteLegacy plan = true →
   copies_everywhere gt name shards rps) ∧
  (∀ fo, fo ∈ mp_Failovers plan →
   ∃ k r m0 o, (k, r) ∈ numbered (GenerateSlotRanges shards) ∧
     gt_Nodes gt !! newMasterPodName name k = Some m0 ∧
     fa_Addr fo = addr_of (lf_NewPodAddrs legacy) (newMasterPodName name k) ∧
     owns_in gt r o ∧ IsLinkUpReplicaOf (Some m0) (cn_NodeID o) = true ∧
     (fa_Force fo = true → cn_Reachable o = false)) ∧
  (mp_Forgets plan ≠ [] ∨ mp_DeleteLegacy plan = true →
   ∀ k r, (k, r) ∈ numbered (GenerateSlotRanges shards) → masters_own gt name k r = true) ∧
  (mp_DeleteLegacy plan = true →
   ∀ p n, gt_Nodes gt !! p = Some n → cn_NodeID n ∈ lf_LegacyNodeIDs legacy → cn_Slots n = []) ∧
  (∀ id, id ∈ mp_Forgets plan → id ∈ lf_LegacyNodeIDs legacy).
Proof.
  intros Hs Hnamed plan.
  pose proof (plan_cases gt name shards rps legacy Hs) as Hcases. cbv zeta in Hcases.
  fold plan in Hcases. destruct Hcases as [(Ef & Eg & Ed & _)|(_ & Hmet & Hsync & Hrest)].
  { rewrite Ef, Eg, Ed. split_and!; try (intros; by destruct_or?).
    - intros fo Hfo. by apply elem_of_nil in Hfo.
    - intros id Hid. by apply elem_of_nil in Hid. }
  pose proof (synced_copies gt name shards rps _ Hnamed Hmet Hsync) as Hc.
  split; [done|]. destruct Hrest as [(fo & k & Hf & _ & Ef & Eg & Ed)|(Hf & _ & Ef & Eg & Ed)];
    rewrite Ef, Eg, Ed.
  - split; [|split_and!; [by intros [?|?]|done|intros id Hid; by apply elem_of_nil in Hid]].
    intros fo' ->%list_elem_of_singleton.
    destruct (failover_copy gt name shards rps _ _ _ Hc Hf) as (r & m0 & o & ? & ? & ? & _ & ? & ? & ?).
    by exists k, r, m0, o.
  - split_and!.
    + intros fo Hfo. by apply elem_of_nil in Hfo.
    + intros _. by apply (nextFailover_None gt name _ (lf_NewPodAddrs legacy)).
    + intros Hany%negb_true_iff p n Hp Hid. unfold anyLegacyOwnsSlots in Hany.
      rewrite existsb_false_elem_of in Hany. specialize (Hany n).
      rewrite presentLegacy_spec in Hany. specialize (Hany ltac:(eauto)).
      destruct (cn_Slots n); [done|]. by apply Nat.ltb_ge in Hany; simpl in Hany; lia.
    + intros id Hid. unfold presentLegacyIDsSorted in Hid. rewrite sort_strings_perm in Hid.
      apply list_elem_of_fmap in Hid as (n & -> & Hn). by apply presentLegacy_spec in Hn as [? _].
Qed.

(** Nothing is handed over, forgotten or deleted before every new pod holds a copy of
    its shard; a promoted pod is a replica of the range's owner with its link up, and it is
    promoted by force only when that owner is unreachable; legacy nodes are forgotten only
    when every new master owns its range, and the legacy StatefulSet is deleted only when no
    legacy node owns a slot. *)
Theorem migration_hands_over_copies `{GoRuntime} (gt : ClusterGroundTruth) (shards rps : Z)
  (name : string) (legacy : LegacyFacts) :
  0 < shards → masters_named gt →
  let plan := PlanClusterMigration gt shards rps name legacy in
  (mp_Failovers plan ≠ [] ∨ mp_Forgets plan ≠ [] ∨ mp_DeleteLegacy plan = true →
   copies_everywhere gt name shards rps) ∧
  (∀ fo, fo ∈ mp_Failovers plan →
   ∃ k r m0 o, (k, r) ∈ numbered (GenerateSlotRanges shards) ∧
     gt_Nodes gt !! newMasterPodName name k = Some m0 ∧
     fa_Addr fo = addr_of (lf_NewPodAddrs legacy) (newMasterPodName name k) ∧
     owns_in gt r o ∧ IsLinkUpReplicaOf (Some m0) (cn_NodeID o) = true ∧
     (fa_Force fo = true → cn_Reachable o = false)) ∧
  (mp_Forgets plan ≠ [] ∨ mp_DeleteLegacy plan = true →
   ∀ k r, (k, r) ∈ numbered (GenerateSlotRanges shards) → masters_own gt name k r = true) ∧
  (mp_DeleteLegacy plan = true →
   ∀ p n, gt_Nodes gt !! p = Some n → cn_NodeID n ∈ lf_LegacyNodeIDs legacy → cn_Slots n = []) ∧
  (∀ id, id ∈ mp_Forgets plan → id ∈ lf_LegacyNodeIDs legacy).
Proof. apply plan_hands_over. Qed.

(** *** Progress *)

Lemma countShards_length gt name ranges :
  countShardsOnNewMasters gt name ranges =
    Z.of_nat (length (bfilter (λ '(k, r), masters_own gt name k r) (numbered ranges))).
Proof.
  unfold countShardsOnNewMasters. fold (numbered ranges). generalize (numbered ranges) as l.
  assert (Hgen : ∀ l c, foldl (λ count '(k, r),
    match gt_Nodes gt !! newMasterPodName name k with
    | Some m => if nodeOwnsRange m (Start r) (End r) then count + 1 else count
    | None => count
    end) c l = c + Z.of_nat (length (bfilter (λ '(k, r), masters_own gt name k r) l))).
  { unfold bfilter. induction l as [|[k r] l IH]; intros c; cbn [foldl List.filter]; [simpl; lia|].
    rewrite IH. unfold masters_own at 2. destruct (gt_Nodes gt !! _); [|done].
    destruct (nodeOwnsRange _ _ _); simpl; lia. }
  intros l. by rewrite Hgen.
Qed.

Lemma nodeOwnsRange_spec n st en :
  nodeOwnsRange n st en = true ↔ ∃ s, s ∈ cn_Slots n ∧ ParseSlotRange s = Some (st, en).
Proof.
  unfold nodeOwnsRange. rewrite existsb_elem_of. f_equiv. intros s. f_equiv.
  destruct (ParseSlotRange s) as [[st' en']|]; [|done].
  rewrite andb_true_iff, !Z.eqb_eq. naive_solver.
Qed.

Section Progress.
Context `{GoRuntime} (shards : Z) (name : string).

Abbreviation moved gt := (countShardsOnNewMasters gt name (GenerateSlotRanges shards)).

(** From one gather to a later one, no new master has lost its range. *)
Definition ranges_kept (gt gt' : ClusterGroundTruth) : Prop :=
  ∀ k r, (k, r) ∈ numbered (GenerateSlotRanges shards) → masters_own gt name k r = true → masters_own gt' name k r = true.

(** The promotion planned at [gt] has been carried out by the time of [gt']: the pod that was
    asked to take over owns the range of its shard. *)
Definition carried_out (gt gt' : ClusterGroundTruth) (addrs : gmap string string) : Prop :=
  ∃ fo k r, nextFailover gt name (numbered (GenerateSlotRanges shards)) addrs = Some (fo, k) ∧
    (k, r) ∈ numbered (GenerateSlotRanges shards) ∧ masters_own gt' name k r = true.

(** Gathers of successive passes, with the number of passes that planned a promotion and had it
    carried out.  The other passes may plan anything, or plan a promotion that does not happen. *)
Inductive migration_passes (rps : Z) : nat → ClusterGroundTruth → ClusterGroundTruth → Prop :=
  | migration_here gt : migration_passes rps 0 gt gt
  | migration_next n gt gt' gt'' : ranges_kept gt gt' → migration_passes rps n gt' gt'' →
      migration_passes rps n gt gt''
  | migration_promoted n gt gt' gt'' legacy : ranges_kept gt gt' →
      mp_Phase (PlanClusterMigration gt shards rps name legacy) = MigrationFailover →
      carried_out gt gt' (lf_NewPodAddrs legacy) → migration_passes rps n gt' gt'' →
      migration_passes rps (S n) gt gt''.

Lemma moved_le gt gt' : ranges_kept gt gt' → moved gt ≤ moved gt'.
Proof.
  intros Hk. rewrite !countShards_length. apply inj_le, bfilter_length_mono. intros [k r] Hin. by apply Hk.
Qed.

Lemma moved_bound gt : 0 < shards → moved gt ≤ shards.
Proof.
  intros Hs. rewrite countShards_length.
  pose proof (List.filter_length_le (λ '(k, r), masters_own gt name k r) (numbered (GenerateSlotRanges shards))) as Hle.
  unfold numbered in Hle at 2. rewrite length_zip_with, length_seqZ, length_GenerateSlotRanges in Hle. unfold bfilter. lia.
Qed.

Lemma moved_lt gt gt' addrs : ranges_kept gt gt' → carried_out gt gt' addrs → moved gt < moved gt'.
Proof.
  intros Hk (fo & k & r & Hf & Hr & Hown). rewrite !countShards_length. apply inj_lt.
  destruct (nextFailover_Some _ _ _ _ _ _ Hf) as (r0 & krs1 & krs2 & Hkrs & _ & Hno & _).
  assert (Hk0 : (k, r0) ∈ numbered (GenerateSlotRanges shards)) by (rewrite Hkrs; set_solver).
  assert (r0 = r) as ->. { apply elem_of_numbered in Hk0 as [_ H0], Hr as [_ H1]. congruence. }
  apply (bfilter_length_strict _ _ _ (k, r)); [|done..]. intros [k' r'] Hin. by apply Hk.
Qed.

(** No promotion is planned once every range has moved. *)
Lemma moved_all gt rps legacy : 0 < shards → moved gt = shards →
  mp_Failovers (PlanClusterMigration gt shards rps name legacy) = [].
Proof.
  intros Hs Hm. pose proof (plan_cases gt name shards rps legacy Hs) as Hc. cbv zeta in Hc.
  destruct Hc as [(Ef & _)|(_ & _ & _ & [(fo & k & Hf & _)|(_ & _ & Ef & _)])]; [done| |done]. exfalso.
  destruct (nextFailover_Some _ _ _ _ _ _ Hf) as (r & krs1 & krs2 & Hkrs & _ & Hno & _).
  assert (Hk : (k, r) ∈ numbered (GenerateSlotRanges shards)) by (rewrite Hkrs; set_solver).
  assert (Hlt : (length (bfilter (λ '(k, r), masters_own gt name k r) (numbered (GenerateSlotRanges shards))) <
    length (bfilter (λ _, true) (numbered (GenerateSlotRanges shards))))%nat).
  { apply (bfilter_length_strict _ _ _ (k, r)); done. }
  rewrite countShards_length in Hm. unfold bfilter at 2 in Hlt. rewrite filter_true in Hlt.
  unfold numbered at 2 in Hlt. rewrite length_zip_with, length_seqZ, length_GenerateSlotRanges in Hlt. lia.
Qed.

Lemma passes_moved rps n gt gt' : migration_passes rps n gt gt' → ranges_kept gt gt' ∧ Z.of_nat n + moved gt ≤ moved gt'.
Proof.
  assert (Htrans : ∀ a b c, ranges_kept a b → ranges_kept b c → ranges_kept a c).
  { intros a b c H1 H2 k r Hin Ho. by apply H2, H1. }
  induction 1 as [gt|n gt gt' gt'' Hk _ [Hk' IH]|n gt gt' gt'' legacy Hk Hph Hc _ [Hk' IH]].
  - split; [by intros k r|lia].
  - split; [by eapply Htrans|]. pose proof (moved_le _ _ Hk). lia.
  - split; [by eapply Htrans|]. pose proof (moved_lt _ _ _ Hk Hc). lia.
Qed.
End Progress.

(** C36. The failover phase of a migration ends.  Over any passes in which no new master loses a
    range it owned, each planned promotion that is carried out, in the sense that the pod that
    was asked then owns the range of its shard, is for a range that had not moved yet: there
    are at most as many as ranges were missing at the start, and they are counted in the
    reported number of moved shards.  Nothing else is assumed about what a promotion does to
    the cluster, and a planned promotion may also not happen.  Once as many promotions have
    been carried out as ranges were missing, no later pass plans one. *)
Theorem migration_failover_progress `{GoRuntime} (shards rps : Z) (name : string) (n : nat)
  (gt gt' : ClusterGroundTruth) (legacy legacy' : LegacyFacts) :
  0 < shards → migration_passes shards name rps n gt gt' →
  let moved g l := mp_ShardsMoved (PlanClusterMigration g shards rps name l) in
  0 ≤ moved gt legacy ∧ Z.of_nat n + moved gt legacy ≤ moved gt' legacy' ≤ shards ∧
  (Z.of_nat n + moved gt legacy = shards →
     ∀ m gt'' legacy'', migration_passes shards name rps m gt' gt'' →
       mp_Failovers (PlanClusterMigration gt'' shards rps name legacy'') = []).
Proof.
  intros Hs Hp moved.
  assert (Hmoved : ∀ g l, moved g l = countShardsOnNewMasters g name (GenerateSlotRanges shards)).
  { intros g l. unfold moved, PlanClusterMigration. destruct (Z.leb_spec shards 0); [lia|].
    unfold planStandupOrMeet. repeat case_match; done. }
  rewrite !Hmoved. destruct (passes_moved _ _ _ _ _ _ Hp) as [_ Hle].
  pose proof (moved_bound shards name gt' Hs). split; [rewrite countShards_length; lia|]. split; [lia|].
  intros Hall m gt'' legacy'' Hp'. destruct (passes_moved _ _ _ _ _ _ Hp') as [_ Hle'].
  pose proof (moved_bound shards name gt'' Hs). apply moved_all; [done|]. lia.
Qed.

(** ** A concrete migration: one shard, synchronised and ready to be handed over *)

Definition migrating : ClusterGroundTruth :=
  mkGroundTruth
    {[ "c-cluster-0" := shard_node "c-cluster-0" "old" ["0-16383"];
       "c-shard-0-0" := mkClusterNode "c-shard-0-0" "10.0.0.2" "new" [] roleReplica "old" "up" true
                          ProbeOK "" ]}
    [] [] "ok" 16384 ∅ ∅ false.
Definition migrating_facts : LegacyFacts :=
  mkLegacyFacts ["10.0.0.1:6379"] ["old"] {[ "c-shard-0-0" := "10.0.0.2:6379" ]}.

Lemma migrating_named : masters_named migrating.
Proof.
  intros p n Hp. unfold migrating in Hp. simpl in Hp.
  apply lookup_insert_Some in Hp as [[_ <-]|[_ Hp]]; [done|].
  by apply lookup_singleton_Some in Hp as [_ <-].
Qed.

Lemma migration_hands_over_copies_witness :
  mp_Failovers (@PlanClusterMigration ref_runtime migrating 1 0 "c" migrating_facts) =
    [mkFailoverAction "10.0.0.2:6379" false] ∧
  copies_everywhere migrating "c" 1 0.
Proof.
  assert (Hf : mp_Failovers (@PlanClusterMigration ref_runtime migrating 1 0 "c" migrating_facts) =
    [mkFailoverAction "10.0.0.2:6379" false]) by (vm_compute; reflexivity).
  split; [exact Hf|].
  refine (proj1 (@migration_hands_over_copies ref_runtime migrating 1 0 "c" migrating_facts
    ltac:(lia) migrating_named) _).
  left. rewrite Hf. discriminate.
Defined.

(** The same cluster after the promotion. *)
Definition migrated : ClusterGroundTruth :=
  mkGroundTruth
    {[ "c-cluster-0" := mkClusterNode "c-cluster-0" "10.0.0.1" "old" [] roleReplica "new" "up" true ProbeOK "";
       "c-shard-0-0" := mkClusterNode "c-shard-0-0" "10.0.0.2" "new" ["0-16383"] roleMaster "-" "" true ProbeOK "" ]}
    [] [] "ok" 16384 ∅ ∅ false.

Lemma migration_failover_progress_witness :
  mp_ShardsMoved (@PlanClusterMigration ref_runtime migrating 1 0 "c" migrating_facts) = 0 ∧
  mp_Phase (@PlanClusterMigration ref_runtime migrating 1 0 "c" migrating_facts) = MigrationFailover ∧
  mp_Failovers (@PlanClusterMigration ref_runtime migrated 1 0 "c" migrating_facts) = [].
Proof.
  split; [vm_compute; reflexivity|]. split; [vm_compute; reflexivity|].
  assert (Hkept : ranges_kept 1 "c" migrating migrated).
  { intros k r Hin. apply numbered_bound in Hin as Hb. assert (k = 0) as -> by lia. by vm_compute. }
  assert (Hp : @migration_passes ref_runtime 1 "c" 0 1 migrating migrated).
  { apply (migration_promoted 1 "c" 0 0 migrating migrated migrated migrating_facts Hkept); [vm_compute; reflexivity| |constructor].
    exists (mkFailoverAction "10.0.0.2:6379" false), 0, (mkRange 0 16383). split; [vm_compute; reflexivity|].
    split; [|vm_compute; reflexivity]. apply elem_of_numbered. split; [lia|vm_compute; reflexivity]. }
  destruct (@migration_failover_progress ref_runtime 1 0 "c" 1 migrating migrated migrating_facts migrating_facts
    ltac:(lia) Hp) as (_ & _ & Hend).
  apply (Hend ltac:(vm_compute; reflexivity) 0%nat migrated migrating_facts). constructor.
Defined.
