(* ===== verification/ReplicationTypes.v ===== *)
(** * Redis and Sentinel node views
    (src/internal/redis/replication_state.go, src/internal/redis/client.go) *)

From Stdlib Require Import Ascii.
From S2P Require Import Prelude GoStrings Probe.

Open Scope Z_scope.
Open Scope go_scope.

(** ** Definitions *)

Record RedisNodeState := mkRedisNode {
  rn_PodName : string;
  rn_IP : string;
  rn_Role : string;
  rn_MasterHost : string;
  rn_LinkStatus : string;
  rn_Offset : Z;
  rn_Keys : Z;
  rn_Replid : string;
  rn_Replid2 : string;
  rn_Reachable : bool;
  rn_ProbeFailure : ProbeFailure;
  rn_ProbeError : string;
}.

#[export] Instance RedisNodeState_eq_dec : EqDecision RedisNodeState.
Proof. solve_decision. Defined.

Definition UnprovablyEmpty (n : RedisNodeState) : bool :=
  negb (rn_Reachable n) && is_auth_failed (rn_ProbeFailure n).

Record ReplicaInfo := mkReplicaInfo {
  ri_IP : string;
  ri_Port : string;
  ri_Flags : string;
}.

Record MonitoredMaster := mkMonitoredMaster {
  mm_Name : string;
  mm_IP : string;
  mm_Flags : string;
  mm_FailoverState : string;
}.

#[export] Instance MonitoredMaster_eq_dec : EqDecision MonitoredMaster.
Proof. solve_decision. Defined.

Record SentinelNodeState := mkSentinelNode {
  sn_PodName : string;
  sn_IP : string;
  sn_Monitoring : bool;
  sn_MasterIP : string;
  sn_Reachable : bool;
  sn_Replicas : list ReplicaInfo;
  sn_MasterFailoverState : string;
  sn_MasterFlags : string;
  sn_NumOtherSentinels : Z;
  sn_NumSlaves : Z;
  sn_MonitoredMasters : list MonitoredMaster;
  sn_ProbeFailure : ProbeFailure;
  sn_ProbeError : string;
}.

Definition failoverStateNone : string := "none".
Definition failoverStateReconfSlaves : string := "reconf_slaves".

Definition idleFailoverStates : list string := [""; failoverStateNone].

Definition failoverInProgress (flags state : string) : bool :=
  if str_contains flags "failover_in_progress" then true
  else negb (existsb (String.eqb (trim_space state)) idleFailoverStates).

Definition mm_FailoverInProgress (m : MonitoredMaster) : bool :=
  failoverInProgress (mm_Flags m) (mm_FailoverState m).

Definition MasterFailoverInProgress (sn : SentinelNodeState) : bool :=
  failoverInProgress (sn_MasterFlags sn) (sn_MasterFailoverState sn).

Definition hasFlag (flags want : string) : bool :=
  existsb (λ f, trim_space f =? want) (split_on "," flags).

Definition flaggedDown (flags : string) : bool :=
  str_contains flags "s_down" || str_contains flags "o_down".

(** The loop over [sn.Replicas] decides at the first entry flagged [promoted]. *)
Definition FailoverStalled (sn : SentinelNodeState) : bool :=
  if negb (sn_Reachable sn) || negb (sn_Monitoring sn) then false
  else if negb (MasterFailoverInProgress sn) then false
  else if negb (trim_space (sn_MasterFailoverState sn) =? failoverStateReconfSlaves)
       then false
  else match List.find (λ r, hasFlag (ri_Flags r) "promoted") (sn_Replicas sn) with
       | Some r => flaggedDown (ri_Flags r)
       | None => false
       end.
