(* ===== verification/Info.v ===== *)
(** * INFO and SENTINEL replies (src/internal/redis/client.go)

    The parsers of the replies the gather reads: the INFO text of a data pod and the
    SENTINEL MASTERS records of a Sentinel. *)

From Stdlib Require Import Ascii.
From S2P Require Import Prelude GoStrings Probe ClusterState ReplicationTypes.

Open Scope Z_scope.
Open Scope go_scope.

(** ** Definitions *)

Definition lf : ascii := "010".
Definition cr : ascii := "013".

Fixpoint str_drop (n : nat) (s : string) : string :=
  match n, s with
  | O, _ => s
  | S n', String _ s' => str_drop n' s'
  | S _, EmptyString => ""
  end.

(** The value: up to the end of the line or of the text. *)
Fixpoint info_value (s : string) : string :=
  match s with
  | EmptyString => ""
  | String c s' => if Ascii.eqb c cr || Ascii.eqb c lf then "" else String c (info_value s')
  end.

(** The scan from one position; [bol] is [i == 0 || info[i-1] == '\n']. *)
Fixpoint scan_info (prefix : string) (bol : bool) (rest : string) : string :=
  match rest with
  | EmptyString => ""
  | String c rest' =>
      if bol && ((String.length prefix <? String.length rest)%nat && has_prefix rest prefix)
      then info_value (str_drop (String.length prefix) rest)
      else scan_info prefix (Ascii.eqb c lf) rest'
  end.

Definition ParseInfoField (info field : string) : string :=
  scan_info (field +:+ ":") true info.

(** [strings.Cut] on a separator string: the text after it. *)
Fixpoint cut_after (s sep : string) : option string :=
  if has_prefix s sep then Some (str_drop (String.length sep) s)
  else match s with EmptyString => None | String _ s' => cut_after s' sep end.

(** The keys of one line, if it is a database line. *)
Definition keyspace_line (line0 : string) : option Z :=
  let line := trim_space line0 in
  if negb (has_prefix line "db") then None
  else match cut_after line "keys=" with
       | None => None
       | Some after => atoi (trim_space (default after (before_byte "," after)))
       end.

(** The 64-bit sum over all databases. *)
Definition ParseKeyspaceKeys (info : string) : Z :=
  foldl (λ total line, match keyspace_line line with
                       | Some n => wrap64 (total + n)
                       | None => total
                       end) 0 (split_on lf info).

Definition atoiOrZero (s : string) : Z := default 0 (atoi (trim_space s)).

Record ReplicationSnapshot := mkSnapshot {
  snap_Role : string;
  snap_MasterHost : string;
  snap_MasterLinkStatus : string;
  snap_Offset : Z;
  snap_Keys : Z;
  snap_Replid : string;
  snap_Replid2 : string;
}.

(** What GetReplicationInfo makes of an INFO text. *)
Definition snapshot_of_info (info : string) : ReplicationSnapshot :=
  let role := ParseInfoField info "role" in
  let offsetField := if role =? roleMaster then "master_repl_offset" else "slave_repl_offset" in
  let offsetStr := ParseInfoField info offsetField in
  {| snap_Role := role;
     snap_MasterHost := ParseInfoField info "master_host";
     snap_MasterLinkStatus := ParseInfoField info "master_link_status";
     snap_Offset := if negb (offsetStr =? "") then atoi_or_zero offsetStr else 0;
     snap_Keys := ParseKeyspaceKeys info;
     snap_Replid := ParseInfoField info "master_replid";
     snap_Replid2 := ParseInfoField info "master_replid2" |}.

(** *** SENTINEL MASTERS *)

(** The dynamic values go-redis decodes a reply into; [RMap] lists the entries in the order
    the map iteration yields them. *)
Inductive reply :=
| RString (s : string)
| RInt (z : Z)
| RNil
| RArray (l : list reply)
| RMap (l : list (reply * reply)).

Definition set_field (fields : gmap string string) (k v : reply) : gmap string string :=
  match k, v with
  | RString ks, RString vs => <[ks := vs]> fields
  | _, _ => fields
  end.

(** The flat key/value array; a trailing key without a value is dropped. *)
Fixpoint array_fields (fields : gmap string string) (l : list reply) : gmap string string :=
  match l with
  | k :: v :: rest => array_fields (set_field fields k v) rest
  | _ => fields
  end.

Definition recordFields (entry : reply) : option (gmap string string) :=
  match entry with
  | RMap l => Some (foldl (λ fields '(k, v), set_field fields k v) ∅ l)
  | RArray l => Some (array_fields ∅ l)
  | _ => None
  end.

Definition monitored_of_fields (fields : gmap string string) : option MonitoredMaster :=
  match fields !! "name" with
  | None => None
  | Some name =>
      if name =? "" then None
      else Some (mkMonitoredMaster name (default "" (fields !! "ip"))
                   (default "" (fields !! "flags")) (default "" (fields !! "failover-state")))
  end.

Definition parseMonitoredMasters (r : list reply) : list MonitoredMaster :=
  omap (λ entry, fields ← recordFields entry; monitored_of_fields fields) r.

(** ** Lemmas *)

(** *** INFO text *)

Definition crlf : string := String cr (String lf EmptyString).

(** One [field:value] line as the servers print it, and the whole text. *)
Definition info_line (kv : string * string) : string := kv.1 +:+ ":" +:+ kv.2 +:+ crlf.
Definition render_info (kvs : list (string * string)) : string :=
  foldr (λ kv rest, info_line kv +:+ rest) "" kvs.

Definition field_name (k : string) : Prop := byte_free ":" k ∧ byte_free lf k.
Definition field_value (v : string) : Prop := byte_free cr v ∧ byte_free lf v.

Lemma app_cons c s t : String c s +:+ t = String c (s +:+ t).
Proof. done. Qed.

Lemma string_app_assoc s t u : (s +:+ t) +:+ u = s +:+ (t +:+ u).
Proof. induction s as [|c s IH]; [done|]. rewrite !app_cons. by rewrite IH. Qed.

Lemma has_prefix_cons c d s p :
  has_prefix (String c s) (String d p) = Ascii.eqb d c && has_prefix s p.
Proof.
  unfold has_prefix. simpl. destruct (ascii_dec d c) as [->|Hne]; [by rewrite Ascii.eqb_refl|].
  by rewrite (proj2 (Ascii.eqb_neq d c) Hne).
Qed.

(** Keys without a colon: the line starts with ["field:"] exactly when its key is the field. *)
Lemma has_prefix_key k f rest :
  byte_free ":" k → byte_free ":" f →
  has_prefix (k +:+ ":" +:+ rest) (f +:+ ":") = (f =? k).
Proof.
  revert f. induction k as [|c k IH]; intros [|d f] Hk Hf.
  - change (has_prefix (String ":" rest) (String ":" "") = true). rewrite has_prefix_cons.
    by destruct rest.
  - destruct Hf as [Hd _]. change (has_prefix (String ":" rest) (String d (f +:+ ":")) = false).
    rewrite has_prefix_cons. by rewrite (proj2 (Ascii.eqb_neq d ":") Hd).
  - destruct Hk as [Hc _]. change (has_prefix (String c (k +:+ ":" +:+ rest)) (String ":" "") = false).
    rewrite has_prefix_cons. by rewrite (proj2 (Ascii.eqb_neq ":" c) (not_eq_sym Hc)).
  - destruct Hk as [_ Hk], Hf as [_ Hf]. rewrite !app_cons, has_prefix_cons, IH by done. simpl.
    by destruct (Ascii.eqb d c).
Qed.

Lemma info_value_line v rest :
  field_value v → info_value (v +:+ crlf +:+ rest) = v.
Proof.
  intros [Hc Hl]. induction v as [|c v IH]; [done|].
  destruct Hc as [Hc1 Hc2], Hl as [Hl1 Hl2]. rewrite app_cons. simpl.
  rewrite (proj2 (Ascii.eqb_neq _ _) Hc1), (proj2 (Ascii.eqb_neq _ _) Hl1). simpl. by rewrite IH.
Qed.

Lemma str_drop_app p s : str_drop (String.length p) (p +:+ s) = s.
Proof. by induction p. Qed.

(** Inside a line nothing matches: the scan reaches the next line. *)
Lemma scan_to_eol prefix s rest :
  byte_free lf s →
  scan_info prefix false (s +:+ String lf rest) = scan_info prefix true rest.
Proof.
  induction s as [|c s IH]; intros Hs.
  - change (scan_info prefix false (String lf rest) = scan_info prefix true rest).
    done.
  - destruct Hs as [Hc Hs]. rewrite app_cons. simpl.
    rewrite (proj2 (Ascii.eqb_neq c lf) Hc). by apply IH.
Qed.

Lemma scan_line field k v rest :
  field_name k → field_value v → byte_free ":" field →
  scan_info (field +:+ ":") true (info_line (k, v) +:+ rest) =
  if field =? k then v else scan_info (field +:+ ":") true rest.
Proof.
  intros [Hk1 Hk2] Hv Hf. unfold info_line. simpl. rewrite !string_app_assoc.
  set (text := k +:+ ":" +:+ (v +:+ (crlf +:+ rest))).
  assert (Htext : text ≠ "") by (unfold text; by destruct k).
  assert (Hpre : has_prefix text (field +:+ ":") = (field =? k)) by (by apply has_prefix_key).
  destruct (field =? k) eqn:E; bool_hyps.
  - subst k. assert (Hdrop : str_drop (String.length (field +:+ ":")) text = v +:+ (crlf +:+ rest)).
    { unfold text. rewrite <-(string_app_assoc field ":"). apply str_drop_app. }
    assert (Hlen : (String.length (field +:+ ":") <? String.length text)%nat = true).
    { apply Nat.ltb_lt. unfold text. rewrite !length_string_app. simpl. lia. }
    destruct text as [|c t]; [done|]. cbn [scan_info]. rewrite Hlen, Hpre. cbn [andb].
    rewrite Hdrop. by apply info_value_line.
  - assert (Hsplit : ∃ c s, text = String c (s +:+ String lf rest) ∧ c ≠ lf ∧ byte_free lf s).
    { assert (Heq : text = (k +:+ ":" +:+ v +:+ String cr EmptyString) +:+ String lf rest).
      { unfold text. by rewrite !string_app_assoc. }
      assert (Hfree : byte_free lf (k +:+ ":" +:+ v +:+ String cr EmptyString)).
      { destruct Hv as [_ Hv]. repeat apply byte_free_app; done. }
      rewrite Heq. destruct k as [|c k]; [by exists ":"%char, (v +:+ String cr EmptyString)|].
      destruct Hfree. by exists c, (k +:+ ":" +:+ v +:+ String cr EmptyString). }
    destruct Hsplit as (c & s & Hs & Hc & Hfree). rewrite Hs in *. cbn [scan_info].
    rewrite Hpre, andb_false_r. cbn [andb]. rewrite (proj2 (Ascii.eqb_neq c lf) Hc).
    by apply scan_to_eol.
Qed.

(** *** SENTINEL MASTERS records *)

(** A record as a RESP2 flat array and as a RESP3 map. *)
Definition resp2_record (kvs : list (string * string)) : reply :=
  RArray (concat ((λ kv, [RString kv.1; RString kv.2]) <$> kvs)).
Definition resp3_record (kvs : list (string * string)) : reply :=
  RMap ((λ kv, (RString kv.1, RString kv.2)) <$> kvs).

Lemma array_fields_record kvs : ∀ m,
  array_fields m (concat ((λ kv, [RString kv.1; RString kv.2]) <$> kvs)) =
  foldl (λ m kv, <[kv.1 := kv.2]> m) m kvs.
Proof. induction kvs as [|[k v] kvs IH]; intros m; simpl; [done|]. by rewrite <-IH. Qed.

Lemma map_fields_record kvs : ∀ m,
  foldl (λ fields '(k, v), set_field fields k v) m ((λ kv, (RString kv.1, RString kv.2)) <$> kvs) =
  foldl (λ m kv, <[kv.1 := kv.2]> m) m kvs.
Proof. induction kvs as [|[k v] kvs IH]; intros m; simpl; [done|]. by rewrite <-IH. Qed.

(** The first value of a field. *)
Definition lookup_field (kvs : list (string * string)) (field : string) : string :=
  default "" (snd <$> List.find (λ kv, field =? kv.1) kvs).

(** ** Theorems *)

(** INFO round trip: reading a field back from a printed INFO text gives the first value
    printed under exactly that name, and the empty string when there is none; a field whose
    name merely starts with the one asked for ([master_replid2]) is never confused with it. *)
Theorem ParseInfoField_roundtrip (kvs : list (string * string)) (field : string) :
  Forall (λ kv, field_name kv.1 ∧ field_value kv.2) kvs → byte_free ":" field →
  ParseInfoField (render_info kvs) field = lookup_field kvs field.
Proof.
  intros Hall Hf. unfold ParseInfoField, lookup_field.
  induction Hall as [|[k v] kvs [Hk Hv] _ IH]; [done|].
  cbn [render_info foldr]. fold (render_info kvs). rewrite scan_line by done.
  simpl. destruct (field =? k); [done|]. exact IH.
Qed.

(** The SENTINEL MASTERS parser does not depend on the protocol: the RESP3 map, in
    whatever order its entries are iterated, and the RESP2 flat array of the same records give
    the same monitored masters. *)
Theorem parseMonitoredMasters_protocol (records records' : list (list (string * string))) :
  Forall2 (λ r r', NoDup r.*1 ∧ r ≡ₚ r') records records' →
  parseMonitoredMasters (resp2_record <$> records) =
  parseMonitoredMasters (resp3_record <$> records').
Proof.
  unfold parseMonitoredMasters. induction 1 as [|r r' rs rs' [Hnd Hp] _ IH]; [done|].
  assert (Hrec : recordFields (resp2_record r) = recordFields (resp3_record r')).
  { simpl. f_equal. rewrite array_fields_record, map_fields_record.
    rewrite !foldl_insert by (done || by rewrite <-Hp).
    f_equal. by apply list_to_map_proper. }
  revert IH. set (f := λ entry : reply, _). intros IH.
  assert (Hf : f (resp2_record r) = f (resp3_record r')) by (unfold f; by rewrite Hrec).
  assert (Hcons : ∀ x l, omap f (x :: l) =
    match f x with Some y => y :: omap f l | None => omap f l end) by done.
  rewrite !fmap_cons, !Hcons, Hf. by destruct (f (resp3_record r')); rewrite IH.
Qed.

(** A replica's INFO. *)
Definition sample_info : list (string * string) :=
  [("role", "slave"); ("master_host", "10.0.0.1"); ("master_link_status", "up");
   ("slave_repl_offset", "1234"); ("master_replid", "8f3a"); ("master_replid2", "0000");
   ("master_repl_offset", "99"); ("db0", "keys=42,expires=0"); ("db1", "keys=8,expires=1")].

Lemma ParseInfoField_roundtrip_witness :
  ParseInfoField (render_info sample_info) "master_replid" = "8f3a" ∧
  snapshot_of_info (render_info sample_info) = mkSnapshot "slave" "10.0.0.1" "up" 1234 50 "8f3a" "0000".
Proof.
  split; [|vm_compute; reflexivity].
  rewrite (ParseInfoField_roundtrip sample_info "master_replid"); [reflexivity| |].
  - unfold sample_info. repeat constructor; discriminate.
  - repeat split; discriminate.
Defined.

Definition sample_record : list (string * string) :=
  [("name", "lr"); ("ip", "10.0.0.1"); ("flags", "master,failover_in_progress");
   ("failover-state", "reconf_slaves")].

Lemma parseMonitoredMasters_protocol_witness :
  parseMonitoredMasters [resp2_record sample_record] =
  parseMonitoredMasters [resp3_record (reverse sample_record)] ∧
  parseMonitoredMasters [resp2_record sample_record] =
    [mkMonitoredMaster "lr" "10.0.0.1" "master,failover_in_progress" "reconf_slaves"].
Proof.
  split; [|vm_compute; reflexivity].
  apply (parseMonitoredMasters_protocol [sample_record] [reverse sample_record]).
  constructor; [|constructor]. split; [|by rewrite reverse_Permutation].
  decide_true.
Defined.
