(* ===== verification/Lineage.v ===== *)
(** * Replication lineages (holdersDiverged, holdersForked, isZeroReplid of
    src/internal/redis/replication_state.go)

    [holdersDiverged] groups the data holders by replication lineage with a union-find
    over the replication IDs.  The theorem shows that it computes exactly the
    connectivity of the graph whose edges are the [replid]/[replid2] pairs. *)

From Stdlib Require Import Ascii.
From stdpp Require Import relations.
From S2P Require Import Prelude GoStrings Probe ClusterState ReplicationTypes.

Open Scope go_scope.

(** ** Definitions *)

Fixpoint all_zero (r : string) : bool :=
  match r with
  | EmptyString => true
  | String c r' => Ascii.eqb c "0"%char && all_zero r'
  end.

(** Empty, or the all-zero value Redis reports for an unset [master_replid2]. *)
Definition isZeroReplid (r : string) : bool :=
  if r =? "" then true else all_zero r.

Definition valid_replid (r : string) : bool := negb (isZeroReplid r).

(** *** The union-find *)

Abbreviation forest := (gmap string string).

(** The closure [find] (here [find_id]): the recursion follows parent pointers, so it is bounded by the
    number of registered IDs; [None] is running out of fuel. *)
Fixpoint uf_find (fuel : nat) (x : string) (parent : forest) : option (string * forest) :=
  match fuel with
  | O => None
  | S fuel' =>
      match parent !! x with
      | None => Some (x, <[x := x]> parent)
      | Some p =>
          if p =? x then Some (x, parent)
          else match uf_find fuel' p parent with
               | Some (r, parent') => Some (r, <[x := r]> parent')
               | None => None
               end
      end
  end.

Definition find_id (x : string) (parent : forest) : option (string * forest) :=
  uf_find (S (size parent)) x parent.

(** [union := func(a, b string) { parent[find(a)] = find(b) }], left to right. *)
Definition union_ids (a b : string) (parent : forest) : option forest :=
  '(ra, parent1) ← find_id a parent;
  '(rb, parent2) ← find_id b parent1;
  Some (<[ra := rb]> parent2).

(** Pass 1, for one holder. *)
Definition connect_holder (parent : forest) (h : RedisNodeState) : option forest :=
  if valid_replid (rn_Replid h) && valid_replid (rn_Replid2 h)
  then union_ids (rn_Replid h) (rn_Replid2 h) parent
  else if valid_replid (rn_Replid h) then snd <$> find_id (rn_Replid h) parent
  else if valid_replid (rn_Replid2 h) then snd <$> find_id (rn_Replid2 h) parent
  else Some parent.

Fixpoint connect_all (holders : list RedisNodeState) (parent : forest) : option forest :=
  match holders with
  | [] => Some parent
  | h :: hs => parent' ← connect_holder parent h; connect_all hs parent'
  end.

Definition noreplid_key (i : nat) : string := "__noreplid_" +:+ itoa (Z.of_nat i).

(** Pass 2: the distinct components across the holders. *)
Fixpoint collect_components (i : nat) (holders : list RedisNodeState) (parent : forest)
  (comps : gset string) : option (gset string) :=
  match holders with
  | [] => Some comps
  | h :: hs =>
      if valid_replid (rn_Replid h) then
        '(r, parent') ← find_id (rn_Replid h) parent;
        collect_components (S i) hs parent' ({[r]} ∪ comps)
      else if valid_replid (rn_Replid2 h) then
        '(r, parent') ← find_id (rn_Replid2 h) parent;
        collect_components (S i) hs parent' ({[r]} ∪ comps)
      else collect_components (S i) hs parent ({[noreplid_key i]} ∪ comps)
  end.

Definition holder_components (holders : list RedisNodeState) : option (gset string) :=
  parent ← connect_all holders ∅; collect_components 0 holders parent ∅.

(** [holder_components] always returns a result ([holder_components_spec] below), so
    the default is never used. *)
Definition holdersDiverged (holders : list RedisNodeState) : bool :=
  (1 <? size (default ∅ (holder_components holders)))%nat.

Fixpoint count_writable (holders : list RedisNodeState) (writable : nat) : bool :=
  match holders with
  | [] => false
  | h :: hs =>
      if rn_Role h =? roleMaster
      then if (1 <? S writable)%nat then true else count_writable hs (S writable)
      else count_writable hs writable
  end.

(** More than one holder has been independently writable. *)
Definition holdersForked (holders : list RedisNodeState) : bool := count_writable holders 0.

(** ** The specification: connectivity of replication IDs *)

(** The ID by which pass 2 looks a holder up; [None] is a holder without lineage. *)
Definition lineage_id (h : RedisNodeState) : option string :=
  if valid_replid (rn_Replid h) then Some (rn_Replid h)
  else if valid_replid (rn_Replid2 h) then Some (rn_Replid2 h)
  else None.

(** A promotion or resync rotated one ID into the other. *)
Definition rotated (holders : list RedisNodeState) (a b : string) : Prop :=
  ∃ h, h ∈ holders ∧ rn_Replid h = a ∧ rn_Replid2 h = b ∧
       valid_replid a = true ∧ valid_replid b = true.

(** Connected through any number of rotations, in either direction. *)
Definition one_lineage (holders : list RedisNodeState) : string → string → Prop :=
  rtsc (rotated holders).

(** Holders [h1] and [h2] belong to the same lineage. *)
Definition same_lineage (holders : list RedisNodeState) (h1 h2 : RedisNodeState) : Prop :=
  ∃ a b, lineage_id h1 = Some a ∧ lineage_id h2 = Some b ∧ one_lineage holders a b.

(** ** The forest invariant *)

(** [x] reaches the root [r] in [n] parent steps. *)
Inductive climbs (P : forest) : string → string → nat → Prop :=
| climbs_root x : P !! x = Some x → climbs P x x 0
| climbs_step x p r n : P !! x = Some p → p ≠ x → climbs P p r n → climbs P x r (S n).

Definition rooted (P : forest) (x r : string) : Prop := ∃ n, climbs P x r n.

(** Every registered ID reaches a root: the parent pointers have no cycle. *)
Definition forest_wf (P : forest) : Prop := ∀ x, x ∈ dom P → ∃ r, rooted P x r.

#[local] Hint Constructors climbs : core.

Lemma climbs_fun P x r n : climbs P x r n → ∀ r' n', climbs P x r' n' → r = r' ∧ n = n'.
Proof.
  induction 1 as [x Hx|x p r n Hx Hne _ IH]; intros r' n' H'; inversion H'; subst;
    simplify_eq; try done.
  edestruct IH as [-> ->]; eauto.
Qed.

Lemma rooted_fun P x r r' : rooted P x r → rooted P x r' → r = r'.
Proof. intros [n H] [n' H']. by destruct (climbs_fun _ _ _ _ H _ _ H'). Qed.

Lemma rooted_dom P x r : rooted P x r → x ∈ dom P.
Proof. intros [n H]. apply elem_of_dom. inversion H; subst; eauto. Qed.

Lemma rooted_is_root P x r : rooted P x r → P !! r = Some r.
Proof. intros [n H]. by induction H. Qed.

Lemma rooted_step P x p r : P !! x = Some p → p ≠ x → rooted P p r → rooted P x r.
Proof. intros ?? [n ?]. exists (S n). eauto. Qed.

Lemma rooted_root P x : P !! x = Some x → rooted P x x.
Proof. exists 0%nat. eauto. Qed.

(** The nodes of a climb are pairwise distinct... *)
Lemma climbs_trace P x r n :
  climbs P x r n →
  ∃ l, length l = S n ∧ NoDup l ∧ ∀ y, y ∈ l → ∃ m, (m ≤ n)%nat ∧ climbs P y r m.
Proof.
  induction 1 as [x Hx|x p r n Hx Hne Hp IH].
  - exists [x]. split; [done|]. split; [apply NoDup_singleton|].
    intros y ->%list_elem_of_singleton. eauto.
  - destruct IH as (l & Hlen & Hnd & Hl). exists (x :: l). split; [simpl; lia|]. split.
    + apply NoDup_cons. split; [|done]. intros (m & Hm & Hc)%Hl.
      destruct (climbs_fun _ _ _ _ Hc r (S n)) as [_ ?]; eauto. lia.
    + intros y [->|(m & ? & ?)%Hl]%elem_of_cons; eauto with lia.
Qed.

(** ... so a climb is shorter than the number of registered IDs. *)
Lemma climbs_bound P x r n : climbs P x r n → (n < size P)%nat.
Proof.
  intros (l & Hlen & Hnd & Hl)%climbs_trace.
  enough (length l ≤ size P)%nat by lia.
  rewrite <-(size_dom (D:=gset string)), <-(size_list_to_set (C:=gset string) l) by done.
  apply subseteq_size. intros y (m & _ & Hc)%elem_of_list_to_set%Hl.
  eapply rooted_dom. by exists m.
Qed.

(** Two forests with the same roots. *)
Definition same_roots (P Q : forest) : Prop := ∀ x r, rooted P x r ↔ rooted Q x r.

#[export] Instance same_roots_equiv : Equivalence same_roots.
Proof.
  split.
  - intros P x r. reflexivity.
  - intros P Q H x r. by rewrite (H x r).
  - intros P Q R H1 H2 x r. by rewrite (H1 x r), (H2 x r).
Qed.

(** A forest that keeps the roots of a well-formed one and has no further ID has the
    same roots and is well formed. *)
Lemma same_roots_intro P Q :
  forest_wf P → dom Q = dom P → (∀ x r, rooted P x r → rooted Q x r) →
  same_roots P Q ∧ forest_wf Q.
Proof.
  intros Hwf Hdom Hfwd. split.
  - intros x r. split; [apply Hfwd|]. intros HQ.
    destruct (Hwf x) as [r' Hr']; [rewrite <-Hdom; by eapply rooted_dom|].
    by rewrite (rooted_fun _ _ _ _ HQ (Hfwd _ _ Hr')).
  - intros x Hx. rewrite Hdom in Hx. destruct (Hwf x Hx) as [r Hr]. eauto.
Qed.

(** Path compression keeps the roots. *)
Lemma compress_roots P x r :
  forest_wf P → rooted P x r → same_roots P (<[x := r]> P) ∧ forest_wf (<[x := r]> P).
Proof.
  intros Hwf Hxr. apply same_roots_intro; [done| |].
  - rewrite dom_insert_L. apply rooted_dom in Hxr. set_solver.
  - pose proof (rooted_is_root _ _ _ Hxr) as Hr.
    assert (Hrr : <[x := r]> P !! r = Some r).
    { destruct (decide (x = r)) as [->|]; by simplify_map_eq. }
    intros y s [n Hn]. induction Hn as [y Hy|y p s n Hy Hne Hn IH].
    + apply rooted_root. destruct (decide (y = x)) as [->|]; simplify_map_eq; [|done].
      f_equal. apply (rooted_fun P x); [done|]. by apply rooted_root.
    + destruct (decide (y = x)) as [->|]; [|by eapply rooted_step; simplify_map_eq].
      assert (r = s) as ->.
      { apply (rooted_fun P x); [done|]. exists (S n). by econstructor. }
      destruct (decide (s = x)) as [->|]; [by apply rooted_root|].
      eapply rooted_step; [by simplify_map_eq|done|by apply rooted_root].
Qed.

(** Registering a new ID. *)
Lemma register_roots P x :
  forest_wf P → P !! x = None →
  (∀ y r, rooted (<[x := x]> P) y r ↔ rooted P y r ∨ (y = x ∧ r = x)) ∧
  forest_wf (<[x := x]> P).
Proof.
  intros Hwf Hx. set (Q := <[x := x]> P).
  assert (Hfwd : ∀ y r, rooted P y r → rooted Q y r).
  { intros y r [n Hn]. induction Hn as [y Hy|y p r n Hy Hne _ IH].
    - apply rooted_root. unfold Q. destruct (decide (x = y)) as [->|]; by simplify_map_eq.
    - eapply rooted_step; [|exact Hne|exact IH]. unfold Q.
      destruct (decide (x = y)) as [->|]; by simplify_map_eq. }
  assert (Hnew : rooted Q x x) by (apply rooted_root; unfold Q; by simplify_map_eq).
  split.
  - intros y r. split; [|intros [?|[-> ->]]; auto]. intros HQ.
    destruct (decide (y = x)) as [->|Hne]; [right; eauto using rooted_fun|]. left.
    pose proof (rooted_dom _ _ _ HQ) as Hy. unfold Q in Hy. rewrite dom_insert_L in Hy.
    destruct (Hwf y) as [r' Hr']; [set_solver|].
    by rewrite (rooted_fun _ _ _ _ HQ (Hfwd _ _ Hr')).
  - intros y Hy. unfold Q in Hy. rewrite dom_insert_L in Hy.
    apply elem_of_union in Hy as [->%elem_of_singleton|Hy]; [eauto|].
    destruct (Hwf y Hy) as [r Hr]. eauto.
Qed.

(** Hanging the root [a] below the root [b] merges their two trees. *)
Lemma link_roots P a b :
  forest_wf P → P !! a = Some a → P !! b = Some b →
  (∀ y r, rooted (<[a := b]> P) y r ↔
     ∃ s, rooted P y s ∧ r = (if decide (s = a) then b else s)) ∧
  forest_wf (<[a := b]> P).
Proof.
  intros Hwf Ha Hb. set (Q := <[a := b]> P).
  assert (HbQ : Q !! b = Some b).
  { unfold Q. destruct (decide (a = b)) as [->|]; by simplify_map_eq. }
  assert (Hfwd : ∀ y s, rooted P y s → rooted Q y (if decide (s = a) then b else s)).
  { intros y s [n Hn]. induction Hn as [y Hy|y p s n Hy Hne _ IH].
    - case_decide as Hya; [subst y|apply rooted_root; unfold Q; by simplify_map_eq].
      destruct (decide (b = a)) as [->|]; [by apply rooted_root|].
      eapply rooted_step; [unfold Q; by simplify_map_eq|done|by apply rooted_root].
    - eapply rooted_step; [|exact Hne|exact IH]. unfold Q.
      destruct (decide (a = y)) as [->|]; by simplify_map_eq. }
  assert (Hdom : dom Q = dom P).
  { unfold Q. rewrite dom_insert_L. apply elem_of_dom_2 in Ha. set_solver. }
  split.
  - intros y r. split; [|intros (s & ? & ->); auto]. intros HQ.
    destruct (Hwf y) as [s Hs]; [rewrite <-Hdom; by eapply rooted_dom|].
    exists s. split; [done|]. exact (rooted_fun _ _ _ _ HQ (Hfwd _ _ Hs)).
  - intros y Hy. rewrite Hdom in Hy. destruct (Hwf y Hy) as [s Hs]. eauto.
Qed.

(** *** [find] returns the root and keeps the roots *)

Lemma uf_find_climbs P x r n fuel :
  forest_wf P → climbs P x r n → (n < fuel)%nat →
  ∃ Q, uf_find fuel x P = Some (r, Q) ∧ same_roots P Q ∧ forest_wf Q.
Proof.
  intros Hwf Hc. revert fuel.
  induction Hc as [x Hx|x p r n Hx Hne Hp IH]; intros [|fuel] Hf; try lia; simpl; rewrite Hx.
  - rewrite String.eqb_refl. exists P. split; [done|]. split; [reflexivity|done].
  - destruct (IH fuel) as (Q & -> & HPQ & HQ); [lia|].
    rewrite (proj2 (String.eqb_neq p x) Hne).
    destruct (compress_roots Q x r) as [HQ1 HQ2]; [done| |].
    { apply HPQ. exists (S n). by econstructor. }
    eexists. split; [done|]. split; [by etrans|done].
Qed.

Lemma find_id_registered P x :
  forest_wf P → x ∈ dom P →
  ∃ r Q, find_id x P = Some (r, Q) ∧ rooted P x r ∧ same_roots P Q ∧ forest_wf Q.
Proof.
  intros Hwf Hx. destruct (Hwf x Hx) as [r [n Hn]].
  destruct (uf_find_climbs P x r n (S (size P))) as (Q & HQ & Hs & HwfQ); [done|done| |].
  { apply climbs_bound in Hn. lia. }
  exists r, Q. split; [done|]. split; [by exists n|done].
Qed.

Lemma find_id_fresh P x : P !! x = None → find_id x P = Some (x, <[x := x]> P).
Proof. intros Hx. unfold find_id. simpl. by rewrite Hx. Qed.

(** *** The union-find represents the equivalence closure of the processed edges *)

Record represents (E : relation string) (K : string → Prop) (P : forest) : Prop := {
  rep_wf : forest_wf P;
  rep_dom : ∀ x, x ∈ dom P ↔ K x;
  rep_edge : ∀ x y, E x y → K x ∧ K y;
  rep_eq : ∀ x y, (∃ r, rooted P x r ∧ rooted P y r) ↔ K x ∧ K y ∧ rtsc E x y;
}.

Lemma represents_ext E E' K K' P :
  (∀ x y, E x y ↔ E' x y) → (∀ x, K x ↔ K' x) → represents E K P → represents E' K' P.
Proof.
  intros HE HK [Hwf Hdom Hedge Heq]. split; [done| | |].
  - intros x. by rewrite Hdom, HK.
  - intros x y. rewrite <-HE, <-!HK. apply Hedge.
  - intros x y. rewrite Heq, !HK.
    enough (rtsc E x y ↔ rtsc E' x y) as -> by done.
    split; apply rtc_subrel; intros ?? [?|?]; [left|right|left|right]; by apply HE.
Qed.

Lemma represents_same_roots E K P Q :
  same_roots P Q → forest_wf Q → represents E K P → represents E K Q.
Proof.
  intros HPQ HQ [Hwf Hdom Hedge Heq]. split; [done| |done|].
  - intros x. rewrite <-Hdom. split; intros Hx.
    + destruct (HQ x Hx) as [r Hr]. by eapply rooted_dom, HPQ.
    + destruct (Hwf x Hx) as [r Hr]. by eapply rooted_dom, HPQ.
  - intros x y. rewrite <-Heq. split; intros (r & Hx & Hy); exists r; split; by apply HPQ.
Qed.

Lemma rtsc_isolated (E : relation string) (K : string → Prop) x y :
  (∀ a b, E a b → K a ∧ K b) → ¬ K x → rtsc E x y → x = y.
Proof.
  intros HE Hx Hr. inversion Hr as [|? z ? Hsc]; [done|]. exfalso.
  destruct Hsc as [Hsc|Hsc]; by destruct (HE _ _ Hsc).
Qed.

Lemma represents_root E K P x r : represents E K P → rooted P x r → K x ∧ K r.
Proof.
  intros HP Hr. split; apply (rep_dom _ _ _ HP); [by eapply rooted_dom|].
  by eapply rooted_dom, rooted_root, rooted_is_root.
Qed.

(** Registering an ID that no edge mentions. *)
Lemma represents_register E K P x :
  represents E K P → P !! x = None → represents E (λ y, K y ∨ y = x) (<[x := x]> P).
Proof.
  intros HP Hx. pose proof HP as [Hwf Hdom Hedge Heq].
  destruct (register_roots P x Hwf Hx) as [Hroots HwfQ].
  assert (HnK : ¬ K x) by (rewrite <-Hdom; by apply not_elem_of_dom).
  split; [done| |intros y z [??]%Hedge; by split; left|].
  - intros y. rewrite dom_insert_L, elem_of_union, elem_of_singleton, Hdom. tauto.
  - intros y z. split.
    + intros (r & [Hy|[-> ->]]%Hroots & [Hz|[-> Hrx]]%Hroots).
      * destruct (proj1 (Heq y z)) as (? & ? & ?); eauto.
      * subst. by destruct HnK, (represents_root _ _ _ _ _ HP Hy).
      * by destruct HnK, (represents_root _ _ _ _ _ HP Hz).
      * split; [by right|]. split; [by right|]. reflexivity.
    + intros ([Hy| ->] & [Hz| ->] & Hr).
      * destruct (proj2 (Heq y z)) as (r & ? & ?); [done|].
        exists r. split; apply Hroots; by left.
      * apply (symmetry (R:=rtsc E)), (rtsc_isolated E K) in Hr; by subst.
      * apply (rtsc_isolated E K) in Hr; by subst.
      * exists x. split; apply Hroots; by right.
Qed.

Lemma represents_find E K P x :
  represents E K P →
  ∃ r Q, find_id x P = Some (r, Q) ∧ rooted Q x r ∧ (∀ y s, rooted P y s → rooted Q y s) ∧
         represents E (λ y, K y ∨ y = x) Q.
Proof.
  intros HP. destruct (P !! x) as [p|] eqn:Hx.
  - apply elem_of_dom_2 in Hx.
    destruct (find_id_registered P x) as (r & Q & HQ & Hr & Hs & HwfQ);
      [apply HP|done|].
    exists r, Q. split; [done|]. split; [by apply Hs|]. split; [intros ??; by apply Hs|].
    apply (represents_ext E E K); [done| |by eapply represents_same_roots].
    intros y. split; [by left|intros [?| ->]; [done|]]. by apply (rep_dom _ _ _ HP).
  - exists x, (<[x := x]> P). rewrite find_id_fresh by done. split; [done|].
    split; [apply rooted_root; by simplify_map_eq|]. split; [|by apply represents_register].
    intros y s ?. apply (register_roots P x); [apply HP|done|by left].
Qed.

(** The edges of the merged classes, seen through the merged roots. *)
Lemma linked_step E K P a b ra rb x y r :
  represents E K P → rooted P a ra → rooted P b rb →
  sc (λ x y, E x y ∨ (x = a ∧ y = b)) x y →
  (∃ s, rooted P x s ∧ r = (if decide (s = ra) then rb else s)) →
  ∃ s, rooted P y s ∧ r = (if decide (s = ra) then rb else s).
Proof.
  intros HP Ha Hb Hsc (s & Hs & Hr).
  assert (HE : ∀ u v, E u v ∨ E v u → rooted P u s → rooted P v s).
  { intros u v Huv Hu. destruct (proj2 (rep_eq _ _ _ HP u v)) as (t & Ht & ?).
    - destruct Huv as [Huv|Huv]; destruct (rep_edge _ _ _ HP _ _ Huv);
        eauto using rtsc_lr, rtsc_rl.
    - by rewrite (rooted_fun _ _ _ _ Hu Ht). }
  destruct Hsc as [[?|[-> ->]]|[?|[-> ->]]]; eauto.
  - exists rb. split; [done|]. rewrite (rooted_fun _ _ _ _ Hs Ha) in Hr.
    rewrite decide_True in Hr by done. by case_decide.
  - exists ra. split; [done|]. rewrite decide_True by done.
    rewrite (rooted_fun _ _ _ _ Hs Hb) in Hr. by case_decide.
Qed.

Lemma represents_link E K P a b ra rb :
  represents E K P → rooted P a ra → rooted P b rb →
  represents (λ x y, E x y ∨ (x = a ∧ y = b)) K (<[ra := rb]> P).
Proof.
  intros HP Ha Hb. pose proof HP as [Hwf Hdom Hedge Heq].
  pose proof (rooted_is_root _ _ _ Ha) as Hra. pose proof (rooted_is_root _ _ _ Hb) as Hrb.
  destruct (link_roots P ra rb Hwf Hra Hrb) as [Hroots HwfQ].
  set (E' := λ x y, E x y ∨ (x = a ∧ y = b)).
  assert (HP' : ∀ x y r, rooted P x r → rooted P y r → rtsc E' x y).
  { intros x y r Hx Hy. destruct (proj1 (Heq x y)) as (_ & _ & Hxy); [eauto|].
    revert Hxy. apply rtc_subrel. intros ?? [?|?]; [left|right]; by left. }
  assert (Hab : rtsc E' a b) by (apply rtsc_lr; by right).
  split; [done| | |].
  { intros x. rewrite <-Hdom, dom_insert_L. apply elem_of_dom_2 in Hra. set_solver. }
  { intros x y [?|[-> ->]]; [by apply Hedge|]. split; apply Hdom; by eapply rooted_dom. }
  intros x y. split.
  - intros (r & (s & Hs & ->)%Hroots & (t & Ht & Hst)%Hroots).
    split; [apply Hdom; by eapply rooted_dom|]. split; [apply Hdom; by eapply rooted_dom|].
    case_decide; case_decide; subst.
    + eauto.
    + transitivity a; [eauto|]. transitivity b; eauto.
    + transitivity b; [eauto|]. transitivity a; [by symmetry|eauto].
    + eauto.
  - intros (Hx & _ & Hr). apply Hdom in Hx. destruct (Hwf x Hx) as [s Hs].
    exists (if decide (s = ra) then rb else s). split; apply Hroots; [eauto|].
    clear Hx. assert (Hx : ∃ s', rooted P x s' ∧ (if decide (s = ra) then rb else s)
      = (if decide (s' = ra) then rb else s')) by eauto. clear Hs.
    induction Hr as [|x z y Hsc _ IH]; [done|]. apply IH. by eapply linked_step.
Qed.

(** *** Pass 1 *)

Definition mentioned (holders : list RedisNodeState) (a : string) : Prop :=
  ∃ h, h ∈ holders ∧ (rn_Replid h = a ∨ rn_Replid2 h = a) ∧ valid_replid a = true.

Lemma lineage_id_mentioned h a :
  lineage_id h = Some a → (rn_Replid h = a ∨ rn_Replid2 h = a) ∧ valid_replid a = true.
Proof. unfold lineage_id. intros Ha. repeat case_match; simplify_eq; auto. Qed.

Lemma represents_empty : represents (rotated []) (mentioned []) ∅.
Proof.
  assert (Hno : ∀ x r, ¬ rooted ∅ x r).
  { intros x r Hr%rooted_dom. by rewrite dom_empty_L in Hr. }
  split.
  - intros x Hx. by rewrite dom_empty_L in Hx.
  - intros x. rewrite dom_empty_L. split; [done|]. intros (h & Hh & _). by apply not_elem_of_nil in Hh.
  - intros x y (h & Hh & _). by apply not_elem_of_nil in Hh.
  - intros x y. split; [intros (r & Hr & _); by destruct (Hno x r)|].
    intros ((h & Hh & _) & _). by apply not_elem_of_nil in Hh.
Qed.

Lemma rotated_snoc l h x y :
  rotated (l ++ [h]) x y ↔
  rotated l x y ∨ (x = rn_Replid h ∧ y = rn_Replid2 h ∧
                   valid_replid (rn_Replid h) = true ∧ valid_replid (rn_Replid2 h) = true).
Proof.
  unfold rotated. split.
  - intros (h' & [Hh|Hh]%elem_of_app & <- & <- & ?); [left; eauto|].
    apply list_elem_of_singleton in Hh as ->. by right.
  - intros [(h' & Hh & ?)|(-> & -> & ? & ?)]; [exists h'|exists h]; rewrite elem_of_app.
    + split; [by left|done].
    + rewrite list_elem_of_singleton. split; [by right|done].
Qed.

Lemma mentioned_snoc l h x :
  mentioned (l ++ [h]) x ↔
  mentioned l x ∨ ((x = rn_Replid h ∨ x = rn_Replid2 h) ∧ valid_replid x = true).
Proof.
  unfold mentioned. split.
  - intros (h' & [Hh|Hh]%elem_of_app & Hx & ?); [left; eauto|].
    apply list_elem_of_singleton in Hh as ->. right. destruct Hx; auto.
  - intros [(h' & Hh & ?)|(Hx & ?)]; [exists h'|exists h]; rewrite elem_of_app.
    + split; [by left|done].
    + rewrite list_elem_of_singleton. split; [by right|]. destruct Hx; auto.
Qed.

Lemma represents_connect l h P :
  represents (rotated l) (mentioned l) P →
  ∃ Q, connect_holder P h = Some Q ∧ represents (rotated (l ++ [h])) (mentioned (l ++ [h])) Q.
Proof.
  intros HP. unfold connect_holder.
  destruct (valid_replid (rn_Replid h)) eqn:H1, (valid_replid (rn_Replid2 h)) eqn:H2; simpl.
  - destruct (represents_find _ _ P (rn_Replid h) HP) as (ra & P1 & Hf1 & Hra & _ & HP1).
    destruct (represents_find _ _ P1 (rn_Replid2 h) HP1) as (rb & P2 & Hf2 & Hrb & Hk & HP2).
    unfold union_ids. rewrite Hf1. simpl. rewrite Hf2. simpl. eexists. split; [done|].
    eapply represents_ext; [| |exact (represents_link _ _ _ _ _ _ _ HP2 (Hk _ _ Hra) Hrb)].
    + intros x y. rewrite rotated_snoc, H1, H2. tauto.
    + intros x. rewrite mentioned_snoc. split; [|intros [?|[[]?]]; auto].
      intros [[?| ->]| ->]; auto.
  - destruct (represents_find _ _ P (rn_Replid h) HP) as (ra & P1 & -> & _ & _ & HP1).
    eexists. split; [done|]. eapply represents_ext; [| |exact HP1].
    + intros x y. rewrite rotated_snoc, H2. naive_solver.
    + intros x. rewrite mentioned_snoc. split; [intros [?| ->]; auto|].
      intros [?|[[->| ->] ?]]; auto. congruence.
  - destruct (represents_find _ _ P (rn_Replid2 h) HP) as (ra & P1 & -> & _ & _ & HP1).
    eexists. split; [done|]. eapply represents_ext; [| |exact HP1].
    + intros x y. rewrite rotated_snoc, H1. naive_solver.
    + intros x. rewrite mentioned_snoc. split; [intros [?| ->]; auto|].
      intros [?|[[->| ->] ?]]; auto. congruence.
  - eexists. split; [done|]. eapply represents_ext; [| |exact HP].
    + intros x y. rewrite rotated_snoc, H1. naive_solver.
    + intros x. rewrite mentioned_snoc. split; [by left|].
      intros [?|[[->| ->] ?]]; [done|congruence|congruence].
Qed.

Lemma represents_connect_all hs l P :
  represents (rotated l) (mentioned l) P →
  ∃ Q, connect_all hs P = Some Q ∧ represents (rotated (l ++ hs)) (mentioned (l ++ hs)) Q.
Proof.
  revert l P. induction hs as [|h hs IH]; intros l P HP; simpl.
  - exists P. by rewrite app_nil_r.
  - destruct (represents_connect l h P HP) as (Q & -> & HQ). simpl.
    destruct (IH _ _ HQ) as (Q' & -> & HQ'). exists Q'. by rewrite <-(assoc_L app) in HQ'.
Qed.

(** *** Pass 2 *)

(** The component key of the [i]-th holder: the root of its ID, or its own key. *)
Definition component_key (P : forest) (i : nat) (h : RedisNodeState) (k : string) : Prop :=
  match lineage_id h with
  | Some a => rooted P a k
  | None => k = noreplid_key i
  end.

Lemma component_key_same P Q i h k :
  same_roots P Q → component_key P i h k ↔ component_key Q i h k.
Proof. intros HPQ. unfold component_key. destruct (lineage_id h); [apply HPQ|done]. Qed.

(** One round of pass 2 adds the holder's key and keeps the roots. *)
Lemma collect_components_cons i h hs P comps :
  forest_wf P → (∀ a, lineage_id h = Some a → a ∈ dom P) →
  ∃ Q key, forest_wf Q ∧ same_roots P Q ∧ (∀ k, component_key P i h k ↔ k = key) ∧
    collect_components i (h :: hs) P comps = collect_components (S i) hs Q ({[key]} ∪ comps).
Proof.
  intros Hwf Hdom.
  assert (Hfind : ∀ a, lineage_id h = Some a → ∃ Q key, forest_wf Q ∧ same_roots P Q ∧
    (∀ k, component_key P i h k ↔ k = key) ∧ find_id a P = Some (key, Q)).
  { intros a Ha. destruct (find_id_registered P a) as (r & Q & HQ & Hr & Hs & HwfQ); auto.
    exists Q, r. split; [done|]. split; [done|]. split; [|done].
    intros k. unfold component_key. rewrite Ha. split; [|by intros ->].
    intros Hk. by eapply rooted_fun. }
  unfold collect_components; fold collect_components. unfold lineage_id in Hfind.
  destruct (valid_replid (rn_Replid h)) eqn:H1; [|destruct (valid_replid (rn_Replid2 h)) eqn:H2].
  - destruct (Hfind (rn_Replid h)) as (Q & key & ? & ? & ? & ->); [done|]. by exists Q, key.
  - destruct (Hfind (rn_Replid2 h)) as (Q & key & ? & ? & ? & ->); [done|]. by exists Q, key.
  - exists P, (noreplid_key i). split; [done|]. split; [reflexivity|]. split; [|done].
    intros k. unfold component_key, lineage_id. by rewrite H1, H2.
Qed.

Lemma collect_components_spec hs : ∀ i P comps,
  forest_wf P → (∀ h a, h ∈ hs → lineage_id h = Some a → a ∈ dom P) →
  ∃ C, collect_components i hs P comps = Some C ∧
       ∀ k, k ∈ C ↔ k ∈ comps ∨ ∃ j h, hs !! j = Some h ∧ component_key P (i + j) h k.
Proof.
  induction hs as [|h hs IH]; intros i P comps Hwf Hdom; simpl.
  { exists comps. split; [done|]. intros k. split; [by left|].
    intros [?|(j & h & Hj & _)]; [done|]. by rewrite lookup_nil in Hj. }
  destruct (collect_components_cons i h hs P comps Hwf)
    as (Q & key & HwfQ & HPQ & Hkey & Hcol); [intros a; apply Hdom; left|].
  simpl in Hcol. rewrite Hcol.
  destruct (IH (S i) Q ({[key]} ∪ comps) HwfQ) as (C & HC & Hk).
  { intros h' a Hh' Ha. destruct (Hwf a) as [r Hr]; [by eapply Hdom; [right|]|].
    eapply rooted_dom. by apply HPQ. }
  exists C. split; [done|]. intros k. rewrite Hk, elem_of_union, elem_of_singleton.
  split.
  - intros [[->|?]|(j & h' & Hj & Hc)]; [right; exists 0%nat, h|by left|right; exists (S j), h'].
    + split; [done|]. rewrite Nat.add_0_r. by apply Hkey.
    + split; [done|]. rewrite Nat.add_succ_r. by apply (component_key_same P Q).
  - intros [?|(j & h' & Hj & Hc)]; [by left; right|]. destruct j as [|j]; simplify_eq/=.
    + left. left. rewrite Nat.add_0_r in Hc. by apply Hkey.
    + right. exists j, h'. split; [done|]. rewrite Nat.add_succ_r in Hc.
      by apply (component_key_same P Q).
Qed.

(** [holder_components] returns, and its components are the keys of the holders. *)
Lemma holder_components_spec holders :
  ∃ P C, holder_components holders = Some C ∧
    represents (rotated holders) (mentioned holders) P ∧
    ∀ k, k ∈ C ↔ ∃ j h, holders !! j = Some h ∧ component_key P j h k.
Proof.
  destruct (represents_connect_all holders [] ∅ represents_empty) as (P & HP & Hrep).
  unfold holder_components. rewrite HP. simpl in *.
  destruct (collect_components_spec holders 0 P ∅) as (C & HC & Hk); [apply Hrep| |].
  - intros h a Hh Ha. apply (rep_dom _ _ _ Hrep). exists h. split; [done|].
    by apply lineage_id_mentioned.
  - exists P, C. split; [done|]. split; [done|]. intros k. rewrite Hk. simpl.
    split; [intros [?|?]; [set_solver|done]|by right].
Qed.

Lemma size_gt_1 (C : gset string) : (1 < size C)%nat ↔ ∃ a b, a ∈ C ∧ b ∈ C ∧ a ≠ b.
Proof.
  split.
  - intros Hs. destruct (set_choose_L C) as [a Ha]; [intros ->; rewrite size_empty in Hs; lia|].
    destruct (set_choose_L (C ∖ {[a]})) as [b Hb].
    { intros He. assert (C = {[a]}) as HC; [|rewrite HC, size_singleton in Hs; lia].
      apply set_eq. intros x. rewrite elem_of_singleton. split; [|by intros ->].
      intros Hx. destruct (decide (x = a)); [done|].
      assert (x ∈ C ∖ {[a]}) as Hin by (apply elem_of_difference; split; [done|by rewrite elem_of_singleton]).
      rewrite He in Hin. by apply elem_of_empty in Hin. }
    apply elem_of_difference in Hb as [Hb Hba]. rewrite elem_of_singleton in Hba.
    exists a, b. auto.
  - intros (a & b & Ha & Hb & Hab).
    assert (size ({[a; b]} : gset string) ≤ size C)%nat by (apply subseteq_size; set_solver).
    rewrite size_union, !size_singleton in * by set_solver. lia.
Qed.

(** Replication IDs as the servers report them: never one of the keys the function makes
    up for the holders without lineage. *)
Definition replids_reported (holders : list RedisNodeState) : Prop :=
  ∀ h, h ∈ holders → has_prefix (rn_Replid h) "__noreplid_" = false ∧
                      has_prefix (rn_Replid2 h) "__noreplid_" = false.

Lemma mentioned_not_key holders a i :
  replids_reported holders → mentioned holders a → a ≠ noreplid_key i.
Proof.
  intros Hrep (h & Hh & Ha & _) ->. destruct (Hrep h Hh) as [H1 H2].
  assert (Hp : has_prefix (noreplid_key i) "__noreplid_" = true).
  { apply has_prefix_app. }
  destruct Ha as [Ha|Ha]; rewrite Ha in *; congruence.
Qed.

Lemma noreplid_key_inj i j : noreplid_key i = noreplid_key j → i = j.
Proof.
  unfold noreplid_key. intros H. apply (inj (String.append "__noreplid_")) in H.
  apply itoa_inj in H. lia.
Qed.

Lemma component_key_total holders P i h :
  represents (rotated holders) (mentioned holders) P → holders !! i = Some h →
  ∃ k, component_key P i h k.
Proof.
  intros HP Hi. unfold component_key. destruct (lineage_id h) as [a|] eqn:Ha; [|eauto].
  apply (rep_wf _ _ _ HP), (rep_dom _ _ _ HP). exists h.
  split; [by eapply list_elem_of_lookup_2|].
  by apply lineage_id_mentioned.
Qed.

(** Two holders with the same component key are one holder or of one lineage. *)
Lemma component_key_meet holders P i j hi hj k :
  replids_reported holders → represents (rotated holders) (mentioned holders) P →
  component_key P i hi k → component_key P j hj k → i = j ∨ same_lineage holders hi hj.
Proof.
  intros Hrep HP Hi Hj. unfold component_key in *.
  destruct (lineage_id hi) as [a|] eqn:Ha, (lineage_id hj) as [b|] eqn:Hb.
  - right. exists a, b. split; [done|]. split; [done|]. apply (rep_eq _ _ _ HP). eauto.
  - subst k. exfalso. eapply mentioned_not_key; [done| |done]. by eapply represents_root.
  - subst k. exfalso. eapply mentioned_not_key; [done| |done]. by eapply represents_root.
  - left. apply noreplid_key_inj. congruence.
Qed.

Lemma holdersDiverged_pairs holders :
  replids_reported holders →
  holdersDiverged holders = true ↔
  ∃ i j hi hj, i ≠ j ∧ holders !! i = Some hi ∧ holders !! j = Some hj ∧
               ¬ same_lineage holders hi hj.
Proof.
  intros Hrep. destruct (holder_components_spec holders) as (P & C & HC & HP & Hk).
  unfold holdersDiverged. rewrite HC. simpl. rewrite Nat.ltb_lt, size_gt_1.
  split.
  - intros (a & b & (i & hi & Hi & Hki)%Hk & (j & hj & Hj & Hkj)%Hk & Hab).
    exists i, j, hi, hj. split; [|split; [done|split; [done|]]].
    + intros <-. simplify_eq. unfold component_key in *.
      destruct (lineage_id hi); [exact (Hab (rooted_fun _ _ _ _ Hki Hkj))|congruence].
    + intros (x & y & Hx & Hy & Hxy). unfold component_key in *.
      rewrite Hx in Hki. rewrite Hy in Hkj.
      destruct (proj2 (rep_eq _ _ _ HP x y)) as (r & Hr1 & Hr2).
      { split; [exact (proj1 (represents_root _ _ _ _ _ HP Hki))|].
        split; [exact (proj1 (represents_root _ _ _ _ _ HP Hkj))|done]. }
      apply Hab. by rewrite (rooted_fun _ _ _ _ Hki Hr1), (rooted_fun _ _ _ _ Hkj Hr2).
  - intros (i & j & hi & hj & Hij & Hi & Hj & Hns).
    destruct (component_key_total holders P i hi HP Hi) as [a Ha].
    destruct (component_key_total holders P j hj HP Hj) as [b Hb].
    exists a, b. split; [apply Hk; eauto|]. split; [apply Hk; eauto|].
    intros ->. by destruct (component_key_meet holders P i j hi hj b Hrep HP Ha Hb).
Qed.

Lemma holdersDiverged_false holders :
  replids_reported holders →
  holdersDiverged holders = false ↔
  ∀ i j hi hj, i ≠ j → holders !! i = Some hi → holders !! j = Some hj →
               same_lineage holders hi hj.
Proof.
  intros Hrep. split.
  - destruct (holder_components_spec holders) as (P & C & HC & HP & Hk).
    unfold holdersDiverged. rewrite HC. simpl. intros Hsz i j hi hj Hij Hi Hj.
    destruct (component_key_total holders P i hi HP Hi) as [a Ha].
    destruct (component_key_total holders P j hj HP Hj) as [b Hb].
    destruct (decide (a = b)) as [->|Hab].
    + by destruct (component_key_meet holders P i j hi hj b Hrep HP Ha Hb).
    + apply Nat.ltb_ge in Hsz. assert (1 < size C)%nat; [|lia].
      apply size_gt_1. exists a, b. split; [apply Hk; eauto|]. split; [apply Hk; eauto|done].
  - intros Hall. destruct (holdersDiverged holders) eqn:E; [|done].
    apply holdersDiverged_pairs in E as (i & j & hi & hj & Hij & Hi & Hj & []); eauto.
Qed.

Lemma same_lineage_permutation l1 l2 h h' :
  l1 ≡ₚ l2 → same_lineage l1 h h' → same_lineage l2 h h'.
Proof.
  intros Hp (a & b & Ha & Hb & Hab). exists a, b. split; [done|]. split; [done|].
  revert Hab. apply rtsc_congruence with (f := id).
  intros x y (g & Hg & ?). exists g. by rewrite <-Hp.
Qed.

(** The verdict does not depend on the order in which the holders are listed. *)
Lemma holdersDiverged_permutation l1 l2 :
  replids_reported l1 → l1 ≡ₚ l2 → holdersDiverged l1 = holdersDiverged l2.
Proof.
  intros H1 Hp.
  assert (Hle : ∀ l l', replids_reported l → l ≡ₚ l' →
    holdersDiverged l = true → holdersDiverged l' = true).
  { intros l l' Hl Hpl (i & j & hi & hj & Hij & Hi & Hj & Hn)%holdersDiverged_pairs; [|done].
    apply holdersDiverged_pairs; [intros h Hh; apply Hl; by rewrite Hpl|].
    pose proof (proj1 (Permutation_inj l l') Hpl) as (_ & f & Hf & Hlk).
    exists (f i), (f j), hi, hj. rewrite <-!Hlk.
    split; [by intros ?%(inj f)|]. split; [done|]. split; [done|].
    intros Hs. by eapply Hn, same_lineage_permutation. }
  apply eq_true_iff_eq. split; apply Hle; [done|done| |done].
  intros h Hh. apply H1. by rewrite Hp.
Qed.

Definition writable (h : RedisNodeState) : bool := rn_Role h =? roleMaster.

Lemma count_writable_length l : ∀ w, (w ≤ 1)%nat →
  count_writable l w = (1 <? w + length (bfilter writable l))%nat.
Proof.
  unfold bfilter. induction l as [|h l IH]; intros w Hw; simpl.
  - symmetry. apply Nat.ltb_ge. lia.
  - unfold writable at 1. destruct (rn_Role h =? roleMaster); simpl.
    + destruct w as [|[|w]]; [by rewrite IH by lia|done|lia].
    + by apply IH.
Qed.

Lemma holdersForked_length l :
  holdersForked l = (1 <? length (bfilter writable l))%nat.
Proof. unfold holdersForked. rewrite count_writable_length by lia. done. Qed.

Lemma holdersForked_permutation l1 l2 : l1 ≡ₚ l2 → holdersForked l1 = holdersForked l2.
Proof.
  intros Hp. rewrite !holdersForked_length.
  by rewrite (Permutation_length (bfilter_permutation writable _ _ Hp)).
Qed.

(** Divergence is exactly disconnection: [holdersDiverged] answers true if and only if
    two of the holders do not belong to one lineage, where a lineage is a connected
    component of the graph whose edges are the [replid]/[replid2] pairs and a holder
    without any ID is a lineage of its own.  The answer is always produced: the union-find
    recursion terminates on every input. *)
Theorem holdersDiverged_spec (holders : list RedisNodeState) :
  replids_reported holders →
  is_Some (holder_components holders) ∧
  (holdersDiverged holders = true ↔
   ∃ i j hi hj, i ≠ j ∧ holders !! i = Some hi ∧ holders !! j = Some hj ∧
                ¬ same_lineage holders hi hj).
Proof.
  intros Hrep. split; [|by apply holdersDiverged_pairs].
  destruct (holder_components_spec holders) as (P & C & -> & _). eauto.
Qed.

(** A promotion chain D → A → B is one lineage; adding an unrelated holder diverges. *)
Definition lineage_node (ip replid replid2 : string) : RedisNodeState :=
  mkRedisNode ip ip "slave" "" "" 10 5 replid replid2 true ProbeOK "".

Definition lineage_example : list RedisNodeState :=
  [lineage_node "10.0.0.1" "aaaa" "dddd"; lineage_node "10.0.0.2" "bbbb" "aaaa";
   lineage_node "10.0.0.3" "cccc" "0000"].

Lemma holdersDiverged_spec_witness :
  holdersDiverged lineage_example = true ∧
  ∃ i j hi hj, i ≠ j ∧ lineage_example !! i = Some hi ∧ lineage_example !! j = Some hj ∧
               ¬ same_lineage lineage_example hi hj.
Proof.
  split; [reflexivity|].
  apply (holdersDiverged_spec lineage_example); [|reflexivity].
  intros h Hh. repeat (apply elem_of_cons in Hh as [->|Hh]; [by split|]).
  by apply not_elem_of_nil in Hh.
Defined.
