(* ===== verification/ReplicationState.v ===== *)
(** * The gathered replication state (src/internal/redis/replication_state.go)

    The combined view of the data pods and the Sentinels of a sentinel- or failover-mode
    instance, the master it determines, the data holders it elects from and the predicates
    the recovery rules read. *)

From stdpp Require Import relations.
From S2P Require Import Prelude GoStrings Probe ClusterState ReplicationTypes Lineage.

Open Scope Z_scope.
Open Scope go_scope.

(** ** Definitions *)

Record ReplicationState := mkReplicationState {
  rs_RedisNodes : gmap string RedisNodeState;
  rs_SentinelNodes : gmap string SentinelNodeState;
  rs_LiveTopologyIPs : gset string;
  rs_OwnedIPs : gset string;
  rs_RealMasterIP : string;
  rs_FailoverReported : bool;
  rs_FailoverProgressing : bool;
}.

Definition NewReplicationState : ReplicationState :=
  mkReplicationState ∅ ∅ ∅ ∅ "" false false.

Definition set_RealMasterIP (s : ReplicationState) (ip : string) : ReplicationState :=
  mkReplicationState (rs_RedisNodes s) (rs_SentinelNodes s) (rs_LiveTopologyIPs s)
    (rs_OwnedIPs s) ip (rs_FailoverReported s) (rs_FailoverProgressing s).

Definition set_Failover (s : ReplicationState) (reported progressing : bool)
  : ReplicationState :=
  mkReplicationState (rs_RedisNodes s) (rs_SentinelNodes s) (rs_LiveTopologyIPs s)
    (rs_OwnedIPs s) (rs_RealMasterIP s) reported progressing.

Definition set_IPs (s : ReplicationState) (live owned : gset string) : ReplicationState :=
  mkReplicationState (rs_RedisNodes s) (rs_SentinelNodes s) live owned
    (rs_RealMasterIP s) (rs_FailoverReported s) (rs_FailoverProgressing s).

Definition AddLiveTopologyIP (s : ReplicationState) (ip : string) : ReplicationState :=
  if ip =? "" then s
  else set_IPs s ({[ip]} ∪ rs_LiveTopologyIPs s) ({[ip]} ∪ rs_OwnedIPs s).

Definition AddOwnedIP (s : ReplicationState) (ip : string) : ReplicationState :=
  if ip =? "" then s else set_IPs s (rs_LiveTopologyIPs s) ({[ip]} ∪ rs_OwnedIPs s).

Definition IsGhost (s : ReplicationState) (ip : string) : bool :=
  if ip =? "" then false else negb (bool_decide (ip ∈ rs_LiveTopologyIPs s)).

Definition IsOurs (s : ReplicationState) (ip : string) : bool :=
  if ip =? "" then false else bool_decide (ip ∈ rs_OwnedIPs s).

Section Operations.
Context `{GoRuntime}.

(** *** DetermineRealMaster *)

(** Step 1: the two failover flags. *)
Definition report_failover (s : ReplicationState) (sn : SentinelNodeState)
  : ReplicationState :=
  if sn_Reachable sn && sn_Monitoring sn && MasterFailoverInProgress sn
  then set_Failover s true (negb (FailoverStalled sn) || rs_FailoverProgressing s)
  else s.

(** Step 2: the votes per monitored address, and the reachable Sentinels. *)
Definition count_vote (acc : gmap string Z * Z) (sn : SentinelNodeState)
  : gmap string Z * Z :=
  let '(counts, reachable) := acc in
  if sn_Reachable sn then
    (if sn_Monitoring sn && negb (sn_MasterIP sn =? "")
     then <[sn_MasterIP sn := default 0 (counts !! sn_MasterIP sn) + 1]> counts
     else counts, reachable + 1)
  else acc.

Definition quorum (reachable : Z) : Z := reachable `quot` 2 + 1.

(** Step 3: [inl ip] is the early return with a majority master, [inr n] the number of
    votes for addresses outside the live topology. *)
Fixpoint majority_master (s : ReplicationState) (reachable ghostMasterCount : Z)
  (counts : list (string * Z)) : string + Z :=
  match counts with
  | [] => inr ghostMasterCount
  | (ip, count) :: rest =>
      let ghostMasterCount :=
        if IsGhost s ip then ghostMasterCount + count else ghostMasterCount in
      if (quorum reachable <=? count)%Z && bool_decide (ip ∈ rs_LiveTopologyIPs s)
      then inl ip
      else majority_master s reachable ghostMasterCount rest
  end.

Definition reachable_master (rn : RedisNodeState) : bool :=
  rn_Reachable rn && (rn_Role rn =? roleMaster).

Definition DetermineRealMaster (s0 : ReplicationState) : ReplicationState :=
  let s := foldl report_failover s0 (range_values [299] (rs_SentinelNodes s0)) in
  let '(masterCounts, reachableSentinels) :=
    foldl count_vote (∅, 0) (range_values [311] (rs_SentinelNodes s)) in
  match majority_master s reachableSentinels 0 (go_range [322] masterCounts) with
  | inl ip => set_RealMasterIP s ip
  | inr ghostMasterCount =>
      if negb (rs_FailoverReported s) && (ghostMasterCount <? quorum reachableSentinels)%Z
      then match List.find reachable_master (range_values [341] (rs_RedisNodes s)) with
           | Some rn => set_RealMasterIP s (rn_IP rn)
           | None => s
           end
      else s
  end.

(** *** Sentinel predicates *)

Definition AllSentinelsBare (s : ReplicationState) : bool * Z :=
  let '(monitoring, reachable) :=
    foldl (λ '(m, r) sn,
      if negb (sn_Reachable sn) then (m, r)
      else (if sn_Monitoring sn then m + 1 else m, r + 1))
      (0, 0) (range_values [357] (rs_SentinelNodes s)) in
  ((0 <? reachable)%Z && (monitoring =? 0)%Z, reachable).

Definition AuthFailedRedisNodes (s : ReplicationState) : list RedisNodeState :=
  sort_slice (less_by_string rn_PodName)
    (bfilter UnprovablyEmpty (range_values [378] (rs_RedisNodes s))).

Definition sentinel_auth_failed (sn : SentinelNodeState) : bool :=
  negb (sn_Reachable sn) && is_auth_failed (sn_ProbeFailure sn).

Definition AuthFailedSentinelNodes (s : ReplicationState) : list SentinelNodeState :=
  sort_slice (less_by_string sn_PodName)
    (bfilter sentinel_auth_failed (range_values [394] (rs_SentinelNodes s))).

Definition HasAuthFailure (s : ReplicationState) : bool :=
  (0 <? length (AuthFailedRedisNodes s))%nat || (0 <? length (AuthFailedSentinelNodes s))%nat.

Definition healthy_known (s : ReplicationState) (r : ReplicaInfo) : bool :=
  negb (IsGhost s (ri_IP r)) && negb (str_contains (ri_Flags r) "s_down").

Definition HasHealthyKnownReplica (s : ReplicationState) : bool :=
  existsb (λ sn,
    if negb (sn_Reachable sn) || negb (sn_Monitoring sn) then false
    else existsb (healthy_known s) (sn_Replicas sn))
    (range_values [599] (rs_SentinelNodes s)).

Definition ReachableSentinels (s : ReplicationState) : Z :=
  foldl (λ n sn, if sn_Reachable sn then n + 1 else n) 0
    (range_values [615] (rs_SentinelNodes s)).

Definition monitors_ghost (s : ReplicationState) (sn : SentinelNodeState) : bool :=
  sn_Monitoring sn && negb (sn_MasterIP sn =? "") && IsGhost s (sn_MasterIP sn).

Definition SentinelsMonitorGhostMaster (s : ReplicationState) : bool :=
  let '(reachable, ghost) :=
    foldl (λ '(r, g) sn,
      if negb (sn_Reachable sn) then (r, g)
      else (r + 1, if monitors_ghost s sn then g + 1 else g))
      (0, 0) (range_values [629] (rs_SentinelNodes s)) in
  (0 <? reachable)%Z && (quorum reachable <=? ghost)%Z.

Definition GhostReplicaResetSafe (s : ReplicationState) (ghostFound clusterWhole : bool)
  : bool :=
  if negb ghostFound || negb clusterWhole then false
  else if (rs_RealMasterIP s =? "") || IsGhost s (rs_RealMasterIP s) then false
  else match rs_RedisNodes s !! rs_RealMasterIP s with
       | None => false
       | Some m => if negb (rn_Reachable m) then false else HasHealthyKnownReplica s
       end.

(** *** Data holders *)

Definition holds_data (rn : RedisNodeState) : bool := rn_Reachable rn && (0 <? rn_Keys rn)%Z.

Definition DataHolders (s : ReplicationState) : list RedisNodeState :=
  bfilter holds_data (range_values [412] (rs_RedisNodes s)).

Definition better_holder (best h : RedisNodeState) : RedisNodeState :=
  if negb (rn_Offset h =? rn_Offset best)%Z
  then if (rn_Offset best <? rn_Offset h)%Z then h else best
  else if negb (rn_Keys h =? rn_Keys best)%Z
  then if (rn_Keys best <? rn_Keys h)%Z then h else best
  else if rn_IP h <? rn_IP best then h else best.

(** [(best, diverged, forked)] *)
Definition BestDataHolder (s : ReplicationState) : option RedisNodeState * bool * bool :=
  match DataHolders s with
  | [] => (None, false, false)
  | (h0 :: _) as holders =>
      (Some (foldl better_holder h0 holders), holdersDiverged holders, holdersForked holders)
  end.

(** *** Heal actions *)

Inductive HealAction :=
| ActMonitor (masterIP podName : string)
| ActSlaveof (masterIP podName : string)
| ActReset (masterName : string).

#[export] Instance HealAction_eq_dec : EqDecision HealAction.
Proof. solve_decision. Defined.

(** The text of an action. *)
Definition render_action (a : HealAction) : string :=
  match a with
  | ActMonitor ip pod => "MONITOR " +:+ ip +:+ " ON " +:+ pod
  | ActSlaveof ip pod => "SLAVEOF " +:+ ip +:+ " ON " +:+ pod
  | ActReset name => "SENTINEL RESET " +:+ name
  end.

Definition needs_monitor (s : ReplicationState) (sn : SentinelNodeState) : bool :=
  sn_Reachable sn && (negb (sn_Monitoring sn) || negb (sn_MasterIP sn =? rs_RealMasterIP s)).

Definition needs_slaveof (s : ReplicationState) (rn : RedisNodeState) : bool :=
  if negb (rn_Reachable rn) || (rn_IP rn =? rs_RealMasterIP s) then false
  else (rn_Role rn =? roleMaster) || negb (rn_MasterHost rn =? rs_RealMasterIP s)
       || (rn_LinkStatus rn =? "down").

Definition ghost_replica (s : ReplicationState) (r : ReplicaInfo) : bool :=
  IsGhost s (ri_IP r) && flaggedDown (ri_Flags r).

Definition heal_actions (s : ReplicationState) (masterName : string) : list HealAction :=
  if rs_RealMasterIP s =? "" then []
  else
    ((λ sn, ActMonitor (rs_RealMasterIP s) (sn_PodName sn)) <$>
       bfilter (needs_monitor s) (range_values [683] (rs_SentinelNodes s))) ++
    ((λ rn, ActSlaveof (rs_RealMasterIP s) (rn_PodName rn)) <$>
       bfilter (needs_slaveof s) (range_values [689] (rs_RedisNodes s))) ++
    (if existsb (λ sn, sn_Reachable sn && sn_Monitoring sn &&
                       existsb (ghost_replica s) (sn_Replicas sn))
                (range_values [699] (rs_SentinelNodes s))
     then [ActReset masterName] else []).

Definition GetHealActions (s : ReplicationState) (masterName : string) : list string :=
  render_action <$> heal_actions s masterName.

Definition PromotedIPs (s : ReplicationState) : gset string :=
  foldl (λ out sn,
    if negb (sn_Reachable sn) || negb (sn_Monitoring sn) then out
    else foldl (λ out r,
      if negb (ri_IP r =? "") && hasFlag (ri_Flags r) "promoted"
      then {[ri_IP r]} ∪ out else out) out (sn_Replicas sn))
    (∅ : gset string) (range_values [725] (rs_SentinelNodes s)).

End Operations.

(** ** The election of the best holder *)

(** [a] may replace [b]: lower offset, then fewer keys, then the later address. *)
Definition holder_le (a b : RedisNodeState) : Prop :=
  rn_Offset a < rn_Offset b ∨
  (rn_Offset a = rn_Offset b ∧
   (rn_Keys a < rn_Keys b ∨ (rn_Keys a = rn_Keys b ∧ String.le (rn_IP b) (rn_IP a)))).

#[export] Instance holder_le_preorder : PreOrder holder_le.
Proof.
  split.
  - intros a. right. split; [done|]. right. split; [done|]. reflexivity.
  - intros a b c [?|[? [?|[? H1]]]] [?|[? [?|[? H2]]]]; unfold holder_le; try (left; lia);
      right; (split; [lia|]); try (left; lia).
    right. split; [lia|]. by etrans.
Qed.

Lemma better_holder_spec best h :
  (better_holder best h = best ∨ better_holder best h = h) ∧
  holder_le best (better_holder best h) ∧ holder_le h (better_holder best h).
Proof.
  assert (Hrefl : ∀ x, holder_le x x) by reflexivity.
  unfold better_holder, holder_le at 1 2.
  destruct (rn_Offset h =? rn_Offset best)%Z eqn:Ho; simpl; bool_hyps.
  2:{ destruct (rn_Offset best <? rn_Offset h)%Z eqn:Ho2; bool_hyps.
      - split; [by right|]. split; [left; lia|apply Hrefl].
      - split; [by left|]. split; [apply Hrefl|left; lia]. }
  destruct (rn_Keys h =? rn_Keys best)%Z eqn:Hk; simpl; bool_hyps.
  2:{ destruct (rn_Keys best <? rn_Keys h)%Z eqn:Hk2; bool_hyps.
      - split; [by right|]. split; [right; split; [lia|left; lia]|apply Hrefl].
      - split; [by left|]. split; [apply Hrefl|right; split; [lia|left; lia]]. }
  destruct (rn_IP h <? rn_IP best) eqn:Hi.
  - split; [by right|]. split; [|apply Hrefl]. right. split; [lia|]. right. split; [lia|].
    by apply string_ltb_le.
  - split; [by left|]. split; [apply Hrefl|]. right. split; [lia|]. right. split; [lia|].
    by apply string_ltb_ge.
Qed.

Lemma foldl_better_holder l : ∀ b,
  let best := foldl better_holder b l in
  (best = b ∨ best ∈ l) ∧ holder_le b best ∧ ∀ h, h ∈ l → holder_le h best.
Proof.
  induction l as [|h l IH]; intros b; simpl.
  - split; [by left|]. split; [reflexivity|]. intros h Hh. by apply not_elem_of_nil in Hh.
  - destruct (IH (better_holder b h)) as (Hin & Hb & Hall).
    destruct (better_holder_spec b h) as (Hc & Hbb & Hbh).
    split; [|split; [by etrans|]].
    + rewrite elem_of_cons. destruct Hin as [Hin|?]; [rewrite Hin|by right; right].
      destruct Hc as [->| ->]; auto.
    + intros h' [->|Hh']%elem_of_cons; [by etrans|by apply Hall].
Qed.

Lemma elem_of_DataHolders `{GoRuntime} s h :
  h ∈ DataHolders s ↔ (∃ k, rs_RedisNodes s !! k = Some h) ∧ holds_data h = true.
Proof. unfold DataHolders. by rewrite elem_of_bfilter, elem_of_range_values. Qed.

Lemma DataHolders_perm2 (R1 R2 : GoRuntime) s : @DataHolders R1 s ≡ₚ @DataHolders R2 s.
Proof. apply bfilter_permutation, range_values_perm2. Qed.

(** The elected holder, when there is one, is a best one. *)
Lemma BestDataHolder_cases `{GoRuntime} s :
  (DataHolders s = [] ∧ BestDataHolder s = (None, false, false)) ∨
  ∃ b, b ∈ DataHolders s ∧ (∀ h, h ∈ DataHolders s → holder_le h b) ∧
       BestDataHolder s = (Some b, holdersDiverged (DataHolders s), holdersForked (DataHolders s)).
Proof.
  unfold BestDataHolder. destruct (DataHolders s) as [|h0 l] eqn:E; [by left|]. right.
  destruct (foldl_better_holder (h0 :: l) h0) as (Hin & _ & Hall).
  exists (foldl better_holder h0 (h0 :: l)). split; [|split; [exact Hall|reflexivity]].
  destruct Hin as [Hin|?]; [rewrite Hin; left|done].
Qed.

(** The address map of the gather: every node is stored under its own address. *)
Definition keyed_by_ip (s : ReplicationState) : Prop :=
  ∀ k n, rs_RedisNodes s !! k = Some n → rn_IP n = k.

Lemma holder_le_antisym a b : holder_le a b → holder_le b a → rn_IP a = rn_IP b.
Proof.
  intros [?|[? [?|[? H1]]]] [?|[? [?|[? H2]]]]; try lia. by apply (anti_symm String.le).
Qed.

(** ** The votes of the Sentinels *)

Definition sentinels (s : ReplicationState) : list SentinelNodeState :=
  (map_to_list (rs_SentinelNodes s)).*2.

Definition votes_for (ip : string) (sn : SentinelNodeState) : bool :=
  sn_Reachable sn && sn_Monitoring sn && negb (sn_MasterIP sn =? "") && (sn_MasterIP sn =? ip).

Definition count {A} (f : A → bool) (l : list A) : Z := Z.of_nat (length (bfilter f l)).

(** Votes of reachable, monitoring Sentinels for [ip]; for addresses outside the live
    topology; and the number of reachable Sentinels. *)
Definition votes (s : ReplicationState) (ip : string) : Z := count (votes_for ip) (sentinels s).
Definition votes_ghost (s : ReplicationState) (sn : SentinelNodeState) : bool :=
  sn_Reachable sn && monitors_ghost s sn.
Definition ghost_votes (s : ReplicationState) : Z := count (votes_ghost s) (sentinels s).
Definition reachable_sentinels (s : ReplicationState) : Z := count sn_Reachable (sentinels s).

Definition reports_failover (sn : SentinelNodeState) : bool :=
  sn_Reachable sn && sn_Monitoring sn && MasterFailoverInProgress sn.

Lemma count_permutation {A} (f : A → bool) l1 l2 : l1 ≡ₚ l2 → count f l1 = count f l2.
Proof. intros Hp. unfold count. by rewrite (Permutation_length (bfilter_permutation f _ _ Hp)). Qed.

Lemma count_cons {A} (f : A → bool) x l :
  count f (x :: l) = (if f x then 1 else 0) + count f l.
Proof. unfold count, bfilter. simpl. destruct (f x); simpl; lia. Qed.

Lemma count_nonneg {A} (f : A → bool) l : 0 ≤ count f l.
Proof. unfold count. lia. Qed.

(** Two predicates that never hold together, inside a third. *)
Lemma count_disjoint {A} (f g h : A → bool) l :
  (∀ x, f x = true → g x = true → False) →
  (∀ x, f x = true → h x = true) → (∀ x, g x = true → h x = true) →
  count f l + count g l ≤ count h l.
Proof.
  intros Hfg Hf Hg. induction l as [|x l IH]; [done|]. rewrite !count_cons.
  specialize (Hfg x). specialize (Hf x). specialize (Hg x).
  destruct (f x), (g x), (h x); try lia; exfalso; auto; by (discriminate Hf || discriminate Hg); auto.
Qed.

Lemma range_sentinels `{GoRuntime} site s : range_values site (rs_SentinelNodes s) ≡ₚ sentinels s.
Proof. unfold range_values, sentinels. by rewrite go_range_perm. Qed.

(** The sum of the votes recorded for the addresses that satisfy [f]. *)
Definition sum_votes (f : string → bool) (l : list (string * Z)) : Z :=
  foldr (λ '(ip, c) acc, (if f ip then c else 0) + acc) 0 l.

Lemma sum_votes_permutation f l1 l2 : l1 ≡ₚ l2 → sum_votes f l1 = sum_votes f l2.
Proof. induction 1 as [|[??]|[??][??]|]; simpl; lia. Qed.

Lemma sum_votes_incr f (m : gmap string Z) ip :
  sum_votes f (map_to_list (<[ip := default 0 (m !! ip) + 1]> m)) =
  sum_votes f (map_to_list m) + (if f ip then 1 else 0).
Proof.
  destruct (m !! ip) as [c|] eqn:E; simpl.
  - rewrite <-(sum_votes_permutation f _ _ (map_to_list_delete m ip c E)).
    rewrite <-insert_delete_eq.
    rewrite (sum_votes_permutation f _ _
      (map_to_list_insert (delete ip m) ip (c + 1) (lookup_delete_eq m ip))).
    simpl. destruct (f ip); lia.
  - rewrite (sum_votes_permutation _ _ _ (map_to_list_insert m ip (0 + 1) E)). simpl.
    destruct (f ip); lia.
Qed.

Definition positive_votes (m : gmap string Z) : Prop := ∀ ip c, m !! ip = Some c → 0 < c.

(** Step 2 records exactly the votes. *)
Lemma foldl_count_vote l : ∀ m r, positive_votes m →
  let '(m', r') := foldl count_vote (m, r) l in
  positive_votes m' ∧ r' = r + count sn_Reachable l ∧
  (∀ ip, default 0 (m' !! ip) = default 0 (m !! ip) + count (votes_for ip) l) ∧
  (∀ f, sum_votes f (map_to_list m') = sum_votes f (map_to_list m) +
     count (λ sn, sn_Reachable sn && (sn_Monitoring sn && negb (sn_MasterIP sn =? "")
                                      && f (sn_MasterIP sn))) l).
Proof.
  induction l as [|sn l IH]; intros m r Hm; simpl foldl.
  { split; [done|]. split; [unfold count; simpl; lia|].
    split; intros; unfold count; simpl; lia. }
  set (m1 := if sn_Monitoring sn && negb (sn_MasterIP sn =? "")
             then <[sn_MasterIP sn := default 0 (m !! sn_MasterIP sn) + 1]> m else m).
  destruct (sn_Reachable sn) eqn:Hr.
  - specialize (IH m1 (r + 1)). fold m1. destruct (foldl _ _ l) as [m' r'].
    destruct IH as (Hm' & -> & Hv & Hs).
    { unfold m1. destruct (_ && _); [|done]. intros ip c. rewrite lookup_insert_Some.
      intros [[<- <-]|[_ Hc]]; [|by eapply Hm].
      destruct (m !! sn_MasterIP sn) as [c|] eqn:E; simpl; [apply Hm in E|]; lia. }
    split; [done|]. split; [rewrite count_cons, Hr; lia|]. split.
    + intros ip. rewrite Hv, count_cons. unfold votes_for at 2. rewrite Hr. simpl. unfold m1.
      destruct (sn_Monitoring sn && negb (sn_MasterIP sn =? "")); simpl; [|lia].
      destruct (sn_MasterIP sn =? ip) eqn:E; bool_hyps; [subst; rewrite lookup_insert_eq|
        rewrite lookup_insert_ne by done]; simpl; lia.
    + intros f. rewrite Hs, count_cons, Hr. simpl. unfold m1.
      destruct (sn_Monitoring sn && negb (sn_MasterIP sn =? "")); simpl; [|lia].
      rewrite sum_votes_incr. lia.
  - specialize (IH m r Hm). destruct (foldl _ _ l) as [m' r'].
    destruct IH as (Hm' & -> & Hv & Hs).
    split; [done|]. split; [rewrite count_cons, Hr; lia|]. split; intros.
    + rewrite Hv, count_cons. unfold votes_for at 2. by rewrite Hr.
    + by rewrite Hs, count_cons, Hr.
Qed.

(** Step 3. *)
Lemma majority_master_spec s r L : ∀ g,
  match majority_master s r g L with
  | inl ip => ∃ c, (ip, c) ∈ L ∧ quorum r ≤ c ∧ ip ∈ rs_LiveTopologyIPs s
  | inr g' => g' = g + sum_votes (IsGhost s) L ∧
              ∀ ip c, (ip, c) ∈ L → ip ∈ rs_LiveTopologyIPs s → c < quorum r
  end.
Proof.
  induction L as [|[ip c] L IH]; intros g; simpl.
  { split; [lia|]. intros ip c Hin. by apply not_elem_of_nil in Hin. }
  destruct (_ && _) eqn:E; bool_hyps.
  - apply bool_decide_eq_true in H0. exists c. split; [left|done].
  - specialize (IH (if IsGhost s ip then g + c else g)).
    destruct (majority_master _ _ _ _) as [ip'|g'].
    + destruct IH as (c' & ? & ?). exists c'. split; [by right|done].
    + destruct IH as [-> Hlow]. split; [destruct (IsGhost s ip); lia|].
      intros ip' c' [?|?]%elem_of_cons Hl; simplify_eq; [|by eapply Hlow].
      rewrite (bool_decide_eq_true_2 _ Hl), andb_true_r in E. bool_hyps. lia.
Qed.

(** Step 1 changes the two flags and nothing else. *)
Lemma foldl_report_failover l : ∀ s,
  foldl report_failover s l =
  set_Failover s (rs_FailoverReported s || existsb reports_failover l)
    (rs_FailoverProgressing s || existsb (λ sn, reports_failover sn && negb (FailoverStalled sn)) l).
Proof.
  induction l as [|sn l IH]; intros s; simpl.
  - rewrite !orb_false_r. by destruct s.
  - rewrite IH. unfold report_failover. fold (reports_failover sn).
    destruct (reports_failover sn); [|done]. unfold set_Failover. cbn -[existsb].
    f_equal; [by destruct (rs_FailoverReported s)|].
    by destruct (rs_FailoverProgressing s), (FailoverStalled sn).
Qed.

(** The tally of steps 2 and 3, whatever the order of the two maps. *)
Lemma tally_spec `{GoRuntime} site s m r :
  foldl count_vote (∅, 0) (range_values site (rs_SentinelNodes s)) = (m, r) →
  r = reachable_sentinels s ∧
  (∀ ip c, m !! ip = Some c ↔ c = votes s ip ∧ 0 < c) ∧
  ∀ site', sum_votes (IsGhost s) (go_range site' m) = ghost_votes s.
Proof.
  intros Hf. pose proof (foldl_count_vote (range_values site (rs_SentinelNodes s)) ∅ 0) as Hcv.
  rewrite Hf in Hcv. destruct Hcv as (Hpos & -> & Hv & Hs); [intros ip c; by rewrite lookup_empty|].
  pose proof (range_sentinels site s) as Hp.
  split; [by rewrite (count_permutation _ _ _ Hp)|]. split.
  - intros ip c. specialize (Hv ip). rewrite lookup_empty, (count_permutation _ _ _ Hp) in Hv.
    cbn [default from_option id] in Hv. rewrite Z.add_0_l in Hv. fold (votes s ip) in Hv. split.
    + intros Hm. rewrite Hm in Hv. split; [done|by eapply Hpos].
    + intros [-> Hc]. rewrite <-Hv in Hc |- *. destruct (m !! ip); [done|simpl in Hc; lia].
  - intros site'. rewrite (sum_votes_permutation _ _ _ (go_range_perm site' m)), Hs.
    transitivity (0 + ghost_votes s); [|lia]. f_equal. by apply count_permutation.
Qed.

Lemma votes_le s ip1 ip2 : ip1 ≠ ip2 → votes s ip1 + votes s ip2 ≤ reachable_sentinels s.
Proof.
  intros Hne. apply count_disjoint; unfold votes_for; intros sn; intros; bool_hyps; congruence.
Qed.

(** At most one address has a majority. *)
Lemma majority_unique s ip1 ip2 :
  quorum (reachable_sentinels s) ≤ votes s ip1 → quorum (reachable_sentinels s) ≤ votes s ip2 →
  ip1 = ip2.
Proof.
  intros H1 H2. destruct (decide (ip1 = ip2)) as [|Hne]; [done|].
  pose proof (votes_le s ip1 ip2 Hne). unfold quorum in *.
  pose proof (count_nonneg sn_Reachable (sentinels s)) as Hr. fold (reachable_sentinels s) in Hr.
  rewrite Z.quot_div_nonneg in * by lia. Z.to_euclidean_division_equations; lia.
Qed.

Lemma quorum_pos s : 0 < quorum (reachable_sentinels s).
Proof.
  unfold quorum. pose proof (count_nonneg sn_Reachable (sentinels s)) as Hr.
  fold (reachable_sentinels s) in Hr. rewrite Z.quot_div_nonneg by lia.
  Z.to_euclidean_division_equations; lia.
Qed.

(** ** Theorems *)

(** The master determined from the Sentinels.  A live address monitored by a majority
    of the reachable Sentinels is the master, whatever the map order.  Without one, no
    master is made up while a failover is reported or a majority of the reachable Sentinels
    still monitors a dead address; only otherwise the address of a reachable pod in the
    master role is taken.  A failover counts as reported when some reachable, monitoring
    Sentinel reports one, and as progressing when one of these is not stalled. *)
Theorem DetermineRealMaster_spec `{GoRuntime} (s : ReplicationState) :
  let s' := DetermineRealMaster s in
  let reported := rs_FailoverReported s || existsb reports_failover (sentinels s) in
  let needed := quorum (reachable_sentinels s) in
  rs_FailoverReported s' = reported ∧
  rs_FailoverProgressing s' = rs_FailoverProgressing s ||
    existsb (λ sn, reports_failover sn && negb (FailoverStalled sn)) (sentinels s) ∧
  (∀ ip, ip ∈ rs_LiveTopologyIPs s → needed ≤ votes s ip → rs_RealMasterIP s' = ip) ∧
  ((∀ ip, ip ∈ rs_LiveTopologyIPs s → votes s ip < needed) →
   if reported || (needed <=? ghost_votes s)%Z then rs_RealMasterIP s' = rs_RealMasterIP s
   else (∃ k rn, rs_RedisNodes s !! k = Some rn ∧ reachable_master rn = true ∧
                 rs_RealMasterIP s' = rn_IP rn) ∨
        ((∀ k rn, rs_RedisNodes s !! k = Some rn → reachable_master rn = false) ∧
         rs_RealMasterIP s' = rs_RealMasterIP s)).
Proof.
  intros s' reported needed. unfold s', DetermineRealMaster. rewrite foldl_report_failover.
  rewrite !(existsb_permutation _ _ _ (range_sentinels [299] s)). fold reported.
  set (progressing := _ || existsb (λ sn, _) _). set (s1 := set_Failover s reported progressing).
  destruct (foldl count_vote _ _) as [m r] eqn:Ht.
  destruct (tally_spec [311] s m r Ht) as (-> & Hm & Hg). fold needed.
  pose proof (majority_master_spec s1 (reachable_sentinels s) (go_range [322] m) 0) as Hmaj.
  change (rs_LiveTopologyIPs s1) with (rs_LiveTopologyIPs s) in Hmaj. fold needed in Hmaj.
  destruct (majority_master s1 _ _ _) as [ip|g].
  - destruct Hmaj as (c & [-> _]%elem_of_go_range%Hm & Hc & Hip). split; [done|]. split; [done|].
    split; [|intros Hno; specialize (Hno ip Hip); lia].
    intros ip' _ Hip'. simpl. by apply (majority_unique s).
  - destruct Hmaj as [-> Hlow].
    assert (Hno : ∀ ip, ip ∈ rs_LiveTopologyIPs s → votes s ip < needed).
    { intros ip Hip. destruct (decide (0 < votes s ip)); [|pose proof (quorum_pos s); unfold needed; lia].
      eapply Hlow; [|done]. by apply elem_of_go_range, Hm. }
    change (IsGhost s1) with (IsGhost s). rewrite Hg, Z.add_0_l.
    change (rs_FailoverReported s1) with reported. change (rs_RedisNodes s1) with (rs_RedisNodes s).
    assert (Hvac : ∀ X : string → Prop, ∀ ip, ip ∈ rs_LiveTopologyIPs s → needed ≤ votes s ip → X ip).
    { intros X ip Hip ?. specialize (Hno ip Hip). lia. }
    rewrite Z.leb_antisym. destruct (negb reported && _) eqn:Hfb.
    2:{ split; [done|]. split; [done|]. split; [by apply Hvac|]. intros _.
        by destruct reported, (ghost_votes s <? needed)%Z. }
    apply andb_true_iff in Hfb as [->%negb_true_iff ->]. simpl.
    destruct (List.find _ _) as [rn|] eqn:Hfind; simpl;
      (split; [done|]; split; [done|]; split; [by apply Hvac|]; intros _).
    + left. apply find_some in Hfind as [Hin Hrm].
      apply list_elem_of_In, elem_of_range_values in Hin as [k Hk]. eauto.
    + right. split; [|done]. intros k rn Hk.
      eapply find_none in Hfind; [done|]. apply list_elem_of_In, elem_of_range_values. eauto.
Qed.


(** The elected holder: with no reachable node holding keys nothing is elected;
    otherwise the elected node is a reachable node of the state that holds keys, no other
    such node has a higher offset (at equal offset more keys, at equal keys a smaller
    address), and the two warnings are the divergence and the fork of the holders. *)
Theorem BestDataHolder_spec `{GoRuntime} (s : ReplicationState) :
  match BestDataHolder s with
  | (None, diverged, forked) =>
      (∀ k n, rs_RedisNodes s !! k = Some n → holds_data n = false) ∧
      diverged = false ∧ forked = false
  | (Some b, diverged, forked) =>
      (∃ k, rs_RedisNodes s !! k = Some b) ∧ holds_data b = true ∧
      (∀ k n, rs_RedisNodes s !! k = Some n → holds_data n = true → holder_le n b) ∧
      diverged = holdersDiverged (DataHolders s) ∧ forked = holdersForked (DataHolders s)
  end.
Proof.
  destruct (BestDataHolder_cases s) as [[Hnil ->]|(b & Hb & Hbest & ->)].
  - split; [|done]. intros k n Hn. destruct (holds_data n) eqn:Hd; [|done].
    assert (n ∈ DataHolders s) as Hin by (apply elem_of_DataHolders; eauto).
    rewrite Hnil in Hin. by apply not_elem_of_nil in Hin.
  - apply elem_of_DataHolders in Hb as [Hk Hd]. split; [done|]. split; [done|].
    split; [|done]. intros k n Hn Hdn. apply Hbest, elem_of_DataHolders. eauto.
Qed.

(** The election does not depend on map iteration order: two executions over the same
    state elect the same node and report the same divergence and fork. *)
Theorem BestDataHolder_deterministic (R1 R2 : GoRuntime) (s : ReplicationState) :
  keyed_by_ip s →
  (∀ k n, rs_RedisNodes s !! k = Some n → has_prefix (rn_Replid n) "__noreplid_" = false ∧
                                           has_prefix (rn_Replid2 n) "__noreplid_" = false) →
  @BestDataHolder R1 s = @BestDataHolder R2 s.
Proof.
  intros Hkey Hrep. pose proof (DataHolders_perm2 R1 R2 s) as Hp.
  destruct (@BestDataHolder_cases R1 s) as [[H1 ->]|(b1 & Hb1 & Hmax1 & ->)],
           (@BestDataHolder_cases R2 s) as [[H2 ->]|(b2 & Hb2 & Hmax2 & ->)]; [done|..].
  - rewrite <-Hp, H1 in Hb2. by apply not_elem_of_nil in Hb2.
  - rewrite Hp, H2 in Hb1. by apply not_elem_of_nil in Hb1.
  - assert (rn_IP b1 = rn_IP b2) as Hip.
    { apply holder_le_antisym; [apply Hmax2; by rewrite <-Hp|apply Hmax1; by rewrite Hp]. }
    apply elem_of_DataHolders in Hb1 as [[k1 Hk1] _], Hb2 as [[k2 Hk2] _].
    assert (k1 = k2) as <- by (rewrite <-(Hkey _ _ Hk1), <-(Hkey _ _ Hk2); done).
    simplify_eq. rewrite (holdersForked_permutation _ _ Hp).
    rewrite (holdersDiverged_permutation (@DataHolders R1 s) (@DataHolders R2 s)); [done| |done].
    intros h [[k Hk] _]%elem_of_DataHolders. by eapply Hrep.
Qed.

(** *** The two address sets *)

Inductive ip_op := OpLive (ip : string) | OpOwned (ip : string).

Definition apply_ip_op (s : ReplicationState) (op : ip_op) : ReplicationState :=
  match op with OpLive ip => AddLiveTopologyIP s ip | OpOwned ip => AddOwnedIP s ip end.

Definition address_sets_ok (s : ReplicationState) : Prop :=
  rs_LiveTopologyIPs s ⊆ rs_OwnedIPs s ∧ "" ∉ rs_OwnedIPs s.

Lemma apply_ip_op_ok s op : address_sets_ok s → address_sets_ok (apply_ip_op s op).
Proof.
  intros [Hsub Hemp]. destruct op as [ip|ip]; simpl; unfold AddLiveTopologyIP, AddOwnedIP;
    destruct (ip =? "") eqn:E; bool_hyps; try done; split; simpl; set_solver.
Qed.

(** The address sets built by any sequence of AddLiveTopologyIP and AddOwnedIP keep the
    documented invariant: live topology is always also ours, the empty address belongs to
    neither set, and so an address is a ghost, or ours, or empty. *)
Theorem address_sets_invariant (ops : list ip_op) :
  let s := foldl apply_ip_op NewReplicationState ops in
  rs_LiveTopologyIPs s ⊆ rs_OwnedIPs s ∧ "" ∉ rs_OwnedIPs s ∧
  ∀ ip, IsOurs s ip = true ∨ IsGhost s ip = true ∨ ip = "".
Proof.
  intros s. assert (Hok : address_sets_ok s).
  { unfold s. apply (foldl_invariant address_sets_ok); [apply apply_ip_op_ok|].
    split; simpl; set_solver. }
  destruct Hok as [Hsub Hemp]. split; [done|]. split; [done|]. intros ip.
  unfold IsOurs, IsGhost. destruct (ip =? "") eqn:E; bool_hyps; [by right; right|].
  destruct (decide (ip ∈ rs_LiveTopologyIPs s)) as [Hl|Hl].
  - left. apply bool_decide_eq_true. by apply Hsub.
  - right. left. by rewrite bool_decide_eq_false_2.
Qed.

Definition two_holders : ReplicationState :=
  mkReplicationState
    {[ "10.0.0.1" := lineage_node "10.0.0.1" "aaaa" "dddd";
       "10.0.0.2" := lineage_node "10.0.0.2" "bbbb" "aaaa" ]}
    ∅ {["10.0.0.1"; "10.0.0.2"]} {["10.0.0.1"; "10.0.0.2"]} "" false false.

Lemma BestDataHolder_deterministic_witness :
  @BestDataHolder ref_runtime two_holders = @BestDataHolder rev_runtime two_holders ∧
  (@BestDataHolder ref_runtime two_holders).1.1 = Some (lineage_node "10.0.0.1" "aaaa" "dddd").
Proof.
  split; [|vm_compute; reflexivity].
  apply (BestDataHolder_deterministic ref_runtime rev_runtime two_holders);
    intros k n; simpl; rewrite lookup_insert_Some, lookup_singleton_Some;
    intros [[<- <-]|[_ [<- <-]]]; done.
Defined.
