(* ===== verification/Recovery.v ===== *)
(** * Mastership recovery decisions
    (src/internal/controller/leaderless_recovery.go, ghost_master_recovery.go,
    failover_plan.go, replica_rescue_plan.go and pickBootstrapMasterIP of
    littlered_controller.go)

    The three planners that elect a master when no live one is known, and the rescue rule
    that points stray replicas at the known one.  All of them are decisions over a gathered
    [ReplicationState]; the theorems state what an election may discard. *)

From stdpp Require Import relations.
From S2P Require Import Prelude GoStrings Probe ClusterState ReplicationTypes.
From S2P Require Import Lineage ReplicationState.

Open Scope Z_scope.
Open Scope go_scope.

(** ** Definitions *)

Definition RoleMaster : string := "master".
Definition RoleReplica : string := "replica".

(** *** Rule L and its ghost-master sibling *)

Inductive recoveryAction :=
| recoveryClearMarker
| recoveryStartCooldown
| recoveryWait
| recoverySeedNoData
| recoveryPromoteSurvivor
| recoveryRefuse
| recoveryUnsafeElect
| recoveryRefuseUnverified.

#[export] Instance recoveryAction_eq_dec : EqDecision recoveryAction.
Proof. solve_decision. Defined.

Record leaderlessPlan := mkLeaderlessPlan {
  lp_action : recoveryAction;
  lp_masterIP : string;
  lp_diverged : bool;
  lp_forked : bool;
  lp_holders : Z;
  lp_unverified : list RedisNodeState;
}.

(** A plan with only its action set. *)
Definition leaderless_only (a : recoveryAction) : leaderlessPlan :=
  mkLeaderlessPlan a "" false false 0 [].

Definition len {A} (l : list A) : Z := Z.of_nat (length l).

(** [leaderlessSince == nil || now.Sub(since) < cooldown] as the code splits it. *)
Inductive window := NotStarted | Running | Elapsed.

#[export] Instance window_eq_dec : EqDecision window.
Proof. solve_decision. Defined.

Definition window_of (since : option time) (now : time) (span : duration) : window :=
  match since with
  | None => NotStarted
  | Some t => if (time_sub now t <? span)%Z then Running else Elapsed
  end.

Section Planners.
Context `{GoRuntime}.

Definition unprovablyEmptyVeto (s : ReplicationState) : option leaderlessPlan :=
  match AuthFailedRedisNodes s with
  | [] => None
  | unverified => Some (mkLeaderlessPlan recoveryRefuseUnverified "" false false 0 unverified)
  end.

Definition planLeaderlessRecovery (s : ReplicationState) (quorum : Z) (allowUnsafe : bool)
  (bootstrapMasterIP : string) (leaderlessSince : option time) (now : time)
  (cooldown : duration) : leaderlessPlan :=
  let '(bare, reachable) := AllSentinelsBare s in
  if negb bare || (reachable <? quorum)%Z then leaderless_only recoveryClearMarker
  else match window_of leaderlessSince now cooldown with
  | NotStarted => leaderless_only recoveryStartCooldown
  | Running => leaderless_only recoveryWait
  | Elapsed =>
      match unprovablyEmptyVeto s with
      | Some plan => plan
      | None =>
          let holders := DataHolders s in
          match holders with
          | [] => if bootstrapMasterIP =? "" then leaderless_only recoveryWait
                  else mkLeaderlessPlan recoverySeedNoData bootstrapMasterIP false false 0 []
          | [h] => mkLeaderlessPlan recoveryPromoteSurvivor (rn_IP h) false false 1 []
          | _ =>
              if negb allowUnsafe
              then mkLeaderlessPlan recoveryRefuse "" false false (len holders) []
              else match BestDataHolder s with
                   | (None, _, _) => mkLeaderlessPlan recoveryWait "" false false (len holders) []
                   | (Some best, diverged, forked) =>
                       mkLeaderlessPlan recoveryUnsafeElect (rn_IP best) diverged forked
                         (len holders) []
                   end
          end
      end
  end.

Definition planGhostMasterRecovery (s : ReplicationState) (quorum : Z) (allowUnsafe : bool)
  (bootstrapMasterIP : string) (stuckSince : option time) (now : time)
  (cooldown : duration) : leaderlessPlan :=
  if negb (SentinelsMonitorGhostMaster s) || HasHealthyKnownReplica s
  then leaderless_only recoveryClearMarker
  else if (ReachableSentinels s <? quorum)%Z then leaderless_only recoveryClearMarker
  else match window_of stuckSince now cooldown with
  | NotStarted => leaderless_only recoveryStartCooldown
  | Running => leaderless_only recoveryWait
  | Elapsed =>
      match unprovablyEmptyVeto s with
      | Some plan => plan
      | None =>
          let holders := DataHolders s in
          if (len holders =? 0)%Z then
            if bootstrapMasterIP =? "" then leaderless_only recoveryWait
            else mkLeaderlessPlan recoverySeedNoData bootstrapMasterIP false false 0 []
          else match BestDataHolder s with
               | (None, _, _) => mkLeaderlessPlan recoveryWait "" false false (len holders) []
               | (Some best, diverged, forked) =>
                   if diverged || forked then
                     if negb allowUnsafe
                     then mkLeaderlessPlan recoveryRefuse "" false forked (len holders) []
                     else mkLeaderlessPlan recoveryUnsafeElect (rn_IP best) diverged forked
                            (len holders) []
                   else mkLeaderlessPlan recoveryPromoteSurvivor (rn_IP best) false false
                          (len holders) []
               end
      end
  end.

Definition needsPromotion (s : ReplicationState) (masterIP : string) : bool :=
  match rs_RedisNodes s !! masterIP with
  | Some rn => rn_Reachable rn && negb (rn_Role rn =? RoleMaster)
  | None => false
  end.

(** [redis-0] when it has an address, else the pod with the smallest name. *)
Fixpoint pick_bootstrap (pod0Name fallbackIP fallbackName : string)
  (entries : list (string * string)) : string :=
  match entries with
  | [] => fallbackIP
  | (ip, name) :: rest =>
      if name =? pod0Name then ip
      else if (fallbackName =? "") || (name <? fallbackName)
      then pick_bootstrap pod0Name ip name rest
      else pick_bootstrap pod0Name fallbackIP fallbackName rest
  end.

Definition pickBootstrapMasterIP (lrName : string) (redisMap : gmap string string) : string :=
  pick_bootstrap (lrName +:+ "-redis-0") "" "" (go_range [2472] redisMap).

(** *** Failover mode *)

Inductive failoverAction :=
| failoverNone
| failoverWait
| failoverSeed
| failoverPromote
| failoverRefuse
| failoverUnsafeElect
| failoverRefuseUnverified.

#[export] Instance failoverAction_eq_dec : EqDecision failoverAction.
Proof. solve_decision. Defined.

Record failoverPlan := mkFailoverPlan {
  fp_action : failoverAction;
  fp_masterIP : string;
  fp_diverged : bool;
  fp_forked : bool;
  fp_holders : Z;
  fp_unverified : list RedisNodeState;
}.

Definition failover_only (a : failoverAction) : failoverPlan :=
  mkFailoverPlan a "" false false 0 [].

Definition planFailover (s : ReplicationState) (liveMasterIP : string) (allowUnsafe : bool)
  (bootstrapMasterIP : string) (unsettled : bool) (transitionSince : option time)
  (now : time) (cooldown : duration) : failoverPlan :=
  if negb (liveMasterIP =? "") then failover_only failoverNone
  else if unsettled then failover_only failoverWait
  else match window_of transitionSince now cooldown with
  | Running => failover_only failoverWait
  | NotStarted | Elapsed =>
      match AuthFailedRedisNodes s with
      | (_ :: _) as unverified =>
          mkFailoverPlan failoverRefuseUnverified "" false false 0 unverified
      | [] =>
          let holders := DataHolders s in
          if (len holders =? 0)%Z then
            if bootstrapMasterIP =? "" then failover_only failoverWait
            else mkFailoverPlan failoverSeed bootstrapMasterIP false false 0 []
          else match BestDataHolder s with
               | (None, _, _) => mkFailoverPlan failoverWait "" false false (len holders) []
               | (Some best, diverged, forked) =>
                   if diverged || forked then
                     if negb allowUnsafe
                     then mkFailoverPlan failoverRefuse "" false forked (len holders) []
                     else mkFailoverPlan failoverUnsafeElect (rn_IP best) diverged forked
                            (len holders) []
                   else mkFailoverPlan failoverPromote (rn_IP best) false false (len holders) []
               end
      end
  end.

Definition masterStartAuthorizedFor (action : failoverAction) : bool :=
  match action with failoverSeed => true | _ => false end.

(** *** Rule R *)

Definition stray (s : ReplicationState) (promoted : gset string) (ip : string)
  (rn : RedisNodeState) : bool :=
  if negb (rn_Reachable rn) || (ip =? rs_RealMasterIP s) then false
  else if bool_decide (ip ∈ promoted) then false
  else (rn_Role rn =? RoleMaster) || negb (rn_MasterHost rn =? rs_RealMasterIP s).

Definition planReplicaRescue (s : ReplicationState) : list RedisNodeState :=
  if rs_RealMasterIP s =? "" then []
  else
    let promoted := PromotedIPs s in
    sort_slice (less_by_string rn_PodName)
      (snd <$> bfilter (λ '(ip, rn), stray s promoted ip rn)
                 (go_range [46] (rs_RedisNodes s))).

End Planners.

(** ** What an election may discard *)

Definition is_holder (s : ReplicationState) (k : string) (n : RedisNodeState) : Prop :=
  rs_RedisNodes s !! k = Some n ∧ holds_data n = true.

(** Every pod that answered let the operator in: no keyspace is unreadable. *)
Definition all_verified (s : ReplicationState) : Prop :=
  ∀ k n, rs_RedisNodes s !! k = Some n → UnprovablyEmpty n = false.

(** [ip] is the address of a most complete data holder. *)
Definition best_holder (s : ReplicationState) (ip : string) : Prop :=
  ∃ k b, is_holder s k b ∧ rn_IP b = ip ∧ ∀ k' n, is_holder s k' n → holder_le n b.

(** Any two holders are of one lineage and at most one of them is writable: resyncing all
    of them from the most complete one loses no independent write. *)
Definition one_history `{GoRuntime} (s : ReplicationState) : Prop :=
  ∀ k1 k2 h1 h2, k1 ≠ k2 → is_holder s k1 h1 → is_holder s k2 h2 →
    same_lineage (DataHolders s) h1 h2 ∧ ¬ (rn_Role h1 = RoleMaster ∧ rn_Role h2 = RoleMaster).

(** Electing [ip] discards nothing that is known to exist. *)
Definition lossless `{GoRuntime} (s : ReplicationState) (ip : string) : Prop :=
  (∀ k n, ¬ is_holder s k n) ∨ (best_holder s ip ∧ one_history s).

(** What the gather guarantees: nodes under their own address, server-reported IDs. *)
Definition gathered (s : ReplicationState) : Prop :=
  keyed_by_ip s ∧
  ∀ k n, rs_RedisNodes s !! k = Some n →
    has_prefix (rn_Replid n) "__noreplid_" = false ∧ has_prefix (rn_Replid2 n) "__noreplid_" = false.

Definition holder_entries `{GoRuntime} (s : ReplicationState) : list (string * RedisNodeState) :=
  bfilter (λ p, holds_data p.2) (go_range [412] (rs_RedisNodes s)).

Section Elections.
Context `{GoRuntime}.

Lemma DataHolders_entries s : DataHolders s = (holder_entries s).*2.
Proof. unfold DataHolders, range_values, holder_entries. by rewrite bfilter_fmap. Qed.

Lemma elem_of_holder_entries s k n : (k, n) ∈ holder_entries s ↔ is_holder s k n.
Proof. unfold holder_entries. by rewrite elem_of_bfilter, elem_of_go_range. Qed.

Lemma two_elems_length {A} (l : list A) x y : x ∈ l → y ∈ l → x ≠ y → (2 ≤ length l)%nat.
Proof.
  intros Hx Hy Hne. destruct l as [|a [|b l]]; simpl; try lia.
  - by apply not_elem_of_nil in Hx.
  - apply list_elem_of_singleton in Hx, Hy. congruence.
Qed.

Lemma holder_positions s h1 h2 :
  (∃ i j, i ≠ j ∧ DataHolders s !! i = Some h1 ∧ DataHolders s !! j = Some h2) ↔
  ∃ k1 k2, k1 ≠ k2 ∧ is_holder s k1 h1 ∧ is_holder s k2 h2.
Proof.
  rewrite DataHolders_entries. split.
  - intros (i & j & Hij & Hi & Hj).
    apply list_lookup_fmap_Some in Hi as ([k1 ?] & -> & Hi), Hj as ([k2 ?] & -> & Hj).
    exists k1, k2. rewrite <-!elem_of_holder_entries. split; [|eauto using list_elem_of_lookup_2].
    intros <-. apply Hij. eapply (NoDup_lookup (holder_entries s).*1 _ _ k1).
    + apply NoDup_bfilter_fmap, NoDup_go_range_fst.
    + by rewrite list_lookup_fmap, Hi.
    + by rewrite list_lookup_fmap, Hj.
  - intros (k1 & k2 & Hne & H1 & H2).
    apply elem_of_holder_entries, list_elem_of_lookup in H1 as [i Hi].
    apply elem_of_holder_entries, list_elem_of_lookup in H2 as [j Hj].
    exists i, j. rewrite !list_lookup_fmap, Hi, Hj. split; [congruence|done].
Qed.

Lemma not_forked s :
  holdersForked (DataHolders s) = false ↔
  ∀ k1 k2 h1 h2, k1 ≠ k2 → is_holder s k1 h1 → is_holder s k2 h2 →
    ¬ (rn_Role h1 = RoleMaster ∧ rn_Role h2 = RoleMaster).
Proof.
  rewrite holdersForked_length, Nat.ltb_ge, DataHolders_entries, bfilter_fmap, length_fmap.
  set (l := bfilter _ (holder_entries s)).
  assert (Hl : ∀ k n, (k, n) ∈ l ↔ is_holder s k n ∧ rn_Role n = RoleMaster).
  { intros k n. unfold l. rewrite elem_of_bfilter, elem_of_holder_entries.
    unfold writable. simpl. by rewrite String.eqb_eq. }
  split.
  - intros Hlen k1 k2 h1 h2 Hne H1 H2 [Hm1 Hm2].
    enough (2 ≤ length l)%nat by lia.
    apply (two_elems_length _ (k1, h1) (k2, h2)); [by apply Hl|by apply Hl|congruence].
  - intros Hall. assert (Hnd : NoDup l.*1).
    { apply NoDup_bfilter_fmap, NoDup_bfilter_fmap, NoDup_go_range_fst. }
    destruct l as [|[k1 h1] [|[k2 h2] l']]; simpl; try lia. exfalso.
    assert ((k1, h1) ∈ (k1, h1) :: (k2, h2) :: l') as [H1 ?]%Hl by left.
    assert ((k2, h2) ∈ (k1, h1) :: (k2, h2) :: l') as [H2 ?]%Hl by (right; left).
    apply (Hall k1 k2 h1 h2); [|done..]. intros ->. simpl in Hnd.
    apply NoDup_cons in Hnd as [Hnin _]. apply Hnin. left.
Qed.

(** Neither diverged nor forked is exactly one history. *)
Lemma one_history_spec s :
  gathered s →
  holdersDiverged (DataHolders s) || holdersForked (DataHolders s) = false ↔ one_history s.
Proof.
  intros [_ Hrep]. rewrite orb_false_iff, not_forked, holdersDiverged_false.
  - split.
    + intros [Hd Hf] k1 k2 h1 h2 Hne H1 H2. split; [|eauto].
      destruct (proj2 (holder_positions s h1 h2)) as (i & j & ? & ? & ?); eauto.
    + intros Hall. split.
      * intros i j hi hj Hij Hi Hj.
        destruct (proj1 (holder_positions s hi hj)) as (k1 & k2 & ? & ? & ?); [eauto|].
        by eapply Hall.
      * intros k1 k2 h1 h2 Hne H1 H2. by eapply Hall.
  - intros h [[k Hk] _]%elem_of_DataHolders. by eapply Hrep.
Qed.

Lemma AuthFailed_nil s : AuthFailedRedisNodes s = [] ↔ all_verified s.
Proof.
  unfold AuthFailedRedisNodes. split.
  - intros Hnil k n Hk. pose proof (sort_slice_perm (less_by_string rn_PodName)
      (bfilter UnprovablyEmpty (range_values [378] (rs_RedisNodes s)))) as Hp.
    rewrite Hnil in Hp. apply Permutation_nil_l, eq_sym in Hp.
    apply (proj1 (bfilter_nil _ _) Hp). apply elem_of_range_values. eauto.
  - intros Hall. apply Permutation_nil_r. rewrite sort_slice_perm.
    replace (bfilter _ _) with (@nil RedisNodeState); [done|].
    symmetry. apply bfilter_nil. intros n [k Hk]%elem_of_range_values. eauto.
Qed.

Lemma no_holders s : DataHolders s = [] ↔ ∀ k n, ¬ is_holder s k n.
Proof.
  rewrite DataHolders_entries. split.
  - intros Hnil k n Hh%elem_of_holder_entries. apply fmap_nil_inv in Hnil.
    rewrite Hnil in Hh. by apply not_elem_of_nil in Hh.
  - intros Hno. destruct (holder_entries s) as [|[k n] l] eqn:E; [done|]. exfalso.
    apply (Hno k n), elem_of_holder_entries. rewrite E. left.
Qed.

Lemma BestDataHolder_best s b diverged forked :
  BestDataHolder s = (Some b, diverged, forked) →
  best_holder s (rn_IP b) ∧ diverged = holdersDiverged (DataHolders s) ∧
  forked = holdersForked (DataHolders s).
Proof.
  intros Hb. destruct (BestDataHolder_cases s) as [[_ Hn]|(b' & Hin & Hmax & Hb')];
    [congruence|]. rewrite Hb in Hb'. simplify_eq. split; [|done].
  pose proof Hin as Hin'. apply elem_of_DataHolders in Hin' as [[k Hk] Hd].
  exists k, b'. split; [done|]. split; [done|].
  intros k' n [Hk' Hd']. apply Hmax, elem_of_DataHolders. eauto.
Qed.

Lemma BestDataHolder_some s :
  DataHolders s ≠ [] → ∃ b, BestDataHolder s =
    (Some b, holdersDiverged (DataHolders s), holdersForked (DataHolders s)).
Proof.
  intros Hne. destruct (BestDataHolder_cases s) as [[? _]|(b & _ & _ & ?)]; [done|eauto].
Qed.

(** The act step of the ghost-master and failover planners. *)
Lemma act_step s :
  gathered s →
  (DataHolders s = [] ∧ len (DataHolders s) = 0) ∨
  (∃ b d f, BestDataHolder s = (Some b, d, f) ∧ (len (DataHolders s) =? 0)%Z = false ∧
            DataHolders s ≠ [] ∧ best_holder s (rn_IP b) ∧ (d || f = false ↔ one_history s)).
Proof.
  intros Hg. destruct (DataHolders s) as [|h l] eqn:E; [by left|]. right.
  destruct (BestDataHolder_some s) as [b Hb]; [by rewrite E|].
  destruct (BestDataHolder_best s _ _ _ Hb) as (Hbest & _ & _).
  eexists b, _, _. split; [exact Hb|]. split; [done|]. split; [done|]. split; [done|].
  by apply one_history_spec.
Qed.

Lemma unprovablyEmptyVeto_spec s :
  match unprovablyEmptyVeto s with
  | None => all_verified s
  | Some plan => lp_action plan = recoveryRefuseUnverified ∧ ¬ all_verified s
  end.
Proof.
  unfold unprovablyEmptyVeto. pose proof (AuthFailed_nil s) as Hnil.
  destruct (AuthFailedRedisNodes s); [by apply Hnil|].
  split; [done|]. intros Hv. by apply Hnil in Hv.
Qed.

Lemma sole_holder_lossless s h : DataHolders s = [h] → best_holder s (rn_IP h) ∧ one_history s.
Proof.
  intros Hh. assert (Hone : ∀ k n, is_holder s k n → n = h).
  { intros k n [Hk Hd]. apply list_elem_of_singleton. rewrite <-Hh.
    apply elem_of_DataHolders. eauto. }
  assert (∃ k, is_holder s k h) as [k Hk].
  { assert (h ∈ DataHolders s) as [[k ?] ?]%elem_of_DataHolders by (rewrite Hh; left).
    by exists k. }
  split.
  - exists k, h. split; [done|]. split; [done|]. intros k' n ->%Hone. reflexivity.
  - intros k1 k2 h1 h2 Hne H1 H2. exfalso.
    destruct (proj2 (holder_positions s h1 h2)) as (i & j & Hij & Hi & Hj); [eauto|].
    rewrite Hh in Hi, Hj. apply lookup_lt_Some in Hi, Hj. simpl in *. lia.
Qed.

End Elections.

(** ** The detection gates *)

Lemma foldl_pair_count {A} (f g : A → bool) (l : list A) : ∀ a b,
  foldl (λ '(a, b) x, if negb (f x) then (a, b) else (a + 1, if g x then b + 1 else b)) (a, b) l =
  (a + count f l, b + count (λ x, f x && g x) l).
Proof.
  induction l as [|x l IH]; intros a b; simpl.
  - unfold count. simpl. f_equal; lia.
  - rewrite !count_cons. destruct (f x); simpl; rewrite IH; [|f_equal; lia].
    destruct (g x); f_equal; lia.
Qed.

Lemma SentinelsMonitorGhostMaster_eq `{GoRuntime} s :
  SentinelsMonitorGhostMaster s =
  (0 <? reachable_sentinels s)%Z && (quorum (reachable_sentinels s) <=? ghost_votes s)%Z.
Proof.
  unfold SentinelsMonitorGhostMaster. rewrite foldl_pair_count, !Z.add_0_l.
  by rewrite !(count_permutation _ _ _ (range_sentinels [629] s)).
Qed.

Lemma ReachableSentinels_eq `{GoRuntime} s : ReachableSentinels s = reachable_sentinels s.
Proof.
  unfold ReachableSentinels. rewrite foldl_count, Z.add_0_l.
  apply (count_permutation sn_Reachable), range_sentinels.
Qed.

Definition monitoring_sentinels (s : ReplicationState) : Z :=
  count (λ sn, sn_Reachable sn && sn_Monitoring sn) (sentinels s).

Lemma AllSentinelsBare_eq `{GoRuntime} s :
  AllSentinelsBare s =
  ((0 <? reachable_sentinels s)%Z && (monitoring_sentinels s =? 0)%Z, reachable_sentinels s).
Proof.
  unfold AllSentinelsBare.
  assert (Hf : ∀ l a b, foldl (λ '(m, r) sn, if negb (sn_Reachable sn) then (m, r)
      else (if sn_Monitoring sn then m + 1 else m, r + 1)) (a, b) l =
    (a + count (λ sn, sn_Reachable sn && sn_Monitoring sn) l, b + count sn_Reachable l)).
  { induction l as [|x l IH]; intros a b; simpl; [unfold count; simpl; f_equal; lia|].
    rewrite !count_cons. destruct (sn_Reachable x), (sn_Monitoring x); simpl; rewrite IH; f_equal; lia. }
  rewrite Hf, !Z.add_0_l. by rewrite !(count_permutation _ _ _ (range_sentinels [357] s)).
Qed.

(** No reachable Sentinel monitors anything, and a quorum of them is reachable. *)
Definition bare_deadlock (s : ReplicationState) (q : Z) : Prop :=
  0 < reachable_sentinels s ∧ monitoring_sentinels s = 0 ∧ q ≤ reachable_sentinels s.

(** A majority of the reachable Sentinels is pinned to a dead master, none of them knows a
    replica it could promote, and a quorum is reachable. *)
Definition ghost_deadlock `{GoRuntime} (s : ReplicationState) (q : Z) : Prop :=
  0 < reachable_sentinels s ∧ quorum (reachable_sentinels s) ≤ ghost_votes s ∧
  HasHealthyKnownReplica s = false ∧ q ≤ reachable_sentinels s.

(** The marker was set at least [cooldown] ago. *)
Definition elapsed (since : option time) (now : time) (cooldown : duration) : Prop :=
  ∃ t, since = Some t ∧ cooldown ≤ time_sub now t.

Lemma window_of_spec since now cooldown :
  match window_of since now cooldown with
  | NotStarted => since = None
  | Running => ∃ t, since = Some t ∧ time_sub now t < cooldown
  | Elapsed => elapsed since now cooldown
  end.
Proof.
  unfold window_of, elapsed. destruct since as [t|]; [|done].
  destruct (time_sub now t <? cooldown)%Z eqn:E; bool_hyps; eauto.
Qed.

Lemma window_not_running since now cooldown :
  window_of since now cooldown ≠ Running ↔ since = None ∨ elapsed since now cooldown.
Proof.
  pose proof (window_of_spec since now cooldown) as Hw.
  destruct (window_of since now cooldown).
  - split; [by left|done].
  - split; [done|]. destruct Hw as (t & -> & ?). intros [?|(t' & ? & ?)]; [done|].
    simplify_eq. lia.
  - split; [by right|done].
Qed.

Lemma window_match {A} (w : window) (x y : A) :
  match w with Running => x | NotStarted | Elapsed => y end =
  if decide (w = Running) then x else y.
Proof. by destruct w. Qed.

(** The elected address of a plan, and whether the election needs the owner's consent. *)
Definition leaderless_elects (p : leaderlessPlan) : option (string * bool) :=
  match lp_action p with
  | recoverySeedNoData | recoveryPromoteSurvivor => Some (lp_masterIP p, false)
  | recoveryUnsafeElect => Some (lp_masterIP p, true)
  | _ => None
  end.

Definition failover_elects (p : failoverPlan) : option (string * bool) :=
  match fp_action p with
  | failoverSeed | failoverPromote => Some (fp_masterIP p, false)
  | failoverUnsafeElect => Some (fp_masterIP p, true)
  | _ => None
  end.

(** What every election must satisfy. *)
Definition sound_election `{GoRuntime} (s : ReplicationState) (allowUnsafe : bool)
  (e : string * bool) : Prop :=
  all_verified s ∧
  if e.2 then allowUnsafe = true ∧ best_holder s e.1 else lossless s e.1.

(** The gates shared by the two Sentinel planners: detection, cooldown, veto. *)
Lemma guarded_election `{GoRuntime} (s : ReplicationState) (gate allowUnsafe : bool)
  (deadlock can_elect : Prop) (since : option time) (now : time) (cooldown : duration)
  (act : leaderlessPlan) :
  (gate = false ↔ deadlock) →
  (all_verified s →
     (∀ e, leaderless_elects act = Some e → sound_election s allowUnsafe e) ∧
     (is_Some (leaderless_elects act) ↔ can_elect)) →
  let plan :=
    if gate then leaderless_only recoveryClearMarker
    else match window_of since now cooldown with
    | NotStarted => leaderless_only recoveryStartCooldown
    | Running => leaderless_only recoveryWait
    | Elapsed => match unprovablyEmptyVeto s with Some p => p | None => act end
    end in
  (∀ e, leaderless_elects plan = Some e → sound_election s allowUnsafe e) ∧
  (is_Some (leaderless_elects plan) ↔
   deadlock ∧ elapsed since now cooldown ∧ all_verified s ∧ can_elect).
Proof.
  intros Hgate Hact. assert (Hno : ∀ X : Prop, ¬ X → is_Some (@None (string * bool)) ↔ X).
  { intros X HX. split; [by intros []|done]. }
  pose proof (window_of_spec since now cooldown) as Hw.
  pose proof (unprovablyEmptyVeto_spec s) as Hv. destruct gate; simpl.
  { split; [done|]. apply Hno. intros [Hd%Hgate _]. done. }
  destruct (window_of since now cooldown).
  - split; [done|]. apply Hno. intros (_ & (t & ? & _) & _). congruence.
  - split; [done|]. apply Hno. destruct Hw as (t & -> & ?).
    intros (_ & (t' & ? & ?) & _). simplify_eq. lia.
  - destruct (unprovablyEmptyVeto s) as [p|].
    + destruct Hv as [Hp Hv]. unfold leaderless_elects. rewrite Hp. split; [done|].
      apply Hno. by intros (_ & _ & ? & _).
    + destruct (Hact Hv) as [Hs Hc]. split; [done|]. rewrite Hc.
      assert (deadlock) by (by apply Hgate). tauto.
Qed.

(** An unreadable keyspace vetoes every election. *)
Lemma unverified_leaderless `{GoRuntime} s q allowUnsafe boot since now cooldown :
  ¬ all_verified s →
  leaderless_elects (planLeaderlessRecovery s q allowUnsafe boot since now cooldown) = None.
Proof.
  intros Hv. unfold planLeaderlessRecovery. destruct (AllSentinelsBare s) as [bare reachable].
  destruct (negb bare || _); [done|]. destruct (window_of _ _ _); [done|done|].
  pose proof (unprovablyEmptyVeto_spec s) as Hveto.
  destruct (unprovablyEmptyVeto s) as [p|]; [|done].
  unfold leaderless_elects. by destruct Hveto as [-> _].
Qed.

Lemma unverified_ghost `{GoRuntime} s q allowUnsafe boot since now cooldown :
  ¬ all_verified s →
  leaderless_elects (planGhostMasterRecovery s q allowUnsafe boot since now cooldown) = None.
Proof.
  intros Hv. unfold planGhostMasterRecovery.
  destruct (negb _ || _); [done|]. destruct (_ <? _)%Z; [done|].
  destruct (window_of _ _ _); [done|done|].
  pose proof (unprovablyEmptyVeto_spec s) as Hveto.
  destruct (unprovablyEmptyVeto s) as [p|]; [|done].
  unfold leaderless_elects. by destruct Hveto as [-> _].
Qed.

Lemma unverified_failover `{GoRuntime} s live allowUnsafe boot unsettled since now cooldown :
  ¬ all_verified s →
  failover_elects (planFailover s live allowUnsafe boot unsettled since now cooldown) = None.
Proof.
  intros Hv. unfold planFailover. destruct (negb _); [done|]. destruct unsettled; [done|].
  rewrite window_match. destruct (decide _); [done|].
  pose proof (AuthFailed_nil s) as Hnil.
  destruct (AuthFailedRedisNodes s); [|done]. destruct Hv. by apply Hnil.
Qed.

Lemma sound_seed `{GoRuntime} s allowUnsafe ip :
  all_verified s → DataHolders s = [] → sound_election s allowUnsafe (ip, false).
Proof. intros Hv Hn. split; [done|]. left. by apply no_holders. Qed.

Lemma sound_promote `{GoRuntime} s allowUnsafe ip :
  all_verified s → best_holder s ip → one_history s → sound_election s allowUnsafe (ip, false).
Proof. intros Hv Hb Ho. split; [done|]. right. done. Qed.

Lemma sound_unsafe `{GoRuntime} s ip :
  all_verified s → best_holder s ip → sound_election s true (ip, true).
Proof. by split. Qed.

#[local] Hint Resolve sound_seed sound_promote sound_unsafe : core.

(** *** The promoted replicas *)

(** A reachable, monitoring Sentinel flags [ip] as the replica it promoted. *)
Definition sentinel_promoted (s : ReplicationState) (ip : string) : Prop :=
  ip ≠ "" ∧ ∃ k sn r, rs_SentinelNodes s !! k = Some sn ∧ sn_Reachable sn = true ∧
    sn_Monitoring sn = true ∧ r ∈ sn_Replicas sn ∧ ri_IP r = ip ∧
    hasFlag (ri_Flags r) "promoted" = true.

Lemma elem_of_foldl_union {A} (P : A → string → Prop) (f : gset string → A → gset string) l :
  (∀ out x ip, ip ∈ f out x ↔ ip ∈ out ∨ P x ip) →
  ∀ out ip, ip ∈ foldl f out l ↔ ip ∈ out ∨ ∃ x, x ∈ l ∧ P x ip.
Proof.
  intros Hf. induction l as [|x l IH]; intros out ip; simpl.
  - split; [by left|]. intros [?|(x & Hx & _)]; [done|]. by apply not_elem_of_nil in Hx.
  - rewrite IH, Hf. setoid_rewrite elem_of_cons. split.
    + intros [[?|?]|(y & ? & ?)]; eauto.
    + intros [?|(y & [->|?] & ?)]; eauto.
Qed.

Lemma elem_of_PromotedIPs `{GoRuntime} s ip : ip ∈ PromotedIPs s ↔ sentinel_promoted s ip.
Proof.
  unfold PromotedIPs.
  set (flagged := λ r ip, ri_IP r = ip ∧ ip ≠ "" ∧ hasFlag (ri_Flags r) "promoted" = true).
  rewrite (elem_of_foldl_union (λ sn ip, sn_Reachable sn = true ∧ sn_Monitoring sn = true ∧
    ∃ r, r ∈ sn_Replicas sn ∧ flagged r ip)).
  - setoid_rewrite elem_of_range_values. unfold sentinel_promoted, flagged. split.
    + intros [?|(sn & [k ?] & ? & ? & r & ? & ? & ? & ?)]; [set_solver|].
      split; [done|]. by exists k, sn, r.
    + intros (? & k & sn & r & ? & ? & ? & ? & ? & ?). right. exists sn.
      split; [by exists k|]. split; [done|]. split; [done|]. by exists r.
  - clear ip. intros out sn ip. destruct (sn_Reachable sn), (sn_Monitoring sn); simpl;
      try (split; [by left|]; intros [?|(? & ? & _)]; done).
    rewrite (elem_of_foldl_union flagged).
    + split; [intros [?|?]; auto|]. intros [?|(_ & _ & ?)]; auto.
    + clear ip. intros out' r ip. unfold flagged.
      destruct (ri_IP r =? "") eqn:E, (hasFlag (ri_Flags r) "promoted") eqn:F; bool_hyps; simpl;
        [naive_solver|naive_solver| |naive_solver].
      rewrite elem_of_union, elem_of_singleton. naive_solver.
Qed.

Lemma PromotedIPs_proper (R1 R2 : GoRuntime) s : @PromotedIPs R1 s = @PromotedIPs R2 s.
Proof. apply set_eq. intros ip. by rewrite !elem_of_PromotedIPs. Qed.

Lemma elem_of_stray `{GoRuntime} s promoted rn :
  rn ∈ (snd <$> bfilter (λ '(ip, rn), stray s promoted ip rn) (go_range [46] (rs_RedisNodes s))) ↔
  ∃ ip, rs_RedisNodes s !! ip = Some rn ∧ stray s promoted ip rn = true.
Proof.
  rewrite list_elem_of_fmap. split.
  - intros ([ip ?] & -> & [Hin Hs]%elem_of_bfilter). exists ip. by rewrite <-(elem_of_go_range [46]).
  - intros (ip & Hip & Hs). exists (ip, rn). split; [done|].
    apply elem_of_bfilter. by rewrite elem_of_go_range.
Qed.

Lemma stray_spec `{GoRuntime} s ip rn :
  stray s (PromotedIPs s) ip rn = true ↔
  rn_Reachable rn = true ∧ ip ≠ rs_RealMasterIP s ∧ ¬ sentinel_promoted s ip ∧
  (rn_Role rn = RoleMaster ∨ rn_MasterHost rn ≠ rs_RealMasterIP s).
Proof.
  unfold stray. rewrite <-elem_of_PromotedIPs.
  destruct (rn_Reachable rn); simpl; [|by split; [|intros [? _]]].
  destruct (ip =? rs_RealMasterIP s) eqn:E1; bool_hyps; [by split; [|intros (_ & ? & _)]|].
  case_bool_decide; [by split; [|intros (_ & _ & ? & _)]|].
  rewrite orb_true_iff, negb_true_iff, String.eqb_eq, String.eqb_neq. tauto.
Qed.

Lemma leaderless_election_facts `{GoRuntime} (s : ReplicationState) (q : Z)
  (allowUnsafe : bool) (boot : string) (since : option time) (now : time) (cooldown : duration) :
  let plan := planLeaderlessRecovery s q allowUnsafe boot since now cooldown in
  (∀ e, leaderless_elects plan = Some e → sound_election s allowUnsafe e) ∧
  (is_Some (leaderless_elects plan) ↔
   bare_deadlock s q ∧ elapsed since now cooldown ∧ all_verified s ∧
   match DataHolders s with [] => boot ≠ "" | [_] => True | _ => allowUnsafe = true end).
Proof.
  unfold planLeaderlessRecovery. rewrite AllSentinelsBare_eq.
  apply guarded_election.
  { unfold bare_deadlock. rewrite orb_false_iff, negb_false_iff, andb_true_iff, Z.ltb_lt,
      Z.eqb_eq, Z.ltb_ge. tauto. }
  intros Hv. destruct (DataHolders s) as [|h [|h' l]] eqn:E.
  - destruct (boot =? "") eqn:Hb; bool_hyps.
    + split; [done|]. split; [by intros []|done].
    + split; [intros ? [= <-]; eauto|]. split; [done|by eexists].
  - destruct (sole_holder_lossless s h E) as [Hbest Hone].
    split; [intros ? [= <-]; eauto|]. split; [done|by eexists].
  - destruct (BestDataHolder_some s) as [b Hb]; [by rewrite E|].
    destruct (BestDataHolder_best s _ _ _ Hb) as (Hbest & _).
    rewrite Hb. destruct allowUnsafe.
    + split; [intros ? [= <-]; eauto|]. split; [done|by eexists].
    + split; [done|]. split; [by intros []|done].
Qed.

(** Without assumptions on the state: the gates of an election. *)
Lemma ghost_election_gate `{GoRuntime} s q allowUnsafe boot since now cooldown e :
  leaderless_elects (planGhostMasterRecovery s q allowUnsafe boot since now cooldown) = Some e →
  ghost_deadlock s q ∧ elapsed since now cooldown.
Proof.
  unfold planGhostMasterRecovery. rewrite SentinelsMonitorGhostMaster_eq, ReachableSentinels_eq.
  destruct (negb _ || _) eqn:Hg; [done|]. destruct (Z.ltb_spec (reachable_sentinels s) q) as [|Hq]; [done|].
  pose proof (window_of_spec since now cooldown) as Hw. destruct (window_of since now cooldown); try done.
  intros _. split; [|done]. apply orb_false_iff in Hg as [Hd%negb_false_iff Hh].
  apply andb_true_iff in Hd as [H1%Z.ltb_lt H2%Z.leb_le]. by repeat split.
Qed.

Lemma ghost_election_facts `{GoRuntime} (s : ReplicationState) (q : Z)
  (allowUnsafe : bool) (boot : string) (since : option time) (now : time) (cooldown : duration) :
  gathered s →
  let plan := planGhostMasterRecovery s q allowUnsafe boot since now cooldown in
  (∀ e, leaderless_elects plan = Some e → sound_election s allowUnsafe e) ∧
  (is_Some (leaderless_elects plan) ↔
   ghost_deadlock s q ∧ elapsed since now cooldown ∧ all_verified s ∧
   (DataHolders s = [] → boot ≠ "") ∧ (one_history s ∨ allowUnsafe = true)).
Proof.
  intros Hg. unfold planGhostMasterRecovery.
  rewrite SentinelsMonitorGhostMaster_eq, ReachableSentinels_eq, <-if_orb.
  apply guarded_election.
  { unfold ghost_deadlock. rewrite !orb_false_iff, negb_false_iff, andb_true_iff, Z.ltb_lt,
      Z.leb_le, Z.ltb_ge. tauto. }
  intros Hv. destruct (act_step s Hg) as [[E ->]|(b & d & f & Hb & -> & Hne & Hbest & Hone)].
  - assert (one_history s) by (intros ???? _ Hh; by apply (proj1 (no_holders s) E) in Hh).
    simpl. destruct (boot =? "") eqn:Hb; bool_hyps.
    + split; [done|]. split; [by intros []|]. intros [Hboot _]. by apply Hboot in Hb.
    + split; [intros ? [= <-]; eauto|]. split; [by auto|by eexists].
  - rewrite Hb. destruct (d || f) eqn:Hdf; [destruct allowUnsafe|].
    + split; [intros ? [= <-]; eauto|]. split; [by auto|by eexists].
    + split; [done|]. split; [by intros []|]. intros [_ [?%Hone|?]]; done.
    + assert (one_history s) by (by apply Hone).
      split; [intros ? [= <-]; eauto|]. split; [by auto|by eexists].
Qed.

(** ** Theorems *)

(** C1. Leaderless recovery (Rule L) elects exactly in a persistent bare-Sentinel deadlock
    in which every keyspace is readable and there is something to elect: a candidate when no
    pod holds data, a single holder, or the owner's opt-in.  An election without the opt-in
    discards no data, and one with it takes a most complete holder. *)
Theorem planLeaderlessRecovery_correct `{GoRuntime} (s : ReplicationState) (q : Z)
  (allowUnsafe : bool) (boot : string) (since : option time) (now : time) (cooldown : duration) :
  gathered s →
  let plan := planLeaderlessRecovery s q allowUnsafe boot since now cooldown in
  (∀ e, leaderless_elects plan = Some e → sound_election s allowUnsafe e) ∧
  (is_Some (leaderless_elects plan) ↔
   bare_deadlock s q ∧ elapsed since now cooldown ∧ all_verified s ∧
   match DataHolders s with [] => boot ≠ "" | [_] => True | _ => allowUnsafe = true end).
Proof. intros _. apply leaderless_election_facts. Qed.

(** C2. Ghost-master recovery elects exactly when a majority of the reachable Sentinels has
    been pinned to a dead master past the cooldown, none of them knows a promotable replica,
    every keyspace is readable, and the data holders form one write history or the owner
    opted in.  An election without the opt-in discards no data. *)
Theorem planGhostMasterRecovery_correct `{GoRuntime} (s : ReplicationState) (q : Z)
  (allowUnsafe : bool) (boot : string) (since : option time) (now : time) (cooldown : duration) :
  gathered s →
  let plan := planGhostMasterRecovery s q allowUnsafe boot since now cooldown in
  (∀ e, leaderless_elects plan = Some e → sound_election s allowUnsafe e) ∧
  (is_Some (leaderless_elects plan) ↔
   ghost_deadlock s q ∧ elapsed since now cooldown ∧ all_verified s ∧
   (DataHolders s = [] → boot ≠ "") ∧ (one_history s ∨ allowUnsafe = true)).
Proof. apply ghost_election_facts. Qed.

(** What [planFailover] elects, and when. *)
(** Without assumptions on the state: the gates of an election and of a fresh start. *)
Lemma planFailover_gates `{GoRuntime} s live allowUnsafe boot unsettled since now cooldown :
  let plan := planFailover s live allowUnsafe boot unsettled since now cooldown in
  (is_Some (failover_elects plan) → live = "") ∧
  (masterStartAuthorizedFor (fp_action plan) = true → all_verified s ∧ ∀ k n, ¬ is_holder s k n).
Proof.
  unfold planFailover. destruct (live =? "") eqn:Hl; bool_hyps; simpl; [|by split; [intros []|]].
  split; [done|]. destruct unsettled; [done|]. rewrite window_match. destruct (decide _); [done|].
  pose proof (AuthFailed_nil s) as Hv. destruct (AuthFailedRedisNodes s); [|done].
  destruct (len (DataHolders s) =? 0)%Z eqn:Hd.
  - intros _. split; [by apply Hv|]. apply no_holders. by destruct (DataHolders s).
  - destruct (BestDataHolder s) as [[[b|] d] f]; [|done]. destruct (d || f); [destruct allowUnsafe|]; done.
Qed.

Lemma planFailover_facts `{GoRuntime} (s : ReplicationState) (live : string)
  (allowUnsafe : bool) (boot : string) (unsettled : bool) (since : option time) (now : time)
  (cooldown : duration) :
  gathered s →
  let plan := planFailover s live allowUnsafe boot unsettled since now cooldown in
  (∀ e, failover_elects plan = Some e → sound_election s allowUnsafe e) ∧
  (is_Some (failover_elects plan) ↔
   live = "" ∧ unsettled = false ∧ (since = None ∨ elapsed since now cooldown) ∧
   all_verified s ∧ (DataHolders s = [] → boot ≠ "") ∧ (one_history s ∨ allowUnsafe = true)) ∧
  (masterStartAuthorizedFor (fp_action plan) = true → ∀ k n, ¬ is_holder s k n).
Proof.
  intros Hg. unfold planFailover.
  assert (Hno : ∀ X : Prop, ¬ X → is_Some (@None (string * bool)) ↔ X).
  { intros X HX. split; [by intros []|done]. }
  destruct (live =? "") eqn:Hl; bool_hyps; simpl.
  2:{ split; [done|]. split; [|done]. apply Hno. by intros [? _]. }
  destruct unsettled; [split; [done|]; split; [|done]; apply Hno; by intros (_ & ? & _)|].
  rewrite window_match, <-window_not_running.
  destruct (decide _) as [Hr|Hr]; [split; [done|]; split; [|done]; apply Hno; by intros (_ & _ & Hn & _)|].
  pose proof (AuthFailed_nil s) as Hv. destruct (AuthFailedRedisNodes s) as [|a l].
  2:{ split; [done|]. split; [|done]. apply Hno. intros (_ & _ & _ & Hall & _).
      by apply Hv in Hall. }
  assert (all_verified s) as Hall by (by apply Hv). clear Hv.
  destruct (act_step s Hg) as [[E ->]|(b & d & f & Hb & -> & Hne & Hbest & Hone)]; simpl.
  - assert (one_history s) by (intros ???? _ Hh; by apply (proj1 (no_holders s) E) in Hh).
    destruct (boot =? "") eqn:Hb; bool_hyps.
    + split; [done|]. split; [|done]. apply Hno. intros (_ & _ & _ & _ & Hboot & _).
      by apply Hboot in Hb.
    + split; [intros ? [= <-]; eauto|]. split; [split; [by auto 10|by eexists]|].
      intros _. by apply no_holders.
  - rewrite Hb. destruct (d || f) eqn:Hdf; [destruct allowUnsafe|].
    + split; [intros ? [= <-]; eauto|]. split; [split; [by auto 10|by eexists]|done].
    + split; [done|]. split; [|done]. apply Hno. intros (_ & _ & _ & _ & _ & [?%Hone|?]); done.
    + assert (one_history s) by (by apply Hone).
      split; [intros ? [= <-]; eauto|]. split; [split; [by auto 10|by eexists]|done].
Qed.

(** C3. Failover mode elects exactly when no live master is known, the previous transition
    is settled and past its cooldown, every keyspace is readable, and the data holders form
    one write history or the owner opted in.  An election without the opt-in discards no
    data; only a seed, which happens when no pod holds any data, authorises a fresh process
    to start as master. *)
Theorem planFailover_correct `{GoRuntime} (s : ReplicationState) (live : string)
  (allowUnsafe : bool) (boot : string) (unsettled : bool) (since : option time) (now : time)
  (cooldown : duration) :
  gathered s →
  let plan := planFailover s live allowUnsafe boot unsettled since now cooldown in
  (∀ e, failover_elects plan = Some e → sound_election s allowUnsafe e) ∧
  (is_Some (failover_elects plan) ↔
   live = "" ∧ unsettled = false ∧ (since = None ∨ elapsed since now cooldown) ∧
   all_verified s ∧ (DataHolders s = [] → boot ≠ "") ∧ (one_history s ∨ allowUnsafe = true)) ∧
  (masterStartAuthorizedFor (fp_action plan) = true → ∀ k n, ¬ is_holder s k n).
Proof. apply planFailover_facts. Qed.

(** The rescue rule: with a known master, the pods pointed at it are exactly the
    reachable ones that are not the master, that no reachable monitoring Sentinel has just
    promoted, and that claim mastership or follow another address; the plan is ordered by
    pod name, and with distinct pod names it does not depend on map iteration order. *)
Theorem planReplicaRescue_spec (R1 R2 : GoRuntime) (s : ReplicationState) :
  (∀ rn, rn ∈ @planReplicaRescue R1 s ↔
     rs_RealMasterIP s ≠ "" ∧
     ∃ ip, rs_RedisNodes s !! ip = Some rn ∧ rn_Reachable rn = true ∧ ip ≠ rs_RealMasterIP s ∧
           ¬ sentinel_promoted s ip ∧
           (rn_Role rn = RoleMaster ∨ rn_MasterHost rn ≠ rs_RealMasterIP s)) ∧
  StronglySorted (not_after (less_by_string rn_PodName)) (@planReplicaRescue R1 s) ∧
  ((∀ k1 k2 n1 n2, rs_RedisNodes s !! k1 = Some n1 → rs_RedisNodes s !! k2 = Some n2 →
      rn_PodName n1 = rn_PodName n2 → n1 = n2) →
   @planReplicaRescue R1 s = @planReplicaRescue R2 s).
Proof.
  unfold planReplicaRescue. destruct (rs_RealMasterIP s =? "") eqn:E; bool_hyps.
  { split; [|split; [constructor|done]]. intros rn. split; [by intros ?%not_elem_of_nil|].
    by intros [? _]. }
  rewrite !(PromotedIPs_proper R1 R2). split; [|split].
  - intros rn. rewrite sort_slice_perm, elem_of_stray. split.
    + intros (ip & Hip & Hs%stray_spec). split; [done|]. by exists ip.
    + intros [_ (ip & Hip & Hs)]. exists ip. split; [done|]. by apply stray_spec.
  - apply sort_slice_sorted. apply _.
  - intros Hinj. apply sort_slice_unique; [apply _| |].
    + apply fmap_Permutation, bfilter_permutation, go_range_perm2.
    + intros x y (k1 & Hx & _)%elem_of_stray (k2 & Hy & _)%elem_of_stray H1 H2.
      eapply Hinj; eauto. by apply less_by_string_eq.
Qed.

(** *** Witnesses *)

(** A bare-Sentinel deadlock with two holders of one promotion chain, one of them lagging. *)
Definition bare_sentinel (ip : string) : SentinelNodeState :=
  mkSentinelNode ip ip false "" true [] "" "" 0 0 [] ProbeOK "".

Definition chain_node (ip replid replid2 : string) (offset : Z) : RedisNodeState :=
  mkRedisNode ip ip "slave" "10.0.0.9" "down" offset 5 replid replid2 true ProbeOK "".

Definition deadlocked (sentinel : string → SentinelNodeState) : ReplicationState :=
  mkReplicationState
    {[ "10.0.0.1" := chain_node "10.0.0.1" "aaaa" "dddd" 100;
       "10.0.0.2" := chain_node "10.0.0.2" "bbbb" "aaaa" 120 ]}
    {[ "10.0.1.1" := sentinel "10.0.1.1"; "10.0.1.2" := sentinel "10.0.1.2" ]}
    {["10.0.0.1"; "10.0.0.2"]} {["10.0.0.1"; "10.0.0.2"]} "" false false.

Definition pinned_sentinel (ip : string) : SentinelNodeState :=
  mkSentinelNode ip ip true "10.0.0.9" true [] "" "s_down,master" 1 0 [] ProbeOK "".

Lemma gathered_deadlocked sentinel : gathered (deadlocked sentinel).
Proof.
  split; intros k n; simpl; rewrite lookup_insert_Some, lookup_singleton_Some;
    intros [[<- <-]|[_ [<- <-]]]; done.
Qed.

Definition t0 : time := 1000 * second.

Lemma planLeaderlessRecovery_correct_witness :
  sound_election (H := ref_runtime) (deadlocked bare_sentinel) true ("10.0.0.2", true) ∧
  ¬ is_Some (leaderless_elects (@planLeaderlessRecovery ref_runtime (deadlocked bare_sentinel)
      2 false "10.0.0.1" (Some t0) (t0 + 31 * second) (30 * second))).
Proof.
  split.
  - refine (proj1 (@planLeaderlessRecovery_correct ref_runtime (deadlocked bare_sentinel) 2 true
      "10.0.0.1" (Some t0) (t0 + 31 * second) (30 * second) (gathered_deadlocked _)) _ _).
    vm_compute. reflexivity.
  - vm_compute. by intros [].
Defined.

Lemma planGhostMasterRecovery_correct_witness :
  sound_election (H := ref_runtime) (deadlocked pinned_sentinel) false ("10.0.0.2", false).
Proof.
  refine (proj1 (@planGhostMasterRecovery_correct ref_runtime (deadlocked pinned_sentinel) 2 false
    "10.0.0.1" (Some t0) (t0 + 31 * second) (30 * second) (gathered_deadlocked _)) _ _).
  vm_compute. reflexivity.
Defined.

Lemma planFailover_correct_witness :
  sound_election (H := rev_runtime) (deadlocked bare_sentinel) false ("10.0.0.2", false).
Proof.
  refine (proj1 (@planFailover_correct rev_runtime (deadlocked bare_sentinel) "" false
    "10.0.0.1" false None t0 (5 * second) (gathered_deadlocked _)) _ _).
  vm_compute. reflexivity.
Defined.
