(* ===== verification/FailoverIntent.v ===== *)
(** * The failover-mode intent model
    (src/internal/controller/failover_plan.go, failover_intent.go, failover_monitor.go)

    In failover mode the operator's assignment annotations on the pods are the record of
    intent.  This file models the master-death predicate, the resolution of the intent, the
    re-authorisation stamps and the probe streak of the background watcher. *)

From stdpp Require Import relations.
From S2P Require Import Prelude GoStrings Probe ClusterState ReplicationTypes.
From S2P Require Import Lineage ReplicationState Recovery.

Open Scope Z_scope.
Open Scope go_scope.

(** ** Definitions *)

(** *** Master death *)

Definition linkStatusDown : string := "down".

Inductive masterDeathAction :=
| masterDeathClearMarker
| masterDeathStartWindow
| masterDeathWait
| masterDeathHold
| masterDeathDeclareK8s
| masterDeathDeclareProbe.

#[export] Instance masterDeathAction_eq_dec : EqDecision masterDeathAction.
Proof. solve_decision. Defined.

Record masterPodView := mkMasterPodView {
  mpv_present : bool;
  mpv_ready : bool;
  mpv_terminating : bool;
}.

Definition planMasterDeath (pod : masterPodView) (masterReachable : bool)
  (replicaLinks : list string) (downSince : option time) (now : time) (downAfter : duration)
  : masterDeathAction :=
  if negb (mpv_present pod) || negb (mpv_ready pod) || mpv_terminating pod
  then masterDeathDeclareK8s
  else if masterReachable then masterDeathClearMarker
  else match window_of downSince now downAfter with
  | NotStarted => masterDeathStartWindow
  | Running => masterDeathWait
  | Elapsed =>
      match replicaLinks with
      | [] => masterDeathHold
      | _ => if forallb (λ link, link =? linkStatusDown) replicaLinks
             then masterDeathDeclareProbe else masterDeathHold
      end
  end.

(** *** The intent *)

Record failoverPodView := mkFailoverPodView {
  fv_name : string;
  fv_ip : string;
  fv_terminating : bool;
  fv_ready : bool;
  fv_restarted : bool;
  fv_reachable : bool;
  fv_hasAssignment : bool;
  fv_assignedRole : string;
  fv_assignedMasterIP : string;
  fv_epoch : Z;
}.

Record failoverIntent := mkFailoverIntent {
  fi_masterName : string;
  fi_masterIP : string;
  fi_maxEpoch : Z;
}.

Record failoverStamp := mkFailoverStamp {
  st_podName : string;
  st_role : string;
  st_masterIP : string;
  st_epoch : Z;
  st_authorizeMasterStart : bool;
}.

Definition planFailoverFence (views : list failoverPodView) (outgoingIP newMasterIP : string)
  : string :=
  if (outgoingIP =? "") || (outgoingIP =? newMasterIP) then ""
  else if existsb (λ v, fv_ip v =? outgoingIP) views then outgoingIP else "".

(** One round of the loop; the second component is [masterEpoch]. *)
Definition intent_step (acc : failoverIntent * Z) (p : failoverPodView) : failoverIntent * Z :=
  let '(intent, masterEpoch) := acc in
  if negb (fv_hasAssignment p) then acc
  else
    let maxEpoch := if (fi_maxEpoch intent <? fv_epoch p)%Z then fv_epoch p
                    else fi_maxEpoch intent in
    if negb (fv_assignedRole p =? RoleMaster)
    then (mkFailoverIntent (fi_masterName intent) (fi_masterIP intent) maxEpoch, masterEpoch)
    else if (fi_masterName intent =? "") || (masterEpoch <? fv_epoch p)%Z
            || ((fv_epoch p =? masterEpoch)%Z && (fv_name p <? fi_masterName intent))
    then (mkFailoverIntent (fv_name p) (fv_ip p) maxEpoch, fv_epoch p)
    else (mkFailoverIntent (fi_masterName intent) (fi_masterIP intent) maxEpoch, masterEpoch).

Definition resolveFailoverIntent (pods : list failoverPodView) : failoverIntent :=
  (foldl intent_step (mkFailoverIntent "" "" 0, 0) pods).1.

Definition determineFailoverLiveMaster (s : ReplicationState) (intendedMasterIP : string)
  : string :=
  if intendedMasterIP =? "" then ""
  else match rs_RedisNodes s !! intendedMasterIP with
       | Some rn => if rn_Reachable rn && (rn_Role rn =? RoleMaster) then intendedMasterIP else ""
       | None => ""
       end.

Definition failoverTransitionSettled (intent : failoverIntent) (s : ReplicationState)
  (roleLabels : gmap string string) : bool :=
  if fi_masterName intent =? "" then true
  else if determineFailoverLiveMaster s (fi_masterIP intent) =? "" then false
  else default "" (roleLabels !! fi_masterName intent) =? RoleMaster.

Definition failoverPromotionUnsettled (intent : failoverIntent) (s : ReplicationState)
  (roleLabels : gmap string string) : bool :=
  if fi_masterName intent =? "" then false
  else match rs_RedisNodes s !! fi_masterIP intent with
       | None => false
       | Some rn =>
           if negb (rn_Reachable rn) then false
           else negb (failoverTransitionSettled intent s roleLabels)
       end.

(** The stamp for one pod, if it needs one. *)
Definition reauth_stamp (intent : failoverIntent) (liveMasterIP : string) (p : failoverPodView)
  : option failoverStamp :=
  if (fv_ip p =? "") || fv_terminating p || (fv_name p =? fi_masterName intent)
     || (fv_ip p =? liveMasterIP)
  then None
  else if negb (fv_hasAssignment p)
  then Some (mkFailoverStamp (fv_name p) RoleReplica liveMasterIP (fi_maxEpoch intent `max` 1) false)
  else if negb (fv_ready p) && fv_restarted p && negb (fv_reachable p)
  then Some (mkFailoverStamp (fv_name p) RoleReplica liveMasterIP
               (wrap64 (fi_maxEpoch intent + 1)) false)
  else None.

(** *** The watcher *)

Record failoverProbeStreak := mkStreak {
  fs_masterIP : string;
  fs_failingSince : time;
  fs_fired : bool;
}.

Definition advanceFailoverProbeStreak (prev : failoverProbeStreak) (masterIP : string)
  (probeOK : bool) (now : time) (downAfter : duration) : failoverProbeStreak * bool :=
  if masterIP =? "" then (mkStreak "" 0 false, false)
  else if probeOK then (mkStreak masterIP 0 false, false)
  else
    let next := if negb (fs_masterIP prev =? masterIP) || time_is_zero (fs_failingSince prev)
                then mkStreak masterIP now false else prev in
    if negb (fs_fired next) && (downAfter <=? time_sub now (fs_failingSince next))%Z
    then (mkStreak (fs_masterIP next) (fs_failingSince next) true, true)
    else (next, false).

(** One tick of [monitorFailoverMaster]: the master address read from the status ([None]
    when the read failed), the window read from the spec, the probe and the clock. *)
Record tick := mkTick {
  tk_master : option string;
  tk_downAfter : duration;
  tk_probeOK : bool;
  tk_now : time;
}.

(** [probeOK] stays false when there is nothing to probe. *)
Definition monitor_tick (streak : failoverProbeStreak) (t : tick) : failoverProbeStreak * bool :=
  match tk_master t with
  | None => (mkStreak "" 0 false, false)
  | Some masterIP =>
      advanceFailoverProbeStreak streak masterIP
        (if negb (masterIP =? "") then tk_probeOK t else false) (tk_now t) (tk_downAfter t)
  end.

(** The events pushed over a run of ticks. *)
Fixpoint monitor_run (streak : failoverProbeStreak) (ticks : list tick) : list bool :=
  match ticks with
  | [] => []
  | t :: ts => let '(streak', fire) := monitor_tick streak t in fire :: monitor_run streak' ts
  end.

Section Plans.
Context `{GoRuntime}.

Definition planFailoverReauth (pods : list failoverPodView) (intent : failoverIntent)
  (liveMasterIP : string) : list failoverStamp :=
  sort_slice (less_by_string st_podName) (omap (reauth_stamp intent liveMasterIP) pods).

Definition planFailoverRepoints (s : ReplicationState) (liveMasterIP : string) : list string :=
  sort_strings (fst <$> bfilter (λ '(ip, rn),
    if negb (rn_Reachable rn) || (ip =? liveMasterIP) then false
    else (rn_Role rn =? RoleMaster) || negb (rn_MasterHost rn =? liveMasterIP))
    (go_range [228] (rs_RedisNodes s))).

End Plans.

(** ** The intent is the newest master assignment *)

Definition assigned (p : failoverPodView) : Prop := fv_hasAssignment p = true.
Definition claims_master (p : failoverPodView) : Prop :=
  assigned p ∧ fv_assignedRole p = RoleMaster.

(** [p] outranks [q]: a newer epoch, or the same epoch and a smaller name. *)
Definition outranks (p q : failoverPodView) : Prop :=
  fv_epoch q < fv_epoch p ∨ (fv_epoch q = fv_epoch p ∧ String.le (fv_name p) (fv_name q)).

#[export] Instance outranks_preorder : PreOrder outranks.
Proof.
  split.
  - intros p. right. split; [done|]. reflexivity.
  - intros p q r [?|[? Hpq]] [?|[? Hqr]]; [left; lia|left; lia|left; lia|].
    right. split; [lia|]. by etrans.
Qed.

(** The pods processed so far determine the accumulator. *)
Record intent_of (pods : list failoverPodView) (intent : failoverIntent) (epoch : Z) : Prop := {
  io_nonneg : 0 ≤ fi_maxEpoch intent;
  io_max : ∀ p, p ∈ pods → assigned p → fv_epoch p ≤ fi_maxEpoch intent;
  io_attained : fi_maxEpoch intent = 0 ∨
                ∃ p, p ∈ pods ∧ assigned p ∧ fv_epoch p = fi_maxEpoch intent;
  io_master :
    (fi_masterName intent = "" ∧ fi_masterIP intent = "" ∧ ∀ p, p ∈ pods → ¬ claims_master p) ∨
    ∃ p, p ∈ pods ∧ claims_master p ∧ fi_masterName intent = fv_name p ∧
         fi_masterIP intent = fv_ip p ∧ epoch = fv_epoch p ∧
         ∀ q, q ∈ pods → claims_master q → outranks p q;
}.

Lemma intent_of_nil : intent_of [] (mkFailoverIntent "" "" 0) 0.
Proof.
  split; simpl; [lia| |by left|left]; [|split; [done|]; split; [done|]];
    intros p Hp; by apply not_elem_of_nil in Hp.
Qed.

(** The epoch half of one round. *)
Lemma intent_step_epoch pods intent epoch p :
  intent_of pods intent epoch → assigned p →
  let m := if (fi_maxEpoch intent <? fv_epoch p)%Z then fv_epoch p else fi_maxEpoch intent in
  0 ≤ m ∧ (∀ q, q ∈ pods ++ [p] → assigned q → fv_epoch q ≤ m) ∧
  (m = 0 ∨ ∃ q, q ∈ pods ++ [p] ∧ assigned q ∧ fv_epoch q = m).
Proof.
  intros [Hnn Hmax Hatt _] Ha m.
  assert (Hm : fi_maxEpoch intent ≤ m ∧ fv_epoch p ≤ m).
  { unfold m. destruct (_ <? _)%Z eqn:E; bool_hyps; lia. }
  split; [lia|]. split.
  - intros q [Hq|Hq]%elem_of_app Hqa; [specialize (Hmax q Hq Hqa); lia|].
    apply list_elem_of_singleton in Hq as ->. lia.
  - setoid_rewrite elem_of_app. setoid_rewrite list_elem_of_singleton.
    unfold m. destruct (_ <? _)%Z; [right; exists p; auto|].
    destruct Hatt as [?|(q & ? & ? & ?)]; [by left|right; exists q; auto].
Qed.

Lemma claims_snoc pods p q :
  q ∈ pods ++ [p] → claims_master q → (q ∈ pods ∧ claims_master q) ∨ q = p.
Proof. rewrite elem_of_app, list_elem_of_singleton. tauto. Qed.

(** The master half of the invariant, on its own. *)
Definition master_of (pods : list failoverPodView) (intent : failoverIntent) (epoch : Z) : Prop :=
  (fi_masterName intent = "" ∧ fi_masterIP intent = "" ∧ ∀ p, p ∈ pods → ¬ claims_master p) ∨
  ∃ p, p ∈ pods ∧ claims_master p ∧ fi_masterName intent = fv_name p ∧
       fi_masterIP intent = fv_ip p ∧ epoch = fv_epoch p ∧
       ∀ q, q ∈ pods → claims_master q → outranks p q.

Lemma master_of_skip pods intent epoch p :
  ¬ claims_master p → master_of pods intent epoch → master_of (pods ++ [p]) intent epoch.
Proof.
  intros Hnp [(? & ? & Hno)|(q & ? & ? & ? & ? & ? & Hq)].
  - left. split; [done|]. split; [done|]. intros q Hin Hc.
    destruct (claims_snoc _ _ _ Hin Hc) as [[? ?]| ->]; [by eapply Hno|done].
  - right. exists q. split; [apply elem_of_app; by left|]. repeat (split; [done|]).
    intros r Hin Hc. destruct (claims_snoc _ _ _ Hin Hc) as [[? ?]| ->]; [by apply Hq|done].
Qed.

Definition wins (intent : failoverIntent) (epoch : Z) (p : failoverPodView) : bool :=
  (fi_masterName intent =? "") || (epoch <? fv_epoch p)%Z
  || ((fv_epoch p =? epoch)%Z && (fv_name p <? fi_masterName intent)).

Lemma master_of_wins pods intent epoch p m :
  (∀ q, q ∈ pods → fv_name q ≠ "") → claims_master p →
  master_of pods intent epoch → wins intent epoch p = true →
  master_of (pods ++ [p]) (mkFailoverIntent (fv_name p) (fv_ip p) m) (fv_epoch p).
Proof.
  intros Hnames Hc Hm Hw. right. exists p. split; [apply elem_of_app; right; left|].
  repeat (split; [done|]). intros q Hin Hcq.
  destruct (claims_snoc _ _ _ Hin Hcq) as [[Hq _]| ->]; [|reflexivity].
  destruct Hm as [(_ & _ & Hno)|(q0 & Hin0 & _ & Hn0 & _ & He0 & Hbest)]; [by destruct (Hno q Hq)|].
  transitivity q0; [|by apply Hbest]. unfold wins in Hw.
  rewrite !orb_true_iff, andb_true_iff, String.eqb_eq, Z.ltb_lt, Z.eqb_eq, Hn0 in Hw.
  destruct Hw as [[Hw|Hw]|[Hw1 Hw2%string_ltb_le]].
  - by destruct (Hnames q0 Hin0).
  - left. lia.
  - right. split; [lia|done].
Qed.

Lemma master_of_loses pods intent epoch p m :
  master_of pods intent epoch → wins intent epoch p = false →
  master_of (pods ++ [p]) (mkFailoverIntent (fi_masterName intent) (fi_masterIP intent) m) epoch.
Proof.
  intros Hm Hw. unfold wins in Hw.
  rewrite !orb_false_iff, andb_false_iff, String.eqb_neq, Z.ltb_ge, Z.eqb_neq in Hw.
  destruct Hw as [[Hne He] Hlast].
  destruct Hm as [(? & _)|(q0 & Hin0 & Hc0 & Hn0 & Hi0 & He0 & Hbest)]; [done|].
  right. exists q0. split; [apply elem_of_app; by left|]. repeat (split; [done|]).
  intros q Hin Hcq. destruct (claims_snoc _ _ _ Hin Hcq) as [[Hq ?]| ->]; [by apply Hbest|].
  destruct (decide (fv_epoch p = epoch)) as [Heq|]; [|left; lia]. right. split; [lia|].
  destruct Hlast as [?|Hlast]; [done|]. rewrite Hn0 in Hlast. by apply string_ltb_ge.
Qed.

Lemma intent_step_spec pods intent epoch p :
  (∀ q, q ∈ pods → fv_name q ≠ "") →
  intent_of pods intent epoch →
  intent_of (pods ++ [p]) (intent_step (intent, epoch) p).1 (intent_step (intent, epoch) p).2.
Proof.
  intros Hnames Hio. unfold intent_step.
  assert (Hm : master_of pods intent epoch) by apply Hio.
  destruct (fv_hasAssignment p) eqn:Ha; cbn [negb].
  2:{ assert (Hna : ¬ assigned p) by (unfold assigned; congruence).
      destruct Hio as [Hnn Hmax Hatt _]. split; [done| | |].
      - intros q [Hq|Hq%list_elem_of_singleton]%elem_of_app Hqa; [by apply Hmax|by subst].
      - destruct Hatt as [?|(q & ? & ?)]; [by left|right; exists q].
        split; [apply elem_of_app; by left|done].
      - apply master_of_skip; [by intros [? _]|done]. }
  destruct (intent_step_epoch pods intent epoch p Hio Ha) as (Hnn & Hmax & Hatt).
  destruct (fv_assignedRole p =? RoleMaster) eqn:Hr; bool_hyps; cbn [negb].
  2:{ split; simpl; [done|done|done|]. apply (master_of_skip pods intent); [by intros [_ ?]|done]. }
  fold (wins intent epoch p).
  destruct (wins intent epoch p) eqn:Hw; split; simpl; try done.
  - exact (master_of_wins pods intent epoch p 0 Hnames (conj Ha Hr) Hm Hw).
  - exact (master_of_loses pods intent epoch p 0 Hm Hw).
Qed.

Lemma foldl_intent_step rest : ∀ pods intent epoch,
  (∀ q, q ∈ pods ++ rest → fv_name q ≠ "") → intent_of pods intent epoch →
  ∃ e, intent_of (pods ++ rest) (foldl intent_step (intent, epoch) rest).1 e.
Proof.
  induction rest as [|p rest IH]; intros pods intent epoch Hn Hio; cbn [foldl].
  - exists epoch. by rewrite app_nil_r.
  - pose proof (intent_step_spec pods intent epoch p) as Hstep.
    destruct (intent_step (intent, epoch) p) as [intent' epoch'].
    replace (pods ++ p :: rest) with ((pods ++ [p]) ++ rest) in * by (by rewrite <-(assoc_L app)).
    apply IH; [done|]. apply Hstep; [|done]. intros q Hq. apply Hn. set_solver.
Qed.

Lemma resolveFailoverIntent_of pods :
  (∀ q, q ∈ pods → fv_name q ≠ "") → ∃ e, intent_of pods (resolveFailoverIntent pods) e.
Proof. intros Hn. apply (foldl_intent_step pods [] _ 0 Hn intent_of_nil). Qed.

(** The intent is determined by the set of pods: names identify them. *)
Lemma intent_of_unique pods pods' i1 i2 e1 e2 :
  (∀ p q, p ∈ pods → q ∈ pods → fv_name p = fv_name q → p = q) →
  (∀ p, p ∈ pods ↔ p ∈ pods') →
  intent_of pods i1 e1 → intent_of pods' i2 e2 → i1 = i2.
Proof.
  intros Hinj Hsame [Hn1 Hx1 Ha1 Hm1] [Hn2 Hx2 Ha2 Hm2].
  assert (He : fi_maxEpoch i1 = fi_maxEpoch i2).
  { apply Z.le_antisymm.
    - destruct Ha1 as [->|(p & Hp & Hpa & <-)]; [done|]. apply Hx2; [by apply Hsame|done].
    - destruct Ha2 as [->|(p & Hp & Hpa & <-)]; [done|]. apply Hx1; [by apply Hsame|done]. }
  destruct i1 as [n1 a1 x1], i2 as [n2 a2 x2]. simpl in *. subst x2.
  destruct Hm1 as [(-> & -> & Hno)|(p & Hp & Hc & -> & -> & _ & Hbest)],
           Hm2 as [(-> & -> & Hno')|(q & Hq & Hcq & -> & -> & _ & Hbest')].
  - done.
  - destruct (Hno q); [by apply Hsame|done].
  - destruct (Hno' p); [by apply Hsame|done].
  - assert (p = q) as ->; [|done]. apply Hinj; [done|by apply Hsame|].
    specialize (Hbest q (proj2 (Hsame q) Hq) Hcq). specialize (Hbest' p (proj1 (Hsame p) Hp) Hc).
    destruct Hbest as [?|[? ?]], Hbest' as [?|[? ?]]; try lia.
    by apply (anti_symm String.le).
Qed.

(** ** The watcher's streaks *)

(** The probe of tick [t] failed against the master [m]. *)
Definition fails_on (m : string) (t : tick) : Prop :=
  tk_master t = Some m ∧ tk_probeOK t = false.

(** A streak against [m] that started at [since] and has not fired. *)
Definition armed (m : string) (since : time) : failoverProbeStreak := mkStreak m since false.

Lemma tick_fails m t st :
  m ≠ "" → fails_on m t →
  monitor_tick st t =
  let next := if negb (fs_masterIP st =? m) || time_is_zero (fs_failingSince st)
              then mkStreak m (tk_now t) false else st in
  if negb (fs_fired next) && (tk_downAfter t <=? time_sub (tk_now t) (fs_failingSince next))%Z
  then (mkStreak (fs_masterIP next) (fs_failingSince next) true, true) else (next, false).
Proof.
  intros Hm [Ht Hp]. unfold monitor_tick, advanceFailoverProbeStreak. rewrite Ht, Hp.
  rewrite (proj2 (String.eqb_neq m "") Hm). done.
Qed.

(** A tick that fires leaves a fired streak against its master. *)
Lemma tick_fires st t st' :
  tk_now t ≠ 0 → monitor_tick st t = (st', true) →
  ∃ m, m ≠ "" ∧ fails_on m t ∧ fs_masterIP st' = m ∧ fs_fired st' = true ∧
       fs_failingSince st' ≠ 0.
Proof.
  intros Hnow Hf. unfold monitor_tick, advanceFailoverProbeStreak in Hf.
  destruct (tk_master t) as [m|] eqn:Hm; [|done].
  destruct (m =? "") eqn:He; bool_hyps; [done|]. cbn [negb] in Hf.
  destruct (tk_probeOK t) eqn:Hp; [done|]. exists m. split; [done|].
  split; [done|]. destruct (negb (fs_masterIP st =? m) || _) eqn:Hr.
  - destruct (_ && _); [|done]. by simplify_eq/=.
  - apply orb_false_iff in Hr as [Heq%negb_false_iff%String.eqb_eq Hz%Z.eqb_neq].
    destruct (_ && _); [|done]. by simplify_eq/=.
Qed.

(** A fired streak stays silent while the same master keeps failing. *)
Lemma fired_silent m since t :
  m ≠ "" → since ≠ 0 → fails_on m t →
  monitor_tick (mkStreak m since true) t = (mkStreak m since true, false).
Proof.
  intros Hm Hs Hf. rewrite (tick_fails m) by done. simpl. rewrite String.eqb_refl.
  unfold time_is_zero. by rewrite (proj2 (Z.eqb_neq since 0) Hs).
Qed.

Lemma monitor_run_cons st t ts :
  monitor_run st (t :: ts) = (monitor_tick st t).2 :: monitor_run (monitor_tick st t).1 ts.
Proof. simpl. by destruct (monitor_tick st t). Qed.

(** A fired streak fires again only after a tick that re-arms it. *)
Lemma fired_run m since ticks : ∀ j,
  m ≠ "" → since ≠ 0 → monitor_run (mkStreak m since true) ticks !! j = Some true →
  ∃ k t, (k ≤ j)%nat ∧ ticks !! k = Some t ∧ ¬ fails_on m t.
Proof.
  induction ticks as [|t ts IH]; intros j Hm Hs Hj; [done|].
  assert (Hdec : Decision (fails_on m t)) by (unfold fails_on; apply _).
  destruct Hdec as [Hf|Hf]; [|exists 0%nat, t; split; [lia|done]].
  rewrite monitor_run_cons, fired_silent in Hj by done.
  destruct j as [|j]; [done|]. simpl in Hj.
  destruct (IH j Hm Hs Hj) as (k & t' & ? & ? & ?). exists (S k), t'. split; [lia|done].
Qed.

(** While the same master keeps failing, an armed streak fires at its first overdue tick. *)
Lemma armed_run m since ticks : ∀ i,
  m ≠ "" → since ≠ 0 → (∀ t, t ∈ ticks → fails_on m t) →
  monitor_run (armed m since) ticks !! i = Some true ↔
  ∃ t, ticks !! i = Some t ∧ tk_downAfter t ≤ time_sub (tk_now t) since ∧
       ∀ k tk, (k < i)%nat → ticks !! k = Some tk → time_sub (tk_now tk) since < tk_downAfter tk.
Proof.
  induction ticks as [|t ts IH]; intros i Hm Hs Hall.
  { split; [done|]. by intros (t & ? & _). }
  assert (Hft : fails_on m t) by (apply Hall; left).
  rewrite monitor_run_cons, (tick_fails m) by done. simpl.
  rewrite String.eqb_refl. unfold time_is_zero. rewrite (proj2 (Z.eqb_neq since 0) Hs). simpl.
  destruct (tk_downAfter t <=? _)%Z eqn:Hd; bool_hyps; simpl.
  - destruct i as [|i]; simpl.
    + split; [|done]. intros _. exists t. split; [done|]. split; [done|]. lia.
    + split.
      * intros Hj. apply fired_run in Hj as (k & t' & _ & Hk & Hn); [|done|done].
        destruct Hn. apply Hall. right. by eapply list_elem_of_lookup_2.
      * intros (t' & _ & _ & Hlt). specialize (Hlt 0%nat t ltac:(lia) eq_refl). lia.
  - destruct i as [|i]; simpl.
    + split; [done|]. intros (t' & ? & ? & _). simplify_eq. lia.
    + rewrite IH by (done || intros; apply Hall; by right).
      split; intros (t' & Ht' & Hd' & Hlt); exists t'; (split; [done|]; split; [done|]).
      * intros [|k] tk Hk Htk; simpl in Htk; [by simplify_eq|]. apply (Hlt k); [lia|done].
      * intros k tk Hk Htk. by apply (Hlt (S k)); [lia|].
Qed.

(** ** Theorems *)

(** The resolved intent: the intended master is the pod whose master assignment has the
    newest epoch (at equal epochs the smallest name), there is none exactly when no pod
    carries a master assignment, and [maxEpoch] is the largest epoch stamped on any pod.  The
    result depends on the set of pods only, not on the order of the list. *)
Theorem resolveFailoverIntent_spec (pods pods' : list failoverPodView) :
  (∀ q, q ∈ pods → fv_name q ≠ "") →
  (∀ p q, p ∈ pods → q ∈ pods → fv_name p = fv_name q → p = q) →
  (∀ p, p ∈ pods ↔ p ∈ pods') →
  let intent := resolveFailoverIntent pods in
  (fi_masterName intent = "" ↔ ∀ p, p ∈ pods → ¬ claims_master p) ∧
  (∀ p, p ∈ pods → claims_master p → fi_masterName intent = fv_name p →
     fi_masterIP intent = fv_ip p ∧ ∀ q, q ∈ pods → claims_master q → outranks p q) ∧
  (∀ p, p ∈ pods → assigned p → fv_epoch p ≤ fi_maxEpoch intent) ∧
  (fi_maxEpoch intent = 0 ∨ ∃ p, p ∈ pods ∧ assigned p ∧ fv_epoch p = fi_maxEpoch intent) ∧
  resolveFailoverIntent pods' = intent.
Proof.
  intros Hnames Hinj Hsame intent.
  destruct (resolveFailoverIntent_of pods Hnames) as [e Hio].
  destruct (resolveFailoverIntent_of pods') as [e' Hio']; [intros q Hq; by apply Hnames, Hsame|].
  pose proof Hio as [_ Hmax Hatt Hm].
  split; [|split; [|split; [done|split; [done|]]]].
  - destruct Hm as [(? & _ & ?)|(p & Hp & Hc & Hn & _)]; [done|]. fold intent in Hn.
    split; [|intros Hno; by destruct (Hno p Hp)]. rewrite Hn. intros He. by destruct (Hnames p Hp).
  - intros p Hp Hc Hn.
    destruct Hm as [(_ & _ & Hno)|(q & Hq & Hcq & Hnq & Hiq & _ & Hbest)]; [by destruct (Hno p Hp)|].
    assert (p = q) as -> by (apply Hinj; [done|done|fold intent in Hnq; congruence]). done.
  - symmetry. by eapply (intent_of_unique pods pods').
Qed.

(** The master-death predicate declares a death exactly on Kubernetes evidence (pod gone,
    container not ready, or terminating), or when the operator could not reach the master for
    the whole window and at least one reachable replica corroborates and none disagrees. *)
Theorem planMasterDeath_spec (pod : masterPodView) (reachable : bool) (links : list string)
  (since : option time) (now : time) (downAfter : duration) :
  let action := planMasterDeath pod reachable links since now downAfter in
  let k8s_dead := mpv_present pod = false ∨ mpv_ready pod = false ∨ mpv_terminating pod = true in
  (action = masterDeathDeclareK8s ↔ k8s_dead) ∧
  (action = masterDeathDeclareProbe ↔
     ¬ k8s_dead ∧ reachable = false ∧ elapsed since now downAfter ∧
     links ≠ [] ∧ ∀ l, l ∈ links → l = linkStatusDown) ∧
  (action = masterDeathClearMarker ↔ ¬ k8s_dead ∧ reachable = true) ∧
  (action = masterDeathStartWindow ↔ ¬ k8s_dead ∧ reachable = false ∧ since = None).
Proof.
  intros action k8s_dead. unfold action, planMasterDeath.
  destruct (negb _ || _ || _) eqn:Hk.
  { assert (k8s_dead) by (unfold k8s_dead; rewrite !orb_true_iff, !negb_true_iff in Hk; tauto).
    split; [done|]. split; [|split]; split; try done; by intros [? _]. }
  assert (¬ k8s_dead).
  { rewrite !orb_false_iff, !negb_false_iff in Hk. destruct Hk as [[? ?] ?].
    intros [?|[?|?]]; congruence. }
  clear Hk. split; [split; [by repeat case_match|done]|].
  destruct reachable; [split; [|split]; split; try done; by intros (_ & ? & _)|].
  pose proof (window_of_spec since now downAfter) as Hw.
  destruct (window_of since now downAfter).
  - split; [|split; [split; [done|by intros (_ & ?)]|by split]].
    split; [done|]. intros (_ & _ & (t & ? & _) & _). congruence.
  - destruct Hw as (t & -> & Ht).
    split; [|split; [split; [done|by intros (_ & ?)]|split; [done|by intros (_ & _ & ?)]]].
    split; [done|]. intros (_ & _ & (t' & ? & ?) & _). simplify_eq. lia.
  - split; [|split; [split; [by repeat case_match|by intros (_ & ?)]|]].
    + destruct links as [|l0 l]; [split; [done|]; by intros (_ & _ & _ & ? & _)|].
      destruct (forallb _ _) eqn:Hf.
      * split; [intros _|done]. repeat (split; [done|]). intros x Hx.
        apply (proj1 (forallb_elem_of _ _) Hf) in Hx. by apply String.eqb_eq.
      * split; [done|]. intros (_ & _ & _ & _ & Hall). rewrite <-not_true_iff_false in Hf.
        destruct Hf. apply forallb_elem_of. intros x Hx. apply String.eqb_eq. by apply Hall.
    + split; [by repeat case_match|]. destruct Hw as (t & -> & _). by intros (_ & _ & ?).
Qed.

(** The watcher accelerates, and never floods: it pushes at most one event per failure
    streak, so between two events some tick saw a healthy probe or another master. *)
Theorem watcher_fires_once (ticks : list tick) (st : failoverProbeStreak) (i j : nat) :
  (∀ t, t ∈ ticks → tk_now t ≠ 0) → (i < j)%nat →
  monitor_run st ticks !! i = Some true → monitor_run st ticks !! j = Some true →
  ∃ m ti k tk, (i < k ≤ j)%nat ∧ ticks !! i = Some ti ∧ fails_on m ti ∧
               ticks !! k = Some tk ∧ ¬ fails_on m tk.
Proof.
  revert st i j. induction ticks as [|t ts IH]; intros st i j Hclock Hij Hi Hj; [done|].
  rewrite monitor_run_cons in Hi, Hj. destruct j as [|j]; [lia|]. simpl in Hj.
  destruct i as [|i]; simpl in Hi.
  - destruct (monitor_tick st t) as [[m since fired] fire] eqn:Hst. simpl in *. simplify_eq.
    destruct (tick_fires _ _ _ (Hclock t ltac:(left)) Hst) as (m' & Hm & Hf & ? & ? & Hs).
    simpl in *. subst. destruct (fired_run m' since ts j) as (k & tk & ? & ? & ?); [done..|].
    exists m', t, (S k), tk. split; [lia|done].
  - destruct (IH (monitor_tick st t).1 i j) as (m & ti & k & tk & ? & ?);
      [intros; apply Hclock; by right|lia|done|done|].
    exists m, ti, (S k), tk. split; [lia|done].
Qed.

(** The watcher does fire: once the first probe against a master has failed, a run of
    failing probes pushes its event at exactly the first tick at which the master has been
    failing for the window configured at that tick. *)
Theorem watcher_fires_when_due (m : string) (t0 : tick) (ticks : list tick)
  (st : failoverProbeStreak) :
  m ≠ "" → tk_now t0 ≠ 0 →
  fs_masterIP st ≠ m ∨ fs_failingSince st = 0 →
  (∀ t, t ∈ t0 :: ticks → fails_on m t) →
  ∀ i, monitor_run st (t0 :: ticks) !! i = Some true ↔
    ∃ t, (t0 :: ticks) !! i = Some t ∧ tk_downAfter t ≤ time_sub (tk_now t) (tk_now t0) ∧
      ∀ k tk, (k < i)%nat → (t0 :: ticks) !! k = Some tk →
              time_sub (tk_now tk) (tk_now t0) < tk_downAfter tk.
Proof.
  intros Hm Hnow Hst Hall i.
  rewrite <-(armed_run m (tk_now t0) (t0 :: ticks) i) by done.
  rewrite !monitor_run_cons, !(tick_fails m) by (done || (apply Hall; left)).
  assert (negb (fs_masterIP st =? m) || time_is_zero (fs_failingSince st) = true) as ->.
  { unfold time_is_zero. rewrite orb_true_iff, negb_true_iff, String.eqb_neq, Z.eqb_eq. done. }
  simpl. rewrite String.eqb_refl. unfold time_is_zero. by rewrite (proj2 (Z.eqb_neq _ 0) Hnow).
Qed.

(** *** Witnesses *)

Definition sample_view (name ip role : string) (epoch : Z) : failoverPodView :=
  mkFailoverPodView name ip false true false true true role "" epoch.

(** A superseded ex-master and its successor. *)
Definition sample_views : list failoverPodView :=
  [sample_view "lr-redis-0" "10.0.0.1" RoleMaster 3; sample_view "lr-redis-1" "10.0.0.2" RoleMaster 4;
   sample_view "lr-redis-2" "10.0.0.3" RoleReplica 5].

Lemma sample_views_distinct p q :
  p ∈ sample_views → q ∈ sample_views → fv_name p = fv_name q → p = q.
Proof.
  unfold sample_views. rewrite !elem_of_cons, !elem_of_nil.
  intros [->|[->|[->|[]]]] [->|[->|[->|[]]]]; done.
Qed.

Lemma resolveFailoverIntent_spec_witness :
  resolveFailoverIntent (reverse sample_views) = mkFailoverIntent "lr-redis-1" "10.0.0.2" 5.
Proof.
  destruct (resolveFailoverIntent_spec sample_views (reverse sample_views))
    as (_ & _ & _ & _ & ->).
  - unfold sample_views. intros q. rewrite !elem_of_cons, elem_of_nil.
    intros [->|[->|[->|[]]]]; done.
  - exact sample_views_distinct.
  - intros p. by rewrite elem_of_reverse.
  - reflexivity.
Defined.

Definition sample_tick (master : string) (ok : bool) (now : time) : tick :=
  mkTick (Some master) (5 * second) ok now.

(** Two outages of one master with a recovery between them. *)
Definition sample_ticks : list tick :=
  [sample_tick "10.0.0.1" false (100 * second); sample_tick "10.0.0.1" false (106 * second);
   sample_tick "10.0.0.1" false (107 * second); sample_tick "10.0.0.1" true (108 * second);
   sample_tick "10.0.0.1" false (109 * second); sample_tick "10.0.0.1" false (115 * second)].

Lemma watcher_fires_once_witness :
  monitor_run (mkStreak "" 0 false) sample_ticks = [false; true; false; false; false; true] ∧
  ∃ m ti k tk, (1 < k ≤ 5)%nat ∧ sample_ticks !! 1%nat = Some ti ∧ fails_on m ti ∧
               sample_ticks !! k = Some tk ∧ ¬ fails_on m tk.
Proof.
  split; [reflexivity|].
  apply (watcher_fires_once sample_ticks (mkStreak "" 0 false) 1 5).
  - unfold sample_ticks. intros t. rewrite !elem_of_cons, elem_of_nil.
    intros [->|[->|[->|[->|[->|[->|[]]]]]]]; done.
  - lia.
  - reflexivity.
  - reflexivity.
Defined.

Lemma watcher_fires_when_due_witness :
  monitor_run (mkStreak "" 0 false) (take 3 sample_ticks) !! 1%nat = Some true.
Proof.
  apply (watcher_fires_when_due "10.0.0.1" (sample_tick "10.0.0.1" false (100 * second))
    [sample_tick "10.0.0.1" false (106 * second); sample_tick "10.0.0.1" false (107 * second)]
    (mkStreak "" 0 false)).
  - done.
  - done.
  - by right.
  - intros t. rewrite !elem_of_cons, elem_of_nil. intros [->|[->|[->|[]]]]; done.
  - eexists. split; [reflexivity|]. split; [done|].
    intros [|k] tk Hk; [intros [= <-]; done|lia].
Defined.
