(* ===== verification/Capture.v ===== *)
(** * Capture by another Sentinel deployment
    (src/internal/redis/cross_instance.go, src/internal/controller/forsaken_plan.go,
    quarantine_plan.go, stale_master_name_plan.go)

    Two Sentinel deployments that share a master name can merge: the Sentinels of one
    instance then serve the other one's master.  This file models the verdict
    ([planForsaken]), the quarantine that takes the captured instance's pods away
    ([planQuarantine], guarded by [quarantineDataRisk]), the removal of left-over master
    names ([planStaleMasterNames]) and the diagnostics of the command-line tool. *)

From S2P Require Import Prelude GoStrings Probe ClusterState ReplicationTypes.
From S2P Require Import ReplicationState Recovery.

Open Scope Z_scope.
Open Scope go_scope.

(** ** Definitions *)

Definition sentinelProcessReplicas : Z := 3.
Definition forsakenCooldown : duration := 30 * second.
Definition forsakenMonitoringFloor : Z := sentinelProcessReplicas `quot` 2 + 1.

(** [t != nil && !t.IsZero()] *)
Definition marked (t : option time) : bool :=
  match t with Some t => negb (time_is_zero t) | None => false end.

(** A set of strings built by a loop, and [sortedKeys] of it. *)
Definition string_set (l : list string) : gmap string bool := foldl (λ m x, <[x := true]> m) ∅ l.

(** *** The capture verdict *)

Record forsakenPlan := mkForsakenPlan {
  fk_Captured : bool;
  fk_Forsaken : bool;
  fk_ForeignMaster : string;
}.

Definition monitoredAddresses (sn : SentinelNodeState) : list MonitoredMaster :=
  (if sn_Monitoring sn then [mkMonitoredMaster "" (sn_MasterIP sn) (sn_MasterFlags sn) ""] else [])
  ++ sn_MonitoredMasters sn.

Section Planners.
Context `{GoRuntime}.

Definition sortedKeys (s : site) (m : gmap string bool) : list string :=
  sort_strings (fst <$> go_range s m).
Definition dedupSorted (s : site) (l : list string) : list string := sortedKeys s (string_set l).

(** The loop over one Sentinel's masters; [None] is the early return without a verdict. *)
Fixpoint forsaken_observed (state : ReplicationState) (foreign : string) (l : list MonitoredMaster)
  : option string :=
  match l with
  | [] => Some foreign
  | m :: rest =>
      if mm_IP m =? "" then None
      else if negb (foreign =? "") && negb (foreign =? mm_IP m) then None
      else if IsOurs state (mm_IP m) || flaggedDown (mm_Flags m) then None
      else forsaken_observed state (if foreign =? "" then mm_IP m else foreign) rest
  end.

Fixpoint forsaken_survey (state : ReplicationState) (foreign : string) (monitoring : Z)
  (l : list SentinelNodeState) : option (string * Z) :=
  match l with
  | [] => Some (foreign, monitoring)
  | sn :: rest =>
      if negb (sn_Reachable sn) then forsaken_survey state foreign monitoring rest
      else match monitoredAddresses sn with
      | [] => forsaken_survey state foreign monitoring rest
      | observed =>
          match forsaken_observed state foreign observed with
          | None => None
          | Some foreign' => forsaken_survey state foreign' (monitoring + 1) rest
          end
      end
  end.

Definition forsakenSignature (state : ReplicationState) : bool * string :=
  match forsaken_survey state "" 0 (range_values [224] (rs_SentinelNodes state)) with
  | None => (false, "")
  | Some (foreign, monitoring) =>
      if (monitoring <? forsakenMonitoringFloor)%Z then (false, "")
      else if existsb reachable_master (range_values [262] (rs_RedisNodes state)) then (false, "")
      else (true, foreign)
  end.

Definition planForsaken (state : ReplicationState) (since : option time) (now : time)
  (rolling : bool) : forsakenPlan :=
  let '(captured, foreign) := forsakenSignature state in
  let armed := marked since in
  if rolling && negb armed then mkForsakenPlan false false ""
  else if negb captured then mkForsakenPlan false false ""
  else mkForsakenPlan true
         (armed && (forsakenCooldown <=? time_sub now (default 0 since))%Z) foreign.

(** *** The quarantine *)

Inductive quarantinePhase :=
| quarantineNone | quarantineHoldSuspected | quarantineHoldDataPresent
| quarantineHoldDataUnknown | quarantineStart | quarantineSettling | quarantineRelease
| quarantineLatched.

#[export] Instance quarantinePhase_eq_dec : EqDecision quarantinePhase.
Proof. solve_decision. Defined.

Definition quarantineSettlePeriod : duration := 120 * second.
Definition quarantineAttemptLimit : Z := 2.
Definition quarantineAttemptLimitDangerous : Z := 1.

Record quarantineInput := mkQuarantineInput {
  qi_Captured : bool;
  qi_Forsaken : bool;
  qi_DataAtRisk : bool;
  qi_DataUnverified : bool;
  qi_QuarantinedSince : option time;
  qi_Attempts : Z;
  qi_Dangerous : bool;
  qi_Now : time;
}.

Record quarantinePlan := mkQuarantinePlan {
  qp_Phase : quarantinePhase;
  qp_ScaleToZero : bool;
  qp_Arm : bool;
  qp_Clear : bool;
  qp_NextAttempts : Z;
  qp_AttemptLimit : Z;
}.

Definition planQuarantine (in_ : quarantineInput) : quarantinePlan :=
  let limit := if qi_Dangerous in_ then quarantineAttemptLimitDangerous
               else quarantineAttemptLimit in
  let attempts := qi_Attempts in_ in
  if marked (qi_QuarantinedSince in_) then
    if (limit <=? attempts)%Z
    then mkQuarantinePlan quarantineLatched true false false attempts limit
    else if (time_sub (qi_Now in_) (default 0 (qi_QuarantinedSince in_)) <? quarantineSettlePeriod)%Z
    then mkQuarantinePlan quarantineSettling true false false attempts limit
    else mkQuarantinePlan quarantineRelease false false true attempts limit
  else if negb (qi_Captured in_)
  then mkQuarantinePlan quarantineNone false false false attempts limit
  else if qi_DataAtRisk in_
  then mkQuarantinePlan quarantineHoldDataPresent false false false attempts limit
  else if qi_DataUnverified in_
  then mkQuarantinePlan quarantineHoldDataUnknown false false false attempts limit
  else if negb (qi_Forsaken in_)
  then mkQuarantinePlan quarantineHoldSuspected false false false attempts limit
  else mkQuarantinePlan quarantineStart true true false (wrap32 (attempts + 1)) limit.

(** One pod of the loop of [quarantineDataRisk]. *)
Definition pod_risk (foreignMaster : string) (redisReady : gmap string bool)
  (acc : bool * bool) (rn : RedisNodeState) : bool * bool :=
  let '(atRisk, unverified) := acc in
  if negb (rn_Reachable rn) then
    if UnprovablyEmpty rn then (atRisk, true)
    else match redisReady !! rn_PodName rn with
         | Some false => (atRisk, unverified)
         | _ => (atRisk, true)
         end
  else if (rn_Keys rn <=? 0)%Z then (atRisk, unverified)
  else
    let captorsCopy := negb (foreignMaster =? "") && (rn_MasterHost rn =? foreignMaster)
                       && (rn_LinkStatus rn =? "up") in
    (if captorsCopy then atRisk else true, unverified).

(** The result is [(atRisk, unverified)]. *)
Definition quarantineDataRisk (state : option ReplicationState) (foreignMaster : string)
  (redisReady : gmap string bool) : bool * bool :=
  match state with
  | None => (false, true)
  | Some s => foldl (pod_risk foreignMaster redisReady) (false, false)
                (range_values [255] (rs_RedisNodes s))
  end.

(** *** Left-over master names *)

Definition staleNamesConverged : string := "Converged".
Definition staleNamesPruning : string := "Pruning".
Definition staleNamesDeferred : string := "Deferred".
Definition staleNamesForeign : string := "Foreign".
Definition staleGateRule0Pending : string := "G6".

Record staleEntry := mkStaleEntry {
  se_SentinelIP : string;
  se_SentinelPod : string;
  se_Names : list string;
}.

Record StaleMasterNamePlan := mkStaleMasterNamePlan {
  sm_Prune : list staleEntry;
  sm_Skipped : list string;
  sm_Reason : string;
  sm_Message : string;
  sm_Gate : string;
}.

Definition quoteJoin (names : list string) : string :=
  "[" +:+ str_join " " (Quote <$> names) +:+ "]".

Definition addrOrUnknown (ip : string) : string :=
  if ip =? "" then "an address Sentinel did not report" else ip.

Definition failoverInFlightMessage (names : list string) : string :=
  match names with
  | [] => "a Sentinel reports a failover in flight for " +:+ "the desired master name " +:+
          "(the full monitored-master list could not be read this pass, so no other name can be named)"
  | _ => "a failover is in flight under master name(s) " +:+ quoteJoin names
  end.

Definition describeStaleEntries (entries : list staleEntry) : string :=
  str_join ", " ((λ e, se_SentinelPod e +:+ "=" +:+ quoteJoin (se_Names e)) <$> entries).

Definition deferStaleNames (gate why : string) (stale : list string) : StaleMasterNamePlan :=
  let msg := "deferred by gate " +:+ gate +:+ ": " +:+ why in
  mkStaleMasterNamePlan [] [] staleNamesDeferred
    (match stale with
     | [] => msg
     | _ => msg +:+ "; stale master name(s) still present: " +:+ quoteJoin stale
     end) gate.

(** The variables of the survey loop; [foreign] and [unattributable] are one list here,
    which of the two it is depends on [rolling] alone. *)
Record staleSurvey := mkStaleSurvey {
  sv_entries : list staleEntry;
  sv_skipped : list string;
  sv_allStale : gmap string bool;
  sv_failoverUnder : list string;
  sv_strangers : list string;
}.

Definition stranger (state : ReplicationState) (m : MonitoredMaster) : bool :=
  negb (IsOurs state (mm_IP m)) && negb (flaggedDown (mm_Flags m)).

Definition survey_sentinel (state : ReplicationState) (desired : string) (sv : staleSurvey)
  (sn : SentinelNodeState) : staleSurvey :=
  if negb (sn_Reachable sn) then sv
  else
    let stale := bfilter (λ m, negb (mm_Name m =? desired)) (sn_MonitoredMasters sn) in
    let hasDesired := existsb (λ m, mm_Name m =? desired) (sn_MonitoredMasters sn) in
    let names := mm_Name <$> stale in
    let allStale := foldl (λ m x, <[x := true]> m) (sv_allStale sv) names in
    let failoverUnder := sv_failoverUnder sv ++
      (mm_Name <$> bfilter mm_FailoverInProgress (sn_MonitoredMasters sn)) in
    let strangers := sv_strangers sv ++
      ((λ m, Quote (mm_Name m) +:+ " (at " +:+ addrOrUnknown (mm_IP m) +:+ ")") <$>
       bfilter (stranger state) stale) in
    match names with
    | [] => mkStaleSurvey (sv_entries sv) (sv_skipped sv) allStale failoverUnder strangers
    | _ =>
        if negb hasDesired
        then mkStaleSurvey (sv_entries sv) (sv_skipped sv ++ [sn_PodName sn]) allStale
               failoverUnder strangers
        else mkStaleSurvey
               (sv_entries sv ++ [mkStaleEntry (sn_IP sn) (sn_PodName sn) (sort_strings names)])
               (sv_skipped sv) allStale failoverUnder strangers
    end.

Definition empty_survey : staleSurvey := mkStaleSurvey [] [] ∅ [] [].

(** The gates after the survey, G5 first. *)
Definition stale_gates (state : ReplicationState) (desired : string) (quorum : Z) (rolling : bool)
  (sv : staleSurvey) : StaleMasterNamePlan :=
  let staleList := sortedKeys [411] (sv_allStale sv) in
  let entries := sort_slice (less_by_string se_SentinelPod) (sv_entries sv) in
  let skipped := sort_strings (sv_skipped sv) in
  let strangers := str_join ", " (dedupSorted [411] (sv_strangers sv)) in
  let master := rs_RedisNodes state !! rs_RealMasterIP state in
  let reachable := ReachableSentinels state in
  if (0 <? len (sv_strangers sv))%Z then
    if rolling then
      deferStaleNames "G5"
        ("stale master name(s) " +:+ strangers +:+
         " point at an address that is not one of our pods and is not " +:+
         "flagged down, but this instance's own Redis StatefulSet is mid-rollout — a pod we " +:+
         "have just replaced looks exactly like this until down-after-milliseconds elapses, " +:+
         "so the address is unattributable rather than foreign. Nothing was removed") staleList
    else
      mkStaleMasterNamePlan [] [] staleNamesForeign
        ("stale master name(s) " +:+ strangers +:+
         " point at an address that is not one of our pods and is not " +:+
         "flagged down — something else is alive there and this instance may be captured. " +:+
         "Nothing was removed. Do not rename to escape a capture; let the quarantine " +:+
         "complete first, then rename the empty instance.") ""
  else if rs_RealMasterIP state =? "" then
    deferStaleNames "G2" "no living master of ours is known" staleList
  else if negb (bool_decide (rs_RealMasterIP state ∈ rs_LiveTopologyIPs state)) then
    deferStaleNames "G2"
      ("the consensus master " +:+ rs_RealMasterIP state +:+ " is not one of our live pods") staleList
  else if negb (from_option reachable_master false master) then
    deferStaleNames "G2"
      ("the consensus master " +:+ rs_RealMasterIP state +:+
       " does not report itself a reachable master") staleList
  else if (0 <? len (sv_failoverUnder sv))%Z || rs_FailoverReported state then
    deferStaleNames "G3" (failoverInFlightMessage (dedupSorted [411] (sv_failoverUnder sv))) staleList
  else if (reachable <? quorum)%Z || (reachable =? 0)%Z then
    deferStaleNames "G4"
      ("only " +:+ itoa reachable +:+ " Sentinel(s) are reachable, quorum is " +:+ itoa quorum)
      staleList
  else match entries with
  | [] => deferStaleNames staleGateRule0Pending
            ("no Sentinel carries " +:+ Quote desired +:+ " yet; Rule 0 registers it next pass")
            staleList
  | _ =>
      let msg := "removing stale master name(s) " +:+ quoteJoin staleList +:+ " from: " +:+
                 describeStaleEntries entries in
      mkStaleMasterNamePlan entries skipped staleNamesPruning
        (match skipped with
         | [] => msg
         | _ => msg +:+ "; skipped (does not carry " +:+ Quote desired +:+
                " yet, Rule 0 registers it next pass): " +:+ str_join ", " skipped
         end) ""
  end.

Definition planStaleMasterNames (state : option ReplicationState) (desired : string) (quorum : Z)
  (captured rolling : bool) : StaleMasterNamePlan :=
  if captured then
    mkStaleMasterNamePlan [] [] staleNamesForeign
      ("the instance is Forsaken (captured by another Sentinel deployment): " +:+
       "no master-name pruning while the capture verdict holds. Do not rename to escape " +:+
       "a capture — let the quarantine complete first, then rename the empty instance.") ""
  else match state with
  | None => deferStaleNames "G2" "no ground truth was gathered this pass" []
  | Some state =>
      if desired =? "" then deferStaleNames "G1" "the desired master name is empty" []
      else
        let sv := foldl (survey_sentinel state desired) empty_survey
                    (range_values [183] (rs_SentinelNodes state)) in
        if (size (sv_allStale sv) =? 0)%nat
        then mkStaleMasterNamePlan [] [] staleNamesConverged
               ("every reachable Sentinel monitors exactly " +:+ Quote desired) ""
        else stale_gates state desired quorum rolling sv
  end.

(** The driver's verdict as [planOperation] reads it: done, blocked. *)
Definition operationDriverReport (plan : StaleMasterNamePlan) : bool * bool :=
  if sm_Reason plan =? staleNamesConverged then (true, false)
  else if sm_Reason plan =? staleNamesForeign then (false, true)
  else if sm_Reason plan =? staleNamesDeferred
  then (false, negb (sm_Gate plan =? staleGateRule0Pending))
  else (false, false).

(** *** Diagnostics of the command-line tool *)

Record SentinelCount := mkSentinelCount {
  sct_PodName : string;
  sct_Reported : Z;
  sct_Expected : Z;
}.

Record CrossInstanceEvidence := mkCrossInstanceEvidence {
  ci_ForeignMasterIPs : list string;
  ci_ForeignReplicaIPs : list string;
  ci_PeerSurplus : list SentinelCount;
  ci_ReplicaSurplus : list SentinelCount;
}.

Definition Any (e : CrossInstanceEvidence) : bool :=
  (0 <? len (ci_ForeignMasterIPs e))%Z || (0 <? len (ci_ForeignReplicaIPs e))%Z ||
  (0 <? len (ci_PeerSurplus e))%Z || (0 <? len (ci_ReplicaSurplus e))%Z.

(** [ip != "" && !s.IsOurs(ip) && !flaggedDown(flags)] *)
Definition alive_elsewhere (s : ReplicationState) (ip flags : string) : bool :=
  negb (ip =? "") && negb (IsOurs s ip) && negb (flaggedDown flags).

(** The Sentinels the loop does not skip. *)
Definition monitoring_sentinels (s : ReplicationState) : list SentinelNodeState :=
  bfilter (λ sn, sn_Reachable sn && sn_Monitoring sn) (range_values [86] (rs_SentinelNodes s)).

Definition surplus (reported : SentinelNodeState → Z) (expected : Z) (l : list SentinelNodeState)
  : list SentinelCount :=
  sort_slice (less_by_string sct_PodName)
    ((λ sn, mkSentinelCount (sn_PodName sn) (reported sn) expected) <$>
     bfilter (λ sn, expected <? reported sn)%Z l).

Definition DetectCrossInstance (s : ReplicationState) (expectedSentinels expectedReplicas : Z)
  : CrossInstanceEvidence :=
  let expectedPeers := Z.max (expectedSentinels - 1) 0 in
  let l := monitoring_sentinels s in
  let masters := string_set (sn_MasterIP <$>
    bfilter (λ sn, alive_elsewhere s (sn_MasterIP sn) (sn_MasterFlags sn)) l) in
  let replicas := string_set (ri_IP <$>
    bfilter (λ r, alive_elsewhere s (ri_IP r) (ri_Flags r)) (mjoin (sn_Replicas <$> l))) in
  mkCrossInstanceEvidence (sortedKeys [131] masters) (sortedKeys [131] replicas)
    (surplus sn_NumOtherSentinels expectedPeers l) (surplus sn_NumSlaves expectedReplicas l).

Definition MasterNameDesired : string := "desired".
Definition MasterNameStale : string := "stale".
Definition MasterNameForeign : string := "foreign".

Definition ClassifyMonitoredName (name ip flags desired : string) (ourIPs : gset string) : string :=
  if name =? desired then MasterNameDesired
  else if bool_decide (ip ∈ ourIPs) || flaggedDown flags then MasterNameStale
  else MasterNameForeign.

Record MonitoredNameFinding := mkMonitoredNameFinding {
  mf_SentinelPod : string;
  mf_Name : string;
  mf_IP : string;
  mf_Flags : string;
  mf_Class : string;
}.

Record MasterNameScope := mkMasterNameScope {
  ms_Findings : list MonitoredNameFinding;
  ms_Stale : list string;
  ms_Foreign : list string;
  ms_Unreported : list string;
}.

Definition Converged (s : MasterNameScope) : bool :=
  (len (ms_Stale s) =? 0)%Z && (len (ms_Foreign s) =? 0)%Z.

Definition less_finding (a b : MonitoredNameFinding) : bool :=
  if negb (mf_SentinelPod a =? mf_SentinelPod b) then mf_SentinelPod a <? mf_SentinelPod b
  else mf_Name a <? mf_Name b.

Definition findings_of (s : ReplicationState) (desired : string) (sn : SentinelNodeState)
  : list MonitoredNameFinding :=
  (λ m, mkMonitoredNameFinding (sn_PodName sn) (mm_Name m) (mm_IP m) (mm_Flags m)
          (ClassifyMonitoredName (mm_Name m) (mm_IP m) (mm_Flags m) desired (rs_OwnedIPs s)))
  <$> sn_MonitoredMasters sn.

Definition SurveyMonitoredNames (state : option ReplicationState) (desired : string)
  : MasterNameScope :=
  match state with
  | None => mkMasterNameScope [] [] [] []
  | Some s =>
      if desired =? "" then mkMasterNameScope [] [] [] []
      else
        let l := bfilter sn_Reachable (range_values [234] (rs_SentinelNodes s)) in
        let unreported := bfilter (λ sn, len (sn_MonitoredMasters sn) =? 0)%Z l in
        let findings := mjoin (findings_of s desired <$> l) in
        let names class := string_set (mf_Name <$> bfilter (λ f, mf_Class f =? class) findings) in
        mkMasterNameScope (sort_slice less_finding findings)
          (sortedKeys [131] (names MasterNameStale)) (sortedKeys [131] (names MasterNameForeign))
          (sort_strings (sn_PodName <$> unreported))
  end.

End Planners.

(** ** The verdict *)

(** A reachable Sentinel that reports at least one master, under any name. *)
Definition speaks (sn : SentinelNodeState) : bool :=
  sn_Reachable sn && (0 <? len (monitoredAddresses sn))%Z.

(** Every master that a reachable Sentinel reports is alive at [captor], which is not ours;
    a majority of the deployed Sentinels reports one; no reachable pod is a master. *)
Record captured_by (s : ReplicationState) (captor : string) : Prop := {
  cb_foreign : captor ≠ "" ∧ IsOurs s captor = false;
  cb_agreed sn m : sn ∈ sentinels s → sn_Reachable sn = true → m ∈ monitoredAddresses sn →
    mm_IP m = captor ∧ flaggedDown (mm_Flags m) = false;
  cb_majority : forsakenMonitoringFloor ≤ count speaks (sentinels s);
  cb_no_master ip rn : rs_RedisNodes s !! ip = Some rn → reachable_master rn = false;
}.

Lemma forsaken_observed_app s l1 l2 : ∀ f,
  forsaken_observed s f (l1 ++ l2) = forsaken_observed s f l1 ≫= λ f', forsaken_observed s f' l2.
Proof. induction l1 as [|m l1 IH]; intros f; [done|]. simpl. repeat case_match; done || apply IH. Qed.

(** The nested loops are one loop over all reported masters. *)
Lemma forsaken_survey_flat s l : ∀ f n,
  forsaken_survey s f n l =
  (λ f', (f', n + count speaks l)) <$>
  forsaken_observed s f (mjoin (monitoredAddresses <$> bfilter sn_Reachable l)).
Proof.
  induction l as [|sn l IH]; intros f n; cbn [forsaken_survey].
  { simpl. by rewrite Z.add_0_r. }
  rewrite count_cons. unfold speaks at 1, bfilter. cbn [List.filter].
  destruct (sn_Reachable sn); cbn [negb andb]; [|rewrite Z.add_0_l; apply IH].
  rewrite fmap_cons. cbn [mjoin list_join]. rewrite forsaken_observed_app.
  destruct (monitoredAddresses sn) as [|m ms] eqn:E; [apply IH|].
  destruct (forsaken_observed s f (m :: ms)) as [f'|]; [|done]. cbn [mbind option_bind].
  rewrite IH. destruct (forsaken_observed s f' _); [|done]. cbn [fmap option_fmap option_map].
  unfold len. cbn [length]. rewrite (proj2 (Z.ltb_lt 0 (Z.of_nat (S (length ms))))) by lia.
  f_equal. f_equal. lia.
Qed.

Lemma forsaken_observed_known s f l f' : f ≠ "" →
  forsaken_observed s f l = Some f' ↔
  f' = f ∧ ∀ m, m ∈ l → mm_IP m = f ∧ IsOurs s f = false ∧ flaggedDown (mm_Flags m) = false.
Proof.
  intros Hf. induction l as [|m l IH]; cbn [forsaken_observed].
  { split; [intros [= ->]; split; [done|]; by intros m ?%not_elem_of_nil|by intros [-> _]]. }
  rewrite (proj2 (String.eqb_neq f "")) by done. cbn [negb andb].
  setoid_rewrite elem_of_cons. split.
  - destruct (String.eqb_spec (mm_IP m) ""); [done|].
    destruct (String.eqb_spec f (mm_IP m)) as [He|]; [|done]. cbn [negb].
    destruct (IsOurs s (mm_IP m) || _) eqn:Ho; [done|]. apply orb_false_iff in Ho as [Ho Hd].
    intros [-> Hall]%IH. split; [done|]. intros m' [->|Hm']; [by rewrite He|auto].
  - intros [-> Hall]. destruct (Hall m) as (He & Ho & Hd); [auto|].
    rewrite He, String.eqb_refl, Ho, Hd, (proj2 (String.eqb_neq f "")) by done. cbn. apply IH. auto.
Qed.

Lemma forsaken_observed_spec s l f :
  forsaken_observed s "" l = Some f ↔
  (l = [] ∧ f = "") ∨
  (l ≠ [] ∧ f ≠ "" ∧ ∀ m, m ∈ l → mm_IP m = f ∧ IsOurs s f = false ∧ flaggedDown (mm_Flags m) = false).
Proof.
  destruct l as [|m l]; cbn [forsaken_observed].
  { split; [intros [= <-]; auto|intros [[_ ->]|[? _]]; done]. }
  setoid_rewrite elem_of_cons. rewrite String.eqb_refl. cbn [negb andb]. split.
  - destruct (String.eqb_spec (mm_IP m) ""); [done|].
    destruct (IsOurs s (mm_IP m) || _) eqn:Ho; [done|]. apply orb_false_iff in Ho as [Ho Hd].
    intros [-> Hall]%forsaken_observed_known; [|done]. right. split; [done|]. split; [done|].
    intros m' [->|Hm']; auto.
  - intros [[? _]|(_ & Hf & Hall)]; [done|]. destruct (Hall m) as (He & Ho & Hd); [auto|].
    rewrite He, Ho, Hd, (proj2 (String.eqb_neq f "")) by done. cbn.
    apply forsaken_observed_known; auto.
Qed.

Lemma elem_of_reported (l : list SentinelNodeState) m :
  m ∈ mjoin (monitoredAddresses <$> bfilter sn_Reachable l) ↔
  ∃ sn, sn ∈ l ∧ sn_Reachable sn = true ∧ m ∈ monitoredAddresses sn.
Proof.
  rewrite list_elem_of_join. setoid_rewrite list_elem_of_fmap. setoid_rewrite elem_of_bfilter. split.
  - intros (x & Hm & sn & -> & ? & ?). eauto.
  - intros (sn & ? & ? & ?). eauto 6.
Qed.

(** A counted Sentinel has something to say. *)
Lemma count_speaks_reported (l : list SentinelNodeState) :
  0 < count speaks l → mjoin (monitoredAddresses <$> bfilter sn_Reachable l) ≠ [].
Proof.
  unfold count. destruct (bfilter speaks l) as [|sn rest] eqn:E; [simpl; lia|]. intros _ Hnil.
  assert (sn ∈ sn :: rest) as Hin by left. rewrite <-E in Hin.
  apply elem_of_bfilter in Hin as [Hin [Hr Hl]%andb_true_iff].
  destruct (monitoredAddresses sn) as [|m ms] eqn:Em; [done|].
  assert (m ∈ mjoin (monitoredAddresses <$> bfilter sn_Reachable l)) as Hm.
  { apply elem_of_reported. exists sn. rewrite Em. split; [done|]. split; [done|left]. }
  rewrite Hnil in Hm. by apply not_elem_of_nil in Hm.
Qed.

Section Verdict.
Context `{GoRuntime}.

Lemma forsakenSignature_spec s f :
  forsakenSignature s = (true, f) ↔ captured_by s f.
Proof.
  unfold forsakenSignature. rewrite forsaken_survey_flat.
  set (l := range_values [224] (rs_SentinelNodes s)).
  assert (Hl : l ≡ₚ sentinels s) by apply range_sentinels.
  assert (Hcount : count speaks l = count speaks (sentinels s)) by (by apply count_permutation).
  assert (Hmaster : existsb reachable_master (range_values [262] (rs_RedisNodes s)) = false ↔
                    ∀ ip rn, rs_RedisNodes s !! ip = Some rn → reachable_master rn = false).
  { rewrite <-not_true_iff_false, existsb_elem_of. setoid_rewrite elem_of_range_values. split.
    - intros Hn ip rn Hrn. apply not_true_iff_false. intros Hm. apply Hn. eauto.
    - intros Hn (rn & [ip Hrn] & Hm). by rewrite (Hn ip rn Hrn) in Hm. }
  split.
  - destruct (forsaken_observed _ _ _) as [f'|] eqn:Ho; [|done]. cbn [fmap option_fmap option_map].
    destruct (Z.ltb_spec (0 + count speaks l) forsakenMonitoringFloor) as [|Hfl]; [done|].
    destruct (existsb _ _) eqn:Hm; [done|]. intros [= ->].
    apply forsaken_observed_spec in Ho as [[Hnil _]|(_ & Hf & Hall)].
    { exfalso. apply (count_speaks_reported l); [|done]. unfold forsakenMonitoringFloor, sentinelProcessReplicas in Hfl.
      change (3 `quot` 2 + 1) with 2 in Hfl. lia. }
    assert (Hobs : ∀ sn m, sn ∈ sentinels s → sn_Reachable sn = true → m ∈ monitoredAddresses sn →
              mm_IP m = f ∧ IsOurs s f = false ∧ flaggedDown (mm_Flags m) = false).
    { intros sn m Hsn Hr Hin. apply Hall, elem_of_reported. exists sn. by rewrite Hl. }
    split; [|intros; naive_solver|lia|by apply Hmaster]. split; [done|].
    destruct (mjoin (monitoredAddresses <$> bfilter sn_Reachable l)) as [|m ms] eqn:E.
    { exfalso. apply (count_speaks_reported l); [|done]. change forsakenMonitoringFloor with 2 in Hfl. lia. }
    by apply (Hall m); left.
  - intros [[Hf Ho] Hag Hmaj Hno].
    assert (forsaken_observed s "" (mjoin (monitoredAddresses <$> bfilter sn_Reachable l)) = Some f) as ->.
    { apply forsaken_observed_spec. right. change forsakenMonitoringFloor with 2 in Hmaj.
      split; [apply count_speaks_reported; lia|]. split; [done|].
      intros m (sn & Hsn & Hr & Hm)%elem_of_reported. rewrite Hl in Hsn.
      destruct (Hag sn m Hsn Hr Hm). auto. }
    cbn [fmap option_fmap option_map]. rewrite (proj2 (Z.ltb_ge _ _)) by lia.
    by rewrite (proj2 Hmaster Hno).
Qed.

Lemma planForsaken_facts s since now rolling :
  let plan := planForsaken s since now rolling in
  (∀ captor, fk_Captured plan = true ∧ fk_ForeignMaster plan = captor ↔
     captured_by s captor ∧ (rolling = true → marked since = true)) ∧
  (fk_Forsaken plan = true ↔
     fk_Captured plan = true ∧ ∃ t, since = Some t ∧ time_is_zero t = false ∧
     forsakenCooldown ≤ time_sub now t).
Proof.
  intros plan. unfold plan, planForsaken. clear plan.
  destruct (forsakenSignature s) as [captured f] eqn:Hsig.
  destruct (rolling && negb (marked since)) eqn:Hr.
  { apply andb_true_iff in Hr as [-> Hm%negb_true_iff]. simpl. split; [|naive_solver].
    intros captor. split; [by intros [? _]|]. intros [_ Harm]. by rewrite Harm in Hm. }
  assert (Hroll : rolling = true → marked since = true).
  { intros ->. by destruct (marked since). }
  destruct captured; cbn [negb].
  - split; simpl.
    + intros captor. rewrite <-forsakenSignature_spec, Hsig. naive_solver.
    + rewrite andb_true_iff, Z.leb_le. unfold marked. destruct since as [t|]; [|naive_solver].
      rewrite negb_true_iff. simpl. naive_solver.
  - simpl. split; [|naive_solver]. intros captor. rewrite <-forsakenSignature_spec, Hsig. naive_solver.
Qed.

(** The capture verdict is exactly the documented one.  An instance counts as captured
    by the address [captor] when every master that any reachable Sentinel reports, under
    whatever name, is alive at that one address, which no pod of the instance holds, a
    majority of the deployed Sentinels reports one, and no reachable pod is a master; a
    rolling StatefulSet can keep the verdict from starting but not an established one from
    holding; and it is final after the cooldown.  Map iteration order has no influence. *)
Theorem planForsaken_spec s since now rolling :
  let plan := planForsaken s since now rolling in
  (∀ captor, fk_Captured plan = true ∧ fk_ForeignMaster plan = captor ↔
     captured_by s captor ∧ (rolling = true → marked since = true)) ∧
  (fk_Forsaken plan = true ↔
     fk_Captured plan = true ∧ ∃ t, since = Some t ∧ time_is_zero t = false ∧
     forsakenCooldown ≤ time_sub now t).
Proof. apply planForsaken_facts. Qed.

End Verdict.

(** ** Left-over master names *)

(** The entries of a Sentinel that carry another name than the desired one. *)
Definition stale_masters (desired : string) (sn : SentinelNodeState) : list MonitoredMaster :=
  bfilter (λ m, negb (mm_Name m =? desired)) (sn_MonitoredMasters sn).

Definition carries (desired : string) (sn : SentinelNodeState) : bool :=
  existsb (λ m, mm_Name m =? desired) (sn_MonitoredMasters sn).

Definition entry_of (desired : string) (sn : SentinelNodeState) : staleEntry :=
  mkStaleEntry (sn_IP sn) (sn_PodName sn) (sort_strings (mm_Name <$> stale_masters desired sn)).

(** The survey in closed form. *)
Definition stale_reported (desired : string) (l : list SentinelNodeState) : list MonitoredMaster :=
  mjoin (stale_masters desired <$> bfilter sn_Reachable l).

Definition survey_of (s : ReplicationState) (desired : string) (l : list SentinelNodeState) : staleSurvey :=
  let reachable := bfilter sn_Reachable l in
  let stale := bfilter (λ sn, negb (bool_decide (stale_masters desired sn = []))) reachable in
  mkStaleSurvey
    (entry_of desired <$> bfilter (carries desired) stale)
    (sn_PodName <$> bfilter (λ sn, negb (carries desired sn)) stale)
    (string_set (mm_Name <$> stale_reported desired l))
    (mm_Name <$> bfilter mm_FailoverInProgress (mjoin (sn_MonitoredMasters <$> reachable)))
    ((λ m, Quote (mm_Name m) +:+ " (at " +:+ addrOrUnknown (mm_IP m) +:+ ")") <$>
     bfilter (stranger s) (stale_reported desired l)).

Lemma bfilter_one {A} (f : A → bool) x : bfilter f [x] = if f x then [x] else [].
Proof. done. Qed.

Lemma survey_snoc s desired l sn :
  survey_of s desired (l ++ [sn]) = survey_sentinel s desired (survey_of s desired l) sn.
Proof.
  unfold survey_sentinel, survey_of at 1, stale_reported. rewrite bfilter_app, bfilter_one.
  destruct (sn_Reachable sn); cbn [negb]; [|by rewrite app_nil_r].
  fold (stale_masters desired sn). fold (carries desired sn).
  unfold string_set. repeat rewrite ?fmap_app, ?join_app, ?bfilter_app, ?foldl_app.
  rewrite !bfilter_one. cbn [fmap list_fmap mjoin list_join]. rewrite !app_nil_r.
  destruct (stale_masters desired sn) as [|m ms] eqn:E.
  - rewrite bool_decide_eq_true_2 by done. cbn [negb bfilter List.filter fmap list_fmap]. by rewrite !app_nil_r.
  - rewrite bool_decide_eq_false_2 by done. cbn [negb]. rewrite !bfilter_one.
    destruct (carries desired sn); cbn [negb fmap list_fmap]; rewrite ?app_nil_r; [|done].
    unfold entry_of at 2. by rewrite E.
Qed.

Lemma survey_closed s desired l :
  foldl (survey_sentinel s desired) empty_survey l = survey_of s desired l.
Proof.
  induction l as [|sn l IH] using rev_ind; [done|]. by rewrite foldl_app, survey_snoc, <-IH.
Qed.

(** The conditions under which names are removed from a Sentinel, [e] being what is removed. *)
Record prune_safe (s : ReplicationState) (desired : string) (quorum : Z) (e : staleEntry) : Prop := {
  ps_entry : ∃ sn, sn ∈ sentinels s ∧ sn_Reachable sn = true ∧ carries desired sn = true ∧
    se_SentinelIP e = sn_IP sn ∧ se_SentinelPod e = sn_PodName sn ∧
    ∀ n, n ∈ se_Names e ↔ n ≠ desired ∧ ∃ m, m ∈ sn_MonitoredMasters sn ∧ mm_Name m = n;
  ps_ours sn m : sn ∈ sentinels s → sn_Reachable sn = true → m ∈ sn_MonitoredMasters sn →
    mm_Name m ≠ desired → IsOurs s (mm_IP m) = true ∨ flaggedDown (mm_Flags m) = true;
  ps_quiet sn m : sn ∈ sentinels s → sn_Reachable sn = true → m ∈ sn_MonitoredMasters sn →
    mm_FailoverInProgress m = false;
  ps_no_failover : rs_FailoverReported s = false;
  ps_master : rs_RealMasterIP s ∈ rs_LiveTopologyIPs s ∧
    ∃ rn, rs_RedisNodes s !! rs_RealMasterIP s = Some rn ∧ reachable_master rn = true;
  ps_quorum : quorum ≤ reachable_sentinels s ∧ 0 < reachable_sentinels s;
}.

Lemma elem_of_stale_masters desired sn m :
  m ∈ stale_masters desired sn ↔ m ∈ sn_MonitoredMasters sn ∧ mm_Name m ≠ desired.
Proof. unfold stale_masters. by rewrite elem_of_bfilter, negb_true_iff, String.eqb_neq. Qed.

Lemma elem_of_stale_reported desired l m :
  m ∈ stale_reported desired l ↔
  ∃ sn, sn ∈ l ∧ sn_Reachable sn = true ∧ m ∈ sn_MonitoredMasters sn ∧ mm_Name m ≠ desired.
Proof.
  unfold stale_reported. rewrite list_elem_of_join. setoid_rewrite list_elem_of_fmap.
  setoid_rewrite elem_of_bfilter. split.
  - intros (x & Hm & sn & -> & ? & ?). exists sn. by rewrite <-elem_of_stale_masters.
  - intros (sn & ? & ? & Hm). rewrite <-elem_of_stale_masters in Hm. eauto 6.
Qed.

Lemma string_set_empty l : string_set l = ∅ ↔ l = [].
Proof.
  assert (Hgen : ∀ l m, m ≠ ∅ → foldl (λ (m : gmap string bool) x, <[x := true]> m) m l ≠ ∅).
  { clear. induction l as [|x l IH]; intros m Hm; [done|]. cbn [foldl]. apply IH, insert_non_empty. }
  destruct l as [|x l]; [done|]. split; [|done]. intros He. exfalso. unfold string_set in He. cbn [foldl] in He.
  revert He. apply Hgen, insert_non_empty.
Qed.

Lemma fmap_nil_iff' {A B} (g : A → B) l : g <$> l = [] ↔ l = [].
Proof. by destruct l. Qed.

Section Names.
Context `{GoRuntime}.

Lemma ReachableSentinels_count s : ReachableSentinels s = reachable_sentinels s.
Proof.
  unfold ReachableSentinels, reachable_sentinels.
  rewrite <-(count_permutation _ _ _ (range_sentinels [615] s)).
  assert (Hgen : ∀ l n, foldl (λ n sn, if sn_Reachable sn then n + 1 else n) n l = n + count sn_Reachable l).
  { induction l as [|sn l IH]; intros n; cbn [foldl]; [unfold count; simpl; lia|].
    rewrite IH, count_cons. destruct (sn_Reachable sn); lia. }
  by rewrite Hgen.
Qed.

Lemma len_not_pos {A} (l : list A) : (0 <? len l)%Z = false ↔ l = [].
Proof. unfold len. rewrite Z.ltb_ge. destruct l; simpl; [done|]. split; [lia|done]. Qed.

(** A removal that is planned passed every gate. *)
Lemma stale_gates_pass s desired quorum rolling sv e :
  e ∈ sm_Prune (stale_gates s desired quorum rolling sv) →
  e ∈ sv_entries sv ∧ sv_strangers sv = [] ∧ sv_failoverUnder sv = [] ∧ rs_FailoverReported s = false ∧
  rs_RealMasterIP s ∈ rs_LiveTopologyIPs s ∧
  (∃ rn, rs_RedisNodes s !! rs_RealMasterIP s = Some rn ∧ reachable_master rn = true) ∧
  quorum ≤ reachable_sentinels s ∧ reachable_sentinels s ≠ 0.
Proof.
  unfold stale_gates. rewrite ReachableSentinels_count. intros He.
  destruct (0 <? len (sv_strangers sv))%Z eqn:Hstr; [destruct rolling; by apply not_elem_of_nil in He|].
  destruct (_ =? ""); [by apply not_elem_of_nil in He|].
  destruct (negb (bool_decide _)) eqn:Hlive; [by apply not_elem_of_nil in He|].
  destruct (negb (from_option _ _ _)) eqn:Hm; [by apply not_elem_of_nil in He|].
  destruct ((0 <? len (sv_failoverUnder sv))%Z || _) eqn:Hf; [by apply not_elem_of_nil in He|].
  destruct ((reachable_sentinels s <? quorum)%Z || (reachable_sentinels s =? 0)%Z) eqn:Hq; [by apply not_elem_of_nil in He|].
  apply orb_false_iff in Hf as [Hf Hrep], Hq as [Hq%Z.ltb_ge Hq0%Z.eqb_neq].
  apply len_not_pos in Hstr, Hf. apply negb_false_iff in Hlive, Hm.
  split; [|split; [done|]; split; [done|]; split; [done|]; split; [by apply bool_decide_eq_true in Hlive|]].
  - destruct (sort_slice _ _) as [|e0 es] eqn:E; [by apply not_elem_of_nil in He|]. rewrite <-E in He.
    simpl in He. by rewrite sort_slice_perm in He.
  - destruct (rs_RedisNodes s !! _) as [rn|]; [|done]. split; [by exists rn|done].
Qed.

Lemma survey_of_safe s desired quorum l e :
  l ≡ₚ sentinels s → (∃ rolling, e ∈ sm_Prune (stale_gates s desired quorum rolling (survey_of s desired l))) →
  prune_safe s desired quorum e.
Proof.
  intros Hl [rolling (He & Hstr & Hf & Hrep & Hlive & Hm & Hq & Hq0)%stale_gates_pass].
  cbn [survey_of sv_entries sv_strangers sv_failoverUnder] in *.
  apply fmap_nil_inv in Hstr, Hf. pose proof (proj1 (bfilter_nil _ _) Hstr) as Hours.
  pose proof (proj1 (bfilter_nil _ _) Hf) as Hquiet. split; [| | |done|done|].
  - apply list_elem_of_fmap in He as (sn & -> & Hsn). rewrite !elem_of_bfilter, Hl in Hsn.
    destruct Hsn as [[[Hsn Hr] _] Hc]. exists sn. split; [done|]. split; [done|]. split; [done|].
    split; [done|]. split; [done|]. intros n. unfold entry_of. cbn [se_Names].
    rewrite sort_strings_perm, list_elem_of_fmap. setoid_rewrite elem_of_stale_masters. naive_solver.
  - intros sn m Hsn Hr Hin Hne. specialize (Hours m). rewrite elem_of_stale_reported in Hours.
    assert (stranger s m = false) as Hno by (apply Hours; exists sn; by rewrite Hl).
    unfold stranger in Hno. by destruct (IsOurs s (mm_IP m)), (flaggedDown (mm_Flags m)); auto.
  - intros sn m Hsn Hr Hin. apply Hquiet. rewrite list_elem_of_join. exists (sn_MonitoredMasters sn).
    split; [done|]. apply list_elem_of_fmap. exists sn. split; [done|]. by rewrite elem_of_bfilter, Hl.
  - split; [done|]. pose proof (count_nonneg sn_Reachable (sentinels s)). unfold reachable_sentinels in *. lia.
Qed.

Lemma pruned_safely s desired quorum captured rolling e :
  e ∈ sm_Prune (planStaleMasterNames (Some s) desired quorum captured rolling) →
  captured = false ∧ desired ≠ "" ∧ prune_safe s desired quorum e.
Proof.
  unfold planStaleMasterNames. destruct captured; [by intros ?%not_elem_of_nil|].
  destruct (String.eqb_spec desired ""); [by intros ?%not_elem_of_nil|]. rewrite survey_closed.
  destruct (size _ =? 0)%nat; [by intros ?%not_elem_of_nil|]. intros He.
  split; [done|]. split; [done|]. eapply survey_of_safe; [apply range_sentinels|by eexists].
Qed.

(** Removing a left-over master name is safe.  A Sentinel is told to forget exactly the
    names it monitors besides the desired one, which it monitors too; every such name, on
    any reachable Sentinel, points at a pod of this instance or at a server that is down; no
    failover is running under any name; the configured quorum of Sentinels is reachable; the
    instance has a living master; and it is not captured. *)
Theorem planStaleMasterNames_safe s desired quorum captured rolling e :
  e ∈ sm_Prune (planStaleMasterNames (Some s) desired quorum captured rolling) →
  captured = false ∧ desired ≠ "" ∧ prune_safe s desired quorum e.
Proof. apply pruned_safely. Qed.

(** The rule reports convergence exactly when no reachable Sentinel lists another name. *)
Lemma planStaleMasterNames_converged s desired quorum captured rolling :
  sm_Reason (planStaleMasterNames (Some s) desired quorum captured rolling) = staleNamesConverged ↔
  captured = false ∧ desired ≠ "" ∧
  ∀ sn m, sn ∈ sentinels s → sn_Reachable sn = true → m ∈ sn_MonitoredMasters sn → mm_Name m = desired.
Proof.
  unfold planStaleMasterNames. destruct captured; [naive_solver|].
  destruct (String.eqb_spec desired ""); [naive_solver|]. rewrite survey_closed.
  set (l := range_values _ _). assert (Hl : l ≡ₚ sentinels s) by apply range_sentinels.
  assert (Hsize : (size (sv_allStale (survey_of s desired l)) =? 0)%nat = true ↔ ∀ sn m,
    sn ∈ sentinels s → sn_Reachable sn = true → m ∈ sn_MonitoredMasters sn → mm_Name m = desired).
  { rewrite Nat.eqb_eq, map_size_empty_iff. cbn [survey_of sv_allStale].
    rewrite string_set_empty, fmap_nil_iff'. setoid_rewrite <-Hl. split.
    - intros Hnil sn m Hsn Hr Hm. destruct (decide (mm_Name m = desired)) as [|Hne]; [done|].
      assert (m ∈ stale_reported desired l) as Hin by (apply elem_of_stale_reported; eauto).
      rewrite Hnil in Hin. by apply not_elem_of_nil in Hin.
    - intros Hall. destruct (stale_reported desired l) as [|m ms] eqn:E; [done|].
      assert (m ∈ stale_reported desired l) as Hin by (rewrite E; left).
      apply elem_of_stale_reported in Hin as (sn & ? & ? & ? & Hne). by destruct Hne; eauto. }
  destruct (size _ =? 0)%nat.
  - split; [|done]. intros _. split; [done|]. split; [done|]. by apply Hsize.
  - split; [|intros (_ & _ & Hall); by apply Hsize in Hall]. intros Hr. exfalso.
    unfold stale_gates in Hr. repeat case_match; done.
Qed.

End Names.

(** *** Witnesses *)

Definition sample_sentinel (pod ip : string) (masters : list MonitoredMaster) : SentinelNodeState :=
  mkSentinelNode pod ip true "10.0.0.1" true [] "" "master" 2 2 masters ProbeOK "".
Definition sample_master (name ip flags : string) : MonitoredMaster := mkMonitoredMaster name ip flags "".
Definition sample_redis (pod ip role master : string) (keys : Z) : RedisNodeState :=
  mkRedisNode pod ip role master "up" 100 keys "id" "" true ProbeOK "".

(** Three Sentinels; two of them still carry the name used before a rename. *)
Definition renamed_state : ReplicationState :=
  let ours := {["10.0.0.1"; "10.0.0.2"; "10.0.1.1"; "10.0.1.2"; "10.0.1.3"]} in
  mkReplicationState
    {["10.0.0.1" := sample_redis "lr-redis-0" "10.0.0.1" "master" "" 7;
      "10.0.0.2" := sample_redis "lr-redis-1" "10.0.0.2" "slave" "10.0.0.1" 7]}
    {["10.0.1.1" := sample_sentinel "lr-sentinel-0" "10.0.1.1"
        [sample_master "mymaster" "10.0.0.1" "master"; sample_master "ns.cache" "10.0.0.1" "master"];
      "10.0.1.2" := sample_sentinel "lr-sentinel-1" "10.0.1.2"
        [sample_master "mymaster" "10.0.9.9" "master,s_down"; sample_master "ns.cache" "10.0.0.1" "master"];
      "10.0.1.3" := sample_sentinel "lr-sentinel-2" "10.0.1.3" [sample_master "ns.cache" "10.0.0.1" "master"]]}
    ours ours "10.0.0.1" false false.

Lemma planStaleMasterNames_safe_witness :
  prune_safe renamed_state "ns.cache" 2 (mkStaleEntry "10.0.1.2" "lr-sentinel-1" ["mymaster"]).
Proof.
  refine (proj2 (proj2 (@planStaleMasterNames_safe ref_runtime renamed_state "ns.cache" 2 false false _ _))).
  vm_compute. right. left.
Defined.
