(* ===== verification/Gather.v ===== *)
(** * Gathering the ground truth
    (src/internal/redis/gather.go, src/internal/controller/gatherer.go and the readers of
    src/internal/redis/client.go and cluster_client.go)

    The servers' replies, as go-redis returns them, are the record [Wire]; everything above
    it, up to the assembled state, is translated.  Probes run concurrently: the order in
    which their results arrive is [go_schedule]. *)

From Stdlib Require Import Ascii.
From stdpp Require Import relations.
From S2P Require Import Prelude GoStrings Probe ClusterNodes ClusterState.
From S2P Require Import ReplicationTypes Info Lineage ReplicationState Recovery.

Open Scope Z_scope.
Open Scope go_scope.

(** ** Definitions *)

(** *** Readers *)

(** A Go pair [(value, error)] of which exactly one is set. *)
Abbreviation result A := (A + probe_error)%type.

(** [fmt.Errorf("<prefix>: %w", err)] keeps the chain of the wrapped error. *)
Definition wrap_error (prefix : string) (e : probe_error) : probe_error :=
  mkProbeError (prefix +:+ ": " +:+ err_text e) (err_is_ctx_deadline e) (err_is_os_deadline e)
    (err_net_timeout e) (err_is_errno e) (err_is_dns e) (err_is_redis e).

(** [fmt.Errorf("<text>")]. *)
Definition plain_error (text : string) : probe_error :=
  mkProbeError text false false false (λ _, false) false false.

(** The replies of the servers, by address. *)
Record Wire := mkWire {
  wire_info : string → result string;
  wire_master : string → string → result (gmap string string);
  wire_masters : string → result (list reply);
  wire_replicas : string → string → result (list (gmap string string));
  wire_myid : string → result reply;
  wire_cluster_nodes : string → result string;
  wire_cluster_info : string → result string;
}.

Definition RedisPort : Z := 6379.
Definition SentinelPort : Z := 26379.

Definition address (ip : string) (port : Z) : string := ip +:+ ":" +:+ itoa port.

Definition GetReplicationInfo (w : Wire) (addr : string) : result ReplicationSnapshot :=
  match wire_info w addr with
  | inr err => inr (wrap_error "failed to get info" err)
  | inl info => inl (snapshot_of_info info)
  end.

Record MasterInfo := mkMasterInfo {
  mi_IP : string;
  mi_Port : string;
  mi_Name : string;
  mi_Flags : string;
  mi_FailoverState : string;
  mi_NumOtherSentinels : Z;
  mi_NumSlaves : Z;
}.

Definition field (r : gmap string string) (k : string) : string := default "" (r !! k).

Definition master_info_of (r : gmap string string) : MasterInfo :=
  mkMasterInfo (field r "ip") (field r "port") (field r "name") (field r "flags")
    (field r "failover-state") (atoiOrZero (field r "num-other-sentinels"))
    (atoiOrZero (field r "num-slaves")).

(** The first Sentinel that answers; [lastErr] is the last failure. *)
Fixpoint first_answer {A} (ask : string → result A) (wrap none : string)
  (addresses : list string) (lastErr : option probe_error) : result A :=
  match addresses with
  | [] => inr (match lastErr with
               | Some err => wrap_error wrap err
               | None => plain_error none
               end)
  | addr :: rest =>
      match ask addr with
      | inr err => first_answer ask wrap none rest (Some err)
      | inl a => inl a
      end
  end.

Definition GetMasterState (w : Wire) (addresses : list string) (name : string)
  : result MasterInfo :=
  first_answer (λ addr, match wire_master w addr name with
                        | inl r => inl (master_info_of r)
                        | inr err => inr err
                        end)
    "failed to get master state" "no sentinels available" addresses None.

Definition replica_of (raw : gmap string string) : ReplicaInfo :=
  mkReplicaInfo (field raw "ip") (field raw "port") (field raw "flags").

Definition getReplicasFromSentinel (w : Wire) (masterName addr : string)
  : result (list ReplicaInfo) :=
  match wire_replicas w addr masterName with
  | inr err => inr (wrap_error "failed to get replicas" err)
  | inl r => inl (replica_of <$> r)
  end.

Definition GetReplicas (w : Wire) (addresses : list string) (masterName : string)
  : result (list ReplicaInfo) :=
  first_answer (getReplicasFromSentinel w masterName)
    "failed to get replicas from any sentinel" "no sentinels available" addresses None.

Definition GetMonitoredMasters (w : Wire) (addr : string) : result (list MonitoredMaster) :=
  match wire_masters w addr with
  | inr err => inr (wrap_error "failed to list monitored masters" err)
  | inl raw => inl (parseMonitoredMasters raw)
  end.

Definition GetMyID (w : Wire) (addr : string) : result string :=
  match wire_myid w addr with
  | inr err => inr (wrap_error "failed to get node ID" err)
  | inl (RString id) => inl id
  | inl _ => inr (plain_error "unexpected result type for CLUSTER MYID")
  end.

Definition GetClusterNodes (w : Wire) (addr : string) : result (list ClusterNodeInfo) :=
  match wire_cluster_nodes w addr with
  | inr err => inr (wrap_error "failed to get cluster nodes" err)
  | inl text => inl (ParseClusterNodes text)
  end.

Definition GetClusterInfo (w : Wire) (addr : string) : result ClusterInfo :=
  match wire_cluster_info w addr with
  | inr err => inr (wrap_error "failed to get cluster info" err)
  | inl text => inl (ParseClusterInfo text)
  end.

(** *** The gatherer *)

Record Gatherer := mkGatherer {
  g_GetRedisState : string → string → result RedisNodeState;
  g_GetSentinelState : string → string → string → result SentinelNodeState;
  g_GetClusterID : string → string → result string;
  g_GetClusterInfo : string → string → result ClusterInfo;
  g_GetClusterNodes : string → string → result (list ClusterNodeInfo);
}.

Definition operator_GetRedisState (w : Wire) (podName ip : string) : result RedisNodeState :=
  match GetReplicationInfo w (address ip RedisPort) with
  | inr err => inr err
  | inl snap =>
      inl (mkRedisNode podName ip (snap_Role snap) (snap_MasterHost snap)
             (snap_MasterLinkStatus snap) (snap_Offset snap) (snap_Keys snap)
             (snap_Replid snap) (snap_Replid2 snap) true ProbeOK "")
  end.

(** A failure to list the monitored masters degrades to an empty list. *)
Definition monitoredMasters (w : Wire) (podAddr : string) : list MonitoredMaster :=
  match GetMonitoredMasters w podAddr with inl masters => masters | inr _ => [] end.

Definition operator_GetSentinelState (w : Wire) (podName ip masterName : string)
  : result SentinelNodeState :=
  if masterName =? ""
  then inr (plain_error "sentinel gather requires a master name, but none was passed")
  else
    let podAddr := address ip SentinelPort in
    match GetMasterState w [podAddr] masterName with
    | inr err =>
        if str_contains (err_text err) "ERR No such master" || str_contains (err_text err) "redis: nil"
        then inl (mkSentinelNode podName ip false "" true [] "" "" 0 0
                    (monitoredMasters w podAddr) ProbeOK "")
        else inr err
    | inl m =>
        inl (mkSentinelNode podName ip true (mi_IP m) true
               (match GetReplicas w [podAddr] masterName with inl reps => reps | inr _ => [] end)
               (mi_FailoverState m) (mi_Flags m) (mi_NumOtherSentinels m) (mi_NumSlaves m)
               (monitoredMasters w podAddr) ProbeOK "")
    end.

Definition operatorGatherer (w : Wire) : Gatherer :=
  mkGatherer (operator_GetRedisState w) (operator_GetSentinelState w)
    (λ _ ip, GetMyID w (address ip RedisPort))
    (λ _ ip, GetClusterInfo w (address ip RedisPort))
    (λ _ ip, GetClusterNodes w (address ip RedisPort)).

(** *** GatherReplicationState *)

Definition set_Nodes (s : ReplicationState) (rn : gmap string RedisNodeState)
  (sn : gmap string SentinelNodeState) : ReplicationState :=
  mkReplicationState rn sn (rs_LiveTopologyIPs s) (rs_OwnedIPs s) (rs_RealMasterIP s)
    (rs_FailoverReported s) (rs_FailoverProgressing s).

(** One probe: an error is classified, not discarded. *)
Definition probe_redis (g : Gatherer) (ip name : string) : RedisNodeState :=
  match g_GetRedisState g name ip with
  | inl rs => rs
  | inr err => mkRedisNode name ip "" "" "" 0 0 "" "" false (ClassifyProbeError (Some err))
                 (DescribeProbeError (Some err))
  end.

Definition probe_sentinel (g : Gatherer) (masterName ip name : string) : SentinelNodeState :=
  match g_GetSentinelState g name ip masterName with
  | inl ss => ss
  | inr err => mkSentinelNode name ip false "" false [] "" "" 0 0 []
                 (ClassifyProbeError (Some err)) (DescribeProbeError (Some err))
  end.

(** [for _, r := range results { m[r.ip] = r.state }] *)
Definition assemble {A} (results : list (string * A)) : gmap string A :=
  foldl (λ m r, <[r.1 := r.2]> m) ∅ results.

Section Gathering.
Context `{GoRuntime}.

Definition GatherReplicationState (g : Gatherer) (redisPods sentinelPods : gmap string string)
  (masterName : string) (ownedIPs : gmap string bool) : ReplicationState :=
  let s0 := foldl AddOwnedIP NewReplicationState (fst <$> go_range [78] ownedIPs) in
  let redis := go_range [96] redisPods in
  let s1 := foldl AddLiveTopologyIP s0 (fst <$> redis) in
  let sentinel := go_range [118] sentinelPods in
  let s2 := foldl AddLiveTopologyIP s1 (fst <$> sentinel) in
  let redisResults := go_schedule [113] ((λ '(ip, name), (ip, probe_redis g ip name)) <$> redis) in
  let sentinelResults :=
    go_schedule [131] ((λ '(ip, name), (ip, probe_sentinel g masterName ip name)) <$> sentinel) in
  DetermineRealMaster (set_Nodes s2 (assemble redisResults) (assemble sentinelResults)).

(** *** GatherClusterGroundTruth *)

Definition probe_identity (g : Gatherer) (ip name : string) : ClusterNodeState :=
  match g_GetClusterID g name ip with
  | inr err => mkClusterNode name ip "" [] "" "" "" false (ClassifyProbeError (Some err))
                 (DescribeProbeError (Some err))
  | inl id =>
      let link := match g_GetRedisState g name ip with inl rs => rn_LinkStatus rs | inr _ => "" end in
      mkClusterNode name ip id [] "" "" link true ProbeOK ""
  end.

Definition gatherNodeIdentities (g : Gatherer) (clusterPods : gmap string string)
  : list ClusterNodeState :=
  (λ '(ip, name), probe_identity g ip name) <$> go_range [197] clusterPods.

Record topoView := mkTopoView {
  tv_state : string;
  tv_haveState : bool;
  tv_slotsAssigned : Z;
  tv_seenIDs : list string;
  tv_known : list string;
  tv_hasNodes : bool;
  tv_asm : bool;
}.

(** The node's own entry in its CLUSTER NODES view. *)
Definition fold_own_entry (n : ClusterNodeState) (k : ClusterNodeInfo) : ClusterNodeState :=
  if ci_NodeID k =? cn_NodeID n
  then mkClusterNode (cn_PodName n) (cn_PodIP n) (cn_NodeID n) (ci_Slots k)
         (if IsReplica k then roleReplica else roleMaster) (ci_MasterID k) (cn_LinkStatus n)
         (cn_Reachable n) (cn_ProbeFailure n) (cn_ProbeError n)
  else n.

(** The node is mutated in place: the result is the node and its view. *)
Definition probeNodeTopology (g : Gatherer) (n : ClusterNodeState)
  : ClusterNodeState * topoView :=
  let v0 := match g_GetClusterInfo g (cn_PodName n) (cn_PodIP n) with
            | inl info => mkTopoView (cinfo_State info) true (cinfo_SlotsAssigned info) [] [] false
                            (cinfo_AtomicSlotMigration info)
            | inr _ => mkTopoView "" false 0 [] [] false false
            end in
  match g_GetClusterNodes g (cn_PodName n) (cn_PodIP n) with
  | inr _ => (n, v0)
  | inl nodes =>
      (foldl fold_own_entry n nodes,
       mkTopoView (tv_state v0) (tv_haveState v0) (tv_slotsAssigned v0) (ci_NodeID <$> nodes)
         (ci_NodeID <$> bfilter (λ k, negb (nodeFlagsFailed (ci_Flags k))) nodes) true (tv_asm v0))
  end.

(** The merge of one view; the accumulator is the ground truth, [asmAll] and [adj]. *)
Definition merge_view (acc : ClusterGroundTruth * bool * gmap string (list string))
  (nv : ClusterNodeState * topoView) : ClusterGroundTruth * bool * gmap string (list string) :=
  let '(gt, asmAll, adj) := acc in
  let '(n, v) := nv in
  let asmAll := if negb (tv_haveState v) || negb (tv_asm v) then false else asmAll in
  let state :=
    if tv_haveState v then
      if tv_state v =? "ok" then "ok"
      else if (gt_ClusterState gt =? "") || (gt_ClusterState gt =? "unknown") then tv_state v
      else gt_ClusterState gt
    else gt_ClusterState gt in
  let slots := if tv_haveState v && (gt_TotalSlots gt <? tv_slotsAssigned v)%Z
               then tv_slotsAssigned v else gt_TotalSlots gt in
  (mkGroundTruth (gt_Nodes gt) (gt_Partitions gt) (gt_GhostNodes gt) state slots
     (list_to_set (tv_seenIDs v) ∪ gt_AllNodeIDs gt) (gt_KnownNodes gt)
     (gt_AtomicSlotMigration gt),
   asmAll,
   if tv_hasNodes v then <[cn_NodeID n := tv_known v]> adj else adj).

Definition set_gt_nodes (gt : ClusterGroundTruth) (nodes : gmap string ClusterNodeState)
  : ClusterGroundTruth :=
  mkGroundTruth nodes (gt_Partitions gt) (gt_GhostNodes gt) (gt_ClusterState gt)
    (gt_TotalSlots gt) (gt_AllNodeIDs gt) (gt_KnownNodes gt) (gt_AtomicSlotMigration gt).

Definition gatherTopology (g : Gatherer) (gt : ClusterGroundTruth)
  : ClusterGroundTruth * gmap string (list string) :=
  let reachable := bfilter (λ p, cn_Reachable p.2) (go_range [250] (gt_Nodes gt)) in
  let probed := (λ p, (p.1, probeNodeTopology g p.2)) <$> reachable in
  let gt1 := set_gt_nodes gt (foldl (λ m p, <[p.1 := p.2.1]> m) (gt_Nodes gt) probed) in
  let '(gt2, asmAll, adj) :=
    foldl merge_view (gt1, (0 <? length reachable)%nat, ∅) (snd <$> probed) in
  (mkGroundTruth (gt_Nodes gt2) (gt_Partitions gt2) (gt_GhostNodes gt2) (gt_ClusterState gt2)
     (gt_TotalSlots gt2) (gt_AllNodeIDs gt2) (gt_KnownNodes gt2) asmAll, adj).

(** The neighbours of one node: register and enqueue the unvisited live ones. *)
Fixpoint visit_neighbors (live : gmap string string) (neighbors : list string)
  (visited : gset string) (queue : list string) : gset string * list string :=
  match neighbors with
  | [] => (visited, queue)
  | n :: rest =>
      if bool_decide (is_Some (live !! n)) && negb (bool_decide (n ∈ visited))
      then visit_neighbors live rest ({[n]} ∪ visited) (queue ++ [n])
      else visit_neighbors live rest visited queue
  end.

(** The breadth-first search from a queue; every node enters the queue at most once, so
    the number of live nodes bounds the rounds.  [None] is running out of fuel. *)
Fixpoint bfs (fuel : nat) (live : gmap string string) (adj : gmap string (list string))
  (visited : gset string) (queue partition : list string)
  : option (gset string * list string) :=
  match queue with
  | [] => Some (visited, partition)
  | curr :: rest =>
      match fuel with
      | O => None
      | S fuel' =>
          let '(visited', queue') := visit_neighbors live (default [] (adj !! curr)) visited rest in
          bfs fuel' live adj visited' queue' (partition ++ [curr])
      end
  end.

Fixpoint partitions_from (live : gmap string string) (adj : gmap string (list string))
  (ids : list string) (visited : gset string) (partitions : list (list string))
  : option (list (list string)) :=
  match ids with
  | [] => Some partitions
  | id :: rest =>
      if bool_decide (id ∈ visited) then partitions_from live adj rest visited partitions
      else match bfs (size live) live adj ({[id]} ∪ visited) [id] [] with
           | None => None
           | Some (visited', p) => partitions_from live adj rest visited' (partitions ++ [p])
           end
  end.

(** The default is never used ([compute_partitions_total] below). *)
Definition computePartitions (nodeIDtoPod : gmap string string)
  (adj : gmap string (list string)) : list (list string) :=
  default [] (partitions_from nodeIDtoPod adj (fst <$> go_range [347] nodeIDtoPod) ∅ []).

Definition index_identity (acc : gmap string ClusterNodeState * gmap string string)
  (ns : ClusterNodeState) : gmap string ClusterNodeState * gmap string string :=
  (<[cn_PodName ns := ns]> acc.1,
   if cn_Reachable ns then <[cn_NodeID ns := cn_PodName ns]> acc.2 else acc.2).

Definition GatherClusterGroundTruth (g : Gatherer) (clusterPods : gmap string string)
  : ClusterGroundTruth :=
  let '(nodes, nodeIDtoPod) :=
    foldl index_identity (∅, ∅) (gatherNodeIdentities g clusterPods) in
  let '(gt1, adj) := gatherTopology g (set_gt_nodes NewClusterGroundTruth nodes) in
  let ghosts := bfilter (λ id, negb (bool_decide (is_Some (nodeIDtoPod !! id))))
                  (fst <$> go_range [175] (gset_to_gmap tt (gt_AllNodeIDs gt1))) in
  mkGroundTruth (gt_Nodes gt1) (computePartitions nodeIDtoPod adj) ghosts
    (if gt_ClusterState gt1 =? "" then "unknown" else gt_ClusterState gt1)
    (gt_TotalSlots gt1) (gt_AllNodeIDs gt1) adj (gt_AtomicSlotMigration gt1).

End Gathering.

(** ** What the gather assembles *)

Lemma lookup_assemble {A} (l : list (string * A)) k :
  NoDup l.*1 → assemble l !! k = (list_to_map l : gmap string A) !! k.
Proof.
  intros Hnd. unfold assemble. rewrite foldl_insert by done. by rewrite (right_id_L ∅ (∪)).
Qed.

(** Results that arrive in any order are assembled into one map. *)
Lemma assemble_results `{GoRuntime} {A} (site1 site2 : site) (pods : gmap string string)
  (probe : string → string → A) ip :
  assemble (go_schedule site1 ((λ '(ip, name), (ip, probe ip name)) <$> go_range site2 pods)) !! ip
  = probe ip <$> pods !! ip.
Proof.
  set (l := (λ '(ip, name), (ip, probe ip name)) <$> go_range site2 pods).
  assert (Hfst : l.*1 = (go_range site2 pods).*1).
  { unfold l. rewrite <-list_fmap_compose. apply list_fmap_ext. intros i [k n] _. done. }
  assert (Hnd : NoDup l.*1) by (rewrite Hfst; apply NoDup_go_range_fst).
  assert (Hnd' : NoDup (go_schedule site1 l).*1) by (by rewrite go_schedule_perm).
  rewrite lookup_assemble by done.
  rewrite (list_to_map_proper (go_schedule site1 l) l Hnd' (go_schedule_perm site1 l)).
  destruct (pods !! ip) as [name|] eqn:E; simpl.
  - apply elem_of_list_to_map_1; [done|]. unfold l. apply list_elem_of_fmap.
    exists (ip, name). split; [done|]. by apply elem_of_go_range.
  - apply not_elem_of_list_to_map_1. rewrite Hfst. intros ([ip' name] & Heq & Hin)%list_elem_of_fmap.
    apply elem_of_go_range in Hin. simpl in Heq. congruence.
Qed.

(** The fields DetermineRealMaster leaves alone. *)
Lemma DetermineRealMaster_frame `{GoRuntime} s :
  let s' := DetermineRealMaster s in
  rs_RedisNodes s' = rs_RedisNodes s ∧ rs_SentinelNodes s' = rs_SentinelNodes s ∧
  rs_LiveTopologyIPs s' = rs_LiveTopologyIPs s ∧ rs_OwnedIPs s' = rs_OwnedIPs s.
Proof.
  simpl. unfold DetermineRealMaster. rewrite foldl_report_failover.
  destruct (foldl count_vote _ _) as [m r]. by repeat case_match.
Qed.

(** The non-empty addresses of a list. *)
Definition addresses (ips : list string) : gset string :=
  list_to_set (bfilter (λ ip, negb (ip =? "")) ips).

Lemma elem_of_addresses ips ip : ip ∈ addresses ips ↔ ip ∈ ips ∧ ip ≠ "".
Proof.
  unfold addresses. rewrite elem_of_list_to_set, elem_of_bfilter, negb_true_iff.
  by rewrite String.eqb_neq.
Qed.

Lemma addresses_cons ip ips :
  addresses (ip :: ips) = (if ip =? "" then ∅ else {[ip]}) ∪ addresses ips.
Proof. unfold addresses, bfilter. simpl. destruct (ip =? ""); simpl; set_solver. Qed.

Lemma set_IPs_id s : set_IPs s (rs_LiveTopologyIPs s) (rs_OwnedIPs s) = s.
Proof. by destruct s. Qed.

Lemma foldl_AddLiveTopologyIP ips : ∀ s,
  foldl AddLiveTopologyIP s ips =
  set_IPs s (addresses ips ∪ rs_LiveTopologyIPs s) (addresses ips ∪ rs_OwnedIPs s).
Proof.
  induction ips as [|ip ips IH]; intros s; simpl.
  - unfold addresses. simpl. rewrite !(left_id_L ∅ (∪)). by rewrite set_IPs_id.
  - rewrite IH, addresses_cons. unfold AddLiveTopologyIP.
    destruct (ip =? ""); unfold set_IPs; simpl; f_equal; set_solver.
Qed.

Lemma foldl_AddOwnedIP ips : ∀ s,
  foldl AddOwnedIP s ips = set_IPs s (rs_LiveTopologyIPs s) (addresses ips ∪ rs_OwnedIPs s).
Proof.
  induction ips as [|ip ips IH]; intros s; simpl.
  - unfold addresses. simpl. rewrite !(left_id_L ∅ (∪)). by rewrite set_IPs_id.
  - rewrite IH, addresses_cons. unfold AddOwnedIP.
    destruct (ip =? ""); unfold set_IPs; simpl; f_equal; set_solver.
Qed.

Lemma elem_of_range_keys `{GoRuntime} {V} site (m : gmap string V) k :
  k ∈ (go_range site m).*1 ↔ is_Some (m !! k).
Proof.
  rewrite list_elem_of_fmap. split.
  - intros ([k' v] & Heq & Hin%elem_of_go_range). simpl in Heq. subst. eauto.
  - intros [v Hv]. exists (k, v). split; [done|]. by apply elem_of_go_range.
Qed.

(** ** Theorems *)

(** The gathered replication state, whatever the order of the maps and of the concurrent
    probes: each probed pod's result is stored under its own address, nothing else is, the
    live topology is exactly the probed addresses, and the owned addresses are these and the
    ones the caller knows of. *)
Theorem GatherReplicationState_spec `{GoRuntime} (g : Gatherer)
  (redisPods sentinelPods : gmap string string) (masterName : string)
  (ownedIPs : gmap string bool) :
  let s := GatherReplicationState g redisPods sentinelPods masterName ownedIPs in
  (∀ ip, rs_RedisNodes s !! ip = probe_redis g ip <$> redisPods !! ip) ∧
  (∀ ip, rs_SentinelNodes s !! ip = probe_sentinel g masterName ip <$> sentinelPods !! ip) ∧
  (∀ ip, ip ∈ rs_LiveTopologyIPs s ↔
     ip ≠ "" ∧ (is_Some (redisPods !! ip) ∨ is_Some (sentinelPods !! ip))) ∧
  (∀ ip, ip ∈ rs_OwnedIPs s ↔
     ip ≠ "" ∧ (is_Some (redisPods !! ip) ∨ is_Some (sentinelPods !! ip) ∨ is_Some (ownedIPs !! ip))).
Proof.
  intros s. unfold s, GatherReplicationState.
  match goal with |- context [DetermineRealMaster ?s0] =>
    destruct (DetermineRealMaster_frame s0) as (-> & -> & -> & ->) end.
  rewrite foldl_AddOwnedIP, !foldl_AddLiveTopologyIP. simpl.
  split; [|split; [|split]]; intros ip.
  - apply assemble_results.
  - apply (assemble_results [131] [118] sentinelPods (probe_sentinel g masterName)).
  - rewrite !elem_of_union, !elem_of_addresses, !elem_of_range_keys, elem_of_empty. tauto.
  - rewrite !elem_of_union, !elem_of_addresses, !elem_of_range_keys, elem_of_empty. tauto.
Qed.

(** *** A refused credential *)

Lemma to_lower_app s t : to_lower (s +:+ t) = to_lower s +:+ to_lower t.
Proof. induction s as [|c s IH]; [done|]. rewrite app_cons. simpl. by rewrite IH. Qed.

Lemma str_contains_app_r s t sub : str_contains t sub = true → str_contains (s +:+ t) sub = true.
Proof.
  induction s as [|c s IH]; [done|]. intros Ht. rewrite app_cons. cbn [str_contains].
  rewrite IH by done. apply orb_true_r.
Qed.

(** The server's refusal is visible in the text of the error. *)
Definition refuses_credential (err : probe_error) : Prop :=
  existsb (str_contains (to_lower (err_text err))) authFailureMarkers = true.

Lemma refused_classified prefix err :
  refuses_credential err → ClassifyProbeError (Some (wrap_error prefix err)) = ProbeAuthFailed.
Proof.
  unfold refuses_credential. rewrite existsb_elem_of. intros (m & Hm & Hc).
  unfold ClassifyProbeError, wrap_error. cbv zeta. cbn [err_text].
  assert (existsb (str_contains (to_lower (prefix +:+ ": " +:+ err_text err))) authFailureMarkers
    = true) as ->; [|done].
  apply existsb_elem_of. exists m. split; [done|].
  rewrite !to_lower_app. by do 2 apply str_contains_app_r.
Qed.

Lemma probe_redis_operator w ip name :
  rn_IP (probe_redis (operatorGatherer w) ip name) = ip ∧
  match wire_info w (address ip RedisPort) with
  | inl info => rn_Replid (probe_redis (operatorGatherer w) ip name) = ParseInfoField info "master_replid" ∧
                rn_Replid2 (probe_redis (operatorGatherer w) ip name) = ParseInfoField info "master_replid2"
  | inr err => rn_Replid (probe_redis (operatorGatherer w) ip name) = "" ∧
               rn_Replid2 (probe_redis (operatorGatherer w) ip name) = "" ∧
               (refuses_credential err →
                UnprovablyEmpty (probe_redis (operatorGatherer w) ip name) = true)
  end.
Proof.
  unfold probe_redis, operatorGatherer. cbn [g_GetRedisState].
  unfold operator_GetRedisState, GetReplicationInfo.
  destruct (wire_info w (address ip RedisPort)) as [info|err];
    cbn [rn_IP rn_Replid rn_Replid2]; [done|].
  split; [done|]. split; [done|]. split; [done|]. intros Hr.
  unfold UnprovablyEmpty. cbn [rn_Reachable rn_ProbeFailure negb andb].
  by rewrite refused_classified.
Qed.

(** What the servers report as replication IDs: never a key of the divergence test. *)
Definition server_ids (w : Wire) : Prop :=
  ∀ addr info, wire_info w addr = inl info →
    has_prefix (ParseInfoField info "master_replid") "__noreplid_" = false ∧
    has_prefix (ParseInfoField info "master_replid2") "__noreplid_" = false.

Lemma gathered_node `{GoRuntime} g redisPods sentinelPods masterName ownedIPs ip :
  rs_RedisNodes (GatherReplicationState g redisPods sentinelPods masterName ownedIPs) !! ip =
  probe_redis g ip <$> redisPods !! ip.
Proof.
  unfold GatherReplicationState.
  match goal with |- context [DetermineRealMaster ?s0] =>
    destruct (DetermineRealMaster_frame s0) as (-> & _) end.
  apply assemble_results.
Qed.

Lemma operator_gathered_facts `{GoRuntime} (w : Wire) (redisPods sentinelPods : gmap string string)
  (masterName : string) (ownedIPs : gmap string bool) :
  server_ids w →
  gathered (GatherReplicationState (operatorGatherer w) redisPods sentinelPods masterName ownedIPs).
Proof.
  intros Hw. split; intros ip n; rewrite gathered_node; intros (name & _ & ->)%fmap_Some;
    destruct (probe_redis_operator w ip name) as [Hip Hids]; [done|].
  destruct (wire_info w (address ip RedisPort)) as [info|err] eqn:E.
  - destruct Hids as [-> ->]. by eapply Hw.
  - by destruct Hids as (-> & -> & _).
Qed.

(** The operator's gather establishes what the election theorems assume: every node is
    stored under its own address and carries the replication IDs its server reported. *)
Theorem operator_gathered `{GoRuntime} (w : Wire) (redisPods sentinelPods : gmap string string)
  (masterName : string) (ownedIPs : gmap string bool) :
  server_ids w →
  gathered (GatherReplicationState (operatorGatherer w) redisPods sentinelPods masterName ownedIPs).
Proof. apply operator_gathered_facts. Qed.

(** A refused credential vetoes every election, end to end: when the INFO of any gathered
    data pod is answered with an authentication error, neither the leaderless nor the
    ghost-master nor the failover planner elects a master from the gathered state, whatever
    the other pods, the timing and the owner's opt-in. *)
Theorem refused_credential_vetoes `{GoRuntime} (w : Wire) (redisPods sentinelPods : gmap string string)
  (masterName : string) (ownedIPs : gmap string bool) (ip name : string) (err : probe_error)
  (q : Z) (allowUnsafe unsettled : bool) (boot live : string) (since : option time) (now : time)
  (cooldown : duration) :
  redisPods !! ip = Some name →
  wire_info w (address ip RedisPort) = inr err → refuses_credential err →
  let s := GatherReplicationState (operatorGatherer w) redisPods sentinelPods masterName ownedIPs in
  leaderless_elects (planLeaderlessRecovery s q allowUnsafe boot since now cooldown) = None ∧
  leaderless_elects (planGhostMasterRecovery s q allowUnsafe boot since now cooldown) = None ∧
  failover_elects (planFailover s live allowUnsafe boot unsettled since now cooldown) = None.
Proof.
  intros Hip Herr Hr s. assert (Hv : ¬ all_verified s).
  { intros Hall. specialize (Hall ip (probe_redis (operatorGatherer w) ip name)).
    destruct (probe_redis_operator w ip name) as [_ Hu]. rewrite Herr in Hu.
    destruct Hu as (_ & _ & Hu). rewrite (Hu Hr) in Hall. discriminate Hall.
    unfold s. by rewrite gathered_node, Hip. }
  split; [by apply unverified_leaderless|].
  split; [by apply unverified_ghost|by apply unverified_failover].
Qed.

(** *** Witnesses *)

(** One pod answers INFO, the other one refuses the credential. *)
Definition noauth : probe_error :=
  mkProbeError "NOAUTH Authentication required." false false false (λ _, false) false true.

Definition sample_wire : Wire :=
  let fail {A} : result A := inr (plain_error "connection refused") in
  mkWire (λ addr, if addr =? "10.0.0.1:6379" then inr noauth else inl (render_info sample_info))
    (λ _ _, fail) (λ _, fail) (λ _ _, fail) (λ _, fail) (λ _, fail) (λ _, fail).

Definition sample_pods : gmap string string :=
  {[ "10.0.0.1" := "lr-redis-0"; "10.0.0.2" := "lr-redis-1" ]}.

Lemma operator_gathered_witness :
  gathered (@GatherReplicationState ref_runtime (operatorGatherer sample_wire) sample_pods ∅ "" ∅).
Proof.
  apply (@operator_gathered ref_runtime sample_wire sample_pods ∅ "" ∅).
  intros addr info. unfold sample_wire. simpl. destruct (addr =? "10.0.0.1:6379"); [discriminate|].
  intros [= <-]. vm_compute. split; reflexivity.
Defined.

Lemma refused_credential_vetoes_witness :
  failover_elects (@planFailover ref_runtime
    (@GatherReplicationState ref_runtime (operatorGatherer sample_wire) sample_pods ∅ "" ∅)
    "" true "10.0.0.2" false None t0 (5 * second)) = None.
Proof.
  refine (proj2 (proj2 (@refused_credential_vetoes ref_runtime sample_wire sample_pods ∅ "" ∅
    "10.0.0.1" "lr-redis-0" noauth 2 true false "10.0.0.2" "" None t0 (5 * second) _ _ _))).
  - reflexivity.
  - reflexivity.
  - vm_compute. reflexivity.
Defined.
