(* ===== verification/Partitions.v ===== *)
(** * The partitions of the cluster mesh (computePartitions of src/internal/redis/gather.go)

    The breadth-first search over the adjacency the nodes report: it terminates, it
    partitions the live nodes, and on a symmetric adjacency its parts are the connected
    components, whatever the map order. *)

From stdpp Require Import relations.
From S2P Require Import Prelude GoStrings Probe ClusterNodes ClusterState Gather.

Open Scope Z_scope.
Open Scope go_scope.

(** ** The search *)

(** [a] reports the live node [b]. *)
Definition knows_live (live : gmap string string) (adj : gmap string (list string))
  (a b : string) : Prop :=
  b ∈ default [] (adj !! a) ∧ is_Some (live !! b).

Lemma visit_neighbors_spec live ns : ∀ visited queue,
  ∃ new, visit_neighbors live ns visited queue = (list_to_set new ∪ visited, queue ++ new) ∧
    NoDup new ∧ (∀ n, n ∈ new → n ∉ visited ∧ n ∈ ns ∧ is_Some (live !! n)) ∧
    (∀ n, n ∈ ns → is_Some (live !! n) → n ∈ visited ∨ n ∈ new).
Proof.
  induction ns as [|n ns IH]; intros visited queue; simpl.
  { exists []. rewrite app_nil_r. split; [f_equal; set_solver|]. split; [constructor|].
    split; intros n Hn; by apply not_elem_of_nil in Hn. }
  case_bool_decide as Hl; simpl; [case_bool_decide as Hv; simpl|].
  - destruct (IH visited queue) as (new & -> & Hnd & Hnew & Hcov). exists new.
    split; [done|]. split; [done|]. split; [|intros x [->|?]%elem_of_cons ?; auto].
    intros x Hx. destruct (Hnew x Hx) as (? & ? & ?). split; [done|]. split; [by right|done].
  - destruct (IH ({[n]} ∪ visited) (queue ++ [n])) as (new & -> & Hnd & Hnew & Hcov).
    exists (n :: new). split.
    { rewrite <-(assoc_L app). f_equal. set_solver. }
    split; [apply NoDup_cons; split; [|done]; intros Hn; destruct (Hnew n Hn); set_solver|].
    split.
    + intros x [->|Hx]%elem_of_cons; [split; [done|]; split; [left|done]|].
      destruct (Hnew x Hx) as (? & ? & ?). split; [set_solver|]. split; [by right|done].
    + intros x [->|Hx]%elem_of_cons Hlx; [right; left|].
      destruct (Hcov x Hx Hlx) as [[->%elem_of_singleton|?]%elem_of_union|?];
        [right; left|by left|right; by right].
  - destruct (IH visited queue) as (new & -> & Hnd & Hnew & Hcov). exists new.
    split; [done|]. split; [done|]. split.
    + intros x Hx. destruct (Hnew x Hx) as (? & ? & ?). split; [done|]. split; [by right|done].
    + intros x [->|?]%elem_of_cons ?; [done|auto].
Qed.

(** The state of one search: started at [root] after the nodes [before] were visited. *)
Record searching (live : gmap string string) (adj : gmap string (list string))
  (root : string) (before visited : gset string) (queue part : list string) : Prop := {
  se_visited : visited = list_to_set (part ++ queue) ∪ before;
  se_nodup : NoDup (part ++ queue);
  se_fresh : ∀ x, x ∈ part ++ queue → x ∉ before ∧ is_Some (live !! x) ∧
                                        rtc (knows_live live adj) root x;
  se_closed : ∀ x y, x ∈ part → knows_live live adj x y → y ∈ visited;
}.

Lemma searching_step live adj root before visited curr queue part :
  searching live adj root before visited (curr :: queue) part →
  let '(visited', queue') := visit_neighbors live (default [] (adj !! curr)) visited queue in
  searching live adj root before visited' queue' (part ++ [curr]) ∧ visited ⊆ visited' ∧
  (length queue' + size visited = length queue + size visited')%nat.
Proof.
  intros [Hvis Hnd Hfresh Hcl].
  destruct (visit_neighbors_spec live (default [] (adj !! curr)) visited queue)
    as (new & -> & Hndn & Hnew & Hcov).
  assert (Hin : ∀ x, x ∈ part ++ curr :: queue → x ∈ visited).
  { intros x Hx. rewrite Hvis. apply elem_of_union. left. by apply elem_of_list_to_set. }
  assert (Hlist : (part ++ [curr]) ++ queue ++ new = (part ++ curr :: queue) ++ new).
  { by rewrite <-!(assoc_L app). }
  split.
  - split; rewrite ?Hlist.
    + rewrite Hvis, !list_to_set_app_L. set_solver.
    + apply NoDup_app. split; [done|]. split; [|done].
      intros x Hx Hn. destruct (Hnew x Hn) as [Hnv _]. by apply Hnv, Hin.
    + intros x [Hx|Hx]%elem_of_app; [by apply Hfresh|].
      destruct (Hnew x Hx) as (Hnv & Hns & Hl). split; [|split; [done|]].
      * intros Hb. apply Hnv. rewrite Hvis. by apply elem_of_union; right.
      * eapply rtc_r; [apply (Hfresh curr); set_solver|by split].
    + intros x y [Hx| ->%list_elem_of_singleton]%elem_of_app Hk.
      * apply elem_of_union. right. by eapply Hcl.
      * destruct Hk as [Hk Hl]. rewrite elem_of_union, elem_of_list_to_set.
        destruct (Hcov y Hk Hl); auto.
  - split; [set_solver|]. rewrite length_app, size_union; [rewrite size_list_to_set by done; lia|].
    intros x Hx%elem_of_list_to_set. by apply Hnew.
Qed.

Lemma searching_live live adj root before visited queue part :
  searching live adj root before visited queue part →
  (∀ x, x ∈ before → is_Some (live !! x)) → visited ⊆ dom live.
Proof.
  intros [Hvis _ Hfresh _] Hb x. rewrite Hvis, elem_of_union, elem_of_list_to_set, elem_of_dom.
  intros [Hx|Hx]; [by destruct (Hfresh x Hx) as (_ & ? & _)|by apply Hb].
Qed.

(** The search returns: the nodes in the queue and those still unvisited bound its rounds. *)
Lemma bfs_spec fuel live adj root before : ∀ visited queue part,
  (∀ x, x ∈ before → is_Some (live !! x)) →
  searching live adj root before visited queue part →
  (length queue + size live ≤ fuel + size visited)%nat →
  ∃ visited' part', bfs fuel live adj visited queue part = Some (visited', part') ∧
    searching live adj root before visited' [] part' ∧ visited ⊆ visited'.
Proof.
  induction fuel as [|fuel IH]; intros visited queue part Hb Hs Hf.
  - pose proof (subseteq_size _ _ (searching_live _ _ _ _ _ _ _ Hs Hb)) as Hsz.
    rewrite size_dom in Hsz. destruct queue; [by exists visited, part|simpl in Hf; lia].
  - destruct queue as [|curr queue]; [by exists visited, part|]. simpl.
    pose proof (searching_step _ _ _ _ _ _ _ _ Hs) as Hstep.
    destruct (visit_neighbors _ _ _ _) as [visited1 queue1]. destruct Hstep as (Hs1 & Hsub & Hsz).
    destruct (IH visited1 queue1 (part ++ [curr])) as (v & p & ? & ? & ?); [done|done| |].
    { simpl in Hf. lia. }
    exists v, p. split; [done|]. split; [done|]. set_solver.
Qed.

(** The parts found so far. *)
Record parts_of (live : gmap string string) (adj : gmap string (list string))
  (visited : gset string) (parts : list (list string)) : Prop := {
  po_visited : visited = list_to_set (concat parts);
  po_nodup : NoDup (concat parts);
  po_live : ∀ x, x ∈ concat parts → is_Some (live !! x);
  po_root : ∀ p, p ∈ parts → ∃ root, root ∈ p ∧ ∀ x, x ∈ p → rtc (knows_live live adj) root x;
  po_closed : ∀ ps p qs x y, parts = ps ++ p :: qs → x ∈ p → knows_live live adj x y →
                             y ∈ concat ps ∨ y ∈ p;
}.

Lemma parts_of_snoc live adj visited parts root :
  parts_of live adj visited parts → root ∉ visited → is_Some (live !! root) →
  ∃ visited' p, bfs (size live) live adj ({[root]} ∪ visited) [root] [] = Some (visited', p) ∧
    parts_of live adj visited' (parts ++ [p]) ∧ {[root]} ∪ visited ⊆ visited'.
Proof.
  intros [Hvis Hnd Hlive Hroot Hcl] Hr Hl.
  assert (Hb : ∀ x, x ∈ visited → is_Some (live !! x)).
  { intros x. rewrite Hvis, elem_of_list_to_set. apply Hlive. }
  assert (Hs : searching live adj root visited ({[root]} ∪ visited) [root] []).
  { split; simpl; [set_solver|apply NoDup_singleton| |].
    - intros x ->%list_elem_of_singleton. split; [done|]. split; [done|]. apply rtc_refl.
    - intros x y Hx. by apply not_elem_of_nil in Hx. }
  destruct (bfs_spec (size live) live adj root visited _ _ _ Hb Hs) as (v & p & Hbfs & Hsv & Hsub).
  { rewrite size_union, size_singleton by set_solver. simpl. lia. }
  exists v, p. split; [done|]. split; [|done]. destruct Hsv as [Hv Hndp Hfresh Hclp].
  rewrite app_nil_r in Hv, Hndp, Hfresh.
  assert (Hcat : concat (parts ++ [p]) = concat parts ++ p).
  { rewrite concat_app. simpl. by rewrite app_nil_r. }
  split; rewrite ?Hcat.
  - rewrite list_to_set_app_L, Hv, Hvis. set_solver.
  - apply NoDup_app. split; [done|]. split; [|done]. intros x Hx Hxp.
    destruct (Hfresh x Hxp) as [Hnv _]. apply Hnv. rewrite Hvis. by apply elem_of_list_to_set.
  - intros x [?|Hx]%elem_of_app; [auto|]. by destruct (Hfresh x Hx) as (_ & ? & _).
  - intros q [Hq| ->%list_elem_of_singleton]%elem_of_app; [by apply Hroot|].
    exists root. split; [|intros x Hx; by apply Hfresh].
    assert (root ∈ v) as Hrv by set_solver.
    rewrite Hv, elem_of_union, elem_of_list_to_set in Hrv. by destruct Hrv.
  - intros ps q qs x y Heq Hx Hk. destruct qs as [|z qs _] using rev_ind.
    + apply app_inj_tail in Heq as [-> ->]. specialize (Hclp x y Hx Hk).
      rewrite Hv, Hvis, elem_of_union, !elem_of_list_to_set in Hclp. tauto.
    + replace (ps ++ q :: qs ++ [z]) with ((ps ++ q :: qs) ++ [z]) in Heq
        by (by rewrite <-(assoc_L app)).
      apply app_inj_tail in Heq as [-> _]. by eapply Hcl.
Qed.

Lemma partitions_from_spec live adj ids : ∀ visited parts,
  (∀ id, id ∈ ids → is_Some (live !! id)) → parts_of live adj visited parts →
  ∃ visited' parts', partitions_from live adj ids visited parts = Some parts' ∧
    parts_of live adj visited' parts' ∧ list_to_set ids ∪ visited ⊆ visited'.
Proof.
  induction ids as [|id ids IH]; intros visited parts Hids Hp; simpl.
  { exists visited, parts. split; [done|]. split; [done|]. set_solver. }
  case_bool_decide as Hv.
  - destruct (IH visited parts) as (v & ps & ? & ? & ?); [intros; apply Hids; by right|done|].
    exists v, ps. split; [done|]. split; [done|]. set_solver.
  - destruct (parts_of_snoc live adj visited parts id Hp Hv) as (v1 & p & -> & Hp1 & Hs1);
      [apply Hids; left|].
    destruct (IH v1 (parts ++ [p])) as (v & ps & ? & ? & ?); [intros; apply Hids; by right|done|].
    exists v, ps. split; [done|]. split; [done|]. set_solver.
Qed.

Lemma parts_of_nil live adj : parts_of live adj ∅ [].
Proof.
  split; simpl; [done|constructor| | |].
  - intros x Hx. by apply not_elem_of_nil in Hx.
  - intros p Hp. by apply not_elem_of_nil in Hp.
  - intros ps p qs x y Heq. by destruct ps.
Qed.

Lemma computePartitions_parts `{GoRuntime} live adj :
  ∃ visited, partitions_from live adj (fst <$> go_range [347] live) ∅ [] =
               Some (computePartitions live adj) ∧
             parts_of live adj visited (computePartitions live adj) ∧
             ∀ x, x ∈ concat (computePartitions live adj) ↔ is_Some (live !! x).
Proof.
  destruct (partitions_from_spec live adj (fst <$> go_range [347]%Z live) ∅ [])
    as (v & ps & Hps & Hp & Hsub); [intros id; apply elem_of_range_keys|apply parts_of_nil|].
  exists v. unfold computePartitions. rewrite Hps. split; [done|]. split; [done|].
  intros x. split; [apply (po_live _ _ _ _ Hp)|].
  intros Hx. assert (x ∈ v) as Hv; [|by rewrite (po_visited _ _ _ _ Hp), elem_of_list_to_set in Hv].
  apply Hsub, elem_of_union. left. apply elem_of_list_to_set. by apply elem_of_range_keys.
Qed.

(** ** Connected components *)

(** Knowing each other is symmetric among the live nodes. *)
Definition symmetric_mesh (live : gmap string string) (adj : gmap string (list string)) : Prop :=
  ∀ a b, is_Some (live !! a) → knows_live live adj a b → knows_live live adj b a.

Lemma concat_elem {A} (ls : list (list A)) x : x ∈ concat ls ↔ ∃ l, x ∈ l ∧ l ∈ ls.
Proof.
  induction ls as [|l ls IH]; simpl.
  - split; [by intros ?%not_elem_of_nil|]. intros (l & _ & Hl). by apply not_elem_of_nil in Hl.
  - rewrite elem_of_app, IH. setoid_rewrite elem_of_cons. split.
    + intros [?|(k & ? & ?)]; eauto.
    + intros (k & ? & [->|?]); eauto.
Qed.

Lemma part_live live adj visited parts p x :
  parts_of live adj visited parts → p ∈ parts → x ∈ p → is_Some (live !! x).
Proof. intros Hp Hin Hx. apply (po_live _ _ _ _ Hp), concat_elem. eauto. Qed.

Lemma part_closed live adj visited parts p x y :
  symmetric_mesh live adj → parts_of live adj visited parts →
  p ∈ parts → x ∈ p → knows_live live adj x y → y ∈ p.
Proof.
  intros Hsym Hp Hin Hx Hk. pose proof Hin as Hin'.
  apply list_elem_of_split in Hin as (ps & qs & Heq).
  destruct (po_closed _ _ _ _ Hp ps p qs x y Heq Hx Hk) as [Hy|]; [|done]. exfalso.
  apply concat_elem in Hy as (q & Hyq & Hq).
  assert (Hlx : is_Some (live !! x)) by (by eapply part_live).
  apply list_elem_of_split in Hq as (ps1 & ps2 & ->).
  assert (Hparts : parts = ps1 ++ q :: (ps2 ++ p :: qs)).
  { rewrite Heq. by rewrite <-(assoc_L app). }
  assert (Hxq : x ∈ concat (ps1 ++ q :: ps2)).
  { rewrite concat_app, elem_of_app. simpl. rewrite elem_of_app.
    destruct (po_closed _ _ _ _ Hp ps1 q _ y x Hparts Hyq) as [?|?]; [by apply Hsym|by left|].
    by right; left. }
  pose proof (po_nodup _ _ _ _ Hp) as Hnd. rewrite Heq, concat_app in Hnd. simpl in Hnd.
  apply NoDup_app in Hnd as (_ & Hdis & _). apply (Hdis x Hxq), elem_of_app. by left.
Qed.

Lemma rtc_symmetric live adj a b :
  symmetric_mesh live adj → is_Some (live !! a) →
  rtc (knows_live live adj) a b → rtc (knows_live live adj) b a.
Proof.
  intros Hsym Ha Hr. induction Hr as [|a b c Hab _ IH]; [apply rtc_refl|].
  eapply rtc_r; [apply IH; apply Hab|]. by apply Hsym.
Qed.

(** ** Theorems *)

(** The search terminates and partitions: every live node is in exactly one part, no
    other node is in any, and no part is empty, for every adjacency the nodes may report. *)
Theorem computePartitions_partition `{GoRuntime} (live : gmap string string)
  (adj : gmap string (list string)) :
  is_Some (partitions_from live adj (fst <$> go_range [347] live) ∅ []) ∧
  concat (computePartitions live adj) ≡ₚ (map_to_list live).*1 ∧
  Forall (λ p, p ≠ []) (computePartitions live adj).
Proof.
  destruct (computePartitions_parts live adj) as (v & Hps & Hp & Hall).
  split; [eauto|]. split.
  - apply NoDup_Permutation; [apply Hp|apply NoDup_fst_map_to_list|].
    intros x. rewrite Hall, list_elem_of_fmap. split.
    + intros [n Hn]. exists (x, n). split; [done|]. by apply elem_of_map_to_list.
    + intros ([k n] & -> & Hn%elem_of_map_to_list). eauto.
  - apply Forall_forall. intros p Hin ->.
    destruct (po_root _ _ _ _ Hp [] Hin) as (r & Hr & _). by apply not_elem_of_nil in Hr.
Qed.

(** On a symmetric mesh the parts are the connected components: a part contains exactly
    the nodes reachable from any of its members, for every map iteration order. *)
Theorem computePartitions_components `{GoRuntime} (live : gmap string string)
  (adj : gmap string (list string)) (p : list string) (x y : string) :
  symmetric_mesh live adj → p ∈ computePartitions live adj → x ∈ p →
  (y ∈ p ↔ rtc (knows_live live adj) x y).
Proof.
  intros Hsym Hin Hx. destruct (computePartitions_parts live adj) as (v & _ & Hp & _).
  split.
  - intros Hy. destruct (po_root _ _ _ _ Hp p Hin) as (r & Hr & Hreach).
    transitivity r; [|by apply Hreach]. apply rtc_symmetric; [done| |by apply Hreach].
    by eapply part_live.
  - intros Hr. induction Hr as [|x z y Hxz _ IH]; [done|]. apply IH. by eapply part_closed.
Qed.

(** Healing never crashes on gathered truth: for every answer of the pods, the partition
    plan of the gathered ground truth is produced without an out-of-range access. *)
Theorem gathered_meet_plan_total `{GoRuntime} (g : Gatherer) (clusterPods : gmap string string) :
  ∃ plan, PlanPartitionMeets (GatherClusterGroundTruth g clusterPods) = Ok plan.
Proof.
  set (gt := GatherClusterGroundTruth g clusterPods).
  assert (Hne : ∀ p, p ∈ gt_Partitions gt → p ≠ []).
  { unfold gt, GatherClusterGroundTruth. destruct (foldl index_identity _ _) as [nodes live].
    destruct (gatherTopology _ _) as [gt1 adj]. simpl. intros p Hp ->.
    destruct (computePartitions_parts live adj) as (v & _ & Hps & _).
    destruct (po_root _ _ _ _ Hps [] Hp) as (r & Hr & _). by apply not_elem_of_nil in Hr. }
  assert (Hseed : ∃ seed, GetLargestPartitionSeed gt = Ok seed).
  { unfold GetLargestPartitionSeed. destruct (gt_Partitions gt) as [|p ps] eqn:E; [eauto|].
    rewrite <-E. destruct (largest_partition_lookup (gt_Partitions gt)) as (id & q & -> & _);
      [by rewrite E|by rewrite E|eauto]. }
  destruct Hseed as [seed Hseed]. unfold PlanPartitionMeets. rewrite Hseed. simpl.
  destruct seed as [seed|]; [|eauto]. destruct (negb _); eauto.
Qed.

(** The parts of an asymmetric mesh depend on the map iteration order: when A reports B
    and B does not report A, as happens while a MEET is still propagating, one order finds
    one part and another order finds two. *)
Theorem asymmetric_partitions_order :
  let live : gmap string string := {[ "a" := "pod-a"; "b" := "pod-b" ]} in
  let adj : gmap string (list string) := {[ "a" := ["a"; "b"]; "b" := ["b"] ]} in
  ∃ R1 R2 : GoRuntime,
    length (@computePartitions R1 live adj) = 1%nat ∧
    length (@computePartitions R2 live adj) = 2%nat.
Proof.
  exists ref_runtime, rev_runtime. split; vm_compute; reflexivity.
Qed.

(** *** Witnesses *)

Definition two_meshes : gmap string (list string) :=
  {[ "a" := ["a"; "b"]; "b" := ["b"; "a"]; "c" := ["c"] ]}.
Definition three_live : gmap string string := {[ "a" := "p0"; "b" := "p1"; "c" := "p2" ]}.


Lemma two_meshes_symmetric : symmetric_mesh three_live two_meshes.
Proof.
  intros x y [n Hx] [Hy _]. revert Hx Hy. unfold three_live, two_meshes.
  rewrite !lookup_insert_Some, lookup_singleton_Some.
  intros [[<- _]|[? [[<- _]|[? [<- _]]]]]; simplify_map_eq; simpl;
    rewrite ?elem_of_cons, ?elem_of_nil.
  - intros [->|[->|[]]]; (split; [simplify_map_eq; set_solver|eauto]).
  - intros [->|[->|[]]]; (split; [simplify_map_eq; set_solver|eauto]).
  - intros [->|[]]; (split; [simplify_map_eq; set_solver|eauto]).
Qed.

Lemma computePartitions_components_witness :
  @computePartitions ref_runtime three_live two_meshes = [["c"]; ["a"; "b"]] ∧
  rtc (knows_live three_live two_meshes) "a" "b".
Proof.
  split; [vm_compute; reflexivity|].
  apply (@computePartitions_components ref_runtime three_live two_meshes ["a"; "b"]).
  - exact two_meshes_symmetric.
  - vm_compute. right. left.
  - left.
  - right. left.
Defined.
