(* ===== verification/ClusterGather.v ===== *)
(** * What the gather of a cluster reports (src/internal/redis/gather.go)

    The invariant that every ground truth assembled by the gather satisfies, for any replies
    of the nodes: the repair and migration handlers rely on it for the identities, the roles
    and the ghosts of the ground truth they act on. *)

From S2P Require Import Prelude GoStrings ClusterNodes ClusterState Info Gather Partitions.

Open Scope Z_scope.
Open Scope go_scope.

(** ** The invariant *)

(** A node that was not described by its own view, or was never reached, has no role and no
    slots; a node with a role has an identity and, for a replica, a master. *)
Record node_wf (n : ClusterNodeState) : Prop := {
  nw_unreachable : cn_Reachable n = false → cn_NodeID n = "" ∧ cn_Role n = "";
  nw_role : cn_Role n = "" ∧ cn_Slots n = [] ∧ cn_MasterNodeID n = "" ∨
            cn_NodeID n ≠ "" ∧ cn_MasterNodeID n ≠ "" ∧ (is_master n = true ∨ is_replica n = true);
  nw_slots : ∀ s, s ∈ cn_Slots n → has_prefix s "[" = false;
}.

Record ground_truth_wf (gt : ClusterGroundTruth) : Prop := {
  gw_named : ∀ p n, gt_Nodes gt !! p = Some n → cn_PodName n = p;
  gw_nodes : ∀ p n, gt_Nodes gt !! p = Some n → node_wf n;
  gw_ghosts : ∀ id p n, id ∈ gt_GhostNodes gt → gt_Nodes gt !! p = Some n →
                cn_Reachable n = true → cn_NodeID n ≠ id;
  gw_known : ∀ id, is_Some (gt_KnownNodes gt !! id) →
               ∃ p n, gt_Nodes gt !! p = Some n ∧ cn_Reachable n = true ∧ cn_NodeID n = id;
  gw_parts : NoDup (concat (gt_Partitions gt)) ∧ Forall (λ p, p ≠ []) (gt_Partitions gt);
  gw_slots : 0 ≤ gt_TotalSlots gt;
}.

(** ** Lemmas *)

(** *** The parser *)

Lemma words_go_nonempty s : ∀ cur w,
  (∀ c, cur = Some c → c ≠ "") → w ∈ String.words_go cur s → w ≠ "".
Proof.
  assert (Hrev : ∀ cur w, (∀ c, cur = Some c → c ≠ "") → w ∈ option_list (String.rev <$> cur) → w ≠ "").
  { intros [[|a c]|] w Hc Hw; simpl in Hw; [by destruct (Hc "")| |by apply elem_of_nil in Hw].
    apply list_elem_of_singleton in Hw as ->. unfold String.rev. simpl.
    assert (Hne : ∀ s t, t ≠ "" → String.rev_app s t ≠ "").
    { clear. induction s as [|b s IH]; intros t Ht; [done|]. by apply IH. }
    by apply Hne. }
  induction s as [|a s IH]; intros cur w Hc Hw; simpl in Hw; [by eapply Hrev|].
  destruct (Ascii.is_space a).
  - apply elem_of_app in Hw as [Hw|Hw]; [by eapply Hrev|]. by eapply IH; [|exact Hw].
  - eapply IH; [|exact Hw]. intros c [= <-]. by destruct cur.
Qed.

Lemma fields_nonempty s w : w ∈ fields s → w ≠ "".
Proof. by apply words_go_nonempty. Qed.

Lemma parsed_node_ids output n :
  n ∈ ParseClusterNodes output →
  ci_NodeID n ≠ "" ∧ ci_MasterID n ≠ "" ∧ ∀ s, s ∈ ci_Slots n → has_prefix s "[" = false.
Proof.
  unfold ParseClusterNodes. rewrite list_elem_of_omap. intros (line & _ & Hp). unfold parse_cluster_node in Hp.
  pose proof (fields_nonempty line) as Hne. destruct (String.eqb line ""); [done|].
  destruct (fields line) as [|id [|addr [|flags [|master [|ping [|pong [|epoch [|link slots]]]]]]]]; try done.
  injection Hp as <-. split; [apply Hne; set_solver|]. split; [apply Hne; set_solver|].
  intros s [_ Hs%negb_true_iff]%elem_of_bfilter. done.
Qed.

(** *** One node *)

Lemma fold_own_entry_frame nodes : ∀ n,
  let n' := foldl fold_own_entry n nodes in
  cn_PodName n' = cn_PodName n ∧ cn_NodeID n' = cn_NodeID n ∧ cn_Reachable n' = cn_Reachable n.
Proof.
  induction nodes as [|k nodes IH]; intros n; [done|]. cbn [foldl].
  destruct (IH (fold_own_entry n k)) as (-> & -> & ->). unfold fold_own_entry. by destruct (_ =? _).
Qed.

Lemma fold_own_entry_wf output n :
  node_wf n → cn_Reachable n = true → node_wf (foldl fold_own_entry n (ParseClusterNodes output)).
Proof.
  assert (Hids := parsed_node_ids output). revert n Hids.
  induction (ParseClusterNodes output) as [|k nodes IH]; intros n Hids Hn Hr; [done|]. cbn [foldl].
  apply IH; [intros m Hm; apply Hids; by right| |].
  - unfold fold_own_entry. destruct (String.eqb_spec (ci_NodeID k) (cn_NodeID n)) as [He|]; [|done].
    destruct (Hids k ltac:(by left)) as (Hid & Hm & Hs). split; cbn.
    + by rewrite Hr.
    + right. rewrite <-He. split; [done|]. split; [done|]. unfold is_master, is_replica. cbn.
      destruct (IsReplica k); [right|left]; done.
    + done.
  - unfold fold_own_entry. by destruct (_ =? _).
Qed.

Section operator.
Context `{GoRuntime} (w : Wire).

Abbreviation g := (operatorGatherer w).

Lemma probe_identity_wf ip name :
  node_wf (probe_identity g ip name) ∧ cn_PodName (probe_identity g ip name) = name.
Proof.
  unfold probe_identity. destruct (g_GetClusterID g name ip) as [id|err]; (split; [|done]).
  - split; cbn; [done|by left|]. intros s Hs. by apply elem_of_nil in Hs.
  - split; cbn; [done|by left|]. intros s Hs. by apply elem_of_nil in Hs.
Qed.

Lemma probeNodeTopology_wf n :
  node_wf n → cn_Reachable n = true →
  let n' := (probeNodeTopology g n).1 in
  node_wf n' ∧ cn_PodName n' = cn_PodName n ∧ cn_NodeID n' = cn_NodeID n ∧ cn_Reachable n' = true.
Proof.
  intros Hn Hr. unfold probeNodeTopology. cbn [operatorGatherer g_GetClusterNodes].
  destruct (GetClusterNodes w _) as [nodes|err] eqn:Hv; cbn [fst]; [|done].
  unfold GetClusterNodes in Hv. destruct (wire_cluster_nodes w _) as [text|]; [|done]. injection Hv as <-.
  split; [by apply fold_own_entry_wf|]. rewrite <-Hr. apply fold_own_entry_frame.
Qed.

(** *** The identities *)

Definition indexed (nodes : gmap string ClusterNodeState) (live : gmap string string) : Prop :=
  ∀ p n, nodes !! p = Some n →
    node_wf n ∧ cn_PodName n = p ∧ (cn_Reachable n = true → is_Some (live !! cn_NodeID n)).

Lemma index_identities l : ∀ nodes live,
  (∀ n, n ∈ l → node_wf n) → indexed nodes live →
  let '(nodes', live') := foldl index_identity (nodes, live) l in indexed nodes' live'.
Proof.
  induction l as [|n l IH]; intros nodes live Hl Hi; [done|]. cbn [foldl].
  apply IH; [intros m Hm; apply Hl; by right|]. cbn [fst snd].
  assert (Hgrow : ∀ id, is_Some (live !! id) →
    is_Some ((if cn_Reachable n then <[cn_NodeID n := cn_PodName n]> live else live) !! id)).
  { intros id Hid. destruct (cn_Reachable n); [|done]. apply lookup_insert_is_Some'. by right. }
  intros p m [[<- <-]|[_ Hm]]%lookup_insert_Some.
  - split; [apply Hl; by left|]. split; [done|]. intros ->. apply lookup_insert_is_Some'. by left.
  - destruct (Hi p m Hm) as (Hwf & Hp & Hlive). split; [done|]. split; [done|]. auto.
Qed.

(** *** The topology *)

Definition probed_from (nodes nodes' : gmap string ClusterNodeState) : Prop :=
  ∀ p n', nodes' !! p = Some n' →
    ∃ n, nodes !! p = Some n ∧ (n' = n ∨ cn_Reachable n = true ∧ n' = (probeNodeTopology g n).1).

Lemma insert_probed (nodes : gmap string ClusterNodeState) l : ∀ m,
  (∀ q, q ∈ l → nodes !! q.1 = Some q.2 ∧ cn_Reachable q.2 = true) → probed_from nodes m →
  probed_from nodes (foldl (λ m q, <[q.1 := q.2.1]> m) m ((λ q, (q.1, probeNodeTopology g q.2)) <$> l)).
Proof.
  induction l as [|[p n] l IH]; intros m Hl Hm; [done|]. cbn [fmap list_fmap foldl fst snd].
  apply IH; [intros q Hq; apply Hl; by right|].
  intros p' n' [[<- <-]|[_ Hn']]%lookup_insert_Some; [|by apply Hm].
  destruct (Hl (p, n) ltac:(by left)) as [Hn Hr]. exists n. split; [done|by right].
Qed.

Lemma merge_views l : ∀ gt asm adj,
  let '(gt', asm', adj') := foldl merge_view (gt, asm, adj) l in
  gt_Nodes gt' = gt_Nodes gt ∧ gt_TotalSlots gt ≤ gt_TotalSlots gt' ∧
  ∀ id, is_Some (adj' !! id) → is_Some (adj !! id) ∨ ∃ n v, (n, v) ∈ l ∧ cn_NodeID n = id.
Proof.
  induction l as [|[n v] l IH]; intros gt asm adj; [split; [done|]; split; [lia|tauto]|].
  cbn [foldl]. unfold merge_view at 2. cbv zeta.
  match goal with |- let '(_, _) := foldl _ (?gt1, ?asm1, ?adj1) l in _ => specialize (IH gt1 asm1 adj1) end.
  destruct (foldl _ _ l) as [[gt' asm'] adj']. destruct IH as (Hn & Ht & Hadj). cbn [gt_Nodes gt_TotalSlots] in *.
  split; [done|]. split.
  { etrans; [|exact Ht]. destruct (tv_haveState v); cbn [andb]; [|lia].
    destruct (Z.ltb_spec (gt_TotalSlots gt) (tv_slotsAssigned v)); lia. }
  intros id Hid. destruct (Hadj id Hid) as [Ha|(n' & v' & Hin & He)]; [|right; exists n', v'; split; [by right|done]].
  destruct (tv_hasNodes v); [|by left].
  apply lookup_insert_is_Some' in Ha as [<-|Ha]; [right; exists n, v; split; [by left|done]|by left].
Qed.

(** *** The ground truth *)

Lemma foldl_insert_is_Some {A B} (f : A → B) (l : list (string * A)) k : ∀ m : gmap string B,
  is_Some (m !! k) → is_Some (foldl (λ m q, <[q.1 := f q.2]> m) m l !! k).
Proof.
  induction l as [|q l IH]; intros m Hk; [done|]. cbn [foldl]. apply IH, lookup_insert_is_Some'. by right.
Qed.

Lemma indexed_probed nodes nodes' live :
  indexed nodes live → probed_from nodes nodes' → indexed nodes' live.
Proof.
  intros Hi Hf p n' Hn'. destruct (Hf p n' Hn') as (n & Hn & [->|[Hr ->]]); [by apply Hi|].
  destruct (Hi p n Hn) as (Hwf & Hp & Hlive).
  destruct (probeNodeTopology_wf n Hwf Hr) as (Hwf' & -> & -> & _). split; [done|]. split; [done|]. auto.
Qed.

Lemma gatherTopology_nodes gt live :
  indexed (gt_Nodes gt) live →
  let '(gt', adj) := gatherTopology g gt in
  indexed (gt_Nodes gt') live ∧ gt_TotalSlots gt ≤ gt_TotalSlots gt' ∧
  ∀ id, is_Some (adj !! id) → ∃ p n, gt_Nodes gt' !! p = Some n ∧ cn_Reachable n = true ∧ cn_NodeID n = id.
Proof.
  intros Hi. unfold gatherTopology.
  set (reachable := bfilter (λ p, cn_Reachable p.2) (go_range [250] (gt_Nodes gt))).
  assert (Hre : ∀ q, q ∈ reachable → gt_Nodes gt !! q.1 = Some q.2 ∧ cn_Reachable q.2 = true).
  { intros [p n] [Hin Hr]%elem_of_bfilter. split; [by apply elem_of_go_range in Hin|done]. }
  set (probed := (λ p, (p.1, probeNodeTopology g p.2)) <$> reachable).
  set (nodes := foldl (λ m p, <[p.1 := p.2.1]> m) (gt_Nodes gt) probed).
  assert (Hfrom : probed_from (gt_Nodes gt) nodes).
  { apply insert_probed; [done|]. intros p n Hn. exists n. split; [done|by left]. }
  pose proof (merge_views (snd <$> probed) (set_gt_nodes gt nodes) (0 <? length reachable)%nat ∅) as Hm.
  destruct (foldl merge_view _ _) as [[gt2 asm] adj]. destruct Hm as (Hn & Ht & Hadj). cbn [gt_Nodes gt_TotalSlots set_gt_nodes] in *.
  rewrite Hn. split; [by eapply indexed_probed|]. split; [done|].
  intros id Hid. destruct (Hadj id Hid) as [Hno|(n & v & Hin & <-)]; [by apply lookup_empty_is_Some in Hno|].
  apply list_elem_of_fmap in Hin as ([p nv] & He & Hin). apply list_elem_of_fmap in Hin as ([p' n0] & He' & Hin).
  injection He' as -> ->. destruct (Hre _ Hin) as [Hp Hr]. cbn [fst snd] in *.
  destruct (foldl_insert_is_Some fst probed p' (gt_Nodes gt) ltac:(by eexists)) as [n' Hn'].
  destruct (Hi p' n0 Hp) as (Hwf & _). destruct (probeNodeTopology_wf n0 Hwf Hr) as (_ & _ & Hid0 & Hr0).
  exists p', n'. split; [exact Hn'|]. rewrite <-He in Hid0. cbn [fst] in Hid0.
  destruct (Hfrom p' n' Hn') as (n1 & Hn1 & Hor). rewrite Hp in Hn1. injection Hn1 as <-.
  rewrite Hid0. destruct Hor as [->|[_ ->]]; [done|].
  by destruct (probeNodeTopology_wf n0 Hwf Hr) as (_ & _ & -> & ->).
Qed.

Lemma gathered_wf clusterPods : ground_truth_wf (GatherClusterGroundTruth g clusterPods).
Proof.
  unfold GatherClusterGroundTruth.
  assert (Hl : ∀ n, n ∈ gatherNodeIdentities g clusterPods → node_wf n).
  { intros n ([ip name] & -> & _)%list_elem_of_fmap. apply probe_identity_wf. }
  pose proof (index_identities _ ∅ ∅ Hl ltac:(by intros p n Hn)) as Hi.
  destruct (foldl index_identity _ _) as [nodes live].
  pose proof (gatherTopology_nodes (set_gt_nodes NewClusterGroundTruth nodes) live Hi) as Ht.
  destruct (gatherTopology _ _) as [gt1 adj]. destruct Ht as (Hi1 & Hslots & Hknown). split; cbn.
  - intros p n Hn. by apply Hi1.
  - intros p n Hn. by apply (Hi1 p n).
  - intros id p n [_ Hg%negb_true_iff%bool_decide_eq_false]%elem_of_bfilter Hn Hr <-. by apply Hg, (Hi1 p n).
  - exact Hknown.
  - destruct (computePartitions_parts live adj) as (v & _ & Hp & _). split; [apply (po_nodup _ _ _ _ Hp)|].
    apply Forall_forall. intros p Hin ->.
    destruct (po_root _ _ _ _ Hp [] Hin) as (r & Hr & _). by apply elem_of_nil in Hr.
  - exact Hslots.
Qed.
End operator.

(** ** Theorem *)

(** Every ground truth the operator gathers is well formed, whatever the nodes reply
    and in whatever order the replies are merged: each node is filed under its pod's name; a
    node that was not reached has neither an identity nor a role; a node has a role and
    slots only together with an identity and a master's identity, and never a slot that is
    being moved; a ghost is not the identity of a node that was reached; only nodes that
    were reached have a view; and the partitions are disjoint and not empty. *)
Theorem gathered_ground_truth_wf `{GoRuntime} (w : Wire) (clusterPods : gmap string string) :
  ground_truth_wf (GatherClusterGroundTruth (operatorGatherer w) clusterPods).
Proof. apply gathered_wf. Qed.
