(* ===== verification/Operations.v ===== *)
(** * Heavy operations
    (src/internal/controller/operation_plan.go, operation_registry.go, operation_wiring.go,
    src/api/v1alpha1/operation_fingerprint.go)

    A heavy operation is declared by editing a registered field; the operator carries out
    one at a time and records in the status which value it has finished.  This file models
    the decision (which operation runs, which is acknowledged), the completion record, and
    the checks on the registry. *)

From stdpp Require Import relations finite.
From S2P Require Import Prelude GoStrings Recovery.

Open Scope Z_scope.
Open Scope go_scope.

(** ** Definitions *)

Definition operationReasonConverged : string := "Converged".
Definition operationReasonRunning : string := "Running".
Definition operationReasonBlocked : string := "Blocked".
Definition operationReasonStalled : string := "Stalled".
Definition operationReasonQuarantined : string := "Quarantined".
Definition operationReasonSeeded : string := "Seeded".

Record operationCandidate := mkCandidate {
  oc_Name : string;
  oc_Fingerprint : string;
  oc_Requires : list string;
  oc_StallAfter : duration;
}.

#[export] Instance operationCandidate_eq_dec : EqDecision operationCandidate.
Proof. solve_decision. Defined.

Record OperationAck := mkAck {
  ack_Name : string;
  ack_Fingerprint : string;
  ack_AcknowledgedAt : time;
}.

Record OperationStatus := mkOperationStatus {
  os_Name : string;
  os_StartedAt : time;
  os_Reason : string;
  os_Pending : list string;
}.

#[export] Instance OperationAck_eq_dec : EqDecision OperationAck.
Proof. solve_decision. Defined.
#[export] Instance OperationStatus_eq_dec : EqDecision OperationStatus.
Proof. solve_decision. Defined.

Record operationInput := mkOperationInput {
  oi_Candidates : list operationCandidate;
  oi_Acks : gmap string string;
  oi_Quarantined : bool;
  oi_Bootstrapping : bool;
  oi_Settled : bool;
  oi_DriverDone : bool;
  oi_DriverBlocked : bool;
  oi_Active : option OperationStatus;
  oi_Now : time;
}.

Record operationPlan := mkOperationPlan {
  op_Run : string;
  op_Report : string;
  op_Pending : list string;
  op_Reason : string;
  op_Ack : list operationCandidate;
  op_Detail : string;
}.

(** *** The decision *)

Definition operationNames (cands : list operationCandidate) : list string := oc_Name <$> cands.

Definition operationExcept (cands : list operationCandidate) (name : string)
  : list operationCandidate := bfilter (λ c, negb (oc_Name c =? name)) cands.

(** [isPending] of the loop is the set of pending names. *)
Definition operationRunnable (pending : list operationCandidate) : list operationCandidate :=
  let isPending : gset string := list_to_set (operationNames pending) in
  bfilter (λ c, negb (existsb (λ req, bool_decide (req ∈ isPending)) (oc_Requires c))) pending.

Definition operationStalled (in_ : operationInput) (c : operationCandidate) : bool :=
  match oi_Active in_ with
  | None => false
  | Some active =>
      if (oc_StallAfter c <=? 0)%Z || negb (os_Name active =? oc_Name c) then false
      else if time_is_zero (os_StartedAt active) then false
      else (oc_StallAfter c <? time_sub (oi_Now in_) (os_StartedAt active))%Z
  end.

Definition is_unseeded (acks : gmap string string) (c : operationCandidate) : bool :=
  negb (bool_decide (is_Some (acks !! oc_Name c))).
Definition is_pending (acks : gmap string string) (c : operationCandidate) : bool :=
  match acks !! oc_Name c with
  | Some ack => negb (ack =? oc_Fingerprint c)
  | None => false
  end.

(** Row 8: the picked operation is acknowledged and the queue moves on. *)
Definition plan_completed (pending : list operationCandidate) (pick : operationCandidate)
  : operationPlan :=
  let remaining := operationExcept pending (oc_Name pick) in
  let detail := "completed: " +:+ oc_Name pick +:+ " converged and the instance settled" in
  match remaining with
  | [] => mkOperationPlan "" "" [] operationReasonConverged [pick] detail
  | r0 :: rest =>
      match operationRunnable remaining with
      | [] => mkOperationPlan "" (oc_Name r0) (operationNames rest) operationReasonBlocked [pick]
                (detail +:+ "; the queue is blocked on a required operation")
      | next :: _ => mkOperationPlan (oc_Name next) (oc_Name next)
                       (operationNames (operationExcept remaining (oc_Name next)))
                       operationReasonRunning [pick] detail
      end
  end.

(** Rows 7, 9 and 10: the same operation keeps running. *)
Definition plan_running (in_ : operationInput) (pending : list operationCandidate)
  (pick : operationCandidate) : operationPlan :=
  let name := oc_Name pick in
  let '(reason, detail) :=
    if operationStalled in_ pick
    then (operationReasonStalled,
          name +:+ " has run past its StallAfter budget; it is not " +:+
          "auto-exited (a timer would be the defect with a delay)")
    else if oi_DriverBlocked in_
    then (operationReasonBlocked,
          name +:+ " reported blocked; the queue is held rather than skipped")
    else if oi_DriverDone in_
    then (operationReasonRunning,
          name +:+ " converged, but the instance is still rolling; " +:+
          "acknowledgment waits for it to settle")
    else (operationReasonRunning, name +:+ " is in progress") in
  mkOperationPlan name name (operationNames (operationExcept pending name)) reason [] detail.

Definition planOperation `{GoRuntime} (in_ : operationInput) : operationPlan :=
  let cands := sort_slice (less_by_string oc_Name) (oi_Candidates in_) in
  let unseeded := bfilter (is_unseeded (oi_Acks in_)) cands in
  let pending := bfilter (is_pending (oi_Acks in_)) cands in
  if oi_Quarantined in_ then
    match pending with
    | [] => mkOperationPlan "" "" [] operationReasonConverged [] ""
    | p0 :: rest =>
        mkOperationPlan "" (oc_Name p0) (operationNames rest) operationReasonQuarantined []
          ("held: the instance is quarantined and has no pods to carry " +:+ oc_Name p0 +:+ " out")
    end
  else if oi_Bootstrapping in_ && (0 <? len cands)%Z then
    mkOperationPlan "" "" [] operationReasonSeeded cands
      "seeded at bootstrap: the instance already declares these values"
  else if (0 <? len unseeded)%Z then
    mkOperationPlan "" "" [] operationReasonSeeded unseeded
      ("seeded: no completion record yet, and the instance is already in " +:+
       "the state its spec asks for")
  else match pending with
  | [] => mkOperationPlan "" "" [] operationReasonConverged [] ""
  | p0 :: rest =>
      match operationRunnable pending with
      | [] => mkOperationPlan "" (oc_Name p0) (operationNames rest) operationReasonBlocked []
                "blocked: every pending operation is waiting on a required operation"
      | pick :: _ =>
          if oi_DriverDone in_ && oi_Settled in_ then plan_completed pending pick
          else plan_running in_ pending pick
      end
  end.

(** *** The completion record *)

Fixpoint upsert_ack (out : list OperationAck) (c : operationCandidate) (at_ : time)
  : list OperationAck :=
  match out with
  | [] => [mkAck (oc_Name c) (oc_Fingerprint c) at_]
  | a :: rest =>
      if ack_Name a =? oc_Name c then mkAck (ack_Name a) (oc_Fingerprint c) at_ :: rest
      else a :: upsert_ack rest c at_
  end.

Definition upsertOperationAcks (existing : list OperationAck) (ack : list operationCandidate)
  (at_ : time) : list OperationAck := foldl (λ out c, upsert_ack out c at_) existing ack.

(** The map built from the rows by [buildOperationInput]. *)
Definition acks_of (rows : list OperationAck) : gmap string string :=
  foldl (λ m a, <[ack_Name a := ack_Fingerprint a]> m) ∅ rows.

Definition operationStatusFor (plan : operationPlan) (current : option OperationStatus)
  (at_ : time) : option OperationStatus :=
  if op_Report plan =? "" then None
  else
    let started :=
      match current with
      | Some c => if (os_Name c =? op_Report plan) && negb (time_is_zero (os_StartedAt c))
                  then os_StartedAt c else at_
      | None => at_
      end in
    Some (mkOperationStatus (op_Report plan) started (op_Reason plan) (op_Pending plan)).

Definition operationName (s : option OperationStatus) : string := from_option os_Name "" s.

Definition operationStatusEqual (a b : option OperationStatus) : bool :=
  match a, b with
  | Some a, Some b => (os_Name a =? os_Name b) && (os_Reason a =? os_Reason b)
                      && bool_decide (os_Pending a = os_Pending b)
  | None, None => true
  | _, _ => false
  end.

(** *** The registry *)

(** One row; [I] is the instance the fingerprint and the filter read. *)
Record heavyOperation (I : Type) := mkHeavyOperation {
  ho_Name : string;
  ho_FieldPath : string;
  ho_Modes : list string;
  ho_Citation : string;
  ho_Requires : list string;
  ho_StallAfter : duration;
  ho_Fingerprint : I → string;
  ho_Applies : option (I → bool);
}.
Arguments mkHeavyOperation {I}.
Arguments ho_Name {I} _.
Arguments ho_FieldPath {I} _.
Arguments ho_Modes {I} _.
Arguments ho_Citation {I} _.
Arguments ho_Requires {I} _.
Arguments ho_StallAfter {I} _.
Arguments ho_Fingerprint {I} _.
Arguments ho_Applies {I} _.

Definition operationCandidates {I} (lr : I) (ops : list (heavyOperation I))
  : list operationCandidate :=
  omap (λ op, match ho_Applies op with
              | Some applies =>
                  if applies lr
                  then Some (mkCandidate (ho_Name op) (ho_Fingerprint op lr) (ho_Requires op)
                               (ho_StallAfter op))
                  else None
              | None => None
              end) ops.

Definition operationsWithDanglingRequires {I} (ops : list (heavyOperation I)) : list string :=
  let known : gset string := list_to_set (ho_Name <$> ops) in
  sort_strings (mjoin ((λ op, (λ req, ho_Name op +:+ " -> " +:+ req) <$>
    bfilter (λ req, negb (bool_decide (req ∈ known))) (ho_Requires op)) <$> ops)).

Definition crResidentFieldPaths {I} (ops : list (heavyOperation I)) : list string :=
  sort_strings (bfilter (λ p, negb (p =? "")) (ho_FieldPath <$> ops)).

(** [requires] of [operationRequiresCycle]: later rows overwrite earlier ones. *)
Definition requires_map {I} (ops : list (heavyOperation I)) : gmap string (list string) :=
  foldl (λ m op, <[ho_Name op := ho_Requires op]> m) ∅ ops.

(** The state of a name; an absent one is unvisited. *)
Inductive mark := onStack | done.

#[export] Instance mark_eq_dec : EqDecision mark.
Proof. solve_decision. Defined.

(** [stack[i:]] from the first occurrence of [req]. *)
Fixpoint cut_stack (req : string) (stack : list string) : list string :=
  match stack with
  | [] => []
  | n :: rest => if n =? req then stack else cut_stack req rest
  end.

(** The loop of [visit] over the requirements, where [rec] is the recursive call: [inl] is
    a cycle, [inr] the state and the stack.  [None] is running out of fuel. *)
Fixpoint visit_requires (requires : gmap string (list string))
  (rec : string → gmap string mark → list string →
         option (list string + gmap string mark * list string))
  (reqs : list string) (state : gmap string mark) (stack : list string)
  : option (list string + gmap string mark * list string) :=
  match reqs with
  | [] => Some (inr (state, stack))
  | req :: rest =>
      match requires !! req with
      | None => visit_requires requires rec rest state stack
      | Some _ =>
          match state !! req with
          | Some onStack =>
              Some (inl (match cut_stack req stack with [] => [] | c => c ++ [req] end))
          | Some done => visit_requires requires rec rest state stack
          | None =>
              match rec req state stack with
              | None => None
              | Some (inl cycle) => Some (inl cycle)
              | Some (inr (state', stack')) => visit_requires requires rec rest state' stack'
              end
          end
      end
  end.

Fixpoint visit (fuel : nat) (requires : gmap string (list string)) (name : string)
  (state : gmap string mark) (stack : list string)
  : option (list string + gmap string mark * list string) :=
  match fuel with
  | O => None
  | S fuel' =>
      match visit_requires requires (visit fuel' requires) (default [] (requires !! name))
              (<[name := onStack]> state) (stack ++ [name]) with
      | Some (inr (state', stack')) => Some (inr (<[name := done]> state', take (length stack' - 1) stack'))
      | r => r
      end
  end.

Fixpoint visit_all (fuel : nat) (requires : gmap string (list string)) (names : list string)
  (state : gmap string mark) (stack : list string) : option (list string) :=
  match names with
  | [] => Some []
  | name :: rest =>
      match state !! name with
      | Some _ => visit_all fuel requires rest state stack
      | None =>
          match visit fuel requires name state stack with
          | None => None
          | Some (inl cycle) => Some cycle
          | Some (inr (state', stack')) => visit_all fuel requires rest state' stack'
          end
      end
  end.

(** A name is visited at most once, so the number of names bounds the depth; the default is
    never used ([requires_cycle_spec] below). *)
Definition operationRequiresCycle {I} (ops : list (heavyOperation I)) : list string :=
  let requires := requires_map ops in
  default [] (visit_all (size requires) requires (ho_Name <$> ops) ∅ []).

(** ** The cycle check *)

Section Cycle.
Context (requires : gmap string (list string)).

(** An edge between two registered operations. *)
Definition needs (a b : string) : Prop :=
  ∃ l, requires !! a = Some l ∧ b ∈ l ∧ is_Some (requires !! b).

(** Consecutive names are edges. *)
Fixpoint path (l : list string) : Prop :=
  match l with
  | a :: (b :: _) as rest => needs a b ∧ path rest
  | _ => True
  end.

Lemma path_snoc l a : path l → (∀ x, last l = Some x → needs x a) → path (l ++ [a]).
Proof.
  induction l as [|x [|y l] IH]; intros Hp Hl; [done|by split; [apply Hl|]|].
  destruct Hp as [Hxy Hp]. split; [done|]. apply IH; [done|]. intros z Hz. by apply Hl.
Qed.

Lemma cut_stack_path req l :
  path l → req ∈ l → ∃ rest, cut_stack req l = req :: rest ∧ path (req :: rest) ∧
                           last (req :: rest) = last l.
Proof.
  induction l as [|x l IH]; intros Hp Hin; [by apply not_elem_of_nil in Hin|]. cbn [cut_stack].
  destruct (x =? req) eqn:E; bool_hyps; [subst; by exists l|].
  apply elem_of_cons in Hin as [->|Hin]; [done|].
  destruct IH as (rest & Hc & Hpr & Hl); [by destruct l; [|destruct Hp]|done|].
  exists rest. split; [done|]. split; [done|]. rewrite Hl. destruct l; [by apply not_elem_of_nil in Hin|done].
Qed.

Lemma path_tc a l b : path (a :: l ++ [b]) → tc needs a b.
Proof.
  revert a. induction l as [|x l IH]; intros a [Ha Hp]; [by apply tc_once|].
  eapply tc_l; [done|]. by apply IH.
Qed.

Definition is_cycle (c : list string) : Prop := ∃ a l, c = a :: l ++ [a] ∧ path c.

(** What holds of the marks and the stack between any two steps. *)
Record dfs (state : gmap string mark) (stack : list string) : Prop := {
  dfs_closed n m : state !! n = Some done → needs n m → state !! m = Some done;
  dfs_acyclic n : state !! n = Some done → ¬ tc needs n n;
  dfs_stack n : state !! n = Some onStack ↔ n ∈ stack;
  dfs_path : path stack;
  dfs_known n : is_Some (state !! n) → is_Some (requires !! n);
}.

(** The names not visited yet bound the recursion. *)
Definition unvisited (state : gmap string mark) : nat := size (dom requires ∖ dom state : gset string).

Definition grows (state state' : gmap string mark) : Prop :=
  (dom state ⊆@{gset string} dom state') ∧ ∀ n, state !! n = Some done → state' !! n = Some done.

#[local] Instance grows_preorder : PreOrder grows.
Proof. split; [by split|]. intros x y z [Hxy1 Hxy2] [Hyz1 Hyz2]. split; [set_solver|auto]. Qed.

Lemma unvisited_grows state state' : grows state state' → (unvisited state' ≤ unvisited state)%nat.
Proof. intros [Hd _]. unfold unvisited. apply (subseteq_size (C:=gset string)). set_solver. Qed.

(** What a call that returns has achieved. *)
Definition dfs_result (goal : gmap string mark → Prop) (state : gmap string mark)
  (stack : list string) (r : option (list string + gmap string mark * list string)) : Prop :=
  match r with
  | None => False
  | Some (inl c) => is_cycle c
  | Some (inr (state', stack')) => stack' = stack ∧ dfs state' stack ∧ grows state state' ∧ goal state'
  end.

Definition visit_ok (fuel : nat) : Prop := ∀ name state stack,
  (unvisited state ≤ fuel)%nat → dfs state stack → is_Some (requires !! name) →
  state !! name = None → (∀ x, last stack = Some x → needs x name) →
  dfs_result (λ s, s !! name = Some done) state stack (visit fuel requires name state stack).

Lemma visit_requires_ok fuel name stack l reqs : visit_ok fuel →
  requires !! name = Some l → reqs ⊆ l → ∀ state,
  (unvisited state ≤ fuel)%nat → dfs state (stack ++ [name]) →
  dfs_result (λ s, ∀ m, m ∈ reqs → is_Some (requires !! m) → s !! m = Some done) state
    (stack ++ [name]) (visit_requires requires (visit fuel requires) reqs state (stack ++ [name])).
Proof.
  intros Hok Hl. induction reqs as [|req reqs IH]; intros Hsub state Hf Hd; cbn [visit_requires].
  { split; [done|]. split; [done|]. split; [reflexivity|]. intros m Hm. by apply not_elem_of_nil in Hm. }
  assert (Hrest : ∀ state', grows state state' → dfs state' (stack ++ [name]) →
    (is_Some (requires !! req) → state' !! req = Some done) →
    dfs_result (λ s, ∀ m, m ∈ req :: reqs → is_Some (requires !! m) → s !! m = Some done) state
      (stack ++ [name]) (visit_requires requires (visit fuel requires) reqs state' (stack ++ [name]))).
  { intros state' Hg Hd' Hreq. pose proof (unvisited_grows _ _ Hg).
    specialize (IH ltac:(set_solver) state' ltac:(lia) Hd').
    destruct (visit_requires _ _ _ _ _) as [[c|[s1 st1]]|]; [done| |done].
    destruct IH as (-> & Hd1 & Hg1 & Hall). split; [done|]. split; [done|]. split; [by etrans|].
    intros m [->|Hm]%elem_of_cons Hk; [|by apply Hall]. apply Hg1. by apply Hreq. }
  destruct (requires !! req) as [lr|] eqn:Hr; [|apply Hrest; [reflexivity|done|by intros []]].
  assert (Hedge : needs name req).
  { exists l. split; [done|]. split; [|by rewrite Hr]. apply Hsub. left. }
  destruct (state !! req) as [[]|] eqn:Hs.
  - apply (dfs_stack _ _ Hd) in Hs.
    destruct (cut_stack_path req _ (dfs_path _ _ Hd) Hs) as (rest & -> & Hp & Hlast).
    exists req, rest. split; [done|]. apply path_snoc; [done|]. intros x. rewrite Hlast, last_snoc.
    by intros [= <-].
  - by apply Hrest.
  - pose proof (Hok req state (stack ++ [name]) Hf Hd) as Hv. rewrite Hr in Hv.
    specialize (Hv ltac:(by eexists) Hs). rewrite last_snoc in Hv. specialize (Hv ltac:(by intros x [= <-])).
    destruct (visit fuel requires req state (stack ++ [name])) as [[c|[s1 st1]]|]; [done| |done].
    destruct Hv as (-> & Hd1 & Hg1 & Hdone). by apply Hrest.
Qed.

Lemma dfs_push name state stack :
  dfs state stack → is_Some (requires !! name) → state !! name = None →
  (∀ x, last stack = Some x → needs x name) →
  dfs (<[name := onStack]> state) (stack ++ [name]).
Proof.
  intros [Hc Ha Hst Hp Hk] Hkn Hnone Hlast. split.
  - intros n m Hn Hnm. apply lookup_insert_Some in Hn as [[_ ?]|[Hne Hn]]; [done|].
    specialize (Hc n m Hn Hnm). rewrite lookup_insert_ne; [done|]. intros ->. congruence.
  - intros n Hn. apply lookup_insert_Some in Hn as [[_ ?]|[_ Hn]]; [done|by apply Ha].
  - intros n. rewrite elem_of_app, list_elem_of_singleton, <-Hst.
    destruct (decide (n = name)) as [->|Hne]; [rewrite lookup_insert_eq; tauto|].
    rewrite lookup_insert_ne by done. split; [by left|]. intros [?|?]; done.
  - by apply path_snoc.
  - intros n. destruct (decide (n = name)) as [->|Hne]; [done|].
    rewrite lookup_insert_ne by done. apply Hk.
Qed.

Lemma done_reaches (state : gmap string mark) n m :
  (∀ n m, state !! n = Some done → needs n m → state !! m = Some done) →
  state !! n = Some done → rtc needs n m → state !! m = Some done.
Proof. intros Hc Hn Hr. induction Hr; [done|eauto]. Qed.

Lemma dfs_finish name state0 state stack :
  dfs state (stack ++ [name]) → state0 !! name = None → dfs state0 stack →
  (∀ m, needs name m → state !! m = Some done) → dfs (<[name := done]> state) stack.
Proof.
  intros [Hc Ha Hst Hp Hk] Hnone [_ _ Hst0 Hp0 _] Hall.
  assert (Hon : state !! name = Some onStack) by (apply Hst, elem_of_app; right; left).
  split.
  - intros n m Hn Hnm. destruct (decide (m = name)) as [->|Hm]; [by rewrite lookup_insert_eq|].
    rewrite lookup_insert_ne by done. apply lookup_insert_Some in Hn as [[<- _]|[_ Hn]]; eauto.
  - intros n Hn Hcyc. apply lookup_insert_Some in Hn as [[<- _]|[_ Hn]]; [|by eapply Ha].
    assert (∃ m, needs name m ∧ rtc needs m name) as (m & Hm & Hrm).
    { inversion Hcyc as [x y Hxy|x y z Hxy Hyz]; subst; [by exists name|].
      exists y. split; [done|]. by apply tc_rtc. }
    pose proof (done_reaches state m name Hc (Hall m Hm) Hrm). congruence.
  - intros n. destruct (decide (n = name)) as [->|Hne].
    + rewrite lookup_insert_eq. split; [done|]. intros Hin%Hst0. congruence.
    + rewrite lookup_insert_ne, Hst, elem_of_app, list_elem_of_singleton by done. tauto.
  - done.
  - intros n. destruct (decide (n = name)) as [->|Hne]; [intros _; apply Hk; by rewrite Hon|].
    rewrite lookup_insert_ne by done. apply Hk.
Qed.

Lemma unvisited_push name state :
  is_Some (requires !! name) → state !! name = None →
  (S (unvisited (<[name := onStack]> state)) ≤ unvisited state)%nat.
Proof.
  intros Hk Hn. unfold unvisited. apply elem_of_dom in Hk. apply not_elem_of_dom in Hn.
  change (S (size (dom requires ∖ dom (<[name:=onStack]> state) : gset string)))
    with (1 + size (dom requires ∖ dom (<[name:=onStack]> state) : gset string))%nat.
  rewrite <-(size_singleton (C:=gset string) name), <-size_union by set_solver.
  apply (subseteq_size (C:=gset string)). set_solver.
Qed.

Lemma visit_correct fuel : visit_ok fuel.
Proof.
  induction fuel as [|fuel IH]; intros name state stack Hf Hd Hk Hn Hlast.
  { pose proof (unvisited_push name state Hk Hn). lia. }
  cbn [visit]. pose proof (unvisited_push name state Hk Hn).
  destruct Hk as [l Hl]. rewrite Hl. cbn [default].
  pose proof (visit_requires_ok fuel name stack l l IH Hl (reflexivity l) (<[name := onStack]> state)
    ltac:(lia) ltac:(apply dfs_push; [done|by rewrite Hl|done|done])) as Hv.
  destruct (visit_requires _ _ _ _ _) as [[c|[s1 st1]]|]; [done| |done].
  destruct Hv as (-> & Hd1 & [Hg1 Hg2] & Hall). split.
  { rewrite length_app. simpl. rewrite Nat.add_sub. by rewrite take_app_length. }
  split; [|split].
  - eapply dfs_finish; [done|done|done|]. intros m (l' & Hl' & Hm & Hkm). simplify_eq. by apply Hall.
  - split; [set_solver|]. intros n Hdn. destruct (decide (n = name)) as [->|Hne]; [congruence|].
    rewrite lookup_insert_ne by done. apply Hg2. by rewrite lookup_insert_ne.
  - by rewrite lookup_insert_eq.
Qed.

Lemma visit_all_correct fuel names : ∀ state,
  (unvisited state ≤ fuel)%nat → dfs state [] → (∀ n, n ∈ names → is_Some (requires !! n)) →
  match visit_all fuel requires names state [] with
  | None => False
  | Some [] => ∃ state', dfs state' [] ∧ grows state state' ∧ ∀ n, n ∈ names → state' !! n = Some done
  | Some c => is_cycle c
  end.
Proof.
  induction names as [|name names IH]; intros state Hf Hd Hk; cbn [visit_all].
  { exists state. split; [done|]. split; [reflexivity|]. intros n Hn. by apply not_elem_of_nil in Hn. }
  assert (Hrest : ∀ state', grows state state' → dfs state' [] → state' !! name = Some done →
    match visit_all fuel requires names state' [] with
    | None => False
    | Some [] => ∃ s, dfs s [] ∧ grows state s ∧ ∀ n, n ∈ name :: names → s !! n = Some done
    | Some c => is_cycle c
    end).
  { intros state' Hg Hd' Hdone. pose proof (unvisited_grows _ _ Hg).
    specialize (IH state' ltac:(lia) Hd' ltac:(intros; apply Hk; by right)).
    destruct (visit_all _ _ _ _ _) as [[|x c]|]; [|done|done].
    destruct IH as (s & Hs & Hgs & Hall). exists s. split; [done|]. split; [by etrans|].
    intros n [->|Hn]%elem_of_cons; [by apply Hgs|by apply Hall]. }
  destruct (state !! name) as [[]|] eqn:Hn.
  - apply (dfs_stack _ _ Hd) in Hn. by apply not_elem_of_nil in Hn.
  - by apply Hrest.
  - pose proof (visit_correct fuel name state [] Hf Hd ltac:(apply Hk; left) Hn ltac:(done)) as Hv.
    destruct (visit fuel requires name state []) as [[c|[s1 st1]]|]; [| |done].
    + destruct c; [by destruct Hv as (? & ? & ? & _)|done].
    + destruct Hv as (-> & Hd1 & Hg1 & Hdone). by apply Hrest.
Qed.

End Cycle.

Lemma requires_map_known {I} (ops : list (heavyOperation I)) n :
  is_Some (requires_map ops !! n) ↔ n ∈ ho_Name <$> ops.
Proof.
  unfold requires_map. set (f := λ m op, _).
  assert (Hgen : ∀ l m, is_Some (foldl f m l !! n) ↔ is_Some (m !! n) ∨ n ∈ ho_Name <$> l).
  { induction l as [|op l IH]; intros m; cbn [foldl]; [set_solver|].
    rewrite IH, fmap_cons, elem_of_cons. unfold f at 1.
    destruct (decide (n = ho_Name op)) as [->|Hne];
      [rewrite lookup_insert_eq|rewrite lookup_insert_ne by done]; [|tauto].
    split; [tauto|]. intros _. left. by eexists. }
  rewrite Hgen, lookup_empty. split; [intros [[]|]; done|tauto].
Qed.

(** The check of a registry: a reported cycle is one, and a registry without a report has
    none. *)
Lemma requires_cycle_spec {I} (ops : list (heavyOperation I)) :
  (operationRequiresCycle ops = [] ↔ ∀ n, ¬ tc (needs (requires_map ops)) n n) ∧
  (operationRequiresCycle ops ≠ [] → is_cycle (requires_map ops) (operationRequiresCycle ops)).
Proof.
  unfold operationRequiresCycle. set (requires := requires_map ops).
  assert (Hempty : dfs requires ∅ []).
  { split; [intros n m Hn; by rewrite lookup_empty in Hn|intros n Hn; by rewrite lookup_empty in Hn| |done|].
    - intros n. rewrite lookup_empty. split; [done|]. by intros ?%not_elem_of_nil.
    - intros n. rewrite lookup_empty. by intros []. }
  pose proof (visit_all_correct requires (size requires) (ho_Name <$> ops) ∅) as Hv.
  specialize (Hv ltac:(unfold unvisited; rewrite dom_empty_L, difference_empty_L, size_dom; lia) Hempty).
  specialize (Hv ltac:(intros n Hn; by apply requires_map_known)).
  destruct (visit_all _ _ _ _ _) as [[|x c]|]; [| |done]; simpl.
  - destruct Hv as (s & Hs & _ & Hall). split; [|done]. split; [|done]. intros _ n Hcyc.
    assert (is_Some (requires !! n)) as Hn.
    { inversion Hcyc as [? ? (l & Hl & _)|? ? ? (l & Hl & _)]; subst; by rewrite Hl. }
    apply requires_map_known in Hn. by apply (dfs_acyclic _ _ _ Hs n (Hall n Hn)).
  - split; [|done]. split; [done|]. intros Hno. exfalso. destruct Hv as (a & l & -> & Hp).
    apply (Hno a). by apply (path_tc _ a l a).
Qed.

(** The registry check decides exactly whether the declared requirements can be ordered:
    it reports nothing when they are acyclic, and otherwise a genuine cycle, every name of
    which requires the next one. *)
Theorem operationRequiresCycle_spec {I} (ops : list (heavyOperation I)) :
  (operationRequiresCycle ops = [] ↔ ∀ n, ¬ tc (needs (requires_map ops)) n n) ∧
  (operationRequiresCycle ops ≠ [] → is_cycle (requires_map ops) (operationRequiresCycle ops)).
Proof. apply requires_cycle_spec. Qed.

(** ** The queue moves *)

Section Progress.
Context (requires : gmap string (list string)).

Lemma path_lookup_tc l : path requires l → ∀ i j x y,
  l !! i = Some x → l !! j = Some y → (i < j)%nat → tc (needs requires) x y.
Proof.
  induction l as [|a l IH]; intros Hp i j x y Hi Hj Hij; [done|].
  destruct j as [|j]; [lia|]. destruct l as [|b l]; [done|]. destruct Hp as [Hab Hp].
  destruct i as [|i]; simplify_eq/=; [|eapply IH; eauto with lia].
  destruct j as [|j]; simplify_eq/=; [by apply tc_once|].
  eapply tc_l; [done|]. eapply (IH Hp 0%nat (S j)); [done|done|lia].
Qed.

(** A finite set in which every name needs another one has a cycle. *)
Lemma needs_cycle (N : list string) n0 :
  n0 ∈ N → (∀ n, n ∈ N → ∃ m, m ∈ N ∧ needs requires n m) → ∃ n, tc (needs requires) n n.
Proof.
  intros Hn0 Hnext.
  assert (Hpath : ∀ k, ∃ l, length l = S k ∧ path requires l ∧ l ⊆ N).
  { induction k as [|k (l & Hl & Hp & Hsub)].
    - exists [n0]. split; [done|]. split; [done|]. intros x Hx%list_elem_of_singleton. by subst.
    - destruct (last l) as [x|] eqn:Hlast; [|by apply last_None in Hlast; subst].
      assert (Hx : x ∈ N) by (by apply Hsub, last_Some_elem_of).
      destruct (Hnext x Hx) as (m & Hm & Hxm). exists (l ++ [m]). split; [rewrite length_app; simpl; lia|].
      split; [apply path_snoc; [done|]; intros y Hy; rewrite Hlast in Hy; by simplify_eq|].
      intros y [Hy|Hy%list_elem_of_singleton]%elem_of_app; [by apply Hsub|by subst]. }
  destruct (Hpath (length N)) as (l & Hl & Hp & Hsub).
  destruct (list_pigeonhole l N Hsub ltac:(lia)) as (i & j & x & Hij & Hi & Hj).
  exists x. exact (path_lookup_tc l Hp i j x x Hi Hj Hij).
Qed.

End Progress.

Lemma elem_of_runnable pending c :
  c ∈ operationRunnable pending ↔
  c ∈ pending ∧ ∀ req, req ∈ oc_Requires c → req ∉ operationNames pending.
Proof.
  unfold operationRunnable. rewrite elem_of_bfilter, negb_true_iff, <-not_true_iff_false, existsb_elem_of.
  setoid_rewrite bool_decide_eq_true. setoid_rewrite elem_of_list_to_set. split.
  - intros [Hc Hno]. split; [done|]. intros req Hr Hin. apply Hno. eauto.
  - intros [Hc Hno]. split; [done|]. intros (req & Hr & Hin). by apply (Hno req).
Qed.

(** The candidates come from an acyclic registry. *)
Definition orderable (cands : list operationCandidate) : Prop :=
  ∃ requires, (∀ c, c ∈ cands → requires !! oc_Name c = Some (oc_Requires c)) ∧
              ∀ n, ¬ tc (needs requires) n n.

Lemma runnable_exists pending :
  orderable pending → pending ≠ [] → operationRunnable pending ≠ [].
Proof.
  intros (requires & Hreq & Hac) Hne Hnil. destruct pending as [|p0 rest] eqn:E; [done|].
  rewrite <-E in *. destruct (needs_cycle requires (operationNames pending) (oc_Name p0)) as [n Hn];
    [rewrite E; left| |by apply (Hac n)].
  intros n (c & -> & Hc)%list_elem_of_fmap.
  assert (¬ ∀ req, req ∈ oc_Requires c → req ∉ operationNames pending) as Hblocked.
  { intros Hall. assert (c ∈ operationRunnable pending) as Hin by (by apply elem_of_runnable).
    rewrite Hnil in Hin. by apply not_elem_of_nil in Hin. }
  assert (∃ req, req ∈ oc_Requires c ∧ req ∈ operationNames pending) as (req & Hr & Hin).
  { destruct (decide (Exists (λ r, r ∈ operationNames pending) (oc_Requires c))) as [He|He];
      [by apply Exists_exists in He|].
    destruct Hblocked. intros req Hr Hin. apply He, Exists_exists. eauto. }
  exists req. split; [done|]. apply list_elem_of_fmap in Hin as (c' & -> & Hc').
  exists (oc_Requires c). split; [by apply Hreq|]. split; [done|]. by rewrite (Hreq c' Hc').
Qed.

(** ** The completion record *)

Definition ack_pair (a : OperationAck) : string * string := (ack_Name a, ack_Fingerprint a).

(** The rows are keyed by name (the list is a map of the resource's schema), so their order
    does not matter. *)
Lemma acks_of_rows rows :
  NoDup (ack_Name <$> rows) → acks_of rows = list_to_map (ack_pair <$> rows).
Proof.
  intros Hnd.
  assert (Hfold : acks_of rows = list_to_map (reverse (ack_pair <$> rows))).
  { unfold acks_of. rewrite <-fmap_reverse. rewrite <-(reverse_involutive rows) at 1.
    induction (reverse rows) as [|a l IH]; [done|]. rewrite reverse_cons, foldl_app. simpl. by rewrite IH. }
  rewrite Hfold. symmetry. apply list_to_map_proper; [|by rewrite reverse_Permutation].
  by rewrite <-list_fmap_compose.
Qed.

Lemma ack_pairs_agree rows rows' :
  ack_pair <$> rows' = ack_pair <$> rows → NoDup (ack_Name <$> rows) →
  NoDup (ack_Name <$> rows') ∧ acks_of rows' = acks_of rows.
Proof.
  intros Heq Hnd. assert (Hn : ack_Name <$> rows' = ack_Name <$> rows).
  { apply (f_equal (fmap fst)) in Heq. by rewrite <-!list_fmap_compose in Heq. }
  rewrite <-Hn in Hnd. split; [done|]. by rewrite !acks_of_rows, Heq; rewrite <-?Hn.
Qed.

Lemma upsert_ack_names rows c t :
  ack_Name <$> upsert_ack rows c t =
  if decide (oc_Name c ∈ ack_Name <$> rows) then ack_Name <$> rows
  else (ack_Name <$> rows) ++ [oc_Name c].
Proof.
  induction rows as [|a rows IH]; cbn [upsert_ack]; [done|].
  destruct (String.eqb_spec (ack_Name a) (oc_Name c)).
  - rewrite decide_True by (rewrite fmap_cons; set_solver). done.
  - rewrite !fmap_cons, IH. do 2 case_decide; set_solver.
Qed.

Lemma upsert_ack_map rows c t :
  (list_to_map (ack_pair <$> upsert_ack rows c t) : gmap string string) =
  <[oc_Name c := oc_Fingerprint c]> (list_to_map (ack_pair <$> rows)).
Proof.
  induction rows as [|a rows IH]; simpl; [done|]. destruct (String.eqb_spec (ack_Name a) (oc_Name c)) as [He|He].
  - simpl. rewrite He. by rewrite insert_insert_eq.
  - rewrite fmap_cons. simpl. rewrite IH. by apply insert_insert_ne.
Qed.

(** The fingerprints on record once the candidates of [ack] are acknowledged. *)
Definition acked (acks : gmap string string) (ack : list operationCandidate) : gmap string string :=
  foldl (λ m c, <[oc_Name c := oc_Fingerprint c]> m) acks ack.

(** One row per name, each holding what was last acknowledged under it. *)
Lemma upsert_rows ack : ∀ rows t, NoDup (ack_Name <$> rows) →
  NoDup (ack_Name <$> upsertOperationAcks rows ack t) ∧
  acks_of (upsertOperationAcks rows ack t) = acked (acks_of rows) ack.
Proof.
  induction ack as [|c ack IH]; intros rows t Hnd; [done|]. unfold upsertOperationAcks, acked. cbn [foldl].
  assert (Hnd' : NoDup (ack_Name <$> upsert_ack rows c t)).
  { rewrite upsert_ack_names. case_decide as Hc; [done|]. apply NoDup_app. split; [done|].
    split; [|apply NoDup_singleton]. intros x Hx ->%list_elem_of_singleton. done. }
  destruct (IH _ t Hnd') as [? Heq]. split; [done|]. unfold upsertOperationAcks, acked in Heq. rewrite Heq.
  by rewrite acks_of_rows, upsert_ack_map, <-acks_of_rows.
Qed.

Lemma acked_in acks ack c :
  NoDup (operationNames ack) → c ∈ ack → acked acks ack !! oc_Name c = Some (oc_Fingerprint c).
Proof.
  intros Hnd Hc. revert acks. induction ack as [|d ack IH] using rev_ind; intros acks; [by apply not_elem_of_nil in Hc|].
  unfold acked. rewrite foldl_app. simpl.
  unfold operationNames in Hnd. rewrite fmap_app in Hnd. apply NoDup_app in Hnd as (Hnd & Hdis & _).
  apply elem_of_app in Hc as [Hc| ->%list_elem_of_singleton]; [|by rewrite lookup_insert_eq].
  rewrite lookup_insert_ne; [by apply IH|]. intros He. apply (Hdis (oc_Name c)); [by apply list_elem_of_fmap_2|].
  rewrite <-He. left.
Qed.

Lemma acked_out acks ack n : n ∉ operationNames ack → acked acks ack !! n = acks !! n.
Proof.
  revert acks. induction ack as [|d ack IH]; intros acks Hn; [done|].
  unfold operationNames in Hn. rewrite fmap_cons in Hn. unfold acked. cbn [foldl].
  etrans; [apply IH; set_solver|]. apply lookup_insert_ne. set_solver.
Qed.

(** ** What the planner decides *)

Section Planner.
Context `{GoRuntime}.

Definition pending_of (in_ : operationInput) : list operationCandidate :=
  bfilter (is_pending (oi_Acks in_)) (sort_slice (less_by_string oc_Name) (oi_Candidates in_)).

Lemma elem_of_pending_of in_ c :
  c ∈ pending_of in_ ↔ c ∈ oi_Candidates in_ ∧ is_pending (oi_Acks in_) c = true.
Proof. unfold pending_of. by rewrite elem_of_bfilter, sort_slice_perm. Qed.

(** A pending operation that may start: none of the operations it requires is pending. *)
Definition may_run (acks : gmap string string) (cands : list operationCandidate)
  (c : operationCandidate) : Prop :=
  c ∈ cands ∧ is_pending acks c = true ∧
  ∀ c', c' ∈ cands → oc_Name c' ∈ oc_Requires c → is_pending acks c' = false.

Lemma runnable_may_run in_ c :
  c ∈ operationRunnable (pending_of in_) → may_run (oi_Acks in_) (oi_Candidates in_) c.
Proof.
  intros [[Hc Hp]%elem_of_pending_of Hreq]%elem_of_runnable. split; [done|]. split; [done|].
  intros c' Hc' Hr. apply not_true_iff_false. intros Hp'. apply (Hreq _ Hr).
  apply list_elem_of_fmap_2. by apply elem_of_pending_of.
Qed.

Lemma same_name_eq (cands : list operationCandidate) c c' :
  NoDup (operationNames cands) → c ∈ cands → c' ∈ cands → oc_Name c = oc_Name c' → c = c'.
Proof.
  unfold operationNames. intros Hnd Hc Hc' Heq. induction cands as [|d cands IH]; [by apply not_elem_of_nil in Hc|].
  rewrite fmap_cons, NoDup_cons in Hnd. destruct Hnd as [Hd Hnd].
  apply elem_of_cons in Hc as [->|Hc], Hc' as [->|Hc']; [done| | |auto].
  - destruct Hd. rewrite Heq. by apply list_elem_of_fmap_2.
  - destruct Hd. rewrite <-Heq. by apply list_elem_of_fmap_2.
Qed.

(** Once [pick] is acknowledged, what may run next is found among the others. *)
Lemma next_may_run in_ pick c :
  NoDup (operationNames (oi_Candidates in_)) → pick ∈ pending_of in_ →
  c ∈ operationRunnable (operationExcept (pending_of in_) (oc_Name pick)) →
  may_run (acked (oi_Acks in_) [pick]) (oi_Candidates in_) c.
Proof.
  intros Hnd [Hpick _]%elem_of_pending_of [Hc Hreq]%elem_of_runnable. unfold operationExcept in *.
  apply elem_of_bfilter in Hc as [[Hc Hp]%elem_of_pending_of Hne].
  apply negb_true_iff, String.eqb_neq in Hne. unfold may_run, acked, is_pending in *. cbn [foldl].
  split; [done|]. split; [by rewrite lookup_insert_ne|]. intros c' Hc' Hr.
  destruct (decide (oc_Name c' = oc_Name pick)) as [He|He].
  - rewrite (same_name_eq _ _ _ Hnd Hc' Hpick He), lookup_insert_eq. by rewrite String.eqb_refl.
  - rewrite lookup_insert_ne by done. apply not_true_iff_false. intros Hp'. apply (Hreq _ Hr).
    apply list_elem_of_fmap_2, elem_of_bfilter. split; [by apply elem_of_pending_of|].
    by apply negb_true_iff, String.eqb_neq.
Qed.

(** Work is never acknowledged before it is finished, nothing runs on an instance without
    pods or through an unfinished requirement. *)
Record sound_plan (in_ : operationInput) (plan : operationPlan) : Prop := {
  sp_run : op_Run plan ≠ "" → oi_Quarantined in_ = false ∧
    ∃ c, oc_Name c = op_Run plan ∧ op_Report plan = oc_Name c ∧
         may_run (acked (oi_Acks in_) (op_Ack plan)) (oi_Candidates in_) c;
  sp_ack c : c ∈ op_Ack plan → c ∈ oi_Candidates in_ ∧ oi_Quarantined in_ = false ∧
    (oi_Bootstrapping in_ = true ∨ oi_Acks in_ !! oc_Name c = None ∨
     (oi_DriverDone in_ = true ∧ oi_Settled in_ = true ∧ op_Ack plan = [c] ∧
      may_run (oi_Acks in_) (oi_Candidates in_) c));
}.

Lemma plan_completed_sound in_ pick rest :
  NoDup (operationNames (oi_Candidates in_)) → oi_Quarantined in_ = false →
  oi_DriverDone in_ = true → oi_Settled in_ = true →
  operationRunnable (pending_of in_) = pick :: rest →
  sound_plan in_ (plan_completed (pending_of in_) pick).
Proof.
  intros Hnd Hq Hd Hs Hrun.
  assert (Hpick : pick ∈ operationRunnable (pending_of in_)) by (rewrite Hrun; left).
  pose proof (proj1 (proj1 (elem_of_runnable _ _) Hpick)) as Hpend.
  assert (Hack : op_Ack (plan_completed (pending_of in_) pick) = [pick])
    by (unfold plan_completed; by repeat case_match).
  split.
  - intros Hr. split; [done|]. rewrite Hack. unfold plan_completed in *.
    destruct (operationExcept _ _) as [|r0 others] eqn:Eo; [done|].
    destruct (operationRunnable (r0 :: others)) as [|next more] eqn:En; [done|].
    exists next. split; [done|]. split; [done|]. apply next_may_run; [done..|].
    rewrite Eo, En. left.
  - rewrite Hack. intros c ->%list_elem_of_singleton.
    split; [by apply elem_of_pending_of in Hpend as [? _]|]. split; [done|].
    right. right. by eauto using runnable_may_run.
Qed.

Lemma plan_running_sound in_ pick rest :
  oi_Quarantined in_ = false → operationRunnable (pending_of in_) = pick :: rest →
  sound_plan in_ (plan_running in_ (pending_of in_) pick).
Proof.
  intros Hq Hrun. assert (Hpick : pick ∈ operationRunnable (pending_of in_)) by (rewrite Hrun; left).
  unfold plan_running. destruct (if operationStalled in_ pick then _ else _) as [reason detail]. split.
  - intros _. split; [done|]. exists pick. by eauto using runnable_may_run.
  - by intros c ?%not_elem_of_nil.
Qed.

(** The planner never runs or acknowledges too much.  Whatever it starts is an operation
    whose value differs from the recorded one and none of whose requirements is unfinished
    (once this pass's acknowledgement is recorded), on an instance that is not quarantined,
    and it is the one reported.  An acknowledgement is either a seed of an instance that has
    no record (or is being created) or the single operation that could run, after its driver
    is done and the StatefulSets have settled. *)
Theorem planOperation_sound in_ :
  NoDup (operationNames (oi_Candidates in_)) → sound_plan in_ (planOperation in_).
Proof.
  intros Hnd. unfold planOperation. fold (pending_of in_).
  destruct (oi_Quarantined in_) eqn:Hq.
  { destruct (pending_of in_); (split; simpl; [by intros []|by intros ? ?%not_elem_of_nil]). }
  destruct (oi_Bootstrapping in_ && _) eqn:Hb.
  { apply andb_true_iff in Hb as [Hb _]. split; simpl; [by intros []|]. rewrite Hq, Hb. intros c Hc.
    rewrite sort_slice_perm in Hc. eauto. }
  destruct (0 <? len (bfilter (is_unseeded _) _))%Z.
  { split; simpl; [by intros []|]. rewrite Hq. intros c [Hc Hu]%elem_of_bfilter. rewrite sort_slice_perm in Hc.
    unfold is_unseeded in Hu. apply negb_true_iff, bool_decide_eq_false, eq_None_not_Some in Hu. eauto. }
  destruct (pending_of in_) as [|p0 rest] eqn:Ep; [split; simpl; [by intros []|by intros ? ?%not_elem_of_nil]|].
  rewrite <-Ep. destruct (operationRunnable (pending_of in_)) as [|pick more] eqn:Er;
    [split; simpl; [by intros []|by intros ? ?%not_elem_of_nil]|].
  destruct (oi_DriverDone in_ && oi_Settled in_) eqn:Hd; [|by eapply plan_running_sound].
  apply andb_true_iff in Hd as [? ?]. by eapply plan_completed_sound.
Qed.

End Planner.

(** ** The queue drains *)

Section Drain.
Context `{GoRuntime}.

(** The candidate whose value is not the recorded one: never asked about, or changed. *)
Definition behind (acks : gmap string string) (c : operationCandidate) : bool :=
  negb (bool_decide (acks !! oc_Name c = Some (oc_Fingerprint c))).

Definition backlog (cands : list operationCandidate) (rows : list OperationAck) : nat :=
  length (bfilter (behind (acks_of rows)) cands).

(** A pass in which the completion of the driver may be recorded. *)
Definition completing (in_ : operationInput) : bool :=
  negb (oi_Quarantined in_) && oi_DriverDone in_ && oi_Settled in_.

(** One pass over the record: the input is built from the rows ([buildOperationInput]) and
    the plan's acknowledgements are written back ([applyOperationStatus]), their times as
    the API server rounds them. *)
Definition operation_pass (cands : list operationCandidate) (completes : bool)
  (rows rows' : list OperationAck) : Prop :=
  ∃ in_, oi_Candidates in_ = cands ∧ oi_Acks in_ = acks_of rows ∧ completing in_ = completes ∧
         ack_pair <$> rows' = ack_pair <$> upsertOperationAcks rows (op_Ack (planOperation in_)) (oi_Now in_).

(** Passes one after the other, counting those that complete. *)
Inductive operation_passes (cands : list operationCandidate) : nat → list OperationAck → list OperationAck → Prop :=
  | passes_none rows : operation_passes cands 0 rows rows
  | passes_more k completes rows1 rows2 rows3 :
      operation_pass cands completes rows1 rows2 → operation_passes cands k rows2 rows3 →
      operation_passes cands (if completes then S k else k) rows1 rows3.

Lemma acks_from_candidates in_ c : c ∈ op_Ack (planOperation in_) → c ∈ oi_Candidates in_.
Proof.
  unfold planOperation. fold (pending_of in_).
  destruct (oi_Quarantined in_); [destruct (pending_of in_); by intros ?%not_elem_of_nil|].
  destruct (oi_Bootstrapping in_ && _); [simpl; by rewrite sort_slice_perm|].
  destruct (0 <? len (bfilter (is_unseeded _) _))%Z.
  { simpl. intros [Hc _]%elem_of_bfilter. by rewrite sort_slice_perm in Hc. }
  destruct (pending_of in_) as [|p0 rest] eqn:Ep; [by intros ?%not_elem_of_nil|]. rewrite <-Ep.
  destruct (operationRunnable (pending_of in_)) as [|pick more] eqn:Er; [by intros ?%not_elem_of_nil|].
  destruct (oi_DriverDone in_ && oi_Settled in_).
  - assert (pick ∈ operationRunnable (pending_of in_)) as Hp by (rewrite Er; left).
    apply runnable_may_run in Hp as [Hp _]. unfold plan_completed.
    repeat case_match; simpl; by intros ->%list_elem_of_singleton.
  - unfold plan_running. destruct (if operationStalled _ _ then _ else _). by intros ?%not_elem_of_nil.
Qed.

Lemma acks_nodup in_ :
  NoDup (operationNames (oi_Candidates in_)) → NoDup (operationNames (op_Ack (planOperation in_))).
Proof.
  intros Hnd. unfold planOperation. fold (pending_of in_).
  assert (Hs : NoDup (operationNames (sort_slice (less_by_string oc_Name) (oi_Candidates in_))))
    by (unfold operationNames; by rewrite sort_slice_perm).
  destruct (oi_Quarantined in_); [destruct (pending_of in_); apply NoDup_nil_2|].
  destruct (oi_Bootstrapping in_ && _); [done|].
  destruct (0 <? len (bfilter (is_unseeded _) _))%Z; [by apply NoDup_bfilter_fmap|].
  destruct (pending_of in_) as [|p0 rest]; [apply NoDup_nil_2|].
  destruct (operationRunnable _) as [|pick more]; [apply NoDup_nil_2|].
  destruct (oi_DriverDone in_ && oi_Settled in_).
  - unfold plan_completed. repeat case_match; apply NoDup_singleton.
  - unfold plan_running. destruct (if operationStalled _ _ then _ else _). apply NoDup_nil_2.
Qed.

(** A pass that completes records something as long as there is a backlog. *)
Lemma completing_acks in_ c :
  orderable (oi_Candidates in_) → completing in_ = true →
  c ∈ oi_Candidates in_ → behind (oi_Acks in_) c = true →
  ∃ c', c' ∈ op_Ack (planOperation in_) ∧ behind (oi_Acks in_) c' = true.
Proof.
  intros Hord Hcomp Hc Hb. unfold completing in Hcomp.
  rewrite !andb_true_iff, negb_true_iff in Hcomp. destruct Hcomp as [[Hq Hd] Hs].
  unfold planOperation. fold (pending_of in_). rewrite Hq, Hd, Hs. cbn [andb].
  rewrite <-(sort_slice_perm (less_by_string oc_Name)) in Hc.
  destruct (oi_Bootstrapping in_ && _); [by eauto|].
  destruct (0 <? len (bfilter (is_unseeded _) _))%Z eqn:Hu.
  { destruct (bfilter (is_unseeded (oi_Acks in_)) _) as [|u us] eqn:E; [done|]. exists u. split; [left|].
    assert (u ∈ u :: us) as Hin by left. rewrite <-E in Hin. apply elem_of_bfilter in Hin as [_ Hn].
    unfold is_unseeded, behind in *. apply negb_true_iff, bool_decide_eq_false, eq_None_not_Some in Hn.
    by rewrite Hn. }
  assert (Hseeded : is_unseeded (oi_Acks in_) c = false).
  { revert Hc. clear Hb. revert c. apply bfilter_nil. by destruct (bfilter _ _). }
  assert (Hpend : c ∈ pending_of in_).
  { apply elem_of_bfilter. split; [done|]. unfold is_unseeded, is_pending, behind in *.
    destruct (_ !! _) as [f|]; [|by rewrite bool_decide_eq_false_2 in Hseeded by (intros []; done)].
    apply negb_true_iff, bool_decide_eq_false in Hb. apply negb_true_iff, String.eqb_neq. congruence. }
  destruct (pending_of in_) as [|p0 rest] eqn:Ep; [by apply not_elem_of_nil in Hpend|]. rewrite <-Ep in *.
  destruct (operationRunnable (pending_of in_)) as [|pick more] eqn:Er.
  { exfalso. apply (runnable_exists (pending_of in_)); [|by rewrite Ep|by rewrite Er].
    destruct Hord as (requires & Hreq & Hac). exists requires. split; [|done].
    intros d [Hd' _]%elem_of_pending_of. by apply Hreq. }
  assert (pick ∈ operationRunnable (pending_of in_)) as (_ & Hp & _)%runnable_may_run by (rewrite Er; left).
  exists pick. split; [unfold plan_completed; repeat case_match; left|].
  unfold is_pending, behind in *. destruct (oi_Acks in_ !! oc_Name pick); [|done].
  apply negb_true_iff, String.eqb_neq in Hp.
  apply negb_true_iff, bool_decide_eq_false. congruence.
Qed.

Lemma behind_acked acks ack cands c :
  NoDup (operationNames cands) → NoDup (operationNames ack) → ack ⊆ cands → c ∈ cands →
  behind (acked acks ack) c = behind acks c && negb (bool_decide (c ∈ ack)).
Proof.
  intros Hnd Hnda Hsub Hc. unfold behind. destruct (decide (c ∈ ack)) as [Hin|Hout].
  - rewrite acked_in, (bool_decide_eq_true_2 (c ∈ ack)) by done. by rewrite bool_decide_eq_true_2, andb_false_r.
  - rewrite acked_out, (bool_decide_eq_false_2 (c ∈ ack)), andb_true_r; [done..|].
    intros (d & He & Hd)%list_elem_of_fmap. by rewrite (same_name_eq cands c d) in Hout; auto.
Qed.

(** No pass adds to the backlog, and one that completes shortens it. *)
Lemma operation_pass_backlog cands completes rows rows' :
  NoDup (operationNames cands) → orderable cands → NoDup (ack_Name <$> rows) →
  operation_pass cands completes rows rows' →
  NoDup (ack_Name <$> rows') ∧
  (backlog cands rows' ≤ backlog cands rows)%nat ∧
  (completes = true → backlog cands rows ≠ 0%nat → (backlog cands rows' < backlog cands rows)%nat).
Proof.
  intros Hnd Hord Hrows (in_ & <- & Hacks & <- & Hrows'). set (ack := op_Ack (planOperation in_)) in *.
  destruct (upsert_rows ack rows (oi_Now in_) Hrows) as [Hnd' Hrec].
  destruct (ack_pairs_agree _ _ Hrows' Hnd') as [Hnd'' Hagree]. split; [done|]. rewrite <-Hagree in Hrec.
  assert (Hcut : ∀ c, c ∈ oi_Candidates in_ →
    behind (acked (acks_of rows) ack) c = behind (acks_of rows) c && negb (bool_decide (c ∈ ack))).
  { intros c. apply behind_acked; [done|by apply acks_nodup|]. intros x. apply acks_from_candidates. }
  unfold backlog. rewrite Hrec. split.
  - apply bfilter_length_mono. intros c Hc. rewrite Hcut by done. by intros [? _]%andb_true_iff.
  - intros Hcomp Hne. destruct (bfilter (behind (acks_of rows)) _) as [|c0 l] eqn:E; [done|]. rewrite <-E.
    assert (c0 ∈ c0 :: l) as Hin by left. rewrite <-E in Hin. apply elem_of_bfilter in Hin as [Hc0 Hb0].
    rewrite <-Hacks in Hb0. destruct (completing_acks in_ c0 Hord Hcomp Hc0 Hb0) as (c' & Hc' & Hb').
    rewrite Hacks in Hb'. apply (bfilter_length_strict _ _ _ c').
    + intros c Hc. rewrite Hcut by done. by intros [? _]%andb_true_iff.
    + by apply acks_from_candidates.
    + done.
    + rewrite Hcut by (by apply acks_from_candidates). rewrite (bool_decide_eq_true_2 (c' ∈ ack)) by done.
      by rewrite andb_false_r.
Qed.

Lemma operation_passes_backlog cands k rows rows' :
  NoDup (operationNames cands) → orderable cands → NoDup (ack_Name <$> rows) →
  operation_passes cands k rows rows' →
  NoDup (ack_Name <$> rows') ∧ (backlog cands rows' ≤ backlog cands rows - k)%nat.
Proof.
  intros Hnd Hord Hrows Hp. induction Hp as [rows|k completes rows1 rows2 rows3 Hp _ IH]; [split; [done|lia]|].
  destruct (operation_pass_backlog _ _ _ _ Hnd Hord Hrows Hp) as (Hrows2 & Hle & Hlt).
  destruct (IH Hrows2) as [? ?]. split; [done|]. destruct completes; [|lia].
  specialize (Hlt eq_refl). lia.
Qed.

(** With nothing behind, every input (outside bootstrap) is answered by "converged". *)
Lemma nothing_behind_converged in_ :
  bfilter (behind (oi_Acks in_)) (oi_Candidates in_) = [] → oi_Bootstrapping in_ = false →
  planOperation in_ = mkOperationPlan "" "" [] operationReasonConverged [] "".
Proof.
  intros Hnone Hb.
  assert (Hcur : ∀ c, c ∈ sort_slice (less_by_string oc_Name) (oi_Candidates in_) →
                 oi_Acks in_ !! oc_Name c = Some (oc_Fingerprint c)).
  { intros c Hc. rewrite sort_slice_perm in Hc. apply (proj1 (bfilter_nil _ _) Hnone) in Hc.
    unfold behind in Hc. by apply negb_false_iff, bool_decide_eq_true in Hc. }
  assert (Hp : pending_of in_ = []).
  { apply bfilter_nil. intros c Hc. unfold is_pending. by rewrite Hcur, String.eqb_refl. }
  assert (Hu : bfilter (is_unseeded (oi_Acks in_)) (sort_slice (less_by_string oc_Name) (oi_Candidates in_)) = []).
  { apply bfilter_nil. intros c Hc. unfold is_unseeded. by rewrite Hcur. }
  unfold planOperation. fold (pending_of in_). rewrite Hp, Hu, Hb. by destruct (oi_Quarantined in_).
Qed.

End Drain.

Lemma operationCandidates_registry {I} (lr : I) (ops : list (heavyOperation I)) c :
  c ∈ operationCandidates lr ops →
  ∃ op, op ∈ ops ∧ oc_Name c = ho_Name op ∧ oc_Requires c = ho_Requires op.
Proof.
  intros (op & Hop & Hc)%list_elem_of_omap. exists op.
  destruct (ho_Applies op) as [applies|]; [|done]. destruct (applies lr); by simplify_eq.
Qed.

Lemma requires_map_lookup {I} (ops : list (heavyOperation I)) op :
  NoDup (ho_Name <$> ops) → op ∈ ops → requires_map ops !! ho_Name op = Some (ho_Requires op).
Proof.
  unfold requires_map. intros Hnd Hop. induction ops as [|o ops IH] using rev_ind; [by apply not_elem_of_nil in Hop|].
  rewrite fmap_app in Hnd. apply NoDup_app in Hnd as (Hnd & Hdis & _). rewrite foldl_app. simpl.
  apply elem_of_app in Hop as [Hop| ->%list_elem_of_singleton]; [|by rewrite lookup_insert_eq].
  rewrite lookup_insert_ne; [by apply IH|]. intros He.
  apply (Hdis (ho_Name op)); [by apply list_elem_of_fmap_2|]. rewrite <-He. left.
Qed.

(** The candidates of an accepted registry have distinct names and can be ordered. *)
Lemma operationCandidates_orderable {I} (lr : I) (ops : list (heavyOperation I)) :
  NoDup (ho_Name <$> ops) → operationRequiresCycle ops = [] →
  NoDup (operationNames (operationCandidates lr ops)) ∧ orderable (operationCandidates lr ops).
Proof.
  intros Hnd Hcyc. split.
  - clear Hcyc. unfold operationNames. induction ops as [|op ops IH]; [apply NoDup_nil_2|].
    rewrite fmap_cons, NoDup_cons in Hnd. destruct Hnd as [Hop Hnd]. specialize (IH Hnd).
    unfold operationCandidates in *. cbn [omap list_omap].
    destruct (ho_Applies op) as [applies|]; [|done]. destruct (applies lr); [|done].
    rewrite fmap_cons. apply NoDup_cons. split; [|done]. simpl.
    intros (c & He & Hc)%list_elem_of_fmap. apply operationCandidates_registry in Hc as (o & Ho & Hn & _).
    apply Hop. rewrite He, Hn. by apply list_elem_of_fmap_2.
  - exists (requires_map ops). split; [|by apply requires_cycle_spec].
    intros c (op & Hop & -> & ->)%operationCandidates_registry. by apply requires_map_lookup.
Qed.

(** Enough completing passes leave nothing behind. *)
Lemma drain_facts `{GoRuntime} {I} (lr : I) (ops : list (heavyOperation I)) k rows rows' :
  NoDup (ho_Name <$> ops) → operationRequiresCycle ops = [] → NoDup (ack_Name <$> rows) →
  operation_passes (operationCandidates lr ops) k rows rows' →
  (length (operationCandidates lr ops) ≤ k)%nat →
  (∀ c, c ∈ operationCandidates lr ops → acks_of rows' !! oc_Name c = Some (oc_Fingerprint c)) ∧
  ∀ in_, oi_Candidates in_ = operationCandidates lr ops → oi_Acks in_ = acks_of rows' →
    oi_Bootstrapping in_ = false →
    planOperation in_ = mkOperationPlan "" "" [] operationReasonConverged [] "".
Proof.
  intros Hops Hcyc Hrows Hp Hk.
  destruct (operationCandidates_orderable lr ops Hops Hcyc) as [Hnd Hord].
  destruct (operation_passes_backlog _ _ _ _ Hnd Hord Hrows Hp) as [_ Hb].
  assert (backlog (operationCandidates lr ops) rows ≤ length (operationCandidates lr ops))%nat
    by apply List.filter_length_le.
  assert (Hnone : bfilter (behind (acks_of rows')) (operationCandidates lr ops) = [])
    by (apply length_zero_iff_nil; unfold backlog in *; lia).
  split.
  - intros c Hc. apply (proj1 (bfilter_nil _ _) Hnone) in Hc. unfold behind in Hc.
    by apply negb_false_iff, bool_decide_eq_true in Hc.
  - intros in_ Hci Hai. apply nothing_behind_converged. by rewrite Hci, Hai.
Qed.

(** Every declared operation is eventually carried out.  Take a registry of distinct
    names whose check reports no cycle, and an instance whose specification stays put.  Any
    sequence of passes, in any order and with the instance quarantined, blocked or rolling
    in as many of them as it likes, of which at least as many as there are operations are
    completing ones (driver done, StatefulSets settled, not quarantined), ends with every
    operation acknowledged at its declared value; from then on the planner reports
    convergence and runs nothing. *)
Theorem operations_drain `{GoRuntime} {I} (lr : I) (ops : list (heavyOperation I)) k rows rows' :
  NoDup (ho_Name <$> ops) → operationRequiresCycle ops = [] → NoDup (ack_Name <$> rows) →
  operation_passes (operationCandidates lr ops) k rows rows' →
  (length (operationCandidates lr ops) ≤ k)%nat →
  (∀ c, c ∈ operationCandidates lr ops → acks_of rows' !! oc_Name c = Some (oc_Fingerprint c)) ∧
  ∀ in_, oi_Candidates in_ = operationCandidates lr ops → oi_Acks in_ = acks_of rows' →
    oi_Bootstrapping in_ = false →
    planOperation in_ = mkOperationPlan "" "" [] operationReasonConverged [] "".
Proof. apply drain_facts. Qed.

(** Seeding one operation hides another.  The plan of a pass that seeds reports nothing
    although a changed operation is waiting, so the entry of the waiting operation is removed
    from the status and the clock of its stall budget starts again. *)
Lemma seeding_hides_pending `{GoRuntime} in_ c d running t :
  oi_Candidates in_ = [c; d] →
  oi_Quarantined in_ = false → oi_Bootstrapping in_ = false →
  is_pending (oi_Acks in_) c = true → oi_Acks in_ !! oc_Name d = None →
  op_Reason (planOperation in_) = operationReasonSeeded ∧
  operationStatusFor (planOperation in_) (Some running) t = None.
Proof.
  intros Hc Hq Hb Hp Hd. unfold planOperation. rewrite Hq, Hb, Hc. cbn [andb].
  destruct (bfilter (is_unseeded (oi_Acks in_)) _) as [|u us] eqn:E; [|done].
  apply (proj1 (bfilter_nil _ _)) with (x := d) in E; [|rewrite sort_slice_perm; set_solver].
  unfold is_unseeded in E. by rewrite Hd in E.
Qed.

(** *** Witnesses *)

Definition sample_op (name : string) (requires : list string) (fingerprint : string)
  : heavyOperation unit :=
  mkHeavyOperation name "" [] "" requires (900 * second) (λ _, fingerprint) (Some (λ _, true)).
Definition sample_ops : list (heavyOperation unit) :=
  [sample_op "AuthRotation" ["MasterNameRename"] "new-secret"; sample_op "MasterNameRename" [] "new-name"].
Definition sample_rows : list OperationAck :=
  [mkAck "MasterNameRename" "old-name" 10; mkAck "AuthRotation" "old-secret" 20].
Definition sample_input (rows : list OperationAck) : operationInput :=
  mkOperationInput (operationCandidates tt sample_ops) (acks_of rows) false false true true false None 30.

(** The requirement is acknowledged and what was waiting for it starts. *)
Lemma planOperation_sound_witness :
  let plan := @planOperation ref_runtime (sample_input sample_rows) in
  op_Run plan = "AuthRotation" ∧ sound_plan (sample_input sample_rows) plan.
Proof.
  split; [vm_compute; reflexivity|]. refine (@planOperation_sound ref_runtime _ _).
  apply (bool_decide_unpack _). vm_compute. exact I.
Defined.

Definition sample_pass (rows : list OperationAck) : list OperationAck :=
  upsertOperationAcks rows (op_Ack (@planOperation ref_runtime (sample_input rows))) 30.

Lemma operations_drain_witness :
  acks_of (sample_pass sample_rows) !! "AuthRotation" = Some "old-secret" ∧
  acks_of (sample_pass (sample_pass sample_rows)) !! "AuthRotation" = Some "new-secret".
Proof.
  split; [vm_compute; reflexivity|].
  refine (proj1 (@operations_drain ref_runtime unit tt sample_ops 2 sample_rows
    (sample_pass (sample_pass sample_rows)) _ _ _ _ _)
    (mkCandidate "AuthRotation" "new-secret" ["MasterNameRename"] (900 * second)) _).
  - apply (bool_decide_unpack _). vm_compute. exact I.
  - vm_compute. reflexivity.
  - apply (bool_decide_unpack _). vm_compute. exact I.
  - refine (passes_more _ 1 true _ (sample_pass sample_rows) _ _ _);
      [exists (sample_input sample_rows); by repeat split|].
    refine (passes_more _ 0 true _ (sample_pass (sample_pass sample_rows)) _ _ _);
      [exists (sample_input (sample_pass sample_rows)); by repeat split|]. constructor.
  - vm_compute. lia.
  - vm_compute. left.
Defined.
