(* ===== verification/Kube.v ===== *)
(** * The operator's outside world
    (src/api/v1alpha1/littlered_types.go and littlered_defaults.go, src/internal/controller/
    resources.go, src/internal/redis/client.go)

    The handlers talk to the Kubernetes API server and to Redis.  Both are outside the
    program: a handler is a tree of calls that continues with whatever the other side
    answers ([prog]).  A theorem over all answers is stated with [safe]; a theorem that
    needs the documented behaviour of the API server assumes the class [ApiServer]. *)

From S2P Require Import Prelude GoStrings Probe ClusterState ReplicationTypes.
From S2P Require Import Info Recovery Gather Operations.

Open Scope Z_scope.
Open Scope go_scope.

(** ** Objects *)

Definition AnnotationDisablePolling : string := "redis.chuck-chuck-chuck.net/disable-polling".
Definition AnnotationAssignedRole : string := "redis.chuck-chuck-chuck.net/assigned-role".
Definition AnnotationAssignedMasterIP : string :=
  "redis.chuck-chuck-chuck.net/assigned-master-ip".
Definition AnnotationAssignmentEpoch : string := "redis.chuck-chuck-chuck.net/assignment-epoch".
Definition AnnotationMasterStartAuthorizedEpoch : string :=
  "redis.chuck-chuck-chuck.net/master-start-authorized-epoch".
Definition LabelRole : string := "redis.chuck-chuck-chuck.net/role".
Definition ComponentRedis : string := "redis".
Definition annotationValueTrue : string := "true".

(** The parts of a pod the operator reads: [cs_LastTerminated] is the reason of the last
    termination, [pod_ReadySince] the last transition of the first condition of type Ready,
    [pod_Ready] whether a condition of that type is True. *)
Record ContainerStatus := mkContainerStatus {
  cs_Name : string;
  cs_Ready : bool;
  cs_RestartCount : Z;
  cs_LastTerminated : option string;
}.

Record Pod := mkPod {
  pod_Name : string;
  pod_IP : string;
  pod_Terminating : bool;
  pod_Annotations : gmap string string;
  pod_Labels : gmap string string;
  pod_Containers : list ContainerStatus;
  pod_ReadySince : option time;
  pod_Ready : bool;
}.

Definition set_Annotations (p : Pod) (a : gmap string string) : Pod :=
  mkPod (pod_Name p) (pod_IP p) (pod_Terminating p) a (pod_Labels p) (pod_Containers p)
    (pod_ReadySince p) (pod_Ready p).
Definition set_Labels (p : Pod) (l : gmap string string) : Pod :=
  mkPod (pod_Name p) (pod_IP p) (pod_Terminating p) (pod_Annotations p) l (pod_Containers p)
    (pod_ReadySince p) (pod_Ready p).

(** [m[k]] of a Go string map. *)
Definition at_key (m : gmap string string) (k : string) : string := default "" (m !! k).

(** [sts_Replicas] is the number asked for, which the API server always fills in;
    [sts_StatusReplicas] the number that exists; [sts_PodSpecHash] is the annotation of the
    pod template, [sts_ControllerUID] the controlling owner ("" for none). *)
Record StatefulSet := mkStatefulSet {
  sts_CurrentRevision : string;
  sts_ReadyReplicas : Z;
  sts_Replicas : Z;
  sts_Generation : Z;
  sts_ObservedGeneration : Z;
  sts_UpdateRevision : string;
  sts_UpdatedReplicas : Z;
  sts_StatusReplicas : Z;
  sts_Name : string;
  sts_Labels : gmap string string;
  sts_PodSpecHash : string;
  sts_Partition : option Z;
  sts_ControllerUID : string;
}.

Definition statefulSetRolloutSettled (sts : StatefulSet) : bool :=
  let want := sts_Replicas sts in
  (sts_ObservedGeneration sts =? sts_Generation sts)%Z
  && negb (sts_UpdateRevision sts =? "")
  && (sts_UpdateRevision sts =? sts_CurrentRevision sts)
  && (sts_UpdatedReplicas sts =? want)%Z
  && (sts_ReadyReplicas sts =? want)%Z
  && (sts_StatusReplicas sts =? want)%Z.

Inductive ConditionStatus := ConditionTrue | ConditionFalse | ConditionUnknown.

#[export] Instance ConditionStatus_eq_dec : EqDecision ConditionStatus.
Proof. solve_decision. Defined.

(** [LastTransitionTime] is left out: [meta.SetStatusCondition] moves it exactly when the
    status changes, and no code reads it. *)
Record Condition := mkCondition {
  cond_Status : ConditionStatus;
  cond_Reason : string;
  cond_Message : string;
}.

#[export] Instance Condition_eq_dec : EqDecision Condition.
Proof. solve_decision. Defined.

Definition ConditionReady : string := "Ready".
Definition ConditionInitialized : string := "Initialized".
Definition ConditionLeaderlessRecovery : string := "LeaderlessRecovery".
Definition ConditionGhostMasterRecovery : string := "GhostMasterRecovery".
Definition ConditionFailoverRecovery : string := "FailoverRecovery".
Definition ConditionOperatorCannotAuthenticate : string := "OperatorCannotAuthenticate".

Inductive LittleRedPhase :=
| PhaseUnset | PhasePending | PhaseInitializing | PhaseRunning | PhaseFailed | PhaseTerminating.

#[export] Instance LittleRedPhase_eq_dec : EqDecision LittleRedPhase.
Proof. solve_decision. Defined.

Definition phase_text (p : LittleRedPhase) : string :=
  match p with
  | PhaseUnset => ""
  | PhasePending => "Pending"
  | PhaseInitializing => "Initializing"
  | PhaseRunning => "Running"
  | PhaseFailed => "Failed"
  | PhaseTerminating => "Terminating"
  end.

Record FailoverStatus := mkFailoverStatus {
  fo_MasterDownSince : option time;
  fo_AssignmentEpoch : Z;
  fo_TransitionSince : option time;
}.

#[export] Instance FailoverStatus_eq_dec : EqDecision FailoverStatus.
Proof. solve_decision. Defined.

(** *** Cluster mode *)

Record OrphanedReplicaInfo := mkOrphan {
  or_PodName : string;
  or_NodeID : string;
  or_MasterNodeID : string;
  or_DetectedAt : time;
}.

#[export] Instance OrphanedReplicaInfo_eq_dec : EqDecision OrphanedReplicaInfo.
Proof. solve_decision. Defined.

Record ClusterMigrationStatus := mkMigrationStatus {
  cms_Phase : string;
  cms_ShardsMoved : Z;
  cms_TotalShards : Z;
  cms_StartedAt : option time;
}.

#[export] Instance ClusterMigrationStatus_eq_dec : EqDecision ClusterMigrationStatus.
Proof. solve_decision. Defined.

(** [ClusterNodeState] of the API: the node as it is reported in the status. *)
Record ReportedNode := mkReportedNode {
  rep_PodName : string;
  rep_NodeID : string;
  rep_Role : string;
  rep_MasterNodeID : string;
  rep_SlotRanges : string;
}.

#[export] Instance ReportedNode_eq_dec : EqDecision ReportedNode.
Proof. solve_decision. Defined.

(** [LastBootstrap] is neither read nor written. *)
Record ClusterStatusInfo := mkClusterStatus {
  cst_State : string;
  cst_Nodes : list ReportedNode;
  cst_OrphanedReplicas : list OrphanedReplicaInfo;
  cst_WipeDeadlockSince : option time;
  cst_Migration : option ClusterMigrationStatus;
}.

#[export] Instance ClusterStatusInfo_eq_dec : EqDecision ClusterStatusInfo.
Proof. solve_decision. Defined.

Definition empty_cluster_status : ClusterStatusInfo := mkClusterStatus "" [] [] None None.

(** [RedisStatus] and [ReplicaStatus]: ready and total. *)
Abbreviation ready_total := (Z * Z)%type.

(** [MasterStatus]: pod name and address. *)
Abbreviation MasterStatus := (string * string)%type.

(** The status fields the modelled handlers read or write; [ls_Conditions] is keyed by the
    condition type, as the list is ([listMapKey=type]). *)
Record LittleRedStatus := mkLittleRedStatus {
  ls_Phase : LittleRedPhase;
  ls_Status : string;
  ls_BootstrapRequired : bool;
  ls_LeaderlessSince : option time;
  ls_GhostMasterStuckSince : option time;
  ls_ForsakenSince : option time;
  ls_QuarantinedSince : option time;
  ls_QuarantineAttempts : Z;
  ls_AcknowledgedOperations : list OperationAck;
  ls_Operation : option OperationStatus;
  ls_ObservedGeneration : Z;
  ls_Conditions : gmap string Condition;
  ls_Redis : ready_total;
  ls_Master : option MasterStatus;
  ls_Replicas : option ready_total;
  ls_Sentinels : option ready_total;
  ls_Failover : option FailoverStatus;
  ls_Cluster : option ClusterStatusInfo;
}.

#[export] Instance LittleRedStatus_eq_dec : EqDecision LittleRedStatus.
Proof. solve_decision. Defined.

Record FailoverSpec := mkFailoverSpec {
  fsp_Replicas : option Z;
  fsp_DownAfterMilliseconds : Z;
  fsp_MinReplicasToWrite : option Z;
  fsp_AllowUnsafeRebootstrapOnDeadlock : bool;
}.

Record SentinelSpec := mkSentinelSpec {
  ssp_MasterName : string;
  ssp_Quorum : Z;
  ssp_DownAfterMilliseconds : Z;
  ssp_FailoverTimeout : Z;
  ssp_ParallelSyncs : Z;
  ssp_AllowUnsafeRebootstrapOnDeadlock : bool;
}.

Record ClusterSpec := mkClusterSpec {
  cls_Shards : Z;
  cls_ReplicasPerShard : option Z;
  cls_ClusterNodeTimeout : Z;
  cls_FailoverGracePeriod : Z;
  cls_ReshardKeyBatchSize : Z;
  cls_ReshardMaxKeysPerReconcile : Z;
  cls_ReshardMigrateTimeoutMillis : Z;
}.

Record TLSSpec := mkTLSSpec {
  tls_Enabled : bool;
  tls_ExistingSecret : string;
  tls_CACertSecret : string;
  tls_ClientAuth : bool;
}.

Definition no_tls : TLSSpec := mkTLSSpec false "" "" false.

(** [lr_HasFinalizer] is whether the operator's finalizer is set; [lr_WhenUnsatisfiable] is
    [whenUnsatisfiable] of [spec.placement.shardAntiAffinity], [None] without that block. *)
Record LittleRed := mkLittleRed {
  lr_Name : string;
  lr_UID : string;
  lr_ResourceVersion : string;
  lr_HasFinalizer : bool;
  lr_Terminating : bool;
  lr_Mode : string;
  lr_Generation : Z;
  lr_Annotations : gmap string string;
  lr_AuthEnabled : bool;
  lr_ExistingSecret : string;
  lr_TLS : TLSSpec;
  lr_FailoverSpec : option FailoverSpec;
  lr_Sentinel : option SentinelSpec;
  lr_Cluster : option ClusterSpec;
  lr_WhenUnsatisfiable : option string;
  lr_RequeueFast : option duration;
  lr_RequeueSteady : option duration;
  lr_Status : LittleRedStatus;
}.

Definition set_lr_Status (lr : LittleRed) (s : LittleRedStatus) : LittleRed :=
  mkLittleRed (lr_Name lr) (lr_UID lr) (lr_ResourceVersion lr) (lr_HasFinalizer lr)
    (lr_Terminating lr) (lr_Mode lr) (lr_Generation lr) (lr_Annotations lr) (lr_AuthEnabled lr)
    (lr_ExistingSecret lr) (lr_TLS lr) (lr_FailoverSpec lr) (lr_Sentinel lr) (lr_Cluster lr)
    (lr_WhenUnsatisfiable lr) (lr_RequeueFast lr) (lr_RequeueSteady lr) s.
Definition set_ResourceVersion (lr : LittleRed) (v : string) : LittleRed :=
  mkLittleRed (lr_Name lr) (lr_UID lr) v (lr_HasFinalizer lr)
    (lr_Terminating lr) (lr_Mode lr) (lr_Generation lr) (lr_Annotations lr) (lr_AuthEnabled lr)
    (lr_ExistingSecret lr) (lr_TLS lr) (lr_FailoverSpec lr) (lr_Sentinel lr) (lr_Cluster lr)
    (lr_WhenUnsatisfiable lr) (lr_RequeueFast lr) (lr_RequeueSteady lr) (lr_Status lr).

Definition set_Failover (s : LittleRedStatus) (f : option FailoverStatus) : LittleRedStatus :=
  mkLittleRedStatus (ls_Phase s) (ls_Status s) (ls_BootstrapRequired s) (ls_LeaderlessSince s)
    (ls_GhostMasterStuckSince s) (ls_ForsakenSince s) (ls_QuarantinedSince s)
    (ls_QuarantineAttempts s) (ls_AcknowledgedOperations s) (ls_Operation s)
    (ls_ObservedGeneration s) (ls_Conditions s) (ls_Redis s) (ls_Master s) (ls_Replicas s) (ls_Sentinels s) f
    (ls_Cluster s).
Definition set_Conditions (s : LittleRedStatus) (c : gmap string Condition) : LittleRedStatus :=
  mkLittleRedStatus (ls_Phase s) (ls_Status s) (ls_BootstrapRequired s) (ls_LeaderlessSince s)
    (ls_GhostMasterStuckSince s) (ls_ForsakenSince s) (ls_QuarantinedSince s)
    (ls_QuarantineAttempts s) (ls_AcknowledgedOperations s) (ls_Operation s)
    (ls_ObservedGeneration s) c (ls_Redis s) (ls_Master s) (ls_Replicas s) (ls_Sentinels s) (ls_Failover s)
    (ls_Cluster s).
Definition set_BootstrapRequired (s : LittleRedStatus) (b : bool) : LittleRedStatus :=
  mkLittleRedStatus (ls_Phase s) (ls_Status s) b (ls_LeaderlessSince s) (ls_GhostMasterStuckSince s)
    (ls_ForsakenSince s) (ls_QuarantinedSince s) (ls_QuarantineAttempts s)
    (ls_AcknowledgedOperations s) (ls_Operation s) (ls_ObservedGeneration s)
    (ls_Conditions s) (ls_Redis s) (ls_Master s) (ls_Replicas s) (ls_Sentinels s) (ls_Failover s)
    (ls_Cluster s).
Definition set_LeaderlessSince (s : LittleRedStatus) (t : option time) : LittleRedStatus :=
  mkLittleRedStatus (ls_Phase s) (ls_Status s) (ls_BootstrapRequired s) t
    (ls_GhostMasterStuckSince s) (ls_ForsakenSince s) (ls_QuarantinedSince s)
    (ls_QuarantineAttempts s) (ls_AcknowledgedOperations s) (ls_Operation s)
    (ls_ObservedGeneration s) (ls_Conditions s) (ls_Redis s) (ls_Master s) (ls_Replicas s)
    (ls_Sentinels s) (ls_Failover s) (ls_Cluster s).
Definition set_GhostMasterStuckSince (s : LittleRedStatus) (t : option time) : LittleRedStatus :=
  mkLittleRedStatus (ls_Phase s) (ls_Status s) (ls_BootstrapRequired s) (ls_LeaderlessSince s)
    t (ls_ForsakenSince s) (ls_QuarantinedSince s)
    (ls_QuarantineAttempts s) (ls_AcknowledgedOperations s) (ls_Operation s)
    (ls_ObservedGeneration s) (ls_Conditions s) (ls_Redis s) (ls_Master s) (ls_Replicas s)
    (ls_Sentinels s) (ls_Failover s) (ls_Cluster s).
Definition set_ForsakenSince (s : LittleRedStatus) (t : option time) : LittleRedStatus :=
  mkLittleRedStatus (ls_Phase s) (ls_Status s) (ls_BootstrapRequired s) (ls_LeaderlessSince s)
    (ls_GhostMasterStuckSince s) t (ls_QuarantinedSince s) (ls_QuarantineAttempts s)
    (ls_AcknowledgedOperations s) (ls_Operation s) (ls_ObservedGeneration s)
    (ls_Conditions s) (ls_Redis s) (ls_Master s) (ls_Replicas s) (ls_Sentinels s) (ls_Failover s)
    (ls_Cluster s).
Definition set_Quarantine (s : LittleRedStatus) (since : option time) (attempts : Z) : LittleRedStatus :=
  mkLittleRedStatus (ls_Phase s) (ls_Status s) (ls_BootstrapRequired s) (ls_LeaderlessSince s)
    (ls_GhostMasterStuckSince s) (ls_ForsakenSince s) since attempts
    (ls_AcknowledgedOperations s) (ls_Operation s) (ls_ObservedGeneration s)
    (ls_Conditions s) (ls_Redis s) (ls_Master s) (ls_Replicas s) (ls_Sentinels s) (ls_Failover s)
    (ls_Cluster s).
Definition set_AcknowledgedOperations (s : LittleRedStatus) (rows : list OperationAck) : LittleRedStatus :=
  mkLittleRedStatus (ls_Phase s) (ls_Status s) (ls_BootstrapRequired s) (ls_LeaderlessSince s)
    (ls_GhostMasterStuckSince s) (ls_ForsakenSince s) (ls_QuarantinedSince s)
    (ls_QuarantineAttempts s) rows (ls_Operation s) (ls_ObservedGeneration s)
    (ls_Conditions s) (ls_Redis s) (ls_Master s) (ls_Replicas s) (ls_Sentinels s) (ls_Failover s)
    (ls_Cluster s).
Definition set_Operation (s : LittleRedStatus) (o : option OperationStatus) : LittleRedStatus :=
  mkLittleRedStatus (ls_Phase s) (ls_Status s) (ls_BootstrapRequired s) (ls_LeaderlessSince s)
    (ls_GhostMasterStuckSince s) (ls_ForsakenSince s) (ls_QuarantinedSince s)
    (ls_QuarantineAttempts s) (ls_AcknowledgedOperations s) o (ls_ObservedGeneration s)
    (ls_Conditions s) (ls_Redis s) (ls_Master s) (ls_Replicas s) (ls_Sentinels s) (ls_Failover s)
    (ls_Cluster s).

Definition set_Cluster (s : LittleRedStatus) (c : option ClusterStatusInfo) : LittleRedStatus :=
  mkLittleRedStatus (ls_Phase s) (ls_Status s) (ls_BootstrapRequired s) (ls_LeaderlessSince s)
    (ls_GhostMasterStuckSince s) (ls_ForsakenSince s) (ls_QuarantinedSince s)
    (ls_QuarantineAttempts s) (ls_AcknowledgedOperations s) (ls_Operation s)
    (ls_ObservedGeneration s) (ls_Conditions s) (ls_Redis s) (ls_Master s) (ls_Replicas s)
    (ls_Sentinels s) (ls_Failover s) c.
Definition set_Phase (s : LittleRedStatus) (phase : LittleRedPhase) (status : string) : LittleRedStatus :=
  mkLittleRedStatus phase status (ls_BootstrapRequired s) (ls_LeaderlessSince s)
    (ls_GhostMasterStuckSince s) (ls_ForsakenSince s) (ls_QuarantinedSince s)
    (ls_QuarantineAttempts s) (ls_AcknowledgedOperations s) (ls_Operation s)
    (ls_ObservedGeneration s) (ls_Conditions s) (ls_Redis s) (ls_Master s) (ls_Replicas s)
    (ls_Sentinels s) (ls_Failover s) (ls_Cluster s).
Definition set_Redis (s : LittleRedStatus) (redis : ready_total) : LittleRedStatus :=
  mkLittleRedStatus (ls_Phase s) (ls_Status s) (ls_BootstrapRequired s) (ls_LeaderlessSince s)
    (ls_GhostMasterStuckSince s) (ls_ForsakenSince s) (ls_QuarantinedSince s)
    (ls_QuarantineAttempts s) (ls_AcknowledgedOperations s) (ls_Operation s)
    (ls_ObservedGeneration s) (ls_Conditions s) redis (ls_Master s) (ls_Replicas s)
    (ls_Sentinels s) (ls_Failover s) (ls_Cluster s).

(** [lr.Status.Failover = f] and [lr.Status.Conditions = c]. *)
Definition with_Failover (lr : LittleRed) (f : option FailoverStatus) : LittleRed :=
  set_lr_Status lr (set_Failover (lr_Status lr) f).
Definition with_Conditions (lr : LittleRed) (c : gmap string Condition) : LittleRed :=
  set_lr_Status lr (set_Conditions (lr_Status lr) c).

(** *** What the API server stores

    A [metav1.Time] is written to the second. *)

Definition to_second (t : time) : time := t - t `mod` second.
Definition stored_ack (a : OperationAck) : OperationAck :=
  mkAck (ack_Name a) (ack_Fingerprint a) (to_second (ack_AcknowledgedAt a)).
Definition stored_operation (o : OperationStatus) : OperationStatus :=
  mkOperationStatus (os_Name o) (to_second (os_StartedAt o)) (os_Reason o) (os_Pending o).
Definition stored_failover (f : FailoverStatus) : FailoverStatus :=
  mkFailoverStatus (to_second <$> fo_MasterDownSince f) (fo_AssignmentEpoch f)
    (to_second <$> fo_TransitionSince f).
Definition stored_orphan (o : OrphanedReplicaInfo) : OrphanedReplicaInfo :=
  mkOrphan (or_PodName o) (or_NodeID o) (or_MasterNodeID o) (to_second (or_DetectedAt o)).
Definition stored_migration (m : ClusterMigrationStatus) : ClusterMigrationStatus :=
  mkMigrationStatus (cms_Phase m) (cms_ShardsMoved m) (cms_TotalShards m)
    (to_second <$> cms_StartedAt m).
Definition stored_cluster (c : ClusterStatusInfo) : ClusterStatusInfo :=
  mkClusterStatus (cst_State c) (cst_Nodes c) (stored_orphan <$> cst_OrphanedReplicas c)
    (to_second <$> cst_WipeDeadlockSince c) (stored_migration <$> cst_Migration c).
Definition as_stored (s : LittleRedStatus) : LittleRedStatus :=
  mkLittleRedStatus (ls_Phase s) (ls_Status s) (ls_BootstrapRequired s) (to_second <$> ls_LeaderlessSince s)
    (to_second <$> ls_GhostMasterStuckSince s) (to_second <$> ls_ForsakenSince s)
    (to_second <$> ls_QuarantinedSince s) (ls_QuarantineAttempts s)
    (stored_ack <$> ls_AcknowledgedOperations s) (stored_operation <$> ls_Operation s)
    (ls_ObservedGeneration s) (ls_Conditions s) (ls_Redis s) (ls_Master s) (ls_Replicas s)
    (ls_Sentinels s) (stored_failover <$> ls_Failover s) (stored_cluster <$> ls_Cluster s).

(** [meta.SetStatusCondition] and [meta.FindStatusCondition]. *)
Definition SetStatusCondition (cs : gmap string Condition) (type : string)
  (status : ConditionStatus) (reason message : string) : gmap string Condition :=
  <[type := mkCondition status reason message]> cs.
Definition FindStatusCondition (cs : gmap string Condition) (type : string) : option Condition :=
  cs !! type.

(** *** Defaults and intervals *)

Definition DefaultFailoverDownAfterMs : Z := 5000.
Definition DefaultFailoverReplicas : Z := 2.
Definition DefaultFailoverMinReplicasToWrite : Z := 1.
Definition DefaultFastRequeueInterval : duration := 2 * second.
Definition DefaultSteadyStateRequeueInterval : duration := 30 * second.

Definition FailoverSpec_SetDefaults (f : FailoverSpec) : FailoverSpec :=
  mkFailoverSpec
    (Some (default DefaultFailoverReplicas (fsp_Replicas f)))
    (if (fsp_DownAfterMilliseconds f =? 0)%Z then DefaultFailoverDownAfterMs
     else fsp_DownAfterMilliseconds f)
    (Some (default DefaultFailoverMinReplicasToWrite (fsp_MinReplicasToWrite f)))
    (fsp_AllowUnsafeRebootstrapOnDeadlock f).

Definition failoverSpecOrDefault (lr : LittleRed) : FailoverSpec :=
  match lr_FailoverSpec lr with
  | Some f => f
  | None => FailoverSpec_SetDefaults (mkFailoverSpec None 0 None false)
  end.

Definition GetRequeueIntervals (lr : LittleRed) : duration * duration :=
  (default DefaultFastRequeueInterval (lr_RequeueFast lr),
   default DefaultSteadyStateRequeueInterval (lr_RequeueSteady lr)).

Definition statefulSetName (lr : LittleRed) : string := lr_Name lr +:+ "-redis".

(** [ctrl.Result]. *)
Record ctrl_result := mkResult {
  res_Requeue : bool;
  res_RequeueAfter : duration;
}.

#[export] Instance ctrl_result_eq_dec : EqDecision ctrl_result.
Proof. solve_decision. Defined.

Definition no_requeue : ctrl_result := mkResult false 0.
Definition requeue_after (d : duration) : ctrl_result := mkResult false d.

(** The initial phase. *)
Definition start_phase (lr : LittleRed) : LittleRed :=
  let st := lr_Status lr in
  if bool_decide (ls_Phase st = PhaseUnset) then set_lr_Status lr (set_Phase st PhasePending (ls_Status st)) else lr.

(** ** Calls *)

(** An error of a call, and whether [apierrors.IsConflict] and [apierrors.IsNotFound] hold
    of it; [%w] keeps both. *)
Record error := mkError {
  error_text : string;
  error_conflict : bool;
  error_not_found : bool;
}.

Definition errorf (prefix : string) (e : error) : error :=
  mkError (prefix +:+ ": " +:+ error_text e) (error_conflict e) (error_not_found e).

Inductive EventType := EventTypeNormal | EventTypeWarning.

(** The REPLICAOF command: [None] is NO ONE. *)
Abbreviation replicaof := (option (string * string)).

(** The objects the handlers apply; a shard's StatefulSet is rendered with the partition of
    its rolling update, those of Sentinel mode with the number of pods. *)
Inductive resource :=
| StandaloneConfigMap
| StandaloneStatefulSet
| StandaloneService
| SentinelModeConfigMap
| SentinelConfigMap
| ReplicasHeadlessService
| SentinelHeadlessService
| SentinelModeStatefulSet (replicas : Z)
| SentinelStatefulSet (replicas : Z)
| MasterService
| SentinelModePDB
| SentinelPDB
| FailoverConfigMap
| FailoverStatefulSet
| FailoverPDB
| ClusterConfigMap
| ClusterHeadlessService
| ClusterClientService
| ClusterShardStatefulSet (shardIdx : Z) (partition : option Z)
| ClusterShardPDB (shardIdx : Z)
| ServiceMonitor.

Inductive object_kind := KindPod | KindStatefulSet | KindPodDisruptionBudget.

(** The commands sent to one node of a Redis Cluster. *)
Inductive slot_state := Importing (sourceID : string) | Migrating (destID : string) | Node (ownerID : string).

Inductive cluster_command :=
| SetSlots (slots : list Z) (state : slot_state)
| CountKeysInSlots (slots : list Z)
| GetKeysInSlot (slot count : Z)
| Migrate (password destHost : string) (destPort timeoutMS : Z) (keys : list string)
| MigrationStatusAll
| MigrationImport (ranges : list (Z * Z))
| Meet (ip : string) (port : Z)
| Forget (nodeID : string)
| Replicate (masterID : string)
| Failover
| FailoverTakeover
| AddSlots (slots : list Z).

Definition cluster_answer (c : cluster_command) : Type :=
  match c with
  | CountKeysInSlots _ => gmap Z Z + error
  | GetKeysInSlot _ _ => list string + error
  | MigrationStatusAll => reply + error
  | MigrationImport _ => string + error
  | _ => option error
  end.

(** The commands sent to one Sentinel. *)
Inductive sentinel_command :=
| SentinelMonitor (name ip : string) (port quorum : Z)
| SentinelSet (name option value : string)
| SentinelRemove (name : string)
| SentinelReset (name : string)
| GetMasterAddrByName (name : string)
| SentinelReplicas (name : string).

Definition sentinel_answer (c : sentinel_command) : Type :=
  match c with
  | GetMasterAddrByName _ => list string + error
  | SentinelReplicas _ => list (gmap string string) + error
  | _ => option error
  end.

(** [GetPod] and [GetStatefulSet] read the cache, the [Uncached] ones the API server. *)
Inductive call :=
| GetPod (name : string)
| ListDataPods
| PatchPod (name : string) (annotations : gmap string string)
| UpdatePod (pod : Pod)
| GetLittleRed
| UpdateStatus (lr : LittleRed)
| GetStatefulSet (name : string)
| GetSecret (name : string)
| ProbeServers (password : string)
| ReplicaOf (addr password : string) (target : replicaof)
| GetPodUncached (name : string)
| ListClusterPods
| ListSentinelPods
| GetStatefulSetUncached (name : string)
| ListClusterStatefulSets
| Apply (obj : resource)
| Delete (kind : object_kind) (name : string)
| ClusterDo (addr : string) (cmd : cluster_command)
| SentinelDo (addr password : string) (cmd : sentinel_command)
| UpdateLittleRed (lr : LittleRed)
| Now
| Event (kind : EventType) (reason message : string).

(** What a call returns; a write that returns [None] succeeded.  A status update returns
    the object as stored.  The probes of one pass are one call: their replies are read
    through a [Wire]. *)
Definition answer (c : call) : Type :=
  match c with
  | GetPod _ => Pod + error
  | ListDataPods => list Pod + error
  | PatchPod _ _ => option error
  | UpdatePod _ => option error
  | GetLittleRed => LittleRed + error
  | UpdateStatus _ => LittleRed + error
  | GetStatefulSet _ => StatefulSet + error
  | GetSecret _ => gmap string string + error
  | ProbeServers _ => Wire
  | ReplicaOf _ _ _ => option error
  | GetPodUncached _ => Pod + error
  | ListClusterPods => list Pod + error
  | ListSentinelPods => list Pod + error
  | GetStatefulSetUncached _ => StatefulSet + error
  | ListClusterStatefulSets => list StatefulSet + error
  | Apply _ => option error
  | Delete _ _ => option error
  | ClusterDo _ cmd => cluster_answer cmd
  | SentinelDo _ _ cmd => sentinel_answer cmd
  | UpdateLittleRed _ => LittleRed + error
  | Now => time
  | Event _ _ _ => unit
  end.

Inductive prog (A : Type) : Type :=
| Ret (a : A)
| Call (c : call) (k : answer c → prog A).
Arguments Ret {A} a.
Arguments Call {A} c k.

#[export] Instance prog_ret : MRet prog := @Ret.
#[export] Instance prog_bind : MBind prog := λ A B f, fix bind p :=
  match p with
  | Ret a => f a
  | Call c k => Call c (λ x, bind (k x))
  end.

Definition perform (c : call) : prog (answer c) := Call c Ret.

(** [for _, x := range l { body(x) }] where the body may update a local accumulator. *)
Fixpoint for_each {A B} (body : B → A → prog B) (acc : B) (l : list A) : prog B :=
  match l with
  | [] => mret acc
  | x :: l' => acc' ← body acc x; for_each body acc' l'
  end.

(** [retry.RetryOnConflict]: the function is called again while it returns a conflict and
    attempts are left; [retries] is the number of attempts after the first one.  The local
    state the closure updates is threaded through. *)
Fixpoint RetryOnConflict {S} (retries : nat) (fn : S → prog (S * option error)) (s : S)
  : prog (S * option error) :=
  r ← fn s;
  match retries, r.2 with
  | S retries', Some e => if error_conflict e then RetryOnConflict retries' fn r.1 else mret r
  | _, _ => mret r
  end.

(** The read-modify-write closures of the status: [f] is the modification, [local] what the
    attempt makes of the local object, [mirror] what a success does. *)
Definition modify_status {A} (f : LittleRedStatus → LittleRedStatus)
  (local : LittleRed → A → A) (mirror : LittleRed → A → A) (a : A) : prog (A * option error) :=
  r ← perform GetLittleRed;
  match r with
  | inr err => mret (a, Some err)
  | inl latest =>
      u ← perform (UpdateStatus (set_lr_Status latest (f (lr_Status latest))));
      match u with
      | inr err => mret (local latest a, Some err)
      | inl written => mret (mirror written (local latest a), None)
      end
  end.

(** [redisclient.SlaveOf]. *)
Definition SlaveOf (addr password masterIP masterPort : string) : prog (option error) :=
  perform (ReplicaOf addr password
             (if masterIP =? "" then None else Some (masterIP, masterPort))).

Definition getRedisPassword (lr : LittleRed) : prog string :=
  if negb (lr_AuthEnabled lr) then mret ""
  else
    r ← perform (GetSecret (lr_ExistingSecret lr));
    mret match r with inl data => at_key data "password" | inr _ => "" end.

Definition deleteIfExists (kind : object_kind) (name : string) : prog (option error) :=
  e ← perform (Delete kind name);
  mret match e with Some err => if error_not_found err then None else Some err | None => None end.

(** [if err := p; err != nil { return err }] before [q]. *)
Definition then_if_ok (p q : prog (option error)) : prog (option error) :=
  e ← p;
  match e with Some err => mret (Some err) | None => q end.

(** [spec.podDisruptionBudget.create]. *)
Definition pdbEnabled (pdbCreate : option bool) : bool := default true pdbCreate.

Definition reconcileServiceMonitor : prog (option error) := perform (Apply ServiceMonitor).

(** [client.MergeFrom]: the patch carries the entries that differ from the original. *)
Definition merge_patch (original modified : gmap string string) : gmap string string :=
  filter (λ '(k, v), original !! k ≠ Some v) modified.

(** ** Reasoning about handlers *)

(** Whatever is answered, every call made satisfies [P] and every result satisfies [Q]. *)
Fixpoint safe {A} (P : call → Prop) (Q : A → Prop) (p : prog A) : Prop :=
  match p with
  | Ret a => Q a
  | Call c k => P c ∧ ∀ x, safe P Q (k x)
  end.

(** One run: the calls with their answers, and the result. *)
Abbreviation trace := (list {c : call & answer c}).

Fixpoint run {A} (p : prog A) (tr : trace) (a : A) : Prop :=
  match p with
  | Ret b => tr = [] ∧ a = b
  | Call c k => ∃ x tr', tr = existT c x :: tr' ∧ run (k x) tr' a
  end.

Definition calls (tr : trace) : list call := projT1 <$> tr.

Lemma run_call {A} c (f : answer c → prog A) tr a :
  run (perform c ≫= f) tr a → ∃ x tr', tr = existT c x :: tr' ∧ run (f x) tr' a.
Proof. done. Qed.

Lemma run_bind {A B} (p : prog A) (f : A → prog B) : ∀ tr b,
  run (p ≫= f) tr b → ∃ tr1 tr2 a, tr = tr1 ++ tr2 ∧ run p tr1 a ∧ run (f a) tr2 b.
Proof.
  induction p as [a|c k IH]; intros tr b; [intros Hr; by exists [], tr, a|].
  intros (x & tr' & -> & Hr). destruct (IH x _ _ Hr) as (tr1 & tr2 & a & -> & H1 & H2).
  exists (existT c x :: tr1), tr2, a. split; [done|]. split; [|done]. by exists x, tr1.
Qed.

Lemma safe_ret {A} P (Q : A → Prop) a : Q a → safe P Q (mret a).
Proof. done. Qed.

Lemma safe_perform P (Q : ∀ c, answer c → Prop) c :
  P c → (∀ x, Q c x) → safe P (Q c) (perform c).
Proof. done. Qed.

Lemma safe_bind {A B} P (Q : A → Prop) (R : B → Prop) (p : prog A) (f : A → prog B) :
  safe P Q p → (∀ a, Q a → safe P R (f a)) → safe P R (p ≫= f).
Proof.
  intros Hp Hf. induction p as [a|c k IH]; simpl in *; [by apply Hf|].
  destruct Hp as [Hc Hk]. split; [done|]. intros x. by apply IH.
Qed.

Lemma safe_mono {A} (P P' : call → Prop) (Q Q' : A → Prop) (p : prog A) :
  (∀ c, P c → P' c) → (∀ a, Q a → Q' a) → safe P Q p → safe P' Q' p.
Proof.
  intros HP HQ. induction p as [a|c k IH]; simpl; [apply HQ|].
  intros [Hc Hk]. split; [by apply HP|]. intros x. by apply IH.
Qed.

Lemma safe_call {A} P (Q : A → Prop) c (f : answer c → prog A) :
  P c → (∀ x, safe P Q (f x)) → safe P Q (perform c ≫= f).
Proof. done. Qed.

(** When only the calls matter. *)
Abbreviation calls_only P := (safe P (λ _, True)).

Lemma safe_any {A} (p : prog A) : calls_only (λ _, True) p.
Proof. induction p as [a|c k IH]; [done|]. simpl. by split. Qed.

Lemma calls_only_bind {A B} P (p : prog A) (f : A → prog B) Q :
  calls_only P p → (∀ a, safe P Q (f a)) → safe P Q (p ≫= f).
Proof. intros Hp Hf. apply (safe_bind _ _ _ _ _ Hp). auto. Qed.

Lemma safe_for_each {A B} P (I : B → Prop) (body : B → A → prog B) (l : list A) acc :
  I acc → (∀ b x, x ∈ l → I b → safe P I (body b x)) → safe P I (for_each body acc l).
Proof.
  revert acc. induction l as [|x l IH]; intros acc Hacc Hbody; [done|]. simpl.
  apply (safe_bind _ I); [apply Hbody; [left|done]|]. intros b Hb.
  apply IH; [done|]. intros b' y Hy. apply Hbody. by right.
Qed.

Lemma safe_RetryOnConflict {S} P (I : S → Prop) (Q : S * option error → Prop) n fn s :
  I s → (∀ s, I s → safe P (λ r, Q r ∧ I r.1) (fn s)) → safe P Q (RetryOnConflict n fn s).
Proof.
  intros Hs Hfn. revert s Hs. induction n as [|n IH]; intros s Hs; cbn [RetryOnConflict];
    apply (safe_bind _ _ _ _ _ (Hfn s Hs)); intros [s' e] [HQ HI]; simpl; [done|].
  destruct e as [e|]; [|done]. destruct (error_conflict e); [by apply IH|done].
Qed.

Lemma safe_run {A} P (Q : A → Prop) p tr a :
  safe P Q p → run p tr a → Forall P (calls tr) ∧ Q a.
Proof.
  revert tr. induction p as [b|c k IH]; simpl; intros tr Hp Hr.
  - destruct Hr as [-> ->]. by split; [constructor|].
  - destruct Hp as [Hc Hk], Hr as (x & tr' & -> & Hr). destruct (IH x tr' (Hk x) Hr).
    split; [by constructor|done].
Qed.

(** *** Histories

    What a call depends on: whatever is answered, every call [c] made after the history [tr]
    satisfies [P tr c], and every result [a] after the history [tr] satisfies [Q tr a]. *)

(** The history contains this answer. *)
Definition answered (tr : trace) (c : call) (x : answer c) : Prop := existT c x ∈ tr.

Fixpoint traced {A} (P : trace → call → Prop) (Q : trace → A → Prop) (tr : trace) (p : prog A) : Prop :=
  match p with
  | Ret a => Q tr a
  | Call c k => P tr c ∧ ∀ x, traced P Q (tr ++ [existT c x]) (k x)
  end.

Lemma traced_ret {A} P (Q : trace → A → Prop) tr a : Q tr a → traced P Q tr (mret a).
Proof. done. Qed.

Lemma traced_call {A} P (Q : trace → A → Prop) tr c (f : answer c → prog A) :
  P tr c → (∀ x, traced P Q (tr ++ [existT c x]) (f x)) → traced P Q tr (perform c ≫= f).
Proof. done. Qed.

Lemma traced_mono {A} (P P' : trace → call → Prop) (Q Q' : trace → A → Prop) tr p :
  (∀ tr c, P tr c → P' tr c) → (∀ tr a, Q tr a → Q' tr a) → traced P Q tr p → traced P' Q' tr p.
Proof.
  intros HP HQ. revert tr. induction p as [a|c k IH]; intros tr; [apply HQ|].
  intros [Hc Hk]. split; [by apply HP|]. intros x. by apply IH, Hk.
Qed.

(** The history of the continuation extends that of the first part. *)
Lemma traced_bind {A B} P (R : trace → A → Prop) (Q : trace → B → Prop) tr p (f : A → prog B) :
  traced P R tr p → (∀ tr' a, tr ⊆ tr' → R tr' a → traced P Q tr' (f a)) → traced P Q tr (p ≫= f).
Proof.
  revert tr. induction p as [a|c k IH]; intros tr Hp Hf; [by apply Hf|].
  destruct Hp as [Hc Hk]. split; [done|]. intros x. apply IH; [apply Hk|].
  intros tr' a Hsub. apply Hf. intros y Hy. apply Hsub, elem_of_app. by left.
Qed.

Lemma grown (tr : trace) (c : call) (x : answer c) : tr ⊆ tr ++ [existT c x].
Proof. intros y Hy. apply elem_of_app. by left. Qed.

Lemma just_answered (tr : trace) (c : call) (x : answer c) : answered (tr ++ [existT c x]) c x.
Proof. apply elem_of_app. right. by apply list_elem_of_singleton. Qed.

Lemma calls_mono (tr tr' : trace) : tr ⊆ tr' → calls tr ⊆ calls tr'.
Proof.
  intros Hs c (x & -> & Hx)%list_elem_of_fmap. by apply list_elem_of_fmap_2, Hs.
Qed.

(** Histories only grow. *)
Lemma traced_grows {A} P (Q : trace → A → Prop) tr p :
  traced P Q tr p → traced P (λ tr' a, tr ⊆ tr' ∧ Q tr' a) tr p.
Proof.
  revert tr. induction p as [a|c k IH]; intros tr; [done|]. intros [Hc Hk]. split; [done|]. intros x.
  eapply traced_mono; [done| |apply IH, Hk]. intros tr' a [Hs HQ]. split; [|done].
  intros y Hy. apply Hs, elem_of_app. by left.
Qed.

(** A loop with an invariant of the history and the accumulator. *)
Lemma traced_for_each {A B} P (I : trace → B → Prop) (body : B → A → prog B) (l : list A) : ∀ tr acc,
  I tr acc → (∀ tr b x, x ∈ l → I tr b → traced P I tr (body b x)) → traced P I tr (for_each body acc l).
Proof.
  induction l as [|x l IH]; intros tr acc Hacc Hbody; [done|]. cbn [for_each].
  eapply traced_bind; [apply Hbody; [left|done]|]. intros tr' b _ Hb.
  apply IH; [done|]. intros tr'' b' y Hy. apply Hbody. by right.
Qed.

(** Handlers whose calls are all allowed, whatever the history. *)
Lemma traced_safe {A} P (Q : A → Prop) tr p :
  safe (λ c, ∀ tr, P tr c) Q p → traced P (λ _ a, Q a) tr p.
Proof.
  revert tr. induction p as [a|c k IH]; intros tr; [done|].
  intros [Hc Hk]. split; [done|]. intros x. apply IH, Hk.
Qed.

(** What holds of the history and is never lost holds at every call. *)
Lemma traced_keep {A} (S : trace → Prop) P (Q : trace → A → Prop) p : ∀ tr,
  (∀ tr tr', tr ⊆ tr' → S tr → S tr') → S tr → traced P Q tr p →
  traced (λ tr c, S tr ∧ P tr c) (λ tr a, S tr ∧ Q tr a) tr p.
Proof.
  induction p as [a|c k IH]; intros tr Hm Hs; [done|]. intros [Hc Hk]. split; [done|]. intros x.
  apply IH; [done| |apply Hk]. eapply Hm; [apply grown|done].
Qed.

Lemma traced_safe_and {A} P (Q : trace → A → Prop) P' (R : A → Prop) p : ∀ tr,
  traced P Q tr p → safe P' R p → traced P (λ tr a, Q tr a ∧ R a) tr p.
Proof.
  induction p as [a|c k IH]; intros tr; [done|]. intros [Hc Hk] [_ Hk']. split; [done|]. intros x. by apply IH.
Qed.

Lemma traced_RetryOnConflict {S} P (I : trace → S → Prop) n fn : ∀ tr s,
  I tr s → (∀ tr s, I tr s → traced P (λ tr' r, I tr' r.1) tr (fn s)) →
  traced P (λ tr' r, I tr' r.1) tr (RetryOnConflict n fn s).
Proof.
  induction n as [|n IH]; intros tr s Hs Hfn; cbn [RetryOnConflict]; (eapply traced_bind; [by apply Hfn|]).
  - intros tr1 r _ Hr. destruct r.2; by apply traced_ret.
  - intros tr1 r _ Hr. destruct r.2 as [e|]; [|done]. destruct (error_conflict e); [by apply IH|done].
Qed.

Lemma traced_forall {A X} (P : X → trace → call → Prop) (p : prog A) : ∀ tr,
  (∀ x, traced (P x) (λ _ _, True) tr p) → traced (λ tr c, ∀ x, P x tr c) (λ _ _, True) tr p.
Proof.
  induction p as [a|c k IH]; intros tr Hp; [done|]. split; [intros x; apply (Hp x)|].
  intros y. apply IH. intros x. apply (Hp x).
Qed.

(** The call at a position of a history. *)
Lemma call_at (tr : trace) (n : nat) c :
  projT1 <$> tr !! n = Some c → ∃ tr1 x tr2, tr = tr1 ++ existT c x :: tr2.
Proof.
  destruct (tr !! n) as [[c' x]|] eqn:He; [|done]. cbn. intros [= ->]. apply take_drop_middle, eq_sym in He.
  by exists (take n tr), x, (drop (S n) tr).
Qed.

Lemma traced_run {A} P (Q : trace → A → Prop) p : ∀ pre tr a,
  traced P Q pre p → run p tr a →
  Q (pre ++ tr) a ∧ ∀ tr1 c x tr2, tr = tr1 ++ existT c x :: tr2 → P (pre ++ tr1) c.
Proof.
  induction p as [b|c k IH]; intros pre tr a.
  - intros HQ [-> ->]. rewrite app_nil_r. split; [done|]. intros tr1 c x tr2 E. by destruct tr1.
  - intros [Hc Hk] (x & tr' & -> & Hr). destruct (IH x _ _ _ (Hk x) Hr) as [HQ HP].
    rewrite <-app_assoc in HQ. split; [done|]. intros tr1 c' x' tr2 E.
    destruct tr1 as [|y tr1]; cbn in E.
    + apply (f_equal (λ l, projT1 <$> head l)) in E. injection E as <-. by rewrite app_nil_r.
    + assert (tr' = tr1 ++ existT c' x' :: tr2) as Htr by (by apply (f_equal tail) in E).
      assert (y = existT c x) as -> by (apply (f_equal head) in E; by apply (inj Some) in E).
      specialize (HP _ _ _ _ Htr). by rewrite <-app_assoc in HP.
Qed.

(** Every call of a run was allowed by a part of its history. *)
Lemma traced_run_calls {A} P (Q : trace → A → Prop) p tr a c :
  traced P Q [] p → run p tr a → c ∈ calls tr → ∃ tr1, tr1 ⊆ tr ∧ P tr1 c.
Proof.
  intros Hp Hr Hc. destruct (traced_run _ _ _ _ _ _ Hp Hr) as [_ HP].
  apply list_elem_of_fmap in Hc as ([c' x] & -> & Hin).
  apply list_elem_of_split in Hin as (tr1 & tr2 & Htr).
  exists tr1. split; [|by apply (HP _ _ _ _ Htr)]. intros y Hy. rewrite Htr. apply elem_of_app. by left.
Qed.

(** ** The API server

    The documented behaviour the handlers rely on, for the pods of one instance: a successful
    merge patch replaces exactly the entries it carries, a failed one has either been applied
    or not, and a successful update replaces the object.  A read goes through a cache and may
    return any state of the pods, however old.  Meanwhile pods come and go and change
    ([churned]), but nobody except the operator writes the assignment annotations, and a new
    pod has none.

    The custom resource is read through a cache and may be old, but a resource version
    identifies the status it carries ([history]).  A status update succeeds only for the
    current version and then stores what it is given; one refused with a conflict stores
    nothing, and one that failed otherwise may have been carried out.  Nobody but the
    operator writes the status. *)

(** The annotations that record an assignment. *)
Definition assignment_keys : list string :=
  [AnnotationAssignedRole; AnnotationAssignedMasterIP; AnnotationAssignmentEpoch;
   AnnotationMasterStartAuthorizedEpoch].

(** What others do to the pods: they leave the assignments of the pods that stay alone. *)
Definition churned (m m' : gmap string Pod) : Prop :=
  ∀ name p', m' !! name = Some p' →
    (∀ k, k ∈ assignment_keys → pod_Annotations p' !! k = None) ∨
    ∃ p, m !! name = Some p ∧ ∀ k, k ∈ assignment_keys → pod_Annotations p' !! k = pod_Annotations p !! k.

Lemma churned_refl m : churned m m.
Proof. intros name p Hp. right. by exists p. Qed.

Class ApiServer (Srv : Type) := {
  stored : Srv → gmap string Pod;
  served : Srv → ∀ c : call, answer c → Srv → Prop;
  stored_status : Srv → LittleRedStatus;
  version : Srv → string;
  history : Srv → gmap string LittleRedStatus;
  stored_named s name p : stored s !! name = Some p → pod_Name p = name;
  served_patch s name changes s' :
    served s (PatchPod name changes) None s' →
    ∃ p, stored s !! name = Some p ∧
         stored s' = <[name := set_Annotations p (changes ∪ pod_Annotations p)]> (stored s);
  served_patch_failed s name changes e s' :
    served s (PatchPod name changes) (Some e) s' →
    stored s' = stored s ∨
    ∃ p, stored s !! name = Some p ∧
         stored s' = <[name := set_Annotations p (changes ∪ pod_Annotations p)]> (stored s);
  served_update s p s' :
    served s (UpdatePod p) None s' → stored s' = <[pod_Name p := p]> (stored s);
  stored_version s : history s !! version s = Some (stored_status s);
  served_history s c x s' : served s c x s' → history s ⊆ history s';
  served_object s lr s' :
    served s GetLittleRed (inl lr) s' → history s !! lr_ResourceVersion lr = Some (lr_Status lr);
  served_status s lr lr' s' :
    served s (UpdateStatus lr) (inl lr') s' →
    lr_ResourceVersion lr = version s ∧ lr_Status lr' = as_stored (lr_Status lr) ∧
    stored_status s' = as_stored (lr_Status lr);
  served_status_failed s lr e s' :
    served s (UpdateStatus lr) (inr e) s' →
    stored_status s' = stored_status s ∨
    (error_conflict e = false ∧ lr_ResourceVersion lr = version s ∧
     stored_status s' = as_stored (lr_Status lr));
  served_other s c x s' :
    served s c x s' →
    match c with UpdateStatus _ => True | _ => stored_status s' = stored_status s end;
  served_read s c x s' :
    served s c x s' →
    match c with
    | PatchPod _ _ | UpdatePod _ | Delete KindPod _ => True
    | _ => churned (stored s) (stored s')
    end;
}.

(** The handler runs against the server until it returns ([Some]) or the operator dies at
    an arbitrary point ([None]). *)
Fixpoint exec {Srv} `{ApiServer Srv} {A} (s : Srv) (p : prog A) (s' : Srv) (r : option A) : Prop :=
  (s' = s ∧ r = None) ∨
  match p with
  | Ret a => s' = s ∧ r = Some a
  | Call c k => ∃ x s1, served s c x s1 ∧ exec s1 (k x) s' r
  end.

Section Exec.
Context {Srv} `{ApiServer Srv}.

Lemma exec_bind {A B} (p : prog A) (f : A → prog B) s s' r :
  exec s (p ≫= f) s' r →
  (r = None ∧ exec s p s' None) ∨ ∃ a s1, exec s p s1 (Some a) ∧ exec s1 (f a) s' r.
Proof.
  revert s. induction p as [a|c k IH]; intros s Hp.
  { right. exists a, s. split; [|done]. simpl. by right. }
  simpl in Hp. destruct Hp as [[-> ->]|(x & s1 & Hx & Hp)]; [left; split; [done|by left]|].
  destruct (IH x s1 Hp) as [[-> Hn]|(a & s2 & Ha & Hf)].
  - left. split; [done|]. simpl. right. by exists x, s1.
  - right. exists a, s2. split; [|done]. simpl. right. by exists x, s1.
Qed.

(** An invariant of the stored pods that every served call of the handler keeps. *)
Lemma exec_invariant {A} (I : gmap string Pod → Prop) (p : prog A) s s' r :
  safe (λ c, ∀ s x s', served s c x s' → I (stored s) → I (stored s')) (λ _, True) p →
  exec s p s' r → I (stored s) → I (stored s').
Proof.
  revert s. induction p as [a|c k IH]; intros s Hsafe Hx Hs.
  { simpl in Hx. by destruct Hx as [[-> _]|[-> _]]. }
  simpl in Hx, Hsafe. destruct Hx as [[-> _]|(x & s1 & Hx & Hp)]; [done|].
  destruct Hsafe as [Hc Hk]. by apply (IH x s1 (Hk x) Hp), (Hc _ _ _ Hx).
Qed.

(** A retried closure that ends without an error ended so in its last attempt. *)
Lemma exec_RetryOnConflict {A} n (fn : A → prog (A * option error)) a s s' b :
  exec s (RetryOnConflict n fn a) s' (Some (b, None)) →
  ∃ a1 s1 s2, exec s1 (fn a1) s2 (Some (b, None)).
Proof.
  revert a s. induction n as [|n IH]; intros a s Hx; cbn [RetryOnConflict] in Hx;
    destruct (exec_bind _ _ _ _ _ Hx) as [[? _]|([a' [e|]] & s1 & H1 & H2)]; try done; simpl in H2.
  - by destruct H2 as [[_ ?]|[_ ?]].
  - exists a, s, s1. destruct H2 as [[_ ?]|[_ ?]]; simplify_eq. done.
  - destruct (error_conflict e); [by apply IH in H2|]. by destruct H2 as [[_ ?]|[_ ?]].
  - exists a, s, s1. destruct H2 as [[_ ?]|[_ ?]]; simplify_eq. done.
Qed.

(** An object that was just read, and whose version is the current one, is current. *)
Lemma read_current s latest s1 :
  served s GetLittleRed (inl latest) s1 → lr_ResourceVersion latest = version s1 →
  lr_Status latest = stored_status s.
Proof.
  intros Hg Hv.
  pose proof (lookup_weaken _ _ _ _ (served_object _ _ _ Hg) (served_history _ _ _ _ Hg)) as Hh.
  rewrite Hv, stored_version in Hh. injection Hh as <-. apply (served_other _ _ _ _ Hg).
Qed.

(** A status written for an object that was just read: the object was current. *)
Lemma status_write s latest s1 st stored s2 :
  served s GetLittleRed (inl latest) s1 →
  served s1 (UpdateStatus (set_lr_Status latest st)) (inl stored) s2 →
  lr_Status latest = stored_status s ∧ lr_Status stored = as_stored st ∧
  stored_status s2 = as_stored st.
Proof.
  intros Hg Hu. destruct (served_status _ _ _ _ Hu) as (Hv & Hst & Hnew).
  split; [by eapply read_current|done].
Qed.

Lemma exec_ret {A} (a : A) s s' r : exec s (mret a) s' r → s' = s ∧ (r = None ∨ r = Some a).
Proof. intros [[-> ->]|[-> ->]]; auto. Qed.

Lemma exec_call {A} c (f : answer c → prog A) s s' r :
  exec s (perform c ≫= f) s' r →
  (s' = s ∧ r = None) ∨ ∃ x s1, served s c x s1 ∧ exec s1 (f x) s' r.
Proof. done. Qed.

(** A handler that writes no status leaves the stored one alone. *)
Lemma exec_keeps_status {A} (p : prog A) s s' r :
  calls_only (λ c, match c with UpdateStatus _ => False | _ => True end) p →
  exec s p s' r → stored_status s' = stored_status s.
Proof.
  revert s. induction p as [a|c k IH]; intros s Hp Hx.
  { simpl in Hx. by destruct Hx as [[-> _]|[-> _]]. }
  simpl in Hp, Hx. destruct Hp as [Hc Hk], Hx as [[-> _]|(x & s1 & Hs & Hx)]; [done|].
  rewrite (IH x s1 (Hk x) Hx). pose proof (served_other _ _ _ _ Hs). by destruct c.
Qed.

(** However an attempt ends, the stored status is as before or modified once; after a
    conflict it is as before. *)
Lemma exec_modify_status {A} f local mirror (a : A) s s' r :
  exec s (modify_status f local mirror a) s' r →
  (stored_status s' = stored_status s ∨ stored_status s' = as_stored (f (stored_status s))) ∧
  (∀ b e, r = Some (b, Some e) → error_conflict e = true → stored_status s' = stored_status s) ∧
  (∀ b, r = Some (b, None) → stored_status s' = as_stored (f (stored_status s))).
Proof.
  intros [[-> ->]|([latest|err] & s1 & Hg & Hx)]%exec_call; [split; [by left|done]| |].
  - pose proof (served_other _ _ _ _ Hg) as Hs1. simpl in Hs1.
    apply exec_call in Hx as [[-> ->]|([written|err] & s2 & Hu & Hx)]; [split; [by left|done]| |];
      apply exec_ret in Hx as [-> Hr].
    + destruct (status_write _ _ _ _ _ _ Hg Hu) as (Hl & _ & Hn). rewrite Hl in Hn.
      split; [by right|]. split; [|done]. intros b e ->. by destruct Hr.
    + destruct (served_status_failed _ _ _ _ Hu) as [Hn|(Hc & Hv & Hn)].
      * rewrite Hn, Hs1. split; [by left|]. split; [done|]. intros b ->. by destruct Hr.
      * simpl in Hv. rewrite (read_current _ _ _ Hg Hv) in Hn. split; [by right|].
        split; [|intros b ->; by destruct Hr]. intros b e -> He. destruct Hr as [|Hr]; simplify_eq. congruence.
  - apply exec_ret in Hx as [-> Hr]. pose proof (served_other _ _ _ _ Hg) as Hs1. simpl in Hs1.
    split; [by left|]. split; [done|]. intros b ->. by destruct Hr.
Qed.

Lemma exec_retry_modify {A} n f local mirror (a : A) s s' r :
  exec s (RetryOnConflict n (modify_status f local mirror) a) s' r →
  (stored_status s' = stored_status s ∨ stored_status s' = as_stored (f (stored_status s))) ∧
  (∀ b, r = Some (b, None) → stored_status s' = as_stored (f (stored_status s))).
Proof.
  revert a s. induction n as [|n IH]; intros a s Hx; cbn [RetryOnConflict] in Hx;
    apply exec_bind in Hx as [[-> Hx]|([b [e|]] & s1 & Hx & Hr)];
    apply exec_modify_status in Hx as (Hor & Hconf & Hok); simpl in *; try by split.
  - apply exec_ret in Hr as [-> Hr]. split; [done|]. intros b' ->. by destruct Hr.
  - apply exec_ret in Hr as [-> Hr]. split; [done|]. intros b' ->. destruct Hr; simplify_eq. by eapply Hok.
  - destruct (error_conflict e) eqn:He.
    + apply IH in Hr. by rewrite (Hconf _ _ eq_refl He) in Hr.
    + apply exec_ret in Hr as [-> Hr]. split; [done|]. intros b' ->. by destruct Hr.
  - apply exec_ret in Hr as [-> Hr]. split; [done|]. intros b' ->. destruct Hr; simplify_eq. by eapply Hok.
Qed.

(** Against any answer the server may give, every call [c] made in a state [s] satisfies
    [P s c] and every result satisfies [Q].  A crash happens at a call or at the end, so what
    [P] and [Q] say of the state also holds when the operator dies. *)
Fixpoint guarded {A} (P : Srv → call → Prop) (Q : Srv → A → Prop) (s : Srv) (p : prog A) : Prop :=
  match p with
  | Ret a => Q s a
  | Call c k => P s c ∧ ∀ x s1, served s c x s1 → guarded P Q s1 (k x)
  end.

Lemma guarded_ret {A} P (Q : Srv → A → Prop) s a : Q s a → guarded P Q s (mret a).
Proof. done. Qed.

Lemma guarded_call {A} P (Q : Srv → A → Prop) s c (f : answer c → prog A) :
  P s c → (∀ x s1, served s c x s1 → guarded P Q s1 (f x)) → guarded P Q s (perform c ≫= f).
Proof. done. Qed.

Lemma guarded_bind {A B} P (R : Srv → A → Prop) (Q : Srv → B → Prop) s p (f : A → prog B) :
  guarded P R s p → (∀ s1 a, R s1 a → guarded P Q s1 (f a)) → guarded P Q s (p ≫= f).
Proof.
  revert s. induction p as [a|c k IH]; intros s Hp Hf; [by apply Hf|].
  destruct Hp as [Hc Hk]. split; [done|]. intros x s1 Hs. by apply IH; [apply Hk|].
Qed.

Lemma guarded_mono {A} (P P' : Srv → call → Prop) (Q Q' : Srv → A → Prop) s p :
  (∀ s c, P s c → P' s c) → (∀ s a, Q s a → Q' s a) → guarded P Q s p → guarded P' Q' s p.
Proof.
  intros HP HQ. revert s. induction p as [a|c k IH]; intros s; [apply HQ|].
  intros [Hc Hk]. split; [by apply HP|]. intros x s1 Hs. by apply IH, Hk.
Qed.

(** What a guarded handler guarantees of a run. *)
Lemma guarded_exec {A} P (Q : Srv → A → Prop) s p s' a :
  guarded P Q s p → exec s p s' (Some a) → Q s' a.
Proof.
  revert s. induction p as [b|c k IH]; intros s Hg Hx.
  { simpl in Hx. destruct Hx as [[_ ?]|[-> ?]]; [done|by simplify_eq]. }
  destruct Hg as [_ Hk]. destruct Hx as [[_ ?]|(x & s1 & Hs & Hx)]; [done|]. by eapply IH; [apply Hk|].
Qed.

End Exec.

(** *** A server in memory

    An executable instance of [ApiServer], for concrete runs: nothing fails, the probes
    are answered from a fixed wire and the clock stands still. *)

Record Memory := mkMemory {
  mem_pods : gmap string Pod;
  mem_lr : LittleRed;
  mem_sts : StatefulSet;
  mem_wire : Wire;
  mem_now : time;
  mem_past : gmap string LittleRedStatus;
  mem_sentinels : list Pod;
}.

Definition set_mem_pods (s : Memory) (pods : gmap string Pod) : Memory :=
  mkMemory pods (mem_lr s) (mem_sts s) (mem_wire s) (mem_now s) (mem_past s)
    (mem_sentinels s).

Definition not_found : error := mkError "not found" false true.

(** Pods are stored under their own name. *)
Definition mem_stored (s : Memory) : gmap string Pod :=
  filter (λ '(name, p), pod_Name p = name) (mem_pods s).

(** The statuses by version, the current one included. *)
Definition mem_history (s : Memory) : gmap string LittleRedStatus :=
  <[lr_ResourceVersion (mem_lr s) := lr_Status (mem_lr s)]> (mem_past s).

(** The nodes in memory hold no keys and accept everything. *)
Definition mem_cluster_answer (c : cluster_command) : cluster_answer c :=
  match c with
  | CountKeysInSlots _ => inl ∅
  | GetKeysInSlot _ _ => inl []
  | MigrationStatusAll => inl (RArray [])
  | MigrationImport _ => inl "task"
  | SetSlots _ _ | Migrate _ _ _ _ _ | Meet _ _ | Forget _ | Replicate _ | Failover
  | FailoverTakeover | AddSlots _ => None
  end.

(** The Sentinels in memory monitor nothing and accept everything. *)
Definition mem_sentinel_answer (w : Wire) (addr : string) (c : sentinel_command) : sentinel_answer c :=
  match c with
  | GetMasterAddrByName name =>
      match wire_master w addr name with
      | inl m => inl [at_key m "ip"; at_key m "port"]
      | inr _ => inr (mkError "redis: nil" false false)
      end
  | SentinelReplicas name =>
      match wire_replicas w addr name with inl l => inl l | inr _ => inr (mkError "redis: nil" false false) end
  | SentinelMonitor _ _ _ _ | SentinelSet _ _ _ | SentinelRemove _ | SentinelReset _ => None
  end.

Definition mem_step (s : Memory) (c : call) : answer c * Memory :=
  match c return answer c * Memory with
  | GetPod name => (from_option inl (inr not_found) (mem_stored s !! name), s)
  | ListDataPods => (inl (map_to_list (mem_stored s)).*2, s)
  | PatchPod name changes =>
      match mem_stored s !! name with
      | None => (Some not_found, s)
      | Some p => (None, set_mem_pods s
                    (<[name := set_Annotations p (changes ∪ pod_Annotations p)]> (mem_pods s)))
      end
  | UpdatePod p => (None, set_mem_pods s (<[pod_Name p := p]> (mem_pods s)))
  | GetLittleRed => (inl (mem_lr s), s)
  | UpdateStatus lr =>
      if lr_ResourceVersion lr =? lr_ResourceVersion (mem_lr s)
      then let lr' := set_ResourceVersion (set_lr_Status lr (as_stored (lr_Status lr)))
                        (fresh (dom (mem_history s) : gset string)) in
           (inl lr', mkMemory (mem_pods s) lr' (mem_sts s) (mem_wire s) (mem_now s) (mem_history s)
                      (mem_sentinels s))
      else (inr (mkError "the object has been modified" true false), s)
  | GetStatefulSet _ => (inl (mem_sts s), s)
  | GetSecret _ => (inl ∅, s)
  | ProbeServers _ => (mem_wire s, s)
  | ReplicaOf _ _ _ => (None, s)
  | GetPodUncached name => (from_option inl (inr not_found) (mem_stored s !! name), s)
  | ListClusterPods => (inl (map_to_list (mem_stored s)).*2, s)
  | ListSentinelPods => (inl (mem_sentinels s), s)
  | GetStatefulSetUncached _ => (inl (mem_sts s), s)
  | ListClusterStatefulSets => (inl [], s)
  | Apply _ => (None, s)
  | Delete KindPod name => (None, set_mem_pods s (delete name (mem_pods s)))
  | Delete _ _ => (None, s)
  | ClusterDo _ cmd => (mem_cluster_answer cmd, s)
  | SentinelDo addr _ cmd => (mem_sentinel_answer (mem_wire s) addr cmd, s)
  | UpdateLittleRed lr => (inl lr, s)
  | Now => (mem_now s, s)
  | Event _ _ _ => (tt, s)
  end.

Definition mem_served (s : Memory) (c : call) (x : answer c) (s' : Memory) : Prop :=
  mem_step s c = (x, s').

Definition mem_server : ApiServer Memory.
Proof.
  refine {| stored := mem_stored; served := mem_served; history := mem_history;
            version := λ s, lr_ResourceVersion (mem_lr s);
            stored_status := λ s, lr_Status (mem_lr s) |}; unfold mem_served, mem_stored.
  - intros s name p. by rewrite map_lookup_filter_Some; intros [_ ?].
  - intros s name changes s' Hs. simpl in Hs. unfold mem_stored in Hs.
    destruct (filter _ _ !! name) as [p|] eqn:Hp; simplify_eq/=. exists p. split; [done|].
    apply map_lookup_filter_Some in Hp as [_ Hn]. by rewrite map_filter_insert_True.
  - intros s name changes e s' Hs. simpl in Hs. unfold mem_stored in Hs.
    destruct (filter _ _ !! name) eqn:Hp; simplify_eq/=. by left.
  - intros s p s' Hs. simpl in Hs. simplify_eq. simpl. by rewrite map_filter_insert_True.
  - intros s. apply lookup_insert_eq.
  - intros s c x s' Hs. destruct c; simplify_eq/=; try done; repeat case_match; simplify_eq/=; try done.
    unfold mem_history at 2. simpl. apply insert_subseteq, not_elem_of_dom, is_fresh.
  - intros s lr s' Hs. simpl in Hs. simplify_eq. apply lookup_insert_eq.
  - intros s lr lr' s' Hs. simpl in Hs. destruct (String.eqb_spec (lr_ResourceVersion lr)
      (lr_ResourceVersion (mem_lr s))); by simplify_eq/=.
  - intros s lr e s' Hs. simpl in Hs. left. destruct (_ =? _); by simplify_eq/=.
  - intros s c x s' Hs. destruct c; simplify_eq/=; try done; repeat case_match; by simplify_eq/=.
  - intros s c x s' Hs. pose proof (churned_refl (mem_stored s)).
    destruct c; simplify_eq/=; try done; repeat case_match; by simplify_eq/=.
Defined.

#[local] Existing Instance mem_server.

(** The result of a handler on the server in memory, and the state it leaves. *)
Fixpoint mem_run {A} (s : Memory) (p : prog A) : A * Memory :=
  match p with
  | Ret a => (a, s)
  | Call c k => let '(x, s') := mem_step s c in mem_run s' (k x)
  end.

(** The trace of that run. *)
Fixpoint mem_trace {A} (s : Memory) (p : prog A) : trace :=
  match p with
  | Ret a => []
  | Call c k => let '(x, s') := mem_step s c in existT c x :: mem_trace s' (k x)
  end.

Lemma mem_run_trace {A} (s : Memory) (p : prog A) : run p (mem_trace s p) (mem_run s p).1.
Proof.
  revert s. induction p as [a|c k IH]; intros s; [done|].
  simpl. destruct (mem_step s c) as [x s']. exists x, (mem_trace s' (k x)). split; [done|]. apply IH.
Qed.

Lemma mem_run_exec {A} (s : Memory) (p : prog A) :
  exec s p (mem_run s p).2 (Some (mem_run s p).1).
Proof.
  revert s. induction p as [a|c k IH]; intros s; [by right|].
  simpl. right. destruct (mem_step s c) as [x s'] eqn:E. exists x, s'. split; [done|]. apply IH.
Qed.
