(* ===== verification/OperationWiring.v ===== *)
(** * Heavy operations: registry and persistence
    (src/internal/controller/operation_registry.go, operation_wiring.go,
    src/api/v1alpha1/operation_fingerprint.go, sentinel_master_name.go)

    The registered operation (renaming the Sentinel master), the fingerprint that names a
    value without revealing it, and the handlers that build the planner's input and persist
    its plan. *)

From Stdlib Require Import Ascii.
From S2P Require Import Prelude GoStrings Recovery Gather Operations Kube.

Open Scope Z_scope.
Open Scope go_scope.

(** ** Definitions *)

Definition ModeSentinel : string := "sentinel".
Definition ConditionOperationInProgress : string := "OperationInProgress".
Definition LegacySentinelMasterName : string := "mymaster".
Definition fieldPathSentinelMasterName : string := "spec.sentinel.masterName".
Definition OperationFingerprintLen : nat := 16.

Definition SentinelMasterName (lr : LittleRed) : string :=
  match lr_Sentinel lr with
  | Some s => if negb (ssp_MasterName s =? "") then ssp_MasterName s else LegacySentinelMasterName
  | None => LegacySentinelMasterName
  end.

Definition SentinelMasterNameUnscoped (lr : LittleRed) : bool :=
  match lr_Sentinel lr with
  | Some s => ssp_MasterName s =? ""
  | None => true
  end.

Definition sentinelStatefulSetName (lr : LittleRed) : string := lr_Name lr +:+ "-sentinel".

(** [hex.EncodeToString] *)
Fixpoint hex_encode (s : string) : string :=
  match s with
  | EmptyString => EmptyString
  | String c s' => String (hex_digit (nat_of_ascii c / 16))
                     (String (hex_digit (nat_of_ascii c mod 16)) (hex_encode s'))
  end.

(** What is authenticated: both parts preceded by their length. *)
Definition framed (name value : string) : string :=
  itoa (Z.of_nat (String.length name)) +:+ ":" +:+ name +:+
  itoa (Z.of_nat (String.length value)) +:+ ":" +:+ value.

Section Wiring.
Context `{GoRuntime}.
(** HMAC-SHA256 of Go's [crypto/hmac]: key and message to the digest. *)
Context (hmac_sha256 : string → string → string).

Definition OperationFingerprint (uid name value : string) : string :=
  String.substring 0 OperationFingerprintLen (hex_encode (hmac_sha256 uid (framed name value))).

Definition SentinelMasterNameRename : heavyOperation LittleRed :=
  mkHeavyOperation "SentinelMasterNameRename" fieldPathSentinelMasterName [ModeSentinel]
    ("LR-050: measured 42.5s in which planForsaken read our own rename churn " +:+ "as a capture")
    [] (15 * 60 * second)
    (λ lr, OperationFingerprint (lr_UID lr) "SentinelMasterNameRename" (SentinelMasterName lr))
    (Some (λ lr, lr_Mode lr =? ModeSentinel)).

Definition heavyOperations : list (heavyOperation LittleRed) := [SentinelMasterNameRename].

(** The driver's two flags are set by the caller. *)
Definition buildOperationInput (lr : LittleRed) (settled : bool) (now : time) : operationInput :=
  let st := lr_Status lr in
  mkOperationInput (operationCandidates lr heavyOperations) (acks_of (ls_AcknowledgedOperations st))
    (bool_decide (is_Some (ls_QuarantinedSince st)))
    (bool_decide (ls_Phase st = PhaseUnset) || ls_BootstrapRequired st)
    settled false false (ls_Operation st) now.

Fixpoint statefulsets_settled (names : list string) : prog bool :=
  match names with
  | [] => mret true
  | name :: rest =>
      r ← perform (GetStatefulSetUncached name);
      match r with
      | inl sts => if negb (statefulSetRolloutSettled sts) then mret false
                   else statefulsets_settled rest
      | inr err => if error_not_found err then statefulsets_settled rest else mret false
      end
  end.

Definition instanceStatefulSetsSettled (lr : LittleRed) : prog bool :=
  statefulsets_settled [statefulSetName lr; sentinelStatefulSetName lr].

Definition operationConditionFor (plan : operationPlan) : Condition :=
  mkCondition (if negb (op_Report plan =? "") then ConditionTrue else ConditionFalse)
    (op_Reason plan)
    (if op_Detail plan =? "" then "No declared heavy operation is in progress." else op_Detail plan).

(** What a plan makes of the latest status: [st] before, the result after. *)
Definition operation_written (plan : operationPlan) (at_ : time) (st : LittleRedStatus)
  : LittleRedStatus :=
  let cond := operationConditionFor plan in
  let acks := if (0 <? len (op_Ack plan))%Z
              then upsertOperationAcks (ls_AcknowledgedOperations st) (op_Ack plan) at_
              else ls_AcknowledgedOperations st in
  set_Conditions
    (set_Operation (set_AcknowledgedOperations st acks) (operationStatusFor plan (ls_Operation st) at_))
    (SetStatusCondition (ls_Conditions st) ConditionOperationInProgress
       (cond_Status cond) (cond_Reason cond) (cond_Message cond)).

(** [lr.Status.X = latest.Status.X] for the three fields that are mirrored. *)
Definition mirror_operation (lr : LittleRed) (st : LittleRedStatus) : LittleRed :=
  set_lr_Status lr
    (set_Conditions
       (set_AcknowledgedOperations (set_Operation (lr_Status lr) (ls_Operation st))
          (ls_AcknowledgedOperations st)) (ls_Conditions st)).

(** The closure given to [retry.RetryOnConflict]. *)
Definition persist_operation (plan : operationPlan) (at_ : time) (lr : LittleRed)
  : prog (LittleRed * option error) :=
  modify_status (operation_written plan at_) (λ _ lr, lr)
    (λ written lr, mirror_operation lr (lr_Status written)) lr.

Definition operation_unchanged (plan : operationPlan) (at_ : time) (st : LittleRedStatus) : bool :=
  let cond := operationConditionFor plan in
  bool_decide (FindStatusCondition (ls_Conditions st) ConditionOperationInProgress = Some cond)
  && (len (op_Ack plan) =? 0)%Z
  && operationStatusEqual (ls_Operation st) (operationStatusFor plan (ls_Operation st) at_).

(** A transition is a change of the operation or of its reason. *)
Definition operation_changed (plan : operationPlan) (at_ : time) (st : LittleRedStatus) : bool :=
  match FindStatusCondition (ls_Conditions st) ConditionOperationInProgress with
  | None => true
  | Some prev => negb (cond_Reason prev =? cond_Reason (operationConditionFor plan))
  end || negb (operationName (ls_Operation st) =?
               operationName (operationStatusFor plan (ls_Operation st) at_)).

Definition operation_event (plan : operationPlan) : option EventType :=
  if (op_Reason plan =? operationReasonBlocked) || (op_Reason plan =? operationReasonStalled)
  then Some EventTypeWarning
  else if (op_Reason plan =? operationReasonRunning) || (op_Reason plan =? operationReasonQuarantined)
  then Some EventTypeNormal
  else None.

Definition applyOperationStatus (retries : nat) (lr : LittleRed) (plan : operationPlan) (at_ : time)
  : prog (LittleRed * option error) :=
  let st := lr_Status lr in
  if operation_unchanged plan at_ st then mret (lr, None)
  else
    r ← RetryOnConflict retries (persist_operation plan at_) lr;
    match r with
    | (lr', Some err) => mret (lr', Some err)
    | (lr', None) =>
        if negb (operation_changed plan at_ st) then mret (lr', None)
        else match operation_event plan with
        | None => mret (lr', None)
        | Some kind =>
            _ ← perform (Event kind (op_Reason plan) (cond_Message (operationConditionFor plan)));
            mret (lr', None)
        end
    end.

Definition reconcileOperation (retries : nat) (lr : LittleRed) (in_ : operationInput)
  : prog (LittleRed * operationPlan * option error) :=
  let plan := planOperation in_ in
  r ← applyOperationStatus retries lr plan (oi_Now in_);
  mret (r.1, plan, r.2).

End Wiring.

(** ** Fingerprints *)

Lemma free_prefix_split c p q r t :
  byte_free c p → byte_free c q → p +:+ String c r = q +:+ String c t → p = q ∧ r = t.
Proof.
  revert q. induction p as [|a p IH]; intros [|b q] Hp Hq; simpl; intros [=]; subst; try done.
  - by destruct Hq as [[] _].
  - by destruct Hp as [[] _].
  - destruct Hp as [_ Hp], Hq as [_ Hq]. by destruct (IH q Hp Hq) as [-> ->].
Qed.

Lemma same_length_split p q r t :
  String.length p = String.length q → p +:+ r = q +:+ t → p = q ∧ r = t.
Proof.
  revert q. induction p as [|a p IH]; intros [|b q]; simpl; intros [=]; [done|].
  intros [=]; subst. by destruct (IH q) as [-> ->].
Qed.

Lemma itoa_colon_free n : byte_free ":" (itoa (Z.of_nat n)).
Proof. apply all_digits_free; [done|apply all_digits_itoa; lia]. Qed.

(** A length prefix and its text determine each other. *)
Lemma length_prefix_split p q r t :
  itoa (Z.of_nat (String.length p)) +:+ ":" +:+ p +:+ r =
  itoa (Z.of_nat (String.length q)) +:+ ":" +:+ q +:+ t → p = q ∧ r = t.
Proof.
  intros [Hl Hr]%(free_prefix_split ":" _ _ _ _ (itoa_colon_free _) (itoa_colon_free _)).
  apply same_length_split; [|done]. apply itoa_inj in Hl. lia.
Qed.

(** What is fingerprinted cannot be split in two ways: the operation and the value are
    determined by the authenticated text, so two different operations, or two values of one
    operation, never share it. *)
Theorem framed_injective name value name' value' :
  framed name value = framed name' value' → name = name' ∧ value = value'.
Proof.
  intros [-> [_ ->]%(free_prefix_split ":" _ _ _ _ (itoa_colon_free _) (itoa_colon_free _))]%length_prefix_split.
  done.
Qed.

(** ** The handler implements the planner's passes *)

Section Refinement.
Context `{GoRuntime} {Srv} `{ApiServer Srv}.

(** However an application ends, the stored status is as before or the plan is written. *)
Lemma applyOperationStatus_any retries lr plan at_ s s' r :
  exec s (applyOperationStatus retries lr plan at_) s' r →
  stored_status s' = stored_status s ∨
  stored_status s' = as_stored (operation_written plan at_ (stored_status s)).
Proof.
  unfold applyOperationStatus. destruct (operation_unchanged _ _ _); [intros [-> _]%exec_ret; by left|].
  intros [[_ Hr]|([lr1 [e|]] & s1 & Hr & Hx)]%exec_bind; apply exec_retry_modify in Hr as [Hor _]; [done| |].
  - by apply exec_ret in Hx as [-> _].
  - apply exec_keeps_status in Hx; [by rewrite Hx|]. by repeat case_match.
Qed.

Lemma statefulsets_settled_status names s s' r :
  exec s (statefulsets_settled names) s' r → stored_status s' = stored_status s.
Proof.
  apply exec_keeps_status. induction names as [|n names IH]; [done|]. cbn [statefulsets_settled].
  apply safe_call; [done|]. by intros [sts|e]; case_match.
Qed.

(** What a successful application leaves: nothing to do, or the plan written over the
    stored status. *)
Lemma applyOperationStatus_result retries lr plan at_ s s' lr' :
  exec s (applyOperationStatus retries lr plan at_) s' (Some (lr', None)) →
  (op_Ack plan = [] ∧ stored_status s' = stored_status s) ∨
  stored_status s' = as_stored (operation_written plan at_ (stored_status s)).
Proof.
  unfold applyOperationStatus. destruct (operation_unchanged _ _ _) eqn:Hu.
  { intros [-> [?|?]]%exec_ret; simplify_eq. left. unfold operation_unchanged in Hu.
    apply andb_true_iff in Hu as [[_ Hl%Z.eqb_eq]%andb_true_iff _].
    split; [|done]. destruct (op_Ack plan); [done|]. unfold len in Hl. simpl in Hl. lia. }
  intros [[? _]|([lr1 [e|]] & s1 & Hr & Hx)]%exec_bind; [done|by apply exec_ret in Hx as [_ [?|?]]|].
  apply exec_retry_modify in Hr as [_ Hw]. specialize (Hw lr1 eq_refl). right.
  destruct (negb _); [by apply exec_ret in Hx as [-> _]|].
  destruct (operation_event plan); [|by apply exec_ret in Hx as [-> _]].
  apply exec_call in Hx as [[_ ?]|(x & s3 & Hev & Hx)]; [done|].
  apply exec_ret in Hx as [-> _]. by rewrite (served_other _ _ _ _ Hev).
Qed.

End Refinement.

(** ** End to end *)

Section EndToEnd.
Context `{GoRuntime} (hmac_sha256 : string → string → string) {Srv} `{ApiServer Srv}.

Abbreviation rows s := (ls_AcknowledgedOperations (stored_status s)).

(** A successful pass writes the record as [operation_pass] says. *)
Lemma reconcileOperation_pass retries lr in_ s s' lr' plan :
  oi_Acks in_ = acks_of (rows s) →
  exec s (reconcileOperation retries lr in_) s' (Some (lr', plan, None)) →
  operation_pass (oi_Candidates in_) (completing in_) (rows s) (rows s').
Proof.
  intros Hacks [[? _]|([lr1 e] & s1 & Ha & Hx)]%exec_bind; [done|].
  apply exec_ret in Hx as [-> [?|?]]; simplify_eq/=. exists in_.
  split; [done|]. split; [done|]. split; [done|].
  apply applyOperationStatus_result in Ha as [[Hnil ->]| ->]; [by rewrite Hnil|].
  unfold operation_written. cbn -[stored_ack upsertOperationAcks].
  destruct (op_Ack (planOperation in_)) as [|c l]; cbn -[stored_ack upsertOperationAcks];
    rewrite <-list_fmap_compose; by apply list_fmap_ext.
Qed.

(** One call of [reconcileOperation] by the controller, with the driver's verdict filled
    in.  The custom resource it works on carries the current record. *)
Definition with_driver (in_ : operationInput) (done blocked : bool) : operationInput :=
  mkOperationInput (oi_Candidates in_) (oi_Acks in_) (oi_Quarantined in_) (oi_Bootstrapping in_)
    (oi_Settled in_) done blocked (oi_Active in_) (oi_Now in_).

Definition handler_pass (lr : LittleRed) (completes : bool) (s s' : Srv) : Prop :=
  ∃ retries st settled now done blocked lr' plan,
    let lr0 := set_lr_Status lr st in
    let in_ := with_driver (buildOperationInput hmac_sha256 lr0 settled now) done blocked in
    ls_AcknowledgedOperations st = rows s ∧ completing in_ = completes ∧
    exec s (reconcileOperation retries lr0 in_) s' (Some (lr', plan, None)).

(** Passes over an instance whose specification does not change; in between the server may
    change in any way that keeps the record. *)
Inductive handler_passes (lr : LittleRed) : nat → Srv → Srv → Prop :=
  | hpasses_none s s' : rows s' = rows s → handler_passes lr 0 s s'
  | hpasses_more k completes s s1 s2 s3 :
      rows s1 = rows s → handler_pass lr completes s1 s2 → handler_passes lr k s2 s3 →
      handler_passes lr (if completes then S k else k) s s3.

Lemma handler_passes_operation lr k s s' :
  handler_passes lr k s s' →
  operation_passes (operationCandidates lr (heavyOperations hmac_sha256)) k (rows s) (rows s').
Proof.
  induction 1 as [s s' ->|k completes s s1 s2 s3 Hrows Hp _ IH]; [constructor|].
  rewrite <-Hrows. eapply passes_more; [|exact IH].
  destruct Hp as (retries & st & settled & now & dn & bl & lr' & plan & Hst & <- & Hx).
  refine (reconcileOperation_pass _ _ _ _ _ _ _ _ Hx). simpl. by rewrite Hst.
Qed.

(** A pass that does not complete leaves a recorded value alone. *)
Lemma unfinished_keeps retries lr in_ s s' lr' plan c v :
  oi_Acks in_ = acks_of (rows s) → oi_Candidates in_ = [c] → oi_Bootstrapping in_ = false →
  completing in_ = false → acks_of (rows s) !! oc_Name c = Some v →
  exec s (reconcileOperation retries lr in_) s' (Some (lr', plan, None)) →
  acks_of (rows s') = acks_of (rows s).
Proof.
  intros Hacks Hcand Hboot Hcomp Hv Hx.
  assert (Hnil : op_Ack (planOperation in_) = []).
  { destruct (op_Ack (planOperation in_)) as [|d l] eqn:E; [done|]. exfalso.
    assert (Hnd : NoDup (operationNames (oi_Candidates in_))) by (rewrite Hcand; apply NoDup_singleton).
    destruct (sp_ack _ _ (planOperation_sound in_ Hnd) d) as (Hd & Hq & Hwhy); [rewrite E; left|].
    rewrite Hcand in Hd. apply list_elem_of_singleton in Hd as ->.
    destruct Hwhy as [Hb|[Hn|(Hdone & Hset & _)]]; [congruence|rewrite Hacks, Hv in Hn; discriminate|].
    unfold completing in Hcomp. by rewrite Hq, Hdone, Hset in Hcomp. }
  apply exec_bind in Hx as [[? _]|([lr1 e] & s1 & Ha & Hx)]; [done|].
  apply exec_ret in Hx as [-> [?|?]]; simplify_eq/=.
  apply applyOperationStatus_result in Ha as [[_ ->]| ->]; [done|].
  unfold operation_written. rewrite Hnil. cbn -[stored_ack acks_of].
  unfold acks_of. clear Hacks Hv. generalize (∅ : gmap string string).
  induction (rows s) as [|a l IH]; intros m; [done|]. apply IH.
Qed.

(** C34. A declared rename is recorded when it has been carried out, and once.  Passes are those
    of a specification that does not change, on an object that carries the current record.

    A pass in which the driver is not done, the StatefulSets have not settled or the instance
    is quarantined leaves a name recorded before as it is, on an instance that has a phase
    and is not being bootstrapped.  Whatever calls the operator makes in between and however
    many such passes there are, one completing pass records the fingerprint of the declared
    master name in the stored status; from then on every input built from that record on an
    instance that has a phase and is not being bootstrapped is answered by "converged".  (At
    the bootstrap the planner answers "seeded" and records the declared name anew.) *)
Theorem rename_recorded lr :
  lr_Mode lr = ModeSentinel →
  (∀ retries st settled now done blocked s s' lr' plan v,
     let lr0 := set_lr_Status lr st in
     let in_ := with_driver (buildOperationInput hmac_sha256 lr0 settled now) done blocked in
     ls_AcknowledgedOperations st = rows s → ls_Phase st ≠ PhaseUnset → ls_BootstrapRequired st = false →
     settled = false ∨ done = false ∨ is_Some (ls_QuarantinedSince st) →
     acks_of (rows s) !! "SentinelMasterNameRename" = Some v →
     exec s (reconcileOperation retries lr0 in_) s' (Some (lr', plan, None)) →
     acks_of (rows s') !! "SentinelMasterNameRename" = Some v) ∧
  (∀ k s s', NoDup (ack_Name <$> rows s) → handler_passes lr k s s' → (1 ≤ k)%nat →
     acks_of (rows s') !! "SentinelMasterNameRename" =
       Some (OperationFingerprint hmac_sha256 (lr_UID lr) "SentinelMasterNameRename" (SentinelMasterName lr)) ∧
     ∀ st settled now done blocked,
       ls_AcknowledgedOperations st = rows s' → ls_Phase st ≠ PhaseUnset → ls_BootstrapRequired st = false →
       planOperation (with_driver (buildOperationInput hmac_sha256 (set_lr_Status lr st) settled now) done blocked) =
       mkOperationPlan "" "" [] operationReasonConverged [] "").
Proof.
  intros Hmode.
  assert (Hc : ∀ st, operationCandidates (set_lr_Status lr st) (heavyOperations hmac_sha256) =
    [mkCandidate "SentinelMasterNameRename" (OperationFingerprint hmac_sha256 (lr_UID lr)
       "SentinelMasterNameRename" (SentinelMasterName lr)) [] (15 * 60 * second)]).
  { intros st. unfold operationCandidates. simpl. by rewrite Hmode. }
  split.
  - intros retries st settled now dn bl s s' lr' plan v lr0 in_ Hst Hphase Hboot Hwhy Hv Hx.
    rewrite (unfinished_keeps retries lr0 in_ s s' lr' plan (mkCandidate "SentinelMasterNameRename"
      (OperationFingerprint hmac_sha256 (lr_UID lr) "SentinelMasterNameRename" (SentinelMasterName lr)) [] (15 * 60 * second)) v);
      try done.
    + simpl. by rewrite Hst.
    + apply Hc.
    + simpl. by rewrite Hboot, bool_decide_eq_false_2.
    + unfold completing. simpl. destruct Hwhy as [->|[->|Hq]]; [by rewrite andb_false_r|by rewrite andb_false_r|].
      by rewrite bool_decide_eq_true_2.
  - intros k s s' Hnd Hp%handler_passes_operation Hk.
    assert (Hc0 : operationCandidates lr (heavyOperations hmac_sha256) = _) by exact (Hc (lr_Status lr)).
    destruct (drain_facts lr (heavyOperations hmac_sha256) k (rows s) (rows s')) as [Hacks Hconv];
      [apply NoDup_singleton|reflexivity|done|done|by rewrite Hc0|].
    split; [rewrite Hc0 in Hacks; apply (Hacks _ ltac:(left))|].
    intros st settled now dn bl Hst Hphase Hboot. apply Hconv; [done|by simpl; rewrite Hst|].
    simpl. by rewrite Hboot, bool_decide_eq_false_2.
Qed.

End EndToEnd.

(** *** Witnesses *)

Lemma framed_injective_witness :
  framed "SentinelMasterNameRename" "ns.cache" = "24:SentinelMasterNameRename8:ns.cache" ∧
  "ns.cache" = "ns.cache".
Proof.
  split; [reflexivity|]. exact (proj2 (framed_injective "a" "ns.cache" "a" "ns.cache" eq_refl)).
Defined.

(** An instance renamed to "ns.cache" whose record still holds the old name. *)
Definition sample_hmac (key message : string) : string := key +:+ message.
Definition renamed_status : LittleRedStatus :=
  mkLittleRedStatus PhaseRunning "Ready" false None None None None 0
    [mkAck "SentinelMasterNameRename" "0123456789abcdef" (10 * second)] None 1 ∅ (3, 3) None None None None None.
Definition renamed_lr : LittleRed :=
  mkLittleRed "lr" "uid" "7" true false ModeSentinel 2 ∅ false "" no_tls None (Some (mkSentinelSpec "ns.cache" 2 0 0 0 false))
    None None None None renamed_status.
Definition renamed_server : Memory :=
  mkMemory ∅ renamed_lr (mkStatefulSet "rev" 3 3 1 1 "rev" 3 3 "" ∅ "" None "") sample_wire 0 ∅ [].
Definition renamed_input : operationInput :=
  with_driver (buildOperationInput sample_hmac renamed_lr true (100 * second)) true false.
Definition renamed_pass : prog (LittleRed * operationPlan * option error) :=
  @reconcileOperation ref_runtime 4 renamed_lr renamed_input.

Lemma rename_recorded_witness :
  acks_of (ls_AcknowledgedOperations (lr_Status (mem_lr (mem_run renamed_server renamed_pass).2)))
    !! "SentinelMasterNameRename" =
  Some (OperationFingerprint sample_hmac "uid" "SentinelMasterNameRename" "ns.cache").
Proof.
  refine (proj1 (proj2 (@rename_recorded ref_runtime sample_hmac Memory mem_server renamed_lr eq_refl) 1%nat
    renamed_server (mem_run renamed_server renamed_pass).2 _ _ _));
    [apply NoDup_singleton| |lia].
  refine (@hpasses_more _ _ _ _ _ 0 true _ renamed_server _ _ eq_refl _ (hpasses_none _ _ _ _ eq_refl)).
  exists 4%nat, renamed_status, true, (100 * second), true, false,
    (mem_run renamed_server renamed_pass).1.1.1, (mem_run renamed_server renamed_pass).1.1.2.
  split; [reflexivity|]. split; [reflexivity|].
  assert (He : (mem_run renamed_server renamed_pass).1.2 = None) by (vm_compute; reflexivity).
  rewrite <-He, <-!surjective_pairing. apply mem_run_exec.
Defined.
