(* ===== verification/Quarantine.v ===== *)
(** * The quarantine of a captured instance (src/internal/controller/littlered_controller.go)

    The handlers of Sentinel mode that record a capture verdict, arm and lift the
    quarantine, and derive the number of pods from it. *)

From S2P Require Import Prelude GoStrings Probe ClusterState ReplicationTypes.
From S2P Require Import ReplicationState Recovery Capture Gather Operations Kube OperationWiring.

Open Scope Z_scope.
Open Scope go_scope.

(** ** Definitions *)

Definition ConditionForsaken : string := "Forsaken".
Definition reasonCaptured : string := "Captured".
Definition reasonCaptureSuspected : string := "CaptureSuspected".
Definition reasonNotCaptured : string := "NotCaptured".
Definition reasonQuarantined : string := "Quarantined".
Definition reasonQuarantineLatched : string := "QuarantineLatched".
Definition reasonQuarantineRefusedData : string := "QuarantineRefusedDataPresent".
Definition reasonQuarantineRefusedUnknown : string := "QuarantineRefusedDataUnknown".
Definition SentinelRedisReplicas : Z := 3.

Definition quarantineReason (p : quarantinePhase) : string :=
  match p with
  | quarantineStart | quarantineSettling => reasonQuarantined
  | quarantineLatched => reasonQuarantineLatched
  | quarantineHoldDataPresent => reasonQuarantineRefusedData
  | quarantineHoldDataUnknown => reasonQuarantineRefusedUnknown
  | _ => reasonCaptured
  end.

Definition quarantineConfigDangerous (lr : LittleRed) : bool :=
  negb (lr_AuthEnabled lr) && (SentinelMasterName lr =? LegacySentinelMasterName).

(** The pods asked for: Redis, Sentinel. *)
Definition sentinelDesiredReplicas (lr : LittleRed) (now : time) : Z * Z :=
  if negb (lr_Mode lr =? ModeSentinel) then (SentinelRedisReplicas, sentinelProcessReplicas)
  else
    let q := planQuarantine (mkQuarantineInput false false false false
               (ls_QuarantinedSince (lr_Status lr)) (ls_QuarantineAttempts (lr_Status lr))
               (quarantineConfigDangerous lr) now) in
    if qp_ScaleToZero q then (0, 0) else (SentinelRedisReplicas, sentinelProcessReplicas).

Definition forsaken_condition (foreign : string) (forsaken : bool) (q : quarantinePlan) : Condition :=
  if qp_ScaleToZero q then
    mkCondition ConditionTrue (quarantineReason (qp_Phase q))
      (if bool_decide (qp_Phase q = quarantineLatched)
       then "This instance has been quarantined " +:+ itoa (qp_NextAttempts q) +:+ " time(s) as captured by another " +:+
            "Sentinel deployment sharing its master name, and is now LATCHED at 0 replicas: every " +:+
            "release has been followed by a recapture, and each recapture also re-pollutes the " +:+
            "capturing instance. This is a configuration problem — set a unique " +:+
            "spec.sentinel.masterName and enable spec.auth — not something the operator can retry " +:+
            "its way out of. Run the capture-recovery runbook in docs/USAGE.md."
       else "This instance has been captured by another Sentinel deployment sharing its " +:+
            "master name (its Sentinels serve " +:+ foreign +:+ ", which is not one of its pods) and has been " +:+
            "QUARANTINED: its Redis and Sentinel pods are scaled to 0 so the capturing instance can " +:+
            "prune them from its own Sentinel topology. Nothing is recovered by this — the dataset was " +:+
            "flushed on capture; the pods return EMPTY. Quarantine attempt " +:+ itoa (qp_NextAttempts q) +:+
            " of " +:+ itoa (qp_AttemptLimit q) +:+ ".")
  else if forsaken then
    mkCondition ConditionTrue (quarantineReason (qp_Phase q))
      ("This instance has been captured by another Sentinel deployment sharing its " +:+
       "master name: every Sentinel is serving " +:+ foreign +:+ ", which is not one of its pods, and no pod of " +:+
       "its own is a master. Recovery is declined by design — the dataset was flushed on capture " +:+
       "and the operator cannot outbid the captor's config epoch. The operator has stopped " +:+
       "managing this instance; run the capture-recovery runbook in docs/USAGE.md." +:+
       match qp_Phase q with
       | quarantineHoldDataPresent =>
           " It has NOT been quarantined: a reachable pod still holds keys that the capturing " +:+
           "instance does not have, so scaling to 0 could destroy the only copy."
       | quarantineHoldDataUnknown =>
           " It has NOT been quarantined: a pod of this instance did not answer and the " +:+
           "kubelet still reports its redis container Ready, so it cannot be proven empty and " +:+
           "scaling to 0 could destroy data."
       | _ => ""
       end)
  else
    mkCondition ConditionFalse reasonCaptureSuspected
      ("Sentinels are serving " +:+ foreign +:+ ", which is not one of this instance's pods; " +:+
       "waiting out the settling period before declaring the instance forsaken.").

(** The two markers, as set on [latest] and mirrored on [lr]. *)
Definition mark_forsaken (first : bool) (q : quarantinePlan) (t : time) (st : LittleRedStatus)
  : LittleRedStatus :=
  let st1 := if first then set_ForsakenSince st (Some t) else st in
  if qp_Arm q then set_Quarantine st1 (Some t) (qp_NextAttempts q) else st1.

Definition unset (t : option time) : bool := match t with None => true | Some _ => false end.

Definition forsaken_written (cond : Condition) (q : quarantinePlan) (t : time) (st : LittleRedStatus)
  : LittleRedStatus :=
  let st' := mark_forsaken (unset (ls_ForsakenSince st)) q t st in
  set_Conditions st' (SetStatusCondition (ls_Conditions st') ConditionForsaken
    (cond_Status cond) (cond_Reason cond) (cond_Message cond)).

Definition mirror_conditions (written lr : LittleRed) : LittleRed :=
  with_Conditions lr (ls_Conditions (lr_Status written)).

Definition setForsaken (retries : nat) (lr : LittleRed) (t : time) (foreign : string)
  (forsaken : bool) (q : quarantinePlan) : prog (LittleRed * option error) :=
  let cond := forsaken_condition foreign forsaken q in
  let changed := match FindStatusCondition (ls_Conditions (lr_Status lr)) ConditionForsaken with
                 | None => true
                 | Some prev => negb (cond_Reason prev =? cond_Reason cond)
                 end in
  r ← RetryOnConflict retries
        (modify_status (forsaken_written cond q t)
           (λ latest lr, set_lr_Status lr (mark_forsaken (unset (ls_ForsakenSince (lr_Status latest)))
                                             q t (lr_Status lr)))
           mirror_conditions) lr;
  match r with
  | (lr', Some err) => mret (lr', Some err)
  | (lr', None) =>
      if changed && bool_decide (cond_Status cond = ConditionTrue)
      then _ ← perform (Event EventTypeWarning (cond_Reason cond) (cond_Message cond)); mret (lr', None)
      else mret (lr', None)
  end.

Definition clear_markers (q : quarantinePlan) (clearAttempts : bool) (st : LittleRedStatus)
  : LittleRedStatus :=
  let st1 := set_ForsakenSince st None in
  let st2 := if qp_Clear q then set_Quarantine st1 None (ls_QuarantineAttempts st1) else st1 in
  if clearAttempts then set_Quarantine st2 None 0 else st2.

Definition cleared_written (q : quarantinePlan) (clearAttempts : bool) (st : LittleRedStatus)
  : LittleRedStatus :=
  let st' := clear_markers q clearAttempts st in
  set_Conditions st' (SetStatusCondition (ls_Conditions st') ConditionForsaken ConditionFalse
    reasonNotCaptured "This instance's Sentinels are serving its own topology.").

Definition clearForsaken (retries : nat) (lr : LittleRed) (q : quarantinePlan)
  : prog (LittleRed * option error) :=
  let st := lr_Status lr in
  let clearAttempts := bool_decide (ls_Phase st = PhaseRunning)
                       && negb (ls_QuarantineAttempts st =? 0)%Z in
  if unset (ls_ForsakenSince st) && negb (qp_Clear q) && negb clearAttempts
     && bool_decide (FindStatusCondition (ls_Conditions st) ConditionForsaken = None)
  then mret (lr, None)
  else
    RetryOnConflict retries
      (modify_status (cleared_written q clearAttempts)
         (λ _ lr, set_lr_Status lr (clear_markers q clearAttempts (lr_Status lr)))
         mirror_conditions) lr.

Section Pass.
Context `{GoRuntime} (hmac_sha256 : string → string → string) (retries : nat).

(** The decision of one pass: capture verdict, risk to data, quarantine. *)
Definition capture_plans (lr : LittleRed) (state : ReplicationState) (redisReady : gmap string bool)
  (rolling : bool) (now : time) : forsakenPlan * quarantinePlan :=
  let fp := planForsaken state (ls_ForsakenSince (lr_Status lr)) now rolling in
  let '(atRisk, unverified) := quarantineDataRisk (Some state) (fk_ForeignMaster fp) redisReady in
  (fp, planQuarantine (mkQuarantineInput (fk_Captured fp) (fk_Forsaken fp) atRisk unverified
         (ls_QuarantinedSince (lr_Status lr)) (ls_QuarantineAttempts (lr_Status lr))
         (quarantineConfigDangerous lr) now)).

Definition set_oi_Quarantined (in_ : operationInput) : operationInput :=
  mkOperationInput (oi_Candidates in_) (oi_Acks in_) true (oi_Bootstrapping in_)
    (oi_Settled in_) (oi_DriverDone in_) (oi_DriverBlocked in_) (oi_Active in_) (oi_Now in_).

(** The part of [reconcileSentinelCluster] from the gathered state to the healing rules;
    [None] is its return, otherwise the pass goes on.  Errors are only logged. *)
Definition capture_pass (lr : LittleRed) (state : ReplicationState) (redisReady : gmap string bool)
  (rolling : bool) : prog (LittleRed * option (forsakenPlan * operationInput)) :=
  now ← perform Now;
  let '(fp, q) := capture_plans lr state redisReady rolling now in
  settled ← instanceStatefulSetsSettled lr;
  let opInput := buildOperationInput hmac_sha256 lr settled now in
  if qp_ScaleToZero q then
    t ← perform Now;
    r ← setForsaken retries lr t (fk_ForeignMaster fp) true q;
    o ← reconcileOperation retries r.1 (set_oi_Quarantined opInput);
    mret (o.1.1, None)
  else if fk_Captured fp then
    t ← perform Now;
    r ← setForsaken retries lr t (fk_ForeignMaster fp) (fk_Forsaken fp) q;
    if fk_Forsaken fp then mret (r.1, None) else mret (r.1, Some (fp, opInput))
  else
    r ← clearForsaken retries lr q;
    mret (r.1, Some (fp, opInput)).

End Pass.

(** ** No data is given up *)

(** What [quarantineDataRisk] lets pass of one pod. *)
Definition nothing_to_lose (captor : string) (redisReady : gmap string bool) (rn : RedisNodeState) : Prop :=
  (rn_Reachable rn = true → 0 < rn_Keys rn →
     captor ≠ "" ∧ rn_MasterHost rn = captor ∧ rn_LinkStatus rn = "up") ∧
  (rn_Reachable rn = false →
     UnprovablyEmpty rn = false ∧ redisReady !! rn_PodName rn = Some false).

Lemma pod_risk_spec captor ready a u rn :
  pod_risk captor ready (a, u) rn = (false, false) ↔
  a = false ∧ u = false ∧ nothing_to_lose captor ready rn.
Proof.
  unfold pod_risk, nothing_to_lose. destruct (rn_Reachable rn) eqn:Hr; cbn [negb].
  - destruct (Z.leb_spec (rn_Keys rn) 0) as [Hk|Hk].
    { split; [intros [= -> ->]|by intros (-> & -> & _)].
      split; [done|]. split; [done|]. split; [lia|done]. }
    destruct (negb (captor =? "") && _ && _) eqn:Hc.
    + bool_hyps. split; [intros [= -> ->]; by repeat split|by intros (-> & -> & _)].
    + split; [done|]. intros (-> & -> & Hs & _). destruct (Hs eq_refl Hk) as (H1 & H2 & H3).
      rewrite H2, H3, !String.eqb_refl, (proj2 (String.eqb_neq captor "")) in Hc by done. done.
  - destruct (UnprovablyEmpty rn); [split; [done|]; intros (_ & _ & _ & Hs); by destruct (Hs eq_refl)|].
    destruct (ready !! rn_PodName rn) as [[]|];
      (split; [intros [= -> ->]; by repeat split|intros (-> & -> & _ & Hs); by destruct (Hs eq_refl)]).
Qed.

Lemma foldl_pod_risk captor ready l : ∀ a u,
  foldl (pod_risk captor ready) (a, u) l = (false, false) ↔
  a = false ∧ u = false ∧ ∀ rn, rn ∈ l → nothing_to_lose captor ready rn.
Proof.
  induction l as [|rn l IH]; intros a u; cbn [foldl].
  { split; [intros [= -> ->]; split; [done|]; split; [done|]; by intros rn ?%not_elem_of_nil|naive_solver]. }
  destruct (pod_risk captor ready (a, u) rn) as [a' u'] eqn:E. rewrite IH.
  setoid_rewrite elem_of_cons. pose proof (pod_risk_spec captor ready a u rn) as Hs. rewrite E in Hs. split.
  - intros (-> & -> & Hall). destruct (proj1 Hs eq_refl) as (-> & -> & Hrn).
    split; [done|]. split; [done|]. intros x [->|Hx]; auto.
  - intros (-> & -> & Hall).
    assert ((a', u') = (false, false)) as [= -> ->] by (apply Hs; auto). auto.
Qed.

Section Safety.
Context `{GoRuntime}.

Lemma quarantineDataRisk_spec state captor ready :
  quarantineDataRisk (Some state) captor ready = (false, false) ↔
  ∀ ip rn, rs_RedisNodes state !! ip = Some rn → nothing_to_lose captor ready rn.
Proof.
  unfold quarantineDataRisk. rewrite foldl_pod_risk. setoid_rewrite elem_of_range_values. split.
  - intros (_ & _ & Hall) ip rn Hrn. eauto.
  - intros Hall. split; [done|]. split; [done|]. intros rn [ip Hrn]. eauto.
Qed.

(** The phases in which something is about to change, and what the decision rests on. *)
Lemma planQuarantine_arm in_ :
  qp_Arm (planQuarantine in_) = true →
  marked (qi_QuarantinedSince in_) = false ∧ qi_Captured in_ = true ∧ qi_Forsaken in_ = true ∧
  qi_DataAtRisk in_ = false ∧ qi_DataUnverified in_ = false.
Proof.
  unfold planQuarantine. destruct (marked _); [by repeat case_match|].
  destruct (qi_Captured in_), (qi_DataAtRisk in_), (qi_DataUnverified in_), (qi_Forsaken in_); done.
Qed.

(** C13. A quarantine, which deletes every pod of the instance, gives up no data.  It is armed
    only for an instance that has been captured for the whole cooldown, and only when every
    pod that answers is either empty or an up-to-date copy of the captor's data, and every
    pod that does not answer is one whose server the kubelet reports not running and that
    has not refused the operator's credential. *)
Theorem quarantine_spares_data lr state redisReady rolling now :
  qp_Arm (capture_plans lr state redisReady rolling now).2 = true →
  ∃ captor since, captured_by state captor ∧
    ls_ForsakenSince (lr_Status lr) = Some since ∧ forsakenCooldown ≤ time_sub now since ∧
    marked (ls_QuarantinedSince (lr_Status lr)) = false ∧
    ∀ ip rn, rs_RedisNodes state !! ip = Some rn → nothing_to_lose captor redisReady rn.
Proof.
  unfold capture_plans. set (fp := planForsaken _ _ _ _).
  destruct (quarantineDataRisk _ _ _) as [atRisk unverified] eqn:Hrisk. cbn [snd].
  intros (Hm & Hc & Hf & Hr & Hu)%planQuarantine_arm. simpl in *. subst atRisk unverified.
  pose proof (planForsaken_facts state (ls_ForsakenSince (lr_Status lr)) now rolling) as [Hcap Hfor].
  fold fp in Hcap, Hfor. destruct (proj1 (Hcap (fk_ForeignMaster fp)) (conj Hc eq_refl)) as [Hby _].
  destruct (proj1 Hfor Hf) as (_ & t & Ht & _ & Hcool).
  exists (fk_ForeignMaster fp), t. split; [done|]. split; [done|]. split; [done|]. split; [done|].
  by apply quarantineDataRisk_spec.
Qed.

End Safety.

(** ** The life cycle of a quarantine *)

(** The two fields that carry a quarantine from one pass to the next, the time as stored. *)
Definition markers (st : LittleRedStatus) : option time * Z :=
  (to_second <$> ls_QuarantinedSince st, ls_QuarantineAttempts st).

Lemma to_second_idem t : to_second (to_second t) = to_second t.
Proof.
  unfold to_second. assert (Hs : second ≠ 0) by done.
  replace (t - t `mod` second) with (t `div` second * second)
    by (pose proof (Z.div_mod t second Hs); lia).
  rewrite Z.mod_mul by done. lia.
Qed.

Lemma markers_as_stored st : markers (as_stored st) = markers st.
Proof.
  unfold markers, as_stored. simpl. f_equal. destruct (ls_QuarantinedSince st); [|done].
  simpl. by rewrite to_second_idem.
Qed.

Definition attempt_limit (lr : LittleRed) : Z :=
  if quarantineConfigDangerous lr then quarantineAttemptLimitDangerous else quarantineAttemptLimit.

(** What one pass may make of the markers, [q] being its decision: nothing; a quarantine
    begins; it is lifted; or the counter is reset. *)
Inductive marker_step (lr : LittleRed) (now : time) (q : quarantinePlan) : option time * Z → option time * Z → Prop :=
  | step_keep m : marker_step lr now q m m
  | step_arm m t :
      qp_Arm q = true → marked (ls_QuarantinedSince (lr_Status lr)) = false →
      marker_step lr now q m (Some (to_second t), wrap32 (ls_QuarantineAttempts (lr_Status lr) + 1))
  | step_lift since m :
      ls_QuarantinedSince (lr_Status lr) = Some since → time_is_zero since = false →
      ls_QuarantineAttempts (lr_Status lr) < attempt_limit lr →
      quarantineSettlePeriod ≤ time_sub now since →
      marker_step lr now q m (None, m.2)
  | step_reset m :
      qp_ScaleToZero q = false → ls_Phase (lr_Status lr) = PhaseRunning →
      marker_step lr now q m (None, 0).

Section Lifecycle.
Context `{GoRuntime} (hmac_sha256 : string → string → string) {Srv} `{ApiServer Srv}.

Lemma setForsaken_any retries lr t foreign forsaken q s s' r :
  exec s (setForsaken retries lr t foreign forsaken q) s' r →
  markers (stored_status s') = markers (stored_status s) ∨
  (qp_Arm q = true ∧ markers (stored_status s') = (Some (to_second t), qp_NextAttempts q)).
Proof.
  intros Hx. assert (Hor : stored_status s' = stored_status s ∨ stored_status s' =
    as_stored (forsaken_written (forsaken_condition foreign forsaken q) q t (stored_status s))).
  { apply exec_bind in Hx as [[_ Hr]|([lr1 [e|]] & s1 & Hr & Hx)]; apply exec_retry_modify in Hr as [Hor _];
      [done|by apply exec_ret in Hx as [-> _]|].
    apply exec_keeps_status in Hx; [by rewrite Hx|]. by case_match. }
  destruct Hor as [-> | ->]; [by left|]. rewrite markers_as_stored.
  unfold forsaken_written, mark_forsaken. destruct (qp_Arm q); [right|left]; by destruct (unset _).
Qed.

Lemma clearForsaken_any retries lr q s s' r :
  exec s (clearForsaken retries lr q) s' r →
  markers (stored_status s') = markers (stored_status s) ∨
  (qp_Clear q = true ∧ markers (stored_status s') = (None, ls_QuarantineAttempts (stored_status s))) ∨
  (ls_Phase (lr_Status lr) = PhaseRunning ∧ markers (stored_status s') = (None, 0)).
Proof.
  unfold clearForsaken. set (ca := bool_decide _ && _). destruct (unset _ && _ && _ && _).
  { intros [-> _]%exec_ret. by left. }
  intros [Hor _]%exec_retry_modify. destruct Hor as [-> | ->]; [by left|]. rewrite markers_as_stored.
  unfold cleared_written, clear_markers. destruct ca eqn:Hca.
  - right. right. unfold ca in Hca. apply andb_true_iff in Hca as [Hp%bool_decide_eq_true _]. done.
  - destruct (qp_Clear q); [right; by left|by left].
Qed.

(** What the decision says when something changes. *)
Lemma planQuarantine_clear in_ :
  qp_Clear (planQuarantine in_) = true →
  ∃ since, qi_QuarantinedSince in_ = Some since ∧ time_is_zero since = false ∧
    qi_Attempts in_ < qp_AttemptLimit (planQuarantine in_) ∧
    quarantineSettlePeriod ≤ time_sub (qi_Now in_) since.
Proof.
  unfold planQuarantine. destruct (marked (qi_QuarantinedSince in_)) eqn:Hm; [|by repeat case_match].
  destruct (qi_QuarantinedSince in_) as [t|]; [|done]. simpl in *. apply negb_true_iff in Hm.
  destruct (Z.leb_spec (if qi_Dangerous in_ then quarantineAttemptLimitDangerous else quarantineAttemptLimit)
    (qi_Attempts in_)); [done|].
  destruct (Z.ltb_spec (time_sub (qi_Now in_) t) quarantineSettlePeriod); [done|]. intros _. by exists t.
Qed.

Lemma reconcileOperation_markers retries lr in_ s s' r :
  exec s (reconcileOperation retries lr in_) s' r →
  markers (stored_status s') = markers (stored_status s).
Proof.
  intros Hx. assert (Ha : ∃ r', exec s (applyOperationStatus retries lr (planOperation in_) (oi_Now in_)) s' r').
  { apply exec_bind in Hx as [[_ Ha]|(a & s1 & Ha & Hx)]; [by eexists|].
    apply exec_ret in Hx as [-> _]. by eexists. }
  destruct Ha as [r' [-> | ->]%applyOperationStatus_any]; [done|]. by rewrite markers_as_stored.
Qed.

(** A pass reads the clock and the StatefulSets, and then records its decision. *)
Lemma capture_pass_cases retries lr state ready rolling s s' r :
  exec s (capture_pass hmac_sha256 retries lr state ready rolling) s' r →
  markers (stored_status s') = markers (stored_status s) ∨
  ∃ now s0 s1, served s Now now s0 ∧ stored_status s1 = stored_status s ∧
    let '(fp, q) := capture_plans lr state ready rolling now in
    (∃ t s2 forsaken r', exec s1 (setForsaken retries lr t (fk_ForeignMaster fp) forsaken q) s2 r' ∧
       markers (stored_status s') = markers (stored_status s2)) ∨
    (qp_ScaleToZero q = false ∧ ∃ r', exec s1 (clearForsaken retries lr q) s' r').
Proof.
  intros [[-> ->]|(now & s0 & Hnow & Hx)]%exec_call; [by left|].
  pose proof (served_other _ _ _ _ Hnow) as Hs0. simpl in Hs0.
  destruct (capture_plans lr state ready rolling now) as [fp q] eqn:Hq.
  apply exec_bind in Hx as [[-> Hx]|(settled & s1 & Hset & Hx)].
  { left. apply statefulsets_settled_status in Hx. by rewrite Hx, Hs0. }
  apply statefulsets_settled_status in Hset. rewrite Hs0 in Hset.
  destruct (qp_ScaleToZero q) eqn:Hz; [|destruct (fk_Captured fp)].
  - apply exec_call in Hx as [[-> ->]|(t & s2 & Ht & Hx)]; [left; by rewrite Hset|].
    pose proof (served_other _ _ _ _ Ht) as Hs2. simpl in Hs2. rewrite Hset in Hs2.
    right. exists now, s0, s2. rewrite Hq. split; [done|]. split; [done|]. left.
    apply exec_bind in Hx as [[_ Hx]|([lr1 e] & s3 & Hset' & Hx)]; [by eauto 6|].
    exists t, s3, true, (Some (lr1, e)). split; [done|].
    apply exec_bind in Hx as [[_ Hx]|(o & s4 & Ho & Hx)];
      [by apply reconcileOperation_markers in Hx|].
    apply exec_ret in Hx as [-> _]. by apply reconcileOperation_markers in Ho.
  - apply exec_call in Hx as [[-> ->]|(t & s2 & Ht & Hx)]; [left; by rewrite Hset|].
    pose proof (served_other _ _ _ _ Ht) as Hs2. simpl in Hs2. rewrite Hset in Hs2.
    right. exists now, s0, s2. rewrite Hq. split; [done|]. split; [done|]. left.
    apply exec_bind in Hx as [[_ Hx]|([lr1 e] & s3 & Hset' & Hx)]; [by eauto 6|].
    exists t, s3, (fk_Forsaken fp), (Some (lr1, e)). split; [done|].
    by destruct (fk_Forsaken fp); apply exec_ret in Hx as [-> _].
  - right. exists now, s0, s1. rewrite Hq. split; [done|]. split; [done|]. right. split; [done|].
    apply exec_bind in Hx as [[_ Hx]|(c & s3 & Hc & Hx)]; [by eauto|].
    apply exec_ret in Hx as [-> _]. by eauto.
Qed.

Lemma planQuarantine_next in_ :
  qp_Arm (planQuarantine in_) = true → qp_NextAttempts (planQuarantine in_) = wrap32 (qi_Attempts in_ + 1).
Proof. unfold planQuarantine. by repeat case_match. Qed.

Lemma planQuarantine_limit in_ :
  qp_AttemptLimit (planQuarantine in_) =
  if qi_Dangerous in_ then quarantineAttemptLimitDangerous else quarantineAttemptLimit.
Proof. unfold planQuarantine. by repeat case_match. Qed.

(** C14. The life cycle of a quarantine is the documented one, whatever is gathered, whichever
    API calls fail and wherever the operator dies.  A pass moves the stored markers only by
    beginning a quarantine (counting one more attempt than the object it works on), by
    lifting one that has settled for two minutes and has attempts left, or by resetting the
    counter of an instance that is running and not quarantined. *)
Theorem capture_pass_lifecycle retries lr state redisReady rolling (s s' : Srv) r :
  exec s (capture_pass hmac_sha256 retries lr state redisReady rolling) s' r →
  markers (stored_status s') = markers (stored_status s) ∨
  ∃ now s0, served s Now now s0 ∧
    marker_step lr now (capture_plans lr state redisReady rolling now).2
      (markers (stored_status s)) (markers (stored_status s')).
Proof.
  intros Hx. apply capture_pass_cases in Hx as [?|(now & s0 & s1 & Hnow & Hs1 & Hcase)]; [by left|].
  right. exists now, s0. split; [done|]. unfold capture_plans in *.
  set (fp := planForsaken _ _ _ _) in *. destruct (quarantineDataRisk _ _ _) as [risk unv].
  set (in_ := mkQuarantineInput _ _ _ _ _ _ _ _) in *. cbn [snd].
  destruct Hcase as [(t & s2 & forsaken & r' & Hset & ->)|(Hz & r' & Hclear)].
  - apply setForsaken_any in Hset as [->|[Harm ->]]; rewrite ?Hs1; [constructor|].
    rewrite (planQuarantine_next _ Harm). apply step_arm; [done|].
    by apply planQuarantine_arm in Harm as [? _].
  - apply clearForsaken_any in Hclear as [->|[[Hc ->]|[Hp ->]]]; rewrite ?Hs1;
      [constructor| |by apply step_reset].
    apply planQuarantine_clear in Hc as (since & Hsince & Hzero & Hlim & Hper).
    rewrite planQuarantine_limit in Hlim. by eapply (step_lift _ _ _ since).
Qed.

(** The decision for a quarantine that has used up its attempts. *)
Lemma planQuarantine_latched in_ since :
  qi_QuarantinedSince in_ = Some since → time_is_zero since = false →
  (if qi_Dangerous in_ then quarantineAttemptLimitDangerous else quarantineAttemptLimit) ≤ qi_Attempts in_ →
  qp_ScaleToZero (planQuarantine in_) = true ∧ qp_Arm (planQuarantine in_) = false.
Proof.
  intros Hs Hz Hl. unfold planQuarantine. rewrite Hs. simpl. rewrite Hz. simpl.
  by rewrite (proj2 (Z.leb_le _ _) Hl).
Qed.

(** A quarantine that has used up its attempts is permanent until the configuration
    changes: whatever is gathered and whatever fails, the stored markers stay as they are,
    no pod is asked for, and the pass ends before any healing rule. *)
Theorem latched_quarantine_holds retries lr state redisReady rolling since :
  lr_Mode lr = ModeSentinel →
  ls_QuarantinedSince (lr_Status lr) = Some since → time_is_zero since = false →
  attempt_limit lr ≤ ls_QuarantineAttempts (lr_Status lr) →
  (∀ now, sentinelDesiredReplicas lr now = (0, 0)) ∧
  safe (λ _, True) (λ result, result.2 = None)
    (capture_pass hmac_sha256 retries lr state redisReady rolling) ∧
  ∀ (s s' : Srv) r, exec s (capture_pass hmac_sha256 retries lr state redisReady rolling) s' r →
    markers (stored_status s') = markers (stored_status s).
Proof.
  intros Hmode Hs Hz Hl. unfold attempt_limit in Hl.
  assert (Hlatched : ∀ now, let q := (capture_plans lr state redisReady rolling now).2 in
    qp_ScaleToZero q = true ∧ qp_Arm q = false).
  { intros now. unfold capture_plans. destruct (quarantineDataRisk _ _ _). by eapply planQuarantine_latched. }
  split; [|split].
  - intros now. unfold sentinelDesiredReplicas. rewrite Hmode. cbn [negb String.eqb].
    destruct (planQuarantine_latched (mkQuarantineInput false false false false
      (ls_QuarantinedSince (lr_Status lr)) (ls_QuarantineAttempts (lr_Status lr))
      (quarantineConfigDangerous lr) now) since Hs Hz Hl) as [-> _]. done.
  - apply safe_call; [done|]. intros now. specialize (Hlatched now).
    destruct (capture_plans lr state redisReady rolling now) as [fp q]. simpl in Hlatched.
    destruct Hlatched as [-> _]. do 4 (apply calls_only_bind; [apply safe_any|intros]). done.
  - intros s s' r Hx. apply capture_pass_cases in Hx as [?|(now & s0 & s1 & _ & Hs1 & Hcase)]; [done|].
    specialize (Hlatched now). destruct (capture_plans lr state redisReady rolling now) as [fp q].
    simpl in Hlatched. destruct Hlatched as [Hzero Harm].
    destruct Hcase as [(t & s2 & forsaken & r' & Hset & ->)|(Hn & _)]; [|congruence].
    apply setForsaken_any in Hset as [->|[? _]]; [by rewrite Hs1|congruence].
Qed.

End Lifecycle.

(** ** The driver's report *)

Section Driver.
Context `{GoRuntime} (hmac_sha256 : string → string → string).

Lemma operationDriverReport_done plan :
  (operationDriverReport plan).1 = true ↔ sm_Reason plan = staleNamesConverged.
Proof.
  unfold operationDriverReport. destruct (String.eqb_spec (sm_Reason plan) staleNamesConverged); [done|].
  repeat case_match; naive_solver.
Qed.

Definition rename_candidate (lr : LittleRed) : operationCandidate :=
  mkCandidate "SentinelMasterNameRename"
    (OperationFingerprint hmac_sha256 (lr_UID lr) "SentinelMasterNameRename" (SentinelMasterName lr))
    [] (15 * 60 * second).

(** The rename, once pending, is acknowledged exactly in the passes whose driver is done
    and whose StatefulSets have settled. *)
Lemma rename_ack lr settled now dn bl :
  lr_Mode lr = ModeSentinel → ls_QuarantinedSince (lr_Status lr) = None →
  ls_Phase (lr_Status lr) ≠ PhaseUnset → ls_BootstrapRequired (lr_Status lr) = false →
  is_pending (acks_of (ls_AcknowledgedOperations (lr_Status lr))) (rename_candidate lr) = true →
  op_Ack (planOperation (with_driver (buildOperationInput hmac_sha256 lr settled now) dn bl)) =
  if dn && settled then [rename_candidate lr] else [].
Proof.
  intros Hmode Hq Hphase Hboot Hpend. set (in_ := with_driver _ _ _).
  assert (Hc : oi_Candidates in_ = [rename_candidate lr]).
  { unfold in_, operationCandidates. simpl. by rewrite Hmode. }
  assert (Hsort : sort_slice (less_by_string oc_Name) [rename_candidate lr] = [rename_candidate lr])
    by apply Permutation_singleton_r, sort_slice_perm.
  assert (Hin : oi_Quarantined in_ = false ∧ oi_Bootstrapping in_ = false ∧
                oi_DriverDone in_ = dn ∧ oi_Settled in_ = settled).
  { simpl. rewrite Hq, Hboot, (bool_decide_eq_false_2 (ls_Phase _ = _)) by done. by repeat split. }
  destruct Hin as (Hiq & Hib & Hid & His). change (is_pending (oi_Acks in_) (rename_candidate lr) = true) in Hpend.
  clearbody in_. unfold planOperation. rewrite Hc, Hsort, !bfilter_one, Hpend, Hiq, Hib, Hid, His.
  assert (is_unseeded (oi_Acks in_) (rename_candidate lr) = false) as ->.
  { unfold is_unseeded, is_pending in *. by destruct (_ !! _). }
  cbn -[plan_completed plan_running]. destruct (dn && settled); [done|]. unfold plan_running.
  by destruct (if operationStalled _ _ then _ else _).
Qed.

(** Convergence can be vacuous.  When no Sentinel answers (or none that answers could be
    asked for its list), the rule that removes left-over names reports that every reachable
    Sentinel monitors exactly the desired name, the driver counts as done, and a pending
    rename is acknowledged as soon as the StatefulSets have settled, although no Sentinel
    has been seen under the new name. *)
Theorem rename_acknowledged_unseen lr s quorum rolling now :
  lr_Mode lr = ModeSentinel → ls_QuarantinedSince (lr_Status lr) = None →
  ls_Phase (lr_Status lr) ≠ PhaseUnset → ls_BootstrapRequired (lr_Status lr) = false →
  is_pending (acks_of (ls_AcknowledgedOperations (lr_Status lr))) (rename_candidate lr) = true →
  (∀ sn, sn ∈ sentinels s → sn_Reachable sn = false ∨ sn_MonitoredMasters sn = []) →
  let report := operationDriverReport
    (planStaleMasterNames (Some s) (SentinelMasterName lr) quorum false rolling) in
  report.1 = true ∧
  op_Ack (planOperation (with_driver (buildOperationInput hmac_sha256 lr true now) report.1 report.2)) =
  [rename_candidate lr].
Proof.
  intros Hmode Hq Hphase Hboot Hpend Hnone report.
  assert (Hdone : report.1 = true).
  { apply operationDriverReport_done, planStaleMasterNames_converged. split; [done|]. split.
    - unfold SentinelMasterName. destruct (lr_Sentinel lr) as [sp|]; [|done].
      by destruct (String.eqb_spec (ssp_MasterName sp) "").
    - intros sn m Hsn Hr Hm. destruct (Hnone sn Hsn) as [?|He]; [congruence|].
      rewrite He in Hm. by apply not_elem_of_nil in Hm. }
  split; [done|]. by rewrite rename_ack, Hdone.
Qed.

End Driver.

(** *** Witnesses *)

(** An instance whose Sentinels serve another deployment's master, 10.9.9.9. *)
Definition captured_sentinel (pod ip : string) : SentinelNodeState :=
  mkSentinelNode pod ip true "10.9.9.9" true [] "" "master" 5 4 [] ProbeOK "".
Definition captured_state : ReplicationState :=
  let ours := {["10.0.0.1"; "10.0.0.2"; "10.0.1.1"; "10.0.1.2"]} in
  mkReplicationState
    {["10.0.0.1" := sample_redis "lr-redis-0" "10.0.0.1" "slave" "10.9.9.9" 7;
      "10.0.0.2" := mkRedisNode "lr-redis-1" "10.0.0.2" "" "" "" 0 0 "" "" false ProbeTimedOut "timeout"]}
    {["10.0.1.1" := captured_sentinel "lr-sentinel-0" "10.0.1.1";
      "10.0.1.2" := captured_sentinel "lr-sentinel-1" "10.0.1.2"]} ours ours "" false false.
Definition captured_ready : gmap string bool := {["lr-redis-0" := true; "lr-redis-1" := false]}.

Definition captured_status (since quarantined : option time) (attempts : Z) : LittleRedStatus :=
  mkLittleRedStatus PhaseInitializing "" false None None since quarantined attempts [] None 1 ∅ (2, 3)
    None None None None None.
Definition captured_lr (since quarantined : option time) (attempts : Z) : LittleRed :=
  mkLittleRed "lr" "uid" "1" true false ModeSentinel 1 ∅ false "" no_tls None None None None None None
    (captured_status since quarantined attempts).
Definition captured_server (lr : LittleRed) : Memory :=
  mkMemory ∅ lr (mkStatefulSet "rev" 3 3 1 1 "rev" 3 3 "" ∅ "" None "") sample_wire (100 * second) ∅ [].
Definition captured_pass (lr : LittleRed) : prog (LittleRed * option (forsakenPlan * operationInput)) :=
  @capture_pass ref_runtime sample_hmac 4 lr captured_state captured_ready false.

Lemma quarantine_spares_data_witness :
  ∃ captor since, captured_by captured_state captor ∧
    ls_ForsakenSince (lr_Status (captured_lr (Some (60 * second)) None 0)) = Some since ∧
    forsakenCooldown ≤ time_sub (100 * second) since ∧
    marked (ls_QuarantinedSince (lr_Status (captured_lr (Some (60 * second)) None 0))) = false ∧
    ∀ ip rn, rs_RedisNodes captured_state !! ip = Some rn → nothing_to_lose captor captured_ready rn.
Proof.
  refine (@quarantine_spares_data ref_runtime (captured_lr (Some (60 * second)) None 0) captured_state
    captured_ready false (100 * second) _). vm_compute. reflexivity.
Defined.

(** The pass that arms it counts an attempt. *)
Lemma capture_pass_lifecycle_witness :
  let lr := captured_lr (Some (60 * second)) None 0 in
  let s' := (mem_run (captured_server lr) (captured_pass lr)).2 in
  markers (lr_Status (mem_lr s')) = (Some (100 * second), 1) ∧
  (markers (lr_Status (mem_lr s')) = markers (lr_Status lr) ∨
   ∃ now s0, @served _ mem_server (captured_server lr) Now now s0 ∧
     marker_step lr now (@capture_plans ref_runtime lr captured_state captured_ready false now).2
       (markers (lr_Status lr)) (markers (lr_Status (mem_lr s')))).
Proof.
  intros lr s'. split; [vm_compute; reflexivity|].
  refine (@capture_pass_lifecycle ref_runtime sample_hmac Memory mem_server 4 lr captured_state
    captured_ready false (captured_server lr) s' (Some (mem_run (captured_server lr) (captured_pass lr)).1) _).
  exact (mem_run_exec (captured_server lr) (captured_pass lr)).
Defined.

Lemma latched_quarantine_holds_witness :
  let lr := captured_lr (Some (60 * second)) (Some (70 * second)) 1 in
  attempt_limit lr = 1 ∧ sentinelDesiredReplicas lr (9000 * second) = (0, 0).
Proof.
  intros lr. split; [reflexivity|].
  refine (proj1 (@latched_quarantine_holds ref_runtime sample_hmac Memory mem_server 4 lr captured_state
    captured_ready false (70 * second) eq_refl eq_refl eq_refl _) (9000 * second)).
  vm_compute. discriminate.
Defined.

Lemma rename_acknowledged_unseen_witness :
  op_Ack (@planOperation ref_runtime (with_driver (buildOperationInput sample_hmac renamed_lr true (100 * second))
    true false)) = [rename_candidate sample_hmac renamed_lr].
Proof.
  exact (proj2 (@rename_acknowledged_unseen ref_runtime sample_hmac renamed_lr NewReplicationState 2 false
    (100 * second) eq_refl eq_refl ltac:(discriminate) eq_refl ltac:(vm_compute; reflexivity)
    ltac:(intros sn Hsn; vm_compute in Hsn; inversion Hsn))).
Defined.
