(* ===== verification/AuthReport.v ===== *)
(** * Reporting refused credentials (src/internal/controller/auth_probe_report.go)

    The rendering of "which pods refuse the operator's credential" and its persistence as
    the condition OperatorCannotAuthenticate. *)

From S2P Require Import Prelude GoStrings Probe ClusterState ReplicationTypes.
From S2P Require Import ReplicationState Recovery Gather Kube.

Open Scope Z_scope.
Open Scope go_scope.

(** ** Definitions *)

Definition reasonCredentialRejected : string := "CredentialRejected".
Definition reasonCredentialAccepted : string := "CredentialAccepted".
Definition reasonRefusedDataUnverified : string := "RefusedDataUnverified".

Record authReport := mkAuthReport {
  ar_Status : ConditionStatus;
  ar_Reason : string;
  ar_Message : string;
  ar_Pods : list string;
}.

Record authFailure := mkAuthFailure {
  af_PodName : string;
  af_Reply : string;
}.

(** The set [replies] of the loops over the refusing pods. *)
Definition reply_set (replies : list string) : gmap string bool :=
  foldl (λ m reply, if reply =? "" then m else <[reply := true]> m) ∅ replies.

Section Report.
Context `{GoRuntime}.

Definition unverifiedPodSummary (nodes : list RedisNodeState) : string :=
  match nodes with
  | [] => "a pod could not be proven empty"
  | _ =>
      let names := rn_PodName <$> nodes in
      let distinct := sort_strings (fst <$> go_range [68] (reply_set (rn_ProbeError <$> nodes))) in
      let s := itoa (len names) +:+ " Redis pod(s) refused the operator's credential (" +:+
               str_join ", " names +:+ ")" in
      if (0 <? len distinct)%Z
      then s +:+ ", server said: " +:+ str_join "; " distinct
      else s
  end.

Definition replicationAuthFailures (s : ReplicationState) : list authFailure :=
  ((λ rn, mkAuthFailure (rn_PodName rn) (rn_ProbeError rn)) <$> AuthFailedRedisNodes s) ++
  ((λ sn, mkAuthFailure (sn_PodName sn) (sn_ProbeError sn)) <$> AuthFailedSentinelNodes s).

Definition clusterAuthFailures (gt : ClusterGroundTruth) : list authFailure :=
  (λ n, mkAuthFailure (cn_PodName n) (cn_ProbeError n)) <$> AuthFailedNodes gt.

Definition planAuthReport (failures : list authFailure) : authReport :=
  let pods := af_PodName <$> failures in
  let replies := reply_set (af_Reply <$> failures) in
  match pods with
  | [] => mkAuthReport ConditionFalse reasonCredentialAccepted
            "No pod is refusing the operator's credential." []
  | _ =>
      let distinct := sort_strings (fst <$> go_range [157] replies) in
      mkAuthReport ConditionTrue reasonCredentialRejected
        ("The operator cannot authenticate to " +:+ itoa (len pods) +:+
         " of this instance's own pods (" +:+ str_join ", " pods +:+ "). " +:+
         "The server said: " +:+ str_join "; " distinct +:+
         ". These pods ANSWERED — a live server is running there — so their " +:+
         "keyspace is unknown, not empty, and the operator is refusing every action that would " +:+
         "discard data (leaderless reseed, ghost-master election, capture quarantine) until the " +:+
         "credential is fixed. Most likely the password in the Secret was changed under a running " +:+
         "instance: editing a Secret rolls no pods, so they keep enforcing the previous password " +:+
         "indefinitely.") pods
  end.

(** The closure given to [retry.RetryOnConflict]; the local object is [lr]. *)
Definition persist_auth (rep : authReport) (lr : LittleRed) : prog (LittleRed * option error) :=
  r ← perform GetLittleRed;
  match r with
  | inr err => mret (lr, Some err)
  | inl latest =>
      let conditions := SetStatusCondition (ls_Conditions (lr_Status latest))
        ConditionOperatorCannotAuthenticate (ar_Status rep) (ar_Reason rep) (ar_Message rep) in
      u ← perform (UpdateStatus (with_Conditions latest conditions));
      match u with
      | inr err => mret (lr, Some err)
      | inl written => mret (with_Conditions lr (ls_Conditions (lr_Status written)), None)
      end
  end.

(** [prev != nil && prev.Status == rep.Status] *)
Definition same_status (prev : option Condition) (rep : authReport) : bool :=
  match prev with
  | Some c => bool_decide (cond_Status c = ar_Status rep)
  | None => false
  end.

(** The two early returns. *)
Definition report_unchanged (prev : option Condition) (rep : authReport) : bool :=
  match prev with
  | Some c => same_status prev rep && (cond_Reason c =? ar_Reason rep)
              && (cond_Message c =? ar_Message rep)
  | None => bool_decide (ar_Status rep = ConditionFalse)
  end.

Definition reportOperatorAuth (retries : nat) (lr : LittleRed) (failures : list authFailure)
  : prog (LittleRed * option error) :=
  let rep := planAuthReport failures in
  let prev := FindStatusCondition (ls_Conditions (lr_Status lr))
                ConditionOperatorCannotAuthenticate in
  if report_unchanged prev rep then mret (lr, None)
  else
    r ← RetryOnConflict retries (persist_auth rep) lr;
    match r with
    | (lr', Some err) => mret (lr', Some err)
    | (lr', None) =>
        if negb (same_status prev rep) && bool_decide (ar_Status rep = ConditionTrue)
        then _ ← perform (Event EventTypeWarning (ar_Reason rep) (ar_Message rep));
             mret (lr', None)
        else mret (lr', None)
    end.

End Report.

(** ** The report *)

Section Theorems.
Context `{GoRuntime}.

Lemma persist_auth_result {Srv} `{ApiServer Srv} rep lr s s' lr' :
  exec s (persist_auth rep lr) s' (Some (lr', None)) →
  FindStatusCondition (ls_Conditions (lr_Status lr')) ConditionOperatorCannotAuthenticate =
  Some (mkCondition (ar_Status rep) (ar_Reason rep) (ar_Message rep)).
Proof.
  intros [[_ ?]|([latest|e] & s1 & _ & Hx)]%exec_call; [done| |];
    [|apply exec_ret in Hx as [_ [?|?]]; simplify_eq].
  apply exec_call in Hx as [[_ ?]|([written|e] & s2 & Hw & Hx)]; [done| |];
    apply exec_ret in Hx as [_ [?|?]]; simplify_eq/=.
  destruct (served_status _ _ _ _ Hw) as (_ & -> & _). apply lookup_insert_eq.
Qed.

(** The report does not churn: once it has been persisted, reporting the same refusals
    again from the updated object makes no call at all, neither a status write nor an
    event, whatever the number of retries. *)
Theorem reportOperatorAuth_settles {Srv} `{ApiServer Srv} (retries : nat) (lr lr' : LittleRed)
  (failures : list authFailure) (s s' : Srv) :
  exec s (reportOperatorAuth retries lr failures) s' (Some (lr', None)) →
  reportOperatorAuth retries lr' failures = mret (lr', None).
Proof.
  unfold reportOperatorAuth at 1. set (rep := planAuthReport failures).
  destruct (report_unchanged _ rep) eqn:Hu.
  { intros [_ [?|?]]%exec_ret; simplify_eq. unfold reportOperatorAuth. fold rep. by rewrite Hu. }
  intros Hx. assert (Hnew : FindStatusCondition (ls_Conditions (lr_Status lr'))
    ConditionOperatorCannotAuthenticate = Some (mkCondition (ar_Status rep) (ar_Reason rep)
    (ar_Message rep))).
  { apply exec_bind in Hx as [[? _]|([lr1 [e|]] & s1 & Hr & Hx)]; [done| |].
    { by apply exec_ret in Hx as [_ [?|?]]. }
    apply exec_RetryOnConflict in Hr as (a & s2 & s3 & Hr). apply persist_auth_result in Hr.
    destruct (negb _ && _).
    - apply exec_call in Hx as [[_ ?]|(x & s4 & _ & Hx)]; [done|].
      apply exec_ret in Hx as [_ [?|?]]; by simplify_eq.
    - apply exec_ret in Hx as [_ [?|?]]; by simplify_eq. }
  unfold reportOperatorAuth. rewrite Hnew. fold rep. unfold report_unchanged, same_status.
  cbn [cond_Status cond_Reason cond_Message].
  by rewrite bool_decide_true, !String.eqb_refl by done.
Qed.

Lemma elem_of_refusing (s : ReplicationState) pod :
  pod ∈ af_PodName <$> replicationAuthFailures s ↔
    (∃ ip n, rs_RedisNodes s !! ip = Some n ∧ UnprovablyEmpty n = true ∧ rn_PodName n = pod) ∨
    (∃ ip n, rs_SentinelNodes s !! ip = Some n ∧ sentinel_auth_failed n = true ∧
             sn_PodName n = pod).
Proof.
  unfold replicationAuthFailures, AuthFailedRedisNodes, AuthFailedSentinelNodes.
  rewrite fmap_app, elem_of_app, <-!list_fmap_compose, !list_elem_of_fmap.
  setoid_rewrite sort_slice_perm. setoid_rewrite elem_of_bfilter.
  setoid_rewrite elem_of_range_values. simpl. split.
  - intros [(n & -> & [ip ?] & ?)|(n & -> & [ip ?] & ?)]; [left|right]; eauto 6.
  - intros [(ip & n & ? & ? & <-)|(ip & n & ? & ? & <-)]; [left|right]; eauto 8.
Qed.

(** The condition is raised exactly when a probed pod refused the credential, and it
    names every refusing pod, Redis and Sentinel alike, and no other. *)
Theorem planAuthReport_spec (s : ReplicationState) :
  let rep := planAuthReport (replicationAuthFailures s) in
  (ar_Status rep = ConditionTrue ↔
     (∃ ip n, rs_RedisNodes s !! ip = Some n ∧ UnprovablyEmpty n = true) ∨
     (∃ ip n, rs_SentinelNodes s !! ip = Some n ∧ sentinel_auth_failed n = true)) ∧
  (ar_Status rep = ConditionFalse ∨ ar_Status rep = ConditionTrue) ∧
  ∀ pod, pod ∈ ar_Pods rep ↔
    (∃ ip n, rs_RedisNodes s !! ip = Some n ∧ UnprovablyEmpty n = true ∧ rn_PodName n = pod) ∨
    (∃ ip n, rs_SentinelNodes s !! ip = Some n ∧ sentinel_auth_failed n = true ∧
             sn_PodName n = pod).
Proof.
  intros rep. assert (Hpods : ∀ pod, pod ∈ ar_Pods rep ↔
    (∃ ip n, rs_RedisNodes s !! ip = Some n ∧ UnprovablyEmpty n = true ∧ rn_PodName n = pod) ∨
    (∃ ip n, rs_SentinelNodes s !! ip = Some n ∧ sentinel_auth_failed n = true ∧
             sn_PodName n = pod)).
  { intros pod. rewrite <-(elem_of_refusing s pod). unfold rep, planAuthReport.
    by destruct (af_PodName <$> replicationAuthFailures s). }
  assert (Hst : (ar_Status rep = ConditionFalse ∧ ar_Pods rep = []) ∨
                (ar_Status rep = ConditionTrue ∧ ∃ pod, pod ∈ ar_Pods rep)).
  { unfold rep, planAuthReport. destruct (af_PodName <$> replicationAuthFailures s) as [|pod l];
      [by left|right]. split; [done|]. exists pod. left. }
  split; [|split; [tauto|done]]. split.
  - intros Ht. destruct Hst as [[? _]|[_ [pod [Hp|Hp]%Hpods]]]; [congruence| |];
      destruct Hp as (ip & n & ? & ? & _); eauto.
  - intros Hr. destruct Hst as [[_ Hnil]|[? _]]; [|done].
    destruct Hr as [(ip & n & ? & ?)|(ip & n & ? & ?)];
      [destruct (Hpods (rn_PodName n)) as [_ Hin]|destruct (Hpods (sn_PodName n)) as [_ Hin]];
      rewrite Hnil in Hin; exfalso; eapply not_elem_of_nil, Hin; eauto 6.
Qed.

End Theorems.

(** *** Witness *)

Definition sample_status : LittleRedStatus :=
  mkLittleRedStatus PhaseRunning "Ready" false None None None None 0 [] None 1 ∅ (3, 3)
    None None None None None.
Definition sample_lr : LittleRed :=
  mkLittleRed "lr" "uid" "1" true false "failover" 1 ∅ false "" no_tls None None None None None None sample_status.
Definition sample_sts (ready want : Z) : StatefulSet :=
  mkStatefulSet "rev" ready want 1 1 "rev" want want "" ∅ "" None "".
Definition sample_memory : Memory :=
  mkMemory ∅ sample_lr (sample_sts 3 3) sample_wire 0 ∅ [].
Definition sample_failures : list authFailure :=
  [mkAuthFailure "lr-redis-1" "NOAUTH Authentication required."].

Lemma reportOperatorAuth_settles_witness :
  let lr' := (mem_run sample_memory
                (@reportOperatorAuth ref_runtime 4 sample_lr sample_failures)).1.1 in
  lr' ≠ sample_lr ∧
  @reportOperatorAuth ref_runtime 4 lr' sample_failures = mret (lr', None).
Proof.
  intros lr'. split.
  { intros E. apply (f_equal (λ l, map_size (ls_Conditions (lr_Status l)))) in E.
    vm_compute in E. discriminate E. }
  set (p := @reportOperatorAuth ref_runtime 4 sample_lr sample_failures).
  refine (@reportOperatorAuth_settles ref_runtime Memory mem_server 4 sample_lr lr'
    sample_failures sample_memory (mem_run sample_memory p).2 _).
  assert (Hr : (mem_run sample_memory p).1 = (lr', None)).
  { rewrite (surjective_pairing (mem_run sample_memory p).1).
    by assert ((mem_run sample_memory p).1.2 = None) as -> by (vm_compute; reflexivity). }
  rewrite <-Hr. apply mem_run_exec.
Defined.
