(* ===== verification/ReshardDance.v ===== *)
(** * Moving a slot range without losing keys
    (src/internal/redis/cluster_migrate.go, src/internal/controller/cluster_reshard.go)

    The slot-migration commands of the cluster client and the handlers that carry a planned
    move out: natively on Redis 8.4 and later, otherwise by marking the slots, migrating the
    keys in batches and flipping the ownership once the range is drained.  What the handlers
    rely on in Redis is the class [RedisCluster], the effects of the commands, and
    [RedisClients], what clients can do between them. *)

From S2P Require Import Prelude GoStrings Slots Probe ClusterNodes ClusterState Topology Reshard.
From S2P Require Import Info Gather Kube AuthReport.

Open Scope Z_scope.
Open Scope go_scope.

(** ** Definitions *)

(** *** The client *)

Definition slots_text (verb : string) (slots : list Z) : string :=
  verb +:+ " (" +:+ itoa (Z.of_nat (length slots)) +:+ " slots)".

(** [if err != nil { return fmt.Errorf("<prefix>: %w", err) }; return nil] *)
Definition errorf_opt (prefix : string) (e : option error) : option error :=
  match e with Some err => Some (errorf prefix err) | None => None end.

Definition setSlotsPipelined (addr : string) (slots : list Z) (extra : slot_state)
  : prog (option error) :=
  if (length slots =? 0)%nat then mret None else perform (ClusterDo addr (SetSlots slots extra)).

Definition ClusterSetSlotsImporting (addr : string) (slots : list Z) (sourceID : string)
  : prog (option error) :=
  e ← setSlotsPipelined addr slots (Importing sourceID);
  mret (errorf_opt (slots_text "SETSLOT IMPORTING" slots) e).

Definition ClusterSetSlotsMigrating (addr : string) (slots : list Z) (destID : string)
  : prog (option error) :=
  e ← setSlotsPipelined addr slots (Migrating destID);
  mret (errorf_opt (slots_text "SETSLOT MIGRATING" slots) e).

Definition ClusterSetSlotsNode (addr : string) (slots : list Z) (ownerID : string)
  : prog (option error) :=
  e ← setSlotsPipelined addr slots (Node ownerID);
  mret (errorf_opt (slots_text "SETSLOT NODE" slots) e).

(** [out[s] = int(cmds[i].Val())] for every slot. *)
Definition ClusterCountKeysInSlots (addr : string) (slots : list Z) : prog (gmap Z Z + error) :=
  if (length slots =? 0)%nat then mret (inl ∅)
  else
    r ← perform (ClusterDo addr (CountKeysInSlots slots));
    mret match r with
         | inr err => inr (errorf (slots_text "COUNTKEYSINSLOT" slots) err)
         | inl vals => inl (foldl (λ out s, <[s := default 0 (vals !! s)]> out) ∅ slots)
         end.

Definition ClusterGetKeysInSlot (addr : string) (slot count : Z) : prog (list string + error) :=
  r ← perform (ClusterDo addr (GetKeysInSlot slot count));
  mret match r with
       | inr err => inr (errorf ("GETKEYSINSLOT " +:+ itoa slot) err)
       | inl keys => inl keys
       end.

Definition MigrateKeys (password addr destHost : string) (destPort timeoutMS : Z)
  (keys : list string) : prog (option error) :=
  if (length keys =? 0)%nat then mret None
  else
    e ← perform (ClusterDo addr (Migrate password destHost destPort timeoutMS keys));
    mret (errorf_opt ("MIGRATE " +:+ itoa (Z.of_nat (length keys)) +:+ " key(s) to " +:+ destHost
                      +:+ ":" +:+ itoa destPort) e).

Record MigrationTask := mkMigrationTask {
  mt_ID : string;
  mt_State : string;
  mt_LastError : string;
}.

(** The verb [%v]: composite values are printed in the order they are listed. *)
Fixpoint print_value (r : reply) : string :=
  match r with
  | RString s => s
  | RInt z => itoa z
  | RNil => "<nil>"
  | RArray l =>
      "[" +:+ str_join " " ((fix go l := match l with [] => [] | x :: l' => print_value x :: go l' end) l)
      +:+ "]"
  | RMap l =>
      "map[" +:+ str_join " " ((fix go l := match l with
                                | [] => []
                                | (k, v) :: l' => (print_value k +:+ ":" +:+ print_value v) :: go l'
                                end) l) +:+ "]"
  end.

Definition toString (r : reply) : string :=
  match r with RNil => "" | _ => print_value r end.

Fixpoint flatten_array (out : gmap string string) (l : list reply) : gmap string string :=
  match l with
  | k :: v :: rest => flatten_array (<[toString k := toString v]> out) rest
  | _ => out
  end.

Definition flattenToStringMap (v : reply) : gmap string string :=
  match v with
  | RArray l => flatten_array ∅ l
  | RMap l => foldl (λ out '(k, v), <[toString k := toString v]> out) ∅ l
  | _ => ∅
  end.

Definition parseMigrationTasks (r : reply) : list MigrationTask :=
  match r with
  | RArray items =>
      omap (λ it, let fields := flattenToStringMap it in
                  if (size fields =? 0)%nat then None
                  else Some (mkMigrationTask (at_key fields "id") (at_key fields "state")
                               (at_key fields "last_error"))) items
  | _ => []
  end.

Definition migrationTerminal (state : string) : bool :=
  let s := to_lower (trim_space state) in
  (s =? "completed") || (s =? "cancelled") || (s =? "canceled") || (s =? "failed") || (s =? "").

Definition ClusterMigrationStatusAll (addr : string) : prog (list MigrationTask + error) :=
  r ← perform (ClusterDo addr MigrationStatusAll);
  mret match r with
       | inr err => inr (errorf "CLUSTER MIGRATION STATUS ALL" err)
       | inl reply => inl (parseMigrationTasks reply)
       end.

Definition ClusterMigrationInFlight (addr : string) : prog (bool + error) :=
  r ← ClusterMigrationStatusAll addr;
  mret match r with
       | inr err => inr err
       | inl tasks => inl (existsb (λ t, negb (migrationTerminal (mt_State t))) tasks)
       end.

Definition ClusterMigrationImport (destAddr : string) (ranges : list (Z * Z))
  : prog (string + error) :=
  r ← perform (ClusterDo destAddr (MigrationImport ranges));
  mret match r with
       | inr err => inr (errorf "CLUSTER MIGRATION IMPORT" err)
       | inl id => inl id
       end.

(** *** The handlers *)

Definition node_addr (n : ClusterNodeState) : string := address (cn_PodIP n) RedisPort.

(** [moved] after the loop, an early return, or a loop cut short by the fuel of the model. *)
Inductive drain_result := Drained (moved : Z) | DrainFailed | OutOfFuel.

(** The limits of one pass, with the defaults of unset fields. *)
Definition reshard_batch (cls : ClusterSpec) : Z :=
  if (cls_ReshardKeyBatchSize cls <=? 0)%Z then 128 else cls_ReshardKeyBatchSize cls.
Definition reshard_maxKeys (cls : ClusterSpec) : Z :=
  if (cls_ReshardMaxKeysPerReconcile cls <=? 0)%Z then 2000 else cls_ReshardMaxKeysPerReconcile cls.
Definition reshard_migTimeout (cls : ClusterSpec) : Z :=
  if (cls_ReshardMigrateTimeoutMillis cls <=? 0)%Z then 5000
  else cls_ReshardMigrateTimeoutMillis cls.

(** The slots [move.Start] to [move.End]. *)
Definition move_slots (mv : ReshardMove) : list Z := seqZ (mv_Start mv) (mv_End mv - mv_Start mv + 1).

Section dance.
Context `{GoRuntime} (password : string) (cls : ClusterSpec) (mv : ReshardMove).

Definition srcAddr : string := node_addr (mv_Source mv).
Definition destAddr : string := node_addr (mv_Dest mv).

(** [for moved < maxKeys]: every round moves at least one key. *)
Fixpoint drain_slot (fuel : nat) (slot moved : Z) : prog drain_result :=
  if (moved <? reshard_maxKeys cls)%Z then
    match fuel with
    | O => mret OutOfFuel
    | S fuel' =>
        r ← ClusterGetKeysInSlot srcAddr slot (reshard_batch cls);
        match r with
        | inr _ => mret DrainFailed
        | inl keys =>
            if (length keys =? 0)%nat then mret (Drained moved)
            else
              e ← MigrateKeys password srcAddr (cn_PodIP (mv_Dest mv)) RedisPort
                    (reshard_migTimeout cls) keys;
              match e with
              | Some _ => mret DrainFailed
              | None => drain_slot fuel' slot (moved + Z.of_nat (length keys))
              end
        end
    end
  else mret (Drained moved).

Fixpoint drain_slots (toDrain : list Z) (moved : Z) : prog drain_result :=
  match toDrain with
  | [] => mret (Drained moved)
  | slot :: rest =>
      r ← drain_slot (Z.to_nat (reshard_maxKeys cls)) slot moved;
      match r with
      | Drained moved' =>
          if (reshard_maxKeys cls <=? moved')%Z then mret (Drained moved')
          else drain_slots rest moved'
      | _ => mret r
      end
  end.

Definition reachableMasterAddrs (gt : ClusterGroundTruth) : list string :=
  node_addr <$> bfilter (λ n, cn_Reachable n && is_master n) (range_values [257; -3] (gt_Nodes gt)).

(** The broadcast of the flip; [true] if every node accepted it. *)
Fixpoint flip_all (slots : list Z) (ownerID : string) (addrs : list string) : prog bool :=
  match addrs with
  | [] => mret true
  | addr :: rest =>
      e ← ClusterSetSlotsNode addr slots ownerID;
      match e with Some _ => mret false | None => flip_all slots ownerID rest end
  end.

(** The results [(done, res)]; [fast] is the fast requeue interval. *)
Definition reshardViaDance (fast : duration) (gt : ClusterGroundTruth) : prog (bool * ctrl_result) :=
  let slots := move_slots mv in
  e1 ← ClusterSetSlotsImporting destAddr slots (cn_NodeID (mv_Source mv));
  match e1 with
  | Some _ => mret (false, requeue_after fast)
  | None =>
  e2 ← ClusterSetSlotsMigrating srcAddr slots (cn_NodeID (mv_Dest mv));
  match e2 with
  | Some _ => mret (false, requeue_after fast)
  | None =>
  r ← ClusterCountKeysInSlots srcAddr slots;
  match r with
  | inr _ => mret (false, requeue_after fast)
  | inl counts =>
      let toDrain := SlotsNeedingDrain counts in
      if (length toDrain =? 0)%nat
      then
        flipped ← flip_all slots (cn_NodeID (mv_Dest mv)) (reachableMasterAddrs gt);
        mret (flipped, requeue_after fast)
      else
        _ ← drain_slots toDrain 0;
        mret (false, requeue_after fast)
  end
  end
  end.

(** The results [(done, res)]; the error of the signature is always nil. *)
Definition moveSlotRange (fast : duration) (gt : ClusterGroundTruth) : prog (bool * ctrl_result) :=
  if negb (gt_AtomicSlotMigration gt) then reshardViaDance fast gt
  else
    q ← ClusterMigrationInFlight destAddr;
    match q with
    | inr _ => mret (false, requeue_after fast)
    | inl true => mret (false, requeue_after fast)
    | inl false =>
        _ ← ClusterMigrationImport destAddr [(mv_Start mv, mv_End mv)];
        mret (false, requeue_after fast)
    end.
End dance.

(** The results [(res, acted)]. *)
Definition reshardConsolidated `{GoRuntime} (password : string) (cls : ClusterSpec)
  (fast : duration) (gt : ClusterGroundTruth) : outcome (prog (ctrl_result * bool)) :=
  plan ← PlanReshard gt (cls_Shards cls);
  Ok match rp_Moves plan with
     | [] => mret (no_requeue, false)
     | move :: _ =>
         r ← moveSlotRange password cls move fast gt;
         mret (r.2, true)
     end.

(** ** What Redis promises

    The documented effects of the commands on the keys stored at each address: the marks and
    the reads change nothing, a count is exact, a listing returns keys of the slot, as many
    as asked for or all of them, and MIGRATE moves each key atomically, so that a key that
    has left the source is at the destination with its value, whether or not the command as
    a whole succeeded. *)

Section promises.
Context (slot_of : string → Z).

Definition in_slots (slots : list Z) (m : gmap string string) : gmap string string :=
  filter (λ '(k, _), slot_of k ∈ slots) m.

Definition keeps_data (c : call) : Prop :=
  match c with
  | ClusterDo _ (SetSlots _ _ | CountKeysInSlots _ | GetKeysInSlot _ _) => True
  | ClusterDo _ _ => False
  | _ => True
  end.
End promises.

Class RedisCluster (Srv : Type) {api : ApiServer Srv} := {
  slot_of : string → Z;
  data : Srv → string → gmap string string;
  data_kept s c x s' a : served s c x s' → keeps_data c → data s' a = data s a;
  counted s a slots m s' slot :
    served s (ClusterDo a (CountKeysInSlots slots)) (inl m) s' → slot ∈ slots →
    m !! slot = Some (Z.of_nat (size (in_slots slot_of [slot] (data s a))));
  listed s a slot n keys s' :
    served s (ClusterDo a (GetKeysInSlot slot n)) (inl keys) s' → 0 ≤ n →
    NoDup keys ∧ (∀ k, k ∈ keys → slot_of k = slot ∧ is_Some (data s a !! k)) ∧
    length keys = Nat.min (Z.to_nat n) (size (in_slots slot_of [slot] (data s a)));
  migrated s a pw host port t keys e s' k :
    served s (ClusterDo a (Migrate pw host port t keys)) e s' → a ≠ address host port →
    let b := address host port in
    (data s' a !! k = data s a !! k ∧
       (data s' b !! k = data s b !! k ∨
        k ∈ keys ∧ is_Some (data s a !! k) ∧ data s' b !! k = data s a !! k)) ∨
    (k ∈ keys ∧ is_Some (data s a !! k) ∧ data s' a !! k = None ∧ data s' b !! k = data s a !! k);
  migrated_all s a pw host port t keys s' k :
    served s (ClusterDo a (Migrate pw host port t keys)) None s' → a ≠ address host port →
    k ∈ keys → data s' a !! k = None;
  migrated_only s a pw host port t keys e s' a' :
    served s (ClusterDo a (Migrate pw host port t keys)) e s' →
    a' ≠ a → a' ≠ address host port → data s' a' = data s a';
}.

(** No command fails and no request is lost. *)
Definition reliable (Srv : Type) {api : ApiServer Srv} : Prop :=
  ∀ (s : Srv) addr cmd x s', served s (ClusterDo addr cmd) x s' →
    match cmd return cluster_answer cmd → Prop with
    | CountKeysInSlots _ | GetKeysInSlot _ _ | MigrationImport _ | MigrationStatusAll =>
        λ x, ∃ a, x = inl a
    | _ => λ x, x = None
    end x.

(** *** Clients

    Between any two commands of the operator clients may read, write and delete keys, and
    keys may expire: one such event is a step of [clients].  A node [refuses] a slot if it
    creates no keys of it: a slot marked MIGRATING is served for the keys the node still has
    and answered with ASK for any other, and a slot of another owner is answered with MOVED.
    The mark ends only when the slot is given to the node itself.  Nodes do not restart:
    that would lose their keys, since they run without persistence. *)

(** The commands of the dance, which leave the refusals of a node with identity [id] alone. *)
Definition keeps_refusal (id a : string) (c : call) : Prop :=
  match c with
  | ClusterDo a' (SetSlots _ (Node owner)) => a' = a → owner ≠ id
  | ClusterDo _ (SetSlots _ _ | CountKeysInSlots _ | GetKeysInSlot _ _ | Migrate _ _ _ _ _) => True
  | _ => False
  end.

Class RedisClients (Srv : Type) {api : ApiServer Srv} {nodes : RedisCluster Srv} := {
  clients : Srv → Srv → Prop;
  myid : string → string;
  refuses : Srv → string → Z → Prop;
  refuses_marked s a slots id s' slot :
    served s (ClusterDo a (SetSlots slots (Migrating id))) None s' → slot ∈ slots → refuses s' a slot;
  refuses_kept s c x s' a slot :
    served s c x s' → keeps_refusal (myid a) a c → refuses s a slot → refuses s' a slot;
  refuses_clients s s' a slot : clients s s' → refuses s a slot → refuses s' a slot;
  created s s' a k :
    clients s s' → refuses s a (slot_of k) → data s a !! k = None → data s' a !! k = None;
}.

(** The handler runs among clients: whatever they do and whatever is answered, every call [c]
    made in a state [s] after the history [tr] satisfies [P tr s c], and every result
    satisfies [Q]. *)
Fixpoint attended `{RedisClients Srv} {A} (P : trace → Srv → call → Prop) (Q : trace → Srv → A → Prop)
  (tr : trace) (s : Srv) (p : prog A) : Prop :=
  match p with
  | Ret a => Q tr s a
  | Call c k =>
      ∀ s1, rtc clients s s1 →
        P tr s1 c ∧ ∀ x s2, served s1 c x s2 → attended P Q (tr ++ [existT c x]) s2 (k x)
  end.

Section attended_lemmas.
Context `{RedisClients Srv}.

Lemma attended_ret {A} P (Q : trace → Srv → A → Prop) tr s a : Q tr s a → attended P Q tr s (mret a).
Proof. done. Qed.

Lemma attended_bind {A B} P (R : trace → Srv → A → Prop) (Q : trace → Srv → B → Prop) p (f : A → prog B) : ∀ tr s,
  attended P R tr s p → (∀ tr' s' a, R tr' s' a → attended P Q tr' s' (f a)) → attended P Q tr s (p ≫= f).
Proof.
  induction p as [a|c k IH]; intros tr s Hp Hf; [by apply Hf|]. intros s1 Hs1.
  destruct (Hp s1 Hs1) as [Hc Hk]. split; [done|]. intros x s2 Hs2. apply IH; [by apply Hk|done].
Qed.

Lemma attended_mono {A} (P P' : trace → Srv → call → Prop) (Q Q' : trace → Srv → A → Prop) p : ∀ tr s,
  (∀ tr s c, P tr s c → P' tr s c) → (∀ tr s a, Q tr s a → Q' tr s a) →
  attended P Q tr s p → attended P' Q' tr s p.
Proof.
  induction p as [a|c k IH]; intros tr s HP HQ; [apply HQ|]. intros Hp s1 Hs1.
  destruct (Hp s1 Hs1) as [Hc Hk]. split; [by apply HP|]. intros x s2 Hs2. by apply IH, Hk.
Qed.

(** What holds of the histories of a handler holds among clients. *)
Lemma attended_traced {A} P P' (Q : trace → A → Prop) (Q' : trace → Srv → A → Prop) p : ∀ tr s,
  traced P Q tr p → attended P' Q' tr s p →
  attended (λ tr s c, P tr c ∧ P' tr s c) (λ tr s a, Q tr a ∧ Q' tr s a) tr s p.
Proof.
  induction p as [a|c k IH]; intros tr s Ht Hp; [done|]. intros s1 Hs1. destruct Ht as [Hc Hk].
  destruct (Hp s1 Hs1) as [Hc' Hk']. split; [done|]. intros x s2 Hs2. apply IH; [apply Hk|by apply Hk'].
Qed.

(** A run without clients. *)
Lemma attended_exec {A} P (Q : trace → Srv → A → Prop) p : ∀ tr s s' a,
  attended P Q tr s p → exec s p s' (Some a) → ∃ tr', Q tr' s' a.
Proof.
  induction p as [b|c k IH]; intros tr s s' a Hp Hx.
  { simpl in Hx. destruct Hx as [[_ ?]|[-> ?]]; [done|]. simplify_eq. by exists tr. }
  destruct Hx as [[_ ?]|(x & s1 & Hs & Hx)]; [done|]. destruct (Hp s (rtc_refl _ _)) as [_ Hk].
  by eapply IH; [apply (Hk x)|].
Qed.
End attended_lemmas.

(** ** The counts *)

Lemma elem_of_SlotsNeedingDrain `{GoRuntime} (counts : gmap Z Z) slot :
  slot ∈ SlotsNeedingDrain counts ↔ ∃ n, counts !! slot = Some n ∧ 0 < n.
Proof.
  unfold SlotsNeedingDrain. rewrite sort_ints_perm, list_elem_of_fmap. split.
  - intros ([k n] & -> & [Hin Hn]%elem_of_bfilter). exists n. apply Z.ltb_lt in Hn. split; [|done].
    rewrite go_range_perm in Hin. by apply elem_of_map_to_list in Hin.
  - intros (n & Hn & Hpos). exists (slot, n). split; [done|]. apply elem_of_bfilter.
    rewrite go_range_perm, elem_of_map_to_list. split; [done|]. by apply Z.ltb_lt.
Qed.

Lemma lookup_counts (f : Z → Z) slots : ∀ (m : gmap Z Z) k,
  foldl (λ out s, <[s := f s]> out) m slots !! k = if decide (k ∈ slots) then Some (f k) else m !! k.
Proof.
  induction slots as [|s slots IH]; intros m k; cbn [foldl].
  { by rewrite decide_False by apply not_elem_of_nil. }
  rewrite IH. destruct (decide (k ∈ slots)) as [Hk|Hk].
  - by rewrite decide_True by (by right).
  - destruct (decide (k = s)) as [->|Hne].
    + by rewrite lookup_insert_eq, decide_True by left.
    + rewrite lookup_insert_ne by done. rewrite decide_False; [done|].
      intros [->|?]%elem_of_cons; done.
Qed.

(** ** The order of the commands *)

Section order.
Context `{GoRuntime} (password : string) (cls : ClusterSpec) (mv : ReshardMove) (gt : ClusterGroundTruth).

Definition src : string := srcAddr mv.
Definition dst : string := destAddr mv.
Abbreviation srcID := (cn_NodeID (mv_Source mv)).
Abbreviation destID := (cn_NodeID (mv_Dest mv)).

(** An empty range needs no mark. *)
Definition marked (tr : trace) (addr : string) (st : slot_state) : Prop :=
  move_slots mv = [] ∨ answered tr (ClusterDo addr (SetSlots (move_slots mv) st)) None.

Definition both_marked (tr : trace) : Prop :=
  marked tr dst (Importing srcID) ∧ marked tr src (Migrating destID).

(** The source was read without a key in the range. *)
Definition counted_empty (tr : trace) : Prop :=
  move_slots mv = [] ∨
  ∃ counts, answered tr (ClusterDo src (CountKeysInSlots (move_slots mv))) (inl counts) ∧
    ∀ slot, slot ∈ move_slots mv → default 0 (counts !! slot) ≤ 0.

(** The commands of one pass and what this pass must have been told before. *)
Definition dance_command (tr : trace) (addr : string) (cmd : cluster_command) : Prop :=
  match cmd with
  | SetSlots slots (Importing id) => addr = dst ∧ slots = move_slots mv ∧ id = srcID
  | SetSlots slots (Migrating id) =>
      addr = src ∧ slots = move_slots mv ∧ id = destID ∧ marked tr dst (Importing srcID)
  | SetSlots slots (Node id) =>
      addr ∈ reachableMasterAddrs gt ∧ slots = move_slots mv ∧ id = destID ∧ both_marked tr ∧ counted_empty tr
  | CountKeysInSlots slots => addr = src ∧ slots = move_slots mv ∧ both_marked tr
  | GetKeysInSlot slot n => addr = src ∧ slot ∈ move_slots mv ∧ both_marked tr
  | Migrate pw host port _ keys =>
      addr = src ∧ pw = password ∧ host = cn_PodIP (mv_Dest mv) ∧ port = RedisPort ∧ both_marked tr ∧
      ∃ slot n, slot ∈ move_slots mv ∧ answered tr (ClusterDo src (GetKeysInSlot slot n)) (inl keys)
  | _ => False
  end.

Definition dance_ordered (tr : trace) (c : call) : Prop :=
  match c with ClusterDo addr cmd => dance_command tr addr cmd | _ => False end.

Lemma marked_mono tr tr' addr st : tr ⊆ tr' → marked tr addr st → marked tr' addr st.
Proof. intros Hs [?|Ha]; [by left|right]. by apply Hs. Qed.

Lemma both_marked_mono tr tr' : tr ⊆ tr' → both_marked tr → both_marked tr'.
Proof. intros Hs [H1 H2]. by split; eapply marked_mono. Qed.

Lemma counted_empty_mono tr tr' : tr ⊆ tr' → counted_empty tr → counted_empty tr'.
Proof. intros Hs [?|(c & Ha & Hc)]; [by left|right]. exists c. split; [by apply Hs|done]. Qed.

Lemma errorf_opt_None p e : errorf_opt p e = None ↔ e = None.
Proof. by destruct e. Qed.

Lemma setSlots_ordered tr addr st prefix :
  dance_command tr addr (SetSlots (move_slots mv) st) →
  traced dance_ordered (λ tr' e, e = None → marked tr' addr st) tr
    (e ← setSlotsPipelined addr (move_slots mv) st; mret (errorf_opt prefix e)).
Proof.
  intros Hc. unfold setSlotsPipelined. destruct (Nat.eqb_spec (length (move_slots mv)) 0) as [E|E].
  { apply length_zero_iff_nil in E. by left. }
  apply traced_call; [done|]. intros x. apply traced_ret. intros ->%errorf_opt_None. right. apply just_answered.
Qed.

Lemma flip_all_ordered addrs : ∀ tr,
  addrs ⊆ reachableMasterAddrs gt → both_marked tr → counted_empty tr →
  traced dance_ordered (λ tr' b, b = true → ∀ a, a ∈ addrs → marked tr' a (Node destID)) tr
    (flip_all (move_slots mv) destID addrs).
Proof.
  induction addrs as [|a addrs IH]; intros tr Ha Hm Hc; cbn [flip_all].
  { intros _ a Hin. by apply elem_of_nil in Hin. }
  eapply traced_bind; [apply setSlots_ordered; split; [apply Ha; left|done]|]. intros tr1 [e|] Hs1 Hr; [done|].
  eapply traced_mono; [done| |apply traced_grows, IH; [intros z Hz; apply Ha; by right|by eapply both_marked_mono|by eapply counted_empty_mono]].
  intros tr2 b [Hs2 Hb] Ht a' [->|Ha']%elem_of_cons; [|by apply Hb]. eapply marked_mono; [done|by apply Hr].
Qed.

Lemma drain_slot_ordered slot fuel : ∀ tr moved,
  both_marked tr → slot ∈ move_slots mv →
  traced dance_ordered (λ tr' _, both_marked tr') tr (drain_slot password cls mv fuel slot moved).
Proof.
  induction fuel as [|fuel IH]; intros tr moved Hm Hs; cbn [drain_slot]; (destruct (_ <? _)%Z; [|done]); [done|].
  apply traced_call; [done|]. intros [keys|e]; cbn.
  2: { eapply both_marked_mono; [apply grown|done]. }
  assert (Hm1 := both_marked_mono _ _ (grown tr (ClusterDo src (GetKeysInSlot slot (reshard_batch cls))) (inl keys)) Hm).
  destruct (length keys =? 0)%nat eqn:Hk; [done|]. unfold MigrateKeys. rewrite Hk.
  apply traced_call.
  { split; [done|]. split; [done|]. split; [done|]. split; [done|]. split; [done|]. exists slot, (reshard_batch cls).
    split; [done|]. apply just_answered. }
  intros [e|]; cbn; [eapply both_marked_mono; [apply grown|done]|]. apply IH; [|done].
  eapply both_marked_mono; [apply grown|done].
Qed.

Lemma drain_slots_ordered toDrain : ∀ tr moved,
  both_marked tr → toDrain ⊆ move_slots mv →
  traced dance_ordered (λ tr' _, both_marked tr') tr (drain_slots password cls mv toDrain moved).
Proof.
  induction toDrain as [|slot rest IH]; intros tr moved Hm Hin; cbn [drain_slots]; [done|].
  eapply traced_bind; [apply drain_slot_ordered; [done|apply Hin; left]|]. intros tr1 r _ Hm1.
  destruct r; [|done|done]. destruct (_ <=? _)%Z; [done|]. apply IH; [done|]. intros z Hz. apply Hin. by right.
Qed.

(** The pass in order; if it reports the move done, every reachable master has acknowledged
    the new owner. *)
Lemma reshardViaDance_ordered tr fast :
  traced dance_ordered
    (λ tr' r, r.1 = true → counted_empty tr' ∧
       ∀ a, a ∈ reachableMasterAddrs gt → marked tr' a (Node destID)) tr
    (reshardViaDance password cls mv fast gt).
Proof.
  unfold reshardViaDance. cbv zeta.
  eapply traced_bind; [by apply setSlots_ordered|]. intros tr1 [e|] _ H1; [done|]. specialize (H1 eq_refl).
  eapply traced_bind; [by apply setSlots_ordered|]. intros tr2 [e|] Hs2 H2; [done|]. specialize (H2 eq_refl).
  assert (Hm : both_marked tr2) by (split; [by eapply marked_mono|done]).
  eapply (traced_bind _ (λ tr' r, both_marked tr' ∧
    match r with inl counts => SlotsNeedingDrain counts ⊆ move_slots mv ∧ (SlotsNeedingDrain counts = [] → counted_empty tr')
               | inr _ => True end)).
  { unfold ClusterCountKeysInSlots. destruct (Nat.eqb_spec (length (move_slots mv)) 0) as [E|E].
    { apply length_zero_iff_nil in E. split; [done|]. split; [|by left].
      intros slot (n & Hn & _)%elem_of_SlotsNeedingDrain. by rewrite lookup_empty in Hn. }
    apply traced_call; [done|]. intros x. apply traced_ret.
    split; [eapply both_marked_mono; [apply grown|done]|]. destruct x as [vals|e]; [|done]. split.
    - intros slot (n & Hn & _)%elem_of_SlotsNeedingDrain. rewrite lookup_counts, lookup_empty in Hn. by destruct (decide _).
    - intros Hnil. right. exists vals. split; [apply just_answered|]. intros slot Hslot.
      destruct (Z.le_gt_cases (default 0 (vals !! slot)) 0) as [|Hgt]; [done|exfalso].
      apply (not_elem_of_nil slot). rewrite <-Hnil. apply elem_of_SlotsNeedingDrain.
      eexists. split; [rewrite lookup_counts, decide_True by done; reflexivity|lia]. }
  intros tr3 [counts|e] _ [Hm3 Hc]; [|done]. destruct Hc as [Hsub Hempty].
  destruct (Nat.eqb_spec (length (SlotsNeedingDrain counts)) 0) as [E|E].
  - apply length_zero_iff_nil in E. eapply traced_bind; [apply traced_grows, flip_all_ordered; [done|done|by apply Hempty]|].
    intros tr4 b _ [Hs4 Hb]. apply traced_ret. cbn [fst]. intros Ht.
    split; [eapply counted_empty_mono; [done|by apply Hempty]|by apply Hb].
  - eapply traced_bind; [by apply drain_slots_ordered|]. by intros.
Qed.
End order.

(** ** The keys *)

Section keys.
Context `{RedisCluster Srv} (mv : ReshardMove).

Definition in_range (m : gmap string string) : gmap string string :=
  in_slots slot_of (move_slots mv) m.
(** The keys of the range that are still at the source. *)
Definition held (s : Srv) : gset string := dom (in_range (data s (src mv))).
Definition remaining (s : Srv) : nat := size (in_range (data s (src mv))).

(** No key is lost or changed: what source and destination hold together is the same, and no
    other node is touched. *)
Definition preserved (s0 s : Srv) : Prop :=
  data s (src mv) ∪ data s (dst mv) = data s0 (src mv) ∪ data s0 (dst mv) ∧
  ∀ a, a ≠ src mv → a ≠ dst mv → data s a = data s0 a.

(** The source holds no key of the range. *)
Definition drained (s : Srv) : Prop := in_range (data s (src mv)) = ∅.

Lemma elem_of_held s k : k ∈ held s ↔ is_Some (data s (src mv) !! k) ∧ slot_of k ∈ move_slots mv.
Proof.
  unfold held, in_range, in_slots. rewrite elem_of_dom. split.
  - intros [v [Hv Hk]%map_lookup_filter_Some]. by split; [exists v|].
  - intros [[v Hv] Hk]. exists v. by apply map_lookup_filter_Some.
Qed.

Lemma remaining_held s : remaining s = size (held s).
Proof. unfold remaining, held. by rewrite size_dom. Qed.

Lemma drained_held s : drained s ↔ held s = ∅.
Proof. unfold drained, held. by rewrite dom_empty_iff_L. Qed.

Lemma preserved_kept s c x s' : served s c x s' → keeps_data c → preserved s s'.
Proof.
  intros Hs Hk. split; [by rewrite !(data_kept _ _ _ _ _ Hs Hk)|].
  intros a _ _. by apply (data_kept _ _ _ _ _ Hs Hk).
Qed.

Lemma held_kept s c x s' : served s c x s' → keeps_data c → held s' = held s.
Proof. intros Hs Hk. unfold held. by rewrite (data_kept _ _ _ _ _ Hs Hk). Qed.

(** *** MIGRATE *)

Section migrate.
Context (password : string) (s s' : Srv) (t : Z) (keys : list string) (e : option error).
Hypothesis apart : src mv ≠ dst mv.
Hypothesis served_migrate :
  served s (ClusterDo (src mv) (Migrate password (cn_PodIP (mv_Dest mv)) RedisPort t keys)) e s'.

Lemma migrate_preserved : preserved s s'.
Proof.
  split.
  - apply map_eq. intros k. rewrite !lookup_union.
    destruct (migrated _ _ _ _ _ _ _ _ _ k served_migrate apart) as [[Ha [Hb|(_ & [v Hv] & Hb)]]|(_ & [v Hv] & Ha & Hb)];
      change (address (cn_PodIP (mv_Dest mv)) RedisPort) with (dst mv) in *; rewrite Ha, Hb, ?Hv; [done| |].
    + by destruct (data s (dst mv) !! k).
    + by destruct (data s (dst mv) !! k).
  - intros a Ha Hb. by apply (migrated_only _ _ _ _ _ _ _ _ _ _ served_migrate).
Qed.

Lemma migrate_shrinks : held s' ⊆ held s.
Proof.
  intros k. rewrite !elem_of_held. intros [Hv Hk]. split; [|done].
  destruct (migrated _ _ _ _ _ _ _ _ _ k served_migrate apart) as [[Ha _]|(_ & _ & Ha & _)]; rewrite Ha in Hv; [done|].
  by destruct Hv.
Qed.

Lemma migrate_takes : e = None → held s' ## list_to_set keys.
Proof.
  intros -> k [[v Hv] _]%elem_of_held Hk%elem_of_list_to_set.
  by rewrite (migrated_all _ _ _ _ _ _ _ _ _ served_migrate apart Hk) in Hv.
Qed.

Lemma migrate_only : held s ⊆ held s' ∪ list_to_set keys.
Proof.
  intros k. rewrite elem_of_union, elem_of_list_to_set, !elem_of_held. intros [Hv Hk].
  destruct (decide (k ∈ keys)) as [|Hn]; [by right|left]. split; [|done].
  destruct (migrated _ _ _ _ _ _ _ _ _ k served_migrate apart) as [[Ha _]|(? & _)]; [by rewrite Ha|done].
Qed.
End migrate.
End keys.

Lemma reshard_batch_pos cls : 0 < reshard_batch cls.
Proof. unfold reshard_batch. destruct (Z.leb_spec (cls_ReshardKeyBatchSize cls) 0); lia. Qed.
Lemma reshard_maxKeys_pos cls : 0 < reshard_maxKeys cls.
Proof. unfold reshard_maxKeys. destruct (Z.leb_spec (cls_ReshardMaxKeysPerReconcile cls) 0); lia. Qed.

(** *** Counting *)

Section counting.
Context `{RedisCluster Srv} `{GoRuntime} (mv : ReshardMove).

(** The slots found to need draining are those of the range that hold keys. *)
Definition counted_right (s : Srv) (toDrain : list Z) : Prop :=
  toDrain ⊆ move_slots mv ∧
  ∀ slot, slot ∈ move_slots mv → slot ∉ toDrain ↔ ∀ k, k ∈ held mv s → slot_of k ≠ slot.

Lemma no_keys_in s slot :
  slot ∈ move_slots mv → size (in_slots slot_of [slot] (data s (src mv))) = 0%nat ↔ ∀ k, k ∈ held mv s → slot_of k ≠ slot.
Proof.
  intros Hslot. rewrite map_size_empty_iff. split.
  - intros He k [[v Hv] _]%elem_of_held Hk.
    assert (in_slots slot_of [slot] (data s (src mv)) !! k = Some v) as Hbad; [|by rewrite He in Hbad].
    apply map_lookup_filter_Some. split; [done|]. rewrite Hk. left.
  - intros Hno. apply map_empty. intros k. apply eq_None_not_Some.
    intros [v [Hv Hk%list_elem_of_singleton]%map_lookup_filter_Some]. apply (Hno k); [|done].
    apply elem_of_held. split; [by exists v|by rewrite Hk].
Qed.

Lemma drained_counted s toDrain : counted_right s toDrain → toDrain = [] ↔ drained mv s.
Proof.
  intros [Hsub Hc]. rewrite drained_held. split.
  - intros -> . apply set_eq. intros k. split; [|done]. intros Hk. exfalso.
    pose proof Hk as [_ Hs]%elem_of_held. by apply (proj1 (Hc (slot_of k) Hs) (not_elem_of_nil _) k).
  - intros He. destruct toDrain as [|slot l]; [done|exfalso]. assert (Hin : slot ∈ slot :: l) by left.
    apply (proj2 (Hc slot (Hsub _ Hin))); [|done]. intros k Hk. by rewrite He in Hk.
Qed.

Lemma count_right s s1 vals :
  move_slots mv ≠ [] →
  served s (ClusterDo (src mv) (CountKeysInSlots (move_slots mv))) (inl vals) s1 →
  counted_right s1 (SlotsNeedingDrain (foldl (λ out s, <[s := default 0 (vals !! s)]> out) ∅ (move_slots mv))).
Proof.
  intros Hne Hs1. split.
  - intros slot (n & Hn & _)%elem_of_SlotsNeedingDrain. rewrite lookup_counts, lookup_empty in Hn. by destruct (decide _).
  - intros slot Hs. apply (counted _ _ _ _ _ slot) in Hs1 as Hv; [|done].
    rewrite (held_kept mv _ _ _ _ Hs1 I), <-no_keys_in by done.
    rewrite elem_of_SlotsNeedingDrain, lookup_counts, decide_True, Hv by done.
    cbn [default from_option]. split; [|intros E0 (n & [= <-] & ?); unfold id in *; lia].
    intros Hno. destruct (size _) as [|n] eqn:En; [done|]. destruct Hno. eexists. split; [done|].
    unfold id. lia.
Qed.
End counting.

(** *** Among clients *)

Section among.
Context `{RedisClients Srv} `{GoRuntime}.
Context (password : string) (cls : ClusterSpec) (mv : ReshardMove).

Abbreviation maxKeys := (reshard_maxKeys cls).
Abbreviation batch := (reshard_batch cls).

(** The source creates no keys of the range. *)
Definition closed (s : Srv) : Prop := ∀ slot, slot ∈ move_slots mv → refuses s (src mv) slot.

Definition flips (c : call) : bool :=
  match c with ClusterDo _ (SetSlots _ (Node _)) => true | _ => false end.

(** The commands of the dance. *)
Definition of_dance (cmd : cluster_command) : Prop :=
  match cmd with
  | SetSlots _ (Node owner) => owner = cn_NodeID (mv_Dest mv)
  | SetSlots _ _ | CountKeysInSlots _ | GetKeysInSlot _ _ | Migrate _ _ _ _ _ => True
  | _ => False
  end.

(** A call that loses no key, and gives the range away only when the source has no key of it
    and no client can put one there any more. *)
Definition dance_call (_ : trace) (s : Srv) (c : call) : Prop :=
  (∀ x s2, served s c x s2 → preserved mv s s2) ∧
  (flips c = true → ∀ s2, rtc clients s s2 → drained mv s2).

(** There are no clients. *)
Definition still : Prop := ∀ s s' : Srv, ¬ clients s s'.

Lemma still_rtc s s' : still → rtc clients s s' → s' = s.
Proof. intros Hq Hr. destruct Hr as [|? ? ? Hc]; [done|]. by destruct (Hq _ _ Hc). Qed.

Lemma clients_shrink s s' : rtc clients s s' → closed s → closed s' ∧ held mv s' ⊆ held mv s.
Proof.
  induction 1 as [s|s s1 s2 Hc _ IH]; intros Hs; [done|].
  destruct IH as [Hs2 Hh]; [intros slot Hslot; eapply refuses_clients; [done|by apply Hs]|]. split; [done|].
  etrans; [done|]. intros k [Hv Hk]%elem_of_held. apply elem_of_held. split; [|done].
  destruct (data s (src mv) !! k) eqn:E; [done|]. rewrite (created _ _ _ _ Hc (Hs _ Hk) E) in Hv. by destruct Hv.
Qed.

Lemma drained_stays s s' : closed s → drained mv s → rtc clients s s' → drained mv s'.
Proof.
  intros Hs. rewrite !drained_held. intros Hd Hr. destruct (clients_shrink _ _ Hr Hs) as [_ Hh].
  apply set_eq. intros k. rewrite Hd in Hh. set_solver.
Qed.

Lemma kept_call tr s c : keeps_data c → flips c = false → dance_call tr s c.
Proof. intros Hk Hf. split; [intros x s2 Hs2; by eapply preserved_kept|by rewrite Hf]. Qed.

Hypothesis apart : src mv ≠ dst mv.
Hypothesis closed_kept : ∀ s a cmd x s',
  of_dance cmd → served s (ClusterDo a cmd) x s' → closed s → closed s'.

(** What a drain of [slots] that began in [s] with [moved] keys has done when it ends. *)
Definition drain_post (slots : list Z) (moved : Z) (s s' : Srv) (r : drain_result) : Prop :=
  closed s' ∧ held mv s' ⊆ held mv s ∧
  match r with
  | Drained m =>
      moved ≤ m < maxKeys + batch ∧
      Z.of_nat (remaining mv s') + (m - moved) ≤ Z.of_nat (remaining mv s) ∧
      (still → Z.of_nat (remaining mv s) = Z.of_nat (remaining mv s') + (m - moved)) ∧
      (m < maxKeys → ∀ k, k ∈ held mv s' → slot_of k ∉ slots)
  | DrainFailed =>
      (still → Z.of_nat (remaining mv s) < Z.of_nat (remaining mv s') + (maxKeys + batch - moved)) ∧
      ¬ reliable Srv
  | OutOfFuel => False
  end.

(** One batch: the keys listed in a slot of the range, then migrated; clients may act in
    between. *)
Lemma batch_moved slot n keys s s1 s2 s3 e t :
  slot ∈ move_slots mv → 0 ≤ n →
  served s (ClusterDo (src mv) (GetKeysInSlot slot n)) (inl keys) s1 →
  held mv s2 ⊆ held mv s1 →
  served s2 (ClusterDo (src mv) (Migrate password (cn_PodIP (mv_Dest mv)) RedisPort t keys)) e s3 →
  held mv s3 ⊆ held mv s ∧
  (e = None → remaining mv s3 + length keys ≤ remaining mv s)%nat ∧
  (held mv s2 = held mv s1 → remaining mv s ≤ remaining mv s3 + length keys)%nat.
Proof.
  intros Hslot Hn Hl H12 Hm. rewrite <-(held_kept mv _ _ _ _ Hl I), !remaining_held.
  rewrite <-(held_kept mv _ _ _ _ Hl I).
  destruct (listed _ _ _ _ _ _ Hl Hn) as (Hnd & Hin & _).
  pose proof (migrate_shrinks mv password _ _ _ _ _ apart Hm) as H23.
  assert (Hk : (list_to_set keys : gset string) ⊆ held mv s1).
  { intros k Hk%elem_of_list_to_set. destruct (Hin k Hk) as [<- Hv]. apply elem_of_held.
    by rewrite (data_kept _ _ _ _ _ Hl I). }
  pose proof (size_list_to_set (C := gset string) keys Hnd) as Hsz.
  split; [by etrans|]. split.
  - intros He. rewrite <-Hsz, <-size_union by by eapply migrate_takes. apply subseteq_size. set_solver.
  - intros E. pose proof (migrate_only mv password _ _ _ _ _ apart Hm) as Ho. rewrite E in Ho.
    apply subseteq_size in Ho. rewrite size_union_alt in Ho.
    pose proof (subseteq_size (list_to_set keys ∖ held mv s3) (list_to_set keys : gset string) ltac:(set_solver)). lia.
Qed.

Lemma drain_slot_attended fuel slot : ∀ tr moved s,
  closed s → slot ∈ move_slots mv → 0 ≤ moved < maxKeys + batch → maxKeys ≤ moved + Z.of_nat fuel →
  attended dance_call (λ _ s' r, drain_post [slot] moved s s' r) tr s (drain_slot password cls mv fuel slot moved).
Proof.
  pose proof (reshard_batch_pos cls) as Hbp.
  induction fuel as [|fuel IH]; intros tr moved s Hc Hslot Hm Hf; cbn [drain_slot];
    (destruct (Z.ltb_spec moved maxKeys) as [Hlt|Hge]; [|apply attended_ret; split; [done|]; split; [done|]; split; [lia|]; split; [lia|]; split; lia]).
  { lia. }
  intros s1 Hs1. destruct (clients_shrink _ _ Hs1 Hc) as [Hc1 Hh1]. split; [by apply kept_call|].
  intros x s2 Hs2. pose proof (closed_kept _ _ (GetKeysInSlot _ _) _ _ I Hs2 Hc1) as Hc2. pose proof (held_kept mv _ _ _ _ Hs2 I) as Hh2.
  assert (Hr2 : (remaining mv s2 ≤ remaining mv s)%nat) by (rewrite !remaining_held, Hh2; by apply subseteq_size).
  assert (Hq2 : still → remaining mv s2 = remaining mv s) by (intros Hq; by rewrite !remaining_held, Hh2, (still_rtc _ _ Hq Hs1)).
  destruct x as [keys|err]; cbn.
  2: { split; [done|]. split; [by rewrite Hh2|]. split; [intros Hq; rewrite (Hq2 Hq); lia|].
       intros Hrel. destruct (Hrel _ _ _ _ _ Hs2) as [a ?]. done. }
  destruct (listed _ _ _ _ _ _ Hs2) as (_ & _ & Hlen); [lia|]. change (srcAddr mv) with (src mv) in *.
  destruct (Nat.eqb_spec (length keys) 0) as [Hnil|Hnil].
  { split; [done|]. split; [by rewrite Hh2|]. split; [lia|]. split; [lia|]. split; [intros Hq; rewrite (Hq2 Hq); lia|].
    intros _ k Hk Hin%list_elem_of_singleton. rewrite Hh2 in Hk. by apply (proj1 (no_keys_in mv s1 slot Hslot) ltac:(lia) k). }
  unfold MigrateKeys. apply Nat.eqb_neq in Hnil as Hb. rewrite Hb.
  intros s3 Hs3. destruct (clients_shrink _ _ Hs3 Hc2) as [Hc3 Hh3].
  split; [split; [intros y s4 Hs4; by eapply migrate_preserved|done]|].
  intros e s4 Hs4. destruct (batch_moved slot batch keys s1 s2 s3 s4 e _ Hslot ltac:(lia) Hs2 Hh3 Hs4) as (Hsub & Hle & Hup).
  assert (Hc4 := closed_kept _ _ (Migrate _ _ _ _ _) _ _ I Hs4 Hc3).
  assert (Hq4 : still → (remaining mv s ≤ remaining mv s4 + length keys)%nat).
  { intros Hq. rewrite <-(still_rtc _ _ Hq Hs1). apply Hup. by rewrite (still_rtc _ _ Hq Hs3). }
  assert (Hr1 : (remaining mv s1 ≤ remaining mv s)%nat) by (rewrite !remaining_held; by apply subseteq_size).
  assert (Hbatch : Z.of_nat (length keys) ≤ batch) by lia.
  destruct e as [err|]; cbn.
  - split; [done|]. split; [set_solver|]. split; [intros Hq; specialize (Hq4 Hq); lia|].
    intros Hrel. by specialize (Hrel _ _ _ _ _ Hs4).
  - specialize (Hle eq_refl).
    eapply attended_mono; [done| |apply (IH _ (moved + Z.of_nat (length keys)) s4); [done|done|lia|lia]].
    intros _ s' r (Hp' & Hsub' & Hr). split; [done|]. split; [set_solver|].
    destruct r; [|destruct Hr as [Hr1' ?]; split; [intros Hq; specialize (Hr1' Hq); specialize (Hq4 Hq); lia|done]|done].
    destruct Hr as (? & ? & Hst & ?). split; [lia|]. split; [lia|]. split; [|done].
    intros Hq. specialize (Hst Hq). specialize (Hq4 Hq). lia.
Qed.

Lemma drain_slots_attended toDrain : ∀ tr moved s,
  closed s → toDrain ⊆ move_slots mv → 0 ≤ moved < maxKeys + batch →
  attended dance_call (λ _ s' r, drain_post toDrain moved s s' r) tr s (drain_slots password cls mv toDrain moved).
Proof.
  induction toDrain as [|slot rest IH]; intros tr moved s Hc Hin Hm; cbn [drain_slots].
  { split; [done|]. split; [done|]. split; [lia|]. split; [lia|]. split; [lia|]. intros _ k _ Hk. by apply elem_of_nil in Hk. }
  eapply attended_bind.
  { apply drain_slot_attended; [done|apply Hin; left|done|lia]. }
  intros tr1 s1 r (Hc1 & Hsub1 & Hr). destruct r as [m| |]; [|by apply attended_ret|done].
  destruct Hr as (Hm1 & Hrem & Hst & Hempty).
  destruct (Z.leb_spec maxKeys m) as [Hge|Hlt].
  { apply attended_ret. split; [done|]. split; [done|]. split; [done|]. split; [done|]. split; [done|lia]. }
  eapply attended_mono; [done| |apply (IH _ m s1); [done|intros z Hz; apply Hin; by right|lia]].
  intros _ s' r' (Hp' & Hsub' & Hr'). split; [done|]. split; [by etrans|].
  destruct r'; [|destruct Hr' as [Hq' ?]; split; [intros Hq; specialize (Hq' Hq); specialize (Hst Hq); lia|done]|done].
  destruct Hr' as (? & ? & Hst' & He). split; [lia|]. split; [lia|].
  split; [intros Hq; specialize (Hst Hq); specialize (Hst' Hq); lia|].
  intros Hlt' k Hk [Hslot|Hin']%elem_of_cons; [|by apply (He Hlt' k Hk)].
  apply (Hempty Hlt k (Hsub' _ Hk)). rewrite Hslot. left.
Qed.

(** What marks and reads among clients leave of the keys at the source. *)
Definition reached (s s1 : Srv) : Prop :=
  (closed s → closed s1 ∧ held mv s1 ⊆ held mv s) ∧ (still → held mv s1 = held mv s).

Lemma reached_refl s : reached s s.
Proof. done. Qed.

Lemma reached_trans s s1 s2 : reached s s1 → reached s1 s2 → reached s s2.
Proof.
  intros [H1 Q1] [H2 Q2]. split.
  - intros Hs. destruct (H1 Hs) as [Hs1 ?]. destruct (H2 Hs1) as [? ?]. split; [done|by etrans].
  - intros Hq. by rewrite (Q2 Hq), (Q1 Hq).
Qed.

Lemma kept_reached s s1 a cmd x s2 :
  rtc clients s s1 → served s1 (ClusterDo a cmd) x s2 → of_dance cmd → keeps_data (ClusterDo a cmd) → reached s s2.
Proof.
  intros Hs1 Hs2 Hof Hk. unfold reached. rewrite (held_kept mv _ _ _ _ Hs2 Hk). split.
  - intros Hs. destruct (clients_shrink _ _ Hs1 Hs) as [Hc1 Hh]. split; [by eapply closed_kept|done].
  - intros Hq. by rewrite (still_rtc _ _ Hq Hs1).
Qed.

Lemma reached_drained s s1 : reached s s1 → closed s → drained mv s → drained mv s1.
Proof. rewrite !drained_held. intros [Hr _] Hc Hd. destruct (Hr Hc) as [_ Hh]. set_solver. Qed.

Lemma setSlots_attended tr s addr st prefix :
  of_dance (SetSlots (move_slots mv) st) →
  (match st with Node _ => closed s ∧ drained mv s | _ => True end) →
  attended dance_call
    (λ _ s1 e, reached s s1 ∧ (reliable Srv → e = None) ∧
       (e = None → match st with Migrating _ => addr = src mv → closed s1 | _ => True end))
    tr s (e ← setSlotsPipelined addr (move_slots mv) st; mret (errorf_opt prefix e)).
Proof.
  intros Hof Hd. unfold setSlotsPipelined. destruct (Nat.eqb_spec (length (move_slots mv)) 0) as [E|E].
  { apply attended_ret. split; [apply reached_refl|]. split; [done|]. intros _.
    destruct st; [done| |done]. intros _ slot Hslot. apply length_zero_iff_nil in E. rewrite E in Hslot. by apply elem_of_nil in Hslot. }
  intros s1 Hs1. split.
  { split; [intros x s2 Hs2; by eapply preserved_kept|]. destruct st; [done|done|]. intros _ s2 Hs2.
    destruct Hd as [Hc Hdr]. eapply drained_stays; [exact Hc|done|by etrans]. }
  intros e s2 Hs2. apply attended_ret. split; [by eapply kept_reached|].
  split; [intros Hrel; apply errorf_opt_None; by specialize (Hrel _ _ _ _ _ Hs2)|].
  intros ->%errorf_opt_None. destruct st; [done| |done]. intros -> slot Hslot. by eapply refuses_marked.
Qed.

Lemma flip_all_attended addrs : ∀ tr s,
  closed s → drained mv s →
  attended dance_call (λ _ s1 b, closed s1 ∧ drained mv s1 ∧ reached s s1 ∧ (reliable Srv → b = true)) tr s
    (flip_all (move_slots mv) (cn_NodeID (mv_Dest mv)) addrs).
Proof.
  induction addrs as [|a addrs IH]; intros tr s Hc Hd; cbn [flip_all].
  { apply attended_ret. by repeat (split; [done|]). }
  eapply attended_bind; [by apply setSlots_attended|]. intros tr1 s1 e (Hre & Hr & _).
  pose proof (reached_drained _ _ Hre Hc Hd) as Hd1. destruct (proj1 Hre Hc) as [Hc1 _].
  destruct e.
  - apply attended_ret. split; [done|]. split; [done|]. split; [done|]. intros Hrel. by specialize (Hr Hrel).
  - eapply attended_mono; [done| |by apply IH]. intros _ s2 b (? & ? & Hre2 & ?). split; [done|]. split; [done|].
    split; [by eapply reached_trans|done].
Qed.

Lemma ClusterCountKeysInSlots_attended tr s :
  closed s →
  attended dance_call
    (λ _ s1 r, reached s s1 ∧
       match r with
       | inl counts => counted_right mv s1 (SlotsNeedingDrain counts)
       | inr _ => ¬ reliable Srv
       end) tr s (ClusterCountKeysInSlots (srcAddr mv) (move_slots mv)).
Proof.
  intros Hc. unfold ClusterCountKeysInSlots. destruct (Nat.eqb_spec (length (move_slots mv)) 0) as [E|E].
  { apply attended_ret. split; [apply reached_refl|]. apply length_zero_iff_nil in E.
    split; [|intros slot Hs; rewrite E in Hs; by apply elem_of_nil in Hs].
    intros slot (n & Hn & _)%elem_of_SlotsNeedingDrain. by rewrite lookup_empty in Hn. }
  intros s1 Hs1. split; [by apply kept_call|]. intros x s2 Hs2. apply attended_ret.
  split; [by eapply kept_reached|]. destruct x as [vals|err]; cbn.
  - eapply count_right; [|done]. intros E'. by rewrite E' in E.
  - intros Hrel. by destruct (Hrel _ _ _ _ _ Hs2) as [a ?].
Qed.

(** The whole of one pass that began in [s]: it reports the move done only if the source is
    drained for good; the keys of a source that was marked before get fewer, by as many as a
    pass may move or to none at all; and without clients no more than that. *)
Definition dance_post (s s' : Srv) (r : bool * ctrl_result) : Prop :=
  (r.1 = true → closed s' ∧ drained mv s') ∧
  (closed s → closed s' ∧ held mv s' ⊆ held mv s ∧
     (reliable Srv →
      r.1 = true ∨ (remaining mv s ≠ 0%nat ∧
        (remaining mv s' = 0%nat ∨ maxKeys ≤ Z.of_nat (remaining mv s) - Z.of_nat (remaining mv s'))))) ∧
  (still → held mv s' ⊆ held mv s ∧
     Z.of_nat (remaining mv s) < Z.of_nat (remaining mv s') + (maxKeys + batch)).

Lemma dance_stopped s s' fast :
  reached s s' → ¬ reliable Srv → dance_post s s' (false, requeue_after fast).
Proof.
  intros [Hc Hq] Hr. pose proof (reshard_maxKeys_pos cls). pose proof (reshard_batch_pos cls).
  split; [done|]. split.
  - intros Hs. destruct (Hc Hs). by split; [|split].
  - intros Hst. rewrite !remaining_held, (Hq Hst). split; [done|lia].
Qed.

Lemma dance_flipped s s1 s2 b res :
  reached s s1 → closed s1 → drained mv s1 → closed s2 → drained mv s2 → (reliable Srv → b = true) →
  dance_post s s2 (b, res).
Proof.
  intros [Hc Hq] Hc1 Hd1 Hc2 Hd2 Hb. pose proof (reshard_maxKeys_pos cls). pose proof (reshard_batch_pos cls).
  rewrite drained_held in Hd1. pose proof Hd2 as Hd2'. rewrite drained_held in Hd2'. split; [done|]. split.
  - intros Hs. split; [done|]. split; [rewrite Hd2'; set_solver|]. intros Hrel. left. by apply Hb.
  - intros Hst. rewrite !remaining_held, <-(Hq Hst), Hd1, Hd2'. split; [done|lia].
Qed.

Lemma dance_moved s s1 s2 toDrain r res :
  reached s s1 → counted_right mv s1 toDrain → toDrain ≠ [] → drain_post toDrain 0 s1 s2 r →
  dance_post s s2 (false, res).
Proof.
  intros [Hc Hq] Hcount Hne (Hc2 & Hh2 & Hr). pose proof (reshard_maxKeys_pos cls). pose proof (reshard_batch_pos cls).
  assert (Hsize : (remaining mv s2 ≤ remaining mv s1)%nat) by (rewrite !remaining_held; by apply subseteq_size).
  split; [done|]. split.
  - intros Hs. destruct (Hc Hs) as [Hc1 Hh1]. split; [done|]. split; [by etrans|]. intros Hrel. right.
    assert (Hle : (remaining mv s1 ≤ remaining mv s)%nat) by (rewrite !remaining_held; by apply subseteq_size).
    assert (Hpos : remaining mv s1 ≠ 0%nat).
    { rewrite remaining_held, size_empty_iff. intros He%leibniz_equiv. apply Hne, (drained_counted mv s1 _ Hcount), drained_held, He. }
    split; [lia|]. destruct r as [m| |]; [|by destruct Hr as [_ []]|done].
    destruct Hr as (Hm & Hrem & _ & Hnone). destruct (Z.le_gt_cases maxKeys m); [right; lia|left].
    rewrite remaining_held. apply size_empty_iff. intros k. split; [|set_solver]. intros Hk. exfalso.
    pose proof Hk as [_ Hslot]%elem_of_held. destruct Hcount as [_ Hcount].
    destruct (decide (slot_of k ∈ toDrain)) as [Hin|Hin]; [by apply (Hnone ltac:(lia) k Hk)|].
    by apply (proj1 (Hcount _ Hslot) Hin k (Hh2 _ Hk)).
  - intros Hst. rewrite <-(Hq Hst). split; [done|]. rewrite (remaining_held mv s), <-(Hq Hst), <-remaining_held.
    destruct r as [m| |]; [|by destruct Hr as [Hr _]; specialize (Hr Hst); lia|done].
    destruct Hr as (? & _ & Heq & _). specialize (Heq Hst). lia.
Qed.

Lemma reshardViaDance_attended tr fast gt s :
  attended dance_call (λ _ s' r, dance_post s s' r) tr s (reshardViaDance password cls mv fast gt).
Proof.
  unfold reshardViaDance. cbv zeta.
  eapply attended_bind; [by apply setSlots_attended|]. intros tr1 s1 e1 (Hr1 & He1 & _). destruct e1.
  { apply attended_ret, dance_stopped; [done|]. intros Hrel. by specialize (He1 Hrel). }
  eapply attended_bind; [by apply setSlots_attended|]. intros tr2 s2 e2 (Hr2 & He2 & Hc2). destruct e2.
  { apply attended_ret, dance_stopped; [by eapply reached_trans|]. intros Hrel. by specialize (He2 Hrel). }
  specialize (Hc2 eq_refl eq_refl). pose proof (reached_trans _ _ _ Hr1 Hr2) as Hr02.
  eapply attended_bind; [by apply ClusterCountKeysInSlots_attended|]. intros tr3 s3 r (Hr3 & Hcount).
  pose proof (reached_trans _ _ _ Hr02 Hr3) as Hr03. destruct (proj1 Hr3 Hc2) as [Hc3 _].
  destruct r as [counts|err]; [|by apply attended_ret, dance_stopped].
  destruct (Nat.eqb_spec (length (SlotsNeedingDrain counts)) 0) as [E|E].
  - apply length_zero_iff_nil, (drained_counted mv s3 _ Hcount) in E.
    eapply attended_bind; [by apply flip_all_attended|]. intros tr4 s4 b (Hc4 & Hd4 & _ & Hb). apply attended_ret.
    by eapply dance_flipped.
  - eapply attended_bind; [apply (drain_slots_attended _ _ 0); [done|by destruct Hcount|]|].
    { pose proof (reshard_maxKeys_pos cls). pose proof (reshard_batch_pos cls). lia. }
    intros tr4 s4 r Hpost. apply attended_ret. eapply (dance_moved _ s3 _ _ r); [done|done| |exact Hpost]. intros E'. by rewrite E' in E.
Qed.
End among.

(** No clients at all: any cluster. *)
Definition no_clients `{RedisCluster Srv} : RedisClients Srv.
Proof. refine {| clients _ _ := False; myid a := a; refuses _ _ _ := True |}; done. Defined.

(** *** A cluster in memory

    The server in memory with the keys of each address and the slots marked MIGRATING there;
    nothing fails.  The identity of a node is its address. *)

Abbreviation Keys := (gmap string (gmap string string)).

Definition keys_at (d : Keys) (a : string) : gmap string string := default ∅ (d !! a).

Abbreviation Store := (Keys * gset (string * Z))%type.

Definition len_slot (k : string) : Z := Z.of_nat (String.length k).

Definition at_slots (a : string) (slots : list Z) : gset (string * Z) := list_to_set (pair a <$> slots).

Definition keys_step (d : Store) (a : string) (cmd : cluster_command) : cluster_answer cmd * Store :=
  match cmd return cluster_answer cmd * Store with
  | SetSlots slots (Migrating _) => (None, (d.1, d.2 ∪ at_slots a slots))
  | SetSlots slots (Node owner) => (None, (d.1, if owner =? a then d.2 ∖ at_slots a slots else d.2))
  | CountKeysInSlots slots =>
      (inl (foldl (λ out s, <[s := Z.of_nat (size (in_slots len_slot [s] (keys_at d.1 a)))]> out) ∅ slots), d)
  | GetKeysInSlot slot n =>
      (inl (take (Z.to_nat n) (map_to_list (in_slots len_slot [slot] (keys_at d.1 a))).*1), d)
  | Migrate _ host port _ keys =>
      let b := address host port in
      if a =? b then (None, d)
      else (None, (<[b := filter (λ '(k, _), k ∈ keys) (keys_at d.1 a) ∪ keys_at d.1 b]>
                   (<[a := filter (λ '(k, _), k ∉ keys) (keys_at d.1 a)]> d.1), d.2))
  | cmd => (mem_cluster_answer cmd, d)
  end.

Definition kv_step (s : Memory * Store) (c : call) : answer c * (Memory * Store) :=
  match c return answer c * (Memory * Store) with
  | ClusterDo a cmd => let '(x, d') := keys_step s.2 a cmd in (x, (s.1, d'))
  | c => let '(x, m') := mem_step s.1 c in (x, (m', s.2))
  end.

#[local] Existing Instance mem_server.

Lemma kv_step_mem s c x s' :
  kv_step s c = (x, s') →
  if match c with ClusterDo _ _ => true | _ => false end then s'.1 = s.1
  else served s.1 c x s'.1 ∧ s'.2 = s.2.
Proof.
  change (served s.1 c x s'.1) with (mem_step s.1 c = (x, s'.1)).
  destruct c; intros Hs; simpl in Hs |- *;
    repeat (case_match; simplify_eq/=); by simplify_eq/=.
Qed.

Definition kv_server : ApiServer (Memory * Store).
Proof.
  refine {| stored s := stored s.1; served s c x s' := kv_step s c = (x, s');
            history s := history s.1; version s := version s.1;
            stored_status s := stored_status s.1 |}.
  - intros s. apply stored_named.
  - intros s name changes s' Hs. destruct (kv_step_mem _ _ _ _ Hs) as [Hm _]. by eapply served_patch.
  - intros s name changes e s' Hs. destruct (kv_step_mem _ _ _ _ Hs) as [Hm _].
    by eapply served_patch_failed.
  - intros s p s' Hs. destruct (kv_step_mem _ _ _ _ Hs) as [Hm _]. by eapply served_update.
  - intros s. apply stored_version.
  - intros s c x s' Hs. apply kv_step_mem in Hs. case_match; [by rewrite Hs|].
    destruct Hs as [Hm _]. by eapply served_history.
  - intros s lr s' Hs. destruct (kv_step_mem _ _ _ _ Hs) as [Hm _]. by eapply served_object.
  - intros s lr lr' s' Hs. destruct (kv_step_mem _ _ _ _ Hs) as [Hm _]. by eapply served_status.
  - intros s lr e s' Hs. destruct (kv_step_mem _ _ _ _ Hs) as [Hm _]. by eapply served_status_failed.
  - intros s c x s' Hs. apply kv_step_mem in Hs.
    destruct c; try (destruct Hs as [Hm _]; exact (served_other _ _ _ _ Hm)). by rewrite Hs.
  - intros s c x s' Hs. apply kv_step_mem in Hs.
    destruct c; try (destruct Hs as [Hm _]; exact (served_read _ _ _ _ Hm)). rewrite Hs. apply churned_refl.
Defined.

#[local] Existing Instance kv_server.

Lemma keys_at_insert d a b m : keys_at (<[a := m]> d) b = if decide (a = b) then m else keys_at d b.
Proof.
  unfold keys_at. destruct (decide (a = b)) as [->|]; [by rewrite lookup_insert_eq|by rewrite lookup_insert_ne].
Qed.

(** What MIGRATE leaves at the two addresses. *)
Lemma keys_step_migrate s a pw host port t keys e s' :
  kv_step s (ClusterDo a (Migrate pw host port t keys)) = (e, s') →
  ∀ a', keys_at s'.2.1 a' =
    if decide (a = address host port) then keys_at s.2.1 a'
    else if decide (a' = address host port)
    then filter (λ '(k, _), k ∈ keys) (keys_at s.2.1 a) ∪ keys_at s.2.1 (address host port)
    else if decide (a' = a) then filter (λ '(k, _), k ∉ keys) (keys_at s.2.1 a) else keys_at s.2.1 a'.
Proof.
  intros Hs a'. simpl in Hs. destruct (String.eqb_spec a (address host port)) as [->|Hne]; simplify_eq/=.
  { by rewrite decide_True. }
  rewrite (decide_False (P := a = _)) by done. rewrite !keys_at_insert.
  destruct (decide (a' = _)) as [->|]; [by rewrite decide_True|]. rewrite decide_False by done.
  destruct (decide (a' = a)) as [->|]; [by rewrite decide_True|]. by rewrite decide_False.
Qed.

Definition kv_cluster : RedisCluster (Memory * Store).
Proof.
  refine {| slot_of := len_slot; data s a := keys_at s.2.1 a |}.
  - intros s c x s' a Hs Hk. apply kv_step_mem in Hs as Hm. simpl in Hs.
    destruct c as [| | | | | | | | | | | | | | | | |? cmd| | | |]; try (by destruct Hm as [_ ->]).
    destruct cmd as [? []| | | | | | | | | | |]; try done; simpl in Hs; by simplify_eq/=.
  - intros s a slots m s' slot Hs Hin. simpl in Hs. simplify_eq/=.
    rewrite (lookup_counts (λ s0, Z.of_nat (size (in_slots len_slot [s0] (keys_at s.2.1 a))))).
    by rewrite decide_True.
  - intros s a slot n keys s' Hs Hn. simpl in Hs. simplify_eq/=. split; [|split].
    + eapply sublist_NoDup; [apply (NoDup_fst_map_to_list (in_slots len_slot [slot] (keys_at s.2.1 a)))|apply sublist_take].
    + intros k Hk. apply (subseteq_take _ _ k) in Hk.
      apply list_elem_of_fmap in Hk as ([k' v] & -> & Hk%elem_of_map_to_list).
      apply map_lookup_filter_Some in Hk as [Hv Hk%list_elem_of_singleton]. simpl. by rewrite Hv.
    + by rewrite length_take, length_fmap, length_map_to_list.
  - intros s a pw host port t keys e s' k Hs Hne. cbv zeta.
    rewrite !(keys_step_migrate _ _ _ _ _ _ _ _ _ Hs), (decide_False (P := a = _)) by done.
    rewrite (decide_True (P := address host port = _)), (decide_False (P := a = _)), (decide_True (P := a = a)) by done.
    rewrite !(decide_False (P := a = _)), lookup_union by done. destruct (decide (k ∈ keys)) as [Hk|Hk].
    + destruct (keys_at s.2.1 a !! k) as [v|] eqn:Hv.
      * right. split; [done|]. split; [done|]. rewrite map_lookup_filter_None_2 by naive_solver.
        split; [done|]. rewrite (map_lookup_filter_Some_2 _ _ _ v) by done. by destruct (keys_at s.2.1 (address host port) !! k).
      * left. rewrite !map_lookup_filter_None_2 by naive_solver. split; [done|left]. apply left_id, _.
    + left. rewrite map_lookup_filter, (map_lookup_filter_None_2 _ _ k) by naive_solver.
      split; [|left; apply left_id, _]. destruct (keys_at s.2.1 a !! k); [|done]. simpl. by rewrite option_guard_True.
  - intros s a pw host port t keys s' k Hs Hne Hk.
    rewrite (keys_step_migrate _ _ _ _ _ _ _ _ _ Hs), (decide_False (P := a = _)), (decide_False (P := a = _)), decide_True by done.
    apply map_lookup_filter_None_2. naive_solver.
  - intros s a pw host port t keys e s' a' Hs Ha Hb.
    rewrite (keys_step_migrate _ _ _ _ _ _ _ _ _ Hs). by repeat case_decide.
Defined.

(** A run on the cluster in memory. *)
Fixpoint kv_run {A : Type} (s : Memory * Store) (p : prog A) : A * (Memory * Store) :=
  match p with
  | Ret a => (a, s)
  | Call c k => let '(x, s') := kv_step s c in kv_run s' (k x)
  end.

Lemma kv_run_exec {A : Type} (s : Memory * Store) (p : prog A) :
  exec s p (kv_run s p).2 (Some (kv_run s p).1).
Proof.
  revert s. induction p as [a|c k IH]; intros s; [by right|].
  simpl. right. destruct (kv_step s c) as [x s'] eqn:E. exists x, s'. split; [done|]. apply IH.
Qed.

(** A client sets or deletes a key; a node creates no key of a slot it has marked. *)
Definition kv_client (s s' : Memory * Store) : Prop :=
  ∃ a k v, (is_Some v → is_Some (keys_at s.2.1 a !! k) ∨ (a, len_slot k) ∉ s.2.2) ∧
    s' = (s.1, (<[a := partial_alter (λ _, v) k (keys_at s.2.1 a)]> s.2.1, s.2.2)).

#[local] Existing Instance kv_cluster.

Definition kv_clients : RedisClients (Memory * Store).
Proof.
  refine {| clients := kv_client; myid a := a; refuses s a slot := (a, slot) ∈ s.2.2 |}.
  - intros s a slots id s' slot Hs Hin. simpl in Hs. simplify_eq/=. apply elem_of_union. right.
    apply elem_of_list_to_set, list_elem_of_fmap. by exists slot.
  - intros s c x s' a slot Hs Hk Hr. destruct c as [| | | | | | | | | | | | | | | | |a' cmd| | | |]; try done.
    simpl in Hs. destruct cmd as [slots []| | | | | | | | | | |]; try done; simplify_eq/=; try set_solver.
    + case_match; [|done]. apply elem_of_difference. split; [done|]. intros Hin.
      apply elem_of_list_to_set, list_elem_of_fmap in Hin as (z & [= -> ->] & _).
      apply (Hk eq_refl). by apply String.eqb_eq.
    + by destruct (a' =? address destHost destPort); simplify_eq/=.
  - intros s s' a slot (a' & k & v & _ & ->). done.
  - intros s s' a k (a' & k' & v & Hv & ->) Hr Hn. simpl in *. rewrite keys_at_insert.
    destruct (decide (a' = a)) as [->|]; [|done]. destruct (decide (k' = k)) as [->|].
    + rewrite lookup_partial_alter_eq. destruct v as [v|]; [|done]. exfalso.
      destruct (Hv ltac:(by exists v)) as [[w Hw]|Hno]; [by rewrite Hn in Hw|done].
    + by rewrite lookup_partial_alter_ne.
Defined.

Lemma kv_reliable : reliable (Memory * Store).
Proof.
  intros s addr cmd x s' Hs.
  change (kv_step s (ClusterDo addr cmd) = (x, s')) in Hs. destruct cmd; simpl in Hs;
    repeat (case_match; simplify_eq/=); simplify_eq/=; eauto.
Qed.

(** ** Theorems *)

(** The passes of successive reconciliations over one move, until one reports it done; each
    sees the ground truth of its own reconciliation. *)
Fixpoint passes `{GoRuntime} (password : string) (cls : ClusterSpec) (mv : ReshardMove)
  (fast : duration) (gts : list ClusterGroundTruth) : prog bool :=
  match gts with
  | [] => mret false
  | gt :: rest =>
      r ← reshardViaDance password cls mv fast gt;
      if (r : bool * ctrl_result).1 then mret true else passes password cls mv fast rest
  end.

(** The source has an identity of its own. *)
Definition own_id `{RedisClients Srv} (mv : ReshardMove) : Prop := cn_NodeID (mv_Dest mv) ≠ myid (src mv).

Lemma closed_dance `{RedisClients Srv} mv (s : Srv) a cmd x s' :
  own_id mv → of_dance mv cmd → served s (ClusterDo a cmd) x s' → closed mv s → closed mv s'.
Proof.
  intros Hid Hof Hs Hc slot Hslot. eapply refuses_kept; [exact Hs| |by apply Hc].
  destruct cmd as [slots []| | | | | | | | | | |]; try done. simpl in *. intros _. by rewrite Hof.
Qed.

Lemma passes_complete `{RedisClients Srv} `{GoRuntime} (password : string) cls mv fast :
  src mv ≠ dst mv → own_id mv → reliable Srv → ∀ gts tr (s : Srv),
  closed mv s → (0 < length gts)%nat →
  Z.of_nat (remaining mv s) ≤ (Z.of_nat (length gts) - 1) * reshard_maxKeys cls →
  attended (dance_call mv)
    (λ tr' s' b, b = true ∧ closed mv s' ∧ drained mv s' ∧
       ∃ gt, gt ∈ gts ∧ ∀ a, a ∈ reachableMasterAddrs gt → marked mv tr' a (Node (cn_NodeID (mv_Dest mv))))
    tr s (passes password cls mv fast gts).
Proof.
  intros Hne Hid Hrel gts. induction gts as [|gt gts IH]; intros tr s Hc Hlen Hrem; [simpl in Hlen; lia|].
  cbn [passes]. eapply attended_bind.
  { eapply attended_mono; [| |apply attended_traced; [apply reshardViaDance_ordered|
      apply reshardViaDance_attended; [done|intros s1 a1 cmd1 x1 s1'; exact (closed_dance mv s1 a1 cmd1 x1 s1' Hid)]]].
    - intros tr1 s1 c [_ Hc1]. exact Hc1.
    - intros tr1 s1 r Hr. exact Hr. }
  intros tr1 s1 [fin res] [Hdone (Hd1 & Hcl & _)]. destruct (Hcl Hc) as (Hc1 & _ & Hprog). specialize (Hprog Hrel).
  cbn [length fst] in *. pose proof (reshard_maxKeys_pos cls). destruct fin.
  { destruct (Hd1 eq_refl). split; [done|]. split; [done|]. split; [done|]. exists gt. split; [left|].
    by apply Hdone. }
  destruct Hprog as [?|[Hz Hprog]]; [done|].
  eapply attended_mono; [intros ? ? ? Hx; exact Hx| |apply IH; [done|destruct gts; cbn [length] in *; lia|]].
  - intros tr2 s2 b (? & ? & ? & gt' & Hin & ?). split; [done|]. split; [done|]. split; [done|].
    exists gt'. split; [by right|done].
  - destruct Hprog as [->|Hk]; [|lia]. destruct gts; cbn [length] in *; lia.
Qed.

Lemma drain_slot_fuel password cls mv fuel slot : ∀ moved,
  reshard_maxKeys cls ≤ moved + Z.of_nat fuel →
  safe (λ _, True) (λ r, r ≠ OutOfFuel ∧ ∀ m, r = Drained m → moved ≤ m)
    (drain_slot password cls mv fuel slot moved).
Proof.
  induction fuel as [|fuel IH]; intros moved Hf; cbn [drain_slot];
    (destruct (Z.ltb_spec moved (reshard_maxKeys cls)) as [Hlt|Hge];
     [|apply safe_ret; split; [done|]; intros m [= <-]; lia]); [lia|].
  split; [done|]. intros [keys|err]; cbn; [|done]. destruct (Nat.eqb_spec (length keys) 0) as [E|E].
  { split; [done|]. intros m [= <-]. lia. }
  unfold MigrateKeys. apply Nat.eqb_neq in E as Hb. rewrite Hb. split; [done|]. intros [err|]; [done|]. cbn.
  eapply safe_mono; [done| |apply (IH (moved + Z.of_nat (length keys))); lia].
  simpl. intros r [? Hr]. split; [done|]. intros m Hm. specialize (Hr m Hm). lia.
Qed.

(** The drain loop ends: whatever the nodes answer, the loop over the slots returns
    within the fuel of the model, since every round that continues has moved a key and the
    pass stops at its limit. *)
Theorem drain_terminates password cls mv toDrain :
  safe (λ _, True) (λ r, r ≠ OutOfFuel) (drain_slots password cls mv toDrain 0).
Proof.
  assert (Hgen : ∀ moved, 0 ≤ moved → safe (λ _, True) (λ r, r ≠ OutOfFuel)
                   (drain_slots password cls mv toDrain moved)); [|by apply Hgen].
  induction toDrain as [|slot rest IH]; intros moved Hm; cbn [drain_slots]; [done|].
  eapply safe_bind; [apply drain_slot_fuel; pose proof (reshard_maxKeys_pos cls); lia|].
  intros r [Hr Hge]. destruct r as [m| |]; [|done|done]. specialize (Hge m eq_refl).
  destruct (_ <=? _); [done|]. apply IH. lia.
Qed.

(** C15. No key is lost, although clients write all the time.  Take any cluster whose nodes
    behave as Redis documents and do not restart, and let clients read, write and delete keys
    between any two commands.  The commands of a pass come in their order: the destination is
    marked importing before the source is marked migrating, keys are counted, listed and
    moved only once both marks are acknowledged, and the owner is changed only after a count
    without keys.  Each command leaves the keys of source and destination together as they
    were and touches no other node.  When the owner is changed, on any node, the source has no
    key of the range and clients can no longer create one there, so that the destination has
    all of them; and the pass reports the move done only then. *)
Theorem dance_keeps_keys `{RedisClients Srv} `{GoRuntime} password cls mv fast gt tr (s : Srv) :
  src mv ≠ dst mv → own_id mv →
  attended
    (λ tr s1 c, dance_ordered password mv gt tr c ∧
       (∀ x s2, served s1 c x s2 → preserved mv s1 s2) ∧
       (flips c = true → ∀ s2, rtc clients s1 s2 → drained mv s2))
    (λ _ s' r, r.1 = true → ∀ s2, rtc clients s' s2 → drained mv s2) tr s
    (reshardViaDance password cls mv fast gt).
Proof.
  intros Hne Hid. eapply attended_mono;
    [| |apply attended_traced; [apply reshardViaDance_ordered|apply (reshardViaDance_attended _ _ _ Hne)]].
  - intros tr1 s1 c Hc. exact Hc.
  - intros _ s' r [_ (Hd & _)] Hr s2 Hs2. destruct (Hd Hr) as [Hc' Hd']. exact (drained_stays mv s' s2 Hc' Hd' Hs2).
  - intros s1 a1 cmd1 x1 s1'. exact (closed_dance mv s1 a1 cmd1 x1 s1' Hid).
Qed.

(** C39. A pass moves fewer than [maxKeys + batch] keys off the source, so it is bounded
    whatever the size of the range. *)
Theorem dance_pass_bounded `{RedisCluster Srv} `{GoRuntime} password cls mv fast gt (s s' : Srv) r :
  src mv ≠ dst mv →
  exec s (reshardViaDance password cls mv fast gt) s' (Some r) →
  (remaining mv s' ≤ remaining mv s)%nat ∧
  Z.of_nat (remaining mv s) - Z.of_nat (remaining mv s') < reshard_maxKeys cls + reshard_batch cls.
Proof.
  intros Hne Hx.
  pose proof (@reshardViaDance_attended _ _ _ no_clients _ password cls mv Hne ltac:(done) [] fast gt s) as Hg.
  destruct (attended_exec _ _ _ _ _ _ _ Hg Hx) as (_ & _ & _ & Hq). destruct Hq as [Hh Hb]; [by intros ? ? []|].
  apply subseteq_size in Hh. rewrite !remaining_held in *. lia.
Qed.

(** C27. The dance completes, although clients write all the time.  If no command fails and
    the source has its mark, enough passes to move the keys it has left at [maxKeys] a pass,
    and one more, end with the move reported done: the source has no key of the range and
    gets none any more, and every reachable master has acknowledged the destination as the
    owner of the range. *)
Theorem dance_completes `{RedisClients Srv} `{GoRuntime} password cls mv fast gts tr (s : Srv) :
  src mv ≠ dst mv → own_id mv → reliable Srv → closed mv s → (0 < length gts)%nat →
  Z.of_nat (remaining mv s) ≤ (Z.of_nat (length gts) - 1) * reshard_maxKeys cls →
  attended (λ _ s1 c, ∀ x s2, served s1 c x s2 → preserved mv s1 s2)
    (λ tr' s' b, b = true ∧ (∀ s2, rtc clients s' s2 → drained mv s2) ∧
       ∃ gt, gt ∈ gts ∧ ∀ a, a ∈ reachableMasterAddrs gt → marked mv tr' a (Node (cn_NodeID (mv_Dest mv))))
    tr s (passes password cls mv fast gts).
Proof.
  intros Hne Hid Hrel Hc Hlen Hrem.
  eapply attended_mono; [| |by apply passes_complete]; [by intros tr1 s1 c [? _]|].
  intros tr' s' b (? & Hc' & Hd' & ?). split; [done|]. split; [|done]. intros s2. by apply drained_stays.
Qed.

(** *** Witnesses *)

(** Two masters; the keys are in the slots of their lengths.  Passes of one key in batches
    of two. *)
Definition sample_move : ReshardMove :=
  mkReshardMove 1 3 (shard_node "10.0.0.1" "a" []) (shard_node "10.0.0.2" "b" []).
Definition small_passes : ClusterSpec := mkClusterSpec 2 (Some 0) 0 0 2 1 0.
Definition two_masters : ClusterGroundTruth :=
  mkGroundTruth
    {[ "10.0.0.1" := shard_node "10.0.0.1" "a" []; "10.0.0.2" := shard_node "10.0.0.2" "b" [] ]}
    [] [] "ok" 16384 ∅ ∅ false.
Definition three_keys : Memory * Store :=
  (sample_memory, ({[ src sample_move := {[ "x" := "1"; "aa" := "2"; "bb" := "3" ]} ]},
                   at_slots (src sample_move) (move_slots sample_move))).
Definition two_keys : Memory * Store :=
  (sample_memory, ({[ src sample_move := {[ "aa" := "2"; "bb" := "3" ]} ]}, ∅)).

#[local] Existing Instance kv_cluster.
#[local] Existing Instance kv_clients.

(** Keys that are written while the pass runs are not lost either. *)
Lemma dance_keeps_keys_witness :
  let p := @reshardViaDance ref_runtime "" small_passes sample_move 0 two_masters in
  attended (λ tr s1 c, @dance_ordered ref_runtime "" sample_move two_masters tr c ∧
      (∀ x s2, served s1 c x s2 → preserved sample_move s1 s2) ∧
      (flips c = true → ∀ s2, rtc clients s1 s2 → drained sample_move s2))
    (λ _ s' r, r.1 = true → ∀ s2, rtc clients s' s2 → drained sample_move s2) [] two_keys p ∧
  (kv_run two_keys p).1.1 = false.
Proof.
  split; [|vm_compute; reflexivity].
  refine (@dance_keeps_keys _ _ _ _ ref_runtime "" small_passes sample_move 0 two_masters [] two_keys _ _);
    vm_compute; discriminate.
Defined.

(** One pass, limited to one key, moves two. *)
Lemma dance_pass_bounded_witness :
  let p := @reshardViaDance ref_runtime "" small_passes sample_move 0 two_masters in
  let s' := (kv_run two_keys p).2 in
  reshard_maxKeys small_passes = 1 ∧
  (remaining sample_move two_keys = 2 ∧ remaining sample_move s' = 0)%nat ∧
  Z.of_nat (remaining sample_move two_keys) - Z.of_nat (remaining sample_move s') < reshard_maxKeys small_passes + reshard_batch small_passes.
Proof.
  assert (Hne : src sample_move ≠ dst sample_move) by (vm_compute; discriminate).
  split; [vm_compute; reflexivity|]. split; [by vm_compute|].
  exact (proj2 (@dance_pass_bounded _ _ _ ref_runtime "" small_passes sample_move 0 two_masters _ _ _ Hne
    (kv_run_exec _ _))).
Defined.

(** Three keys, one a pass: the fourth pass has flipped both masters. *)
Lemma dance_completes_witness :
  let gts := replicate 4 two_masters in
  let r := kv_run three_keys (@passes ref_runtime "" small_passes sample_move 0 gts) in
  r.1 = true ∧ drained sample_move r.2 ∧
  ∃ tr' : trace, ∀ a, a ∈ [src sample_move; dst sample_move] → marked sample_move tr' a (Node "b").
Proof.
  assert (Hc : closed sample_move three_keys).
  { intros slot Hslot. apply elem_of_list_to_set, list_elem_of_fmap. by exists slot. }
  pose proof (@dance_completes _ _ _ _ ref_runtime "" small_passes sample_move 0 (replicate 4 two_masters) [] three_keys
    ltac:(vm_compute; discriminate) ltac:(vm_compute; discriminate) kv_reliable Hc ltac:(simpl; lia)
    ltac:(vm_compute; discriminate)) as Hg.
  destruct (attended_exec _ _ _ _ _ _ _ Hg (kv_run_exec _ _)) as (tr' & Hb & Hd & gt & Hgt & Hall).
  split; [exact Hb|]. split; [apply Hd, rtc_refl|]. exists tr'. intros a Ha. apply Hall.
  apply elem_of_replicate in Hgt as [-> _]. vm_compute. vm_compute in Ha. exact Ha.
Defined.
