(* ===== verification/Rollout.v ===== *)
(** * The state-gated rollout of a cluster shard (src/internal/controller/cluster_rollout.go)

    The planner that computes the partition of a shard's StatefulSet during a template
    rollout, and the translation of live objects into its input.  The partition is the
    cursor of the rollout: the StatefulSet controller replaces no pod whose ordinal is below
    it. *)

From S2P Require Import Prelude GoStrings Slots Probe ClusterNodes ClusterState Topology Migration.
From S2P Require Import Info Gather Kube AuthReport.

Open Scope Z_scope.
Open Scope go_scope.

(** ** Definitions *)

Definition labelControllerRevisionHash : string := "controller-revision-hash".

(** A nil ground truth is [None]. *)
Definition gtNode (gt : option ClusterGroundTruth) (podName : string) : option ClusterNodeState :=
  match gt with None => None | Some g => gt_Nodes g !! podName end.

Inductive shardRolloutVerdict :=
| rolloutUngated | rolloutStart | rolloutAdvance | rolloutHold | rolloutComplete.

Inductive shardRolloutHold :=
| holdNone | holdPodAbsent | holdRevision | holdReadiness | holdRedundancy | holdSettling.

#[export] Instance shardRolloutVerdict_eq_dec : EqDecision shardRolloutVerdict.
Proof. solve_decision. Defined.
#[export] Instance shardRolloutHold_eq_dec : EqDecision shardRolloutHold.
Proof. solve_decision. Defined.

Definition hold_text (h : shardRolloutHold) : string :=
  match h with
  | holdNone => ""
  | holdPodAbsent => "PodAbsent"
  | holdRevision => "PodNotUpdated"
  | holdReadiness => "PodNotReady"
  | holdRedundancy => "PodNotSyncedReplica"
  | holdSettling => "AwaitingRolloutCompletion"
  end.

Definition clusterRolloutReattachBudget : duration := 120 * second.

(** The zero time is [None]. *)
Record shardRolloutPod := mkRolloutPod {
  srp_Ordinal : Z;
  srp_Revision : string;
  srp_Ready : bool;
  srp_ReadySince : option time;
  srp_AttachedToOwner : bool;
  srp_SyncedWithOwner : bool;
  srp_IsOwner : bool;
}.

Record shardRolloutInput := mkRolloutInput {
  sri_ShardIdx : Z;
  sri_ReplicasPerShard : Z;
  sri_DesiredHash : string;
  sri_AppliedHash : string;
  sri_Generation : Z;
  sri_ObservedGeneration : Z;
  sri_UpdateRevision : string;
  sri_CurrentRevision : string;
  sri_AppliedPartition : option Z;
  sri_Pods : list shardRolloutPod;
  sri_Now : time;
}.

Record shardRolloutPlan := mkRolloutPlan {
  pl_Verdict : shardRolloutVerdict;
  pl_Partition : option Z;
  pl_Hold : shardRolloutHold;
  pl_HoldPod : Z;
  pl_Blocked : bool;
  pl_BlockedPods : list Z;
}.

Definition highestOrdinal (in_ : shardRolloutInput) : Z := sri_ReplicasPerShard in_.

Definition currentPartition (in_ : shardRolloutInput) : Z :=
  let p := default 0 (sri_AppliedPartition in_) in
  let p := if (p <? 0)%Z then 0 else p in
  let h := highestOrdinal in_ in
  if (h <? p)%Z then h else p.

Definition podStalled (in_ : shardRolloutInput) (pod : shardRolloutPod) : bool :=
  match srp_ReadySince pod with
  | None => false
  | Some since =>
      if srp_IsOwner pod || srp_AttachedToOwner pod then false
      else negb (sri_Now in_ <? since + clusterRolloutReattachBudget)%Z
  end.

(** [plan.hold]: the first failing clause is kept. *)
Definition hold (plan : shardRolloutPlan) (reason : shardRolloutHold) (ordinal : Z) : shardRolloutPlan :=
  if decide (pl_Hold plan = holdNone)
  then mkRolloutPlan (pl_Verdict plan) (pl_Partition plan) reason ordinal (pl_Blocked plan) (pl_BlockedPods plan)
  else plan.

Definition blocked (plan : shardRolloutPlan) (ord : Z) : shardRolloutPlan :=
  mkRolloutPlan (pl_Verdict plan) (pl_Partition plan) (pl_Hold plan) (pl_HoldPod plan) true
    (pl_BlockedPods plan ++ [ord]).

(** [byOrdinal]. *)
Definition by_ordinal (pods : list shardRolloutPod) : gmap Z shardRolloutPod :=
  foldl (λ m p, <[srp_Ordinal p := p]> m) ∅ pods.

(** The body of the loop over the ordinals. *)
Definition survey_pod (in_ : shardRolloutInput) (plan : shardRolloutPlan) (ord : Z) : shardRolloutPlan :=
  match by_ordinal (sri_Pods in_) !! ord with
  | None => hold plan holdPodAbsent ord
  | Some pod =>
      if (sri_UpdateRevision in_ =? "") || negb (srp_Revision pod =? sri_UpdateRevision in_)
      then hold plan holdRevision ord
      else if negb (srp_Ready pod) then hold plan holdReadiness ord
      else if negb (srp_SyncedWithOwner pod)
      then let plan := hold plan holdRedundancy ord in
           if podStalled in_ pod then blocked plan ord else plan
      else plan
  end.

Definition set_verdict (plan : shardRolloutPlan) (v : shardRolloutVerdict) (partition : option Z)
  (h : shardRolloutHold) : shardRolloutPlan :=
  mkRolloutPlan v partition h (pl_HoldPod plan) (pl_Blocked plan) (pl_BlockedPods plan).

Definition planShardRolloutPartition (in_ : shardRolloutInput) : shardRolloutPlan :=
  if (sri_ReplicasPerShard in_ <=? 0)%Z then mkRolloutPlan rolloutUngated None holdNone (-1) false []
  else if negb (sri_AppliedHash in_ =? sri_DesiredHash in_)
  then mkRolloutPlan rolloutStart (Some (wrap32 (highestOrdinal in_))) holdNone (-1) false []
  else
    let partition := wrap32 (currentPartition in_) in
    if (sri_ObservedGeneration in_ =? sri_Generation in_)%Z && negb (sri_UpdateRevision in_ =? "")
       && (sri_UpdateRevision in_ =? sri_CurrentRevision in_)
    then mkRolloutPlan rolloutComplete (Some 0) holdNone (-1) false []
    else
      let plan :=
        foldl (survey_pod in_) (mkRolloutPlan rolloutHold (Some partition) holdNone (-1) false [])
          (seqZ (currentPartition in_) (highestOrdinal in_ - currentPartition in_ + 1)) in
      if negb (bool_decide (pl_Hold plan = holdNone)) then set_verdict plan rolloutHold (Some partition) (pl_Hold plan)
      else if (0 <? partition)%Z then set_verdict plan rolloutAdvance (Some (wrap32 (partition - 1))) holdNone
      else set_verdict plan rolloutHold (Some partition) holdSettling.

(** A range of the node that contains the slot. *)
Definition serves_slot (want : Z) (n : ClusterNodeState) : bool :=
  existsb (λ s, match ParseSlotRange s with
                | Some (st, en) => (st <=? want)%Z && (want <=? en)%Z
                | None => false
                end) (cn_Slots n).

Definition shardSlotOwner (gt : option ClusterGroundTruth) (name : string)
  (shards replicasPerShard shardIdx : Z) : option ClusterNodeState :=
  match gt with
  | None => None
  | Some g =>
      if (shardIdx <? 0)%Z then None
      else
        r ← GenerateSlotRanges shards !! Z.to_nat shardIdx;
        head (bfilter (λ n, is_master n && serves_slot (Start r) n)
                (omap (λ ref, gt_Nodes g !! ref_Name ref) (ClusterPodRefs name shards replicasPerShard)))
  end.

Definition clusterReplicasPerShard (cluster : option ClusterSpec) : Z :=
  match cluster with
  | None => 0
  | Some c => default 0 (cls_ReplicasPerShard c)
  end.

Definition DefaultClusterShards : Z := 3.
Definition clusterShardCount (lr : LittleRed) : Z :=
  match lr_Cluster lr with None => DefaultClusterShards | Some c => cls_Shards c end.

Definition redisContainerReady (pod : Pod) : bool :=
  match head (bfilter (λ cs, cs_Name cs =? ComponentRedis) (pod_Containers pod)) with
  | Some cs => cs_Ready cs
  | None => false
  end.

(** The facts of the pod of one ordinal; [ownerID] is "" for an unknown owner. *)
Definition rollout_pod (gt : option ClusterGroundTruth) (ownerID podName : string) (ord : Z) (pod : Pod)
  : shardRolloutPod :=
  let '(synced, attached, owner) :=
    match gtNode gt podName with
    | Some node =>
        if negb (ownerID =? "")
        then (IsLinkUpReplicaOf (Some node) ownerID,
              is_replica node && (cn_MasterNodeID node =? ownerID),
              cn_NodeID node =? ownerID)
        else (false, false, false)
    | None => (false, false, false)
    end in
  mkRolloutPod ord (at_key (pod_Labels pod) labelControllerRevisionHash) (redisContainerReady pod)
    (pod_ReadySince pod) attached synced owner.

Definition owner_id (owner : option ClusterNodeState) : string :=
  match owner with Some o => cn_NodeID o | None => "" end.

(** The loop over the ordinals that collects the pods. *)
Definition rollout_pods (lr : LittleRed) (shardIdx replicasPerShard : Z) (pods : gmap string Pod)
  (gt : option ClusterGroundTruth) : list shardRolloutPod :=
  let ownerID :=
    owner_id (shardSlotOwner gt (lr_Name lr) (clusterShardCount lr) replicasPerShard shardIdx) in
  omap (λ ord, let podName := clusterShardPodName (lr_Name lr) shardIdx ord in
               rollout_pod gt ownerID podName ord <$> pods !! podName)
    (seqZ 0 (replicasPerShard + 1)).

Definition buildShardRolloutInput (lr : LittleRed) (shardIdx replicasPerShard : Z)
  (desiredHash : string) (sts : option StatefulSet) (pods : gmap string Pod)
  (gt : option ClusterGroundTruth) (now : time) : shardRolloutInput :=
  let ps := rollout_pods lr shardIdx replicasPerShard pods gt in
  match sts with
  | None => mkRolloutInput shardIdx replicasPerShard desiredHash "" 0 0 "" "" None ps now
  | Some s =>
      mkRolloutInput shardIdx replicasPerShard desiredHash (sts_PodSpecHash s) (sts_Generation s)
        (sts_ObservedGeneration s) (sts_UpdateRevision s) (sts_CurrentRevision s) (sts_Partition s) ps now
  end.

(** ** What the gate waits for *)

(** The first clause the pod of the ordinal fails. *)
Definition clause (in_ : shardRolloutInput) (ord : Z) : shardRolloutHold :=
  match by_ordinal (sri_Pods in_) !! ord with
  | None => holdPodAbsent
  | Some pod =>
      if (sri_UpdateRevision in_ =? "") || negb (srp_Revision pod =? sri_UpdateRevision in_) then holdRevision
      else if negb (srp_Ready pod) then holdReadiness
      else if negb (srp_SyncedWithOwner pod) then holdRedundancy
      else holdNone
  end.

(** The pod of the ordinal exists, is updated, is Ready and is a synced copy. *)
Definition redundant (in_ : shardRolloutInput) (ord : Z) : Prop :=
  ∃ pod, by_ordinal (sri_Pods in_) !! ord = Some pod ∧ sri_UpdateRevision in_ ≠ "" ∧
    srp_Revision pod = sri_UpdateRevision in_ ∧ srp_Ready pod = true ∧ srp_SyncedWithOwner pod = true.

(** The pod of the ordinal is worth reporting as stalled. *)
Definition stalled_at (in_ : shardRolloutInput) (ord : Z) : bool :=
  bool_decide (clause in_ ord = holdRedundancy)
  && match by_ordinal (sri_Pods in_) !! ord with Some pod => podStalled in_ pod | None => false end.

Lemma clause_none in_ ord : clause in_ ord = holdNone ↔ redundant in_ ord.
Proof.
  unfold clause, redundant. destruct (by_ordinal _ !! ord) as [pod|]; [|split; [done|by intros (? & ? & _)]].
  destruct (String.eqb_spec (sri_UpdateRevision in_) ""), (String.eqb_spec (srp_Revision pod) (sri_UpdateRevision in_)),
    (srp_Ready pod) eqn:?, (srp_SyncedWithOwner pod) eqn:?; simpl;
    (split; [intros; try done; by exists pod|intros (? & [= <-] & ? & ? & ? & ?); congruence]).
Qed.

Lemma survey_pod_eq in_ plan ord :
  survey_pod in_ plan ord =
  let plan1 := if decide (clause in_ ord = holdNone) then plan else hold plan (clause in_ ord) ord in
  if stalled_at in_ ord then blocked plan1 ord else plan1.
Proof.
  unfold survey_pod, stalled_at, clause. destruct (by_ordinal _ !! ord) as [pod|]; [|done].
  destruct (_ || _); [done|]. destruct (srp_Ready pod); [|done]. destruct (srp_SyncedWithOwner pod); simpl; [done|].
  by destruct (podStalled in_ pod).
Qed.

(** The loop keeps the first failing clause and collects the stalled pods. *)
Definition first_failing (in_ : shardRolloutInput) (l : list Z) : option Z :=
  head (bfilter (λ o, negb (bool_decide (clause in_ o = holdNone))) l).

Lemma survey_fold in_ l : ∀ plan,
  foldl (survey_pod in_) plan l =
  let '(h, p) := if decide (pl_Hold plan = holdNone)
                 then match first_failing in_ l with
                      | Some o => (clause in_ o, o)
                      | None => (holdNone, pl_HoldPod plan)
                      end
                 else (pl_Hold plan, pl_HoldPod plan) in
  mkRolloutPlan (pl_Verdict plan) (pl_Partition plan) h p
    (pl_Blocked plan || existsb (stalled_at in_) l) (pl_BlockedPods plan ++ bfilter (stalled_at in_) l).
Proof.
  induction l as [|ord l IH]; intros [v part h p b bp]; cbn [foldl].
  { simpl. rewrite orb_false_r, app_nil_r. by destruct (decide (h = holdNone)) as [->|]. }
  rewrite IH, survey_pod_eq. unfold first_failing. unfold bfilter. cbn [List.filter existsb].
  destruct (decide (clause in_ ord = holdNone)) as [Hc|Hc].
  - assert (stalled_at in_ ord = false) as ->. { unfold stalled_at. by rewrite Hc. }
    rewrite Hc. done.
  - rewrite bool_decide_false by done. unfold hold. simpl.
    destruct (stalled_at in_ ord); simpl; destruct (decide (h = holdNone)) as [->|Hh]; simpl;
      rewrite ?(decide_False (P := clause _ _ = _)), ?(decide_False (P := h = _)), ?orb_true_r, <-?app_assoc by done; try done.
    all: by rewrite ?orb_false_l.
Qed.

Lemma currentPartition_bounds in_ :
  0 < sri_ReplicasPerShard in_ → 0 ≤ currentPartition in_ ≤ highestOrdinal in_.
Proof.
  unfold currentPartition, highestOrdinal. intros H.
  destruct (Z.ltb_spec (default 0 (sri_AppliedPartition in_)) 0).
  - destruct (Z.ltb_spec (sri_ReplicasPerShard in_) 0); lia.
  - destruct (Z.ltb_spec (sri_ReplicasPerShard in_) (default 0 (sri_AppliedPartition in_))); lia.
Qed.

Definition gated_ordinals (in_ : shardRolloutInput) : list Z :=
  seqZ (currentPartition in_) (highestOrdinal in_ - currentPartition in_ + 1).

Lemma elem_of_gated in_ ord :
  ord ∈ gated_ordinals in_ ↔ currentPartition in_ ≤ ord ≤ highestOrdinal in_.
Proof. unfold gated_ordinals. rewrite elem_of_seqZ. lia. Qed.

(** The first failing ordinal, in the order of the loop. *)
Lemma first_failing_Some in_ a n o :
  first_failing in_ (seqZ a n) = Some o →
  a ≤ o < a + n ∧ clause in_ o ≠ holdNone ∧ ∀ ord, a ≤ ord < o → redundant in_ ord.
Proof.
  intros Ho. pose proof (head_Some_elem_of _ _ Ho) as [Hin Hf]%elem_of_bfilter.
  apply elem_of_seqZ in Hin. apply negb_true_iff, bool_decide_eq_false in Hf.
  split; [done|]. split; [done|]. intros ord Hord. apply clause_none.
  unfold first_failing in Ho.
  assert (seqZ a n = seqZ a (o - a) ++ o :: seqZ (o + 1) (a + n - o - 1)) as Hs.
  { replace n with ((o - a) + (n - (o - a))) at 1 by lia. rewrite seqZ_app by lia. f_equal.
    replace (a + (o - a)) with o by lia. rewrite seqZ_cons by lia. f_equal. f_equal; lia. }
  destruct (decide (clause in_ ord = holdNone)) as [|Hne]; [done|exfalso].
  assert (ord ∈ bfilter (λ x, negb (bool_decide (clause in_ x = holdNone))) (seqZ a (o - a))) as Hbad.
  { apply elem_of_bfilter. split; [apply elem_of_seqZ; lia|]. by rewrite bool_decide_false. }
  rewrite Hs in Ho. unfold bfilter in *. rewrite List.filter_app in Ho.
  destruct (List.filter _ (seqZ a (o - a))) as [|x l] eqn:El; [by apply elem_of_nil in Hbad|].
  simpl in Ho. injection Ho as ->.
  assert (o ∈ bfilter (λ x, negb (bool_decide (clause in_ x = holdNone))) (seqZ a (o - a))) as Ho'.
  { unfold bfilter. rewrite El. left. }
  apply elem_of_bfilter in Ho' as [Ho' _]. apply elem_of_seqZ in Ho'. lia.
Qed.

Lemma first_failing_None in_ l : first_failing in_ l = None → ∀ ord, ord ∈ l → redundant in_ ord.
Proof.
  unfold first_failing. intros Hn ord Hord. apply clause_none.
  destruct (decide (clause in_ ord = holdNone)) as [|Hne]; [done|exfalso].
  assert (ord ∈ bfilter (λ x, negb (bool_decide (clause in_ x = holdNone))) l) as Hbad.
  { apply elem_of_bfilter. by rewrite bool_decide_false. }
  destruct (bfilter _ l); [by apply elem_of_nil in Hbad|done].
Qed.

(** What each verdict means: what was seen, and the partition. *)
Definition gate_spec (in_ : shardRolloutInput) (plan : shardRolloutPlan) : Prop :=
  let cp := currentPartition in_ in
  let h := highestOrdinal in_ in
  match pl_Verdict plan with
  | rolloutUngated => sri_ReplicasPerShard in_ ≤ 0 ∧ pl_Partition plan = None
  | rolloutStart =>
      0 < h ∧ sri_AppliedHash in_ ≠ sri_DesiredHash in_ ∧ pl_Partition plan = Some h
  | rolloutComplete =>
      0 < h ∧ sri_AppliedHash in_ = sri_DesiredHash in_ ∧ sri_ObservedGeneration in_ = sri_Generation in_ ∧
      sri_UpdateRevision in_ ≠ "" ∧ sri_UpdateRevision in_ = sri_CurrentRevision in_ ∧
      pl_Partition plan = Some 0
  | rolloutAdvance =>
      sri_AppliedHash in_ = sri_DesiredHash in_ ∧ 0 < cp ≤ h ∧ pl_Partition plan = Some (cp - 1) ∧
      ∀ ord, cp ≤ ord ≤ h → redundant in_ ord
  | rolloutHold =>
      sri_AppliedHash in_ = sri_DesiredHash in_ ∧ 0 ≤ cp ≤ h ∧ pl_Partition plan = Some cp ∧
      match pl_Hold plan with
      | holdNone => False
      | holdSettling => cp = 0 ∧ ∀ ord, 0 ≤ ord ≤ h → redundant in_ ord
      | c => cp ≤ pl_HoldPod plan ≤ h ∧ clause in_ (pl_HoldPod plan) = c ∧
             ∀ ord, cp ≤ ord < pl_HoldPod plan → redundant in_ ord
      end
  end.

Lemma clause_not_settling in_ ord : clause in_ ord ≠ holdSettling.
Proof. unfold clause. by repeat case_match. Qed.

(** The verdict after the survey. *)
Definition surveyed (in_ : shardRolloutInput) (cp : Z) : shardRolloutPlan :=
  let plan :=
    foldl (survey_pod in_) (mkRolloutPlan rolloutHold (Some cp) holdNone (-1) false []) (gated_ordinals in_) in
  if negb (bool_decide (pl_Hold plan = holdNone)) then set_verdict plan rolloutHold (Some cp) (pl_Hold plan)
  else if (0 <? cp)%Z then set_verdict plan rolloutAdvance (Some (wrap32 (cp - 1))) holdNone
  else set_verdict plan rolloutHold (Some cp) holdSettling.

Lemma surveyed_spec in_ :
  0 < sri_ReplicasPerShard in_ < 2 ^ 31 → sri_AppliedHash in_ = sri_DesiredHash in_ →
  gate_spec in_ (surveyed in_ (currentPartition in_)).
Proof.
  intros Hr Hh. pose proof (currentPartition_bounds in_ ltac:(lia)) as Hcp. unfold surveyed.
  rewrite survey_fold. cbn [pl_Hold pl_HoldPod pl_Verdict pl_Partition]. rewrite decide_True by done.
  destruct (first_failing in_ (gated_ordinals in_)) as [o|] eqn:Ho; cbn [pl_Hold].
  - destruct (first_failing_Some _ _ _ _ Ho) as (Hin & Hc & Hlt). rewrite bool_decide_false by done.
    unfold gate_spec. simpl. pose proof (clause_not_settling in_ o).
    assert (currentPartition in_ ≤ o ≤ highestOrdinal in_) by lia.
    split; [done|]. split; [done|]. split; [done|]. by destruct (clause in_ o) eqn:?.
  - pose proof (first_failing_None _ _ Ho) as Hall. setoid_rewrite elem_of_gated in Hall. simpl.
    unfold gate_spec. destruct (Z.ltb_spec 0 (currentPartition in_)) as [Hp|Hp]; simpl.
    + unfold highestOrdinal in *. rewrite wrap32_id by lia. split_and!; [done|lia|lia|done|done].
    + assert (currentPartition in_ = 0) as Hz by lia. rewrite Hz in *. split_and!; [done|lia|lia|done|done|done].
Qed.

Lemma gate_spec_holds in_ :
  sri_ReplicasPerShard in_ < 2 ^ 31 → gate_spec in_ (planShardRolloutPartition in_).
Proof.
  intros Hw. unfold planShardRolloutPartition.
  destruct (Z.leb_spec (sri_ReplicasPerShard in_) 0) as [H0|H0]; [done|].
  destruct (String.eqb_spec (sri_AppliedHash in_) (sri_DesiredHash in_)) as [Hh|Hh]; simpl.
  2: { unfold gate_spec. simpl. rewrite wrap32_id by (unfold highestOrdinal; lia). done. }
  pose proof (currentPartition_bounds in_ H0) as Hcp. unfold highestOrdinal in Hcp.
  rewrite !(wrap32_id (currentPartition in_)) by lia.
  destruct (_ && _ && _) eqn:Hs; [|by apply surveyed_spec].
  apply andb_true_iff in Hs as [[Hg%Z.eqb_eq Hu%negb_true_iff%String.eqb_neq]%andb_true_iff Hr%String.eqb_eq].
  by split_and!.
Qed.

(** The survey of stalled pods changes only what is reported. *)
Definition decision (plan : shardRolloutPlan) : shardRolloutVerdict * option Z * shardRolloutHold * Z :=
  (pl_Verdict plan, pl_Partition plan, pl_Hold plan, pl_HoldPod plan).

Definition at_time (in_ : shardRolloutInput) (now : time) : shardRolloutInput :=
  mkRolloutInput (sri_ShardIdx in_) (sri_ReplicasPerShard in_) (sri_DesiredHash in_) (sri_AppliedHash in_)
    (sri_Generation in_) (sri_ObservedGeneration in_) (sri_UpdateRevision in_) (sri_CurrentRevision in_)
    (sri_AppliedPartition in_) (sri_Pods in_) now.

Lemma decision_timeless in_ now :
  decision (planShardRolloutPartition (at_time in_ now)) = decision (planShardRolloutPartition in_).
Proof.
  unfold planShardRolloutPartition. cbn [at_time sri_ReplicasPerShard sri_AppliedHash sri_DesiredHash
    sri_ObservedGeneration sri_Generation sri_UpdateRevision sri_CurrentRevision].
  destruct (_ <=? _)%Z; [done|]. destruct (negb _); [done|]. destruct (_ && _ && _); [done|].
  rewrite !survey_fold. change (first_failing (at_time in_ now)) with (first_failing in_).
  change (clause (at_time in_ now)) with (clause in_).
  cbn [pl_Hold]. rewrite !decide_True by done.
  change (currentPartition (at_time in_ now)) with (currentPartition in_).
  change (highestOrdinal (at_time in_ now)) with (highestOrdinal in_).
  destruct (first_failing in_ _) as [o|]; simpl; repeat case_match; done.
Qed.

(** *** The facts of the live objects *)

Lemma lookup_by_ordinal (f : Z → option shardRolloutPod) ords ord :
  (∀ o p, f o = Some p → srp_Ordinal p = o) → ∀ m : gmap Z shardRolloutPod,
  foldl (λ m p, <[srp_Ordinal p := p]> m) m (omap f ords) !! ord =
  match (if decide (ord ∈ ords) then f ord else None) with Some p => Some p | None => m !! ord end.
Proof.
  intros Hf. induction ords as [|o ords IH]; intros m; [done|]. cbn.
  destruct (f o) as [p|] eqn:Ho; cbn [foldl]; rewrite IH; clear IH;
    destruct (decide (ord ∈ ords)) as [Hi|Hi], (decide (ord ∈ o :: ords)) as [Hc|Hc];
    try (by exfalso; apply Hc; right); try done;
    try (apply elem_of_cons in Hc as [->|]; [|done]); rewrite ?Ho, ?(Hf _ _ Ho).
  - destruct (f ord) eqn:Hord; [done|]. rewrite lookup_insert_ne; [done|]. intros <-. congruence.
  - by rewrite lookup_insert_eq.
  - rewrite lookup_insert_ne; [done|]. intros ->. apply Hc. left.
  - done.
Qed.

(** The pod of the ordinal is a copy of the shard that may take over: it exists at the new
    revision, the kubelet calls it Ready, and it is a link-up replica of the node that serves
    the shard's slots. *)
Definition synced_copy (lr : LittleRed) (shardIdx rps : Z) (sts : StatefulSet) (pods : gmap string Pod)
  (gt : ClusterGroundTruth) (ord : Z) : Prop :=
  let podName := clusterShardPodName (lr_Name lr) shardIdx ord in
  ∃ pod node owner,
    pods !! podName = Some pod ∧ sts_UpdateRevision sts ≠ "" ∧
    at_key (pod_Labels pod) labelControllerRevisionHash = sts_UpdateRevision sts ∧
    redisContainerReady pod = true ∧
    gt_Nodes gt !! podName = Some node ∧
    shardSlotOwner (Some gt) (lr_Name lr) (clusterShardCount lr) rps shardIdx = Some owner ∧
    IsLinkUpReplicaOf (Some node) (cn_NodeID owner) = true.

Lemma redundant_synced_copy lr k rps hash sts pods gt now ord :
  redundant (buildShardRolloutInput lr k rps hash (Some sts) pods (Some gt) now) ord →
  synced_copy lr k rps sts pods gt ord.
Proof.
  intros (p & Hp & Hu & Hrev & Hready & Hsync). unfold buildShardRolloutInput in *.
  cbn [sri_Pods sri_UpdateRevision] in *.
  unfold by_ordinal, rollout_pods in Hp. rewrite lookup_by_ordinal in Hp.
  2: { intros o q. destruct (pods !! _); [|done]. intros [= <-]. unfold rollout_pod. by repeat case_match. }
  destruct (decide _); [|done]. destruct (pods !! clusterShardPodName (lr_Name lr) k ord) as [pod|] eqn:Hpod; [|done].
  unfold synced_copy. cbv zeta. rewrite Hpod. revert Hp.
  destruct (shardSlotOwner _ _ _ _ _) as [owner|]; intros Hp; injection Hp as <-;
    unfold rollout_pod in *; cbn [gtNode owner_id] in *;
    destruct (gt_Nodes gt !! clusterShardPodName (lr_Name lr) k ord) as [node|] eqn:Hnode; try done.
  exists pod, node, owner. revert Hrev Hready Hsync. destruct (cn_NodeID owner =? ""); [done|].
  intros Hrev Hready Hsync. by split_and!.
Qed.

(** ** A rollout beside the StatefulSet controller

    What happens to one shard from the pass that starts a rollout: passes of the gate, each
    on what it read, and replacements of pods by the StatefulSet controller, which replaces
    no pod with an ordinal below the partition.  The partition is read back from the
    StatefulSet and changed by the pass when it advances. *)
Inductive rollout_event :=
| GatePass (sts : StatefulSet) (pods : gmap string Pod) (gt : ClusterGroundTruth) (now : time)
| Replaced (ord : Z).

Section rollout_run.
Context (lr : LittleRed) (k rps : Z) (hash : string).

Definition gate_pass (sts : StatefulSet) (pods : gmap string Pod) (gt : ClusterGroundTruth) (now : time)
  : shardRolloutPlan :=
  planShardRolloutPartition (buildShardRolloutInput lr k rps hash (Some sts) pods (Some gt) now).

Inductive rolls : Z → list rollout_event → Z → Prop :=
| rolls_nil p : rolls p [] p
| rolls_pass p sts pods gt now evs p' :
    sts_Partition sts = Some p →
    rolls (match pl_Verdict (gate_pass sts pods gt now), pl_Partition (gate_pass sts pods gt now) with
           | rolloutAdvance, Some q => q
           | _, _ => p
           end) evs p' →
    rolls p (GatePass sts pods gt now :: evs) p'
| rolls_replaced p ord evs p' : p ≤ ord → rolls p evs p' → rolls p (Replaced ord :: evs) p'.

Lemma rolls_app p evs1 evs2 p' :
  rolls p (evs1 ++ evs2) p' → ∃ q, rolls p evs1 q ∧ rolls q evs2 p'.
Proof.
  revert p. induction evs1 as [|ev evs1 IH]; intros p Hr; [exists p; split; [constructor|done]|].
  inversion Hr; subst; destruct (IH _ ltac:(eassumption)) as (q & ? & ?); exists q; (split; [|done]); by constructor.
Qed.

(** Below every partition the run went through, some pass saw copies. *)
Lemma rolls_released p evs q :
  0 < rps < 2 ^ 31 → 0 ≤ p ≤ rps → rolls p evs q →
  q ≤ p ∧ 0 ≤ q ∧
  ∀ o, q ≤ o < p → ∃ sts pods gt now, GatePass sts pods gt now ∈ evs ∧
    ∀ ord, o < ord ≤ rps → synced_copy lr k rps sts pods gt ord.
Proof.
  intros Hr Hp Hrun. induction Hrun as [p|p sts pods gt now evs p' Hpart Hrun IH|p ord evs p' Hle Hrun IH].
  - split; [done|]. split; [lia|]. intros o Ho. lia.
  - pose proof (gate_spec_holds (buildShardRolloutInput lr k rps hash (Some sts) pods (Some gt) now) ltac:(simpl; lia)) as Hs.
    fold (gate_pass sts pods gt now) in Hs. unfold gate_spec in Hs.
    assert (Hcp : currentPartition (buildShardRolloutInput lr k rps hash (Some sts) pods (Some gt) now) = p).
    { unfold currentPartition, highestOrdinal. simpl. rewrite Hpart. simpl.
      destruct (Z.ltb_spec p 0); [lia|]. destruct (Z.ltb_spec rps p); [lia|done]. }
    rewrite Hcp in Hs. unfold highestOrdinal in Hs. simpl in Hs.
    destruct (pl_Verdict (gate_pass sts pods gt now));
      try (destruct (IH Hp) as (? & ? & Hseen); split; [done|]; split; [done|]; intros o Ho;
           destruct (Hseen o Ho) as (a & b & c & d & Hin & ?); exists a, b, c, d; split; [by right|done]).
    destruct Hs as (_ & Hpos & Hstep & Hall). rewrite Hstep in IH. destruct (IH ltac:(lia)) as (? & ? & Hseen).
    split; [lia|]. split; [done|]. intros o Ho. destruct (decide (o = p - 1)) as [->|Hne].
    + exists sts, pods, gt, now. split; [left|]. intros ord Hord. eapply redundant_synced_copy, Hall. lia.
    + destruct (Hseen o ltac:(lia)) as (a & b & c & d & Hin & ?). exists a, b, c, d. split; [by right|done].
  - destruct (IH Hp) as (? & ? & Hseen). split; [done|]. split; [done|]. intros o Ho.
    destruct (Hseen o Ho) as (a & b & c & d & Hin & ?). exists a, b, c, d. split; [by right|done].
Qed.
End rollout_run.

(** ** Theorems *)

(** A pod reported as stalled. *)
Definition stalled_pod (in_ : shardRolloutInput) (ord : Z) : Prop :=
  ∃ pod since,
    by_ordinal (sri_Pods in_) !! ord = Some pod ∧ srp_Revision pod = sri_UpdateRevision in_ ∧
    srp_Ready pod = true ∧ srp_SyncedWithOwner pod = false ∧ srp_AttachedToOwner pod = false ∧
    srp_IsOwner pod = false ∧ srp_ReadySince pod = Some since ∧
    since + clusterRolloutReattachBudget ≤ sri_Now in_.

Lemma stalled_at_pod in_ ord : stalled_at in_ ord = true → stalled_pod in_ ord.
Proof.
  unfold stalled_at, clause, podStalled. intros [Hc%bool_decide_eq_true Hs]%andb_true_iff.
  destruct (by_ordinal _ !! ord) as [pod|] eqn:Hpod; [|done].
  destruct (_ || negb (srp_Revision pod =? _)) eqn:Hr; [done|]. apply orb_false_iff in Hr as [_ Hr%negb_false_iff%String.eqb_eq].
  destruct (srp_Ready pod) eqn:Hready; [|done]. destruct (srp_SyncedWithOwner pod) eqn:Hsync; [done|].
  destruct (srp_ReadySince pod) as [since|] eqn:Hsince; [|done].
  destruct (srp_IsOwner pod) eqn:?, (srp_AttachedToOwner pod) eqn:?; try done. simpl in Hs.
  apply negb_true_iff, Z.ltb_ge in Hs. by exists pod, since.
Qed.

Lemma blocked_stalled in_ :
  let plan := planShardRolloutPartition in_ in
  (pl_Blocked plan = true ↔ pl_BlockedPods plan ≠ []) ∧
  ∀ ord, ord ∈ pl_BlockedPods plan → stalled_pod in_ ord.
Proof.
  assert (Hnone : ∀ v p h o, let plan := mkRolloutPlan v p h o false [] in
    (pl_Blocked plan = true ↔ pl_BlockedPods plan ≠ []) ∧
    ∀ ord, ord ∈ pl_BlockedPods plan → stalled_pod in_ ord).
  { intros v p h o. simpl. split; [done|]. intros ord Hin. by apply elem_of_nil in Hin. }
  cbv zeta. unfold planShardRolloutPartition. destruct (_ <=? _)%Z; [apply Hnone|].
  destruct (negb _); [apply Hnone|]. destruct (_ && _ && _); [apply Hnone|].
  rewrite survey_fold. cbn [pl_Hold]. rewrite decide_True by done. fold (gated_ordinals in_).
  assert (Hsurvey : ∀ v p h o,
    let plan := mkRolloutPlan v p h o (existsb (stalled_at in_) (gated_ordinals in_))
                  (bfilter (stalled_at in_) (gated_ordinals in_)) in
    (pl_Blocked plan = true ↔ pl_BlockedPods plan ≠ []) ∧
    ∀ ord, ord ∈ pl_BlockedPods plan → stalled_pod in_ ord).
  { intros v p h o. simpl. split.
    - rewrite existsb_elem_of. split.
      + intros (x & Hx & Hs) Hn. assert (Hin : x ∈ bfilter (stalled_at in_) (gated_ordinals in_)) by by apply elem_of_bfilter.
        rewrite Hn in Hin. by apply elem_of_nil in Hin.
      + intros Hn. destruct (bfilter _ _) as [|x l] eqn:E; [done|]. exists x. apply elem_of_bfilter. rewrite E. left.
    - intros ord [_ Hs]%elem_of_bfilter. by apply stalled_at_pod. }
  destruct (first_failing in_ _); simpl; repeat case_match; apply Hsurvey.
Qed.

(** The gate: what each verdict of the planner means.  The partition rises only when
    the template changes, and then to the highest ordinal; it falls by exactly one, and only
    when every pod at or above it exists at the new revision, is Ready and is a synced copy;
    it drops to zero only when the StatefulSet reports no rollout in progress; otherwise it
    is re-emitted, with the first failing clause and its ordinal.  The clock decides nothing,
    and only pods that have been Ready for the whole budget without being attached to the
    slot owner are reported as blocked. *)
Theorem rollout_gate (in_ : shardRolloutInput) :
  sri_ReplicasPerShard in_ < 2 ^ 31 →
  let plan := planShardRolloutPartition in_ in
  gate_spec in_ plan ∧
  (∀ now, decision (planShardRolloutPartition (at_time in_ now)) = decision plan) ∧
  (pl_Blocked plan = true ↔ pl_BlockedPods plan ≠ []) ∧
  (∀ ord, ord ∈ pl_BlockedPods plan → stalled_pod in_ ord).
Proof.
  intros Hw plan. split; [by apply gate_spec_holds|]. split; [apply decision_timeless|apply blocked_stalled].
Qed.

(** No pod of a shard is taken down before the copies above it are synced: in every
    run of gate passes and replacements by the StatefulSet controller from the start of a
    rollout, when the pod of an ordinal below the highest (the master, for ordinal 0) is
    replaced, some earlier pass saw, all at once, every higher ordinal updated, Ready and a
    link-up replica of the node serving the shard's slots. *)
Theorem rollout_releases_after_sync lr k rps hash evs1 o evs2 p :
  0 < rps < 2 ^ 31 →
  rolls lr k rps hash rps (evs1 ++ Replaced o :: evs2) p → o < rps →
  ∃ sts pods gt now, GatePass sts pods gt now ∈ evs1 ∧
    ∀ ord, o < ord ≤ rps → synced_copy lr k rps sts pods gt ord.
Proof.
  intros Hr Hrun Ho. apply rolls_app in Hrun as (q & H1 & H2).
  inversion H2 as [| |? ? ? ? Hle _]; subst.
  destruct (rolls_released lr k rps hash rps evs1 q Hr ltac:(lia) H1) as (_ & _ & Hseen). by apply Hseen.
Qed.

(** *** Witnesses *)

(** Shard 0 with one replica, whose pod has been replaced and is a synced copy. *)
Definition rolling_sts (partition : Z) : StatefulSet :=
  mkStatefulSet "old" 2 2 2 2 "new" 1 2 "lr-shard-0" ∅ "h" (Some partition) "uid".
Definition shard_pod (ord : Z) (revision : string) : Pod :=
  mkPod (clusterShardPodName "lr" 0 ord) "" false ∅ {[ labelControllerRevisionHash := revision ]}
    [mkContainerStatus ComponentRedis true 0 None] (Some 0) true.
Definition rolling_pods : gmap string Pod :=
  {[ clusterShardPodName "lr" 0 0 := shard_pod 0 "old"; clusterShardPodName "lr" 0 1 := shard_pod 1 "new" ]}.
Definition rolling_gt : ClusterGroundTruth :=
  mkGroundTruth
    {[ clusterShardPodName "lr" 0 0 :=
         mkClusterNode "lr-shard-0-0" "10.0.0.1" "m" ["0-5461"] roleMaster "-" "" true ProbeOK "";
       clusterShardPodName "lr" 0 1 :=
         mkClusterNode "lr-shard-0-1" "10.0.0.2" "r" [] roleReplica "m" "up" true ProbeOK "" ]}
    [] [] "ok" 16384 ∅ ∅ false.

Lemma rollout_gate_witness :
  pl_Verdict (gate_pass sample_lr 0 1 "h" (rolling_sts 1) rolling_pods rolling_gt 0) = rolloutAdvance ∧
  redundant (buildShardRolloutInput sample_lr 0 1 "h" (Some (rolling_sts 1)) rolling_pods (Some rolling_gt) 0) 1.
Proof.
  pose proof (rollout_gate
    (buildShardRolloutInput sample_lr 0 1 "h" (Some (rolling_sts 1)) rolling_pods (Some rolling_gt) 0)
    ltac:(vm_compute; reflexivity)) as [Hs _].
  assert (Hv : pl_Verdict (gate_pass sample_lr 0 1 "h" (rolling_sts 1) rolling_pods rolling_gt 0) = rolloutAdvance)
    by (vm_compute; reflexivity).
  split; [exact Hv|]. unfold gate_spec in Hs. cbv zeta in Hs. unfold gate_pass in Hv. rewrite Hv in Hs.
  apply Hs. vm_compute. split; discriminate.
Defined.

Lemma rollout_releases_after_sync_witness :
  ∃ sts pods gt now,
    GatePass sts pods gt now ∈ [GatePass (rolling_sts 1) rolling_pods rolling_gt 0] ∧
    ∀ ord, 0 < ord ≤ 1 → synced_copy sample_lr 0 1 sts pods gt ord.
Proof.
  refine (rollout_releases_after_sync sample_lr 0 1 "h"
    [GatePass (rolling_sts 1) rolling_pods rolling_gt 0] 0 [] 0 ltac:(lia) _ ltac:(lia)).
  apply (rolls_pass _ _ _ _ 1); [reflexivity|].
  replace (match pl_Verdict _ with rolloutAdvance => _ | _ => _ end) with 0 by (vm_compute; reflexivity).
  apply rolls_replaced; [lia|]. apply rolls_nil.
Defined.
