(* ===== verification/ClusterRollout.v ===== *)
(** * The handlers of a cluster rollout (src/internal/controller/cluster_reconcile.go)

    The apply of the shard StatefulSets before the gather, which serializes template changes
    across the shards, and the pass of the gate after the gather, which lowers the partition
    of the shard being rolled.  The hash of the desired pod template of a shard, computed
    from the rendered StatefulSet, is an argument, as is the namespace of the instance. *)

From S2P Require Import Prelude GoStrings Slots Probe ClusterNodes ClusterState Topology Migration.
From S2P Require Import Info Gather Kube AuthReport Rollout.

Open Scope Z_scope.
Open Scope go_scope.

(** ** Definitions *)

Definition ConditionClusterRolloutBlocked : string := "ClusterRolloutBlocked".

Section handlers.
Context (namespace : string) (desiredHash : Z → string) (retries : nat).

Definition refreshShardSTSForRollout (lr : LittleRed) (shardIdx : Z) (cached : StatefulSet)
  : prog (StatefulSet + error) :=
  if (sts_PodSpecHash cached =? desiredHash shardIdx) && statefulSetRolloutSettled cached
  then mret (inl cached)
  else
    r ← perform (GetStatefulSetUncached (clusterShardStatefulSetName (lr_Name lr) shardIdx));
    mret match r with
         | inl fresh => inl fresh
         | inr err => if error_not_found err then inl cached else inr err
         end.

Definition ungated_message (shardIdx : Z) : string :=
  "Rolling update of shard " +:+ itoa shardIdx
  +:+ " proceeds UNGATED: spec.cluster.replicasPerShard is 0, so this shard has "
  +:+ "exactly one copy of its slots and the update takes it down. Storage is EmptyDir (never persisted), "
  +:+ "so that shard's data is lost and the operator will reassign its slot range to the replacement, "
  +:+ "empty. No operator-side gate can prevent this — set replicasPerShard >= 1 for a data-safe rollout.".

Definition warnUngatedClusterRollout (shardIdx : Z) (plan : shardRolloutPlan) : prog unit :=
  if decide (pl_Verdict plan = rolloutUngated)
  then perform (Event EventTypeWarning "ClusterRolloutUngated" (ungated_message shardIdx))
  else mret tt.

(** The plan before the gather: no pods and no ground truth. *)
Definition pre_gather_plan (lr : LittleRed) (now : time) (k : Z) (existing : StatefulSet) : shardRolloutPlan :=
  planShardRolloutPartition
    (buildShardRolloutInput lr k (clusterReplicasPerShard (lr_Cluster lr)) (desiredHash k)
       (Some existing) ∅ None now).

(** The loop over the shards. *)
Fixpoint roll_shards (lr : LittleRed) (now : time) (ks : list Z) : prog (option error) :=
  match ks with
  | [] => mret None
  | k :: rest =>
      g ← perform (GetStatefulSet (clusterShardStatefulSetName (lr_Name lr) k));
      match g with
      | inr err =>
          if error_not_found err
          then
            e ← perform (Apply (ClusterShardStatefulSet k None));
            match e with Some _ => mret e | None => roll_shards lr now rest end
          else mret (Some err)
      | inl cached =>
          x ← refreshShardSTSForRollout lr k cached;
          match x with
          | inr err => mret (Some err)
          | inl existing =>
              let plan := pre_gather_plan lr now k existing in
              if negb (sts_PodSpecHash existing =? desiredHash k)
              then
                e ← perform (Apply (ClusterShardStatefulSet k (pl_Partition plan)));
                match e with
                | Some _ => mret e
                | None => _ ← warnUngatedClusterRollout k plan; mret None
                end
              else if negb (statefulSetRolloutSettled existing) then mret None
              else
                e ← perform (Apply (ClusterShardStatefulSet k (pl_Partition plan)));
                match e with Some _ => mret e | None => roll_shards lr now rest end
          end
      end
  end.

Definition reconcileClusterStatefulSet (lr : LittleRed) : prog (option error) :=
  now ← perform Now;
  roll_shards lr now (seqZ 0 (clusterShardCount lr)).

(** The pods of a shard as read, or the error of the read that failed. *)
Fixpoint read_pods (lr : LittleRed) (shardIdx : Z) (ords : list Z) (pods : gmap string Pod)
  : prog (gmap string Pod + error) :=
  match ords with
  | [] => mret (inl pods)
  | ord :: rest =>
      let name := clusterShardPodName (lr_Name lr) shardIdx ord in
      r ← perform (GetPodUncached name);
      match r with
      | inr err => if error_not_found err then read_pods lr shardIdx rest pods else mret (inr err)
      | inl pod =>
          read_pods lr shardIdx rest (if pod_Terminating pod then pods else <[name := pod]> pods)
      end
  end.

Definition shardRolloutPods (lr : LittleRed) (shardIdx replicasPerShard : Z) : prog (gmap string Pod + error) :=
  read_pods lr shardIdx (seqZ 0 (replicasPerShard + 1)) ∅.

Definition dq : string := String (Ascii.ascii_of_nat 34) "".

Definition clusterRolloutBlockedMessage (shardIdx : Z) (plan : shardRolloutPlan) (stsName : string) : string :=
  let ordinal := default (pl_HoldPod plan) (head (pl_BlockedPods plan)) in
  "Rolling update of shard " +:+ itoa shardIdx +:+ " is held: pod ordinal " +:+ itoa ordinal
  +:+ " is updated and Ready but is not attached to the shard's slot owner at all (clause "
  +:+ hold_text holdRedundancy +:+ "), and has been in that state for longer than 2m0s. "
  +:+ "The shard's remaining pods — including its master — are NOT being taken down, so the instance "
  +:+ "keeps serving and its data is intact; the update simply cannot finish safely. "
  +:+ "Release by hand with `kubectl patch statefulset " +:+ stsName +:+ " -n " +:+ namespace
  +:+ " --type=json -p '[{" +:+ dq +:+ "op" +:+ dq +:+ ":" +:+ dq +:+ "replace" +:+ dq +:+ ","
  +:+ dq +:+ "path" +:+ dq +:+ ":" +:+ dq +:+ "/spec/updateStrategy/rollingUpdate/partition" +:+ dq +:+ ","
  +:+ dq +:+ "value" +:+ dq +:+ ":0}]'` — which forfeits the guarantee (ADR-017, LR-047).".

(** The closure given to [retry.RetryOnConflict]: the local object and [transitioned]. *)
Definition set_blocked (status : ConditionStatus) (reason message : string) (st : LittleRed * bool)
  : prog ((LittleRed * bool) * option error) :=
  r ← perform GetLittleRed;
  match r with
  | inr err => mret (st, Some err)
  | inl latest =>
      let cur := FindStatusCondition (ls_Conditions (lr_Status latest)) ConditionClusterRolloutBlocked in
      if bool_decide (cur = Some (mkCondition status reason message)) then mret ((st.1, false), None)
      else
        let transitioned := match cur with
                            | None => true
                            | Some c => negb (bool_decide (cond_Status c = status))
                            end in
        let mark lr := with_Conditions lr
          (SetStatusCondition (ls_Conditions (lr_Status lr)) ConditionClusterRolloutBlocked status reason message) in
        u ← perform (UpdateStatus (mark latest));
        mret ((mark st.1, transitioned), match u with inl _ => None | inr err => Some err end)
  end.

Definition setClusterRolloutBlocked (lr : LittleRed) (status : ConditionStatus) (reason message : string)
  : prog (LittleRed * option error) :=
  r ← RetryOnConflict retries (set_blocked status reason message) (lr, false);
  match r with
  | ((lr', _), Some err) => mret (lr', Some err)
  | ((lr', transitioned), None) =>
      if transitioned && bool_decide (status = ConditionTrue)
      then _ ← perform (Event EventTypeWarning "ClusterRolloutBlocked" message); mret (lr', None)
      else mret (lr', None)
  end.

Definition clearClusterRolloutBlocked (lr : LittleRed) : prog (LittleRed * option error) :=
  match FindStatusCondition (ls_Conditions (lr_Status lr)) ConditionClusterRolloutBlocked with
  | None => mret (lr, None)
  | Some _ => setClusterRolloutBlocked lr ConditionFalse "RolloutProgressing"
                "No cluster shard rollout is blocked on redundancy."
  end.

Definition reportClusterRolloutGate (lr : LittleRed) (shardIdx : Z) (plan : shardRolloutPlan)
  : prog (LittleRed * option error) :=
  if negb (pl_Blocked plan) then clearClusterRolloutBlocked lr
  else setClusterRolloutBlocked lr ConditionTrue "ShardNotRedundant"
         (clusterRolloutBlockedMessage shardIdx plan (clusterShardStatefulSetName (lr_Name lr) shardIdx)).

(** The loop over the shards: the first that is not at rest is evaluated. *)
Fixpoint gate_shards (lr : LittleRed) (gt : option ClusterGroundTruth) (now : time) (ks : list Z)
  : prog (LittleRed * option error) :=
  match ks with
  | [] => clearClusterRolloutBlocked lr
  | k :: rest =>
      r ← perform (GetStatefulSetUncached (clusterShardStatefulSetName (lr_Name lr) k));
      match r with
      | inr err => if error_not_found err then gate_shards lr gt now rest else mret (lr, Some err)
      | inl sts =>
          if (sts_PodSpecHash sts =? desiredHash k) && statefulSetRolloutSettled sts
          then gate_shards lr gt now rest
          else
            let rps := clusterReplicasPerShard (lr_Cluster lr) in
            x ← shardRolloutPods lr k rps;
            match x with
            | inr err => mret (lr, Some err)
            | inl pods =>
                let plan := planShardRolloutPartition
                  (buildShardRolloutInput lr k rps (desiredHash k) (Some sts) pods gt now) in
                e ← (if decide (pl_Verdict plan = rolloutAdvance)
                     then perform (Apply (ClusterShardStatefulSet k (pl_Partition plan)))
                     else mret None);
                match e with
                | Some err => mret (lr, Some err)
                | None => reportClusterRolloutGate lr k plan
                end
            end
      end
  end.

Definition advanceClusterRollout (lr : LittleRed) (gt : option ClusterGroundTruth)
  : prog (LittleRed * option error) :=
  if (clusterReplicasPerShard (lr_Cluster lr) <=? 0)%Z then clearClusterRolloutBlocked lr
  else
    now ← perform Now;
    gate_shards lr gt now (seqZ 0 (clusterShardCount lr)).
End handlers.

(** ** What the calls of a pass depend on *)

Section histories.
Context (namespace : string) (desiredHash : Z → string) (retries : nat) (lr : LittleRed).

(** A read of the StatefulSet of a shard, through the cache or not. *)
Definition read_sts (tr : trace) (k : Z) (r : StatefulSet + error) : Prop :=
  let name := clusterShardStatefulSetName (lr_Name lr) k in
  answered tr (GetStatefulSet name) r ∨ answered tr (GetStatefulSetUncached name) r.

(** The StatefulSet is settled at the desired template. *)
Definition at_rest (k : Z) (sts : StatefulSet) : bool :=
  (sts_PodSpecHash sts =? desiredHash k) && statefulSetRolloutSettled sts.

(** The pass has seen that no rollout of the shard is in progress. *)
Definition rested (tr : trace) (k : Z) : Prop :=
  (∃ err, read_sts tr k (inr err) ∧ error_not_found err = true) ∨
  (∃ sts, read_sts tr k (inl sts) ∧ at_rest k sts = true).

Definition applies (c : call) : bool :=
  match c with Apply _ | Delete _ _ => true | _ => false end.

Definition unapplied (tr : trace) : Prop := ∀ c, c ∈ calls tr → applies c = false.

Definition read_pod (tr : trace) (pods : gmap string Pod) : Prop :=
  ∀ name pod, pods !! name = Some pod →
    answered tr (GetPodUncached name) (inl pod) ∧ pod_Terminating pod = false.

(** An apply of the gate: it follows, in the same pass, a read of the StatefulSet and of its
    pods on which the planner advances. *)
Definition gate_call (gt : option ClusterGroundTruth) (tr : trace) (c : call) : Prop :=
  match c with
  | Apply r =>
      ∃ k sts pods now,
        let plan := planShardRolloutPartition
          (buildShardRolloutInput lr k (clusterReplicasPerShard (lr_Cluster lr)) (desiredHash k)
             (Some sts) pods gt now) in
        r = ClusterShardStatefulSet k (pl_Partition plan) ∧ pl_Verdict plan = rolloutAdvance ∧
        0 ≤ k < clusterShardCount lr ∧
        answered tr (GetStatefulSetUncached (clusterShardStatefulSetName (lr_Name lr) k)) (inl sts) ∧
        at_rest k sts = false ∧ read_pod tr pods ∧ (∀ j, 0 ≤ j < k → rested tr j) ∧ unapplied tr
  | Delete _ _ => False
  | _ => True
  end.

Lemma rested_mono tr tr' k : tr ⊆ tr' → rested tr k → rested tr' k.
Proof.
  intros Hs [(err & [Hr|Hr] & He)|(sts & [Hr|Hr] & He)]; [left|left|right|right]; eexists;
    (split; [|done]); [left|right|left|right]; by apply Hs.
Qed.

Lemma read_pod_mono tr tr' pods : tr ⊆ tr' → read_pod tr pods → read_pod tr' pods.
Proof. intros Hs Hr name pod Hp. destruct (Hr _ _ Hp). split; [by apply Hs|done]. Qed.

Lemma unapplied_app (tr : trace) (c : call) (x : answer c) : unapplied tr → applies c = false → unapplied (tr ++ [existT c x]).
Proof.
  intros Hu Hc c'. unfold calls. rewrite fmap_app, elem_of_app. intros [Hin|Hin%list_elem_of_singleton]; [by apply Hu|].
  by subst.
Qed.

Lemma read_pods_traced P k ords : ∀ tr pods,
  (∀ tr name, P tr (GetPodUncached name)) → read_pod tr pods → unapplied tr →
  traced P (λ tr' r, unapplied tr' ∧ match r with inl pods => read_pod tr' pods | inr _ => True end) tr
    (read_pods lr k ords pods).
Proof.
  induction ords as [|ord ords IH]; intros tr pods HP Hp Hu; cbn [read_pods]; [done|].
  apply traced_call; [apply HP|]. intros [pod|err].
  - apply IH; [done| |by apply unapplied_app]. destruct (pod_Terminating pod) eqn:Ht.
    { eapply read_pod_mono; [apply grown|done]. }
    intros name q [[<- <-]|[_ Hq]]%lookup_insert_Some; [split; [apply just_answered|done]|].
    by apply (read_pod_mono _ _ _ (grown _ _ _) Hp).
  - destruct (error_not_found err); [|by apply traced_ret; split; [apply unapplied_app|]].
    apply IH; [done|by eapply read_pod_mono; [apply grown|]|by apply unapplied_app].
Qed.

(** The reports read and write the status only. *)
Lemma setClusterRolloutBlocked_safe P st reason msg :
  (∀ c, applies c = false → P c) →
  calls_only P (setClusterRolloutBlocked retries lr st reason msg).
Proof.
  intros HP. unfold setClusterRolloutBlocked. eapply calls_only_bind.
  - apply (safe_RetryOnConflict _ (λ _, True)); [done|]. intros s _. unfold set_blocked.
    apply safe_call; [by apply HP|]. intros [latest|err]; [|done].
    destruct (bool_decide _); [done|]. apply safe_call; [by apply HP|]. by intros x.
  - intros [[l t] [e|]]; [done|]. destruct (_ && _); [|done]. split; [by apply HP|done].
Qed.

Lemma clearClusterRolloutBlocked_safe P :
  (∀ c, applies c = false → P c) → calls_only P (clearClusterRolloutBlocked retries lr).
Proof.
  intros HP. unfold clearClusterRolloutBlocked. destruct (FindStatusCondition _ _); [|done].
  by apply setClusterRolloutBlocked_safe.
Qed.

Lemma reportClusterRolloutGate_safe P k plan :
  (∀ c, applies c = false → P c) → calls_only P (reportClusterRolloutGate namespace retries lr k plan).
Proof.
  intros HP. unfold reportClusterRolloutGate.
  destruct (negb _); [by apply clearClusterRolloutBlocked_safe|by apply setClusterRolloutBlocked_safe].
Qed.

Lemma gate_call_read gt tr c : applies c = false → gate_call gt tr c.
Proof. by destruct c. Qed.

Lemma gate_shards_traced gt now ks : ∀ k0 tr,
  0 ≤ k0 → ks = seqZ k0 (Z.of_nat (length ks)) → k0 + Z.of_nat (length ks) = clusterShardCount lr →
  (∀ j, 0 ≤ j < k0 → rested tr j) → unapplied tr →
  traced (gate_call gt) (λ _ _, True) tr (gate_shards namespace desiredHash retries lr gt now ks).
Proof.
  induction ks as [|k ks IH]; intros k0 tr Hk0 Hks Hlen Hrest Hu; cbn [gate_shards].
  { apply (traced_safe _ (λ _, True)), clearClusterRolloutBlocked_safe. intros c Hc tr'. by apply gate_call_read. }
  cbn [length] in *. rewrite seqZ_cons in Hks by lia. injection Hks as -> Hks.
  rewrite Nat2Z.inj_succ, Z.pred_succ in Hks.
  assert (Hnext : ∀ x, rested (tr ++ [x]) k0 →
    ∀ j, 0 ≤ j < Z.succ k0 → rested (tr ++ [x]) j).
  { intros [c x] Hr j Hj. destruct (decide (j = k0)) as [->|]; [done|].
    eapply rested_mono; [apply grown|]. apply Hrest. lia. }
  apply traced_call; [done|]. intros [sts|err].
  - destruct (at_rest k0 sts) eqn:Hat; unfold at_rest in Hat; rewrite Hat.
    + apply (IH (Z.succ k0)); [lia|done|lia| |by apply unapplied_app].
      apply Hnext. right. exists sts. split; [|done]. right. apply just_answered.
    + eapply traced_bind; [apply read_pods_traced; [done|by intros ? ? ?|by apply unapplied_app]|].
      intros tr' [pods|err] Hsub [Hu' Hp']; [|done].
      eapply (traced_bind _ (λ _ _, True)).
      * destruct (decide _) as [Hv|Hv]; [|done]. split; [|done].
        exists k0, sts, pods, now. split; [done|]. split; [done|]. split; [lia|].
        split; [by apply Hsub, just_answered|]. split; [done|]. split; [done|]. split; [|done].
        intros j Hj. eapply rested_mono; [|by apply Hrest].
        intros y Hy. apply Hsub, elem_of_app. by left.
      * intros tr'' [err|] _ _; [done|].
        apply (traced_safe _ (λ _, True)), reportClusterRolloutGate_safe. intros c Hc tr3. by apply gate_call_read.
  - destruct (error_not_found err) eqn:He; [|done].
    apply (IH (Z.succ k0)); [lia|done|lia| |by apply unapplied_app].
    apply Hnext. left. exists err. split; [|done]. right. apply just_answered.
Qed.

(** An apply before the gather: of a shard that does not exist, of one whose template
    changes, or of one at rest, and only after every earlier shard was seen at rest. *)
Definition roll_call (tr : trace) (c : call) : Prop :=
  match c with
  | Apply (ClusterShardStatefulSet k p) =>
      0 ≤ k < clusterShardCount lr ∧ (∀ j, 0 ≤ j < k → rested tr j) ∧
      (∀ j q, Apply (ClusterShardStatefulSet j q) ∈ calls tr → 0 ≤ j < k) ∧
      ((p = None ∧ ∃ err, read_sts tr k (inr err) ∧ error_not_found err = true) ∨
       (∃ sts now, read_sts tr k (inl sts) ∧ p = pl_Partition (pre_gather_plan desiredHash lr now k sts) ∧
          (sts_PodSpecHash sts ≠ desiredHash k ∨ at_rest k sts = true)))
  | Apply _ | Delete _ _ => False
  | _ => True
  end.

Lemma roll_call_read tr c : applies c = false → roll_call tr c.
Proof. by destruct c. Qed.

Definition applied_below (tr : trace) (k : Z) : Prop :=
  ∀ j q, Apply (ClusterShardStatefulSet j q) ∈ calls tr → 0 ≤ j < k.

Lemma applied_below_app tr (c : call) (x : answer c) k :
  applied_below tr k → applies c = false → applied_below (tr ++ [existT c x]) k.
Proof.
  intros Hb Hc j q. unfold calls. rewrite fmap_app, elem_of_app. intros [Hin|Hin%list_elem_of_singleton]; [by eapply Hb|].
  simpl in Hin. by subst.
Qed.

Lemma applied_below_apply tr k p x :
  0 ≤ k → applied_below tr k →
  applied_below (tr ++ [existT (Apply (ClusterShardStatefulSet k p)) x]) (Z.succ k).
Proof.
  intros Hk Hb j q. unfold calls. rewrite fmap_app, elem_of_app. intros [Hin|Hin%list_elem_of_singleton].
  - specialize (Hb _ _ Hin). lia.
  - simpl in Hin. simplify_eq. lia.
Qed.

Lemma rested_next tr tr' k :
  tr ⊆ tr' → (∀ j, 0 ≤ j < k → rested tr j) → rested tr' k → ∀ j, 0 ≤ j < Z.succ k → rested tr' j.
Proof.
  intros Hs Hr Hk j Hj. destruct (decide (j = k)) as [->|]; [done|]. eapply rested_mono; [done|]. apply Hr. lia.
Qed.

Lemma refresh_traced k cached tr :
  read_sts tr k (inl cached) → applied_below tr k →
  traced roll_call (λ tr' r, applied_below tr' k ∧
      match r with inl sts => read_sts tr' k (inl sts) | inr _ => True end) tr
    (refreshShardSTSForRollout desiredHash lr k cached).
Proof.
  intros Hr Hb. unfold refreshShardSTSForRollout. destruct (_ && _); [done|].
  apply traced_call; [done|]. intros x. apply traced_ret. split; [by apply applied_below_app|].
  destruct x as [fresh|err]; [right; apply just_answered|].
  destruct (error_not_found err); [|done].
  destruct Hr as [Hr|Hr]; [left|right]; by apply (grown tr).
Qed.

Lemma roll_shards_traced now ks : ∀ k0 tr,
  0 ≤ k0 → ks = seqZ k0 (Z.of_nat (length ks)) → k0 + Z.of_nat (length ks) = clusterShardCount lr →
  (∀ j, 0 ≤ j < k0 → rested tr j) → applied_below tr k0 →
  traced roll_call (λ _ _, True) tr (roll_shards desiredHash lr now ks).
Proof.
  induction ks as [|k ks IH]; intros k0 tr Hk0 Hks Hlen Hrest Hb; cbn [roll_shards]; [done|].
  cbn [length] in *. rewrite seqZ_cons in Hks by lia. injection Hks as -> Hks.
  rewrite Nat2Z.inj_succ, Z.pred_succ in Hks.
  apply traced_call; [done|]. intros [cached|err].
  - eapply traced_bind; [apply refresh_traced; [left; apply just_answered|by apply applied_below_app]|].
    intros tr' [sts|err] Hsub [Hb' Hr]; [|done].
    assert (Hsub' : tr ⊆ tr') by (intros y Hy; apply Hsub, elem_of_app; by left).
    assert (Hcall : sts_PodSpecHash sts ≠ desiredHash k0 ∨ at_rest k0 sts = true →
      roll_call tr' (Apply (ClusterShardStatefulSet k0 (pl_Partition (pre_gather_plan desiredHash lr now k0 sts))))).
    { intros Hor. split; [lia|]. split; [intros j Hj; eapply rested_mono; [done|by apply Hrest]|].
      split; [done|]. right. by exists sts, now. }
    destruct (String.eqb_spec (sts_PodSpecHash sts) (desiredHash k0)) as [Hh|Hh]; simpl.
    + destruct (statefulSetRolloutSettled sts) eqn:Hs; simpl; [|done].
      assert (Hat : at_rest k0 sts = true).
      { unfold at_rest. by rewrite Hs, Hh, String.eqb_refl. }
      split; [by apply Hcall; right|]. intros [e|]; cbn; [done|]. apply (IH (Z.succ k0)); [lia|done|lia| |].
      * eapply rested_next; [apply (grown tr')| |].
        { intros j Hj. eapply rested_mono; [done|by apply Hrest]. }
        eapply rested_mono; [apply grown|]. right. by exists sts.
      * by apply applied_below_apply.
    + split; [by apply Hcall; left|]. intros [e|]; cbn; [done|].
      apply (traced_safe _ (λ _, True)). unfold warnUngatedClusterRollout. by destruct (decide _).
  - destruct (error_not_found err) eqn:He; [|done].
    assert (Habs : read_sts (tr ++ [existT (GetStatefulSet (clusterShardStatefulSetName (lr_Name lr) k0)) (inr err)]) k0 (inr err))
      by (left; apply just_answered).
    split.
    { split; [lia|]. split; [intros j Hj; eapply rested_mono; [apply grown|by apply Hrest]|].
      split; [by apply applied_below_app|]. left. split; [done|]. by exists err. }
    intros [e|]; cbn; [done|]. apply (IH (Z.succ k0)); [lia|done|lia| |].
    + eapply rested_next; [apply grown| |].
      { intros j Hj. eapply rested_mono; [apply grown|by apply Hrest]. }
      eapply rested_mono; [apply grown|]. left. by exists err.
    + apply applied_below_apply; [lia|by apply applied_below_app].
Qed.
End histories.

Lemma seqZ_shards lr :
  0 ≤ clusterShardCount lr →
  seqZ 0 (clusterShardCount lr) = seqZ 0 (Z.of_nat (length (seqZ 0 (clusterShardCount lr)))) ∧
  0 + Z.of_nat (length (seqZ 0 (clusterShardCount lr))) = clusterShardCount lr.
Proof. intros H. rewrite length_seqZ. split; [f_equal|]; lia. Qed.

Lemma advance_traced namespace desiredHash retries lr gt :
  0 ≤ clusterShardCount lr →
  traced (gate_call desiredHash lr gt) (λ _ _, True) [] (advanceClusterRollout namespace desiredHash retries lr gt).
Proof.
  intros Hsh. unfold advanceClusterRollout. destruct (_ <=? _)%Z.
  { apply (traced_safe _ (λ _, True)), clearClusterRolloutBlocked_safe. intros c Hc tr. by apply gate_call_read. }
  apply traced_call; [done|]. intros now. destruct (seqZ_shards lr Hsh).
  apply (gate_shards_traced _ _ _ _ _ _ _ 0); [done|done|done|intros; lia|].
  intros c Hc. by apply list_elem_of_singleton in Hc as ->.
Qed.

Lemma reconcile_traced desiredHash lr :
  0 ≤ clusterShardCount lr →
  traced (roll_call desiredHash lr) (λ _ _, True) [] (reconcileClusterStatefulSet desiredHash lr).
Proof.
  intros Hsh. apply traced_call; [done|]. intros now. destruct (seqZ_shards lr Hsh).
  apply (roll_shards_traced _ _ _ _ 0); [done|done|done|intros; lia|].
  intros j q Hc. by apply list_elem_of_singleton in Hc.
Qed.

(** A shard without replicas is not gated. *)
Definition gate_at (rps partition : Z) : option Z := if (rps <=? 0)%Z then None else Some partition.

(** The partition before the gather, in the cases in which it is applied. *)
Lemma pre_gather_partition desiredHash lr now k sts :
  let rps := clusterReplicasPerShard (lr_Cluster lr) in
  rps < 2 ^ 31 →
  (sts_PodSpecHash sts ≠ desiredHash k →
     pl_Partition (pre_gather_plan desiredHash lr now k sts) = gate_at rps rps) ∧
  (at_rest desiredHash k sts = true →
     pl_Partition (pre_gather_plan desiredHash lr now k sts) = gate_at rps 0).
Proof.
  intros rps Hr. unfold pre_gather_plan, planShardRolloutPartition, buildShardRolloutInput.
  cbn [sri_ReplicasPerShard sri_AppliedHash sri_DesiredHash sri_ObservedGeneration sri_Generation
       sri_UpdateRevision sri_CurrentRevision]. fold rps.
  unfold gate_at. destruct (Z.leb_spec rps 0); [done|]. unfold at_rest, statefulSetRolloutSettled.
  destruct (String.eqb_spec (sts_PodSpecHash sts) (desiredHash k)) as [Hh|Hh]; simpl; [split; [done|]|split; [|done]].
  - rewrite !andb_true_iff. intros (((((-> & ->) & ->) & _) & _) & _). done.
  - intros _. by rewrite wrap32_id by (unfold highestOrdinal; simpl; lia).
Qed.

(** ** Theorems *)

(** C16. The partition of a shard comes down only behind synced copies.  Whatever the API
    server answers, the pass of the gate applies at most one object: the StatefulSet of a
    shard below which every shard was seen at rest, with the partition it read lowered by
    one, after reading, uncached and not terminating, every pod at or above that partition
    at the new revision, Ready and a link-up replica of the shard's slot owner.  It deletes
    nothing. *)
Theorem advance_rollout_gated namespace desiredHash retries lr gt :
  let rps := clusterReplicasPerShard (lr_Cluster lr) in
  0 ≤ clusterShardCount lr → rps < 2 ^ 31 →
  traced (λ tr c,
    match c with
    | Apply r =>
        ∃ k p sts pods,
          r = ClusterShardStatefulSet k (Some (p - 1)) ∧ 0 ≤ k < clusterShardCount lr ∧ 0 < p ≤ rps ∧
          answered tr (GetStatefulSetUncached (clusterShardStatefulSetName (lr_Name lr) k)) (inl sts) ∧
          sts_PodSpecHash sts = desiredHash k ∧ (∃ q, sts_Partition sts = Some q ∧ p = Z.min q rps) ∧
          read_pod tr pods ∧ (∀ ord, p ≤ ord ≤ rps → synced_copy lr k rps sts pods gt ord) ∧
          (∀ j, 0 ≤ j < k → rested desiredHash lr tr j) ∧ unapplied tr
    | Delete _ _ => False
    | _ => True
    end) (λ _ _, True) [] (advanceClusterRollout namespace desiredHash retries lr (Some gt)).
Proof.
  intros rps Hsh Hw. eapply traced_mono; [|done|by apply advance_traced].
  intros tr c Hc. destruct c; try done. destruct Hc as (k & sts & pods & now & Hr & Hv & Hk & Hsts & _ & Hp & Hrest & Hu).
  pose proof (gate_spec_holds (buildShardRolloutInput lr k rps (desiredHash k) (Some sts) pods (Some gt) now) Hw) as Hs.
  unfold gate_spec in Hs. fold rps in Hv. rewrite Hv in Hs. destruct Hs as (Hh & Hpos & Hpart & Hall).
  fold rps in Hr. rewrite Hpart in Hr. unfold highestOrdinal in *.
  cbn [buildShardRolloutInput sri_ReplicasPerShard] in Hpos, Hall.
  exists k, (currentPartition (buildShardRolloutInput lr k rps (desiredHash k) (Some sts) pods (Some gt) now)), sts, pods.
  split; [done|]. split; [done|]. split; [exact Hpos|]. split; [done|]. split; [done|]. split.
  { revert Hpos. unfold currentPartition, highestOrdinal. cbn [buildShardRolloutInput sri_AppliedPartition sri_ReplicasPerShard].
    destruct (sts_Partition sts) as [q|]; simpl; [|intros Hpos; exfalso; revert Hpos; destruct (Z.ltb_spec rps 0); lia].
    intros Hpos. exists q. split; [done|]. destruct (Z.ltb_spec q 0), (Z.ltb_spec rps q); try lia;
      destruct (Z.ltb_spec rps 0); lia. }
  split; [done|]. split; [|done]. intros ord Hord. eapply redundant_synced_copy, Hall. exact Hord.
Qed.

(** C17. Template changes reach one shard at a time, and a gated pod is never taken down.
    Whatever the API server answers, the pass before the gather applies the StatefulSet of a
    shard only after it has seen every earlier shard settled at the desired template or
    absent, never the same shard twice; an absent one counts as passed although its pods have
    yet to start.  A missing StatefulSet is created without a partition.  With replicas, a
    changed template is applied gated at the highest ordinal, and partition 0 is applied only
    to a StatefulSet that was read settled; with no replica per shard nothing is gated. *)
Theorem shards_roll_one_at_a_time desiredHash lr :
  let rps := clusterReplicasPerShard (lr_Cluster lr) in
  0 ≤ clusterShardCount lr → rps < 2 ^ 31 →
  traced (λ tr c,
    match c with
    | Apply (ClusterShardStatefulSet k p) =>
        0 ≤ k < clusterShardCount lr ∧ (∀ j, 0 ≤ j < k → rested desiredHash lr tr j) ∧
        (∀ j q, Apply (ClusterShardStatefulSet j q) ∈ calls tr → 0 ≤ j < k) ∧
        ((p = None ∧ ∃ err, read_sts lr tr k (inr err) ∧ error_not_found err = true) ∨
         (∃ sts, read_sts lr tr k (inl sts) ∧
            (sts_PodSpecHash sts ≠ desiredHash k ∧ p = gate_at rps rps ∨
             at_rest desiredHash k sts = true ∧ p = gate_at rps 0)))
    | Apply _ | Delete _ _ => False
    | _ => True
    end) (λ _ _, True) [] (reconcileClusterStatefulSet desiredHash lr).
Proof.
  intros rps Hsh Hr. eapply traced_mono; [|done|by apply reconcile_traced].
  intros tr c Hc. destruct c as [| | | | | | | | | | | | | | |r| | | | | |]; try done.
  destruct r as [| | | | | | | | | | | | | | | | | |k p| |]; try done.
  destruct Hc as (Hk & Hrest & Hb & Hp). split; [done|]. split; [done|]. split; [done|].
  destruct Hp as [Hp|(sts & now & Hread & -> & Hor)]; [by left|right]. exists sts. split; [done|].
  destruct (pre_gather_partition desiredHash lr now k sts Hr) as [Hdiff Hat].
  destruct Hor as [Hh|Hh]; [left|right]; split; auto.
Qed.

(** A template change that was reverted half way: the StatefulSet controller finds the
    current revision again, so no rollout is in progress, while pods of the other revision
    are left below the partition. *)
Definition reverted (desiredHash : Z → string) (k : Z) (sts : StatefulSet) : Prop :=
  sts_PodSpecHash sts = desiredHash k ∧ sts_ObservedGeneration sts = sts_Generation sts ∧
  sts_UpdateRevision sts ≠ "" ∧ sts_UpdateRevision sts = sts_CurrentRevision sts ∧
  statefulSetRolloutSettled sts = false.

Definition reads_reverted (desiredHash : Z → string) (lr : LittleRed) (k : Z) (tr : trace) : Prop :=
  ∀ x, read_sts lr tr k x → ∃ sts, x = inl sts ∧ reverted desiredHash k sts.

Lemma reverted_not_rested desiredHash lr k tr tr1 :
  reads_reverted desiredHash lr k tr → tr1 ⊆ tr → ¬ rested desiredHash lr tr1 k.
Proof.
  intros Hread Hsub Hr. apply (rested_mono _ _ _ _ _ Hsub) in Hr.
  destruct Hr as [(err & Hr & _)|(sts & Hr & Hat)]; destruct (Hread _ Hr) as (sts' & ? & Hrev); simplify_eq.
  destruct Hrev as (_ & _ & _ & _ & Hs). unfold at_rest in Hat. by rewrite Hs, andb_false_r in Hat.
Qed.

Lemma reverted_complete lr k rps hash sts pods gt now :
  0 < rps → sts_PodSpecHash sts = hash → sts_ObservedGeneration sts = sts_Generation sts →
  sts_UpdateRevision sts ≠ "" → sts_UpdateRevision sts = sts_CurrentRevision sts →
  pl_Verdict (planShardRolloutPartition (buildShardRolloutInput lr k rps hash (Some sts) pods gt now)) = rolloutComplete.
Proof.
  intros Hr Hh Hg Hu Hc. unfold planShardRolloutPartition, buildShardRolloutInput.
  cbn [sri_ReplicasPerShard sri_AppliedHash sri_DesiredHash sri_ObservedGeneration sri_Generation
       sri_UpdateRevision sri_CurrentRevision].
  destruct (Z.leb_spec rps 0); [lia|]. rewrite Hh, String.eqb_refl, Hg, Z.eqb_refl, Hc, String.eqb_refl.
  rewrite <-Hc. by destruct (String.eqb_spec (sts_UpdateRevision sts) "").
Qed.

(** A reverted template change stalls the rollout for good: as long as the StatefulSet
    of a shard is read at the desired template with no rollout in progress and with pods of
    another revision, neither the pass before the gather nor the pass of the gate applies
    that StatefulSet or that of any later shard, so the partition is never lowered and no
    later shard is ever updated. *)
Theorem reverted_rollout_stalls namespace desiredHash retries lr gt k tr r tr' r' :
  0 ≤ clusterShardCount lr → 0 < clusterReplicasPerShard (lr_Cluster lr) → 0 ≤ k →
  run (advanceClusterRollout namespace desiredHash retries lr gt) tr r → reads_reverted desiredHash lr k tr →
  run (reconcileClusterStatefulSet desiredHash lr) tr' r' → reads_reverted desiredHash lr k tr' →
  ∀ j p, k ≤ j → Apply (ClusterShardStatefulSet j p) ∉ calls tr ∧ Apply (ClusterShardStatefulSet j p) ∉ calls tr'.
Proof.
  intros Hsh Hr Hk Hrun Hread Hrun' Hread' j p Hj. split; intros Hin.
  - destruct (traced_run_calls _ _ _ _ _ _ (advance_traced namespace desiredHash retries lr gt Hsh) Hrun Hin)
      as (tr1 & Hsub & k' & sts & pods & now & He & Hv & _ & Hsts & _ & _ & Hrest & _). simplify_eq.
    destruct (decide (k' = k)) as [->|]; [|by apply (reverted_not_rested _ _ _ _ _ Hread Hsub), Hrest; lia].
    destruct (Hread (inl sts)) as (sts' & ? & Hrev); [right; by apply Hsub|]. simplify_eq.
    destruct Hrev as (? & ? & ? & ? & _). by rewrite reverted_complete in Hv.
  - destruct (traced_run_calls _ _ _ _ _ _ (reconcile_traced desiredHash lr Hsh) Hrun' Hin)
      as (tr1 & Hsub & _ & Hrest & _ & Hp).
    destruct (decide (j = k)) as [->|]; [|by apply (reverted_not_rested _ _ _ _ _ Hread' Hsub), Hrest; lia].
    destruct Hp as [(_ & err & Hx & _)|(sts & now & Hx & _ & Hor)].
    + destruct (Hread' (inr err)) as (? & ? & _); [|done]. by destruct Hx as [Hx|Hx]; [left|right]; apply Hsub.
    + destruct (Hread' (inl sts)) as (sts' & ? & Hrev); [by destruct Hx as [Hx|Hx]; [left|right]; apply Hsub|].
      simplify_eq. destruct Hrev as (? & _ & _ & _ & Hs). unfold at_rest in Hor.
      rewrite Hs, andb_false_r in Hor. by destruct Hor.
Qed.

(** *** Witnesses *)

Definition cluster_lr : LittleRed :=
  mkLittleRed "lr" "uid" "1" true false "cluster" 1 ∅ false "" no_tls None None (Some (mkClusterSpec 3 (Some 1) 0 0 0 0 0))
    None None None sample_status.

(** Every shard's StatefulSet reads as [sts]. *)
Definition rolling_server (sts : StatefulSet) : Memory :=
  mkMemory rolling_pods cluster_lr sts sample_wire 0 ∅ [].

Lemma advance_rollout_gated_witness :
  let p := advanceClusterRollout "ns" (λ _, "h") 4 cluster_lr (Some rolling_gt) in
  let tr := mem_trace (rolling_server (rolling_sts 1)) p in
  Apply (ClusterShardStatefulSet 0 (Some 0)) ∈ calls tr ∧
  ∃ tr1 sts pods, tr1 ⊆ tr ∧ read_pod tr1 pods ∧ synced_copy cluster_lr 0 1 sts pods rolling_gt 1.
Proof.
  intros p tr.
  assert (Hin : Apply (ClusterShardStatefulSet 0 (Some 0)) ∈ calls tr).
  { apply list_elem_of_In. vm_compute. auto 10. }
  split; [exact Hin|].
  destruct (traced_run_calls _ _ _ _ _ _
    (advance_rollout_gated "ns" (λ _, "h") 4 cluster_lr rolling_gt ltac:(vm_compute; discriminate) ltac:(vm_compute; reflexivity))
    (mem_run_trace (rolling_server (rolling_sts 1)) p) Hin)
    as (tr1 & Hsub & k & q & sts & pods & He & _ & Hq & _ & _ & _ & Hp & Hall & _).
  exists tr1, sts, pods. split; [exact Hsub|]. split; [exact Hp|].
  injection He as <- Hq'. apply Hall. change (clusterReplicasPerShard _) with 1. lia.
Defined.

(** A new template: the first shard is gated at its highest ordinal, and nothing else is
    applied. *)
Lemma shards_roll_one_at_a_time_witness :
  let p := reconcileClusterStatefulSet (λ _, "next") cluster_lr in
  let tr := mem_trace (rolling_server (rolling_sts 0)) p in
  filter (λ c, applies c = true) (calls tr) = [Apply (ClusterShardStatefulSet 0 (Some 1))] ∧
  ∃ tr1, tr1 ⊆ tr ∧ ∀ j q, Apply (ClusterShardStatefulSet j q) ∈ calls tr1 → 0 ≤ j < 0.
Proof.
  intros p tr. split; [vm_compute; reflexivity|].
  assert (Hin : Apply (ClusterShardStatefulSet 0 (Some 1)) ∈ calls tr).
  { apply list_elem_of_In. vm_compute. auto 10. }
  destruct (traced_run_calls _ _ _ _ _ _
    (shards_roll_one_at_a_time (λ _, "next") cluster_lr ltac:(vm_compute; discriminate) ltac:(vm_compute; reflexivity))
    (mem_run_trace (rolling_server (rolling_sts 0)) p) Hin) as (tr1 & Hsub & _ & _ & Hb & _).
  exists tr1. split; [exact Hsub|exact Hb].
Defined.

(** The change to revision "new" was reverted after the highest ordinal had been replaced. *)
Definition reverted_sts : StatefulSet :=
  mkStatefulSet "old" 2 2 3 3 "old" 1 2 "lr-shard-0" ∅ "h" (Some 1) "uid".

Lemma reads_reverted_mem desiredHash lr k tr :
  (∀ x, x ∈ tr → match x with
                 | existT (GetStatefulSet _) r | existT (GetStatefulSetUncached _) r => r = inl reverted_sts
                 | _ => True
                 end) →
  reverted desiredHash k reverted_sts → reads_reverted desiredHash lr k tr.
Proof.
  intros Hall Hrev x [Hx|Hx]; apply Hall in Hx; subst; by exists reverted_sts.
Qed.

Lemma reverted_rollout_stalls_witness :
  let tr := mem_trace (rolling_server reverted_sts)
              (advanceClusterRollout "ns" (λ _, "h") 4 cluster_lr (Some rolling_gt)) in
  let tr' := mem_trace (rolling_server reverted_sts) (reconcileClusterStatefulSet (λ _, "h") cluster_lr) in
  Apply (ClusterShardStatefulSet 0 (Some 0)) ∉ calls tr ∧ Apply (ClusterShardStatefulSet 0 (Some 0)) ∉ calls tr'.
Proof.
  intros tr tr'.
  assert (Hrev : reverted (λ _, "h") 0 reverted_sts) by (vm_compute; split_and!; (reflexivity || discriminate)).
  refine (reverted_rollout_stalls "ns" (λ _, "h") 4 cluster_lr (Some rolling_gt) 0 tr _ tr' _
    ltac:(vm_compute; discriminate) ltac:(vm_compute; reflexivity) ltac:(lia)
    (mem_run_trace _ _) _ (mem_run_trace _ _) _ 0 (Some 0) ltac:(lia));
    (apply reads_reverted_mem; [|exact Hrev]); apply Forall_forall; vm_compute; repeat constructor.
Defined.
