(* ===== verification/ClusterWipe.v ===== *)
(** * Recovery from a wipe deadlock (src/internal/controller/cluster_wipe_recovery.go)

    Cluster pods whose Redis is down and keeps restarting are recycled after a cooldown.  The
    marker of the cooldown lives in the status, which the caller persists. *)

From S2P Require Import Prelude GoStrings Slots Probe ClusterNodes ClusterState Topology Migration.
From S2P Require Import Info Gather Kube AuthReport Rollout ClusterRollout.

Open Scope Z_scope.
Open Scope go_scope.

(** ** Definitions *)

Definition clusterWipeRecoveryCooldown : duration := 120 * second.
Definition containerReasonOOMKilled : string := "OOMKilled".

Inductive clusterWipeAction := wipeClearMarker | wipeStartCooldown | wipeWait | wipeRecycle.

#[export] Instance clusterWipeAction_eq_dec : EqDecision clusterWipeAction.
Proof. solve_decision. Defined.

Record clusterPodHealth := mkPodHealth {
  ph_Name : string;
  ph_RedisReady : bool;
  ph_Restarted : bool;
  ph_OOMKilled : bool;
}.

Definition recyclable (h : clusterPodHealth) : bool :=
  negb (ph_RedisReady h) && ph_Restarted h && negb (ph_OOMKilled h).

Record clusterWipePlan := mkWipePlan {
  wp_action : clusterWipeAction;
  wp_recycle : list string;
}.

Definition recyclableNames (pods : list clusterPodHealth) : list string :=
  ph_Name <$> bfilter recyclable pods.

Definition planClusterWipeRecovery (pods : list clusterPodHealth) (since : option time) (now : time)
  (cooldown : duration) : clusterWipePlan :=
  let recycle := recyclableNames pods in
  if (length recycle =? 0)%nat then mkWipePlan wipeClearMarker []
  else match since with
       | None => mkWipePlan wipeStartCooldown []
       | Some t => if (time_sub now t <? cooldown)%Z then mkWipePlan wipeWait []
                   else mkWipePlan wipeRecycle recycle
       end.

(** The loop over the containers of a pod. *)
Definition container_health (h : clusterPodHealth) (cs : ContainerStatus) : clusterPodHealth :=
  if negb (cs_Name cs =? ComponentRedis) then h
  else mkPodHealth (ph_Name h) (cs_Ready cs) (1 <=? cs_RestartCount cs)%Z
         (if bool_decide (cs_LastTerminated cs = Some containerReasonOOMKilled) then true else ph_OOMKilled h).

Definition pod_health (name : string) (r : Pod + error) : clusterPodHealth :=
  let h := mkPodHealth name false false false in
  match r with
  | inl pod => foldl container_health h (pod_Containers pod)
  | inr _ => h
  end.

Definition gatherClusterPodHealth (lr : LittleRed) : prog (list clusterPodHealth) :=
  match lr_Cluster lr with
  | None => mret []
  | Some cluster =>
      for_each (λ health ref,
          r ← perform (GetPod (ref_Name ref));
          mret (health ++ [pod_health (ref_Name ref) r])) []
        (ClusterPodRefs (lr_Name lr) (cls_Shards cluster) (clusterReplicasPerShard (Some cluster)))
  end.

Definition set_WipeDeadlockSince (c : ClusterStatusInfo) (t : option time) : ClusterStatusInfo :=
  mkClusterStatus (cst_State c) (cst_Nodes c) (cst_OrphanedReplicas c) t (cst_Migration c).

(** [littleRed.Status.Cluster.WipeDeadlockSince = t], the cluster status being present. *)
Definition with_WipeDeadlockSince (lr : LittleRed) (t : option time) : LittleRed :=
  set_lr_Status lr (set_Cluster (lr_Status lr)
    (Some (set_WipeDeadlockSince (default empty_cluster_status (ls_Cluster (lr_Status lr))) t))).

(** The deletion of the stuck pods; an error stops it. *)
Fixpoint recycle_pods (names : list string) : prog (option error) :=
  match names with
  | [] => mret None
  | name :: rest =>
      e ← perform (Delete KindPod name);
      match e with
      | Some err => if error_not_found err then recycle_pods rest else mret (Some err)
      | None => recycle_pods rest
      end
  end.

Definition recoverClusterWipeDeadlock (lr : LittleRed) : prog (LittleRed * option error) :=
  health ← gatherClusterPodHealth lr;
  let since := cst_WipeDeadlockSince (default empty_cluster_status (ls_Cluster (lr_Status lr))) in
  now ← perform Now;
  let plan := planClusterWipeRecovery health since now clusterWipeRecoveryCooldown in
  match wp_action plan with
  | wipeClearMarker => mret (with_WipeDeadlockSince lr None, None)
  | wipeStartCooldown => mret (with_WipeDeadlockSince lr (Some now), None)
  | wipeWait => mret (with_WipeDeadlockSince lr since, None)
  | wipeRecycle =>
      e ← recycle_pods (wp_recycle plan);
      match e with
      | Some err => mret (with_WipeDeadlockSince lr since, Some err)
      | None => mret (with_WipeDeadlockSince lr None, None)
      end
  end.

(** ** What a pass does *)

(** The statuses of the Redis container; Kubernetes reports one. *)
Definition redis_statuses (pod : Pod) : list ContainerStatus :=
  filter (λ cs, cs_Name cs = ComponentRedis) (pod_Containers pod).

(** The kubelet reports a Redis that is not ready, has been restarted and did not die for want
    of memory. *)
Definition dead_redis (pod : Pod) : Prop :=
  ∃ cs, last (redis_statuses pod) = Some cs ∧ cs_Ready cs = false ∧ 1 ≤ cs_RestartCount cs ∧
    ∀ cs', cs' ∈ redis_statuses pod → cs_LastTerminated cs' ≠ Some "OOMKilled".

Lemma container_healths l h :
  let rs := filter (λ cs, cs_Name cs = ComponentRedis) l in
  let h' := foldl container_health h l in
  ph_Name h' = ph_Name h ∧
  match last rs with
  | None => h' = h
  | Some cs => ph_RedisReady h' = cs_Ready cs ∧ ph_Restarted h' = (1 <=? cs_RestartCount cs)%Z
  end ∧
  (ph_OOMKilled h' = true ↔ ph_OOMKilled h = true ∨ ∃ cs, cs ∈ rs ∧ cs_LastTerminated cs = Some "OOMKilled").
Proof.
  induction l as [|cs l IH] using rev_ind; cbv zeta.
  { split; [done|]. split; [done|]. split; [by left|]. intros [?|(cs & Hcs & _)]; [done|by apply elem_of_nil in Hcs]. }
  rewrite foldl_snoc, filter_app. cbv zeta in IH. set (h1 := foldl container_health h l) in *.
  destruct IH as (Hn & Hl & Ho). unfold container_health.
  destruct (String.eqb_spec (cs_Name cs) ComponentRedis) as [E|E]; cbn [negb].
  - rewrite (filter_cons_True _ _ []), filter_nil, last_snoc by done. cbn [ph_Name ph_RedisReady ph_Restarted ph_OOMKilled].
    split; [done|]. split; [done|]. setoid_rewrite elem_of_app. setoid_rewrite list_elem_of_singleton.
    unfold containerReasonOOMKilled in *. case_bool_decide as Hoom.
    + split; [|done]. intros _. right. exists cs. by split; [right|].
    + rewrite Ho. split.
      * intros [?|(c & ? & ?)]; [by left|right]. exists c. by split; [left|].
      * intros [?|(c & [?| ->] & ?)]; [by left|right; by exists c|done].
  - rewrite (filter_cons_False _ _ []), filter_nil, app_nil_r by done. done.
Qed.

Lemma recyclable_dead name r :
  recyclable (pod_health name r) = true ↔ ∃ pod, r = inl pod ∧ dead_redis pod.
Proof.
  unfold recyclable, pod_health. destruct r as [pod|e]; [|by split; [|intros (? & ? & _)]].
  destruct (container_healths (pod_Containers pod) (mkPodHealth name false false false)) as (_ & Hl & Ho).
  rewrite !andb_true_iff, !negb_true_iff, <-(not_true_iff_false (ph_OOMKilled _)), Ho. split.
  - intros [[Hr Hs] Hno]. exists pod. split; [done|]. unfold dead_redis, redis_statuses. destruct (last _) as [cs|].
    + destruct Hl as [H1 H2]. exists cs. split; [done|]. rewrite H1 in Hr. rewrite H2 in Hs. apply Z.leb_le in Hs.
      split; [done|]. split; [done|]. intros cs' Hin He. apply Hno. right. by exists cs'.
    + by rewrite Hl in Hs.
  - intros (pod' & [= <-] & cs & Hcs & Hr & Hs & Hno). unfold redis_statuses in Hcs. rewrite Hcs in Hl.
    destruct Hl as [-> ->]. split; [split; [done|by apply Z.leb_le]|].
    intros [?|(cs' & Hin & He)]; [done|by apply (Hno cs' Hin)].
Qed.

Section pass.
Context (lr : LittleRed).

Definition wipe_since : option time :=
  cst_WipeDeadlockSince (default empty_cluster_status (ls_Cluster (lr_Status lr))).

(** The pods of the cluster, by the specification. *)
Definition cluster_pods : list string :=
  match lr_Cluster lr with
  | None => []
  | Some cluster =>
      ref_Name <$> ClusterPodRefs (lr_Name lr) (cls_Shards cluster) (clusterReplicasPerShard (Some cluster))
  end.

(** The pass has read the pod of this name with a dead Redis. *)
Definition seen_stuck (tr : trace) (name : string) : Prop :=
  name ∈ cluster_pods ∧ ∃ pod, answered tr (GetPod name) (inl pod) ∧ dead_redis pod.

Definition elapsed (tr : trace) : Prop :=
  ∃ since now, wipe_since = Some since ∧ answered tr Now now ∧
    clusterWipeRecoveryCooldown ≤ time_sub now since.

Definition wipe_call (tr : trace) (c : call) : Prop :=
  match c with
  | Delete KindPod name => seen_stuck tr name ∧ elapsed tr
  | GetPod name => name ∈ cluster_pods
  | Now => True
  | _ => False
  end.

(** The health of the pods read so far. *)
Definition healths (tr : trace) (names : list string) (health : list clusterPodHealth) : Prop :=
  Forall2 (λ name h, ∃ r, answered tr (GetPod name) r ∧ h = pod_health name r) names health.

Lemma healths_mono tr tr' names health : tr ⊆ tr' → healths tr names health → healths tr' names health.
Proof.
  intros Hs Hh. eapply Forall2_impl; [done|]. intros name h (r & Hr & ->). exists r. split; [by apply Hs|done].
Qed.

Lemma gather_loop (refs done_ : list ClusterPodRef) : ∀ tr health,
  (∀ ref, ref ∈ refs → ref_Name ref ∈ cluster_pods) → healths tr (ref_Name <$> done_) health →
  traced wipe_call (λ tr' h, healths tr' (ref_Name <$> done_ ++ refs) h) tr
    (for_each (λ health ref, r ← perform (GetPod (ref_Name ref)); mret (health ++ [pod_health (ref_Name ref) r]))
       health refs).
Proof.
  revert done_. induction refs as [|ref refs IH]; intros done_ tr health Hin Hh; cbn [for_each].
  { by rewrite app_nil_r. }
  split; [apply Hin; left|]. intros r. cbn.
  replace (done_ ++ ref :: refs) with ((done_ ++ [ref]) ++ refs) by by rewrite <-app_assoc.
  apply IH; [intros ref' Hr; apply Hin; by right|]. rewrite fmap_app. apply Forall2_app.
  - by eapply healths_mono; [apply grown|].
  - apply Forall2_cons. split; [|constructor]. exists r. split; [apply just_answered|done].
Qed.

Lemma gather_traced tr0 :
  traced wipe_call (λ tr h, healths tr cluster_pods h) tr0 (gatherClusterPodHealth lr).
Proof.
  unfold gatherClusterPodHealth, cluster_pods. destruct (lr_Cluster lr) as [cluster|] eqn:E; [|constructor].
  apply (gather_loop _ []); [|constructor]. intros ref Hr. unfold cluster_pods. rewrite E.
  by apply list_elem_of_fmap_2.
Qed.

Lemma ph_Name_pod_health name r : ph_Name (pod_health name r) = name.
Proof.
  destruct r as [pod|]; [|done].
  apply (container_healths (pod_Containers pod) (mkPodHealth name false false false)).
Qed.

Lemma elem_of_recyclable tr health name :
  healths tr cluster_pods health → name ∈ recyclableNames health → seen_stuck tr name.
Proof.
  intros Hh Hn. apply list_elem_of_fmap in Hn as (h & -> & [Hin Hr]%elem_of_bfilter).
  apply list_elem_of_lookup in Hin as [i Hi]. destruct (Forall2_lookup_r _ _ _ _ _ Hh Hi) as (n & Hn & r & Ha & ->).
  rewrite ph_Name_pod_health. split; [by eapply list_elem_of_lookup_2|].
  apply recyclable_dead in Hr as (pod & -> & Hd). by exists pod.
Qed.

Lemma seen_stuck_mono tr tr' name : tr ⊆ tr' → seen_stuck tr name → seen_stuck tr' name.
Proof. intros Hs (Hn & pod & Hr & Hc). split; [done|]. exists pod. split; [by apply Hs|done]. Qed.

Lemma elapsed_mono tr tr' : tr ⊆ tr' → elapsed tr → elapsed tr'.
Proof. intros Hs (t & now & Ht & Hn & Hle). exists t, now. split; [done|]. split; [by apply Hs|done]. Qed.

Definition recycled (names : list string) (tr : trace) (e : option error) : Prop :=
  e = None → ∀ name, name ∈ names → Delete KindPod name ∈ calls tr.

Lemma recycle_traced names : ∀ tr,
  (∀ name, name ∈ names → seen_stuck tr name) → elapsed tr →
  traced wipe_call (recycled names) tr (recycle_pods names).
Proof.
  induction names as [|name names IH]; intros tr Hs He; cbn [recycle_pods].
  { intros _ name Hin. by apply elem_of_nil in Hin. }
  split; [split; [apply Hs; left|done]|]. intros x. set (tr1 := tr ++ _).
  assert (Hsub : tr ⊆ tr1) by apply grown.
  assert (Hrest : traced wipe_call (recycled (name :: names)) tr1 (recycle_pods names)).
  { eapply traced_mono; [done| |apply traced_grows, IH].
    - intros tr' e [Hg Hr] Hn n [->|Hin]%elem_of_cons; [|by apply Hr].
      apply (calls_mono _ _ Hg). unfold calls, tr1. rewrite fmap_app. apply elem_of_app. right. by apply list_elem_of_singleton.
    - intros n Hn. eapply seen_stuck_mono; [done|]. apply Hs. by right.
    - by eapply elapsed_mono. }
  destruct x as [err|]; [|exact Hrest]. cbn. destruct (error_not_found err); [exact Hrest|]. by apply traced_ret; intros ?.
Qed.

(** What the pass leaves: [reads] is what it read of each pod. *)
Definition wipe_result (tr : trace) (r : LittleRed * option error) : Prop :=
  ∃ (reads : list (string * (Pod + error))) now,
    reads.*1 = cluster_pods ∧ (∀ name x, (name, x) ∈ reads → answered tr (GetPod name) x) ∧ answered tr Now now ∧
    let stuck name := ∃ pod, (name, inl pod) ∈ reads ∧ dead_redis pod in
    ((∀ name, ¬ stuck name) ∧ r = (with_WipeDeadlockSince lr None, None)) ∨
    (∃ name, stuck name) ∧
    match wipe_since with
    | None => r = (with_WipeDeadlockSince lr (Some now), None)
    | Some since =>
        if decide (time_sub now since < clusterWipeRecoveryCooldown)
        then r = (with_WipeDeadlockSince lr (Some since), None)
        else (r = (with_WipeDeadlockSince lr None, None) ∧
              ∀ name, stuck name → Delete KindPod name ∈ calls tr) ∨
             ∃ err, r = (with_WipeDeadlockSince lr (Some since), Some err)
    end.

Lemma healths_reads tr names health :
  healths tr names health →
  ∃ reads : list (string * (Pod + error)), reads.*1 = names ∧
    (∀ name x, (name, x) ∈ reads → answered tr (GetPod name) x) ∧
    ∀ name, name ∈ recyclableNames health ↔ ∃ pod, (name, inl pod) ∈ reads ∧ dead_redis pod.
Proof.
  induction 1 as [|name h names health (r & Hr & ->) _ IH].
  { exists []. split; [done|]. split; [by intros ? ? ?%elem_of_nil|]. intros name.
    split; [by intros ?%elem_of_nil|by intros (? & ?%elem_of_nil & _)]. }
  destruct IH as (reads & <- & Hans & Hst). exists ((name, r) :: reads). split; [done|]. split.
  { intros n x [[= -> ->]|Hin]%elem_of_cons; [done|by apply Hans]. }
  intros n. unfold recyclableNames in *. unfold bfilter. cbn [List.filter].
  assert (Hone : recyclable (pod_health name r) = true ∧ n = name ↔ ∃ pod, (n, inl pod) = (name, r) ∧ dead_redis pod).
  { rewrite recyclable_dead. split.
    - intros [(pod & -> & Hd) ->]. by exists pod.
    - intros (pod & [= -> <-] & Hd). split; [by exists pod|done]. }
  transitivity ((recyclable (pod_health name r) = true ∧ n = name) ∨ n ∈ ph_Name <$> bfilter recyclable health).
  { destruct (recyclable (pod_health name r)); csimpl; rewrite ?elem_of_cons, ?ph_Name_pod_health; naive_solver. }
  rewrite Hone, Hst. split.
  - intros [(pod & E & Hd)|(pod & Hin & Hd)]; exists pod; (split; [|done]); apply elem_of_cons; [by left|by right].
  - intros (pod & [E|Hin]%elem_of_cons & Hd); [left|right]; by exists pod.
Qed.

Lemma recover_traced tr0 :
  traced wipe_call wipe_result tr0 (recoverClusterWipeDeadlock lr).
Proof.
  unfold recoverClusterWipeDeadlock. eapply traced_bind; [apply gather_traced|]. intros tr health _ Hh.
  apply traced_call; [done|]. intros now. set (tr1 := tr ++ _). fold wipe_since.
  assert (Hh1 : healths tr1 cluster_pods health) by by eapply healths_mono; [apply grown|].
  assert (Hnow : answered tr1 Now now) by apply just_answered.
  assert (Hresult : ∀ tr2 r, tr1 ⊆ tr2 →
    match recyclableNames health with
    | [] => r = (with_WipeDeadlockSince lr None, None)
    | _ => match wipe_since with
           | None => r = (with_WipeDeadlockSince lr (Some now), None)
           | Some since =>
               if decide (time_sub now since < clusterWipeRecoveryCooldown)
               then r = (with_WipeDeadlockSince lr (Some since), None)
               else (r = (with_WipeDeadlockSince lr None, None) ∧
                     ∀ name, name ∈ recyclableNames health → Delete KindPod name ∈ calls tr2) ∨
                    ∃ err, r = (with_WipeDeadlockSince lr (Some since), Some err)
           end
    end → wipe_result tr2 r).
  { intros tr2 r Hsub Hr. destruct (healths_reads _ _ _ (healths_mono _ _ _ _ Hsub Hh1)) as (reads & Hreads & Hans & Hst).
    exists reads, now. split; [done|]. split; [done|]. split; [by apply Hsub|]. cbv zeta.
    destruct (recyclableNames health) as [|name names].
    - left. split; [|done]. intros name. rewrite <-Hst. apply not_elem_of_nil.
    - right. split; [exists name; apply Hst; left|]. destruct wipe_since as [since|]; [|done]. destruct (decide _); [done|].
      destruct Hr as [[-> Hdel]|Herr]; [|by right]. left. split; [done|]. intros m. rewrite <-Hst. apply Hdel. }
  unfold planClusterWipeRecovery.
  destruct (recyclableNames health) as [|name names] eqn:Hn; cbn [length Nat.eqb wp_action]; [by apply Hresult|].
  destruct wipe_since as [since|] eqn:Hsince; [|by apply Hresult].
  destruct (Z.ltb_spec (time_sub now since) clusterWipeRecoveryCooldown) as [Hlt|Hge]; cbn [wp_action wp_recycle].
  { apply Hresult; [done|]. by rewrite decide_True. }
  eapply traced_bind; [apply recycle_traced|].
  - intros n Hin. rewrite <-Hn in Hin. by eapply elem_of_recyclable.
  - by exists since, now.
  - intros tr2 e Hsub Hrec. destruct e as [err|]; apply Hresult; try done; rewrite decide_False by lia;
      [right; by exists err|left]. split; [done|]. by apply Hrec.
Qed.

(** C18. Recovery from a wipe deadlock deletes only dead pods.  Whatever the API server
    answers, the pass writes nothing but deletions of cluster pods which it has itself read
    with a Redis container that the kubelet reports as not ready, restarted at least once and
    not killed for memory, and only when the marker has been set for the cooldown; the marker
    is armed when such a pod is first seen, kept while the cooldown runs or a deletion failed,
    and cleared once all of them are deleted or none is left. *)
Theorem wipe_recovery_safe :
  traced wipe_call wipe_result [] (recoverClusterWipeDeadlock lr).
Proof. apply recover_traced. Qed.
End pass.

(** The cooldown belongs to the instance, not to the pod: a pod that shows the signature for
    the first time when the marker of another one has expired is recycled at once. *)
Lemma wipe_cooldown_shared :
  let a := mkPodHealth "lr-shard-0-0" false true false in
  let b := mkPodHealth "lr-shard-1-0" false true false in
  let plan pods since now := planClusterWipeRecovery pods since now clusterWipeRecoveryCooldown in
  plan [a] None 0 = mkWipePlan wipeStartCooldown [] ∧
  plan [a] (Some 0) (119 * second) = mkWipePlan wipeWait [] ∧
  plan [a; b] (Some 0) (120 * second) = mkWipePlan wipeRecycle ["lr-shard-0-0"; "lr-shard-1-0"].
Proof. by vm_compute. Qed.

(** *** Witness: of two pods, one with a dead Redis *)

Definition wiped_lr : LittleRed := with_WipeDeadlockSince cluster_lr (Some 0).
Definition dead_pod : Pod :=
  mkPod "lr-shard-0-1" "" false ∅ ∅ [mkContainerStatus ComponentRedis false 3 (Some "Error")] (Some 0) false.
Definition wiped_server : Memory :=
  mkMemory {[ "lr-shard-0-0" := shard_pod 0 "old"; "lr-shard-0-1" := dead_pod ]} wiped_lr (rolling_sts 1)
    sample_wire (200 * second) ∅ [].

Lemma wipe_recovery_safe_witness :
  let tr := mem_trace wiped_server (recoverClusterWipeDeadlock wiped_lr) in
  bfilter (λ c, match c with Delete _ _ => true | _ => false end) (calls tr) = [Delete KindPod "lr-shard-0-1"] ∧
  ∃ tr1, tr1 ⊆ tr ∧ seen_stuck wiped_lr tr1 "lr-shard-0-1".
Proof.
  intros tr. assert (Hin : Delete KindPod "lr-shard-0-1" ∈ calls tr).
  { apply list_elem_of_In. vm_compute. auto 10. }
  split; [vm_compute; reflexivity|].
  destruct (traced_run_calls _ _ _ _ _ _ (wipe_recovery_safe wiped_lr) (mem_run_trace wiped_server _) Hin)
    as (tr1 & Hsub & Hs & _). by exists tr1.
Defined.
