(* ===== verification/ClusterRepair.v ===== *)
(** * Repairing a cluster (src/internal/controller/cluster_reconcile.go)

    The commands of the cluster client (src/internal/redis/cluster_client.go), the gather of
    the controller, the repair loop with its steps (lost quorum, partitions, ghost nodes,
    missing shards, consolidated shards, replication), the bootstrap of an empty cluster and
    the report of the status.  The result of a handler is the local object and the result
    with or without an error, or a panic. *)

From S2P Require Import Prelude GoStrings Slots Probe ClusterNodes ClusterState Topology Reshard Migration.
From S2P Require Import Info Gather Kube AuthReport ReshardDance Rollout ClusterRollout.

Open Scope Z_scope.
Open Scope go_scope.

(** ** Definitions *)

(** *** The client *)

Definition cluster_do (addr : string) (cmd : cluster_command) (prefix : string)
  (f : cluster_answer cmd → option error) : prog (option error) :=
  r ← perform (ClusterDo addr cmd);
  mret match f r with Some err => Some (errorf prefix err) | None => None end.

Definition ClusterMeet (addr newHost : string) (newPort : Z) : prog (option error) :=
  cluster_do addr (Meet newHost newPort) ("failed to meet node " +:+ address newHost newPort) id.
Definition ClusterForget (addr nodeIDToForget : string) : prog (option error) :=
  cluster_do addr (Forget nodeIDToForget) ("failed to forget node " +:+ nodeIDToForget) id.
Definition ClusterAddSlots (addr : string) (slots : list Z) : prog (option error) :=
  cluster_do addr (AddSlots slots) "failed to add slots" id.
Definition ClusterReplicate (replicaAddr masterNodeID : string) : prog (option error) :=
  cluster_do replicaAddr (Replicate masterNodeID) ("failed to replicate master " +:+ masterNodeID) id.
Definition ClusterFailover (addr : string) : prog (option error) :=
  cluster_do addr Failover "failed to initiate failover" id.
Definition ClusterFailoverTakeover (addr : string) : prog (option error) :=
  cluster_do addr FailoverTakeover "failed to initiate failover takeover" id.

(** *** Defaults *)

Definition DefaultReplicasPerShard : Z := 1.
Definition DefaultClusterNodeTimeout : Z := 15000.
Definition DefaultFailoverGracePeriod : Z := 15.

Definition ClusterSpec_SetDefaults (c : ClusterSpec) : ClusterSpec :=
  mkClusterSpec
    (if (cls_Shards c =? 0)%Z then DefaultClusterShards else cls_Shards c)
    (Some (default DefaultReplicasPerShard (cls_ReplicasPerShard c)))
    (if (cls_ClusterNodeTimeout c =? 0)%Z then DefaultClusterNodeTimeout else cls_ClusterNodeTimeout c)
    (if (cls_FailoverGracePeriod c =? 0)%Z then DefaultFailoverGracePeriod else cls_FailoverGracePeriod c)
    (cls_ReshardKeyBatchSize c) (cls_ReshardMaxKeysPerReconcile c) (cls_ReshardMigrateTimeoutMillis c).

(** [cluster] after [if cluster == nil { cluster = &ClusterSpec{}; cluster.SetDefaults() }]. *)
Definition cluster_or_default (lr : LittleRed) : ClusterSpec :=
  match lr_Cluster lr with
  | Some c => c
  | None => ClusterSpec_SetDefaults (mkClusterSpec 0 None 0 0 0 0 0)
  end.

Definition GetTotalNodes (c : ClusterSpec) : Z :=
  wrap64 (cls_Shards c * wrap64 (1 + default 0 (cls_ReplicasPerShard c))).

(** The loops of this file. *)
Definition here (line : Z) : site := [line; -1].

(** What a handler returns: the local object, and a result, an error or a panic. *)
Abbreviation handled := (LittleRed * outcome (ctrl_result + error))%type.

Section repair.
Context `{GoRuntime}.

(** *** The gather *)

(** A nil cluster specification panics. *)
Definition gatherGroundTruth (lr : LittleRed) : prog (outcome ClusterGroundTruth) :=
  password ← getRedisPassword lr;
  match lr_Cluster lr with
  | None => mret Panic
  | Some cluster =>
      clusterPods ← for_each (λ pods ref,
          r ← perform (GetPod (ref_Name ref));
          mret match r with
               | inl pod => if pod_IP pod =? "" then pods else <[pod_IP pod := ref_Name ref]> pods
               | inr _ => pods
               end) (∅ : gmap string string)
        (ClusterPodRefs (lr_Name lr) (cls_Shards cluster) (clusterReplicasPerShard (Some cluster)));
      w ← perform (ProbeServers password);
      mret (Ok (GatherClusterGroundTruth (operatorGatherer w) clusterPods))
  end.

(** The reason is "" for a confirmed address. *)
Definition confirmPodIP (podName ip : string) : prog (bool * string) :=
  if (podName =? "") || (ip =? "") then mret (false, "unknown-pod")
  else
    r ← perform (GetPodUncached podName);
    mret match r with
         | inr err => if error_not_found err then (false, "pod-gone") else (false, "confirm-failed")
         | inl pod =>
             if pod_Terminating pod then (false, "pod-terminating")
             else if negb (pod_IP pod =? ip) then (false, "ip-changed")
             else (true, "")
         end.

(** *** Step 0: lost quorum *)

Definition live_ids (s : site) (gt : ClusterGroundTruth) : gset string :=
  list_to_set (cn_NodeID <$> range_values s (gt_Nodes gt)).

(** A replica of a master that is not among the nodes. *)
Definition orphan (live : gset string) (n : ClusterNodeState) : bool :=
  is_replica n && negb ((cn_MasterNodeID n =? "") || (cn_MasterNodeID n =? "-")
                        || bool_decide (cn_MasterNodeID n ∈ live)).

(** The number of replicas promoted. *)
Definition recover_quorum (gt : ClusterGroundTruth) : prog nat :=
  let live := live_ids (here 197) gt in
  for_each (λ promoted node,
      if orphan live node
      then e ← ClusterFailoverTakeover (node_addr node);
           mret match e with Some _ => promoted | None => S promoted end
      else mret promoted) 0%nat (range_values (here 202) (gt_Nodes gt)).

(** *** Step 1: partitions *)

Definition orphan_timeout (c : ClusterSpec) : duration :=
  let gracePeriod := if (0 <? cls_FailoverGracePeriod c)%Z then cls_FailoverGracePeriod c else 15 in
  wrap64 (wrap64 (cls_ClusterNodeTimeout c * millisecond) + wrap64 (gracePeriod * second)).

Definition tracked_orphans (lr : LittleRed) : gmap string OrphanedReplicaInfo :=
  match ls_Cluster (lr_Status lr) with
  | None => ∅
  | Some c => foldl (λ m o, <[or_PodName o := o]> m) ∅ (cst_OrphanedReplicas c)
  end.

(** [orphanInfo] of a node. *)
Definition orphan_info (tracked : gmap string OrphanedReplicaInfo) (now : time) (n : ClusterNodeState)
  : OrphanedReplicaInfo :=
  default (mkOrphan (cn_PodName n) (cn_NodeID n) (cn_MasterNodeID n) now) (tracked !! cn_PodName n).

(** One node of the loop: the orphans still waited for, and the number promoted. *)
Definition track_orphan (tracked : gmap string OrphanedReplicaInfo) (timeout : duration) (now : time)
  (gt : ClusterGroundTruth) (live : gset string) (acc : list OrphanedReplicaInfo * nat) (node : ClusterNodeState)
  : prog (list OrphanedReplicaInfo * nat) :=
  let '(current, promoted) := acc in
  if negb (orphan live node && bool_decide (cn_MasterNodeID node ∈ gt_GhostNodes gt)) then mret acc
  else
    let info := orphan_info tracked now node in
    if (timeout <=? time_sub now (or_DetectedAt info))%Z
    then e ← ClusterFailoverTakeover (node_addr node);
         mret (current, match e with Some _ => promoted | None => S promoted end)
    else mret (current ++ [info], promoted).

Definition track_orphans (tracked : gmap string OrphanedReplicaInfo) (timeout : duration) (now : time)
  (gt : ClusterGroundTruth) : prog (list OrphanedReplicaInfo * nat) :=
  for_each (track_orphan tracked timeout now gt (live_ids (here 242) gt)) ([], 0%nat)
    (range_values (here 264) (gt_Nodes gt)).

Definition set_OrphanedReplicas (c : ClusterStatusInfo) (l : list OrphanedReplicaInfo) : ClusterStatusInfo :=
  mkClusterStatus (cst_State c) (cst_Nodes c) l (cst_WipeDeadlockSince c) (cst_Migration c).

Definition with_Cluster (lr : LittleRed) (c : ClusterStatusInfo) : LittleRed :=
  set_lr_Status lr (set_Cluster (lr_Status lr) (Some c)).

Definition cluster_status (lr : LittleRed) : ClusterStatusInfo :=
  default empty_cluster_status (ls_Cluster (lr_Status lr)).

(** The introductions of a plan; addresses that are not confirmed are skipped. *)
Definition meet_targets (seedAddr : string) (targets : list ClusterNodeState) : prog unit :=
  for_each (λ _ node,
      ok ← confirmPodIP (cn_PodName node) (cn_PodIP node);
      if ok.1 : bool
      then _ ← ClusterMeet seedAddr (cn_PodIP node) RedisPort; mret tt
      else mret tt) tt targets.

Definition returns (lr : LittleRed) (res : ctrl_result) : handled := (lr, Ok (inl res)).
Definition fails (lr : LittleRed) (err : error) : handled := (lr, Ok (inr err)).
Definition requeue : ctrl_result := mkResult true 0.

(** [fast] is the fast requeue interval. *)
Definition introduce_nodes (fast : duration) (lr : LittleRed) (gt : ClusterGroundTruth) : prog handled :=
  match PlanPartitionMeets gt with
  | Ok plan =>
      match mp_Seed plan with
      | None => mret (returns lr (requeue_after fast))
      | Some seed =>
          ok ← confirmPodIP (cn_PodName seed) (cn_PodIP seed);
          if negb ok.1 then mret (returns lr (requeue_after fast))
          else
            _ ← meet_targets (node_addr seed) (mp_Targets plan);
            mret (returns lr (requeue_after fast))
      end
  | _ => mret (lr, Panic)
  end.

Definition heal_partitions (fast : duration) (lr : LittleRed) (cluster : ClusterSpec)
  (gt : ClusterGroundTruth) : prog handled :=
  now ← perform Now;
  r ← track_orphans (tracked_orphans lr) (orphan_timeout cluster) now gt;
  let '(current, promoted) := r : list OrphanedReplicaInfo * nat in
  let stored := cst_OrphanedReplicas (cluster_status lr) in
  let waiting (lr : LittleRed) :=
    if (0 <? promoted)%nat || (0 <? length current)%nat then mret (returns lr (requeue_after fast))
    else introduce_nodes fast lr gt in
  if negb (length stored =? length current)%nat || (0 <? promoted)%nat
  then
    let lr1 := with_Cluster lr (set_OrphanedReplicas (cluster_status lr) current) in
    u ← perform (UpdateStatus lr1);
    match u with
    | inr err => mret (if error_conflict err then returns lr1 requeue else fails lr1 err)
    | inl written => waiting written
    end
  else waiting (with_Cluster lr (cluster_status lr)).

(** *** Step 2: ghost nodes *)

Definition clusterStatefulSetName (lr : LittleRed) : string := lr_Name lr +:+ "-cluster".
Definition labelAppComponent : string := "app.kubernetes.io/component".
Definition ComponentCluster : string := "cluster".
Definition LabelShard : string := "redis.chuck-chuck-chuck.net/shard".

Definition isLegacyClusterStatefulSet (sts : StatefulSet) (lr : LittleRed) : bool :=
  (sts_Name sts =? clusterStatefulSetName lr)
  && (at_key (sts_Labels sts) labelAppComponent =? ComponentCluster)
  && negb (bool_decide (is_Some (sts_Labels sts !! LabelShard)))
  && (sts_Replicas sts =? GetTotalNodes (cluster_or_default lr))%Z
  && negb (sts_ControllerUID sts =? "") && (sts_ControllerUID sts =? lr_UID lr).

Definition detectLegacyClusterStatefulSet (lr : LittleRed) : prog (bool + error) :=
  r ← perform (GetStatefulSet (clusterStatefulSetName lr));
  mret match r with
       | inl sts => inl (isLegacyClusterStatefulSet sts lr)
       | inr err => if error_not_found err then inl false else inr err
       end.

(** The masters of the replicas among the nodes. *)
Definition protectedMasters (gt : ClusterGroundTruth) : gset string :=
  list_to_set (cn_MasterNodeID <$>
    bfilter (λ n, is_replica n && negb (cn_MasterNodeID n =? "") && negb (cn_MasterNodeID n =? "-"))
      (range_values (here 406) (gt_Nodes gt))).

Definition ghostsToRemove (gt : ClusterGroundTruth) : list string :=
  bfilter (λ id, negb (bool_decide (id ∈ protectedMasters gt))) (gt_GhostNodes gt).

(** The removal of one ghost at every reachable node; failures are ignored.  The order of
    the inner loop may differ from ghost to ghost. *)
Definition forget_everywhere (line i : Z) (keep : ClusterNodeState → bool) (gt : ClusterGroundTruth) (id : string)
  : prog unit :=
  for_each (λ _ node,
      if keep node then _ ← ClusterForget (node_addr node) id; mret tt else mret tt) tt
    (range_values [line; i; -1] (gt_Nodes gt)).

Definition forget_ghosts (gt : ClusterGroundTruth) (ghosts : list string) : prog unit :=
  for_each (λ _ x, forget_everywhere 425 x.1 cn_Reachable gt x.2) tt
    (zip (seqZ 0 (Z.of_nat (length ghosts))) ghosts).

(** *** Step 3: missing shards *)

(** The validation of the assignments: the owner of each shard ("" for none), or [None] on a
    range that is not a shard. *)
Definition claim_slot (expected : list SlotRange) (node : ClusterNodeState) (owners : option (list string))
  (slotStr : string) : option (list string) :=
  owners ← owners;
  match ParseSlotRange slotStr with
  | None => Some owners
  | Some (start, end_) =>
      let idx := range_index 0 expected start end_ in
      if (idx =? -1)%Z then None else Some (<[Z.to_nat idx := cn_NodeID node]> owners)
  end.

Definition shard_owners (shards : Z) (gt : ClusterGroundTruth) : option (list string) :=
  let expected := GenerateSlotRanges shards in
  foldl (λ owners node, foldl (claim_slot expected node) owners (cn_Slots node))
    (Some (replicate (Z.to_nat shards) "")) (range_values (here 449) (gt_Nodes gt)).

Definition missing_shards (owners : list string) : list Z :=
  omap (λ '(i, owner), if owner =? "" then Some i else None)
    (zip (seqZ 0 (Z.of_nat (length owners))) owners).

(** The intended master of a shard, if it may take the shard. *)
Definition intended_master (lr : LittleRed) (gt : ClusterGroundTruth) (i : Z) : option ClusterNodeState :=
  let node := gt_Nodes gt !! shardMasterPodName (lr_Name lr) i in
  if SafeMissingShardTarget node then node else None.

(** The slots of a range; a range that cannot be parsed is no slots. *)
Definition range_slots (r : SlotRange) : outcome (list Z) :=
  match ExpandSlotRange (FormatSlotRange (Start r) (End r)) with
  | Err => Ok []
  | o => o
  end.

(** The number of shards assigned, or a panic. *)
Fixpoint assign_shards (lr : LittleRed) (gt : ClusterGroundTruth) (expected : list SlotRange)
  (missing : list Z) (ops : nat) : prog (outcome nat) :=
  match missing with
  | [] => mret (Ok ops)
  | i :: rest =>
      match intended_master lr gt i with
      | None => assign_shards lr gt expected rest ops
      | Some target =>
          match expected !! Z.to_nat i with
          | None => mret Panic
          | Some r =>
              match range_slots r with
              | Ok slots =>
                  e ← ClusterAddSlots (node_addr target) slots;
                  assign_shards lr gt expected rest (match e with Some _ => ops | None => S ops end)
              | _ => mret Panic
              end
          end
      end
  end.

(** *** Step 4: replication *)

(** The reattachment of the empty masters, until one succeeds. *)
Fixpoint reattach (gt : ClusterGroundTruth) (candidates : list ClusterNodeState) (expectedReplicas : Z)
  (emptyMasters : list ClusterNodeState) : prog bool :=
  match emptyMasters with
  | [] => mret false
  | em :: rest =>
      match chooseReattachTarget (cn_PodName em) candidates (GetMastersWithReplicas gt) expectedReplicas with
      | None => reattach gt candidates expectedReplicas rest
      | Some target =>
          if negb (NodeKnows gt (cn_NodeID em) (cn_NodeID target))
          then reattach gt candidates expectedReplicas rest
          else
            e ← ClusterReplicate (node_addr em) (cn_NodeID target);
            match e with
            | Some _ => reattach gt candidates expectedReplicas rest
            | None => mret true
            end
      end
  end.

Definition repair_replication (cluster : ClusterSpec) (gt : ClusterGroundTruth) : prog bool :=
  if bool_decide (cls_ReplicasPerShard cluster = Some 0) then mret false
  else reattach gt (range_values (here 570) (gt_Nodes gt)) (default 1 (cls_ReplicasPerShard cluster))
         (GetEmptyMasters gt).

(** *** The StatefulSets of the shards *)

Record shard_sets := mkShardSets {
  ss_byShard : gmap Z StatefulSet;
  ss_allExist : bool;
  ss_ready : Z;
  ss_total : Z;
}.

Fixpoint read_shards (lr : LittleRed) (ks : list Z) (acc : shard_sets) : prog (shard_sets + error) :=
  match ks with
  | [] => mret (inl acc)
  | k :: rest =>
      r ← perform (GetStatefulSet (clusterShardStatefulSetName (lr_Name lr) k));
      match r with
      | inr err =>
          if error_not_found err
          then read_shards lr rest (mkShardSets (ss_byShard acc) false (ss_ready acc) (ss_total acc))
          else mret (inr err)
      | inl sts =>
          read_shards lr rest
            (mkShardSets (<[k := sts]> (ss_byShard acc)) (ss_allExist acc)
               (wrap32 (ss_ready acc + sts_ReadyReplicas sts)) (wrap32 (ss_total acc + sts_Replicas sts)))
      end
  end.

Definition clusterShardStatefulSets (lr : LittleRed) : prog (shard_sets + error) :=
  read_shards lr (seqZ 0 (clusterShardCount lr)) (mkShardSets ∅ true 0 0).

(** *** The status *)

(** The details of the expected pods that were gathered. *)
Definition reported_nodes (lr : LittleRed) (shards rps : Z) (gt : ClusterGroundTruth) : list ReportedNode :=
  omap (λ ref, n ← gt_Nodes gt !! ref_Name ref;
          Some (mkReportedNode (ref_Name ref) (cn_NodeID n) (cn_Role n) (cn_MasterNodeID n)
                  (str_join "," (cn_Slots n))))
    (ClusterPodRefs (lr_Name lr) shards rps).

Definition set_gathered (c : ClusterStatusInfo) (state : string) (nodes : list ReportedNode) : ClusterStatusInfo :=
  mkClusterStatus state nodes (cst_OrphanedReplicas c) (cst_WipeDeadlockSince c) (cst_Migration c).

Definition mark_running (st : LittleRedStatus) : LittleRedStatus :=
  let st := set_Phase st PhaseRunning ConditionReady in
  set_Conditions st (SetStatusCondition (ls_Conditions st) ConditionReady ConditionTrue
    "ClusterHealthy" "All pods ready and cluster state is ok").
Definition mark_initializing (st : LittleRedStatus) : LittleRedStatus :=
  let st := set_Phase st (if bool_decide (ls_Phase st = PhasePending) then PhasePending else PhaseInitializing)
              "Initializing" in
  set_Conditions st (SetStatusCondition (ls_Conditions st) ConditionReady ConditionFalse
    "ClusterNotReady" "Waiting for cluster to be healthy").

(** The status after the gather, and whether it is written: an empty list of nodes never
    equals the absent list it is stored as. *)
Definition cluster_report (lr : LittleRed) (sets : shard_sets) (gt : ClusterGroundTruth) : LittleRedStatus * bool :=
  let shards := wrap32 (match lr_Cluster lr with Some c => cls_Shards c | None => DefaultClusterShards end) in
  let rps := clusterReplicasPerShard (lr_Cluster lr) in
  let st := set_Redis (lr_Status lr) (ss_ready sets, ss_total sets) in
  let clusterOK := IsHealthy gt (ss_total sets) shards in
  let nodes := reported_nodes lr shards rps gt in
  let st := set_Cluster st (Some (set_gathered (cluster_status lr) (gt_ClusterState gt) nodes)) in
  let st := if (ss_ready sets =? ss_total sets)%Z && clusterOK then mark_running st else mark_initializing st in
  (st, negb (bool_decide (st = lr_Status lr)) || (length nodes =? 0)%nat).

Definition requeue_by_phase (lr : LittleRed) : ctrl_result :=
  let '(fast, steady) := GetRequeueIntervals lr in
  requeue_after (if bool_decide (ls_Phase (lr_Status lr) = PhaseRunning) then steady else fast).

(** [gt] is [None] for a fresh gather. *)
Definition updateClusterStatus (lr : LittleRed) (gt : option ClusterGroundTruth) : prog handled :=
  r ← clusterShardStatefulSets lr;
  match r with
  | inr err => mret (fails lr err)
  | inl sets =>
      g ← match gt with Some g => mret (Ok g) | None => gatherGroundTruth lr end;
      match g with
      | Ok gt =>
          let '(st, changed) := cluster_report lr sets gt in
          let lr1 := set_lr_Status lr st in
          if changed : bool
          then
            u ← perform (UpdateStatus lr1);
            match u with
            | inr err => mret (if error_conflict err then returns lr1 requeue else fails lr1 err)
            | inl written => mret (returns written (requeue_by_phase written))
            end
          else mret (returns lr1 (requeue_by_phase lr1))
      | _ => mret (lr, Panic)
      end
  end.

(** *** Bootstrap *)

Definition AnnotationDebugSkipSlotAssignment : string :=
  "redis.chuck-chuck-chuck.net/debug-skip-slot-assignment".

Definition podAtOwnStatefulSetRevision (pod : Pod) (sts : option StatefulSet) : bool :=
  match sts with
  | None => false
  | Some sts =>
      let rev := at_key (pod_Labels pod) labelControllerRevisionHash in
      negb (rev =? "") && ((rev =? sts_CurrentRevision sts) || (rev =? sts_UpdateRevision sts))
  end.

Record bootstrap_facts := mkBootstrap {
  bf_podIPs : gmap string string;
  bf_nodeIDs : gmap string string;
  bf_candidates : gmap string MeetCandidate;
}.

(** The loop over the pods: the facts of all of them, or an early return. *)
Fixpoint bootstrap_read (password : string) (sets : gmap Z StatefulSet) (refs : list ClusterPodRef)
  (facts : bootstrap_facts) : prog (bootstrap_facts + (ctrl_result + error)) :=
  match refs with
  | [] => mret (inl facts)
  | ref :: rest =>
      let wait := mret (inr (inl (requeue_after second))) in
      let name := ref_Name ref in
      r ← perform (GetPodUncached name);
      match r with
      | inr err => if error_not_found err then wait else mret (inr (inr err))
      | inl pod =>
          if pod_Terminating pod then wait
          else if (pod_IP pod =? "") || negb (podAtOwnStatefulSetRevision pod (sets !! ref_ShardIdx ref)) then wait
          else
            let addr := address (pod_IP pod) RedisPort in
            w1 ← perform (ProbeServers password);
            match GetMyID w1 addr with
            | inr _ => wait
            | inl id =>
                w2 ← perform (ProbeServers password);
                let cand :=
                  match GetClusterNodes w2 addr with
                  | inr _ => mkMeetCandidate name (pod_IP pod) id true false [] []
                  | inl view => MeetCandidateFromNodes name (pod_IP pod) id view
                  end in
                bootstrap_read password sets rest
                  (mkBootstrap (<[name := pod_IP pod]> (bf_podIPs facts)) (<[name := id]> (bf_nodeIDs facts))
                     (<[name := cand]> (bf_candidates facts)))
            end
      end
  end.

Definition no_candidate : MeetCandidate := mkMeetCandidate "" "" "" false false [] [].

Definition admissible (facts : bootstrap_facts) (name : string) : bool :=
  AdmissibleWhenConfirmed
    (AttributeMeetTarget (default no_candidate (bf_candidates facts !! name))
       (list_to_set (map_to_list (bf_nodeIDs facts)).*2)).

Definition bootstrapMeetRound (lr : LittleRed) (refs : list ClusterPodRef) (facts : bootstrap_facts) : prog bool :=
  let seedName := shardMasterPodName (lr_Name lr) 0 in
  let seedAddr := address (at_key (bf_podIPs facts) seedName) RedisPort in
  if negb (admissible facts seedName) then mret false
  else
    _ ← for_each (λ _ ref,
        if ref_Name ref =? seedName then mret tt
        else if negb (admissible facts (ref_Name ref)) then mret tt
        else _ ← ClusterMeet seedAddr (at_key (bf_podIPs facts) (ref_Name ref)) RedisPort; mret tt) tt refs;
    mret true.

(** The slots of shard [k] to its master, unless the master has some.  [false] is a panic. *)
Definition bootstrap_slots (lr : LittleRed) (password : string) (facts : bootstrap_facts)
  (ranges : list SlotRange) (k : Z) : prog bool :=
  let masterName := shardMasterPodName (lr_Name lr) k in
  let masterAddr := address (at_key (bf_podIPs facts) masterName) RedisPort in
  let masterID := at_key (bf_nodeIDs facts) masterName in
  w ← perform (ProbeServers password);
  let hasSlots := match GetClusterNodes w masterAddr with
                  | inl nodes => existsb (λ n, (ci_NodeID n =? masterID) && negb (length (ci_Slots n) =? 0)%nat) nodes
                  | inr _ => false
                  end in
  if hasSlots : bool then mret true
  else match ranges !! Z.to_nat k with
       | None => mret false
       | Some r =>
           match range_slots r with
           | Ok slots => _ ← ClusterAddSlots masterAddr slots; mret true
           | _ => mret false
           end
       end.

Definition bootstrap_replica (lr : LittleRed) (password : string) (facts : bootstrap_facts) (ref : ClusterPodRef)
  : prog unit :=
  if ref_IsMaster ref then mret tt
  else
    let masterID := at_key (bf_nodeIDs facts) (shardMasterPodName (lr_Name lr) (ref_ShardIdx ref)) in
    let replicaAddr := address (at_key (bf_podIPs facts) (ref_Name ref)) RedisPort in
    w ← perform (ProbeServers password);
    let alreadyCorrect :=
      match GetClusterNodes w replicaAddr with
      | inl nodes => existsb (λ n, (ci_NodeID n =? at_key (bf_nodeIDs facts) (ref_Name ref)) && (ci_MasterID n =? masterID)) nodes
      | inr _ => false
      end in
    if alreadyCorrect : bool then mret tt
    else _ ← ClusterReplicate replicaAddr masterID; mret tt.

(** The waiting time for the gossip is not modelled. *)
Definition bootstrapCluster (lr : LittleRed) : prog handled :=
  let cluster := cluster_or_default lr in
  password ← getRedisPassword lr;
  let refs := ClusterPodRefs (lr_Name lr) (cls_Shards cluster) (clusterReplicasPerShard (Some cluster)) in
  s ← clusterShardStatefulSets lr;
  match s with
  | inr err => mret (fails lr err)
  | inl sets =>
      if negb (ss_allExist sets) then mret (returns lr (requeue_after second))
      else
        r ← bootstrap_read password (ss_byShard sets) refs (mkBootstrap ∅ ∅ ∅);
        match r with
        | inr res => mret (lr, Ok res)
        | inl facts =>
            met ← bootstrapMeetRound lr refs facts;
            if negb met then mret (returns lr (requeue_after second))
            else
              ok ← (if at_key (lr_Annotations lr) AnnotationDebugSkipSlotAssignment =? annotationValueTrue
                    then mret true
                    else for_each (λ ok k, if ok : bool then bootstrap_slots lr password facts
                                                    (GenerateSlotRanges (cls_Shards cluster)) k
                                           else mret false) true (seqZ 0 (cls_Shards cluster)));
              if negb ok then mret (lr, Panic)
              else
                _ ← for_each (λ _ ref, bootstrap_replica lr password facts ref) tt refs;
                updateClusterStatus lr None
        end
  end.

(** *** The repair loop *)

Definition repairCluster (lr : LittleRed) (gt : ClusterGroundTruth) : prog handled :=
  let fast := (GetRequeueIntervals lr).1 in
  let soon := mret (returns lr (requeue_after fast)) in
  password ← getRedisPassword lr;
  match lr_Cluster lr with
  | None => mret (lr, Panic)
  | Some cluster =>
  let shards := cls_Shards cluster in
  promoted ← (if (CountMasters gt <=? Z.quot shards 2)%Z then recover_quorum gt else mret 0%nat);
  if (0 <? promoted)%nat then soon
  else if HasPartitions gt then heal_partitions fast lr cluster gt
  else
  legacy ← (if HasGhostNodes gt
            then d ← detectLegacyClusterStatefulSet lr;
                 mret match d with inl b => b | inr _ => false end
            else mret false);
  if legacy : bool then soon
  else if negb (length (ghostsToRemove gt) =? 0)%nat
  then _ ← forget_ghosts gt (ghostsToRemove gt); soon
  else if (shards <? 0)%Z then mret (lr, Panic)
  else
  match shard_owners shards gt with
  | None => soon
  | Some owners =>
  ops ← assign_shards lr gt (GenerateSlotRanges shards) (missing_shards owners) 0;
  match ops with
  | Ok n =>
  if (0 <? n)%nat then soon
  else
  match reshardConsolidated password cluster fast gt with
  | Ok p =>
  x ← p;
  if (x : ctrl_result * bool).2 then mret (returns lr x.1)
  else
  attached ← repair_replication cluster gt;
  if attached : bool then soon
  else if (gt_TotalSlots gt =? 0)%Z && negb (existsb is_replica (range_values (here 614) (gt_Nodes gt)))
  then bootstrapCluster lr
  else updateClusterStatus lr None
  | _ => mret (lr, Panic)
  end
  | _ => mret (lr, Panic)
  end
  end
  end.
End repair.

(** ** When a command is justified *)

Section justified.
Context `{GoRuntime} (lr : LittleRed) (cluster : ClusterSpec) (gt : ClusterGroundTruth).

Abbreviation node_of n := (∃ p, gt_Nodes gt !! p = Some n).

(** This pass has read, uncached, a pod that has the address and is not terminating. *)
Definition confirmed (tr : trace) (name ip : string) : Prop :=
  ∃ pod, answered tr (GetPodUncached name) (inl pod) ∧ pod_Terminating pod = false ∧ pod_IP pod = ip.

(** The node was gathered with no master: its own is not among the nodes. *)
Definition orphaned (n : ClusterNodeState) : Prop :=
  node_of n ∧ is_replica n = true ∧ cn_MasterNodeID n ≠ "" ∧ cn_MasterNodeID n ≠ "-" ∧
  ∀ m, node_of m → cn_NodeID m ≠ cn_MasterNodeID n.

Definition quorum_lost : Prop := CountMasters gt ≤ Z.quot (cls_Shards cluster) 2.

Definition overdue (tr : trace) (n : ClusterNodeState) : Prop :=
  HasPartitions gt = true ∧ cn_MasterNodeID n ∈ gt_GhostNodes gt ∧
  ∃ now, answered tr Now now ∧
    orphan_timeout cluster ≤ time_sub now (or_DetectedAt (orphan_info (tracked_orphans lr) now n)).

Definition whole : Prop := HasPartitions gt = false.

(** Nothing was served before: no slots and no replicas. *)
Definition never_served : Prop :=
  whole ∧ gt_TotalSlots gt = 0 ∧ ∀ n, node_of n → is_replica n = false.

(** The node reports the slot in one of its ranges. *)
Definition reports_slot (n : ClusterNodeState) (x : Z) : Prop :=
  ∃ s a b, s ∈ cn_Slots n ∧ ParseSlotRange s = Some (a, b) ∧ a ≤ x ≤ b.

(** No node reports a slot of the range, be it as part of another range. *)
Definition unowned (r : SlotRange) : Prop :=
  ∀ n x, node_of n → Start r ≤ x ≤ End r → ¬ reports_slot n x.

Definition shard_slots (k : Z) (slots : list Z) : Prop :=
  ∃ r, GenerateSlotRanges (cls_Shards cluster) !! Z.to_nat k = Some r ∧ range_slots r = Ok slots.

(** What the ground truth and the history of the pass must say for a command to be sent. *)
Definition repair_command (tr : trace) (addr : string) (cmd : cluster_command) : Prop :=
  match cmd with
  | FailoverTakeover => ∃ n, orphaned n ∧ addr = node_addr n ∧ (quorum_lost ∨ overdue tr n)
  | Meet ip _ =>
      (∃ name, confirmed tr name ip) ∧ (∃ name sip, confirmed tr name sip ∧ addr = address sip RedisPort)
  | Forget id =>
      whole ∧ id ∈ gt_GhostNodes gt ∧ (∀ n, node_of n → is_replica n = true → cn_MasterNodeID n ≠ "" → cn_MasterNodeID n ≠ "-" →
         cn_MasterNodeID n ≠ id) ∧
      ∃ n, node_of n ∧ cn_Reachable n = true ∧ addr = node_addr n
  | AddSlots slots =>
      whole ∧ ∃ k, 0 ≤ k < cls_Shards cluster ∧ shard_slots k slots ∧
        ((never_served ∧ ∃ ip, confirmed tr (shardMasterPodName (lr_Name lr) k) ip ∧ addr = address ip RedisPort) ∨
         ∃ n, gt_Nodes gt !! shardMasterPodName (lr_Name lr) k = Some n ∧ addr = node_addr n ∧
           cn_Reachable n = true ∧ is_empty_master n = true ∧
           ∀ r, GenerateSlotRanges (cls_Shards cluster) !! Z.to_nat k = Some r → unowned r)
  | Replicate id =>
      whole ∧
      ((never_served ∧ ∃ name ip, confirmed tr name ip ∧ addr = address ip RedisPort) ∨
       ∃ em m, node_of em ∧ node_of m ∧ addr = node_addr em ∧ id = cn_NodeID m ∧
         is_empty_master em = true ∧ is_slot_master m = true ∧ NodeKnows gt (cn_NodeID em) id = true)
  | Failover => False
  | SetSlots _ _ | CountKeysInSlots _ | GetKeysInSlot _ _ | Migrate _ _ _ _ _ =>
      whole ∧ ∃ password mv, surplus_range_move (cls_Shards cluster) gt mv ∧ dance_command password mv gt tr addr cmd
  | MigrationStatusAll => whole ∧ ∃ mv, surplus_range_move (cls_Shards cluster) gt mv ∧ addr = destAddr mv
  | MigrationImport slots =>
      whole ∧ ∃ mv, surplus_range_move (cls_Shards cluster) gt mv ∧ addr = destAddr mv ∧ slots = [(mv_Start mv, mv_End mv)] ∧
        ∃ tasks, answered tr (ClusterDo addr MigrationStatusAll) (inl tasks) ∧
          ∀ t, t ∈ parseMigrationTasks tasks → migrationTerminal (mt_State t) = true
  end.

Definition repair_call (tr : trace) (c : call) : Prop :=
  match c with
  | ClusterDo addr cmd => repair_command tr addr cmd
  | Apply _ | Delete _ _ | PatchPod _ _ | UpdatePod _ | ReplicaOf _ _ _ | SentinelDo _ _ _ | UpdateLittleRed _ => False
  | _ => True
  end.

Lemma elem_of_nodes s n : n ∈ range_values s (gt_Nodes gt) → node_of n.
Proof. by intros ?%elem_of_range_values. Qed.

Lemma cluster_do_safe P addr cmd prefix f :
  P (ClusterDo addr cmd) → calls_only P (cluster_do addr cmd prefix f).
Proof. intros HP. by apply safe_call. Qed.

Lemma cluster_do_traced tr addr cmd prefix f :
  repair_command tr addr cmd → traced repair_call (λ _ _, True) tr (cluster_do addr cmd prefix f).
Proof. intros HP. by apply traced_call. Qed.

Lemma orphan_orphaned s n :
  node_of n → orphan (live_ids s gt) n = true → orphaned n.
Proof.
  unfold orphan, live_ids. intros Hn [Hr Ho]%andb_true_iff. apply negb_true_iff, orb_false_iff in Ho as [Ho Hl].
  apply orb_false_iff in Ho as [H1%String.eqb_neq H2%String.eqb_neq]. apply bool_decide_eq_false in Hl.
  split; [done|]. split; [done|]. split; [done|]. split; [done|]. intros m [p Hm] He. apply Hl.
  apply elem_of_list_to_set, list_elem_of_fmap. exists m. split; [done|]. apply elem_of_range_values. by exists p.
Qed.

Lemma recover_quorum_traced tr :
  quorum_lost → traced repair_call (λ _ _, True) tr (recover_quorum gt).
Proof.
  intros Hq. apply (traced_for_each _ (λ _ _, True)); [done|]. intros tr' promoted n Hn%elem_of_nodes _.
  destruct (orphan _ n) eqn:Ho; [|done]. eapply (traced_bind _ (λ _ _, True)); [|done].
  apply cluster_do_traced. exists n. split; [by eapply orphan_orphaned|]. split; [done|by left].
Qed.

Lemma track_orphans_traced tr now :
  HasPartitions gt = true → answered tr Now now →
  traced repair_call (λ tr' _, answered tr' Now now) tr
    (track_orphans (tracked_orphans lr) (orphan_timeout cluster) now gt).
Proof.
  intros Hp Hnow. apply (traced_for_each _ (λ tr' _, answered tr' Now now)); [done|].
  intros tr' [current promoted] n Hn%elem_of_nodes Hnow'. unfold track_orphan.
  destruct (negb _) eqn:Ho; [done|]. apply negb_false_iff, andb_true_iff in Ho as [Ho Hg%bool_decide_eq_true].
  cbv zeta. destruct (Z.leb_spec (orphan_timeout cluster) (time_sub now (or_DetectedAt (orphan_info (tracked_orphans lr) now n)))); [|exact Hnow'].
  eapply (traced_bind _ (λ _ _, True)); [|intros tr'' e Hsub _; by apply Hsub].
  apply cluster_do_traced. exists n. split; [by eapply orphan_orphaned|]. split; [done|right].
  split; [done|]. split; [done|]. by exists now.
Qed.

Lemma confirmPodIP_traced tr name ip :
  traced repair_call (λ tr' r, tr ⊆ tr' ∧ (r.1 = true → confirmed tr' name ip)) tr (confirmPodIP name ip).
Proof.
  unfold confirmPodIP. destruct (_ || _); [by apply traced_ret|].
  apply traced_call; [done|]. intros x. apply traced_ret. split; [apply grown|].
  destruct x as [pod|err]; simpl; [|by destruct (error_not_found err)].
  destruct (pod_Terminating pod) eqn:Ht; [done|]. destruct (String.eqb_spec (pod_IP pod) ip) as [Hip|]; [|done].
  intros _. exists pod. split; [apply just_answered|done].
Qed.

Lemma confirmed_mono tr tr' name ip : tr ⊆ tr' → confirmed tr name ip → confirmed tr' name ip.
Proof. intros Hs (pod & Hp & ?). exists pod. split; [by apply Hs|done]. Qed.

Lemma meet_targets_traced tr seedName seedIP targets :
  confirmed tr seedName seedIP →
  traced repair_call (λ _ _, True) tr (meet_targets (address seedIP RedisPort) targets).
Proof.
  intros Hseed. eapply traced_mono; [done| |apply (traced_for_each _ (λ tr' _, confirmed tr' seedName seedIP))];
    [done|done|].
  intros tr' [] n _ Hs. eapply traced_bind; [apply confirmPodIP_traced|].
  intros tr2 [ok why] _ [Hsub Hok]. cbn [fst] in *. pose proof (confirmed_mono _ _ _ _ Hsub Hs) as Hs2.
  destruct ok; [|done]. eapply (traced_bind _ (λ _ _, True)).
  - apply cluster_do_traced. split; [exists (cn_PodName n); by apply Hok|]. by exists seedName, seedIP.
  - intros tr3 e Hsub3 _. by eapply confirmed_mono.
Qed.

Lemma introduce_nodes_traced tr fast lr' :
  traced repair_call (λ _ _, True) tr (introduce_nodes fast lr' gt).
Proof.
  unfold introduce_nodes. destruct (PlanPartitionMeets gt) as [plan| |]; [|done|done].
  destruct (mp_Seed plan) as [seed|]; [|done]. eapply traced_bind; [apply confirmPodIP_traced|].
  intros tr2 [ok why] _ [_ Hok]. destruct ok; [|done]. cbn [fst negb] in *.
  eapply (traced_bind _ (λ _ _, True)); [|done]. eapply meet_targets_traced. by apply Hok.
Qed.

Lemma heal_partitions_traced tr fast :
  HasPartitions gt = true → traced repair_call (λ _ _, True) tr (heal_partitions fast lr cluster gt).
Proof.
  intros Hp. apply traced_call; [done|]. intros now.
  eapply traced_bind; [apply track_orphans_traced; [done|apply just_answered]|].
  intros tr2 [current promoted] _ _.
  assert (Hw : ∀ tr l, traced repair_call (λ _ _, True) tr
    (if (0 <? promoted)%nat || (0 <? length current)%nat then mret (returns l (requeue_after fast))
     else introduce_nodes fast l gt)).
  { intros tr' l. destruct (_ || _); [done|apply introduce_nodes_traced]. }
  cbv beta zeta iota. destruct (negb _ || _); [|apply Hw]. apply traced_call; [done|]. intros [written|err]; [apply Hw|].
  by destruct (error_conflict err).
Qed.

(** *** Ghosts *)

Lemma forget_ghosts_traced tr :
  whole → traced repair_call (λ _ _, True) tr (forget_ghosts gt (ghostsToRemove gt)).
Proof.
  intros Hw. unfold forget_ghosts. apply (traced_for_each _ (λ _ _, True)); [done|].
  intros tr1 [] [i id] Hin _. apply elem_of_zip_r in Hin.
  apply elem_of_bfilter in Hin as [Hg Hp%negb_true_iff%bool_decide_eq_false].
  apply (traced_for_each _ (λ _ _, True)); [done|]. intros tr2 [] n Hn%elem_of_nodes _.
  destruct (cn_Reachable n) eqn:Hr; [|done]. eapply (traced_bind _ (λ _ _, True)); [|done].
  apply cluster_do_traced. split; [done|]. split; [done|]. split; [|by exists n].
  intros m [p Hm] Hrep H1%String.eqb_neq H2%String.eqb_neq He. apply Hp.
  apply elem_of_list_to_set, list_elem_of_fmap. exists m. split; [done|].
  apply elem_of_bfilter. split; [apply elem_of_range_values; by exists p|]. by rewrite Hrep, H1, H2.
Qed.

(** *** Missing shards *)

(** Every node with slots was identified. *)
Definition identified : Prop := ∀ n, node_of n → cn_Slots n ≠ [] → cn_NodeID n ≠ "".

(** A slot is in one range only. *)
Lemma range_of_slot shards j k r1 r2 x :
  GenerateSlotRanges shards !! j = Some r1 → GenerateSlotRanges shards !! k = Some r2 → Start r1 ≤ x ≤ End r1 → Start r2 ≤ x ≤ End r2 → j = k.
Proof.
  intros (Hs & _ & Hs1 & He1)%GenerateSlotRanges_lookup (_ & _ & Hs2 & He2)%GenerateSlotRanges_lookup H1 H2.
  pose proof (per_shard_pos shards Hs) as Hq. destruct (lt_eq_lt_dec j k) as [[Hlt|]|Hlt]; [|done|].
  - pose proof (range_start_mono (per_shard shards) (left_over shards) (Z.of_nat j + 1) (Z.of_nat k) Hq ltac:(lia)). lia.
  - pose proof (range_start_mono (per_shard shards) (left_over shards) (Z.of_nat k + 1) (Z.of_nat j) Hq ltac:(lia)). lia.
Qed.

(** The range of the text, if it is one, is that of another shard. *)
Definition not_claimed (ranges : list SlotRange) (i : nat) (slotStr : string) : Prop :=
  ∀ a b, ParseSlotRange slotStr = Some (a, b) →
    ∃ k r, k ≠ i ∧ ranges !! k = Some r ∧ a = Start r ∧ b = End r.

Lemma claim_none ranges n slots : foldl (claim_slot ranges n) None slots = None.
Proof. induction slots as [|s slots IH]; [done|exact IH]. Qed.

Lemma claim_slots shards n slots owners owners' i :
  shards ≤ totalClusterSlots → (slots ≠ [] → cn_NodeID n ≠ "") →
  foldl (claim_slot (GenerateSlotRanges shards) n) (Some owners) slots = Some owners' →
  owners' !! i = Some "" →
  owners !! i = Some "" ∧ ∀ s, s ∈ slots → not_claimed (GenerateSlotRanges shards) i s.
Proof.
  intros Hsh. revert owners. induction slots as [|s slots IH]; intros owners Hid Hf Hi.
  { cbn in Hf. injection Hf as <-. split; [done|]. intros s Hs. by apply elem_of_nil in Hs. }
  cbn [foldl] in Hf. destruct (claim_slot _ n (Some owners) s) as [owners1|] eqn:Hc.
  2: by rewrite claim_none in Hf.
  destruct (IH owners1) as [Hi1 Hrest]; [intros _; apply Hid; done|done|done|].
  specialize (Hid ltac:(done)). unfold claim_slot in Hc. cbn in Hc.
  assert (owners !! i = Some "" ∧ not_claimed (GenerateSlotRanges shards) i s) as [Ho Hs].
  { unfold not_claimed. destruct (ParseSlotRange s) as [[st en]|]; [|by injection Hc as <-; split; [|intros a b ?]].
    destruct (range_index_spec 0 (GenerateSlotRanges shards) st en) as [[He _]|(k & r & He & Hk & <- & <-)]; [done| |];
      rewrite He in Hc; [done|].
    destruct (Z.eqb_spec (0 + Z.of_nat k) (-1)); [lia|]. injection Hc as <-.
    rewrite Z.add_0_l, Nat2Z.id in Hi1. apply list_lookup_insert_Some in Hi1 as [(_ & Hx & _)|(Hne & Ho)]; [done|].
    split; [done|]. intros a b [= <- <-]. by exists k, r. }
  split; [done|]. intros s' [->|Hs']%elem_of_cons; [done|by apply Hrest].
Qed.

Lemma claim_nodes shards nodes owners owners' i :
  shards ≤ totalClusterSlots → (∀ n, n ∈ nodes → cn_Slots n ≠ [] → cn_NodeID n ≠ "") →
  foldl (λ o n, foldl (claim_slot (GenerateSlotRanges shards) n) o (cn_Slots n)) (Some owners) nodes = Some owners' →
  owners' !! i = Some "" →
  owners !! i = Some "" ∧
  ∀ n s, n ∈ nodes → s ∈ cn_Slots n → not_claimed (GenerateSlotRanges shards) i s.
Proof.
  intros Hsh. revert owners. induction nodes as [|n nodes IH]; intros owners Hid Hf Hi.
  { cbn in Hf. injection Hf as <-. split; [done|]. intros n s Hn. by apply elem_of_nil in Hn. }
  cbn [foldl] in Hf. destruct (foldl (claim_slot _ n) (Some owners) (cn_Slots n)) as [owners1|] eqn:Hc.
  2: { exfalso. revert Hf. clear. induction nodes as [|m nodes IH]; [done|]. cbn [foldl]. by rewrite claim_none. }
  destruct (IH owners1) as [Hi1 Hrest]; [intros x Hx; apply Hid; by right|done|done|].
  destruct (claim_slots shards n _ _ _ _ Hsh (Hid n ltac:(by left)) Hc Hi1) as [Hi0 Hn].
  split; [done|]. intros m s [->|Hm]%elem_of_cons; [by apply Hn|by apply Hrest].
Qed.

Lemma shard_owners_spec owners i :
  cls_Shards cluster ≤ totalClusterSlots → identified →
  shard_owners (cls_Shards cluster) gt = Some owners → owners !! i = Some "" →
  (i < Z.to_nat (cls_Shards cluster))%nat ∧
  ∀ r, GenerateSlotRanges (cls_Shards cluster) !! i = Some r → unowned r.
Proof.
  intros Hsh Hid Ho Hi. unfold shard_owners in Ho.
  destruct (claim_nodes _ _ _ _ i Hsh ltac:(intros n Hn%elem_of_nodes; by apply Hid) Ho Hi) as [Hr Hall].
  split; [by apply lookup_replicate in Hr as [_ ?]|].
  intros r Hr' n x [p Hn] Hx (s & a & b & Hs & Hp & Hab).
  destruct (Hall n s ltac:(apply elem_of_range_values; by exists p) Hs a b Hp) as (k & r' & Hne & Hk & -> & ->).
  by eapply Hne, range_of_slot.
Qed.

Lemma elem_of_missing owners k :
  k ∈ missing_shards owners → 0 ≤ k ∧ owners !! Z.to_nat k = Some "".
Proof.
  intros ([i o] & Hin & He)%list_elem_of_omap.
  destruct (String.eqb_spec o ""); [|done]. injection He as ->. subst o.
  apply list_elem_of_lookup in Hin as [j Hj]. apply lookup_zip_with_Some in Hj as (x & y & He & Hx & Hy).
  injection He as <- <-. apply lookup_seqZ in Hx as [-> ?]. split; [lia|]. by replace (Z.to_nat (0 + Z.of_nat j)) with j by lia.
Qed.

Lemma assign_shards_traced missing :
  whole →
  (∀ k, k ∈ missing → 0 ≤ k < cls_Shards cluster ∧
     ∀ r, GenerateSlotRanges (cls_Shards cluster) !! Z.to_nat k = Some r → unowned r) →
  ∀ tr ops, traced repair_call (λ _ _, True) tr
    (assign_shards lr gt (GenerateSlotRanges (cls_Shards cluster)) missing ops).
Proof.
  intros Hw. induction missing as [|k missing IH]; intros Hm tr ops; [done|]. cbn [assign_shards].
  assert (Hrest := IH ltac:(intros j Hj; apply Hm; by right)).
  unfold intended_master. destruct (SafeMissingShardTarget _) eqn:Hsafe; [|apply Hrest].
  destruct (gt_Nodes gt !! _) as [n|] eqn:Hn; [|done]. cbn in Hsafe.
  apply andb_true_iff in Hsafe as [[Hr Hma]%andb_true_iff Hs%Nat.eqb_eq%nil_length_inv].
  destruct (GenerateSlotRanges _ !! _) as [r|] eqn:Hrange; [|done].
  destruct (range_slots r) as [slots| |] eqn:Hslots; [|done|done].
  eapply (traced_bind _ (λ _ _, True)); [|intros; apply Hrest].
  apply cluster_do_traced. destruct (Hm k ltac:(by left)) as [Hk Hun].
  split; [done|]. exists k. split; [done|]. split; [by exists r|right]. exists n. split; [done|]. split; [done|].
  split; [done|]. split; [by unfold is_empty_master, owns_slots; rewrite Hma, Hs|]. exact Hun.
Qed.

(** *** Consolidated shards and replication *)

Lemma reshard_traced tr password fast p :
  whole → reshardConsolidated password cluster fast gt = Ok p → traced repair_call (λ _ _, True) tr p.
Proof.
  intros Hw Hp. unfold reshardConsolidated in Hp. destruct (PlanReshard gt _) as [plan| |] eqn:Hplan; [|done|done].
  cbn in Hp. destruct (rp_Moves plan) as [|mv moves] eqn:Hmoves; injection Hp as <-; [done|].
  assert (Hmv : surplus_range_move (cls_Shards cluster) gt mv) by (eapply PlanReshard_moves; [done|rewrite Hmoves; left]).
  eapply (traced_bind _ (λ _ _, True)); [|done]. unfold moveSlotRange. destruct (negb _).
  - eapply traced_mono; [| |apply reshardViaDance_ordered]; [|done].
    intros tr' [] Hc; try done. destruct cmd; try done; (split; [done|]; by exists password, mv).
  - apply traced_call; [by split; [|exists mv]|]. intros [reply|e]; [|done]. cbn.
    destruct (existsb _ _) eqn:Hbusy; [done|]. apply traced_call; [|by intros [id|e]].
    split; [done|]. exists mv. split; [done|]. split; [done|]. split; [done|]. exists reply. split; [apply just_answered|].
    intros t Ht. destruct (migrationTerminal (mt_State t)) eqn:E; [done|]. exfalso.
    apply not_true_iff_false in Hbusy. apply Hbusy, existsb_exists. exists t. split; [by apply list_elem_of_In|by rewrite E].
Qed.

Lemma chooseReattachTarget_node name s counts expected m :
  chooseReattachTarget name (range_values s (gt_Nodes gt)) counts expected = Some m →
  node_of m ∧ is_slot_master m = true.
Proof.
  unfold chooseReattachTarget. rewrite reattach_scan_spec. intros Hm.
  assert (m ∈ reattach_candidates (range_values s (gt_Nodes gt)) counts expected) as [Hn Hneed]%elem_of_reattach_candidates.
  { destruct (head _) eqn:Hh in Hm; simplify_eq; [apply head_Some_elem_of, elem_of_bfilter in Hh; naive_solver|].
    by apply head_Some_elem_of. }
  split; [by eapply elem_of_nodes|]. unfold needs_replica in Hneed. apply andb_true_iff in Hneed as [Hneed _].
  apply negb_true_iff, orb_false_iff in Hneed as [H1%negb_false_iff H2].
  unfold is_slot_master, owns_slots. rewrite H1. by destruct (cn_Slots m).
Qed.

Lemma reattach_traced candidates expected ems :
  whole → (∃ s, candidates = range_values s (gt_Nodes gt)) →
  (∀ em, em ∈ ems → node_of em ∧ is_empty_master em = true) →
  ∀ tr, traced repair_call (λ _ _, True) tr (reattach gt candidates expected ems).
Proof.
  intros Hw [s ->]. induction ems as [|em ems IH]; intros Hems tr; [done|]. cbn [reattach].
  assert (Hrest := IH ltac:(intros j Hj; apply Hems; by right)).
  destruct (chooseReattachTarget _ _ _ _) as [m|] eqn:Hm; [|apply Hrest].
  apply chooseReattachTarget_node in Hm as [Hm Hsm].
  destruct (negb _) eqn:Hk; [apply Hrest|]. apply negb_false_iff in Hk.
  eapply (traced_bind _ (λ _ _, True)); [|intros tr' [e|] _ _; [apply Hrest|done]].
  apply cluster_do_traced. split; [done|right]. exists em, m. destruct (Hems em ltac:(by left)). done.
Qed.

Lemma repair_replication_traced tr :
  whole → traced repair_call (λ _ _, True) tr (repair_replication cluster gt).
Proof.
  intros Hw. unfold repair_replication. destruct (bool_decide _); [done|].
  apply reattach_traced; [done|by eexists|]. intros em [Hn He]%elem_of_bfilter.
  split; [by eapply elem_of_nodes|done].
Qed.

(** *** Bootstrap *)

(** The calls that read, report or announce. *)
Definition quiet (c : call) : Prop :=
  match c with
  | ClusterDo _ _ | Apply _ | Delete _ _ | PatchPod _ _ | UpdatePod _ | ReplicaOf _ _ _ | SentinelDo _ _ _ | UpdateLittleRed _ => False
  | _ => True
  end.

Lemma quiet_traced {A} tr (p : prog A) : calls_only quiet p → traced repair_call (λ _ _, True) tr p.
Proof.
  intros Hp. apply (traced_safe _ (λ _, True)). eapply safe_mono; [|done|exact Hp].
  by intros [] Hc tr'.
Qed.

Lemma clusterShardStatefulSets_quiet lr' : calls_only quiet (clusterShardStatefulSets lr').
Proof.
  unfold clusterShardStatefulSets. generalize (mkShardSets ∅ true 0 0).
  induction (seqZ _ _) as [|k ks IH]; intros acc; [done|]. cbn [read_shards].
  apply safe_call; [done|]. intros [sts|e]; [apply IH|]. destruct (error_not_found e); [apply IH|done].
Qed.

Lemma getRedisPassword_quiet lr' : calls_only quiet (getRedisPassword lr').
Proof. unfold getRedisPassword. by destruct (negb _). Qed.

Lemma gatherGroundTruth_quiet lr' : calls_only quiet (gatherGroundTruth lr').
Proof.
  unfold gatherGroundTruth. apply calls_only_bind; [apply getRedisPassword_quiet|]. intros password.
  destruct (lr_Cluster lr') as [c|]; [|done]. apply calls_only_bind; [|done].
  apply (safe_for_each _ (λ _, True)); [done|]. done.
Qed.

Lemma updateClusterStatus_quiet lr' g : calls_only quiet (updateClusterStatus lr' g).
Proof.
  unfold updateClusterStatus. apply calls_only_bind; [apply clusterShardStatefulSets_quiet|].
  intros [sets|e]; [|done]. apply calls_only_bind; [destruct g; [done|apply gatherGroundTruth_quiet]|].
  intros [g'| |]; [|done|done]. destruct (cluster_report lr' sets g') as [st changed].
  destruct changed; [|done]. apply safe_call; [done|]. intros [w|e]; [done|]. by destruct (error_conflict e).
Qed.

(** Every address noted belongs to a pod that was read. *)
Definition all_confirmed (tr : trace) (ips : gmap string string) : Prop :=
  ∀ name ip, ips !! name = Some ip → confirmed tr name ip.

Lemma all_confirmed_mono tr tr' ips : tr ⊆ tr' → all_confirmed tr ips → all_confirmed tr' ips.
Proof. intros Hs Hc name ip Hip. eapply confirmed_mono; [done|by apply Hc]. Qed.

Lemma bootstrap_read_traced password sets refs : ∀ tr facts,
  all_confirmed tr (bf_podIPs facts) →
  traced repair_call (λ tr' r, match r with
    | inl facts' => all_confirmed tr' (bf_podIPs facts') ∧ dom (bf_podIPs facts) ⊆ dom (bf_podIPs facts') ∧
        ∀ ref, ref ∈ refs → ref_Name ref ∈ dom (bf_podIPs facts')
    | inr _ => True
    end) tr (bootstrap_read password sets refs facts).
Proof.
  induction refs as [|ref refs IH]; intros tr facts Hc.
  { split; [done|]. split; [done|]. intros ref Hr. by apply elem_of_nil in Hr. }
  cbn [bootstrap_read]. apply traced_call; [done|]. intros [pod|e]; [|by destruct (error_not_found e)].
  destruct (pod_Terminating pod) eqn:Ht; [done|]. destruct (_ || _); [done|].
  apply traced_call; [done|]. intros w1. destruct (GetMyID _ _) as [id|e]; [|done].
  apply traced_call; [done|]. intros w2. cbv zeta.
  eapply traced_mono; [done| |apply IH]; cbn [bf_podIPs].
  - intros tr' [facts'|r]; [|done]. rewrite dom_insert. intros (Hc' & Hsub & Hrefs).
    split; [done|]. split; [set_solver|]. intros ref' [->|Hr]%elem_of_cons; [set_solver|by apply Hrefs].
  - intros name ip [[<- <-]|[_ Hip]]%lookup_insert_Some.
    + exists pod. split; [|done]. apply elem_of_app; left. apply elem_of_app; left. apply just_answered.
    + eapply confirmed_mono; [|by apply Hc]. set_solver.
Qed.

(** The shape that the validation of the resource admits. *)
Definition admitted_shape : Prop :=
  cls_Shards cluster ≤ totalClusterSlots ∧ 0 ≤ clusterReplicasPerShard (Some cluster).

Abbreviation cluster_refs :=
  (ClusterPodRefs (lr_Name lr) (cls_Shards cluster) (clusterReplicasPerShard (Some cluster))).

(** The facts of the bootstrap cover the pods of the cluster. *)
Definition facts_hold (tr : trace) (facts : bootstrap_facts) : Prop :=
  ∀ ref, ref ∈ cluster_refs → confirmed tr (ref_Name ref) (at_key (bf_podIPs facts) (ref_Name ref)).

Lemma facts_hold_mono tr tr' facts : tr ⊆ tr' → facts_hold tr facts → facts_hold tr' facts.
Proof. intros Hs Hf ref Hr. eapply confirmed_mono; [done|by apply Hf]. Qed.

Lemma facts_hold_master tr facts k :
  admitted_shape → facts_hold tr facts → 0 ≤ k < cls_Shards cluster →
  let name := shardMasterPodName (lr_Name lr) k in confirmed tr name (at_key (bf_podIPs facts) name).
Proof.
  intros [_ Hr] Hf Hk name. apply (Hf (mkPodRef name k 0 true)). apply elem_of_ClusterPodRefs.
  exists k, 0. split; [done|]. split; [lia|done].
Qed.

Lemma bootstrapMeetRound_traced tr facts :
  admitted_shape → facts_hold tr facts →
  traced repair_call (λ tr' _, facts_hold tr' facts) tr (bootstrapMeetRound lr cluster_refs facts).
Proof.
  intros Hs Hf. unfold bootstrapMeetRound. cbv zeta. destruct (negb _); [done|].
  eapply (traced_bind _ (λ tr' _, facts_hold tr' facts)); [|by intros].
  apply (traced_for_each _ (λ tr' _, facts_hold tr' facts)); [done|]. intros tr' [] ref Hr Hf'.
  destruct (ref_Name ref =? _); [done|]. destruct (negb _); [done|].
  eapply (traced_bind _ (λ _ _, True)); [|intros; by eapply facts_hold_mono].
  apply cluster_do_traced. split; [eexists; by apply Hf'|].
  pose proof Hr as (k & o & Hk & _ & _)%elem_of_ClusterPodRefs.
  eexists _, _. split; [|done]. apply (facts_hold_master _ _ 0); [done|done|lia].
Qed.

Lemma bootstrap_slots_traced tr password facts k :
  never_served → admitted_shape → 0 ≤ k < cls_Shards cluster → facts_hold tr facts →
  traced repair_call (λ tr' _, facts_hold tr' facts) tr
    (bootstrap_slots lr password facts (GenerateSlotRanges (cls_Shards cluster)) k).
Proof.
  intros Hn Hs Hk Hf. unfold bootstrap_slots. cbv zeta. apply traced_call; [done|]. intros w.
  assert (Hf1 : facts_hold (tr ++ [existT (ProbeServers password) w]) facts) by (eapply facts_hold_mono; [apply grown|done]).
  destruct (match GetClusterNodes w _ with inl _ => _ | inr _ => _ end); [done|].
  destruct (GenerateSlotRanges _ !! _) as [r|] eqn:Hr; [|done]. destruct (range_slots r) as [slots| |] eqn:Hslots; [|done|done].
  eapply (traced_bind _ (λ _ _, True)); [|intros; by eapply facts_hold_mono].
  apply cluster_do_traced. split; [apply Hn|]. exists k. split; [done|]. split; [by exists r|]. left. split; [done|].
  eexists. split; [|done]. by apply facts_hold_master.
Qed.

Lemma bootstrap_replica_traced tr password facts ref :
  never_served → ref ∈ cluster_refs → facts_hold tr facts →
  traced repair_call (λ tr' _, facts_hold tr' facts) tr (bootstrap_replica lr password facts ref).
Proof.
  intros Hn Hr Hf. unfold bootstrap_replica. destruct (ref_IsMaster ref); [done|]. cbv zeta.
  apply traced_call; [done|]. intros w.
  assert (Hf1 : facts_hold (tr ++ [existT (ProbeServers password) w]) facts) by (eapply facts_hold_mono; [apply grown|done]).
  destruct (match GetClusterNodes w _ with inl _ => _ | inr _ => _ end); [done|].
  eapply (traced_bind _ (λ _ _, True)); [|intros; by eapply facts_hold_mono].
  apply cluster_do_traced. split; [apply Hn|]. left. split; [done|]. eexists _, _. split; [|done]. by apply Hf1.
Qed.

Lemma bootstrap_traced tr :
  lr_Cluster lr = Some cluster → never_served → admitted_shape →
  traced repair_call (λ _ _, True) tr (bootstrapCluster lr).
Proof.
  intros Hc Hn Hs. unfold bootstrapCluster, cluster_or_default. rewrite Hc. cbv zeta.
  eapply (traced_bind _ (λ _ _, True)); [apply quiet_traced, getRedisPassword_quiet|]. intros tr1 password _ _.
  eapply (traced_bind _ (λ _ _, True)); [apply quiet_traced, clusterShardStatefulSets_quiet|].
  intros tr2 [sets|e] _ _; [|done]. destruct (negb _); [done|].
  eapply traced_bind; [by apply bootstrap_read_traced|]. intros tr3 [facts|res] _ Hread; [|done].
  assert (Hf : facts_hold tr3 facts).
  { destruct Hread as (Hconf & _ & Hall). intros ref Hr. destruct (proj1 (elem_of_dom _ _) (Hall ref Hr)) as [ip Hip].
    unfold at_key. rewrite Hip. by apply Hconf. }
  eapply traced_bind; [by apply bootstrapMeetRound_traced|]. intros tr4 met _ Hf4. destruct (negb met); [done|].
  eapply (traced_bind _ (λ tr' _, facts_hold tr' facts)).
  { destruct (_ =? annotationValueTrue); [done|].
    apply (traced_for_each _ (λ tr' _, facts_hold tr' facts)); [done|]. intros tr5 ok k Hk%elem_of_seqZ Hf5.
    destruct ok; [|done]. apply bootstrap_slots_traced; [done|done|lia|done]. }
  intros tr5 ok _ Hf5. destruct (negb ok); [done|].
  eapply (traced_bind _ (λ tr' _, facts_hold tr' facts)).
  { apply (traced_for_each _ (λ tr' _, facts_hold tr' facts)); [done|]. intros. by apply bootstrap_replica_traced. }
  intros. apply quiet_traced, updateClusterStatus_quiet.
Qed.

(** *** The whole pass *)

Lemma repair_traced tr0 :
  lr_Cluster lr = Some cluster → admitted_shape → identified →
  traced repair_call (λ _ _, True) tr0 (repairCluster lr gt).
Proof.
  intros Hc Hs Hid. unfold repairCluster. rewrite Hc. cbv zeta.
  eapply (traced_bind _ (λ _ _, True)); [apply quiet_traced, getRedisPassword_quiet|]. intros tr1 password _ _.
  eapply (traced_bind _ (λ _ _, True)).
  { destruct (Z.leb_spec (CountMasters gt) (Z.quot (cls_Shards cluster) 2)); [by apply recover_quorum_traced|done]. }
  intros tr2 promoted _ _. destruct (0 <? promoted)%nat; [done|].
  destruct (HasPartitions gt) eqn:Hp; [by apply heal_partitions_traced|]. assert (Hw : whole) by exact Hp.
  eapply (traced_bind _ (λ _ _, True)).
  { destruct (HasGhostNodes gt); [|done]. by apply (quiet_traced _ (d ← detectLegacyClusterStatefulSet lr; mret _)). }
  intros tr3 legacy _ _. destruct legacy; [done|].
  destruct (negb _); [eapply (traced_bind _ (λ _ _, True)); [by apply forget_ghosts_traced|done]|].
  destruct (_ <? 0)%Z; [done|]. destruct (shard_owners _ gt) as [owners|] eqn:Ho; [|done].
  eapply (traced_bind _ (λ _ _, True)).
  { apply assign_shards_traced; [done|]. intros k [Hk Hown]%elem_of_missing.
    destruct (shard_owners_spec owners (Z.to_nat k)) as [Hlt Hun]; [apply Hs|done|done|done|]. split; [lia|done]. }
  intros tr4 [ops| |] _ _; [|done|done]. destruct (0 <? ops)%nat; [done|].
  destruct (reshardConsolidated _ _ _ _) as [p| |] eqn:Hre; [|done|done].
  eapply (traced_bind _ (λ _ _, True)); [by eapply reshard_traced|]. intros tr5 [res acted] _ _. cbn [fst snd].
  destruct acted; [done|]. eapply (traced_bind _ (λ _ _, True)); [by apply repair_replication_traced|].
  intros tr6 attached _ _. destruct attached; [done|].
  destruct (_ && _) eqn:Hb; [|apply quiet_traced, updateClusterStatus_quiet].
  apply andb_true_iff in Hb as [Ht%Z.eqb_eq Hr%negb_true_iff]. apply bootstrap_traced; [done| |done].
  split; [done|]. split; [done|]. intros n [q Hn]. destruct (is_replica n) eqn:E; [|done].
  exfalso. apply not_true_iff_false in Hr. apply Hr, existsb_exists. exists n. split; [|done].
  apply list_elem_of_In, elem_of_range_values. by exists q.
Qed.
End justified.

(** ** The tracking of orphans *)

Section orphan_tracking.
Context `{GoRuntime}.

(** The nodes whose natural failover is waited for: replicas of a ghost. *)
Definition waited_for (gt : ClusterGroundTruth) : list ClusterNodeState :=
  bfilter (λ n, orphan (live_ids (here 242) gt) n && bool_decide (cn_MasterNodeID n ∈ gt_GhostNodes gt))
    (range_values (here 264) (gt_Nodes gt)).

(** Orphans that have no record are all new: none of them is promoted. *)
Lemma track_orphans_new tracked timeout now gt :
  0 < timeout → (∀ n, n ∈ waited_for gt → tracked !! cn_PodName n = None) →
  track_orphans tracked timeout now gt = mret (orphan_info tracked now <$> waited_for gt, 0%nat).
Proof.
  intros Ht. unfold track_orphans, waited_for, bfilter. generalize (live_ids (here 242) gt). intros live.
  change (orphan_info tracked now <$> ?l) with ([] ++ (orphan_info tracked now <$> l)).
  generalize (@nil OrphanedReplicaInfo). induction (range_values (here 264) (gt_Nodes gt)) as [|n l IH]; intros acc Hnew.
  { cbn. by rewrite app_nil_r. }
  cbn [List.filter] in *. change (for_each ?f ?a (n :: l)) with (f a n ≫= λ a', for_each f a' l). cbv beta.
  destruct (orphan live n && _) eqn:Ho.
  2: { assert (track_orphan tracked timeout now gt live (acc, 0%nat) n = mret (acc, 0%nat)) as ->;
         [unfold track_orphan; by rewrite Ho|]. apply IH. exact Hnew. }
  assert (Hi : orphan_info tracked now n = mkOrphan (cn_PodName n) (cn_NodeID n) (cn_MasterNodeID n) now).
  { unfold orphan_info. by rewrite (Hnew n ltac:(by left)). }
  assert (track_orphan tracked timeout now gt live (acc, 0%nat) n = mret (acc ++ [orphan_info tracked now n], 0%nat)) as ->.
  { unfold track_orphan. rewrite Ho, Hi. cbn [negb or_DetectedAt]. cbv zeta. rewrite time_sub_diag.
    destruct (Z.leb_spec timeout 0); [lia|done]. }
  etrans; [apply IH; intros m Hm; apply Hnew; by right|]. cbn. by rewrite <-app_assoc.
Qed.

Lemma with_Cluster_same lr st :
  ls_Cluster (lr_Status lr) = Some st → with_Cluster lr (cluster_status lr) = lr.
Proof.
  intros Hst. unfold with_Cluster, cluster_status. rewrite Hst. cbn.
  destruct lr as [? ? ? ? ? ? ? ? ? ? ? ? ? ? ? ? ? []]. cbn in *. by rewrite Hst.
Qed.

Lemma heal_partitions_starves fast lr cluster gt st :
  ls_Cluster (lr_Status lr) = Some st → 0 < orphan_timeout cluster →
  (∀ n, n ∈ waited_for gt → tracked_orphans lr !! cn_PodName n = None) →
  waited_for gt ≠ [] → length (cst_OrphanedReplicas st) = length (waited_for gt) →
  safe (λ c, c = Now) (λ r, r = returns lr (requeue_after fast)) (heal_partitions fast lr cluster gt).
Proof.
  intros Hst Ht Hnew Hne Hlen. apply safe_call; [done|]. intros now. rewrite track_orphans_new by done.
  rewrite (with_Cluster_same lr st Hst). unfold cluster_status. rewrite Hst.
  change (mret ?a ≫= ?f) with (f a). cbv beta iota zeta. cbn [default from_option id].
  rewrite Hlen, length_fmap, Nat.eqb_refl. cbn [negb orb Nat.ltb Nat.leb].
  destruct (waited_for gt); [done|]. by apply safe_ret.
Qed.
End orphan_tracking.

(** ** Adjacent shards on one master *)

Section adjacent.
Context `{GoRuntime} (shards : Z).

Abbreviation ranges := (GenerateSlotRanges shards).

(** CLUSTER NODES lists contiguous slots as one range: no range starts where another ends. *)
Definition reports_runs (n : ClusterNodeState) : Prop :=
  ∀ s1 s2 a b c d, s1 ∈ cn_Slots n → s2 ∈ cn_Slots n →
    ParseSlotRange s1 = Some (a, b) → ParseSlotRange s2 = Some (c, d) → c ≠ b + 1.

Definition holds_shard (n : ClusterNodeState) (k : nat) : Prop :=
  ∃ r, ranges !! k = Some r ∧ ∀ x, Start r ≤ x ≤ End r → reports_slot n x.

Definition unaligned (s : string) : Prop :=
  ∃ a b, ParseSlotRange s = Some (a, b) ∧ range_index 0 ranges a b = -1.

(** A slot of shard [k] is reported in a range that is no shard, or in that of the shard. *)
Lemma reported_in n k r x :
  ranges !! k = Some r → Start r ≤ x ≤ End r → reports_slot n x →
  ∃ s a b, s ∈ cn_Slots n ∧ ParseSlotRange s = Some (a, b) ∧ (unaligned s ∨ a = Start r ∧ b = End r).
Proof.
  intros Hk Hx (s & a & b & Hs & Hp & Hab). exists s, a, b. split; [done|]. split; [done|].
  destruct (range_index_spec 0 ranges a b) as [[He _]|(j & r' & He & Hj & <- & <-)]; [done| |].
  - left. by exists a, b.
  - right. assert (j = k) as -> by by eapply range_of_slot. rewrite Hk in Hj. by injection Hj as <-.
Qed.

Lemma adjacent_unaligned n k :
  shards ≤ totalClusterSlots → reports_runs n → holds_shard n k → holds_shard n (S k) →
  ∃ s, s ∈ cn_Slots n ∧ unaligned s.
Proof.
  intros Hmax Hruns (r1 & Hk1 & H1) (r2 & Hk2 & H2).
  pose proof (GenerateSlotRanges_lookup _ _ _ Hk1) as (Hs & _ & Hs1 & He1).
  pose proof (GenerateSlotRanges_lookup _ _ _ Hk2) as (_ & _ & Hs2 & He2).
  assert (Hq : 1 ≤ per_shard shards) by (unfold per_shard; apply Z.div_le_lower_bound; lia).
  assert (Hlt : ∀ i, range_start (per_shard shards) (left_over shards) i < range_start (per_shard shards) (left_over shards) (i + 1))
    by (unfold range_start; nia).
  pose proof (Hlt (Z.of_nat k)). pose proof (Hlt (Z.of_nat (S k))).
  replace (Z.of_nat (S k)) with (Z.of_nat k + 1) in * by lia.
  destruct (reported_in n k r1 (End r1) Hk1 ltac:(lia) (H1 (End r1) ltac:(lia)))
    as (s1 & a & b & Hin1 & Hp1 & [Hu|[-> ->]]); [by exists s1|].
  destruct (reported_in n (S k) r2 (Start r2) Hk2 ltac:(lia) (H2 (Start r2) ltac:(lia)))
    as (s2 & c & d & Hin2 & Hp2 & [Hu|[-> ->]]); [by exists s2|].
  exfalso. eapply (Hruns s1 s2); [done..|]. lia.
Qed.

Lemma unaligned_owners gt n s :
  (∃ p, gt_Nodes gt !! p = Some n) → s ∈ cn_Slots n → unaligned s → shard_owners shards gt = None.
Proof.
  intros [p Hn] (l1 & l2 & Hl)%list_elem_of_split (a & b & Hp & Hi). unfold shard_owners. cbv zeta.
  assert (n ∈ range_values (here 449) (gt_Nodes gt)) as (m1 & m2 & ->)%list_elem_of_split
    by (apply elem_of_range_values; by exists p).
  assert (Hs : ∀ o, foldl (claim_slot ranges n) o (cn_Slots n) = None).
  { intros o. rewrite Hl, foldl_app. cbn [foldl]. etrans; [|apply claim_none]. f_equal.
    destruct (foldl _ _ l1) as [owners|]; [|done]. cbn. by rewrite Hp, Hi. }
  rewrite foldl_app. cbn [foldl]. rewrite Hs. clear. induction m2 as [|m m2 IH]; [done|]. cbn [foldl].
  by rewrite claim_none.
Qed.

Lemma unaligned_plan gt n s :
  0 < shards → (∃ p, gt_Nodes gt !! p = Some n) → is_master n = true → cn_Reachable n = true →
  s ∈ cn_Slots n → unaligned s → ∃ reason, PlanReshard gt shards = Ok (mkReshardPlan [] reason).
Proof.
  intros Hs [p Hn] Hm Hr Hin (a & b & Hp & Hi). unfold PlanReshard. destruct (Z.leb_spec shards 0); [lia|]. cbv zeta.
  pose proof (scan_node_fold ranges (go_range [100] (gt_Nodes gt)) ∅ []) as Hf.
  destruct (forallb _ _) eqn:Hall; [|destruct Hf as [reason ->]; by exists reason]. exfalso.
  rewrite forallb_forall in Hall. specialize (Hall (p, n) ltac:(by apply list_elem_of_In, elem_of_go_range)).
  unfold scannable, holds_ranges, reachable_master in Hall. cbn [snd] in Hall. rewrite Hm, Hr in Hall. cbn [andb] in Hall.
  destruct (cn_Slots n) as [|s0 slots] eqn:Hslots; [by apply elem_of_nil in Hin|]. cbn [length Nat.eqb negb orb] in Hall.
  apply bool_decide_eq_true in Hall as [idxs Hidx]. unfold owned_indices in Hidx. rewrite Hslots in Hidx.
  apply mapM_Some_1 in Hidx. apply list_elem_of_lookup in Hin as [i Hlk].
  destruct (Forall2_lookup_l _ _ _ _ _ Hidx Hlk) as (idx & _ & Hsi). unfold slot_index in Hsi. by rewrite Hp in Hsi; cbn in Hsi; rewrite Hi in Hsi.
Qed.
End adjacent.

(** ** Theorems *)


(** The tracking of an orphan can be lost for good: when the orphans of a partitioned
    cluster are all new and as many as the recorded ones, the pass records nothing, promotes
    nothing and heals nothing, at any time.  The stored object does not change, so every
    later pass takes the orphans for new again and their grace period never elapses. *)
Theorem orphan_starves `{GoRuntime} lr cluster gt st :
  lr_Cluster lr = Some cluster → ls_Cluster (lr_Status lr) = Some st → 0 < orphan_timeout cluster →
  Z.quot (cls_Shards cluster) 2 < CountMasters gt → HasPartitions gt = true →
  (∀ n, n ∈ waited_for gt → tracked_orphans lr !! cn_PodName n = None) →
  waited_for gt ≠ [] → length (cst_OrphanedReplicas st) = length (waited_for gt) →
  safe (λ c, match c with GetSecret _ | Now => True | _ => False end)
    (λ r, r = returns lr (requeue_after (GetRequeueIntervals lr).1)) (repairCluster lr gt).
Proof.
  intros Hc Hst Ht Hq Hp Hnew Hne Hlen. unfold repairCluster. rewrite Hc. cbv zeta.
  apply calls_only_bind; [unfold getRedisPassword; by destruct (negb _)|]. intros password.
  destruct (Z.leb_spec (CountMasters gt) (Z.quot (cls_Shards cluster) 2)); [lia|].
  change (mret ?a ≫= ?f) with (f a). cbv beta. cbn [Nat.ltb Nat.leb]. rewrite Hp.
  eapply safe_mono; [| |by eapply heal_partitions_starves]; [by intros c ->|done].
Qed.

(** Two neighbouring shards that ended up on one master are never separated again.  As
    CLUSTER NODES reports contiguous slots as one range, such a master reports a range that
    is no shard: the planner of the reshard then plans no move, and a repair pass on the
    otherwise whole cluster sends no command at all, whatever master sits empty. *)
Theorem adjacent_shards_stall `{GoRuntime} lr cluster gt n k :
  let shards := cls_Shards cluster in
  lr_Cluster lr = Some cluster → 0 < shards ≤ totalClusterSlots →
  Z.quot shards 2 < CountMasters gt → HasPartitions gt = false → gt_GhostNodes gt = [] →
  (∃ p, gt_Nodes gt !! p = Some n) → is_master n = true → cn_Reachable n = true →
  reports_runs n → holds_shard shards n k → holds_shard shards n (S k) →
  (∃ reason, PlanReshard gt shards = Ok (mkReshardPlan [] reason)) ∧
  safe (λ c, match c with GetSecret _ => True | _ => False end)
    (λ r, r = returns lr (requeue_after (GetRequeueIntervals lr).1)) (repairCluster lr gt).
Proof.
  intros shards Hc [Hs Hmax] Hq Hp Hg Hn Hm Hr Hruns H1 H2.
  destruct (adjacent_unaligned shards n k Hmax Hruns H1 H2) as (s & Hin & Hu).
  split; [by eapply unaligned_plan|]. unfold repairCluster. rewrite Hc. cbv zeta. fold shards.
  apply calls_only_bind; [unfold getRedisPassword; by destruct (negb _)|]. intros password.
  destruct (Z.leb_spec (CountMasters gt) (Z.quot shards 2)); [lia|].
  change (mret ?a ≫= ?f) with (f a). cbv beta. cbn [Nat.ltb Nat.leb]. rewrite Hp.
  unfold HasGhostNodes, ghostsToRemove. rewrite Hg. cbn [length Nat.ltb Nat.leb].
  change (mret ?a ≫= ?f) with (f a). cbv beta. cbn [bfilter List.filter length Nat.eqb negb].
  destruct (Z.ltb_spec shards 0); [lia|]. by rewrite (unaligned_owners shards gt n s Hn Hin Hu).
Qed.

(** *** Witnesses *)

Definition shard_node (k : Z) (ip id : string) (slots : list string) (role master : string) : ClusterNodeState :=
  mkClusterNode (shardMasterPodName "lr" k) ip id slots role master "up" true ProbeOK "".

(** Three masters, and a node that is gone. *)
Definition haunted_gt : ClusterGroundTruth :=
  mkGroundTruth
    {[ shardMasterPodName "lr" 0 := shard_node 0 "10.0.0.1" "m0" ["0-5460"] roleMaster "-";
       shardMasterPodName "lr" 1 := shard_node 1 "10.0.0.2" "m1" ["5461-10921"] roleMaster "-";
       shardMasterPodName "lr" 2 := shard_node 2 "10.0.0.3" "m2" ["10922-16383"] roleMaster "-" ]}
    [] ["gone"] "ok" 16384 {["m0"; "m1"; "m2"; "gone"]} ∅ false.


(** The record of the replica of shard 1 is left over; the replica of shard 2 is new. *)
Definition orphan_lr : LittleRed :=
  with_Cluster cluster_lr
    (set_OrphanedReplicas empty_cluster_status [mkOrphan (clusterShardPodName "lr" 1 1) "r1" "old" 0]).

Definition split_gt : ClusterGroundTruth :=
  mkGroundTruth
    {[ shardMasterPodName "lr" 0 := shard_node 0 "10.0.0.1" "m0" ["0-5460"] roleMaster "-";
       shardMasterPodName "lr" 1 := shard_node 1 "10.0.0.2" "m1" ["5461-10921"] roleMaster "-";
       shardMasterPodName "lr" 2 := shard_node 2 "10.0.0.3" "r2" [] roleReplica "gone" ]}
    [["m0"; "m1"]; ["r2"]] ["gone"] "fail" 10922 {["m0"; "m1"; "r2"; "gone"]} ∅ false.

Lemma orphan_starves_witness :
  safe (λ c, match c with GetSecret _ | Now => True | _ => False end)
    (λ r, r = returns orphan_lr (requeue_after (GetRequeueIntervals orphan_lr).1))
    (@repairCluster ref_runtime orphan_lr split_gt).
Proof.
  refine (@orphan_starves ref_runtime orphan_lr (mkClusterSpec 3 (Some 1) 0 0 0 0 0) split_gt _ eq_refl eq_refl _ _ _ _ _ _).
  1-3: vm_compute; reflexivity.
  - intros n Hn. vm_compute in Hn. apply list_elem_of_singleton in Hn as ->. vm_compute. reflexivity.
  - vm_compute. discriminate.
  - vm_compute. reflexivity.
Defined.

(** One master has the first two shards, another one none. *)
Definition merged_node : ClusterNodeState := shard_node 0 "10.0.0.1" "m0" ["0-10922"] roleMaster "-".
Definition merged_gt : ClusterGroundTruth :=
  mkGroundTruth
    {[ shardMasterPodName "lr" 0 := merged_node;
       shardMasterPodName "lr" 1 := shard_node 1 "10.0.0.2" "m1" [] roleMaster "-";
       shardMasterPodName "lr" 2 := shard_node 2 "10.0.0.3" "m2" ["10923-16383"] roleMaster "-" ]}
    [] [] "ok" 16384 {["m0"; "m1"; "m2"]} ∅ false.

Lemma merged_slot x : 0 ≤ x ≤ 10922 → reports_slot merged_node x.
Proof. intros Hx. exists "0-10922", 0, 10922. split; [by left|]. split; [reflexivity|done]. Qed.

Lemma adjacent_shards_stall_witness :
  (∃ reason, @PlanReshard ref_runtime merged_gt 3 = Ok (mkReshardPlan [] reason)) ∧
  length (@GetEmptyMasters ref_runtime merged_gt) = 1%nat.
Proof.
  split; [|vm_compute; reflexivity].
  refine (proj1 (@adjacent_shards_stall ref_runtime cluster_lr (mkClusterSpec 3 (Some 1) 0 0 0 0 0) merged_gt
    merged_node 0 eq_refl _ _ eq_refl eq_refl _ eq_refl eq_refl _ _ _)).
  - vm_compute. split; [reflexivity|discriminate].
  - vm_compute. reflexivity.
  - exists (shardMasterPodName "lr" 0). vm_compute. reflexivity.
  - intros s1 s2 a b c d Hin1%list_elem_of_singleton Hin2%list_elem_of_singleton Hp1 Hp2. subst s1 s2.
    vm_compute in Hp1, Hp2. injection Hp1 as <- <-. injection Hp2 as <- <-. discriminate.
  - eexists. split; [vm_compute; reflexivity|]. intros x Hx. apply merged_slot. cbn in Hx. lia.
  - eexists. split; [vm_compute; reflexivity|]. intros x Hx. apply merged_slot. cbn in Hx. lia.
Defined.
