(* ===== verification/ClusterMigration.v ===== *)
(** * Driving the migration of a legacy cluster (src/internal/controller/cluster_migration.go)

    One pass of the state machine that moves a cluster of a single StatefulSet into the
    layout with one StatefulSet per shard: the gather over the pods of both layouts, the
    entry gates, the plan (modelled in [Migration]) and the execution of its phase.  The hash
    of the desired pod template of a shard is an argument, as in [ClusterRollout].

    A pass returns the local object and [None] if the normal reconciliation goes on, or the
    result or the error that ends it, or a panic. *)

From Stdlib Require Import Ascii.
From S2P Require Import Prelude GoStrings Slots Probe ClusterNodes ClusterState Topology Reshard Migration.
From S2P Require Import Info Gather ClusterGather Kube AuthReport ReshardDance Rollout ClusterRollout ClusterRepair.

Open Scope Z_scope.
Open Scope go_scope.

(** ** Definitions *)

Definition AnnotationMigrateLegacySTS : string := "redis.chuck-chuck-chuck.net/migrate-legacy-sts".
Definition migrateLegacyHoldValue : string := "hold".
Definition statusMigrating : string := "Migrating".

(** *** The library *)

Definition has_byte (c : ascii) (s : string) : bool := bool_decide (is_Some (before_byte c s)).

(** The host of [net.SplitHostPort], or its error. *)
Definition split_host (hostport : string) : option string :=
  if has_prefix hostport "["
  then
    b ← before_byte "]"%char hostport;
    let rest := String.substring (S (String.length b)) (String.length hostport) hostport in
    port ← cut_prefix rest ":";
    let host := String.substring 1 (String.length b) b in
    if has_byte ":"%char port || has_byte "["%char host || has_byte "["%char port || has_byte "]"%char port then None
    else Some host
  else match split_on ":"%char hostport with
       | [host; _] => if has_byte "["%char hostport || has_byte "]"%char hostport then None else Some host
       | _ => None
       end.

(** *** The pods *)

Record migPodFact := mkPodFact {
  mf_Name : string;
  mf_IP : string;
  mf_RedisReady : bool;
}.

Definition isLegacyClusterPod (podName instanceName : string) : bool :=
  match cut_prefix podName (instanceName +:+ "-cluster-") with
  | None => false
  | Some rest => negb (rest =? "") && bool_decide (is_Some (atoi rest))
  end.

Definition isNewShardPod (podName instanceName : string) : bool :=
  match cut_prefix podName (instanceName +:+ "-shard-") with
  | None => false
  | Some rest =>
      match split_on "-"%char rest with
      | [k; m] => bool_decide (is_Some (atoi k)) && bool_decide (is_Some (atoi m))
      | _ => false
      end
  end.

Definition allLegacyPodsReady (pods : list migPodFact) (instanceName : string) : bool :=
  let legacy := bfilter (λ p, isLegacyClusterPod (mf_Name p) instanceName) pods in
  forallb mf_RedisReady legacy && (0 <? length legacy)%nat.

Definition addrOf (ip : string) : string := address ip RedisPort.

Section driver.
Context `{GoRuntime} (desiredHash : Z → string).

(** The loops of this file. *)
Definition mig_site (line : Z) : site := [line; -2].

(** One pod of the loop: the facts, and whether a pod of the new layout was seen. *)
Definition legacy_fact (gt : ClusterGroundTruth) (instanceName : string) (acc : LegacyFacts * bool)
  (p : migPodFact) : LegacyFacts * bool :=
  let '(facts, newPodsExist) := acc in
  if isLegacyClusterPod (mf_Name p) instanceName
  then
    match gt_Nodes gt !! mf_Name p with
    | None => acc
    | Some n =>
        (mkLegacyFacts
           (if cn_Reachable n && negb (mf_IP p =? "") then lf_SeedAddrs facts ++ [addrOf (mf_IP p)]
            else lf_SeedAddrs facts)
           (lf_LegacyNodeIDs facts ++ [cn_NodeID n]) (lf_NewPodAddrs facts), newPodsExist)
    end
  else if isNewShardPod (mf_Name p) instanceName
  then (mkLegacyFacts (lf_SeedAddrs facts) (lf_LegacyNodeIDs facts)
          (if mf_IP p =? "" then lf_NewPodAddrs facts
           else <[mf_Name p := addrOf (mf_IP p)]> (lf_NewPodAddrs facts)), true)
  else acc.

Definition buildLegacyFactsFromPods (pods : list migPodFact) (gt : ClusterGroundTruth)
  (instanceName : string) : LegacyFacts * bool * bool :=
  let '(facts, newPodsExist) := foldl (legacy_fact gt instanceName) (mkLegacyFacts [] [] ∅, false) pods in
  (facts, allLegacyPodsReady pods instanceName, newPodsExist).

(** The first partition with a legacy node. *)
Definition legacy_mesh (gt : ClusterGroundTruth) (legacyNodeIDs : list string) : option (list string) :=
  List.find (λ part, existsb (λ id, bool_decide (id ∈ legacyNodeIDs)) part) (gt_Partitions gt).

(** The nodes that are deleted do not depend on the order of the loop. *)
Definition restrictToLegacyMesh (gt : ClusterGroundTruth) (legacyNodeIDs : list string) (instanceName : string)
  : ClusterGroundTruth :=
  match legacy_mesh gt legacyNodeIDs with
  | None => gt
  | Some mesh =>
      with_Nodes gt (filter (λ '(podName, n),
        ¬ (isNewShardPod podName instanceName = true ∧ cn_NodeID n ∉ mesh)) (gt_Nodes gt))
  end.

(** *** The gather *)

Definition pod_fact (pod : Pod) : migPodFact :=
  mkPodFact (pod_Name pod) (pod_IP pod) (redisContainerReady pod).

Definition pods_by_ip (pods : list Pod) : gmap string string :=
  foldl (λ m pod, if pod_IP pod =? "" then m else <[pod_IP pod := pod_Name pod]> m) ∅ pods.

Definition gatherFromLegacy (lr : LittleRed) : prog (ClusterGroundTruth * list migPodFact + error) :=
  r ← perform ListClusterPods;
  match r with
  | inr err => mret (inr err)
  | inl pods =>
      password ← getRedisPassword lr;
      w ← perform (ProbeServers password);
      mret (inl (GatherClusterGroundTruth (operatorGatherer w) (pods_by_ip pods), pod_fact <$> pods))
  end.

(** *** The status *)

(** The error; a conflict is swallowed. *)
Definition persistStatus (lr : LittleRed) : prog (LittleRed * option error) :=
  u ← perform (UpdateStatus lr);
  mret match u with
       | inl written => (written, None)
       | inr err => (lr, if error_conflict err then None else Some err)
       end.

Definition set_Migration (c : ClusterStatusInfo) (m : option ClusterMigrationStatus) : ClusterStatusInfo :=
  mkClusterStatus (cst_State c) (cst_Nodes c) (cst_OrphanedReplicas c) (cst_WipeDeadlockSince c) m.

Definition ensureMigrationStarted (lr : LittleRed) (cluster : option ClusterSpec) : prog LittleRed :=
  let c := cluster_status lr in
  match cst_Migration c with
  | Some _ => mret (with_Cluster lr c)
  | None =>
      now ← perform Now;
      mret (with_Cluster lr (set_Migration c (Some
        (mkMigrationStatus "" 0 (match cluster with Some cl => cls_Shards cl | None => 0 end) (Some now)))))
  end.

Definition setMigrationStatus (lr : LittleRed) (plan : MigrationPlan) : LittleRed :=
  let c := cluster_status lr in
  let m := default (mkMigrationStatus "" 0 0 None) (cst_Migration c) in
  with_Cluster lr (set_Migration c (Some
    (mkMigrationStatus (migration_phase_text (mp_Phase plan)) (mp_ShardsMoved plan) (mp_TotalShards plan)
       (cms_StartedAt m)))).

Definition setMigrationCondition (lr : LittleRed) (reason msg : string) : LittleRed :=
  let st := lr_Status lr in
  let st := set_Phase st (if bool_decide (ls_Phase st = PhasePending) then PhasePending else PhaseInitializing)
              statusMigrating in
  set_lr_Status lr (set_Conditions st
    (SetStatusCondition (ls_Conditions st) ConditionReady ConditionFalse reason msg)).

Abbreviation migrated := (LittleRed * outcome (option (ctrl_result + error)))%type.

Definition done_with (lr : LittleRed) (res : ctrl_result) : migrated := (lr, Ok (Some (inl res))).
Definition failed_with (lr : LittleRed) (err : error) : migrated := (lr, Ok (Some (inr err))).

(** [if uerr := r.persistStatus(ctx, lr); uerr != nil { return ctrl.Result{}, true, uerr }]
    and the requeue that follows. *)
Definition persist_and_requeue (fast : duration) (lr : LittleRed) : prog migrated :=
  p ← persistStatus lr;
  mret match (p : LittleRed * option error).2 with
       | Some err => failed_with p.1 err
       | None => done_with p.1 (requeue_after fast)
       end.

Definition reportLegacyMigrationRefused (lr : LittleRed) (reason msg : string)
  : prog (LittleRed * (ctrl_result + error)) :=
  _ ← perform (Event EventTypeWarning "LegacyClusterTopology" msg);
  let st := set_Phase (lr_Status lr) PhaseFailed "LegacyClusterTopology" in
  let lr := set_lr_Status lr (set_Conditions st
              (SetStatusCondition (ls_Conditions st) ConditionReady ConditionFalse reason msg)) in
  p ← persistStatus lr;
  mret match (p : LittleRed * option error).2 with
       | Some err => (p.1, inr err)
       | None => (p.1, inl (requeue_after (GetRequeueIntervals p.1).2))
       end.

Definition unsupported_message (shards rps : Z) : string :=
  "Legacy cluster topology is not shape-preserving (expected exactly " +:+ itoa shards +:+ " slot-owning "
  +:+ "masters each owning one aligned range, and " +:+ itoa (wrap64 (shards * wrap64 (1 + rps))) +:+ " members). "
  +:+ "Migration supports only an identically-"
  +:+ "shaped in-place move; change shard/replica counts with a reshard AFTER migration. Refusing.".

Definition refuseUnsupportedMigration (lr : LittleRed) (shards rps : Z) : prog migrated :=
  r ← reportLegacyMigrationRefused lr "MigrationUnsupportedTopology" (unsupported_message shards rps);
  mret ((r : LittleRed * (ctrl_result + error)).1, Ok (Some r.2)).

(** *** The phases *)

(** [r.apply] of the rendered object. *)
Definition reconcileClusterConfigMap : prog (option error) := perform (Apply ClusterConfigMap).
Definition reconcileClusterHeadlessService : prog (option error) := perform (Apply ClusterHeadlessService).
Definition reconcileClusterClientService : prog (option error) := perform (Apply ClusterClientService).

Definition ensureMigrationResources (lr : LittleRed) : prog (option error) :=
  then_if_ok reconcileClusterConfigMap
    (then_if_ok reconcileClusterHeadlessService
       (then_if_ok (reconcileClusterStatefulSet desiredHash lr) reconcileClusterClientService)).

(** The name of the new pod at an address. *)
Definition podNameOfAddr (facts : LegacyFacts) : gmap string string :=
  foldl (λ m q, <[q.2 := q.1]> m) ∅ (go_range (mig_site 337) (lf_NewPodAddrs facts)).

Definition mesh_ids (gt : ClusterGroundTruth) : gset string :=
  list_to_set (cn_NodeID <$> bfilter (λ n, cn_Reachable n && negb (cn_NodeID n =? ""))
                               (range_values (mig_site 331) (gt_Nodes gt))).

Definition migration_meet (password seed : string) (gt : ClusterGroundTruth) (facts : LegacyFacts) (addr : string)
  : prog unit :=
  let host := default addr (split_host addr) in
  let podName := at_key (podNameOfAddr facts) addr in
  ok ← confirmPodIP podName host;
  if negb (ok : bool * string).1 then mret tt
  else
    w ← perform (ProbeServers password);
    let cand := match GetClusterNodes w addr with
                | inl view => MeetCandidateFromNodes podName host "" view
                | inr _ => mkMeetCandidate podName host "" false false [] []
                end in
    if negb (AdmissibleWhenConfirmed (AttributeMeetTarget cand (mesh_ids gt))) then mret tt
    else _ ← ClusterMeet seed host RedisPort; mret tt.

(** The first seed; an empty list panics. *)
Definition executeMigrationMeets (password : string) (gt : ClusterGroundTruth) (facts : LegacyFacts)
  (plan : MigrationPlan) : prog bool :=
  match lf_SeedAddrs facts with
  | [] => mret false
  | seed :: _ => _ ← for_each (λ _ addr, migration_meet password seed gt facts addr) tt (mp_Meets plan); mret true
  end.

(** The identity of the node at an address. *)
Definition selfID (gt : ClusterGroundTruth) : gmap string string :=
  foldl (λ m n, if cn_PodIP n =? "" then m else <[addrOf (cn_PodIP n) := cn_NodeID n]> m) ∅
    (range_values (mig_site 424) (gt_Nodes gt)).

Definition migration_replicate (gt : ClusterGroundTruth) (ra : ReplicaAttach) : prog unit :=
  if ra_ReplicaAddr ra =? "" then mret tt
  else if at_key (selfID gt) (ra_ReplicaAddr ra) =? ra_MasterID ra then mret tt
  else _ ← ClusterReplicate (ra_ReplicaAddr ra) (ra_MasterID ra); mret tt.

Definition migration_failover (fo : FailoverAction) : prog unit :=
  if fa_Addr fo =? "" then mret tt
  else if fa_Force fo then _ ← ClusterFailoverTakeover (fa_Addr fo); mret tt
  else _ ← ClusterFailover (fa_Addr fo); mret tt.

Definition forgetLegacyNodes (gt : ClusterGroundTruth) (forgets : list string) : prog unit :=
  for_each (λ _ x,
      for_each (λ _ node,
          if negb (cn_Reachable node) || (cn_NodeID node =? x.2) then mret tt
          else _ ← ClusterForget (addrOf (cn_PodIP node)) x.2; mret tt) tt
        (range_values [509; x.1; -2] (gt_Nodes gt))) tt
    (zip (seqZ 0 (Z.of_nat (length forgets))) forgets).

Definition clusterPodDisruptionBudgetName (lr : LittleRed) : string := lr_Name lr +:+ "-cluster-pdb".

Definition decommission (lr : LittleRed) (gt : ClusterGroundTruth) (plan : MigrationPlan) : prog (option error) :=
  _ ← forgetLegacyNodes gt (mp_Forgets plan);
  if mp_DeleteLegacy plan
  then then_if_ok (deleteIfExists KindStatefulSet (clusterStatefulSetName lr))
         (deleteIfExists KindPodDisruptionBudget (clusterPodDisruptionBudgetName lr))
  else mret None.

(** The work of the phase: nothing more to do, an error, or a panic. *)
Definition run_phase (password : string) (lr : LittleRed) (gt : ClusterGroundTruth) (facts : LegacyFacts)
  (plan : MigrationPlan) : prog (outcome (option error)) :=
  match mp_Phase plan with
  | MigrationStandup => e ← ensureMigrationResources lr; mret (Ok e)
  | MigrationMeet =>
      ok ← executeMigrationMeets password gt facts plan;
      mret (if ok : bool then Ok None else Panic)
  | MigrationReplicate => _ ← for_each (λ _ ra, migration_replicate gt ra) tt (mp_Replicates plan); mret (Ok None)
  | MigrationFailover => _ ← for_each (λ _ fo, migration_failover fo) tt (mp_Failovers plan); mret (Ok None)
  | MigrationDecommission => e ← decommission lr gt plan; mret (Ok e)
  | MigrationNone | MigrationComplete => mret (Ok None)
  end.

Definition progress_message (plan : MigrationPlan) : string :=
  "Migrating legacy cluster to per-shard layout: phase " +:+ migration_phase_text (mp_Phase plan)
  +:+ " (" +:+ itoa (mp_ShardsMoved plan) +:+ "/" +:+ itoa (mp_TotalShards plan) +:+ " shards moved)".

Definition executeMigrationPhase (lr : LittleRed) (gt : ClusterGroundTruth) (facts : LegacyFacts)
  (plan : MigrationPlan) : prog migrated :=
  password ← getRedisPassword lr;
  r ← run_phase password lr gt facts plan;
  match r with
  | Ok None =>
      persist_and_requeue (GetRequeueIntervals lr).1
        (setMigrationCondition lr "MigrationInProgress" (progress_message plan))
  | Ok (Some err) => mret (failed_with lr err)
  | _ => mret (lr, Panic)
  end.

(** *** The driver *)

Definition held_message : string :=
  "Migration held by " +:+ AnnotationMigrateLegacySTS +:+ "=" +:+ migrateLegacyHoldValue
  +:+ "; no changes will be made until the annotation is removed".
Definition unhealthy_message : string :=
  "Legacy cluster is not currently healthy (needs cluster_state=ok, all 16384 slots assigned, "
  +:+ "all legacy pods Ready, and a reachable master quorum) — waiting before starting migration".

(** Once the ground truth is gathered. *)
Definition migrate_gathered (lr : LittleRed) (cluster : ClusterSpec) (gt : ClusterGroundTruth)
  (pods : list migPodFact) : prog migrated :=
  let fast := (GetRequeueIntervals lr).1 in
  let shards := cls_Shards cluster in
  let rps := clusterReplicasPerShard (Some cluster) in
  let '(facts, allLegacyReady, newPodsExist) := buildLegacyFactsFromPods pods gt (lr_Name lr) in
  lr ← ensureMigrationStarted lr (Some cluster);
  if (length (lf_SeedAddrs facts) =? 0)%nat
  then persist_and_requeue fast
         (setMigrationCondition lr "MigrationWaitingSeed"
            "No reachable legacy cluster node to use as a migration seed; waiting")
  else if negb newPodsExist && negb (LegacyMigrationReady gt allLegacyReady)
  then persist_and_requeue fast (setMigrationCondition lr "MigrationWaitingHealthy" unhealthy_message)
  else if negb newPodsExist && negb (LegacyShapePreserved gt shards rps)
  then refuseUnsupportedMigration lr shards rps
  else
    let gt := restrictToLegacyMesh gt (lf_LegacyNodeIDs facts) (lr_Name lr) in
    let plan := PlanClusterMigration gt shards rps (lr_Name lr) facts in
    executeMigrationPhase (setMigrationStatus lr plan) gt facts plan.

Definition migrateLegacyCluster (lr : LittleRed) : prog migrated :=
  let fast := (GetRequeueIntervals lr).1 in
  d ← detectLegacyClusterStatefulSet lr;
  match d with
  | inr err => mret (failed_with lr err)
  | inl false =>
      match ls_Cluster (lr_Status lr) ≫= cst_Migration with
      | Some _ =>
          _ ← perform (Event EventTypeNormal "MigrationComplete"
                 "Legacy single-StatefulSet cluster migrated to the per-shard layout; legacy workload removed");
          persist_and_requeue fast (with_Cluster lr (set_Migration (cluster_status lr) None))
      | None => mret (lr, Ok None)
      end
  | inl true =>
      if at_key (lr_Annotations lr) AnnotationMigrateLegacySTS =? migrateLegacyHoldValue
      then
        lr ← ensureMigrationStarted lr (lr_Cluster lr);
        persist_and_requeue fast (setMigrationCondition lr "MigrationHeld" held_message)
      else
        match lr_Cluster lr with
        | None => mret (lr, Ok None)
        | Some cluster =>
            r ← gatherFromLegacy lr;
            match r with
            | inr err => mret (failed_with lr err)
            | inl (gt, pods) => migrate_gathered lr cluster gt pods
            end
        end
  end.
End driver.

(** ** What a pass is based on *)

Section pass.
Context `{GoRuntime} (desiredHash : Z → string) (lr : LittleRed) (cluster : ClusterSpec).

Abbreviation name := (lr_Name lr).
Abbreviation shards := (cls_Shards cluster).
Abbreviation rps := (clusterReplicasPerShard (Some cluster)).
Abbreviation shard_ranges := (numbered (GenerateSlotRanges (cls_Shards cluster))).

(** The pass has read a StatefulSet of the legacy layout, and is not held. *)
Definition in_migration (tr : trace) : Prop :=
  (∃ sts, answered tr (GetStatefulSet (clusterStatefulSetName lr)) (inl sts) ∧
     isLegacyClusterStatefulSet sts lr = true) ∧
  at_key (lr_Annotations lr) AnnotationMigrateLegacySTS ≠ migrateLegacyHoldValue.

(** The ground truth restricted to the mesh of the legacy nodes, and the facts, as gathered
    in this pass; no pod of the new layout existed only if the entry gates were passed. *)
Definition mesh_view (tr : trace) (gt : ClusterGroundTruth) (facts : LegacyFacts) : Prop :=
  ∃ pods password w, answered tr ListClusterPods (inl pods) ∧ answered tr (ProbeServers password) w ∧
    let gt0 := GatherClusterGroundTruth (operatorGatherer w) (pods_by_ip pods) in
    let '(facts0, ready, newPodsExist) := buildLegacyFactsFromPods (pod_fact <$> pods) gt0 name in
    facts = facts0 ∧ gt = restrictToLegacyMesh gt0 (lf_LegacyNodeIDs facts) name ∧
    (newPodsExist = true ∨ LegacyMigrationReady gt0 ready = true ∧ LegacyShapePreserved gt0 shards rps = true).

(** Every shard has been handed over: its new master owns its range, and all its new pods
    hold a copy. *)
Definition handed_over_all (gt : ClusterGroundTruth) : Prop :=
  copies_everywhere gt name shards rps ∧
  ∀ k r, (k, r) ∈ shard_ranges → masters_own gt name k r = true.

Definition legacy_drained (gt : ClusterGroundTruth) (facts : LegacyFacts) : Prop :=
  ∀ p n, gt_Nodes gt !! p = Some n → cn_NodeID n ∈ lf_LegacyNodeIDs facts → cn_Slots n = [].

Definition migration_command (tr : trace) (gt : ClusterGroundTruth) (facts : LegacyFacts)
  (addr : string) (cmd : cluster_command) : Prop :=
  match cmd with
  | Meet ip _ =>
      head (lf_SeedAddrs facts) = Some addr ∧ ∃ pod, isNewShardPod pod name = true ∧ confirmed tr pod ip
  | Replicate id => attach_ok gt name rps (lf_NewPodAddrs facts) shard_ranges (mkReplicaAttach addr id)
  | Failover =>
      copies_everywhere gt name shards rps ∧
      ∃ k r m o, (k, r) ∈ shard_ranges ∧ gt_Nodes gt !! newMasterPodName name k = Some m ∧
        addr = addr_of (lf_NewPodAddrs facts) (newMasterPodName name k) ∧
        owns_in gt r o ∧ IsLinkUpReplicaOf (Some m) (cn_NodeID o) = true
  | Forget id =>
      handed_over_all gt ∧ id ∈ lf_LegacyNodeIDs facts ∧
      ∃ p n, gt_Nodes gt !! p = Some n ∧ cn_Reachable n = true ∧ addr = addrOf (cn_PodIP n) ∧ cn_NodeID n ≠ id
  | _ => False
  end.

Definition stood_up (r : resource) : Prop :=
  match r with
  | ClusterConfigMap | ClusterHeadlessService | ClusterClientService | ClusterShardStatefulSet _ _ => True
  | _ => False
  end.

Definition migration_write (tr : trace) (gt : ClusterGroundTruth) (facts : LegacyFacts) (c : call) : Prop :=
  match c with
  | Apply r => allNewPodsMet gt name shards rps = false ∧ stood_up r
  | Delete kind n =>
      handed_over_all gt ∧ legacy_drained gt facts ∧
      (kind = KindStatefulSet ∧ n = clusterStatefulSetName lr ∨
       kind = KindPodDisruptionBudget ∧ n = clusterPodDisruptionBudgetName lr)
  | ClusterDo addr cmd => migration_command tr gt facts addr cmd
  | _ => True
  end.

Definition migration_call (tr : trace) (c : call) : Prop :=
  match c with
  | Apply _ | Delete _ _ | ClusterDo _ _ =>
      in_migration tr ∧ ∃ gt facts, mesh_view tr gt facts ∧ migration_write tr gt facts c
  | PatchPod _ _ | UpdatePod _ | ReplicaOf _ _ _ | SentinelDo _ _ _ | UpdateLittleRed _ => False
  | _ => True
  end.

(** ** Lemmas *)

(** *** The facts *)

Lemma foldl_facts gt (P : LegacyFacts → Prop) l : ∀ acc,
  (∀ acc p, p ∈ l → P acc.1 → P (legacy_fact gt name acc p).1) → P acc.1 →
  P (foldl (legacy_fact gt name) acc l).1.
Proof.
  induction l as [|p l IH]; intros acc Hs Ha; [done|]. cbn [foldl].
  apply IH; [intros acc' q Hq; apply Hs; by right|]. apply Hs; [by left|done].
Qed.

Lemma new_pod_addrs gt pods facts ready newPods p a :
  buildLegacyFactsFromPods pods gt name = (facts, ready, newPods) →
  lf_NewPodAddrs facts !! p = Some a → isNewShardPod p name = true.
Proof.
  unfold buildLegacyFactsFromPods. intros Hb.
  pose proof (foldl_facts gt (λ f, ∀ p a, lf_NewPodAddrs f !! p = Some a → isNewShardPod p name = true) pods
    (mkLegacyFacts [] [] ∅, false)) as Hf.
  destruct (foldl _ _ _) as [f nw]. injection Hb as <- _ _. apply Hf; [|done].
  intros [f1 nw1] q _ Hq. unfold legacy_fact. destruct (isLegacyClusterPod _ _).
  { by destruct (gt_Nodes gt !! _). }
  destruct (isNewShardPod (mf_Name q) name) eqn:Hn; [|done]. cbn.
  destruct (mf_IP q =? ""); [done|]. intros p' a' [[<- _]|[_ Hp']]%lookup_insert_Some; [done|by eapply Hq].
Qed.

Lemma podNameOfAddr_new facts p a :
  podNameOfAddr facts !! a = Some p → lf_NewPodAddrs facts !! p = Some a.
Proof.
  unfold podNameOfAddr. intros Hp.
  assert (Hgen : ∀ (l : list (string * string)) (m : gmap string string),
    (∀ p a, m !! a = Some p → (p, a) ∈ go_range (mig_site 337) (lf_NewPodAddrs facts)) →
    (∀ q, q ∈ l → q ∈ go_range (mig_site 337) (lf_NewPodAddrs facts)) →
    foldl (λ m q, <[q.2 := q.1]> m) m l !! a = Some p → (p, a) ∈ go_range (mig_site 337) (lf_NewPodAddrs facts)).
  { induction l as [|q l IH]; intros m Hm Hl Hlk; [by apply Hm|]. cbn [foldl] in Hlk.
    eapply IH; [|intros; apply Hl; by right|exact Hlk].
    intros p' a' [[<- <-]|[_ Hp']]%lookup_insert_Some; [|by apply Hm].
    destruct q as [q1 q2]. apply Hl. by left. }
  apply Hgen in Hp; [by apply elem_of_go_range in Hp|done|done].
Qed.

(** *** The ground truth *)

Lemma restricted_node gt0 ids p n :
  gt_Nodes (restrictToLegacyMesh gt0 ids name) !! p = Some n → gt_Nodes gt0 !! p = Some n.
Proof.
  unfold restrictToLegacyMesh. destruct (legacy_mesh _ _) as [mesh|]; [|done].
  cbn. by intros [? _]%map_lookup_filter_Some.
Qed.

Lemma mesh_view_wf tr gt facts p n :
  mesh_view tr gt facts → gt_Nodes gt !! p = Some n → node_wf n.
Proof.
  intros (pods & password & w & _ & _ & Hv) Hn. cbv zeta in Hv.
  destruct (buildLegacyFactsFromPods _ _ _) as [[f ready] nw]. destruct Hv as (_ & -> & _).
  apply restricted_node in Hn. by eapply gw_nodes; [apply gathered_wf|].
Qed.

Lemma mesh_view_named tr gt facts : mesh_view tr gt facts → masters_named gt.
Proof.
  intros Hv p n Hn Hr. destruct (nw_role n (mesh_view_wf _ _ _ _ _ Hv Hn)) as [(Hrole & _)|(_ & Hm & _)]; [|done].
  unfold is_replica in Hr. by rewrite Hrole in Hr.
Qed.

(** An owner of slots was reached. *)
Lemma mesh_view_owner tr gt facts r o :
  mesh_view tr gt facts → owns_in gt r o → cn_Reachable o = true.
Proof.
  intros Hv [Ho [q Hq]]. pose proof (mesh_view_wf _ _ _ _ _ Hv Hq) as Hwf.
  destruct (cn_Reachable o) eqn:Hr; [done|]. destruct (nw_unreachable o Hwf Hr) as [_ Hrole].
  destruct (nw_role o Hwf) as [(_ & Hs & _)|(_ & _ & [Hm|Hm])].
  - apply nodeOwnsRange_spec in Ho as (s & Hs' & _). rewrite Hs in Hs'. by apply elem_of_nil in Hs'.
  - unfold is_master in Hm. by rewrite Hrole in Hm.
  - unfold is_replica in Hm. by rewrite Hrole in Hm.
Qed.

(** *** The phases *)

Definition based (gt : ClusterGroundTruth) (facts : LegacyFacts) (tr : trace) : Prop :=
  in_migration tr ∧ mesh_view tr gt facts.

Lemma based_mono gt facts tr tr' : tr ⊆ tr' → based gt facts tr → based gt facts tr'.
Proof.
  intros Hs [[(sts & Hsts & Hl) Hh] (pods & password & w & Hp & Hw & Hv)].
  split; [split; [|done]; exists sts; split; [by apply Hs|done]|].
  exists pods, password, w. split; [by apply Hs|]. split; [by apply Hs|done].
Qed.

(** A loop or a sequence of writes keeps the basis. *)
Lemma based_call {A} gt facts tr c (f : answer c → prog A) Q :
  based gt facts tr → migration_write tr gt facts c →
  match c with PatchPod _ _ | UpdatePod _ | ReplicaOf _ _ _ | SentinelDo _ _ _ | UpdateLittleRed _ => False | _ => True end →
  (∀ x, based gt facts (tr ++ [existT c x]) → traced migration_call Q (tr ++ [existT c x]) (f x)) →
  traced migration_call Q tr (perform c ≫= f).
Proof.
  intros Hb Hw Hc Hf. apply traced_call.
  - destruct c; try done; (split; [apply Hb|]; exists gt, facts; split; [apply Hb|done]).
  - intros x. apply Hf. eapply based_mono; [apply grown|done].
Qed.

Lemma based_do gt facts tr addr cmd prefix f :
  based gt facts tr → migration_command tr gt facts addr cmd →
  traced migration_call (λ tr' _, based gt facts tr') tr (cluster_do addr cmd prefix f).
Proof. intros Hb Hc. by apply (based_call gt facts). Qed.

Section phases.
Context (gt : ClusterGroundTruth) (facts : LegacyFacts).

Abbreviation plan := (PlanClusterMigration gt shards rps name facts).

Lemma meets_traced tr password seed :
  based gt facts tr → head (lf_SeedAddrs facts) = Some seed →
  traced migration_call (λ tr' _, based gt facts tr') tr
    (for_each (λ _ addr, migration_meet password seed gt facts addr) tt (mp_Meets plan)).
Proof.
  intros Hb Hseed. apply (traced_for_each _ (λ tr' _, based gt facts tr')); [done|].
  intros tr1 [] addr Ha Hb1. unfold migration_meet. cbv zeta.
  set (host := default addr (split_host addr)). set (pod := at_key (podNameOfAddr facts) addr).
  eapply (traced_bind _ (λ tr2 (ok : bool * string), tr1 ⊆ tr2 ∧ (ok.1 = true → pod ≠ "" ∧ confirmed tr2 pod host))).
  { unfold confirmPodIP. destruct (_ || _) eqn:He; [by apply traced_ret|].
    apply orb_false_iff in He as [Hne%String.eqb_neq _]. apply traced_call; [done|]. intros x. apply traced_ret.
    split; [apply grown|]. destruct x as [q|err]; cbn; [|by destruct (error_not_found err)].
    destruct (pod_Terminating q) eqn:Ht; [done|]. destruct (String.eqb_spec (pod_IP q) host) as [Hip|]; [|done].
    intros _. split; [done|]. exists q. split; [apply just_answered|done]. }
  intros tr2 [ok why] _ [Hsub Hok]. cbn [fst] in *. pose proof (based_mono _ _ _ _ Hsub Hb1) as Hb2.
  destruct ok; cbn [negb]; [|done]. destruct (Hok eq_refl) as [Hne Hconf].
  apply (based_call gt facts); [done|done|done|]. intros w Hb3. destruct (negb _); [done|].
  eapply (traced_bind _ (λ tr' _, based gt facts tr')); [|by intros].
  apply based_do; [done|]. split; [done|]. exists pod. split; [|by eapply confirmed_mono; [apply grown|]].
  unfold pod, at_key in *. destruct (podNameOfAddr facts !! addr) as [p|] eqn:Hp; [|done].
  apply podNameOfAddr_new in Hp. destruct Hb as [_ (pods & pw & w' & _ & _ & Hv)]. cbv zeta in Hv.
  destruct (buildLegacyFactsFromPods _ _ _) as [[f ready] nw] eqn:Hbf. destruct Hv as (-> & _).
  by eapply new_pod_addrs.
Qed.

Lemma replicates_traced tr :
  based gt facts tr →
  traced migration_call (λ tr' _, based gt facts tr') tr
    (for_each (λ _ ra, migration_replicate gt ra) tt (mp_Replicates plan)).
Proof.
  intros Hb. apply (traced_for_each _ (λ tr' _, based gt facts tr')); [done|].
  intros tr1 [] ra Hra Hb1. unfold migration_replicate. destruct (_ =? ""); [done|]. destruct (_ =? _); [done|].
  eapply (traced_bind _ (λ tr' _, based gt facts tr')); [|by intros]. apply based_do; [done|].
  destruct ra as [addr id]. by apply plan_attaches in Hra.
Qed.

Lemma plan_handed_over tr :
  0 < shards → based gt facts tr →
  (mp_Forgets plan ≠ [] ∨ mp_DeleteLegacy plan = true → handed_over_all gt) ∧
  (mp_DeleteLegacy plan = true → legacy_drained gt facts) ∧
  (∀ id, id ∈ mp_Forgets plan → id ∈ lf_LegacyNodeIDs facts).
Proof.
  intros Hs [_ Hv]. destruct (plan_hands_over gt shards rps name facts Hs (mesh_view_named _ _ _ Hv))
    as (Hc & _ & Hown & Hdel & Hforget). split; [|done]. intros Ho. split; [apply Hc; tauto|by apply Hown].
Qed.

Lemma failovers_traced tr :
  0 < shards → based gt facts tr →
  traced migration_call (λ tr' _, based gt facts tr') tr
    (for_each (λ _ fo, migration_failover fo) tt (mp_Failovers plan)).
Proof.
  intros Hs Hb. destruct (plan_hands_over gt shards rps name facts Hs (mesh_view_named _ _ _ (proj2 Hb)))
    as (Hc & Hfo & _).
  apply (traced_for_each _ (λ tr' _, based gt facts tr')); [done|]. intros tr1 [] fo Hin Hb1.
  destruct (Hfo fo Hin) as (k & r & m & o & Hk & Hm & Ha & Ho & Hl & Hf).
  unfold migration_failover. destruct (_ =? ""); [done|]. destruct (fa_Force fo).
  { pose proof (mesh_view_owner _ _ _ _ _ (proj2 Hb) Ho). by rewrite Hf in *. }
  eapply (traced_bind _ (λ tr' _, based gt facts tr')); [|by intros]. apply based_do; [done|].
  split; [apply Hc; left; intros He; rewrite He in Hin; by apply elem_of_nil in Hin|].
  by exists k, r, m, o.
Qed.

Lemma forgets_traced tr :
  0 < shards → based gt facts tr →
  traced migration_call (λ tr' _, based gt facts tr') tr (forgetLegacyNodes gt (mp_Forgets plan)).
Proof.
  intros Hs Hb. destruct (plan_handed_over tr Hs Hb) as (Hh & _ & Hf).
  apply (traced_for_each _ (λ tr' _, based gt facts tr')); [done|]. intros tr1 [] [i id] Hin Hb1.
  apply elem_of_zip_r in Hin. cbn [fst snd].
  apply (traced_for_each _ (λ tr' _, based gt facts tr')); [done|]. intros tr2 [] n [q Hn]%elem_of_range_values Hb2.
  destruct (_ || _) eqn:He; [done|]. apply orb_false_iff in He as [Hr%negb_false_iff Hne%String.eqb_neq].
  eapply (traced_bind _ (λ tr' _, based gt facts tr')); [|by intros]. apply based_do; [done|].
  split; [apply Hh; left; intros Hnil; rewrite Hnil in Hin; by apply elem_of_nil in Hin|].
  split; [by apply Hf|]. by exists q, n.
Qed.

Lemma decommission_traced tr lr' :
  0 < shards → based gt facts tr → lr_Name lr' = name →
  traced migration_call (λ _ _, True) tr (decommission lr' gt plan).
Proof.
  intros Hs Hb Hname. unfold decommission. eapply traced_bind; [by apply forgets_traced|].
  intros tr1 [] _ Hb1. destruct (mp_DeleteLegacy plan) eqn:Hd; [|done].
  destruct (plan_handed_over tr1 Hs Hb1) as (Hh & Hdr & _).
  unfold then_if_ok, deleteIfExists.
  assert (Hdel : ∀ tr' kind n, based gt facts tr' →
    (kind = KindStatefulSet ∧ n = clusterStatefulSetName lr ∨
     kind = KindPodDisruptionBudget ∧ n = clusterPodDisruptionBudgetName lr) →
    traced migration_call (λ tr' _, based gt facts tr') tr' (deleteIfExists kind n)).
  { intros tr' kind n Hb' Hor. apply (based_call gt facts); [done| |done|by intros].
    split; [apply Hh; by right|]. split; [by apply Hdr|done]. }
  eapply traced_bind; [apply Hdel; [done|left; split; [done|]]|].
  { unfold clusterStatefulSetName. by rewrite Hname. }
  intros tr2 [e|] _ Hb2; [done|]. eapply traced_mono; [done| |apply Hdel; [done|right; split; [done|]]]; [done|].
  unfold clusterPodDisruptionBudgetName. by rewrite Hname.
Qed.

(** Programs that read, and apply objects of the new layout. *)
Definition quiet_or_apply (c : call) : Prop := quiet c ∨ ∃ r, c = Apply r ∧ stood_up r.

Lemma based_safe {A} (p : prog A) : ∀ tr,
  based gt facts tr → allNewPodsMet gt name shards rps = false → calls_only quiet_or_apply p →
  traced migration_call (λ tr' _, based gt facts tr') tr p.
Proof.
  induction p as [a|c k IH]; intros tr Hb Hm Hp; [done|]. destruct Hp as [Hc Hk]. split.
  - destruct Hc as [Hq|(r & -> & Hr)]; [by destruct c|]. split; [apply Hb|]. exists gt, facts. split; [apply Hb|done].
  - intros x. apply IH; [eapply based_mono; [apply grown|done]|done|apply Hk].
Qed.

Lemma reconcileClusterStatefulSet_calls lr' :
  calls_only quiet_or_apply (reconcileClusterStatefulSet desiredHash lr').
Proof.
  apply safe_call; [by left|]. intros now. generalize (seqZ 0 (clusterShardCount lr')). intros ks.
  assert (Ha : ∀ k q, quiet_or_apply (Apply (ClusterShardStatefulSet k q))) by (intros; right; by eexists).
  induction ks as [|k ks IH]; [done|]. cbn [roll_shards]. apply safe_call; [by left|]. intros [cached|err].
  - apply calls_only_bind.
    { unfold refreshShardSTSForRollout. destruct (_ && _); [done|]. apply safe_call; [by left|]. done. }
    intros [existing|err]; [|done]. cbv zeta. destruct (negb _).
    { apply safe_call; [done|]. intros [e|]; [done|]. unfold warnUngatedClusterRollout. destruct (decide _); [|done].
      apply safe_call; [by left|]. done. }
    destruct (negb _); [done|]. apply safe_call; [done|]. intros [e|]; [done|exact IH].
  - destruct (error_not_found err); [|done]. apply safe_call; [done|]. intros [e|]; [done|exact IH].
Qed.

Lemma standup_traced tr lr' :
  based gt facts tr → allNewPodsMet gt name shards rps = false →
  traced migration_call (λ _ _, True) tr (ensureMigrationResources desiredHash lr').
Proof.
  intros Hb Hm. eapply traced_mono; [done| |apply (based_safe _ _ Hb Hm)]; [done|].
  unfold ensureMigrationResources, then_if_ok.
  apply safe_call; [right; by eexists|]. intros [e|]; [done|].
  apply safe_call; [right; by eexists|]. intros [e|]; [done|].
  apply calls_only_bind; [apply reconcileClusterStatefulSet_calls|]. intros [e|]; [done|].
  split; [right; by eexists|done].
Qed.

Lemma run_phase_traced tr password lr' :
  based gt facts tr → lr_Name lr' = name →
  traced migration_call (λ _ _, True) tr (run_phase desiredHash password lr' gt facts plan).
Proof.
  intros Hb Hname. unfold run_phase. destruct (Z.lt_decidable 0 shards) as [Hs|Hs].
  2: { unfold PlanClusterMigration. by destruct (Z.leb_spec shards 0); [|lia]. }
  destruct (mp_Phase plan) eqn:Hph; try done.
  - eapply (traced_bind _ (λ _ _, True)); [|done]. apply standup_traced; [done|].
    pose proof (plan_cases gt name shards rps facts Hs) as Hcases. cbv zeta in Hcases. rewrite Hph in Hcases.
    destruct Hcases as [(_ & _ & _ & [[? _]|[(_ & ? & _)|(_ & _ & ? & _)]])|(_ & _ & _ & [(fo & k & _ & ? & _)|(_ & ? & _)])]; done.
  - eapply (traced_bind _ (λ _ _, True)); [|done]. unfold executeMigrationMeets.
    destruct (lf_SeedAddrs facts) as [|seed seeds] eqn:Hseed; [done|].
    eapply traced_bind; [apply meets_traced; [done|by rewrite Hseed]|done].
  - eapply traced_bind; [by apply replicates_traced|done].
  - eapply traced_bind; [by apply failovers_traced|done].
  - eapply (traced_bind _ (λ _ _, True)); [by apply decommission_traced|done].
Qed.

Lemma persist_traced tr fast lr' : traced migration_call (λ _ _, True) tr (persist_and_requeue fast lr').
Proof. apply traced_call; [done|]. by intros [written|err]. Qed.

Lemma execute_traced tr lr' :
  based gt facts tr → lr_Name lr' = name →
  traced migration_call (λ _ _, True) tr (executeMigrationPhase desiredHash lr' gt facts plan).
Proof.
  intros Hb Hname. unfold executeMigrationPhase.
  eapply (traced_bind _ (λ tr' _, based gt facts tr')).
  { unfold getRedisPassword. destruct (negb _); [by apply traced_ret|].
    apply (based_call gt facts); [done|done|done|]. by intros x Hb1. }
  intros tr1 password _ Hb1. eapply (traced_bind _ (λ _ _, True)); [by apply run_phase_traced|].
  intros tr2 [[e|]| |] _ _; [done|apply persist_traced|done|done].
Qed.
End phases.

(** *** The driver *)

Lemma ensureMigrationStarted_traced tr lr' c :
  traced migration_call (λ tr' r, tr ⊆ tr' ∧ ∃ st, r = set_lr_Status lr' st) tr (ensureMigrationStarted lr' c).
Proof.
  unfold ensureMigrationStarted. destruct (cst_Migration _).
  - apply traced_ret. split; [done|]. by eexists.
  - apply traced_call; [done|]. intros now. apply traced_ret. split; [apply grown|]. by eexists.
Qed.

Lemma gatherFromLegacy_traced tr :
  traced migration_call (λ tr' r, match r with
    | inl (gt, pods) => tr ⊆ tr' ∧ ∃ lp password w,
        answered tr' ListClusterPods (inl lp) ∧ answered tr' (ProbeServers password) w ∧
        gt = GatherClusterGroundTruth (operatorGatherer w) (pods_by_ip lp) ∧ pods = pod_fact <$> lp
    | inr _ => True
    end) tr (gatherFromLegacy lr).
Proof.
  apply traced_call; [done|]. intros [lp|err]; [|done].
  eapply (traced_bind _ (λ tr' _, tr ++ [existT ListClusterPods (inl lp)] ⊆ tr')).
  { unfold getRedisPassword. destruct (negb _); [by apply traced_ret|].
    apply traced_call; [done|]. intros x. apply traced_ret. apply grown. }
  intros tr1 password _ Hsub. apply traced_call; [done|]. intros w. apply traced_ret.
  split; [etrans; [apply grown|]; etrans; [exact Hsub|apply grown]|].
  exists lp, password, w. split; [apply elem_of_app; left; apply Hsub, just_answered|]. split; [apply just_answered|done].
Qed.

Lemma refuse_traced tr lr' a b : traced migration_call (λ _ _, True) tr (refuseUnsupportedMigration lr' a b).
Proof. apply traced_call; [done|]. intros x. apply traced_call; [done|]. by intros [written|err]. Qed.

Lemma migrate_gathered_traced tr gt pods :
  in_migration tr →
  (∃ lp password w, answered tr ListClusterPods (inl lp) ∧ answered tr (ProbeServers password) w ∧
     gt = GatherClusterGroundTruth (operatorGatherer w) (pods_by_ip lp) ∧ pods = pod_fact <$> lp) →
  traced migration_call (λ _ _, True) tr (migrate_gathered desiredHash lr cluster gt pods).
Proof.
  intros Hmig (lp & password & w & Hlp & Hw & -> & ->). unfold migrate_gathered. cbv zeta.
  destruct (buildLegacyFactsFromPods _ _ _) as [[facts ready] newPods] eqn:Hb.
  eapply traced_bind; [apply ensureMigrationStarted_traced|]. intros tr1 lr1 _ [Hsub [st ->]].
  destruct (_ =? 0)%nat; [apply persist_traced|].
  destruct (negb newPods && negb (LegacyMigrationReady _ _)) eqn:Hready; [apply persist_traced|].
  destruct (negb newPods && negb (LegacyShapePreserved _ _ _)) eqn:Hshape; [apply refuse_traced|].
  apply execute_traced; [|done]. eapply based_mono; [exact Hsub|]. split; [done|].
  exists lp, password, w. split; [done|]. split; [done|]. cbv zeta. rewrite Hb.
  split; [done|]. split; [done|]. destruct newPods; [by left|right]. cbn [negb andb] in *.
  by apply negb_false_iff in Hready, Hshape.
Qed.

Lemma migrating_mono tr tr' : tr ⊆ tr' → in_migration tr → in_migration tr'.
Proof. intros Hs [(sts & Hsts & Hl) Hh]. split; [|done]. exists sts. split; [by apply Hs|done]. Qed.

Lemma detect_traced tr :
  traced migration_call (λ tr' d, d = inl true →
    ∃ sts, answered tr' (GetStatefulSet (clusterStatefulSetName lr)) (inl sts) ∧
      isLegacyClusterStatefulSet sts lr = true) tr (detectLegacyClusterStatefulSet lr).
Proof.
  apply traced_call; [done|]. intros [sts|err]; apply traced_ret; [|by destruct (error_not_found err)].
  intros [= Hl]. exists sts. split; [apply just_answered|done].
Qed.

Lemma migrate_traced tr0 :
  lr_Cluster lr = Some cluster → traced migration_call (λ _ _, True) tr0 (migrateLegacyCluster desiredHash lr).
Proof.
  intros Hc. unfold migrateLegacyCluster. eapply traced_bind; [apply detect_traced|].
  intros tr1 [[|]|err] _ Hd; [| |done].
  2: { destruct (ls_Cluster _ ≫= _); [|done]. apply traced_call; [done|]. intros x. apply persist_traced. }
  destruct (String.eqb_spec (at_key (lr_Annotations lr) AnnotationMigrateLegacySTS) migrateLegacyHoldValue) as [|Hh].
  { eapply traced_bind; [apply ensureMigrationStarted_traced|]. intros. apply persist_traced. }
  rewrite Hc. assert (Hmig : in_migration tr1) by (split; [by apply Hd|done]).
  eapply traced_bind; [apply gatherFromLegacy_traced|]. intros tr2 [[gt pods]|err] _ Hg; [|done].
  destruct Hg as [Hsub Hg]. apply migrate_gathered_traced; [by eapply migrating_mono|done].
Qed.
End pass.

(** ** Theorem *)

(** C6. A migration pass is safe.  Whatever the API server and the nodes answer, it
    writes only after it has read a StatefulSet of the legacy layout and only if it is not
    held, and every write is justified by the ground truth gathered in the same pass: the
    new layout is stood up while some of its pods are not members, and before any of them
    exists only on a healthy legacy cluster of the same shape; a MEET introduces a new pod
    at an address confirmed uncached; a new pod is attached to the owner of its shard's range
    and never when it owns the range itself; it is promoted only when every new pod holds a
    copy, as a replica whose link to the owner is up, and never by force; legacy nodes are
    forgotten only after every shard was handed over; and the legacy StatefulSet and its
    disruption budget, the only objects ever deleted, only when no legacy node owns a slot. *)
Theorem migration_pass_safe `{GoRuntime} desiredHash lr cluster tr r :
  lr_Cluster lr = Some cluster → run (migrateLegacyCluster desiredHash lr) tr r →
  ∀ tr1 c x tr2, tr = tr1 ++ existT c x :: tr2 → migration_call lr cluster tr1 c.
Proof.
  intros Hc Hrun. by apply (traced_run _ _ _ [] tr r (migrate_traced desiredHash lr cluster [] Hc) Hrun).
Qed.

(** *** Witness: the legacy node is drained, and its shard's new master owns all slots *)

Definition small_spec : ClusterSpec := mkClusterSpec 1 (Some 0) 0 0 0 0 0.
Definition legacy_lr : LittleRed :=
  mkLittleRed "lr" "uid" "1" true false "cluster" 1 ∅ false "" no_tls None None (Some small_spec) None None None sample_status.
Definition legacy_sts : StatefulSet :=
  mkStatefulSet "rev" 1 1 1 1 "rev" 1 1 "lr-cluster" {[ labelAppComponent := ComponentCluster ]} "" None "uid".
Definition drained_pods : gmap string Pod :=
  {[ "lr-cluster-0" := mkPod "lr-cluster-0" "10.0.0.1" false ∅ ∅ [] None true;
     "lr-shard-0-0" := mkPod "lr-shard-0-0" "10.0.0.2" false ∅ ∅ [] None true ]}.
Definition drained_nodes : string :=
  "old 10.0.0.1:6379@16379 master - 0 0 1 connected" +:+ String newline
  "new 10.0.0.2:6379@16379 master - 0 0 2 connected 0-16383".
Definition drained_wire : Wire :=
  let fail {A} : result A := inr (plain_error "connection refused") in
  mkWire (λ _, fail) (λ _ _, fail) (λ _, fail) (λ _ _, fail)
    (λ addr, inl (RString (if addr =? "10.0.0.1:6379" then "old" else "new")))
    (λ _, inl drained_nodes) (λ _, fail).
Definition legacy_server : Memory := mkMemory drained_pods legacy_lr legacy_sts drained_wire 0 ∅ [].

Lemma migration_pass_safe_witness :
  let p := @migrateLegacyCluster ref_runtime (λ _, "h") legacy_lr in
  Delete KindStatefulSet "lr-cluster" ∈ calls (mem_trace legacy_server p) ∧
  ∃ gt facts, handed_over_all legacy_lr small_spec gt ∧ legacy_drained gt facts.
Proof.
  intros p.
  assert (He : ∃ tr1 x tr2, mem_trace legacy_server p = tr1 ++ existT (Delete KindStatefulSet "lr-cluster") x :: tr2).
  { exists (take 5 (mem_trace legacy_server p)), None, (drop 6 (mem_trace legacy_server p)). vm_compute. reflexivity. }
  destruct He as (tr1 & x & tr2 & He). split.
  { rewrite He. unfold calls. rewrite fmap_app. apply elem_of_app. right. left. }
  destruct (@migration_pass_safe ref_runtime (λ _, "h") legacy_lr small_spec _ _ eq_refl
    (mem_run_trace legacy_server p) _ _ _ _ He) as (_ & gt & facts & _ & Hh & Hd & _).
  exists gt, facts. split; [exact Hh|exact Hd].
Defined.
