(* ===== verification/ClusterReconcile.v ===== *)
(** * The reconciliation of cluster mode (src/internal/controller/cluster_reconcile.go)

    [reconcileCluster] and the handlers only it calls: the refusal of a scale-down, the
    objects of the cluster, and the order in which migration, readiness, recovery, the rollout
    gate, the repair and the status follow each other.  The hash of the desired pod template,
    the namespace, [spec.podDisruptionBudget.create] and whether metrics are scraped are
    arguments. *)

From S2P Require Import Prelude GoStrings Slots Probe ClusterNodes ClusterState Topology Reshard Migration.
From S2P Require Import Info Gather ClusterGather Kube AuthReport ReshardDance Rollout ClusterRollout ClusterWipe ClusterRepair ClusterMigration.

Open Scope Z_scope.
Open Scope go_scope.

(** ** Definitions *)

Definition clusterShardPDBName (lr : LittleRed) (shardIdx : Z) : string :=
  lr_Name lr +:+ "-shard-" +:+ itoa shardIdx +:+ "-pdb".

Definition clusterHasReplicas (lr : LittleRed) : bool :=
  match lr_Cluster lr with
  | None => true
  | Some c => match cls_ReplicasPerShard c with None => true | Some n => (0 <? n)%Z end
  end.

Section reconcile.
Context `{GoRuntime} (namespace : string) (desiredHash : Z → string) (retries : nat).
Context (pdbCreate : option bool) (scraped : bool).

(** *** The objects *)

(** The budgets of the shards. *)
Fixpoint shard_budgets (lr : LittleRed) (create : bool) (ks : list Z) : prog (option error) :=
  match ks with
  | [] => deleteIfExists KindPodDisruptionBudget (clusterPodDisruptionBudgetName lr)
  | k :: rest =>
      then_if_ok
        (if create then perform (Apply (ClusterShardPDB k))
         else deleteIfExists KindPodDisruptionBudget (clusterShardPDBName lr k))
        (shard_budgets lr create rest)
  end.

Definition reconcileClusterPDB (lr : LittleRed) : prog (option error) :=
  shard_budgets lr (pdbEnabled pdbCreate && clusterHasReplicas lr) (seqZ 0 (clusterShardCount lr)).


Definition ensureClusterResources (lr : LittleRed) : prog (option error) :=
  then_if_ok reconcileClusterConfigMap
    (then_if_ok reconcileClusterHeadlessService
       (then_if_ok (reconcileClusterStatefulSet desiredHash lr)
          (then_if_ok reconcileClusterClientService
             (then_if_ok (reconcileClusterPDB lr)
                (if scraped then _ ← reconcileServiceMonitor; mret None else mret None))))).

(** *** Scale-down *)

(** The shards at or above the desired count. *)
Definition orphaned_shards (shards : Z) (items : list StatefulSet) : list string :=
  omap (λ sts, val ← sts_Labels sts !! LabelShard;
               shardIdx ← atoi val;
               if (shards <=? shardIdx)%Z then Some (sts_Name sts) else None) items.

Definition detectOrphanedShardStatefulSets (lr : LittleRed) : prog (list string + error) :=
  r ← perform ListClusterStatefulSets;
  mret match r with
       | inl items => inl (orphaned_shards (clusterShardCount lr) items)
       | inr err => inr err
       end.

Definition scale_down_message (lr : LittleRed) (orphans : list string) : string :=
  "Refusing to reduce cluster.shards to " +:+ itoa (clusterShardCount lr) +:+ ": shard StatefulSet(s) "
  +:+ str_join ", " orphans +:+ " would be orphaned and their slots (and data) lost. There is no reshard-away path "
  +:+ "and LittleRed never deletes data by default. Restore cluster.shards or migrate the "
  +:+ "data and remove the shard(s) manually.".

Definition reportShardScaleDown (lr : LittleRed) (orphans : list string) : prog handled :=
  let msg := scale_down_message lr orphans in
  _ ← perform (Event EventTypeWarning "ShardScaleDownRefused" msg);
  let st := set_Phase (lr_Status lr) PhaseFailed "ShardScaleDownRefused" in
  let lr := set_lr_Status lr (set_Conditions st
              (SetStatusCondition (ls_Conditions st) ConditionReady ConditionFalse "ShardScaleDownRefused" msg)) in
  p ← persistStatus lr;
  mret match (p : LittleRed * option error).2 with
       | Some err => fails p.1 err
       | None => returns p.1 (requeue_after (GetRequeueIntervals p.1).2)
       end.

(** *** The reconciliation *)

(** Not all pods are ready. *)
Definition await_pods (lr : LittleRed) (sets : shard_sets) : prog handled :=
  x ← recoverClusterWipeDeadlock lr;
  let '(lr, e) := x : LittleRed * option error in
  match e with
  | Some err => mret (fails lr err)
  | None =>
      let st := set_Phase (lr_Status lr) PhaseInitializing (ls_Status (lr_Status lr)) in
      let lr := set_lr_Status lr (set_Redis st (ss_ready sets, ss_total sets)) in
      u ← perform (UpdateStatus lr);
      mret match u with
           | inr err => fails lr err
           | inl written => returns written (requeue_after (GetRequeueIntervals written).1)
           end
  end.

Definition needs_repair (gt : ClusterGroundTruth) (expectedReplicas shards : Z) : bool :=
  negb (IsHealthy gt expectedReplicas shards) || HasPartitions gt || HasGhostNodes gt
  || HasOrphanedSlots gt || HasEmptyMasters gt.

(** All pods are ready; [cluster] is the specification read before. *)
Definition tend_cluster (lr : LittleRed) (cluster : ClusterSpec) (expectedReplicas : Z) : prog handled :=
  g ← gatherGroundTruth lr;
  match g with
  | Ok gt =>
      a ← reportOperatorAuth retries lr (clusterAuthFailures gt);
      b ← advanceClusterRollout namespace desiredHash retries (a : LittleRed * option error).1 (Some gt);
      let lr := (b : LittleRed * option error).1 in
      if needs_repair gt expectedReplicas (wrap32 (cls_Shards cluster)) then repairCluster lr gt
      else updateClusterStatus lr (Some gt)
  | _ => mret (lr, Panic)
  end.

(** After the migration, the guards and the apply. *)
Definition reconcile_pods (lr : LittleRed) : prog handled :=
  let cluster := cluster_or_default lr in
  s ← clusterShardStatefulSets lr;
  match s with
  | inr err => mret (fails lr err)
  | inl sets =>
      if negb (ss_allExist sets) then mret (returns lr (requeue_after (GetRequeueIntervals lr).1))
      else
        let expectedReplicas := wrap32 (GetTotalNodes cluster) in
        if negb (ss_ready sets =? expectedReplicas)%Z then await_pods lr sets
        else tend_cluster lr cluster expectedReplicas
  end.

Definition reconcileCluster (lr : LittleRed) : prog handled :=
  m ← migrateLegacyCluster desiredHash (start_phase lr);
  match m with
  | (lr, Ok None) =>
      d ← detectOrphanedShardStatefulSets lr;
      match d with
      | inr err => mret (fails lr err)
      | inl [] =>
          e ← ensureClusterResources lr;
          match e with
          | Some err => mret (fails lr err)
          | None => reconcile_pods lr
          end
      | inl orphans => reportShardScaleDown lr orphans
      end
  | (lr, Ok (Some res)) => mret (lr, Ok res)
  | (lr, _) => mret (lr, Panic)
  end.
End reconcile.

(** ** What a pass may do *)

Section pass.
Context `{GoRuntime} (namespace : string) (desiredHash : Z → string) (retries : nat).
Context (pdbCreate : option bool) (scraped : bool) (lr : LittleRed) (cluster : ClusterSpec).

Abbreviation count := (clusterShardCount lr).

(** The pass has seen that no shard would be left behind. *)
Definition no_scale_down (tr : trace) : Prop :=
  ∃ items, answered tr ListClusterStatefulSets (inl items) ∧ orphaned_shards count items = [].

(** The ground truth gathered in this pass. *)
Definition gathered_in (tr : trace) (gt : ClusterGroundTruth) : Prop :=
  ∃ password w pods, answered tr (ProbeServers password) w ∧
    gt = GatherClusterGroundTruth (operatorGatherer w) pods.

(** The local object, up to its status. *)
Definition same_object (lr' : LittleRed) : Prop := ∃ st, lr' = set_lr_Status lr st.

(** The writes outside a migration. *)
Definition steady_write (tr : trace) (c : call) : Prop :=
  match c with
  | Delete KindStatefulSet _ => False
  | Delete KindPod name => seen_stuck lr tr name ∧ elapsed lr tr
  | Delete KindPodDisruptionBudget name =>
      name = clusterPodDisruptionBudgetName lr ∨
      pdbEnabled pdbCreate && clusterHasReplicas lr = false ∧ ∃ k, 0 ≤ k < count ∧ name = clusterShardPDBName lr k
  | Apply (ClusterShardStatefulSet k _) => 0 ≤ k < count
  | Apply (ClusterShardPDB k) => 0 ≤ k < count ∧ pdbEnabled pdbCreate && clusterHasReplicas lr = true
  | Apply ServiceMonitor => scraped = true
  | Apply (ClusterConfigMap | ClusterHeadlessService | ClusterClientService) => True
  | Apply _ => False
  | ClusterDo addr cmd =>
      ∃ gt lr', gathered_in tr gt ∧ same_object lr' ∧ repair_command lr' cluster gt tr addr cmd
  | _ => True
  end.

Definition steady_call (tr : trace) (c : call) : Prop :=
  match c with
  | PatchPod _ _ | UpdatePod _ | ReplicaOf _ _ _ | SentinelDo _ _ _ | UpdateLittleRed _ => False
  | _ => steady_write tr c
  end.

Definition reconcile_call (tr : trace) (c : call) : Prop :=
  match c with
  | Apply _ | Delete _ _ | ClusterDo _ _ =>
      migration_call lr cluster tr c ∨ no_scale_down tr ∧ steady_write tr c
  | PatchPod _ _ | UpdatePod _ | ReplicaOf _ _ _ | SentinelDo _ _ _ | UpdateLittleRed _ => False
  | _ => True
  end.

(** ** Lemmas *)

Lemma same_object_refl : same_object lr.
Proof. exists (lr_Status lr). by destruct lr. Qed.

Lemma same_object_status lr' st : same_object lr' → same_object (set_lr_Status lr' st).
Proof. intros [st' ->]. by exists st. Qed.

(** *** The objects *)

Definition steady_apply (c : call) : Prop := ∀ tr, steady_call tr c.

Lemma quiet_steady c : quiet c → steady_apply c.
Proof. by destruct c. Qed.

Lemma deleteIfExists_safe kind n :
  steady_apply (Delete kind n) → calls_only steady_apply (deleteIfExists kind n).
Proof. intros Hd. by apply safe_call. Qed.

Lemma then_if_ok_safe P p q : calls_only P p → calls_only P q → calls_only P (then_if_ok p q).
Proof. intros Hp Hq. apply calls_only_bind; [done|]. by intros [e|]. Qed.

Lemma roll_shards_safe now ks :
  (∀ k, k ∈ ks → 0 ≤ k < count) → calls_only steady_apply (roll_shards desiredHash lr now ks).
Proof.
  induction ks as [|k ks IH]; intros Hks; [done|]. cbn [roll_shards].
  assert (Ha : ∀ q, steady_apply (Apply (ClusterShardStatefulSet k q))) by (intros q tr; apply (Hks k); by left).
  assert (Hrest := IH ltac:(intros j Hj; apply Hks; by right)).
  apply safe_call; [done|]. intros [cached|err].
  - apply calls_only_bind; [unfold refreshShardSTSForRollout; by destruct (_ && _)|].
    intros [existing|err]; [|done]. cbv zeta. destruct (negb _).
    { apply safe_call; [done|]. intros [e|]; [done|]. unfold warnUngatedClusterRollout. by destruct (decide _). }
    destruct (negb _); [done|]. apply safe_call; [done|]. intros [e|]; [done|exact Hrest].
  - destruct (error_not_found err); [|done]. apply safe_call; [done|]. intros [e|]; [done|exact Hrest].
Qed.

Lemma shard_budgets_safe ks :
  (∀ k, k ∈ ks → 0 ≤ k < count) →
  calls_only steady_apply (shard_budgets lr (pdbEnabled pdbCreate && clusterHasReplicas lr) ks).
Proof.
  induction ks as [|k ks IH]; intros Hks; cbn [shard_budgets].
  { apply deleteIfExists_safe. intros tr. by left. }
  apply then_if_ok_safe; [|apply IH; intros j Hj; apply Hks; by right].
  assert (Hk : 0 ≤ k < count) by (apply Hks; by left).
  destruct (pdbEnabled pdbCreate && clusterHasReplicas lr) eqn:Hc.
  - split; [|done]. intros tr. by split.
  - apply deleteIfExists_safe. intros tr. right. split; [done|]. by exists k.
Qed.

Lemma elem_of_shards k : k ∈ seqZ 0 count → 0 ≤ k < count.
Proof. intros Hk%elem_of_seqZ. lia. Qed.

Lemma ensureClusterResources_safe :
  calls_only steady_apply (ensureClusterResources desiredHash pdbCreate scraped lr).
Proof.
  repeat apply then_if_ok_safe; try done.
  - apply safe_call; [done|]. intros now. apply roll_shards_safe, elem_of_shards.
  - apply shard_budgets_safe, elem_of_shards.
  - destruct scraped eqn:Hs; [|done]. apply safe_call; [|done]. intros tr. exact Hs.
Qed.

(** *** The reports *)

Abbreviation keeps_object := (λ r : LittleRed * option error, same_object r.1).

Lemma reportOperatorAuth_safe lr' failures :
  same_object lr' → safe steady_apply keeps_object (reportOperatorAuth retries lr' failures).
Proof.
  intros Hs. unfold reportOperatorAuth. cbv zeta. destruct (report_unchanged _ _); [done|].
  eapply safe_bind.
  { apply (safe_RetryOnConflict _ same_object keeps_object); [done|]. intros l Hl. unfold persist_auth.
    apply safe_call; [done|]. intros [latest|err]; [|done]. apply safe_call; [done|]. intros [written|err]; [|done].
    split; by apply same_object_status. }
  intros [l [err|]] Hl; [done|]. destruct (_ && _); [|done]. by apply safe_call.
Qed.

Lemma setClusterRolloutBlocked_keeps lr' status reason message :
  same_object lr' → safe steady_apply keeps_object (setClusterRolloutBlocked retries lr' status reason message).
Proof.
  intros Hs. unfold setClusterRolloutBlocked. eapply safe_bind.
  { apply (safe_RetryOnConflict _ (λ s, same_object s.1) (λ r, same_object r.1.1)); [done|].
    intros [l b] Hl. unfold set_blocked. apply safe_call; [done|]. intros [latest|err]; [|done]. cbv zeta.
    destruct (bool_decide _); [done|]. apply safe_call; [done|]. intros u. split; by apply same_object_status. }
  intros [[l b] [err|]] Hl; [done|]. destruct (_ && _); [|done]. by apply safe_call.
Qed.

Lemma clearClusterRolloutBlocked_keeps lr' :
  same_object lr' → safe steady_apply keeps_object (clearClusterRolloutBlocked retries lr').
Proof.
  intros Hs. unfold clearClusterRolloutBlocked. destruct (FindStatusCondition _ _); [|done].
  by apply setClusterRolloutBlocked_keeps.
Qed.

Lemma shardRolloutPods_quiet lr' k rps : calls_only quiet (shardRolloutPods lr' k rps).
Proof.
  unfold shardRolloutPods. generalize (∅ : gmap string Pod). induction (seqZ _ _) as [|o os IH]; intros pods; [done|].
  cbn [read_pods]. apply safe_call; [done|]. intros [pod|err]; [apply IH|]. destruct (error_not_found err); [apply IH|done].
Qed.

Lemma gate_shards_safe lr' gt now ks :
  same_object lr' → (∀ k, k ∈ ks → 0 ≤ k < count) →
  safe steady_apply keeps_object (gate_shards namespace desiredHash retries lr' gt now ks).
Proof.
  intros Hs. induction ks as [|k ks IH]; intros Hks; cbn [gate_shards]; [by apply clearClusterRolloutBlocked_keeps|].
  assert (Hrest := IH ltac:(intros j Hj; apply Hks; by right)).
  apply safe_call; [done|]. intros [sts|err]; [|by destruct (error_not_found err)].
  destruct (_ && _); [exact Hrest|]. cbv zeta.
  apply calls_only_bind; [eapply safe_mono; [apply quiet_steady|done|apply shardRolloutPods_quiet]|].
  intros [pods|err]; [|done]. apply calls_only_bind.
  { destruct (decide _); [|done]. split; [|done]. intros tr. apply (Hks k). by left. }
  intros [err|]; [done|]. unfold reportClusterRolloutGate.
  destruct (negb _); [by apply clearClusterRolloutBlocked_keeps|by apply setClusterRolloutBlocked_keeps].
Qed.

Lemma advanceClusterRollout_safe lr' gt :
  same_object lr' → safe steady_apply keeps_object (advanceClusterRollout namespace desiredHash retries lr' gt).
Proof.
  intros Hs. unfold advanceClusterRollout. destruct (_ <=? _)%Z; [by apply clearClusterRolloutBlocked_keeps|].
  apply safe_call; [done|]. intros now. apply gate_shards_safe; [done|].
  destruct Hs as [st ->]. apply elem_of_shards.
Qed.

(** *** The gather and the repair *)

Lemma gatherGroundTruth_traced tr lr' :
  same_object lr' →
  traced steady_call (λ tr' g, match g with Ok gt => gathered_in tr' gt | _ => True end) tr (gatherGroundTruth lr').
Proof.
  intros Hs. unfold gatherGroundTruth.
  eapply (traced_bind _ (λ _ _, True)).
  { apply (traced_safe _ (λ _, True)). eapply safe_mono; [apply quiet_steady|done|apply getRedisPassword_quiet]. }
  intros tr1 password _ _. destruct (lr_Cluster lr') as [c|]; [|done].
  eapply (traced_bind _ (λ _ _, True)).
  { by apply (traced_for_each _ (λ _ _, True)). }
  intros tr2 pods _ _. apply traced_call; [done|]. intros w. apply traced_ret.
  exists password, w, pods. split; [apply just_answered|done].
Qed.

Lemma gathered_identified tr gt : gathered_in tr gt → identified gt.
Proof.
  intros (password & w & pods & _ & ->) n [p Hn] Hs.
  destruct (nw_role n (gw_nodes _ (gathered_wf w pods) p n Hn)) as [(_ & Hnil & _)|(Hid & _)]; done.
Qed.

Lemma gathered_mono gt tr tr' : tr ⊆ tr' → gathered_in tr gt → gathered_in tr' gt.
Proof. intros Hs (password & w & pods & Hw & ->). exists password, w, pods. split; [by apply Hs|done]. Qed.

Lemma steady_safe {A} tr (Q : A → Prop) (p : prog A) :
  safe steady_apply Q p → traced steady_call (λ _ a, Q a) tr p.
Proof. apply traced_safe. Qed.

Lemma tend_traced tr expected :
  lr_Cluster lr = Some cluster → admitted_shape cluster →
  traced steady_call (λ _ _, True) tr (tend_cluster namespace desiredHash retries lr cluster expected).
Proof.
  intros Hc Hadm. unfold tend_cluster. eapply traced_bind; [apply gatherGroundTruth_traced, same_object_refl|].
  intros tr1 [gt| |] _ Hg; [|done|done].
  eapply traced_bind; [apply steady_safe, reportOperatorAuth_safe, same_object_refl|]. intros tr2 a Hs2 Ha.
  eapply traced_bind; [by apply steady_safe, advanceClusterRollout_safe|]. intros tr3 b Hs3 Hb. cbv zeta.
  assert (Hg3 : gathered_in tr3 gt) by (eapply gathered_mono; [|exact Hg]; by etrans).
  destruct (needs_repair _ _ _).
  - eapply traced_mono; [| |apply (traced_keep (λ tr, gathered_in tr gt)); [by apply gathered_mono|exact Hg3|]].
    + intros tr' c [Hg' Hrc]. instantiate (1 := repair_call b.1 cluster gt) in Hrc.
      destruct c; try done. by exists gt, b.1.
    + done.
    + apply repair_traced; [|done|by eapply gathered_identified]. destruct Hb as [st ->]. exact Hc.
  - apply steady_safe. eapply safe_mono; [apply quiet_steady|done|apply updateClusterStatus_quiet].
Qed.

Lemma await_traced tr sets : traced steady_call (λ _ _, True) tr (await_pods lr sets).
Proof.
  unfold await_pods. eapply (traced_bind _ (λ _ _, True)).
  { eapply traced_mono; [| |apply (recover_traced lr tr)]; [|done].
    intros tr' c Hc. destruct c as [| | | | | | | | | | | | | | | |[] name| | | | |]; try done. }
  intros tr1 [l [err|]] _ _; [done|]. apply traced_call; [done|]. by intros [written|err].
Qed.

Lemma reconcile_pods_traced tr :
  lr_Cluster lr = Some cluster → admitted_shape cluster →
  traced steady_call (λ _ _, True) tr (reconcile_pods namespace desiredHash retries lr).
Proof.
  intros Hc Hadm. unfold reconcile_pods, cluster_or_default. rewrite Hc.
  eapply (traced_bind _ (λ _ _, True)).
  { apply (traced_safe _ (λ _, True)). eapply safe_mono; [apply quiet_steady|done|apply clusterShardStatefulSets_quiet]. }
  intros tr1 [sets|err] _ _; [|done]. destruct (negb _); [done|]. cbv zeta.
  destruct (negb _); [apply await_traced|by apply tend_traced].
Qed.

(** *** The whole pass *)

(** The normal reconciliation goes on with the object unchanged. *)
Lemma migrate_same : safe (λ _, True) (λ r, r.2 = Ok None → r.1 = lr) (migrateLegacyCluster desiredHash lr).
Proof.
  assert (Hp : ∀ fast l, safe (λ _, True) (λ r, r.2 ≠ Ok None) (persist_and_requeue fast l)).
  { intros fast l. apply safe_call; [done|]. intros [written|err]; [done|]. cbn. by destruct (error_conflict err). }
  assert (Hp' : ∀ fast l, safe (λ _, True) (λ r, r.2 = Ok None → r.1 = lr) (persist_and_requeue fast l)).
  { intros. eapply safe_mono; [done| |apply Hp]. by intros r Hr ?. }
  unfold migrateLegacyCluster. apply calls_only_bind; [apply safe_any|]. intros [[|]|err]; [| |done].
  2: { destruct (ls_Cluster _ ≫= _); [|done]. by apply safe_call. }
  destruct (_ =? migrateLegacyHoldValue). { apply calls_only_bind; [apply safe_any|]. intros. apply Hp'. }
  destruct (lr_Cluster lr) as [c|]; [|done]. apply calls_only_bind; [apply safe_any|]. intros [[gt pods]|err]; [|done].
  unfold migrate_gathered. destruct (buildLegacyFactsFromPods _ _ _) as [[facts ready] nw].
  apply calls_only_bind; [apply safe_any|]. intros l. destruct (_ =? 0)%nat; [apply Hp'|].
  destruct (negb nw && negb (LegacyMigrationReady _ _)); [apply Hp'|].
  destruct (negb nw && negb (LegacyShapePreserved _ _ _)).
  { unfold refuseUnsupportedMigration. by apply calls_only_bind; [apply safe_any|]. }
  unfold executeMigrationPhase. apply calls_only_bind; [apply safe_any|]. intros password.
  apply calls_only_bind; [apply safe_any|]. intros [[e|]| |]; [done|apply Hp'|done|done].
Qed.

Lemma no_scale_down_mono tr tr' : tr ⊆ tr' → no_scale_down tr → no_scale_down tr'.
Proof. intros Hs (items & Hi & Ho). exists items. split; [by apply Hs|done]. Qed.

Lemma steady_reconcile {A} tr (p : prog A) :
  no_scale_down tr → traced steady_call (λ _ _, True) tr p → traced reconcile_call (λ tr' _, no_scale_down tr') tr p.
Proof.
  intros Hn Hp. eapply traced_mono; [| |apply (traced_keep no_scale_down), Hp]; [| |apply no_scale_down_mono|done].
  - intros tr' c [Hn' Hc]. destruct c; try done; by right.
  - by intros tr' a [? _].
Qed.
End pass.

Lemma reconcile_pass_traced `{GoRuntime} namespace desiredHash retries pdbCreate scraped lr cluster :
  lr_Cluster lr = Some cluster → admitted_shape cluster →
  ∀ tr, traced (reconcile_call pdbCreate scraped (start_phase lr) cluster) (λ _ _, True) tr
    (reconcileCluster namespace desiredHash retries pdbCreate scraped lr).
Proof.
  intros Hc Hadm tr. unfold reconcileCluster. set (lr0 := start_phase lr).
  assert (Hc0 : lr_Cluster lr0 = Some cluster).
  { unfold lr0, start_phase. by destruct (bool_decide _). }
  clearbody lr0. eapply traced_bind; [eapply traced_safe_and, migrate_same|].
  { eapply traced_mono; [| |by apply (migrate_traced desiredHash lr0 cluster)]; [|done].
    intros tr' c Hm. destruct c; try done; by left. }
  intros tr1 [l [[res|]| |]] _ [_ Hsame]; [done| |done|done].
  specialize (Hsame eq_refl). cbn [fst] in Hsame. subst l.
  eapply (traced_bind _ (λ tr2 d, d = inl [] → no_scale_down lr0 tr2)).
  { apply traced_call; [done|]. intros [items|err]; [|done]. apply traced_ret. intros [= Ho].
    exists items. split; [apply just_answered|done]. }
  intros tr2 [[|o os]|err] _ Hd; [| |done].
  2: { apply traced_call; [done|]. intros x. apply traced_call; [done|]. by intros [written|err]. }
  eapply traced_bind; [apply steady_reconcile|].
  - by apply Hd.
  - apply (traced_safe _ (λ _, True)), ensureClusterResources_safe.
  - intros tr3 [err|] _ Hn; [done|]. eapply traced_mono; [done| |apply steady_reconcile; [exact Hn|]]; [done|].
    by apply reconcile_pods_traced.
Qed.

(** ** Theorem *)

(** C4. Everything a pass over a cluster writes is accounted for.  Whatever is answered,
    every object it applies or deletes and every command it sends belongs to a justified
    migration step, or follows a check, in the same pass, that no existing shard lies beyond
    the desired number of shards.  Outside a migration no StatefulSet is ever deleted, a pod
    only if it was read with its Redis down, restarted and not killed for memory after the
    cooldown, a disruption budget only if it is not wanted; only StatefulSets and budgets of
    desired shards are applied; and every command to a node is justified, as a command of the
    repair, by a ground truth gathered in this pass. *)
Theorem reconcile_writes_justified `{GoRuntime} namespace desiredHash retries pdbCreate scraped lr cluster tr r :
  lr_Cluster lr = Some cluster → admitted_shape cluster →
  run (reconcileCluster namespace desiredHash retries pdbCreate scraped lr) tr r →
  ∀ tr1 c x tr2, tr = tr1 ++ existT c x :: tr2 →
    reconcile_call pdbCreate scraped (start_phase lr) cluster tr1 c.
Proof.
  intros Hc Hadm Hrun.
  by apply (traced_run _ _ _ [] tr r (reconcile_pass_traced namespace desiredHash retries pdbCreate scraped lr cluster Hc Hadm [])).
Qed.

(** *** Witness: a pod of a wiped cluster is recycled *)

Definition wiped_lr : LittleRed := with_WipeDeadlockSince cluster_lr (Some 0).
Definition wiped_pods : gmap string Pod :=
  {[ "lr-shard-0-0" :=
       mkPod "lr-shard-0-0" "10.0.0.1" false ∅ ∅ [mkContainerStatus ComponentRedis false 3 None] None
         false ]}.
Definition wiped_server : Memory :=
  mkMemory wiped_pods wiped_lr (mkStatefulSet "old" 0 2 2 2 "old" 2 2 "lr-shard-0" ∅ "h" None "uid") sample_wire
    (200 * second) ∅ [].

Lemma reconcile_writes_justified_witness :
  let p := @reconcileCluster ref_runtime "ns" (λ _, "h") 4 None false wiped_lr in
  let tr := mem_trace wiped_server p in
  ∃ tr1 x tr2, tr = tr1 ++ existT (Delete KindPod "lr-shard-0-0") x :: tr2 ∧ no_scale_down wiped_lr tr1 ∧ elapsed wiped_lr tr1.
Proof.
  intros p tr.
  assert (He : ∃ n, tr = take n tr ++ existT (Delete KindPod "lr-shard-0-0") None :: drop (S n) tr).
  { exists 22%nat. vm_compute. reflexivity. }
  destruct He as [n He]. exists (take n tr), None, (drop (S n) tr). split; [exact He|].
  pose proof (@reconcile_writes_justified ref_runtime "ns" (λ _, "h") 4 None false wiped_lr
    (mkClusterSpec 3 (Some 1) 0 0 0 0 0) tr _ eq_refl ltac:(vm_compute; split; discriminate)
    (mem_run_trace wiped_server p) _ _ _ _ He) as [Hm|(Hn & _ & He')].
  - destruct Hm as (_ & gt & facts & _ & _ & _ & [[Hk _]|[Hk _]]); discriminate.
  - split; [exact Hn|exact He'].
Defined.
