(* ===== verification/FailoverEngine.v ===== *)
(** * The failover-mode engine (src/internal/controller/failover_reconcile.go)

    The effectful half of failover mode: the assignment annotations on the pods are the
    record of intent, re-derived on every pass; the pure planners of [Recovery] and
    [FailoverIntent] decide, and the handlers of this file gather their inputs and carry
    the decisions out. *)

From S2P Require Import Prelude GoStrings Probe ClusterState ReplicationTypes.
From S2P Require Import Lineage ReplicationState Recovery FailoverIntent Gather Kube AuthReport.

Open Scope Z_scope.
Open Scope go_scope.

(** ** Definitions *)

Definition failoverTransitionCooldown : duration := 10 * second.

Definition reasonFailoverPromoted : string := "FailoverPromoted".
Definition reasonRefusedDataPresent : string := "RefusedDataPresent".
Definition reasonReseeded : string := "Reseeded".
Definition reasonUnsafeRebootstrap : string := "UnsafeRebootstrap".
Definition reasonRecovered : string := "Recovered".
Definition reasonPodsNotReady : string := "PodsNotReady".
Definition reasonAllPodsReady : string := "AllPodsReady".
Definition reasonInitialized : string := "Initialized".

Record failoverEngineView := mkEngineView {
  ev_intent : failoverIntent;
  ev_liveMasterIP : string;
  ev_masterPodName : string;
  ev_replicasLinkedUp : Z;
  ev_requeueFast : bool;
}.

Definition requeue (eng : failoverEngineView) : failoverEngineView :=
  mkEngineView (ev_intent eng) (ev_liveMasterIP eng) (ev_masterPodName eng)
    (ev_replicasLinkedUp eng) true.

(** *** Pod views *)

Fixpoint redisContainerStatus (cs : list ContainerStatus) : bool * bool :=
  match cs with
  | [] => (false, false)
  | c :: cs' => if cs_Name c =? ComponentRedis then (cs_Ready c, (0 <? cs_RestartCount c)%Z)
                else redisContainerStatus cs'
  end.

(** The assignment read from the annotations, if both are set and the epoch parses. *)
Definition pod_assignment (p : Pod) : option (string * string * Z) :=
  let role := at_key (pod_Annotations p) AnnotationAssignedRole in
  let epochStr := at_key (pod_Annotations p) AnnotationAssignmentEpoch in
  if negb (role =? "") && negb (epochStr =? "")
  then e ← atoi epochStr;
       Some (role, at_key (pod_Annotations p) AnnotationAssignedMasterIP, e)
  else None.

Definition pod_view (state : option ReplicationState) (p : Pod) : failoverPodView :=
  let '(ready, restarted) := redisContainerStatus (pod_Containers p) in
  let reachable :=
    match state with
    | Some s => if negb (pod_IP p =? "")
                then from_option rn_Reachable false (rs_RedisNodes s !! pod_IP p) else false
    | None => false
    end in
  match pod_assignment p with
  | Some (role, masterIP, e) =>
      mkFailoverPodView (pod_Name p) (pod_IP p) (pod_Terminating p) ready restarted reachable
        true role masterIP e
  | None =>
      mkFailoverPodView (pod_Name p) (pod_IP p) (pod_Terminating p) ready restarted reachable
        false "" "" 0
  end.

Definition buildFailoverPodViews (pods : list Pod) (state : option ReplicationState)
  : list failoverPodView := pod_view state <$> pods.

Fixpoint failoverMasterPodView (pods : list Pod) (intent : failoverIntent) : masterPodView :=
  match pods with
  | [] => mkMasterPodView false false false
  | p :: ps =>
      if negb (pod_Name p =? fi_masterName intent) || negb (pod_IP p =? fi_masterIP intent)
      then failoverMasterPodView ps intent
      else mkMasterPodView true (redisContainerStatus (pod_Containers p)).1 (pod_Terminating p)
  end.

Fixpoint podNameForIP (pods : list Pod) (ip : string) : string :=
  match pods with
  | [] => ""
  | p :: ps => if pod_IP p =? ip then pod_Name p else podNameForIP ps ip
  end.

(** *** Stamping *)

(** The annotations after the assignments of the handler body. *)
Definition stamped_annotations (a : gmap string string) (s : failoverStamp)
  : gmap string string :=
  let epochStr := itoa (st_epoch s) in
  let a' := <[AnnotationAssignmentEpoch := epochStr]>
              (<[AnnotationAssignedMasterIP := st_masterIP s]>
                 (<[AnnotationAssignedRole := st_role s]> a)) in
  if st_authorizeMasterStart s
  then <[AnnotationMasterStartAuthorizedEpoch := epochStr]> a' else a'.

Definition already_stamped (a : gmap string string) (s : failoverStamp) : bool :=
  let epochStr := itoa (st_epoch s) in
  let authSatisfied := negb (st_authorizeMasterStart s)
                       || (at_key a AnnotationMasterStartAuthorizedEpoch =? epochStr) in
  (at_key a AnnotationAssignedRole =? st_role s)
  && (at_key a AnnotationAssignedMasterIP =? st_masterIP s)
  && (at_key a AnnotationAssignmentEpoch =? epochStr)
  && authSatisfied.

Definition stampFailoverPod (s : failoverStamp) : prog (option error) :=
  r ← perform (GetPod (st_podName s));
  match r with
  | inr err => mret (Some err)
  | inl pod =>
      if already_stamped (pod_Annotations pod) s then mret None
      else perform (PatchPod (st_podName s)
             (merge_patch (pod_Annotations pod) (stamped_annotations (pod_Annotations pod) s)))
  end.

(** The stamp of one listed pod, if it is live and has an address. *)
Definition assignment_stamp (masterName masterIP : string) (epoch : Z)
  (authorizeMasterStart : bool) (p : Pod) : option failoverStamp :=
  if (pod_IP p =? "") || pod_Terminating p then None
  else if pod_Name p =? masterName
  then Some (mkFailoverStamp (pod_Name p) RoleMaster "" epoch authorizeMasterStart)
  else Some (mkFailoverStamp (pod_Name p) RoleReplica masterIP epoch false).

(** [if err := ...; err != nil && firstErr == nil { firstErr = err }] *)
Definition first_error (firstErr err : option error) : option error :=
  match firstErr with Some e => Some e | None => err end.

Definition stampFailoverAssignments (pods : list Pod) (masterName masterIP : string)
  (epoch : Z) (authorizeMasterStart : bool) : prog (option error) :=
  for_each (λ firstErr p,
    match assignment_stamp masterName masterIP epoch authorizeMasterStart p with
    | None => mret firstErr
    | Some s => err ← stampFailoverPod s; mret (first_error firstErr err)
    end) None pods.

(** *** Commands *)

Definition promoteFailoverMaster (state : ReplicationState) (masterIP password : string)
  : prog (option error) :=
  if negb (needsPromotion state masterIP) then mret None
  else
    r ← SlaveOf (address masterIP RedisPort) password "" "";
    mret (option_map (errorf ("promote elected master " +:+ masterIP)) r).

Definition slaveOfBounded (ip masterIP password : string) : prog (option error) :=
  SlaveOf (address ip RedisPort) password masterIP (itoa RedisPort).

(** *** Status markers *)

Definition empty_failover_status : FailoverStatus := mkFailoverStatus None 0 None.

Section Engine.
Context `{GoRuntime} (retries : nat).

(** The pattern of the marker helpers: re-read the object, [edit] its failover status or
    find that there is nothing to do, mirror the result onto the local object, write. *)
Definition edit_failover_status
  (edit : option FailoverStatus → option FailoverStatus + option FailoverStatus)
  (lr : LittleRed) : prog (LittleRed * option error) :=
  r ← perform GetLittleRed;
  match r with
  | inr err => mret (lr, Some err)
  | inl latest =>
      match edit (ls_Failover (lr_Status latest)) with
      | inl unchanged => mret (with_Failover lr unchanged, None)
      | inr edited =>
          u ← perform (UpdateStatus (with_Failover latest edited));
          match u with
          | inr err => mret (with_Failover lr edited, Some err)
          | inl written => mret (with_Failover lr (ls_Failover (lr_Status written)), None)
          end
      end
  end.

Definition setFailoverMasterDownSince (lr : LittleRed) (t : time)
  : prog (LittleRed * option error) :=
  RetryOnConflict retries (edit_failover_status (λ f,
    match f with
    | Some (mkFailoverStatus (Some _) _ _) => inl f
    | _ => let f0 := default empty_failover_status f in
           inr (Some (mkFailoverStatus (Some t) (fo_AssignmentEpoch f0) (fo_TransitionSince f0)))
    end)) lr.

(** [lr.Status.Failover == nil || lr.Status.Failover.MasterDownSince == nil] *)
Definition no_marker (f : option FailoverStatus) : bool :=
  match f with Some (mkFailoverStatus (Some _) _ _) => false | _ => true end.

Definition clearFailoverMasterDownSince (lr : LittleRed) : prog (LittleRed * option error) :=
  if no_marker (ls_Failover (lr_Status lr)) then mret (lr, None)
  else RetryOnConflict retries (edit_failover_status (λ f,
    match f with
    | Some f0 => if no_marker f then inl f
                 else inr (Some (mkFailoverStatus None (fo_AssignmentEpoch f0)
                                   (fo_TransitionSince f0)))
    | None => inl f
    end)) lr.

Definition markFailoverTransition (lr : LittleRed) (epoch : Z) : prog (LittleRed * option error) :=
  now ← perform Now;
  RetryOnConflict retries (edit_failover_status (λ f,
    inr (Some (mkFailoverStatus None epoch (Some now))))) lr.

Definition setFailoverRecoveryCondition (lr : LittleRed) (status : ConditionStatus)
  (reason message : string) : prog (LittleRed * option error) :=
  RetryOnConflict retries (λ lr,
    r ← perform GetLittleRed;
    match r with
    | inr err => mret (lr, Some err)
    | inl latest =>
        let conditions := SetStatusCondition (ls_Conditions (lr_Status latest))
          ConditionFailoverRecovery status reason message in
        u ← perform (UpdateStatus (with_Conditions latest conditions));
        mret (with_Conditions lr conditions,
              match u with inr err => Some err | inl _ => None end)
    end) lr.

Definition clearFailoverRecoveryCondition (lr : LittleRed) : prog (LittleRed * option error) :=
  match FindStatusCondition (ls_Conditions (lr_Status lr)) ConditionFailoverRecovery with
  | Some c => if bool_decide (cond_Status c = ConditionTrue)
              then setFailoverRecoveryCondition lr ConditionFalse reasonRecovered
                     "A live master is known again."
              else mret (lr, None)
  | None => mret (lr, None)
  end.

(** *** Carrying out a plan *)

(** [masterPod], [keys] and [offset] of the event messages. *)
Definition elect_text (state : ReplicationState) (masterPod masterIP : string) : string :=
  let rn := rs_RedisNodes state !! masterIP in
  masterPod +:+ " (keys=" +:+ itoa (from_option rn_Keys 0 rn) +:+ ", offset=" +:+
  itoa (from_option rn_Offset 0 rn) +:+ ")".

Definition refuse_text (plan : failoverPlan) : string :=
  if fp_forked plan
  then "No live master, " +:+ itoa (fp_holders plan) +:+
       " pods hold data, and MORE THAN ONE of them is a " +:+
       "master, so each has accepted writes independently since they parted. Their " +:+
       "replication offsets are not comparable, so electing the highest would silently " +:+
       "discard the other's acknowledged writes. Refusing to elect. Identify which pod " +:+
       "holds the writes you need, or set failover.allowUnsafeRebootstrapOnDeadlock=true " +:+
       "to authorize discarding the rest."
  else "No live master and " +:+ itoa (fp_holders plan) +:+
       " pods hold data across divergent replication lineages. " +:+
       "Refusing to elect (would discard independent writes). Set failover.allowUnsafeRebootstrapOnDeadlock=true " +:+
       "to authorize, or intervene manually.".

Definition refuse_unverified_text (plan : failoverPlan) : string :=
  "No live master, and " +:+ unverifiedPodSummary (fp_unverified plan) +:+
  ". Refusing to elect — a pod that refuses the " +:+
  "operator's credential is a live server whose keyspace cannot be read, so it cannot " +:+
  "be shown to be empty and electing around it may discard the entire dataset. Fix the " +:+
  "credential (see the OperatorCannotAuthenticate condition); " +:+
  "failover.allowUnsafeRebootstrapOnDeadlock deliberately does NOT override this.".

(** Fence the outgoing master; an error is only logged. *)
Definition fence (pods : list Pod) (intent : failoverIntent) (masterIP password : string)
  : prog unit :=
  let fenceIP := planFailoverFence (buildFailoverPodViews pods None) (fi_masterIP intent) masterIP in
  if negb (fenceIP =? "") then _ ← slaveOfBounded fenceIP masterIP password; mret tt
  else mret tt.

Definition execute_seed (lr : LittleRed) (pods : list Pod) (intent : failoverIntent)
  (plan : failoverPlan) : prog (LittleRed * option error) :=
  let epoch := wrap64 (fi_maxEpoch intent + 1) in
  let masterPod := podNameForIP pods (fp_masterIP plan) in
  let msg := "Failover recovery: no data present, seeded " +:+ masterPod +:+
             " as master (epoch " +:+ itoa epoch +:+ ")" in
  err ← stampFailoverAssignments pods masterPod (fp_masterIP plan) epoch
          (masterStartAuthorizedFor (fp_action plan));
  match err with
  | Some e => mret (lr, Some e)
  | None =>
      r ← markFailoverTransition lr epoch;
      match r with
      | (lr', Some e) => mret (lr', Some e)
      | (lr', None) => _ ← perform (Event EventTypeNormal reasonReseeded msg); mret (lr', None)
      end
  end.

Definition execute_elect (lr : LittleRed) (state : ReplicationState) (pods : list Pod)
  (intent : failoverIntent) (plan : failoverPlan) (password : string)
  : prog (LittleRed * option error) :=
  let epoch := wrap64 (fi_maxEpoch intent + 1) in
  let masterPod := podNameForIP pods (fp_masterIP plan) in
  err ← stampFailoverAssignments pods masterPod (fp_masterIP plan) epoch
          (masterStartAuthorizedFor (fp_action plan));
  match err with
  | Some e => mret (lr, Some e)
  | None =>
      perr ← promoteFailoverMaster state (fp_masterIP plan) password;
      match perr with
      | Some e => mret (lr, Some e)
      | None =>
          _ ← fence pods intent (fp_masterIP plan) password;
          r ← markFailoverTransition lr epoch;
          match r with
          | (lr', Some e) => mret (lr', Some e)
          | (lr', None) =>
              let who := elect_text state masterPod (fp_masterIP plan) in
              _ ← perform
                (if bool_decide (fp_action plan = failoverUnsafeElect)
                 then Event EventTypeWarning reasonUnsafeRebootstrap
                   ("UNSAFE failover: force-elected " +:+ who +:+
                    " as master; divergent data on " +:+ itoa (fp_holders plan - 1) +:+
                    " other holder(s) will be DISCARDED via full resync")
                 else Event EventTypeNormal reasonFailoverPromoted
                   ("Failover: promoted " +:+ who +:+ " to master at epoch " +:+ itoa epoch +:+
                    " — single replication lineage, no data discarded"));
              mret (lr', None)
          end
      end
  end.

Definition executeFailoverPlan (lr : LittleRed) (state : ReplicationState) (pods : list Pod)
  (intent : failoverIntent) (plan : failoverPlan) (password : string)
  : prog (LittleRed * option error) :=
  match fp_action plan with
  | failoverNone | failoverWait => mret (lr, None)
  | failoverSeed => execute_seed lr pods intent plan
  | failoverPromote | failoverUnsafeElect => execute_elect lr state pods intent plan password
  | failoverRefuse =>
      _ ← perform (Event EventTypeWarning reasonRefusedDataPresent (refuse_text plan));
      setFailoverRecoveryCondition lr ConditionTrue reasonRefusedDataPresent (refuse_text plan)
  | failoverRefuseUnverified =>
      _ ← perform (Event EventTypeWarning reasonRefusedDataUnverified (refuse_unverified_text plan));
      setFailoverRecoveryCondition lr ConditionTrue reasonRefusedDataUnverified
        (refuse_unverified_text plan)
  end.

(** *** The pass *)

(** Addresses of the live pods, by address, and of every pod. *)
Definition redis_map (pods : list Pod) : gmap string string :=
  foldl (λ m p, if pod_Terminating p || (pod_IP p =? "") then m
                else <[pod_IP p := pod_Name p]> m) ∅ pods.
Definition owned_ips (pods : list Pod) : gmap string bool :=
  foldl (λ m p, if pod_IP p =? "" then m else <[pod_IP p := true]> m) ∅ pods.
Definition role_labels (pods : list Pod) : gmap string string :=
  foldl (λ m p, <[pod_Name p := at_key (pod_Labels p) LabelRole]> m) ∅ pods.

(** A reachable pod other than the intended master that follows it. *)
Definition follows (intent : failoverIntent) (ip : string) (rn : RedisNodeState) : bool :=
  rn_Reachable rn && negb (ip =? fi_masterIP intent) && (rn_MasterHost rn =? fi_masterIP intent).

Definition replicas_linked_up (intent : failoverIntent) (state : ReplicationState) : Z :=
  len (bfilter (λ '(ip, rn), follows intent ip rn && (rn_LinkStatus rn =? "up"))
         (go_range [375] (rs_RedisNodes state))).

Definition replica_links (intent : failoverIntent) (state : ReplicationState) : list string :=
  (λ '(ip, rn), rn_LinkStatus rn) <$>
    bfilter (λ '(ip, rn), follows intent ip rn) (go_range [405] (rs_RedisNodes state)).

(** Step 5: the updated object, and whether the master is declared dead and whether the
    next pass should come fast. *)
Definition detect_death (lr : LittleRed) (pods : list Pod) (intent : failoverIntent)
  (state : ReplicationState) : prog (LittleRed * bool * bool) :=
  let downSince := ls_Failover (lr_Status lr) ≫= fo_MasterDownSince in
  let downAfter := wrap64 (fsp_DownAfterMilliseconds (failoverSpecOrDefault lr) * millisecond) in
  let masterReachable := from_option rn_Reachable false
                           (rs_RedisNodes state !! fi_masterIP intent) in
  now ← perform Now;
  match planMasterDeath (failoverMasterPodView pods intent) masterReachable
          (replica_links intent state) downSince now downAfter with
  | masterDeathClearMarker =>
      r ← clearFailoverMasterDownSince lr; mret (r.1, false, false)
  | masterDeathStartWindow =>
      t ← perform Now;
      r ← setFailoverMasterDownSince lr t; mret (r.1, false, true)
  | masterDeathWait | masterDeathHold => mret (lr, false, true)
  | masterDeathDeclareK8s | masterDeathDeclareProbe => mret (lr, true, false)
  end.

(** Step 7: repoint stragglers, then release parked pods. *)
Definition heal (pods : list Pod) (intent : failoverIntent)
  (state : ReplicationState) (liveMasterIP password : string) (settled : bool)
  (eng : failoverEngineView) : prog failoverEngineView :=
  eng1 ← for_each (λ eng ip, _ ← slaveOfBounded ip liveMasterIP password; mret (requeue eng))
           eng (planFailoverRepoints state liveMasterIP);
  if settled
  then for_each (λ eng s, _ ← stampFailoverPod s; mret (requeue eng)) eng1
         (planFailoverReauth (buildFailoverPodViews pods (Some state)) intent liveMasterIP)
  else mret eng1.

(** The state one pass acts on. *)
Definition gathered_state (w : Wire) (pods : list Pod) : ReplicationState :=
  GatherReplicationState (operatorGatherer w) (redis_map pods) ∅ "" (owned_ips pods).

(** Everything after the gather. *)
Definition engine_pass (lr : LittleRed) (pods : list Pod) (state : ReplicationState)
  (password : string) : prog (LittleRed * failoverEngineView * option error) :=
  let views := buildFailoverPodViews pods (Some state) in
  let intent := resolveFailoverIntent views in
  let liveMasterIP := determineFailoverLiveMaster state (fi_masterIP intent) in
  let roleLabels := role_labels pods in
  let settled := failoverTransitionSettled intent state roleLabels in
  let eng := mkEngineView intent liveMasterIP
               (if negb (liveMasterIP =? "") then fi_masterName intent else "")
               (replicas_linked_up intent state) false in
  if negb (fi_masterIP intent =? "") && needsPromotion state (fi_masterIP intent)
  then
    err ← promoteFailoverMaster state (fi_masterIP intent) password;
    match err with
    | Some e => mret (lr, eng, Some e)
    | None => mret (lr, requeue eng, None)
    end
  else
    d ← (if negb (fi_masterName intent =? "") then detect_death lr pods intent state
         else mret (lr, false, false));
    let '(lr1, declaredDead, fast) := d in
    let eng1 := if fast : bool then requeue eng else eng in
    if (fi_masterName intent =? "") || declaredDead
    then
      now ← perform Now;
      let plan := planFailover state liveMasterIP
                    (fsp_AllowUnsafeRebootstrapOnDeadlock (failoverSpecOrDefault lr))
                    (pickBootstrapMasterIP (lr_Name lr) (redis_map pods))
                    (failoverPromotionUnsettled intent state roleLabels)
                    (ls_Failover (lr_Status lr1) ≫= fo_TransitionSince)
                    now failoverTransitionCooldown in
      r ← executeFailoverPlan lr1 state pods intent plan password;
      mret (r.1, requeue eng1, r.2)
    else if liveMasterIP =? "" then mret (lr1, requeue eng1, None)
    else
      r ← clearFailoverRecoveryCondition lr1;
      eng2 ← heal pods intent state liveMasterIP password settled eng1;
      mret (r.1, eng2, None).

Definition reconcileFailoverAssignments (lr : LittleRed)
  : prog (LittleRed * option failoverEngineView * option error) :=
  if ls_BootstrapRequired (lr_Status lr) then mret (lr, None, None)
  else
    password ← getRedisPassword lr;
    l ← perform ListDataPods;
    match l with
    | inr err => mret (lr, None, Some err)
    | inl pods =>
        w ← perform (ProbeServers password);
        let state := gathered_state w pods in
        a ← reportOperatorAuth retries lr (replicationAuthFailures state);
        r ← engine_pass a.1 pods state password;
        let '(lr', eng, err) := r in mret (lr', Some eng, err)
    end.

(** *** Bootstrap *)

(** Step 4: clear the flag, with retry on conflict. *)
Definition clear_bootstrap (u : unit) : prog (unit * option error) :=
  r ← perform GetLittleRed;
  match r with
  | inr err => mret (tt, Some err)
  | inl latest =>
      if negb (ls_BootstrapRequired (lr_Status latest)) then mret (tt, None)
      else
        w ← perform (UpdateStatus
               (set_lr_Status latest (set_BootstrapRequired (lr_Status latest) false)));
        mret (tt, match w with inr err => Some err | inl _ => None end)
  end.

(** redis-0 has an address and belongs to the current revision. *)
Definition pod0_ready (pod0 : Pod) (sts : StatefulSet) : bool :=
  negb ((pod_IP pod0 =? "") || (sts_CurrentRevision sts =? "")
        || negb (at_key (pod_Labels pod0) "controller-revision-hash" =? sts_CurrentRevision sts)).

Definition bootstrapFailover (lr : LittleRed) : prog (LittleRed * option error) :=
  l ← perform GetLittleRed;
  match l with
  | inr err => mret (lr, Some err)
  | inl latest =>
  if negb (ls_BootstrapRequired (lr_Status latest)) then mret (latest, None)
  else
  s ← perform (GetStatefulSet (statefulSetName lr));
  match s with
  | inr err => mret (lr, Some err)
  | inl sts =>
  let pod0Name := lr_Name lr +:+ "-redis-0" in
  p ← perform (GetPod pod0Name);
  match p with
  | inr err => if error_not_found err then mret (lr, None) else mret (lr, Some err)
  | inl pod0 =>
  if negb (pod0_ready pod0 sts) then mret (lr, None)
  else
  ps ← perform ListDataPods;
  match ps with
  | inr err => mret (lr, Some err)
  | inl pods =>
  let epoch := wrap64 (fi_maxEpoch (resolveFailoverIntent (buildFailoverPodViews pods None)) + 1) in
  err ← stampFailoverAssignments pods pod0Name (pod_IP pod0) epoch true;
  match err with
  | Some e => mret (lr, Some e)
  | None =>
  r ← markFailoverTransition lr epoch;
  match r with
  | (lr1, Some e) => mret (lr1, Some e)
  | (lr1, None) =>
  c ← RetryOnConflict retries clear_bootstrap tt;
  match c.2 with
  | Some e => mret (lr1, Some (errorf "failed to clear bootstrap flag" e))
  | None =>
      g ← perform GetLittleRed;
      match g with
      | inr err => mret (lr1, Some err)
      | inl latest' => mret (latest', None)
      end
  end end end end end end end.

(** *** Role labels *)

Definition expected_role (masterPodName : string) (p : Pod) : string :=
  let currentRole := at_key (pod_Labels p) LabelRole in
  if negb (masterPodName =? "")
  then if pod_Name p =? masterPodName then RoleMaster else RoleReplica
  else if currentRole =? RoleMaster then RoleReplica else currentRole.

Fixpoint applyRoleLabels (pods : list Pod) (masterPodName : string) : prog (option error) :=
  match pods with
  | [] => mret None
  | p :: ps =>
      if at_key (pod_Labels p) LabelRole =? expected_role masterPodName p
      then applyRoleLabels ps masterPodName
      else
        err ← perform (UpdatePod (set_Labels p
                (<[LabelRole := expected_role masterPodName p]> (pod_Labels p))));
        match err with
        | Some e => mret (Some e)
        | None => applyRoleLabels ps masterPodName
        end
  end.

Definition updateFailoverMasterLabel (eng : option failoverEngineView) : prog (option error) :=
  l ← perform ListDataPods;
  match l with
  | inr err => mret (Some err)
  | inl [] => mret None
  | inl pods =>
      if existsb pod_Terminating pods then mret None
      else applyRoleLabels pods (from_option ev_masterPodName "" eng)
  end.

(** *** Status *)

(** [*failover.Replicas] of a nil pointer panics; the controller runtime turns the panic
    into an error of the pass. *)
Definition nil_dereference : error :=
  mkError "invalid memory address or nil pointer dereference" false false.

(** The status computed from the observed StatefulSet (if it exists) and the engine view. *)
Definition failover_status (latest : LittleRed) (expectedTotal : Z) (sts : option StatefulSet)
  (eng : option failoverEngineView) : LittleRedStatus :=
  let st := lr_Status latest in
  let '(ready, total) := match sts with
                         | None => (0, expectedTotal)
                         | Some s => (sts_ReadyReplicas s, sts_Replicas s) end in
  let replicas := (if (0 <? ready)%Z then wrap32 (ready - 1) else 0, wrap32 (total - 1)) in
  let masterPodName := from_option ev_masterPodName "" eng in
  let replicasLinkedUp := from_option ev_replicasLinkedUp 0 eng in
  let masterIP := if negb (masterPodName =? "")
                  then from_option (λ e, fi_masterIP (ev_intent e)) "" eng else "" in
  let fo := default empty_failover_status (ls_Failover st) in
  let fo' := match eng with
             | Some e => mkFailoverStatus (fo_MasterDownSince fo) (fi_maxEpoch (ev_intent e))
                           (fo_TransitionSince fo)
             | None => fo end in
  let expectedReplicas := total - 1 in
  let allReady := (ready =? total)%Z && (0 <? ready)%Z && negb (masterPodName =? "")
                  && (expectedReplicas <=? replicasLinkedUp)%Z in
  let conditions :=
    if allReady
    then SetStatusCondition
           (SetStatusCondition (ls_Conditions st) ConditionReady ConditionTrue reasonAllPodsReady
              "All Redis pods are ready and replicating from the intended master")
           ConditionInitialized ConditionTrue reasonInitialized
           "Redis failover instance is initialized"
    else SetStatusCondition (ls_Conditions st) ConditionReady ConditionFalse reasonPodsNotReady
           ("Redis: " +:+ itoa ready +:+ "/" +:+ itoa total +:+ ", replica links up: " +:+
            itoa replicasLinkedUp +:+ "/" +:+ itoa expectedReplicas) in
  let phase := if allReady then PhaseRunning else PhaseInitializing in
  mkLittleRedStatus phase (if allReady then ConditionReady else phase_text phase)
    (if allReady then false else ls_BootstrapRequired st)
    (ls_LeaderlessSince st) (ls_GhostMasterStuckSince st) (ls_ForsakenSince st)
    (ls_QuarantinedSince st) (ls_QuarantineAttempts st) (ls_AcknowledgedOperations st)
    (ls_Operation st) (lr_Generation latest) conditions
    (ready, total) (Some (masterPodName, masterIP)) (Some replicas) (ls_Sentinels st)
    (Some fo') (ls_Cluster st).

Definition write_failover_status (eng : option failoverEngineView) (u : unit)
  : prog (unit * option error) :=
  r ← perform GetLittleRed;
  match r with
  | inr err => mret (tt, Some err)
  | inl latest =>
      match fsp_Replicas (failoverSpecOrDefault latest) with
      | None => mret (tt, Some nil_dereference)
      | Some replicas =>
      s ← perform (GetStatefulSet (statefulSetName latest));
      match match s with
            | inl sts => inl (Some sts)
            | inr err => if error_not_found err then inl None else inr err
            end with
      | inr err => mret (tt, Some err)
      | inl sts =>
          let new := failover_status latest (wrap32 (1 + replicas)) sts eng in
          if bool_decide (lr_Status latest = new) then mret (tt, None)
          else
            w ← perform (UpdateStatus (set_lr_Status latest new));
            mret (tt, match w with inr err => Some err | inl _ => None end)
      end
      end
  end.

(** [ctrl.Result] is its [RequeueAfter]; 0 asks for none. *)
Definition updateFailoverStatus (eng : option failoverEngineView)
  : prog (duration * option error) :=
  r ← RetryOnConflict retries (write_failover_status eng) tt;
  match r.2 with
  | Some e => mret (0, Some e)
  | None =>
      g ← perform GetLittleRed;
      match g with
      | inr err => mret (0, Some err)
      | inl latest =>
          let '(fast, steady) := GetRequeueIntervals latest in
          if negb (bool_decide (ls_Phase (lr_Status latest) = PhaseRunning)) then mret (fast, None)
          else if at_key (lr_Annotations latest) AnnotationDisablePolling =? annotationValueTrue
          then mret (0, None)
          else mret (steady, None)
      end
  end.

End Engine.
