(* ===== verification/FailoverSafety.v ===== *)
(** * Correctness of the failover-mode engine

    Theorems over [FailoverEngine]: what a pass may do whatever the outside world answers,
    and what survives a crash of the operator at an arbitrary point, against an API server
    with the documented behaviour ([ApiServer]). *)

From S2P Require Import Prelude GoStrings Probe ClusterState ReplicationTypes.
From S2P Require Import Lineage ReplicationState Recovery FailoverIntent Gather Kube AuthReport.
From S2P Require Import Info FailoverEngine.

Open Scope Z_scope.
Open Scope go_scope.

(** ** Stamps *)

Lemma merge_patch_union (a b : gmap string string) :
  dom a ⊆ dom b → merge_patch a b ∪ a = b.
Proof.
  intros Hd. apply map_eq. intros k. unfold merge_patch. rewrite lookup_union, map_lookup_filter.
  destruct (b !! k) as [v|] eqn:Hb; simpl.
  - destruct (decide (a !! k = Some v)) as [Ha|Ha].
    + rewrite option_guard_False by tauto. by rewrite Ha.
    + rewrite option_guard_True by done. simpl. by rewrite union_Some_l.
  - rewrite (left_id None _). apply not_elem_of_dom. apply not_elem_of_dom in Hb. set_solver.
Qed.

Lemma stamped_annotations_dom a st : dom a ⊆ dom (stamped_annotations a st).
Proof. unfold stamped_annotations. destruct (st_authorizeMasterStart st); set_solver. Qed.

(** The assignment a stamp records. *)
Definition stamp_assignment (st : failoverStamp) : string * string * Z :=
  (st_role st, st_masterIP st, st_epoch st).

Definition stampable (st : failoverStamp) : Prop :=
  st_role st ≠ "" ∧ in_int64 (st_epoch st) = true.

(** The three lookups that make an assignment. *)
Lemma pod_assignment_of p role ip e :
  role ≠ "" → in_int64 e = true →
  at_key (pod_Annotations p) AnnotationAssignedRole = role →
  at_key (pod_Annotations p) AnnotationAssignedMasterIP = ip →
  at_key (pod_Annotations p) AnnotationAssignmentEpoch = itoa e →
  pod_assignment p = Some (role, ip, e).
Proof.
  intros Hr He H1 H2 H3. unfold pod_assignment. rewrite H1, H2, H3.
  pose proof (atoi_itoa e He) as Ha.
  destruct (role =? "") eqn:E1; bool_hyps; [done|].
  destruct (itoa e =? "") eqn:E2; bool_hyps; [by rewrite E2 in Ha|]. simpl. by rewrite Ha.
Qed.

Lemma stamped_assignment st p :
  stampable st →
  pod_assignment (set_Annotations p (stamped_annotations (pod_Annotations p) st)) =
  Some (stamp_assignment st).
Proof.
  intros [Hr He]. apply pod_assignment_of; [done|done| | |]; simpl; unfold stamped_annotations, at_key;
    destruct (st_authorizeMasterStart st);
    repeat first [rewrite lookup_insert_eq|rewrite lookup_insert_ne by done]; done.
Qed.

Lemma already_stamped_assignment st p :
  stampable st → already_stamped (pod_Annotations p) st = true →
  pod_assignment p = Some (stamp_assignment st).
Proof.
  intros [Hr He] Ha. unfold already_stamped in Ha. bool_hyps. by apply pod_assignment_of.
Qed.

Lemma stamped_already st a : already_stamped (stamped_annotations a st) st = true.
Proof.
  unfold already_stamped, stamped_annotations, at_key. destruct (st_authorizeMasterStart st);
    repeat first [rewrite lookup_insert_eq|rewrite lookup_insert_ne by done];
    cbn [default from_option id negb orb]; by rewrite !String.eqb_refl.
Qed.

(** [p'] is [p] with at most its annotations changed. *)
Definition same_pod (p p' : Pod) : Prop :=
  pod_Name p' = pod_Name p ∧ pod_IP p' = pod_IP p ∧ pod_Terminating p' = pod_Terminating p.

(** The cache has caught up, and nobody else touches the pods while the handler runs. *)
Definition undisturbed (Srv : Type) `{ApiServer Srv} : Prop :=
  (∀ (s : Srv) name p s', served s (GetPod name) (inl p) s' → stored s !! name = Some p) ∧
  (∀ (s : Srv) c x s', served s c x s' →
     match c with PatchPod _ _ | UpdatePod _ | Delete KindPod _ => True | _ => stored s' = stored s end).

Section Stamps.
Context {Srv} `{ApiServer Srv}.
Hypothesis calm : undisturbed Srv.

Lemma exec_perform c s s' r :
  exec s (perform c) s' r → (s' = s ∧ r = None) ∨ ∃ x, served s c x s' ∧ (r = None ∨ r = Some x).
Proof.
  intros [?|(x & s1 & Hx & [[-> ->]|[-> ->]])]; [by left|right|right]; eauto.
Qed.

(** One stamp, landed or not: no other pod changes; the pod itself keeps its assignment or
    gets the stamped one, and does get it when the handler reports success. *)
Definition stamp_effect (st : failoverStamp) (m m' : gmap string Pod) (done : bool) : Prop :=
  (∀ name, name ≠ st_podName st → m' !! name = m !! name) ∧
  match m !! st_podName st with
  | None => m' !! st_podName st = None ∧ done = false
  | Some p => ∃ p', m' !! st_podName st = Some p' ∧ same_pod p p' ∧
      (already_stamped (pod_Annotations p') st = true ∨
       p' = p ∧ done = false)
  end.

Lemma stamp_effect_none st m : stamp_effect st m m false.
Proof.
  split; [done|]. destruct (m !! _) as [p|]; [|done]. exists p. split; [done|]. split; [done|]. auto.
Qed.

Lemma stamp_effect_landed st m p done :
  m !! st_podName st = Some p →
  stamp_effect st m (<[st_podName st := set_Annotations p
    (merge_patch (pod_Annotations p) (stamped_annotations (pod_Annotations p) st)
     ∪ pod_Annotations p)]> m) done.
Proof.
  intros Hp. rewrite merge_patch_union by apply stamped_annotations_dom. split.
  - intros name Hn. by rewrite lookup_insert_ne.
  - rewrite Hp, lookup_insert_eq. eexists. split; [done|]. split; [done|].
    left. apply stamped_already.
Qed.

Definition succeeded (r : option (option error)) : bool :=
  match r with Some None => true | _ => false end.

Lemma exec_stampFailoverPod st s s' r :
  exec s (stampFailoverPod st) s' r →
  stamp_effect st (stored s) (stored s') (succeeded r).
Proof.
  intros [[-> ->]|(x & s1 & Hx & He)]%exec_call; [apply stamp_effect_none|].
  pose proof (proj2 calm _ _ _ _ Hx) as Hs1. simpl in Hs1.
  destruct x as [p|e].
  2:{ apply exec_ret in He as [-> [->| ->]]; rewrite Hs1; apply stamp_effect_none. }
  apply (proj1 calm) in Hx. destruct (already_stamped _ _) eqn:Ha.
  { apply exec_ret in He as [-> _]. rewrite Hs1. split; [done|]. rewrite Hx. exists p.
    split; [done|]. split; [done|]. by left. }
  rewrite <-Hs1 in *. apply (exec_perform (PatchPod _ _)) in He as [[-> ->]|(y & Hy & Hr)];
    [apply stamp_effect_none|].
  destruct y as [e|].
  - assert (succeeded r = false) as -> by (by destruct Hr as [->| ->]).
    destruct (served_patch_failed _ _ _ _ _ Hy) as [->|(p' & Hp & ->)]; [apply stamp_effect_none|].
    simplify_eq. by apply stamp_effect_landed.
  - destruct (served_patch _ _ _ _ Hy) as (p' & Hp & ->). simplify_eq. by apply stamp_effect_landed.
Qed.

(** A handler that writes no pod leaves the stored pods alone. *)
Definition no_pod_write (c : call) : Prop :=
  match c with PatchPod _ _ | UpdatePod _ | Delete _ _ => False | _ => True end.

Lemma exec_no_pod_write {A} (p : prog A) s s' r :
  calls_only no_pod_write p → exec s p s' r → stored s' = stored s.
Proof.
  intros Hp Hx. apply (exec_invariant (λ m, m = stored s) p s s' r); [|done|done].
  eapply safe_mono; [|done|exact Hp]. intros c Hc s0 x s1 Hs Heq.
  pose proof (proj2 calm _ _ _ _ Hs). destruct c; try done; simpl in *; congruence.
Qed.

(** The pods after some of the stamps [stamp] makes of [pods] have landed. *)
Definition restamped (stamp : Pod → option failoverStamp) (pods : list Pod)
  (m m' : gmap string Pod) : Prop :=
  ∀ name, match m !! name with
  | None => m' !! name = None
  | Some p => ∃ p', m' !! name = Some p' ∧ same_pod p p' ∧
      (p' = p ∨
       ∃ q st, q ∈ pods ∧ stamp q = Some st ∧ pod_Name q = name ∧
               pod_assignment p' = Some (stamp_assignment st))
  end.

Lemma restamped_refl stamp pods m : restamped stamp pods m m.
Proof. intros name. destruct (m !! name) as [p|]; [|done]. exists p. split; [done|]. by split; [|left]. Qed.

Lemma restamped_skip stamp q pods m m' :
  restamped stamp pods m m' → restamped stamp (q :: pods) m m'.
Proof.
  intros Hr name. specialize (Hr name). destruct (m !! name) as [p|]; [|done].
  destruct Hr as (p' & ? & ? & [?|(q' & st & ? & ?)]); exists p'; split_and!; auto.
  right. exists q', st. split; [by right|done].
Qed.

Lemma restamped_cons stamp q st pods m m1 m' b :
  stampable st → stamp q = Some st → st_podName st = pod_Name q →
  stamp_effect st m m1 b → restamped stamp pods m1 m' → restamped stamp (q :: pods) m m'.
Proof.
  intros Hsb Hst Hn [Hother Hpod] Hr name. apply (restamped_skip _ q) in Hr. specialize (Hr name).
  destruct (decide (name = st_podName st)) as [->|Hne].
  2:{ rewrite (Hother name Hne) in Hr. done. }
  destruct (m !! st_podName st) as [p|].
  2:{ destruct Hpod as [Hpod _]. by rewrite Hpod in Hr. }
  destruct Hpod as (p1 & Hp1 & (Hsn & Hsi & Hst1) & Ha). rewrite Hp1 in Hr.
  destruct Hr as (p' & Hp' & (Hn' & Hi' & Ht') & Ha'). exists p'. split; [done|].
  split; [unfold same_pod; split_and!; congruence|].
  destruct Ha' as [Ha'|?]; [|by right]. destruct Ha as [Ha|[Ha _]]; [|left; congruence].
  right. exists q, st. split; [left|]. split; [done|]. split; [done|].
  subst. by apply already_stamped_assignment.
Qed.

Lemma exec_for_each_stamps (stamp : Pod → option failoverStamp) (pods : list Pod) :
  (∀ q st, stamp q = Some st → stampable st ∧ st_podName st = pod_Name q) →
  ∀ acc s s' r,
  exec s (for_each (λ firstErr p, match stamp p with
            | None => mret firstErr
            | Some st => err ← stampFailoverPod st; mret (first_error firstErr err)
            end) acc pods) s' r →
  restamped stamp pods (stored s) (stored s') ∧
  (r = Some None → acc = None ∧
     (NoDup (pod_Name <$> pods) → ∀ q st, q ∈ pods → stamp q = Some st →
        ∃ p', stored s' !! pod_Name q = Some p' ∧ already_stamped (pod_Annotations p') st = true)).
Proof.
  intros Hstamp. induction pods as [|q pods IH]; intros acc s s' r Hx; cbn [for_each] in Hx.
  { apply exec_ret in Hx as [-> [->| ->]]; (split; [apply restamped_refl|]); [done|].
    intros [= ->]. split; [done|]. intros _ q st Hq. by apply not_elem_of_nil in Hq. }
  destruct (stamp q) as [st|] eqn:Hq.
  2:{ destruct (IH acc s s' r Hx) as [Hr Hok]. split; [by apply restamped_skip|].
      intros E. destruct (Hok E) as [-> Hall]. split; [done|].
      intros [_ Hnd]%NoDup_cons q' st [->|Hin]%elem_of_cons Hs; [congruence|by apply Hall]. }
  destruct (Hstamp q st Hq) as [Hsb Hn].
  apply exec_bind in Hx as [[-> Hx]|(acc' & s1 & Hh & Ht)].
  { split; [|done]. apply exec_bind in Hx as [[_ Hx]|(e & s1 & Hx & Hret)].
    - eapply (restamped_cons _ _ _ _ _ _ _ _ Hsb Hq Hn); [by eapply exec_stampFailoverPod|].
      apply restamped_refl.
    - apply exec_ret in Hret as [-> _].
      eapply (restamped_cons _ _ _ _ _ _ _ _ Hsb Hq Hn); [by eapply exec_stampFailoverPod|].
      apply restamped_refl. }
  apply exec_bind in Hh as [[? _]|(err & s2 & Hx & Hret)]; [done|].
  apply exec_ret in Hret as [-> [?|Hacc]]; [done|]. injection Hacc as ->.
  pose proof (exec_stampFailoverPod _ _ _ _ Hx) as Heff.
  destruct (IH _ _ _ _ Ht) as [Hr Hok]. split; [by eapply restamped_cons|].
  intros E. destruct (Hok E) as [Hfe Hall]. destruct acc as [?|]; [done|]. split; [done|].
  simpl in Hfe. subst err. rewrite fmap_cons, NoDup_cons. intros [Hnin Hnd] q' st' Hq' Hs.
  apply elem_of_cons in Hq' as [->|Hin]; [|by apply Hall]. simplify_eq.
  specialize (Hr (pod_Name q)). destruct Heff as [_ Hpod]. rewrite Hn in Hpod.
  destruct (stored s !! pod_Name q) as [p|]; [|by destruct Hpod].
  destruct Hpod as (p1 & Hp1 & _ & [Ha|[_ ?]]); [|done]. rewrite Hp1 in Hr.
  destruct Hr as (p' & Hp' & _ & [Ha'|(q' & st'' & Hq' & _ & Hn' & _)]).
  - exists p'. split; [done|]. by subst.
  - destruct Hnin. rewrite <-Hn'. by apply list_elem_of_fmap_2.
Qed.

End Stamps.

(** ** Bookkeeping

    The status helpers only read and write the LittleRed object, read the clock and emit
    events: they satisfy any call condition that allows that. *)

Definition bookkeeping (c : call) : Prop :=
  match c with GetLittleRed | UpdateStatus _ | Now | Event _ _ _ => True | _ => False end.

Lemma safe_edit_failover_status edit lr : calls_only bookkeeping (edit_failover_status edit lr).
Proof.
  unfold edit_failover_status. apply safe_call; [done|]. intros [latest|e]; [|done].
  destruct (edit _); [done|]. apply safe_call; [done|]. by intros [w|e].
Qed.

Lemma safe_retry {S} P n (fn : S → prog (S * option error)) s :
  (∀ s, calls_only P (fn s)) → calls_only P (RetryOnConflict n fn s).
Proof.
  intros Hfn. apply (safe_RetryOnConflict _ (λ _, True)); [done|]. intros s' _.
  eapply safe_mono; [done| |apply Hfn]. done.
Qed.

Lemma safe_markFailoverTransition n lr e : calls_only bookkeeping (markFailoverTransition n lr e).
Proof.
  apply safe_call; [done|]. intros now. apply safe_retry. intros lr'. apply safe_edit_failover_status.
Qed.

Lemma safe_setFailoverMasterDownSince n lr t :
  calls_only bookkeeping (setFailoverMasterDownSince n lr t).
Proof. apply safe_retry. intros lr'. apply safe_edit_failover_status. Qed.

Lemma safe_clearFailoverMasterDownSince n lr :
  calls_only bookkeeping (clearFailoverMasterDownSince n lr).
Proof.
  unfold clearFailoverMasterDownSince. destruct (no_marker _); [done|].
  apply safe_retry. intros lr'. apply safe_edit_failover_status.
Qed.

Lemma safe_setFailoverRecoveryCondition n lr st r m :
  calls_only bookkeeping (setFailoverRecoveryCondition n lr st r m).
Proof.
  apply safe_retry. intros lr'. apply safe_call; [done|]. intros [latest|e]; [|done].
  apply safe_call; [done|]. by intros [w|e].
Qed.

Lemma safe_clearFailoverRecoveryCondition n lr :
  calls_only bookkeeping (clearFailoverRecoveryCondition n lr).
Proof.
  unfold clearFailoverRecoveryCondition. destruct (FindStatusCondition _ _) as [c|]; [|done].
  destruct (bool_decide _); [apply safe_setFailoverRecoveryCondition|done].
Qed.

Lemma safe_reportOperatorAuth `{GoRuntime} n lr failures :
  calls_only bookkeeping (reportOperatorAuth n lr failures).
Proof.
  unfold reportOperatorAuth. destruct (report_unchanged _ _); [done|].
  eapply calls_only_bind.
  - apply safe_retry. intros lr'. apply safe_call; [done|]. intros [latest|e]; [|done].
    apply safe_call; [done|]. by intros [w|e].
  - intros [lr' [e|]]; [done|]. destruct (negb _ && _); [|done]. apply safe_call; done.
Qed.

(** ** Crash consistency of an election *)

Section Crash.
Context `{GoRuntime} {Srv} `{ApiServer Srv} (retries : nat).

(** *** What an election writes

    Whatever was read before, a patch carries values of the stamp only. *)

Definition stamped_value (st : failoverStamp) (k : string) : option string :=
  stamped_annotations ∅ st !! k.

Lemma patch_values a st k v :
  merge_patch a (stamped_annotations a st) !! k = Some v → stamped_value st k = Some v.
Proof.
  unfold merge_patch, stamped_value, stamped_annotations. intros [Hv Hne]%map_lookup_filter_Some. revert Hv.
  destruct (st_authorizeMasterStart st); rewrite !lookup_insert; repeat case_decide; try done;
    intros Hv; by rewrite Hv in Hne.
Qed.

Lemma no_pod_write_bookkeeping {A} (p : prog A) :
  calls_only bookkeeping p → calls_only no_pod_write p.
Proof. apply safe_mono; [|done]. by intros []. Qed.

Lemma no_pod_write_promote state ip pw : calls_only no_pod_write (promoteFailoverMaster state ip pw).
Proof. unfold promoteFailoverMaster. destruct (negb _); [done|]. apply safe_call; done. Qed.

Lemma no_pod_write_fence pods intent ip pw : calls_only no_pod_write (fence pods intent ip pw).
Proof. unfold fence. destruct (negb _); [|done]. apply safe_call; done. Qed.

Lemma assignment_stamp_facts mn mip e auth q st :
  in_int64 e = true → assignment_stamp mn mip e auth q = Some st →
  stampable st ∧ st_podName st = pod_Name q.
Proof. intros He. unfold assignment_stamp, stampable. intros. by case_match; [|case_match]; simplify_eq/=. Qed.

(** The stamps of a plan, and what of them has landed when the handler stops. *)
Definition plan_stamp (pods : list Pod) (intent : failoverIntent) (plan : failoverPlan)
  : Pod → option failoverStamp :=
  assignment_stamp (podNameForIP pods (fp_masterIP plan)) (fp_masterIP plan)
    (wrap64 (fi_maxEpoch intent + 1)) (masterStartAuthorizedFor (fp_action plan)).

Lemma wrap64_range z : in_int64 (wrap64 z) = true.
Proof.
  unfold in_int64, wrap64, int64_min, int64_max. apply andb_true_iff. rewrite !Z.leb_le.
  pose proof (Z.mod_pos_bound (z + 2 ^ 63) (2 ^ 64)). lia.
Qed.

(** Of the pods, only those planned to be stamped are written, with values of their stamps. *)
Definition stamping (pods : list Pod) (intent : failoverIntent) (plan : failoverPlan) (c : call) : Prop :=
  match c with
  | PatchPod name changes =>
      ∃ q st, q ∈ pods ∧ plan_stamp pods intent plan q = Some st ∧ pod_Name q = name ∧
        ∀ k v, changes !! k = Some v → stamped_value st k = Some v
  | UpdatePod _ | Delete _ _ => False
  | _ => True
  end.

Lemma no_pod_write_stamping {A} pods intent plan (p : prog A) :
  calls_only no_pod_write p → calls_only (stamping pods intent plan) p.
Proof. apply safe_mono; [|done]. by intros []. Qed.

Lemma stampFailoverAssignments_stamping pods intent plan :
  calls_only (stamping pods intent plan)
    (stampFailoverAssignments pods (podNameForIP pods (fp_masterIP plan)) (fp_masterIP plan)
       (wrap64 (fi_maxEpoch intent + 1)) (masterStartAuthorizedFor (fp_action plan))).
Proof.
  apply (safe_for_each _ (λ _, True)); [done|]. intros e q Hq _.
  change (assignment_stamp _ _ _ _ q) with (plan_stamp pods intent plan q).
  destruct (plan_stamp pods intent plan q) as [st|] eqn:Hst; [|done].
  pose proof (assignment_stamp_facts _ _ _ _ _ _ (wrap64_range _) Hst) as [_ Hn].
  eapply calls_only_bind; [|done]. apply safe_call; [done|]. intros [p|err]; [|done].
  destruct (already_stamped _ _); [done|]. split; [|done]. exists q, st. split; [done|]. split; [done|].
  split; [done|]. intros k v. apply patch_values.
Qed.

Lemma executeFailoverPlan_stamping lr state pods intent plan pw :
  calls_only (stamping pods intent plan) (executeFailoverPlan retries lr state pods intent plan pw) ∧
  (failover_elects plan = None → calls_only no_pod_write (executeFailoverPlan retries lr state pods intent plan pw)).
Proof.
  assert (Helect : calls_only (stamping pods intent plan) (execute_elect retries lr state pods intent plan pw)).
  { eapply calls_only_bind; [apply stampFailoverAssignments_stamping|]. intros [e|]; [done|].
    apply no_pod_write_stamping. eapply calls_only_bind; [apply no_pod_write_promote|]. intros [e|]; [done|].
    eapply calls_only_bind; [apply no_pod_write_fence|]. intros _.
    eapply calls_only_bind; [apply no_pod_write_bookkeeping, safe_markFailoverTransition|].
    intros [lr' [e|]]; [done|]. apply safe_call; [by destruct (bool_decide _)|done]. }
  assert (Hrefuse : ∀ e1 e2 e3 a b c d, calls_only no_pod_write
    (_ ← perform (Event e1 e2 e3); setFailoverRecoveryCondition retries a b c d)).
  { intros. apply safe_call; [done|]. intros _. apply no_pod_write_bookkeeping, safe_setFailoverRecoveryCondition. }
  unfold executeFailoverPlan, failover_elects. destruct (fp_action plan) eqn:E; split; try done;
    try (intros _; apply Hrefuse); try (apply no_pod_write_stamping, Hrefuse).
  eapply calls_only_bind; [apply stampFailoverAssignments_stamping|]. intros [e|]; [done|].
  apply no_pod_write_stamping. eapply calls_only_bind; [apply no_pod_write_bookkeeping, safe_markFailoverTransition|].
  intros [lr' [e|]]; [done|]. apply safe_call; done.
Qed.

(** Every value of the assignment of a pod was recorded before or is one of its stamp. *)
Definition recorded (pods : list Pod) (intent : failoverIntent) (plan : failoverPlan) (m m' : gmap string Pod) : Prop :=
  ∀ name p' k v, m' !! name = Some p' → k ∈ assignment_keys → pod_Annotations p' !! k = Some v →
    (∃ p, m !! name = Some p ∧ pod_Annotations p !! k = Some v) ∨
    ∃ q st, q ∈ pods ∧ plan_stamp pods intent plan q = Some st ∧ pod_Name q = name ∧ stamped_value st k = Some v.

Lemma recorded_patch pods intent plan m0 m name p changes :
  stamping pods intent plan (PatchPod name changes) → recorded pods intent plan m0 m → m !! name = Some p →
  recorded pods intent plan m0 (<[name := set_Annotations p (changes ∪ pod_Annotations p)]> m).
Proof.
  intros (q & st & Hq & Hst & <- & Hch) Hr Hp n p' k v Hp' Hk Hv.
  apply lookup_insert_Some in Hp' as [[<- <-]|[_ Hp']]; [|by eapply Hr]. simpl in Hv.
  apply lookup_union_Some_raw in Hv as [Hv|[_ Hv]]; [|by eapply Hr].
  right. exists q, st. split; [done|]. split; [done|]. split; [done|]. by apply Hch.
Qed.

Lemma recorded_churned pods intent plan m0 m m' :
  recorded pods intent plan m0 m → churned m m' → recorded pods intent plan m0 m'.
Proof.
  intros Hr Hc name p' k v Hp' Hk Hv. destruct (Hc name p' Hp') as [Hno|(p & Hp & Hsame)].
  - by rewrite (Hno k Hk) in Hv.
  - rewrite (Hsame k Hk) in Hv. by eapply Hr.
Qed.

(** An election that stopped anywhere, with any reads and any churn. *)
Lemma exec_recorded lr state pods intent plan pw s s' r :
  exec s (executeFailoverPlan retries lr state pods intent plan pw) s' r →
  recorded pods intent plan (stored s) (stored s').
Proof.
  intros Hx. eapply (exec_invariant (recorded pods intent plan (stored s))); [|exact Hx|].
  - eapply safe_mono; [|done|exact (proj1 (executeFailoverPlan_stamping lr state pods intent plan pw))]. intros c Hc s1 x s2 Hs Hr.
    pose proof (served_read _ _ _ _ Hs) as Hread.
    revert x Hs Hread. destruct c; intros x Hs Hread;
      try (exact (recorded_churned _ _ _ _ _ _ Hr Hread)); try by destruct Hc.
    destruct x as [e|].
    + destruct (served_patch_failed _ _ _ _ _ Hs) as [->|(p & Hp & ->)]; [done|by apply recorded_patch].
    + destruct (served_patch _ _ _ _ Hs) as (p & Hp & ->). by apply recorded_patch.
  - intros name p k v Hp Hk Hv. left. by exists p.
Qed.

Lemma churned_trans m1 m2 m3 : churned m1 m2 → churned m2 m3 → churned m1 m3.
Proof.
  intros H1 H2 name p3 Hp3. destruct (H2 name p3 Hp3) as [?|(p2 & Hp2 & E2)]; [by left|].
  destruct (H1 name p2 Hp2) as [Hno|(p1 & Hp1 & E1)].
  - left. intros k Hk. by rewrite E2, Hno.
  - right. exists p1. split; [done|]. intros k Hk. by rewrite E2, E1.
Qed.

Lemma exec_untouched {A} (p : prog A) s s' r :
  calls_only no_pod_write p → exec s p s' r → churned (stored s) (stored s').
Proof.
  intros Hp Hx. eapply (exec_invariant (churned (stored s))); [|exact Hx|apply churned_refl].
  eapply safe_mono; [|done|exact Hp]. intros c Hc s1 x s2 Hs Hch.
  pose proof (served_read _ _ _ _ Hs) as Hread. eapply churned_trans; [exact Hch|]. by destruct c.
Qed.

(** An annotation of the assignment, written by the plan or recorded before. *)
Definition carried (s : Srv) (name k v : string) : Prop :=
  ∃ p, stored s !! name = Some p ∧ pod_Annotations p !! k = Some v.

Lemma at_key_Some (m : gmap string string) k : at_key m k ≠ "" → m !! k = Some (at_key m k).
Proof. unfold at_key. by destruct (m !! k). Qed.

Lemma pod_assignment_keys p role ip e :
  pod_assignment p = Some (role, ip, e) →
  pod_Annotations p !! AnnotationAssignedRole = Some role ∧
  ∃ v, pod_Annotations p !! AnnotationAssignmentEpoch = Some v ∧ atoi v = Some e.
Proof.
  unfold pod_assignment. destruct (_ && _) eqn:E; [|done]. bool_hyps.
  destruct (atoi _) eqn:Ha; [|done]. intros [= <- _ <-]. split; [by apply at_key_Some|].
  eexists. split; [by apply at_key_Some|done].
Qed.

Lemma plan_stamp_values pods intent plan q st :
  plan_stamp pods intent plan q = Some st →
  (stamped_value st AnnotationAssignedRole = Some RoleMaster → pod_Name q = podNameForIP pods (fp_masterIP plan)) ∧
  (∀ v, stamped_value st AnnotationAssignmentEpoch = Some v → v = itoa (wrap64 (fi_maxEpoch intent + 1))).
Proof.
  unfold plan_stamp, assignment_stamp, stamped_value, stamped_annotations. intros Hs.
  case_match; [done|]. split; repeat (case_match; simplify_eq/=; bool_hyps);
    rewrite ?lookup_insert; repeat case_decide; try done; naive_solver.
Qed.

(** *** When nothing interferes *)

Hypothesis calm : undisturbed Srv.

(** Every stamp of [pods] has landed. *)
Definition all_stamped (stamp : Pod → option failoverStamp) (pods : list Pod)
  (m : gmap string Pod) : Prop :=
  ∀ q st, q ∈ pods → stamp q = Some st →
    ∃ p, m !! pod_Name q = Some p ∧ already_stamped (pod_Annotations p) st = true.

Lemma exec_stamps_then lr (rest : option error → prog (LittleRed * option error))
  pods intent plan s s' r :
  (∀ e, rest (Some e) = mret (lr, Some e)) → calls_only no_pod_write (rest None) →
  exec s (stampFailoverAssignments pods (podNameForIP pods (fp_masterIP plan)) (fp_masterIP plan)
            (wrap64 (fi_maxEpoch intent + 1)) (masterStartAuthorizedFor (fp_action plan)) ≫= rest) s' r →
  restamped (plan_stamp pods intent plan) pods (stored s) (stored s') ∧
  (∀ lr', r = Some (lr', None) → NoDup (pod_Name <$> pods) →
     all_stamped (plan_stamp pods intent plan) pods (stored s')).
Proof.
  intros Herr Hrest Hx. fold (plan_stamp pods intent plan) in *.
  assert (Hfacts : ∀ q st, plan_stamp pods intent plan q = Some st →
    stampable st ∧ st_podName st = pod_Name q).
  { intros q st. apply assignment_stamp_facts, wrap64_range. }
  apply exec_bind in Hx as [[-> Hx]|(e & s1 & Hx & Hr)];
    destruct (exec_for_each_stamps calm _ _ Hfacts _ _ _ _ Hx) as [Hre Hok]; [done|].
  destruct e as [e|].
  - rewrite Herr in Hr. apply exec_ret in Hr as [-> [->| ->]]; done.
  - rewrite (exec_no_pod_write calm _ _ _ _ Hrest Hr). split; [done|]. intros lr' _ Hnd q st Hq Hst.
    by apply Hok.
Qed.

Lemma exec_executeFailoverPlan lr state pods intent plan pw s s' r :
  exec s (executeFailoverPlan retries lr state pods intent plan pw) s' r →
  match failover_elects plan with
  | None => stored s' = stored s
  | Some _ =>
      restamped (plan_stamp pods intent plan) pods (stored s) (stored s') ∧
      (∀ lr', r = Some (lr', None) → NoDup (pod_Name <$> pods) →
         all_stamped (plan_stamp pods intent plan) pods (stored s'))
  end.
Proof.
  unfold executeFailoverPlan, failover_elects.
  assert (Helect : exec s (execute_elect retries lr state pods intent plan pw) s' r →
    restamped (plan_stamp pods intent plan) pods (stored s) (stored s') ∧
    (∀ lr', r = Some (lr', None) → NoDup (pod_Name <$> pods) →
       all_stamped (plan_stamp pods intent plan) pods (stored s'))).
  { apply (exec_stamps_then lr); [done|].
    eapply calls_only_bind; [apply no_pod_write_promote|]. intros [e|]; [done|].
    eapply calls_only_bind; [apply no_pod_write_fence|]. intros _.
    eapply calls_only_bind; [apply no_pod_write_bookkeeping, safe_markFailoverTransition|].
    intros [lr' [e|]]; [done|]. apply safe_call; [by destruct (bool_decide _)|done]. }
  destruct (fp_action plan) eqn:E; try done.
  - by intros [-> _]%exec_ret.
  - by intros [-> _]%exec_ret.
  - apply (exec_stamps_then lr); [done|].
    eapply calls_only_bind; [apply no_pod_write_bookkeeping, safe_markFailoverTransition|].
    intros [lr' [e|]]; [done|]. apply safe_call; done.
  - intros Hx. eapply (exec_no_pod_write calm); [|exact Hx]. apply safe_call; [done|]. intros _.
    apply no_pod_write_bookkeeping, safe_setFailoverRecoveryCondition.
  - intros Hx. eapply (exec_no_pod_write calm); [|exact Hx]. apply safe_call; [done|]. intros _.
    apply no_pod_write_bookkeeping, safe_setFailoverRecoveryCondition.
Qed.

(** *** Views and listings *)

Lemma pod_view_name st p : fv_name (pod_view st p) = pod_Name p ∧ fv_ip (pod_view st p) = pod_IP p.
Proof.
  unfold pod_view. destruct (redisContainerStatus _).
  by destruct (pod_assignment p) as [[[??]?]|].
Qed.

Lemma pod_view_assigned st p :
  match pod_assignment p with
  | None => ¬ assigned (pod_view st p)
  | Some (role, ip, e) =>
      assigned (pod_view st p) ∧ fv_assignedRole (pod_view st p) = role ∧ fv_epoch (pod_view st p) = e
  end.
Proof.
  unfold pod_view, assigned. destruct (redisContainerStatus _).
  by destruct (pod_assignment p) as [[[??]?]|].
Qed.

(** The intent does not depend on what is reachable. *)
Lemma intent_of_pods pods state :
  resolveFailoverIntent (buildFailoverPodViews pods state) =
  resolveFailoverIntent (buildFailoverPodViews pods None).
Proof.
  unfold resolveFailoverIntent, buildFailoverPodViews. f_equal. generalize (mkFailoverIntent "" "" 0, 0).
  induction pods as [|p pods IH]; intros acc; [done|]. rewrite !fmap_cons. cbn [foldl].
  assert (intent_step acc (pod_view state p) = intent_step acc (pod_view None p)) as ->; [|apply IH].
  unfold pod_view, intent_step. destruct acc, (redisContainerStatus _).
  by destruct (pod_assignment p) as [[[??]?]|].
Qed.

Definition listing (s : Srv) (pods : list Pod) : Prop := pods ≡ₚ (map_to_list (stored s)).*2.

Lemma elem_of_listing s pods p : listing s pods → p ∈ pods ↔ stored s !! pod_Name p = Some p.
Proof.
  intros Hl. unfold listing in Hl. rewrite Hl, list_elem_of_fmap. split.
  - intros ([name p'] & -> & Hin%elem_of_map_to_list). simpl. by rewrite (stored_named _ _ _ Hin).
  - intros Hp. exists (pod_Name p, p). split; [done|]. by apply elem_of_map_to_list.
Qed.

Lemma listing_nodup s pods : listing s pods → NoDup (pod_Name <$> pods).
Proof.
  intros Hl. unfold listing in Hl. rewrite Hl.
  assert (pod_Name <$> (map_to_list (stored s)).*2 = (map_to_list (stored s)).*1) as ->;
    [|apply NoDup_fst_map_to_list].
  rewrite <-list_fmap_compose. apply list_fmap_ext. intros i [name p] Hi%list_elem_of_lookup_2.
  apply elem_of_map_to_list in Hi. simpl. by apply stored_named in Hi.
Qed.

(** A pod of the new listing and the pod it was. *)
Lemma restamped_back stamp pods0 s s' pods pods' p' :
  restamped stamp pods0 (stored s) (stored s') → listing s pods → listing s' pods' → p' ∈ pods' →
  ∃ p, p ∈ pods ∧ same_pod p p' ∧
    (pod_assignment p' = pod_assignment p ∨
     ∃ q st, q ∈ pods0 ∧ stamp q = Some st ∧ pod_Name q = pod_Name p ∧
             pod_assignment p' = Some (stamp_assignment st)).
Proof.
  intros Hr Hl Hl' Hp'. apply (elem_of_listing s') in Hp'; [|done].
  specialize (Hr (pod_Name p')). destruct (stored s !! pod_Name p') as [p|] eqn:Hp; [|congruence].
  destruct Hr as (p1 & Hp1 & Hsame & Ha). rewrite Hp1 in Hp'. simplify_eq.
  exists p. pose proof Hsame as (Hn & _). rewrite Hn in Hp, Ha.
  split; [by apply (elem_of_listing s)|]. split; [done|]. destruct Ha as [->|Ha]; [by left|by right].
Qed.

Lemma restamped_forth stamp pods0 s s' pods pods' p :
  restamped stamp pods0 (stored s) (stored s') → listing s pods → listing s' pods' → p ∈ pods →
  ∃ p', p' ∈ pods' ∧ same_pod p p' ∧
    (pod_assignment p' = pod_assignment p ∨
     ∃ q st, q ∈ pods0 ∧ stamp q = Some st ∧ pod_Name q = pod_Name p ∧
             pod_assignment p' = Some (stamp_assignment st)).
Proof.
  intros Hr Hl Hl' Hp. apply (elem_of_listing s) in Hp; [|done].
  specialize (Hr (pod_Name p)). rewrite Hp in Hr. destruct Hr as (p' & Hp' & Hsame & Ha).
  exists p'. split; [|split; [done|destruct Ha as [->|Ha]; [by left|by right]]].
  apply (elem_of_listing s'); [done|]. by rewrite (stored_named _ _ _ Hp').
Qed.

(** The intent, in terms of the annotations of the listed pods. *)
Record intended (pods : list Pod) (i : failoverIntent) : Prop := {
  in_nonneg : 0 ≤ fi_maxEpoch i;
  in_max p role ip e : p ∈ pods → pod_assignment p = Some (role, ip, e) → e ≤ fi_maxEpoch i;
  in_attained : fi_maxEpoch i = 0 ∨
    ∃ p role ip, p ∈ pods ∧ pod_assignment p = Some (role, ip, fi_maxEpoch i);
  in_master :
    (fi_masterName i = "" ∧
     ∀ p ip e, p ∈ pods → pod_assignment p ≠ Some (RoleMaster, ip, e)) ∨
    ∃ p ip e, p ∈ pods ∧ pod_assignment p = Some (RoleMaster, ip, e) ∧
      fi_masterName i = pod_Name p ∧ fi_masterIP i = pod_IP p ∧
      ∀ q ip' e', q ∈ pods → pod_assignment q = Some (RoleMaster, ip', e') → e' ≤ e;
}.

Lemma intended_pods pods :
  (∀ p, p ∈ pods → pod_Name p ≠ "") →
  intended pods (resolveFailoverIntent (buildFailoverPodViews pods None)).
Proof.
  intros Hnames. destruct (resolveFailoverIntent_of (buildFailoverPodViews pods None)) as [e0 Hio].
  { intros q (p & -> & Hp)%list_elem_of_fmap. rewrite (proj1 (pod_view_name None p)). by apply Hnames. }
  assert (Hin : ∀ p, p ∈ pods → pod_view None p ∈ buildFailoverPodViews pods None).
  { intros p Hp. by apply list_elem_of_fmap_2. }
  destruct Hio as [Hnn Hmax Hatt Hm]. split; [done| | |].
  - intros p role ip e Hp Ha. pose proof (pod_view_assigned None p) as Hv. rewrite Ha in Hv.
    destruct Hv as (Hv & _ & <-). by apply Hmax; [apply Hin|].
  - destruct Hatt as [?|(v & (p & -> & Hp)%list_elem_of_fmap & Hva & He)]; [by left|right].
    pose proof (pod_view_assigned None p) as Hv.
    destruct (pod_assignment p) as [[[role ip] e]|] eqn:Ha; [|done].
    destruct Hv as (_ & _ & He'). exists p, role, ip. split; [done|]. congruence.
  - destruct Hm as [(? & _ & Hno)|(v & (p & -> & Hp)%list_elem_of_fmap & [Hva Hvr] & Hn & Hi & _ & Hbest)].
    + left. split; [done|]. intros p ip e Hp Ha. destruct (Hno _ (Hin p Hp)).
      pose proof (pod_view_assigned None p) as Hv. rewrite Ha in Hv. by destruct Hv as (? & ? & _).
    + right. pose proof (pod_view_assigned None p) as Hv. destruct (pod_view_name None p) as [Hpn Hpi].
      destruct (pod_assignment p) as [[[role ip] e]|] eqn:Ha; [|done].
      destruct Hv as (_ & Hr & He). exists p, ip, e. split; [done|]. split; [congruence|].
      split; [congruence|]. split; [congruence|]. intros q ip' e' Hq Hqa.
      pose proof (pod_view_assigned None q) as Hqv. rewrite Hqa in Hqv. destruct Hqv as (? & ? & He').
      destruct (Hbest _ (Hin q Hq)) as [?|[? _]]; [done|lia|lia].
Qed.

Lemma plan_stamp_epoch pods intent plan q st :
  0 ≤ fi_maxEpoch intent < int64_max → plan_stamp pods intent plan q = Some st →
  st_epoch st = fi_maxEpoch intent + 1 ∧
  (st_role st = RoleMaster → pod_Name q = podNameForIP pods (fp_masterIP plan)).
Proof.
  intros Hm. unfold plan_stamp, assignment_stamp. rewrite wrap64_id.
  2:{ unfold in_int64, int64_min. apply andb_true_iff. rewrite !Z.leb_le. lia. }
  intros Hs. case_match; [done|]. by case_match; simplify_eq/=; bool_hyps.
Qed.

(** Partial stamps: the epoch moves by at most one, and nobody becomes the master but the
    elected pod and pods that claimed to be it before. *)
Lemma restamped_intent pods0 plan s s' pods pods' :
  let intent := resolveFailoverIntent (buildFailoverPodViews pods None) in
  let intent' := resolveFailoverIntent (buildFailoverPodViews pods' None) in
  restamped (plan_stamp pods0 intent plan) pods0 (stored s) (stored s') →
  listing s pods → listing s' pods' → (∀ p, p ∈ pods → pod_Name p ≠ "") →
  fi_maxEpoch intent < int64_max →
  fi_maxEpoch intent ≤ fi_maxEpoch intent' ≤ fi_maxEpoch intent + 1 ∧
  (fi_masterName intent' ≠ "" →
   fi_masterName intent' = podNameForIP pods0 (fp_masterIP plan) ∨
   ∃ p ip e, p ∈ pods ∧ pod_assignment p = Some (RoleMaster, ip, e) ∧
             pod_Name p = fi_masterName intent').
Proof.
  intros intent intent' Hr Hl Hl' Hnames Hov.
  assert (Hnames' : ∀ p, p ∈ pods' → pod_Name p ≠ "").
  { intros p' Hp'. destruct (restamped_back _ _ _ _ _ _ _ Hr Hl Hl' Hp') as (p & Hp & (-> & _) & _).
    by apply Hnames. }
  assert (intended pods intent) as [Hnn Hmax Hatt _] by (by apply intended_pods).
  assert (intended pods' intent') as [Hnn' Hmax' Hatt' Hm'] by (by apply intended_pods).
  clearbody intent intent'.
  assert (Hst : ∀ q st, plan_stamp pods0 intent plan q = Some st →
    st_epoch st = fi_maxEpoch intent + 1 ∧
    (st_role st = RoleMaster → pod_Name q = podNameForIP pods0 (fp_masterIP plan))).
  { intros q st. by apply plan_stamp_epoch. }
  split; [split|].
  - destruct Hatt as [->|(p & role & ip & Hp & Ha)]; [done|].
    destruct (restamped_forth _ _ _ _ _ _ _ Hr Hl Hl' Hp) as (p' & Hp' & _ & [Ha'|(q & st & _ & Hs & _ & Ha')]).
    + rewrite Ha in Ha'. by apply (Hmax' _ _ _ _ Hp') in Ha'.
    + destruct (Hst _ _ Hs) as [He _]. apply (Hmax' _ _ _ _ Hp') in Ha'. lia.
  - destruct Hatt' as [->|(p' & role & ip & Hp' & Ha')]; [lia|].
    destruct (restamped_back _ _ _ _ _ _ _ Hr Hl Hl' Hp') as (p & Hp & _ & [Ha|(q & st & _ & Hs & _ & Ha)]).
    + rewrite Ha in Ha'. apply (Hmax _ _ _ _ Hp) in Ha'. lia.
    + destruct (Hst _ _ Hs) as [He _]. unfold stamp_assignment in Ha. simplify_eq. lia.
  - intros Hne. destruct Hm' as [[? _]|(p' & ip & e & Hp' & Ha' & -> & _)]; [done|].
    destruct (restamped_back _ _ _ _ _ _ _ Hr Hl Hl' Hp') as (p & Hp & (-> & _) & [Ha|(q & st & _ & Hs & Hq & Ha)]).
    + right. exists p, ip, e. split; [done|]. split; [congruence|done].
    + left. rewrite <-Hq. apply (proj2 (Hst _ _ Hs)). unfold stamp_assignment in Ha. congruence.
Qed.

(** *** The elected pod *)

Definition distinct_addresses (pods : list Pod) : Prop :=
  ∀ p q, p ∈ pods → q ∈ pods → pod_IP p = pod_IP q → pod_IP p ≠ "" → p = q.

Lemma redis_map_lookup pods ip name :
  redis_map pods !! ip = Some name →
  ∃ p, p ∈ pods ∧ pod_IP p = ip ∧ ip ≠ "" ∧ pod_Terminating p = false ∧ pod_Name p = name.
Proof.
  unfold redis_map. set (f := λ m p, _). assert (Hgen : ∀ l m,
    (∀ ip name, foldl f m l !! ip = Some name →
      m !! ip = Some name ∨
      ∃ p, p ∈ l ∧ pod_IP p = ip ∧ ip ≠ "" ∧ pod_Terminating p = false ∧ pod_Name p = name)).
  { induction l as [|p l IH]; intros m ip0 name0 Hl; cbn [foldl] in Hl; [by left|].
    destruct (IH _ _ _ Hl) as [Hm|(q & Hq & ?)]; [|right; exists q; split; [by right|done]].
    unfold f in Hm. destruct (pod_Terminating p || (pod_IP p =? "")) eqn:E; [by left|].
    apply orb_false_iff in E as [Ht Hi%String.eqb_neq].
    apply lookup_insert_Some in Hm as [[<- <-]|[_ ?]]; [right; exists p; split; [left|done]|by left]. }
  intros Hl. destruct (Hgen _ _ _ _ Hl) as [?|?]; [by rewrite lookup_empty in *|done].
Qed.

Lemma podNameForIP_elem pods ip :
  (∃ p, p ∈ pods ∧ pod_IP p = ip) → ∃ q, q ∈ pods ∧ pod_IP q = ip ∧ podNameForIP pods ip = pod_Name q.
Proof.
  induction pods as [|p pods IH]; intros (p0 & Hp0 & Hip); [by apply not_elem_of_nil in Hp0|].
  cbn [podNameForIP]. destruct (pod_IP p =? ip) eqn:E; bool_hyps.
  - exists p. split; [left|done].
  - apply elem_of_cons in Hp0 as [->|Hp0]; [done|]. destruct IH as (q & Hq & ?); [eauto|].
    exists q. split; [by right|done].
Qed.

Lemma elected_pod pods ip :
  is_Some (redis_map pods !! ip) → distinct_addresses pods →
  ∃ q, q ∈ pods ∧ pod_IP q = ip ∧ ip ≠ "" ∧ pod_Terminating q = false ∧
       podNameForIP pods ip = pod_Name q.
Proof.
  intros [name (p & Hp & Hip & Hne & Ht & _)%redis_map_lookup] Hd.
  destruct (podNameForIP_elem pods ip) as (q & Hq & Hiq & Hn); [eauto|].
  assert (q = p) as -> by (apply Hd; [done|done|congruence|congruence]). by exists p.
Qed.

Lemma plan_stamp_elected pods intent plan q :
  0 ≤ fi_maxEpoch intent < int64_max → pod_IP q ≠ "" → pod_Terminating q = false →
  podNameForIP pods (fp_masterIP plan) = pod_Name q →
  ∃ st, plan_stamp pods intent plan q = Some st ∧
        stamp_assignment st = (RoleMaster, "", fi_maxEpoch intent + 1).
Proof.
  intros Hm Hip Ht Hname. eexists. unfold plan_stamp, assignment_stamp.
  rewrite Ht, Hname, String.eqb_refl, (proj2 (String.eqb_neq _ _) Hip). split; [done|].
  unfold stamp_assignment. simpl. rewrite wrap64_id; [done|].
  unfold in_int64, int64_min. apply andb_true_iff. rewrite !Z.leb_le. lia.
Qed.

(** All stamps landed: the intent is the elected pod, at the next epoch. *)
Lemma all_stamped_intent plan s s' pods pods' :
  let intent := resolveFailoverIntent (buildFailoverPodViews pods None) in
  restamped (plan_stamp pods intent plan) pods (stored s) (stored s') →
  all_stamped (plan_stamp pods intent plan) pods (stored s') →
  listing s pods → listing s' pods' → (∀ p, p ∈ pods → pod_Name p ≠ "") →
  fi_maxEpoch intent < int64_max →
  is_Some (redis_map pods !! fp_masterIP plan) → distinct_addresses pods →
  resolveFailoverIntent (buildFailoverPodViews pods' None) =
  mkFailoverIntent (podNameForIP pods (fp_masterIP plan)) (fp_masterIP plan) (fi_maxEpoch intent + 1).
Proof.
  intros intent Hr Hall Hl Hl' Hnames Hov Hlive Hd.
  destruct (restamped_intent pods plan s s' pods pods' Hr Hl Hl' Hnames Hov) as [He _].
  fold intent in He. assert (Hnames' : ∀ p, p ∈ pods' → pod_Name p ≠ "").
  { intros p' Hp'. destruct (restamped_back _ _ _ _ _ _ _ Hr Hl Hl' Hp') as (p & Hp & (-> & _) & _).
    by apply Hnames. }
  assert (intended pods intent) as [Hnn Hmax _ _] by (by apply intended_pods).
  pose proof (intended_pods pods' Hnames') as [_ Hmax' _ Hm'].
  set (intent' := resolveFailoverIntent (buildFailoverPodViews pods' None)) in *.
  destruct (elected_pod _ _ Hlive Hd) as (q & Hq & Hip & Hne & Ht & Hname).
  destruct (plan_stamp_elected pods intent plan q) as (st & Hst & Hsa); [lia|congruence|done|done|].
  destruct (Hall q st Hq Hst) as (q' & Hq' & Ha'). apply already_stamped_assignment in Ha';
    [|by eapply assignment_stamp_facts; [apply wrap64_range|]]. rewrite Hsa in Ha'.
  assert (Hq'in : q' ∈ pods').
  { apply (elem_of_listing s'); [done|]. by rewrite (stored_named _ _ _ Hq'). }
  assert (Hmaxe : fi_maxEpoch intent' = fi_maxEpoch intent + 1).
  { specialize (Hmax' _ _ _ _ Hq'in Ha'). lia. }
  destruct Hm' as [[_ Hno]|(w & ip & e & Hw & Hwa & Hwn & Hwi & Hbest)]; [by destruct (Hno _ _ _ Hq'in Ha')|].
  specialize (Hbest _ _ _ Hq'in Ha').
  assert (pod_Name w = pod_Name q) as Hwq.
  { destruct (restamped_back _ _ _ _ _ _ _ Hr Hl Hl' Hw) as (p & Hp & (Hpn & _) & [Ha|(q1 & st1 & _ & Hs & Hqn & Ha)]).
    - rewrite Hwa in Ha. symmetry in Ha. specialize (Hmax _ _ _ _ Hp Ha). lia.
    - destruct (plan_stamp_epoch pods intent plan q1 st1) as [_ Hrole]; [lia|done|].
      rewrite Hpn, <-Hqn, <-Hname. apply Hrole. unfold stamp_assignment in Ha. congruence. }
  assert (w = q') as ->.
  { apply (elem_of_listing s') in Hw; [|done]. rewrite Hwq in Hw. congruence. }
  assert (pod_IP q' = pod_IP q) as Hqi.
  { specialize (Hr (pod_Name q)). apply (elem_of_listing s) in Hq; [|done]. rewrite Hq in Hr.
    destruct Hr as (p1 & Hp1 & (_ & Hi1 & _) & _). congruence. }
  destruct intent' as [n i m]. simpl in *. subst. f_equal; congruence.
Qed.

Lemma same_pods_intent s s' pods pods' :
  stored s = stored s' → listing s pods → listing s' pods' → (∀ p, p ∈ pods → pod_Name p ≠ "") →
  resolveFailoverIntent (buildFailoverPodViews pods None) =
  resolveFailoverIntent (buildFailoverPodViews pods' None).
Proof.
  intros Hs Hl Hl' Hnames.
  assert (Hsame : ∀ p, p ∈ pods ↔ p ∈ pods').
  { intros p. rewrite (elem_of_listing s pods), (elem_of_listing s' pods') by done. by rewrite Hs. }
  assert (Hv : ∀ v, v ∈ buildFailoverPodViews pods None ↔ v ∈ buildFailoverPodViews pods' None).
  { intros v. unfold buildFailoverPodViews. rewrite !list_elem_of_fmap. by setoid_rewrite Hsame. }
  assert (Hne : ∀ v, v ∈ buildFailoverPodViews pods None → fv_name v ≠ "").
  { intros v (p & -> & Hp)%list_elem_of_fmap. rewrite (proj1 (pod_view_name None p)). by apply Hnames. }
  destruct (resolveFailoverIntent_of (buildFailoverPodViews pods None) Hne) as [e1 H1].
  destruct (resolveFailoverIntent_of (buildFailoverPodViews pods' None)) as [e2 H2].
  { intros v Hv'. by apply Hne, Hv. }
  refine (intent_of_unique _ _ _ _ _ _ _ Hv H1 H2).
  intros v w (p & -> & Hp)%list_elem_of_fmap (q & -> & Hq)%list_elem_of_fmap.
  rewrite (proj1 (pod_view_name None p)), (proj1 (pod_view_name None q)). intros Hn.
  apply (elem_of_listing s) in Hp, Hq; [|done..]. rewrite Hn in Hp. congruence.
Qed.

End Crash.

(** The exactness fails without [undisturbed]: a stamp computed from an old copy leaves out
    what the old copy already had, and the pod keeps what was written in between. *)
Lemma stale_stamp_keeps old cur st :
  old !! AnnotationAssignedRole = Some (st_role st) →
  (merge_patch old (stamped_annotations old st) ∪ cur) !! AnnotationAssignedRole = cur !! AnnotationAssignedRole.
Proof.
  intros Hold. apply lookup_union_r. unfold merge_patch. apply map_lookup_filter_None. right. intros v Hv Hne.
  revert Hv. unfold stamped_annotations. destruct (st_authorizeMasterStart st);
    repeat first [rewrite lookup_insert_eq|rewrite lookup_insert_ne by done]; intros [= <-]; done.
Qed.

Section Election.
Context `{GoRuntime} {Srv} `{ApiServer Srv} (retries : nat).

(** C7. An election survives a crash of the operator at any point.  [pods] is the list the
    handler works from and [pods'] the true list after it finished, failed or died anywhere
    in between.

    However old [pods] and the copies read while stamping are, and whatever happens to the
    pods meanwhile: the intent re-derived from the annotations names nobody, the elected pod,
    or a pod annotated as master before, never a third one; every epoch on a pod is the one
    it carried before or the next one of the plan; and a plan that elects nobody writes no
    assignment.

    When the copies are current and no pod changes meanwhile ([undisturbed]), the epoch of the
    intent has moved by one at most, a plan that elects nobody leaves the intent as it was,
    and once the handler has reported success the intent is exactly the elected pod, at the
    next epoch. *)
Theorem election_crash_consistent (lr : LittleRed) (state : ReplicationState)
  (pods pods' : list Pod) (plan : failoverPlan) (password : string) (s s' : Srv)
  (r : option (LittleRed * option error)) :
  let intent := resolveFailoverIntent (buildFailoverPodViews pods None) in
  let intent' := resolveFailoverIntent (buildFailoverPodViews pods' None) in
  let elected := podNameForIP pods (fp_masterIP plan) in
  listing s' pods' → (∀ p, p ∈ pods ++ pods' → pod_Name p ≠ "") →
  exec s (executeFailoverPlan retries lr state pods intent plan password) s' r →
  (fi_masterName intent' ≠ "" →
   fi_masterName intent' = elected ∨ carried s (fi_masterName intent') AnnotationAssignedRole RoleMaster) ∧
  (∀ p role ip e, p ∈ pods' → pod_assignment p = Some (role, ip, e) →
     e = wrap64 (fi_maxEpoch intent + 1) ∨
     ∃ v, carried s (pod_Name p) AnnotationAssignmentEpoch v ∧ atoi v = Some e) ∧
  (failover_elects plan = None → churned (stored s) (stored s')) ∧
  (undisturbed Srv → listing s pods → fi_maxEpoch intent < int64_max →
     (fi_maxEpoch intent' = fi_maxEpoch intent ∨ fi_maxEpoch intent' = fi_maxEpoch intent + 1) ∧
     (failover_elects plan = None → intent' = intent) ∧
     (∀ lr', r = Some (lr', None) → is_Some (failover_elects plan) →
        is_Some (redis_map pods !! fp_masterIP plan) → distinct_addresses pods →
        intent' = mkFailoverIntent elected (fp_masterIP plan) (fi_maxEpoch intent + 1))).
Proof.
  intros intent intent' elected Hl' Hnames Hx. pose proof (exec_recorded _ _ _ _ _ _ _ _ _ _ Hx) as Hrec.
  assert (Hn : ∀ p, p ∈ pods → pod_Name p ≠ "") by (intros; apply Hnames, elem_of_app; by left).
  assert (Hn' : ∀ p, p ∈ pods' → pod_Name p ≠ "") by (intros; apply Hnames, elem_of_app; by right).
  split; [|split; [|split]].
  - intros Hne. destruct (in_master _ _ (intended_pods pods' Hn')) as [[? _]|(p & ip & e & Hp & Ha & Hpn & _)]; [done|].
    fold intent' in Hpn. rewrite Hpn. apply pod_assignment_keys in Ha as [Hrole _].
    apply (elem_of_listing s') in Hp; [|done].
    destruct (Hrec _ _ AnnotationAssignedRole _ Hp (list_elem_of_here _ _) Hrole) as [?|(q & st & _ & Hst & <- & Hv)]; [by right|left].
    by apply (proj1 (plan_stamp_values _ _ _ _ _ Hst)).
  - intros p role ip e Hp Ha. apply pod_assignment_keys in Ha as (_ & v & Hv & He).
    apply (elem_of_listing s') in Hp; [|done].
    destruct (Hrec _ _ AnnotationAssignmentEpoch v Hp ltac:(unfold assignment_keys; repeat constructor) Hv)
      as [?|(q & st & _ & Hst & _ & Hs)]; [right; by exists v|left].
    apply (proj2 (plan_stamp_values _ _ _ _ _ Hst)) in Hs. rewrite Hs, atoi_itoa in He by apply wrap64_range. congruence.
  - intros Hno. eapply exec_untouched; [|exact Hx]. by apply executeFailoverPlan_stamping.
  - intros calm Hl Hov. apply (exec_executeFailoverPlan _ calm) in Hx.
    assert (Hr : restamped (plan_stamp pods intent plan) pods (stored s) (stored s')).
    { destruct (failover_elects plan); [by destruct Hx|]. rewrite Hx. apply restamped_refl. }
    destruct (restamped_intent pods plan s s' pods pods' Hr Hl Hl' Hn Hov) as [He Hm].
    fold intent intent' in He, Hm. split; [lia|]. split.
    + intros Hno. rewrite Hno in Hx. symmetry. by apply (same_pods_intent s s').
    + intros lr' -> Helects Hlive Hd. destruct (failover_elects plan) as [e|]; [|by destruct Helects].
      destruct Hx as [_ Hall]. eapply all_stamped_intent; eauto using listing_nodup.
Qed.

End Election.

(** ** What a pass may do *)

Section Pass.
Context `{GoRuntime} (retries : nat) (w : Wire) (pods : list Pod) (lr : LittleRed)
  (password : string).

Let state : ReplicationState := gathered_state w pods.
Let intent : failoverIntent := resolveFailoverIntent (buildFailoverPodViews pods (Some state)).
Let live : string := determineFailoverLiveMaster state (fi_masterIP intent).
Let allowUnsafe : bool := fsp_AllowUnsafeRebootstrapOnDeadlock (failoverSpecOrDefault lr).

(** [ip] may be elected: there is no live master, [ip] is the address of a listed live pod,
    and the election is sound, where the servers report their replication identifiers. *)
Definition electable (ip : string) : Prop :=
  live = "" ∧ is_Some (redis_map pods !! ip) ∧
  (server_ids w → ∃ lossy, sound_election state allowUnsafe (ip, lossy)).

(** What a pass may ask of the outside world.  A server is promoted only when it is the
    intended master, or a soundly elected one, and runs as a replica.  A server is demoted
    only below another one, which is the live master or a soundly elected one.  A patch
    touches the assignment annotations of a listed pod only; it assigns mastership only to
    an elected pod, and it authorises a fresh master start only when every keyspace is
    readable and no pod holds data.  No other pod write happens. *)
Definition permitted (c : call) : Prop :=
  match c with
  | ReplicaOf addr _ None =>
      ∃ ip, addr = address ip RedisPort ∧ needsPromotion state ip = true ∧
            (ip = fi_masterIP intent ∨ electable ip)
  | ReplicaOf addr _ (Some (m, port)) =>
      ∃ ip, addr = address ip RedisPort ∧ port = itoa RedisPort ∧ ip ≠ m ∧ m ≠ "" ∧
            (m = live ∨ electable m)
  | PatchPod name changes =>
      name ∈ pod_Name <$> pods ∧
      (∀ k, is_Some (changes !! k) →
         k ∈ [AnnotationAssignedRole; AnnotationAssignedMasterIP; AnnotationAssignmentEpoch;
              AnnotationMasterStartAuthorizedEpoch]) ∧
      (changes !! AnnotationAssignedRole = Some RoleMaster →
         ∃ ip, electable ip ∧ name = podNameForIP pods ip) ∧
      (is_Some (changes !! AnnotationMasterStartAuthorizedEpoch) →
         all_verified state ∧ ∀ k n, ¬ is_holder state k n)
  | UpdatePod _ | Apply _ | Delete _ _ | ClusterDo _ _ | SentinelDo _ _ _ | UpdateLittleRed _ => False
  | _ => True
  end.

Lemma bookkeeping_permitted {A} (p : prog A) : calls_only bookkeeping p → calls_only permitted p.
Proof. apply safe_mono; [|done]. by intros []. Qed.

Lemma stamp_patch_lookup a st k :
  merge_patch a (stamped_annotations a st) !! k =
  (v ← stamped_annotations a st !! k; if decide (a !! k = Some v) then None else Some v).
Proof.
  unfold merge_patch. rewrite map_lookup_filter.
  destruct (stamped_annotations a st !! k) as [v|]; [|done]. simpl.
  destruct (decide (a !! k = Some v)); [rewrite option_guard_False by tauto|rewrite option_guard_True by done]; done.
Qed.

(** What the patch of one stamp carries. *)
Lemma stamp_patch_facts a st :
  let changes := merge_patch a (stamped_annotations a st) in
  (∀ k, is_Some (changes !! k) →
     k ∈ [AnnotationAssignedRole; AnnotationAssignedMasterIP; AnnotationAssignmentEpoch;
          AnnotationMasterStartAuthorizedEpoch]) ∧
  (changes !! AnnotationAssignedRole = Some RoleMaster → st_role st = RoleMaster) ∧
  (is_Some (changes !! AnnotationMasterStartAuthorizedEpoch) → st_authorizeMasterStart st = true).
Proof.
  assert (Hkeep : ∀ k, stamped_annotations a st !! k = a !! k →
    merge_patch a (stamped_annotations a st) !! k = None).
  { intros k Hk. rewrite stamp_patch_lookup, Hk. destruct (a !! k) as [v|]; [|done]. simpl.
    by destruct (decide _). }
  simpl. split; [|split].
  - intros k [v Hv]. apply dec_stable. rewrite !not_elem_of_cons. intros (? & ? & ? & ? & _).
    rewrite Hkeep in Hv; [done|]. unfold stamped_annotations.
    destruct (st_authorizeMasterStart st); by rewrite !lookup_insert_ne by done.
  - rewrite stamp_patch_lookup. unfold stamped_annotations.
    destruct (st_authorizeMasterStart st);
      repeat first [rewrite lookup_insert_eq|rewrite lookup_insert_ne by done]; simpl;
      destruct (decide _); by intros [= ->].
  - intros [v Hv]. destruct (st_authorizeMasterStart st) eqn:E; [done|].
    rewrite Hkeep in Hv; [done|]. unfold stamped_annotations. rewrite E.
    by rewrite !lookup_insert_ne by done.
Qed.

(** A stamp that a pass may make. *)
Definition stamp_ok (st : failoverStamp) : Prop :=
  st_podName st ∈ pod_Name <$> pods ∧
  (st_role st = RoleMaster → ∃ ip, electable ip ∧ st_podName st = podNameForIP pods ip) ∧
  (st_authorizeMasterStart st = true → all_verified state ∧ ∀ k n, ¬ is_holder state k n).

Lemma safe_stampFailoverPod st : stamp_ok st → calls_only permitted (stampFailoverPod st).
Proof.
  intros (Hn & Hm & Ha). apply safe_call; [done|]. intros [p|e]; [|done].
  destruct (already_stamped _ _); [done|]. apply (safe_perform _ (λ _ _, True)); [|done].
  destruct (stamp_patch_facts (pod_Annotations p) st) as (H1 & H2 & H3). simpl.
  split; [done|]. split; [exact H1|]. split; auto.
Qed.

(** *** Elections of a pass *)

Lemma pick_bootstrap_in pod0 entries : ∀ ip0 name0,
  pick_bootstrap pod0 ip0 name0 entries = ip0 ∨
  ∃ name, (pick_bootstrap pod0 ip0 name0 entries, name) ∈ entries.
Proof.
  induction entries as [|[ip name] rest IH]; intros ip0 name0; cbn [pick_bootstrap]; [by left|].
  destruct (name =? pod0); [right; exists name; left|].
  destruct ((name0 =? "") || _).
  - destruct (IH ip name) as [->|[n Hn]]; right; [exists name; left|exists n; by right].
  - destruct (IH ip0 name0) as [->|[n Hn]]; [by left|right; exists n; by right].
Qed.

Lemma bootstrap_live name m ip :
  pickBootstrapMasterIP name m = ip → ip ≠ "" → is_Some (m !! ip).
Proof.
  intros <- Hne. unfold pickBootstrapMasterIP in *.
  destruct (pick_bootstrap_in (name +:+ "-redis-0") (go_range [2472] m) "" "") as [?|[n Hn]]; [done|].
  exists n. by apply elem_of_go_range in Hn.
Qed.

Lemma holder_live ip : best_holder state ip → is_Some (redis_map pods !! ip).
Proof.
  intros (k & b & [Hk _] & <- & _). unfold state, gathered_state in Hk. rewrite gathered_node in Hk.
  apply fmap_Some in Hk as (name & Hk & ->). rewrite (proj1 (probe_redis_operator _ _ _)). by eexists.
Qed.

Lemma plan_address name unsettled since now e :
  failover_elects (planFailover state live allowUnsafe
    (pickBootstrapMasterIP name (redis_map pods)) unsettled since now failoverTransitionCooldown) = Some e →
  is_Some (redis_map pods !! e.1).
Proof.
  unfold planFailover. destruct (negb _); [done|]. destruct unsettled; [done|].
  rewrite window_match. destruct (decide _); [done|].
  destruct (AuthFailedRedisNodes state); [|done].
  destruct (len (DataHolders state) =? 0)%Z.
  - destruct (_ =? "") eqn:E; bool_hyps; [done|]. intros [= <-]. by eapply bootstrap_live.
  - destruct (BestDataHolder state) as [[[b|] d] f] eqn:Hb; [|done].
    destruct (BestDataHolder_best _ _ _ _ Hb) as (Hbest & _ & _).
    destruct (d || f); [destruct allowUnsafe; [|done]|]; intros [= <-]; by apply holder_live.
Qed.

Lemma plan_electable name unsettled since now plan :
  plan = planFailover state live allowUnsafe (pickBootstrapMasterIP name (redis_map pods))
           unsettled since now failoverTransitionCooldown →
  (is_Some (failover_elects plan) → electable (fp_masterIP plan)) ∧
  (masterStartAuthorizedFor (fp_action plan) = true →
     all_verified state ∧ ∀ k n, ¬ is_holder state k n).
Proof.
  intros Hplan. pose proof (planFailover_facts state live allowUnsafe
    (pickBootstrapMasterIP name (redis_map pods)) unsettled since now failoverTransitionCooldown) as Hs.
  destruct (planFailover_gates state live allowUnsafe
    (pickBootstrapMasterIP name (redis_map pods)) unsettled since now failoverTransitionCooldown) as [Hl Ha].
  pose proof (plan_address name unsettled since now) as Haddr. rewrite <-Hplan in *. clear Hplan.
  assert (Hip : ∀ e, failover_elects plan = Some e → e.1 = fp_masterIP plan).
  { intros e He. unfold failover_elects in He. by destruct (fp_action plan); simplify_eq. }
  split; [|exact Ha]. intros He. split; [by apply Hl|]. destruct He as [[ip lossy] He].
  specialize (Hip _ He). simpl in Hip. subst ip. split; [by apply (Haddr _ He)|].
  intros Hids. exists lossy. by apply Hs; [apply operator_gathered_facts|].
Qed.

(** *** The handlers of a pass *)

Lemma safe_stampFailoverAssignments ip epoch auth :
  electable ip → (auth = true → all_verified state ∧ ∀ k n, ¬ is_holder state k n) →
  calls_only permitted (stampFailoverAssignments pods (podNameForIP pods ip) ip epoch auth).
Proof.
  intros He Hauth. apply (safe_for_each _ (λ _, True)); [done|]. intros firstErr p Hp _.
  destruct (assignment_stamp _ _ _ _ p) as [st|] eqn:Hst; [|done].
  eapply calls_only_bind; [|done]. apply safe_stampFailoverPod.
  assert (Hin : pod_Name p ∈ pod_Name <$> pods) by (by apply list_elem_of_fmap_2).
  unfold assignment_stamp in Hst. destruct (_ || _); [done|].
  destruct (pod_Name p =? podNameForIP pods ip) eqn:E; bool_hyps; simplify_eq.
  - split; [done|]. split; [|exact Hauth]. intros _. exists ip. done.
  - split; [done|]. split; [|done]. by intros [=].
Qed.

Lemma safe_promote ip :
  ip = fi_masterIP intent ∨ electable ip →
  calls_only permitted (promoteFailoverMaster state ip password).
Proof.
  intros Hip. unfold promoteFailoverMaster. destruct (needsPromotion state ip) eqn:E; [|done].
  apply safe_call; [|done]. by exists ip.
Qed.

Lemma safe_slaveOf ip m :
  ip ≠ m → m ≠ "" → (m = live ∨ electable m) → calls_only permitted (slaveOfBounded ip m password).
Proof.
  intros Hne Hm Hok. unfold slaveOfBounded, SlaveOf. rewrite (proj2 (String.eqb_neq _ _) Hm).
  apply (safe_perform _ (λ _ _, True)); [|done]. by exists ip.
Qed.

Lemma electable_nonempty ip : electable ip → ip ≠ "".
Proof. by intros (_ & [name (p & _ & _ & ? & _)%redis_map_lookup] & _). Qed.

Lemma safe_fence ip : electable ip → calls_only permitted (fence pods intent ip password).
Proof.
  intros He. unfold fence. destruct (negb _) eqn:E; [|done]. bool_hyps.
  eapply calls_only_bind; [|done]. apply safe_slaveOf; [|by apply electable_nonempty|by right].
  unfold planFailoverFence in *. destruct ((_ =? "") || _) eqn:Eo; [done|].
  apply orb_false_iff in Eo as [_ Eo%String.eqb_neq]. by destruct (existsb _ _).
Qed.

Lemma safe_executeFailoverPlan lr' plan :
  (is_Some (failover_elects plan) → electable (fp_masterIP plan)) →
  (masterStartAuthorizedFor (fp_action plan) = true →
     all_verified state ∧ ∀ k n, ¬ is_holder state k n) →
  calls_only permitted (executeFailoverPlan retries lr' state pods intent plan password).
Proof.
  intros He Ha.
  assert (Hmark : ∀ l e, calls_only permitted (markFailoverTransition retries l e)).
  { intros. apply bookkeeping_permitted, safe_markFailoverTransition. }
  assert (Hcond : ∀ l st r m, calls_only permitted (setFailoverRecoveryCondition retries l st r m)).
  { intros. apply bookkeeping_permitted, safe_setFailoverRecoveryCondition. }
  assert (Helect : electable (fp_masterIP plan) →
    calls_only permitted (execute_elect retries lr' state pods intent plan password)).
  { intros Hel. eapply calls_only_bind; [by apply safe_stampFailoverAssignments|].
    intros [e|]; [done|]. eapply calls_only_bind; [apply safe_promote; by right|].
    intros [e|]; [done|]. eapply calls_only_bind; [by apply safe_fence|]. intros _.
    eapply calls_only_bind; [apply Hmark|]. intros [l [e|]]; [done|].
    apply safe_call; [by destruct (bool_decide _)|done]. }
  unfold executeFailoverPlan. unfold failover_elects in He.
  destruct (fp_action plan) eqn:E; try done.
  - unfold execute_seed. rewrite E. eapply calls_only_bind; [apply safe_stampFailoverAssignments; eauto|].
    intros [e|]; [done|]. eapply calls_only_bind; [apply Hmark|]. intros [l [e|]]; [done|].
    by apply safe_call.
  - apply Helect, He. by eexists.
  - apply safe_call; [done|]. intros _. apply Hcond.
  - apply Helect, He. by eexists.
  - apply safe_call; [done|]. intros _. apply Hcond.
Qed.

Lemma elem_of_reauth st liveMasterIP :
  st ∈ planFailoverReauth (buildFailoverPodViews pods (Some state)) intent liveMasterIP →
  st_podName st ∈ pod_Name <$> pods ∧ st_role st = RoleReplica ∧ st_authorizeMasterStart st = false.
Proof.
  unfold planFailoverReauth. rewrite sort_slice_perm, list_elem_of_omap.
  intros (v & (p & -> & Hp)%list_elem_of_fmap & Hst). unfold reauth_stamp in Hst.
  assert (Hn : fv_name (pod_view (Some state) p) ∈ pod_Name <$> pods).
  { rewrite (proj1 (pod_view_name _ p)). by apply list_elem_of_fmap_2. }
  destruct (_ || _); [done|]. destruct (negb _); [by simplify_eq|].
  destruct (_ && _); by simplify_eq.
Qed.

Lemma repoint_other ip liveMasterIP :
  ip ∈ planFailoverRepoints state liveMasterIP → ip ≠ liveMasterIP.
Proof.
  unfold planFailoverRepoints, sort_strings. rewrite merge_sort_Permutation, list_elem_of_fmap.
  intros ([k rn] & -> & [_ Hf]%elem_of_bfilter). simpl in *.
  destruct (negb _ || _) eqn:E; [done|]. by apply orb_false_iff in E as [_ ?%String.eqb_neq].
Qed.

Lemma safe_heal settled eng :
  live ≠ "" → calls_only permitted (heal pods intent state live password settled eng).
Proof.
  intros Hl. eapply calls_only_bind.
  - apply (safe_for_each _ (λ _, True)); [done|]. intros e ip Hip%repoint_other _.
    eapply calls_only_bind; [|done]. by apply safe_slaveOf; [| |left].
  - intros eng1. destruct settled; [|done]. apply (safe_for_each _ (λ _, True)); [done|].
    intros e st (Hn & Hr & Ha)%elem_of_reauth _. eapply calls_only_bind; [|done].
    apply safe_stampFailoverPod. split; [done|]. split; [|congruence]. rewrite Hr. by intros [=].
Qed.

Lemma safe_detect_death : calls_only permitted (detect_death retries lr pods intent state).
Proof.
  apply safe_call; [done|]. intros now. destruct (planMasterDeath _ _ _ _ _ _); try done.
  - eapply calls_only_bind; [|done]. apply bookkeeping_permitted, safe_clearFailoverMasterDownSince.
  - apply safe_call; [done|]. intros t. eapply calls_only_bind; [|done].
    apply bookkeeping_permitted, safe_setFailoverMasterDownSince.
Qed.

Lemma engine_pass_safe : safe permitted (λ _, True) (engine_pass retries lr pods state password).
Proof.
  unfold engine_pass. fold intent live. destruct (negb _ && _) eqn:Hres.
  { eapply calls_only_bind; [apply safe_promote; by left|]. by intros [e|]. }
  eapply calls_only_bind.
  { destruct (negb (fi_masterName intent =? "")); [apply safe_detect_death|done]. }
  intros [[lr1 dead] fast]. destruct ((_ =? "") || dead).
  - apply safe_call; [done|]. intros now. eapply calls_only_bind; [|done].
    destruct (plan_electable (lr_Name lr) (failoverPromotionUnsettled intent state (role_labels pods))
      (ls_Failover (lr_Status lr1) ≫= fo_TransitionSince) now _ eq_refl) as [He Ha].
    by apply safe_executeFailoverPlan.
  - destruct (live =? "") eqn:Hl; bool_hyps; [done|].
    eapply calls_only_bind; [apply bookkeeping_permitted, safe_clearFailoverRecoveryCondition|].
    intros r. eapply calls_only_bind; [by apply safe_heal|done].
Qed.

(** C8. Whatever the API server and the Redis servers answer, every call a pass makes is
    [permitted]: servers are promoted and demoted only towards the intended master or a
    sound election, mastership is assigned only by a sound election, and a fresh master
    start is authorised only when no pod holds data and every keyspace is readable. *)
Theorem engine_pass_permitted :
  safe permitted (λ _, True) (engine_pass retries lr pods state password).
Proof. exact engine_pass_safe. Qed.

End Pass.

(** C35. A half-applied election is resumed and nothing else happens: when the intended
    master is reachable but still runs as a replica, the pass makes exactly one call, the
    promotion of that server, and asks for a fast requeue unless the call failed. *)
Theorem engine_pass_resumes `{GoRuntime} (retries : nat) (lr : LittleRed) (pods : list Pod)
  (state : ReplicationState) (password : string) (tr : trace)
  (a : LittleRed * failoverEngineView * option error) :
  let intent := resolveFailoverIntent (buildFailoverPodViews pods None) in
  fi_masterIP intent ≠ "" → needsPromotion state (fi_masterIP intent) = true →
  run (engine_pass retries lr pods state password) tr a →
  calls tr = [ReplicaOf (address (fi_masterIP intent) RedisPort) password None] ∧
  a.1.1 = lr ∧ (a.2 = None → ev_requeueFast a.1.2 = true).
Proof.
  intros intent Hne Hp. unfold engine_pass. rewrite intent_of_pods. fold intent.
  rewrite (proj2 (String.eqb_neq _ _) Hne), Hp. cbn [negb andb].
  unfold promoteFailoverMaster. rewrite Hp. cbn [negb].
  intros (x & tr' & -> & Hr). simpl in Hr. destruct x as [e|]; simpl in Hr; destruct Hr as [-> ->]; done.
Qed.

(** ** The engine view and the status

    The view handed to the label and status steps is that of the gather, whatever the pass
    did after it. *)

Definition view_of `{GoRuntime} (pods : list Pod) (state : ReplicationState)
  (eng : failoverEngineView) : Prop :=
  let intent := resolveFailoverIntent (buildFailoverPodViews pods None) in
  ev_intent eng = intent ∧
  ev_masterPodName eng =
    (if determineFailoverLiveMaster state (fi_masterIP intent) =? "" then "" else fi_masterName intent) ∧
  ev_replicasLinkedUp eng = replicas_linked_up intent state.

Lemma view_of_requeue `{GoRuntime} pods state eng :
  view_of pods state eng → view_of pods state (requeue eng).
Proof. done. Qed.

Lemma engine_pass_view `{GoRuntime} retries lr pods state password :
  safe (λ _, True) (λ a, view_of pods state a.1.2) (engine_pass retries lr pods state password).
Proof.
  assert (Hany : ∀ A (p : prog A), safe (λ _, True) (λ _, True) p).
  { intros A p. by induction p. }
  unfold engine_pass. rewrite intent_of_pods. set (intent := resolveFailoverIntent _).
  set (eng := mkEngineView _ _ _ _ _). assert (Hv : view_of pods state eng).
  { split; [done|]. split; [|done]. simpl. fold intent. by destruct (_ =? ""). }
  clearbody eng. destruct (negb _ && _).
  { eapply calls_only_bind; [apply Hany|]. by intros [e|]. }
  eapply calls_only_bind; [apply Hany|]. intros [[lr1 dead] fast].
  set (eng1 := if fast then _ else _). assert (Hv1 : view_of pods state eng1) by (by destruct fast).
  clearbody eng1. destruct ((_ =? "") || dead).
  { eapply calls_only_bind; [apply Hany|]. intros now. eapply calls_only_bind; [apply Hany|done]. }
  destruct (_ =? ""); [done|]. eapply calls_only_bind; [apply Hany|]. intros r.
  apply (safe_bind _ (view_of pods state)); [|done].
  apply (safe_bind _ (view_of pods state)).
  - apply safe_for_each; [done|]. intros e ip _ He. eapply calls_only_bind; [apply Hany|done].
  - intros eng2 Hv2. destruct (failoverTransitionSettled _ _ _); [|done].
    apply safe_for_each; [done|]. intros e st _ He. eapply calls_only_bind; [apply Hany|done].
Qed.

Lemma replicas_linked_up_eq `{GoRuntime} intent state :
  replicas_linked_up intent state =
  len (filter (λ '(ip, rn), rn_Reachable rn = true ∧ ip ≠ fi_masterIP intent ∧
                 rn_MasterHost rn = fi_masterIP intent ∧ rn_LinkStatus rn = "up")
         (map_to_list (rs_RedisNodes state))).
Proof.
  unfold replicas_linked_up, len. f_equal.
  rewrite (Permutation_length (bfilter_permutation _ _ _ (go_range_perm [375] (rs_RedisNodes state)))).
  induction (map_to_list (rs_RedisNodes state)) as [|[ip rn] l IH]; [done|].
  rewrite filter_cons. unfold bfilter, follows in *. cbn [List.filter].
  destruct (decide _) as [(-> & Hip & -> & ->)|Hn].
  - rewrite (proj2 (String.eqb_neq _ _) Hip), !String.eqb_refl. simpl. by f_equal.
  - destruct (_ && _) eqn:E; [|done]. destruct Hn. bool_hyps. done.
Qed.

Lemma live_master_spec state ip :
  determineFailoverLiveMaster state ip ≠ "" ↔
  ip ≠ "" ∧ ∃ rn, rs_RedisNodes state !! ip = Some rn ∧ rn_Reachable rn = true ∧ rn_Role rn = RoleMaster.
Proof.
  unfold determineFailoverLiveMaster. destruct (ip =? "") eqn:E; bool_hyps; [by split; [|intros []]|].
  destruct (rs_RedisNodes state !! ip) as [rn|].
  - destruct (_ && _) eqn:Er.
    + bool_hyps. split; [intros _; split; [done|]; by exists rn|by intros [? _]].
    + split; [done|]. intros (_ & rn' & ? & Hr & Hm). simplify_eq. rewrite Hr, Hm in Er. done.
  - split; [done|]. by intros (_ & rn & ? & _).
Qed.

Lemma failover_status_phase latest expected sts eng :
  ls_Phase (failover_status latest expected (Some sts) eng) = PhaseRunning ↔
  sts_ReadyReplicas sts = sts_Replicas sts ∧ 0 < sts_ReadyReplicas sts ∧
  from_option ev_masterPodName "" eng ≠ "" ∧
  sts_Replicas sts - 1 ≤ from_option ev_replicasLinkedUp 0 eng.
Proof.
  unfold failover_status. cbv zeta. cbn [ls_Phase].
  destruct (_ && _) eqn:E; split; try done.
  - intros _. bool_hyps. done.
  - intros (H1 & H2 & H3 & H4). rewrite H1, Z.eqb_refl, (proj2 (String.eqb_neq _ _) H3) in E.
    apply Z.leb_le in H4. rewrite H4 in E. rewrite <-H1, (proj2 (Z.ltb_lt _ _) H2) in E. done.
Qed.

(** Running means replicating: the status step reports the phase Running exactly when
    all pods of a non-empty StatefulSet are ready, the intended master was observed
    reachable and in the master role by the gather of the same pass, and at least all the
    other pods were observed following it with their link up; whatever else the pass did. *)
Theorem running_means_replicating `{GoRuntime} (retries : nat) (lr : LittleRed) (pods : list Pod)
  (state : ReplicationState) (password : string) (tr : trace)
  (a : LittleRed * failoverEngineView * option error) (latest : LittleRed) (expected : Z)
  (sts : StatefulSet) :
  let intent := resolveFailoverIntent (buildFailoverPodViews pods None) in
  run (engine_pass retries lr pods state password) tr a →
  ls_Phase (failover_status latest expected (Some sts) (Some a.1.2)) = PhaseRunning ↔
  sts_ReadyReplicas sts = sts_Replicas sts ∧ 0 < sts_ReadyReplicas sts ∧
  fi_masterName intent ≠ "" ∧ fi_masterIP intent ≠ "" ∧
  (∃ rn, rs_RedisNodes state !! fi_masterIP intent = Some rn ∧ rn_Reachable rn = true ∧
         rn_Role rn = RoleMaster) ∧
  sts_Replicas sts - 1 ≤
    len (filter (λ '(ip, rn), rn_Reachable rn = true ∧ ip ≠ fi_masterIP intent ∧
                   rn_MasterHost rn = fi_masterIP intent ∧ rn_LinkStatus rn = "up")
           (map_to_list (rs_RedisNodes state))).
Proof.
  intros intent Hr.
  destruct (safe_run _ _ _ _ _ (engine_pass_view retries lr pods state password) Hr)
    as [_ (_ & Hm & Hl)]. fold intent in Hm, Hl. rewrite replicas_linked_up_eq in Hl.
  rewrite <-Hl, failover_status_phase. cbn [from_option]. rewrite Hm.
  assert (Hlive : determineFailoverLiveMaster state (fi_masterIP intent) ≠ "" ↔
    fi_masterIP intent ≠ "" ∧ ∃ rn, rs_RedisNodes state !! fi_masterIP intent = Some rn ∧
      rn_Reachable rn = true ∧ rn_Role rn = RoleMaster) by apply live_master_spec.
  destruct (_ =? "") eqn:E; bool_hyps.
  - split; [by intros (_ & _ & ? & _)|]. intros (_ & _ & _ & ? & ? & _).
    destruct (proj2 Hlive); [done|done].
  - apply Hlive in E as [? ?]. tauto.
Qed.

(** The status mirror of the epoch lags behind an election: the status step of a pass
    always records the epoch re-derived before the pass's own stamps, also when the pass
    has just stamped the next one and recorded it. *)
Theorem status_epoch_lags `{GoRuntime} (retries : nat) (lr : LittleRed) (pods : list Pod)
  (state : ReplicationState) (password : string) (tr : trace)
  (a : LittleRed * failoverEngineView * option error) (latest : LittleRed) (expected : Z)
  (sts : option StatefulSet) :
  run (engine_pass retries lr pods state password) tr a →
  fo_AssignmentEpoch <$> ls_Failover (failover_status latest expected sts (Some a.1.2)) =
  Some (fi_maxEpoch (resolveFailoverIntent (buildFailoverPodViews pods None))).
Proof.
  intros Hr. destruct (safe_run _ _ _ _ _ (engine_pass_view retries lr pods state password) Hr)
    as [_ (Hi & _)]. rewrite <-Hi. unfold failover_status. by destruct sts.
Qed.

(** ** Role labels *)

Section Labels.
Context {Srv} `{ApiServer Srv}.

(** A pod as the label step leaves it. *)
Definition relabelled (m : string) (p p' : Pod) : Prop :=
  pod_Name p' = pod_Name p ∧ at_key (pod_Labels p') LabelRole = expected_role m p.

Lemma exec_applyRoleLabels m pods : ∀ s s',
  NoDup (pod_Name <$> pods) → (∀ p, p ∈ pods → stored s !! pod_Name p = Some p) →
  exec s (applyRoleLabels pods m) s' (Some None) →
  (∀ p, p ∈ pods → ∃ p', stored s' !! pod_Name p = Some p' ∧ relabelled m p p') ∧
  (∀ name, name ∉ pod_Name <$> pods → stored s' !! name = stored s !! name).
Proof.
  induction pods as [|p pods IH]; intros s s' Hnd Hin Hx; cbn [applyRoleLabels] in Hx.
  { apply exec_ret in Hx as [-> _]. split; [|done]. intros p Hp. by apply not_elem_of_nil in Hp. }
  rewrite fmap_cons in *. apply NoDup_cons in Hnd as [Hnin Hnd].
  assert (Hskip : ∀ s1 p1, stored s1 !! pod_Name p = Some p1 → relabelled m p p1 →
    (∀ name, name ≠ pod_Name p → stored s1 !! name = stored s !! name) →
    exec s1 (applyRoleLabels pods m) s' (Some None) →
    (∀ q, q ∈ p :: pods → ∃ p', stored s' !! pod_Name q = Some p' ∧ relabelled m q p') ∧
    (∀ name, name ∉ pod_Name p :: (pod_Name <$> pods) → stored s' !! name = stored s !! name)).
  { intros s1 p1 Hp1 Hr Hother Hx1. destruct (IH s1 s' Hnd) as [H1 H2]; [|done|].
    - intros q Hq. rewrite Hother; [apply Hin; by right|]. intros E. destruct Hnin.
      rewrite <-E. by apply list_elem_of_fmap_2.
    - split.
      + intros q [->|Hq]%elem_of_cons; [|by apply H1]. exists p1. by rewrite (H2 _ Hnin).
      + intros name [Hn1 Hn2]%not_elem_of_cons. by rewrite (H2 _ Hn2), Hother. }
  destruct (_ =? _) eqn:E; bool_hyps.
  { apply (Hskip s p); [apply Hin; left|done|done|done]. }
  apply exec_call in Hx as [[_ ?]|(x & s1 & Hs & Hx)]; [done|].
  destruct x as [e|]; [by apply exec_ret in Hx as [_ [?|?]]|].
  apply served_update in Hs. simpl in Hs.
  eapply (Hskip s1); [rewrite Hs; apply lookup_insert_eq| |intros name ?; by rewrite Hs, lookup_insert_ne|done].
  split; [done|]. simpl. unfold at_key. by rewrite lookup_insert_eq.
Qed.

(** After a label pass that succeeded, exactly the observed master carries the master
    label; when none is observed nobody does. *)
Theorem applyRoleLabels_unique_master (s s' : Srv) (pods : list Pod) (m name : string) (p : Pod) :
  listing s pods → exec s (applyRoleLabels pods m) s' (Some None) →
  stored s' !! name = Some p →
  at_key (pod_Labels p) LabelRole = RoleMaster ↔ m ≠ "" ∧ name = m.
Proof.
  intros Hl Hx Hp. destruct (exec_applyRoleLabels m pods s s') as [Hrel Hother];
    [by eapply listing_nodup|intros q Hq; by apply (elem_of_listing s pods)|done|].
  assert (∃ q, q ∈ pods ∧ pod_Name q = name) as (q & Hq & <-).
  { destruct (decide (name ∈ pod_Name <$> pods)) as [(q & -> & ?)%list_elem_of_fmap|Hn]; [eauto|].
    rewrite (Hother _ Hn) in Hp. exists p. pose proof (stored_named _ _ _ Hp) as E.
    split; [|done]. apply (elem_of_listing s pods); [done|]. congruence. }
  destruct (Hrel q Hq) as (p' & Hp' & Hn & Hr). simplify_eq. rewrite Hr. unfold expected_role.
  destruct (m =? "") eqn:Em; bool_hyps; cbn [negb].
  - destruct (_ =? RoleMaster) eqn:Er; bool_hyps; split; try done; [by intros [? _]..].
  - destruct (pod_Name q =? m) eqn:En; bool_hyps; split; try done. by intros [_ ?].
Qed.

End Labels.

(** *** Witnesses *)

Definition sample_pod (name ip : string) (terminating : bool) (role master epoch : string) : Pod :=
  mkPod name ip terminating
    {[ AnnotationAssignedRole := role; AnnotationAssignedMasterIP := master;
       AnnotationAssignmentEpoch := epoch ]}
    {[ LabelRole := role ]} [mkContainerStatus "redis" true 0 None] None true.

(** The master redis-0 is going away at epoch 3. *)
Definition sample_cluster : Memory :=
  mkMemory {[ "lr-redis-0" := sample_pod "lr-redis-0" "10.0.0.1" true "master" "" "3";
              "lr-redis-1" := sample_pod "lr-redis-1" "10.0.0.2" false "replica" "10.0.0.1" "3";
              "lr-redis-2" := sample_pod "lr-redis-2" "10.0.0.3" false "replica" "10.0.0.1" "3" ]}
    sample_lr (sample_sts 3 3) sample_wire (100 * second) ∅ [].

Definition sample_listing (s : Memory) : list Pod := (map_to_list (mem_stored s)).*2.

Definition sample_plan : failoverPlan := mkFailoverPlan failoverPromote "10.0.0.2" false false 2 [].

Definition sample_election : prog (LittleRed * option error) :=
  @executeFailoverPlan ref_runtime 4 sample_lr NewReplicationState (sample_listing sample_cluster)
    (resolveFailoverIntent (buildFailoverPodViews (sample_listing sample_cluster) None)) sample_plan "".

Lemma sample_election_done : (mem_run sample_cluster sample_election).1.2 = None.
Proof. vm_compute. reflexivity. Qed.

Lemma distinct_addresses_nodup pods : NoDup (pod_IP <$> pods) → distinct_addresses pods.
Proof.
  intros Hnd p q [i Hi]%list_elem_of_lookup [j Hj]%list_elem_of_lookup Heq _.
  assert (i = j) as ->; [|congruence].
  apply (NoDup_lookup _ i j (pod_IP p) Hnd); rewrite list_lookup_fmap; [by rewrite Hi|].
  by rewrite Hj, Heq.
Qed.

Lemma mem_undisturbed : @undisturbed Memory mem_server.
Proof.
  unfold undisturbed, served, stored, mem_server, mem_served. split.
  - intros s name p s' [= Hs _]. simpl. by destruct (mem_stored s !! name); simplify_eq/=.
  - intros s c x s' Hs. destruct c; simplify_eq/=; try done; repeat case_match; by simplify_eq/=.
Qed.

Lemma election_crash_consistent_witness :
  resolveFailoverIntent (buildFailoverPodViews
    (sample_listing (mem_run sample_cluster sample_election).2) None) =
  mkFailoverIntent "lr-redis-1" "10.0.0.2" 4.
Proof.
  destruct (@election_crash_consistent ref_runtime Memory mem_server 4 sample_lr NewReplicationState
    (sample_listing sample_cluster) (sample_listing (mem_run sample_cluster sample_election).2)
    sample_plan "" sample_cluster (mem_run sample_cluster sample_election).2
    (Some (mem_run sample_cluster sample_election).1)) as (_ & _ & _ & Hok).
  - exact (Permutation_refl _).
  - apply Forall_forall. decide_true.
  - apply mem_run_exec.
  - destruct Hok as (_ & _ & Hok); [exact mem_undisturbed|exact (Permutation_refl _)|vm_compute; reflexivity|].
    eapply eq_trans; [refine (Hok (mem_run sample_cluster sample_election).1.1 _ _ _ _)|].
    + rewrite <-sample_election_done. by rewrite <-surjective_pairing.
    + by eexists.
    + eexists. vm_compute. reflexivity.
    + apply distinct_addresses_nodup. decide_true.
    + vm_compute. reflexivity.
Defined.

(** The election was stamped, the promotion has not happened yet. *)
Definition stamped_cluster : list Pod :=
  [sample_pod "lr-redis-1" "10.0.0.2" false "master" "" "4";
   sample_pod "lr-redis-2" "10.0.0.3" false "replica" "10.0.0.2" "4"].

Definition open_wire : Wire :=
  let fail {A} : result A := inr (plain_error "connection refused") in
  mkWire (λ _, inl (render_info sample_info))
    (λ _ _, fail) (λ _, fail) (λ _ _, fail) (λ _, fail) (λ _, fail) (λ _, fail).

Lemma engine_pass_permitted_witness :
  safe (@permitted ref_runtime open_wire stamped_cluster sample_lr) (λ _, True)
    (@engine_pass ref_runtime 4 sample_lr stamped_cluster
       (@gathered_state ref_runtime open_wire stamped_cluster) "").
Proof.
  apply (@engine_pass_permitted ref_runtime 4 open_wire stamped_cluster sample_lr "").
Defined.

Definition resuming_pass : prog (LittleRed * failoverEngineView * option error) :=
  @engine_pass ref_runtime 4 sample_lr stamped_cluster
    (@gathered_state ref_runtime open_wire stamped_cluster) "".

Lemma engine_pass_resumes_witness :
  calls (mem_trace sample_cluster resuming_pass) = [ReplicaOf "10.0.0.2:6379" "" None].
Proof.
  refine (proj1 (@engine_pass_resumes ref_runtime 4 sample_lr stamped_cluster
    (@gathered_state ref_runtime open_wire stamped_cluster) "" _
    (mem_run sample_cluster resuming_pass).1 _ _ (mem_run_trace _ _))).
  - vm_compute. discriminate.
  - vm_compute. reflexivity.
Defined.

(** A steady instance: the master is observed, and the replica follows it. *)
Definition steady_state : ReplicationState :=
  set_Nodes NewReplicationState
    {[ "10.0.0.2" := mkRedisNode "lr-redis-1" "10.0.0.2" "master" "" "" 100 5 "a" "0" true ProbeOK "";
       "10.0.0.3" := mkRedisNode "lr-redis-2" "10.0.0.3" "slave" "10.0.0.2" "up" 100 5 "a" "0" true ProbeOK "" ]} ∅.

Definition steady_pass : prog (LittleRed * failoverEngineView * option error) :=
  @engine_pass ref_runtime 4 sample_lr stamped_cluster steady_state "".

Lemma running_means_replicating_witness :
  ls_Phase (failover_status sample_lr 2 (Some (sample_sts 2 2))
    (Some (mem_run sample_cluster steady_pass).1.1.2)) = PhaseRunning.
Proof.
  refine (proj2 (@running_means_replicating ref_runtime 4 sample_lr stamped_cluster steady_state ""
    _ (mem_run sample_cluster steady_pass).1 sample_lr 2 (sample_sts 2 2)
    (mem_run_trace _ _)) _).
  split_and!; [reflexivity|reflexivity|vm_compute; discriminate|vm_compute; discriminate| |].
  - eexists. split; [vm_compute; reflexivity|]. split; reflexivity.
  - vm_compute. discriminate.
Defined.

Lemma status_epoch_lags_witness :
  fo_AssignmentEpoch <$> ls_Failover (failover_status sample_lr 2 None
    (Some (mem_run sample_cluster steady_pass).1.1.2)) = Some 4.
Proof.
  rewrite (@status_epoch_lags ref_runtime 4 sample_lr stamped_cluster steady_state ""
    _ (mem_run sample_cluster steady_pass).1 sample_lr 2 None (mem_run_trace _ _)).
  vm_compute. reflexivity.
Defined.

Lemma applyRoleLabels_unique_master_witness :
  let s' := (mem_run sample_cluster (applyRoleLabels (sample_listing sample_cluster) "lr-redis-1")).2 in
  ∃ p, mem_stored s' !! "lr-redis-1" = Some p ∧ at_key (pod_Labels p) LabelRole = RoleMaster.
Proof.
  intros s'. destruct (mem_stored s' !! "lr-redis-1") as [p|] eqn:Hp.
  2:{ exfalso. vm_compute in Hp. discriminate Hp. }
  exists p. split; [reflexivity|].
  refine (proj2 (@applyRoleLabels_unique_master Memory mem_server sample_cluster s'
    (sample_listing sample_cluster) "lr-redis-1" "lr-redis-1" p _ _ Hp) _).
  - exact (Permutation_refl _).
  - assert (Hr : (mem_run sample_cluster
      (applyRoleLabels (sample_listing sample_cluster) "lr-redis-1")).1 = None)
      by (vm_compute; reflexivity).
    rewrite <-Hr. apply mem_run_exec.
  - split; [discriminate|reflexivity].
Defined.
