(* ===== verification/PodStart.v ===== *)
(** * The start gate of a failover-mode pod (src/internal/controller/resources_failover.go)

    The startup script of a data pod: it polls the annotations of its own pod, projected
    into a file, and starts the server once the operator has assigned a role; a restarted
    container holds no data and needs a newer assignment and, to start as a master, a
    permission of its own.  The file ends with the life of a pod, in which the operator stamps
    it ([FailoverEngine]) whenever it likes, the kubelet projects the annotations whenever it
    likes, the script polls the file and the container crashes.

    The projection is Kubernetes': an argument with its documented format, one
    [key="value"] line per annotation. *)

From Stdlib Require Import Ascii.
From S2P Require Import Prelude GoStrings Probe ClusterState ReplicationTypes.
From S2P Require Import Info Lineage ReplicationState Recovery FailoverIntent Gather Kube AuthReport.
From S2P Require Import FailoverEngine FailoverSafety.

Open Scope Z_scope.
Open Scope go_scope.

(** ** Definitions *)

(** *** Text tools *)

Definition dquote : string := String "034"%char EmptyString.

(** A basic regular expression of literals and dots, at the start of a line and anywhere. *)
Fixpoint bre_prefix (pattern line : string) : bool :=
  match pattern, line with
  | EmptyString, _ => true
  | String p ps, String c cs => (Ascii.eqb p "."%char || Ascii.eqb p c) && bre_prefix ps cs
  | String _ _, EmptyString => false
  end.

(** [cut -d= -f2-]: a line without the delimiter is printed as it is. *)
Fixpoint after_equals (line : string) : option string :=
  match line with
  | EmptyString => None
  | String c cs => if Ascii.eqb c "="%char then Some cs else after_equals cs
  end.

Definition cut_value (line : string) : string := default line (after_equals line).

(** [sed -e 's/^Q//' -e 's/Q$//'], where Q is a double quote. *)
Definition strip_first_quote (s : string) : string :=
  match s with String c cs => if Ascii.eqb c "034"%char then cs else s | EmptyString => s end.

Fixpoint strip_last_quote (s : string) : string :=
  match s with
  | EmptyString => EmptyString
  | String c EmptyString => if Ascii.eqb c "034"%char then EmptyString else s
  | String c cs => String c (strip_last_quote cs)
  end.

(** The function [annotation] of the script, over the lines of the file. *)
Definition annotation (file : list string) (key : string) : string :=
  match bfilter (bre_prefix (key +:+ "=")) file with
  | [] => ""
  | line :: _ => strip_last_quote (strip_first_quote (cut_value line))
  end.

(** [[ a -gt b ]]: an operand that is no number is an error, which counts as false. *)
Definition shell_int (s : string) : option Z := atoi (trim_space s).

Definition test_gt (a b : string) : bool :=
  match shell_int a, shell_int b with
  | Some x, Some y => (y <? x)%Z
  | _, _ => false
  end.

(** *** The script *)

(** What [redis-server] is started as. *)
Inductive server_start :=
  | AsMaster
  | AsReplicaOf (masterIP : string).

#[export] Instance server_start_eq_dec : EqDecision server_start.
Proof. solve_decision. Defined.

(** One round of the loop: the epoch recorded in the marker and the start, or [None] for
    another wait.  [startedUnder] is the content of the marker, empty if there is none. *)
Definition failover_poll (startedUnder : string) (file : list string) : option (string * server_start) :=
  let role := annotation file AnnotationAssignedRole in
  let masterIP := annotation file AnnotationAssignedMasterIP in
  let epoch := annotation file AnnotationAssignmentEpoch in
  if (role =? "") || (epoch =? "") then None
  else if (role =? RoleReplica) && (masterIP =? "") then None
  else if negb (startedUnder =? "") && negb (test_gt epoch startedUnder) then None
  else if (role =? RoleMaster) && negb (startedUnder =? "") &&
          (let auth := annotation file AnnotationMasterStartAuthorizedEpoch in
           (auth =? "") || negb (test_gt auth startedUnder)) then None
  else Some (epoch, if role =? RoleMaster then AsMaster else AsReplicaOf masterIP).

(** The loop, over the contents of the file at its successive rounds. *)
Fixpoint failover_startup (startedUnder : string) (files : list (list string))
  : option (string * server_start) :=
  match files with
  | [] => None
  | file :: files' =>
      match failover_poll startedUnder file with
      | Some s => Some s
      | None => failover_startup startedUnder files'
      end
  end.

(** *** The pod *)

(** What outlives a crash of the container, and the server it runs. *)
Record pod_state := mkPodState {
  pd_annotations : gmap string string;
  pd_file : list string;
  pd_marker : string;
  pd_server : option server_start;
}.

Inductive pod_event :=
  | Stamped (s : failoverStamp)
  | Projected
  | Polled
  | Crashed.

Section Pod.
Context (project : gmap string string → list string) (template : gmap string string).

Definition new_pod : pod_state := mkPodState template (project template) "" None.

Definition pod_step (p : pod_state) (e : pod_event) : pod_state :=
  match e with
  | Stamped s =>
      mkPodState (if already_stamped (pd_annotations p) s then pd_annotations p
                  else stamped_annotations (pd_annotations p) s)
        (pd_file p) (pd_marker p) (pd_server p)
  | Projected => mkPodState (pd_annotations p) (project (pd_annotations p)) (pd_marker p) (pd_server p)
  | Polled =>
      match pd_server p with
      | Some _ => p
      | None =>
          match failover_poll (pd_marker p) (pd_file p) with
          | None => p
          | Some (epoch, how) => mkPodState (pd_annotations p) (pd_file p) epoch (Some how)
          end
      end
  | Crashed => mkPodState (pd_annotations p) (pd_file p) (pd_marker p) None
  end.

(** The pod after the events, the last one first. *)
Definition pod_after : list pod_event → pod_state := foldr (λ e p, pod_step p e) new_pod.

(** The event starts the server of a restarted container as a master. *)
Definition restarts_as_master (p : pod_state) (e : pod_event) : bool :=
  match e, pd_server p, failover_poll (pd_marker p) (pd_file p) with
  | Polled, None, Some (_, AsMaster) => negb (pd_marker p =? "")
  | _, _, _ => false
  end.

Fixpoint master_restarts (evs : list pod_event) : nat :=
  match evs with
  | [] => 0
  | e :: evs' => (if restarts_as_master (pod_after evs') e then 1 else 0) + master_restarts evs'
  end.
End Pod.

(** ** Reading back what was stamped *)

(** The annotations of the assignment channel. *)
Definition channel : list string :=
  [AnnotationAssignedRole; AnnotationAssignedMasterIP; AnnotationAssignmentEpoch;
   AnnotationMasterStartAuthorizedEpoch].

(** The documented format of the projected file. *)
Definition annotation_line (kv : string * string) : string := kv.1 +:+ "=" +:+ Quote kv.2.

Definition downward_format (project : gmap string string → list string) : Prop :=
  ∀ a, project a ≡ₚ annotation_line <$> map_to_list a.

(** A value that needs no escape. *)
Definition plain (v : string) : Prop := quote_bytes v = v.

(** No other annotation is mistaken for one of the channel, and the values of the channel
    need no escape. *)
Record readable (a : gmap string string) : Prop := mkReadable {
  rd_unshadowed : ∀ key k v, key ∈ channel → a !! k = Some v → k ≠ key →
    bre_prefix (key +:+ "=") (annotation_line (k, v)) = false;
  rd_plain : ∀ key v, key ∈ channel → a !! key = Some v → plain v;
}.

Lemma bre_prefix_app pattern s : bre_prefix pattern (pattern +:+ s) = true.
Proof.
  induction pattern as [|c pattern IH]; [done|].
  change (String c pattern +:+ s) with (String c (pattern +:+ s)). simpl.
  by rewrite Ascii.eqb_refl, orb_true_r, IH.
Qed.

Lemma after_equals_app k v : byte_free "="%char k → after_equals (k +:+ "=" +:+ v) = Some v.
Proof.
  induction k as [|c k IH]; [done|]. intros [Hc Hk].
  change (String c k +:+ "=" +:+ v) with (String c (k +:+ "=" +:+ v)). simpl.
  destruct (Ascii.eqb_spec c "="%char); [done|]. by apply IH.
Qed.

Lemma strip_last_quote_app v : strip_last_quote (v +:+ dquote) = v.
Proof.
  induction v as [|c v IH]; [done|].
  change (String c v +:+ dquote) with (String c (v +:+ dquote)).
  assert (∃ d w, v +:+ dquote = String d w) as (d & w & Hd) by (destruct v; by do 2 eexists).
  simpl. rewrite Hd. rewrite Hd in IH. by rewrite IH.
Qed.

Lemma in_channel key :
  key = AnnotationAssignedRole ∨ key = AnnotationAssignedMasterIP ∨ key = AnnotationAssignmentEpoch ∨
  key = AnnotationMasterStartAuthorizedEpoch → key ∈ channel.
Proof. unfold channel. set_solver. Qed.

Lemma channel_no_equals key : key ∈ channel → byte_free "="%char key.
Proof.
  intros Hk. assert (Forall (byte_free "="%char) channel) as Hall by (repeat constructor; done).
  by apply (proj1 (Forall_forall _ _) Hall).
Qed.

Lemma bfilter_all_false {A} (f : A → bool) l : (∀ x, x ∈ l → f x = false) → bfilter f l = [].
Proof.
  induction l as [|x l IH]; [done|]. intros Hf. unfold bfilter. simpl.
  rewrite (Hf x) by set_solver. apply IH. set_solver.
Qed.

(** The lines that match are those of the key. *)
Lemma matching_line project (a : gmap string string) key line :
  downward_format project → readable a → key ∈ channel →
  line ∈ bfilter (bre_prefix (key +:+ "=")) (project a) →
  ∃ v, a !! key = Some v ∧ line = annotation_line (key, v).
Proof.
  intros Hp Hr Hk Hin. apply list_elem_of_In, filter_In in Hin as [Hin Hm].
  apply list_elem_of_In in Hin. rewrite (Hp a) in Hin.
  apply list_elem_of_fmap in Hin as ([k v] & -> & Ha). apply elem_of_map_to_list in Ha.
  destruct (decide (k = key)) as [->|Hne]; [by exists v|].
  by rewrite (rd_unshadowed _ Hr key k v Hk Ha Hne) in Hm.
Qed.

Lemma read_line key v : key ∈ channel → plain v →
  strip_last_quote (strip_first_quote (cut_value (annotation_line (key, v)))) = v.
Proof.
  intros Hk Hv. unfold cut_value, annotation_line, Quote. cbn [fst snd].
  rewrite after_equals_app by (by apply channel_no_equals). cbn [default from_option id].
  cbn [strip_first_quote]. rewrite Hv. apply strip_last_quote_app.
Qed.

Lemma annotation_read project (a : gmap string string) key :
  downward_format project → readable a → key ∈ channel → annotation (project a) key = at_key a key.
Proof.
  intros Hp Hr Hk. unfold annotation.
  destruct (bfilter _ _) as [|line lines] eqn:Hf.
  - unfold at_key. destruct (a !! key) as [v|] eqn:Ha; [|done]. exfalso.
    assert (annotation_line (key, v) ∈ bfilter (bre_prefix (key +:+ "=")) (project a)) as Hin.
    { apply list_elem_of_In, filter_In. split.
      - apply list_elem_of_In. rewrite (Hp a). apply list_elem_of_fmap.
        exists (key, v). split; [done|]. by apply elem_of_map_to_list.
      - unfold annotation_line. cbn [fst snd].
        rewrite <-(string_app_assoc key "=" (Quote v)). apply bre_prefix_app. }
    rewrite Hf in Hin. set_solver.
  - destruct (matching_line project a key line Hp Hr Hk) as (v & Ha & ->); [rewrite Hf; set_solver|].
    unfold at_key. rewrite Ha. apply read_line; [done|]. by eapply rd_plain.
Qed.

(** ** The protocol *)

(** *** Numbers *)

Lemma is_nat_digit c d : Ascii.is_nat c = Some d →
  quote_byte c = String c EmptyString ∧ Ascii.is_space c = false.
Proof. destruct c as [[] [] [] [] [] [] [] []]; vm_compute; intros; done. Qed.

Lemma all_digits_plain s : all_digits s → plain s.
Proof.
  unfold plain. induction s as [|c s IH]; [done|]. intros [Hc Hs]. cbn [quote_bytes].
  destruct (Ascii.is_nat c) as [d|] eqn:Hd; [|done].
  destruct (is_nat_digit c d Hd) as [-> _]. by rewrite IH.
Qed.

Definition epoch_ok (e : Z) : Prop := 0 ≤ e ≤ int64_max.

Lemma rev_app_twice s : ∀ t u, String.rev_app (String.rev_app s t) u = String.rev_app t (s +:+ u).
Proof. induction s as [|c s IH]; [done|]. intros t u. exact (IH (String c t) u). Qed.

Lemma all_digits_rev s : ∀ t, all_digits s → all_digits t → all_digits (String.rev_app s t).
Proof. induction s as [|c s IH]; [done|]. intros t [Hc Hs] Ht. by apply IH. Qed.

Lemma trim_left_digits s : all_digits s → trim_left s = s.
Proof.
  destruct s as [|c s]; [done|]. intros [Hc _]. simpl.
  destruct (Ascii.is_nat c) as [d|] eqn:Hd; [|done]. by destruct (is_nat_digit c d Hd) as [_ ->].
Qed.

Lemma string_app_nil s : s +:+ "" = s.
Proof.
  induction s as [|c s IH]; [done|].
  change (String c s +:+ "") with (String c (s +:+ "")). by rewrite IH.
Qed.

Lemma trim_space_digits s : all_digits s → trim_space s = s.
Proof.
  intros Hs. unfold trim_space, String.rev. rewrite (trim_left_digits s Hs).
  rewrite trim_left_digits by (by apply all_digits_rev). rewrite rev_app_twice.
  apply string_app_nil.
Qed.

Lemma shell_int_itoa e : epoch_ok e → shell_int (itoa e) = Some e.
Proof.
  intros [H0 H1]. unfold shell_int. rewrite trim_space_digits by (by apply all_digits_itoa).
  apply atoi_itoa. unfold in_int64, int64_min in *. lia.
Qed.

Lemma itoa_plain e : epoch_ok e → plain (itoa e).
Proof. intros [? _]. by apply all_digits_plain, all_digits_itoa. Qed.

(** *** Annotations *)

Definition auth_of (a : gmap string string) : option Z := shell_int (at_key a AnnotationMasterStartAuthorizedEpoch).
Definition epoch_of (a : gmap string string) : option Z := shell_int (at_key a AnnotationAssignmentEpoch).

Lemma channel_unshadowed key k v : key ∈ channel → k ∈ channel → k ≠ key →
  bre_prefix (key +:+ "=") (annotation_line (k, v)) = false.
Proof.
  intros Hkey Hk. unfold channel in Hkey, Hk.
  repeat (apply elem_of_cons in Hkey as [->|Hkey]); [..|by apply not_elem_of_nil in Hkey];
    repeat (apply elem_of_cons in Hk as [->|Hk]); try by apply not_elem_of_nil in Hk.
  all: intros Hne; first [by destruct Hne | vm_compute; reflexivity].
Qed.

(** A stamp the operator may write: the assignment of a role with printable values. *)
Record proper_stamp (st : failoverStamp) : Prop := mkProperStamp {
  sp_role : st_role st = RoleMaster ∨ st_role st = RoleReplica;
  sp_plain : plain (st_masterIP st);
  sp_epoch : epoch_ok (st_epoch st);
}.

Lemma readable_insert a k v : k ∈ channel → plain v → readable a → readable (<[k := v]> a).
Proof.
  intros Hk Hv Hr. split.
  - intros key k' v' Hkey Ha Hne. apply lookup_insert_Some in Ha as [[<- <-]|[_ Ha]].
    + by apply channel_unshadowed.
    + by apply (rd_unshadowed _ Hr).
  - intros key v' Hkey Ha. apply lookup_insert_Some in Ha as [[<- <-]|[_ Ha]]; [done|].
    by apply (rd_plain _ Hr key).
Qed.

Lemma readable_stamped a st : proper_stamp st → readable a → readable (stamped_annotations a st).
Proof.
  intros [Hrole Hip He] Hr. unfold stamped_annotations.
  assert (plain (st_role st)) by (by destruct Hrole as [-> | ->]).
  assert (Hb : readable (<[AnnotationAssignmentEpoch:=itoa (st_epoch st)]>
    (<[AnnotationAssignedMasterIP:=st_masterIP st]> (<[AnnotationAssignedRole:=st_role st]> a)))).
  { apply readable_insert; [apply in_channel; auto|by apply itoa_plain|].
    apply readable_insert; [apply in_channel; auto|done|].
    apply readable_insert; [apply in_channel; auto|done|done]. }
  case_match; [|done].
  apply readable_insert; [apply in_channel; auto|by apply itoa_plain|done].
Qed.

Lemma stamped_epoch a st : epoch_ok (st_epoch st) → epoch_of (stamped_annotations a st) = Some (st_epoch st).
Proof.
  intros He. unfold epoch_of, at_key, stamped_annotations.
  case_match; simplify_map_eq; by apply shell_int_itoa.
Qed.

Lemma stamped_auth a st : epoch_ok (st_epoch st) →
  auth_of (stamped_annotations a st) = if st_authorizeMasterStart st then Some (st_epoch st) else auth_of a.
Proof.
  intros He. unfold auth_of, at_key, stamped_annotations.
  case_match; simplify_map_eq; [by apply shell_int_itoa|done].
Qed.

(** What a start rests on. *)
Lemma failover_poll_start startedUnder file epoch how :
  failover_poll startedUnder file = Some (epoch, how) →
  epoch = annotation file AnnotationAssignmentEpoch ∧
  (startedUnder ≠ "" → test_gt epoch startedUnder = true) ∧
  (how = AsMaster → annotation file AnnotationAssignedRole = RoleMaster ∧
     (startedUnder ≠ "" → test_gt (annotation file AnnotationMasterStartAuthorizedEpoch) startedUnder = true)) ∧
  (∀ ip, how = AsReplicaOf ip → ip = annotation file AnnotationAssignedMasterIP).
Proof.
  unfold failover_poll. cbv zeta.
  generalize (annotation file AnnotationAssignedRole) as role.
  generalize (annotation file AnnotationAssignedMasterIP) as ip.
  generalize (annotation file AnnotationAssignmentEpoch) as e.
  generalize (annotation file AnnotationMasterStartAuthorizedEpoch) as auth.
  intros auth e ip role.
  destruct ((role =? "") || (e =? "")); [done|].
  destruct ((role =? RoleReplica) && (ip =? "")); [done|].
  destruct (String.eqb_spec startedUnder "") as [->|Hs]; cbn [negb andb].
  { rewrite andb_false_r. cbn [andb].
    destruct (String.eqb_spec role RoleMaster) as [->|]; intros [= <- <-]; naive_solver. }
  destruct (test_gt e startedUnder) eqn:He; cbn [negb]; [|done]. rewrite andb_true_r.
  destruct (String.eqb_spec role RoleMaster) as [->|]; cbn [andb].
  - destruct (auth =? ""); cbn [orb]; [done|]. destruct (test_gt auth startedUnder) eqn:Ha; cbn [negb]; [|done].
    intros [= <- <-]. naive_solver.
  - intros [= <- <-]. naive_solver.
Qed.

(** *** The life of a pod *)

Definition stamp_of (e : pod_event) : option failoverStamp :=
  match e with Stamped st => Some st | _ => None end.
Definition stamps (evs : list pod_event) : list failoverStamp := omap stamp_of evs.

(** The epochs of the assignments and of the permissions stamped, the last one first. *)
Definition epochs (evs : list pod_event) : list Z := st_epoch <$> stamps evs.
Definition permissions (evs : list pod_event) : list Z :=
  st_epoch <$> bfilter st_authorizeMasterStart (stamps evs).

(** Epochs do not go back. *)
Definition forward (evs : list pod_event) : Prop := StronglySorted Z.ge (epochs evs).

Definition up_to (m : Z) (l : list Z) : nat := length (bfilter (λ x, x <=? m) l).

Lemma up_to_cons m x l : up_to m (x :: l) = ((if (x <=? m)%Z then 1 else 0) + up_to m l)%nat.
Proof. unfold up_to, bfilter. simpl. by destruct (x <=? m). Qed.

Lemma up_to_mono m m' l : m ≤ m' → (up_to m l ≤ up_to m' l)%nat.
Proof.
  intros Hm. induction l as [|x l IH]; [done|]. rewrite !up_to_cons.
  destruct (Z.leb_spec x m), (Z.leb_spec x m'); lia.
Qed.

(** A permission between two markers. *)
Lemma up_to_lt m m' a l : a ∈ l → m < a ≤ m' → (up_to m l < up_to m' l)%nat.
Proof.
  intros Ha Hm. induction l as [|x l IH]; [by apply not_elem_of_nil in Ha|]. rewrite !up_to_cons.
  pose proof (up_to_mono m m' l ltac:(lia)).
  apply elem_of_cons in Ha as [->|Ha]; [|specialize (IH Ha)];
    destruct (Z.leb_spec x m), (Z.leb_spec x m'); lia.
Qed.

Lemma up_to_length m l : (up_to m l ≤ length l)%nat.
Proof. induction l as [|x l IH]; [done|]. rewrite up_to_cons. simpl. destruct (x <=? m); lia. Qed.

Section Life.
Context (project : gmap string string → list string) (template : gmap string string).
Context (Hproject : downward_format project).

(** The template of the pods has no assignment of its own. *)
Definition unassigned : Prop := readable template ∧ ∀ key, key ∈ channel → template !! key = None.

(** A version of the annotations, after the events. *)
Record version_of (evs : list pod_event) (a : gmap string string) : Prop := mkVersionOf {
  vo_readable : readable a;
  vo_epoch : at_key a AnnotationAssignmentEpoch = "" ∨
    ∃ e, e ∈ epochs evs ∧ epoch_ok e ∧ at_key a AnnotationAssignmentEpoch = itoa e;
  vo_auth : at_key a AnnotationMasterStartAuthorizedEpoch = "" ∨
    ∃ x, x ∈ permissions evs ∧ epoch_ok x ∧ at_key a AnnotationMasterStartAuthorizedEpoch = itoa x;
  vo_order : forward evs → ∀ x, auth_of a = Some x → ∃ e, epoch_of a = Some e ∧ x ≤ e;
}.

Lemma version_mono evs ev a : (forward (ev :: evs) → forward evs) →
  version_of evs a → version_of (ev :: evs) a.
Proof.
  intros Hf [Hr He Ha Ho]. split; [done| | |by auto].
  - destruct He as [?|(e & He & ?)]; [by left|right]. exists e. split; [|done].
    unfold epochs, stamps in *. simpl. destruct (stamp_of ev); [by right|done].
  - destruct Ha as [?|(x & Hx & ?)]; [by left|right]. exists x. split; [|done].
    unfold permissions, stamps in *. simpl. destruct (stamp_of ev); [|done].
    unfold bfilter. simpl. destruct (st_authorizeMasterStart _); [by right|done].
Qed.

Lemma forward_cons ev evs : forward (ev :: evs) → forward evs.
Proof.
  unfold forward, epochs, stamps. simpl. destruct (stamp_of ev); [|done].
  by intros [? _]%StronglySorted_inv.
Qed.

Lemma auth_of_itoa a x : epoch_ok x → at_key a AnnotationMasterStartAuthorizedEpoch = itoa x → auth_of a = Some x.
Proof. intros Hx Ha. unfold auth_of. rewrite Ha. by apply shell_int_itoa. Qed.

Lemma epoch_of_itoa a e : epoch_ok e → at_key a AnnotationAssignmentEpoch = itoa e → epoch_of a = Some e.
Proof. intros He Ha. unfold epoch_of. rewrite Ha. by apply shell_int_itoa. Qed.

Lemma version_stamped evs a st : proper_stamp st → version_of evs a →
  version_of (Stamped st :: evs) (stamped_annotations a st).
Proof.
  intros Hst Hv. pose proof (sp_epoch _ Hst) as He.
  pose proof (version_mono evs (Stamped st) a (forward_cons _ _) Hv) as [_ _ Ha' _].
  destruct Hv as [Hr Hep Ha Ho]. split.
  - by apply readable_stamped.
  - right. exists (st_epoch st). split; [left|]. split; [done|].
    unfold at_key, stamped_annotations. by case_match; simplify_map_eq.
  - unfold at_key in *. destruct (st_authorizeMasterStart st) eqn:E; unfold stamped_annotations; rewrite E; simplify_map_eq.
    + right. exists (st_epoch st). split; [|done]. unfold permissions, stamps, bfilter. simpl. rewrite E. left.
    + exact Ha'.
  - intros Hf x. rewrite stamped_auth, stamped_epoch by done. intros Hx. exists (st_epoch st). split; [done|].
    destruct (st_authorizeMasterStart st); [simplify_eq; lia|].
    destruct (Ho (forward_cons _ _ Hf) x Hx) as (e & Hee & ?).
    apply StronglySorted_inv in Hf as [_ Hall]. destruct Hep as [Hz|(e' & Hin & Hok & Hz)].
    { unfold epoch_of in Hee. by rewrite Hz in Hee. }
    rewrite (epoch_of_itoa a e' Hok Hz) in Hee. simplify_eq.
    specialize (proj1 (Forall_forall _ _) Hall e Hin). lia.
Qed.

(** The file is a version of the annotations, the marker an epoch one of them had, and the
    starts of a master so far are paid for by permissions up to the marker. *)
Record life_inv (evs : list pod_event) (p : pod_state) : Prop := mkLifeInv {
  li_annotations : version_of evs (pd_annotations p);
  li_file : ∃ a, pd_file p = project a ∧ version_of evs a;
  li_marker : (pd_marker p = "" ∧ master_restarts project template evs = 0%nat) ∨
    ∃ m, epoch_ok m ∧ pd_marker p = itoa m ∧
      (forward evs → (master_restarts project template evs ≤ up_to m (permissions evs))%nat);
}.

(** What a start of the server reads. *)
Lemma start_reads evs p epoch how :
  (∃ a, pd_file p = project a ∧ version_of evs a) →
  failover_poll (pd_marker p) (pd_file p) = Some (epoch, how) →
  ∃ e, epoch_ok e ∧ epoch = itoa e ∧
    (∀ m, epoch_ok m → pd_marker p = itoa m → m < e ∧
       (how = AsMaster → ∃ x, x ∈ permissions evs ∧ m < x ∧ (forward evs → x ≤ e))).
Proof.
  intros (a & Hf & [Hr Hep Ha Ho]) Hp. pose proof Hp as (He & Hgt & Hm & _)%failover_poll_start.
  rewrite Hf, (annotation_read project) in He by (done || (apply in_channel; auto)).
  destruct Hep as [Hz|(e & _ & Hok & Hz)].
  { unfold failover_poll in Hp. rewrite Hf, !(annotation_read project), Hz in Hp by (done || (apply in_channel; auto)).
    by rewrite orb_true_r in Hp. }
  rewrite Hz in He. exists e. split; [done|]. split; [done|]. intros m Hmok Hmk.
  assert (Hne : pd_marker p ≠ "").
  { rewrite Hmk. apply String.eqb_neq. destruct Hmok. rewrite itoa_nonneg by done. apply String.eqb_neq, pretty_N_ne_empty. }
  assert (Hlt : ∀ s y, test_gt s (itoa m) = true → shell_int s = Some y → m < y).
  { intros s y Ht Hs. unfold test_gt in Ht. rewrite Hs, (shell_int_itoa m Hmok) in Ht. by apply Z.ltb_lt. }
  specialize (Hgt Hne). rewrite He, Hmk in Hgt. split; [eapply Hlt; [exact Hgt|by apply shell_int_itoa]|].
  intros ->. destruct (Hm eq_refl) as [_ Hau]. specialize (Hau Hne).
  rewrite Hf, (annotation_read project), Hmk in Hau by (done || (apply in_channel; auto)).
  destruct Ha as [Hz'|(x & Hx & Hxok & Hz')]; [by rewrite Hz' in Hau|]. exists x. split; [done|].
  split; [eapply Hlt; [exact Hau|rewrite Hz'; by apply shell_int_itoa]|].
  intros Hfw. destruct (Ho Hfw x (auth_of_itoa _ _ Hxok Hz')) as (e' & Hee & ?).
  rewrite (epoch_of_itoa a e Hok Hz) in Hee. by simplify_eq.
Qed.

(** An event that starts nothing. *)
Lemma life_quiet evs p ev : pd_marker (pod_step project p ev) = pd_marker p →
  restarts_as_master (pod_after project template evs) ev = false →
  (∀ x, x ∈ permissions evs → x ∈ permissions (ev :: evs)) →
  (∀ m, (up_to m (permissions evs) ≤ up_to m (permissions (ev :: evs)))%nat) →
  version_of (ev :: evs) (pd_annotations (pod_step project p ev)) →
  (∃ a, pd_file (pod_step project p ev) = project a ∧ version_of (ev :: evs) a) →
  life_inv evs p → life_inv (ev :: evs) (pod_step project p ev).
Proof.
  intros Hm Hq Hin Hup Ha Hf [_ _ Hmk]. split; [done|done|]. rewrite Hm. cbn [master_restarts]. rewrite Hq. simpl.
  destruct Hmk as [?|(m & Hok & Hmm & Hle)]; [by left|right]. exists m. split; [done|]. split; [done|].
  intros Hfw. specialize (Hup m). specialize (Hle (forward_cons _ _ Hfw)). lia.
Qed.

Lemma permissions_cons ev evs :
  (∀ x, x ∈ permissions evs → x ∈ permissions (ev :: evs)) ∧
  (∀ m, (up_to m (permissions evs) ≤ up_to m (permissions (ev :: evs)))%nat).
Proof.
  unfold permissions, stamps, bfilter. simpl. destruct (stamp_of ev) as [st|]; [|done]. simpl.
  destruct (st_authorizeMasterStart st); [|done]. split; [by right|]. intros m. simpl. rewrite up_to_cons. apply Nat.le_add_l.
Qed.

Lemma life_polled evs : life_inv evs (pod_after project template evs) →
  life_inv (Polled :: evs) (pod_after project template (Polled :: evs)).
Proof.
  set (p := pod_after project template evs). intros [Ha Hf Hmk]. cbn [pod_after foldr]. fold p.
  assert (Ha' : version_of (Polled :: evs) (pd_annotations p)) by (apply version_mono; [apply forward_cons|done]).
  assert (Hf' : ∃ a, pd_file p = project a ∧ version_of (Polled :: evs) a).
  { destruct Hf as (a & ? & ?). exists a. split; [done|]. apply version_mono; [apply forward_cons|done]. }
  cbn [pod_step]. destruct (pd_server p) as [sv|] eqn:Hs; [|destruct (failover_poll _ _) as [[epoch how]|] eqn:Hp].
  - split; [done|done|]. cbn [master_restarts]. unfold restarts_as_master. fold p. rewrite Hs. exact Hmk.
  - split; [done|done|]. right. cbn [pd_marker master_restarts]. unfold restarts_as_master. fold p. rewrite Hs, Hp.
    destruct (start_reads evs p epoch how Hf Hp) as (e & Hok & -> & Hst). exists e. split; [done|]. split; [done|].
    intros Hfw. change (permissions (Polled :: evs)) with (permissions evs).
    destruct Hmk as [[-> ->]|(m & Hmok & Hmm & Hle)]; [destruct how; simpl; lia|].
    destruct (Hst m Hmok Hmm) as [Hlt Hperm]. specialize (Hle (forward_cons _ _ Hfw)).
    pose proof (up_to_mono m e (permissions evs) ltac:(lia)). destruct how; [|simpl; lia].
    destruct (Hperm eq_refl) as (x & Hx & Hmx & Hxe). specialize (Hxe (forward_cons _ _ Hfw)).
    pose proof (up_to_lt m e x (permissions evs) Hx ltac:(lia)). destruct (negb _); simpl; lia.
  - split; [done|done|]. cbn [master_restarts]. unfold restarts_as_master. fold p. rewrite Hs, Hp. exact Hmk.
Qed.

Lemma life evs : unassigned → Forall proper_stamp (stamps evs) → life_inv evs (pod_after project template evs).
Proof.
  intros [Hr Hk]. assert (Hnew : version_of [] template).
  { split; [done|left|left|intros _ x]; unfold auth_of, at_key; rewrite Hk by (apply in_channel; auto); done. }
  induction evs as [|ev evs IH]; intros Hst.
  { split; [done|by exists template|by left]. }
  destruct (permissions_cons ev evs) as [Hin Hup].
  assert (Hevs : Forall proper_stamp (stamps evs)).
  { unfold stamps in *. simpl in Hst. destruct (stamp_of ev); [by apply Forall_cons in Hst as [_ ?]|done]. }
  specialize (IH Hevs). destruct ev as [st| | |]; [| |by apply life_polled|]; pose proof IH as [Ha (a & Hf & Hv) _];
    apply life_quiet; try done; cbn [pod_step pd_annotations pd_file];
    try (by apply version_mono; [apply forward_cons|]);
    try (exists a; split; [done|]; by apply version_mono; [apply forward_cons|]).
  - destruct (already_stamped _ _); [apply version_mono; [apply forward_cons|done]|].
    apply version_stamped; [|done]. by apply Forall_cons in Hst as [? _].
  - eexists. split; [done|]. by apply version_mono; [apply forward_cons|].
Qed.
End Life.

(** ** Theorems *)

(** What the script reads of a stamp. *)
Lemma read_stamp project a st :
  downward_format project → readable a → proper_stamp st →
  let file := project (stamped_annotations a st) in
  annotation file AnnotationAssignedRole = st_role st ∧
  annotation file AnnotationAssignedMasterIP = st_masterIP st ∧
  annotation file AnnotationAssignmentEpoch = itoa (st_epoch st) ∧
  annotation file AnnotationMasterStartAuthorizedEpoch =
    if st_authorizeMasterStart st then itoa (st_epoch st) else at_key a AnnotationMasterStartAuthorizedEpoch.
Proof.
  intros Hp Hr Hst. cbv zeta. pose proof (readable_stamped a st Hst Hr) as Hr'.
  rewrite !(annotation_read project) by (done || (apply in_channel; auto)).
  unfold at_key, stamped_annotations. case_match; simplify_map_eq; done.
Qed.

(** C20. The channel between the operator and a pod is faithful.  Whatever other annotations
    the pod has, as long as none is mistaken for one of the channel, the role, the address of
    the master, the epoch and the permission that [stampFailoverPod] writes are the ones the
    startup script reads back from the projected file with grep, cut and sed. *)
Theorem annotation_roundtrip project a st :
  downward_format project → readable a → proper_stamp st →
  let file := project (stamped_annotations a st) in
  annotation file AnnotationAssignedRole = st_role st ∧
  annotation file AnnotationAssignedMasterIP = st_masterIP st ∧
  annotation file AnnotationAssignmentEpoch = itoa (st_epoch st) ∧
  annotation file AnnotationMasterStartAuthorizedEpoch =
    if st_authorizeMasterStart st then itoa (st_epoch st) else at_key a AnnotationMasterStartAuthorizedEpoch.
Proof. apply read_stamp. Qed.

Definition start_of (st : failoverStamp) : server_start :=
  if st_role st =? RoleMaster then AsMaster else AsReplicaOf (st_masterIP st).

Lemma test_gt_itoa s m : epoch_ok m →
  test_gt s (itoa m) = match shell_int s with Some x => (m <? x)%Z | None => false end.
Proof. intros Hm. unfold test_gt. rewrite (shell_int_itoa m Hm). by destruct (shell_int s). Qed.

Lemma itoa_ne_empty e : epoch_ok e → (itoa e =? "") = false.
Proof.
  intros [? _]. apply String.eqb_neq. rewrite itoa_nonneg by done. apply pretty_N_ne_empty.
Qed.

(** C21. The start gate.  A fresh pod starts as it is told in the next round.  A restarted one,
    whose marker has epoch [m], starts as a replica exactly if the assignment is newer than
    [m], and as a master exactly if the permission to start as a master is newer as well;
    otherwise it keeps waiting. *)
Theorem start_gate_spec project a st m :
  downward_format project → readable a → proper_stamp st → epoch_ok m →
  (st_role st = RoleReplica → st_masterIP st ≠ "") →
  let file := project (stamped_annotations a st) in
  let permitted := match auth_of (stamped_annotations a st) with Some x => (m <? x)%Z | None => false end in
  failover_poll "" file = Some (itoa (st_epoch st), start_of st) ∧
  failover_poll (itoa m) file =
    if (m <? st_epoch st)%Z && ((st_role st =? RoleReplica) || permitted)
    then Some (itoa (st_epoch st), start_of st) else None.
Proof.
  intros Hp Hr Hst Hm Hip. cbv zeta. pose proof (sp_epoch _ Hst) as He.
  destruct (read_stamp project a st Hp Hr Hst) as (Ero & Eip & Eep & Eau).
  rewrite (stamped_auth a st He). unfold failover_poll, start_of. cbv zeta.
  rewrite Ero, Eip, Eep, Eau, (itoa_ne_empty _ He), (itoa_ne_empty _ Hm), !(test_gt_itoa _ m Hm).
  rewrite (shell_int_itoa _ He), orb_false_r. cbn [negb andb].
  destruct (sp_role _ Hst) as [E|E]; rewrite E; cbn [String.eqb].
  - change (RoleMaster =? "") with false. change (RoleMaster =? RoleReplica) with false.
    change (RoleMaster =? RoleMaster) with true. cbn [andb orb negb]. split; [done|].
    destruct (m <? st_epoch st)%Z eqn:Hlt; cbn [negb andb]; [|done].
    destruct (st_authorizeMasterStart st).
    + by rewrite (shell_int_itoa _ He), (itoa_ne_empty _ He), Hlt.
    + fold (auth_of a). destruct (String.eqb_spec (at_key a AnnotationMasterStartAuthorizedEpoch) "") as [Hz|];
        cbn [orb]; [by unfold auth_of; rewrite Hz|]. by destruct (auth_of a) as [x|]; [destruct (m <? x)%Z|].
  - change (RoleReplica =? "") with false. change (RoleReplica =? RoleReplica) with true.
    change (RoleReplica =? RoleMaster) with false. cbn [andb orb].
    rewrite (proj2 (String.eqb_neq _ _) (Hip E)). split; [done|]. by destruct (m <? st_epoch st)%Z.
Qed.

(** C9. A restarted container needs a permission of its own for every start as a master.
    The operator may stamp the pod at any time, running server or not, the file may lag
    behind the annotations, and the container may crash at any time; a round of the script
    reads one version of the file.  A restarted container then starts as a master only under
    an assignment newer than the one its last server started under, and only if a permission
    newer than that was stamped at some time in the life of the pod.  As long as the epochs
    stamped on the pod do not go back, no permission is used twice: in the life of a pod,
    restarted containers have started as masters at most as often as permissions were stamped. *)
Theorem master_restarts_permitted project template evs :
  downward_format project → unassigned template → Forall proper_stamp (stamps evs) →
  let p := pod_after project template evs in
  (∀ epoch, restarts_as_master p Polled = true →
     failover_poll (pd_marker p) (pd_file p) = Some (epoch, AsMaster) →
     ∃ m e x, pd_marker p = itoa m ∧ epoch = itoa e ∧ m < e ∧ x ∈ permissions evs ∧ m < x) ∧
  (forward evs → (master_restarts project template evs ≤ length (permissions evs))%nat).
Proof.
  intros Hp Hu Hst p. destruct (life project template Hp evs Hu Hst) as [_ Hf Hmk]. fold p in Hf, Hmk. split.
  - intros epoch Hre Hpoll. unfold restarts_as_master in Hre. rewrite Hpoll in Hre.
    destruct (pd_server p); [done|]. destruct Hmk as [[Hz _]|(m & Hok & Hm & _)]; [by rewrite Hz in Hre|].
    destruct (start_reads project Hp evs p epoch AsMaster Hf Hpoll) as (e & _ & -> & Hs).
    destruct (Hs m Hok Hm) as (Hlt & x & Hx & Hmx & _); [done|]. by exists m, e, x.
  - intros Hfw. destruct Hmk as [[_ ->]|(m & _ & _ & Hle)]; [lia|].
    specialize (Hle Hfw). pose proof (up_to_length m (permissions evs)). lia.
Qed.

(** ** Stale permissions *)

Definition list_projection (a : gmap string string) : list string := annotation_line <$> map_to_list a.

Lemma list_projection_format : downward_format list_projection.
Proof. intros a. reflexivity. Qed.

(** What the script reads of annotations that carry a stamp. *)
Lemma failover_poll_stamped project a st m :
  downward_format project → readable a → already_stamped a st = true → st_role st = RoleMaster →
  epoch_ok (st_epoch st) → epoch_ok m → m < st_epoch st →
  (∃ x, auth_of a = Some x ∧ m < x) →
  failover_poll (itoa m) (project a) = Some (itoa (st_epoch st), AsMaster).
Proof.
  intros Hp Hr Ha Hrole He Hm Hlt (x & Hx & Hmx). unfold already_stamped in Ha. bool_hyps.
  unfold failover_poll. cbv zeta. rewrite !(annotation_read project) by (done || (apply in_channel; auto)).
  repeat match goal with H : at_key a _ = _ |- _ => rewrite H end.
  rewrite Hrole, (itoa_ne_empty _ He), (itoa_ne_empty _ Hm), !(test_gt_itoa _ m Hm), (shell_int_itoa _ He).
  unfold auth_of in Hx. rewrite Hx, !(proj2 (Z.ltb_lt _ _)) by done.
  change (RoleMaster =? "") with false. change (RoleMaster =? RoleReplica) with false.
  change (RoleMaster =? RoleMaster) with true. cbn [andb orb negb].
  destruct (String.eqb_spec (at_key a AnnotationMasterStartAuthorizedEpoch) "") as [Hz|]; [by rewrite Hz in Hx|done].
Qed.

Lemma failover_later project m e later : downward_format project → epoch_ok e → epoch_ok m → m < e → ∀ a st,
  readable a → already_stamped a st = true → st_role st = RoleMaster → epoch_ok (st_epoch st) → m < st_epoch st →
  at_key a AnnotationMasterStartAuthorizedEpoch = itoa e →
  (∀ st', st' ∈ later → proper_stamp st' ∧ st_role st' = RoleMaster ∧
     st_authorizeMasterStart st' = false ∧ m < st_epoch st') →
  ∃ epoch, failover_poll (itoa m) (project (foldl stamped_annotations a later)) = Some (epoch, AsMaster).
Proof.
  intros Hp He Hm Hlt. induction later as [|st' later IH]; intros a st Hr Ha Hrole Hs Hms Hauth Hlater.
  - eexists. apply failover_poll_stamped; try done. exists e. split; [|done]. by apply auth_of_itoa.
  - destruct (Hlater st' (list_elem_of_here _ _)) as (Hst & Hro & Hna & Hlt'). cbn [foldl].
    apply (IH _ st'); try done.
    + by apply readable_stamped.
    + apply stamped_already.
    + apply Hst.
    + unfold at_key, stamped_annotations in *. rewrite Hna. by rewrite !lookup_insert_ne by done.
    + intros st'' Hin. apply Hlater. by right.
Qed.

Section Seeding.
Context `{GoRuntime} {Srv} `{ApiServer Srv} (retries : nat).

(** C40. A permission can predate the death it is used for.  Whenever the plan is to seed an
    instance without keys and the stamps succeed, the seeded pod carries the permission to
    start as a master at the new epoch, whatever its container does: the plan and the stamps
    do not ask whether its server runs.  The server of the pod, if it runs, was started under
    some epoch [m] that is not newer than the recorded ones.  When the container is killed
    later, with whatever it holds by then, the script of the new container finds its marker
    [m] older than the permission and starts an empty master, also after any number of later
    assignments of mastership ([later]) that carry no permission of their own. *)
Theorem seeded_replica_returns_empty (project : gmap string string → list string) (lr lr' : LittleRed)
  (state : ReplicationState) (pods : list Pod) (plan : failoverPlan) (password : string) (s s' : Srv) :
  let intent := resolveFailoverIntent (buildFailoverPodViews pods None) in
  downward_format project → undisturbed Srv → listing s pods → distinct_addresses pods →
  (∀ p, p ∈ pods → pod_Name p ≠ "") → fi_maxEpoch intent < int64_max →
  fp_action plan = failoverSeed → is_Some (redis_map pods !! fp_masterIP plan) →
  exec s (executeFailoverPlan retries lr state pods intent plan password) s' (Some (lr', None)) →
  ∃ q q', q ∈ pods ∧ pod_IP q = fp_masterIP plan ∧ stored s' !! pod_Name q = Some q' ∧
    at_key (pod_Annotations q') AnnotationMasterStartAuthorizedEpoch = itoa (fi_maxEpoch intent + 1) ∧
    (readable (pod_Annotations q') → ∀ m (later : list failoverStamp), 0 ≤ m ≤ fi_maxEpoch intent →
       (∀ st, st ∈ later → proper_stamp st ∧ st_role st = RoleMaster ∧
          st_authorizeMasterStart st = false ∧ fi_maxEpoch intent < st_epoch st) →
       ∃ epoch, failover_poll (itoa m) (project (foldl stamped_annotations (pod_Annotations q') later)) =
                Some (epoch, AsMaster)).
Proof.
  intros intent Hp calm Hl Hd Hnames Hov Hseed Hlive Hx. apply (exec_executeFailoverPlan _ calm) in Hx.
  unfold failover_elects in Hx. rewrite Hseed in Hx. destruct Hx as [_ Hall].
  specialize (Hall _ eq_refl (listing_nodup _ _ Hl)).
  destruct (elected_pod _ _ Hlive Hd) as (q & Hq & Hip & Hne & Ht & Hname).
  pose proof (in_nonneg _ _ (intended_pods pods Hnames)) as Hnn. fold intent in Hnn.
  set (st := mkFailoverStamp (pod_Name q) RoleMaster "" (fi_maxEpoch intent + 1) true).
  assert (Hst : plan_stamp pods intent plan q = Some st).
  { unfold plan_stamp, assignment_stamp. rewrite Ht, Hname, String.eqb_refl, Hip, (proj2 (String.eqb_neq _ _) Hne), Hseed.
    rewrite wrap64_id; [done|]. unfold in_int64, int64_min. apply andb_true_iff. rewrite !Z.leb_le. lia. }
  destruct (Hall q st Hq Hst) as (q' & Hq' & Ha). exists q, q'. split; [done|]. split; [done|]. split; [done|].
  assert (Hauth : at_key (pod_Annotations q') AnnotationMasterStartAuthorizedEpoch = itoa (fi_maxEpoch intent + 1)).
  { unfold already_stamped in Ha. simpl in Ha. by bool_hyps. }
  split; [done|]. intros Hr m later Hm Hlater.
  apply (failover_later project m (fi_maxEpoch intent + 1) later Hp) with st; unfold epoch_ok; simpl; try done; try lia.
  intros st' Hin. destruct (Hlater st' Hin) as (? & ? & ? & ?). split_and!; try done. lia.
Qed.

End Seeding.

(** Even a permission that is stamped only while no server runs can outlive a later server,
    because the script may start from an older projection of the annotations: the container
    starts as a replica although the permission is already recorded, and when that server
    dies the permission starts an empty master. *)
Definition replica_stamp (epoch : Z) : failoverStamp := mkFailoverStamp "lr-redis-1" RoleReplica "10.0.0.1" epoch false.
Definition permission (epoch : Z) : failoverStamp := mkFailoverStamp "lr-redis-1" RoleMaster "" epoch true.

Definition lagging_start : list pod_event :=
  [Stamped (replica_stamp 3); Projected; Polled; Crashed; Stamped (replica_stamp 4); Projected;
   Stamped (permission 5); Polled].

Lemma lagging_permission_reused :
  let life evs := pd_server (pod_after list_projection ∅ (rev evs)) in
  life (take 6 lagging_start) = None ∧
  life lagging_start = Some (AsReplicaOf "10.0.0.1") ∧
  life (lagging_start ++ [Projected; Crashed; Polled]) = Some AsMaster.
Proof. split_and!; vm_compute; reflexivity. Qed.

(** *** Witnesses *)

(** An instance without keys: the master is going away, the replicas run and answer. *)
Definition empty_info : list (string * string) :=
  [("role", "slave"); ("master_host", "10.0.0.1"); ("master_link_status", "down");
   ("slave_repl_offset", "0"); ("master_replid", "8f3a"); ("master_replid2", "0000");
   ("master_repl_offset", "0")].

Definition empty_wire : Wire :=
  let fail {A} : result A := inr (plain_error "connection refused") in
  mkWire (λ addr, if addr =? "10.0.0.1:6379" then fail else inl (render_info empty_info))
    (λ _ _, fail) (λ _, fail) (λ _ _, fail) (λ _, fail) (λ _, fail) (λ _, fail).

Definition empty_instance : Memory :=
  mkMemory (mem_pods sample_cluster) sample_lr (sample_sts 3 3) empty_wire (100 * second) ∅ [].

Definition empty_pods : list Pod := sample_listing empty_instance.
Definition empty_state : ReplicationState := @gathered_state ref_runtime empty_wire empty_pods.
Definition empty_intent : failoverIntent := resolveFailoverIntent (buildFailoverPodViews empty_pods None).

Definition seed_plan : failoverPlan :=
  @planFailover ref_runtime empty_state (determineFailoverLiveMaster empty_state (fi_masterIP empty_intent)) false
    (@pickBootstrapMasterIP ref_runtime "lr" (redis_map empty_pods)) false None (100 * second) failoverTransitionCooldown.

Definition seed_pass : prog (LittleRed * option error) :=
  @executeFailoverPlan ref_runtime 4 sample_lr empty_state empty_pods empty_intent seed_plan "".

Definition team_annotations : gmap string string := {[ "team" := "db" ]}.

Lemma readable_checked a :
  Forall (λ key, map_Forall (λ k v, (if k =? key then quote_bytes v =? v
                   else negb (bre_prefix (key +:+ "=") (annotation_line (k, v)))) = true) a) channel → readable a.
Proof.
  intros Hall. split.
  - intros key k v Hkey Ha Hne. specialize (proj1 (Forall_forall _ _) Hall key Hkey k v Ha). simpl.
    rewrite (proj2 (String.eqb_neq _ _) Hne). apply negb_true_iff.
  - intros key v Hkey Ha. specialize (proj1 (Forall_forall _ _) Hall key Hkey key v Ha). simpl.
    rewrite String.eqb_refl. apply String.eqb_eq.
Qed.

Lemma team_readable : readable team_annotations.
Proof. apply readable_checked. decide_true. Qed.

Lemma permission_proper e : epoch_ok e → proper_stamp (permission e).
Proof. intros He. split; [by left|done|done]. Qed.

Lemma replica_proper e : epoch_ok e → proper_stamp (replica_stamp e).
Proof. intros He. split; [by right|done|done]. Qed.

Lemma annotation_roundtrip_witness :
  annotation (list_projection (stamped_annotations team_annotations (permission 5)))
    AnnotationMasterStartAuthorizedEpoch = "5".
Proof.
  refine (proj2 (proj2 (proj2 (annotation_roundtrip list_projection team_annotations (permission 5)
    list_projection_format team_readable (permission_proper 5 _))))).
  split; vm_compute; discriminate.
Defined.

Lemma start_gate_spec_witness :
  failover_poll "3" (list_projection (stamped_annotations team_annotations (permission 5))) = Some ("5", AsMaster).
Proof.
  refine (proj2 (start_gate_spec list_projection team_annotations (permission 5) 3
    list_projection_format team_readable (permission_proper 5 _) _ _)).
  - split; vm_compute; discriminate.
  - split; vm_compute; discriminate.
  - discriminate.
Defined.

Lemma seeded_readable q' :
  mem_stored (mem_run empty_instance seed_pass).2 !! "lr-redis-1" = Some q' → readable (pod_Annotations q').
Proof.
  intros Hq'. apply readable_checked. revert q' Hq'.
  assert (from_option (λ q', bool_decide (Forall (λ key, map_Forall (λ k v, (if k =? key then quote_bytes v =? v
            else negb (bre_prefix (key +:+ "=") (annotation_line (k, v)))) = true) (pod_Annotations q')) channel)) true
    (mem_stored (mem_run empty_instance seed_pass).2 !! "lr-redis-1") = true) as Hb by (vm_compute; reflexivity).
  intros q' Hq'. rewrite Hq' in Hb. exact (bool_decide_eq_true_1 _ Hb).
Qed.

(** The server of the seeded pod runs and answers when it is given the permission; two
    assignments later its container is killed. *)
Lemma seeded_replica_returns_empty_witness :
  seed_plan = mkFailoverPlan failoverSeed "10.0.0.2" false false 0 [] ∧
  rn_Reachable <$> rs_RedisNodes empty_state !! "10.0.0.2" = Some true ∧
  ∃ q', mem_stored (mem_run empty_instance seed_pass).2 !! "lr-redis-1" = Some q' ∧
    ∃ epoch, failover_poll "3" (list_projection (stamped_annotations (pod_Annotations q')
      (mkFailoverStamp "lr-redis-1" RoleMaster "" 5 false))) = Some (epoch, AsMaster).
Proof.
  split; [vm_compute; reflexivity|]. split; [vm_compute; reflexivity|].
  destruct (@seeded_replica_returns_empty ref_runtime Memory mem_server 4 list_projection sample_lr
    (mem_run empty_instance seed_pass).1.1 empty_state empty_pods seed_plan ""
    empty_instance (mem_run empty_instance seed_pass).2) as (q & q' & Hq & Hip & Hst & _ & Hlater).
  - exact list_projection_format.
  - exact mem_undisturbed.
  - exact (Permutation_refl _).
  - apply distinct_addresses_nodup. decide_true.
  - apply Forall_forall. decide_true.
  - vm_compute. reflexivity.
  - vm_compute. reflexivity.
  - eexists. vm_compute. reflexivity.
  - assert (Some (mem_run empty_instance seed_pass).1 =
            Some ((mem_run empty_instance seed_pass).1.1, None)) as <- by (vm_compute; reflexivity).
    apply mem_run_exec.
  - assert (Hname : pod_Name q = "lr-redis-1").
    { assert (Forall (λ q, pod_IP q = fp_masterIP seed_plan → pod_Name q = "lr-redis-1") empty_pods) as Hall
        by decide_true.
      exact (proj1 (Forall_forall _ _) Hall q Hq Hip). }
    change (mem_stored (mem_run empty_instance seed_pass).2 !! pod_Name q = Some q') in Hst.
    rewrite Hname in Hst. exists q'. split; [exact Hst|].
    apply (Hlater) with (m := 3) (later := [mkFailoverStamp "lr-redis-1" RoleMaster "" 5 false]).
    + exact (seeded_readable q' Hst).
    + vm_compute. split; discriminate.
    + intros st ->%list_elem_of_singleton. split_and!; [|reflexivity..].
      split; [by left|reflexivity|split; vm_compute; discriminate].
Defined.

(** A pod that crashed as a replica and was given the permission. *)
Definition permitted_events : list pod_event :=
  [Stamped (replica_stamp 3); Projected; Polled; Crashed; Stamped (permission 4); Projected].

Lemma master_restarts_permitted_witness :
  pd_marker (pod_after list_projection team_annotations (rev permitted_events)) = "3" ∧
  restarts_as_master (pod_after list_projection team_annotations (rev permitted_events)) Polled = true ∧
  (∃ m e x, "3" = itoa m ∧ "4" = itoa e ∧ m < e ∧ x ∈ permissions (rev permitted_events) ∧ m < x) ∧
  (master_restarts list_projection team_annotations (Polled :: rev permitted_events) ≤ 1)%nat.
Proof.
  assert (Hu : unassigned team_annotations).
  { split; [exact team_readable|]. intros key Hkey. unfold channel in Hkey.
    repeat (apply elem_of_cons in Hkey as [->|Hkey]); [vm_compute; reflexivity..|].
    by apply not_elem_of_nil in Hkey. }
  assert (Hst : Forall proper_stamp (stamps (rev permitted_events))).
  { repeat constructor; try (vm_compute; discriminate); by right. }
  split; [vm_compute; reflexivity|]. split; [vm_compute; reflexivity|]. split.
  - apply (proj1 (master_restarts_permitted list_projection team_annotations (rev permitted_events)
      list_projection_format Hu Hst)); vm_compute; reflexivity.
  - apply (proj2 (master_restarts_permitted list_projection team_annotations (Polled :: rev permitted_events)
      list_projection_format Hu Hst)). repeat constructor; vm_compute; discriminate.
Defined.
