(* ===== verification/PodScripts.v ===== *)
(** * The scripts of the Sentinel and cluster pods (src/internal/controller/resources.go,
      resources_failover.go)

    The startup scripts of the data pods of Sentinel and cluster mode and the preStop hooks
    of all modes.  A script is a function of what its commands print: a reply is the list of
    the lines [redis-cli] writes to its output, empty when it fails.  The commands that
    change a server are returned in the order in which they are sent. *)

From Stdlib Require Import Ascii.
From S2P Require Import Prelude GoStrings Probe ClusterState ReplicationTypes.
From S2P Require Import Info Lineage ReplicationState Recovery FailoverIntent Gather Kube AuthReport.
From S2P Require Import FailoverEngine FailoverSafety PodStart.

Open Scope Z_scope.
Open Scope go_scope.

(** ** Definitions *)

(** *** Text tools *)

(** [grep pattern], for a pattern of literals and dots. *)
Fixpoint bre_search (pattern line : string) : bool :=
  bre_prefix pattern line ||
  match line with EmptyString => false | String _ cs => bre_search pattern cs end.

Definition grep (pattern : string) (ls : list string) : list string := bfilter (bre_search pattern) ls.
Definition grep_v (pattern : string) (ls : list string) : list string :=
  bfilter (λ l, negb (bre_search pattern l)) ls.

(** Patterns separated by newlines: any of them. *)
Definition grep_any (patterns : list string) (ls : list string) : list string :=
  bfilter (λ l, existsb (λ p, bre_search p l) patterns) ls.

(** [head -n 1] and [sed -n '2p'] in a command substitution. *)
Definition line1 (ls : list string) : string := default "" (ls !! 0%nat).
Definition line2 (ls : list string) : string := default "" (ls !! 1%nat).

(** [awk '{print $n}'] of one line. *)
Definition awk_field (n : nat) (line : string) : string := default "" (fields line !! pred n).

(** [awk 'prev=="runid"{print; exit} {prev=$0}']. *)
Fixpoint after_line (key : string) (ls : list string) : string :=
  match ls with
  | prev :: (l :: _) as rest => if prev =? key then l else after_line key rest
  | _ => ""
  end.

(** [cut -d: -f1 | cut -d@ -f1]. *)
Definition cut_first (sep : ascii) (s : string) : string := default "" (head (split_on sep s)).
Definition host_of (endpoint : string) : string := cut_first "@"%char (cut_first ":"%char endpoint).

(** *** Start of a data pod in Sentinel mode *)

Definition YIELD_LIMIT : Z := 60.
Definition PING_ATTEMPTS : nat := 6.

(** The server is started as the authorised master, as a replica, or, when the master cannot
    be reached, without a master. *)
Inductive sentinel_exec :=
  | StartAuthorized
  | StartJoined (host port : string)
  | StartBare.

#[export] Instance sentinel_exec_eq_dec : EqDecision sentinel_exec.
Proof. solve_decision. Defined.

(** One round: the reply of Sentinel and whether the master answered each ping.  The yield
    flag and its counter are carried to the next round. *)
Definition sentinel_round (podIP : string) (yield : bool) (count : Z) (reply : list string) (pings : list bool)
  : sentinel_exec + (bool * Z) :=
  let host := line1 reply in
  let port := line2 reply in
  if negb (host =? "") then
    if host =? podIP then
      if yield then
        let count := count + 1 in
        if (YIELD_LIMIT <=? count)%Z then inl StartAuthorized else inr (true, count)
      else inl StartAuthorized
    else if existsb id (take PING_ATTEMPTS pings) then inl (StartJoined host port)
    else inl StartBare
  else inr (yield, count).

Fixpoint sentinel_rounds (podIP : string) (yield : bool) (count : Z) (rounds : list (list string * list bool))
  : option sentinel_exec :=
  match rounds with
  | [] => None
  | (reply, pings) :: rest =>
      match sentinel_round podIP yield count reply pings with
      | inl how => Some how
      | inr (yield, count) => sentinel_rounds podIP yield count rest
      end
  end.

(** Whether Sentinel has seen a server of this pod as the master: the replies to SENTINEL
    MASTER and GET-MASTER-ADDR-BY-NAME. *)
Definition ran_before (podIP : string) (masterReply addrReply : list string) : bool :=
  (line1 addrReply =? podIP) && negb (after_line "runid" masterReply =? "").

Definition sentinel_startup (podIP : string) (masterReply addrReply : list string)
  (rounds : list (list string * list bool)) : option sentinel_exec :=
  sentinel_rounds podIP (ran_before podIP masterReply addrReply) 0 rounds.

(** *** Start of a cluster pod *)

Inductive cluster_exec :=
  | Launched
  | ExitedWithError
  | ParkedForever.

#[export] Instance cluster_exec_eq_dec : EqDecision cluster_exec.
Proof. solve_decision. Defined.

(** The loop over the peers of one attempt: whether the pod still owns slots, the number of
    peers contacted and the replicas told to take over; [None] when the script is ended by
    [set -e], because grep finds no line for the pod. *)
Fixpoint ask_peers (podIP : string) (attempt : Z) (contacted : Z) (peers : list (string * list string))
  : option (bool * Z * list string) :=
  match peers with
  | [] => Some (false, contacted, [])
  | (peer, nodes) :: rest =>
      if peer =? podIP then ask_peers podIP attempt contacted rest
      else match nodes with
      | [] => ask_peers podIP attempt contacted rest
      | _ =>
          match grep (podIP +:+ ":" +:+ itoa RedisPort) nodes with
          | [] => None
          | mine =>
              let isMaster := existsb (λ l, bre_search "master" (awk_field 3 l)) mine in
              let hasSlots := existsb (λ l, negb (awk_field 9 l =? "")) mine in
              if isMaster && hasSlots then
                let patterns := match awk_field 1 <$> mine with
                                | id :: ids => ("slave " +:+ id) :: ids
                                | [] => ["slave "]
                                end in
                let replica := host_of (awk_field 2 (line1 (grep_v "fail" (grep_any patterns nodes)))) in
                Some (true, contacted + 1,
                      if (6 <=? attempt)%Z && negb (replica =? "") then [replica] else [])
              else ask_peers podIP attempt (contacted + 1) rest
          end
      end
  end.

(** The attempts of a restarted container, and the replicas told to take over. *)
Fixpoint verify_failover (podIP : string) (attempt : Z) (stillOwn : bool)
  (attempts : list (list (string * list string))) : list string * cluster_exec :=
  match attempts with
  | [] => ([], if stillOwn then ParkedForever else Launched)
  | peers :: rest =>
      match ask_peers podIP attempt 0 peers with
      | None => ([], ExitedWithError)
      | Some (still, contacted, takeovers) =>
          if negb still && (0 <? contacted)%Z then (takeovers, Launched)
          else let r := verify_failover podIP (attempt + 1) still rest in (takeovers ++ r.1, r.2)
      end
  end.

(** [nodesConf] is whether nodes.conf has survived; the script makes twelve attempts. *)
Definition cluster_startup (podIP : string) (nodesConf : bool) (attempts : list (list (string * list string)))
  : list string * cluster_exec :=
  if nodesConf then verify_failover podIP 1 false (take 12 attempts) else ([], Launched).

(** The containers of one pod, each with its attempts: nodes.conf is removed by a launch and
    written by the server; the outcomes. *)
Fixpoint cluster_containers (podIP : string) (nodesConf : bool)
  (containers : list (list (list (string * list string)))) : list cluster_exec :=
  match containers with
  | [] => []
  | attempts :: rest =>
      let r := (cluster_startup podIP nodesConf attempts).2 in
      r :: cluster_containers podIP (nodesConf || bool_decide (r = Launched)) rest
  end.

(** *** preStop hooks *)

(** What a hook does, in order: it reads INFO, CLUSTER NODES or an answer of Sentinel, changes
    a server, asks for a failover, or sleeps. *)
Inductive hook_action :=
  | ReadInfo
  | ReadNodes
  | ReadSlaves
  | ReadMaster
  | FenceWrites
  | PauseWrites
  | AskSentinelFailover
  | AskClusterFailover (replica : string)
  | Sleep.

#[export] Instance hook_action_eq_dec : EqDecision hook_action.
Proof. solve_decision. Defined.

Definition failoverPreStopWaitIterations : nat := 10.

(** [tr -d '\r']. *)
Fixpoint drop_cr (s : string) : string :=
  match s with
  | EmptyString => EmptyString
  | String c cs => if Ascii.eqb c "013"%char then drop_cr cs else String c (drop_cr cs)
  end.

(** [cut -d: -f2]: a line without the delimiter is printed as it is. *)
Definition cut_second (line : string) : string :=
  match split_on ":"%char line with _ :: v :: _ => v | _ => line end.

(** [myrole], from the reply to INFO replication. *)
Definition myrole (info : list string) : string :=
  match bfilter (λ l, str_contains l "role:") info with
  | [] => ""
  | l :: _ => drop_cr (cut_second l)
  end.

(** At most [n] rounds that read, leave if the test holds and sleep otherwise.  [polls] are
    the replies; if there are no more, the pod has been killed meanwhile.  The result also
    says whether a round has left. *)
Fixpoint wait_rounds {A} (read : hook_action) (done : A → bool) (n : nat) (polls : list A) : list hook_action * bool :=
  match n, polls with
  | S n', poll :: rest =>
      if done poll then ([read], true)
      else let r := wait_rounds read done n' rest in (read :: Sleep :: r.1, r.2)
  | _, _ => ([], false)
  end.

(** The first reply and those of the waiting rounds. *)
Definition failover_prestop (info : list string) (polls : list (list string)) : list hook_action :=
  ReadInfo ::
  if negb (myrole info =? RoleMaster) then []
  else FenceWrites :: (wait_rounds ReadInfo (λ i, negb (myrole i =? RoleMaster)) failoverPreStopWaitIterations polls).1.

Definition role_swapped (nodes : list string) : bool :=
  existsb (λ l, bre_search "slave" (awk_field 3 l)) (grep "myself" nodes).

(** The hook of cluster mode asks for CLUSTER NODES anew at each step. *)
Definition cluster_prestop (nodes1 nodes2 nodes3 : list string) (polls : list (list string)) : list hook_action :=
  ReadNodes :: ReadNodes ::
  let ids := match awk_field 1 <$> grep "myself" nodes1 with [] => [""] | ids => ids end in
  match grep "master" (grep "myself" nodes2) with
  | [] => []
  | _ =>
      ReadNodes ::
      let replica := host_of (awk_field 2 (line1 (grep_v "fail" (grep "slave" (grep_any ids nodes3))))) in
      if replica =? "" then [FenceWrites]
      else AskClusterFailover replica :: (wait_rounds ReadNodes role_swapped 10 polls).1
  end.

(** The hook of Sentinel mode: the replies to SENTINEL SLAVES, then those to
    GET-MASTER-ADDR-BY-NAME. *)
Definition EXPECTED_SLAVES : Z := 2.

Definition sentinel_role (info : list string) : string :=
  str_join (String lf EmptyString) ((λ l, drop_cr (cut_second l)) <$> grep "role" info).

Definition slave_count (reply : list string) : Z := len (bfilter (λ l, l =? "name") reply).

Definition confirmed_elsewhere (podIP : string) (reply : list string) : bool :=
  negb (line1 reply =? "") && negb (line1 reply =? podIP).

Definition sentinel_prestop (podIP : string) (info : list string) (slaves masters : list (list string)) : list hook_action :=
  ReadInfo ::
  if sentinel_role info =? RoleMaster
  then (wait_rounds ReadSlaves (λ r, EXPECTED_SLAVES <=? slave_count r)%Z 10 slaves).1 ++
       PauseWrites :: AskSentinelFailover :: (wait_rounds ReadMaster (confirmed_elsewhere podIP) 10 masters).1
  else [].

(** ** Sentinel mode *)

(** Rounds in which Sentinel names this pod. *)
Definition names (podIP : string) (round : list string * list bool) : bool :=
  negb (line1 round.1 =? "") && (line1 round.1 =? podIP).

(** A start rests on the last round it has seen. *)
Definition grounded (podIP : string) (how : sentinel_exec) (round : list string * list bool) : Prop :=
  match how with
  | StartAuthorized => podIP ≠ "" ∧ line1 round.1 = podIP
  | StartJoined host port =>
      host = line1 round.1 ∧ port = line2 round.1 ∧ host ≠ "" ∧ host ≠ podIP ∧ true ∈ take PING_ATTEMPTS round.2
  | StartBare => line1 round.1 ≠ "" ∧ line1 round.1 ≠ podIP ∧ Forall (.= false) (take PING_ATTEMPTS round.2)
  end.

Lemma sentinel_round_start podIP yield count reply pings how :
  sentinel_round podIP yield count reply pings = inl how → grounded podIP how (reply, pings).
Proof.
  unfold sentinel_round. destruct (String.eqb_spec (line1 reply) "") as [|Hne]; [done|]. cbn [negb].
  destruct (String.eqb_spec (line1 reply) podIP) as [Heq|Hip].
  - destruct yield; [case_match|]; intros [= <-]; split; simpl; congruence.
  - destruct (existsb id _) eqn:Hp; intros [= <-]; simpl.
    + apply existsb_exists in Hp as (b & Hb & Ht). cbn in Ht. subst b.
      split_and!; try done. by apply list_elem_of_In.
    + split_and!; [done|done|]. apply Forall_forall. intros b Hb.
      destruct b; [|done]. exfalso.
      rewrite <-not_true_iff_false in Hp. apply Hp, existsb_exists. exists true.
      split; [by apply list_elem_of_In|done].
Qed.

Lemma sentinel_rounds_start podIP rounds : ∀ yield count how,
  sentinel_rounds podIP yield count rounds = Some how →
  ∃ before round after, rounds = before ++ round :: after ∧ grounded podIP how round ∧
    Forall (λ r, line1 r.1 = "" ∨ line1 r.1 = podIP) before ∧
    (how = StartAuthorized → yield = true → YIELD_LIMIT ≤ count + len (bfilter (names podIP) (before ++ [round]))).
Proof.
  induction rounds as [|[reply pings] rest IH]; [done|]. intros yield count how. cbn [sentinel_rounds].
  destruct (sentinel_round _ _ _ _ _) as [h|[y c]] eqn:Hr.
  - intros [= <-]. exists [], (reply, pings), rest. split_and!; [done|by eapply sentinel_round_start|constructor|].
    intros -> ->. cbn [app]. pose proof (sentinel_round_start _ _ _ _ _ _ Hr) as [Hne Hip]. cbn in Hip.
    unfold sentinel_round in Hr. rewrite Hip, String.eqb_refl in Hr.
    unfold bfilter, names, len. cbn [List.filter fst]. rewrite Hip, String.eqb_refl.
    destruct (String.eqb_spec podIP ""); [done|]. cbn [negb andb length] in *.
    destruct (YIELD_LIMIT <=? count + 1)%Z eqn:Hc; [|done]. lia.
  - intros Hs. destruct (IH _ _ _ Hs) as (before & round & after & -> & Hg & Hb & Hy).
    exists ((reply, pings) :: before), round, after. unfold sentinel_round in Hr.
    destruct (String.eqb_spec (line1 reply) "") as [Hz|Hz]; cbn [negb] in Hr.
    + simplify_eq. split_and!; [done|done|constructor; [by left|done]|].
      intros Hh Hyt. specialize (Hy Hh Hyt). unfold bfilter, len in *. cbn [app List.filter].
      unfold names at 1. cbn [fst]. by rewrite Hz.
    + destruct (String.eqb_spec (line1 reply) podIP) as [Heq|]; [|by case_match].
      destruct yield; [|done]. case_match; [done|]. simplify_eq.
      split_and!; [done|done|constructor; [by right|done]|].
      intros Hh _. specialize (Hy Hh eq_refl). unfold bfilter, len in *. cbn [app List.filter].
      unfold names at 1. cbn [fst]. rewrite String.eqb_refl.
      destruct (String.eqb_spec (line1 reply) ""); [done|]. cbn [negb andb length]. lia.
Qed.

(** The rounds in which Sentinel names any address; each of them ends the loop or is counted. *)
Lemma sentinel_rounds_end podIP rounds : ∀ yield count,
  sentinel_rounds podIP yield count rounds = None → count < YIELD_LIMIT →
  count + len (bfilter (λ r, negb (line1 r.1 =? "")) rounds) < YIELD_LIMIT.
Proof.
  induction rounds as [|[reply pings] rest IH]; intros yield count; cbn [sentinel_rounds].
  { unfold bfilter, len. cbn. lia. }
  unfold bfilter, len, sentinel_round. cbn [List.filter fst].
  destruct (line1 reply =? "") eqn:Hz; cbn [negb].
  { intros Hn Hc. exact (IH yield count Hn Hc). }
  destruct (line1 reply =? podIP); [|by destruct (existsb id _)]. destruct yield; [|done].
  destruct (YIELD_LIMIT <=? count + 1)%Z eqn:Hl; [done|]. intros Hn Hc.
  specialize (IH true (count + 1) Hn ltac:(lia)). unfold bfilter, len in IH. cbn [length]. lia.
Qed.


(** The protection of a restarted master is lost when its one query is not answered.  If
    GET-MASTER-ADDR-BY-NAME fails before the loop, the pod starts as the master on the
    first reply that names it, although its server has run before and its data is gone. *)
Theorem unanswered_check_starts_empty podIP masterReply port pings rest :
  podIP ≠ "" →
  sentinel_startup podIP masterReply [] (([podIP; port], pings) :: rest) = Some StartAuthorized.
Proof.
  intros Hne. unfold sentinel_startup, ran_before. cbn [line1 lookup list_lookup default from_option id].
  change (line1 []) with "". rewrite (proj2 (String.eqb_neq "" podIP)) by congruence.
  cbn [andb sentinel_rounds]. unfold sentinel_round. change (line1 [podIP; port]) with podIP.
  rewrite (proj2 (String.eqb_neq podIP "")) by done. by rewrite String.eqb_refl.
Qed.

(** ** Cluster mode *)

Definition contacted (podIP : string) (p : string * list string) : bool :=
  negb (p.1 =? podIP) && match p.2 with [] => false | _ => true end.

(** The lines of a reply that mention the pod. *)
Definition mentions (podIP : string) (nodes : list string) : list string :=
  grep (podIP +:+ ":" +:+ itoa RedisPort) nodes.

(** A peer still takes the pod for a master with slots. *)
Definition claims (podIP : string) (nodes : list string) : bool :=
  existsb (λ l, bre_search "master" (awk_field 3 l)) (mentions podIP nodes) &&
  existsb (λ l, negb (awk_field 9 l =? "")) (mentions podIP nodes).

(** The replica of the pod a peer reports, and that is not failing. *)
Definition reported_replica (podIP : string) (nodes : list string) (replica : string) : Prop :=
  replica ≠ "" ∧ ∃ id ids, awk_field 1 <$> mentions podIP nodes = id :: ids ∧
    replica = host_of (awk_field 2 (line1 (grep_v "fail" (grep_any (("slave " +:+ id) :: ids) nodes)))).

(** One step of the loop over the peers. *)
Lemma ask_peers_cons podIP attempt c p rest :
  ask_peers podIP attempt c (p :: rest) =
  if negb (contacted podIP p) then ask_peers podIP attempt c rest
  else match mentions podIP p.2 with
       | [] => None
       | mine =>
           if claims podIP p.2 then
             let patterns := match awk_field 1 <$> mine with
                             | id :: ids => ("slave " +:+ id) :: ids
                             | [] => ["slave "]
                             end in
             let replica := host_of (awk_field 2 (line1 (grep_v "fail" (grep_any patterns p.2)))) in
             Some (true, c + 1, if (6 <=? attempt)%Z && negb (replica =? "") then [replica] else [])
           else ask_peers podIP attempt (c + 1) rest
       end.
Proof.
  destruct p as [peer nodes]. unfold contacted, claims, mentions. cbn [ask_peers fst snd].
  destruct (peer =? podIP); [done|]. destruct nodes as [|n ns]; [done|]. cbn [negb andb].
  by destruct (grep _ (n :: ns)).
Qed.

Lemma ask_peers_sound podIP attempt peers : ∀ c still n takeovers,
  ask_peers podIP attempt c peers = Some (still, n, takeovers) →
  (still = false → n = c + len (bfilter (contacted podIP) peers) ∧
     ∀ p, p ∈ peers → contacted podIP p = true → mentions podIP p.2 ≠ [] ∧ claims podIP p.2 = false) ∧
  (still = true → ∃ p, p ∈ peers ∧ contacted podIP p = true ∧ claims podIP p.2 = true) ∧
  ∀ r, r ∈ takeovers → 6 ≤ attempt ∧ ∃ p, p ∈ peers ∧ claims podIP p.2 = true ∧ reported_replica podIP p.2 r.
Proof.
  induction peers as [|p rest IH]; intros c still n takeovers.
  { cbn. intros [= <- <- <-]. split_and!; [|done|set_solver]. intros _. split; [unfold len; cbn; lia|set_solver]. }
  rewrite ask_peers_cons. destruct (contacted podIP p) eqn:Hc; cbn [negb].
  2:{ intros (H1 & H2 & H3)%IH. split_and!.
      - intros Hs. destruct (H1 Hs) as [-> Hall]. unfold bfilter, len. cbn [List.filter]. rewrite Hc.
        split; [done|]. intros q [->|Hq]%elem_of_cons Hq'; [congruence|by apply Hall].
      - intros Hs. destruct (H2 Hs) as (q & ? & ?). exists q. set_solver.
      - intros r Hr. destruct (H3 r Hr) as (? & q & ? & ?). split; [done|]. exists q. set_solver. }
  destruct (mentions podIP p.2) as [|l ls] eqn:Hm; [done|].
  destruct (claims podIP p.2) eqn:Hcl.
  - intros [= <- <- <-]. split_and!; [done| |].
    + intros _. exists p. set_solver.
    + intros r Hr. case_match eqn:Hb; [|set_solver]. apply andb_true_iff in Hb as [Ha Hn].
      apply list_elem_of_singleton in Hr as ->. split; [lia|]. exists p. split; [by left|]. split; [done|].
      split; [by apply negb_true_iff, String.eqb_neq in Hn|]. exists (awk_field 1 l), (awk_field 1 <$> ls).
      by rewrite Hm.
  - intros (H1 & H2 & H3)%IH. split_and!.
    + intros Hs. destruct (H1 Hs) as [-> Hall]. unfold bfilter, len. cbn [List.filter]. rewrite Hc.
      split; [cbn [length]; lia|]. intros q [->|Hq]%elem_of_cons Hq'; [by rewrite Hm|by apply Hall].
    + intros Hs. destruct (H2 Hs) as (q & ? & ?). exists q. set_solver.
    + intros r Hr. destruct (H3 r Hr) as (? & q & ? & ?). split; [done|]. exists q. set_solver.
Qed.

(** The attempt on which a start rests: nobody who answered sees the pod as an owner. *)
Definition cleared (podIP : string) (peers : list (string * list string)) : Prop :=
  ∀ p, p ∈ peers → contacted podIP p = true → mentions podIP p.2 ≠ [] ∧ claims podIP p.2 = false.

Lemma verify_failover_sound podIP attempts : ∀ i still,
  (attempts ≠ [] → (verify_failover podIP i still attempts).2 = Launched →
   ∃ before peers after, attempts = before ++ peers :: after ∧ cleared podIP peers ∧
     (after = [] ∨ ∃ p, p ∈ peers ∧ contacted podIP p = true)) ∧
  (∀ r, r ∈ (verify_failover podIP i still attempts).1 →
   ∃ k peers p, attempts !! k = Some peers ∧ 6 ≤ i + Z.of_nat k ∧ p ∈ peers ∧ claims podIP p.2 = true ∧
     reported_replica podIP p.2 r).
Proof.
  induction attempts as [|peers rest IH]; intros i still; [split; [done|set_solver]|].
  cbn [verify_failover].
  destruct (ask_peers _ _ _ _) as [[[s n] ts]|] eqn:Ha; [|split; [done|set_solver]].
  destruct (ask_peers_sound _ _ _ _ _ _ _ Ha) as (Hf & _ & Ht).
  assert (Hts : ∀ r, r ∈ ts → ∃ k peers' p, (peers :: rest) !! k = Some peers' ∧ 6 ≤ i + Z.of_nat k ∧
    p ∈ peers' ∧ claims podIP p.2 = true ∧ reported_replica podIP p.2 r).
  { intros r Hr. destruct (Ht r Hr) as (? & p & ? & ? & ?). exists 0%nat, peers, p. split_and!; try done. lia. }
  destruct (negb s && (0 <? n)%Z) eqn:Hd; cbn [fst snd].
  - split; [|done]. intros _ _. apply andb_true_iff in Hd as [Hs%negb_true_iff Hn].
    destruct (Hf Hs) as [Hlen Hall]. exists [], peers, rest. split_and!; [done|done|]. right.
    unfold bfilter, len in Hlen. destruct (List.filter _ _) as [|p ps] eqn:Hfl; [cbn in Hlen; lia|].
    assert (In p (List.filter (contacted podIP) peers)) as [Hin Hc]%filter_In by (rewrite Hfl; by left).
    exists p. split; [by apply list_elem_of_In|done].
  - destruct (IH (i + 1) s) as [IHl IHt]. split.
    + intros _ Hl. destruct rest as [|peers' rest'].
      * cbn in Hl. destruct s; [done|]. exists [], peers, []. destruct (Hf eq_refl). auto.
      * destruct (IHl ltac:(done) Hl) as (before & q & after & -> & ? & ?).
        exists (peers :: before), q, after. auto.
    + intros r [Hr|Hr]%elem_of_app; [by apply Hts|].
      destruct (IHt r Hr) as (k & peers' & p & ? & ? & ?). exists (S k), peers', p. split; [done|]. split; [lia|done].
Qed.

(** C19. A restarted cluster node waits for the failover of its slots.  A fresh pod starts at
    once.  A restarted container starts its server only after an attempt in which no peer that
    answered takes it for a master with slots, and at least one answered unless it was the
    last attempt; it asks for a takeover only from the sixth attempt on, and only a replica of
    itself that a peer reports as not failing. *)
Theorem cluster_start_safe podIP attempts :
  cluster_startup podIP false attempts = ([], Launched) ∧
  (attempts ≠ [] → (cluster_startup podIP true attempts).2 = Launched →
   ∃ before peers after, take 12 attempts = before ++ peers :: after ∧ cleared podIP peers ∧
     (after = [] ∨ ∃ p, p ∈ peers ∧ contacted podIP p = true)) ∧
  (∀ r, r ∈ (cluster_startup podIP true attempts).1 →
   ∃ k peers p, attempts !! k = Some peers ∧ (5 ≤ k < 12)%nat ∧ p ∈ peers ∧ claims podIP p.2 = true ∧
     reported_replica podIP p.2 r).
Proof.
  destruct (verify_failover_sound podIP (take 12 attempts) 1 false) as [Hl Ht].
  split_and!; [done| |].
  - intros Hne. apply Hl. by destruct attempts.
  - intros r (k & peers & p & [Hk Hlt]%lookup_take_Some & ? & Hrest)%Ht.
    exists k, peers, p. split; [done|]. split; [lia|done].
Qed.

(** The peers that answer have forgotten the pod. *)
Definition forgotten (podIP : string) (peers : list (string * list string)) : Prop :=
  (∃ p, p ∈ peers ∧ contacted podIP p = true) ∧
  ∀ p, p ∈ peers → contacted podIP p = true → mentions podIP p.2 = [].

Lemma ask_peers_forgotten podIP attempt peers : ∀ c,
  forgotten podIP peers → ask_peers podIP attempt c peers = None.
Proof.
  induction peers as [|p rest IH]; intros c [(q & Hq & Hcq) Hall]; [set_solver|].
  rewrite ask_peers_cons. destruct (contacted podIP p) eqn:Hc; cbn [negb].
  - by rewrite (Hall p) by (done || by left).
  - apply IH. split; [|intros q' ? ?; apply Hall; [by right|done]].
    apply elem_of_cons in Hq as [->|Hq]; [congruence|]. by exists q.
Qed.

(** A container whose peers have forgotten its node never starts again.  The line that
    looks for the pod in a peer's reply fails under [set -e] when there is none, which is
    what a completed failover followed by CLUSTER FORGET leaves: the script exits, nodes.conf
    is kept, and every later container of the pod does the same. *)
Theorem forgotten_node_never_starts podIP containers :
  Forall (λ attempts, ∃ peers rest, attempts = peers :: rest ∧ forgotten podIP peers) containers →
  Forall (.= ExitedWithError) (cluster_containers podIP true containers).
Proof.
  induction 1 as [|attempts containers (peers & rest & -> & Hf) _ IH]; [constructor|].
  cbn [cluster_containers cluster_startup take verify_failover].
  rewrite (ask_peers_forgotten podIP 1 peers 0 Hf). cbn [snd]. constructor; [done|exact IH].
Qed.

(** ** preStop hooks *)

(** [n] rounds that sleep, and one that leaves or none. *)
Definition rounds (read : hook_action) (n : nat) (left : bool) : list hook_action :=
  concat (replicate n [read; Sleep]) ++ if left then [read] else [].

(** The rounds are bounded; one leaves exactly if its test holds, and then it is the last. *)
Lemma wait_rounds_spec {A} read (done : A → bool) n polls :
  ∃ k, (k ≤ n)%nat ∧ (wait_rounds read done n polls).1 = rounds read k (wait_rounds read done n polls).2 ∧
    Forall (λ p, done p = false) (take k polls) ∧
    if (wait_rounds read done n polls).2 then ∃ p, polls !! k = Some p ∧ done p = true
    else k = n ∨ k = length polls.
Proof.
  revert polls. induction n as [|n IH]; intros [|poll polls]; cbn [wait_rounds].
  1-3: exists 0%nat; split_and!; [lia|done|constructor|first [by left|by right]].
  destruct (done poll) eqn:Hd.
  - exists 0%nat. split_and!; [lia|done|constructor|]. by exists poll.
  - destruct (IH polls) as (k & Hk & He & Hall & Hend). exists (S k). cbn [fst snd]. rewrite He.
    split_and!; [lia|done|by constructor|]. destruct (wait_rounds read done n polls).2; [done|].
    destruct Hend; [left|right]; cbn [length]; lia.
Qed.

(** A line of CLUSTER NODES that the hook takes for a replica of this node to hand over to. *)
Definition own_replica (id : string) (l : string) : bool :=
  bre_search id l && bre_search "slave" l && negb (bre_search "fail" l).

Lemma own_replicas id nodes :
  grep_v "fail" (grep "slave" (grep_any [id] nodes)) = bfilter (own_replica id) nodes.
Proof.
  unfold grep_v, grep, grep_any, own_replica, bfilter. induction nodes as [|l nodes IH]; [done|].
  cbn [List.filter existsb] in *. rewrite orb_false_r. destruct (bre_search id l); cbn [List.filter andb]; [|exact IH].
  destruct (bre_search "slave" l); cbn [List.filter andb]; [|exact IH].
  destruct (bre_search "fail" l); cbn [negb]; [exact IH|by rewrite IH].
Qed.


(** A role that cannot be read counts as none: the hook leaves without a command. *)
Lemma unreadable_role_unfenced polls nodes1 nodes3 waits :
  failover_prestop [] polls = [ReadInfo] ∧ cluster_prestop nodes1 [] nodes3 waits = [ReadNodes; ReadNodes].
Proof. done. Qed.

(** *** Witnesses *)

Lemma unanswered_check_starts_empty_witness :
  ran_before "10.0.0.1" ["name"; "mymaster"; "runid"; "8f3a"] ["10.0.0.1"; "6379"] = true ∧
  sentinel_startup "10.0.0.1" ["name"; "mymaster"; "runid"; "8f3a"] [] [(["10.0.0.1"; "6379"], [])] = Some StartAuthorized.
Proof.
  split; [vm_compute; reflexivity|].
  apply (unanswered_check_starts_empty "10.0.0.1" _ "6379" [] []). discriminate.
Defined.

(** A peer that knows only itself and another node. *)
Definition forgetful_peer : string * list string :=
  ("10.0.0.2",
   ["a1 10.0.0.2:6379@16379 myself,master - 0 0 3 connected 0-5460";
    "b2 10.0.0.3:6379@16379 master - 0 0 2 connected 5461-16383"]).

Lemma forgotten_node_never_starts_witness :
  cluster_containers "10.0.0.1" true [[[forgetful_peer]]; [[forgetful_peer]]] = [ExitedWithError; ExitedWithError].
Proof.
  assert (Hf : forgotten "10.0.0.1" [forgetful_peer]).
  { split; [exists forgetful_peer; split; [by left|vm_compute; reflexivity]|].
    intros p Hp _. apply list_elem_of_singleton in Hp as ->. vm_compute. reflexivity. }
  pose proof (forgotten_node_never_starts "10.0.0.1" [[[forgetful_peer]]; [[forgetful_peer]]]) as H.
  pose proof (H ltac:(repeat constructor; eexists _, []; (split; [reflexivity|exact Hf]))) as Hall.
  apply Forall_cons in Hall as [H1 Hall]. apply Forall_cons in Hall as [H2 _].
  change (cluster_containers "10.0.0.1" true [[[forgetful_peer]]; [[forgetful_peer]]]) with
    [(cluster_startup "10.0.0.1" true [[forgetful_peer]]).2; (cluster_startup "10.0.0.1" true [[forgetful_peer]]).2].
  rewrite H1. reflexivity.
Defined.
