(* ===== verification/SentinelClient.v ===== *)
(** * Commanding the Sentinels
    (src/internal/redis/client.go and the helpers of src/internal/controller/littlered_controller.go)

    The operations of [SentinelClient] that the controller uses, each over the list of
    addresses it is given, and the helpers built on them: registering a master with a
    Sentinel, seeding all of them, finding the pod Sentinel names as the master, and the role
    labels.  A command to one Sentinel is one call of [prog]. *)

From S2P Require Import Prelude GoStrings Probe ClusterState ReplicationTypes.
From S2P Require Import Info ReplicationState Recovery Gather Operations Kube OperationWiring FailoverEngine.

Open Scope Z_scope.
Open Scope go_scope.

(** ** Definitions *)

(** *** The client *)

Definition error_mentions (text : string) (e : error) : bool := str_contains (error_text e) text.

(** A command sent to every address.  Errors with the [benign] text are ignored; the
    operation fails when every address failed. *)
Definition at_all (ask : string → prog (option error)) (benign : option string) (failed : string)
  (addresses : list string) : prog (option error) :=
  errors ← for_each (λ errors addr,
    r ← ask addr;
    mret match r with
         | None => errors
         | Some e => if from_option (λ text, error_mentions text e) false benign then errors
                     else errors ++ [addr +:+ ": " +:+ error_text e]
         end) [] addresses;
  mret (if (len errors =? len addresses)%Z && (0 <? len addresses)%Z
        then Some (mkError (failed +:+ ": " +:+ str_join "; " errors) false false)
        else None).

Definition sc_Monitor (addresses : list string) (password name ip : string) (port quorum : Z)
  : prog (option error) :=
  at_all (λ addr, perform (SentinelDo addr password (SentinelMonitor name ip port quorum)))
    (Some "ERR Duplicate master name") "failed to issue MONITOR command to all sentinels" addresses.

Definition sc_Set (addresses : list string) (password name opt value : string) : prog (option error) :=
  at_all (λ addr, perform (SentinelDo addr password (SentinelSet name opt value)))
    (Some "ERR No such master") "failed to issue SET command to any sentinel" addresses.

Definition sc_Reset (addresses : list string) (password masterName : string) : prog (option error) :=
  at_all (λ addr, perform (SentinelDo addr password (SentinelReset masterName)))
    None "failed to issue RESET command to all sentinels" addresses.

Definition sc_Remove (addresses : list string) (password masterName : string) : prog (option error) :=
  at_all (λ addr, perform (SentinelDo addr password (SentinelRemove masterName)))
    (Some "ERR No such master") "failed to issue REMOVE command to all sentinels" addresses.

(** The first address that answers. *)
Fixpoint ask_each {A} (ask : string → prog (A + error)) (wrap : string) (addresses : list string)
  (lastErr : option error) : prog (A + error) :=
  match addresses with
  | [] => mret (inr (match lastErr with
                     | Some e => errorf wrap e
                     | None => mkError "no sentinels available" false false
                     end))
  | addr :: rest =>
      r ← ask addr;
      match r with
      | inr e => ask_each ask wrap rest (Some e)
      | inl a => mret (inl a)
      end
  end.

(** Address and port. *)
Definition sc_getMasterFromSentinel (password masterName addr : string) : prog (string * string + error) :=
  r ← perform (SentinelDo addr password (GetMasterAddrByName masterName));
  mret match r with
       | inr err => inr (errorf "failed to get master addr" err)
       | inl [ip; port] => inl (ip, port)
       | inl result => inr (mkError ("unexpected result length: " +:+ itoa (len result)) false false)
       end.

Definition sc_GetMaster (addresses : list string) (password masterName : string)
  : prog (string * string + error) :=
  ask_each (sc_getMasterFromSentinel password masterName) "failed to get master from any sentinel"
    addresses None.

Definition sc_getReplicasFromSentinel (password masterName addr : string) : prog (list ReplicaInfo + error) :=
  r ← perform (SentinelDo addr password (SentinelReplicas masterName));
  mret match r with
       | inr err => inr (errorf "failed to get replicas" err)
       | inl result => inl (replica_of <$> (result : list (gmap string string)))
       end.

Definition sc_GetReplicas (addresses : list string) (password masterName : string)
  : prog (list ReplicaInfo + error) :=
  ask_each (sc_getReplicasFromSentinel password masterName) "failed to get replicas from any sentinel"
    addresses None.

Definition sc_IsMonitoring (password sentinelAddr masterName : string) : prog (bool + error) :=
  r ← perform (SentinelDo sentinelAddr password (GetMasterAddrByName masterName));
  mret match r with
       | inl _ => inl true
       | inr err => if error_mentions "ERR No such master" err || error_mentions "redis: nil" err
                    then inl false else inr err
       end.

(** *** Settings *)

Definition sentinelQuorum (lr : LittleRed) : Z :=
  match lr_Sentinel lr with
  | Some sp => if (0 <? ssp_Quorum sp)%Z then ssp_Quorum sp else 2
  | None => 2
  end.

Definition allowUnsafeElection (lr : LittleRed) : bool :=
  from_option ssp_AllowUnsafeRebootstrapOnDeadlock false (lr_Sentinel lr).

(** A positive setting is sent, and a failure ignored. *)
Definition set_positive (addr password name opt : string) (value : Z) : prog unit :=
  if (0 <? value)%Z then _ ← sc_Set [addr] password name opt (itoa value); mret tt else mret tt.

Definition applySentinelSettings (addr password : string) (spec : option SentinelSpec)
  (sentinelMasterName : string) : prog unit :=
  match spec with
  | None => mret tt
  | Some sp =>
      _ ← set_positive addr password sentinelMasterName "down-after-milliseconds" (ssp_DownAfterMilliseconds sp);
      _ ← set_positive addr password sentinelMasterName "failover-timeout" (ssp_FailoverTimeout sp);
      set_positive addr password sentinelMasterName "parallel-syncs" (ssp_ParallelSyncs sp)
  end.

(** The block every registration ends in: MONITOR and, when it succeeded, the password and
    the settings. *)
Definition register (lr : LittleRed) (addr password masterIP : string) : prog (option error) :=
  err ← sc_Monitor [addr] password (SentinelMasterName lr) masterIP RedisPort (sentinelQuorum lr);
  match err with
  | Some e => mret (Some e)
  | None =>
      _ ← (if negb (password =? "")
           then _ ← sc_Set [addr] password (SentinelMasterName lr) "auth-pass" password; mret tt
           else mret tt);
      _ ← applySentinelSettings addr password (lr_Sentinel lr) (SentinelMasterName lr);
      mret None
  end.

(** *** Seeding *)

(** One Sentinel pod; the accumulator counts the configured and the considered ones. *)
Definition seed_pod (lr : LittleRed) (masterIP password : string) (acc : Z * Z) (pod : Pod) : prog (Z * Z) :=
  let '(configured, total) := acc in
  if (pod_IP pod =? "") || pod_Terminating pod then mret acc
  else
    let podAddr := address (pod_IP pod) SentinelPort in
    let point :=
      err ← register lr podAddr password masterIP;
      mret (match err with None => configured + 1 | Some _ => configured end, total + 1) in
    g ← sc_GetMaster [podAddr] password (SentinelMasterName lr);
    match g with
    | inl info =>
        if info.1 =? masterIP then mret (configured + 1, total + 1)
        else _ ← sc_Remove [podAddr] password (SentinelMasterName lr); point
    | inr _ => point
    end.

Definition seedSentinelsWithMaster (lr : LittleRed) (masterIP password : string) : prog (Z * Z + error) :=
  l ← perform ListSentinelPods;
  match l with
  | inr err => mret (inr (errorf "failed to list sentinel pods" err))
  | inl pods => r ← for_each (seed_pod lr masterIP password) (0, 0) pods; mret (inl r)
  end.

Definition electMaster (lr : LittleRed) (state : ReplicationState) (masterIP password : string)
  : prog (option error) :=
  let seed := r ← seedSentinelsWithMaster lr masterIP password;
              mret match r with inl _ => None | inr err => Some err end in
  if needsPromotion state masterIP then
    err ← SlaveOf (address masterIP RedisPort) password "" "";
    match err with
    | Some e => mret (Some (errorf ("promote elected master " +:+ masterIP) e))
    | None => seed
    end
  else seed.

(** *** The master Sentinel names *)

Inductive SentinelErrorCode := SentinelUnreachable | SentinelNoMaster | SentinelGhostMaster.

#[export] Instance SentinelErrorCode_eq_dec : EqDecision SentinelErrorCode.
Proof. solve_decision. Defined.

Section Naming.
Context (namespace : string).

Definition getSentinelAddresses (lr : LittleRed) : prog (list string) :=
  let service := lr_Name lr +:+ "-sentinel." +:+ namespace +:+ ".svc:" +:+ itoa SentinelPort in
  l ← perform ListSentinelPods;
  mret match l with
       | inr _ => [service]
       | inl pods =>
           service :: ((λ pod, address (pod_IP pod) SentinelPort) <$>
             bfilter (λ pod, negb (pod_IP pod =? "") && negb (pod_Terminating pod) && pod_Ready pod) pods)
       end.

(** The live pod at an address. *)
Fixpoint pod_at (ip : string) (pods : list Pod) : option string :=
  match pods with
  | [] => None
  | pod :: rest =>
      if (pod_IP pod =? ip) && negb (pod_Terminating pod) then Some (pod_Name pod) else pod_at ip rest
  end.

(** Only the code of a [SentinelError] is acted upon. *)
Definition getMasterPodName (lr : LittleRed) (podList : list Pod) : prog (string + SentinelErrorCode) :=
  addresses ← getSentinelAddresses lr;
  password ← getRedisPassword lr;
  r ← sc_GetMaster addresses password (SentinelMasterName lr);
  mret match r with
       | inr err => inr (if error_mentions "redis: nil" err then SentinelNoMaster else SentinelUnreachable)
       | inl info => match pod_at info.1 podList with
                     | Some name => inl name
                     | None => inr SentinelGhostMaster
                     end
       end.

Definition updateMasterLabel (lr : LittleRed) : prog (option error) :=
  l ← perform ListDataPods;
  match l with
  | inr err => mret (Some err)
  | inl [] => mret None
  | inl pods =>
      if existsb pod_Terminating pods then mret None
      else
        m ← getMasterPodName lr pods;
        match m with
        | inr SentinelUnreachable => mret None
        | inr _ => applyRoleLabels pods ""
        | inl masterPodName => applyRoleLabels pods masterPodName
        end
  end.

End Naming.

(** *** Bootstrap *)

Definition bootstrapSentinel (retries : nat) (lr : LittleRed) : prog (LittleRed * option error) :=
  l ← perform GetLittleRed;
  match l with
  | inr err => mret (lr, Some err)
  | inl latest =>
  if negb (ls_BootstrapRequired (lr_Status latest)) then mret (latest, None)
  else
  s ← perform (GetStatefulSet (statefulSetName lr));
  match s with
  | inr err => mret (lr, Some err)
  | inl sts =>
  p ← perform (GetPod (lr_Name lr +:+ "-redis-0"));
  match p with
  | inr err => mret (lr, Some err)
  | inl pod0 =>
  if negb (pod0_ready pod0 sts) then mret (lr, None)
  else
  password ← getRedisPassword lr;
  r ← seedSentinelsWithMaster lr (pod_IP pod0) password;
  match r with
  | inr err => mret (lr, Some err)
  | inl (configuredCount, _) =>
  if (configuredCount =? 0)%Z then mret (lr, None)
  else
  c ← RetryOnConflict retries clear_bootstrap tt;
  match c.2 with
  | Some e => mret (lr, Some (errorf "failed to clear bootstrap flag" e))
  | None =>
      g ← perform GetLittleRed;
      match g with
      | inr err => mret (lr, Some err)
      | inl latest' => mret (latest', None)
      end
  end end end end end.
