(* ===== verification/SentinelRecovery.v ===== *)
(** * The deadlock recoveries of Sentinel mode
    (src/internal/controller/littlered_controller.go, ghost_master_recovery.go)

    The handlers around the two planners of [Recovery]: the markers that time the cooldowns,
    and the execution of a plan.  Both recoveries have the same shape; they differ in the
    marker, the plan and the texts. *)

From S2P Require Import Prelude GoStrings Probe ClusterState ReplicationTypes.
From S2P Require Import Lineage ReplicationState Recovery Gather Operations Kube OperationWiring AuthReport.
From S2P Require Import FailoverEngine SentinelClient.

Open Scope Z_scope.
Open Scope go_scope.

(** ** Definitions *)

Definition leaderlessRecoveryCooldown : duration := 30 * second.
Definition ghostMasterRecoveryCooldown : duration := 30 * second.
Definition reasonDeadlockDetected : string := "DeadlockDetected".
Definition reasonReseededFromSurvivor : string := "ReseededFromSurvivor".

(** *** Markers *)

(** The status field that records since when a deadlock lasts, and its condition. *)
Record deadlock_marker := mkMarker {
  dm_since : LittleRedStatus → option time;
  dm_set : LittleRedStatus → option time → LittleRedStatus;
  dm_condition : string;
  dm_message : string;
}.

Definition leaderless_marker : deadlock_marker :=
  mkMarker ls_LeaderlessSince set_LeaderlessSince ConditionLeaderlessRecovery
    "All Sentinels are bare and no master is known; waiting out the recovery cooldown.".
Definition ghost_master_marker : deadlock_marker :=
  mkMarker ls_GhostMasterStuckSince set_GhostMasterStuckSince ConditionGhostMasterRecovery
    "A majority of Sentinels are pinned to a dead master with no promotable replica; waiting out the recovery cooldown.".

Definition set_condition (st : LittleRedStatus) (type : string) (status : ConditionStatus)
  (reason message : string) : LittleRedStatus :=
  set_Conditions st (SetStatusCondition (ls_Conditions st) type status reason message).

Definition write_error (w : LittleRed + error) : option error :=
  match w with inr err => Some err | inl _ => None end.

(** [lr.Status.<marker> = t]. *)
Definition with_marker (m : deadlock_marker) (lr : LittleRed) (t : option time) : LittleRed :=
  set_lr_Status lr (dm_set m (lr_Status lr) t).

Definition stamp_attempt (m : deadlock_marker) (t : time) (lr : LittleRed) : prog (LittleRed * option error) :=
  r ← perform GetLittleRed;
  match r with
  | inr err => mret (lr, Some err)
  | inl latest =>
      match dm_since m (lr_Status latest) with
      | Some _ => mret (lr, None)
      | None =>
          w ← perform (UpdateStatus (set_lr_Status latest
                 (set_condition (dm_set m (lr_Status latest) (Some t)) (dm_condition m) ConditionTrue
                    reasonDeadlockDetected (dm_message m))));
          mret (with_marker m lr (Some t), write_error w)
      end
  end.

Definition condition_attempt (m : deadlock_marker) (status : ConditionStatus) (reason message : string)
  (u : unit) : prog (unit * option error) :=
  r ← perform GetLittleRed;
  match r with
  | inr err => mret (tt, Some err)
  | inl latest =>
      w ← perform (UpdateStatus (set_lr_Status latest
             (set_condition (lr_Status latest) (dm_condition m) status reason message)));
      mret (tt, write_error w)
  end.

Definition clear_attempt (m : deadlock_marker) (reason message : string) (lr : LittleRed)
  : prog (LittleRed * option error) :=
  r ← perform GetLittleRed;
  match r with
  | inr err => mret (lr, Some err)
  | inl latest =>
      match dm_since m (lr_Status latest) with
      | None => mret (lr, None)
      | Some _ =>
          w ← perform (UpdateStatus (set_lr_Status latest
                 (set_condition (dm_set m (lr_Status latest) None) (dm_condition m) ConditionFalse
                    reason message)));
          mret (with_marker m lr None, write_error w)
      end
  end.

(** *** Texts *)

(** What the two recoveries say. *)
Record recovery_texts := mkTexts {
  tx_cleared : string;
  tx_seeded : string → string;
  tx_promoted : RedisNodeState → string;
  tx_refused : leaderlessPlan → string;
  tx_unverified : string → string;
  tx_unsafe : RedisNodeState → leaderlessPlan → string;
}.

Definition leaderless_texts : recovery_texts := mkTexts
  "No longer in a bare-Sentinel deadlock."
  (λ pod, "Leaderless recovery: no data present, seeded " +:+ pod +:+ " as master")
  (λ h, "Leaderless recovery: " +:+ rn_PodName h +:+ " is the only pod with data (keys=" +:+
        itoa (rn_Keys h) +:+ "); " +:+ "promoting it as master — no data discarded")
  (λ plan, "Bootstrap deadlock: " +:+ itoa (lp_holders plan) +:+ " Redis pods hold data. Refusing to rebootstrap " +:+
           "(would discard data on all but one). Set sentinel.allowUnsafeRebootstrapOnDeadlock=true " +:+
           "to authorize, or intervene manually.")
  (λ summary, "Bootstrap deadlock: " +:+ summary +:+ ". Refusing to rebootstrap — a pod that " +:+
              "refuses the operator's credential is a live server whose keyspace cannot be read, " +:+
              "so it cannot be shown to be empty and seeding a master over it may discard the " +:+
              "entire dataset. Fix the credential (see the OperatorCannotAuthenticate condition); " +:+
              "allowUnsafeRebootstrapOnDeadlock deliberately does NOT override this.")
  (λ best plan,
     "UNSAFE rebootstrap: force-elected " +:+ rn_PodName best +:+ " (keys=" +:+ itoa (rn_Keys best) +:+
     ", offset=" +:+ itoa (rn_Offset best) +:+ ") as master; data on " +:+ itoa (lp_holders plan - 1) +:+
     " other " +:+ "pod(s) will be DISCARDED via full resync" +:+
     (if lp_diverged plan
      then ". WARNING: data-holding pods span multiple replication lineages — offsets are not comparable " +:+
           "and genuinely independent writes will be lost"
      else "")).

Definition ghost_master_texts : recovery_texts := mkTexts
  "No longer stuck on a ghost master."
  (λ pod, "Ghost-master recovery: no data present, seeded " +:+ pod +:+ " as master")
  (λ h, "Ghost-master recovery: Sentinel stuck on a dead master with no promotable replica; " +:+
        "electing survivor " +:+ rn_PodName h +:+ " (keys=" +:+ itoa (rn_Keys h) +:+ ", offset=" +:+
        itoa (rn_Offset h) +:+ ") via REMOVE+MONITOR — no data discarded")
  (λ plan,
     if lp_forked plan
     then "Ghost-master deadlock: " +:+ itoa (lp_holders plan) +:+ " survivors hold data and MORE THAN ONE of them " +:+
          "is a master, so each has accepted writes independently since they parted. Their " +:+
          "replication offsets are not comparable, so electing the highest would silently " +:+
          "discard the other's acknowledged writes. Refusing to elect. Identify which pod " +:+
          "holds the writes you need, or set sentinel.allowUnsafeRebootstrapOnDeadlock=true " +:+
          "to authorize discarding the rest."
     else "Ghost-master deadlock: " +:+ itoa (lp_holders plan) +:+ " survivors hold data across divergent replication lineages. " +:+
          "Refusing to elect (would discard independent writes). Set sentinel.allowUnsafeRebootstrapOnDeadlock=true " +:+
          "to authorize, or intervene manually.")
  (λ summary, "Ghost-master deadlock: " +:+ summary +:+ ". Refusing to elect — a pod that refuses " +:+
              "the operator's credential is a live server whose keyspace cannot be read, so it " +:+
              "cannot be shown to be empty and electing around it may discard the entire dataset. " +:+
              "Fix the credential (see the OperatorCannotAuthenticate condition); " +:+
              "allowUnsafeRebootstrapOnDeadlock deliberately does NOT override this.")
  (λ best plan,
     "UNSAFE ghost-master recovery: force-elected " +:+ rn_PodName best +:+ " (keys=" +:+ itoa (rn_Keys best) +:+
     ", offset=" +:+ itoa (rn_Offset best) +:+ "); divergent data on " +:+ itoa (lp_holders plan - 1) +:+ " " +:+
     "other survivor(s) will be DISCARDED via full resync").

(** *** Execution *)

Section Execution.
Context `{GoRuntime} (retries : nat).

Definition set_marker (m : deadlock_marker) (lr : LittleRed) (t : time) : prog (LittleRed * option error) :=
  RetryOnConflict retries (stamp_attempt m t) lr.

Definition set_marker_condition (m : deadlock_marker) (lr : LittleRed) (status : ConditionStatus)
  (reason message : string) : prog (LittleRed * option error) :=
  r ← RetryOnConflict retries (condition_attempt m status reason message) tt;
  mret (lr, r.2).

Definition clear_marker (m : deadlock_marker) (lr : LittleRed) (reason message : string)
  : prog (LittleRed * option error) :=
  match dm_since m (lr_Status lr) with
  | None => mret (lr, None)
  | Some _ => RetryOnConflict retries (clear_attempt m reason message) lr
  end.

Definition setLeaderlessSince := set_marker leaderless_marker.
Definition setLeaderlessCondition := set_marker_condition leaderless_marker.
Definition clearLeaderlessSince := clear_marker leaderless_marker.
Definition setGhostMasterStuckSince := set_marker ghost_master_marker.
Definition setGhostMasterCondition := set_marker_condition ghost_master_marker.
Definition clearGhostMasterStuckSince := clear_marker ghost_master_marker.

(** Election, event and marker of the three electing actions. *)
Definition elect_and_report (m : deadlock_marker) (lr : LittleRed) (state : ReplicationState)
  (masterIP password : string) (kind : EventType) (reason msg : string) : prog (LittleRed * option error) :=
  err ← electMaster lr state masterIP password;
  match err with
  | Some e => mret (lr, Some e)
  | None => _ ← perform (Event kind reason msg); clear_marker m lr reason msg
  end.

(** The elected node; a nil one panics when its name is read. *)
Definition elect_node (m : deadlock_marker) (lr : LittleRed) (state : ReplicationState)
  (masterIP password : string) (kind : EventType) (reason : string) (text : RedisNodeState → string)
  : prog (LittleRed * option error) :=
  match rs_RedisNodes state !! masterIP with
  | None => mret (lr, Some nil_dereference)
  | Some h => elect_and_report m lr state (rn_IP h) password kind reason (text h)
  end.

Definition execute_recovery (m : deadlock_marker) (tx : recovery_texts) (lr : LittleRed)
  (state : ReplicationState) (redisMap : gmap string string) (password : string) (plan : leaderlessPlan)
  : prog (LittleRed * option error) :=
  let refuse (reason msg : string) :=
    _ ← perform (Event EventTypeWarning reason msg);
    set_marker_condition m lr ConditionTrue reason msg in
  match lp_action plan with
  | recoveryClearMarker => clear_marker m lr reasonRecovered (tx_cleared tx)
  | recoveryStartCooldown => t ← perform Now; set_marker m lr t
  | recoveryWait => mret (lr, None)
  | recoverySeedNoData =>
      elect_and_report m lr state (lp_masterIP plan) password EventTypeNormal reasonReseeded
        (tx_seeded tx (at_key redisMap (lp_masterIP plan)))
  | recoveryPromoteSurvivor =>
      elect_node m lr state (lp_masterIP plan) password EventTypeNormal reasonReseededFromSurvivor
        (tx_promoted tx)
  | recoveryRefuse => refuse reasonRefusedDataPresent (tx_refused tx plan)
  | recoveryRefuseUnverified =>
      refuse reasonRefusedDataUnverified (tx_unverified tx (unverifiedPodSummary (lp_unverified plan)))
  | recoveryUnsafeElect =>
      elect_node m lr state (lp_masterIP plan) password EventTypeWarning reasonUnsafeRebootstrap
        (λ best, tx_unsafe tx best plan)
  end.

Definition recoverLeaderlessDeadlock (lr : LittleRed) (state : ReplicationState)
  (redisMap : gmap string string) (password : string) : prog (LittleRed * option error) :=
  now ← perform Now;
  execute_recovery leaderless_marker leaderless_texts lr state redisMap password
    (planLeaderlessRecovery state (sentinelQuorum lr) (allowUnsafeElection lr)
       (pickBootstrapMasterIP (lr_Name lr) redisMap) (ls_LeaderlessSince (lr_Status lr)) now
       leaderlessRecoveryCooldown).

Definition recoverGhostMasterDeadlock (lr : LittleRed) (state : ReplicationState)
  (redisMap : gmap string string) (password : string) : prog (LittleRed * option error) :=
  now ← perform Now;
  execute_recovery ghost_master_marker ghost_master_texts lr state redisMap password
    (planGhostMasterRecovery state (sentinelQuorum lr) (allowUnsafeElection lr)
       (pickBootstrapMasterIP (lr_Name lr) redisMap) (ls_GhostMasterStuckSince (lr_Status lr)) now
       ghostMasterRecoveryCooldown).

End Execution.
