(* ===== verification/SentinelReconcile.v ===== *)
(** * The reconciliation of Sentinel mode
    (src/internal/controller/littlered_controller.go, sentinel_master_name_condition.go)

    [reconcileSentinelCluster], the pass that gathers the ground truth and applies the healing
    rules to it, and [reconcileSentinel] around it.  The namespace,
    [spec.podDisruptionBudget.create] and whether metrics are scraped are arguments. *)

From S2P Require Import Prelude GoStrings Probe ClusterState ReplicationTypes.
From S2P Require Import Info Lineage ReplicationState Recovery Capture Gather Operations Kube OperationWiring.
From S2P Require Import Quarantine AuthReport Rollout FailoverEngine SentinelClient SentinelRecovery.

Open Scope Z_scope.
Open Scope go_scope.

(** ** Definitions *)

Definition ConditionStaleMasterName : string := "StaleMasterName".

(** A range statement of littlered_controller.go. *)
Definition lc_site (line : Z) : site := [line; -4].

(** *** The gathered view *)

Definition ready_map (pods : list Pod) : gmap string bool :=
  foldl (λ m p, <[pod_Name p := redisContainerReady p]> m) ∅ pods.

Section Pass.
Context `{GoRuntime} (hmac_sha256 : string → string → string) (retries : nat) (namespace : string).

Definition sentinel_state (w : Wire) (redisPods sentinelPods : list Pod) (masterName : string)
  : ReplicationState :=
  GatherReplicationState (operatorGatherer w) (redis_map redisPods) (redis_map sentinelPods) masterName
    (owned_ips (redisPods ++ sentinelPods)).

(** Whether the Redis StatefulSet may still be rolling. *)
Definition rolling_of (r : StatefulSet + error) : bool :=
  match r with
  | inl sts => negb (statefulSetRolloutSettled sts)
  | inr err => negb (error_not_found err)
  end.

Definition read_rolling (lr : LittleRed) : prog bool :=
  r ← perform (GetStatefulSetUncached (statefulSetName lr));
  mret (rolling_of r).

(** *** Rule 0: Sentinels without a master *)

Definition reregister (lr : LittleRed) (state : ReplicationState) (password : string) : prog unit :=
  if rs_RealMasterIP state =? "" then mret tt
  else for_each (λ _ '(ip, sn),
         if negb (sn_Reachable sn) || sn_Monitoring sn then mret tt
         else _ ← register lr (address ip SentinelPort) password (rs_RealMasterIP state); mret tt)
       tt (go_range (lc_site 1177) (rs_SentinelNodes state)).

(** *** Rule N: stale master names *)

Record staleNameReport := mkStaleReport {
  sr_Status : ConditionStatus;
  sr_Reason : string;
  sr_Message : string;
  sr_Warn : bool;
}.

Definition planStaleMasterNameReport (plan : StaleMasterNamePlan) : staleNameReport :=
  if sm_Reason plan =? staleNamesConverged
  then mkStaleReport ConditionFalse (sm_Reason plan) (sm_Message plan) false
  else mkStaleReport ConditionTrue (sm_Reason plan) (sm_Message plan) (sm_Reason plan =? staleNamesForeign).

(** One entry: the Sentinel has to confirm the desired name first. *)
Definition prune_entry (desired password : string) (skipped : list string) (entry : staleEntry)
  : prog (list string) :=
  let addr := address (se_SentinelIP entry) SentinelPort in
  r ← sc_IsMonitoring password addr desired;
  match r with
  | inl true =>
      _ ← for_each (λ _ name, _ ← sc_Remove [addr] password name; mret tt) tt (se_Names entry);
      mret skipped
  | _ => mret (skipped ++ [se_SentinelPod entry])
  end.

Definition executeStaleMasterNamePrune (plan : StaleMasterNamePlan) (desired password : string)
  : prog (list string) :=
  if negb (sm_Reason plan =? staleNamesPruning) then mret []
  else for_each (prune_entry desired password) [] (sm_Prune plan).

Definition setStaleMasterNameCondition (lr : LittleRed) (rep : staleNameReport)
  : prog (LittleRed * option error) :=
  let prev := FindStatusCondition (ls_Conditions (lr_Status lr)) ConditionStaleMasterName in
  if bool_decide (prev = Some (mkCondition (sr_Status rep) (sr_Reason rep) (sr_Message rep)))
  then mret (lr, None)
  else
    let changed := match prev with None => true | Some c => negb (cond_Reason c =? sr_Reason rep) end in
    r ← RetryOnConflict retries
          (modify_status (λ st, set_condition st ConditionStaleMasterName (sr_Status rep) (sr_Reason rep)
                                  (sr_Message rep))
             (λ _ lr, lr) mirror_conditions) lr;
    match r with
    | (lr', Some err) => mret (lr', Some err)
    | (lr', None) =>
        if changed && sr_Warn rep
        then _ ← perform (Event EventTypeWarning (sr_Reason rep) (sr_Message rep)); mret (lr', None)
        else mret (lr', None)
    end.

Definition with_Message (plan : StaleMasterNamePlan) (msg : string) : StaleMasterNamePlan :=
  mkStaleMasterNamePlan (sm_Prune plan) (sm_Skipped plan) (sm_Reason plan) msg (sm_Gate plan).

Definition reconcileStaleMasterNames (lr : LittleRed) (state : ReplicationState) (desired password : string)
  (captured rolling : bool) : prog (LittleRed * StaleMasterNamePlan * option error) :=
  let plan := planStaleMasterNames (Some state) desired (sentinelQuorum lr) captured rolling in
  skipped ← executeStaleMasterNamePrune plan desired password;
  let plan := match skipped with
              | [] => plan
              | _ => with_Message plan (sm_Message plan +:+
                       "; skipped at the pre-REMOVE re-confirm (did not confirm " +:+ Quote desired +:+
                       " when asked " +:+ "directly, Rule 0 registers it next pass): " +:+
                       str_join ", " (sort_strings skipped))
              end in
  r ← setStaleMasterNameCondition lr (planStaleMasterNameReport plan);
  mret (r.1, plan, r.2).

(** *** Rule A: the stalled failover

    [stalledFailover] is whether this instance has been reported already. *)

Definition stalled_message (stalled : list string) : string :=
  "Sentinel(s) [" +:+ str_join " " stalled +:+ "] report a failover stuck in " +:+ Quote "reconf_slaves" +:+
  " with the promoted replica down. " +:+
  "It cannot end on its own and that Sentinel cannot start another failover for this master. " +:+
  "The operator is NOT standing down for this report; healing continues. " +:+
  "Clear it with `SENTINEL RESET <master-name>` against the named pod(s).".

Definition noteStalledFailover (already : bool) (state : ReplicationState) : prog bool :=
  if already then mret true
  else
    let stalled := sort_strings (sn_PodName <$>
                     bfilter FailoverStalled (range_values (lc_site 150) (rs_SentinelNodes state))) in
    _ ← perform (Event EventTypeWarning "SentinelFailoverStalled" (stalled_message stalled));
    mret true.

(** *** Misdirected Sentinels *)

(** The consensus master is a living pod that answers. *)
Definition live_consensus (state : ReplicationState) : bool :=
  negb (rs_RealMasterIP state =? "") && negb (IsGhost state (rs_RealMasterIP state)) &&
  match rs_RedisNodes state !! rs_RealMasterIP state with Some rn => rn_Reachable rn | None => false end.

(** It monitors a ghost, or a living pod that is not the master. *)
Definition misdirected (state : ReplicationState) (sn : SentinelNodeState) : bool :=
  live_consensus state && (IsGhost state (sn_MasterIP sn) || negb (sn_MasterIP sn =? rs_RealMasterIP state)).

(** The loop: whether a Sentinel was corrected, and whether a ghost replica was found. *)
Fixpoint heal_sentinels (lr : LittleRed) (state : ReplicationState) (password : string)
  (ghostMasterFound : bool) (nodes : list (string * SentinelNodeState)) : prog (bool * bool) :=
  match nodes with
  | [] => mret (ghostMasterFound, false)
  | (ip, sn) :: rest =>
      if negb (sn_Reachable sn) || negb (sn_Monitoring sn)
      then heal_sentinels lr state password ghostMasterFound rest
      else if misdirected state sn then
        let podAddr := address ip SentinelPort in
        _ ← sc_Remove [podAddr] password (SentinelMasterName lr);
        _ ← register lr podAddr password (rs_RealMasterIP state);
        heal_sentinels lr state password true rest
      else if existsb (ghost_replica state) (sn_Replicas sn) then mret (ghostMasterFound, true)
      else heal_sentinels lr state password ghostMasterFound rest
  end.

(** *** Rules D and R *)

Definition reachable_redis (state : ReplicationState) : Z :=
  len (bfilter rn_Reachable (range_values (lc_site 1519) (rs_RedisNodes state))).

Definition prune_ghosts (lr : LittleRed) (state : ReplicationState) (password : string) (ghostFound : bool)
  : prog unit :=
  let clusterWhole := (reachable_redis state =? SentinelRedisReplicas)%Z in
  if GhostReplicaResetSafe state ghostFound clusterWhole then
    addresses ← getSentinelAddresses namespace lr;
    _ ← sc_Reset addresses password (SentinelMasterName lr);
    mret tt
  else mret tt.

Definition applyReplicaRescue (state : ReplicationState) (password : string) : prog unit :=
  for_each (λ _ rn,
    _ ← SlaveOf (address (rn_IP rn) RedisPort) password (rs_RealMasterIP state) (itoa RedisPort);
    mret tt) tt (planReplicaRescue state).

(** *** The pass *)

(** The rules below Rule A; the local object is returned. *)
Definition heal_settled (lr : LittleRed) (state : ReplicationState) (redisMap : gmap string string)
  (password : string) : prog LittleRed :=
  g ← heal_sentinels lr state password false (go_range (lc_site 1357) (rs_SentinelNodes state));
  let '(ghostMasterFound, ghostFound) := g in
  if (ghostMasterFound : bool) then mret lr
  else if rs_RealMasterIP state =? "" then
    r1 ← recoverLeaderlessDeadlock retries lr state redisMap password;
    r2 ← recoverGhostMasterDeadlock retries r1.1 state redisMap password;
    mret r2.1
  else
    c1 ← clearLeaderlessSince retries lr reasonRecovered "A consensus master is known again.";
    c2 ← clearGhostMasterStuckSince retries c1.1 reasonRecovered "A consensus master is known again.";
    _ ← prune_ghosts c2.1 state password ghostFound;
    _ ← applyReplicaRescue state password;
    mret c2.1.

(** Everything after the capture verdict. *)
Definition heal_instance (lr : LittleRed) (state : ReplicationState) (redisMap : gmap string string)
  (password : string) (anyTerminating rolling stalled : bool) (captured : bool) (opInput : operationInput)
  : prog (LittleRed * bool) :=
  _ ← reregister lr state password;
  n ← reconcileStaleMasterNames lr state (SentinelMasterName lr) password captured rolling;
  let '(lr1, stalePlan, _) := n in
  let report := operationDriverReport stalePlan in
  o ← reconcileOperation retries lr1 (with_driver opInput report.1 report.2);
  let lr2 := o.1.1 in
  if anyTerminating || rs_FailoverProgressing state then
    _ ← (if negb anyTerminating then applyReplicaRescue state password else mret tt);
    mret (lr2, stalled)
  else
    stalled' ← (if rs_FailoverReported state && negb (rs_FailoverProgressing state)
                then noteStalledFailover stalled state else mret false);
    lr3 ← heal_settled lr2 state redisMap password;
    mret (lr3, stalled').

Definition reconcileSentinelCluster (stalled : bool) (lr : LittleRed)
  : prog (LittleRed * bool * option error) :=
  if ls_BootstrapRequired (lr_Status lr) then mret (lr, stalled, None)
  else
    password ← getRedisPassword lr;
    l ← perform ListDataPods;
    match l with
    | inr err => mret (lr, stalled, Some err)
    | inl redisPods =>
    l' ← perform ListSentinelPods;
    match l' with
    | inr err => mret (lr, stalled, Some err)
    | inl sentinelPods =>
        rolling ← read_rolling lr;
        w ← perform (ProbeServers password);
        let state := sentinel_state w redisPods sentinelPods (SentinelMasterName lr) in
        a ← reportOperatorAuth retries lr (replicationAuthFailures state);
        c ← capture_pass hmac_sha256 retries a.1 state (ready_map redisPods) rolling;
        match c with
        | (lr1, None) => mret (lr1, stalled, None)
        | (lr1, Some (fp, opInput)) =>
            r ← heal_instance lr1 state (redis_map redisPods) password
                  (existsb pod_Terminating (redisPods ++ sentinelPods)) rolling stalled (fk_Captured fp) opInput;
            mret (r.1, r.2, None)
        end
    end end.

End Pass.
