(* ===== verification/SentinelSafety.v ===== *)
(** * What a pass of Sentinel mode may do

    The commands [reconcileSentinelCluster] sends to Redis and to the Sentinels are justified
    by the ground truth it gathered in the same pass. *)

From S2P Require Import Prelude GoStrings Probe ClusterState ReplicationTypes.
From S2P Require Import Info Lineage ReplicationState Recovery Capture Gather Operations Kube OperationWiring.
From S2P Require Import Quarantine AuthReport Rollout FailoverEngine SentinelClient SentinelRecovery SentinelReconcile.

Open Scope Z_scope.
Open Scope go_scope.

(** ** Views *)

(** What one pass looks at: the two pod lists and the replies of the servers. *)
Record view := mkView {
  v_redis : list Pod;
  v_sentinel : list Pod;
  v_wire : Wire;
}.

Definition seen (tr : trace) (v : view) : Prop :=
  answered tr ListDataPods (inl (v_redis v)) ∧ answered tr ListSentinelPods (inl (v_sentinel v)) ∧
  ∃ password, answered tr (ProbeServers password) (v_wire v).

(** A pod of the instance is going away. *)
Definition churning (v : view) : bool := existsb pod_Terminating (v_redis v ++ v_sentinel v).

(** ** Commands *)

(** A query that is put to one address after the other. *)
Lemma ask_each_answers {A} P (F : trace → A → Prop) ask wrap addrs tr :
  (∀ tr addr, traced P (λ tr' r, ∀ a, r = inl a → F tr' a) tr (ask addr)) →
  ∀ last, traced P (λ tr' r, ∀ a, r = inl a → F tr' a) tr (ask_each ask wrap addrs last).
Proof.
  intros Hask. revert tr. induction addrs as [|addr addrs IH]; intros tr last; [done|]. cbn [ask_each].
  eapply traced_bind; [apply Hask|]. intros tr1 [a|e] _ Ha; [|apply IH]. apply traced_ret. done.
Qed.

(** The operations of the client, where [P] is what may be sent and [I] a lasting fact about
    the history that allows it. *)
Section Commands.
Context (lr : LittleRed) (P : trace → call → Prop).
Context (I : trace → Prop) (I_mono : ∀ tr tr', tr ⊆ tr' → I tr → I tr').

Abbreviation name := (SentinelMasterName lr).
Abbreviation keeps tr p := (traced P (λ tr' _, I tr') tr p).

Lemma keeps_seq {A B} tr (p : prog A) (f : A → prog B) :
  keeps tr p → (∀ tr' a, I tr' → keeps tr' (f a)) → keeps tr (p ≫= f).
Proof. intros Hp Hf. eapply traced_bind; [exact Hp|]. intros tr' a _. apply Hf. Qed.

Lemma keeps_perform c tr : (∀ tr, I tr → P tr c) → I tr → keeps tr (perform c).
Proof. intros Hc Ht. split; [by apply Hc|]. intros x. eapply I_mono; [apply grown|done]. Qed.

Lemma keeps_at_all ask benign failed addrs tr :
  I tr → (∀ tr addr, addr ∈ addrs → I tr → keeps tr (ask addr)) → keeps tr (at_all ask benign failed addrs).
Proof.
  intros Ht Hask. unfold at_all. apply keeps_seq; [|intros; by apply traced_ret].
  apply (traced_for_each _ (λ tr _, I tr)); [done|]. intros tr' b addr Ha Hi.
  apply keeps_seq; [by apply Hask|]. intros tr2 r Hr. by apply traced_ret.
Qed.

Lemma keeps_remove addr password n tr :
  (∀ tr, I tr → P tr (SentinelDo addr password (SentinelRemove n))) →
  I tr → keeps tr (sc_Remove [addr] password n).
Proof.
  intros Hm Ht. apply keeps_at_all; [done|]. intros tr' a ->%list_elem_of_singleton Hi. by apply keeps_perform.
Qed.

Lemma keeps_unit_loop {A} (body : A → prog unit) (l : list A) tr :
  I tr → (∀ tr x, x ∈ l → I tr → keeps tr (body x)) → keeps tr (for_each (λ _, body) tt l).
Proof. intros Ht Hb. apply (traced_for_each _ (λ tr _, I tr)); [done|]. intros tr' [] x. apply Hb. Qed.

Context (may_set : ∀ tr addr password opt value, I tr → P tr (SentinelDo addr password (SentinelSet name opt value))).

Lemma keeps_set addr password opt value tr : I tr → keeps tr (sc_Set [addr] password name opt value).
Proof. intros Ht. apply keeps_at_all; [done|]. intros tr' a _ Hi. apply keeps_perform; auto. Qed.

Lemma keeps_set_positive addr password opt value tr :
  I tr → keeps tr (set_positive addr password name opt value).
Proof.
  intros Ht. unfold set_positive. destruct (0 <? value)%Z; [|done].
  apply keeps_seq; [by apply keeps_set|]. intros. by apply traced_ret.
Qed.

Lemma keeps_register addr password ip tr :
  (∀ tr, I tr → P tr (SentinelDo addr password (SentinelMonitor name ip RedisPort (sentinelQuorum lr)))) →
  I tr → keeps tr (register lr addr password ip).
Proof.
  intros Hm Ht. unfold register. apply keeps_seq.
  { apply keeps_at_all; [done|]. intros tr' a ->%list_elem_of_singleton Hi. by apply keeps_perform. }
  intros tr1 [e|] Hi; [done|]. apply keeps_seq.
  { destruct (negb _); [|done]. apply keeps_seq; [by apply keeps_set|]. intros. by apply traced_ret. }
  intros tr2 _ Hi2. apply keeps_seq; [|intros; by apply traced_ret]. unfold applySentinelSettings.
  destruct (lr_Sentinel lr); [|done]. do 2 (apply keeps_seq; [by apply keeps_set_positive|]; intros).
  by apply keeps_set_positive.
Qed.

Context (may_ask : ∀ tr addr password, P tr (SentinelDo addr password (GetMasterAddrByName name))).

(** The answer of one Sentinel. *)
Lemma GetMaster_answers password addr tr :
  traced P (λ tr' r, ∀ info, r = inl info →
    answered tr' (SentinelDo addr password (GetMasterAddrByName name)) (inl [info.1; info.2])) tr
    (sc_GetMaster [addr] password name).
Proof.
  eapply (traced_bind _ (λ tr' r, ∀ info, r = inl info →
    answered tr' (SentinelDo addr password (GetMasterAddrByName name)) (inl [info.1; info.2]))).
  - apply traced_call; [apply may_ask|]. intros [[|ip [|port [|? ?]]]|e]; apply traced_ret; try done.
    intros info [= <-]. apply just_answered.
  - intros tr1 [info|e] _ Hr; apply traced_ret; [done|]. by intros info.
Qed.

(** Pointing a Sentinel at a master: what it monitors is removed only if it named another one. *)
Lemma keeps_seed_pod ip password acc pod tr :
  (∀ tr addr, I tr → P tr (SentinelDo addr password (SentinelMonitor name ip RedisPort (sentinelQuorum lr)))) →
  (∀ tr addr old port, I tr → old ≠ ip →
     answered tr (SentinelDo addr password (GetMasterAddrByName name)) (inl [old; port]) →
     P tr (SentinelDo addr password (SentinelRemove name))) →
  I tr → keeps tr (seed_pod lr ip password acc pod).
Proof.
  intros Hmon Hrem Ht. destruct acc as [configured total]. unfold seed_pod. destruct (_ || _); [done|]. cbv zeta.
  set (addr := address (pod_IP pod) SentinelPort). set (point := register lr addr password ip ≫= _).
  assert (Hpoint : ∀ tr, I tr → keeps tr point).
  { intros tr' Hi. apply keeps_seq; [|intros; by apply traced_ret]. apply keeps_register; auto. }
  eapply traced_bind; [apply traced_grows, GetMaster_answers|]. intros tr1 [info|e] Hs [_ Hans].
  2: { apply Hpoint. by eapply I_mono. }
  destruct (String.eqb_spec info.1 ip) as [|Hne]; [apply traced_ret; by eapply I_mono|].
  specialize (Hans _ eq_refl). eapply (traced_bind _ (λ tr' _, I tr')); [|intros tr2 r _ Hi; by apply Hpoint].
  unfold sc_Remove, at_all. cbn [for_each]. apply traced_call.
  { apply (Hrem tr1 addr info.1 info.2); [by eapply I_mono|done|exact Hans]. }
  intros x. apply traced_ret. eapply I_mono; [|exact Ht]. etrans; [exact Hs|apply grown].
Qed.

End Commands.

Section Justified.
Context `{GoRuntime} (lr : LittleRed) (v : view).

Abbreviation name := (SentinelMasterName lr).

Definition state_of : ReplicationState := sentinel_state (v_wire v) (v_redis v) (v_sentinel v) name.
Abbreviation st := state_of.
Abbreviation master := (rs_RealMasterIP state_of).

(** Neither Kubernetes nor Sentinel is at work. *)
Definition settled : Prop := churning v = false ∧ rs_FailoverProgressing st = false.

(** The instance is neither given up as captured nor scaled down. *)
Definition managed (tr : trace) : Prop :=
  ls_BootstrapRequired (lr_Status lr) = false ∧
  ∃ now sts, answered tr Now now ∧ answered tr (GetStatefulSetUncached (statefulSetName lr)) sts ∧
    let '(fp, q) := capture_plans lr st (ready_map (v_redis v)) (rolling_of sts) now in
    qp_ScaleToZero q = false ∧ fk_Forsaken fp = false.

(** [ip] is elected: no master is known, a deadlock has outlasted its cooldown, and the
    election is sound. *)
Definition elected (tr : trace) (ip : string) : Prop :=
  settled ∧ master = "" ∧
  (server_ids (v_wire v) → ∃ unsafe, sound_election st (allowUnsafeElection lr) (ip, unsafe)) ∧
  ∃ now, answered tr Now now ∧
    ((bare_deadlock st (sentinelQuorum lr) ∧
      elapsed (ls_LeaderlessSince (lr_Status lr)) now leaderlessRecoveryCooldown) ∨
     (ghost_deadlock st (sentinelQuorum lr) ∧
      elapsed (ls_GhostMasterStuckSince (lr_Status lr)) now ghostMasterRecoveryCooldown)).

(** The Sentinel at an address, as gathered. *)
Definition sentinel_at (addr : string) (sn : SentinelNodeState) : Prop :=
  ∃ ip, rs_SentinelNodes st !! ip = Some sn ∧ addr = address ip SentinelPort ∧ sn_Reachable sn = true.

(** It answers and monitors something other than the living master. *)
Definition astray (addr : string) : Prop :=
  settled ∧ live_consensus st = true ∧
  ∃ sn, sentinel_at addr sn ∧ sn_Monitoring sn = true ∧ sn_MasterIP sn ≠ master.

Definition justified_sentinel (tr : trace) (addr password : string) (cmd : sentinel_command) : Prop :=
  match cmd with
  | SentinelMonitor n ip port q =>
      n = name ∧ port = RedisPort ∧ q = sentinelQuorum lr ∧
      ((ip = master ∧ master ≠ "" ∧
        ((∃ sn, sentinel_at addr sn ∧ sn_Monitoring sn = false) ∨ astray addr)) ∨
       elected tr ip)
  | SentinelSet n _ _ => n = name
  | SentinelRemove n =>
      (n = name ∧ astray addr) ∨
      (n = name ∧ ∃ ip old port, elected tr ip ∧ old ≠ ip ∧
         answered tr (SentinelDo addr password (GetMasterAddrByName name)) (inl [old; port])) ∨
      (∃ e reply, prune_safe st name (sentinelQuorum lr) e ∧ n ∈ se_Names e ∧
         addr = address (se_SentinelIP e) SentinelPort ∧
         answered tr (SentinelDo addr password (GetMasterAddrByName name)) (inl reply))
  | SentinelReset n =>
      n = name ∧ settled ∧ live_consensus st = true ∧ HasHealthyKnownReplica st = true ∧
      reachable_redis st = SentinelRedisReplicas ∧
      ∃ sn r, sn ∈ sentinels st ∧ r ∈ sn_Replicas sn ∧ ghost_replica st r = true
  | GetMasterAddrByName _ | SentinelReplicas _ => True
  end.

Definition justified (tr : trace) (c : call) : Prop :=
  match c with
  | SentinelDo addr password cmd => justified_sentinel tr addr password cmd
  | ReplicaOf addr _ None =>
      ∃ ip, addr = address ip RedisPort ∧ needsPromotion st ip = true ∧ elected tr ip
  | ReplicaOf addr _ (Some (m, port)) =>
      m = master ∧ master ≠ "" ∧ port = itoa RedisPort ∧ churning v = false ∧
      ∃ ip rn, rs_RedisNodes st !! ip = Some rn ∧ addr = address (rn_IP rn) RedisPort ∧
        rn_Reachable rn = true ∧ ip ≠ master ∧ ¬ sentinel_promoted st ip ∧
        (rn_Role rn = RoleMaster ∨ rn_MasterHost rn ≠ master)
  | Apply _ | Delete _ _ | PatchPod _ _ | UpdatePod _ | ClusterDo _ _ | UpdateLittleRed _ => False
  | _ => True
  end.

(** ** The local object *)

(** Handlers that only report. *)
Definition reporting (c : call) : Prop :=
  match c with
  | GetLittleRed | UpdateStatus _ | Now | Event _ _ _ | GetStatefulSetUncached _ => True
  | _ => False
  end.

(** The object, up to its status and with the given markers untouched. *)
Definition same_spec (lr' : LittleRed) : Prop := ∃ s, lr' = set_lr_Status lr s.
Definition ghost_kept (lr' : LittleRed) : Prop :=
  same_spec lr' ∧ ls_GhostMasterStuckSince (lr_Status lr') = ls_GhostMasterStuckSince (lr_Status lr).
Definition kept (lr' : LittleRed) : Prop :=
  ghost_kept lr' ∧ ls_LeaderlessSince (lr_Status lr') = ls_LeaderlessSince (lr_Status lr).

Lemma same_spec_status lr' s : same_spec lr' → same_spec (set_lr_Status lr' s).
Proof. intros [s' ->]. by exists s. Qed.

Lemma kept_status lr' s :
  ls_GhostMasterStuckSince s = ls_GhostMasterStuckSince (lr_Status lr') →
  ls_LeaderlessSince s = ls_LeaderlessSince (lr_Status lr') → kept lr' → kept (set_lr_Status lr' s).
Proof.
  intros Hg Hl [[Hs Hg'] Hl']. split; [split; [by apply same_spec_status|]|]; simpl; congruence.
Qed.

Lemma kept_refl : kept lr.
Proof. split; [split; [|done]|done]. exists (lr_Status lr). by destruct lr. Qed.

Lemma retry_modify_reporting (I : LittleRed → Prop) n f local mirror lr' :
  I lr' → (∀ x l, I l → I (local x l)) → (∀ x l, I l → I (mirror x l)) →
  safe reporting (λ r, I r.1) (RetryOnConflict n (modify_status f local mirror) lr').
Proof.
  intros Hlr Hl Hm. apply (safe_RetryOnConflict _ I); [done|]. intros l Hi.
  apply safe_call; [done|]. intros [latest|e]; [|by split].
  apply safe_call; [done|]. intros [w|e]; split; simpl; auto.
Qed.

Lemma reportOperatorAuth_reporting n failures :
  safe reporting (λ r, ∃ c, r.1 = with_Conditions lr c) (reportOperatorAuth n lr failures).
Proof.
  assert (Hlr : ∃ c, lr = with_Conditions lr c).
  { exists (ls_Conditions (lr_Status lr)). destruct lr as [? ? ? ? ? ? ? ? ? ? ? ? ? ? ? ? ? []]. done. }
  unfold reportOperatorAuth. destruct (report_unchanged _ _); [done|].
  apply (safe_bind _ (λ r, ∃ c, r.1 = with_Conditions lr c)).
  - apply (safe_RetryOnConflict _ (λ l, ∃ c, l = with_Conditions lr c)); [done|]. intros l Hl.
    apply safe_call; [done|]. intros [latest|e]; [|by split].
    apply safe_call; [done|]. intros [w|e]; [|by split]. destruct Hl as [c ->]. split; by eexists.
  - intros [l [e|]] Hl; [done|]. simpl in Hl. destruct (negb _ && _); [|done]. by apply safe_call.
Qed.

Lemma setForsaken_reporting n lr' t foreign forsaken q :
  kept lr' → safe reporting (λ r, kept r.1) (setForsaken n lr' t foreign forsaken q).
Proof.
  intros Hk. unfold setForsaken. apply (safe_bind _ (λ r, kept r.1)).
  - apply retry_modify_reporting; [done| |]; intros x l; apply kept_status; try done;
      unfold mark_forsaken; repeat case_match; done.
  - intros [l [e|]] Hl; [done|]. simpl in Hl. destruct (_ && _); [|done]. by apply safe_call.
Qed.

Lemma clearForsaken_reporting n lr' q : kept lr' → safe reporting (λ r, kept r.1) (clearForsaken n lr' q).
Proof.
  intros Hk. unfold clearForsaken. destruct (unset _ && _ && _ && _); [done|].
  apply retry_modify_reporting; [done| |]; intros x l; apply kept_status; try done;
    unfold clear_markers; repeat case_match; done.
Qed.

Lemma reconcileOperation_reporting n lr' in_ :
  kept lr' → safe reporting (λ r, kept r.1.1) (reconcileOperation n lr' in_).
Proof.
  intros Hk. unfold reconcileOperation. apply (safe_bind _ (λ r, kept r.1)); [|done].
  unfold applyOperationStatus. destruct (operation_unchanged _ _ _); [done|].
  apply (safe_bind _ (λ r, kept r.1)).
  - apply retry_modify_reporting; [done|done|]. intros x l. by apply kept_status.
  - intros [l [e|]] Hl; [done|]. simpl in Hl. destruct (negb _); [done|]. destruct (operation_event _); [|done].
    by apply safe_call.
Qed.

Lemma setStaleMasterNameCondition_reporting n lr' rep :
  kept lr' → safe reporting (λ r, kept r.1) (setStaleMasterNameCondition n lr' rep).
Proof.
  intros Hk. unfold setStaleMasterNameCondition. case_bool_decide; [done|].
  apply (safe_bind _ (λ r, kept r.1)).
  - apply retry_modify_reporting; [done|done|]. intros x l. by apply kept_status.
  - intros [l [e|]] Hl; [done|]. simpl in Hl. destruct (_ && sr_Warn rep); [|done]. by apply safe_call.
Qed.

Lemma statefulsets_settled_reporting names : calls_only reporting (statefulsets_settled names).
Proof.
  induction names as [|n names IH]; [done|]. cbn [statefulsets_settled].
  apply safe_call; [done|]. by intros [sts|e]; case_match.
Qed.

(** A report is allowed wherever reporting is. *)
Lemma report_traced {A} P (Q : A → Prop) tr p :
  (∀ tr c, reporting c → P tr c) → safe reporting Q p → traced P (λ _ a, Q a) tr p.
Proof. intros HP Hp. apply traced_safe. eapply safe_mono; [|done|exact Hp]. auto. Qed.

Lemma not_captured_not_forsaken s since now rolling :
  fk_Captured (planForsaken s since now rolling) = false → fk_Forsaken (planForsaken s since now rolling) = false.
Proof. unfold planForsaken. by repeat case_match. Qed.

(** The pass goes on only for an instance that is managed. *)
Lemma capture_pass_verdict hmac n lr' ready rolling tr :
  (∃ c, lr' = with_Conditions lr c) →
  traced (λ _ c, reporting c)
    (λ tr' r, kept r.1 ∧ ∀ fp oi, r.2 = Some (fp, oi) →
       ∃ now q, answered tr' Now now ∧ capture_plans lr st ready rolling now = (fp, q) ∧
         qp_ScaleToZero q = false ∧ fk_Forsaken fp = false) tr
    (capture_pass hmac n lr' st ready rolling).
Proof.
  intros [c ->]. assert (Hk : kept (with_Conditions lr c)) by (apply kept_status; [done..|apply kept_refl]).
  unfold capture_pass. apply traced_call; [done|]. intros now.
  change (capture_plans (with_Conditions lr c) st ready rolling now) with (capture_plans lr st ready rolling now).
  destruct (capture_plans lr st ready rolling now) as [fp q] eqn:Hq.
  eapply traced_bind; [apply (report_traced _ (λ _, True)); [done|apply statefulsets_settled_reporting]|].
  intros tr1 settled' Hs1 _. pose proof (Hs1 _ (just_answered tr Now now)) as Hnow.
  destruct (qp_ScaleToZero q) eqn:Hz; [|destruct (fk_Captured fp) eqn:Hc].
  - apply traced_call; [done|]. intros t.
    eapply traced_bind; [apply (report_traced _ (λ r, kept r.1)); [done|apply setForsaken_reporting, Hk]|].
    intros tr2 r Hs2 Hr.
    eapply traced_bind; [apply (report_traced _ (λ r, kept r.1.1)); [done|apply reconcileOperation_reporting, Hr]|].
    intros tr3 o Hs3 Ho. by split.
  - apply traced_call; [done|]. intros t.
    eapply traced_bind; [apply (report_traced _ (λ r, kept r.1)); [done|apply setForsaken_reporting, Hk]|].
    intros tr2 r Hs2 Hr. destruct (fk_Forsaken fp) eqn:Hf; split; [done|done|done|].
    intros fp' oi [= <- _]. exists now, q. split; [|done]. apply Hs2, (grown tr1 Now t), Hnow.
  - eapply traced_bind; [apply (report_traced _ (λ r, kept r.1)); [done|apply clearForsaken_reporting, Hk]|].
    intros tr2 r Hs2 Hr. split; [done|]. intros fp' oi [= <- _]. exists now, q.
    split; [by apply Hs2|]. split; [done|]. split; [done|].
    unfold capture_plans in Hq. destruct (quarantineDataRisk _ _ _). injection Hq as <- _.
    by apply not_captured_not_forsaken.
Qed.

(** ** The rules *)

Abbreviation allowed tr p := (traced justified (λ _ _, True) tr p).

Lemma always_mono : ∀ tr tr' : trace, tr ⊆ tr' → True → True.
Proof. done. Qed.

Lemma allowed_seq {A B} tr (p : prog A) (f : A → prog B) :
  allowed tr p → (∀ tr' a, tr ⊆ tr' → allowed tr' (f a)) → allowed tr (p ≫= f).
Proof. intros Hp Hf. eapply traced_bind; [exact Hp|]. auto. Qed.

Lemma same_register lr' addr password ip : same_spec lr' → register lr' addr password ip = register lr addr password ip.
Proof. by intros [s ->]. Qed.

Lemma same_name lr' : same_spec lr' → SentinelMasterName lr' = name.
Proof. by intros [s ->]. Qed.

Lemma reregister_allowed lr' password tr : same_spec lr' → allowed tr (reregister lr' st password).
Proof.
  intros Hs. unfold reregister. destruct (String.eqb_spec master "") as [|Hm]; [done|].
  apply (traced_for_each _ (λ _ _, True)); [done|]. intros tr' _ [ip sn] Hin _.
  apply elem_of_go_range in Hin. destruct (sn_Reachable sn) eqn:Hr, (sn_Monitoring sn) eqn:Hmon; try done.
  cbn [negb orb]. apply allowed_seq; [|done]. rewrite same_register by done.
  apply (keeps_register lr justified (λ _, True)); [done|done| |done]. intros tr1 _. split; [done|]. split; [done|]. split; [done|].
  left. split; [done|]. split; [done|]. left. exists sn. split; [|done]. by exists ip.
Qed.

Lemma IsMonitoring_confirms password addr tr :
  traced justified (λ tr' r, r = inl true →
    ∃ reply, answered tr' (SentinelDo addr password (GetMasterAddrByName name)) (inl reply)) tr
    (sc_IsMonitoring password addr name).
Proof.
  apply traced_call; [done|]. intros [reply|e].
  - intros _. exists reply. apply just_answered.
  - apply traced_ret. by destruct (_ || _).
Qed.

Lemma prune_entry_allowed password skipped e tr :
  prune_safe st name (sentinelQuorum lr) e → allowed tr (prune_entry name password skipped e).
Proof.
  intros He. unfold prune_entry. eapply traced_bind; [apply IsMonitoring_confirms|].
  intros tr1 [[]|err] _ Hconf; try done. destruct (Hconf eq_refl) as [reply Hreply].
  set (I := λ tr, answered tr (SentinelDo (address (se_SentinelIP e) SentinelPort) password
                    (GetMasterAddrByName name)) (inl reply)).
  assert (I_mono : ∀ tr tr' : trace, tr ⊆ tr' → I tr → I tr') by (intros ?? Hs; apply Hs).
  apply allowed_seq; [|done]. eapply traced_mono; [done|done|].
  apply (keeps_unit_loop justified I); [exact Hreply|]. intros tr2 n Hn Hi.
  apply (keeps_seq justified I); [|intros; by apply traced_ret].
  apply (keeps_remove justified I I_mono); [|done]. intros tr3 Hi3. right. right. by exists e, reply.
Qed.

Lemma reconcileStaleMasterNames_allowed n lr' password captured rolling tr :
  kept lr' → traced justified (λ _ r, kept r.1.1) tr
    (reconcileStaleMasterNames n lr' st name password captured rolling).
Proof.
  intros Hk. unfold reconcileStaleMasterNames.
  assert (sentinelQuorum lr' = sentinelQuorum lr) as -> by (by destruct Hk as [[[s ->] _] _]).
  eapply (traced_bind _ (λ _ _, True)).
  - unfold executeStaleMasterNamePrune. destruct (negb _); [done|].
    apply (traced_for_each _ (λ _ _, True)); [done|]. intros tr' skipped e He _.
    apply prune_entry_allowed. by apply pruned_safely in He as (_ & _ & ?).
  - intros tr1 skipped _ _. cbv zeta. eapply traced_bind.
    + apply (report_traced _ (λ r, kept r.1)); [|by apply setStaleMasterNameCondition_reporting].
      by intros ? [].
    + intros tr2 r _ Hr. by apply traced_ret.
Qed.

(** *** Elections *)

Lemma elected_mono ip tr tr' : tr ⊆ tr' → elected tr ip → elected tr' ip.
Proof.
  intros Hs (Hset & Hm & Hsound & now & Hnow & Hd). split; [done|]. split; [done|]. split; [done|].
  exists now. split; [by apply Hs|done].
Qed.

Lemma state_keyed k n : rs_RedisNodes st !! k = Some n → rn_IP n = k.
Proof.
  unfold state_of, sentinel_state. rewrite gathered_node. intros (pod & _ & ->)%fmap_Some.
  apply probe_redis_operator.
Qed.

Lemma seed_pod_allowed ip password acc pod tr :
  elected tr ip → traced justified (λ tr' _, elected tr' ip) tr (seed_pod lr ip password acc pod).
Proof.
  apply (keeps_seed_pod lr justified (λ tr, elected tr ip)); [apply elected_mono|done|done| |].
  - intros tr' addr He. split; [done|]. split; [done|]. split; [done|]. by right.
  - intros tr' addr old port He Hne Hans. right. left. split; [done|]. by exists ip, old, port.
Qed.

Lemma electMaster_allowed lr' ip password tr :
  same_spec lr' → elected tr ip → allowed tr (electMaster lr' st ip password).
Proof.
  intros [s ->] He. unfold electMaster. cbv zeta.
  set (seed := seedSentinelsWithMaster _ _ _ ≫= _).
  assert (Hseed : ∀ tr, elected tr ip → allowed tr seed).
  { intros tr' He'. apply allowed_seq; [|done]. apply traced_call; [done|]. intros [pods|e]; [|done].
    apply allowed_seq; [|done]. eapply traced_mono; [done|done|].
    apply (traced_for_each _ (λ tr _, elected tr ip)); [by eapply elected_mono; [apply grown|]|].
    intros tr2 acc pod _ He2. by apply (seed_pod_allowed ip password acc pod). }
  destruct (needsPromotion st ip) eqn:Hp; [|by apply Hseed].
  apply traced_call; [by exists ip|]. intros [e|]; [done|]. apply Hseed.
  eapply elected_mono; [apply grown|done].
Qed.

Lemma reporting_justified tr c : reporting c → justified tr c.
Proof. by destruct c. Qed.

(** The markers: [K] is what they leave of the local object. *)
Section Markers.
Context (K : LittleRed → Prop) (m : deadlock_marker) (K_marker : ∀ l t, K l → K (with_marker m l t)).

Lemma stamp_reporting n lr' t : K lr' → safe reporting (λ r, K r.1) (set_marker n m lr' t).
Proof.
  intros Hk. apply (safe_RetryOnConflict _ K); [done|]. intros l Hl. apply safe_call; [done|].
  intros [latest|e]; [|by split]. destruct (dm_since m _); [by split|]. apply safe_call; [done|].
  intros w. split; by apply K_marker.
Qed.

Lemma clear_reporting n lr' reason msg : K lr' → safe reporting (λ r, K r.1) (clear_marker n m lr' reason msg).
Proof.
  intros Hk. unfold clear_marker. destruct (dm_since m _); [|done].
  apply (safe_RetryOnConflict _ K); [done|]. intros l Hl. apply safe_call; [done|].
  intros [latest|e]; [|by split]. destruct (dm_since m _); [|by split]. apply safe_call; [done|].
  intros w. split; by apply K_marker.
Qed.

Lemma condition_reporting n lr' status reason msg :
  K lr' → safe reporting (λ r, K r.1) (set_marker_condition n m lr' status reason msg).
Proof.
  intros Hk. apply calls_only_bind; [|done].
  apply (safe_RetryOnConflict _ (λ _, True)); [done|]. intros [] _. apply safe_call; [done|].
  intros [latest|e]; [|done]. by apply safe_call.
Qed.

Lemma elect_and_report_allowed n lr' ip password kind reason msg tr :
  same_spec lr' → K lr' → elected tr ip →
  traced justified (λ _ r, K r.1) tr (elect_and_report n m lr' st ip password kind reason msg).
Proof.
  intros Hs Hk He. eapply traced_bind; [by apply electMaster_allowed|]. intros tr1 [e|] _ _; [done|].
  apply traced_call; [done|]. intros [].
  apply report_traced; [apply reporting_justified|by apply clear_reporting].
Qed.

Lemma execute_recovery_allowed n tx lr' redisMap password plan tr :
  same_spec lr' → K lr' → (∀ e, leaderless_elects plan = Some e → elected tr e.1) →
  traced justified (λ _ r, K r.1) tr (execute_recovery n m tx lr' st redisMap password plan).
Proof.
  intros Hs Hk He. assert (Hnode : ∀ ip kind reason text, elected tr ip →
    traced justified (λ _ r, K r.1) tr (elect_node n m lr' st ip password kind reason text)).
  { intros ip kind reason text Hip. unfold elect_node.
    destruct (rs_RedisNodes st !! ip) as [h|] eqn:Hh; [|done].
    apply elect_and_report_allowed; [done|done|]. by rewrite (state_keyed _ _ Hh). }
  assert (Hrefuse : ∀ reason msg, traced justified (λ _ r, K r.1) tr
    (_ ← perform (Event EventTypeWarning reason msg); set_marker_condition n m lr' ConditionTrue reason msg)).
  { intros reason msg. apply traced_call; [done|]. intros [].
    apply report_traced; [apply reporting_justified|by apply condition_reporting]. }
  unfold execute_recovery, leaderless_elects in *. cbv zeta.
  destruct (lp_action plan); try apply Hrefuse; try (apply Hnode; exact (He _ eq_refl)); try done.
  - apply report_traced; [apply reporting_justified|by apply clear_reporting].
  - apply traced_call; [done|]. intros t. apply report_traced; [apply reporting_justified|by apply stamp_reporting].
  - apply elect_and_report_allowed; [done|done|]. exact (He _ eq_refl).
Qed.

End Markers.

Lemma recoverLeaderlessDeadlock_allowed n lr' redisMap password tr :
  settled → master = "" → kept lr' →
  traced justified (λ _ r, ghost_kept r.1) tr (recoverLeaderlessDeadlock n lr' st redisMap password).
Proof.
  intros Hset Hm [[Hs Hg] Hl]. apply traced_call; [done|]. intros now.
  apply execute_recovery_allowed; [|done|done|].
  { intros l t [Hs' Hg']. split; [by apply same_spec_status|done]. }
  destruct Hs as [s ->]. cbn [lr_Status set_lr_Status] in Hl. cbn [set_lr_Status lr_Status].
  pose proof (leaderless_election_facts st (sentinelQuorum lr) (allowUnsafeElection lr)
    (pickBootstrapMasterIP (lr_Name lr) redisMap) (ls_LeaderlessSince s) now leaderlessRecoveryCooldown)
    as [Hsound Hiff].
  intros [ip unsafe] He. specialize (Hsound _ He). apply mk_is_Some, Hiff in He as (Hd & Helapsed & _).
  split; [done|]. split; [done|]. split; [by exists unsafe|].
  exists now. split; [apply just_answered|]. left. by rewrite <-Hl.
Qed.

Lemma recoverGhostMasterDeadlock_allowed n lr' redisMap password tr :
  settled → master = "" → ghost_kept lr' →
  traced justified (λ _ r, same_spec r.1) tr (recoverGhostMasterDeadlock n lr' st redisMap password).
Proof.
  intros Hset Hm [Hs Hg]. apply traced_call; [done|]. intros now.
  apply execute_recovery_allowed; [|done|done|].
  { intros l t. apply same_spec_status. }
  destruct Hs as [s ->]. cbn [lr_Status set_lr_Status] in Hg. cbn [set_lr_Status lr_Status].
  intros [ip unsafe] He. split; [done|]. split; [done|]. split.
  - intros Hids. exists unsafe. by apply (ghost_election_facts st (sentinelQuorum lr) (allowUnsafeElection lr)
      (pickBootstrapMasterIP (lr_Name lr) redisMap) (ls_GhostMasterStuckSince s) now
      ghostMasterRecoveryCooldown (operator_gathered_facts _ _ _ _ _ Hids)).
  - exists now. split; [apply just_answered|]. right. rewrite <-Hg.
    by apply (ghost_election_gate _ _ _ _ _ _ _ (ip, unsafe)) in He.
Qed.

(** *** Misdirected Sentinels, ghosts and strays *)

Lemma heal_sentinels_allowed lr' password found nodes tr :
  settled → same_spec lr' → (∀ ip sn, (ip, sn) ∈ nodes → rs_SentinelNodes st !! ip = Some sn) →
  traced justified (λ _ g, g.2 = true → ∃ sn r, sn ∈ sentinels st ∧ r ∈ sn_Replicas sn ∧ ghost_replica st r = true)
    tr (heal_sentinels lr' st password found nodes).
Proof.
  intros Hset Hs. revert found tr. induction nodes as [|[ip sn] nodes IH]; intros found tr Hnodes; [done|].
  assert (Hin : rs_SentinelNodes st !! ip = Some sn) by (apply Hnodes; constructor).
  assert (Hrest : ∀ k n, (k, n) ∈ nodes → rs_SentinelNodes st !! k = Some n) by (intros; apply Hnodes; by constructor).
  cbn [heal_sentinels]. destruct (sn_Reachable sn) eqn:Hr, (sn_Monitoring sn) eqn:Hmon; try by apply IH.
  cbn [negb orb]. destruct (misdirected st sn) eqn:Hmis.
  - assert (Ha : astray (address ip SentinelPort)).
    { apply andb_true_iff in Hmis as [Hlive Hm]. split; [done|]. split; [done|].
      exists sn. split; [by exists ip|]. split; [done|]. intros Heq. rewrite Heq in Hm.
      apply andb_true_iff in Hlive as [[_ Hg%negb_true_iff]%andb_true_iff _].
      rewrite Hg, String.eqb_refl in Hm. done. }
    assert (Hne : master ≠ "").
    { destruct Ha as (_ & [[Hne%negb_true_iff%String.eqb_neq _]%andb_true_iff _]%andb_true_iff & _). done. }
    rewrite same_name by done. eapply traced_bind.
    { apply (keeps_remove justified (λ _, True)); [done| |done]. intros tr1 _. by left. }
    intros tr1 r1 _ _. rewrite same_register by done. eapply traced_bind.
    { apply (keeps_register lr justified (λ _, True)); [done|done| |done]. intros tr2 _.
      split; [done|]. split; [done|]. split; [done|]. left. split; [done|]. split; [done|]. by right. }
    intros tr2 r2 _ _. by apply IH.
  - destruct (existsb _ _) eqn:Hg; [|by apply IH]. intros _.
    apply existsb_exists in Hg as (r & Hri%list_elem_of_In & Hgr). exists sn, r. split; [|done].
    unfold sentinels. apply list_elem_of_fmap. exists (ip, sn). split; [done|]. by apply elem_of_map_to_list.
Qed.

Lemma prune_ghosts_allowed ns lr' password found tr :
  settled → same_spec lr' →
  (found = true → ∃ sn r, sn ∈ sentinels st ∧ r ∈ sn_Replicas sn ∧ ghost_replica st r = true) →
  allowed tr (prune_ghosts ns lr' st password found).
Proof.
  intros Hset Hs Hfound. unfold prune_ghosts, GhostReplicaResetSafe. cbv zeta.
  destruct found; [|done]. destruct (Z.eqb_spec (reachable_redis st) SentinelRedisReplicas) as [Hw|]; [|done].
  cbn [negb orb]. destruct (_ || _) eqn:Hm; [done|]. apply orb_false_iff in Hm as [Hm Hg].
  destruct (rs_RedisNodes st !! _) as [rn|] eqn:Hrn; [|done]. destruct (rn_Reachable rn) eqn:Hr; [|done].
  cbn [negb]. destruct (HasHealthyKnownReplica st) eqn:Hh; [|done].
  apply allowed_seq; [by apply traced_call|]. intros tr1 addrs _. apply allowed_seq; [|done].
  apply (keeps_at_all justified (λ _, True)); [done|]. intros tr2 addr _ _. apply (keeps_perform justified (λ _, True)); [done| |done].
  intros tr3 _. split; [by apply same_name|]. split; [done|]. split; [|by auto].
  unfold live_consensus. by rewrite Hm, Hg, Hrn.
Qed.

Lemma applyReplicaRescue_allowed password tr :
  churning v = false → allowed tr (applyReplicaRescue st password).
Proof.
  intros Hc. unfold applyReplicaRescue, planReplicaRescue.
  destruct (String.eqb_spec master "") as [|Hm]; [done|]. apply (traced_for_each _ (λ _ _, True)); [done|].
  intros tr1 _ rn Hrn _. rewrite sort_slice_perm, elem_of_stray in Hrn.
  destruct Hrn as (ip & Hip & Hs%stray_spec). unfold SlaveOf.
  rewrite (proj2 (String.eqb_neq _ _) Hm). apply traced_call; [|done].
  split; [done|]. split; [done|]. split; [done|]. split; [done|]. exists ip, rn.
  destruct Hs as (? & ? & ? & ?). by auto 10.
Qed.

(** *** The pass *)

Lemma heal_settled_allowed n ns lr' redisMap password tr :
  settled → kept lr' → traced justified (λ _ l, same_spec l) tr (heal_settled n ns lr' st redisMap password).
Proof.
  intros Hset Hk. pose proof Hk as [[Hs _] _]. unfold heal_settled. eapply traced_bind.
  { apply heal_sentinels_allowed; [done|done|]. intros ip sn. by rewrite elem_of_go_range. }
  intros tr1 [[|] found] _ Hfound; [done|]. destruct (String.eqb_spec master "") as [Hm|Hm].
  - eapply traced_bind; [by apply recoverLeaderlessDeadlock_allowed|]. intros tr2 r1 _ Hr1.
    eapply traced_bind; [by apply recoverGhostMasterDeadlock_allowed|]. done.
  - eapply traced_bind.
    { apply (report_traced _ (λ r, same_spec r.1)); [apply reporting_justified|].
      apply clear_reporting; [intros l t; apply same_spec_status|done]. }
    intros tr2 c1 _ Hc1. eapply traced_bind.
    { apply (report_traced _ (λ r, same_spec r.1)); [apply reporting_justified|].
      apply clear_reporting; [intros l t; apply same_spec_status|done]. }
    intros tr3 c2 _ Hc2. eapply traced_bind; [by apply prune_ghosts_allowed|]. intros tr4 _ _ _.
    eapply traced_bind; [apply applyReplicaRescue_allowed, Hset|done].
Qed.

Lemma heal_instance_allowed n ns lr' redisMap password rolling stalled captured oi tr :
  kept lr' → traced justified (λ _ r, same_spec r.1) tr
    (heal_instance n ns lr' st redisMap password (churning v) rolling stalled captured oi).
Proof.
  intros Hk. pose proof Hk as [[Hs _] _]. unfold heal_instance. rewrite (same_name lr') by done.
  eapply traced_bind; [by apply reregister_allowed|]. intros tr1 _ _ _.
  eapply traced_bind; [by apply reconcileStaleMasterNames_allowed|]. intros tr2 [[lr1 plan] e] _ Hk1. cbv zeta.
  eapply traced_bind.
  { apply (report_traced _ (λ r, kept r.1.1)); [apply reporting_justified|].
    by apply reconcileOperation_reporting. }
  intros tr3 o _ Hk2. assert (Hs2 : same_spec o.1.1) by apply Hk2.
  destruct (churning v) eqn:Hc; [done|]. cbn [orb]. destruct (rs_FailoverProgressing st) eqn:Hf.
  - eapply traced_bind; [by apply applyReplicaRescue_allowed|done].
  - eapply (traced_bind _ (λ _ _, True)).
    { destruct (rs_FailoverReported st); [|done]. unfold noteStalledFailover. destruct stalled; [done|].
      by apply traced_call. }
    intros tr4 stalled' _ _. eapply traced_bind; [apply heal_settled_allowed; [by split|done]|].
    intros tr5 lr3 _ Hs3. by apply traced_ret.
Qed.

End Justified.

(** A write to a Redis server, or a command that changes what a Sentinel monitors. *)
Definition directive (c : call) : bool :=
  match c with
  | ReplicaOf _ _ _ => true
  | SentinelDo _ _ (SentinelMonitor _ _ _ _ | SentinelSet _ _ _ | SentinelRemove _ | SentinelReset _) => true
  | _ => false
  end.

(** What a call of the pass needs. *)
Definition warranted `{GoRuntime} (lr : LittleRed) (tr : trace) (c : call) : Prop :=
  match c with
  | Apply _ | Delete _ _ | PatchPod _ _ | UpdatePod _ | ClusterDo _ _ | UpdateLittleRed _ => False
  | _ => directive c = true → ∃ v, seen tr v ∧ managed lr v tr ∧ justified lr v tr c
  end.

Lemma reporting_warranted `{GoRuntime} lr tr c : reporting c → warranted lr tr c.
Proof. by destruct c. Qed.

Lemma seen_mono v tr tr' : tr ⊆ tr' → seen tr v → seen tr' v.
Proof.
  intros Hs (Hr & Hn & pw & Hw). split; [by apply Hs|]. split; [by apply Hs|]. exists pw. by apply Hs.
Qed.

Lemma managed_mono `{GoRuntime} lr v tr tr' : tr ⊆ tr' → managed lr v tr → managed lr v tr'.
Proof.
  intros Hs [Hb (now & sts & Hn & Hr & Hp)]. split; [done|]. exists now, sts.
  split; [by apply Hs|]. split; [by apply Hs|done].
Qed.

Lemma justified_warranted `{GoRuntime} lr v tr c :
  (seen tr v ∧ managed lr v tr) ∧ justified lr v tr c → warranted lr tr c.
Proof. intros [[Hs Hm] Hj]. destruct c; try done; intros Hd; by exists v. Qed.

Lemma report_warranted `{GoRuntime} lr {A} (Q : A → Prop) tr p :
  safe reporting Q p → traced (warranted lr) (λ _ a, Q a) tr p.
Proof. apply report_traced. intros tr' c. apply reporting_warranted. Qed.

Lemma sentinel_pass_traced `{GoRuntime} hmac n ns stalled lr tr :
  traced (warranted lr) (λ _ r, same_spec lr r.1.1) tr (reconcileSentinelCluster hmac n ns stalled lr).
Proof.
  assert (Hsame : same_spec lr lr) by apply kept_refl.
  unfold reconcileSentinelCluster. destruct (ls_BootstrapRequired _) eqn:Hb; [done|].
  eapply (traced_bind _ (λ _ _, True)).
  { unfold getRedisPassword. destruct (negb _); [done|]. by apply traced_call. }
  intros tr0 password _ _. apply traced_call; [done|]. intros [redisPods|e]; [|done].
  apply traced_call; [done|]. intros [sentinelPods|e]; [|done].
  apply traced_call; [done|]. intros sts. apply traced_call; [done|]. intros w.
  set (v := mkView redisPods sentinelPods w). set (tr1 := _ ++ _).
  assert (Hseen : seen tr1 v).
  { split; [|split; [|exists password]]; repeat first [apply just_answered | apply grown]. }
  assert (Hsts : answered tr1 (GetStatefulSetUncached (statefulSetName lr)) sts) by (apply grown, just_answered).
  eapply traced_bind; [apply report_warranted, reportOperatorAuth_reporting|]. intros tr2 a Hs2 Ha.
  eapply traced_bind.
  { eapply traced_mono; [intros t c; apply reporting_warranted|done|].
    apply traced_grows. by apply (capture_pass_verdict lr v). }
  intros tr3 [lr1 [[fp oi]|]] Hs3 (_ & Hk & Hv); [|apply Hk].
  destruct (Hv _ _ eq_refl) as (now & q & Hnow & Hp & Hz & Hf).
  assert (Hman : managed lr v tr3).
  { split; [done|]. exists now, sts. split; [done|]. split; [by apply Hs3, Hs2|].
    change (ready_map (v_redis v)) with (ready_map redisPods). by rewrite Hp. }
  eapply (traced_bind _ (λ _ r, same_spec lr r.1)); [|done].
  eapply traced_mono; [intros t c; apply (justified_warranted lr v)|intros t r; apply proj2|].
  apply (traced_keep (λ t, seen t v ∧ managed lr v t)).
  - intros t t' Ht [H1 H2]. split; [by eapply seen_mono|by eapply managed_mono].
  - split; [|done]. eapply seen_mono; [|exact Hseen]. by etrans.
  - by apply (heal_instance_allowed lr v).
Qed.

(** ** Theorem *)

(** C10. Every command a pass sends to a Redis server or a Sentinel is warranted by what the
    same pass has read.  Whatever the API server and the servers answer, no command is sent
    before the bootstrap, to an instance whose capture verdict is "forsaken", or to one that
    is being scaled to zero.  A Sentinel is given the known master only if it answered and
    monitors nothing, or if it monitors something else while the master is a living pod and
    neither a pod is terminating nor a failover is running.  A foreign name is removed only
    where pruning is safe and that Sentinel has just confirmed the managed one.  RESET goes
    out only with a living master, a healthy known replica, every Redis pod reachable and a
    ghost replica seen.  A pod is promoted, and the Sentinels are moved to it, only without a
    known master, once a deadlock has outlasted its cooldown, and by a sound election.  A
    replica is repointed only to the known master, only if it strays and no Sentinel has
    promoted it, and never while a pod is terminating; a failover that Sentinel is running
    does not hold this back, as LR-060 wants it.  The pass changes no object other than
    the status. *)
Theorem sentinel_pass_justified `{GoRuntime} hmac retries ns stalled lr tr r :
  run (reconcileSentinelCluster hmac retries ns stalled lr) tr r →
  ∀ tr1 c x tr2, tr = tr1 ++ existT c x :: tr2 → warranted lr tr1 c.
Proof. intros Hrun. by apply (traced_run _ _ _ [] tr r (sentinel_pass_traced hmac retries ns stalled lr [])). Qed.

(** *** Witness: a Sentinel that follows a replica is moved to the master *)

Definition healing_lr : LittleRed :=
  mkLittleRed "lr" "uid" "1" false false ModeSentinel 1 ∅ false "" no_tls
    None (Some (mkSentinelSpec "mymaster" 2 0 0 0 false)) None None None None sample_status.

Definition plain_pod (name ip : string) : Pod := mkPod name ip false ∅ ∅ [] None true.

Definition info_master : list (string * string) :=
  [("role", "master"); ("master_replid", "8f3a"); ("master_repl_offset", "99"); ("db0", "keys=42,expires=0")].

Definition monitored (ip : string) : gmap string string :=
  {[ "name" := "mymaster"; "ip" := ip; "flags" := "master" ]}.

Definition healing_wire : Wire :=
  let fail {A} : Gather.result A := inr (plain_error "connection refused") in
  let view (addr : string) := if addr =? "10.0.1.3:26379" then "10.0.0.2" else "10.0.0.1" in
  mkWire (λ addr, inl (render_info (if addr =? "10.0.0.1:6379" then info_master else sample_info)))
    (λ addr _, inl (monitored (view addr)))
    (λ addr, inl [resp2_record [("name", "mymaster"); ("ip", view addr); ("flags", "master")]])
    (λ _ _, inl []) (λ _, fail) (λ _, fail) (λ _, fail).

Definition healing_server : Memory :=
  mkMemory {[ "lr-redis-0" := plain_pod "lr-redis-0" "10.0.0.1"; "lr-redis-1" := plain_pod "lr-redis-1" "10.0.0.2" ]}
    healing_lr (sample_sts 3 3) healing_wire 0 ∅
    [plain_pod "lr-sentinel-0" "10.0.1.1"; plain_pod "lr-sentinel-1" "10.0.1.2"; plain_pod "lr-sentinel-2" "10.0.1.3"].

Lemma sentinel_pass_justified_witness :
  let p := @reconcileSentinelCluster ref_runtime sample_hmac 4 "ns" false healing_lr in
  let tr := mem_trace healing_server p in
  ∃ tr1 x tr2 v, tr = tr1 ++ existT (SentinelDo "10.0.1.3:26379" "" (SentinelRemove "mymaster")) x :: tr2 ∧
    seen tr1 v ∧ @managed ref_runtime healing_lr v tr1 ∧
    @justified ref_runtime healing_lr v tr1 (SentinelDo "10.0.1.3:26379" "" (SentinelRemove "mymaster")).
Proof.
  intros p tr.
  assert (He : ∃ n, tr = take n tr ++
    existT (SentinelDo "10.0.1.3:26379" "" (SentinelRemove "mymaster")) None :: drop (S n) tr).
  { exists 11%nat. vm_compute. reflexivity. }
  destruct He as [n He]. exists (take n tr), None, (drop (S n) tr).
  destruct (@sentinel_pass_justified ref_runtime sample_hmac 4 "ns" false healing_lr tr _
    (mem_run_trace healing_server p) _ _ _ _ He eq_refl) as (v & Hs & Hm & Hj).
  exists v. split; [exact He|]. split; [exact Hs|]. split; [exact Hm|exact Hj].
Defined.
