(* ===== verification/SentinelStatus.v ===== *)
(** * The status of Sentinel mode and its reconciliation
    (src/internal/controller/littlered_controller.go, sentinel_master_name_condition.go)

    [updateSentinelStatus] reports what Kubernetes and Sentinel say; [reconcileSentinel] is
    the whole handler of the mode.  The namespace, [spec.podDisruptionBudget.create] and
    whether metrics are scraped are arguments; what the process remembers about the instance
    is passed along. *)

From S2P Require Import Prelude GoStrings Probe ClusterState ReplicationTypes.
From S2P Require Import Info Lineage ReplicationState Recovery Capture Gather Operations Kube OperationWiring.
From S2P Require Import Quarantine AuthReport Rollout FailoverEngine SentinelClient SentinelRecovery SentinelReconcile SentinelSafety.

Open Scope Z_scope.
Open Scope go_scope.

(** ** Definitions *)

Definition ConditionSentinelReady : string := "SentinelReady".
Definition ConditionSentinelMasterNameUnscoped : string := "SentinelMasterNameUnscoped".
Definition reasonSentinelMasterNameUnscoped : string := "SentinelMasterNameUnscoped".
Definition reasonSentinelMasterNameScoped : string := "SentinelMasterNameScoped".

Definition podDisruptionBudgetName (lr : LittleRed) : string := lr_Name lr +:+ "-redis-pdb".
Definition sentinelPodDisruptionBudgetName (lr : LittleRed) : string := lr_Name lr +:+ "-sentinel-pdb".

(** *** The cadence *)

Definition requeueAfterNotRunning (phase : LittleRedPhase) (conditions : gmap string Condition)
  (fast steady : duration) : duration :=
  if match FindStatusCondition conditions ConditionOperationInProgress with
     | Some c => bool_decide (cond_Status c = ConditionTrue) && (cond_Reason c =? operationReasonRunning)
     | None => false
     end then fast
  else if bool_decide (phase = PhaseRunning) then steady
  else if match FindStatusCondition conditions ConditionForsaken with
          | Some c => bool_decide (cond_Status c = ConditionTrue)
          | None => false
          end then steady
  else fast.

Section Status.
Context (retries : nat) (namespace : string).

(** *** The name *)

Definition unscoped_message (lr : LittleRed) : string :=
  "spec.sentinel.masterName is not set, so this instance uses the shared legacy " +:+
  "Sentinel master name " +:+ Quote LegacySentinelMasterName +:+
  ". The master name is the only isolation boundary Sentinel's gossip " +:+
  "protocol has: any other Sentinel deployment reachable on this pod network that also uses " +:+
  Quote LegacySentinelMasterName +:+ " " +:+
  "can merge with this instance's Sentinels and reassign its master to a foreign Redis pod, whose " +:+
  "replicas then FLUSH their datasets to resynchronise from it. Set spec.sentinel.masterName " +:+
  "(suggested: " +:+ Quote (namespace +:+ "." +:+ lr_Name lr) +:+
  ") — this is a client-visible change, so Sentinel-aware clients must be " +:+
  "reconfigured to the new name (clients using the label-routed master Service are unaffected). " +:+
  "Setting it to " +:+ Quote LegacySentinelMasterName +:+ " explicitly is accepted and silences this warning.".

(** The status it leaves. *)
Definition reconcileSentinelMasterNameCondition (lr : LittleRed) (st : LittleRedStatus)
  : prog LittleRedStatus :=
  if negb (SentinelMasterNameUnscoped lr) then
    mret (set_condition st ConditionSentinelMasterNameUnscoped ConditionFalse reasonSentinelMasterNameScoped
            ("Sentinel master name is set explicitly (" +:+ Quote (SentinelMasterName lr) +:+
             "), so this instance has " +:+ "its own gossip identity."))
  else
    let msg := unscoped_message lr in
    let warned := match FindStatusCondition (ls_Conditions st) ConditionSentinelMasterNameUnscoped with
                  | Some c => bool_decide (cond_Status c = ConditionTrue)
                  | None => false
                  end in
    _ ← (if warned then mret tt else perform (Event EventTypeWarning reasonSentinelMasterNameUnscoped msg));
    mret (set_condition st ConditionSentinelMasterNameUnscoped ConditionTrue reasonSentinelMasterNameUnscoped msg).

(** *** What is read *)

(** Ready and desired pods of a StatefulSet; a missing one should have three. *)
Definition ready_of (r : StatefulSet + error) : ready_total + error :=
  match r with
  | inl sts => inl (sts_ReadyReplicas sts, sts_Replicas sts)
  | inr err => if error_not_found err then inl (0, 3) else inr err
  end.

Definition read_ready (name : string) : prog (ready_total + error) :=
  r ← perform (GetStatefulSet name);
  mret (ready_of r).

(** The address reported for a master: that of its pod, or the previous one if it cannot be read. *)
Definition read_master_ip (latest : LittleRed) (masterPodName : string) : prog string :=
  if negb (masterPodName =? "") then
    r ← perform (GetPod masterPodName);
    mret match r with
         | inl pod => pod_IP pod
         | inr _ => (default ("", "") (ls_Master (lr_Status latest))).2
         end
  else mret "".

Definition healthy_replica (rep : ReplicaInfo) : bool :=
  negb (str_contains (ri_Flags rep) "s_down") && negb (str_contains (ri_Flags rep) "o_down") &&
  negb (str_contains (ri_Flags rep) "disconnected").

(** The replicas Sentinel counts as up. *)
Definition count_replicas (latest : LittleRed) (sentinelMasterName masterPodName : string) : prog Z :=
  if negb (masterPodName =? "") then
    password ← getRedisPassword latest;
    addresses ← getSentinelAddresses namespace latest;
    r ← sc_GetReplicas addresses password sentinelMasterName;
    mret match r with inl replicas => len (bfilter healthy_replica replicas) | inr _ => 0 end
  else mret 0.

(** *** What is reported *)

Record sentinel_report := mkReport {
  rep_Redis : ready_total;
  rep_Sentinels : ready_total;
  rep_Master : string;
  rep_MasterIP : string;
  rep_ReplicasOK : Z;
}.

Definition all_ready (r : sentinel_report) : bool :=
  (r.(rep_Redis).1 =? r.(rep_Redis).2)%Z && (r.(rep_Sentinels).1 =? r.(rep_Sentinels).2)%Z &&
  (0 <? r.(rep_Redis).1)%Z && negb (rep_Master r =? "") && (r.(rep_Redis).2 - 1 <=? rep_ReplicasOK r)%Z.

Definition ready_message (r : sentinel_report) : string :=
  "Redis: " +:+ itoa r.(rep_Redis).1 +:+ "/" +:+ itoa r.(rep_Redis).2 +:+
  ", Sentinels: " +:+ itoa r.(rep_Sentinels).1 +:+ "/" +:+ itoa r.(rep_Sentinels).2 +:+
  ", Sentinel-known replicas: " +:+ itoa (rep_ReplicasOK r) +:+ "/" +:+ itoa (r.(rep_Redis).2 - 1).

Definition ready_conditions (r : sentinel_report) (c : gmap string Condition) : gmap string Condition :=
  if all_ready r then
    SetStatusCondition
      (SetStatusCondition
         (SetStatusCondition c ConditionReady ConditionTrue reasonAllPodsReady "All Redis and Sentinel pods are ready")
         ConditionSentinelReady ConditionTrue "QuorumEstablished" "Sentinel quorum is established")
      ConditionInitialized ConditionTrue reasonInitialized "Redis sentinel cluster is initialized"
  else SetStatusCondition c ConditionReady ConditionFalse reasonPodsNotReady (ready_message r).

(** The status of a report, before the condition of the name. *)
Definition sentinel_status (st : LittleRedStatus) (generation : Z) (r : sentinel_report) : LittleRedStatus :=
  let '(ready, total) := rep_Redis r in
  let phase := if all_ready r then PhaseRunning else PhaseInitializing in
  mkLittleRedStatus phase (if all_ready r then ConditionReady else phase_text phase)
    (if all_ready r then false else ls_BootstrapRequired st)
    (ls_LeaderlessSince st) (ls_GhostMasterStuckSince st) (ls_ForsakenSince st)
    (ls_QuarantinedSince st) (ls_QuarantineAttempts st) (ls_AcknowledgedOperations st)
    (ls_Operation st) generation (ready_conditions r (ls_Conditions st))
    (ready, total) (Some (rep_Master r, rep_MasterIP r))
    (Some (if (0 <? ready)%Z then wrap32 (ready - 1) else 0, if (0 <? total)%Z then wrap32 (total - 1) else 0))
    (Some (rep_Sentinels r)) (ls_Failover st) (ls_Cluster st).

(** The report of one attempt. *)
Definition read_report (latest : LittleRed) (sentinelMasterName : string) : prog (sentinel_report + error) :=
  redis ← read_ready (statefulSetName latest);
  match redis with
  | inr err => mret (inr err)
  | inl redis =>
  sentinels ← read_ready (sentinelStatefulSetName latest);
  match sentinels with
  | inr err => mret (inr err)
  | inl sentinels =>
      l ← perform ListDataPods;
      m ← getMasterPodName namespace latest (match l with inl pods => pods | inr _ => [] end);
      let masterPodName := match m with inl name => name | inr _ => "" end in
      ip ← read_master_ip latest masterPodName;
      n ← count_replicas latest sentinelMasterName masterPodName;
      mret (inl (mkReport redis sentinels masterPodName ip n))
  end end.

Definition write_sentinel_status (sentinelMasterName : string) (u : unit) : prog (unit * option error) :=
  g ← perform GetLittleRed;
  match g with
  | inr err => mret (tt, Some err)
  | inl latest =>
      r ← read_report latest sentinelMasterName;
      match r with
      | inr err => mret (tt, Some err)
      | inl report =>
          new ← reconcileSentinelMasterNameCondition latest
                  (sentinel_status (lr_Status latest) (lr_Generation latest) report);
          if bool_decide (lr_Status latest = new) then mret (tt, None)
          else
            w ← perform (UpdateStatus (set_lr_Status latest new));
            mret (tt, write_error w)
      end
  end.

(** A re-read object decides when to look again. *)
Definition requeue_sentinel (latest : LittleRed) : ctrl_result :=
  let '(fast, steady) := GetRequeueIntervals latest in
  let after := requeueAfterNotRunning (ls_Phase (lr_Status latest)) (ls_Conditions (lr_Status latest)) fast steady in
  if negb (bool_decide (ls_Phase (lr_Status latest) = PhaseRunning)) then requeue_after after
  else if at_key (lr_Annotations latest) AnnotationDisablePolling =? annotationValueTrue then no_requeue
  else requeue_after after.

Definition updateSentinelStatus (lr : LittleRed) : prog (ctrl_result + error) :=
  r ← RetryOnConflict retries (write_sentinel_status (SentinelMasterName lr)) tt;
  match r.2 with
  | Some e => mret (inr e)
  | None =>
      g ← perform GetLittleRed;
      mret match g with
           | inr err => inr err
           | inl latest => inl (requeue_sentinel latest)
           end
  end.

End Status.

(** *** What the process remembers about an instance *)

(** Whether a stalled failover has been reported, and which background monitors run. *)
Record local_state := mkLocal {
  lo_stalled : bool;
  lo_sentinelMonitor : bool;
  lo_failoverMonitor : bool;
}.

Definition AnnotationDisableEventMonitoring : string := "redis.chuck-chuck-chuck.net/disable-event-monitoring".

Definition stopSentinelMonitor (lo : local_state) : local_state :=
  mkLocal (lo_stalled lo) false (lo_failoverMonitor lo).

Definition monitoring_disabled (lr : LittleRed) : bool :=
  at_key (lr_Annotations lr) AnnotationDisableEventMonitoring =? annotationValueTrue.

(** [wired] is whether [SetupWithManager] has made the channel of events. *)
Definition ensureSentinelMonitor (wired : bool) (lr : LittleRed) (lo : local_state) : local_state :=
  if monitoring_disabled lr then stopSentinelMonitor lo
  else if negb wired then lo else mkLocal (lo_stalled lo) true (lo_failoverMonitor lo).

(** *** The reconciliation *)

Section Reconciliation.
Context `{GoRuntime} (hmac_sha256 : string → string → string) (retries : nat) (namespace : string).
Context (pdbCreate : option bool) (scraped wired : bool).

Definition reconcileSentinelRedisPDB (lr : LittleRed) : prog (option error) :=
  if pdbEnabled pdbCreate then perform (Apply SentinelModePDB)
  else deleteIfExists KindPodDisruptionBudget (podDisruptionBudgetName lr).

Definition reconcileSentinelPDB (lr : LittleRed) : prog (option error) :=
  if pdbEnabled pdbCreate then perform (Apply SentinelPDB)
  else deleteIfExists KindPodDisruptionBudget (sentinelPodDisruptionBudgetName lr).

(** The objects, with the replicas decided before either StatefulSet is applied. *)
Definition ensureSentinelResources (lr : LittleRed) : prog (option error) :=
  then_if_ok (perform (Apply SentinelModeConfigMap))
    (then_if_ok (perform (Apply SentinelConfigMap))
       (then_if_ok (perform (Apply ReplicasHeadlessService))
          (then_if_ok (perform (Apply SentinelHeadlessService))
             (now ← perform Now;
              let '(redisReplicas, sentinelReplicas) := sentinelDesiredReplicas lr now in
              then_if_ok (perform (Apply (SentinelModeStatefulSet redisReplicas)))
                (then_if_ok (perform (Apply (SentinelStatefulSet sentinelReplicas)))
                   (perform (Apply MasterService))))))).

Definition reconcileSentinel (lo : local_state) (lr : LittleRed) : prog (local_state * (ctrl_result + error)) :=
  let lr := start_phase lr in
  e ← ensureSentinelResources lr;
  match e with
  | Some err => mret (lo, inr err)
  | None =>
  b ← (if ls_BootstrapRequired (lr_Status lr) then bootstrapSentinel retries lr else mret (lr, None));
  let '(lr, e) := b : LittleRed * option error in
  match e with
  | Some err => mret (lo, inr err)
  | None =>
  _ ← updateMasterLabel namespace lr;
  c ← reconcileSentinelCluster hmac_sha256 retries namespace (lo_stalled lo) lr;
  let '(lr, stalled, _) := c in
  let lo := mkLocal stalled (lo_sentinelMonitor lo) (lo_failoverMonitor lo) in
  e ← then_if_ok (reconcileSentinelRedisPDB lr) (reconcileSentinelPDB lr);
  match e with
  | Some err => mret (lo, inr err)
  | None =>
  _ ← (if scraped then reconcileServiceMonitor else mret None);
  let lo := ensureSentinelMonitor wired lr lo in
  s ← updateSentinelStatus retries namespace lr;
  mret (lo, s)
  end end end.

End Reconciliation.

(** ** What a status rests on *)

(** Some Sentinel named the master [m], a live pod of the list. *)
Definition named (tr : trace) (masterName : string) (pods : list Pod) (m : string) : Prop :=
  ∃ addr password ip port,
    answered tr (SentinelDo addr password (GetMasterAddrByName masterName)) (inl [ip; port]) ∧ pod_at ip pods = Some m.

(** Some Sentinel listed [n] healthy replicas. *)
Definition counted (tr : trace) (masterName : string) (n : Z) : Prop :=
  ∃ addr password (raw : list (gmap string string)),
    answered tr (SentinelDo addr password (SentinelReplicas masterName)) (inl raw) ∧
    n = len (bfilter healthy_replica (replica_of <$> raw)).

Record observed (tr : trace) (latest : LittleRed) (masterName : string) (r : sentinel_report) : Prop := mkObserved {
  obs_redis : ∃ x, answered tr (GetStatefulSet (statefulSetName latest)) x ∧ ready_of x = inl (rep_Redis r);
  obs_sentinels : ∃ x, answered tr (GetStatefulSet (sentinelStatefulSetName latest)) x ∧ ready_of x = inl (rep_Sentinels r);
  obs_master : rep_Master r ≠ "" →
    ∃ pods, answered tr ListDataPods (inl pods) ∧ named tr (SentinelMasterName latest) pods (rep_Master r);
  obs_replicas : rep_ReplicasOK r ≠ 0 → counted tr masterName (rep_ReplicasOK r);
}.

(** The calls of a status pass. *)
Definition queries (c : call) : Prop :=
  match c with
  | GetLittleRed | GetStatefulSet _ | ListDataPods | ListSentinelPods | GetPod _ | GetSecret _ | Event _ _ _
  | SentinelDo _ _ (GetMasterAddrByName _ | SentinelReplicas _) => True
  | _ => False
  end.

Section Observation.
Context (P : trace → call → Prop) (may_query : ∀ tr c, queries c → P tr c) (namespace : string).

Lemma query_traced {A} (Q : A → Prop) tr p : safe queries Q p → traced P (λ _ a, Q a) tr p.
Proof. intros Hp. apply traced_safe. eapply safe_mono; [|done|exact Hp]. auto. Qed.

Lemma getRedisPassword_queries lr : calls_only queries (getRedisPassword lr).
Proof. unfold getRedisPassword. destruct (negb _); [done|]. by apply safe_call. Qed.

Lemma getSentinelAddresses_queries lr : calls_only queries (getSentinelAddresses namespace lr).
Proof. by apply safe_call. Qed.

Lemma getMasterPodName_named lr pods tr :
  traced P (λ tr' r, ∀ m, r = inl m → named tr' (SentinelMasterName lr) pods m) tr
    (getMasterPodName namespace lr pods).
Proof.
  unfold getMasterPodName. eapply traced_bind; [apply query_traced, getSentinelAddresses_queries|].
  intros tr1 addrs _ _. eapply traced_bind; [apply query_traced, getRedisPassword_queries|].
  intros tr2 password _ _. eapply traced_bind.
  { apply (ask_each_answers _ (λ tr' info, ∃ addr password, answered tr'
      (SentinelDo addr password (GetMasterAddrByName (SentinelMasterName lr))) (inl [info.1; info.2]))).
    intros tr3 addr. apply traced_call; [by apply may_query|].
    intros [[|ip [|port [|? ?]]]|e]; apply traced_ret; try done.
    intros info [= <-]. exists addr, password. apply just_answered. }
  intros tr3 [info|e] _ Hi; apply traced_ret; [|done]. intros m. destruct (pod_at info.1 pods) as [n|] eqn:Hn; [|done].
  intros [= <-]. destruct (Hi _ eq_refl) as (addr & pw & Ha). by exists addr, pw, info.1, info.2.
Qed.

Lemma count_replicas_counted latest masterName m tr :
  traced P (λ tr' n, n ≠ 0 → counted tr' masterName n) tr (count_replicas namespace latest masterName m).
Proof.
  unfold count_replicas. destruct (negb _); [|by apply traced_ret].
  eapply traced_bind; [apply query_traced, getRedisPassword_queries|]. intros tr1 password _ _.
  eapply traced_bind; [apply query_traced, getSentinelAddresses_queries|]. intros tr2 addrs _ _.
  eapply traced_bind.
  { apply (ask_each_answers _ (λ tr' l, ∃ addr password (raw : list (gmap string string)), answered tr'
      (SentinelDo addr password (SentinelReplicas masterName)) (inl raw) ∧ l = replica_of <$> raw)).
    intros tr3 addr. apply traced_call; [by apply may_query|]. intros [raw|e]; apply traced_ret; [|done].
    intros l [= <-]. exists addr, password, raw. split; [apply just_answered|done]. }
  intros tr3 [l|e] _ Hl; apply traced_ret; [|done]. intros _.
  destruct (Hl _ eq_refl) as (addr & pw & raw & Ha & ->). by exists addr, pw, raw.
Qed.

Lemma read_ready_observed name tr :
  traced P (λ tr' r, ∀ n, r = inl n → ∃ x, answered tr' (GetStatefulSet name) x ∧ ready_of x = inl n) tr (read_ready name).
Proof.
  apply traced_call; [by apply may_query|]. intros x. apply traced_ret. intros n Hn. exists x.
  split; [apply just_answered|done].
Qed.

Lemma read_report_observed latest masterName tr :
  traced P (λ tr' r, ∀ report, r = inl report → observed tr' latest masterName report) tr
    (read_report namespace latest masterName).
Proof.
  unfold read_report. eapply traced_bind; [apply read_ready_observed|]. intros tr1 [redis|e] _ H1; [|done].
  eapply traced_bind; [apply read_ready_observed|]. intros tr2 [sentinels|e] Hs2 H2; [|done].
  apply traced_call; [by apply may_query|]. intros l. set (tr3 := tr2 ++ _).
  assert (Hs3 : tr2 ⊆ tr3) by apply grown. assert (Hl : answered tr3 ListDataPods l) by apply just_answered.
  eapply traced_bind; [apply getMasterPodName_named|]. intros tr4 m Hs4 Hm. cbv zeta.
  set (name := match m with inl name => name | inr _ => "" end).
  eapply (traced_bind _ (λ _ _, True)).
  { apply query_traced. unfold read_master_ip. destruct (negb _); [|done]. by apply safe_call. }
  intros tr5 ip Hs5 _. eapply traced_bind; [apply count_replicas_counted|]. intros tr6 n Hs6 Hn. apply traced_ret.
  intros report [= <-]. assert (Hs46 : tr4 ⊆ tr6) by (by etrans). assert (Hs36 : tr3 ⊆ tr6) by (by etrans).
  split; cbn [rep_Redis rep_Sentinels rep_Master rep_ReplicasOK].
  - destruct (H1 _ eq_refl) as (x & Hx & Hr). exists x. split; [by apply Hs36, Hs3, Hs2|done].
  - destruct (H2 _ eq_refl) as (x & Hx & Hr). exists x. split; [by apply Hs36, Hs3|done].
  - unfold name. destruct m as [m|]; [|done]. intros _. destruct (Hm _ eq_refl) as (addr & pw & ip' & port & Ha & Hp).
    destruct l as [pods|]; [|done]. exists pods. split; [by apply Hs36|]. exists addr, pw, ip', port.
    split; [by apply Hs46|done].
  - done.
Qed.

End Observation.

(** *** The report *)

Definition running (r : sentinel_report) : Prop :=
  0 < r.(rep_Redis).1 ∧ r.(rep_Redis).1 = r.(rep_Redis).2 ∧ r.(rep_Sentinels).1 = r.(rep_Sentinels).2 ∧
  rep_Master r ≠ "" ∧ r.(rep_Redis).2 - 1 ≤ rep_ReplicasOK r.

Lemma all_ready_spec r : all_ready r = true ↔ running r.
Proof.
  unfold all_ready, running.
  rewrite !andb_true_iff, negb_true_iff, !Z.eqb_eq, Z.ltb_lt, Z.leb_le, String.eqb_neq. tauto.
Qed.

Definition is_true_condition (s : LittleRedStatus) (type : string) : Prop :=
  ∃ c, FindStatusCondition (ls_Conditions s) type = Some c ∧ cond_Status c = ConditionTrue.

(** The parts of the status that other handlers own. *)
Definition foreign_fields (s : LittleRedStatus) :=
  (ls_LeaderlessSince s, ls_GhostMasterStuckSince s, ls_ForsakenSince s, ls_QuarantinedSince s,
   ls_QuarantineAttempts s, ls_AcknowledgedOperations s, ls_Operation s, ls_Failover s, ls_Cluster s).

Record truthful (latest : LittleRed) (r : sentinel_report) (s : LittleRedStatus) : Prop := mkTruthful {
  tf_pods : ls_Redis s = rep_Redis r ∧ ls_Sentinels s = Some (rep_Sentinels r);
  tf_master : ls_Master s = Some (rep_Master r, rep_MasterIP r);
  tf_phase : (ls_Phase s = PhaseRunning ∧ running r) ∨ (ls_Phase s = PhaseInitializing ∧ ¬ running r);
  tf_ready : is_true_condition s ConditionReady ↔ running r;
  tf_scoped : is_true_condition s ConditionSentinelMasterNameUnscoped ↔ SentinelMasterNameUnscoped latest = true;
  tf_bootstrap : ls_BootstrapRequired s = true ↔ ls_BootstrapRequired (lr_Status latest) = true ∧ ¬ running r;
  tf_replicas : r.(rep_Redis).1 < 2 ^ 31 → r.(rep_Redis).2 < 2 ^ 31 →
    ∃ ready total, ls_Replicas s = Some (ready, total) ∧ 0 ≤ ready ∧ 0 ≤ total;
  tf_generation : ls_ObservedGeneration s = lr_Generation latest;
  tf_foreign : foreign_fields s = foreign_fields (lr_Status latest);
}.

Lemma is_true_condition_set s s' type status reason msg :
  ls_Conditions s = ls_Conditions (set_condition s' type status reason msg) →
  is_true_condition s type ↔ status = ConditionTrue.
Proof.
  intros Hc. unfold is_true_condition, FindStatusCondition. rewrite Hc. cbn. unfold SetStatusCondition.
  rewrite lookup_insert_eq. split; [by intros (c & [= <-] & ?)|]. intros ->. by eexists.
Qed.

Lemma is_true_condition_other s type type' status reason msg :
  type' ≠ type → is_true_condition (set_condition s type' status reason msg) type ↔ is_true_condition s type.
Proof.
  intros Hne. unfold is_true_condition, FindStatusCondition. cbn. unfold SetStatusCondition.
  by rewrite lookup_insert_ne.
Qed.

Lemma ready_condition st g r : is_true_condition (sentinel_status st g r) ConditionReady ↔ running r.
Proof.
  rewrite <-all_ready_spec. unfold is_true_condition, sentinel_status, FindStatusCondition.
  destruct (rep_Redis r). cbn [ls_Conditions]. unfold ready_conditions, SetStatusCondition. destruct (all_ready r).
  - rewrite !lookup_insert_ne, lookup_insert_eq by done. split; [done|]. by eexists.
  - rewrite lookup_insert_eq. split; [|done]. by intros (c & [= <-] & ?).
Qed.

Lemma sentinel_status_truthful latest r status reason msg :
  (status = ConditionTrue ↔ SentinelMasterNameUnscoped latest = true) →
  truthful latest r (set_condition (sentinel_status (lr_Status latest) (lr_Generation latest) r)
    ConditionSentinelMasterNameUnscoped status reason msg).
Proof.
  intros Hs. pose proof (all_ready_spec r) as Hr. pose proof (ready_condition (lr_Status latest) (lr_Generation latest) r) as Hc.
  split.
  4: by rewrite is_true_condition_other.
  4: by rewrite (is_true_condition_set _ _ _ _ _ _ eq_refl).
  all: unfold sentinel_status; destruct (rep_Redis r) as [ready total] eqn:Hrt; try done; cbn.
  - destruct (all_ready r); [left|right]; (split; [done|]); [by apply Hr|]. by intros ?%Hr.
  - destruct (all_ready r); [split; [done|]; intros [_ Hn]; destruct Hn; by apply Hr|].
    split; [|tauto]. intros ?. split; [done|]. by intros ?%Hr.
  - intros H1 H2. do 2 eexists. split; [done|].
    split; [destruct (Z.ltb_spec 0 ready)|destruct (Z.ltb_spec 0 total)]; try done; rewrite wrap32_id; lia.
Qed.

(** *** A pass *)

(** What is written follows an observation of this attempt. *)
Definition reported (masterName : string) (tr : trace) (l : LittleRed) : Prop :=
  ∃ latest r s, answered tr GetLittleRed (inl latest) ∧ observed tr latest masterName r ∧
    l = set_lr_Status latest s ∧ truthful latest r s ∧ s ≠ lr_Status latest.

Definition status_call (masterName : string) (tr : trace) (c : call) : Prop :=
  match c with UpdateStatus l => reported masterName tr l | _ => queries c end.

Lemma query_status masterName tr c : queries c → status_call masterName tr c.
Proof. by destruct c. Qed.

Lemma observed_mono tr tr' latest masterName r :
  tr ⊆ tr' → observed tr latest masterName r → observed tr' latest masterName r.
Proof.
  intros Hs [(x & Hx & Hr) (y & Hy & Hr') Hm Hn]. split.
  - exists x. split; [by apply Hs|done].
  - exists y. split; [by apply Hs|done].
  - intros (pods & Hp & addr & pw & ip & port & Ha & Hip)%Hm. exists pods. split; [by apply Hs|].
    exists addr, pw, ip, port. split; [by apply Hs|done].
  - intros (addr & pw & raw & Ha & Hl)%Hn. exists addr, pw, raw. split; [by apply Hs|done].
Qed.

Lemma name_condition_set P namespace latest st tr :
  (∀ tr c, queries c → P tr c) →
  traced P (λ _ s, ∃ status reason msg, (status = ConditionTrue ↔ SentinelMasterNameUnscoped latest = true) ∧
    s = set_condition st ConditionSentinelMasterNameUnscoped status reason msg) tr
    (reconcileSentinelMasterNameCondition namespace latest st).
Proof.
  intros HP. unfold reconcileSentinelMasterNameCondition. destruct (SentinelMasterNameUnscoped latest); cbn [negb].
  - cbv zeta. destruct (match _ with Some _ => _ | None => _ end).
    + apply traced_ret. by do 3 eexists.
    + apply traced_call; [by apply HP|]. intros []. apply traced_ret. by do 3 eexists.
  - apply traced_ret. do 3 eexists. by split; [|done].
Qed.

Lemma write_sentinel_status_traced namespace masterName tr u :
  traced (status_call masterName) (λ _ _, True) tr (write_sentinel_status namespace masterName u).
Proof.
  apply traced_call; [done|]. intros [latest|e]; [|done]. set (tr1 := tr ++ _).
  assert (Hl : answered tr1 GetLittleRed (inl latest)) by apply just_answered.
  eapply traced_bind; [apply read_report_observed, query_status|]. intros tr2 [r|e] Hs2 Hr; [|done].
  specialize (Hr _ eq_refl). eapply traced_bind; [apply name_condition_set, query_status|].
  intros tr3 s Hs3 (status & reason & msg & Hst & ->). case_bool_decide as Hne; [done|].
  apply traced_call; [|done]. do 3 eexists. split; [apply Hs3, Hs2, Hl|].
  split; [by eapply observed_mono|]. split; [done|]. split; [by apply sentinel_status_truthful|done].
Qed.

Lemma updateSentinelStatus_traced retries namespace lr tr :
  traced (status_call (SentinelMasterName lr)) (λ _ _, True) tr (updateSentinelStatus retries namespace lr).
Proof.
  eapply traced_bind.
  { apply (traced_RetryOnConflict _ (λ _ _, True)); [done|]. intros tr1 u _.
    eapply traced_mono; [done|done|apply write_sentinel_status_traced]. }
  intros tr1 r _ _. destruct r.2; [done|]. by apply traced_call.
Qed.

(** The labels, where [P] allows every label the loop can write. *)
Lemma applyRoleLabels_traced P tr0 tr pods m ps :
  (∀ p p', p ∈ pods → p' = set_Labels p (<[LabelRole := expected_role m p]> (pod_Labels p)) →
     ∀ tr, tr0 ⊆ tr → P tr (UpdatePod p')) →
  tr0 ⊆ tr → ps ⊆ pods → traced P (λ _ _, True) tr (applyRoleLabels ps m).
Proof.
  intros Hok. revert tr. induction ps as [|p ps IH]; intros tr Hs Hps; [done|]. cbn [applyRoleLabels].
  assert (Hrest : ps ⊆ pods) by (etrans; [|exact Hps]; intros x Hx; by constructor).
  destruct (_ =? _); [by apply IH|]. apply traced_call.
  - apply (Hok p); [apply Hps; constructor|done|done].
  - intros [e|]; [done|]. apply IH; [|done]. etrans; [exact Hs|apply grown].
Qed.

(** ** What the handler of the mode may do *)

Section Mode.
Context `{GoRuntime} (pdbCreate : option bool) (scraped : bool) (lr : LittleRed).

(** The object a step works on: the one given, or one read in this pass. *)
Definition current (tr : trace) (lr' : LittleRed) : Prop := lr' = lr ∨ answered tr GetLittleRed (inl lr').

(** The bootstrap is under way with the address of redis-0, a pod of the current revision. *)
Definition bootstrapping (tr : trace) (ip : string) : Prop :=
  ls_BootstrapRequired (lr_Status lr) = true ∧
  ∃ latest sts pod0, answered tr GetLittleRed (inl latest) ∧ ls_BootstrapRequired (lr_Status latest) = true ∧
    answered tr (GetStatefulSet (statefulSetName lr)) (inl sts) ∧
    answered tr (GetPod (lr_Name lr +:+ "-redis-0")) (inl pod0) ∧ pod0_ready pod0 sts = true ∧ ip = pod_IP pod0.

Definition seeds (tr : trace) (c : call) : Prop :=
  match c with
  | SentinelDo _ _ (SentinelMonitor n ip port q) =>
      n = SentinelMasterName lr ∧ port = RedisPort ∧ q = sentinelQuorum lr ∧ bootstrapping tr ip
  | SentinelDo _ _ (SentinelSet n _ _) => n = SentinelMasterName lr ∧ ∃ ip, bootstrapping tr ip
  | SentinelDo addr password (SentinelRemove n) =>
      n = SentinelMasterName lr ∧ ∃ ip old port, bootstrapping tr ip ∧ old ≠ ip ∧
        answered tr (SentinelDo addr password (GetMasterAddrByName n)) (inl [old; port])
  | _ => False
  end.

(** A pod gets its role; the master is one a Sentinel named. *)
Definition relabels (tr : trace) (p' : Pod) : Prop :=
  ∃ pods p m lr', answered tr ListDataPods (inl pods) ∧ existsb pod_Terminating pods = false ∧ p ∈ pods ∧
    p' = set_Labels p (<[LabelRole := expected_role m p]> (pod_Labels p)) ∧
    current tr lr' ∧ (m = "" ∨ named tr (SentinelMasterName lr') pods m).

Definition mode_object (tr : trace) (r : resource) : Prop :=
  match r with
  | SentinelModeConfigMap | SentinelConfigMap | ReplicasHeadlessService | SentinelHeadlessService | MasterService => True
  | SentinelModeStatefulSet n => ∃ now, answered tr Now now ∧ n = (sentinelDesiredReplicas lr now).1
  | SentinelStatefulSet n => ∃ now, answered tr Now now ∧ n = (sentinelDesiredReplicas lr now).2
  | SentinelModePDB | SentinelPDB => pdbEnabled pdbCreate = true
  | ServiceMonitor => scraped = true
  | _ => False
  end.

Definition mode_call (tr : trace) (c : call) : Prop :=
  match c with
  | Apply r => mode_object tr r
  | Delete kind n =>
      kind = KindPodDisruptionBudget ∧ pdbEnabled pdbCreate = false ∧
      ∃ lr', current tr lr' ∧ (n = podDisruptionBudgetName lr' ∨ n = sentinelPodDisruptionBudgetName lr')
  | UpdatePod p => relabels tr p
  | PatchPod _ _ | ClusterDo _ _ | UpdateLittleRed _ => False
  | _ => directive c = true →
         seeds tr c ∨ ∃ lr', current tr lr' ∧ ls_BootstrapRequired (lr_Status lr') = false ∧ warranted lr' tr c
  end.

Lemma queries_mode tr c : queries c → mode_call tr c.
Proof. destruct c; try done. match goal with cmd : sentinel_command |- _ => by destruct cmd end. Qed.

Lemma reporting_mode tr c : reporting c → mode_call tr c.
Proof. by destruct c. Qed.

Lemma current_mono tr tr' lr' : tr ⊆ tr' → current tr lr' → current tr' lr'.
Proof. intros Hs [->|Ha]; [by left|right; by apply Hs]. Qed.

Lemma bootstrapping_mono ip tr tr' : tr ⊆ tr' → bootstrapping tr ip → bootstrapping tr' ip.
Proof.
  intros Hs (Hb & latest & sts & pod0 & H1 & H2 & H3 & H4 & H5). split; [done|]. exists latest, sts, pod0.
  split; [by apply Hs|]. split; [done|]. split; [by apply Hs|]. split; [by apply Hs|done].
Qed.

Lemma ensureSentinelResources_traced tr : traced mode_call (λ _ _, True) tr (ensureSentinelResources lr).
Proof.
  unfold ensureSentinelResources, then_if_ok.
  do 4 (apply traced_call; [done|]; intros [e|]; [done|]).
  apply traced_call; [done|]. intros now. destruct (sentinelDesiredReplicas lr now) as [n m] eqn:Hd.
  apply traced_call; [exists now; split; [apply just_answered|by rewrite Hd]|]. intros [e|]; [done|].
  apply traced_call; [exists now; split; [apply grown, just_answered|by rewrite Hd]|]. intros [e|]; [done|].
  by apply traced_call.
Qed.

Lemma seeding_traced ip password tr :
  bootstrapping tr ip → traced mode_call (λ _ _, True) tr (seedSentinelsWithMaster lr ip password).
Proof.
  intros Hb. apply traced_call; [done|]. intros [pods|e]; [|done]. eapply traced_bind; [|done].
  apply (traced_for_each _ (λ tr _, bootstrapping tr ip)); [by eapply bootstrapping_mono; [apply grown|]|].
  intros tr2 acc pod _ Hb2.
  apply (keeps_seed_pod lr mode_call (λ tr, bootstrapping tr ip)); [apply bootstrapping_mono| |done| | |done].
  - intros tr3 addr pw opt value Hb3 _. left. split; [done|]. by exists ip.
  - intros tr3 addr Hb3 _. left. by split.
  - intros tr3 addr old port Hb3 Hne Hans _. left. split; [done|]. by exists ip, old, port.
Qed.

Lemma clear_bootstrap_reporting n : calls_only reporting (RetryOnConflict n clear_bootstrap tt).
Proof.
  apply (safe_RetryOnConflict _ (λ _, True)); [done|]. intros u _. apply safe_call; [done|].
  intros [latest|e]; [|done]. destruct (negb _); [done|]. by apply safe_call.
Qed.

Lemma bootstrapSentinel_traced n tr :
  ls_BootstrapRequired (lr_Status lr) = true →
  traced mode_call (λ tr' r, current tr' r.1) tr (bootstrapSentinel n lr).
Proof.
  intros Hb. assert (Hlr : ∀ tr, current tr lr) by (by left). unfold bootstrapSentinel.
  apply traced_call; [done|]. intros [latest|e]; [|by apply traced_ret]. set (tr1 := tr ++ _).
  assert (Hl : answered tr1 GetLittleRed (inl latest)) by apply just_answered.
  destruct (ls_BootstrapRequired (lr_Status latest)) eqn:Hbl; [|by right]. cbn [negb].
  apply traced_call; [done|]. intros [sts|e]; [|by apply traced_ret].
  apply traced_call; [done|]. intros [pod0|e]; [|by apply traced_ret]. set (tr3 := _ ++ _).
  destruct (pod0_ready pod0 sts) eqn:Hp; [|by apply traced_ret]. cbn [negb].
  assert (Hboot : bootstrapping tr3 (pod_IP pod0)).
  { split; [done|]. exists latest, sts, pod0. split; [by apply grown, grown|]. split; [done|].
    split; [apply grown, just_answered|]. split; [apply just_answered|done]. }
  eapply traced_bind; [apply (query_traced _ queries_mode), getRedisPassword_queries|]. intros tr4 password Hs4 _.
  eapply traced_bind; [apply seeding_traced; by eapply bootstrapping_mono|].
  intros tr5 [[configured total]|e] _ _; [|by apply traced_ret]. destruct (configured =? 0)%Z; [by apply traced_ret|].
  eapply traced_bind; [apply (report_traced _ (λ _, True)); [apply reporting_mode|apply clear_bootstrap_reporting]|].
  intros tr6 c _ _. destruct c.2; [by apply traced_ret|]. apply traced_call; [done|].
  intros [latest'|e]; apply traced_ret; [right; apply just_answered|done].
Qed.

Lemma updateMasterLabel_traced namespace lr' tr :
  current tr lr' → traced mode_call (λ _ _, True) tr (updateMasterLabel namespace lr').
Proof.
  intros Hc. apply traced_call; [done|]. intros [pods|e]; [|done].
  set (tr1 := tr ++ _). assert (Hl : answered tr1 ListDataPods (inl pods)) by apply just_answered.
  assert (Hc1 : current tr1 lr') by (eapply current_mono; [apply grown|done]).
  destruct pods as [|p0 rest] eqn:Hp; [done|]. rewrite <-Hp in *.
  destruct (existsb pod_Terminating pods) eqn:Ht; [done|].
  assert (Hlabel : ∀ tr2 m, tr1 ⊆ tr2 → (m = "" ∨ named tr2 (SentinelMasterName lr') pods m) →
    traced mode_call (λ _ _, True) tr2 (applyRoleLabels pods m)).
  { intros tr2 m Hs2 Hm. apply (applyRoleLabels_traced _ tr2 _ pods); [|done|done].
    intros p p' Hin -> tr3 Hs3. exists pods, p, m, lr'. split; [by apply Hs3, Hs2|]. split; [done|]. split; [done|].
    split; [done|]. split; [eapply current_mono; [|done]; by etrans|].
    destruct Hm as [->|(addr & pw & ip & port & Ha & Hn)]; [by left|right].
    exists addr, pw, ip, port. split; [by apply Hs3|done]. }
  eapply traced_bind; [apply (getMasterPodName_named _ queries_mode)|].
  intros tr2 [m|[]] Hs2 Hm; try done; apply Hlabel; try done; [right; by apply Hm|by left|by left].
Qed.

Lemma warranted_mode lr' tr c : current tr lr' → ls_BootstrapRequired (lr_Status lr') = false → warranted lr' tr c → mode_call tr c.
Proof. intros Hc Hb Hw. destruct c; try done; intros Hd; right; by exists lr'. Qed.

Lemma sentinel_cluster_traced hmac n ns stalled lr' tr :
  current tr lr' → traced mode_call (λ _ r, same_spec lr' r.1.1) tr (reconcileSentinelCluster hmac n ns stalled lr').
Proof.
  intros Hc. destruct (ls_BootstrapRequired (lr_Status lr')) eqn:Hb.
  { unfold reconcileSentinelCluster. rewrite Hb. apply traced_ret, kept_refl. }
  eapply traced_mono; [| |apply (traced_keep (λ t, current t lr'));
    [intros t t'; apply current_mono|exact Hc|apply sentinel_pass_traced]].
  - intros t c [Hc' Hw]. by apply (warranted_mode lr').
  - by intros t r [_ Hr].
Qed.

Lemma mode_budgets_traced lr' s tr :
  current tr lr' →
  traced mode_call (λ _ _, True) tr
    (then_if_ok (reconcileSentinelRedisPDB pdbCreate (set_lr_Status lr' s)) (reconcileSentinelPDB pdbCreate (set_lr_Status lr' s))).
Proof.
  intros Hc. unfold then_if_ok, reconcileSentinelRedisPDB, reconcileSentinelPDB, deleteIfExists.
  destruct (pdbEnabled pdbCreate) eqn:Hp.
  - apply traced_call; [done|]. intros [e|]; [done|]. by apply traced_call.
  - assert (Hdel : ∀ tr n, current tr lr' → n = podDisruptionBudgetName lr' ∨ n = sentinelPodDisruptionBudgetName lr' →
      mode_call tr (Delete KindPodDisruptionBudget n)) by (intros t n Hc' Hn; split; [done|]; split; [done|]; by exists lr').
    eapply (traced_bind _ (λ t _, current t lr')).
    + apply traced_call; [by apply Hdel; [|left]|]. intros e. apply traced_ret. eapply current_mono; [apply grown|done].
    + intros tr1 [e|] _ Hc1; [done|]. apply traced_call; [by apply Hdel; [|right]|done].
Qed.

Lemma status_mode masterName tr c : status_call masterName tr c → mode_call tr c.
Proof. destruct c; try done; apply queries_mode. Qed.

End Mode.

Lemma reconcileSentinel_traced `{GoRuntime} hmac n ns pdbCreate scraped wired lo lr tr :
  traced (mode_call pdbCreate scraped (start_phase lr)) (λ _ _, True) tr
    (reconcileSentinel hmac n ns pdbCreate scraped wired lo lr).
Proof.
  unfold reconcileSentinel. cbv zeta. set (lr0 := start_phase lr).
  eapply traced_bind; [apply ensureSentinelResources_traced|]. intros tr1 [e|] _ _; [done|].
  eapply (traced_bind _ (λ t b, current lr0 t b.1)).
  { destruct (ls_BootstrapRequired (lr_Status lr0)) eqn:Hb; [by apply bootstrapSentinel_traced|]. apply traced_ret. by left. }
  intros tr2 [lr' [e|]] _ Hc; [done|]. cbn [fst] in Hc.
  eapply traced_bind; [by apply updateMasterLabel_traced|]. intros tr3 _ Hs3 _.
  assert (Hc3 : current lr0 tr3 lr') by (by eapply current_mono).
  eapply traced_bind; [by apply sentinel_cluster_traced|]. intros tr4 [[lr1 stalled'] e] Hs4 [s Hs].
  cbn [fst] in Hs. subst lr1.
  eapply traced_bind; [apply mode_budgets_traced; by eapply current_mono|]. intros tr5 [e5|] _ _; [done|].
  eapply (traced_bind _ (λ _ _, True)); [destruct scraped; [|done]; by split|]. intros tr6 _ _ _.
  eapply traced_bind; [|done].
  eapply traced_mono; [intros t c; apply (status_mode _ _ _ (SentinelMasterName (set_lr_Status lr' s)))|done|].
  apply updateSentinelStatus_traced.
Qed.

(** ** Theorem *)

(** C12. A status of Sentinel mode says what was observed.  Whatever the API server and the
    Sentinels answer, a status pass only reads and writes the status, and every status it
    writes differs from the stored one it was derived from.  It says Running, with the Ready
    condition true, exactly if all pods of both StatefulSets are ready, a Sentinel named as
    master a live pod of the instance, and a Sentinel listed enough replicas that are neither
    down nor disconnected; otherwise it says Initializing.  The reported numbers of replicas
    are never negative, the bootstrap flag is only ever cleared, and only by a Running status,
    the warning about the shared master name stands exactly while no name is set, and the
    markers, the operations and the other modes' parts are left alone. *)
Theorem sentinel_status_observed retries namespace lr tr r :
  run (updateSentinelStatus retries namespace lr) tr r →
  ∀ tr1 c x tr2, tr = tr1 ++ existT c x :: tr2 → status_call (SentinelMasterName lr) tr1 c.
Proof. intros Hrun. by apply (traced_run _ _ _ [] tr r (updateSentinelStatus_traced retries namespace lr [])). Qed.

(** *** Witness: the first Running status *)

Definition settled_wire : Wire :=
  mkWire (wire_info healing_wire)
    (λ _ _, inl {[ "name" := "mymaster"; "ip" := "10.0.0.1"; "port" := "6379"; "flags" := "master" ]})
    (wire_masters healing_wire)
    (λ _ _, inl [ {[ "ip" := "10.0.0.2"; "port" := "6379"; "flags" := "slave" ]} ])
    (wire_myid healing_wire) (wire_cluster_nodes healing_wire) (wire_cluster_info healing_wire).

Definition starting_lr : LittleRed := set_lr_Status healing_lr (set_Phase sample_status PhaseInitializing "Initializing").

Definition settled_server : Memory :=
  mkMemory (mem_pods healing_server) starting_lr (sample_sts 2 2) settled_wire 0 ∅ (mem_sentinels healing_server).

Definition says_running (e : {c : call & answer c}) : bool :=
  match projT1 e with UpdateStatus l => bool_decide (ls_Phase (lr_Status l) = PhaseRunning) | _ => false end.

Lemma running_written (tr : trace) (n : nat) :
  match tr !! n with Some e => says_running e | None => false end = true →
  ∃ tr1 l x tr2, tr = tr1 ++ existT (UpdateStatus l) x :: tr2 ∧ ls_Phase (lr_Status l) = PhaseRunning.
Proof.
  destruct (tr !! n) as [[c x]|] eqn:He; [|done]. destruct c as [| | | | |l| | | | | | | | | | | | | | | |]; try done.
  intros Hp%bool_decide_eq_true_1. apply take_drop_middle, eq_sym in He.
  by exists (take n tr), l, x, (drop (S n) tr).
Qed.

Lemma sentinel_status_observed_witness :
  let p := updateSentinelStatus 4 "ns" starting_lr in
  ∃ tr1 l x tr2, mem_trace settled_server p = tr1 ++ existT (UpdateStatus l) x :: tr2 ∧
    ls_Phase (lr_Status l) = PhaseRunning ∧ reported "mymaster" tr1 l.
Proof.
  intros p. destruct (running_written (mem_trace settled_server p) 9) as (tr1 & l & x & tr2 & He & Hp).
  { vm_compute. reflexivity. }
  exists tr1, l, x, tr2. split; [exact He|]. split; [exact Hp|].
  exact (sentinel_status_observed 4 "ns" starting_lr _ _ (mem_run_trace settled_server p) _ _ _ _ He).
Defined.

(** Everything the handler of Sentinel mode does to the outside is accounted for.  The two
    StatefulSets are applied with the numbers of pods decided from the stored quarantine before
    either is touched; budgets are applied exactly where they are wanted and deleted only where
    they are not; nothing else is deleted.  A pod is relabelled only while no pod is
    terminating, and becomes the master only if a Sentinel named its address.  A command to a
    Sentinel or a Redis server belongs either to the bootstrap, which starts from an object
    read with the flag set and the redis-0 of the current revision and unregisters only a
    Sentinel that named another master, or to a warranted healing pass over an object whose
    bootstrap is over. *)
Theorem sentinel_mode_accounted `{GoRuntime} hmac retries ns pdbCreate scraped wired lo lr tr r :
  run (reconcileSentinel hmac retries ns pdbCreate scraped wired lo lr) tr r →
  ∀ tr1 c x tr2, tr = tr1 ++ existT c x :: tr2 → mode_call pdbCreate scraped (start_phase lr) tr1 c.
Proof.
  intros Hrun. by apply (traced_run _ _ _ [] tr r (reconcileSentinel_traced hmac retries ns pdbCreate scraped wired lo lr [])).
Qed.

(** *** Witness: the first registration *)

Definition fresh_lr : LittleRed :=
  set_lr_Status healing_lr (set_BootstrapRequired (set_Phase sample_status PhaseUnset "") true).

Definition fresh_pod : Pod :=
  mkPod "lr-redis-0" "10.0.0.1" false ∅ {[ "controller-revision-hash" := "rev" ]} [] None true.

Definition fresh_server : Memory :=
  mkMemory {[ "lr-redis-0" := fresh_pod ]} fresh_lr (sample_sts 3 3) sample_wire 0 ∅ (mem_sentinels healing_server).

Lemma sentinel_mode_accounted_witness :
  let p := @reconcileSentinel ref_runtime sample_hmac 4 "ns" None false true (mkLocal false false false) fresh_lr in
  ∃ tr1 x tr2,
    mem_trace fresh_server p =
      tr1 ++ existT (SentinelDo "10.0.1.1:26379" "" (SentinelMonitor "mymaster" "10.0.0.1" 6379 2)) x :: tr2 ∧
    @mode_call ref_runtime None false (start_phase fresh_lr) tr1
      (SentinelDo "10.0.1.1:26379" "" (SentinelMonitor "mymaster" "10.0.0.1" 6379 2)).
Proof.
  intros p.
  destruct (call_at (mem_trace fresh_server p) 13
    (SentinelDo "10.0.1.1:26379" "" (SentinelMonitor "mymaster" "10.0.0.1" 6379 2))) as (tr1 & x & tr2 & He).
  { vm_compute. reflexivity. }
  exists tr1, x, tr2. split; [exact He|].
  exact (@sentinel_mode_accounted ref_runtime sample_hmac 4 "ns" None false true (mkLocal false false false) fresh_lr _ _
    (mem_run_trace fresh_server p) _ _ _ _ He).
Defined.
