(* ===== verification/Controller.v ===== *)
(** * The controller (src/internal/controller/littlered_controller.go, failover_reconcile.go,
      sentinel_monitor.go, failover_monitor.go, src/api/v1alpha1/littlered_types.go, littlered_defaults.go)

    [Reconcile]: defaults, validation, deletion, the finalizer, the initial bootstrap flag and
    the handler of the mode.  The parts of the specification that only the rendered objects
    depend on are functions of the object ([pdbCreate], [scraped], [desiredHash]); what the
    process remembers about an instance is passed along. *)

From S2P Require Import Prelude GoStrings Probe ClusterState ReplicationTypes.
From S2P Require Import Info Lineage ReplicationState Recovery FailoverIntent Capture Gather Operations Kube OperationWiring.
From S2P Require Import Quarantine AuthReport Rollout ClusterRollout ClusterRepair ClusterMigration ClusterReconcile.
From S2P Require Import FailoverEngine FailoverSafety SentinelClient SentinelRecovery SentinelReconcile SentinelSafety SentinelStatus.

Open Scope Z_scope.
Open Scope go_scope.

(** ** Definitions *)

Definition ModeStandalone : string := "standalone".
Definition ModeCluster : string := "cluster".
Definition ModeFailover : string := "failover".
Definition ConditionConfigValid : string := "ConfigValid".
Definition reasonExperimentalMode : string := "ExperimentalMode".

(** *** Defaults *)

Definition DefaultMode : string := "standalone".
Definition DefaultSentinelQuorum : Z := 2.
Definition DefaultDownAfterMs : Z := 30000.
Definition DefaultFailoverTimeout : Z := 180000.
Definition DefaultParallelSyncs : Z := 1.
Definition ScheduleAnyway : string := "ScheduleAnyway".
Definition DoNotSchedule : string := "DoNotSchedule".
Definition DefaultShardWhenUnsatisfiable : string := ScheduleAnyway.

Definition or_default (v d : Z) : Z := if (v =? 0)%Z then d else v.

Definition SentinelSpec_SetDefaults (s : SentinelSpec) : SentinelSpec :=
  mkSentinelSpec (ssp_MasterName s) (or_default (ssp_Quorum s) DefaultSentinelQuorum)
    (or_default (ssp_DownAfterMilliseconds s) DefaultDownAfterMs)
    (or_default (ssp_FailoverTimeout s) DefaultFailoverTimeout)
    (or_default (ssp_ParallelSyncs s) DefaultParallelSyncs) (ssp_AllowUnsafeRebootstrapOnDeadlock s).

(** [if mode == m && block == nil { block = zero }; if block != nil { block.SetDefaults() }]. *)
Definition default_block {A} (wanted : bool) (zero : A) (set_defaults : A → A) (block : option A) : option A :=
  set_defaults <$> match block with None => if wanted then Some zero else None | Some b => Some b end.

(** The defaults of the fields the handlers read. *)
Definition SetDefaults (lr : LittleRed) : LittleRed :=
  let mode := if lr_Mode lr =? "" then DefaultMode else lr_Mode lr in
  mkLittleRed (lr_Name lr) (lr_UID lr) (lr_ResourceVersion lr) (lr_HasFinalizer lr) (lr_Terminating lr) mode
    (lr_Generation lr) (lr_Annotations lr) (lr_AuthEnabled lr) (lr_ExistingSecret lr) (lr_TLS lr)
    (default_block (mode =? ModeFailover) (mkFailoverSpec None 0 None false) FailoverSpec_SetDefaults (lr_FailoverSpec lr))
    (default_block (mode =? ModeSentinel) (mkSentinelSpec "" 0 0 0 0 false) SentinelSpec_SetDefaults (lr_Sentinel lr))
    (default_block (mode =? ModeCluster) (mkClusterSpec 0 None 0 0 0 0 0) ClusterSpec_SetDefaults (lr_Cluster lr))
    ((λ w, if w =? "" then DefaultShardWhenUnsatisfiable else w) <$> lr_WhenUnsatisfiable lr)
    (lr_RequeueFast lr) (lr_RequeueSteady lr) (lr_Status lr).

(** *** Validation *)

(** The message of the error, if any. *)
Definition Validate (lr : LittleRed) : option string :=
  match (if lr_Mode lr =? ModeCluster then lr_Cluster lr else None) with
  | Some c =>
      if (cls_Shards c <? 3)%Z
      then Some ("cluster mode requires at least 3 shards (found " +:+ itoa (cls_Shards c) +:+ ")") else None
  | None => None
  end ∪
  match (if lr_Mode lr =? ModeFailover then lr_FailoverSpec lr else None) with
  | Some f =>
      match fsp_Replicas f with
      | Some n => if (n <? 1)%Z
                  then Some ("failover mode requires at least 1 replica (found " +:+ itoa n +:+ ")") else None
      | None => None
      end ∪
      match fsp_MinReplicasToWrite f with
      | Some n => if (n <? 0)%Z
                  then Some ("failover minReplicasToWrite must be >= 0 (found " +:+ itoa n +:+ ")") else None
      | None => None
      end
  | None => None
  end.

Definition validateClusterSpec (lr : LittleRed) : option string :=
  match lr_Cluster lr with
  | None => None
  | Some c =>
      if (cls_Shards c <? 3)%Z then Some ("cluster.shards must be at least 3, got " +:+ itoa (cls_Shards c))
      else match cls_ReplicasPerShard c with
           | Some n => if (n <? 0)%Z
                       then Some ("cluster.replicasPerShard cannot be negative, got " +:+ itoa n) else None
           | None => None
           end
  end.

Definition validatePlacementSpec (lr : LittleRed) : option string :=
  match lr_WhenUnsatisfiable lr with
  | None => None
  | Some w =>
      if negb (lr_Mode lr =? ModeCluster)
      then Some ("spec.placement.shardAntiAffinity is only supported in cluster mode (mode is " +:+
                 Quote (lr_Mode lr) +:+ ")")
      else if (w =? "") || (w =? ScheduleAnyway) || (w =? DoNotSchedule) then None
      else Some ("spec.placement.shardAntiAffinity.whenUnsatisfiable must be ScheduleAnyway or DoNotSchedule, got " +:+
                 Quote w)
  end.

(** A secret that must exist and hold the given keys. *)
Definition require_secret (kind name : string) (keys : list string) : prog (option string) :=
  r ← perform (GetSecret name);
  mret match r with
       | inr err => Some (if error_not_found err then kind +:+ " secret " +:+ Quote name +:+ " not found"
                          else error_text err)
       | inl data =>
           match bfilter (λ k, bool_decide (data !! k = None)) keys with
           | [] => None
           | k :: _ => Some (kind +:+ " secret " +:+ Quote name +:+ " does not contain '" +:+ k +:+ "' key")
           end
       end.

Definition validateAuth (lr : LittleRed) : prog (option string) :=
  if negb (lr_AuthEnabled lr) then mret None
  else if lr_ExistingSecret lr =? "" then mret (Some "auth.enabled is true but auth.existingSecret is not set")
  else require_secret "auth" (lr_ExistingSecret lr) ["password"].

Definition validateTLS (lr : LittleRed) : prog (option string) :=
  let t := lr_TLS lr in
  if negb (tls_Enabled t) then mret None
  else if tls_ExistingSecret t =? "" then mret (Some "tls.enabled is true but tls.existingSecret is not set")
  else
    e ← require_secret "TLS" (tls_ExistingSecret t) ["tls.crt"; "tls.key"];
    match e with
    | Some e => mret (Some e)
    | None =>
        if negb (tls_ClientAuth t) then mret None
        else if tls_CACertSecret t =? "" then mret (Some "tls.clientAuth is true but tls.caCertSecret is not set")
        else require_secret "CA certificate" (tls_CACertSecret t) ["ca.crt"]
    end.

Definition validateSpec (lr : LittleRed) : prog (option string) :=
  a ← validateAuth lr;
  match a with
  | Some e => mret (Some e)
  | None =>
      t ← validateTLS lr;
      mret match t with
           | Some e => Some e
           | None => (if lr_Mode lr =? ModeCluster then validateClusterSpec lr else None) ∪ validatePlacementSpec lr
           end
  end.

Section Controller.
Context `{GoRuntime} (hmac_sha256 : string → string → string) (retries : nat) (namespace : string).
Context (desiredHash : LittleRed → Z → string) (pdbCreate : LittleRed → option bool) (scraped : LittleRed → bool).
(** Whether [SetupWithManager] has made the channel of events. *)
Context (wired : bool).

Definition stopFailoverMonitor (lo : local_state) : local_state :=
  mkLocal (lo_stalled lo) (lo_sentinelMonitor lo) false.

Definition ensureFailoverMonitor (lr : LittleRed) (lo : local_state) : local_state :=
  if monitoring_disabled lr then stopFailoverMonitor lo
  else if negb wired then lo else mkLocal (lo_stalled lo) (lo_sentinelMonitor lo) true.

(** *** Failure and deletion *)

Definition setFailedStatus (reason message : string) : prog (ctrl_result + error) :=
  let fail_attempt (u : unit) : prog (unit * option error) :=
    g ← perform GetLittleRed;
    match g with
    | inr err => mret (tt, Some err)
    | inl latest =>
        let st := lr_Status latest in
        let st := mkLittleRedStatus PhaseFailed (ls_Status st) (ls_BootstrapRequired st) (ls_LeaderlessSince st)
                    (ls_GhostMasterStuckSince st) (ls_ForsakenSince st) (ls_QuarantinedSince st)
                    (ls_QuarantineAttempts st) (ls_AcknowledgedOperations st) (ls_Operation st)
                    (lr_Generation latest) (ls_Conditions st) (ls_Redis st) (ls_Master st) (ls_Replicas st)
                    (ls_Sentinels st) (ls_Failover st) (ls_Cluster st) in
        w ← perform (UpdateStatus (set_lr_Status latest
               (set_condition (set_condition st ConditionConfigValid ConditionFalse reason message)
                  ConditionReady ConditionFalse reason message)));
        mret (tt, write_error w)
    end in
  r ← RetryOnConflict retries fail_attempt tt;
  mret match r.2 with Some e => inr e | None => inl no_requeue end.

Definition with_finalizer (lr : LittleRed) (b : bool) : LittleRed :=
  mkLittleRed (lr_Name lr) (lr_UID lr) (lr_ResourceVersion lr) b (lr_Terminating lr) (lr_Mode lr)
    (lr_Generation lr) (lr_Annotations lr) (lr_AuthEnabled lr) (lr_ExistingSecret lr) (lr_TLS lr)
    (lr_FailoverSpec lr) (lr_Sentinel lr) (lr_Cluster lr) (lr_WhenUnsatisfiable lr)
    (lr_RequeueFast lr) (lr_RequeueSteady lr) (lr_Status lr).

(** A successful write of the status replaces the local object by the stored one. *)
Definition reconcileDelete (lo : local_state) (lr : LittleRed) : prog (local_state * (ctrl_result + error)) :=
  let lr := set_lr_Status lr (set_Phase (lr_Status lr) PhaseTerminating (ls_Status (lr_Status lr))) in
  w ← perform (UpdateStatus lr);
  match match w with
        | inl written => inl written
        | inr err => if negb (error_conflict err) then inr err else inl lr
        end with
  | inr err => mret (lo, inr err)
  | inl lr =>
      u ← perform (UpdateLittleRed (with_finalizer lr false));
      mret match u with
           | inr err => (lo, inr err)
           | inl _ => (stopFailoverMonitor (stopSentinelMonitor lo), inl no_requeue)
           end
  end.

(** *** Standalone mode *)

Definition standalone_status (lr : LittleRed) (sts : option StatefulSet) : LittleRedStatus :=
  let st := lr_Status lr in
  let ready_text (s : StatefulSet) := itoa (sts_ReadyReplicas s) +:+ "/" +:+ itoa (sts_Replicas s) +:+ " pods ready" in
  let '(phase, redis, conditions) :=
    match sts with
    | None => (PhasePending, (0, 1), ls_Conditions st)
    | Some s =>
        let redis := (sts_ReadyReplicas s, sts_Replicas s) in
        let waiting (msg : string) :=
          (PhaseInitializing, redis, SetStatusCondition (ls_Conditions st) ConditionReady ConditionFalse reasonPodsNotReady msg) in
        if (sts_ReadyReplicas s =? sts_Replicas s)%Z && (0 <? sts_ReadyReplicas s)%Z then
          (PhaseRunning, redis,
             SetStatusCondition
               (SetStatusCondition (ls_Conditions st) ConditionReady ConditionTrue reasonAllPodsReady "All pods are ready")
               ConditionInitialized ConditionTrue reasonInitialized "Redis is initialized")
        else if (0 <? sts_ReadyReplicas s)%Z then waiting (ready_text s)
        else waiting "Waiting for pods to start"
    end in
  mkLittleRedStatus phase (if bool_decide (phase = PhaseRunning) then ConditionReady else phase_text phase)
    (ls_BootstrapRequired st) (ls_LeaderlessSince st) (ls_GhostMasterStuckSince st) (ls_ForsakenSince st)
    (ls_QuarantinedSince st) (ls_QuarantineAttempts st) (ls_AcknowledgedOperations st) (ls_Operation st)
    (lr_Generation lr) conditions redis (ls_Master st) (ls_Replicas st) (ls_Sentinels st) (ls_Failover st) (ls_Cluster st).

(** [reflect.DeepEqual] compares the old status, a pointer, with the new one, a value: they
    always differ. *)
Definition updateStatus (lr : LittleRed) : prog (ctrl_result + error) :=
  r ← perform (GetStatefulSet (statefulSetName lr));
  match match r with
        | inl sts => inl (Some sts)
        | inr err => if error_not_found err then inl None else inr err
        end with
  | inr err => mret (inr err)
  | inl sts =>
      w ← perform (UpdateStatus (set_lr_Status lr (standalone_status lr sts)));
      mret match w with
           | inr err => if error_conflict err then inl (requeue_after second) else inr err
           | inl written =>
               let '(fast, steady) := GetRequeueIntervals written in
               let st := lr_Status written in
               inl (requeue_after (if negb (bool_decide (ls_Phase st = PhaseRunning))
                                   then requeueAfterNotRunning (ls_Phase st) (ls_Conditions st) fast steady
                                   else steady))
           end
  end.

Definition reconcileStandalone (lr : LittleRed) : prog (ctrl_result + error) :=
  let lr := start_phase lr in
  e ← then_if_ok (perform (Apply StandaloneConfigMap))
        (then_if_ok (perform (Apply StandaloneStatefulSet))
           (then_if_ok (perform (Apply StandaloneService))
              (deleteIfExists KindPodDisruptionBudget (podDisruptionBudgetName lr))));
  match e with
  | Some err => mret (inr err)
  | None =>
      _ ← (if scraped lr then reconcileServiceMonitor else mret None);
      updateStatus lr
  end.

(** *** Failover mode *)

Definition ensureFailoverResources : prog (option error) :=
  then_if_ok (perform (Apply FailoverConfigMap))
    (then_if_ok (perform (Apply ReplicasHeadlessService))
       (then_if_ok (perform (Apply FailoverStatefulSet)) (perform (Apply MasterService)))).

Definition reconcileFailoverPDB (lr : LittleRed) : prog (option error) :=
  if pdbEnabled (pdbCreate lr) then perform (Apply FailoverPDB)
  else deleteIfExists KindPodDisruptionBudget (podDisruptionBudgetName lr).

(** A transition in flight asks for the fast interval. *)
Definition hurry (lr : LittleRed) (eng : option failoverEngineView) (after : duration) : duration :=
  let fast := (GetRequeueIntervals lr).1 in
  if from_option ev_requeueFast false eng && ((after =? 0)%Z || (fast <? after)%Z) then fast else after.

Definition reconcileFailover (lo : local_state) (lr : LittleRed) : prog (local_state * (ctrl_result + error)) :=
  _ ← (if bool_decide (ls_Phase (lr_Status lr) = PhaseUnset)
       then perform (Event EventTypeWarning reasonExperimentalMode
              ("mode failover is experimental: operator-managed HA without Sentinel, under active " +:+
               "validation — see docs for current status and trade-offs vs sentinel"))
       else mret tt);
  let lr := start_phase lr in
  e ← ensureFailoverResources;
  match e with
  | Some err => mret (lo, inr err)
  | None =>
  b ← (if ls_BootstrapRequired (lr_Status lr) then bootstrapFailover retries lr else mret (lr, None));
  let '(lr, e) := b : LittleRed * option error in
  match e with
  | Some err => mret (lo, inr err)
  | None =>
  a ← reconcileFailoverAssignments retries lr;
  let '(lr, eng, _) := a in
  _ ← updateFailoverMasterLabel eng;
  e ← reconcileFailoverPDB lr;
  match e with
  | Some err => mret (lo, inr err)
  | None =>
  _ ← (if scraped lr then reconcileServiceMonitor else mret None);
  let lo := ensureFailoverMonitor lr lo in
  s ← updateFailoverStatus retries eng;
  mret (lo, match s.2 with Some err => inr err | None => inl (requeue_after (hurry lr eng s.1)) end)
  end end end.

(** *** The dispatcher *)

(** A resource seen for the first time in a mode the operator bootstraps. *)
Definition starts_bootstrap (lr : LittleRed) : bool :=
  ((lr_Mode lr =? ModeSentinel) || (lr_Mode lr =? ModeFailover)) &&
  bool_decide (ls_Phase (lr_Status lr) = PhaseUnset) && negb (ls_BootstrapRequired (lr_Status lr)).

Definition flag_bootstrap (u : unit) : prog (unit * option error) :=
  g ← perform GetLittleRed;
  match g with
  | inr err => mret (tt, Some err)
  | inl latest =>
      if negb (bool_decide (ls_Phase (lr_Status latest) = PhaseUnset)) || ls_BootstrapRequired (lr_Status latest)
      then mret (tt, None)
      else
        w ← perform (UpdateStatus (set_lr_Status latest (set_BootstrapRequired (lr_Status latest) true)));
        mret (tt, write_error w)
  end.

(** The object the handler gets: re-read if the flag had to be set. *)
Definition initialize_bootstrap (lr : LittleRed) : prog (LittleRed + error) :=
  if starts_bootstrap lr then
    r ← RetryOnConflict retries flag_bootstrap tt;
    match r.2 with
    | Some e => mret (inr (errorf "failed to initialize bootstrap flag" e))
    | None => perform GetLittleRed
    end
  else mret (inl lr).

Definition dispatch (lo : local_state) (lr : LittleRed) : prog (local_state * outcome (ctrl_result + error)) :=
  if lr_Mode lr =? ModeStandalone then
    r ← reconcileStandalone lr;
    mret (lo, Ok r)
  else if lr_Mode lr =? ModeSentinel then
    r ← reconcileSentinel hmac_sha256 retries namespace (pdbCreate lr) (scraped lr) wired lo lr;
    mret (r.1, Ok r.2)
  else if lr_Mode lr =? ModeCluster then
    r ← reconcileCluster namespace (desiredHash lr) retries (pdbCreate lr) (scraped lr) lr;
    mret (lo, r.2)
  else if lr_Mode lr =? ModeFailover then
    r ← reconcileFailover lo lr;
    mret (r.1, Ok r.2)
  else
    r ← setFailedStatus "InvalidMode" ("Unknown mode: " +:+ lr_Mode lr);
    mret (lo, Ok r).

(** The condition is set on the local object only. *)
Definition mark_valid (lr : LittleRed) : LittleRed :=
  set_lr_Status lr (set_condition (lr_Status lr) ConditionConfigValid ConditionTrue "ConfigurationValid"
    "Configuration validated successfully").

(** The monitors of the modes the instance is not in are stopped. *)
Definition stop_other_monitors (lr : LittleRed) (lo : local_state) : local_state :=
  let lo := if negb (lr_Mode lr =? ModeSentinel) then stopSentinelMonitor lo else lo in
  if negb (lr_Mode lr =? ModeFailover) then stopFailoverMonitor lo else lo.

Definition Reconcile (lo : local_state) : prog (local_state * outcome (ctrl_result + error)) :=
  g ← perform GetLittleRed;
  match g with
  | inr err => mret (lo, Ok (if error_not_found err then inl no_requeue else inr err))
  | inl stored =>
  let lr := SetDefaults stored in
  match Validate lr with
  | Some msg => r ← setFailedStatus "UnsupportedConfiguration" msg; mret (lo, Ok r)
  | None =>
  if lr_Terminating lr then
    r ← reconcileDelete lo lr;
    mret (r.1, Ok r.2)
  else if negb (lr_HasFinalizer lr) then
    u ← perform (UpdateLittleRed (with_finalizer lr true));
    mret (lo, Ok match u with inr err => inr err | inl _ => inl (mkResult true 0) end)
  else
  v ← validateSpec lr;
  match v with
  | Some msg => r ← setFailedStatus "ValidationFailed" msg; mret (lo, Ok r)
  | None =>
      let lr := mark_valid lr in
      let lo := stop_other_monitors lr lo in
      i ← initialize_bootstrap lr;
      match i with
      | inr err => mret (lo, Ok (inr err))
      | inl lr => dispatch lo lr
      end
  end end end.

End Controller.
