(* ===== verification/ControllerSafety.v ===== *)
(** * What the controller may do

    Every effect of a pass of [Reconcile] follows the checks of the same pass, and is one the
    handler of the mode accounts for. *)

From S2P Require Import Prelude GoStrings Slots Probe ClusterState ReplicationTypes.
From S2P Require Import Info Lineage ReplicationState Recovery FailoverIntent Capture Gather Operations Kube OperationWiring.
From S2P Require Import Quarantine AuthReport ReshardDance Rollout ClusterRollout ClusterRepair ClusterMigration ClusterReconcile.
From S2P Require Import FailoverEngine FailoverSafety SentinelClient SentinelRecovery SentinelReconcile SentinelSafety SentinelStatus Controller.

Open Scope Z_scope.
Open Scope go_scope.

(** ** Definitions *)

(** A secret was read and holds the key. *)
Definition has_key (tr : trace) (name key : string) : Prop :=
  ∃ data, answered tr (GetSecret name) (inl data) ∧ is_Some ((data : gmap string string) !! key).

(** The checks a resource has passed in this history. *)
Record admitted (tr : trace) (stored : LittleRed) : Prop := mkAdmitted {
  ad_read : answered tr GetLittleRed (inl stored);
  ad_live : lr_Terminating stored = false ∧ lr_HasFinalizer stored = true;
  ad_valid : Validate (SetDefaults stored) = None;
  ad_auth : lr_AuthEnabled stored = true → has_key tr (lr_ExistingSecret stored) "password";
  ad_tls : tls_Enabled (lr_TLS stored) = true →
    has_key tr (tls_ExistingSecret (lr_TLS stored)) "tls.crt" ∧ has_key tr (tls_ExistingSecret (lr_TLS stored)) "tls.key" ∧
    (tls_ClientAuth (lr_TLS stored) = true → has_key tr (tls_CACertSecret (lr_TLS stored)) "ca.crt");
  ad_cluster : lr_Mode (SetDefaults stored) = ModeCluster → validateClusterSpec (SetDefaults stored) = None;
  ad_placement : validatePlacementSpec (SetDefaults stored) = None;
}.

(** The object the handler gets: the checked one, or the one re-read after the bootstrap flag
    has been set. *)
Definition handed (tr : trace) (stored d : LittleRed) : Prop :=
  d = mark_valid (SetDefaults stored) ∨
  starts_bootstrap (mark_valid (SetDefaults stored)) = true ∧ answered tr GetLittleRed (inl d).

(** A call that changes something other than the status. *)
Definition effect (c : call) : bool :=
  match c with
  | Apply _ | Delete _ _ | PatchPod _ _ | UpdatePod _ | ClusterDo _ _ | UpdateLittleRed _ => true
  | _ => directive c
  end.

Definition no_effect (c : call) : Prop := effect c = false.

(** *** Standalone and failover mode *)

Section Handlers.
Context `{GoRuntime} (pdbCreate : LittleRed → option bool) (scraped : LittleRed → bool).

Definition standalone_call (d : LittleRed) (c : call) : Prop :=
  match c with
  | Apply (StandaloneConfigMap | StandaloneStatefulSet | StandaloneService) => True
  | Apply ServiceMonitor => scraped (start_phase d) = true
  | Delete kind n => kind = KindPodDisruptionBudget ∧ n = podDisruptionBudgetName d
  | _ => no_effect c
  end.

Definition assignment_keys : list string :=
  [AnnotationAssignedRole; AnnotationAssignedMasterIP; AnnotationAssignmentEpoch;
   AnnotationMasterStartAuthorizedEpoch].

(** The first assignment: redis-0, of the current revision, is made the master. *)
Definition first_assignment (d : LittleRed) (tr : trace) (c : call) : Prop :=
  match c with
  | PatchPod name changes =>
      ls_BootstrapRequired (lr_Status d) = true ∧
      ∃ latest sts pod0 pods, answered tr GetLittleRed (inl latest) ∧ ls_BootstrapRequired (lr_Status latest) = true ∧
        answered tr (GetStatefulSet (statefulSetName d)) (inl sts) ∧
        answered tr (GetPod (lr_Name d +:+ "-redis-0")) (inl pod0) ∧ pod0_ready pod0 sts = true ∧
        answered tr ListDataPods (inl pods) ∧ name ∈ pod_Name <$> pods ∧
        (∀ k, is_Some (changes !! k) → k ∈ assignment_keys) ∧
        (changes !! AnnotationAssignedRole = Some RoleMaster → name = lr_Name d +:+ "-redis-0")
  | _ => False
  end.

(** A pass of the assignment engine over the view of this history. *)
Definition assigned (d : LittleRed) (tr : trace) (c : call) : Prop :=
  ∃ lr pods password w, current d tr lr ∧ ls_BootstrapRequired (lr_Status lr) = false ∧
    answered tr ListDataPods (inl pods) ∧ answered tr (ProbeServers password) w ∧
    permitted w pods lr c.

Definition failover_object (r : resource) : Prop :=
  match r with
  | FailoverConfigMap | ReplicasHeadlessService | FailoverStatefulSet | MasterService | FailoverPDB | ServiceMonitor => True
  | _ => False
  end.

Definition failover_call (d : LittleRed) (tr : trace) (c : call) : Prop :=
  match c with
  | Apply r => failover_object r
  | Delete kind n => kind = KindPodDisruptionBudget
  | UpdatePod p' =>
      ∃ pods p m, answered tr ListDataPods (inl pods) ∧ existsb pod_Terminating pods = false ∧ p ∈ pods ∧
        p' = set_Labels p (<[LabelRole := expected_role m p]> (pod_Labels p))
  | PatchPod _ _ | ReplicaOf _ _ _ => first_assignment d tr c ∨ assigned d tr c
  | _ => no_effect c
  end.

(** *** A pass *)

(** What the handler of the mode may do. *)
Definition handler_call (stored d : LittleRed) (tr : trace) (c : call) : Prop :=
  if lr_Mode d =? ModeStandalone then standalone_call d c
  else if lr_Mode d =? ModeSentinel then mode_call (pdbCreate d) (scraped d) (start_phase d) tr c
  else if lr_Mode d =? ModeCluster then
    ∀ cluster, d = mark_valid (SetDefaults stored) → lr_Cluster d = Some cluster → cls_Shards cluster ≤ totalClusterSlots →
      reconcile_call (pdbCreate d) (scraped d) (start_phase d) cluster tr c
  else if lr_Mode d =? ModeFailover then failover_call (start_phase d) tr c
  else no_effect c.

(** A finalizer is added to a live resource without one, and removed from a terminating one. *)
Definition finalizer_step (tr : trace) (l : LittleRed) : Prop :=
  ∃ stored, answered tr GetLittleRed (inl stored) ∧ Validate (SetDefaults stored) = None ∧
    (lr_Terminating stored = true ∧ lr_HasFinalizer l = false ∨
     lr_Terminating stored = false ∧ lr_HasFinalizer stored = false ∧ l = with_finalizer (SetDefaults stored) true).

(** *** Before the handler *)

(** A secret was asked for and is missing, unreadable or lacks one of the keys. *)
Definition lacks (tr : trace) (name : string) (keys : list string) : Prop :=
  ∃ x : answer (GetSecret name), answered tr (GetSecret name) x ∧
    match x with inl data => ∃ k, k ∈ keys ∧ (data : gmap string string) !! k = None | inr _ => True end.

(** Why the specification is refused. *)
Definition refused (tr : trace) (stored : LittleRed) : Prop :=
  let t := lr_TLS stored in
  (lr_AuthEnabled stored = true ∧ (lr_ExistingSecret stored = "" ∨ lacks tr (lr_ExistingSecret stored) ["password"])) ∨
  (tls_Enabled t = true ∧
     (tls_ExistingSecret t = "" ∨ lacks tr (tls_ExistingSecret t) ["tls.crt"; "tls.key"] ∨
      tls_ClientAuth t = true ∧ (tls_CACertSecret t = "" ∨ lacks tr (tls_CACertSecret t) ["ca.crt"]))) ∨
  (lr_Mode (SetDefaults stored) = ModeCluster ∧ is_Some (validateClusterSpec (SetDefaults stored))) ∨
  is_Some (validatePlacementSpec (SetDefaults stored)).

(** The status of an object that was read, with a failure verdict. *)
Definition failure_verdict (tr : trace) (l : LittleRed) : Prop :=
  ∃ stored latest st, answered tr GetLittleRed (inl stored) ∧ answered tr GetLittleRed (inl latest) ∧
    (is_Some (Validate (SetDefaults stored)) ∨ refused tr stored) ∧
    l = set_lr_Status latest st ∧ ls_Phase st = PhaseFailed ∧
    ls_BootstrapRequired st = ls_BootstrapRequired (lr_Status latest).

(** The bootstrap flag of a resource without a phase, in the modes the operator bootstraps. *)
Definition bootstrap_flag (tr : trace) (l : LittleRed) : Prop :=
  ∃ stored latest, admitted tr stored ∧
    (lr_Mode (SetDefaults stored) = ModeSentinel ∨ lr_Mode (SetDefaults stored) = ModeFailover) ∧
    ls_Phase (lr_Status stored) = PhaseUnset ∧ ls_BootstrapRequired (lr_Status stored) = false ∧
    answered tr GetLittleRed (inl latest) ∧
    ls_Phase (lr_Status latest) = PhaseUnset ∧ ls_BootstrapRequired (lr_Status latest) = false ∧
    l = set_lr_Status latest (set_BootstrapRequired (lr_Status latest) true).

(** The phase of a resource that is being deleted. *)
Definition farewell (tr : trace) (l : LittleRed) : Prop :=
  ∃ stored, answered tr GetLittleRed (inl stored) ∧ lr_Terminating stored = true ∧
    l = set_lr_Status (SetDefaults stored)
          (set_Phase (lr_Status stored) PhaseTerminating (ls_Status (lr_Status stored))).

(** What a pass may write before it hands the resource to its handler: status and all. *)
Definition preliminary (tr : trace) (c : call) : Prop :=
  match c with
  | UpdateStatus l => failure_verdict tr l ∨ bootstrap_flag tr l ∨ farewell tr l
  | UpdateLittleRed l => finalizer_step tr l
  | _ => no_effect c
  end.

Definition controller_call (tr : trace) (c : call) : Prop :=
  effect c = true →
  match c with UpdateLittleRed l => finalizer_step tr l | _ => False end ∨
  ∃ stored d, admitted tr stored ∧ handed tr stored d ∧ handler_call stored d tr c.
End Handlers.

(** ** Lemmas *)

(** *** Steps without an effect *)

Lemma reporting_no_effect c : reporting c → no_effect c.
Proof. by destruct c. Qed.

Lemma queries_no_effect c : queries c → no_effect c.
Proof. destruct c; try done. match goal with cmd : sentinel_command |- _ => by destruct cmd end. Qed.

Lemma bookkeeping_no_effect c : bookkeeping c → no_effect c.
Proof. by destruct c. Qed.

Lemma harmless_traced {A} P tr (p : prog A) :
  (∀ tr c, no_effect c → P tr c) → calls_only no_effect p → traced P (λ _ _, True) tr p.
Proof. intros HP Hp. apply (traced_safe _ (λ _, True)). eapply safe_mono; [|done|exact Hp]. auto. Qed.

Lemma setFailedStatus_harmless n reason msg : calls_only no_effect (setFailedStatus n reason msg).
Proof.
  apply calls_only_bind; [|done]. apply (safe_RetryOnConflict _ (λ _, True)); [done|]. intros u _.
  apply safe_call; [done|]. intros [latest|e]; [|done]. by apply safe_call.
Qed.

Lemma require_secret_keys P kind name keys tr :
  (∀ tr n, P tr (GetSecret n)) →
  traced P (λ tr' e, match e with None => ∀ k, k ∈ keys → has_key tr' name k | Some _ => lacks tr' name keys end)
    tr (require_secret kind name keys).
Proof.
  intros HP. apply traced_call; [by apply HP|]. intros [data|e]; apply traced_ret.
  2: { exists (inr e). split; [apply just_answered|done]. }
  destruct (bfilter _ keys) as [|k' l] eqn:Hf.
  2: { exists (inl data). split; [apply just_answered|]. exists k'.
       assert (Hin : k' ∈ bfilter (λ k, bool_decide (data !! k = None)) keys) by (rewrite Hf; left).
       apply elem_of_bfilter in Hin as [? Hd]. split; [done|]. by apply bool_decide_eq_true in Hd. }
  intros k Hk. exists data. split; [apply just_answered|].
  apply not_eq_None_Some. intros Hn. assert (Hin : k ∈ bfilter (λ k, bool_decide (data !! k = None)) keys).
  { apply elem_of_bfilter. by rewrite bool_decide_true. }
  rewrite Hf in Hin. by apply elem_of_nil in Hin.
Qed.

Lemma no_error (x y : option string) : x ∪ y = None → x = None ∧ y = None.
Proof. by destruct x, y. Qed.

Lemma lacks_mono tr tr' n keys : tr ⊆ tr' → lacks tr n keys → lacks tr' n keys.
Proof. intros Hs (x & Hx & Hk). exists x. split; [by apply Hs|done]. Qed.

Lemma has_key_mono tr tr' n k : tr ⊆ tr' → has_key tr n k → has_key tr' n k.
Proof. intros Hs (data & Hd & Hk). exists data. split; [by apply Hs|done]. Qed.

Lemma validateAuth_checks P stored tr :
  (∀ tr n, P tr (GetSecret n)) →
  traced P (λ tr' e, match e with
      | None => lr_AuthEnabled stored = true → has_key tr' (lr_ExistingSecret stored) "password"
      | Some _ => refused tr' stored
      end) tr (validateAuth (SetDefaults stored)).
Proof.
  intros HP. unfold validateAuth. change (lr_AuthEnabled (SetDefaults stored)) with (lr_AuthEnabled stored).
  change (lr_ExistingSecret (SetDefaults stored)) with (lr_ExistingSecret stored).
  destruct (lr_AuthEnabled stored) eqn:Hau; [|by apply traced_ret]. cbn [negb].
  destruct (String.eqb_spec (lr_ExistingSecret stored) "").
  { apply traced_ret. left. split; [done|by left]. }
  eapply traced_mono; [done| |by apply require_secret_keys]. intros tr' [e|] He.
  - left. split; [done|by right].
  - intros _. apply He. constructor.
Qed.

Lemma validateTLS_checks P stored tr :
  (∀ tr n, P tr (GetSecret n)) →
  traced P (λ tr' e, match e with
      | None => tls_Enabled (lr_TLS stored) = true →
          has_key tr' (tls_ExistingSecret (lr_TLS stored)) "tls.crt" ∧ has_key tr' (tls_ExistingSecret (lr_TLS stored)) "tls.key" ∧
          (tls_ClientAuth (lr_TLS stored) = true → has_key tr' (tls_CACertSecret (lr_TLS stored)) "ca.crt")
      | Some _ => refused tr' stored
      end) tr (validateTLS (SetDefaults stored)).
Proof.
  intros HP. unfold validateTLS. change (lr_TLS (SetDefaults stored)) with (lr_TLS stored). cbv zeta.
  set (t := lr_TLS stored). destruct (tls_Enabled t) eqn:Hen; [|by apply traced_ret]. cbn [negb].
  destruct (String.eqb_spec (tls_ExistingSecret t) "").
  { apply traced_ret. right. left. split; [done|by left]. }
  eapply traced_bind; [by apply require_secret_keys|]. intros tr2 [e|] Hs2 Hk.
  { apply traced_ret. right. left. split; [done|]. right. by left. }
  assert (Hcrt : has_key tr2 (tls_ExistingSecret t) "tls.crt") by (apply Hk; by left).
  assert (Hkey : has_key tr2 (tls_ExistingSecret t) "tls.key") by (apply Hk; right; by left).
  destruct (tls_ClientAuth t) eqn:Hca; [|by apply traced_ret]. cbn [negb].
  destruct (String.eqb_spec (tls_CACertSecret t) "").
  { apply traced_ret. right. left. split; [done|]. right. right. split; [done|by left]. }
  eapply traced_mono; [done| |by apply traced_grows, require_secret_keys]. intros tr3 [e|] [Hs3 He].
  - right. left. split; [done|]. right. right. split; [done|by right].
  - intros _. split; [by eapply has_key_mono|]. split; [by eapply has_key_mono|]. intros _. apply He. by left.
Qed.

(** What validation has established. *)
Lemma validateSpec_checks P stored tr :
  (∀ tr n, P tr (GetSecret n)) →
  answered tr GetLittleRed (inl stored) → lr_Terminating stored = false → lr_HasFinalizer stored = true →
  Validate (SetDefaults stored) = None →
  traced P (λ tr' e, match e with None => admitted tr' stored | Some _ => refused tr' stored end)
    tr (validateSpec (SetDefaults stored)).
Proof.
  intros HP Hread Hterm Hfin Hval. unfold validateSpec.
  eapply traced_bind; [by apply (validateAuth_checks _ stored)|].
  intros tr1 [e|] Hs1 Ha; [by apply traced_ret|]. cbv zeta.
  eapply traced_bind; [by apply (validateTLS_checks _ stored)|].
  intros tr2 [e|] Hs2 Ht; [by apply traced_ret|]. apply traced_ret.
  destruct (_ ∪ _) as [e|] eqn:Hu.
  - right. right. destruct (String.eqb_spec (lr_Mode (SetDefaults stored)) ModeCluster) as [Hm|].
    + destruct (validateClusterSpec (SetDefaults stored)) eqn:Hc; [by left|]. right. rewrite (left_id None _) in Hu. by exists e.
    + right. rewrite (left_id None _) in Hu. by exists e.
  - apply no_error in Hu as [Hc Hp]. split; try done.
    + by apply Hs2, Hs1.
    + intros Hau%Ha. by eapply has_key_mono.
    + intros Hm. by rewrite Hm in Hc.
Qed.

(** *** The handlers *)

Section Traces.
Context `{GoRuntime} (retries : nat) (pdbCreate : LittleRed → option bool) (scraped : LittleRed → bool).

Lemma standalone_traced d tr :
  traced (λ _, standalone_call scraped d) (λ _ _, True) tr (reconcileStandalone scraped d).
Proof.
  assert (HP : ∀ (tr : trace) c, no_effect c → standalone_call scraped d c).
  { intros _ c Hc. destruct c; try done. }
  assert (Hname : podDisruptionBudgetName (start_phase d) = podDisruptionBudgetName d).
  { unfold start_phase. by destruct (bool_decide _). }
  unfold reconcileStandalone, then_if_ok, deleteIfExists. cbv zeta.
  eapply (traced_bind _ (λ _ _, True)).
  { do 3 (apply traced_call; [done|]; intros [e|]; [done|]). by apply traced_call. }
  intros tr1 [e|] _ _; [done|]. eapply (traced_bind _ (λ _ _, True)).
  { destruct (scraped (start_phase d)) eqn:Hs; [|done]. by split. }
  intros tr2 _ _ _. apply harmless_traced; [exact HP|]. apply safe_call; [done|].
  intros [sts|e]; [by apply safe_call|]. destruct (error_not_found e); [by apply safe_call|done].
Qed.

Lemma no_effect_failover d (tr : trace) c : no_effect c → failover_call d tr c.
Proof. destruct c; try done. Qed.

Lemma failover_label_traced d tr eng : traced (failover_call d) (λ _ _, True) tr (updateFailoverMasterLabel eng).
Proof.
  apply traced_call; [done|]. intros [pods|e]; [|done]. destruct pods as [|p0 rest] eqn:Hp; [done|]. rewrite <-Hp.
  destruct (existsb pod_Terminating pods) eqn:Ht; [done|].
  apply (applyRoleLabels_traced _ (tr ++ [existT ListDataPods (inl pods)]) _ pods); [|done|done].
  intros p p' Hin -> tr' Hs. do 3 eexists. split; [apply Hs, just_answered|]. by split.
Qed.

Lemma first_stamps_traced d tr latest sts pod0 pods epoch :
  ls_BootstrapRequired (lr_Status d) = true →
  answered tr GetLittleRed (inl latest) → ls_BootstrapRequired (lr_Status latest) = true →
  answered tr (GetStatefulSet (statefulSetName d)) (inl sts) →
  answered tr (GetPod (lr_Name d +:+ "-redis-0")) (inl pod0) → pod0_ready pod0 sts = true →
  answered tr ListDataPods (inl pods) →
  traced (failover_call d) (λ _ _, True) tr
    (stampFailoverAssignments pods (lr_Name d +:+ "-redis-0") (pod_IP pod0) epoch true).
Proof.
  intros Hb Hl Hbl Hsts Hp0 Hr Hpods.
  eapply (traced_mono (failover_call d) _ (λ t _, tr ⊆ t)); [done|done|].
  apply (traced_for_each _ (λ t _, tr ⊆ t)); [done|]. intros t acc p Hin Ht.
  destruct (assignment_stamp _ _ _ _ p) as [st|] eqn:Hst; [|done].
  assert (Hfacts : st_podName st = pod_Name p ∧ (st_role st = RoleMaster → pod_Name p = lr_Name d +:+ "-redis-0")).
  { unfold assignment_stamp in Hst. destruct (_ || _); [done|].
    destruct (String.eqb_spec (pod_Name p) (lr_Name d +:+ "-redis-0")); by simplify_eq/=. }
  destruct Hfacts as [Hn Hm]. eapply (traced_bind _ (λ _ _, True)); [|intros t1 e Hs1 _; apply traced_ret; by etrans].
  apply traced_call; [done|]. intros [q|e]; [|done]. destruct (already_stamped _ _); [done|].
  destruct (stamp_patch_facts (pod_Annotations q) st) as (H1 & H2 & _). split; [|done]. left. split; [done|].
  exists latest, sts, pod0, pods. assert (Hg : tr ⊆ t ++ [existT (GetPod (st_podName st)) (inl q)]) by (etrans; [exact Ht|apply grown]).
  split; [by apply Hg|]. split; [done|]. split; [by apply Hg|]. split; [by apply Hg|]. split; [done|].
  split; [by apply Hg|]. rewrite Hn. split; [by apply list_elem_of_fmap_2|]. split; [exact H1|]. auto.
Qed.

Lemma bookkeeping_traced {A} d tr (p : prog A) : calls_only bookkeeping p → traced (failover_call d) (λ _ _, True) tr p.
Proof.
  intros Hp. apply harmless_traced; [intros t c; apply no_effect_failover|]. eapply safe_mono; [|done|exact Hp].
  apply bookkeeping_no_effect.
Qed.

Lemma bootstrapFailover_traced d tr :
  ls_BootstrapRequired (lr_Status d) = true →
  traced (failover_call d) (λ t r, r.2 = None → current d t r.1) tr (bootstrapFailover retries d).
Proof.
  intros Hb. assert (Hd : ∀ t, current d t d) by (by left). unfold bootstrapFailover.
  apply traced_call; [done|]. intros [latest|e]; [|by apply traced_ret]. set (tr1 := tr ++ _).
  assert (Hl : answered tr1 GetLittleRed (inl latest)) by apply just_answered.
  destruct (ls_BootstrapRequired (lr_Status latest)) eqn:Hbl; [|by right]. cbn [negb].
  apply traced_call; [done|]. intros [sts|e]; [|by apply traced_ret].
  apply traced_call; [done|]. intros [pod0|e]; [|destruct (error_not_found e); by apply traced_ret].
  destruct (pod0_ready pod0 sts) eqn:Hp; [|by apply traced_ret]. cbn [negb].
  apply traced_call; [done|]. intros [pods|e]; [|by apply traced_ret]. cbv zeta.
  eapply traced_bind.
  { apply (first_stamps_traced d _ latest sts pod0 pods); try done; repeat first [apply just_answered | exact Hl | apply grown]. }
  intros tr2 [e|] _ _; [by apply traced_ret|].
  eapply traced_bind; [apply bookkeeping_traced, safe_markFailoverTransition|]. intros tr3 [lr1 [e|]] _ _; [by apply traced_ret|].
  eapply (traced_bind _ (λ _ _, True)).
  { apply harmless_traced; [intros t c; apply no_effect_failover|].
    eapply safe_mono; [apply reporting_no_effect|done|apply clear_bootstrap_reporting]. }
  intros tr4 c _ _. destruct c.2; [by apply traced_ret|]. apply traced_call; [done|].
  intros [latest'|e]; apply traced_ret; [|done]. intros _. right. apply just_answered.
Qed.

Lemma assigned_mono d tr tr' c : tr ⊆ tr' → assigned d tr c → assigned d tr' c.
Proof.
  intros Hs (lr & pods & pw & w & Hc & Hb & Hp & Hw & Hper). exists lr, pods, pw, w.
  split; [by eapply current_mono|]. split; [done|]. split; [by apply Hs|]. split; [by apply Hs|done].
Qed.

Lemma engine_traced d tr lr cs pods password w :
  current d tr lr → ls_BootstrapRequired (lr_Status lr) = false →
  answered tr ListDataPods (inl pods) → answered tr (ProbeServers password) w →
  traced (failover_call d) (λ _ _, True) tr (engine_pass retries (with_Conditions lr cs) pods (gathered_state w pods) password).
Proof.
  intros Hc Hb Hp Hw.
  eapply traced_mono; [| |apply (traced_keep (λ t, tr ⊆ t)); [intros t t'; by etrans|done|];
    apply (traced_safe (λ _ c, permitted w pods (with_Conditions lr cs) c) (λ _, True)); eapply safe_mono; [|done|apply engine_pass_safe]; auto].
  - intros t c [Hs Hper]. destruct c; try done; right; exists lr, pods, password, w;
      (split; [by eapply current_mono|]); (split; [done|]); (split; [by apply Hs|]); (split; [by apply Hs|done]).
  - done.
Qed.

Lemma assignments_traced d lr tr :
  current d tr lr → traced (failover_call d) (λ _ _, True) tr (reconcileFailoverAssignments retries lr).
Proof.
  intros Hc. unfold reconcileFailoverAssignments. destruct (ls_BootstrapRequired _) eqn:Hb; [done|].
  assert (HP := no_effect_failover d). eapply (traced_bind _ (λ _ _, True)).
  { apply harmless_traced; [done|]. eapply safe_mono; [apply queries_no_effect|done|apply getRedisPassword_queries]. }
  intros tr1 password Hs1 _. apply traced_call; [done|]. intros [pods|e]; [|done].
  apply traced_call; [done|]. intros w. set (tr2 := _ ++ _).
  eapply (traced_bind _ (λ _ a, ∃ c, a.1 = with_Conditions lr c)).
  { apply report_traced; [|apply reportOperatorAuth_reporting]. intros t c Hr. by apply HP, reporting_no_effect. }
  intros tr3 [l e] Hs3 [cs Hl]. cbn in Hl. subst l. eapply (traced_bind _ (λ _ _, True)); [|by intros ? [[? ?] ?]].
  apply engine_traced; [| |apply Hs3, grown, just_answered|apply Hs3, just_answered].
  - eapply current_mono; [|exact Hc]. intros x Hx. by apply Hs3, grown, grown, Hs1.
  - done.
Qed.

Lemma write_failover_status_harmless eng u : calls_only no_effect (write_failover_status eng u).
Proof.
  apply safe_call; [done|]. intros [latest|e]; [|done]. destruct (fsp_Replicas _); [|done].
  apply safe_call; [done|]. intros [sts|e]; cbv beta iota zeta.
  - case_match; [done|]. by apply safe_call.
  - destruct (error_not_found e); [|done]. cbv beta iota zeta. case_match; [done|]. by apply safe_call.
Qed.

Lemma updateFailoverStatus_harmless eng : calls_only no_effect (updateFailoverStatus retries eng).
Proof.
  apply calls_only_bind; [apply safe_retry; intros; apply write_failover_status_harmless|].
  intros r. destruct r.2; [done|]. apply safe_call; [done|]. intros [latest|e]; [|done].
  destruct (GetRequeueIntervals latest). by repeat case_match.
Qed.

Lemma failover_traced wired lo d tr :
  traced (failover_call (start_phase d)) (λ _ _, True) tr (reconcileFailover retries pdbCreate scraped wired lo d).
Proof.
  unfold reconcileFailover. cbv zeta. set (d0 := start_phase d). assert (HP := no_effect_failover d0).
  eapply (traced_bind _ (λ _ _, True)); [case_match; [by split|done]|]. intros tr1 _ _ _.
  eapply (traced_bind _ (λ _ _, True)).
  { unfold ensureFailoverResources, then_if_ok. do 3 (apply traced_call; [done|]; intros [e|]; [done|]). by split. }
  intros tr2 [e|] _ _; [done|].
  eapply (traced_bind _ (λ t r, r.2 = None → current d0 t r.1)).
  { destruct (ls_BootstrapRequired (lr_Status d0)) eqn:Hb; [by apply bootstrapFailover_traced|].
    apply traced_ret. intros _. by left. }
  intros tr3 [lr [e|]] _ Hc; [done|]. cbn in Hc.
  eapply traced_bind; [by apply assignments_traced, Hc|]. intros tr4 [[lr1 eng] err] _ _.
  eapply traced_bind; [apply failover_label_traced|]. intros tr5 _ _ _.
  eapply (traced_bind _ (λ _ _, True)).
  { unfold reconcileFailoverPDB, deleteIfExists. destruct (pdbEnabled _); [by split|]. by apply traced_call. }
  intros tr6 [e|] _ _; [done|].
  eapply (traced_bind _ (λ _ _, True)); [destruct (scraped lr1); [by split|done]|]. intros tr7 _ _ _.
  eapply (traced_bind _ (λ _ _, True)); [|done].
  apply harmless_traced; [done|apply updateFailoverStatus_harmless].
Qed.

End Traces.

(** *** The dispatcher *)

Lemma admitted_mono tr tr' stored : tr ⊆ tr' → admitted tr stored → admitted tr' stored.
Proof.
  intros Hs []. split; [by apply Hs|done|done|eauto using has_key_mono| |done|done].
  intros (? & ? & ?)%ad_tls0. split; [by eapply has_key_mono|]. split; [by eapply has_key_mono|].
  intros ?. eapply has_key_mono; [done|auto].
Qed.

Lemma refused_mono tr tr' stored : tr ⊆ tr' → refused tr stored → refused tr' stored.
Proof.
  intros Hs [[? Ha]|[[? Ht]|?]]; [left|right; left|by right; right].
  - split; [done|]. destruct Ha as [?|?]; [by left|right]. by eapply lacks_mono.
  - split; [done|]. destruct Ht as [?|[?|[? Hc]]]; [by left|right; left; by eapply lacks_mono|right; right].
    split; [done|]. destruct Hc as [?|?]; [by left|right]. by eapply lacks_mono.
Qed.

Lemma handed_mono tr tr' stored d : tr ⊆ tr' → handed tr stored d → handed tr' stored d.
Proof. intros Hs [?|[? Ha]]; [by left|right]. split; [done|by apply Hs]. Qed.

Section Pass.
Context `{GoRuntime} (hmac : string → string → string) (retries : nat) (ns : string).
Context (desiredHash : LittleRed → Z → string) (pdbCreate : LittleRed → option bool) (scraped : LittleRed → bool).
Context (wired : bool).

Abbreviation handler_call := (handler_call pdbCreate scraped).
Abbreviation controller_call := (controller_call pdbCreate scraped).

(** A checked cluster specification has the shape its handler relies on. *)
Lemma checked_shape tr stored cluster :
  admitted tr stored → lr_Mode (SetDefaults stored) = ModeCluster → lr_Cluster (SetDefaults stored) = Some cluster →
  cls_Shards cluster ≤ totalClusterSlots → admitted_shape cluster.
Proof.
  intros Ha Hm Hc Hs. split; [done|]. pose proof (ad_cluster _ _ Ha Hm) as Hv.
  unfold validateClusterSpec in Hv. rewrite Hc in Hv. destruct (_ <? 3)%Z; [done|].
  cbn. destruct (cls_ReplicasPerShard cluster) as [n|]; [|done].
  destruct (Z.ltb_spec n 0); [done|]. done.
Qed.

Lemma dispatch_traced stored d lo tr :
  admitted tr stored → traced (handler_call stored d) (λ _ _, True) tr
    (dispatch hmac retries ns desiredHash pdbCreate scraped wired lo d).
Proof.
  intros Ha. unfold dispatch, ControllerSafety.handler_call.
  destruct (lr_Mode d =? ModeStandalone). { eapply traced_bind; [apply standalone_traced|done]. }
  destruct (lr_Mode d =? ModeSentinel). { eapply traced_bind; [apply reconcileSentinel_traced|done]. }
  destruct (String.eqb_spec (lr_Mode d) ModeCluster) as [Hm|_].
  - eapply (traced_bind _ (λ _ _, True)); [|done]. apply traced_forall. intros cluster.
    apply traced_forall. intros ->. apply traced_forall. intros Hc. apply traced_forall. intros Hs.
    apply reconcile_pass_traced; [done|]. by eapply checked_shape.
  - destruct (lr_Mode d =? ModeFailover).
    + eapply traced_bind; [apply failover_traced|done].
    + eapply (traced_bind _ (λ _ _, True)); [|done]. apply harmless_traced; [done|apply setFailedStatus_harmless].
Qed.

Lemma no_effect_controller (tr : trace) c : no_effect c → controller_call tr c.
Proof. intros Hc He. by rewrite Hc in He. Qed.

Lemma handler_controller stored d tr c :
  (admitted tr stored ∧ handed tr stored d) ∧ handler_call stored d tr c → controller_call tr c.
Proof. intros [[Ha Hh] Hc] _. right. by exists stored, d. Qed.

(** The handler of a checked resource. *)
Lemma checked_traced stored d lo tr :
  admitted tr stored → handed tr stored d →
  traced controller_call (λ _ _, True) tr (dispatch hmac retries ns desiredHash pdbCreate scraped wired lo d).
Proof.
  intros Ha Hh. eapply traced_mono; [apply (handler_controller stored d)| |
    apply (traced_keep (λ t, admitted t stored ∧ handed t stored d)); [|done|by apply dispatch_traced]]; [done|].
  intros t t' Hs [H1 H2]. split; [by eapply admitted_mono|by eapply handed_mono].
Qed.

Lemma initialize_traced stored tr :
  admitted tr stored →
  traced controller_call (λ t r, ∀ d, r = inl d → handed t stored d) tr
    (initialize_bootstrap retries (mark_valid (SetDefaults stored))).
Proof.
  intros Ha. unfold initialize_bootstrap. destruct (starts_bootstrap _) eqn:Hs.
  2: { apply traced_ret. intros d [= <-]. by left. }
  eapply (traced_bind _ (λ _ _, True)).
  - apply harmless_traced; [apply no_effect_controller|]. apply safe_retry. intros u. apply safe_call; [done|].
    intros [latest|e]; [|done]. destruct (_ || _); [done|]. by apply safe_call.
  - intros tr1 r _ _. destruct r.2; [by apply traced_ret|]. split; [by apply no_effect_controller|]. intros [d|e]; [|done].
    intros d' [= <-]. right. split; [done|apply just_answered].
Qed.

Lemma delete_traced stored lo tr :
  answered tr GetLittleRed (inl stored) → Validate (SetDefaults stored) = None → lr_Terminating stored = true →
  traced controller_call (λ _ _, True) tr (reconcileDelete lo (SetDefaults stored)).
Proof.
  intros Hr Hv Ht. unfold reconcileDelete. cbv zeta. apply traced_call; [done|]. intros w.
  assert (Hrem : ∀ l, controller_call (tr ++ [existT (UpdateStatus (set_lr_Status (SetDefaults stored)
    (set_Phase (lr_Status (SetDefaults stored)) PhaseTerminating (ls_Status (lr_Status (SetDefaults stored)))))) w])
    (UpdateLittleRed (with_finalizer l false))).
  { intros l _. left. exists stored. split; [by apply grown|]. split; [done|]. by left. }
  destruct w as [written|e]; [by apply traced_call|]. destruct (error_conflict e); [by apply traced_call|done].
Qed.

Lemma Reconcile_traced lo :
  traced controller_call (λ _ _, True) [] (Reconcile hmac retries ns desiredHash pdbCreate scraped wired lo).
Proof.
  assert (Hfail : ∀ reason msg tr, traced controller_call (λ _ _, True) tr
    (r ← setFailedStatus retries reason msg; mret (lo, Ok r) : prog (local_state * outcome (ctrl_result + error)))).
  { intros. eapply (traced_bind _ (λ _ _, True)); [|done].
    apply harmless_traced; [apply no_effect_controller|apply setFailedStatus_harmless]. }
  apply traced_call; [done|]. intros [stored|e]; [|done]. set (tr := _ ++ _).
  assert (Hread : answered tr GetLittleRed (inl stored)) by apply just_answered. cbv zeta.
  destruct (Validate (SetDefaults stored)) as [msg|] eqn:Hv; [apply Hfail|].
  change (lr_Terminating (SetDefaults stored)) with (lr_Terminating stored).
  destruct (lr_Terminating stored) eqn:Ht. { eapply traced_bind; [by apply delete_traced|done]. }
  change (lr_HasFinalizer (SetDefaults stored)) with (lr_HasFinalizer stored).
  destruct (lr_HasFinalizer stored) eqn:Hf; cbn [negb].
  - eapply traced_bind; [apply (validateSpec_checks _ stored); [intros; by apply no_effect_controller|done..]|].
    intros tr1 [msg|] _ Ha; [apply Hfail|].
    eapply traced_bind; [apply traced_grows, initialize_traced, Ha|]. intros tr2 [d|e] _ [Hs Hh]; [|done].
    apply (checked_traced stored); [by eapply admitted_mono|by apply Hh].
  - apply traced_call; [|done]. intros _. left. exists stored. split; [done|]. split; [done|]. by right.
Qed.

(** *** The preliminaries *)

Lemma setFailedStatus_preliminary reason msg stored tr :
  answered tr GetLittleRed (inl stored) → (is_Some (Validate (SetDefaults stored)) ∨ refused tr stored) →
  traced preliminary (λ _ _, True) tr (setFailedStatus retries reason msg).
Proof.
  intros Hread Hwhy. eapply (traced_bind _ (λ t _, answered t GetLittleRed (inl stored) ∧
    (is_Some (Validate (SetDefaults stored)) ∨ refused t stored))); [|done].
  apply (traced_RetryOnConflict _ (λ t _, answered t GetLittleRed (inl stored) ∧
    (is_Some (Validate (SetDefaults stored)) ∨ refused t stored))); [done|].
  clear tr Hread Hwhy. intros tr u [Hread Hwhy]. apply traced_call; [done|]. intros x.
  assert (Hk : ∀ t, tr ⊆ t → answered t GetLittleRed (inl stored) ∧
    (is_Some (Validate (SetDefaults stored)) ∨ refused t stored)).
  { intros t Hs. split; [by apply Hs|]. destruct Hwhy as [?|Hr]; [by left|right]. by eapply refused_mono. }
  destruct x as [latest|e]; [|by apply traced_ret, Hk, grown].
  apply traced_call.
  - left. destruct (Hk _ (grown _ GetLittleRed (inl latest))) as [Hread' Hwhy']. eexists stored, latest, _. split; [exact Hread'|].
    split; [apply just_answered|]. split; [exact Hwhy'|]. by split.
  - intros w. apply traced_ret, Hk. intros y Hy. by apply grown, grown.
Qed.

Lemma initialize_preliminary stored tr :
  admitted tr stored →
  traced preliminary (λ t r, ∀ d, r = inl d → handed t stored d) tr
    (initialize_bootstrap retries (mark_valid (SetDefaults stored))).
Proof.
  intros Ha. unfold initialize_bootstrap. destruct (starts_bootstrap _) eqn:Hs.
  2: { apply traced_ret. intros d [= <-]. by left. }
  pose proof Hs as Hs'. unfold starts_bootstrap in Hs'. apply andb_true_iff in Hs' as [Hs' Hb].
  apply andb_true_iff in Hs' as [Hm Hp]. apply orb_true_iff in Hm. rewrite !String.eqb_eq in Hm.
  apply bool_decide_eq_true in Hp. apply negb_true_iff in Hb.
  eapply (traced_bind _ (λ t _, admitted t stored)).
  - apply (traced_RetryOnConflict _ (λ t _, admitted t stored)); [done|]. clear tr Ha. intros tr u Ha.
    assert (Hk : ∀ t, tr ⊆ t → admitted t stored) by (intros; by eapply admitted_mono).
    apply traced_call; [done|]. intros [latest|e]; [|by apply traced_ret, Hk, grown].
    destruct (negb _ || _) eqn:Hl; [by apply traced_ret, Hk, grown|].
    apply orb_false_iff in Hl as [Hl1 Hl2]. apply negb_false_iff, bool_decide_eq_true in Hl1.
    apply traced_call; [|intros w; apply traced_ret, Hk; intros y Hy; by apply grown, grown].
    right. left. exists stored, latest. split; [by apply Hk, grown|]. split; [done|]. split; [done|]. split; [done|].
    split; [apply just_answered|]. done.
  - intros tr1 r _ _. destruct r.2; [by apply traced_ret|]. split; [done|]. intros [d|e]; [|done].
    intros d' [= <-]. right. split; [done|apply just_answered].
Qed.

Lemma delete_preliminary stored lo tr :
  answered tr GetLittleRed (inl stored) → Validate (SetDefaults stored) = None → lr_Terminating stored = true →
  traced preliminary (λ _ _, True) tr (reconcileDelete lo (SetDefaults stored)).
Proof.
  intros Hr Hv Ht. unfold reconcileDelete. cbv zeta. apply traced_call.
  { right. right. by exists stored. }
  intros w. assert (Hrem : ∀ l, preliminary (tr ++ [existT (UpdateStatus (set_lr_Status (SetDefaults stored)
    (set_Phase (lr_Status (SetDefaults stored)) PhaseTerminating (ls_Status (lr_Status (SetDefaults stored)))))) w])
    (UpdateLittleRed (with_finalizer l false))).
  { intros l. exists stored. split; [by apply grown|]. split; [done|]. by left. }
  destruct w as [written|e]; [by apply traced_call|]. destruct (error_conflict e); [by apply traced_call|done].
Qed.

(** Every call of a history is preliminary. *)
Definition preliminaries (tr : trace) : Prop :=
  ∀ tr1 c x tr2, tr = tr1 ++ existT c x :: tr2 → preliminary tr1 c.

Lemma preliminaries_run {A} (p : prog A) Q pre tr a :
  preliminaries pre → traced preliminary Q pre p → run p tr a → preliminaries (pre ++ tr) ∧ Q (pre ++ tr) a.
Proof.
  intros Hpre Hp Hr. destruct (traced_run _ _ _ _ _ _ Hp Hr) as [HQ HP]. split; [|done].
  intros tr1 c x tr2 E. destruct (decide (length pre ≤ length tr1)%nat) as [Hle|Hlt].
  - assert (tr1 = pre ++ drop (length pre) tr1) as Hd.
    { rewrite <-(take_drop (length pre) tr1) at 1. f_equal.
      apply (f_equal (take (length pre))) in E. rewrite take_app_length, take_app_le in E by done. done. }
    rewrite Hd in E |- *. rewrite <-app_assoc in E. apply app_inv_head in E. by eapply HP.
  - assert (pre = tr1 ++ existT c x :: take (length pre - length tr1 - 1) tr2) as Hd.
    { apply (f_equal (take (length pre))) in E. rewrite take_app_length, take_app_ge in E by lia.
      replace (length pre - length tr1)%nat with (S (length pre - length tr1 - 1)) in E by lia. exact E. }
    by eapply Hpre.
Qed.

(** A pass: the preliminaries, and then the handler, if any. *)
Definition handled (tr : trace) (r : local_state * outcome (ctrl_result + error)) : Prop :=
  ∃ tr1 tr2, tr = tr1 ++ tr2 ∧ preliminaries tr1 ∧
    (tr2 = [] ∨
     ∃ stored d lo, admitted tr1 stored ∧ handed tr1 stored d ∧
       run (dispatch hmac retries ns desiredHash pdbCreate scraped wired lo d) tr2 r ∧
       ∀ t1 c x t2, tr2 = t1 ++ existT c x :: t2 → handler_call stored d (tr1 ++ t1) c).

Lemma handled_early tr r : preliminaries tr → handled tr r.
Proof. intros Hp. exists tr, []. rewrite app_nil_r. split; [done|]. split; [done|]. by left. Qed.

Lemma Reconcile_handled lo tr r :
  run (Reconcile hmac retries ns desiredHash pdbCreate scraped wired lo) tr r → handled tr r.
Proof.
  intros (x & tr0 & -> & Hrun)%run_call. set (pre := [existT GetLittleRed x]).
  assert (Hpre : preliminaries pre).
  { intros [|y t1] c x' t2 E; [by injection E as <- _ _|]. by destruct t1. }
  change (existT GetLittleRed x :: tr0) with (pre ++ tr0).
  destruct x as [stored|e]; [|destruct Hrun as [-> _]; rewrite app_nil_r; by apply handled_early].
  assert (Hread : answered pre GetLittleRed (inl stored)) by left. cbv zeta in Hrun.
  destruct (Validate (SetDefaults stored)) as [msg|] eqn:Hv.
  { apply handled_early. refine (proj1 (preliminaries_run _ (λ _ _, True) _ _ _ Hpre _ Hrun)).
    eapply traced_bind; [apply (setFailedStatus_preliminary _ _ stored); [done|left; by exists msg]|done]. }
  change (lr_Terminating (SetDefaults stored)) with (lr_Terminating stored) in Hrun.
  destruct (lr_Terminating stored) eqn:Ht.
  { apply handled_early. refine (proj1 (preliminaries_run _ (λ _ _, True) _ _ _ Hpre _ Hrun)).
    eapply traced_bind; [by apply delete_preliminary|done]. }
  change (lr_HasFinalizer (SetDefaults stored)) with (lr_HasFinalizer stored) in Hrun.
  destruct (lr_HasFinalizer stored) eqn:Hf; cbn [negb] in Hrun.
  2: { apply handled_early. refine (proj1 (preliminaries_run _ (λ _ _, True) _ _ _ Hpre _ Hrun)).
       apply traced_call; [|done]. exists stored. split; [done|]. split; [done|]. by right. }
  apply run_bind in Hrun as (trv & tr1 & v & -> & Hval & Hrun).
  assert (Hchecks := validateSpec_checks preliminary stored pre ltac:(done) Hread Ht Hf Hv).
  destruct (preliminaries_run _ _ _ _ _ Hpre Hchecks Hval) as [Hpre1 Ha]. rewrite (assoc_L (++)).
  destruct v as [msg|].
  { apply handled_early. refine (proj1 (preliminaries_run _ (λ _ _, True) _ _ _ Hpre1 _ Hrun)).
    eapply traced_bind; [apply (setFailedStatus_preliminary _ _ stored); [|by right]|done]. by left. }
  apply run_bind in Hrun as (tri & tr2 & i & -> & Hinit & Hrun).
  destruct (preliminaries_run _ _ _ _ _ Hpre1 (traced_grows _ _ _ _ (initialize_preliminary _ _ Ha)) Hinit)
    as [Hpre2 [Hs Hh]].
  rewrite (assoc_L (++)). destruct i as [d|e]; [|destruct Hrun as [-> _]; rewrite app_nil_r; by apply handled_early].
  assert (Ha2 : admitted ((pre ++ trv) ++ tri) stored) by (by eapply admitted_mono).
  eexists _, tr2. split; [done|]. split; [done|]. right. eexists stored, d, _. split; [done|]. split; [by apply Hh|].
  split; [exact Hrun|]. intros t1 c y t2 E.
  exact (proj2 (traced_run _ _ _ _ _ _ (dispatch_traced stored d _ _ Ha2) Hrun) _ _ _ _ E).
Qed.

End Pass.

(** ** Theorem *)

(** C11. Nothing the operator does to an instance escapes the checks of the same pass and the
    account of its mode.  Whatever is answered, a pass is a preliminary part, followed or not
    by the handler of the mode.

    In the preliminary part no object other than the resource itself is written, no server is
    commanded, and the resource is written in four cases only: a failure verdict on one whose
    specification does not validate or refers to a secret that is missing or incomplete,
    which leaves the bootstrap flag as it was read; the bootstrap flag of an admitted one in
    Sentinel or failover mode that has no phase yet, neither in the object read first nor in
    the one the flag is written to; the phase of one that is being deleted; and the finalizer
    step of a valid one, which adds the finalizer to a live one that lacks it or removes it
    from one that is being deleted.

    The handler runs only after the pass has read the resource as live and with its
    finalizer, has validated it, and has read the password and certificates it refers to.
    What it does then, its own status writes apart, is what its mode accounts for:
    standalone applies its three objects, Sentinel mode acts as [mode_call] says, cluster
    mode as [reconcile_call], failover mode assigns and promotes only as [permitted] says or
    at the bootstrap. *)
Theorem controller_accounted `{GoRuntime} hmac retries ns desiredHash pdbCreate scraped wired lo tr r :
  run (Reconcile hmac retries ns desiredHash pdbCreate scraped wired lo) tr r →
  handled hmac retries ns desiredHash pdbCreate scraped wired tr r.
Proof. apply Reconcile_handled. Qed.

(** *** Witness: a standalone instance *)

Definition standalone_lr : LittleRed :=
  mkLittleRed "lr" "uid" "1" true false "" 1 ∅ false "" no_tls None None None None None None sample_status.

Definition standalone_server : Memory :=
  mkMemory ∅ standalone_lr (sample_sts 1 1) sample_wire 0 ∅ [].

Definition idle : local_state := mkLocal false false false.

Definition sample_reconcile : prog (local_state * outcome (ctrl_result + error)) :=
  @Reconcile ref_runtime sample_hmac 4 "ns" (λ _ _, "h") (λ _, None) (λ _, false) true idle.

Lemma controller_accounted_witness :
  ∃ tr1 tr2 stored, mem_trace standalone_server sample_reconcile = tr1 ++ tr2 ∧ tr2 ≠ [] ∧
    admitted tr1 stored ∧ preliminaries tr1.
Proof.
  destruct (@controller_accounted ref_runtime sample_hmac 4 "ns" (λ _ _, "h") (λ _, None) (λ _, false) true idle _ _
    (mem_run_trace standalone_server sample_reconcile)) as (tr1 & tr2 & He & Hp & [Hn|(stored & d & lo & Ha & _)]).
  - exfalso. rewrite Hn, app_nil_r in He. rewrite <-He in Hp.
    destruct (call_at (mem_trace standalone_server sample_reconcile) 2 (Apply StandaloneStatefulSet)) as (t1 & x & t2 & Hc).
    { vm_compute. reflexivity. }
    discriminate (Hp _ _ _ _ Hc).
  - exists tr1, tr2, stored. split; [exact He|]. split; [|split; [exact Ha|exact Hp]].
    intros Hn. rewrite Hn, app_nil_r in He. rewrite <-He in Hp.
    destruct (call_at (mem_trace standalone_server sample_reconcile) 2 (Apply StandaloneStatefulSet)) as (t1 & x & t2 & Hc).
    { vm_compute. reflexivity. }
    discriminate (Hp _ _ _ _ Hc).
Defined.

(** ** Rejected resources *)

(** The first answer of a history, if it is a read of the resource. *)
Definition first_read (tr : trace) : option (LittleRed + error) :=
  match tr with
  | [] => None
  | existT c x :: _ =>
      match c return answer c → option (LittleRed + error) with GetLittleRed => Some | _ => λ _, None end x
  end.

(** A rejected resource is left alone, even by its own deletion.  If the resource read at
    the start of a pass does not pass [Validate], the pass changes nothing but the status: in
    particular the finalizer of a resource that is being deleted is never removed, so that
    its deletion waits until the specification has been corrected. *)
Theorem rejected_untouched `{GoRuntime} hmac retries ns desiredHash pdbCreate scraped wired lo stored tr r :
  is_Some (Validate (SetDefaults stored)) →
  run (Reconcile hmac retries ns desiredHash pdbCreate scraped wired lo) (existT GetLittleRed (inl stored) :: tr) r →
  (∀ c, c ∈ calls tr → effect c = false) ∧ r.1 = lo.
Proof.
  intros [msg Hv] (x & tr' & Heq & Hrun)%run_call.
  assert (x = inl stored) as -> by (by apply (f_equal first_read) in Heq; injection Heq).
  assert (tr' = tr) as -> by (by apply (f_equal tail) in Heq).
  cbv zeta in Hrun. rewrite Hv in Hrun.
  eapply (safe_run no_effect (λ a, a.1 = lo)) in Hrun as [Hc Hr].
  - split; [|exact Hr]. intros c Hin. by apply (proj1 (Forall_forall _ _) Hc).
  - eapply safe_bind; [apply setFailedStatus_harmless|]. done.
Qed.

(** A cluster of two shards that is being deleted. *)
Definition rejected_lr : LittleRed :=
  mkLittleRed "lr" "uid" "1" true true ModeCluster 1 ∅ false "" no_tls None None
    (Some (mkClusterSpec 2 None 0 0 0 0 0)) None None None sample_status.

Definition rejected_server : Memory := mkMemory ∅ rejected_lr (sample_sts 1 1) sample_wire 0 ∅ [].

Lemma rejected_untouched_witness :
  is_Some (Validate (SetDefaults rejected_lr)) ∧
  Forall (λ c, effect c = false) (calls (tail (mem_trace rejected_server sample_reconcile))).
Proof.
  assert (Hv : is_Some (Validate (SetDefaults rejected_lr))) by (vm_compute; eexists; reflexivity).
  split; [exact Hv|]. apply Forall_forall.
  assert (He : mem_trace rejected_server sample_reconcile =
    existT GetLittleRed (inl rejected_lr) :: tail (mem_trace rejected_server sample_reconcile)) by reflexivity.
  pose proof (mem_run_trace rejected_server sample_reconcile) as Hrun. rewrite He in Hrun.
  refine (proj1 (@rejected_untouched ref_runtime sample_hmac 4 "ns" (λ _ _, "h") (λ _, None) (λ _, false) true idle
    rejected_lr _ _ Hv Hrun)).
Defined.

(** ** Validity in the status *)

(** A Sentinel instance whose specification was invalid and has been corrected. *)
Definition corrected_lr : LittleRed :=
  mkLittleRed "lr" "uid" "1" true false ModeSentinel 2 ∅ false "" no_tls None
    (Some (mkSentinelSpec "mymaster" 2 30000 180000 1 false)) None None None None
    (set_condition (set_Phase sample_status PhaseFailed "Ready") ConditionConfigValid ConditionFalse
       "ValidationFailed" "auth.enabled is true but auth.existingSecret is not set").

Definition corrected_server : Memory :=
  mkMemory (mem_pods settled_server) corrected_lr (sample_sts 2 2) settled_wire 0 ∅ (mem_sentinels settled_server).

Definition reported_validity (s : Memory) : option ConditionStatus :=
  cond_Status <$> FindStatusCondition (ls_Conditions (lr_Status (mem_lr s))) ConditionConfigValid.

(** The verdict that the configuration is invalid outlives its correction in Sentinel
    mode.  [Reconcile] marks the corrected configuration as valid on its local object only;
    the handler of the mode writes the status by re-reading the stored one.  After a complete
    pass the instance is reported as Running and for the current generation, and its
    ConfigValid condition is still false. *)
Theorem invalid_verdict_sticks :
  let s' := (mem_run corrected_server sample_reconcile).2 in
  ls_Phase (lr_Status (mem_lr s')) = PhaseRunning ∧
  ls_ObservedGeneration (lr_Status (mem_lr s')) = lr_Generation corrected_lr ∧
  reported_validity s' = Some ConditionFalse.
Proof. vm_compute. by split_and!. Qed.

(** ** The background monitors *)

Definition exclusive (lo : local_state) : Prop :=
  ¬ (lo_sentinelMonitor lo = true ∧ lo_failoverMonitor lo = true).

(** The resources a pass has read. *)
Definition reads (tr : trace) : list LittleRed :=
  omap (λ e, match first_read [e] with Some (inl l) => Some l | _ => None end) tr.

(** The reads of a pass agree on the mode. *)
Definition one_mode (tr : trace) : Prop := ∀ l l', l ∈ reads tr → l' ∈ reads tr → lr_Mode l = lr_Mode l'.

Lemma answered_reads tr l : answered tr GetLittleRed (inl l) → l ∈ reads tr.
Proof. intros Ha. apply list_elem_of_omap. by exists (existT GetLittleRed (inl l)). Qed.

Lemma reads_mono tr tr' : tr ⊆ tr' → reads tr ⊆ reads tr'.
Proof.
  intros Hs l Hl. apply list_elem_of_omap in Hl as (e & He & Hl). apply list_elem_of_omap. exists e. split; [by apply Hs|done].
Qed.

Section Monitors.
Context `{GoRuntime} (hmac : string → string → string) (retries : nat) (ns : string).
Context (desiredHash : LittleRed → Z → string) (pdbCreate : LittleRed → option bool) (scraped : LittleRed → bool).
Context (wired : bool).

Definition anything (c : call) : Prop := True.

(** Whatever [p] does, only the rest decides the result. *)
Lemma then_decides {A B} (Q : B → Prop) (p : prog A) (f : A → prog B) :
  (∀ a, safe anything Q (f a)) → safe anything Q (p ≫= f).
Proof. intros Hf. eapply safe_bind; [apply safe_any|]. intros a _. apply Hf. Qed.

Lemma sentinel_keeps_watcher pdb scr lo lr :
  safe anything (λ r, lo_failoverMonitor r.1 = lo_failoverMonitor lo)
    (reconcileSentinel hmac retries ns pdb scr wired lo lr).
Proof.
  unfold reconcileSentinel. cbv zeta. apply then_decides. intros [e|]; [done|].
  apply then_decides. intros [lr1 [e|]]; [done|]. apply then_decides. intros _. apply then_decides.
  intros [[lr2 st] e]. apply then_decides. intros [e'|]; [done|]. apply then_decides. intros _. apply then_decides.
  intros s. apply safe_ret. unfold ensureSentinelMonitor. by destruct (monitoring_disabled _), wired.
Qed.

Lemma failover_keeps_subscriber lo lr :
  safe anything (λ r, lo_sentinelMonitor r.1 = lo_sentinelMonitor lo)
    (reconcileFailover retries pdbCreate scraped wired lo lr).
Proof.
  unfold reconcileFailover. cbv zeta. apply then_decides. intros _. apply then_decides. intros [e|]; [done|].
  apply then_decides. intros [lr1 [e|]]; [done|]. apply then_decides. intros [[lr2 eng] e]. apply then_decides. intros _.
  apply then_decides. intros [e'|]; [done|]. apply then_decides. intros _. apply then_decides.
  intros s. apply safe_ret. unfold ensureFailoverMonitor. by destruct (monitoring_disabled _), wired.
Qed.

Lemma dispatch_exclusive lo lr :
  exclusive (stop_other_monitors lr lo) →
  safe anything (λ r, exclusive r.1)
    (dispatch hmac retries ns desiredHash pdbCreate scraped wired (stop_other_monitors lr lo) lr).
Proof.
  intros He. unfold dispatch. destruct (lr_Mode lr =? ModeStandalone) eqn:H1; [apply then_decides; intros ?; exact He|].
  destruct (lr_Mode lr =? ModeSentinel) eqn:H2.
  { eapply safe_bind; [apply sentinel_keeps_watcher|]. intros r Hr. apply safe_ret. intros [_ Hf]. cbn in Hr, Hf.
    rewrite Hr in Hf. unfold stop_other_monitors in Hf. apply String.eqb_eq in H2. by rewrite H2 in Hf. }
  destruct (lr_Mode lr =? ModeCluster); [apply then_decides; intros ?; exact He|].
  destruct (lr_Mode lr =? ModeFailover) eqn:H3; [|apply then_decides; intros ?; exact He].
  eapply safe_bind; [apply failover_keeps_subscriber|]. intros r Hr. apply safe_ret. intros [Hs _]. cbn in Hr, Hs.
  rewrite Hr in Hs. unfold stop_other_monitors in Hs. apply String.eqb_eq in H3. by rewrite H3 in Hs.
Qed.

Lemma stop_exclusive lr lo : exclusive lo → exclusive (stop_other_monitors lr lo).
Proof.
  unfold exclusive, stop_other_monitors. destruct (lr_Mode lr =? ModeSentinel), (lr_Mode lr =? ModeFailover); cbn; naive_solver.
Qed.

(** The stop and the handler look at the same mode. *)
Lemma stop_same_mode lr lr' lo : lr_Mode lr = lr_Mode lr' → stop_other_monitors lr lo = stop_other_monitors lr' lo.
Proof. unfold stop_other_monitors. by intros ->. Qed.

Lemma Reconcile_exclusive lo :
  exclusive lo →
  traced (λ _ c, anything c) (λ tr r, one_mode tr → exclusive r.1) []
    (Reconcile hmac retries ns desiredHash pdbCreate scraped wired lo).
Proof.
  intros He. assert (Hany : ∀ {A} tr (Q : A → Prop) p, safe anything Q p → traced (λ _ c, anything c) (λ _ a, Q a) tr p).
  { intros A tr Q p Hp. apply traced_safe. eapply safe_mono; [|done|exact Hp]. done. }
  apply traced_call; [done|]. intros [stored|e]; [|by apply traced_ret]. set (tr := _ ++ _).
  assert (Hread : answered tr GetLittleRed (inl stored)) by apply just_answered. cbv zeta.
  destruct (Validate _).
  { eapply traced_mono; [done| |apply (Hany _ _ (λ a, exclusive a.1)), then_decides; intros ?; exact He]. done. }
  destruct (lr_Terminating _).
  { eapply traced_mono; [done| |apply (Hany _ _ (λ a, exclusive a.1))]; [done|]. eapply (safe_bind _ (λ r, exclusive r.1)); [|intros r Hr; exact Hr].
    apply then_decides. intros w. destruct (match w with inl _ => _ | inr _ => _ end); [|exact He].
    apply then_decides. intros [u|e]; [by intros [? ?]|exact He]. }
  destruct (negb _).
  { eapply traced_mono; [done| |apply (Hany _ _ (λ a, exclusive a.1)), then_decides; intros ?; exact He]. done. }
  eapply (traced_bind _ (λ _ _, True)); [apply (Hany _ _ (λ _, True)), safe_any|]. intros tr1 [msg|] Hs1 _.
  { eapply traced_mono; [done| |apply (Hany _ _ (λ a, exclusive a.1)), then_decides; intros ?; exact He]. done. }
  set (lr := mark_valid (SetDefaults stored)).
  eapply (traced_bind _ (λ t i, ∀ d, i = inl d → one_mode t → lr_Mode d = lr_Mode lr)).
  { unfold initialize_bootstrap. destruct (starts_bootstrap lr) eqn:Hb; [|apply traced_ret; by intros d [= <-]].
    eapply (traced_bind _ (λ _ _, True)); [apply (Hany _ _ (λ _, True)), safe_any|]. intros tr2 r Hs2 _.
    destruct r.2; [by apply traced_ret|]. split; [done|]. intros [d|e]; [|done]. intros d' [= <-] Hone.
    rewrite (Hone d stored); [|apply answered_reads, just_answered|by apply answered_reads, grown, Hs2, Hs1].
    unfold starts_bootstrap in Hb. unfold lr, mark_valid, SetDefaults in *. cbn in *.
    by destruct (lr_Mode stored =? "") eqn:Hm. }
  intros tr2 [d|e] Hs2 Hd; [|apply traced_ret; intros _; by apply stop_exclusive].
  specialize (Hd _ eq_refl).
  apply (traced_mono (λ _ c, anything c) _ (λ t r, tr2 ⊆ t ∧ (lr_Mode d = lr_Mode lr → exclusive r.1))); [done| |].
  - intros t r [Hs Hr] Hone. apply Hr, Hd. intros l l' Hl Hl'. apply Hone; by eapply reads_mono.
  - apply traced_grows, (Hany _ _ (λ r, lr_Mode d = lr_Mode lr → exclusive r.1)).
    destruct (String.eqb_spec (lr_Mode d) (lr_Mode lr)) as [Hm|Hm].
    + eapply safe_mono; [done| |]; [|rewrite <-(stop_same_mode d lr) by done; apply dispatch_exclusive, stop_exclusive, He]. done.
    + eapply safe_mono; [done| |apply safe_any]. done.
Qed.

End Monitors.

(** The two background monitors of an instance never run together.  As long as the reads
    of a pass agree on the mode, a pass that starts with at most one of the Sentinel
    subscriber and the failover watcher running ends with at most one, whatever is answered
    and wherever it stops. *)
Theorem monitors_exclusive `{GoRuntime} hmac retries ns desiredHash pdbCreate scraped wired lo tr r :
  exclusive lo → one_mode tr →
  run (Reconcile hmac retries ns desiredHash pdbCreate scraped wired lo) tr r → exclusive r.1.
Proof.
  intros He Hone Hrun.
  by apply (proj1 (traced_run _ _ _ [] tr r (Reconcile_exclusive hmac retries ns desiredHash pdbCreate scraped wired lo He) Hrun)).
Qed.

Lemma monitors_exclusive_witness : exclusive (mem_run corrected_server sample_reconcile).1.1.
Proof.
  refine (@monitors_exclusive ref_runtime sample_hmac 4 "ns" (λ _ _, "h") (λ _, None) (λ _, false) true idle
    (mem_trace corrected_server sample_reconcile) _ _ _ (mem_run_trace corrected_server sample_reconcile)).
  - intros [Hs _]. discriminate.
  - assert (Hall : Forall (λ l, lr_Mode l = ModeSentinel) (reads (mem_trace corrected_server sample_reconcile))).
    { vm_compute. repeat constructor. }
    intros l l' Hl Hl'. rewrite Forall_forall in Hall. rewrite (Hall l Hl), (Hall l' Hl'). reflexivity.
Defined.
