(* ===== verification/Spec.v ===== *)
(** * The rest of the specification (src/api/v1alpha1/littlered_types.go, littlered_defaults.go)

    The fields of a resource that only the rendered objects depend on, with their defaults.
    Together with [LittleRed] of [Kube] they are an [Instance].  Quantities are integers in
    thousandths of their unit; the parser of quantities is Kubernetes' and an argument.
    [affinity] is copied into the pods unchanged and left out. *)

From Stdlib Require Import Ascii SpecFloat.
From S2P Require Import Prelude GoStrings Gather Kube AuthReport FailoverEngine ClusterRepair Controller.

Open Scope Z_scope.
Open Scope go_scope.

(** ** Definitions *)

(** *** Types *)

Record ImageSpec := mkImage {
  im_Registry : string;
  im_Path : string;
  im_Tag : string;
  im_PullPolicy : string;
  im_PullSecrets : list string;
}.

Record ResourceRequirements := mkResources {
  rq_Requests : gmap string Z;
  rq_Limits : gmap string Z;
}.

Record ConfigSpec := mkConfig {
  cf_Maxmemory : string;
  cf_MaxmemoryPolicy : string;
  cf_Timeout : Z;
  cf_TCPKeepalive : option Z;
  cf_Raw : string;
}.

Record ExporterSpec := mkExporter {
  ex_Registry : string;
  ex_Path : string;
  ex_Tag : string;
  ex_Resources : ResourceRequirements;
}.

Record ServiceMonitorSpec := mkServiceMonitor {
  sm_Enabled : bool;
  sm_Namespace : string;
  sm_Labels : gmap string string;
  sm_Interval : string;
  sm_ScrapeTimeout : string;
}.

Record MetricsSpec := mkMetrics {
  mt_Enabled : option bool;
  mt_Exporter : ExporterSpec;
  mt_ServiceMonitor : ServiceMonitorSpec;
}.

Record ServiceSpec := mkService {
  sv_Type : string;
  sv_Annotations : gmap string string;
  sv_Labels : gmap string string;
}.

Record PodSecurityContext := mkSecurity {
  sc_RunAsNonRoot : option bool;
  sc_RunAsUser : option Z;
  sc_RunAsGroup : option Z;
  sc_FSGroup : option Z;
}.

Record Toleration := mkToleration {
  to_Key : string;
  to_Operator : string;
  to_Value : string;
  to_Effect : string;
  to_TolerationSeconds : option Z;
}.

Record TopologySpreadConstraint := mkSpread {
  ts_MaxSkew : Z;
  ts_TopologyKey : string;
  ts_WhenUnsatisfiable : string;
  ts_MatchLabels : gmap string string;
}.

Record PodTemplateSpec := mkPodTemplate {
  pt_Annotations : gmap string string;
  pt_Labels : gmap string string;
  pt_NodeSelector : gmap string string;
  pt_Tolerations : list Toleration;
  pt_PriorityClassName : string;
  pt_SecurityContext : option PodSecurityContext;
  pt_TopologySpreadConstraints : list TopologySpreadConstraint;
}.

Inductive IntOrString := FromInt (n : Z) | FromString (s : string).

Record PodDisruptionBudgetSpec := mkPDBSpec {
  pb_Create : option bool;
  pb_MaxUnavailable : option IntOrString;
  pb_MinAvailable : option IntOrString;
}.

Record UpdateStrategySpec := mkUpdateStrategy {
  us_Type : string;
  us_MinReadySeconds : option Z;
}.

(** [rx_TopologyKey] is that of [spec.placement.shardAntiAffinity], if the block is there. *)
Record RenderSpec := mkRender {
  rx_Namespace : string;
  rx_Labels : gmap string string;
  rx_AppName : string;
  rx_Image : ImageSpec;
  rx_Resources : ResourceRequirements;
  rx_Config : ConfigSpec;
  rx_Metrics : MetricsSpec;
  rx_UpdateStrategy : UpdateStrategySpec;
  rx_Service : ServiceSpec;
  rx_PodTemplate : PodTemplateSpec;
  rx_SentinelResources : ResourceRequirements;
  rx_PDB : PodDisruptionBudgetSpec;
  rx_TopologyKey : string;
}.

Record Instance := mkInstance {
  in_lr :> LittleRed;
  in_spec :> RenderSpec;
}.

(** *** Constants *)

Definition DefaultRegistry : string := "docker.io".
Definition DefaultImagePath : string := "library/redis".
Definition DefaultImageTag : string := "8.4.2".
Definition DefaultPullPolicy : string := "IfNotPresent".
Definition DefaultMaxmemoryPolicy : string := "noeviction".
Definition DefaultTCPKeepalive : Z := 300.
Definition DefaultServiceType : string := "ClusterIP".
Definition DefaultUpdateStrategy : string := "RollingUpdate".
Definition DefaultScrapeInterval : string := "30s".
Definition DefaultScrapeTimeout : string := "10s".
Definition DefaultSecurityUserID : Z := 999.
Definition DefaultSecurityGroupID : Z := 999.
Definition RedisExporterPort : Z := 9121.
Definition ClusterBusPort : Z := RedisPort + 10000.
Definition DefaultAppName : string := "littlered".
Definition DefaultShardTopologyKey : string := "kubernetes.io/hostname".

Definition ResourceCPU : string := "cpu".
Definition ResourceMemory : string := "memory".
Definition milli (n : Z) : Z := n.
Definition mebi (n : Z) : Z := n * 2 ^ 20 * 1000.
Definition DefaultCPURequest : Z := milli 128.
Definition DefaultMemory : Z := mebi 512.
Definition DefaultExporterCPURequest : Z := milli 50.
Definition DefaultExporterCPULimit : Z := milli 100.
Definition DefaultExporterMemoryRequest : Z := mebi 32.
Definition DefaultExporterMemoryLimit : Z := mebi 64.
Definition DefaultSentinelCPU : Z := milli 100.
Definition DefaultSentinelMemory : Z := mebi 64.

(** *** The image of the exporter *)

Definition redisExporterDockerfile : string :=
  str_join (String "010"%char EmptyString)
    ["# Single source of truth for the default redis_exporter sidecar image.";
     "#";
     "# This file is NOT built into an image. It exists so that Dependabot's docker";
     "# ecosystem can track and bump the redis_exporter version in one place. The";
     "# reference below is embedded (//go:embed) and parsed at init time to populate";
     "# DefaultExporterPath / DefaultExporterTag in littlered_defaults.go.";
     "#";
     "# Do not add build stages or other FROM lines — the parser reads the first FROM.";
     "FROM docker.io/oliver006/redis_exporter:v1.89.0";
     ""].

(** [strings.LastIndex] of one byte: the text before and after it. *)
Fixpoint cut_last (c : ascii) (s : string) : option (string * string) :=
  match s with
  | EmptyString => None
  | String d s' =>
      match cut_last c s' with
      | Some (a, b) => Some (String d a, b)
      | None => if Ascii.eqb d c then Some (EmptyString, s') else None
      end
  end.

(** [strings.Index] of one byte, likewise. *)
Fixpoint cut_at (c : ascii) (s : string) : option (string * string) :=
  match s with
  | EmptyString => None
  | String d s' =>
      if Ascii.eqb d c then Some (EmptyString, s')
      else (λ p, (String d p.1, p.2)) <$> cut_at c s'
  end.

Fixpoint from_line (lines : list string) : string :=
  match lines with
  | [] => ""
  | line :: rest =>
      let line := trim_space line in
      if has_prefix line "FROM " then trim_space (String.substring 5 (String.length line) line) else from_line rest
  end.

Definition contains_byte (c : ascii) (s : string) : bool := bool_decide (is_Some (cut_at c s)).

(** The last colon after the last slash separates the tag. *)
Definition split_tag (ref : string) : string * string :=
  match cut_last ":"%char ref with
  | Some (before, after) => if contains_byte "/"%char after then (ref, "") else (before, after)
  | None => (ref, "")
  end.

Definition strip_registry (ref : string) : string :=
  match cut_at "/"%char ref with
  | Some (first, rest) =>
      if contains_byte "."%char first || contains_byte ":"%char first || (first =? "localhost") then rest else ref
  | None => ref
  end.

Definition parseExporterImage (dockerfile : string) : outcome (string * string) :=
  let '(ref, tag) := split_tag (from_line (split_on "010"%char dockerfile)) in
  let path := strip_registry ref in
  if (path =? "") || (tag =? "") then Panic else Ok (path, tag).

Definition default_exporter : string * string :=
  match parseExporterImage redisExporterDockerfile with Ok p => p | _ => ("", "") end.
Definition DefaultExporterPath : string := default_exporter.1.
Definition DefaultExporterTag : string := default_exporter.2.

(** *** Defaults *)

Definition or_text (v d : string) : string := if v =? "" then d else v.

Definition ImageSpec_SetDefaults (i : ImageSpec) : ImageSpec :=
  mkImage (or_text (im_Registry i) DefaultRegistry) (or_text (im_Path i) DefaultImagePath)
    (or_text (im_Tag i) DefaultImageTag) (or_text (im_PullPolicy i) DefaultPullPolicy) (im_PullSecrets i).

Definition ConfigSpec_SetDefaults (c : ConfigSpec) : ConfigSpec :=
  mkConfig (cf_Maxmemory c) (or_text (cf_MaxmemoryPolicy c) DefaultMaxmemoryPolicy) (cf_Timeout c)
    (Some (default DefaultTCPKeepalive (cf_TCPKeepalive c))) (cf_Raw c).

(** [if _, ok := m[k]; !ok { m[k] = v }]. *)
Definition set_absent (k : string) (v : Z) (m : gmap string Z) : gmap string Z :=
  match m !! k with Some _ => m | None => <[k := v]> m end.

Definition setDefaultResources (r : ResourceRequirements) : ResourceRequirements :=
  mkResources (set_absent ResourceMemory DefaultMemory (set_absent ResourceCPU DefaultCPURequest (rq_Requests r)))
    (set_absent ResourceMemory DefaultMemory (rq_Limits r)).

(** The side containers have a CPU limit by default only if the main container has one. *)
Definition side_limits (cpu memory : Z) (mainHasCPULimit : bool) (limits : gmap string Z) : gmap string Z :=
  set_absent ResourceMemory memory (if mainHasCPULimit then set_absent ResourceCPU cpu limits else limits).

Definition setDefaultExporterResources (r : ResourceRequirements) (mainHasCPULimit : bool) : ResourceRequirements :=
  mkResources
    (set_absent ResourceMemory DefaultExporterMemoryRequest
       (set_absent ResourceCPU DefaultExporterCPURequest (rq_Requests r)))
    (side_limits DefaultExporterCPULimit DefaultExporterMemoryLimit mainHasCPULimit (rq_Limits r)).

Definition setDefaultSentinelResources (r : ResourceRequirements) (mainHasCPULimit : bool) : ResourceRequirements :=
  mkResources
    (set_absent ResourceMemory DefaultSentinelMemory (set_absent ResourceCPU DefaultSentinelCPU (rq_Requests r)))
    (side_limits DefaultSentinelCPU DefaultSentinelMemory mainHasCPULimit (rq_Limits r)).

Definition ExporterSpec_SetDefaults (e : ExporterSpec) (mainRegistry : string) (mainHasCPULimit : bool)
  : ExporterSpec :=
  mkExporter (or_text (ex_Registry e) (or_text mainRegistry DefaultRegistry)) (or_text (ex_Path e) DefaultExporterPath)
    (or_text (ex_Tag e) DefaultExporterTag) (setDefaultExporterResources (ex_Resources e) mainHasCPULimit).

Definition MetricsSpec_SetDefaults (m : MetricsSpec) (mainRegistry : string) (mainHasCPULimit : bool) : MetricsSpec :=
  let s := mt_ServiceMonitor m in
  mkMetrics (mt_Enabled m) (ExporterSpec_SetDefaults (mt_Exporter m) mainRegistry mainHasCPULimit)
    (mkServiceMonitor (sm_Enabled s) (sm_Namespace s) (sm_Labels s) (or_text (sm_Interval s) DefaultScrapeInterval)
       (or_text (sm_ScrapeTimeout s) DefaultScrapeTimeout)).

Definition defaultPodSecurityContext : PodSecurityContext :=
  mkSecurity (Some true) (Some DefaultSecurityUserID) (Some DefaultSecurityGroupID) (Some DefaultSecurityGroupID).

Definition has_cpu_limit (r : ResourceRequirements) : bool := bool_decide (is_Some (rq_Limits r !! ResourceCPU)).

Definition PodTemplate_SetDefaults (p : PodTemplateSpec) : PodTemplateSpec :=
  mkPodTemplate (pt_Annotations p) (pt_Labels p) (pt_NodeSelector p) (pt_Tolerations p) (pt_PriorityClassName p)
    (Some (default defaultPodSecurityContext (pt_SecurityContext p))) (pt_TopologySpreadConstraints p).

(** The resources of the Sentinels are defaulted with their block; without it there are none. *)
Definition RenderSpec_SetDefaults (lr : LittleRed) (s : RenderSpec) : RenderSpec :=
  let image := ImageSpec_SetDefaults (rx_Image s) in
  let resources := setDefaultResources (rx_Resources s) in
  let limited := has_cpu_limit resources in
  mkRender (rx_Namespace s) (rx_Labels s) (or_text (rx_AppName s) DefaultAppName) image resources
    (ConfigSpec_SetDefaults (rx_Config s)) (MetricsSpec_SetDefaults (rx_Metrics s) (im_Registry image) limited)
    (mkUpdateStrategy (or_text (us_Type (rx_UpdateStrategy s)) DefaultUpdateStrategy)
       (us_MinReadySeconds (rx_UpdateStrategy s)))
    (mkService (or_text (sv_Type (rx_Service s)) DefaultServiceType) (sv_Annotations (rx_Service s))
       (sv_Labels (rx_Service s)))
    (PodTemplate_SetDefaults (rx_PodTemplate s))
    (match lr_Sentinel lr with
     | Some _ => setDefaultSentinelResources (rx_SentinelResources s) limited
     | None => rx_SentinelResources s
     end)
    (rx_PDB s)
    (match lr_WhenUnsatisfiable lr with
     | Some _ => or_text (rx_TopologyKey s) DefaultShardTopologyKey
     | None => rx_TopologyKey s
     end).

Definition Instance_SetDefaults (i : Instance) : Instance :=
  let lr := SetDefaults i in mkInstance lr (RenderSpec_SetDefaults lr i).

(** *** Derived values *)

Definition FullImage (i : ImageSpec) : string :=
  or_text (im_Registry i) DefaultRegistry +:+ "/" +:+ or_text (im_Path i) DefaultImagePath +:+ ":" +:+
  or_text (im_Tag i) DefaultImageTag.

Definition ExporterSpec_FullImage (e : ExporterSpec) (mainRegistry : string) : string :=
  or_text (ex_Registry e) (or_text mainRegistry DefaultRegistry) +:+ "/" +:+
  or_text (ex_Path e) DefaultExporterPath +:+ ":" +:+ or_text (ex_Tag e) DefaultExporterTag.

Definition IsEnabled (m : MetricsSpec) : bool := default true (mt_Enabled m).

Definition TCPKeepaliveOrDefault (c : ConfigSpec) : Z := default DefaultTCPKeepalive (cf_TCPKeepalive c).

Definition GetEffectiveMaxmemoryPolicy (i : Instance) : string :=
  or_text (cf_MaxmemoryPolicy (rx_Config i)) DefaultMaxmemoryPolicy.

(** [Quantity.Value]: rounded up to a whole number. *)
Definition quantity_value (q : Z) : Z := - ((- q) / 1000).

(** Arithmetic of binary64: the conversion of an integer, the constant 0.9, the product and
    the conversion back, which cuts the fraction off. *)
Definition float64_of (z : Z) : spec_float := binary_normalize 53 1024 z 0 false.
Definition nine_tenths : spec_float := S754_finite false 8106479329266893 (-53).
Definition int64_of (f : spec_float) : Z :=
  match f with
  | S754_finite s m e =>
      let a := if (0 <=? e)%Z then Z.pos m * 2 ^ e else Z.pos m / 2 ^ (- e) in if s then - a else a
  | _ => 0
  end.

Definition ninety_percent (bytes : Z) : Z := int64_of (SFmul 53 1024 (float64_of bytes) nine_tenths).

Definition CalculateMaxmemory (ParseQuantity : string → option Z) (i : Instance) : string :=
  let configured := cf_Maxmemory (rx_Config i) in
  if negb (configured =? "") then
    match ParseQuantity configured with
    | Some q => itoa (quantity_value q)
    | None => configured
    end
  else
    let limit := default 0 (rq_Limits (rx_Resources i) !! ResourceMemory) in
    itoa (ninety_percent (quantity_value (if (limit =? 0)%Z then DefaultMemory else limit))).

(** ** Lemmas *)

Lemma or_text_or_text v d e : or_text (or_text v d) e = or_text v (or_text d e).
Proof. unfold or_text. by destruct (String.eqb_spec v ""); [|rewrite (proj2 (String.eqb_neq v ""))]. Qed.

Lemma or_text_twice v d : or_text (or_text v d) d = or_text v d.
Proof. rewrite or_text_or_text. f_equal. unfold or_text. by destruct (d =? ""). Qed.

Lemma set_absent_lookup k v m : is_Some (set_absent k v m !! k).
Proof. unfold set_absent. destruct (m !! k) eqn:E; [by rewrite E|]. by rewrite lookup_insert_eq. Qed.

Lemma set_absent_here k v m : is_Some (m !! k) → set_absent k v m = m.
Proof. intros [x Hx]. unfold set_absent. by rewrite Hx. Qed.

Lemma set_absent_other k j v m : j ≠ k → set_absent k v m !! j = m !! j.
Proof. intros ?. unfold set_absent. destruct (m !! k); [done|]. by rewrite lookup_insert_ne. Qed.

(** Both entries are there already. *)
Lemma set_absent2_twice k j v w m : j ≠ k →
  set_absent k v (set_absent j w (set_absent k v (set_absent j w m))) = set_absent k v (set_absent j w m).
Proof.
  intros Hne. rewrite (set_absent_here j).
  - apply set_absent_here, set_absent_lookup.
  - rewrite set_absent_other by done. apply set_absent_lookup.
Qed.

Lemma side_limits_twice cpu memory b m :
  side_limits cpu memory b (side_limits cpu memory b m) = side_limits cpu memory b m.
Proof.
  unfold side_limits. destruct b; [by apply set_absent2_twice|].
  apply set_absent_here, set_absent_lookup.
Qed.

Lemma or_default_twice v d : or_default (or_default v d) d = or_default v d.
Proof. unfold or_default. by destruct (Z.eqb_spec v 0) as [->|Hv]; [destruct (Z.eqb_spec d 0)|rewrite (proj2 (Z.eqb_neq _ _) Hv)]. Qed.

Lemma default_block_twice {A} wanted (zero : A) f block : (∀ a, f (f a) = f a) →
  default_block wanted zero f (default_block wanted zero f block) = default_block wanted zero f block.
Proof. intros Hf. unfold default_block. by destruct block, wanted; simpl; rewrite ?Hf. Qed.

Lemma SentinelSpec_SetDefaults_twice s : SentinelSpec_SetDefaults (SentinelSpec_SetDefaults s) = SentinelSpec_SetDefaults s.
Proof. unfold SentinelSpec_SetDefaults; simpl. by rewrite !or_default_twice. Qed.

Lemma FailoverSpec_SetDefaults_twice s : FailoverSpec_SetDefaults (FailoverSpec_SetDefaults s) = FailoverSpec_SetDefaults s.
Proof.
  unfold FailoverSpec_SetDefaults; cbn -[Z.eqb]. f_equal. exact (or_default_twice (fsp_DownAfterMilliseconds s) _).
Qed.

Lemma ClusterSpec_SetDefaults_twice s : ClusterSpec_SetDefaults (ClusterSpec_SetDefaults s) = ClusterSpec_SetDefaults s.
Proof.
  unfold ClusterSpec_SetDefaults; cbn -[Z.eqb]. f_equal; [exact (or_default_twice (cls_Shards s) _)
  |exact (or_default_twice (cls_ClusterNodeTimeout s) _)|exact (or_default_twice (cls_FailoverGracePeriod s) _)].
Qed.

Lemma SetDefaults_twice lr : SetDefaults (SetDefaults lr) = SetDefaults lr.
Proof.
  assert (Hm : ∀ m, or_text (or_text m DefaultMode) DefaultMode = or_text m DefaultMode) by (intros; apply or_text_twice).
  unfold SetDefaults; cbn [lr_Mode lr_Name lr_UID lr_ResourceVersion lr_HasFinalizer lr_Terminating lr_Generation
    lr_Annotations lr_AuthEnabled lr_ExistingSecret lr_TLS lr_FailoverSpec lr_Sentinel lr_Cluster
    lr_WhenUnsatisfiable lr_RequeueFast lr_RequeueSteady lr_Status].
  fold (or_text (lr_Mode lr) DefaultMode). fold (or_text (or_text (lr_Mode lr) DefaultMode) DefaultMode). rewrite !Hm.
  rewrite !default_block_twice by auto using SentinelSpec_SetDefaults_twice, FailoverSpec_SetDefaults_twice,
    ClusterSpec_SetDefaults_twice.
  f_equal. destruct (lr_WhenUnsatisfiable lr) as [w|]; [|done].
  exact (f_equal Some (or_text_twice w DefaultShardWhenUnsatisfiable)).
Qed.

Lemma setDefaultResources_twice r : setDefaultResources (setDefaultResources r) = setDefaultResources r.
Proof.
  unfold setDefaultResources; cbn [rq_Requests rq_Limits]. rewrite set_absent2_twice by done.
  f_equal. apply set_absent_here, set_absent_lookup.
Qed.

Lemma setDefaultExporterResources_twice r b :
  setDefaultExporterResources (setDefaultExporterResources r b) b = setDefaultExporterResources r b.
Proof.
  unfold setDefaultExporterResources; cbn [rq_Requests rq_Limits].
  by rewrite set_absent2_twice, side_limits_twice.
Qed.

Lemma setDefaultSentinelResources_twice r b :
  setDefaultSentinelResources (setDefaultSentinelResources r b) b = setDefaultSentinelResources r b.
Proof.
  unfold setDefaultSentinelResources; cbn [rq_Requests rq_Limits].
  by rewrite set_absent2_twice, side_limits_twice.
Qed.

Lemma MetricsSpec_SetDefaults_twice m reg b :
  MetricsSpec_SetDefaults (MetricsSpec_SetDefaults m reg b) reg b = MetricsSpec_SetDefaults m reg b.
Proof.
  unfold MetricsSpec_SetDefaults, ExporterSpec_SetDefaults; cbn -[or_text setDefaultExporterResources].
  by rewrite !or_text_twice, setDefaultExporterResources_twice.
Qed.

Lemma RenderSpec_SetDefaults_twice lr s :
  RenderSpec_SetDefaults lr (RenderSpec_SetDefaults lr s) = RenderSpec_SetDefaults lr s.
Proof.
  unfold RenderSpec_SetDefaults, ImageSpec_SetDefaults, ConfigSpec_SetDefaults.
  cbn -[or_text setDefaultResources setDefaultSentinelResources MetricsSpec_SetDefaults has_cpu_limit].
  rewrite !or_text_twice, !setDefaultResources_twice, MetricsSpec_SetDefaults_twice. f_equal.
  - by destruct (lr_Sentinel lr); rewrite ?setDefaultSentinelResources_twice.
  - by destruct (lr_WhenUnsatisfiable lr); rewrite ?or_text_twice.
Qed.

(** ** Properties *)

(**  Applying the defaults twice changes nothing the second time: the copy of a resource
    that was read again and defaulted again renders the same objects. *)
Theorem defaults_idempotent (i : Instance) :
  Instance_SetDefaults (Instance_SetDefaults i) = Instance_SetDefaults i.
Proof.
  unfold Instance_SetDefaults; cbn [in_lr in_spec]. by rewrite SetDefaults_twice, RenderSpec_SetDefaults_twice.
Qed.

(** The default exporter is the image of the Dockerfile. *)
Lemma exporter_default :
  parseExporterImage redisExporterDockerfile = Ok ("oliver006/redis_exporter", "v1.89.0").
Proof. vm_compute. reflexivity. Qed.

(** A resource with nothing but a name, a mode and TLS set, and its defaults. *)
Definition bare_spec : RenderSpec :=
  mkRender "ns" ∅ "" (mkImage "" "" "" "" []) (mkResources ∅ ∅) (mkConfig "" "" 0 None "")
    (mkMetrics None (mkExporter "" "" "" (mkResources ∅ ∅)) (mkServiceMonitor true "" ∅ "" ""))
    (mkUpdateStrategy "" None) (mkService "" ∅ ∅) (mkPodTemplate ∅ ∅ ∅ [] "" None []) (mkResources ∅ ∅)
    (mkPDBSpec None None None) "".

Definition bare_instance (name mode : string) (tls : TLSSpec) : Instance :=
  Instance_SetDefaults
    (mkInstance (mkLittleRed name "uid" "1" true false mode 1 ∅ true "secret" tls None None None None None None sample_status)
       bare_spec).
