(* ===== verification/Metadata.v ===== *)
(** * Labels, annotations and selectors (src/internal/controller/metadata.go, resources.go)

    The keys of every object the operator owns come from four places: the resource's own
    metadata, the operator, [spec.podTemplate] and [spec.service].  [maps.Copy(dst, src)] is the
    union in which [src] wins.  A label selector is a set of equalities: it selects the pods
    whose labels include it. *)

From S2P Require Import Prelude GoStrings Recovery Topology Kube FailoverEngine.
From S2P Require Import ClusterRepair OperationWiring SentinelStatus Controller Spec.

Open Scope Z_scope.
Open Scope go_scope.

(** ** Definitions *)

Definition AnnotationConfigHash : string := "redis.chuck-chuck-chuck.net/config-hash".
Definition AnnotationPodSpecHash : string := "redis.chuck-chuck-chuck.net/pod-spec-hash".

Definition ComponentSentinel : string := "sentinel".
Definition labelAppName : string := "app.kubernetes.io/name".
Definition labelAppInstance : string := "app.kubernetes.io/instance".
Definition labelAppManagedBy : string := "app.kubernetes.io/managed-by".
Definition labelAppVersion : string := "app.kubernetes.io/version".
Definition operatorKeyPrefix : string := "redis.chuck-chuck-chuck.net/".
Definition labelMode : string := operatorKeyPrefix +:+ "mode".
Definition managedByValue : string := "littlered-operator".
Definition appName : string := "littlered".

(** *** Which keys are passed on *)

Definition nonInheritedPrefixes : list string :=
  [operatorKeyPrefix; "kubectl.kubernetes.io/"; "argocd.argoproj.io/"; "meta.helm.sh/"; "helm.sh/";
   "kustomize.toolkit.fluxcd.io/"; "helm.toolkit.fluxcd.io/"].

Definition structuralLabelKeys : list string :=
  [labelAppName; labelAppInstance; labelAppComponent; LabelShard; LabelRole].

Definition operatorOwnedKeys : list string := [labelAppManagedBy; labelAppVersion] ++ structuralLabelKeys.

Definition isStructuralLabelKey (key : string) : bool := bool_decide (key ∈ structuralLabelKeys).

Definition isInheritableKey (key : string) : bool :=
  forallb (λ prefix, negb (has_prefix key prefix)) nonInheritedPrefixes
  && negb (bool_decide (key ∈ operatorOwnedKeys)).

Definition inheritable (src : gmap string string) : gmap string string :=
  filter (λ p, isInheritableKey p.1 = true) src.

(** [maps.Copy]. *)
Definition Copy {A} (dst src : gmap string A) : gmap string A := src ∪ dst.

Definition appNameFor (i : Instance) : string := or_text (rx_AppName i) appName.

Definition inheritedLabels (i : Instance) : gmap string string := inheritable (rx_Labels i).
Definition inheritedAnnotations (i : Instance) : gmap string string := inheritable (lr_Annotations i).

Definition objectLabels (i : Instance) (owned : gmap string string) : gmap string string :=
  Copy (inheritedLabels i) owned.

Definition podTemplateLabels (i : Instance) (owned : gmap string string) : gmap string string :=
  Copy (Copy (inheritedLabels i) owned)
    (filter (λ p, isStructuralLabelKey p.1 = false) (pt_Labels (rx_PodTemplate i))).

Definition podTemplateAnnotations (i : Instance) (owned : gmap string string) : gmap string string :=
  Copy (Copy (inheritedAnnotations i) (pt_Annotations (rx_PodTemplate i))) owned.

(** *** The operator's labels and selectors *)

Definition commonLabels (i : Instance) : gmap string string :=
  objectLabels i
    (<[labelAppName := appNameFor i]> (<[labelAppInstance := lr_Name i]>
     (<[labelAppManagedBy := managedByValue]> (<[labelAppVersion := im_Tag (rx_Image i)]>
     (<[labelMode := lr_Mode i]> ∅))))).

Definition selectorLabels (i : Instance) : gmap string string :=
  <[labelAppName := appNameFor i]> (<[labelAppInstance := lr_Name i]> ∅).

Definition component_labels (i : Instance) (component : string) : gmap string string :=
  <[labelAppName := appNameFor i]> (<[labelAppInstance := lr_Name i]> (<[labelAppComponent := component]> ∅)).

Definition redisSelectorLabels (i : Instance) : gmap string string := component_labels i ComponentRedis.
Definition sentinelSelectorLabels (i : Instance) : gmap string string := component_labels i ComponentSentinel.
Definition clusterSelectorLabels (i : Instance) : gmap string string := component_labels i ComponentCluster.

Definition masterSelectorLabels (i : Instance) : gmap string string :=
  <[LabelRole := RoleMaster]> (redisSelectorLabels i).

Definition clusterShardLabelValue (shardIdx : Z) : string := itoa shardIdx.

Definition clusterShardSelectorLabels (i : Instance) (shardIdx : Z) : gmap string string :=
  <[LabelShard := clusterShardLabelValue shardIdx]> (clusterSelectorLabels i).

(** *** Names of the owned objects *)

Definition configMapName (i : Instance) : string := lr_Name i +:+ "-config".
Definition sentinelConfigMapName (i : Instance) : string := lr_Name i +:+ "-sentinel-config".
Definition serviceName (i : Instance) : string := lr_Name i.
Definition replicasServiceName (i : Instance) : string := lr_Name i +:+ "-replicas".
Definition sentinelServiceName (i : Instance) : string := lr_Name i +:+ "-sentinel".
Definition clusterHeadlessServiceName (i : Instance) : string := lr_Name i +:+ "-cluster".
Definition serviceMonitorName (i : Instance) : string := lr_Name i.

(** [metav1.LabelSelector.MatchLabels]. *)
Definition selects (selector labels : gmap string string) : Prop := selector ⊆ labels.
#[global] Instance selects_dec selector labels : Decision (selects selector labels).
Proof. unfold selects. apply _. Defined.

(** ** Lemmas *)

Lemma structural_not_inheritable k : k ∈ structuralLabelKeys → isInheritableKey k = false.
Proof.
  intros Hk. unfold isInheritableKey. rewrite (bool_decide_eq_true_2 (k ∈ operatorOwnedKeys)); [apply andb_false_r|].
  unfold operatorOwnedKeys. apply elem_of_app. by right.
Qed.

Lemma inheritable_lookup src k : inheritable src !! k = if isInheritableKey k then src !! k else None.
Proof.
  unfold inheritable. destruct (isInheritableKey k) eqn:Hk, (src !! k) as [v|] eqn:Hv.
  - by apply map_lookup_filter_Some.
  - apply map_lookup_filter_None. by left.
  - apply map_lookup_filter_None. right. intros w _. simpl. by rewrite Hk.
  - apply map_lookup_filter_None. by left.
Qed.

Lemma Copy_lookup {A} (dst src : gmap string A) k :
  Copy dst src !! k = match src !! k with Some v => Some v | None => dst !! k end.
Proof. unfold Copy. rewrite lookup_union. by destruct (src !! k), (dst !! k). Qed.

(** The structural labels of a pod template are the operator's, whatever else is configured. *)
Lemma template_lookup i owned k : k ∈ structuralLabelKeys → podTemplateLabels i owned !! k = owned !! k.
Proof.
  intros Hk. unfold podTemplateLabels. rewrite Copy_lookup.
  rewrite (proj2 (map_lookup_filter_None _ _ _)).
  - rewrite Copy_lookup. unfold inheritedLabels. rewrite inheritable_lookup, structural_not_inheritable by done.
    by destruct (owned !! k).
  - right. intros v _. simpl. unfold isStructuralLabelKey. by rewrite bool_decide_eq_true_2.
Qed.

Definition structural (selector : gmap string string) : Prop :=
  ∀ k v, selector !! k = Some v → k ∈ structuralLabelKeys.

Lemma template_selects i owned selector : structural selector →
  selects selector (podTemplateLabels i owned) ↔ selects selector owned.
Proof.
  intros Hs. unfold selects. rewrite !map_subseteq_spec.
  split; intros H k v Hk; [rewrite <- (template_lookup i)|rewrite template_lookup]; eauto.
Qed.

Lemma structural_insert k v m : k ∈ structuralLabelKeys → structural m → structural (<[k := v]> m).
Proof. intros Hk Hm j w [[<- _]|[_ Hj]]%lookup_insert_Some; [done|eauto]. Qed.

Lemma structural_key k : isStructuralLabelKey k = true → k ∈ structuralLabelKeys.
Proof. by intros ?%bool_decide_eq_true. Qed.

Lemma structural_empty : structural ∅.
Proof. intros k v. by rewrite lookup_empty. Qed.

Lemma insert_selects k v (m n : gmap string string) : m !! k = None →
  selects (<[k := v]> m) n ↔ n !! k = Some v ∧ selects m n.
Proof.
  intros Hk. unfold selects. split.
  - intros H. split; [|etrans; [by apply insert_subseteq|done]].
    eapply lookup_weaken; [|done]. by rewrite lookup_insert_eq.
  - intros [Hv H]. apply map_subseteq_spec. intros j w [[<- <-]|[_ Hj]]%lookup_insert_Some; [done|].
    by eapply lookup_weaken.
Qed.

Lemma selects_empty n : selects ∅ n ↔ True.
Proof. unfold selects. split; [done|]. intros _. apply map_empty_subseteq. Qed.

Ltac absent_key :=
  unfold redisSelectorLabels, clusterSelectorLabels, component_labels;
  rewrite ?lookup_insert_ne by discriminate; apply lookup_empty.

(** The selectors as equations on the labels. *)
Lemma instance_selects i n :
  selects (selectorLabels i) n ↔ n !! labelAppName = Some (appNameFor i) ∧ n !! labelAppInstance = Some (lr_Name i).
Proof. unfold selectorLabels. rewrite !insert_selects, selects_empty by absent_key. naive_solver. Qed.

Lemma component_selects i c n :
  selects (component_labels i c) n ↔
  n !! labelAppName = Some (appNameFor i) ∧ n !! labelAppInstance = Some (lr_Name i) ∧
  n !! labelAppComponent = Some c.
Proof. unfold component_labels. rewrite !insert_selects, selects_empty by absent_key. naive_solver. Qed.

Lemma shard_selects i k n :
  selects (clusterShardSelectorLabels i k) n ↔
  selects (clusterSelectorLabels i) n ∧ n !! LabelShard = Some (clusterShardLabelValue k).
Proof. unfold clusterShardSelectorLabels. rewrite insert_selects by absent_key. naive_solver. Qed.

Lemma master_selects i n :
  selects (masterSelectorLabels i) n ↔ selects (redisSelectorLabels i) n ∧ n !! LabelRole = Some RoleMaster.
Proof. unfold masterSelectorLabels. rewrite insert_selects by absent_key. naive_solver. Qed.

Lemma structural_component i c : structural (component_labels i c).
Proof. unfold component_labels. repeat apply structural_insert; [apply structural_key; vm_compute; reflexivity..|apply structural_empty]. Qed.

Lemma structural_instance i : structural (selectorLabels i).
Proof. unfold selectorLabels. repeat apply structural_insert; [apply structural_key; vm_compute; reflexivity..|apply structural_empty]. Qed.

Lemma structural_shard i k : structural (clusterShardSelectorLabels i k).
Proof.
  unfold clusterShardSelectorLabels, masterSelectorLabels, clusterSelectorLabels, redisSelectorLabels.
  apply structural_insert; [apply structural_key; vm_compute; reflexivity|apply structural_component].
Qed.

Lemma structural_master i : structural (masterSelectorLabels i).
Proof.
  unfold clusterShardSelectorLabels, masterSelectorLabels, clusterSelectorLabels, redisSelectorLabels.
  apply structural_insert; [apply structural_key; vm_compute; reflexivity|apply structural_component].
Qed.

Create HintDb structural.
#[export] Hint Resolve structural_component structural_instance structural_shard structural_master : structural.
