(* ===== verification/RedisConf.v ===== *)
(** * The generated configuration (src/internal/controller/resources.go, resources_failover.go)

    The texts of redis.conf and sentinel.conf in the four modes, and the lines they consist
    of.  The parser of quantities is Kubernetes' and an argument. *)

From Stdlib Require Import Ascii.
From S2P Require Import Prelude GoStrings ClusterNodes Gather Kube FailoverEngine.
From S2P Require Import PodStart ClusterRepair OperationWiring Controller Spec.

Open Scope Z_scope.
Open Scope go_scope.

(** ** Definitions *)

Section Render.
Variable ParseQuantity : string → option Z.

(** The lines written to the builder, each with its newline. *)
Definition text (lines : list string) : string := foldr (λ l rest, l +:+ String newline rest) "" lines.

Definition server_lines (title : string) : list string :=
  [title; "bind 0.0.0.0"; "port " +:+ itoa RedisPort; "dir /data"].

Definition persistence_lines : list string :=
  [""; "# Persistence disabled (in-memory mode)"; "save " +:+ dquote +:+ dquote; "appendonly no"].

Definition memory_lines (i : Instance) : list string :=
  [""; "# Memory configuration"; "maxmemory " +:+ CalculateMaxmemory ParseQuantity i;
   "maxmemory-policy " +:+ GetEffectiveMaxmemoryPolicy i].

Definition connection_lines (i : Instance) : list string :=
  [""; "# Connection settings"; "timeout " +:+ itoa (cf_Timeout (rx_Config i));
   "tcp-keepalive " +:+ itoa (TCPKeepaliveOrDefault (rx_Config i))].

Definition replica_lines : list string :=
  ["replica-serve-stale-data yes"; "replica-read-only yes"].

Definition diskless_lines : list string :=
  ["repl-diskless-sync yes"; "repl-diskless-sync-delay 5"; "repl-diskless-load on-empty-db"].

Definition tls_ca_line (t : TLSSpec) : list string :=
  if tls_CACertSecret t =? "" then []
  else if tls_CACertSecret t =? tls_ExistingSecret t then ["tls-ca-cert-file /tls/ca.crt"]
  else ["tls-ca-cert-file /tls-ca/ca.crt"].

Definition tls_auth_line (t : TLSSpec) : string :=
  if tls_ClientAuth t then "tls-auth-clients yes" else "tls-auth-clients no".

(** [before] are the lines of the mode between the key and the CA, [after] those at the end. *)
Definition tls_lines (t : TLSSpec) (port : Z) (before after : list string) : list string :=
  if tls_Enabled t then
    [""; "# TLS configuration"; "tls-port " +:+ itoa port; "port 0"; "tls-cert-file /tls/tls.crt";
     "tls-key-file /tls/tls.key"] ++ before ++ tls_ca_line t ++ [tls_auth_line t] ++ after
  else [].

Definition ends_line (s : string) : bool := has_prefix (String.rev s) (String newline "").

Definition raw_block (c : ConfigSpec) : string :=
  if cf_Raw c =? "" then ""
  else text [""; "# Custom configuration"] +:+ cf_Raw c +:+ (if ends_line (cf_Raw c) then "" else String newline "").

Definition standalone_lines (i : Instance) : list string :=
  server_lines "# LittleRed generated configuration" ++ persistence_lines ++ memory_lines i ++ connection_lines i ++
  tls_lines (lr_TLS i) RedisPort [] [].

Definition buildRedisConfig (i : Instance) : string := text (standalone_lines i) +:+ raw_block (rx_Config i).

Definition sentinel_mode_lines (i : Instance) : list string :=
  server_lines "# LittleRed generated configuration (sentinel mode)" ++ persistence_lines ++ memory_lines i ++
  connection_lines i ++ ["" ; "# Replication settings"] ++ replica_lines ++ diskless_lines ++
  tls_lines (lr_TLS i) RedisPort ["tls-replication yes"] [].

Definition buildRedisConfigSentinel (i : Instance) : string :=
  text (sentinel_mode_lines i) +:+ raw_block (rx_Config i).

Definition write_bound_lines (f : FailoverSpec) : list string :=
  match fsp_MinReplicasToWrite f with
  | Some n => if (0 <? n)%Z then [""; "# Write-safety bound (spec.failover.minReplicasToWrite)"; "min-replicas-to-write " +:+ itoa n] else []
  | None => []
  end.

Definition failover_lines (i : Instance) : list string :=
  server_lines "# LittleRed generated configuration (failover mode)" ++ persistence_lines ++ memory_lines i ++
  connection_lines i ++ [""; "# Replication settings"] ++ replica_lines ++ diskless_lines ++
  write_bound_lines (failoverSpecOrDefault i) ++ tls_lines (lr_TLS i) RedisPort ["tls-replication yes"] [].

Definition buildRedisConfigFailover (i : Instance) : string :=
  text (failover_lines i) +:+ raw_block (rx_Config i).

Definition cluster_lines (i : Instance) : list string :=
  server_lines "# LittleRed generated configuration (cluster mode)" ++
  [""; "# Cluster configuration"; "cluster-enabled yes"; "cluster-config-file /data/nodes.conf";
   "cluster-node-timeout " +:+ itoa (cls_ClusterNodeTimeout (cluster_or_default i));
   "cluster-allow-replica-migration no"; ""; "# Replication settings"] ++ diskless_lines ++ persistence_lines ++
  memory_lines i ++ connection_lines i ++
  tls_lines (lr_TLS i) RedisPort ["tls-cluster yes"; "tls-replication yes"] [].

Definition buildClusterRedisConfig (i : Instance) : string := text (cluster_lines i) +:+ raw_block (rx_Config i).

Definition buildSentinelConfig (i : Instance) : string :=
  text (["# LittleRed Sentinel configuration"; "port " +:+ itoa SentinelPort; "dir /data"] ++
        (if lr_AuthEnabled i then [""; "# Auth configured via startup arguments"] else []) ++
        tls_lines (lr_TLS i) SentinelPort [] ["tls-replication yes"] ++
        [""; "# Announce settings"; "sentinel resolve-hostnames no"; "sentinel announce-hostnames no"]).

End Render.

(** *** What each mode sets *)

Inductive conf_mode := ConfStandalone | ConfSentinel | ConfFailover | ConfCluster.

Definition conf_lines ParseQuantity (m : conf_mode) : Instance → list string :=
  match m with
  | ConfStandalone => standalone_lines ParseQuantity
  | ConfSentinel => sentinel_mode_lines ParseQuantity
  | ConfFailover => failover_lines ParseQuantity
  | ConfCluster => cluster_lines ParseQuantity
  end.

Definition conf_of ParseQuantity (m : conf_mode) : Instance → string :=
  match m with
  | ConfStandalone => buildRedisConfig ParseQuantity
  | ConfSentinel => buildRedisConfigSentinel ParseQuantity
  | ConfFailover => buildRedisConfigFailover ParseQuantity
  | ConfCluster => buildClusterRedisConfig ParseQuantity
  end.

(** The values the lines of the operator give to a keyword; [None] if no line starts with it. *)
Definition tls_settings (t : TLSSpec) : list (string * option string) :=
  if tls_Enabled t then
    [("port", Some "0"); ("tls-port", Some "6379"); ("tls-cert-file", Some "/tls/tls.crt");
     ("tls-key-file", Some "/tls/tls.key");
     ("tls-auth-clients", Some (if tls_ClientAuth t then "yes" else "no"));
     ("tls-ca-cert-file",
      if tls_CACertSecret t =? "" then None
      else Some (if tls_CACertSecret t =? tls_ExistingSecret t then "/tls/ca.crt" else "/tls-ca/ca.crt"))]
  else [("port", Some "6379"); ("tls-port", None)].

Definition mode_settings (m : conf_mode) (i : Instance) : list (string * option string) :=
  let tls := tls_Enabled (lr_TLS i) in
  [("tls-replication", match m with ConfStandalone => None | _ => if tls then Some "yes" else None end);
   ("tls-cluster", match m with ConfCluster => if tls then Some "yes" else None | _ => None end);
   ("repl-diskless-load", match m with ConfStandalone => None | _ => Some "on-empty-db" end);
   ("replica-read-only", match m with ConfSentinel | ConfFailover => Some "yes" | _ => None end);
   ("min-replicas-to-write",
    match m, fsp_MinReplicasToWrite (failoverSpecOrDefault i) with
    | ConfFailover, Some n => if (0 <? n)%Z then Some (itoa n) else None
    | _, _ => None
    end);
   ("cluster-enabled", match m with ConfCluster => Some "yes" | _ => None end);
   ("cluster-allow-replica-migration", match m with ConfCluster => Some "no" | _ => None end);
   ("cluster-node-timeout",
    match m with ConfCluster => Some (itoa (cls_ClusterNodeTimeout (cluster_or_default i))) | _ => None end)].

(** The memory limit: the configured quantity in bytes, rounded up, the configured text if it
    is no quantity, and nine tenths of the limit of the container otherwise. *)
Definition memory_setting (ParseQuantity : string → option Z) (i : Instance) : string :=
  match cf_Maxmemory (rx_Config i) with
  | EmptyString =>
      let limit := default 0 (rq_Limits (rx_Resources i) !! ResourceMemory) in
      itoa (ninety_percent (if (limit =? 0)%Z then 536870912 else (limit + 999) / 1000))
  | text => match ParseQuantity text with Some q => itoa ((q + 999) / 1000) | None => text end
  end.

Definition settings (ParseQuantity : string → option Z) (m : conf_mode) (i : Instance) : list (string * option string) :=
  [("bind", Some "0.0.0.0"); ("dir", Some "/data"); ("save", Some (dquote +:+ dquote));
   ("appendonly", Some "no"); ("maxmemory", Some (memory_setting ParseQuantity i));
   ("maxmemory-policy", Some (or_text (cf_MaxmemoryPolicy (rx_Config i)) "noeviction"));
   ("timeout", Some (itoa (cf_Timeout (rx_Config i))));
   ("tcp-keepalive", Some (itoa (default 300 (cf_TCPKeepalive (rx_Config i)))))] ++
  tls_settings (lr_TLS i) ++ mode_settings m i.

(** The last line that starts with a keyword. *)
Fixpoint starts_with (p l : string) : bool :=
  match p, l with
  | EmptyString, _ => true
  | String c p', String d l' => Ascii.eqb c d && starts_with p' l'
  | String _ _, EmptyString => false
  end.

Definition written (key : string) (lines : list string) : option string :=
  last (bfilter (starts_with (key +:+ " ")) lines).

(** ** Lemmas *)

Lemma str_app_assoc a b c : (a +:+ b) +:+ c = a +:+ (b +:+ c).
Proof. induction a as [|x a IH]; [done|]. exact (f_equal (String x) IH). Qed.

Lemma split_text lines rest : Forall (byte_free newline) lines →
  split_on newline (text lines +:+ rest) = lines ++ split_on newline rest.
Proof.
  induction 1 as [|l lines Hl _ IH]; [done|]. simpl. rewrite str_app_assoc. 
  change (String newline (text lines) +:+ rest) with (String newline (text lines +:+ rest)).
  by rewrite split_on_app, IH.
Qed.

Lemma all_digits_one_line s : all_digits s → byte_free newline s.
Proof.
  induction s as [|c s IH]; [done|]. intros [Hc Hs]. split; [|auto]. intros ->. by vm_compute in Hc.
Qed.

Lemma itoa_one_line z : byte_free newline (itoa z).
Proof.
  unfold itoa. destruct z as [|p|p]; [by repeat split|..].
  - change (pretty (Z.pos p)) with (pretty (N.pos p)). apply all_digits_one_line, all_digits_pretty_N.
  - change (pretty (Z.neg p)) with (String "-" (pretty (N.pos p))).
    split; [done|]. apply all_digits_one_line, all_digits_pretty_N.
Qed.

Lemma quantity_up q : quantity_value q = (q + 999) / 1000.
Proof. unfold quantity_value. apply (Z.div_unique_pos _ _ _ (q + 999 + 1000 * ((- q) / 1000))); [|lia].
  pose proof (Z.mod_pos_bound (- q) 1000 ltac:(lia)). pose proof (Z.div_mod (- q) 1000 ltac:(lia)). lia.
Qed.

Lemma memory_written ParseQuantity i : CalculateMaxmemory ParseQuantity i = memory_setting ParseQuantity i.
Proof.
  unfold CalculateMaxmemory, memory_setting. rewrite !quantity_up.
  destruct (cf_Maxmemory (rx_Config i)) as [|c s] eqn:Hc; cbn [String.eqb negb].
  - by destruct (default 0 (rq_Limits (rx_Resources i) !! ResourceMemory) =? 0)%Z.
  - destruct (ParseQuantity (String c s)) as [q|]; [by rewrite quantity_up|done].
Qed.

Section Settings.
Context (ParseQuantity : string → option Z) (i : Instance).

Lemma lines_written m :
  Forall (λ s, written s.1 (conf_lines ParseQuantity m i) = (λ v, s.1 +:+ " " +:+ v) <$> s.2) (settings ParseQuantity m i).
Proof.
  destruct m; unfold conf_lines, standalone_lines, sentinel_mode_lines, failover_lines, cluster_lines, memory_lines,
    connection_lines, write_bound_lines, tls_lines, tls_ca_line, tls_auth_line, settings, tls_settings, mode_settings;
  rewrite memory_written; unfold GetEffectiveMaxmemoryPolicy, TCPKeepaliveOrDefault, DefaultMaxmemoryPolicy, DefaultTCPKeepalive;
  generalize (memory_setting ParseQuantity i) (or_text (cf_MaxmemoryPolicy (rx_Config i)) "noeviction")
    (itoa (cf_Timeout (rx_Config i))) (itoa (default 300 (cf_TCPKeepalive (rx_Config i))))
    (itoa (cls_ClusterNodeTimeout (cluster_or_default i)))
    (fsp_MinReplicasToWrite (failoverSpecOrDefault i)) (tls_Enabled (lr_TLS i)) (tls_CACertSecret (lr_TLS i) =? "")
    (tls_CACertSecret (lr_TLS i) =? tls_ExistingSecret (lr_TLS i)) (tls_ClientAuth (lr_TLS i));
  intros mm pol tm ka ct wb tls ca same auth;
  destruct tls, ca, same, auth, wb as [n|]; try destruct (0 <? n)%Z; cbn [app];
    repeat (apply Forall_cons; split; [reflexivity|]); apply Forall_nil_2.
Qed.

Hypothesis Hmemory : byte_free newline (cf_Maxmemory (rx_Config i)).
Hypothesis Hpolicy : byte_free newline (cf_MaxmemoryPolicy (rx_Config i)).

Ltac free_line :=
  first [by repeat split
        |apply byte_free_app; [by repeat split|apply itoa_one_line]].
Ltac free_list := repeat (apply Forall_cons; split; [free_line|]); apply Forall_nil_2.

Lemma memory_free : Forall (byte_free newline) (memory_lines ParseQuantity i).
Proof.
  unfold memory_lines. repeat (apply Forall_cons; split); try apply Forall_nil_2; try (by repeat split);
    (apply byte_free_app; [by repeat split|]).
  - rewrite memory_written. unfold memory_setting. repeat case_match; try apply itoa_one_line; by simplify_eq/=.
  - unfold GetEffectiveMaxmemoryPolicy, or_text. case_match; [by repeat split|done].
Qed.

Lemma connection_free : Forall (byte_free newline) (connection_lines i).
Proof. unfold connection_lines. free_list. Qed.

Lemma write_bound_free : Forall (byte_free newline) (write_bound_lines (failoverSpecOrDefault i)).
Proof.
  unfold write_bound_lines. case_match; [|done]. case_match; [|done]. free_list.
Qed.

Lemma tls_free before : Forall (byte_free newline) before →
  Forall (byte_free newline) (tls_lines (lr_TLS i) RedisPort before []).
Proof.
  intros Hb. unfold tls_lines. destruct (tls_Enabled (lr_TLS i)); [|done]. apply Forall_app. split; [free_list|].
  apply Forall_app. split; [done|]. apply Forall_app. split.
  - unfold tls_ca_line. repeat case_match; free_list.
  - unfold tls_auth_line. case_match; free_list.
Qed.

Ltac free_lines :=
  repeat (apply Forall_app; split);
  first [apply memory_free|apply connection_free|apply write_bound_free|apply tls_free; free_list|free_list].

Lemma lines_free m : Forall (byte_free newline) (conf_lines ParseQuantity m i).
Proof.
  destruct m; unfold conf_lines, standalone_lines, sentinel_mode_lines, failover_lines, cluster_lines; free_lines.
Qed.
End Settings.

Lemma split_on_end sep s : split_on sep (s +:+ String sep "") = split_on sep s ++ [""].
Proof.
  induction s as [|c s IH]; [simpl; by rewrite Ascii.eqb_refl|].
  change (String c s +:+ String sep "") with (String c (s +:+ String sep "")). simpl. rewrite IH.
  case_match; [done|]. pose proof (split_on_ne_nil sep s). by destruct (split_on sep s).
Qed.

(** The lines after those of the operator. *)
Definition custom_lines (raw : string) : list string :=
  if raw =? "" then [""]
  else [""; "# Custom configuration"] ++ split_on newline raw ++ if ends_line raw then [] else [""].

Lemma raw_lines c : split_on newline (raw_block c) = custom_lines (cf_Raw c).
Proof.
  unfold raw_block, custom_lines. destruct (cf_Raw c =? ""); [done|].
  rewrite split_text by (repeat (apply Forall_cons; split; [by repeat split|]); apply Forall_nil_2).
  f_equal. destruct (ends_line (cf_Raw c)); [|apply split_on_end]. rewrite app_nil_r. f_equal.
  induction (cf_Raw c) as [|x s IH]; [done|]. exact (f_equal (String x) IH).
Qed.

(** ** Properties *)

(** C26.  The lines of the generated redis.conf, in each of the four modes.  They are the
    operator's lines, followed by the lines of [spec.config.raw] as they are, and the last of
    the operator's lines that starts with a keyword gives it its value: no persistence, the
    configured memory limit in bytes or nine tenths of the container's, the policy and the
    timeouts or their defaults, the TLS port instead of the plain one when TLS is on, with
    the CA of the mounted Secret it comes from, and the replication and cluster settings of
    the mode; a setting a mode does not have is on none of the operator's lines.  The
    configured memory limit and policy must not contain a line break. *)
Theorem conf_settings ParseQuantity (i : Instance) (m : conf_mode) :
  byte_free newline (cf_Maxmemory (rx_Config i)) → byte_free newline (cf_MaxmemoryPolicy (rx_Config i)) →
  ∃ lines, split_on newline (conf_of ParseQuantity m i) = lines ++ custom_lines (cf_Raw (rx_Config i)) ∧
    ∀ key v, (key, v) ∈ settings ParseQuantity m i → written key lines = (λ v, key +:+ " " +:+ v) <$> v.
Proof.
  intros Hm Hp. exists (conf_lines ParseQuantity m i). split.
  - rewrite <-raw_lines. pose proof (lines_free ParseQuantity i Hm Hp m) as Hf. by destruct m; apply split_text.
  - intros key v Hin. exact (proj1 (Forall_forall _ _) (lines_written ParseQuantity i m) _ Hin).
Qed.

Lemma conf_settings_witness :
  let i := bare_instance "lr" "failover" (mkTLSSpec true "certs" "certs" false) in
  ∃ lines, split_on newline (conf_of (λ _, None) ConfFailover i) = lines ++ [""] ∧
    written "port" lines = Some "port 0" ∧
    written "tls-ca-cert-file" lines = Some "tls-ca-cert-file /tls/ca.crt" ∧
    written "maxmemory" lines = Some "maxmemory 483183820" ∧
    written "min-replicas-to-write" lines = Some "min-replicas-to-write 1" ∧
    written "cluster-enabled" lines = None.
Proof.
  set (i := bare_instance "lr" "failover" (mkTLSSpec true "certs" "certs" false)). cbv zeta.
  destruct (conf_settings (λ _, None) i ConfFailover) as (lines & Hsplit & Hall); [by repeat split..|].
  exists lines. split; [exact Hsplit|].
  assert (Hin : ∀ k v, (k, v) ∈ settings (λ _, None) ConfFailover i → written k lines = (λ v, k +:+ " " +:+ v) <$> v) by exact Hall.
  split_and!.
  - apply (Hin "port" (Some "0")). apply (bool_decide_unpack _). vm_compute. exact I.
  - apply (Hin "tls-ca-cert-file" (Some "/tls/ca.crt")). apply (bool_decide_unpack _). vm_compute. exact I.
  - apply (Hin "maxmemory" (Some "483183820")). apply (bool_decide_unpack _). vm_compute. exact I.
  - apply (Hin "min-replicas-to-write" (Some "1")). apply (bool_decide_unpack _). vm_compute. exact I.
  - apply (Hin "cluster-enabled" None). apply (bool_decide_unpack _). vm_compute. exact I.
Defined.
