(* ===== verification/Workloads.v ===== *)
(** * The objects the operator applies (src/internal/controller/resources.go, resources_failover.go)

    The manifests behind the [resource]s the handlers apply: [render] gives each of them its
    ConfigMap, StatefulSet, Service, PodDisruptionBudget or ServiceMonitor.  The startup
    scripts and hooks of the containers are named here by the template they come from with
    its arguments; what they do is in [PodStart] and [PodScripts].  The parser of quantities,
    the digest and the JSON encoding are libraries and arguments. *)

From Stdlib Require Import Ascii.
From S2P Require Import Prelude GoStrings Slots ClusterState Recovery Topology Gather Kube FailoverEngine ClusterRepair OperationWiring.
From S2P Require Import ClusterMigration ClusterReconcile SentinelStatus Controller ControllerSafety Spec Metadata RedisConf.

Open Scope Z_scope.
Open Scope go_scope.

(** ** Definitions *)

(** *** Manifests *)

Record ObjectMeta := mkMeta {
  om_Name : string;
  om_Namespace : string;
  om_Labels : gmap string string;
  om_Annotations : gmap string string;
}.

Record ConfigMapManifest := mkConfigMap {
  cm_Meta : ObjectMeta;
  cm_Data : gmap string string;
}.

Inductive EnvValue :=
| Value (v : string)
| SecretKeyRef (secret key : string)
| FieldRef (path : string).

Record ContainerPort := mkPort { cp_Name : string; cp_Port : Z }.
Record VolumeMount := mkMount { vm_Name : string; vm_Path : string; vm_ReadOnly : bool }.

Inductive VolumeSource :=
| FromConfigMap (name : string)
| EmptyDir
| FromSecret (name : string)
| DownwardAPI (file fieldPath : string).

Record Volume := mkVolume { vo_Name : string; vo_Source : VolumeSource }.

Record ProbeSpec := mkProbe {
  pr_Command : list string;
  pr_InitialDelaySeconds : Z;
  pr_PeriodSeconds : Z;
  pr_TimeoutSeconds : Z;
  pr_FailureThreshold : Z;
}.

Record SecurityContext := mkSecurityContext {
  se_AllowPrivilegeEscalation : bool;
  se_ReadOnlyRootFilesystem : bool;
  se_Drop : list string;
  se_SeccompProfile : string;
}.

(** The templates of the scripts, with the fields they are executed with. *)
Inductive Script :=
| SentinelModeStartup (name namespace tlsFlags masterName : string)
| SentinelModePreStop (name namespace tlsFlags masterName : string)
| SentinelStartup
| FailoverStartup
| FailoverPreStop (tlsFlags : string)
| ClusterStartup (name namespace tlsFlags : string)
| ClusterPreStop (tlsFlags : string).

Record Container := mkContainer {
  ct_Name : string;
  ct_Image : string;
  ct_PullPolicy : string;
  ct_Command : option Script;
  ct_Args : list string;
  ct_Env : list (string * EnvValue);
  ct_Ports : list ContainerPort;
  ct_Resources : ResourceRequirements;
  ct_Mounts : list VolumeMount;
  ct_Liveness : option ProbeSpec;
  ct_Readiness : option ProbeSpec;
  ct_PreStop : option Script;
  ct_Security : SecurityContext;
}.

Record PodManifest := mkPodManifest {
  pm_SecurityContext : option PodSecurityContext;
  pm_Containers : list Container;
  pm_Volumes : list Volume;
  pm_NodeSelector : gmap string string;
  pm_Tolerations : list Toleration;
  pm_PriorityClassName : string;
  pm_TopologySpreadConstraints : list TopologySpreadConstraint;
  pm_ImagePullSecrets : list string;
}.

Record PodTemplate := mkTemplate {
  tm_Labels : gmap string string;
  tm_Annotations : gmap string string;
  tm_Spec : PodManifest;
}.

(** [wl_Parallel] is whether the pod management policy is set to [Parallel]; [wl_Partition]
    is the rolling update block, [None] without it. *)
Record Workload := mkWorkload {
  wl_Meta : ObjectMeta;
  wl_Replicas : Z;
  wl_ServiceName : string;
  wl_MinReadySeconds : Z;
  wl_Selector : gmap string string;
  wl_Template : PodTemplate;
  wl_UpdateStrategy : string;
  wl_Partition : option Z;
  wl_Parallel : bool;
}.

Record ServicePort := mkServicePort { sp_Name : string; sp_Port : Z; sp_TargetPort : string }.

Record ServiceManifest := mkServiceManifest {
  sr_Meta : ObjectMeta;
  sr_Type : string;
  sr_ClusterIP : string;
  sr_Selector : gmap string string;
  sr_PublishNotReadyAddresses : bool;
  sr_Ports : list ServicePort;
}.

Record MonitorManifest := mkMonitor {
  mo_Meta : ObjectMeta;
  mo_Selector : gmap string string;
  mo_MatchNames : list string;
  mo_Port : string;
  mo_Interval : string;
  mo_ScrapeTimeout : string;
}.

Record BudgetManifest := mkBudget {
  bu_Meta : ObjectMeta;
  bu_MaxUnavailable : option IntOrString;
  bu_MinAvailable : option IntOrString;
  bu_Selector : gmap string string;
}.

Inductive object :=
| OConfigMap (c : ConfigMapManifest)
| OWorkload (w : Workload)
| OService (s : ServiceManifest)
| OBudget (b : BudgetManifest)
| OMonitor (m : MonitorManifest).

(** *** Constants *)

Definition tlsInsecureFlags : string := "--tls --insecure".
Definition portNameMetrics : string := "metrics".
Definition portNameClusterBus : string := "cluster-bus".
Definition containerNameExporter : string := "exporter".
Definition fileRedisConf : string := "redis.conf".
Definition volNameConfig : string := "config".
Definition volNameData : string := "data".
Definition volNameTLS : string := "tls".
Definition volNameCACert : string := "ca-cert".
Definition volNamePodInfo : string := "podinfo".
Definition mountPathPodInfo : string := "/podinfo".
Definition fileAnnotations : string := "annotations".
Definition envRedisPassword : string := "REDIS_PASSWORD".
Definition envRedisAddr : string := "REDIS_ADDR".
Definition envPodIP : string := "POD_IP".
Definition fieldPathPodIP : string := "status.podIP".
Definition secretKeyPassword : string := "password".
Definition serviceClusterNone : string := "None".
Definition ServiceTypeClusterIP : string := "ClusterIP".
Definition RollingUpdate : string := "RollingUpdate".
Definition binRedisCli : string := "redis-cli".
Definition bootstrapGuardScript : string := "if [ -f /data/bootstrap-in-progress ]; then exit 0; fi;".
Definition bootstrapNotReady : string := "if [ -f /data/bootstrap-in-progress ]; then exit 1; fi;".

(** *** Probes *)

Definition quoted (s : string) : string := PodStart.dquote +:+ s +:+ PodStart.dquote.

Definition ping_command (guard : string) (i : Instance) : list string :=
  ["sh"; "-c";
   str_join " "
     ([guard; binRedisCli] ++
      (if lr_AuthEnabled i then ["-a"; "$(REDIS_PASSWORD)"; "--no-auth-warning"] else []) ++
      (if tls_Enabled (lr_TLS i) then ["--tls"; "--insecure"] else []) ++ ["-t"; "2"; "ping"])].

Definition buildLivenessProbe (i : Instance) : ProbeSpec := mkProbe (ping_command bootstrapGuardScript i) 5 10 5 3.
Definition buildReadinessProbe (i : Instance) : ProbeSpec := mkProbe (ping_command bootstrapNotReady i) 5 5 3 3.
Definition buildSentinelLivenessProbe (i : Instance) : ProbeSpec :=
  mkProbe (ping_command bootstrapGuardScript i) 15 10 5 3.
Definition buildClusterLivenessProbe (i : Instance) : ProbeSpec :=
  mkProbe (ping_command bootstrapGuardScript i) 10 10 5 3.
Definition buildClusterReadinessProbe (i : Instance) : ProbeSpec :=
  mkProbe (ping_command bootstrapNotReady i) 5 5 3 3.

Definition auth_line : string :=
  "AUTH=" +:+ quoted "" +:+ "; [ -n " +:+ quoted "$REDIS_PASSWORD" +:+ " ] && AUTH=" +:+
  quoted "-a $REDIS_PASSWORD --no-auth-warning".

Definition buildSentinelReadinessProbe (i : Instance) : ProbeSpec :=
  let tlsFlags := if tls_Enabled (lr_TLS i) then " --tls --insecure" else "" in
  mkProbe
    ["sh"; "-c";
     str_join (String "010"%char "")
       ["if [ -f /data/bootstrap-in-progress ]; then exit 1; fi"; auth_line;
        "info=$(redis-cli -h 127.0.0.1 $AUTH" +:+ tlsFlags +:+ " -t 2 info replication 2>/dev/null) || exit 1";
        "echo " +:+ quoted "$info" +:+ " | grep -q " +:+ quoted "^role:master" +:+ " && exit 0";
        "echo " +:+ quoted "$info" +:+ " | grep -q " +:+ quoted "^master_link_status:up" +:+ " && exit 0"; "exit 1"]]
    5 5 3 3.

Definition buildFailoverLivenessProbe : Instance → ProbeSpec := buildSentinelLivenessProbe.
Definition buildFailoverReadinessProbe : Instance → ProbeSpec := buildSentinelReadinessProbe.

Definition sentinel_ping (i : Instance) : list string :=
  ["sh"; "-c";
   auth_line +:+ "; TLS=" +:+ quoted "" +:+ "; [ " +:+ quoted (if tls_Enabled (lr_TLS i) then "true" else "false") +:+
   " = " +:+ quoted "true" +:+ " ] && TLS=" +:+ quoted tlsInsecureFlags +:+ "; redis-cli -p " +:+ itoa SentinelPort +:+
   " $AUTH $TLS ping"].

(** *** Containers *)

Definition restricted : SecurityContext := mkSecurityContext false true ["ALL"] "RuntimeDefault".

Definition tls_flags (i : Instance) : string := if tls_Enabled (lr_TLS i) then tlsInsecureFlags else "".

Definition separate_ca (t : TLSSpec) : bool :=
  negb (tls_CACertSecret t =? "") && negb (tls_CACertSecret t =? tls_ExistingSecret t).

Definition tls_mounts (i : Instance) : list VolumeMount :=
  if tls_Enabled (lr_TLS i) then
    mkMount volNameTLS "/tls" true ::
    (if separate_ca (lr_TLS i) then [mkMount volNameCACert "/tls-ca" true] else [])
  else [].

Definition auth_env (i : Instance) : list (string * EnvValue) :=
  if lr_AuthEnabled i then [(envRedisPassword, SecretKeyRef (lr_ExistingSecret i) secretKeyPassword)] else [].

Definition base_mounts (configPath : string) : list VolumeMount :=
  [mkMount volNameConfig configPath true; mkMount volNameData "/data" false].

Definition redis_port : ContainerPort := mkPort ComponentRedis RedisPort.

Definition buildRedisContainer (i : Instance) : Container :=
  mkContainer ComponentRedis (FullImage (rx_Image i)) (im_PullPolicy (rx_Image i)) None
    ("/etc/redis/redis.conf" :: (if lr_AuthEnabled i then ["--requirepass"; "$(REDIS_PASSWORD)"] else []))
    (auth_env i) [redis_port] (rx_Resources i) (base_mounts "/etc/redis" ++ tls_mounts i)
    (Some (buildLivenessProbe i)) (Some (buildReadinessProbe i)) None restricted.

(** Under TLS the address is written again, with the Redis port. *)
Definition exporter_address (i : Instance) (targetPort : Z) : string :=
  if tls_Enabled (lr_TLS i) then "rediss://localhost:" +:+ itoa RedisPort
  else "redis://localhost:" +:+ itoa targetPort.

Definition buildExporterContainer (i : Instance) (targetPort : Z) : Container :=
  mkContainer containerNameExporter (ExporterSpec_FullImage (mt_Exporter (rx_Metrics i)) (im_Registry (rx_Image i)))
    (im_PullPolicy (rx_Image i)) None []
    ([(envRedisAddr, Value (exporter_address i targetPort))] ++ auth_env i ++
     (if tls_Enabled (lr_TLS i) then [("REDIS_EXPORTER_SKIP_TLS_VERIFICATION", Value "true")] else []))
    [mkPort portNameMetrics RedisExporterPort] (ex_Resources (mt_Exporter (rx_Metrics i))) (tls_mounts i)
    None None None restricted.

Definition pod_ip_env : string * EnvValue := (envPodIP, FieldRef fieldPathPodIP).

Definition buildRedisContainerSentinel (i : Instance) : Container :=
  mkContainer ComponentRedis (FullImage (rx_Image i)) (im_PullPolicy (rx_Image i))
    (Some (SentinelModeStartup (lr_Name i) (rx_Namespace i) (tls_flags i) (SentinelMasterName i))) []
    ([("LITTLERED_NAME", FieldRef "metadata.labels['app.kubernetes.io/instance']");
      ("LITTLERED_NAMESPACE", FieldRef "metadata.namespace"); pod_ip_env] ++ auth_env i)
    [redis_port] (rx_Resources i) (base_mounts "/etc/redis" ++ tls_mounts i)
    (Some (buildSentinelLivenessProbe i)) (Some (buildSentinelReadinessProbe i))
    (Some (SentinelModePreStop (lr_Name i) (rx_Namespace i) (tls_flags i) (SentinelMasterName i))) restricted.

(** [Sentinel.Resources] of an absent block is the empty value. *)
Definition buildSentinelContainer (i : Instance) : Container :=
  mkContainer ComponentSentinel (FullImage (rx_Image i)) (im_PullPolicy (rx_Image i)) (Some SentinelStartup) []
    (pod_ip_env :: auth_env i) [mkPort ComponentSentinel SentinelPort]
    (match lr_Sentinel i with Some _ => rx_SentinelResources i | None => mkResources ∅ ∅ end)
    (base_mounts "/etc/sentinel" ++ tls_mounts i)
    (Some (mkProbe (sentinel_ping i) 5 10 5 3)) (Some (mkProbe (sentinel_ping i) 5 5 3 3)) None restricted.

Definition buildRedisContainerFailover (i : Instance) : Container :=
  mkContainer ComponentRedis (FullImage (rx_Image i)) (im_PullPolicy (rx_Image i)) (Some FailoverStartup) []
    (pod_ip_env :: auth_env i) [redis_port] (rx_Resources i)
    (base_mounts "/etc/redis" ++ [mkMount volNamePodInfo mountPathPodInfo true] ++ tls_mounts i)
    (Some (buildFailoverLivenessProbe i)) (Some (buildFailoverReadinessProbe i)) (Some (FailoverPreStop (tls_flags i)))
    restricted.

Definition buildClusterRedisContainer (i : Instance) : Container :=
  mkContainer ComponentRedis (FullImage (rx_Image i)) (im_PullPolicy (rx_Image i))
    (Some (ClusterStartup (lr_Name i) (rx_Namespace i) (tls_flags i))) []
    ([pod_ip_env; ("POD_NAME", FieldRef "metadata.name"); ("NAMESPACE", FieldRef "metadata.namespace");
      ("CLUSTER_NAME", Value (lr_Name i))] ++ auth_env i)
    [redis_port; mkPort portNameClusterBus ClusterBusPort] (rx_Resources i)
    (base_mounts "/etc/redis" ++ tls_mounts i) (Some (buildClusterLivenessProbe i))
    (Some (buildClusterReadinessProbe i)) (Some (ClusterPreStop (tls_flags i))) restricted.

(** *** Volumes *)

Definition mounted_volumes (i : Instance) (configMap : string) : list Volume :=
  [mkVolume volNameConfig (FromConfigMap configMap); mkVolume volNameData EmptyDir] ++
  (if tls_Enabled (lr_TLS i) then
     mkVolume volNameTLS (FromSecret (tls_ExistingSecret (lr_TLS i))) ::
     (if tls_CACertSecret (lr_TLS i) =? "" then []
      else [mkVolume volNameCACert (FromSecret (tls_CACertSecret (lr_TLS i)))])
   else []).

Definition buildVolumes (i : Instance) : list Volume := mounted_volumes i (configMapName i).
Definition buildSentinelVolumes (i : Instance) : list Volume := mounted_volumes i (sentinelConfigMapName i).
Definition buildClusterVolumes (i : Instance) : list Volume := mounted_volumes i (configMapName i).

Definition buildFailoverVolumes (i : Instance) : list Volume :=
  buildVolumes i ++ [mkVolume volNamePodInfo (DownwardAPI fileAnnotations "metadata.annotations")].

Section Build.
(** [ParseQuantity] is Kubernetes', [sha256_hex] the digest in hexadecimal, [marshal] the JSON
    encoding of a pod template, [None] for its error. *)
Context (ParseQuantity : string → option Z) (sha256_hex : string → string) (marshal : PodTemplate → option string).

(** *** Hashes *)

Definition first16 (s : string) : string := String.substring 0 16 s.

(** The keys in order, each followed by its value. *)
Definition computeConfigHash (data : gmap string string) : string :=
  first16 (sha256_hex
    (str_join "" ((λ k, k +:+ default "" (data !! k)) <$> sort_strings (map_to_list data).*1))).

Definition computePodTemplateHash (t : PodTemplate) : string :=
  match marshal t with Some raw => first16 (sha256_hex raw) | None => "" end.

(** *** StatefulSets *)

Definition object_meta (i : Instance) (name : string) (labels : gmap string string) : ObjectMeta :=
  mkMeta name (rx_Namespace i) labels (inheritedAnnotations i).

Definition with_component (i : Instance) (component : string) : gmap string string :=
  <[labelAppComponent := component]> (commonLabels i).

(** The exporter is added to the containers if metrics are enabled. *)
Definition with_exporter (i : Instance) (targetPort : Z) (c : Container) : list Container :=
  c :: (if IsEnabled (rx_Metrics i) then [buildExporterContainer i targetPort] else []).

Definition pod_manifest (i : Instance) (containers : list Container) (volumes : list Volume)
    (spread : list TopologySpreadConstraint) : PodManifest :=
  let p := rx_PodTemplate i in
  mkPodManifest (pt_SecurityContext p) containers volumes (pt_NodeSelector p) (pt_Tolerations p)
    (pt_PriorityClassName p) spread (im_PullSecrets (rx_Image i)).

Definition pod_template (i : Instance) (owned : gmap string string) (file config : string) (spec : PodManifest)
  : PodTemplate :=
  mkTemplate (podTemplateLabels i owned)
    (podTemplateAnnotations i {[ AnnotationConfigHash := computeConfigHash {[ file := config ]} ]}) spec.

Definition buildStatefulSet (i : Instance) : Workload :=
  mkWorkload (object_meta i (statefulSetName i) (with_component i ComponentRedis)) 1 (serviceName i) 0
    (selectorLabels i)
    (pod_template i (<[labelAppComponent := ComponentRedis]> (selectorLabels i)) fileRedisConf
       (buildRedisConfig ParseQuantity i)
       (pod_manifest i (with_exporter i RedisPort (buildRedisContainer i)) (buildVolumes i)
          (pt_TopologySpreadConstraints (rx_PodTemplate i))))
    (us_Type (rx_UpdateStrategy i)) None false.

Definition min_ready (i : Instance) (own : Z) : Z := default own (us_MinReadySeconds (rx_UpdateStrategy i)).

Definition buildRedisStatefulSetSentinel (i : Instance) (replicas : Z) : Workload :=
  mkWorkload (object_meta i (statefulSetName i) (with_component i ComponentRedis)) replicas (replicasServiceName i)
    (min_ready i 35) (redisSelectorLabels i)
    (pod_template i (redisSelectorLabels i) fileRedisConf (buildRedisConfigSentinel ParseQuantity i)
       (pod_manifest i (with_exporter i RedisPort (buildRedisContainerSentinel i)) (buildVolumes i)
          (pt_TopologySpreadConstraints (rx_PodTemplate i))))
    RollingUpdate None true.

Definition buildSentinelStatefulSet (i : Instance) (replicas : Z) : Workload :=
  mkWorkload (object_meta i (sentinelStatefulSetName i) (with_component i ComponentSentinel)) replicas
    (sentinelServiceName i) 0 (sentinelSelectorLabels i)
    (pod_template i (sentinelSelectorLabels i) "sentinel.conf" (buildSentinelConfig i)
       (pod_manifest i (with_exporter i SentinelPort (buildSentinelContainer i)) (buildSentinelVolumes i)
          (pt_TopologySpreadConstraints (rx_PodTemplate i))))
    RollingUpdate None true.

(** [*failover.Replicas] of a specification without it is a nil dereference: [None]. *)
Definition buildRedisStatefulSetFailover (i : Instance) : option Workload :=
  replicas ← fsp_Replicas (failoverSpecOrDefault i);
  Some (mkWorkload (object_meta i (statefulSetName i) (with_component i ComponentRedis)) (wrap32 (1 + replicas))
    (replicasServiceName i) (min_ready i 15) (redisSelectorLabels i)
    (pod_template i (redisSelectorLabels i) fileRedisConf (buildRedisConfigFailover ParseQuantity i)
       (pod_manifest i (with_exporter i RedisPort (buildRedisContainerFailover i)) (buildFailoverVolumes i)
          (pt_TopologySpreadConstraints (rx_PodTemplate i))))
    RollingUpdate None true).

Definition buildShardSpreadConstraint (i : Instance) (shardIdx : Z) : option TopologySpreadConstraint :=
  whenUnsatisfiable ← lr_WhenUnsatisfiable i;
  Some (mkSpread 1 (or_text (rx_TopologyKey i) DefaultShardTopologyKey)
          (or_text whenUnsatisfiable DefaultShardWhenUnsatisfiable) (clusterShardSelectorLabels i shardIdx)).

Definition stamp_hash (t : PodTemplate) : PodTemplate :=
  mkTemplate (tm_Labels t) (<[AnnotationPodSpecHash := computePodTemplateHash t]> (tm_Annotations t)) (tm_Spec t).

Definition buildClusterShardStatefulSet (i : Instance) (shardIdx : Z) (partition : option Z) : Workload :=
  let rps := cls_ReplicasPerShard (cluster_or_default i) in
  let minReady := match us_MinReadySeconds (rx_UpdateStrategy i) with
                  | Some n => n
                  | None => if (0 <? default 0 rps)%Z then 30 else 0
                  end in
  mkWorkload
    (object_meta i (clusterShardStatefulSetName (lr_Name i) shardIdx)
       (<[LabelShard := clusterShardLabelValue shardIdx]> (with_component i ComponentCluster)))
    (wrap32 (1 + default 0 rps)) (clusterHeadlessServiceName i) minReady (clusterShardSelectorLabels i shardIdx)
    (stamp_hash
       (pod_template i (clusterShardSelectorLabels i shardIdx) fileRedisConf (buildClusterRedisConfig ParseQuantity i)
          (pod_manifest i (with_exporter i RedisPort (buildClusterRedisContainer i)) (buildClusterVolumes i)
             (pt_TopologySpreadConstraints (rx_PodTemplate i) ++
              option_list (buildShardSpreadConstraint i shardIdx)))))
    RollingUpdate partition true.

(** *** Services *)

Definition port_of (name : string) (port : Z) : ServicePort := mkServicePort name port name.

Definition metrics_port (i : Instance) : list ServicePort :=
  if IsEnabled (rx_Metrics i) then [port_of portNameMetrics RedisExporterPort] else [].

Definition prometheus (i : Instance) (annotations : gmap string string) : gmap string string :=
  if IsEnabled (rx_Metrics i) then
    <["prometheus.io/path" := "/metrics"]>
      (<["prometheus.io/port" := itoa RedisExporterPort]> (<["prometheus.io/scrape" := "true"]> annotations))
  else annotations.

Definition serviceAnnotations (i : Instance) : gmap string string :=
  prometheus i (Copy (inheritedAnnotations i) (sv_Annotations (rx_Service i))).

Definition client_labels (i : Instance) : gmap string string := Copy (commonLabels i) (sv_Labels (rx_Service i)).

Definition buildService (i : Instance) : ServiceManifest :=
  mkServiceManifest (mkMeta (serviceName i) (rx_Namespace i) (client_labels i) (serviceAnnotations i))
    (sv_Type (rx_Service i)) "" (selectorLabels i) false (port_of ComponentRedis RedisPort :: metrics_port i).

Definition buildMasterService (i : Instance) : ServiceManifest :=
  mkServiceManifest
    (mkMeta (serviceName i) (rx_Namespace i) (client_labels i)
       (Copy (inheritedAnnotations i) (sv_Annotations (rx_Service i))))
    (sv_Type (rx_Service i)) "" (masterSelectorLabels i) false [port_of ComponentRedis RedisPort].

Definition headless (i : Instance) (name component : string) (annotations : gmap string string)
    (ports : list ServicePort) : ServiceManifest :=
  mkServiceManifest (mkMeta name (rx_Namespace i) (with_component i component) annotations) ServiceTypeClusterIP
    serviceClusterNone (component_labels i component) true ports.

Definition buildReplicasHeadlessService (i : Instance) : ServiceManifest :=
  headless i (replicasServiceName i) ComponentRedis (prometheus i (inheritedAnnotations i))
    (port_of ComponentRedis RedisPort :: metrics_port i).

Definition buildSentinelHeadlessService (i : Instance) : ServiceManifest :=
  headless i (sentinelServiceName i) ComponentSentinel (prometheus i (inheritedAnnotations i))
    (port_of ComponentSentinel SentinelPort :: metrics_port i).

Definition buildClusterHeadlessService (i : Instance) : ServiceManifest :=
  headless i (clusterHeadlessServiceName i) ComponentCluster (inheritedAnnotations i)
    [port_of ComponentRedis RedisPort; port_of portNameClusterBus ClusterBusPort].

Definition buildClusterClientService (i : Instance) : ServiceManifest :=
  mkServiceManifest (mkMeta (serviceName i) (rx_Namespace i) (client_labels i) (serviceAnnotations i))
    (sv_Type (rx_Service i)) "" (clusterSelectorLabels i) false
    (port_of ComponentRedis RedisPort :: metrics_port i).

(** *** ServiceMonitor and budgets *)

Definition buildServiceMonitor (i : Instance) : MonitorManifest :=
  let s := mt_ServiceMonitor (rx_Metrics i) in
  mkMonitor
    (mkMeta (serviceMonitorName i) (or_text (sm_Namespace s) (rx_Namespace i)) (Copy (commonLabels i) (sm_Labels s))
       (inheritedAnnotations i))
    (selectorLabels i) [rx_Namespace i] portNameMetrics (or_text (sm_Interval s) "30s")
    (or_text (sm_ScrapeTimeout s) "10s").

Definition pdbSpec (i : Instance) : option IntOrString * option IntOrString :=
  match pb_MinAvailable (rx_PDB i), pb_MaxUnavailable (rx_PDB i) with
  | Some n, _ => (None, Some n)
  | None, Some n => (Some n, None)
  | None, None => (Some (FromInt 1), None)
  end.

Definition budget (i : Instance) (name : string) (labels selector : gmap string string) : BudgetManifest :=
  mkBudget (object_meta i name labels) (pdbSpec i).1 (pdbSpec i).2 selector.

Definition buildSentinelRedisPDB (i : Instance) : BudgetManifest :=
  budget i (podDisruptionBudgetName i) (commonLabels i) (redisSelectorLabels i).
Definition buildFailoverRedisPDB : Instance → BudgetManifest := buildSentinelRedisPDB.
Definition buildSentinelPDB (i : Instance) : BudgetManifest :=
  budget i (sentinelPodDisruptionBudgetName i) (commonLabels i) (sentinelSelectorLabels i).
Definition buildClusterShardPDB (i : Instance) (shardIdx : Z) : BudgetManifest :=
  budget i (clusterShardPDBName i shardIdx) (<[LabelShard := clusterShardLabelValue shardIdx]> (commonLabels i))
    (clusterShardSelectorLabels i shardIdx).

(** *** ConfigMaps *)

Definition config_map (i : Instance) (name : string) (labels : gmap string string) (file config : string)
  : ConfigMapManifest := mkConfigMap (object_meta i name labels) {[ file := config ]}.

Definition buildConfigMap (i : Instance) : ConfigMapManifest :=
  config_map i (configMapName i) (commonLabels i) fileRedisConf (buildRedisConfig ParseQuantity i).
Definition buildConfigMapSentinelMode (i : Instance) : ConfigMapManifest :=
  config_map i (configMapName i) (with_component i ComponentRedis) fileRedisConf (buildRedisConfigSentinel ParseQuantity i).
Definition buildSentinelConfigMap (i : Instance) : ConfigMapManifest :=
  config_map i (sentinelConfigMapName i) (with_component i ComponentSentinel) "sentinel.conf" (buildSentinelConfig i).
Definition buildConfigMapFailoverMode (i : Instance) : ConfigMapManifest :=
  config_map i (configMapName i) (with_component i ComponentRedis) fileRedisConf (buildRedisConfigFailover ParseQuantity i).
Definition buildClusterConfigMap (i : Instance) : ConfigMapManifest :=
  config_map i (configMapName i) (with_component i ComponentCluster) fileRedisConf (buildClusterRedisConfig ParseQuantity i).

(** *** The manifest behind every resource the handlers apply *)

Definition render (i : Instance) (r : resource) : option object :=
  match r with
  | StandaloneConfigMap => Some (OConfigMap (buildConfigMap i))
  | StandaloneStatefulSet => Some (OWorkload (buildStatefulSet i))
  | StandaloneService => Some (OService (buildService i))
  | SentinelModeConfigMap => Some (OConfigMap (buildConfigMapSentinelMode i))
  | SentinelConfigMap => Some (OConfigMap (buildSentinelConfigMap i))
  | ReplicasHeadlessService => Some (OService (buildReplicasHeadlessService i))
  | SentinelHeadlessService => Some (OService (buildSentinelHeadlessService i))
  | SentinelModeStatefulSet replicas => Some (OWorkload (buildRedisStatefulSetSentinel i replicas))
  | SentinelStatefulSet replicas => Some (OWorkload (buildSentinelStatefulSet i replicas))
  | MasterService => Some (OService (buildMasterService i))
  | SentinelModePDB => Some (OBudget (buildSentinelRedisPDB i))
  | SentinelPDB => Some (OBudget (buildSentinelPDB i))
  | FailoverConfigMap => Some (OConfigMap (buildConfigMapFailoverMode i))
  | FailoverStatefulSet => OWorkload <$> buildRedisStatefulSetFailover i
  | FailoverPDB => Some (OBudget (buildFailoverRedisPDB i))
  | ClusterConfigMap => Some (OConfigMap (buildClusterConfigMap i))
  | ClusterHeadlessService => Some (OService (buildClusterHeadlessService i))
  | ClusterClientService => Some (OService (buildClusterClientService i))
  | ClusterShardStatefulSet k partition => Some (OWorkload (buildClusterShardStatefulSet i k partition))
  | ClusterShardPDB k => Some (OBudget (buildClusterShardPDB i k))
  | ServiceMonitor => Some (OMonitor (buildServiceMonitor i))
  end.

End Build.

(** *** What the theorems speak of *)

(** The modes a resource is applied in. *)
Definition applied_in (r : resource) : list string :=
  match r with
  | StandaloneConfigMap | StandaloneStatefulSet | StandaloneService => [DefaultMode]
  | SentinelModeConfigMap | SentinelConfigMap | SentinelHeadlessService | SentinelModeStatefulSet _
  | SentinelStatefulSet _ | SentinelModePDB | SentinelPDB => [ModeSentinel]
  | ReplicasHeadlessService | MasterService => [ModeSentinel; ModeFailover]
  | FailoverConfigMap | FailoverStatefulSet | FailoverPDB => [ModeFailover]
  | ClusterConfigMap | ClusterHeadlessService | ClusterClientService | ClusterShardStatefulSet _ _ | ClusterShardPDB _ =>
      [ModeCluster]
  | ServiceMonitor => [DefaultMode; ModeSentinel; ModeFailover; ModeCluster]
  end.

Definition workload_labels (w : Workload) : gmap string string := tm_Labels (wl_Template w).
Definition workload_pod (w : Workload) : PodManifest := tm_Spec (wl_Template w).
Definition pod_ports (p : PodManifest) : list ContainerPort := pm_Containers p ≫= ct_Ports.

(** Every mount names a volume, and no name is used twice. *)
Definition pod_wf (p : PodManifest) : Prop :=
  NoDup (vo_Name <$> pm_Volumes p) ∧
  NoDup (ct_Name <$> pm_Containers p) ∧
  NoDup (cp_Name <$> pod_ports p) ∧ NoDup (cp_Port <$> pod_ports p) ∧
  Forall (λ c, NoDup (ct_Env c).*1 ∧ NoDup (vm_Path <$> ct_Mounts c) ∧
               Forall (λ m, vm_Name m ∈ (vo_Name <$> pm_Volumes p)) (ct_Mounts c)) (pm_Containers p).

(** The owned labels of a workload, by the resource it comes from. *)
Definition owned_labels (i : Instance) (r : resource) : option (gmap string string) :=
  match r with
  | StandaloneStatefulSet => Some (<[labelAppComponent := ComponentRedis]> (selectorLabels i))
  | SentinelModeStatefulSet _ | FailoverStatefulSet => Some (redisSelectorLabels i)
  | SentinelStatefulSet _ => Some (sentinelSelectorLabels i)
  | ClusterShardStatefulSet k _ => Some (clusterShardSelectorLabels i k)
  | _ => None
  end.

Definition component_of (r : resource) : string :=
  match r with
  | SentinelStatefulSet _ => ComponentSentinel
  | ClusterShardStatefulSet _ _ => ComponentCluster
  | _ => ComponentRedis
  end.

Definition shard_of (r : resource) : option Z :=
  match r with ClusterShardStatefulSet k _ => Some k | _ => None end.

(** The Services of a mode, and those of them that expose metrics. *)
Definition services (i : Instance) (mode : string) : list ServiceManifest :=
  if mode =? ModeSentinel then [buildReplicasHeadlessService i; buildSentinelHeadlessService i; buildMasterService i]
  else if mode =? ModeFailover then [buildReplicasHeadlessService i; buildMasterService i]
  else if mode =? ModeCluster then [buildClusterHeadlessService i; buildClusterClientService i]
  else [buildService i].

Definition scraped (s : ServiceManifest) : bool := bool_decide (portNameMetrics ∈ (sp_Name <$> sr_Ports s)).

(** The labels of a running pod: those of its template and the role the operator gave it. *)
Definition pod_labels (w : Workload) (role : option string) : gmap string string :=
  match role with Some r => <[LabelRole := r]> (workload_labels w) | None => workload_labels w end.

Definition services_selecting (i : Instance) (mode : string) (labels : gmap string string) : list ServiceManifest :=
  bfilter (λ s, scraped s && bool_decide (selects (sr_Selector s) labels)) (services i mode).

(** ** Lemmas *)

(** The five StatefulSets among the resources; the other resources render to something else. *)
Ltac workload_cases r :=
  destruct r; cbn [render]; try discriminate;
  [intros [= <-]..
  |unfold buildRedisStatefulSetFailover; destruct (fsp_Replicas _); [|discriminate]; intros [= <-]
  |intros [= <-]].

Ltac open_workload :=
  cbn [workload_pod wl_Template wl_Selector wl_Meta pod_template tm_Spec tm_Annotations pod_manifest pm_Volumes pm_Containers
       buildStatefulSet buildRedisStatefulSetSentinel buildSentinelStatefulSet buildClusterShardStatefulSet stamp_hash].

Section Shape.
Context (ParseQuantity : string → option Z) (sha256_hex : string → string) (marshal : PodTemplate → option string).
Notation render := (render ParseQuantity sha256_hex marshal).

(** The operator's labels and the selector of a workload. *)
Record shape (i : Instance) (r : resource) (w : Workload) : Prop := mkShape {
  shape_owned : ∃ owned, owned_labels i r = Some owned ∧ workload_labels w = podTemplateLabels i owned ∧
                         selects (wl_Selector w) owned;
  shape_structural : structural (wl_Selector w);
}.

Lemma shape_same i r w owned : owned_labels i r = Some owned → workload_labels w = podTemplateLabels i owned →
  wl_Selector w = owned → structural owned → shape i r w.
Proof. intros Ho Hl Hs Hst. split; [exists owned; split_and!; [exact Ho|exact Hl|rewrite Hs; reflexivity]|by rewrite Hs]. Qed.

Lemma render_shape i r w : render i r = Some (OWorkload w) → shape i r w.
Proof.
  destruct r; cbn [Workloads.render]; try discriminate.
  - intros [= <-]. split; [|exact (structural_instance i)].
    eexists; split; [reflexivity|split; [reflexivity|]]. unfold selects.
    apply insert_subseteq. unfold selectorLabels. absent_key.
  - intros [= <-]. eapply shape_same; [reflexivity..|exact (structural_component i _)].
  - intros [= <-]. eapply shape_same; [reflexivity..|exact (structural_component i _)].
  - unfold buildRedisStatefulSetFailover. destruct (fsp_Replicas _); [|discriminate]. cbn [mbind option_bind fmap option_fmap option_map]. intros [= <-].
    eapply shape_same; [reflexivity..|exact (structural_component i _)].
  - intros [= <-]. eapply shape_same; [reflexivity..|exact (structural_shard i _)].
Qed.

Definition standalone (r : resource) : bool := match r with StandaloneStatefulSet => true | _ => false end.

Lemma selector_spec i r w n : render i r = Some (OWorkload w) →
  selects (wl_Selector w) n ↔
  n !! labelAppName = Some (appNameFor i) ∧ n !! labelAppInstance = Some (lr_Name i) ∧
  (if standalone r then True else n !! labelAppComponent = Some (component_of r)) ∧
  match shard_of r with Some k => n !! LabelShard = Some (clusterShardLabelValue k) | None => True end.
Proof.
  workload_cases r; open_workload; cbn [standalone component_of shard_of];
    rewrite ?instance_selects, ?shard_selects; unfold redisSelectorLabels, sentinelSelectorLabels, clusterSelectorLabels;
    rewrite ?component_selects; naive_solver.
Qed.
End Shape.

Ltac label_lookup :=
  unfold clusterShardSelectorLabels, clusterSelectorLabels, redisSelectorLabels, sentinelSelectorLabels,
    component_labels, selectorLabels;
  repeat first [rewrite lookup_insert_eq; reflexivity|rewrite lookup_insert_ne by discriminate|apply lookup_empty].

Lemma owned_lookup i r owned : owned_labels i r = Some owned →
  owned !! labelAppName = Some (appNameFor i) ∧ owned !! labelAppInstance = Some (lr_Name i) ∧
  owned !! labelAppComponent = Some (component_of r) ∧
  owned !! LabelShard = clusterShardLabelValue <$> shard_of r ∧ owned !! LabelRole = None.
Proof. destruct r; cbn [owned_labels component_of shard_of]; try discriminate; intros [= <-]; split_and!; label_lookup. Qed.

Definition suffix_of (r : resource) : string :=
  match r with
  | SentinelStatefulSet _ => "-sentinel"
  | ClusterShardStatefulSet k _ => "-shard-" +:+ itoa k
  | _ => "-redis"
  end.

Section Together.
Context (ParseQuantity : string → option Z) (sha256_hex : string → string) (marshal : PodTemplate → option string).
Notation render := (render ParseQuantity sha256_hex marshal).

Lemma name_spec i r w : render i r = Some (OWorkload w) → om_Name (wl_Meta w) = lr_Name i +:+ suffix_of r.
Proof. workload_cases r; reflexivity. Qed.

Definition is_workload (r : resource) : bool :=
  match r with
  | StandaloneStatefulSet | SentinelModeStatefulSet _ | SentinelStatefulSet _ | FailoverStatefulSet
  | ClusterShardStatefulSet _ _ => true
  | _ => false
  end.

Lemma render_kind i r w : render i r = Some (OWorkload w) → is_workload r = true.
Proof. by destruct r. Qed.

(** Workloads of one mode have one name if and only if the labels one selects are the other's. *)
Lemma suffix_spec r r' mode :
  is_workload r = true → is_workload r' = true → mode ∈ applied_in r → mode ∈ applied_in r' →
  suffix_of r = suffix_of r' ↔
  (if standalone r then True else component_of r = component_of r') ∧
  match shard_of r with Some k => shard_of r' = Some k | None => True end.
Proof.
  intros Hr Hr' Hm Hm'.
  destruct r, r'; try discriminate Hr; try discriminate Hr';
    cbn [applied_in] in Hm, Hm'; rewrite list_elem_of_singleton in Hm, Hm'; subst mode; try discriminate;
    cbn [suffix_of standalone component_of shard_of]; split; try done; try (by intros []).
  - intros H. split; [done|]. f_equal. symmetry. apply itoa_inj. by apply (inj (String.append "-shard-")).
  - by intros [_ [= ->]].
Qed.

Lemma running_lookup i r w role : render i r = Some (OWorkload w) →
  pod_labels w role !! labelAppName = Some (appNameFor i) ∧ pod_labels w role !! labelAppInstance = Some (lr_Name i) ∧
  pod_labels w role !! labelAppComponent = Some (component_of r) ∧
  pod_labels w role !! LabelShard = clusterShardLabelValue <$> shard_of r ∧ pod_labels w role !! LabelRole = role.
Proof.
  intros Hw. destruct (render_shape _ _ _ _ _ _ Hw) as [(owned & Ho & Hl & _) _].
  assert (Hk : ∀ k, isStructuralLabelKey k = true → workload_labels w !! k = owned !! k).
  { intros k Hk%structural_key. by rewrite Hl, template_lookup. }
  destruct (owned_lookup _ _ _ Ho) as (Hn & Hi & Hc & Hsh & Hro).
  assert (Hp : ∀ k, isStructuralLabelKey k = true → k ≠ LabelRole → pod_labels w role !! k = owned !! k).
  { intros k Hs Hne. rewrite <- Hk by done. unfold pod_labels. destruct role; [by rewrite lookup_insert_ne|done]. }
  rewrite !Hp by (reflexivity || discriminate). split_and!; [done..|].
  unfold pod_labels. destruct role; [apply lookup_insert_eq|]. by rewrite Hk.
Qed.
End Together.

(** ** Properties *)

(** C23.  Each StatefulSet selects its own pods and no others: among the workloads of a mode,
    of any two instances, whatever labels the users put on the resources and on
    [spec.podTemplate] and whatever role the operator has labelled a pod with, the selector of
    one matches a pod of the other exactly if it is the same instance (name and application
    name) and the same StatefulSet. *)
Theorem workload_selects_its_pods ParseQuantity sha256_hex marshal (i j : Instance) r r' w w' mode role :
  render ParseQuantity sha256_hex marshal i r = Some (OWorkload w) →
  render ParseQuantity sha256_hex marshal j r' = Some (OWorkload w') →
  mode ∈ applied_in r → mode ∈ applied_in r' →
  selects (wl_Selector w) (pod_labels w' role) ↔
  appNameFor i = appNameFor j ∧ lr_Name i = lr_Name j ∧ om_Name (wl_Meta w) = om_Name (wl_Meta w').
Proof.
  intros Hw Hw' Hm Hm'. rewrite (selector_spec _ _ _ _ _ _ _ Hw).
  destruct (running_lookup _ _ _ _ _ _ role Hw') as (-> & -> & -> & -> & _).
  rewrite (name_spec _ _ _ _ _ _ Hw), (name_spec _ _ _ _ _ _ Hw').
  pose proof (suffix_spec r r' mode (render_kind _ _ _ _ _ _ Hw) (render_kind _ _ _ _ _ _ Hw') Hm Hm') as Hs.
  assert (Hshard : (match shard_of r with
                    | Some k => clusterShardLabelValue <$> shard_of r' = Some (clusterShardLabelValue k)
                    | None => True end) ↔ match shard_of r with Some k => shard_of r' = Some k | None => True end).
  { destruct (shard_of r) as [k|], (shard_of r') as [k'|]; try done. cbn.
    split; [intros [= He%itoa_inj]; by subst|by intros [= ->]]. }
  assert (Hcomp : (if standalone r then True else Some (component_of r') = Some (component_of r)) ↔
                  if standalone r then True else component_of r = component_of r').
  { destruct (standalone r); [done|]. split; [by intros [= ->]|by intros ->]. }
  rewrite Hcomp, Hshard. split.
  - intros ([= ->] & [= ->] & Hc & Hk). split_and!; [done..|]. f_equal. by apply Hs.
  - intros (-> & Hn & Hsuf). rewrite Hn in Hsuf |- *. apply (inj (String.append _)) in Hsuf. by apply Hs in Hsuf as [??].
Qed.

(**  Which pods the master Service routes to: those of the data workloads of its own
    instance that the operator has labelled as master, and no others.  A new pod carries no role
    label, so it receives no client traffic before the operator has assigned it. *)
Theorem master_service_routes ParseQuantity sha256_hex marshal (i j : Instance) r w role :
  render ParseQuantity sha256_hex marshal j r = Some (OWorkload w) →
  selects (sr_Selector (buildMasterService i)) (pod_labels w role) ↔
  appNameFor i = appNameFor j ∧ lr_Name i = lr_Name j ∧ component_of r = ComponentRedis ∧ role = Some RoleMaster.
Proof.
  intros Hw. cbn [sr_Selector buildMasterService]. rewrite master_selects. unfold redisSelectorLabels.
  rewrite component_selects. destruct (running_lookup _ _ _ _ _ _ role Hw) as (-> & -> & -> & _ & ->).
  split; intros; destruct_and?; split_and!; congruence.
Qed.

Lemma services_standalone i : services i DefaultMode = [buildService i].
Proof. reflexivity. Qed.
Lemma services_sentinel i :
  services i ModeSentinel = [buildReplicasHeadlessService i; buildSentinelHeadlessService i; buildMasterService i].
Proof. reflexivity. Qed.
Lemma services_failover i : services i ModeFailover = [buildReplicasHeadlessService i; buildMasterService i].
Proof. reflexivity. Qed.
Lemma services_cluster i : services i ModeCluster = [buildClusterHeadlessService i; buildClusterClientService i].
Proof. reflexivity. Qed.

Ltac services_of := rewrite ?services_standalone, ?services_sentinel, ?services_failover, ?services_cluster.
Tactic Notation "services_of" "in" hyp(H) :=
  rewrite ?services_standalone, ?services_sentinel, ?services_failover, ?services_cluster in H.

Section WellFormed.
Context (ParseQuantity : string → option Z) (sha256_hex : string → string) (marshal : PodTemplate → option string).
Notation render := (render ParseQuantity sha256_hex marshal).

Lemma workload_pod_wf i r w : render i r = Some (OWorkload w) → pod_wf (workload_pod w).
Proof.
  workload_cases r;
    unfold pod_wf, pod_ports; open_workload;
    unfold with_exporter, buildFailoverVolumes, buildVolumes, buildSentinelVolumes, buildClusterVolumes, mounted_volumes,
      buildExporterContainer, buildRedisContainer, buildRedisContainerSentinel, buildSentinelContainer,
      buildRedisContainerFailover, buildClusterRedisContainer, tls_mounts, auth_env, separate_ca;
    destruct (IsEnabled _), (lr_AuthEnabled _), (tls_Enabled _); try destruct (tls_CACertSecret _ =? "");
    try destruct (tls_CACertSecret _ =? tls_ExistingSecret _); split_and!; decide_true.
Qed.

Definition port_names (w : Workload) : list string := cp_Name <$> pod_ports (workload_pod w).

(** The named ports of a pod, by its component. *)
Definition component_ports (i : Instance) (r : resource) : list string :=
  match r with
  | SentinelStatefulSet _ => [ComponentSentinel]
  | ClusterShardStatefulSet _ _ => [ComponentRedis; portNameClusterBus]
  | _ => [ComponentRedis]
  end ++ (if IsEnabled (rx_Metrics i) then [portNameMetrics] else []).

Lemma port_names_spec i r w : render i r = Some (OWorkload w) → port_names w = component_ports i r.
Proof.
  workload_cases r;
    unfold port_names, component_ports, pod_ports; open_workload;
    unfold with_exporter; destruct (IsEnabled _); reflexivity.
Qed.

Lemma component_routes i r w role c : render i r = Some (OWorkload w) →
  selects (component_labels i c) (pod_labels w role) ↔ component_of r = c.
Proof.
  intros Hw. rewrite component_selects. destruct (running_lookup _ _ _ _ _ _ role Hw) as (-> & -> & -> & _).
  split; [by intros (_ & _ & [=])|by intros <-].
Qed.

Lemma instance_routes i r w role : render i r = Some (OWorkload w) →
  selects (selectorLabels i) (pod_labels w role) ↔ True.
Proof.
  intros Hw. rewrite instance_selects. by destruct (running_lookup _ _ _ _ _ _ role Hw) as (-> & -> & _).
Qed.

Lemma master_routes i r w role : render i r = Some (OWorkload w) →
  selects (masterSelectorLabels i) (pod_labels w role) ↔ component_of r = ComponentRedis ∧ role = Some RoleMaster.
Proof.
  intros Hw. rewrite master_selects. unfold redisSelectorLabels. rewrite component_routes by done.
  by destruct (running_lookup _ _ _ _ _ _ role Hw) as (_ & _ & _ & _ & ->).
Qed.

Lemma service_ports_exist i r w mode role s : render i r = Some (OWorkload w) → mode ∈ applied_in r →
  s ∈ services i mode → selects (sr_Selector s) (pod_labels w role) →
  Forall (λ p, sp_TargetPort p ∈ port_names w) (sr_Ports s).
Proof.
  intros Hw Hm Hs Hsel. rewrite (port_names_spec _ _ _ Hw).
  pose proof (render_kind _ _ _ _ _ _ Hw) as Hk.
  destruct r; try discriminate Hk; cbn [applied_in] in Hm; apply list_elem_of_singleton in Hm as ->;
    services_of in Hs; rewrite ?elem_of_cons, ?elem_of_nil in Hs; destruct_or?; try done;
    subst s; cbn [sr_Selector headless buildReplicasHeadlessService buildSentinelHeadlessService buildMasterService] in Hsel;
    try (rewrite (component_routes _ _ _ _ _ Hw) in Hsel; discriminate Hsel);
    try (rewrite (master_routes _ _ _ _ Hw) in Hsel; destruct Hsel as [Hsel _]; discriminate Hsel);
    unfold component_ports; cbn [sr_Ports headless buildService buildReplicasHeadlessService buildSentinelHeadlessService
      buildMasterService buildClusterHeadlessService buildClusterClientService]; unfold metrics_port;
    destruct (IsEnabled _); decide_true.
Qed.

(** The Service that governs the DNS names of the pods is there and selects them. *)
Lemma governing_service i r w mode role : render i r = Some (OWorkload w) → mode ∈ applied_in r →
  ∃ s, s ∈ services i mode ∧ om_Name (sr_Meta s) = wl_ServiceName w ∧ selects (sr_Selector s) (pod_labels w role).
Proof.
  intros Hw Hm. pose proof (render_kind _ _ _ _ _ _ Hw) as Hk.
  destruct r; try discriminate Hk; cbn [applied_in] in Hm; apply list_elem_of_singleton in Hm as ->;
    services_of; pose proof Hw as Hw0; cbn [Workloads.render] in Hw.
  - injection Hw as <-. exists (buildService i). split; [by left|split; [done|]]. by apply (instance_routes _ _ _ _ Hw0).
  - injection Hw as <-. exists (buildReplicasHeadlessService i). split; [by left|split; [done|]]. by apply (component_routes _ _ _ _ _ Hw0).
  - injection Hw as <-. exists (buildSentinelHeadlessService i). split; [by right; left|split; [done|]]. by apply (component_routes _ _ _ _ _ Hw0).
  - exists (buildReplicasHeadlessService i). split; [by left|]. split; [|by apply (component_routes _ _ _ _ _ Hw0)].
    clear Hw0. revert Hw. unfold buildRedisStatefulSetFailover. destruct (fsp_Replicas _); [|discriminate]. by intros [= <-].
  - injection Hw as <-. exists (buildClusterHeadlessService i). split; [by left|split; [done|]]. by apply (component_routes _ _ _ _ _ Hw0).
Qed.

Lemma annotation_owned i k v : podTemplateAnnotations i {[ k := v ]} !! k = Some v.
Proof. unfold podTemplateAnnotations. rewrite Copy_lookup. by rewrite lookup_singleton_eq. Qed.

(** The resource of the ConfigMap a workload mounts. *)
Definition config_of (r : resource) : resource :=
  match r with
  | StandaloneStatefulSet => StandaloneConfigMap
  | SentinelModeStatefulSet _ => SentinelModeConfigMap
  | SentinelStatefulSet _ => SentinelConfigMap
  | FailoverStatefulSet => FailoverConfigMap
  | _ => ClusterConfigMap
  end.

(** The ConfigMap behind the volume of a workload, with the hash stamped on its pods. *)
Definition mounts_config (i : Instance) (r : resource) (w : Workload) : Prop :=
  ∃ c, render i (config_of r) = Some (OConfigMap c) ∧
    applied_in (config_of r) = applied_in r ∧
    mkVolume volNameConfig (FromConfigMap (om_Name (cm_Meta c))) ∈ pm_Volumes (workload_pod w) ∧
    tm_Annotations (wl_Template w) !! AnnotationConfigHash = Some (computeConfigHash sha256_hex (cm_Data c)).

Lemma workload_config i r w : render i r = Some (OWorkload w) → mounts_config i r w.
Proof.
  unfold mounts_config. workload_cases r; cbn [config_of applied_in];
    eexists; (split; [reflexivity|split; [reflexivity|split; [by left|]]]);
    open_workload; rewrite ?lookup_insert_ne by discriminate; apply annotation_owned.
Qed.
End WellFormed.

(** C24.  Every pod the operator renders is complete, in every mode: its volume, container, port and
    environment names are distinct and each mount has its volume; the ConfigMap it mounts is
    applied in the same modes and the pod carries the hash of exactly that data, so a changed
    configuration changes the template; the Service that governs its StatefulSet is there and
    selects it; and each Service that selects it targets only ports it has. *)
Theorem rendered_pods_complete ParseQuantity sha256_hex marshal (i : Instance) r w mode role :
  render ParseQuantity sha256_hex marshal i r = Some (OWorkload w) → mode ∈ applied_in r →
  pod_wf (workload_pod w) ∧
  mounts_config ParseQuantity sha256_hex marshal i r w ∧
  (∃ s, s ∈ services i mode ∧ om_Name (sr_Meta s) = wl_ServiceName w ∧ selects (sr_Selector s) (pod_labels w role)) ∧
  ∀ s, s ∈ services i mode → selects (sr_Selector s) (pod_labels w role) →
       Forall (λ p, sp_TargetPort p ∈ port_names w) (sr_Ports s).
Proof.
  intros Hw Hm. split_and!.
  - by eapply workload_pod_wf.
  - by eapply workload_config.
  - by eapply governing_service.
  - intros s Hs Hsel. by eapply service_ports_exist.
Qed.

Lemma monitored_labels i s : s ∈ services i (lr_Mode i) →
  sv_Labels (rx_Service i) !! labelAppName = None → sv_Labels (rx_Service i) !! labelAppInstance = None →
  selects (mo_Selector (buildServiceMonitor i)) (om_Labels (sr_Meta s)).
Proof.
  intros Hs Hn Hi. cbn [mo_Selector buildServiceMonitor]. rewrite instance_selects.
  assert (Hc : commonLabels i !! labelAppName = Some (appNameFor i) ∧ commonLabels i !! labelAppInstance = Some (lr_Name i)).
  { unfold commonLabels, objectLabels. rewrite !Copy_lookup. split; label_lookup. }
  assert (Hcl : client_labels i !! labelAppName = Some (appNameFor i) ∧ client_labels i !! labelAppInstance = Some (lr_Name i)).
  { unfold client_labels. rewrite !Copy_lookup, Hn, Hi. exact Hc. }
  assert (Hwc : ∀ c, with_component i c !! labelAppName = Some (appNameFor i) ∧
                     with_component i c !! labelAppInstance = Some (lr_Name i)).
  { intros c. unfold with_component. rewrite !lookup_insert_ne by discriminate. exact Hc. }
  revert Hs. unfold services. repeat case_match; rewrite ?elem_of_cons, elem_of_nil;
    intros; destruct_or?; try done; subst s; first [exact Hcl|exact (Hwc _)].
Qed.

Lemma scraped_ports s (i : Instance) p : IsEnabled (rx_Metrics i) = true → sr_Ports s = p :: metrics_port i → scraped s = true.
Proof.
  intros He Hp. unfold scraped, metrics_port in *. rewrite Hp, He. apply bool_decide_eq_true_2. by right; left.
Qed.

Lemma one_scraped ParseQuantity sha256_hex marshal (i : Instance) r w role mode :
  render ParseQuantity sha256_hex marshal i r = Some (OWorkload w) → mode ∈ applied_in r →
  IsEnabled (rx_Metrics i) = true →
  ∃ s, services_selecting i mode (pod_labels w role) = [s].
Proof.
  intros Hw Hm He.
  assert (Hrep : scraped (buildReplicasHeadlessService i) = true) by (by eapply scraped_ports).
  assert (Hsen : scraped (buildSentinelHeadlessService i) = true) by (by eapply scraped_ports).
  assert (Hsvc : scraped (buildService i) = true) by (by eapply scraped_ports).
  assert (Hcli : scraped (buildClusterClientService i) = true) by (by eapply scraped_ports).
  assert (Hmas : scraped (buildMasterService i) = false) by reflexivity.
  assert (Hhea : scraped (buildClusterHeadlessService i) = false) by reflexivity.
  assert (Hcomp : ∀ c, bool_decide (selects (component_labels i c) (pod_labels w role)) = (component_of r =? c)).
  { intros c. apply (eq_bool_prop_intro _ _). rewrite bool_decide_spec. rewrite (component_routes _ _ _ _ _ _ _ _ Hw). by rewrite Is_true_true, String.eqb_eq. }
  pose proof (bool_decide_eq_true_2 _ (proj2 (instance_routes _ _ _ _ _ _ role Hw) I)) as Hinst.
  unfold services_selecting. pose proof (render_kind _ _ _ _ _ _ Hw) as Hk.
  destruct r; try discriminate Hk; cbn [applied_in] in Hm; apply list_elem_of_singleton in Hm as ->; services_of;
    unfold bfilter; cbn [List.filter]; rewrite ?Hrep, ?Hsen, ?Hsvc, ?Hcli, ?Hmas, ?Hhea; cbn [andb];
    cbn [sr_Selector headless buildReplicasHeadlessService buildSentinelHeadlessService buildService
         buildClusterClientService]; unfold clusterSelectorLabels; rewrite ?Hcomp, ?Hinst; by eexists.
Qed.

(**  With metrics enabled every pod is scraped once: exactly one Service of its mode exposes
    the metrics port and selects it, whatever its role, and the ServiceMonitor selects that
    Service unless [spec.service.labels] replaces the operator's name or instance label on it. *)
Theorem pods_scraped_once ParseQuantity sha256_hex marshal (i : Instance) r w role :
  render ParseQuantity sha256_hex marshal i r = Some (OWorkload w) → lr_Mode i ∈ applied_in r →
  IsEnabled (rx_Metrics i) = true →
  ∃ s, services_selecting i (lr_Mode i) (pod_labels w role) = [s] ∧
       (sv_Labels (rx_Service i) !! labelAppName = None → sv_Labels (rx_Service i) !! labelAppInstance = None →
        selects (mo_Selector (buildServiceMonitor i)) (om_Labels (sr_Meta s))).
Proof.
  intros Hw Hm He.
  assert (∃ s, services_selecting i (lr_Mode i) (pod_labels w role) = [s]) as [s Hs].
  { by eapply one_scraped. }
  exists s. split; [done|]. intros Hn Hi. apply monitored_labels; [|done..].
  assert (s ∈ services_selecting i (lr_Mode i) (pod_labels w role)) as [? _]%elem_of_bfilter by (rewrite Hs; by left). done.
Qed.

(**  What the exporter beside each server scrapes: a port of its own pod, except in the pods of
    the Sentinels under TLS, where its address is rewritten to the Redis port, on which nothing
    in that pod listens. *)
Theorem exporter_target ParseQuantity sha256_hex marshal (i : Instance) r w :
  render ParseQuantity sha256_hex marshal i r = Some (OWorkload w) → IsEnabled (rx_Metrics i) = true →
  ∃ c port,
    c ∈ pm_Containers (workload_pod w) ∧ ct_Name c = containerNameExporter ∧
    (envRedisAddr, Value ((if tls_Enabled (lr_TLS i) then "rediss" else "redis") +:+ "://localhost:" +:+ itoa port))
      ∈ ct_Env c ∧
    (port ∈ (cp_Port <$> pod_ports (workload_pod w)) ↔
     tls_Enabled (lr_TLS i) = false ∨ component_of r ≠ ComponentSentinel).
Proof.
  intros Hw He.
  exists (buildExporterContainer i (if component_of r =? ComponentSentinel then SentinelPort else RedisPort)),
    (if tls_Enabled (lr_TLS i) then RedisPort else if component_of r =? ComponentSentinel then SentinelPort else RedisPort).
  split; [|split; [reflexivity|split]].
  - revert Hw. workload_cases r;
      open_workload;
      unfold with_exporter; rewrite He; by right; left.
  - cbn [ct_Env buildExporterContainer]. unfold exporter_address. destruct (tls_Enabled (lr_TLS i)); by left.
  - assert (Hports : cp_Port <$> pod_ports (workload_pod w) =
      match component_of r with
      | "sentinel" => [SentinelPort; RedisExporterPort]
      | "cluster" => [RedisPort; ClusterBusPort; RedisExporterPort]
      | _ => [RedisPort; RedisExporterPort]
      end).
    { revert Hw. workload_cases r;
        unfold pod_ports; open_workload;
        unfold with_exporter; rewrite He; reflexivity. }
    rewrite Hports. pose proof (render_kind _ _ _ _ _ _ Hw) as Hk.
    destruct r; try discriminate Hk; destruct (tls_Enabled (lr_TLS i));
      (split; [intros H; first [by left|by right|exfalso; revert H; apply (bool_decide_unpack _); vm_compute; exact I]
              |intros H; first [by apply (bool_decide_unpack _)|by destruct H]]).
Qed.

(** The handler of a mode applies the objects of that mode. *)
Lemma handler_applies `{GoRuntime} pdbCreate metered stored d tr o :
  handler_call pdbCreate metered stored d tr (Apply o) →
  (lr_Mode d = ModeCluster → d = mark_valid (SetDefaults stored) ∧
     ∃ cluster, lr_Cluster d = Some cluster ∧ cls_Shards cluster ≤ totalClusterSlots) →
  lr_Mode d ∈ applied_in o.
Proof.
  unfold handler_call. intros Hc Hcl.
  destruct (String.eqb_spec (lr_Mode d) ModeStandalone) as [Hm|_].
  { rewrite Hm. destruct o; try discriminate Hc; by left. }
  destruct (String.eqb_spec (lr_Mode d) ModeSentinel) as [Hm|_].
  { rewrite Hm. destruct o; try (exfalso; exact Hc); cbn [applied_in]; rewrite ?elem_of_cons; tauto. }
  destruct (String.eqb_spec (lr_Mode d) ModeCluster) as [Hm|_].
  { rewrite Hm. destruct (Hcl Hm) as (Hd & cluster & Hs & Hb). specialize (Hc cluster Hd Hs Hb).
    destruct Hc as [(_ & gt & facts & _ & _ & Hw)|[_ Hw]]; destruct o; try (exfalso; exact Hw);
      cbn [applied_in]; rewrite ?elem_of_cons; tauto. }
  destruct (String.eqb_spec (lr_Mode d) ModeFailover) as [Hm|_]; [|discriminate Hc].
  rewrite Hm. destruct o; try (exfalso; exact Hc); cbn [applied_in]; rewrite ?elem_of_cons; tauto.
Qed.

(** Every object a pass of the operator applies is one of the mode of the resource it handles,
    after that resource has been read and has passed its checks: so the pods, Services and
    selectors of an instance are those of one mode, and the theorems on the rendered objects
    apply to what is deployed.  Cluster mode is covered for resources that did not come from
    the re-read at the bootstrap and have at most as many shards as there are slots. *)
Theorem pass_applies_its_mode `{GoRuntime} hmac retries ns desiredHash pdbCreate metered wired lo tr r tr1 o x tr2 :
  run (Reconcile hmac retries ns desiredHash pdbCreate metered wired lo) tr r →
  tr = tr1 ++ existT (Apply o) x :: tr2 →
  ∃ stored d, admitted tr1 stored ∧ handed tr1 stored d ∧
    ((lr_Mode d = ModeCluster → d = mark_valid (SetDefaults stored) ∧
        ∃ cluster, lr_Cluster d = Some cluster ∧ cls_Shards cluster ≤ totalClusterSlots) →
     lr_Mode d ∈ applied_in o).
Proof.
  intros Hrun Htr.
  destruct (proj2 (traced_run _ _ _ [] tr r (Reconcile_traced hmac retries ns desiredHash pdbCreate metered wired lo) Hrun)
    tr1 (Apply o) x tr2 Htr eq_refl) as [[]|(stored & d & Ha & Hh & Hc)].
  exists stored, d. split; [done|]. split; [done|]. by eapply handler_applies.
Qed.

(** ** Concrete instances *)

Definition example_cluster : Instance := bare_instance "lr" ModeCluster (mkTLSSpec true "certs" "ca" true).
Definition example_sentinel : Instance := bare_instance "lr" ModeSentinel (mkTLSSpec true "certs" "ca" true).
Definition example_shard (k : Z) : Workload :=
  buildClusterShardStatefulSet (λ _, None) (λ s, s) (λ _, Some "{}") example_cluster k None.
Definition example_data : Workload :=
  buildRedisStatefulSetSentinel (λ _, None) (λ s, s) example_sentinel 3.
Definition example_sentinels : Workload := buildSentinelStatefulSet (λ s, s) example_sentinel 3.

Lemma workload_selects_its_pods_witness :
  selects (wl_Selector (example_shard 0)) (pod_labels (example_shard 0) (Some "master")) ∧
  ¬ selects (wl_Selector (example_shard 0)) (pod_labels (example_shard 1) None).
Proof.
  split.
  - apply (workload_selects_its_pods (λ _, None) (λ s, s) (λ _, Some "{}") example_cluster example_cluster
      (ClusterShardStatefulSet 0 None) (ClusterShardStatefulSet 0 None) (example_shard 0) (example_shard 0) ModeCluster
      (Some "master") eq_refl eq_refl); [by left..|done].
  - intros H. apply (workload_selects_its_pods (λ _, None) (λ s, s) (λ _, Some "{}") example_cluster example_cluster
      (ClusterShardStatefulSet 0 None) (ClusterShardStatefulSet 1 None) (example_shard 0) (example_shard 1) ModeCluster
      None eq_refl eq_refl) in H as (_ & _ & H); [|by left..]. discriminate H.
Defined.

Lemma master_service_routes_witness :
  selects (sr_Selector (buildMasterService example_sentinel)) (pod_labels example_data (Some RoleMaster)) ∧
  ¬ selects (sr_Selector (buildMasterService example_sentinel)) (pod_labels example_data None).
Proof.
  split.
  - apply (master_service_routes (λ _, None) (λ s, s) (λ _, Some "{}") example_sentinel example_sentinel
      (SentinelModeStatefulSet 3) example_data (Some RoleMaster) eq_refl). done.
  - intros H. apply (master_service_routes (λ _, None) (λ s, s) (λ _, Some "{}") example_sentinel example_sentinel
      (SentinelModeStatefulSet 3) example_data None eq_refl) in H as (_ & _ & _ & H). discriminate H.
Defined.

Lemma rendered_pods_complete_witness :
  mounts_config (λ _, None) (λ s, s) (λ _, Some "{}") example_cluster (ClusterShardStatefulSet 0 None) (example_shard 0) ∧
  port_names (example_shard 0) = ["redis"; "cluster-bus"; "metrics"].
Proof.
  split; [|vm_compute; reflexivity].
  apply (rendered_pods_complete (λ _, None) (λ s, s) (λ _, Some "{}") example_cluster (ClusterShardStatefulSet 0 None)
    (example_shard 0) ModeCluster None eq_refl). by left.
Defined.

Lemma pods_scraped_once_witness :
  ∃ s, services_selecting example_sentinel ModeSentinel (pod_labels example_data (Some RoleMaster)) = [s] ∧
       selects (mo_Selector (buildServiceMonitor example_sentinel)) (om_Labels (sr_Meta s)).
Proof.
  destruct (pods_scraped_once (λ _, None) (λ s, s) (λ _, Some "{}") example_sentinel (SentinelModeStatefulSet 3)
    example_data (Some RoleMaster) eq_refl ltac:(by left) eq_refl) as (s & Hs & Hm).
  exists s. split; [exact Hs|]. apply Hm; vm_compute; reflexivity.
Defined.

Lemma exporter_target_witness :
  ∃ c port, c ∈ pm_Containers (workload_pod example_sentinels) ∧ ct_Name c = containerNameExporter ∧
    (envRedisAddr, Value ("rediss://localhost:" +:+ itoa port)) ∈ ct_Env c ∧
    port ∉ (cp_Port <$> pod_ports (workload_pod example_sentinels)).
Proof.
  destruct (exporter_target (λ _, None) (λ s, s) (λ _, Some "{}") example_sentinel (SentinelStatefulSet 3)
    example_sentinels eq_refl eq_refl) as (c & port & Hc & Hn & Ha & Hp).
  exists c, port. split; [exact Hc|split; [exact Hn|split; [exact Ha|]]].
  intros H. apply Hp in H as [H|H]; [discriminate H|by apply H].
Defined.

Lemma pass_applies_its_mode_witness :
  ∃ tr1 x tr2, mem_trace standalone_server sample_reconcile = tr1 ++ existT (Apply StandaloneStatefulSet) x :: tr2 ∧
    ∃ stored d, admitted tr1 stored ∧ handed tr1 stored d.
Proof.
  destruct (call_at (mem_trace standalone_server sample_reconcile) 2 (Apply StandaloneStatefulSet)) as (tr1 & x & tr2 & He).
  { vm_compute. reflexivity. }
  exists tr1, x, tr2. split; [exact He|].
  destruct (@pass_applies_its_mode ref_runtime sample_hmac 4 "ns" (λ _ _, "h") (λ _, None) (λ _, false) true idle _ _
    tr1 StandaloneStatefulSet x tr2 (mem_run_trace standalone_server sample_reconcile) He) as (stored & d & Ha & Hh & _).
  exists stored, d. split; [exact Ha|exact Hh].
Defined.
