(* ===== verification/WatchScope.v ===== *)
(** * The namespaces an operator watches (src/internal/watchscope/watchscope.go)

    Two environment variables scope an operator to some namespaces, or to all but some.  They
    are parsed into the options of the manager's cache and the name of the lease on which the
    replicas of this operator elect their leader.  SHA-256, printed in hexadecimal, is the
    argument [sha256_hex]. *)

From Stdlib Require Import Ascii.
From S2P Require Import Prelude GoStrings Probe ClusterState ReplicationTypes Info.

Open Scope Z_scope.
Open Scope go_scope.

(** ** Definitions *)

Definition BaseLeaderElectionID : string := "64adfe7c.chuck-chuck-chuck.net".
Definition namespaceFieldSelector : string := "metadata.namespace".
Definition leaseSuffixLen : nat := 8.

Definition ErrBothSet : string :=
  "WATCH_NAMESPACE (allow-list) and IGNORE_NAMESPACE (deny-list) are mutually exclusive; set at most one".

Inductive Mode := ModeNone | ModeAllow | ModeDeny.

Definition mode_text (m : Mode) : string :=
  match m with ModeNone => "none" | ModeAllow => "allow" | ModeDeny => "deny" end.

Record Config := mkScopeConfig {
  sc_Mode : Mode;
  sc_Namespaces : list string;
  sc_LeaderElectionID : string;
}.

(** The loop with its map [seen]. *)
Fixpoint split_round (seen : gset string) (parts : list string) : list string :=
  match parts with
  | [] => []
  | part :: parts' =>
      let ns := trim_space part in
      if (ns =? "") || bool_decide (ns ∈ seen) then split_round seen parts'
      else ns :: split_round ({[ns]} ∪ seen) parts'
  end.

Definition splitNamespaces (raw : string) : list string :=
  sort_strings (split_round ∅ (split_on ","%char raw)).

(** [s[:n]] *)
Fixpoint str_take (n : nat) (s : string) : string :=
  match n, s with
  | S n', String c s' => String c (str_take n' s')
  | _, _ => EmptyString
  end.

Section Hash.
Context (sha256_hex : string → string).

Definition deriveLeaseID (mode : Mode) (namespaces : list string) : string :=
  let h := sha256_hex (mode_text mode +:+ String "000" (str_join "," namespaces)) in
  BaseLeaderElectionID +:+ "-" +:+ mode_text mode +:+ "-" +:+ str_take leaseSuffixLen h.

Definition Parse (watchNamespace ignoreNamespace : string) : Config + string :=
  let watch := splitNamespaces watchNamespace in
  let ignore := splitNamespaces ignoreNamespace in
  match watch, ignore with
  | _ :: _, _ :: _ => inr ErrBothSet
  | _ :: _, [] => inl (mkScopeConfig ModeAllow watch (deriveLeaseID ModeAllow watch))
  | [], _ :: _ => inl (mkScopeConfig ModeDeny ignore (deriveLeaseID ModeDeny ignore))
  | [], [] => inl (mkScopeConfig ModeNone [] BaseLeaderElectionID)
  end.
End Hash.

(** The options of controller-runtime's cache: the namespaces it is restricted to, and the
    terms [field != value] that every object must satisfy. *)
Record CacheOptions := mkCacheOptions {
  co_DefaultNamespaces : option (gset string);
  co_DefaultFieldSelector : list (string * string);
}.

Definition cacheOptions (c : Config) : CacheOptions :=
  match sc_Mode c with
  | ModeAllow => mkCacheOptions (Some (list_to_set (sc_Namespaces c))) []
  | ModeDeny => mkCacheOptions None ((λ ns, (namespaceFieldSelector, ns)) <$> sc_Namespaces c)
  | ModeNone => mkCacheOptions None []
  end.

(** What a cache with these options holds of an object in the namespace [ns]. *)
Definition caches (o : CacheOptions) (ns : string) : Prop :=
  match co_DefaultNamespaces o with Some s => ns ∈ s | None => True end ∧
  Forall (λ term, term.1 = namespaceFieldSelector → ns ≠ term.2) (co_DefaultFieldSelector o).

(** ** Lemmas *)

(** The namespaces a variable names. *)
Definition scope_names (raw : string) : gset string :=
  list_to_set (bfilter (λ ns, negb (ns =? "")) (trim_space <$> split_on ","%char raw)).

Lemma elem_of_split_round parts ns : ∀ seen,
  ns ∈ split_round seen parts ↔ ns ≠ "" ∧ ns ∉ seen ∧ ns ∈ trim_space <$> parts.
Proof.
  induction parts as [|p parts IH]; intros seen; cbn [split_round fmap list_fmap].
  { rewrite !elem_of_nil. naive_solver. }
  rewrite elem_of_cons. destruct (String.eqb_spec (trim_space p) "") as [He|Hne]; cbn [orb].
  { rewrite IH, He. naive_solver. }
  case_bool_decide as Hs; [rewrite IH; naive_solver|]. rewrite elem_of_cons, IH.
  rewrite not_elem_of_union, not_elem_of_singleton.
  destruct (decide (ns = trim_space p)) as [->|]; naive_solver.
Qed.

Lemma NoDup_split_round parts : ∀ seen, NoDup (split_round seen parts).
Proof.
  induction parts as [|p parts IH]; intros seen; cbn [split_round]; [constructor|].
  case_match; [apply IH|]. constructor; [|apply IH]. rewrite elem_of_split_round. set_solver.
Qed.

Lemma elem_of_splitNamespaces raw ns : ns ∈ splitNamespaces raw ↔ ns ∈ scope_names raw.
Proof.
  unfold splitNamespaces, scope_names. rewrite sort_strings_perm, elem_of_split_round, elem_of_list_to_set, elem_of_bfilter.
  rewrite negb_true_iff, String.eqb_neq. set_solver.
Qed.

(** The list is determined by the set of names. *)
Lemma splitNamespaces_names raw raw' : scope_names raw = scope_names raw' → splitNamespaces raw = splitNamespaces raw'.
Proof.
  intros He. unfold splitNamespaces. apply sort_strings_proper.
  apply NoDup_Permutation; [apply NoDup_split_round..|]. intros ns.
  rewrite <- (sort_strings_perm (split_round ∅ (split_on "," raw))), <- (sort_strings_perm (split_round ∅ (split_on "," raw'))).
  fold (splitNamespaces raw) (splitNamespaces raw'). by rewrite !elem_of_splitNamespaces, He.
Qed.

Lemma splitNamespaces_nil raw : splitNamespaces raw = [] ↔ scope_names raw = ∅.
Proof.
  split; intros He.
  - apply set_eq. intros ns. rewrite <- elem_of_splitNamespaces, He. set_solver.
  - apply elem_of_nil_inv. intros ns. rewrite elem_of_splitNamespaces, He. set_solver.
Qed.

(** ** Properties *)

(** C38. The scope of an operator.  The configuration is refused exactly if both variables name a
    namespace.  Otherwise the cache holds the objects of exactly the namespaces that
    [WATCH_NAMESPACE] names, or of all but those that [IGNORE_NAMESPACE] names; what is blank,
    empty, repeated or in another order makes no difference to the configuration, lease
    included; and operators in different modes never share a lease. *)
Theorem watch_scope sha256_hex (watch ignore watch' ignore' : string) :
  (Parse sha256_hex watch ignore = inr ErrBothSet ↔ scope_names watch ≠ ∅ ∧ scope_names ignore ≠ ∅) ∧
  (∀ c, Parse sha256_hex watch ignore = inl c → ∀ ns,
     caches (cacheOptions c) ns ↔ (scope_names watch = ∅ ∨ ns ∈ scope_names watch) ∧ ns ∉ scope_names ignore) ∧
  (scope_names watch = scope_names watch' → scope_names ignore = scope_names ignore' →
     Parse sha256_hex watch ignore = Parse sha256_hex watch' ignore') ∧
  (∀ c c', Parse sha256_hex watch ignore = inl c → Parse sha256_hex watch' ignore' = inl c' →
     sc_LeaderElectionID c = sc_LeaderElectionID c' → sc_Mode c = sc_Mode c').
Proof.
  split_and!.
  - unfold Parse. rewrite <- !splitNamespaces_nil.
    destruct (splitNamespaces watch), (splitNamespaces ignore); naive_solver.
  - intros c Hc ns. rewrite <- splitNamespaces_nil, <- !elem_of_splitNamespaces. unfold Parse in Hc.
    destruct (splitNamespaces watch) as [|w ws] eqn:Hw, (splitNamespaces ignore) as [|g gs] eqn:Hg;
      [injection Hc as <-..|discriminate]; unfold caches; cbn [cacheOptions sc_Mode co_DefaultNamespaces co_DefaultFieldSelector sc_Namespaces].
    + set_solver.
    + rewrite Forall_fmap, Forall_forall. cbn. set_solver.
    + rewrite elem_of_list_to_set. set_solver.
  - intros Hw Hi. unfold Parse. by rewrite (splitNamespaces_names _ _ Hw), (splitNamespaces_names _ _ Hi).
  - intros c c' Hc Hc'. unfold Parse in *.
    destruct (splitNamespaces watch), (splitNamespaces ignore), (splitNamespaces watch'), (splitNamespaces ignore');
      try discriminate; injection Hc as <-; injection Hc' as <-; cbn [sc_LeaderElectionID sc_Mode]; done.
Qed.
