(* ===== verification/Discovery.v ===== *)
(** * Finding the pods of an instance (src/internal/cli/discovery/discovery.go,
    src/internal/cli/types/types.go)

    The command-line tool [lrctl] finds the pods of an instance by the labels the operator
    renders, or, for an instance without a custom resource, by the names that the known charts
    and operators give their pods.  Reads of the Kubernetes API are arguments: the result of the
    [Get], and the [List] of one namespace as a function of the label selector. *)

From Stdlib Require Import Ascii.
From S2P Require Import Prelude GoStrings Probe ClusterState ReplicationTypes Info.
From S2P Require Import Kube OperationWiring ClusterRepair Controller Spec Metadata RedisConf Workloads.

Open Scope Z_scope.
Open Scope go_scope.

(** ** Definitions *)

(** A container of a pod's spec. *)
Record SpecContainer := mkSpecContainer {
  ct_Name : string;
  ct_Image : string;
}.

(** A pod as the tool reads it: the parts the operator reads too, its phase, and the
    containers of its spec. *)
Record CliPod := mkCliPod {
  cp_Pod : Pod;
  cp_Phase : string;
  cp_Containers : list SpecContainer;
}.

Definition cp_Name (p : CliPod) : string := pod_Name (cp_Pod p).
Definition cp_IP (p : CliPod) : string := pod_IP (cp_Pod p).

Record ClusterContext := mkClusterContext {
  cc_Name : string;
  cc_Namespace : string;
  cc_Mode : string;
  cc_SentinelMasterName : string;
  cc_RedisPods : list CliPod;
  cc_SentinelPods : list CliPod;
  cc_RedisContainer : string;
  cc_SentinelContainer : string;
}.

Definition GetRedisIPs (c : ClusterContext) : list string :=
  bfilter (λ ip, negb (ip =? "")) (cp_IP <$> cc_RedisPods c).

Definition containerRedis : string := "redis".
Definition containerSentinel : string := "sentinel".

(** *** Managed instances *)

Definition getFromCR (get : LittleRed + string)
  (list_pods : gmap string string → list CliPod + string) (namespace name : string)
  : ClusterContext + string :=
  match get with
  | inr err => inr ("failed to get LittleRed CR: " +:+ err)
  | inl lr =>
      match list_pods {[ "app.kubernetes.io/instance" := name ]} with
      | inr err => inr err
      | inl items =>
          let comp p := at_key (pod_Labels (cp_Pod p)) "app.kubernetes.io/component" in
          inl (mkClusterContext name namespace (lr_Mode lr) (SentinelMasterName lr)
                 (bfilter (λ p, (comp p =? containerRedis) || (comp p =? "cluster")) items)
                 (bfilter (λ p, comp p =? containerSentinel) items)
                 containerRedis containerSentinel)
      end
  end.

(** *** Unmanaged instances *)

(** What follows the prefix [p], if [s] has it. *)
Definition after_prefix (p s : string) : option string :=
  if has_prefix s p then Some (str_drop (String.length p) s) else None.

(** [[0-9]+] and [[a-z0-9]+] of the whole of a string. *)
Definition is_digit (c : ascii) : bool := bool_decide (is_Some (Ascii.is_nat c)).
Definition is_lower_alnum (c : ascii) : bool :=
  is_digit c || ((97 <=? nat_of_ascii c)%nat && (nat_of_ascii c <=? 122)%nat).

Fixpoint str_forallb (f : ascii → bool) (s : string) : bool :=
  match s with EmptyString => true | String c s' => f c && str_forallb f s' end.

Definition one_or_more (f : ascii → bool) (s : string) : bool := negb (s =? "") && str_forallb f s.

(** [^<prefix>[0-9]+$] *)
Definition numbered_name (prefix s : string) : bool := from_option (one_or_more is_digit) false (after_prefix prefix s).

Definition dash : ascii := "-"%char.

Definition cpRegex (name s : string) : bool := numbered_name (name +:+ "-redis-") s.
Definition bitnamiRegex (name s : string) : bool :=
  numbered_name (name +:+ "-redis-node-") s || numbered_name (name +:+ "-redis-cluster-") s
  || numbered_name (name +:+ "-master-") s.
Definition clusterRegex (name s : string) : bool := numbered_name (name +:+ "-cluster-") s.

(** Digits, a dash, digits: the first dash is the only one. *)
Definition shardRegex (name s : string) : bool :=
  match split2_on dash <$> after_prefix (name +:+ "-shard-") s with
  | Some [shard; ordinal] => one_or_more is_digit shard && one_or_more is_digit ordinal
  | _ => false
  end.
Definition shRedisRegex (name s : string) : bool := numbered_name ("rfr-" +:+ name +:+ "-") s.
Definition shSentinelRegex (name s : string) : bool :=
  match split2_on dash <$> after_prefix ("rfs-" +:+ name +:+ "-") s with
  | Some [one] => one_or_more is_lower_alnum one
  | Some [one; two] => one_or_more is_lower_alnum one && one_or_more is_lower_alnum two
  | _ => false
  end.

Definition detectContainer (pod : CliPod) (keywords : list string) (fallback : string) : string :=
  match cp_Containers pod with
  | [] => fallback
  | [c] => ct_Name c
  | c0 :: _ =>
      match List.find (λ c, existsb (λ kw, str_contains (to_lower (ct_Name c)) kw) keywords)
              (cp_Containers pod) with
      | Some c => ct_Name c
      | None => ct_Name c0
      end
  end.

(** The state of the loop: the context, [foundRedis] and [foundSentinel]. *)
Record search := mkFound {
  fd_ctx : ClusterContext;
  fd_redis : bool;
  fd_sentinel : bool;
}.

Definition add_redis (f : search) (pod : CliPod) : search :=
  let c := fd_ctx f in
  mkFound (mkClusterContext (cc_Name c) (cc_Namespace c) (cc_Mode c) (cc_SentinelMasterName c)
             (cc_RedisPods c ++ [pod]) (cc_SentinelPods c)
             (if fd_redis f then cc_RedisContainer c
              else detectContainer pod [containerRedis; "valkey"; "cluster"] containerRedis)
             (cc_SentinelContainer c)) true (fd_sentinel f).

Definition add_sentinel (f : search) (pod : CliPod) (container : string) : search :=
  let c := fd_ctx f in
  mkFound (mkClusterContext (cc_Name c) (cc_Namespace c) (cc_Mode c) (cc_SentinelMasterName c)
             (cc_RedisPods c) (cc_SentinelPods c ++ [pod]) (cc_RedisContainer c)
             (if fd_sentinel f then cc_SentinelContainer c else container))
    (fd_redis f) true.

Definition isRedisPod (name s : string) : bool :=
  cpRegex name s || bitnamiRegex name s || clusterRegex name s || shardRegex name s
  || shRedisRegex name s.

Definition discover_pod (name : string) (f : search) (pod : CliPod) : search :=
  let isSentinel := shSentinelRegex name (cp_Name pod) in
  let f1 :=
    if isRedisPod name (cp_Name pod) then
      let f' := add_redis f pod in
      if isSentinel then f'
      else match List.find (λ c, str_contains (to_lower (ct_Name c)) containerSentinel)
                   (cp_Containers pod) with
           | Some c => add_sentinel f' pod (ct_Name c)
           | None => f'
           end
    else f in
  if isSentinel then add_sentinel f1 pod (detectContainer pod [containerSentinel] containerSentinel)
  else f1.

Definition discoverUnmanaged (list_pods : gmap string string → list CliPod + string)
  (namespace name mode : string) : ClusterContext + string :=
  match list_pods ∅ with
  | inr err => inr err
  | inl items =>
      let start := mkFound (mkClusterContext name namespace mode "" [] [] "" "") false false in
      let c := fd_ctx (foldl (discover_pod name) start items) in
      match cc_RedisPods c, cc_SentinelPods c with
      | [], [] => inr ("could not find any pods matching CloudPirates, Bitnami, Cluster, or Spotahome patterns for "
                       +:+ Quote name +:+ " in namespace " +:+ Quote namespace)
      | _, _ => inl (mkClusterContext name namespace mode "" (cc_RedisPods c) (cc_SentinelPods c)
                       (or_text (cc_RedisContainer c) containerRedis)
                       (or_text (cc_SentinelContainer c) containerSentinel))
      end
  end.

Definition GetContext (get : LittleRed + string)
  (list_pods : gmap string string → list CliPod + string) (namespace name mode : string)
  (unmanaged : bool) : ClusterContext + string :=
  if negb unmanaged then getFromCR get list_pods namespace name
  else discoverUnmanaged list_pods namespace name mode.

(** *** The master name (src/cmd/lrctl/cmd/master_name.go) *)

Definition masterNameOf (c : ClusterContext) : string :=
  or_text (cc_SentinelMasterName c) LegacySentinelMasterName.

(** ** Lemmas *)

(** The API server's [List] with [MatchingLabels]: the pods whose labels the selector matches. *)
Definition lists (all : list CliPod) (list_pods : gmap string string → list CliPod + string) : Prop :=
  ∀ selector, list_pods selector =
    inl (bfilter (λ p, bool_decide (selects selector (pod_Labels (cp_Pod p)))) all).

Lemma selects_singleton k v labels : selects {[ k := v ]} labels ↔ labels !! k = Some v.
Proof. apply map_singleton_subseteq_l. Qed.

Lemma after_prefix_app p s : after_prefix p (p +:+ s) = Some s.
Proof.
  unfold after_prefix. by rewrite has_prefix_app, str_drop_app.
Qed.

Lemma one_or_more_itoa z : 0 ≤ z → one_or_more is_digit (itoa z) = true.
Proof.
  intros Hz. pose proof (all_digits_itoa z Hz) as Hd. rewrite itoa_nonneg in * by done.
  pose proof (pretty_N_ne_empty (Z.to_N z)) as Hne. unfold one_or_more. apply andb_true_iff. split.
  { by apply negb_true_iff, String.eqb_neq. }
  clear Hne. induction (pretty (Z.to_N z)) as [|c s IH]; [done|]. destruct Hd as [Hc Hd]. cbn [str_forallb].
  rewrite IH by done. unfold is_digit. rewrite bool_decide_eq_true_2; [done|by apply not_eq_None_Some].
Qed.

Lemma numbered_itoa p z : 0 ≤ z → numbered_name p (p +:+ itoa z) = true.
Proof. intros Hz. unfold numbered_name. rewrite after_prefix_app. by apply one_or_more_itoa. Qed.

Lemma split2_on_app c a b : byte_free c a → split2_on c (a +:+ String c b) = [a; b].
Proof.
  induction a as [|x a IH]; [intros _; cbn [split2_on]|intros [Hx Ha]; rewrite app_cons; cbn [split2_on]].
  { change ("" +:+ String c b) with (String c b). cbn [split2_on]. by rewrite Ascii.eqb_refl. }
  rewrite IH by done. by rewrite (proj2 (Ascii.eqb_neq x c) Hx).
Qed.

(** The pods the operator creates bear names the heuristics know: the data pods of the modes
    without shards, and those of a shard. *)
Lemma operator_names_recognised name k m : 0 ≤ k → 0 ≤ m →
  isRedisPod name (name +:+ "-redis-" +:+ itoa m) = true ∧
  isRedisPod name (name +:+ "-shard-" +:+ itoa k +:+ "-" +:+ itoa m) = true.
Proof.
  intros Hk Hm. unfold isRedisPod. split; rewrite !orb_true_iff.
  - do 4 left. unfold cpRegex. rewrite <- string_app_assoc. by apply numbered_itoa.
  - left; right. unfold shardRegex. rewrite <- string_app_assoc, after_prefix_app. cbn [fmap option_fmap option_map].
    change (itoa k +:+ "-" +:+ itoa m) with (itoa k +:+ String dash (itoa m)).
    rewrite split2_on_app by (apply all_digits_free; [done|by apply all_digits_itoa]).
    by rewrite !one_or_more_itoa.
Qed.

(** ** Properties *)

(** The tool finds what the operator creates.  For an instance whose custom resource can be
    read, a pod of one of the StatefulSets the operator renders, whatever role it has been
    labelled with and whatever labels the user added, is among the data pods exactly if the
    StatefulSet is this instance's and is not that of the Sentinels, and among the Sentinel pods
    exactly if it is this instance's Sentinel StatefulSet; the tool asks the Sentinels about the
    name the operator registers. *)
Theorem managed_discovery ParseQuantity sha256_hex marshal (i j : Instance) r w role
  (all : list CliPod) list_pods namespace (p : CliPod) :
  lists all list_pods →
  render ParseQuantity sha256_hex marshal j r = Some (OWorkload w) →
  p ∈ all → pod_Labels (cp_Pod p) = pod_labels w role →
  ∃ c, GetContext (inl (in_lr i)) list_pods namespace (lr_Name i) (lr_Mode i) false = inl c ∧
    (p ∈ cc_RedisPods c ↔ lr_Name i = lr_Name j ∧ component_of r ≠ ComponentSentinel) ∧
    (p ∈ cc_SentinelPods c ↔ lr_Name i = lr_Name j ∧ component_of r = ComponentSentinel) ∧
    masterNameOf c = SentinelMasterName i.
Proof.
  intros Hl Hw Hp Hlab. unfold GetContext, getFromCR. cbn [negb].
  rewrite (Hl {["app.kubernetes.io/instance" := lr_Name i]}).
  eexists; split; [reflexivity|]. cbn [cc_RedisPods cc_SentinelPods].
  destruct (running_lookup _ _ _ _ _ _ role Hw) as (_ & Hi & Hc & _).
  rewrite <- Hlab in Hi, Hc.
  assert (Hin : p ∈ bfilter (λ p, bool_decide (selects {["app.kubernetes.io/instance" := lr_Name i]}
                       (pod_Labels (cp_Pod p)))) all ↔ lr_Name i = lr_Name j).
  { rewrite elem_of_bfilter, bool_decide_eq_true, selects_singleton.
    change "app.kubernetes.io/instance" with labelAppInstance. rewrite Hi.
    split; [by intros [_ [= ->]]|by intros ->]. }
  rewrite !(elem_of_bfilter _ (bfilter _ _)), Hin. unfold at_key.
  change "app.kubernetes.io/component" with labelAppComponent. rewrite Hc. cbn [default from_option].
  split; [|split].
  - destruct r; cbn [component_of]; naive_solver.
  - rewrite String.eqb_eq. done.
  - unfold masterNameOf, or_text. cbn [cc_SentinelMasterName]. unfold SentinelMasterName.
    destruct (lr_Sentinel _) as [s|]; [|done]. destruct (ssp_MasterName s =? "") eqn:E; cbn [negb]; [done|by rewrite E].
Qed.

(** *** Witnesses *)

(** The master of the example instance, and the API server's answer where it is the only pod. *)
Definition example_master : CliPod :=
  mkCliPod (mkPod "cache-redis-0" "10.0.0.1" false ∅ (pod_labels example_data (Some "master")) [] None true) "Running" [].

Definition example_pods : list CliPod :=
  [example_master].

Definition example_listing (selector : gmap string string) : list CliPod + string :=
  inl (bfilter (λ p, bool_decide (selects selector (pod_Labels (cp_Pod p)))) example_pods).

Lemma managed_discovery_witness : ∃ c p,
  GetContext (inl (in_lr example_sentinel)) example_listing "ns" (lr_Name example_sentinel) (lr_Mode example_sentinel) false = inl c ∧
  p ∈ cc_RedisPods c ∧ p ∉ cc_SentinelPods c.
Proof.
  destruct (managed_discovery (λ _, None) (λ s, s) (λ _, Some "{}") example_sentinel example_sentinel
    (SentinelModeStatefulSet 3) example_data (Some "master") example_pods example_listing "ns"
    example_master)
    as (c & Hc & Hr & Hs & _).
  - intros selector. reflexivity.
  - reflexivity.
  - by apply list_elem_of_singleton.
  - reflexivity.
  - exists c, example_master.
    split; [exact Hc|]. split; [apply Hr; split; [reflexivity|discriminate]|].
    intros H%Hs. destruct H as [_ H]. discriminate H.
Defined.
