(* ===== verification/Analyze.v ===== *)
(** * Verification of failover-mode instances (src/internal/cli/failover/analyze.go and
    src/cmd/lrctl/cmd/verify_failover.go)

    [lrctl verify] re-derives the operator's intent from the assignment annotations, compares it
    with the observed replication state and classifies what it finds.  The functions mirror
    those of [FailoverIntent] without sharing code with them; the properties relate the two. *)

From Stdlib Require Import Ascii.
From S2P Require Import Prelude GoStrings Probe ClusterState ReplicationTypes Info.
From S2P Require Import Lineage ReplicationState Recovery FailoverIntent Gather Kube FailoverEngine.
From S2P Require Import Discovery.

Open Scope Z_scope.
Open Scope go_scope.

(** ** Definitions *)

Record PodView := mkPodView {
  vw_Name : string;
  vw_IP : string;
  vw_Phase : string;
  vw_Ready : bool;
  vw_Restarted : bool;
  vw_Terminating : bool;
  vw_RoleLabel : string;
  vw_HasAssignment : bool;
  vw_AssignedRole : string;
  vw_AssignedMasterIP : string;
  vw_Epoch : Z;
}.

Record Intent := mkIntent {
  it_MasterName : string;
  it_MasterIP : string;
  it_MasterEpoch : Z;
  it_MaxEpoch : Z;
}.

Inductive Severity := SeverityFail | SeverityWarn.

Definition severity_text (s : Severity) : string :=
  match s with SeverityFail => "FAIL" | SeverityWarn => "WARN" end.

Record Finding := mkFinding {
  fg_Severity : Severity;
  fg_Message : string;
}.

Record Analysis := mkAnalysis {
  an_Intent : Intent;
  an_AuthorityPod : string;
  an_AuthorityIP : string;
  an_Parked : list string;
  an_Findings : list Finding;
}.

Definition is_fail (f : Finding) : bool :=
  match fg_Severity f with SeverityFail => true | SeverityWarn => false end.

Definition Failed (a : Analysis) : bool := existsb is_fail (an_Findings a).
Definition Degraded (a : Analysis) : bool := negb (Failed a) && (0 <? len (an_Findings a))%Z.
Definition Healthy (a : Analysis) : bool := (len (an_Findings a) =? 0)%Z.

Definition add_finding (sev : Severity) (a : Analysis) (msg : string) : Analysis :=
  mkAnalysis (an_Intent a) (an_AuthorityPod a) (an_AuthorityIP a) (an_Parked a)
    (an_Findings a ++ [mkFinding sev msg]).
Definition fail : Analysis → string → Analysis := add_finding SeverityFail.
Definition warn : Analysis → string → Analysis := add_finding SeverityWarn.

(** The verb [%v] of a slice of strings. *)
Definition slice_text (l : list string) : string := "[" +:+ str_join " " l +:+ "]".

(** *** The intent *)

Definition intent_round (intent : Intent) (p : PodView) : Intent :=
  if negb (vw_HasAssignment p) then intent
  else
    let maxEpoch := if (it_MaxEpoch intent <? vw_Epoch p)%Z then vw_Epoch p else it_MaxEpoch intent in
    if negb (vw_AssignedRole p =? RoleMaster)
    then mkIntent (it_MasterName intent) (it_MasterIP intent) (it_MasterEpoch intent) maxEpoch
    else if (it_MasterName intent =? "") || (it_MasterEpoch intent <? vw_Epoch p)%Z
            || ((vw_Epoch p =? it_MasterEpoch intent)%Z && (vw_Name p <? it_MasterName intent))
    then mkIntent (vw_Name p) (vw_IP p) (vw_Epoch p) maxEpoch
    else mkIntent (it_MasterName intent) (it_MasterIP intent) (it_MasterEpoch intent) maxEpoch.

Definition resolveIntent (pods : list PodView) : Intent := foldl intent_round (mkIntent "" "" 0 0) pods.

(** *** The checks *)

(** A master assignment on a pod that is not the intended master. *)
Definition other_master (intent : Intent) (p : PodView) : bool :=
  negb (negb (vw_HasAssignment p) || negb (vw_AssignedRole p =? RoleMaster)
        || (vw_Name p =? it_MasterName intent)).

Definition checkAssignmentRecord (pods : list PodView) (anyAssignment : bool) (a : Analysis) : Analysis :=
  let i := an_Intent a in
  let a1 :=
    if negb anyAssignment then
      fail a "no assignment annotations on any pod (instance not yet bootstrapped, or the intent record died with the pods)"
    else if it_MasterName i =? "" then
      fail a "no master assignment on any pod (the master intent died with its pod; the operator should re-elect)"
    else a in
  let others := bfilter (other_master i) pods in
  let dupSame := sort_strings (vw_Name <$> bfilter (λ p, vw_Epoch p =? it_MasterEpoch i)%Z others) in
  let dupStale := sort_strings ((λ p, vw_Name p +:+ "@" +:+ itoa (vw_Epoch p)) <$>
    bfilter (λ p, negb (vw_Epoch p =? it_MasterEpoch i)%Z && negb (vw_Terminating p)) others) in
  let a2 :=
    match dupSame with
    | [] => a1
    | _ => fail a1 ("duplicate master assignment at epoch " +:+ itoa (it_MasterEpoch i) +:+ " on " +:+
             slice_text dupSame +:+ " (intent is ambiguous; tie-broken to " +:+ it_MasterName i +:+ ")")
    end in
  foldl (λ a d, warn a ("stale master assignment on " +:+ d +:+ " (superseded by " +:+ it_MasterName i +:+
                        "@" +:+ itoa (it_MasterEpoch i) +:+ ", not yet re-stamped)")) a2 dupStale.

(** [rn != nil && rn.Reachable] *)
Definition answers (s : ReplicationState) (ip : string) : bool :=
  from_option rn_Reachable false (rs_RedisNodes s !! ip).

Definition computeAuthority (s : ReplicationState) (anyAssignment : bool) (a : Analysis) : Analysis :=
  let i := an_Intent a in
  if negb (it_MasterIP i =? "") &&
     from_option (λ rn, rn_Reachable rn && (rn_Role rn =? RoleMaster)) false (rs_RedisNodes s !! it_MasterIP i)
  then mkAnalysis i (it_MasterName i) (it_MasterIP i) (an_Parked a) (an_Findings a)
  else if negb anyAssignment || (it_MasterName i =? "") then a
  else
    let reason := "intended master " +:+ it_MasterName i +:+ " " +:+
      (match rs_RedisNodes s !! it_MasterIP i with
       | Some rn => if rn_Reachable rn then "reports role:" +:+ rn_Role rn else "is unreachable"
       | None => "is unreachable"
       end) in
    fail a ("no authority master (" +:+ reason +:+ "; transition in flight or awaiting operator recovery)").

(** The comparison of a reachable pod with the authority master. *)
Definition check_follow (p : PodView) (rn : RedisNodeState) (a : Analysis) : Analysis :=
  if vw_IP p =? an_AuthorityIP a then a
  else if rn_Role rn =? RoleMaster then
    fail a ("pod " +:+ vw_Name p +:+ " is a straggler: reports role:master but the authority master is " +:+
            an_AuthorityPod a +:+ " (must be repointed)")
  else if negb (rn_MasterHost rn =? an_AuthorityIP a) then
    fail a ("replica " +:+ vw_Name p +:+ " follows the wrong master " +:+ rn_MasterHost rn +:+
            " (authority master is " +:+ an_AuthorityPod a +:+ " at " +:+ an_AuthorityIP a +:+ ")")
  else if negb (rn_LinkStatus rn =? "up") then
    warn a ("replica " +:+ vw_Name p +:+
            " follows the authority master but link:down (transient resync, reduced redundancy)")
  else a.

Definition check_label (p : PodView) (a : Analysis) : Analysis :=
  if (vw_RoleLabel p =? RoleMaster) && negb (vw_IP p =? an_AuthorityIP a) then
    fail a ("pod " +:+ vw_Name p +:+ " carries the master role label but the authority master is " +:+
            an_AuthorityPod a +:+ " (the master Service routes traffic to a non-master)")
  else if (vw_IP p =? an_AuthorityIP a) && negb (vw_RoleLabel p =? RoleMaster) then
    fail a ("authority master " +:+ vw_Name p +:+
            " does not carry the master role label (the master Service is not routing to it)")
  else a.

Definition parked (s : ReplicationState) (p : PodView) : bool :=
  negb (answers s (vw_IP p)) && vw_HasAssignment p && negb (vw_Ready p) && vw_Restarted p.

Definition checkPod (s : ReplicationState) (anyAssignment : bool) (a : Analysis) (p : PodView) : Analysis :=
  if vw_Terminating p || (vw_IP p =? "") then a
  else if parked s p then
    warn (mkAnalysis (an_Intent a) (an_AuthorityPod a) (an_AuthorityIP a) (an_Parked a ++ [vw_Name p])
            (an_Findings a))
      ("pod " +:+ vw_Name p +:+ " is PARKED (assignment epoch " +:+ itoa (vw_Epoch p) +:+
       " consumed; not-Ready, restarted, redis-server not running — waiting for an operator epoch bump)")
  else if negb (vw_HasAssignment p) && anyAssignment then
    warn a ("pod " +:+ vw_Name p +:+ " has no assignment yet (fresh pod awaiting operator authorization)")
  else match rs_RedisNodes s !! vw_IP p with
  | Some rn =>
      if negb (rn_Reachable rn)
      then warn a ("pod " +:+ vw_Name p +:+ " is unreachable (reduced redundancy)")
      else if an_AuthorityIP a =? "" then a
      else check_label p (check_follow p rn a)
  | None => warn a ("pod " +:+ vw_Name p +:+ " is unreachable (reduced redundancy)")
  end.

Section Loops.
Context `{GoRuntime}.

Definition checkLineage (s : ReplicationState) (a : Analysis) : Analysis :=
  let holders := DataHolders s in
  if (len holders <? 2)%Z then a
  else
    let '(_, diverged, _) := BestDataHolder s in
    if diverged then
      fail a ("data holders " +:+ slice_text (sort_strings (rn_PodName <$> holders)) +:+
              " span independent replication lineages (replid/replid2 disjoint) — electing any one discards writes")
    else a.

Definition Analyze (pods : list PodView) (s : ReplicationState) : Analysis :=
  let a := mkAnalysis (resolveIntent pods) "" "" [] [] in
  let anyAssignment := existsb vw_HasAssignment pods in
  let a := checkAssignmentRecord pods anyAssignment a in
  let a := computeAuthority s anyAssignment a in
  let a := foldl (checkPod s anyAssignment) a pods in
  let a := mkAnalysis (an_Intent a) (an_AuthorityPod a) (an_AuthorityIP a) (sort_strings (an_Parked a))
             (an_Findings a) in
  checkLineage s a.

(** *** The views *)

(** The last status of the container with the given name. *)
Definition container_status (name : string) (cs : list ContainerStatus) : bool * bool :=
  foldl (λ acc c, if cs_Name c =? name then (cs_Ready c, 0 <? cs_RestartCount c)%Z else acc)
    (false, false) cs.

Definition cli_view (redisContainer : string) (p : CliPod) : PodView :=
  let pod := cp_Pod p in
  let '(ready, restarted) := container_status redisContainer (pod_Containers pod) in
  match pod_Annotations pod !! AnnotationAssignedRole with
  | Some role =>
      mkPodView (pod_Name pod) (pod_IP pod) (cp_Phase p) ready restarted (pod_Terminating pod)
        (at_key (pod_Labels pod) LabelRole) true role
        (at_key (pod_Annotations pod) AnnotationAssignedMasterIP)
        (default 0 (atoi (at_key (pod_Annotations pod) AnnotationAssignmentEpoch)))
  | None =>
      mkPodView (pod_Name pod) (pod_IP pod) (cp_Phase p) ready restarted (pod_Terminating pod)
        (at_key (pod_Labels pod) LabelRole) false "" "" 0
  end.

Definition failoverPodViews (c : ClusterContext) : list PodView :=
  sort_slice (less_by_string vw_Name) (cli_view (cc_RedisContainer c) <$> cc_RedisPods c).

(** [redisMap] of the [gather] functions: the addresses of all the pods listed. *)
Definition pod_map (pods : list CliPod) : gmap string string :=
  foldl (λ m p, if negb (cp_IP p =? "") then <[cp_IP p := cp_Name p]> m else m) ∅ pods.

(** *** The report *)

Definition statusUnreachable : string := "unreachable".
Definition valueNone : string := "<none>".
Definition nl : string := String lf EmptyString.

Definition describeFailoverPod (s : ReplicationState) (parkedNames : gset string) (v : PodView) : string :=
  let status :=
    match rs_RedisNodes s !! vw_IP v with
    | Some rn =>
        if rn_Reachable rn then
          "role:" +:+ rn_Role rn +:+
          (if negb (rn_Role rn =? roleMaster)
           then ", following:" +:+ rn_MasterHost rn +:+ ", link:" +:+ rn_LinkStatus rn else "") +:+
          ", offset:" +:+ itoa (rn_Offset rn) +:+ ", keys:" +:+ itoa (rn_Keys rn)
        else statusUnreachable
    | None => statusUnreachable
    end in
  status +:+
  (if vw_HasAssignment v then ", assigned:" +:+ vw_AssignedRole v +:+ "@" +:+ itoa (vw_Epoch v)
   else ", assigned:none") +:+
  ", label:" +:+ (if vw_RoleLabel v =? "" then valueNone else vw_RoleLabel v) +:+
  (if bool_decide (vw_Name v ∈ parkedNames) then " [PARKED]" else "") +:+
  (if vw_Terminating v then " [terminating]" else "") +:+
  (if negb (vw_Ready v) then " [not-ready]" else "").

(** The lines printed and the error returned, given the gathered state. *)
Definition verifyFailover (c : ClusterContext) (s : ReplicationState) : list string * option string :=
  let views := failoverPodViews c in
  let a := Analyze views s in
  let i := an_Intent a in
  let head :=
    ["Gathering Replication Ground Truth..."; nl +:+ "Assignment Intent:";
     if negb (it_MasterName i =? "")
     then "  Intended Master: " +:+ it_MasterName i +:+ " (" +:+ it_MasterIP i +:+ ", epoch " +:+
          itoa (it_MasterEpoch i) +:+ ")"
     else "  Intended Master: NONE (no master assignment stamped)";
     "  Max Assignment Epoch: " +:+ itoa (it_MaxEpoch i); nl +:+ "Redis Status:"] in
  let pods := (λ v, "  - Redis " +:+ vw_Name v +:+ ": " +:+
                    describeFailoverPod s (list_to_set (an_Parked a)) v) <$> views in
  let summary :=
    [nl +:+ "Ground Truth Summary:";
     if negb (an_AuthorityIP a =? "")
     then "  [OK] Authority Master: " +:+ an_AuthorityPod a +:+ " (" +:+ an_AuthorityIP a +:+ ")"
     else "  [FAIL] Authority Master: NONE (intent not observed live)"] in
  let findings :=
    match an_Findings a with
    | [] => []
    | l => (nl +:+ "Findings:") :: ((λ f, "  - [" +:+ severity_text (fg_Severity f) +:+ "] " +:+ fg_Message f) <$> l)
    end in
  let '(verdict, err) :=
    if Failed a then
      (nl +:+ "[FAIL] Instance has consistency issues!",
       Some ("instance " +:+ cc_Namespace c +:+ "/" +:+ cc_Name c +:+ " is not healthy or consistent"))
    else if Degraded a then
      (nl +:+ "[DEGRADED] Instance is functional but has " +:+ itoa (len (an_Findings a)) +:+
       " warning(s); not fully healthy.", None)
    else (nl +:+ "[OK] Instance configuration is consistent.", None) in
  (head ++ pods ++ summary ++ findings ++ [verdict], err).

Record failoverPodVerifyJSON := mkFailoverPodJSON {
  fj_View : PodView;
  fj_Parked : bool;
  fj_Node : option RedisNodeState;
}.

Record failoverVerifyJSON := mkFailoverVerifyJSON {
  fvj_Name : string;
  fvj_Namespace : string;
  fvj_Intent : Intent;
  fvj_AuthorityMasterPod : string;
  fvj_AuthorityMasterIP : string;
  fvj_Pods : list failoverPodVerifyJSON;
  fvj_Findings : list Finding;
  fvj_Healthy : bool;
  fvj_Degraded : bool;
}.

Definition buildFailoverVerifyJSON (name namespace : string) (views : list PodView)
  (s : ReplicationState) (a : Analysis) : failoverVerifyJSON :=
  mkFailoverVerifyJSON name namespace (an_Intent a) (an_AuthorityPod a) (an_AuthorityIP a)
    ((λ v, mkFailoverPodJSON v (bool_decide (vw_Name v ∈ an_Parked a)) (rs_RedisNodes s !! vw_IP v)) <$> views)
    (an_Findings a) (Healthy a) (Degraded a).

Definition verifyFailoverJSON (c : ClusterContext) (s : ReplicationState) (name namespace : string)
  : failoverVerifyJSON :=
  let views := failoverPodViews c in
  buildFailoverVerifyJSON name namespace views s (Analyze views s).

End Loops.

(** ** The tool's view and the operator's *)

(** What the operator's planners read of a pod the tool has viewed. *)
Definition operator_of (s : ReplicationState) (v : PodView) : failoverPodView :=
  mkFailoverPodView (vw_Name v) (vw_IP v) (vw_Terminating v) (vw_Ready v) (vw_Restarted v)
    (negb (vw_IP v =? "") && answers s (vw_IP v)) (vw_HasAssignment v) (vw_AssignedRole v)
    (vw_AssignedMasterIP v) (vw_Epoch v).

Definition intent_pair (i : Intent) : failoverIntent * Z :=
  (mkFailoverIntent (it_MasterName i) (it_MasterIP i) (it_MaxEpoch i), it_MasterEpoch i).

Lemma intent_round_mirror s i v : intent_pair (intent_round i v) = intent_step (intent_pair i) (operator_of s v).
Proof.
  unfold intent_round, intent_step, intent_pair, operator_of.
  cbn [fv_hasAssignment fv_assignedRole fv_epoch fv_name fv_ip fi_masterName fi_masterIP fi_maxEpoch].
  repeat case_match; done.
Qed.

(** The two resolutions go in lockstep. *)
Lemma resolveIntent_mirror s views :
  (intent_pair (resolveIntent views)).1 = resolveFailoverIntent (operator_of s <$> views).
Proof.
  unfold resolveIntent, resolveFailoverIntent. f_equal.
  change (mkFailoverIntent "" "" 0, 0) with (intent_pair (mkIntent "" "" 0 0)).
  generalize (mkIntent "" "" 0 0). induction views as [|v l IH]; intros i; [done|].
  cbn [foldl fmap list_fmap]. by rewrite IH, (intent_round_mirror s).
Qed.

(** An assignment record as the operator writes it: none, or a role and an epoch that parses. *)
Definition well_stamped (p : Pod) : Prop :=
  match pod_Annotations p !! AnnotationAssignedRole with
  | None => True
  | Some role => role ≠ "" ∧ is_Some (atoi (at_key (pod_Annotations p) AnnotationAssignmentEpoch))
  end.

Lemma container_status_first name cs : ∀ acc, NoDup (cs_Name <$> cs) →
  foldl (λ acc c, if cs_Name c =? name then (cs_Ready c, 0 <? cs_RestartCount c)%Z else acc) acc cs =
  match List.find (λ c, cs_Name c =? name) cs with
  | Some c => (cs_Ready c, 0 <? cs_RestartCount c)%Z
  | None => acc
  end.
Proof.
  induction cs as [|c cs IH]; intros acc; [done|]. rewrite fmap_cons, NoDup_cons. intros [Hn Hd].
  cbn [foldl List.find]. rewrite IH by done. destruct (String.eqb_spec (cs_Name c) name) as [He|]; [|done].
  destruct (List.find _ cs) as [c'|] eqn:Hf; [|done]. apply List.find_some in Hf as [Hin Hc'].
  apply String.eqb_eq in Hc'. destruct Hn. rewrite He, <- Hc'. apply list_elem_of_fmap_2. by apply list_elem_of_In.
Qed.

Lemma redisContainerStatus_find cs : redisContainerStatus cs =
  match List.find (λ c, cs_Name c =? ComponentRedis) cs with
  | Some c => (cs_Ready c, 0 <? cs_RestartCount c)%Z
  | None => (false, false)
  end.
Proof. induction cs as [|c cs IH]; [done|]. cbn. by destruct (cs_Name c =? ComponentRedis). Qed.

(** The tool and the operator read the same facts off a pod. *)
Lemma cli_view_operator s p : well_stamped (cp_Pod p) → NoDup (cs_Name <$> pod_Containers (cp_Pod p)) →
  operator_of s (cli_view ComponentRedis p) = pod_view (Some s) (cp_Pod p).
Proof.
  intros Hw Hc. unfold cli_view, pod_view, container_status.
  rewrite (container_status_first ComponentRedis _ _ Hc), <- redisContainerStatus_find.
  destruct (redisContainerStatus _) as [ready restarted].
  assert (Hr : (if negb (pod_IP (cp_Pod p) =? "") then from_option rn_Reachable false
                  (rs_RedisNodes s !! pod_IP (cp_Pod p)) else false) =
               negb (pod_IP (cp_Pod p) =? "") && answers s (pod_IP (cp_Pod p))).
  { unfold answers. by destruct (negb _). }
  unfold pod_assignment, well_stamped in *.
  assert (Hrole : at_key (pod_Annotations (cp_Pod p)) AnnotationAssignedRole =
                  default "" (pod_Annotations (cp_Pod p) !! AnnotationAssignedRole)) by done.
  rewrite Hrole. destruct (pod_Annotations (cp_Pod p) !! AnnotationAssignedRole) as [role|].
  - change (default "" (Some role)) with role. destruct Hw as [Hne [e He]]. rewrite He, (proj2 (String.eqb_neq role "") Hne).
    destruct (String.eqb_spec (at_key (pod_Annotations (cp_Pod p)) AnnotationAssignmentEpoch) "") as [E|_].
    { rewrite E in He. discriminate. }
    cbn. unfold operator_of. cbn. by rewrite Hr.
  - cbn. unfold operator_of. cbn. by rewrite Hr.
Qed.

(** ** Checks only add findings *)

(** [b] is [a] after a check that resolves nothing: same intent and authority, findings added. *)
Record extends (a b : Analysis) : Prop := {
  ex_intent : an_Intent b = an_Intent a;
  ex_pod : an_AuthorityPod b = an_AuthorityPod a;
  ex_ip : an_AuthorityIP b = an_AuthorityIP a;
  ex_findings : an_Findings a `prefix_of` an_Findings b;
}.

#[export] Instance extends_preorder : PreOrder extends.
Proof.
  split.
  - intros a. split; done.
  - intros a b c [] []. split; [congruence..|by etrans].
Qed.

Lemma extends_add sev a msg : extends a (add_finding sev a msg).
Proof. split; try done. by apply prefix_app_r. Qed.

Lemma extends_quiet a b : extends a b → an_Findings b = [] → an_Findings a = [].
Proof. intros [_ _ _ Hp] Hb. rewrite Hb in Hp. by apply prefix_nil_inv in Hp. Qed.

Create HintDb analysis.
#[export] Hint Resolve extends_add : analysis.
#[export] Hint Extern 1 (extends ?a ?a) => reflexivity : analysis.
#[export] Hint Extern 1 (extends ?a (fail ?a _)) => apply extends_add : analysis.
#[export] Hint Extern 1 (extends ?a (warn ?a _)) => apply extends_add : analysis.

Lemma check_follow_extends p rn a : extends a (check_follow p rn a).
Proof. unfold check_follow. repeat case_match; auto with analysis. Qed.

Lemma check_label_extends p a : extends a (check_label p a).
Proof. unfold check_label. repeat case_match; auto with analysis. Qed.

Lemma checkPod_extends s any a p : extends a (checkPod s any a p).
Proof.
  unfold checkPod. repeat case_match; auto with analysis.
  - split; cbn; auto. by apply prefix_app_r.
  - etrans; [apply check_follow_extends|apply check_label_extends].
Qed.

Lemma checkPods_extends s any pods : ∀ a, extends a (foldl (checkPod s any) a pods).
Proof. induction pods as [|p l IH]; intros a; [done|]. cbn. etrans; [apply checkPod_extends|apply IH]. Qed.

Lemma checkAssignmentRecord_extends pods any a : extends a (checkAssignmentRecord pods any a).
Proof.
  unfold checkAssignmentRecord.
  assert (Hf : ∀ (f : string → string) l b, extends b (foldl (λ a d, warn a (f d)) b l)).
  { intros f l. induction l as [|d l IH]; intros b; [done|]. cbn. etrans; [apply extends_add|apply IH]. }
  etrans; [|apply Hf].
  set (a1 := if negb any then _ else _). assert (Ha1 : extends a a1) by (unfold a1; repeat case_match; auto with analysis).
  destruct (sort_strings _); [done|]. etrans; [exact Ha1|apply extends_add].
Qed.

Lemma checkLineage_extends `{GoRuntime} s a : extends a (checkLineage s a).
Proof. unfold checkLineage. repeat case_match; auto with analysis. Qed.

(** In a run that ends without findings every check of a pod is silent. *)
Lemma checkPods_quiet s any pods a : an_Findings (foldl (checkPod s any) a pods) = [] →
  ∀ p, p ∈ pods → ∃ b, extends a b ∧ an_Findings (checkPod s any b p) = [].
Proof.
  revert a. induction pods as [|q l IH]; intros a Hq p Hp; [by apply not_elem_of_nil in Hp|].
  cbn in Hq. apply elem_of_cons in Hp as [->|Hp].
  - exists a. split; [done|]. eapply extends_quiet; [apply checkPods_extends|done].
  - destruct (IH _ Hq p Hp) as (b & Hb & Hp'). exists b. split; [|done]. etrans; [apply checkPod_extends|done].
Qed.

Lemma add_finding_loud sev a msg : an_Findings (add_finding sev a msg) ≠ [].
Proof. cbn. by destruct (an_Findings a). Qed.

(** What a silent check of a live pod establishes. *)
Lemma checkPod_silent s any a p :
  an_Findings (checkPod s any a p) = [] → vw_Terminating p = false → vw_IP p ≠ "" → an_AuthorityIP a ≠ "" →
  parked s p = false ∧ (any = true → vw_HasAssignment p = true) ∧
  ∃ rn, rs_RedisNodes s !! vw_IP p = Some rn ∧ rn_Reachable rn = true ∧
    (vw_RoleLabel p = RoleMaster ↔ vw_IP p = an_AuthorityIP a) ∧
    (vw_IP p ≠ an_AuthorityIP a →
     rn_Role rn ≠ RoleMaster ∧ rn_MasterHost rn = an_AuthorityIP a ∧ rn_LinkStatus rn = "up").
Proof.
  unfold checkPod. intros Hq Ht Hip Ha. rewrite Ht, (proj2 (String.eqb_neq _ _) Hip) in Hq. cbn [orb] in Hq.
  destruct (parked s p); [by apply add_finding_loud in Hq|]. split; [done|].
  destruct (negb (vw_HasAssignment p) && any) eqn:Hh; [by apply add_finding_loud in Hq|].
  split; [intros ->; by destruct (vw_HasAssignment p)|].
  destruct (rs_RedisNodes s !! vw_IP p) as [rn|]; [|by apply add_finding_loud in Hq].
  exists rn. split; [done|]. destruct (rn_Reachable rn); [|by apply add_finding_loud in Hq].
  split; [done|]. cbn [negb] in Hq. rewrite (proj2 (String.eqb_neq _ _) Ha) in Hq.
  pose proof (extends_quiet _ _ (check_label_extends _ _) Hq) as Hf.
  assert (He : an_AuthorityIP (check_follow p rn a) = an_AuthorityIP a) by apply check_follow_extends.
  unfold check_label in Hq. rewrite He in Hq. unfold check_follow in Hf.
  destruct (String.eqb_spec (vw_IP p) (an_AuthorityIP a)) as [E|E];
    destruct (String.eqb_spec (vw_RoleLabel p) RoleMaster) as [El|El];
    cbn [negb andb] in Hq; try (by apply add_finding_loud in Hq); split; try done.
  intros _. destruct (String.eqb_spec (rn_Role rn) RoleMaster); [by apply add_finding_loud in Hf|].
  destruct (String.eqb_spec (rn_MasterHost rn) (an_AuthorityIP a)); [|by apply add_finding_loud in Hf].
  destruct (String.eqb_spec (rn_LinkStatus rn) "up"); [done|by apply add_finding_loud in Hf].
Qed.

(** A silent check of the record: an intended master, and no live rival assignment. *)
Lemma checkAssignmentRecord_silent pods any a : an_Findings (checkAssignmentRecord pods any a) = [] →
  any = true ∧ it_MasterName (an_Intent a) ≠ "" ∧
  ∀ p, p ∈ pods → vw_HasAssignment p = true → vw_AssignedRole p = RoleMaster → vw_Terminating p = false →
       vw_Name p = it_MasterName (an_Intent a).
Proof.
  unfold checkAssignmentRecord. set (a1 := if negb any then _ else _).
  set (others := bfilter (other_master _) pods).
  set (dupSame := sort_strings (vw_Name <$> _)). set (dupStale := sort_strings (_ <$> _)).
  intros Hq. assert (dupStale = []) as Hstale.
  { destruct dupStale as [|d l _] using rev_ind; [done|]. rewrite foldl_snoc in Hq. by apply add_finding_loud in Hq. }
  rewrite Hstale in Hq. cbn [foldl] in Hq. destruct dupSame as [|d l] eqn:Hsame; [|by apply add_finding_loud in Hq].
  unfold a1 in Hq. destruct any; cbn [negb] in Hq; [|by apply add_finding_loud in Hq]. split; [done|].
  destruct (String.eqb_spec (it_MasterName (an_Intent a)) "") as [|Hne]; [by apply add_finding_loud in Hq|].
  split; [done|]. intros p Hp Ha Hr Ht.
  destruct (String.eqb_spec (vw_Name p) (it_MasterName (an_Intent a))) as [|Hn]; [done|]. exfalso.
  assert (Ho : p ∈ others).
  { apply elem_of_bfilter. split; [done|]. unfold other_master.
    by rewrite Ha, Hr, (proj2 (String.eqb_neq _ _) Hn). }
  assert (Hnil : ∀ {A} (f : A → string) l, sort_strings (f <$> l) = [] → l = []).
  { intros A f l' Hl. apply (fmap_nil_inv f), Permutation_nil. by rewrite <- Hl, sort_strings_perm. }
  destruct (vw_Epoch p =? it_MasterEpoch (an_Intent a))%Z eqn:He.
  - apply Hnil in Hsame. apply (not_elem_of_nil p). rewrite <- Hsame. by apply elem_of_bfilter.
  - apply Hnil in Hstale. apply (not_elem_of_nil p). rewrite <- Hstale. apply elem_of_bfilter. by rewrite He, Ht.
Qed.

Lemma computeAuthority_spec s any a :
  let live := determineFailoverLiveMaster s (it_MasterIP (an_Intent a)) in
  let b := computeAuthority s any a in
  an_Intent b = an_Intent a ∧ an_Findings a `prefix_of` an_Findings b ∧
  (an_AuthorityIP a = "" → an_AuthorityIP b = live) ∧
  (live ≠ "" → an_AuthorityPod b = it_MasterName (an_Intent a)) ∧
  (an_Findings b = [] → any = true → it_MasterName (an_Intent a) ≠ "" → live ≠ "").
Proof.
  unfold computeAuthority, determineFailoverLiveMaster.
  destruct (String.eqb_spec (it_MasterIP (an_Intent a)) "") as [He|Hne]; cbn [negb andb].
  - destruct any; cbn [negb orb]; [|done].
    destruct (String.eqb_spec (it_MasterName (an_Intent a)) ""); [by split_and!|].
    split_and!; try done; [by apply prefix_app_r|]. intros Hq. by apply add_finding_loud in Hq.
  - destruct (rs_RedisNodes s !! it_MasterIP (an_Intent a)) as [rn|]; cbn [from_option].
    + destruct (rn_Reachable rn && (rn_Role rn =? RoleMaster)); [by split_and!|].
      destruct any; cbn [negb orb]; [|by split_and!].
      destruct (String.eqb_spec (it_MasterName (an_Intent a)) ""); [by split_and!|].
      split_and!; try done; [by apply prefix_app_r|]. intros Hq. by apply add_finding_loud in Hq.
    + destruct any; cbn [negb orb]; [|by split_and!].
      destruct (String.eqb_spec (it_MasterName (an_Intent a)) ""); [by split_and!|].
      split_and!; try done; [by apply prefix_app_r|]. intros Hq. by apply add_finding_loud in Hq.
Qed.

(** Elements with distinct keys are told apart by them. *)
Lemma fmap_key_inj {A B} (f : A → B) l x y : NoDup (f <$> l) → x ∈ l → y ∈ l → f x = f y → x = y.
Proof.
  induction l as [|z l IH]; [by intros _ ?%not_elem_of_nil|]. rewrite fmap_cons, NoDup_cons, !elem_of_cons.
  intros [Hz Hl] [->|Hx] [->|Hy] He; [done| | |by apply IH]; destruct Hz;
    [rewrite He|rewrite <- He]; by apply list_elem_of_fmap_2.
Qed.

Section Verdict.
Context `{GoRuntime}.

Lemma checkLineage_silent s a : an_Findings (checkLineage s a) = [] →
  len (DataHolders s) < 2 ∨ holdersDiverged (DataHolders s) = false.
Proof.
  unfold checkLineage. destruct (len (DataHolders s) <? 2)%Z eqn:Hl; [left; by apply Z.ltb_lt|].
  destruct (BestDataHolder_cases s) as [[He _]|(b & _ & _ & ->)]; [by rewrite He in Hl|].
  destruct (holdersDiverged _); [|by right]. intros Hq. by apply add_finding_loud in Hq.
Qed.

(** What the tool is shown when the operator runs the instance: pods with distinct names and
    distinct container names, stamped by the operator or not at all, in the container it
    renders; and a state gathered from these pods. *)
Record shown (c : ClusterContext) (s : ReplicationState) : Prop := {
  sh_container : cc_RedisContainer c = ComponentRedis;
  sh_names : NoDup (cp_Name <$> cc_RedisPods c);
  sh_named : ∀ p, p ∈ cc_RedisPods c → cp_Name p ≠ "";
  sh_stamped : ∀ p, p ∈ cc_RedisPods c → well_stamped (cp_Pod p);
  sh_statuses : ∀ p, p ∈ cc_RedisPods c → NoDup (cs_Name <$> pod_Containers (cp_Pod p));
  sh_gathered : ∀ ip, is_Some (rs_RedisNodes s !! ip) → ip ≠ "" ∧ ∃ p, p ∈ cc_RedisPods c ∧ cp_IP p = ip;
}.

Lemma views_operator c s : shown c s →
  operator_of s <$> failoverPodViews c ≡ₚ buildFailoverPodViews (cp_Pod <$> cc_RedisPods c) (Some s).
Proof.
  intros [Hc _ _ Hst Hcs _]. unfold failoverPodViews, buildFailoverPodViews. rewrite sort_slice_perm, Hc.
  rewrite <- !list_fmap_compose. apply Permutation_refl', list_fmap_ext. intros k p Hp%list_elem_of_lookup_2.
  apply cli_view_operator; auto.
Qed.

(** The names of the operator's views identify them. *)
Lemma operator_names c s : shown c s →
  let views := buildFailoverPodViews (cp_Pod <$> cc_RedisPods c) (Some s) in
  (∀ v, v ∈ views → fv_name v ≠ "") ∧ (∀ v w, v ∈ views → w ∈ views → fv_name v = fv_name w → v = w).
Proof.
  intros Hs. unfold buildFailoverPodViews. rewrite <- list_fmap_compose.
  assert (Hn : ∀ p, fv_name (pod_view (Some s) p) = pod_Name p).
  { intros p. unfold pod_view. by destruct (redisContainerStatus _), (pod_assignment p) as [[[??]?]|]. }
  split.
  - intros v (p & -> & Hp)%list_elem_of_fmap. cbn. rewrite Hn. by apply (sh_named _ _ Hs).
  - intros v w (p & -> & Hp)%list_elem_of_fmap (q & -> & Hq)%list_elem_of_fmap. cbn. rewrite !Hn. intros He.
    do 2 f_equal. by eapply (fmap_key_inj cp_Name); [apply (sh_names _ _ Hs)|..].
Qed.

Lemma intent_agrees c s : shown c s →
  (intent_pair (resolveIntent (failoverPodViews c))).1 =
  resolveFailoverIntent (buildFailoverPodViews (cp_Pod <$> cc_RedisPods c) (Some s)).
Proof.
  intros Hs. rewrite (resolveIntent_mirror s). destruct (operator_names c s Hs) as [Hne Hinj].
  pose proof (views_operator c s Hs) as Hp.
  destruct (resolveFailoverIntent_of _ Hne) as [e He].
  destruct (resolveFailoverIntent_of (operator_of s <$> failoverPodViews c)) as [e' He'].
  { intros q Hq. apply Hne. by rewrite <- Hp. }
  symmetry. eapply intent_of_unique; [exact Hinj| |exact He|exact He']. intros q. by rewrite Hp.
Qed.

(** The two results of an analysis that do not depend on the findings. *)
Lemma Analyze_resolves views s :
  let a := Analyze views s in
  an_Intent a = resolveIntent views ∧
  an_AuthorityIP a = determineFailoverLiveMaster s (it_MasterIP (resolveIntent views)).
Proof.
  unfold Analyze. set (any := existsb _ views). set (a0 := mkAnalysis (resolveIntent views) "" "" [] []).
  set (a1 := checkAssignmentRecord _ _ _). set (a2 := computeAuthority _ _ _). set (a3 := foldl _ _ _).
  pose proof (checkAssignmentRecord_extends views any a0) as [Hi1 _ Hip1 _]. fold a1 in Hi1, Hip1.
  destruct (computeAuthority_spec s any a1) as (Hi2 & _ & Hip2 & _). fold a2 in Hi2, Hip2.
  pose proof (checkPods_extends s any views a2) as [Hi3 _ Hip3 _]. fold a3 in Hi3, Hip3.
  match goal with |- context [checkLineage s ?a4] => pose proof (checkLineage_extends s a4) as [Hi4 _ Hip4 _] end.
  rewrite Hi4, Hip4. cbn [an_Intent an_AuthorityIP]. rewrite Hi3, Hi2, Hi1, Hip3, Hip2 by done.
  by rewrite Hi1.
Qed.

Lemma Analyze_silent views s : Healthy (Analyze views s) = true →
  let i := resolveIntent views in
  let live := determineFailoverLiveMaster s (it_MasterIP i) in
  live ≠ "" ∧ it_MasterName i ≠ "" ∧
  (∀ p, p ∈ views → vw_HasAssignment p = true → vw_AssignedRole p = RoleMaster → vw_Terminating p = false →
        vw_Name p = it_MasterName i) ∧
  (∀ p, p ∈ views → ∃ b, an_AuthorityIP b = live ∧ an_Findings (checkPod s true b p) = []) ∧
  (len (DataHolders s) < 2 ∨ holdersDiverged (DataHolders s) = false).
Proof.
  unfold Healthy. intros Hq%Z.eqb_eq. assert (Hf : an_Findings (Analyze views s) = []).
  { by destruct (an_Findings _). }
  clear Hq. revert Hf. unfold Analyze. set (any := existsb _ views).
  set (a0 := mkAnalysis (resolveIntent views) "" "" [] []).
  set (a1 := checkAssignmentRecord _ _ _). set (a2 := computeAuthority _ _ _). set (a3 := foldl _ _ _).
  intros Hf. pose proof (checkLineage_silent _ _ Hf) as Hlin.
  assert (Hf3 : an_Findings a3 = []) by apply (extends_quiet _ _ (checkLineage_extends _ _) Hf).
  assert (Hf2 : an_Findings a2 = []) by apply (extends_quiet _ _ (checkPods_extends _ _ _ _) Hf3).
  pose proof (checkAssignmentRecord_extends views any a0) as [Hi1 _ Hip1 _]. fold a1 in Hi1, Hip1.
  destruct (computeAuthority_spec s any a1) as (Hi2 & Hp2 & Hip2 & _ & Hlive). fold a2 in Hi2, Hp2, Hip2, Hlive.
  assert (Hf1 : an_Findings a1 = []). { rewrite Hf2 in Hp2. by apply prefix_nil_inv in Hp2. }
  destruct (checkAssignmentRecord_silent views any a0 Hf1) as (Hany & Hname & Hrival).
  rewrite Hi1 in Hlive, Hip2. specialize (Hlive Hf2 Hany Hname). specialize (Hip2 Hip1).
  split_and!; [exact Hlive|exact Hname|exact Hrival| |exact Hlin].
  intros p Hp. destruct (checkPods_quiet s any views a2 Hf3 p Hp) as (b & [_ _ Hb _] & Hsil).
  exists b. rewrite Hb. rewrite Hany in Hsil. done.
Qed.

Lemma elem_of_views c p : p ∈ cc_RedisPods c → cli_view (cc_RedisContainer c) p ∈ failoverPodViews c.
Proof. intros Hp. unfold failoverPodViews. rewrite sort_slice_perm. by apply list_elem_of_fmap_2. Qed.

Lemma cli_view_fields name p : let v := cli_view name p in
  vw_Name v = cp_Name p ∧ vw_IP v = cp_IP p ∧ vw_Terminating v = pod_Terminating (cp_Pod p) ∧
  vw_RoleLabel v = at_key (pod_Labels (cp_Pod p)) LabelRole.
Proof. unfold cli_view. by destruct (container_status _ _), (_ !! _). Qed.

(** What a healthy verdict says of each live pod. *)
Lemma healthy_pod c s p : Healthy (Analyze (failoverPodViews c) s) = true →
  p ∈ cc_RedisPods c → pod_Terminating (cp_Pod p) = false → cp_IP p ≠ "" →
  let v := cli_view (cc_RedisContainer c) p in
  let live := determineFailoverLiveMaster s (it_MasterIP (resolveIntent (failoverPodViews c))) in
  parked s v = false ∧ vw_HasAssignment v = true ∧
  ∃ rn, rs_RedisNodes s !! cp_IP p = Some rn ∧ rn_Reachable rn = true ∧
    (at_key (pod_Labels (cp_Pod p)) LabelRole = RoleMaster ↔ cp_IP p = live) ∧
    (cp_IP p ≠ live → rn_Role rn ≠ RoleMaster ∧ rn_MasterHost rn = live ∧ rn_LinkStatus rn = "up").
Proof.
  intros Hh Hp Ht Hip. destruct (Analyze_silent _ _ Hh) as (Hlive & _ & _ & Hsil & _).
  destruct (Hsil _ (elem_of_views c p Hp)) as (b & Hb & Hq).
  destruct (cli_view_fields (cc_RedisContainer c) p) as (_ & Hvip & Hvt & Hvl).
  destruct (checkPod_silent s true b _ Hq) as (Hpk & Has & rn & Hrn & Hr & Hlab & Hfol); [congruence..|].
  rewrite Hvip, Hb in *. rewrite Hvl in Hlab. eauto 10.
Qed.

(** No pod of a healthy instance waits for the operator's authorisation. *)
Lemma healthy_no_reauth c s : shown c s → Healthy (Analyze (failoverPodViews c) s) = true →
  let views := buildFailoverPodViews (cp_Pod <$> cc_RedisPods c) (Some s) in
  let intent := resolveFailoverIntent views in
  planFailoverReauth views intent (determineFailoverLiveMaster s (fi_masterIP intent)) = [].
Proof.
  intros Hs Hh views intent. unfold planFailoverReauth. apply elem_of_nil_inv.
  intros st. rewrite sort_slice_perm, list_elem_of_omap. intros (w & Hw & Hst).
  unfold views in Hw. rewrite <- (views_operator c s Hs) in Hw. apply list_elem_of_fmap in Hw as (v & -> & Hv).
  unfold failoverPodViews in Hv. rewrite sort_slice_perm in Hv. apply list_elem_of_fmap in Hv as (p & -> & Hp).
  destruct (cli_view_fields (cc_RedisContainer c) p) as (_ & Hvip & Hvt & _).
  unfold reauth_stamp in Hst. set (v := cli_view _ p) in *.
  destruct (_ || _ || _ || _) eqn:Hskip; [discriminate|].
  rewrite !orb_false_iff in Hskip. destruct Hskip as [[[Hip%String.eqb_neq Ht] _] _]. cbn in Hip, Ht.
  destruct (healthy_pod c s p Hh Hp) as (Hpk & Ha & _); [congruence..|]. fold v in Hpk, Ha.
  cbn in Hst. rewrite Ha in Hst. cbn [negb] in Hst. unfold parked in Hpk. rewrite Ha in Hpk.
  rewrite (proj2 (String.eqb_neq _ _) Hip) in Hst.
  destruct (answers s (vw_IP v)), (vw_Ready v), (vw_Restarted v); discriminate.
Qed.

Lemma role_labels_lookup pods p : NoDup (pod_Name <$> pods) → p ∈ pods →
  role_labels pods !! pod_Name p = Some (at_key (pod_Labels p) LabelRole).
Proof.
  unfold role_labels. generalize (∅ : gmap string string). induction pods as [|q l IH]; intros m;
    [by intros _ ?%not_elem_of_nil|]. rewrite fmap_cons, NoDup_cons, elem_of_cons. cbn [foldl].
  intros [Hn Hl] [->|Hp]; [|by apply IH]. clear IH.
  assert (Hkeep : ∀ l (m : gmap string string), pod_Name q ∉ pod_Name <$> l →
    foldl (λ m p, <[pod_Name p := at_key (pod_Labels p) LabelRole]> m) m l !! pod_Name q = m !! pod_Name q).
  { clear. induction l as [|r l IH]; intros m; [done|]. rewrite fmap_cons, not_elem_of_cons. intros [Hr Hl].
    cbn [foldl]. rewrite IH by done. by rewrite lookup_insert_ne. }
  rewrite Hkeep by done. apply lookup_insert_eq.
Qed.

(** A healthy verdict leaves nobody to re-point but the pods on their way out. *)
Lemma healthy_repoints c s ip p : shown c s → Healthy (Analyze (failoverPodViews c) s) = true →
  ip ∈ planFailoverRepoints s
         (determineFailoverLiveMaster s (it_MasterIP (resolveIntent (failoverPodViews c)))) →
  p ∈ cc_RedisPods c → cp_IP p = ip → pod_Terminating (cp_Pod p) = true.
Proof.
  intros Hs Hh. unfold planFailoverRepoints. rewrite sort_strings_perm, list_elem_of_fmap.
  intros ([ip' rn] & -> & [Hin Hf]%elem_of_bfilter) Hp Hip. cbn [fst] in Hip.
  rewrite go_range_perm, elem_of_map_to_list in Hin. apply not_false_iff_true. intros Ht.
  destruct (sh_gathered _ _ Hs ip' (mk_is_Some _ _ Hin)) as [Hne _].
  destruct (healthy_pod c s p Hh Hp Ht) as (_ & _ & rn' & Hrn & Hr & _ & Hfol); [congruence|].
  rewrite Hip, Hin in Hrn. injection Hrn as <-. rewrite Hr in Hf. cbn [negb orb] in Hf.
  rewrite Hip in Hfol. set (live := determineFailoverLiveMaster s _) in *.
  destruct (String.eqb_spec ip' live) as [|Hd]; [discriminate|].
  destruct (Hfol Hd) as (Hrole & Hhost & _).
  rewrite (proj2 (String.eqb_neq _ _) Hrole), Hhost, String.eqb_refl in Hf. discriminate.
Qed.

(** The pod of the intended master. *)
Lemma intended_pod c s : shown c s →
  let intent := resolveFailoverIntent (buildFailoverPodViews (cp_Pod <$> cc_RedisPods c) (Some s)) in
  fi_masterName intent ≠ "" →
  ∃ p, p ∈ cc_RedisPods c ∧ cp_Name p = fi_masterName intent ∧ cp_IP p = fi_masterIP intent.
Proof.
  intros Hs intent Hne. destruct (operator_names c s Hs) as [Hn _].
  destruct (resolveFailoverIntent_of _ Hn) as [e [_ _ _ Hm]].
  destruct Hm as [(? & _)|(v & Hv & _ & Hvn & Hvi & _)]; [done|].
  unfold buildFailoverPodViews in Hv. rewrite <- list_fmap_compose in Hv.
  apply list_elem_of_fmap in Hv as (p & -> & Hp). exists p. split; [done|].
  fold intent in Hvn, Hvi. rewrite Hvn, Hvi. cbn. unfold pod_view.
  by destruct (redisContainerStatus _), (pod_assignment _) as [[[??]?]|].
Qed.

(** *** Without a failing finding *)

Lemma extends_passes a b : an_Findings a `prefix_of` an_Findings b → Failed b = false → Failed a = false.
Proof. intros [l Hl]. unfold Failed. rewrite Hl, existsb_app. by intros [? _]%orb_false_iff. Qed.

Lemma fail_fails a msg : Failed (fail a msg) = true.
Proof. unfold Failed, fail, add_finding. cbn [an_Findings]. rewrite existsb_app. apply orb_true_r. Qed.

Lemma checkPods_passes s any pods a : Failed (foldl (checkPod s any) a pods) = false →
  ∀ p, p ∈ pods → ∃ b, extends a b ∧ Failed (checkPod s any b p) = false.
Proof.
  revert a. induction pods as [|q l IH]; intros a Hq p Hp; [by apply not_elem_of_nil in Hp|].
  cbn in Hq. apply elem_of_cons in Hp as [->|Hp].
  - exists a. split; [done|]. eapply extends_passes; [apply checkPods_extends|done].
  - destruct (IH _ Hq p Hp) as (b & Hb & Hp'). exists b. split; [|done]. etrans; [apply checkPod_extends|done].
Qed.

(** What a check that does not fail establishes of a live pod that has an assignment and answers. *)
Lemma checkPod_passes s any a p rn :
  Failed (checkPod s any a p) = false → vw_Terminating p = false → vw_IP p ≠ "" → an_AuthorityIP a ≠ "" →
  vw_HasAssignment p = true → rs_RedisNodes s !! vw_IP p = Some rn → rn_Reachable rn = true →
  (vw_RoleLabel p = RoleMaster ↔ vw_IP p = an_AuthorityIP a) ∧
  (vw_IP p ≠ an_AuthorityIP a → rn_Role rn ≠ RoleMaster ∧ rn_MasterHost rn = an_AuthorityIP a).
Proof.
  unfold checkPod, parked, answers. intros Hq Ht Hip Ha Has Hrn Hr.
  rewrite Ht, (proj2 (String.eqb_neq _ _) Hip), Has, Hrn in Hq. cbn [orb from_option negb andb] in Hq.
  rewrite Hr, (proj2 (String.eqb_neq _ _) Ha) in Hq. cbn [negb andb] in Hq.
  pose proof (extends_passes _ _ (ex_findings _ _ (check_label_extends _ _)) Hq) as Hf.
  assert (He : an_AuthorityIP (check_follow p rn a) = an_AuthorityIP a) by apply check_follow_extends.
  unfold check_label in Hq. rewrite He in Hq. unfold check_follow in Hf.
  destruct (String.eqb_spec (vw_IP p) (an_AuthorityIP a)) as [E|E];
    destruct (String.eqb_spec (vw_RoleLabel p) RoleMaster) as [El|El];
    cbn [negb andb] in Hq; try (by rewrite fail_fails in Hq); split; try done.
  intros _. destruct (String.eqb_spec (rn_Role rn) RoleMaster); [by rewrite fail_fails in Hf|].
  destruct (String.eqb_spec (rn_MasterHost rn) (an_AuthorityIP a)); [done|]. cbn [negb] in Hf. by rewrite fail_fails in Hf.
Qed.

Lemma checkAssignmentRecord_passes pods any a : Failed (checkAssignmentRecord pods any a) = false →
  any = true ∧ it_MasterName (an_Intent a) ≠ "".
Proof.
  unfold checkAssignmentRecord. set (a1 := if negb any then _ else _). intros Hq.
  assert (Hw : ∀ (f : string → string) l b, an_Findings b `prefix_of` an_Findings (foldl (λ a d, warn a (f d)) b l)).
  { intros f l. induction l as [|d l IH]; intros b; [done|]. cbn. etrans; [|apply IH]. by apply prefix_app_r. }
  apply (extends_passes _ _ (Hw _ _ _)) in Hq.
  assert (Ha1 : Failed a1 = false) by (destruct (sort_strings _); [done|by rewrite fail_fails in Hq]).
  unfold a1 in Ha1. destruct any; cbn [negb] in Ha1; [|by rewrite fail_fails in Ha1]. split; [done|].
  destruct (String.eqb_spec (it_MasterName (an_Intent a)) ""); [by rewrite fail_fails in Ha1|done].
Qed.

Lemma computeAuthority_passes s a : Failed (computeAuthority s true a) = false → it_MasterName (an_Intent a) ≠ "" →
  determineFailoverLiveMaster s (it_MasterIP (an_Intent a)) ≠ "".
Proof.
  unfold computeAuthority, determineFailoverLiveMaster. intros Hq Hn. rewrite (proj2 (String.eqb_neq _ _) Hn) in Hq.
  cbn [negb orb] in Hq. destruct (String.eqb_spec (it_MasterIP (an_Intent a)) "") as [He|Hne]; cbn [negb andb] in Hq.
  { by rewrite fail_fails in Hq. }
  destruct (rs_RedisNodes s !! it_MasterIP (an_Intent a)) as [rn|]; cbn [from_option] in Hq; [|by rewrite fail_fails in Hq].
  destruct (rn_Reachable rn && (rn_Role rn =? RoleMaster)); [done|by rewrite fail_fails in Hq].
Qed.

Lemma checkLineage_passes s a : Failed (checkLineage s a) = false →
  len (DataHolders s) < 2 ∨ holdersDiverged (DataHolders s) = false.
Proof.
  unfold checkLineage. destruct (len (DataHolders s) <? 2)%Z eqn:Hl; [left; by apply Z.ltb_lt|].
  destruct (BestDataHolder_cases s) as [[He _]|(b & _ & _ & ->)]; [by rewrite He in Hl|].
  destruct (holdersDiverged _); [|by right]. intros Hq. by rewrite fail_fails in Hq.
Qed.

(** A failover-mode instance that serves: the recorded master answers as one; of the pods
    that stay, have an assignment and answer, exactly the master carries the master label and
    all others are replicas of it; and the data holders share one replication history. *)
Record serving (c : ClusterContext) (s : ReplicationState) (live : string) : Prop := {
  se_live : ∃ rn, rs_RedisNodes s !! live = Some rn ∧ rn_Reachable rn = true ∧ rn_Role rn = RoleMaster;
  se_pods p rn : p ∈ cc_RedisPods c → pod_Terminating (cp_Pod p) = false → cp_IP p ≠ "" →
    is_Some (pod_Annotations (cp_Pod p) !! AnnotationAssignedRole) →
    rs_RedisNodes s !! cp_IP p = Some rn → rn_Reachable rn = true →
    (at_key (pod_Labels (cp_Pod p)) LabelRole = RoleMaster ↔ cp_IP p = live) ∧
    (cp_IP p ≠ live → rn_Role rn ≠ RoleMaster ∧ rn_MasterHost rn = live);
  se_lineage : len (DataHolders s) < 2 ∨ holdersDiverged (DataHolders s) = false;
}.

Lemma live_master s ip : determineFailoverLiveMaster s ip ≠ "" →
  determineFailoverLiveMaster s ip = ip ∧
  ∃ rn, rs_RedisNodes s !! ip = Some rn ∧ rn_Reachable rn = true ∧ rn_Role rn = RoleMaster.
Proof.
  unfold determineFailoverLiveMaster. destruct (ip =? ""); [done|]. destruct (rs_RedisNodes s !! ip) as [rn|]; [|done].
  destruct (rn_Reachable rn) eqn:Hr; [|done]. destruct (String.eqb_spec (rn_Role rn) RoleMaster); [|done].
  intros _. split; [done|]. by exists rn.
Qed.

Lemma passes_serving c s : Failed (Analyze (failoverPodViews c) s) = false →
  serving c s (it_MasterIP (resolveIntent (failoverPodViews c))).
Proof.
  set (views := failoverPodViews c). unfold Analyze. set (any := existsb _ views).
  set (a0 := mkAnalysis (resolveIntent views) "" "" [] []).
  set (a1 := checkAssignmentRecord _ _ _). set (a2 := computeAuthority _ _ _). set (a3 := foldl _ _ _).
  intros Hf. pose proof (checkLineage_passes _ _ Hf) as Hlin.
  assert (Hf3 : Failed a3 = false) by apply (extends_passes _ _ (ex_findings _ _ (checkLineage_extends _ _)) Hf).
  assert (Hf2 : Failed a2 = false) by apply (extends_passes _ _ (ex_findings _ _ (checkPods_extends _ _ _ _)) Hf3).
  pose proof (checkAssignmentRecord_extends views any a0) as [Hi1 _ Hip1 _]. fold a1 in Hi1, Hip1.
  destruct (computeAuthority_spec s any a1) as (Hi2 & Hp2 & Hip2 & _). fold a2 in Hi2, Hp2, Hip2.
  destruct (checkAssignmentRecord_passes views any a0 (extends_passes _ _ Hp2 Hf2)) as (Hany & Hname).
  unfold a2 in Hf2. rewrite Hany in Hf2. rewrite Hi1 in Hip2.
  assert (Hlive : determineFailoverLiveMaster s (it_MasterIP (resolveIntent views)) ≠ "").
  { apply computeAuthority_passes in Hf2; [by rewrite Hi1 in Hf2|by rewrite Hi1]. }
  destruct (live_master s _ Hlive) as [Hip Hrn]. specialize (Hip2 Hip1). cbn [an_Intent a0] in Hip2. rewrite Hip in Hip2, Hlive.
  split; [exact Hrn| |exact Hlin]. intros p rn Hp Ht Hne [role Has] Hrn' Hr.
  destruct (checkPods_passes s any views a2 Hf3 _ (elem_of_views c p Hp)) as (b & [_ _ Hb _] & Hq).
  destruct (cli_view_fields (cc_RedisContainer c) p) as (_ & Hvip & Hvt & Hvl).
  rewrite Hip2 in Hb. rewrite <-Hvip, <-Hvl, <-Hb.
  apply (checkPod_passes s any b); try congruence.
  unfold cli_view. rewrite Has. by destruct (container_status _ _).
Qed.

End Verdict.

(** ** Properties *)

(** C29. A verdict of [lrctl verify] on a failover-mode instance is about the operator's own
    decisions.  On pods the operator has stamped, the intent and the authority master the tool
    derives are those of the operator's planners.  And if the tool finds nothing: there is a live
    master; the operator has no pod to re-authorise; it would re-point no pod that stays; among
    the pods that stay, exactly the live master carries the master label, which routes the
    clients; once no pod is terminating there is nobody to re-point and the last transition has
    settled; and all data holders share one replication history. *)
Theorem healthy_verdict_sound `{GoRuntime} (c : ClusterContext) (s : ReplicationState) :
  shown c s →
  let pods := cp_Pod <$> cc_RedisPods c in
  let views := buildFailoverPodViews pods (Some s) in
  let intent := resolveFailoverIntent views in
  let live := determineFailoverLiveMaster s (fi_masterIP intent) in
  let a := Analyze (failoverPodViews c) s in
  (intent_pair (an_Intent a)).1 = intent ∧ an_AuthorityIP a = live ∧
  (Healthy a = true →
   live ≠ "" ∧
   planFailoverReauth views intent live = [] ∧
   (∀ p, p ∈ pods → pod_Terminating p = false → pod_IP p ∉ planFailoverRepoints s live) ∧
   (∀ p, p ∈ pods → pod_Terminating p = false → pod_IP p ≠ "" →
         (at_key (pod_Labels p) LabelRole = RoleMaster ↔ pod_IP p = live)) ∧
   ((∀ p, p ∈ pods → pod_Terminating p = false) →
      planFailoverRepoints s live = [] ∧ failoverTransitionSettled intent s (role_labels pods) = true) ∧
   (len (DataHolders s) < 2 ∨ holdersDiverged (DataHolders s) = false)).
Proof.
  intros Hs pods views intent live a.
  destruct (Analyze_resolves (failoverPodViews c) s) as [Hi Hip]. fold a in Hi, Hip.
  pose proof (intent_agrees c s Hs) as Hint. fold pods views intent in Hint.
  assert (Hm : it_MasterIP (resolveIntent (failoverPodViews c)) = fi_masterIP intent) by by rewrite <- Hint.
  assert (Hmn : it_MasterName (resolveIntent (failoverPodViews c)) = fi_masterName intent) by by rewrite <- Hint.
  split; [by rewrite Hi|]. rewrite Hip, Hm. split; [done|]. intros Hh.
  destruct (Analyze_silent _ _ Hh) as (Hlive & Hname & _ & _ & Hlin).
  pose proof (λ ip p, healthy_repoints c s ip p Hs Hh) as Hrep. pose proof (λ p, healthy_pod c s p Hh) as Hpod.
  cbn zeta in Hpod. rewrite Hm in Hlive, Hrep, Hpod. fold live in Hlive, Hrep, Hpod. rewrite Hmn in Hname.
  assert (Hlab : ∀ p, p ∈ pods → pod_Terminating p = false → pod_IP p ≠ "" →
                 (at_key (pod_Labels p) LabelRole = RoleMaster ↔ pod_IP p = live)).
  { intros ? (p & -> & Hp)%list_elem_of_fmap Ht Hne. by destruct (Hpod p Hp Ht Hne) as (_ & _ & rn & _ & _ & ? & _). }
  assert (Hstay : ∀ p, p ∈ pods → pod_Terminating p = false → pod_IP p ∉ planFailoverRepoints s live).
  { intros ? (p & -> & Hp)%list_elem_of_fmap Ht Hin. by rewrite (Hrep _ p Hin Hp eq_refl) in Ht. }
  split_and!; [done|exact (healthy_no_reauth c s Hs Hh)|done|done| |done]. intros Hnone. split.
  - apply elem_of_nil_inv. intros ip Hin. destruct (sh_gathered _ _ Hs ip) as (_ & p & Hp & <-).
    { revert Hin. unfold planFailoverRepoints. rewrite sort_strings_perm, list_elem_of_fmap.
      intros ([k rn] & -> & [Hk _]%elem_of_bfilter). rewrite go_range_perm, elem_of_map_to_list in Hk. eauto. }
    assert (Hp' : cp_Pod p ∈ pods) by (by apply list_elem_of_fmap_2). exact (Hstay _ Hp' (Hnone _ Hp') Hin).
  - destruct (intended_pod c s Hs Hname) as (p & Hp & Hpn & Hpi).
    assert (Hp' : cp_Pod p ∈ pods) by (by apply list_elem_of_fmap_2).
    assert (Hl : live = fi_masterIP intent ∧ fi_masterIP intent ≠ "").
    { revert Hlive. unfold live, determineFailoverLiveMaster. repeat case_match; bool_hyps; done. }
    unfold failoverTransitionSettled. fold live. rewrite (proj2 (String.eqb_neq _ _) Hname), (proj2 (String.eqb_neq _ _) Hlive).
    assert (Hnd : NoDup (pod_Name <$> pods)) by (unfold pods; rewrite <- list_fmap_compose; apply (sh_names _ _ Hs)).
    fold pods views intent in Hpn, Hpi. rewrite <- Hpn. unfold cp_Name. rewrite (role_labels_lookup pods _ Hnd Hp').
    apply String.eqb_eq, (Hlab _ Hp' (Hnone _ Hp')); unfold cp_IP in Hpi; [|by destruct Hl; congruence].
    destruct Hl. by rewrite Hpi.
Qed.

(** *** Witnesses *)

Definition stamped_pod (name ip role masterIP epoch label : string) : CliPod :=
  mkCliPod (mkPod name ip false
    (<[AnnotationAssignmentEpoch := epoch]> (<[AnnotationAssignedMasterIP := masterIP]>
       {[AnnotationAssignedRole := role]}))
    {[LabelRole := label]} [mkContainerStatus ComponentRedis true 0 None] None true) "Running" [].

Definition pair_context : ClusterContext :=
  mkClusterContext "lr" "ns" "failover" ""
    [stamped_pod "lr-redis-0" "10.0.0.1" RoleMaster "" "3" RoleMaster;
     stamped_pod "lr-redis-1" "10.0.0.2" RoleReplica "10.0.0.1" "3" RoleReplica] [] containerRedis containerSentinel.

Definition pair_node (name ip role host : string) : RedisNodeState :=
  mkRedisNode name ip role host "up" 7 0 "" "" true ProbeOK "".

Definition pair_state : ReplicationState :=
  mkReplicationState
    (<["10.0.0.1" := pair_node "lr-redis-0" "10.0.0.1" RoleMaster ""]>
       {["10.0.0.2" := pair_node "lr-redis-1" "10.0.0.2" "slave" "10.0.0.1"]}) ∅ ∅ ∅ "" false false.

Lemma pair_pods (P : CliPod → Prop) : Forall P (cc_RedisPods pair_context) → ∀ p, p ∈ cc_RedisPods pair_context → P p.
Proof. apply Forall_forall. Qed.

Lemma pair_shown : shown pair_context pair_state.
Proof.
  split; [done|decide_true|..].
  - apply pair_pods. by repeat constructor.
  - apply pair_pods. repeat (apply Forall_cons; split); try apply Forall_nil_2; (split; [done|by exists 3]).
  - apply pair_pods. repeat (apply Forall_cons; split); try apply Forall_nil_2; apply NoDup_singleton.
  - intros ip [rn Hrn]. unfold pair_state in Hrn. cbn [rs_RedisNodes] in Hrn.
    apply lookup_insert_Some in Hrn as [[<- _]|[_ [<- _]%lookup_singleton_Some]];
      (split; [done|]).
    + eexists; split; [left|done].
    + eexists; split; [right; left|done].
Qed.

Lemma healthy_verdict_sound_witness :
  let a := @Analyze ref_runtime (@failoverPodViews ref_runtime pair_context) pair_state in
  Healthy a = true ∧ an_AuthorityIP a = "10.0.0.1" ∧
  @planFailoverRepoints ref_runtime pair_state "10.0.0.1" = [].
Proof.
  intros a. assert (Hh : Healthy a = true) by (vm_compute; reflexivity).
  destruct (@healthy_verdict_sound ref_runtime pair_context pair_state pair_shown) as (_ & _ & Hall).
  destruct (Hall Hh) as (_ & _ & _ & _ & Hnone & _). split; [exact Hh|]. split; [vm_compute; reflexivity|].
  apply Hnone. apply Forall_forall. by repeat constructor.
Defined.

(** Outside that case the mirror is not exact: the tool takes an assignment whose epoch does not
    parse for one at epoch 0, the operator for none. *)
Lemma unparsed_epoch_diverges :
  let p := stamped_pod "lr-redis-0" "10.0.0.1" RoleMaster "" "three" RoleMaster in
  it_MasterName (resolveIntent [cli_view ComponentRedis p]) = "lr-redis-0" ∧
  fi_masterName (resolveFailoverIntent [pod_view (Some pair_state) (cp_Pod p)]) = "".
Proof. by split; vm_compute. Qed.
