(* ===== verification/CliGather.v ===== *)
(** * The ground truth as [lrctl] reads it (src/cmd/lrctl/cmd/gatherer.go, sentinel_parse.go,
    redis_exec.go and the parsers of json_output.go)

    The command-line tool runs [redis-cli] inside the pods and parses what it prints, where the
    operator speaks the protocol.  [cliGatherer] is its implementation of the interface
    [Gatherer] of [Gather]; the execution of a command in a container is the argument [exec].
    The properties compare the two implementations, and the quoting of the commands with the
    word splitting of the shell. *)

From Stdlib Require Import Ascii.
From S2P Require Import Prelude GoStrings Probe ClusterNodes ClusterState ReplicationTypes Info.
From S2P Require Import Lineage ReplicationState Recovery Gather Kube Discovery.

Open Scope Z_scope.
Open Scope go_scope.

(** ** Definitions *)

(** [strings.ReplaceAll] of one byte. *)
Fixpoint replace_byte (c : ascii) (by_ s : string) : string :=
  match s with
  | EmptyString => EmptyString
  | String d s' => if Ascii.eqb d c then by_ +:+ replace_byte c by_ s' else String d (replace_byte c by_ s')
  end.

(** *** Commands *)

Definition squote : ascii := "'"%char.
Definition double_quote : ascii := "034"%char.

(** The five bytes that close the quotes, add a quoted quote, and open them again. *)
Definition escaped_quote : string :=
  String squote (String double_quote (String squote (String double_quote (String squote EmptyString)))).

Definition shell_quote (a : string) : string :=
  String squote (replace_byte squote escaped_quote a +:+ String squote EmptyString).

Definition shellJoin (args : list string) : string := str_join " " (shell_quote <$> args).

Definition qq : string := String double_quote (String double_quote EmptyString).
Definition q : string := String double_quote EmptyString.

Definition authShellPrefix : string :=
  "AUTH=" +:+ qq +:+ "; [ -n " +:+ q +:+ "$REDIS_PASSWORD" +:+ q +:+ " ] && AUTH=" +:+ q +:+
  "-a $REDIS_PASSWORD --no-auth-warning" +:+ q +:+ ";".

Definition redisCliArgs (args : list string) : list string :=
  ["sh"; "-c"; authShellPrefix +:+ " redis-cli $AUTH " +:+ shellJoin args].

Definition redisCliChainArgs (cmds : list (list string)) : list string :=
  ["sh"; "-c"; authShellPrefix +:+ " " +:+
     str_join (" && echo " +:+ q +:+ "---" +:+ q +:+ " && ") ((λ c, "redis-cli $AUTH " +:+ shellJoin c) <$> cmds)].

(** *** Replies of the Sentinels *)

Definition reply_lines (out : string) : list string := split_on lf (replace_byte cr "" out).

(** The pairs the loops [for i := 0; i < len(lines)-1; i++] read: each line with the next. *)
Definition adjacent (lines : list string) : list (string * string) :=
  (λ p, (trim_space p.1, trim_space p.2)) <$> zip lines (tail lines).

Definition atoiSafe (s : string) : Z := default 0 (atoi (trim_space s)).

Definition apply_resolve (resolve : option (string → string)) (v : string) : string :=
  match resolve with Some f => f v | None => v end.

(** [flush]: a replica without an address, or a master without a name, is dropped. *)
Definition flush_replica (reps : list ReplicaInfo) (cur : option ReplicaInfo) : list ReplicaInfo :=
  match cur with
  | Some r => if negb (ri_IP r =? "") then reps ++ [r] else reps
  | None => reps
  end.

Definition replica_round (resolve : option (string → string))
  (st : list ReplicaInfo * option ReplicaInfo) (kv : string * string) : list ReplicaInfo * option ReplicaInfo :=
  let '(reps, cur) := st in
  let '(key, val) := kv in
  if key =? "name" then (flush_replica reps cur, Some (mkReplicaInfo "" "" ""))
  else if key =? "ip" then
    (reps, (λ r, mkReplicaInfo (apply_resolve resolve val) (ri_Port r) (ri_Flags r)) <$> cur)
  else if key =? "port" then (reps, (λ r, mkReplicaInfo (ri_IP r) val (ri_Flags r)) <$> cur)
  else if key =? "flags" then (reps, (λ r, mkReplicaInfo (ri_IP r) (ri_Port r) val) <$> cur)
  else st.

Definition parseSentinelReplicas (out : string) (resolve : option (string → string)) : list ReplicaInfo :=
  let '(reps, cur) := foldl (replica_round resolve) ([], None) (adjacent (reply_lines out)) in
  flush_replica reps cur.

Definition flush_master (masters : list MonitoredMaster) (cur : option MonitoredMaster) : list MonitoredMaster :=
  match cur with
  | Some m => if negb (mm_Name m =? "") then masters ++ [m] else masters
  | None => masters
  end.

Definition master_round (resolve : option (string → string))
  (st : list MonitoredMaster * option MonitoredMaster) (kv : string * string)
  : list MonitoredMaster * option MonitoredMaster :=
  let '(masters, cur) := st in
  let '(key, val) := kv in
  if key =? "name" then (flush_master masters cur, Some (mkMonitoredMaster val "" "" ""))
  else if key =? "ip" then
    (masters, (λ m, mkMonitoredMaster (mm_Name m) (apply_resolve resolve val) (mm_Flags m) (mm_FailoverState m)) <$> cur)
  else if key =? "flags" then
    (masters, (λ m, mkMonitoredMaster (mm_Name m) (mm_IP m) val (mm_FailoverState m)) <$> cur)
  else if key =? "failover-state" then
    (masters, (λ m, mkMonitoredMaster (mm_Name m) (mm_IP m) (mm_Flags m) val) <$> cur)
  else st.

Definition parseSentinelMasters (out : string) (resolve : option (string → string)) : list MonitoredMaster :=
  let '(masters, cur) := foldl (master_round resolve) ([], None) (adjacent (reply_lines out)) in
  flush_master masters cur.

(** *** Identities *)

Fixpoint count_dots (s : string) (dots : Z) : option Z :=
  match s with
  | EmptyString => Some dots
  | String c s' => if Ascii.eqb c "."%char then count_dots s' (dots + 1)
                   else if is_digit c then count_dots s' dots else None
  end.

Definition isIP (s : string) : bool := bool_decide (count_dots s 0 = Some 3).

Definition resolveIdentityToIP (c : ClusterContext) (identity : string) : string :=
  if identity =? "" then ""
  else if isIP identity then identity
  else
    let podNameCandidate := default identity (before_byte "."%char identity) in
    let named p := (cp_Name p =? podNameCandidate) && negb (cp_IP p =? "") in
    match List.find named (cc_RedisPods c) with
    | Some p => cp_IP p
    | None => match List.find named (cc_SentinelPods c) with
              | Some p => cp_IP p
              | None => identity
              end
    end.

(** *** The gatherer *)

(** [fmt.Sscanf(s, "%d", &n)] into a variable that is 0: blanks, a sign, the longest run of
    digits; an error leaves the variable. *)
Fixpoint leading_digits (s : string) : string :=
  match s with
  | String c s' => if is_digit c then String c (leading_digits s') else EmptyString
  | EmptyString => EmptyString
  end.

Definition sscanf_d (s : string) : Z :=
  default 0 (match trim_left s with
             | String c s' => if Ascii.eqb c "-"%char || Ascii.eqb c "+"%char
                              then atoi (String c (leading_digits s'))
                              else atoi (leading_digits (String c s'))
             | EmptyString => None
             end).

Section Cli.
Context (exec : string → string → list string → result string) (c : ClusterContext).

Definition cli_GetRedisState (podName ip : string) : result RedisNodeState :=
  match exec podName (cc_RedisContainer c) (redisCliArgs ["info"]) with
  | inr err => inr err
  | inl stdout =>
      let role := ParseInfoField stdout "role" in
      let mHost := ParseInfoField stdout "master_host" in
      let link := ParseInfoField stdout "master_link_status" in
      let mHost := if negb (mHost =? "") then resolveIdentityToIP c mHost else mHost in
      let offsetStr := if role =? roleMaster then ParseInfoField stdout "master_repl_offset"
                       else ParseInfoField stdout "slave_repl_offset" in
      let offset := if negb (offsetStr =? "") then sscanf_d offsetStr else 0 in
      inl (mkRedisNode podName ip role mHost link offset (ParseKeyspaceKeys stdout)
             (ParseInfoField stdout "master_replid") (ParseInfoField stdout "master_replid2") true ProbeOK "")
  end.

Definition cli_monitoredMasters (podName : string) : list MonitoredMaster :=
  match exec podName (cc_SentinelContainer c) (redisCliArgs ["-p"; "26379"; "sentinel"; "masters"]) with
  | inr _ => []
  | inl stdout => parseSentinelMasters stdout (Some (resolveIdentityToIP c))
  end.

(** The fields of SENTINEL MASTER the loop collects. *)
Definition master_line (m : MasterInfo) (kv : string * string) : MasterInfo :=
  let '(line, next) := kv in
  if line =? "ip" then
    mkMasterInfo (resolveIdentityToIP c next) (mi_Port m) (mi_Name m) (mi_Flags m) (mi_FailoverState m)
      (mi_NumOtherSentinels m) (mi_NumSlaves m)
  else if line =? "failover-state" then
    mkMasterInfo (mi_IP m) (mi_Port m) (mi_Name m) (mi_Flags m) next (mi_NumOtherSentinels m) (mi_NumSlaves m)
  else if line =? "flags" then
    mkMasterInfo (mi_IP m) (mi_Port m) (mi_Name m) next (mi_FailoverState m) (mi_NumOtherSentinels m) (mi_NumSlaves m)
  else if line =? "num-other-sentinels" then
    mkMasterInfo (mi_IP m) (mi_Port m) (mi_Name m) (mi_Flags m) (mi_FailoverState m) (atoiSafe next) (mi_NumSlaves m)
  else if line =? "num-slaves" then
    mkMasterInfo (mi_IP m) (mi_Port m) (mi_Name m) (mi_Flags m) (mi_FailoverState m) (mi_NumOtherSentinels m)
      (atoiSafe next)
  else m.

Definition cli_GetSentinelState (podName ip masterName : string) : result SentinelNodeState :=
  match exec podName (cc_SentinelContainer c) (redisCliArgs ["-p"; "26379"; "sentinel"; "master"; masterName]) with
  | inr err =>
      if str_contains (err_text err) "ERR No such master"
      then inl (mkSentinelNode podName ip false "" true [] "" "" 0 0 (cli_monitoredMasters podName) ProbeOK "")
      else inr err
  | inl stdout =>
      let m := foldl master_line (mkMasterInfo "" "" "" "" "" 0 0) (adjacent (reply_lines stdout)) in
      let replicas :=
        match exec podName (cc_SentinelContainer c)
                (redisCliArgs ["-p"; "26379"; "sentinel"; "replicas"; masterName]) with
        | inl stdout => parseSentinelReplicas stdout (Some (resolveIdentityToIP c))
        | inr _ => []
        end in
      inl (mkSentinelNode podName ip true (mi_IP m) true replicas (mi_FailoverState m) (mi_Flags m)
             (mi_NumOtherSentinels m) (mi_NumSlaves m) (cli_monitoredMasters podName) ProbeOK "")
  end.

(** One command whose output is parsed. *)
Definition cli_read {A} (args : list string) (parse : string → A) (podName ip : string) : result A :=
  match exec podName (cc_RedisContainer c) (redisCliArgs args) with
  | inr err => inr err
  | inl stdout => inl (parse stdout)
  end.

Definition cliGatherer : Gatherer :=
  mkGatherer cli_GetRedisState cli_GetSentinelState
    (cli_read ["cluster"; "myid"] trim_space) (cli_read ["cluster"; "info"] ParseClusterInfo)
    (cli_read ["cluster"; "nodes"] ParseClusterNodes).

End Cli.

(** *** Replies as maps *)

(** Every second line is a key; the loop stops before a key without a value. *)
Fixpoint alternating (m : gmap string string) (lines : list string) : gmap string string :=
  match lines with
  | k :: v :: rest =>
      let key := trim_space k in
      alternating (if negb (key =? "") then <[key := trim_space v]> m else m) rest
  | _ => m
  end.

Definition parseAlternatingKV (output : string) : gmap string string :=
  alternating ∅ (split_on lf (replace_byte cr "" (trim_space output))).

Definition parseInfoKV (output : string) : gmap string string :=
  foldl (λ m line0,
    let line := trim_space line0 in
    if (line =? "") || has_prefix line "#" then m
    else match split2_on ":"%char line with
         | [k; v] => <[trim_space k := trim_space v]> m
         | _ => m
         end) ∅ (split_on lf output).

(** ** Quoting and the shell *)

(** Word splitting of a POSIX shell on a line without expansions: blanks separate words,
    single quotes keep everything up to the next one, double quotes keep the bytes that are not
    special in them; a word exists as soon as a quote has been opened.  [None] is a line with an
    unquoted or half-quoted special byte, or with an open quote. *)
Inductive sh_mode := Between | InWord | InSingle | InDouble.

Definition sh_special : list ascii :=
  ["$"; "`"; "\"; ";"; "&"; "|"; "<"; ">"; "("; ")"; "*"; "?"; "["; "#"; "~"; lf; "009"]%char.

Definition sh_double_special : list ascii := ["$"; "`"; "\"]%char.

Fixpoint sh_split (mode : sh_mode) (word : string) (s : string) : option (list string) :=
  match s with
  | EmptyString =>
      match mode with Between => Some [] | InWord => Some [word] | _ => None end
  | String c s' =>
      match mode with
      | InSingle => if Ascii.eqb c squote then sh_split InWord word s'
                    else sh_split InSingle (word +:+ String c EmptyString) s'
      | InDouble => if Ascii.eqb c double_quote then sh_split InWord word s'
                    else if bool_decide (c ∈ sh_double_special) then None
                    else sh_split InDouble (word +:+ String c EmptyString) s'
      | Between | InWord =>
          if Ascii.eqb c " "%char then
            match mode with InWord => cons word <$> sh_split Between EmptyString s'
                          | _ => sh_split Between EmptyString s' end
          else if Ascii.eqb c squote then sh_split InSingle word s'
          else if Ascii.eqb c double_quote then sh_split InDouble word s'
          else if bool_decide (c ∈ sh_special) then None
          else sh_split InWord (word +:+ String c EmptyString) s'
      end
  end.

Definition sh_words (line : string) : option (list string) := sh_split Between EmptyString line.

Lemma app_empty s : s +:+ "" = s.
Proof. induction s as [|c s IH]; [done|]. by rewrite app_cons, IH. Qed.

(** Within single quotes an escaped argument is read back byte by byte. *)
Lemma sh_split_escaped a : ∀ word rest,
  sh_split InSingle word (replace_byte squote escaped_quote a +:+ String squote rest) =
  sh_split InWord (word +:+ a) rest.
Proof.
  induction a as [|c a IH]; intros word rest.
  { cbn [replace_byte]. change ("" +:+ String squote rest) with (String squote rest). by rewrite app_empty. }
  cbn [replace_byte]. destruct (Ascii.eqb_spec c squote) as [->|Hc].
  - unfold escaped_quote. rewrite !app_cons. change ("" +:+ ?x) with x.
    cbn [sh_split]. rewrite string_app_assoc.
    transitivity (sh_split InSingle (word +:+ String squote "")
                    (replace_byte squote escaped_quote a +:+ String squote rest)); [reflexivity|].
    by rewrite IH, string_app_assoc.
  - rewrite app_cons. cbn [sh_split]. rewrite (proj2 (Ascii.eqb_neq c squote) Hc), IH.
    by rewrite string_app_assoc.
Qed.

Lemma sh_split_quoted a rest : sh_split Between EmptyString (shell_quote a +:+ rest) = sh_split InWord a rest.
Proof.
  unfold shell_quote. rewrite app_cons, string_app_assoc.
  change (String squote EmptyString +:+ rest) with (String squote rest).
  transitivity (sh_split InSingle "" (replace_byte squote escaped_quote a +:+ String squote rest)); [reflexivity|].
  by rewrite sh_split_escaped.
Qed.

(** C37. Whatever bytes the arguments contain, quotes and dollar signs included, the shell that runs
    the command hands [redis-cli] exactly these arguments: nothing in a master name or another
    argument is interpreted. *)
Theorem shellJoin_roundtrip (args : list string) : sh_words (shellJoin args) = Some args.
Proof.
  unfold sh_words, shellJoin. induction args as [|a args IH]; [done|]. cbn [fmap list_fmap].
  destruct args as [|b args].
  - cbn [str_join fmap list_fmap]. rewrite <- (app_empty (shell_quote a)). by rewrite sh_split_quoted.
  - cbn [fmap list_fmap] in IH |- *. cbn [str_join] in IH |- *.
    rewrite sh_split_quoted. change (" " +:+ ?x) with (String " " x). cbn [sh_split Ascii.eqb].
    change (Ascii.eqb " " " ") with true. cbn iota. by rewrite IH.
Qed.

(** ** What [redis-cli] prints *)

Definition cli_newline : string := String lf EmptyString.

(** The output for an array reply when it is not written to a terminal: the elements of nested
    arrays one per line. *)
Definition flat (kvs : list (string * string)) : list string := mjoin ((λ kv, [kv.1; kv.2]) <$> kvs).
Definition cli_text (records : list (list (string * string))) : string :=
  str_join cli_newline (flat (mjoin records)) +:+ cli_newline.

(** A word without line breaks and without blanks around it. *)
Definition tidy (s : string) : Prop := trim_space s = s ∧ byte_free lf s ∧ byte_free cr s.

(** The field names the parsers look for. *)
Definition keywords : list string :=
  ["name"; "ip"; "port"; "flags"; "failover-state"; "num-other-sentinels"; "num-slaves"].

(** Fields as the Sentinels of an instance send them: no value is itself one of the field names
    looked for, and an address is an address (host names are resolved only by the tool). *)
Definition plain_field (kv : string * string) : Prop :=
  tidy kv.1 ∧ tidy kv.2 ∧ kv.2 ∉ keywords ∧ (kv.1 = "ip" → isIP kv.2 = true).

(** One record of an array of records: its name comes first. *)
Definition named_record (r : list (string * string)) : Prop :=
  Forall plain_field r ∧ ∃ n rest, r = ("name", n) :: rest ∧ n ≠ "" ∧ "name" ∉ rest.*1.

Definition fields_from (m : gmap string string) (r : list (string * string)) : gmap string string :=
  foldl (λ m kv, <[kv.1 := kv.2]> m) m r.
Definition fields_of (r : list (string * string)) : gmap string string := fields_from ∅ r.

Lemma replace_cr_free s : byte_free cr s → replace_byte cr "" s = s.
Proof.
  induction s as [|c s IH]; [done|]. intros [Hc Hs]. cbn [replace_byte].
  by rewrite (proj2 (Ascii.eqb_neq c cr) Hc), IH.
Qed.

Lemma byte_free_join c sep l : byte_free c sep → Forall (byte_free c) l → byte_free c (str_join sep l).
Proof.
  intros Hsep Hl. induction Hl as [|x l Hx Hl IH]; [done|]. destruct l as [|y l]; [done|].
  cbn [str_join] in IH |- *. apply byte_free_app; [done|]. by apply byte_free_app.
Qed.

Lemma split_on_lines l : l ≠ [] → Forall (byte_free lf) l → split_on lf (str_join cli_newline l +:+ cli_newline) = l ++ [""].
Proof.
  intros Hne Hl. induction Hl as [|x l Hx Hl IH]; [done|]. destruct l as [|y l].
  - cbn [str_join]. change cli_newline with (String lf ""). by rewrite split_on_app.
  - cbn [str_join] in IH |- *. rewrite string_app_assoc, string_app_assoc.
    change (cli_newline +:+ ?z) with (String lf z). rewrite split_on_app by done. cbn [app]. f_equal. by apply IH.
Qed.

Lemma flat_forall (P : string → Prop) kvs : Forall (λ kv, P kv.1 ∧ P kv.2) kvs → Forall P (flat kvs).
Proof. induction 1 as [|kv kvs [? ?] _ IH]; [constructor|]. by repeat constructor. Qed.

(** The loops over adjacent lines see the pairs of a record and nothing else, because no value
    is a field name. *)
Lemma scan_flat {S} (step : S → string * string → S) (kvs : list (string * string)) : ∀ st,
  (∀ st k v, k ∉ keywords → step st (k, v) = st) → Forall plain_field kvs →
  foldl step st (adjacent (flat kvs ++ [""])) = foldl step st kvs.
Proof.
  induction kvs as [|[k v] kvs IH]; intros st Hskip; [done|].
  intros [(Hk & Hv & Hkw & _) Hall]%Forall_cons. cbn [fst snd] in *.
  change (flat ((k, v) :: kvs) ++ [""]) with (k :: v :: (flat kvs ++ [""])).
  destruct (flat kvs ++ [""]) as [|x xs] eqn:E; [by destruct (flat kvs)|].
  change (adjacent (k :: v :: x :: xs)) with
    ((trim_space k, trim_space v) :: (trim_space v, trim_space x) :: adjacent (x :: xs)).
  rewrite (proj1 Hk), (proj1 Hv). cbn [foldl]. rewrite (Hskip _ v) by done. by apply IH.
Qed.

Lemma scan_reply {S} (step : S → string * string → S) st records :
  (∀ st k v, k ∉ keywords → step st (k, v) = st) → Forall plain_field (mjoin records) →
  foldl step st (adjacent (reply_lines (cli_text records))) = foldl step st (mjoin records).
Proof.
  intros Hskip Hall. unfold reply_lines, cli_text.
  assert (Hcr : Forall (byte_free cr) (flat (mjoin records))).
  { apply flat_forall. eapply Forall_impl; [exact Hall|]. by intros kv ((_ & _ & ?) & (_ & _ & ?) & _). }
  assert (Hlf : Forall (byte_free lf) (flat (mjoin records))).
  { apply flat_forall. eapply Forall_impl; [exact Hall|]. by intros kv ((_ & ? & _) & (_ & ? & _) & _). }
  rewrite replace_cr_free by (apply byte_free_app; [by apply byte_free_join|done]).
  destruct (mjoin records) as [|kv kvs] eqn:E.
  - change (foldl step st [("", "")] = st). cbn [foldl]. apply Hskip. unfold keywords. decide_true.
  - rewrite split_on_lines by done. by apply scan_flat.
Qed.

Lemma field_insert (m : gmap string string) k v j : field (<[k := v]> m) j = if k =? j then v else field m j.
Proof.
  unfold field. destruct (String.eqb_spec k j) as [->|Hne]; [by rewrite lookup_insert_eq|by rewrite lookup_insert_ne].
Qed.

(** A key that is none of the field names changes no field that is read. *)
Lemma eqb_keyword k j : j ∈ keywords → k ∉ keywords → (k =? j) = false.
Proof. intros Hj Hk. apply String.eqb_neq. by intros ->. Qed.

Ltac keyword_step Hk :=
  rewrite ?(λ j Hj, eqb_keyword _ j Hj Hk) by (unfold keywords; decide_true).

Definition master_of_fields (m : gmap string string) : MonitoredMaster :=
  mkMonitoredMaster (field m "name") (field m "ip") (field m "flags") (field m "failover-state").

Lemma fields_from_keep k rest : ∀ m, k ∉ rest.*1 → fields_from m rest !! k = m !! k.
Proof.
  induction rest as [|kv rest IH]; intros m; [done|]. rewrite fmap_cons, not_elem_of_cons. intros [Hk Hr].
  change (fields_from m (kv :: rest)) with (fields_from (<[kv.1 := kv.2]> m) rest). rewrite IH by done.
  by apply lookup_insert_ne.
Qed.

(** The operator's reading of the same records. *)
Lemma masters_of_replies records : Forall named_record records →
  parseMonitoredMasters (resp2_record <$> records) = (λ r, master_of_fields (fields_of r)) <$> records.
Proof.
  unfold parseMonitoredMasters. induction 1 as [|r records (_ & n & rest & -> & Hn & Hrest) _ IH]; [done|].
  rewrite !fmap_cons. set (f := λ entry : reply, _) in *.
  assert (Hf : f (resp2_record (("name", n) :: rest)) = Some (master_of_fields (fields_of (("name", n) :: rest)))).
  { unfold f, resp2_record. cbn [recordFields mbind option_bind]. rewrite array_fields_record.
    fold (fields_from ∅ (("name", n) :: rest)). fold (fields_of (("name", n) :: rest)).
    unfold monitored_of_fields, master_of_fields. unfold field at 1.
    assert (Hl : fields_of (("name", n) :: rest) !! "name" = Some n).
    { change (fields_of (("name", n) :: rest)) with (fields_from (<["name" := n]> ∅) rest).
      by rewrite fields_from_keep, lookup_insert_eq. }
    rewrite Hl, (proj2 (String.eqb_neq _ _) Hn). done. }
  change (omap f (?x :: ?l)) with (match f x with Some y => y :: omap f l | None => omap f l end).
  cbn [omap list_omap]. rewrite Hf. by f_equal.
Qed.

Section Parity.
Context (c : ClusterContext).
Notation resolve := (resolveIdentityToIP c).

Lemma resolve_address v : isIP v = true → resolve v = v.
Proof. intros Hv. unfold resolveIdentityToIP. rewrite Hv. by destruct (String.eqb_spec v ""). Qed.

Lemma master_round_fields ms m kv : plain_field kv → kv.1 ≠ "name" →
  master_round (Some resolve) (ms, Some (master_of_fields m)) kv =
  (ms, Some (master_of_fields (<[kv.1 := kv.2]> m))).
Proof.
  destruct kv as [k v]. intros (_ & _ & _ & Hip) Hn. cbn [fst snd] in *. unfold master_round, master_of_fields.
  rewrite !field_insert. rewrite (proj2 (String.eqb_neq _ _) Hn). cbn [fmap option_fmap option_map mm_Name mm_IP mm_Flags mm_FailoverState apply_resolve].
  destruct (String.eqb_spec k "ip") as [->|_]; [by rewrite resolve_address by auto|].
  destruct (String.eqb_spec k "flags") as [->|_]; [done|].
  by destruct (String.eqb_spec k "failover-state") as [->|_].
Qed.

Lemma master_rounds_fields ms rest : ∀ m, Forall plain_field rest → "name" ∉ rest.*1 →
  foldl (master_round (Some resolve)) (ms, Some (master_of_fields m)) rest =
  (ms, Some (master_of_fields (fields_from m rest))).
Proof.
  induction rest as [|kv rest IH]; intros m; [done|]. rewrite Forall_cons, fmap_cons, not_elem_of_cons.
  intros [Hkv Hr] [Hn Hrest]. cbn [foldl]. rewrite master_round_fields by auto. by apply IH.
Qed.

(** The records of SENTINEL MASTERS, one flush late. *)
Lemma masters_of_records records : ∀ ms cur, Forall named_record records →
  (let '(ms', cur') := foldl (master_round (Some resolve)) (ms, cur) (mjoin records) in flush_master ms' cur') =
  flush_master ms cur ++ ((λ r, master_of_fields (fields_of r)) <$> records).
Proof.
  induction records as [|r records IH]; intros ms cur; [intros _; cbn; by rewrite app_nil_r|].
  intros [(Hp & n & rest & -> & Hn & Hrest) Hall]%Forall_cons. apply Forall_cons in Hp as [_ Hp].
  change (mjoin ((("name", n) :: rest) :: records)) with (("name", n) :: (rest ++ mjoin records)).
  cbn [foldl]. rewrite foldl_app.
  change (master_round (Some resolve) (ms, cur) ("name", n)) with
    (flush_master ms cur, Some (master_of_fields (<["name" := n]> ∅))).
  rewrite master_rounds_fields by done. rewrite IH by done. cbn [flush_master].
  assert (Hname : mm_Name (master_of_fields (fields_from (<["name" := n]> ∅) rest)) = n).
  { cbn. unfold field. by rewrite fields_from_keep, lookup_insert_eq. }
  rewrite Hname, (proj2 (String.eqb_neq _ _) Hn). cbn [negb]. rewrite <- app_assoc. done.
Qed.
(** *** Replicas *)

Lemma replica_round_fields rs m kv : plain_field kv → kv.1 ≠ "name" →
  replica_round (Some resolve) (rs, Some (replica_of m)) kv = (rs, Some (replica_of (<[kv.1 := kv.2]> m))).
Proof.
  destruct kv as [k v]. intros (_ & _ & _ & Hip) Hn. cbn [fst snd] in *. unfold replica_round, replica_of.
  rewrite !field_insert. rewrite (proj2 (String.eqb_neq _ _) Hn).
  cbn [fmap option_fmap option_map ri_IP ri_Port ri_Flags apply_resolve].
  destruct (String.eqb_spec k "ip") as [->|_]; [by rewrite resolve_address by auto|].
  destruct (String.eqb_spec k "port") as [->|_]; [done|].
  by destruct (String.eqb_spec k "flags") as [->|_].
Qed.

Lemma replica_rounds_fields rs rest : ∀ m, Forall plain_field rest → "name" ∉ rest.*1 →
  foldl (replica_round (Some resolve)) (rs, Some (replica_of m)) rest =
  (rs, Some (replica_of (fields_from m rest))).
Proof.
  induction rest as [|kv rest IH]; intros m; [done|]. rewrite Forall_cons, fmap_cons, not_elem_of_cons.
  intros [Hkv Hr] [Hn Hrest]. cbn [foldl]. rewrite replica_round_fields by auto. by apply IH.
Qed.

Lemma replicas_of_records records : ∀ rs cur,
  Forall (λ r, named_record r ∧ field (fields_of r) "ip" ≠ "") records →
  (let '(rs', cur') := foldl (replica_round (Some resolve)) (rs, cur) (mjoin records) in flush_replica rs' cur') =
  flush_replica rs cur ++ ((λ r, replica_of (fields_of r)) <$> records).
Proof.
  induction records as [|r records IH]; intros rs cur; [intros _; cbn; by rewrite app_nil_r|].
  intros [[(Hp & n & rest & -> & Hn & Hrest) Hip] Hall]%Forall_cons. apply Forall_cons in Hp as [_ Hp].
  change (mjoin ((("name", n) :: rest) :: records)) with (("name", n) :: (rest ++ mjoin records)).
  cbn [foldl]. rewrite foldl_app.
  change (replica_round (Some resolve) (rs, cur) ("name", n)) with
    (flush_replica rs cur, Some (replica_of (<["name" := n]> ∅))).
  rewrite replica_rounds_fields by done. rewrite IH by done. cbn [flush_replica].
  change (fields_of (("name", n) :: rest)) with (fields_from (<["name" := n]> ∅) rest) in Hip.
  change (ri_IP (replica_of (fields_from (<["name" := n]> ∅) rest))) with (field (fields_from (<["name" := n]> ∅) rest) "ip").
  rewrite (proj2 (String.eqb_neq _ _) Hip). cbn [negb]. by rewrite <- app_assoc.
Qed.

(** *** One master *)

(** What the loop over SENTINEL MASTER has collected when it has seen the fields [m]. *)
Definition collected (m : gmap string string) : MasterInfo :=
  mkMasterInfo (field m "ip") "" "" (field m "flags") (field m "failover-state")
    (atoiOrZero (field m "num-other-sentinels")) (atoiOrZero (field m "num-slaves")).

Lemma master_lines_fields rest : ∀ m, Forall plain_field rest →
  foldl (master_line c) (collected m) rest = collected (fields_from m rest).
Proof.
  induction rest as [|[k v] rest IH]; intros m; [done|]. rewrite Forall_cons. intros [(_ & _ & _ & Hip) Hr].
  cbn [foldl]. change (fields_from m ((k, v) :: rest)) with (fields_from (<[k := v]> m) rest).
  rewrite <- IH by done. f_equal. unfold master_line, collected. cbn [fst snd] in Hip. rewrite !field_insert.
  destruct (String.eqb_spec k "ip") as [->|_]; [by rewrite resolve_address by auto|].
  destruct (String.eqb_spec k "failover-state") as [->|_]; [done|].
  destruct (String.eqb_spec k "flags") as [->|_]; [done|].
  destruct (String.eqb_spec k "num-other-sentinels") as [->|_]; [done|].
  by destruct (String.eqb_spec k "num-slaves") as [->|_].
Qed.
End Parity.

(** ** INFO texts *)

Lemma length_app s t : String.length (s +:+ t) = (String.length s + String.length t)%nat.
Proof. induction s as [|a s IH]; [done|]. rewrite app_cons. cbn [String.length]. by rewrite IH. Qed.

Lemma scan_info_short prefix rest : ∀ bol, (String.length rest ≤ String.length prefix)%nat →
  scan_info prefix bol rest = "".
Proof.
  induction rest as [|a rest IH]; intros bol Hl; [done|]. cbn [scan_info].
  rewrite (proj2 (Nat.ltb_ge _ _) Hl), andb_false_r. apply IH. cbn in Hl. lia.
Qed.

Lemma has_prefix_newline p : byte_free lf p → ∀ t, has_prefix (t +:+ cli_newline) p = has_prefix t p.
Proof.
  induction p as [|a p IH]; intros Hp t; [by destruct t|]. destruct Hp as [Ha Hp]. destruct t as [|b t].
  - change ("" +:+ cli_newline) with cli_newline. unfold cli_newline. rewrite has_prefix_cons.
    by rewrite (proj2 (Ascii.eqb_neq a lf) Ha).
  - by rewrite app_cons, !has_prefix_cons, IH.
Qed.

Lemma has_prefix_length p : ∀ t, has_prefix t p = true → (String.length p ≤ String.length t)%nat.
Proof.
  induction p as [|a p IH]; intros t; [cbn; lia|]. destruct t as [|b t]; [done|].
  rewrite has_prefix_cons. intros [_ Hp]%andb_true_iff. cbn. specialize (IH t Hp). lia.
Qed.

Lemma str_drop_prefix n : ∀ s t, (n ≤ String.length s)%nat → str_drop n (s +:+ t) = str_drop n s +:+ t.
Proof. induction n as [|n IH]; intros s t Hn; [done|]. destruct s as [|a s]; cbn in Hn; [lia|]. apply IH. lia. Qed.

Lemma info_value_newline s : info_value (s +:+ cli_newline) = info_value s.
Proof.
  induction s as [|a s IH]; [done|]. rewrite app_cons. cbn [info_value]. rewrite IH. done.
Qed.

(** The cli_newline [redis-cli] adds does not change what is read. *)
Lemma scan_info_newline p t : byte_free lf p → p ≠ "" → ∀ bol, scan_info p bol (t +:+ cli_newline) = scan_info p bol t.
Proof.
  intros Hp Hne. induction t as [|a t IH]; intros bol.
  { change ("" +:+ cli_newline) with cli_newline. apply scan_info_short. destruct p; [done|cbn; lia]. }
  rewrite app_cons. cbn [scan_info]. rewrite <- app_cons, IH, has_prefix_newline, length_app by done.
  destruct bol; [|done]. cbn [andb]. destruct (has_prefix (String a t) p) eqn:Hpre; [|by rewrite !andb_false_r].
  rewrite !andb_true_r. pose proof (has_prefix_length _ _ Hpre) as Hle.
  rewrite (proj2 (Nat.ltb_lt _ _)) by (cbn [String.length cli_newline] in *; lia).
  rewrite str_drop_prefix, info_value_newline by done.
  destruct (Nat.ltb_spec (String.length p) (String.length (String a t))); [done|].
  assert (Hlen : String.length p = String.length (String a t)) by lia.
  rewrite scan_info_short by (cbn in Hlen; lia).
  rewrite Hlen. clear. induction (String a t) as [|b s IH]; [done|exact IH].
Qed.

Lemma ParseInfoField_newline t f : byte_free lf f → ParseInfoField (t +:+ cli_newline) f = ParseInfoField t f.
Proof.
  intros Hf. apply scan_info_newline; [by apply byte_free_app|]. by destruct f.
Qed.

Lemma split_on_newline s : split_on lf (s +:+ cli_newline) = split_on lf s ++ [""].
Proof.
  induction s as [|a s IH]; [done|]. rewrite app_cons. cbn [split_on]. rewrite IH.
  destruct (Ascii.eqb a lf); [done|]. by destruct (split_on lf s) eqn:E; [apply split_on_ne_nil in E|].
Qed.

Lemma ParseKeyspaceKeys_newline t : ParseKeyspaceKeys (t +:+ cli_newline) = ParseKeyspaceKeys t.
Proof. unfold ParseKeyspaceKeys. by rewrite split_on_newline, foldl_app. Qed.

(** *** Offsets *)

Lemma scan_uint_digits s : ∀ acc v, parse_digits acc s = Some v → 0 ≤ acc → v ≤ 2 ^ 64 - 1 → scan_uint acc s = Some v.
Proof.
  assert (Hmono : ∀ s acc v, parse_digits acc s = Some v → 0 ≤ acc → acc ≤ v).
  { clear s. induction s as [|a s IH]; intros acc v; cbn; [intros [= ->]; lia|].
    destruct (Ascii.is_nat a) as [d|]; [|done]. intros H Ha. specialize (IH _ _ H). lia. }
  induction s as [|a s IH]; intros acc v; cbn [parse_digits scan_uint]; [done|].
  destruct (Ascii.is_nat a) as [d|]; [|done]. intros Hp Ha Hv.
  pose proof (Hmono _ _ _ Hp ltac:(lia)). rewrite (proj2 (Z.ltb_ge _ _)) by lia. by apply IH; [|lia|].
Qed.

Lemma leading_digits_all s : all_digits s → leading_digits s = s.
Proof.
  induction s as [|a s IH]; [done|]. intros [Ha Hs]. cbn [leading_digits]. unfold is_digit.
  rewrite bool_decide_eq_true_2 by (by apply not_eq_None_Some). by rewrite IH.
Qed.

Lemma digit_not_special a : Ascii.is_nat a ≠ None →
  Ascii.eqb a "-" = false ∧ Ascii.eqb a "+" = false ∧ Ascii.is_space a = false.
Proof. destruct a as [[] [] [] [] [] [] [] []]; cbn; by intros ?. Qed.

(** A number in decimal: its digits, behind a sign if it is negative. *)
Lemma itoa_shape z : ∃ ds, all_digits ds ∧ ds ≠ "" ∧ parse_digits 0 ds = Some (Z.abs z) ∧
  itoa z = if (z <? 0)%Z then String "-" ds else ds.
Proof.
  exists (pretty (Z.to_N (Z.abs z))). split; [apply all_digits_pretty_N|]. split; [apply pretty_N_ne_empty|]. split.
  - pose proof (parse_unsigned_pretty (Z.to_N (Z.abs z))) as Hp. pose proof (pretty_N_ne_empty (Z.to_N (Z.abs z))).
    unfold parse_unsigned in Hp. rewrite Z2N.id in Hp by lia. by destruct (pretty _).
  - destruct z; [done..|]. done.
Qed.

Lemma sscanf_itoa z : in_int64 z = true → sscanf_d (itoa z) = z.
Proof.
  intros Hz. pose proof (atoi_itoa z Hz) as Ha. destruct (itoa_shape z) as (ds & Hd & Hne & _ & Hi). rewrite Hi in Ha |- *.
  unfold sscanf_d. destruct (z <? 0)%Z.
  - cbn [trim_left]. change (Ascii.is_space "-") with false. cbn iota. rewrite Ascii.eqb_refl. cbn [orb].
    rewrite leading_digits_all by done. by rewrite Ha.
  - destruct ds as [|a ds]; [done|]. destruct (digit_not_special a (proj1 Hd)) as (H1 & H2 & H3).
    cbn [trim_left]. rewrite H3, H1, H2. cbn [orb]. rewrite leading_digits_all by done. by rewrite Ha.
Qed.

Lemma atoi_or_zero_itoa z : in_int64 z = true → atoi_or_zero (itoa z) = z.
Proof.
  unfold in_int64, int64_min, int64_max. intros [Hlo%Z.leb_le Hhi%Z.leb_le]%andb_true_iff.
  destruct (itoa_shape z) as (ds & Hd & Hne & Hp & ->).
  assert (Hu : parse_uint ds = Some (Z.abs z)).
  { unfold parse_uint. destruct ds; [done|]. apply scan_uint_digits; [done|lia|lia]. }
  unfold atoi_or_zero, int64_min, int64_max. destruct (Z.ltb_spec z 0).
  - rewrite Ascii.eqb_refl, Hu. cbn. lia.
  - destruct ds as [|a ds]; [done|]. destruct (digit_not_special a (proj1 Hd)) as (-> & -> & _).
    rewrite Hu. lia.
Qed.

(** ** The two gatherers *)

Section Same.
Context (exec : string → string → list string → result string) (c : ClusterContext) (w : Wire) (masterName : string).

(** An INFO text with a decimal offset and a numeric master address. *)
Definition plain_info (text : string) : Prop :=
  (ParseInfoField text "master_host" = "" ∨ isIP (ParseInfoField text "master_host") = true) ∧
  ∀ f, f ∈ ["master_repl_offset"; "slave_repl_offset"] →
    ParseInfoField text f = "" ∨ ∃ z, in_int64 z = true ∧ ParseInfoField text f = itoa z.

(** The data pod answers the operator's INFO, and [redis-cli] in the pod prints that answer. *)
Definition redis_answers (podName ip : string) : Prop :=
  ∃ text, wire_info w (address ip RedisPort) = inl text ∧ plain_info text ∧
    exec podName (cc_RedisContainer c) (redisCliArgs ["info"]) = inl (text +:+ cli_newline).

Definition sentinel_cmd (podName : string) (args : list string) : result string :=
  exec podName (cc_SentinelContainer c) (redisCliArgs (["-p"; "26379"; "sentinel"] ++ args)).

(** The Sentinel answers about the master, and lists its masters and the replicas or fails to
    for both readers. *)
Definition sentinel_answers (podName ip : string) : Prop :=
  let addr := address ip SentinelPort in
  (∃ m, wire_master w addr masterName = inl (fields_of m) ∧ Forall plain_field m ∧
        sentinel_cmd podName ["master"; masterName] = inl (cli_text [m])) ∧
  ((∃ rs, wire_masters w addr = inl (resp2_record <$> rs) ∧ Forall named_record rs ∧
          sentinel_cmd podName ["masters"] = inl (cli_text rs)) ∨
   (∃ e e', wire_masters w addr = inr e ∧ sentinel_cmd podName ["masters"] = inr e')) ∧
  ((∃ rs, wire_replicas w addr masterName = inl (fields_of <$> rs) ∧
          Forall (λ r, named_record r ∧ field (fields_of r) "ip" ≠ "") rs ∧
          sentinel_cmd podName ["replicas"; masterName] = inl (cli_text rs)) ∨
   (∃ e e', wire_replicas w addr masterName = inr e ∧ sentinel_cmd podName ["replicas"; masterName] = inr e')).

Lemma cli_redis_same podName ip : redis_answers podName ip →
  cli_GetRedisState exec c podName ip = operator_GetRedisState w podName ip.
Proof.
  intros (text & Hw & [Hhost Hoff] & Hx). unfold cli_GetRedisState, operator_GetRedisState, GetReplicationInfo.
  rewrite Hx, Hw. unfold snapshot_of_info. cbn [snap_Role snap_MasterHost snap_MasterLinkStatus snap_Offset snap_Keys snap_Replid snap_Replid2].
  rewrite !ParseInfoField_newline, ParseKeyspaceKeys_newline by (cbn; split_and!; done).
  assert (Hnum : ∀ f, f ∈ ["master_repl_offset"; "slave_repl_offset"] →
    (if negb (ParseInfoField text f =? "") then sscanf_d (ParseInfoField text f) else 0) =
    (if negb (ParseInfoField text f =? "") then atoi_or_zero (ParseInfoField text f) else 0)).
  { intros f Hf. destruct (Hoff f Hf) as [->|(z & Hz & ->)]; [done|]. by rewrite sscanf_itoa, atoi_or_zero_itoa. }
  assert (Hh : (if negb (ParseInfoField text "master_host" =? "") then resolveIdentityToIP c (ParseInfoField text "master_host")
                else ParseInfoField text "master_host") = ParseInfoField text "master_host").
  { destruct Hhost as [->|Hh]; [done|]. rewrite resolve_address by done. by destruct (negb _). }
  rewrite Hh. do 2 f_equal.
  destruct (ParseInfoField text "role" =? roleMaster); apply Hnum; [left|right; left].
Qed.
Lemma master_skip res : ∀ st k v, k ∉ keywords → master_round res st (k, v) = st.
Proof. intros [ms cur] k v Hk. unfold master_round. by keyword_step Hk. Qed.

Lemma replica_skip res : ∀ st k v, k ∉ keywords → replica_round res st (k, v) = st.
Proof. intros [rs cur] k v Hk. unfold replica_round. by keyword_step Hk. Qed.

Lemma line_skip : ∀ m k v, k ∉ keywords → master_line c m (k, v) = m.
Proof. intros m k v Hk. unfold master_line. by keyword_step Hk. Qed.

Lemma named_plain rs : Forall named_record rs → Forall plain_field (mjoin rs).
Proof. induction 1 as [|r rs [Hr _] _ IH]; [constructor|]. by apply Forall_app. Qed.

Lemma cli_masters_same podName ip : sentinel_answers podName ip →
  cli_monitoredMasters exec c podName = monitoredMasters w (address ip SentinelPort).
Proof.
  intros (_ & Hm & _). unfold cli_monitoredMasters, monitoredMasters, GetMonitoredMasters.
  change (exec podName _ _) with (sentinel_cmd podName ["masters"]).
  destruct Hm as [(rs & -> & Hrs & ->)|(e & e' & -> & ->)]; [|done].
  unfold parseSentinelMasters. rewrite scan_reply by (apply master_skip || by apply named_plain).
  rewrite masters_of_replies by done. exact (masters_of_records c rs [] None Hrs).
Qed.

Lemma cli_sentinel_same podName ip : masterName ≠ "" → sentinel_answers podName ip →
  cli_GetSentinelState exec c podName ip masterName = operator_GetSentinelState w podName ip masterName.
Proof.
  intros Hne Hs. unfold cli_GetSentinelState, operator_GetSentinelState.
  rewrite (proj2 (String.eqb_neq _ _) Hne), (cli_masters_same podName ip Hs).
  destruct Hs as ((m & Hm & Hp & Hx) & _ & Hr).
  change (exec podName _ (redisCliArgs ["-p"; "26379"; "sentinel"; "master"; masterName]))
    with (sentinel_cmd podName ["master"; masterName]).
  change (exec podName _ (redisCliArgs ["-p"; "26379"; "sentinel"; "replicas"; masterName]))
    with (sentinel_cmd podName ["replicas"; masterName]).
  rewrite Hx. unfold GetMasterState. cbn [first_answer]. rewrite Hm.
  rewrite scan_reply by (apply line_skip || by cbn; rewrite app_nil_r).
  change (mjoin [m]) with (m ++ []). rewrite app_nil_r.
  change (mkMasterInfo "" "" "" "" "" 0 0) with (collected ∅). rewrite (master_lines_fields c) by done.
  fold (fields_of m). cbn [collected master_info_of mi_IP mi_Flags mi_FailoverState mi_NumOtherSentinels mi_NumSlaves].
  do 2 f_equal. unfold GetReplicas. cbn [first_answer]. unfold getReplicasFromSentinel.
  destruct Hr as [(rs & -> & Hrs & ->)|(e & e' & -> & ->)]; [|done].
  unfold parseSentinelReplicas. rewrite scan_reply; [|apply replica_skip|].
  - rewrite <- list_fmap_compose. exact (replicas_of_records c rs [] None Hrs).
  - apply named_plain. eapply Forall_impl; [exact Hrs|]. by intros r [? _].
Qed.
End Same.

(** ** Properties *)

(** C28. The tool and the operator see the same instance, where the answers are plain.  Every
    data pod answers INFO, and every Sentinel answers about the managed master, to both of
    them, and [redis-cli] prints the answers the operator receives; the lists of masters and
    replicas are answered to both or to neither.  The answers are plain: addresses and
    [master_host] are numeric, offsets are decimal numbers of 64 bits, values have no line
    breaks or outer blanks, every record starts with its one name, and no value is itself one
    of the field names the tool looks for (a master called "name" or "ip", which the CRD
    admits, is excluded: see [field_named_master]).  Then the replication state [lrctl]
    gathers by running commands in the pods is the one the operator gathers over the network:
    nodes, roles, links, offsets, keys, replicas, every monitored master name, and with them
    the master both derive. *)
Theorem lrctl_operator_parity `{GoRuntime} exec (c : ClusterContext) (w : Wire) (masterName : string)
  (redisPods sentinelPods : gmap string string) (owned : gmap string bool) :
  masterName ≠ "" →
  (∀ ip name, redisPods !! ip = Some name → redis_answers exec c w name ip) →
  (∀ ip name, sentinelPods !! ip = Some name → sentinel_answers exec c w masterName name ip) →
  GatherReplicationState (cliGatherer exec c) redisPods sentinelPods masterName owned =
  GatherReplicationState (operatorGatherer w) redisPods sentinelPods masterName owned.
Proof.
  intros Hne Hr Hs. unfold GatherReplicationState.
  assert (Hredis : (λ '(ip, name), (ip, probe_redis (cliGatherer exec c) ip name)) <$> go_range [96] redisPods =
                   (λ '(ip, name), (ip, probe_redis (operatorGatherer w) ip name)) <$> go_range [96] redisPods).
  { apply list_fmap_ext. intros i [ip name] Hi%list_elem_of_lookup_2. rewrite go_range_perm, elem_of_map_to_list in Hi.
    unfold probe_redis. cbn [g_GetRedisState cliGatherer operatorGatherer]. by rewrite (cli_redis_same exec c w name ip (Hr _ _ Hi)). }
  assert (Hsent : (λ '(ip, name), (ip, probe_sentinel (cliGatherer exec c) masterName ip name)) <$> go_range [118] sentinelPods =
                  (λ '(ip, name), (ip, probe_sentinel (operatorGatherer w) masterName ip name)) <$> go_range [118] sentinelPods).
  { apply list_fmap_ext. intros i [ip name] Hi%list_elem_of_lookup_2. rewrite go_range_perm, elem_of_map_to_list in Hi.
    unfold probe_sentinel. cbn [g_GetSentinelState cliGatherer operatorGatherer].
    by rewrite (cli_sentinel_same exec c w masterName name ip Hne (Hs _ _ Hi)). }
  by rewrite Hredis, Hsent.
Qed.

(** *** Witnesses *)

Definition solo_info : string :=
  render_info [("role", "master"); ("master_repl_offset", "99"); ("master_replid", "8f3a"); ("db0", "keys=42,expires=0")].
Definition solo_master : list (string * string) :=
  [("name", "ns.cache"); ("ip", "10.0.0.1"); ("port", "6379"); ("flags", "master"); ("num-slaves", "1");
   ("num-other-sentinels", "0")].
Definition solo_replica : list (string * string) :=
  [("name", "10.0.0.2:6379"); ("ip", "10.0.0.2"); ("port", "6379"); ("flags", "slave")].

Definition solo_wire : Wire :=
  mkWire (λ _, inl solo_info) (λ _ _, inl (fields_of solo_master)) (λ _, inl (resp2_record <$> [solo_master]))
    (λ _ _, inl (fields_of <$> [solo_replica])) (λ _, inl RNil) (λ _, inl "") (λ _, inl "").

Definition solo_exec (podName container : string) (args : list string) : result string :=
  if decide (args = redisCliArgs ["info"]) then inl (solo_info +:+ cli_newline)
  else if decide (args = redisCliArgs ["-p"; "26379"; "sentinel"; "master"; "ns.cache"]) then inl (cli_text [solo_master])
  else if decide (args = redisCliArgs ["-p"; "26379"; "sentinel"; "masters"]) then inl (cli_text [solo_master])
  else inl (cli_text [solo_replica]).

Definition solo_context : ClusterContext := mkClusterContext "cache" "ns" "sentinel" "ns.cache" [] [] "redis" "sentinel".

Ltac free_of := cbn [byte_free]; repeat split; discriminate.
Ltac plain_record :=
  repeat (apply Forall_cons; split); try apply Forall_nil_2;
  unfold plain_field, tidy; cbn [fst snd];
  (split_and!; [reflexivity|free_of|free_of|reflexivity|free_of|free_of|unfold keywords; decide_true|done]).

Lemma solo_records : named_record solo_master ∧ named_record solo_replica.
Proof.
  split; (split; [unfold solo_master, solo_replica; plain_record|]);
    eexists _, _; (split; [reflexivity|split; [discriminate|decide_true]]).
Qed.

Lemma lrctl_operator_parity_witness :
  rs_RealMasterIP (@GatherReplicationState ref_runtime (cliGatherer solo_exec solo_context)
    {["10.0.0.1" := "cache-redis-0"]} {["10.0.0.9" := "cache-sentinel-0"]} "ns.cache" {["10.0.0.1" := true]}) = "10.0.0.1".
Proof.
  destruct solo_records as [Hm Hr].
  rewrite (@lrctl_operator_parity ref_runtime solo_exec solo_context solo_wire).
  - vm_compute. reflexivity.
  - discriminate.
  - intros ip name [<- <-]%lookup_singleton_Some. exists solo_info. split; [reflexivity|]. split; [|reflexivity].
    split; [left; vm_compute; reflexivity|].
    apply Forall_forall. repeat (apply Forall_cons; split); try apply Forall_nil_2;
      [right; exists 99|left]; vm_compute; by split || reflexivity.
  - intros ip name [<- <-]%lookup_singleton_Some. split_and!.
    + exists solo_master. split; [reflexivity|]. split; [apply Hm|reflexivity].
    + left. exists [solo_master]. split; [reflexivity|]. split; [by apply Forall_singleton|reflexivity].
    + left. exists [solo_replica]. split; [reflexivity|]. split; [|reflexivity].
      apply Forall_singleton. split; [exact Hr|]. vm_compute. discriminate.
Defined.

(** Outside that case the parsers disagree.  A master that is called like a field, which the
    validation of [spec.sentinel.masterName] admits, is read as two masters by the tool and as
    one by the operator. *)
Lemma field_named_master :
  let record := [("name", "name"); ("ip", "10.0.0.1"); ("flags", "master")] in
  mm_Name <$> parseSentinelMasters (cli_text [record]) None = ["name"; "ip"] ∧
  mm_Name <$> parseMonitoredMasters [resp2_record record] = ["name"].
Proof. by split; vm_compute. Qed.

(** A refusal that [redis-cli] prints instead of failing is taken for an answer: a Sentinel that
    does not know the master counts as monitoring one without an address. *)
Lemma printed_refusal_monitors :
  let exec _ _ _ := inl ("ERR No such master with that name" +:+ cli_newline) in
  (λ sn, (sn_Monitoring sn, sn_MasterIP sn)) <$>
    (match cli_GetSentinelState exec solo_context "cache-sentinel-0" "10.0.0.9" "ns.cache" with
     | inl sn => Some sn | inr _ => None end) = Some (true, "").
Proof. by vm_compute. Qed.
