(* ===== verification/Verify.v ===== *)
(** * The verdicts of [lrctl verify] and [lrctl status] (src/cmd/lrctl/cmd/verify.go,
    operation_report.go, cross_instance_report.go, master_name_scope.go, migration_banner.go,
    status.go and the verify results of json_output.go)

    What the tool prints about an instance, what it emits with [--json], and whether it exits
    with an error.  The clock and the layout of timestamps are arguments ([now], [format_time]);
    commands in the pods are run by [exec]. *)

From Stdlib Require Import Ascii.
From S2P Require Import Prelude GoStrings Probe ClusterNodes ClusterState Topology ReplicationTypes Info.
From S2P Require Import Lineage ReplicationState Recovery Capture Gather Operations Kube OperationWiring.
From S2P Require Import Migration Controller Spec Discovery Analyze CliGather.

Open Scope Z_scope.
Open Scope go_scope.

(** ** Definitions *)

(** *** Declared operations *)

Record operationView := mkOperationView {
  ov_Op : option OperationStatus;
  ov_Message : string;
}.

Definition operationViewOf (lr : option LittleRed) : operationView :=
  match lr with
  | None => mkOperationView None ""
  | Some lr =>
      match ls_Operation (lr_Status lr) with
      | None => mkOperationView None ""
      | Some op =>
          mkOperationView (Some op)
            (from_option cond_Message ""
               (FindStatusCondition (ls_Conditions (lr_Status lr)) ConditionOperationInProgress))
      end
  end.

Definition operationFails (op : option OperationStatus) : bool :=
  match op with
  | None => false
  | Some op => (os_Reason op =? operationReasonBlocked) || (os_Reason op =? operationReasonStalled)
  end.

(** [Duration.Round(time.Second)], half away from zero, in seconds. *)
Definition round_seconds (d : duration) : Z :=
  if (d <? 0)%Z then - ((- d + second / 2) / second) else (d + second / 2) / second.

(** [Duration.String] of a whole non-negative number of seconds. *)
Definition seconds_text (n : Z) : string :=
  let h := n / 3600 in
  let m := n / 60 `mod` 60 in
  (if (0 <? h)%Z then itoa h +:+ "h" else "") +:+
  (if (0 <? n / 60)%Z then itoa m +:+ "m" else "") +:+ itoa (n `mod` 60) +:+ "s".

Definition operationAge (op : option OperationStatus) (now : time) : string :=
  match op with
  | None => "an unknown duration"
  | Some op => if time_is_zero (os_StartedAt op) then "an unknown duration"
               else seconds_text (Z.max (round_seconds (time_sub now (os_StartedAt op))) 0)
  end.

Definition renderOperationVerify (format_time : time → string) (v : operationView) (now : time)
  : list string * bool :=
  match ov_Op v with
  | None => ([], false)
  | Some op =>
      let head :=
        [nl +:+ "Declared Operation:";
         "  " +:+ os_Name op +:+ " — " +:+ os_Reason op +:+ " for " +:+ operationAge (Some op) now +:+
         " (started " +:+ format_time (os_StartedAt op) +:+ ")"] ++
        (match os_Pending op with [] => [] | l => ["  Pending: " +:+ str_join ", " l] end) ++
        (if negb (ov_Message v =? "") then ["  Operator: " +:+ ov_Message v] else []) in
      let '(lines, fail) :=
        if os_Reason op =? operationReasonBlocked then
          (["  [FAIL] The operation cannot proceed and is not auto-skipped — head-of-line";
            "         blocking here is deliberate (ADR-020). Nothing will resolve it on its";
            "         own: read the OperationInProgress condition above for what it is";
            "         waiting on, and fix that."], true)
        else if os_Reason op =? operationReasonStalled then
          (["  [FAIL] The operation has outlived its StallAfter budget and is not auto-exited";
            "         (ADR-017: a timer would be the defect with a delay). It will stay in";
            "         this state until a human acts. Regular healing that ASSIGNS AUTHORITY";
            "         is stood down for as long as it holds."], true)
        else if os_Reason op =? operationReasonQuarantined then
          (["  [WARN] A heavy change is pending but held: the instance is quarantined and has";
            "         no pods to carry it out (ADR-016). It resumes when the quarantine";
            "         releases. The quarantine, not the operation, is what to investigate."], false)
        else if os_Reason op =? operationReasonRunning then
          (["  [OK] A declared heavy operation is in progress. This is a normal, expected";
            "       state and not a fault — regular healing that assigns authority is";
            "       deliberately stood down until it completes."], false)
        else (["  [WARN] Unrecognised operation state " +:+ Quote (os_Reason op) +:+
               " — this lrctl is older than the operator."], false) in
      (head ++ lines, fail)
  end.

Definition renderOperationStatus (v : operationView) (now : time) : list string :=
  match ov_Op v with
  | None => []
  | Some op =>
      let marker := if operationFails (Some op) then "[!] ACTION MAY BE REQUIRED — " else "" in
      ["Operation: " +:+ marker +:+ os_Name op +:+ " — " +:+ os_Reason op +:+ " for " +:+
       operationAge (Some op) now] ++
      (match os_Pending op with [] => [] | l => ["  Pending: " +:+ str_join ", " l] end) ++
      (if negb (ov_Message v =? "") then ["  " +:+ ov_Message v] else [])
  end.

Record operationJSON := mkOperationJSON {
  oj_Op : OperationStatus;
  oj_Message : string;
  oj_NeedsAction : bool;
}.

Definition operationJSONOf (v : operationView) : option operationJSON :=
  (λ op, mkOperationJSON op (ov_Message v) (operationFails (Some op))) <$> ov_Op v.

(** *** Migration *)

Definition migrationBanner (m : option ClusterMigrationStatus) : string :=
  match m with
  | None => ""
  | Some m =>
      if (cms_Phase m =? "") || (cms_Phase m =? migration_phase_text MigrationComplete) then ""
      else "Migration: " +:+ cms_Phase m +:+ " (" +:+ itoa (cms_ShardsMoved m) +:+ "/" +:+
           itoa (cms_TotalShards m) +:+ " shards moved) — legacy→per-shard in progress"
  end.

Definition clusterMigration (lr : option LittleRed) : option ClusterMigrationStatus :=
  lr ← lr; cst ← ls_Cluster (lr_Status lr); cst_Migration cst.

(** *** Status *)

(** A recovery condition, and the text after its label. *)
Definition recovery_text (cd : Condition) : string :=
  (match cond_Status cd with ConditionTrue => "[!] ACTION MAY BE REQUIRED" | _ => "[recovered]" end) +:+ " " +:+
  cond_Reason cd +:+ ": " +:+ cond_Message cd.

Definition ready_text (rt : ready_total) : string := itoa rt.1 +:+ "/" +:+ itoa rt.2 +:+ " Ready".

Definition printStatus (format_time : time → string) (now : time) (namespace : string) (lr : LittleRed)
  : list string :=
  let st := lr_Status lr in
  ["Cluster: " +:+ lr_Name lr; "Namespace: " +:+ namespace; "Phase: " +:+ phase_text (ls_Phase st);
   "Mode: " +:+ lr_Mode lr;
   match ls_Master st with
   | Some (pod, ip) => "Master: " +:+ pod +:+ " (IP: " +:+ ip +:+ ")"
   | None => "Master: <none>"
   end] ++
  (match ls_Sentinels st with Some rt => ["Sentinels: " +:+ ready_text rt] | None => [] end) ++
  (match ls_Replicas st with
   | Some rt => if lr_Mode lr =? ModeFailover then ["Replicas: " +:+ ready_text rt] else []
   | None => []
   end) ++
  ["Redis Nodes: " +:+ ready_text (ls_Redis st)] ++
  renderOperationStatus (operationViewOf (Some lr)) now ++
  (let banner := migrationBanner (clusterMigration (Some lr)) in if negb (banner =? "") then [banner] else []) ++
  (match ls_Failover st with
   | None => []
   | Some fo =>
       ["Assignment Epoch: " +:+ itoa (fo_AssignmentEpoch fo)] ++
       (match fo_MasterDownSince fo with
        | Some t => ["Master Down Since: [!] " +:+ format_time t +:+ " (detection window running)"] | None => [] end) ++
       (match fo_TransitionSince fo with Some t => ["Last Transition: " +:+ format_time t] | None => [] end)
   end) ++
  (match FindStatusCondition (ls_Conditions st) ConditionFailoverRecovery with
   | Some cd => ["Failover Recovery: " +:+ recovery_text cd] | None => [] end) ++
  (match FindStatusCondition (ls_Conditions st) ConditionLeaderlessRecovery with
   | Some cd => ["Leaderless Recovery: " +:+ recovery_text cd]
   | None => match ls_LeaderlessSince st with
             | Some t => ["Leaderless Recovery: [!] bare-Sentinel deadlock since " +:+ format_time t]
             | None => [] end
   end).

(** *** Master names *)

Definition classLabel (class : string) : string :=
  if class =? MasterNameDesired then "desired"
  else if class =? MasterNameStale then "stale — ours"
  else if class =? MasterNameForeign then "FOREIGN — not one of our pods, and alive"
  else class.

Definition flagsOrNone (flags : string) : string := if flags =? "" then valueNone else flags.
Definition addrOrUnknown (ip : string) : string :=
  if ip =? "" then "an address Sentinel did not report" else ip.
Definition quoteList (names : list string) : string := str_join ", " (Quote <$> names).

Definition renderMasterNameScope (scope : MasterNameScope) (desired : string) : list string * bool :=
  let findings :=
    match ms_Findings scope with
    | [] => []
    | l => "  Monitored master names (every name each Sentinel carries):" ::
           ((λ f, "    - " +:+ mf_SentinelPod f +:+ ": " +:+ Quote (mf_Name f) +:+ " at " +:+
                  addrOrUnknown (mf_IP f) +:+ ", flags:" +:+ flagsOrNone (mf_Flags f) +:+ "  (" +:+
                  classLabel (mf_Class f) +:+ ")") <$> l)
    end in
  let foreign :=
    match ms_Foreign scope with
    | [] => []
    | l => ["  [FAIL] Master name(s) " +:+ quoteList l +:+ " point at an address that is not one of this instance's";
            "         pods and is not flagged down — someone else's live master. This instance";
            "         may be captured, and a rename does not escape a capture: it converts a";
            "         diagnosed, self-healing capture into an undiagnosed leaderless refusal."]
    end in
  let stale :=
    match ms_Stale scope with
    | [] => []
    | l => ["  [FAIL] Stale master name(s) " +:+ quoteList l +:+ " are still monitored alongside " +:+ Quote desired +:+ ".";
            "         One instance under two names runs two independent failover state machines";
            "         over the same pods, which can promote different replicas (LR-039, LR-048).";
            "         The operator prunes them once its gates pass — read the StaleMasterName";
            "         condition on the CR, whose message names the gate that refused."]
    end in
  let unreported :=
    match ms_Unreported scope with
    | [] => []
    | l => ["  [WARN] Could not read the monitored master list from: " +:+ str_join ", " l +:+ " — a leftover name";
            "         there would not be visible to this check."]
    end in
  let fail := match ms_Foreign scope, ms_Stale scope with [], [] => false | _, _ => true end in
  let ok := match ms_Findings scope with
            | [] => []
            | _ => if fail then [] else ["  [OK] Every reachable Sentinel monitors only " +:+ Quote desired +:+ "."]
            end in
  (findings ++ foreign ++ stale ++ unreported ++ ok, fail).

Section Verdicts.
Context `{GoRuntime}.

(** *** Sentinel mode *)

Definition surplus_line (what : string) (sc : SentinelCount) : string :=
  "         - " +:+ sct_PodName sc +:+ " reports " +:+ itoa (sct_Reported sc) +:+ " " +:+ what +:+ "; " +:+
  itoa (sct_Expected sc) +:+ " were deployed".

(** [expectedSentinels] and [expectedReplicas]. *)
Definition expected_sentinels (c : ClusterContext) : Z := len (cc_SentinelPods c).
Definition expected_replicas (c : ClusterContext) : Z := Z.max (len (cc_RedisPods c) - 1) 0.

Definition reportCrossInstance (s : ReplicationState) (c : ClusterContext) : list string * bool :=
  let masterName := masterNameOf c in
  let head :=
    [nl +:+ "Sentinel Identity:"; "  Master name: " +:+ masterName] ++
    (if masterName =? LegacySentinelMasterName then
       ["  [WARN] This is the historic shared default. Every LittleRed instance using it";
        "         on this pod network shares one Sentinel identity and can absorb this";
        "         instance's topology. Set spec.sentinel.masterName (e.g. " +:+ cc_Namespace c +:+ "." +:+
        cc_Name c +:+ ")."]
     else []) in
  let '(scopeLines, scopeFail) :=
    if cc_SentinelMasterName c =? "" then
      (["  [WARN] The wanted master name is not known (no CR was read), so the";
        "         monitored-name check is skipped. Run without --unmanaged to check it."], false)
    else renderMasterNameScope (SurveyMonitoredNames (Some s) masterName) masterName in
  let ev := DetectCrossInstance s (expected_sentinels c) (expected_replicas c) in
  let evidence :=
    if negb (Any ev) then
      ["  [OK] No foreign Sentinel contact observed (" +:+ itoa (expected_sentinels c) +:+ " sentinels, " +:+
       itoa (expected_replicas c) +:+ " replicas expected)."]
    else
      ["  [FAIL] Evidence of another Sentinel deployment sharing this master name:"] ++
      (match ci_ForeignMasterIPs ev with
       | [] => []
       | l => ["         - monitored master is not one of this instance's pods, and is alive: " +:+ str_join ", " l]
       end) ++
      (match ci_ForeignReplicaIPs ev with
       | [] => []
       | l => ["         - Sentinel knows live replicas that are not this instance's pods: " +:+ str_join ", " l]
       end) ++
      (surplus_line "other sentinels" <$> ci_PeerSurplus ev) ++ (surplus_line "replicas" <$> ci_ReplicaSurplus ev) ++
      ["         This instance's data may already have been overwritten. See the";
       "         " +:+ q +:+ "Recovering a sentinel instance captured by another Sentinel deployment" +:+ q;
       "         runbook in docs/USAGE.md."] in
  (head ++ scopeLines ++ evidence, scopeFail).

Definition sentinelVerifyFailure (namespace name masterName realMasterIP : string) (healActions : Z)
  (staleNames stalledFailover : bool) : option string :=
  if stalledFailover then
    Some ("cluster " +:+ namespace +:+ "/" +:+ name +:+ " has a Sentinel stuck in a failover that cannot complete")
  else if (realMasterIP =? "") || (0 <? healActions)%Z then
    Some ("cluster " +:+ namespace +:+ "/" +:+ name +:+ " is not healthy or consistent")
  else if staleNames then
    Some ("cluster " +:+ namespace +:+ "/" +:+ name +:+ " does not monitor exactly one Sentinel master name (" +:+
          Quote masterName +:+ ")")
  else None.

Definition sentinel_line (sn : SentinelNodeState) : string :=
  "  - Sentinel " +:+ sn_PodName sn +:+ ": " +:+
  (if negb (sn_Reachable sn) then statusUnreachable
   else if sn_Monitoring sn then "monitoring " +:+ sn_MasterIP sn else "idle").

Definition redis_line (rn : RedisNodeState) : string :=
  "  - Redis " +:+ rn_PodName rn +:+ ": " +:+
  (if negb (rn_Reachable rn) then statusUnreachable
   else "role:" +:+ rn_Role rn +:+
        (if rn_Role rn =? "slave" then ", following:" +:+ rn_MasterHost rn +:+ ", link:" +:+ rn_LinkStatus rn else "") +:+
        ", keys:" +:+ itoa (rn_Keys rn)).

(** The lines about the master and a reported failover; the flag is [stalledFailover]. *)
Definition failover_report (s : ReplicationState) : list string * bool :=
  if negb (rs_FailoverReported s) then ([], false)
  else if rs_FailoverProgressing s then (["  [!] Sentinel reports failover in progress!"], false)
  else
    let stalled := sort_strings (sn_PodName <$> bfilter FailoverStalled (range_values [368] (rs_SentinelNodes s))) in
    (["  [FAIL] Sentinel failover STALLED on " +:+ slice_text stalled +:+ ": stuck in reconf_slaves with the promoted";
      "         replica down. It cannot end by itself and blocks further failovers on that";
      "         Sentinel. Clear with: SENTINEL RESET <master-name>"], true).

Definition verifySentinel (c : ClusterContext) (s : ReplicationState) : list string * option string :=
  let redisMap := pod_map (cc_RedisPods c) in
  let nodes :=
    ["Gathering Cluster Ground Truth..."; nl +:+ "Sentinel Status:"] ++
    (sentinel_line <$> range_values [321] (rs_SentinelNodes s)) ++ [nl +:+ "Redis Status:"] ++
    (redis_line <$> range_values [333] (rs_RedisNodes s)) in
  let master :=
    [nl +:+ "Ground Truth Summary:";
     if negb (rs_RealMasterIP s =? "") then
       "  [OK] Authority Master: " +:+
       or_text (at_key redisMap (rs_RealMasterIP s)) ("GHOST(" +:+ rs_RealMasterIP s +:+ ")") +:+
       " (" +:+ rs_RealMasterIP s +:+ ")"
     else "  [FAIL] Authority Master: NONE (Split Brain or Cluster not initialized)"] in
  let '(failover, stalledFailover) := failover_report s in
  let '(cross, staleNames) := reportCrossInstance s c in
  let actions := GetHealActions s (masterNameOf c) in
  let healing :=
    match actions with
    | [] => if negb (rs_RealMasterIP s =? "") && negb staleNames
            then [nl +:+ "[OK] Cluster configuration is consistent."] else []
    | l => (nl +:+ "Recommended Healing Actions:") :: ((λ a, "  - " +:+ a) <$> l)
    end in
  (nodes ++ master ++ failover ++ cross ++ healing,
   sentinelVerifyFailure (cc_Namespace c) (cc_Name c) (masterNameOf c) (rs_RealMasterIP s) (len actions)
     staleNames stalledFailover).

(** [--json]: the nodes are those of the gathered state; [classOf] is keyed by the pod and the
    name, which the source joins with a NUL byte. *)
Record masterNameScopeJSON := mkScopeJSON {
  mj_Desired : string;
  mj_Converged : bool;
  mj_Stale : list string;
  mj_Foreign : list string;
  mj_Unreported : list string;
}.

Record sentinelVerifyJSON := mkSentinelVerifyJSON {
  sv_Name : string;
  sv_Namespace : string;
  sv_RealMasterIP : string;
  sv_RealMasterPodName : string;
  sv_FailoverActive : bool;
  sv_Sentinels : list (SentinelNodeState * list (MonitoredMaster * string));
  sv_Redis : list RedisNodeState;
  sv_HealActions : list string;
  sv_Healthy : bool;
  sv_MasterName : string;
  sv_CrossInstance : option CrossInstanceEvidence;
  sv_MasterNameScope : option masterNameScopeJSON;
}.

Definition buildSentinelVerifyJSON (name namespace : string) (redisMap : gmap string string)
  (s : ReplicationState) (sentinelMasterName wantedName : string) (expectedSentinels expectedReplicas : Z)
  : sentinelVerifyJSON :=
  let actions := GetHealActions s sentinelMasterName in
  let ev := DetectCrossInstance s expectedSentinels expectedReplicas in
  let scope := SurveyMonitoredNames (Some s) wantedName in
  let classOf : gmap (string * string) string :=
    foldl (λ m f, <[(mf_SentinelPod f, mf_Name f) := mf_Class f]> m) ∅ (ms_Findings scope) in
  mkSentinelVerifyJSON name namespace (rs_RealMasterIP s)
    (if negb (rs_RealMasterIP s =? "") then at_key redisMap (rs_RealMasterIP s) else "")
    (rs_FailoverReported s)
    ((λ sn, (sn, (λ m, (m, default "" (classOf !! (sn_PodName sn, mm_Name m)))) <$> sn_MonitoredMasters sn)) <$>
       range_values [368] (rs_SentinelNodes s))
    (range_values [386] (rs_RedisNodes s)) actions
    (negb (rs_RealMasterIP s =? "") && (len actions =? 0)%Z && negb (rs_FailoverReported s) && Converged scope)
    sentinelMasterName (if Any ev then Some ev else None)
    (if negb (wantedName =? "")
     then Some (mkScopeJSON wantedName (Converged scope) (ms_Stale scope) (ms_Foreign scope) (ms_Unreported scope))
     else None).

Definition verifySentinelJSON (c : ClusterContext) (s : ReplicationState) (name namespace : string)
  : sentinelVerifyJSON :=
  buildSentinelVerifyJSON name namespace (pod_map (cc_RedisPods c)) s (masterNameOf c)
    (cc_SentinelMasterName c) (expected_sentinels c) (expected_replicas c).

(** *** Cluster mode *)

Definition node_line (gt : ClusterGroundTruth) (pod : CliPod) : string :=
  "  - Pod " +:+ cp_Name pod +:+ ": " +:+
  match gt_Nodes gt !! cp_Name pod with
  | Some n =>
      if negb (cn_Reachable n) then "[!] UNREACHABLE"
      else "role:" +:+ cn_Role n +:+ ", id:" +:+ cn_NodeID n +:+ ", " +:+
           (if cn_Role n =? roleMaster then "slots:" +:+ str_join "," (cn_Slots n)
            else "following:" +:+ cn_MasterNodeID n +:+ ", link:" +:+ cn_LinkStatus n)
  | None => "[!] UNREACHABLE"
  end.

Definition master_lines (gt : ClusterGroundTruth) (n : ClusterNodeState) : list string :=
  if negb (cn_Role n =? roleMaster) then []
  else
    ["  Master: " +:+ cn_PodName n +:+ " (" +:+ cn_NodeID n +:+ ")";
     match cn_Slots n with
     | [] => "    [!] NO SLOTS ASSIGNED"
     | l => "    Slots: " +:+ str_join " " l
     end] ++
    ((λ r, "    └── Replica: " +:+ cn_PodName r +:+ " (" +:+ cn_NodeID r +:+ ", link:" +:+ cn_LinkStatus r +:+ ")") <$>
       bfilter (λ r, (cn_Role r =? roleReplica) && (cn_MasterNodeID r =? cn_NodeID n))
         (range_values [229] (gt_Nodes gt))).

Definition violation_line (v : ShardColocationViolation) : string :=
  "  [FAIL] Replica " +:+ v_ReplicaPod v +:+ " (shard " +:+ itoa (v_ReplicaShard v) +:+ ") follows a master in shard " +:+
  itoa (v_MasterShard v) +:+ " (" +:+ v_MasterPod v +:+ ") — Redis shard spans two StatefulSets".

Definition link_down (n : ClusterNodeState) : bool := (cn_Role n =? roleReplica) && (cn_LinkStatus n =? "down").

Definition verifyCluster (c : ClusterContext) (gt : ClusterGroundTruth) : list string * option string :=
  let head :=
    ["Gathering Cluster Ground Truth..."; nl +:+ "Cluster State: " +:+ gt_ClusterState gt;
     "Total Slots Assigned: " +:+ itoa (gt_TotalSlots gt) +:+ " / 16384"; nl +:+ "Node Status:"] ++
    (node_line gt <$> cc_RedisPods c) in
  let ghosts :=
    match gt_GhostNodes gt with
    | [] => []
    | l => (nl +:+ "[!] Ghost Nodes Detected (present in cluster but not in K8s):") :: ((λ id, "  - " +:+ id) <$> l)
    end in
  let partitions :=
    if HasPartitions gt then
      (nl +:+ "[!] Network Partitions Detected:") ::
      imap (λ i p, "  Partition " +:+ itoa (Z.of_nat i) +:+ ": " +:+ str_join ", " p) (gt_Partitions gt)
    else [] in
  let topology :=
    (nl +:+ "Cluster Topology:") :: mjoin (master_lines gt <$> range_values [217] (gt_Nodes gt)) ++ [nl +:+ "Summary:"] in
  let expectedNodes := wrap32 (len (cc_RedisPods c)) in
  let expectedShards := wrap32 (CountMasters gt) in
  let healthy := IsHealthy gt expectedNodes expectedShards in
  let violations := CheckShardColocation gt in
  let '(verdict, err) :=
    if negb healthy || (0 <? len violations)%Z then
      (["  [FAIL] Cluster has topology or health issues!"],
       Some ("cluster " +:+ cc_Namespace c +:+ "/" +:+ cc_Name c +:+ " has topology or health issues"))
    else match sort_strings (cn_PodName <$> bfilter link_down (range_values [259] (gt_Nodes gt))) with
    | [] => (["  [OK] Cluster is healthy and consistent."], None)
    | l => (((λ pod, "  [WARN] Replica " +:+ pod +:+
                     " link:down — reduced redundancy (may be a transient resync)") <$> l) ++
            ["  [DEGRADED] Cluster is functional but " +:+ itoa (len l) +:+
             " replica link(s) are down; not fully healthy."], None)
    end in
  (head ++ ghosts ++ partitions ++ topology ++ (violation_line <$> violations) ++ verdict, err).

Record clusterVerifyJSON := mkClusterVerifyJSON {
  cv_Name : string;
  cv_Namespace : string;
  cv_ClusterState : string;
  cv_TotalSlots : Z;
  cv_GhostNodes : list string;
  cv_Partitions : list (list string);
  cv_Nodes : list ClusterNodeState;
  cv_Healthy : bool;
}.

(** ["-"], the absent master of CLUSTER NODES, is not printed. *)
Definition json_node (n : ClusterNodeState) : ClusterNodeState :=
  mkClusterNode (cn_PodName n) (cn_PodIP n) (cn_NodeID n) (cn_Slots n) (cn_Role n)
    (if cn_MasterNodeID n =? "-" then "" else cn_MasterNodeID n) (cn_LinkStatus n) (cn_Reachable n)
    (cn_ProbeFailure n) (cn_ProbeError n).

Definition buildClusterVerifyJSON (name namespace : string) (gt : ClusterGroundTruth) : clusterVerifyJSON :=
  mkClusterVerifyJSON name namespace (gt_ClusterState gt) (gt_TotalSlots gt) (gt_GhostNodes gt) (gt_Partitions gt)
    (json_node <$> range_values [526] (gt_Nodes gt))
    (IsHealthy gt (wrap32 (Z.of_nat (size (gt_Nodes gt)))) (wrap32 (CountMasters gt))).

(** *** The results of [--json] *)

(** The three results with the field they share, [operation]. *)
Inductive verifyJSONResult :=
| SentinelResult (j : sentinelVerifyJSON) (op : option operationJSON)
| ClusterResult (j : clusterVerifyJSON) (op : option operationJSON)
| FailoverResult (j : failoverVerifyJSON) (op : option operationJSON).

Definition json_healthy (r : verifyJSONResult) : bool :=
  match r with
  | SentinelResult j _ => sv_Healthy j
  | ClusterResult j _ => cv_Healthy j
  | FailoverResult j _ => fvj_Healthy j
  end.

(** [*healthy] after [applyOperationTo]. *)
Definition applyOperationTo (healthy : bool) (op : option operationJSON) : bool :=
  if from_option oj_NeedsAction false op then false else healthy.

Definition applyOperation (r : verifyJSONResult) (op : option operationJSON) : verifyJSONResult :=
  match r with
  | SentinelResult j _ =>
      SentinelResult (mkSentinelVerifyJSON (sv_Name j) (sv_Namespace j) (sv_RealMasterIP j) (sv_RealMasterPodName j)
        (sv_FailoverActive j) (sv_Sentinels j) (sv_Redis j) (sv_HealActions j) (applyOperationTo (sv_Healthy j) op)
        (sv_MasterName j) (sv_CrossInstance j) (sv_MasterNameScope j)) op
  | ClusterResult j _ =>
      ClusterResult (mkClusterVerifyJSON (cv_Name j) (cv_Namespace j) (cv_ClusterState j) (cv_TotalSlots j)
        (cv_GhostNodes j) (cv_Partitions j) (cv_Nodes j) (applyOperationTo (cv_Healthy j) op)) op
  | FailoverResult j _ =>
      FailoverResult (mkFailoverVerifyJSON (fvj_Name j) (fvj_Namespace j) (fvj_Intent j) (fvj_AuthorityMasterPod j)
        (fvj_AuthorityMasterIP j) (fvj_Pods j) (fvj_Findings j) (applyOperationTo (fvj_Healthy j) op)
        (fvj_Degraded j)) op
  end.

(** *** The command *)

Definition ownedPodIPs (redisMap sentinelMap : gmap string string) : gmap string bool :=
  gset_to_gmap true (dom redisMap ∪ dom sentinelMap).

Context (exec : string → string → list string → result string).

Definition gather_sentinel (c : ClusterContext) : ReplicationState :=
  let redisMap := pod_map (cc_RedisPods c) in
  let sentinelMap := pod_map (cc_SentinelPods c) in
  GatherReplicationState (cliGatherer exec c) redisMap sentinelMap (masterNameOf c) (ownedPodIPs redisMap sentinelMap).

Definition gatherFailover (c : ClusterContext) : ReplicationState :=
  let redisMap := pod_map (cc_RedisPods c) in
  GatherReplicationState (cliGatherer exec c) redisMap ∅ "" (ownedPodIPs redisMap ∅).

Definition cluster_truth (c : ClusterContext) : ClusterGroundTruth :=
  GatherClusterGroundTruth (cliGatherer exec c) (pod_map (cc_RedisPods c)).

(** One target: the result of [GetContext], and the custom resource if it could be read. *)
Record target := mkTarget {
  tg_Namespace : string;
  tg_Name : string;
  tg_Context : ClusterContext + string;
  tg_CR : option LittleRed;
}.

Definition context_error (t : target) (err : string) : string :=
  "error: " +:+ tg_Namespace t +:+ "/" +:+ tg_Name t +:+ ": " +:+ err.

(** The result of one target, what is written to the error stream, and whether it counts as
    an error. *)
Definition verify_json (t : target) : option verifyJSONResult * list string * bool :=
  match tg_Context t with
  | inr err => (None, [context_error t err], true)
  | inl c =>
      let op := operationJSONOf (operationViewOf (tg_CR t)) in
      let done r := (Some (applyOperation r op), [], false) in
      if cc_Mode c =? ModeSentinel then
        done (SentinelResult (verifySentinelJSON c (gather_sentinel c) (tg_Name t) (tg_Namespace t)) None)
      else if cc_Mode c =? ModeCluster then
        done (ClusterResult (buildClusterVerifyJSON (tg_Name t) (tg_Namespace t) (cluster_truth c)) None)
      else if cc_Mode c =? ModeFailover then
        done (FailoverResult (verifyFailoverJSON c (gatherFailover c) (tg_Name t) (tg_Namespace t)) None)
      else (None, [context_error t ("JSON output for mode " +:+ Quote (cc_Mode c) +:+ " not yet implemented")], true)
  end.

Definition verify_mode (c : ClusterContext) : list string * option string :=
  if cc_Mode c =? ModeSentinel then verifySentinel c (gather_sentinel c)
  else if cc_Mode c =? ModeCluster then verifyCluster c (cluster_truth c)
  else if cc_Mode c =? ModeFailover then verifyFailover c (gatherFailover c)
  else (["Verification for mode " +:+ Quote (cc_Mode c) +:+ " not yet fully implemented"], None).

Definition verify_text (format_time : time → string) (now : time) (i : nat) (t : target) : list string * bool :=
  match tg_Context t with
  | inr err => ([context_error t err], true)
  | inl c =>
      let banner := migrationBanner (clusterMigration (tg_CR t)) in
      let '(opLines, opFail) := renderOperationVerify format_time (operationViewOf (tg_CR t)) now in
      let '(lines, verifyErr) := verify_mode c in
      ((if (0 <? i)%nat then ["========================================"] else []) ++
       ["Verifying Cluster: " +:+ cc_Namespace c +:+ "/" +:+ cc_Name c +:+ " (Mode: " +:+ cc_Mode c +:+ ")"] ++
       (if negb (banner =? "") then [banner] else []) ++ opLines ++ lines,
       match verifyErr with Some _ => true | None => opFail end)
  end.

(** The output, the results and the error of [RunE]; the error is the exit status. *)
Definition verifyCmd (format_time : time → string) (now : time) (jsonOutput : bool) (targets : list target)
  : list string * list verifyJSONResult * option string :=
  let '(lines, results, errCount) :=
    if jsonOutput then
      let rs := verify_json <$> targets in
      (mjoin ((λ r, r.1.2) <$> rs), omap (λ r, r.1.1) rs, len (bfilter snd rs))
    else
      let rs := imap (verify_text format_time now) targets in
      (mjoin (fst <$> rs), [], len (bfilter snd rs)) in
  (lines, results,
   if (0 <? errCount)%Z
   then Some (itoa errCount +:+ " of " +:+ itoa (len targets) +:+ " resource(s) failed verification") else None).

End Verdicts.

(** ** What a silent survey and an empty list of actions mean *)

Section Meaning.
Context `{GoRuntime}.

Lemma sortedKeys_nil site l : sortedKeys site (string_set l) = [] → l = [].
Proof.
  unfold sortedKeys. intros Hs. apply string_set_empty. apply map_to_list_empty_iff.
  apply (fmap_nil_inv fst). apply Permutation_nil. rewrite <- (go_range_perm site), <- Hs. apply sort_strings_perm.
Qed.

(** A survey without stale and foreign names: every name listed is the wanted one. *)
Lemma survey_converged s desired : desired ≠ "" → Converged (SurveyMonitoredNames (Some s) desired) = true →
  ∀ ip sn m, rs_SentinelNodes s !! ip = Some sn → sn_Reachable sn = true → m ∈ sn_MonitoredMasters sn →
  mm_Name m = desired.
Proof.
  intros Hd. unfold SurveyMonitoredNames, Converged. rewrite (proj2 (String.eqb_neq _ _) Hd).
  cbn [ms_Stale ms_Foreign]. set (findings := mjoin _).
  intros [Hst Hfo]%andb_true_iff ip sn m Hsn Hr Hm.
  assert (Hnil : ∀ class : string,
    Z.eqb (len (sortedKeys [131] (string_set (mf_Name <$> bfilter (λ f, mf_Class f =? class) findings)))) 0 = true → ∀ f, f ∈ findings → mf_Class f ≠ class).
  { clear Hst Hfo. intros class Hl%Z.eqb_eq f Hf Hc. destruct (sortedKeys _ _) eqn:E; [|done]. apply sortedKeys_nil, fmap_nil_inv in E.
    apply (not_elem_of_nil f). rewrite <- E. apply elem_of_bfilter. split; [done|]. by apply String.eqb_eq. }
  set (f := mkMonitoredNameFinding (sn_PodName sn) (mm_Name m) (mm_IP m) (mm_Flags m)
              (ClassifyMonitoredName (mm_Name m) (mm_IP m) (mm_Flags m) desired (rs_OwnedIPs s))).
  assert (Hf : f ∈ findings).
  { unfold findings. apply list_elem_of_join. exists (findings_of s desired sn). split.
    - apply list_elem_of_fmap. by exists m.
    - apply list_elem_of_fmap_2. apply elem_of_bfilter. split; [apply elem_of_range_values; eauto|done]. }
  pose proof (Hnil _ Hst f Hf) as H1. pose proof (Hnil _ Hfo f Hf) as H2. cbn [mf_Class f] in H1, H2.
  unfold ClassifyMonitoredName in H1, H2.
  destruct (String.eqb_spec (mm_Name m) desired); [done|]. by destruct (_ || _).
Qed.

(** An instance that needs no healing, observed. *)
Record consistent (c : ClusterContext) (s : ReplicationState) : Prop := {
  ok_master : rs_RealMasterIP s ≠ "";
  ok_sentinels ip sn : rs_SentinelNodes s !! ip = Some sn → sn_Reachable sn = true →
    sn_Monitoring sn = true ∧ sn_MasterIP sn = rs_RealMasterIP s ∧
    ∀ r, r ∈ sn_Replicas sn → ghost_replica s r = false;
  ok_replicas ip rn : rs_RedisNodes s !! ip = Some rn → rn_Reachable rn = true → rn_IP rn ≠ rs_RealMasterIP s →
    rn_Role rn ≠ roleMaster ∧ rn_MasterHost rn = rs_RealMasterIP s ∧ rn_LinkStatus rn ≠ "down";
  ok_names ip sn m : cc_SentinelMasterName c ≠ "" → rs_SentinelNodes s !! ip = Some sn → sn_Reachable sn = true →
    m ∈ sn_MonitoredMasters sn → mm_Name m = cc_SentinelMasterName c;
  ok_failover : rs_FailoverReported s = true → rs_FailoverProgressing s = true;
}.

Lemma heal_actions_nil s name : rs_RealMasterIP s ≠ "" → heal_actions s name = [] →
  (∀ ip sn, rs_SentinelNodes s !! ip = Some sn → needs_monitor s sn = false ∧
     (sn_Reachable sn = true → sn_Monitoring sn = true → ∀ r, r ∈ sn_Replicas sn → ghost_replica s r = false)) ∧
  (∀ ip rn, rs_RedisNodes s !! ip = Some rn → needs_slaveof s rn = false).
Proof.
  intros Hm. unfold heal_actions. rewrite (proj2 (String.eqb_neq _ _) Hm). intros [Hmon [Hsl Hre]%app_nil]%app_nil.
  apply fmap_nil_inv in Hmon, Hsl. split.
  - intros ip sn Hsn. split; [apply (proj1 (bfilter_nil _ _) Hmon), elem_of_range_values; eauto|].
    intros Hr Hmo r Hin. destruct (existsb _ _) eqn:Hex in Hre; [done|]. clear Hre.
    destruct (ghost_replica s r) eqn:Hg; [|done]. exfalso. apply not_true_iff_false in Hex. apply Hex.
    apply existsb_exists. exists sn. split; [apply list_elem_of_In, elem_of_range_values; eauto|].
    rewrite Hr, Hmo. cbn [andb]. apply existsb_exists. exists r. by rewrite <- list_elem_of_In.
  - intros ip rn Hrn. apply (proj1 (bfilter_nil _ _) Hsl), elem_of_range_values; eauto.
Qed.
Lemma healthy_facts gt nodes shards : IsHealthy gt nodes shards = true →
  gt_ClusterState gt = "ok" ∧ gt_TotalSlots gt = 16384 ∧ HasPartitions gt = false ∧ HasEmptyMasters gt = false ∧
  Z.of_nat (size (gt_AllNodeIDs gt)) = nodes.
Proof.
  unfold IsHealthy. repeat (case_match; [discriminate|]). intros [?%String.eqb_eq ?%Z.eqb_eq]%andb_true_iff.
  repeat match goal with Hb : negb _ = false |- _ => apply negb_false_iff, Z.eqb_eq in Hb end. by split_and!.
Qed.

Lemma len_zero {A} (l : list A) : (0 <? len l)%Z = false → l = [].
Proof. unfold len. destruct l; [done|]. cbn. intros ?%Z.ltb_ge. lia. Qed.

Lemma report_scope c s : (reportCrossInstance s c).2 = false →
  cc_SentinelMasterName c = "" ∨ Converged (SurveyMonitoredNames (Some s) (cc_SentinelMasterName c)) = true.
Proof.
  unfold reportCrossInstance, masterNameOf, or_text.
  destruct (String.eqb_spec (cc_SentinelMasterName c) "") as [|Hne]; [by left|]. right. revert H0.
  unfold renderMasterNameScope, Converged. by destruct (ms_Foreign _), (ms_Stale _).
Qed.

(** A verdict of [verify] on a Sentinel-mode instance that is no error. *)
Lemma verifySentinel_passes c s : (verifySentinel c s).2 = None → consistent c s.
Proof.
  unfold verifySentinel. destruct (failover_report s) as [fl stalled] eqn:Hfl.
  destruct (reportCrossInstance s c) as [cl stale] eqn:Hcl. cbn [snd]. unfold sentinelVerifyFailure.
  destruct stalled; [done|]. destruct (String.eqb_spec (rs_RealMasterIP s) "") as [|Hm]; [done|]. cbn [orb].
  destruct (0 <? len _)%Z eqn:Hact; [done|]. destruct stale; [done|]. intros _.
  assert (Hnil : heal_actions s (masterNameOf c) = []).
  { by apply len_zero, fmap_nil_inv in Hact. }
  destruct (heal_actions_nil _ _ Hm Hnil) as [Hs Hr].
  split; [done| | | |].
  - intros ip sn Hsn Hreach. destruct (Hs ip sn Hsn) as [Hmon Hg]. unfold needs_monitor in Hmon. rewrite Hreach in Hmon.
    destruct (sn_Monitoring sn); [|done]. cbn in Hmon. apply negb_false_iff, String.eqb_eq in Hmon. auto.
  - intros ip rn Hrn Hreach Hne. specialize (Hr ip rn Hrn). unfold needs_slaveof in Hr.
    rewrite Hreach, (proj2 (String.eqb_neq _ _) Hne) in Hr. cbn in Hr. rewrite !orb_false_iff, negb_false_iff in Hr.
    destruct Hr as [[?%String.eqb_neq ?%String.eqb_eq] ?%String.eqb_neq]. done.
  - intros ip sn m Hne Hsn Hreach Hin. destruct (report_scope c s) as [|Hc]; [by rewrite Hcl|done|].
    by eapply survey_converged.
  - unfold failover_report in Hfl. intros Hrep. rewrite Hrep in Hfl. by destruct (rs_FailoverProgressing s).
Qed.
End Meaning.

(** ** Properties *)

Section Theorems.
Context `{GoRuntime} (exec : string → string → list string → result string) (format_time : time → string) (now : time).

Lemma operation_verdict v : (renderOperationVerify format_time v now).2 = operationFails (ov_Op v).
Proof.
  unfold renderOperationVerify, operationFails. destruct (ov_Op v) as [op|]; [|done].
  destruct (os_Reason op =? operationReasonBlocked); [done|]. destruct (os_Reason op =? operationReasonStalled); [done|].
  by destruct (_ =? _), (_ =? _).
Qed.

(** A target that does not count as an error. *)
Lemma target_passes i t : (verify_text exec format_time now i t).2 = false →
  ∃ c, tg_Context t = inl c ∧ operationFails (ov_Op (operationViewOf (tg_CR t))) = false ∧ (verify_mode exec c).2 = None.
Proof.
  unfold verify_text. destruct (tg_Context t) as [c|err]; [|done].
  pose proof (operation_verdict (operationViewOf (tg_CR t))) as Hop.
  destruct (renderOperationVerify _ _ _) as [ol ofl]. destruct (verify_mode exec c) as [ml [err|]] eqn:Hm; cbn [snd] in *; [done|].
  intros ->. exists c. by rewrite Hm.
Qed.

(** *** JSON *)

Lemma applyOperationTo_true healthy op : applyOperationTo healthy op = true →
  healthy = true ∧ from_option oj_NeedsAction false op = false.
Proof. unfold applyOperationTo. by destruct (from_option _ _ _). Qed.

Lemma json_operation v : from_option oj_NeedsAction false (operationJSONOf v) = operationFails (ov_Op v).
Proof. unfold operationJSONOf. by destruct (ov_Op v). Qed.

(** A healthy Sentinel result passes in text. *)
Lemma sentinel_json_passes c s name namespace : sv_Healthy (verifySentinelJSON c s name namespace) = true →
  (verifySentinel c s).2 = None.
Proof.
  cbn [verifySentinelJSON buildSentinelVerifyJSON sv_Healthy]. rewrite !andb_true_iff, !negb_true_iff.
  intros [[[Hm Hact%Z.eqb_eq] Hrep] Hc]. unfold verifySentinel.
  assert (Hfl : failover_report s = ([], false)) by (unfold failover_report; by rewrite Hrep). rewrite Hfl.
  assert (Hst : (reportCrossInstance s c).2 = false).
  { unfold reportCrossInstance, masterNameOf, or_text. destruct (String.eqb_spec (cc_SentinelMasterName c) "") as [|Hne]; [done|].
    unfold Converged in Hc. apply andb_true_iff in Hc as [H1%Z.eqb_eq H2%Z.eqb_eq]. unfold renderMasterNameScope.
    by destruct (ms_Stale _), (ms_Foreign _). }
  destruct (reportCrossInstance s c) as [cl stale]. cbn [snd] in *. subst stale.
  unfold sentinelVerifyFailure. by rewrite Hm, Hact.
Qed.

(** The two outputs do not contradict each other, for Sentinel and failover-mode instances:
    where [--json] says healthy, declared operations included, the text run of the same state
    counts no error. *)
Theorem json_healthy_passes (t : target) (i : nat) (r : verifyJSONResult) :
  (verify_json exec t).1.1 = Some r → json_healthy r = true →
  (∀ c, tg_Context t = inl c → cc_Mode c ≠ ModeCluster) →
  (verify_text exec format_time now i t).2 = false.
Proof.
  unfold verify_json, verify_text. destruct (tg_Context t) as [c|err]; [|done]. intros Hr Hh Hmode.
  specialize (Hmode c eq_refl). pose proof (operation_verdict (operationViewOf (tg_CR t))) as Hop.
  rewrite <- json_operation in Hop. destruct (renderOperationVerify _ _ _) as [ol ofl]. cbn [snd] in Hop. subst ofl.
  set (op := operationJSONOf _) in *.
  assert (Hv : from_option oj_NeedsAction false op = false ∧ (verify_mode exec c).2 = None).
  { unfold verify_mode in *. destruct (cc_Mode c =? ModeSentinel).
    - injection Hr as <-.
      change (applyOperationTo (sv_Healthy (verifySentinelJSON c (gather_sentinel exec c) (tg_Name t) (tg_Namespace t))) op = true) in Hh.
      apply applyOperationTo_true in Hh as [Hh Ho]. split; [done|]. by eapply sentinel_json_passes.
    - rewrite (proj2 (String.eqb_neq _ _) Hmode) in Hr |- *. destruct (cc_Mode c =? ModeFailover); [|discriminate].
      injection Hr as <-.
      change (applyOperationTo (Healthy (Analyze (failoverPodViews c) (gatherFailover exec c))) op = true) in Hh.
      apply applyOperationTo_true in Hh as [Hh Ho]. split; [done|].
      assert (Hf : Failed (Analyze (failoverPodViews c) (gatherFailover exec c)) = false).
      { unfold Healthy, Failed, len in *. by destruct (an_Findings _). }
      unfold verifyFailover. rewrite Hf. by destruct (Degraded _). }
  destruct Hv as [Ho Hv]. destruct (verify_mode exec c) as [ml e]. cbn [snd] in *. by subst e.
Qed.
End Theorems.

(** *** Witnesses *)

Definition plain_pod_at (name ip : string) : CliPod :=
  mkCliPod (mkPod name ip false ∅ ∅ [] None true) "Running" [].

(** The instance of [solo_exec]: one data pod, one Sentinel, and a replica that is no pod. *)
Definition solo_pods : ClusterContext :=
  mkClusterContext "cache" "ns" ModeSentinel "ns.cache" [plain_pod_at "cache-redis-0" "10.0.0.1"]
    [plain_pod_at "cache-sentinel-0" "10.0.0.9"] "redis" "sentinel".

Definition solo_target : target := mkTarget "ns" "cache" (inl solo_pods) None.


Lemma json_healthy_passes_witness :
  (@verify_text ref_runtime solo_exec (λ _, "") 0 0 solo_target).2 = false.
Proof.
  eapply (@json_healthy_passes ref_runtime solo_exec (λ _, "") 0 solo_target 0).
  - vm_compute. reflexivity.
  - vm_compute. reflexivity.
  - intros c [= <-]. discriminate.
Defined.

(** Where the outputs do part.  A cluster with a shard across two StatefulSets fails in text and
    is healthy in JSON. *)
Definition crossed_cluster : ClusterGroundTruth :=
  mkGroundTruth
    (<["lr-shard-0-0" := mkClusterNode "lr-shard-0-0" "10.0.0.1" "a" ["0-16383"] "master" "-" "" true ProbeOK ""]>
       {["lr-shard-1-1" := mkClusterNode "lr-shard-1-1" "10.0.0.2" "b" [] "replica" "a" "up" true ProbeOK ""]})
    [] [] "ok" 16384 {["a"; "b"]} ∅ false.

Lemma crossed_cluster_verdicts :
  let c := mkClusterContext "lr" "ns" ModeCluster ""
             [plain_pod_at "lr-shard-0-0" "10.0.0.1"; plain_pod_at "lr-shard-1-1" "10.0.0.2"] [] "redis" "sentinel" in
  is_Some (@verifyCluster ref_runtime c crossed_cluster).2 ∧
  cv_Healthy (@buildClusterVerifyJSON ref_runtime "lr" "ns" crossed_cluster) = true.
Proof. split; [by eexists; vm_compute|by vm_compute]. Qed.

(** Evidence of a foreign deployment is printed as a failure and exits with status 0. *)
Lemma evidence_without_error :
  let '(lines, _, err) := @verifyCmd ref_runtime solo_exec (λ _, "") 0 false [solo_target] in
  existsb (String.eqb "  [FAIL] Evidence of another Sentinel deployment sharing this master name:") lines = true ∧
  err = None.
Proof. by vm_compute. Qed.

(** With [--json] an unhealthy instance does not reach the exit status. *)
Lemma unhealthy_json_exits_zero :
  let exec _ _ _ := inr (plain_error "unreachable") in
  let '(_, results, err) := @verifyCmd ref_runtime exec (λ _, "") 0 true [solo_target] in
  json_healthy <$> results = [false] ∧ err = None.
Proof. by vm_compute. Qed.
