(* ===== verification/Import.v ===== *)
(** * Importing a running instance (src/cmd/lrctl/cmd/import.go, import_config.go)

    [lrctl import] reads the configuration of a running server and prints the custom resource
    that would deploy an equivalent instance.  The rendering of a [resource.Quantity] is the
    argument [quantity_text]; the YAML encoder, which prints the keys of a map in order, is not
    part of the model. *)

From Stdlib Require Import Ascii.
From S2P Require Import Prelude GoStrings Probe ClusterNodes ClusterState ReplicationTypes Info.
From S2P Require Import Recovery Kube Controller OperationWiring Spec Discovery CliGather.

Open Scope Z_scope.
Open Scope go_scope.

(** ** Definitions *)

(** The values of [map[string]any] the command builds. *)
Inductive yaml :=
| YString (s : string)
| YInt (z : Z)
| YBool (b : bool)
| YMap (entries : list (string * yaml)).

(** *** Mode and topology *)

Definition inferMode (c : ClusterContext) (serverInfo : gmap string string) : string :=
  let m := at_key serverInfo "redis_mode" in
  if (m =? ModeCluster) || (m =? ModeSentinel) || (m =? ModeStandalone) then m
  else if negb (cc_Mode c =? "") then cc_Mode c
  else match cc_SentinelPods c with [] => ModeStandalone | _ => ModeSentinel end.

(** The first of the flags [master] and [slave] decides. *)
Fixpoint count_flags (flags : list string) (counts : Z * Z) : Z * Z :=
  match flags with
  | [] => counts
  | f :: rest =>
      if f =? roleMaster then (counts.1 + 1, counts.2)
      else if f =? "slave" then (counts.1, counts.2 + 1)
      else count_flags rest counts
  end.

Definition inferClusterTopology (nodes : list ClusterNodeInfo) : Z * Z :=
  let '(masters, replicas) := foldl (λ counts n, count_flags (ci_Flags n) counts) (0, 0) nodes in
  if (masters =? 0)%Z then (3, 1) else (masters, replicas `quot` masters).

(** *** Configuration *)

Definition redisConfYes : string := "yes".

Definition interestingKeys : list (string * string) :=
  [("maxmemory-samples", "10"); ("lazyfree-lazy-eviction", "no"); ("lazyfree-lazy-expire", "no");
   ("lazyfree-lazy-server-del", "no"); ("lazyfree-lazy-user-del", "no"); ("lazyfree-lazy-user-flush", "no");
   ("active-defrag-enabled", "no"); ("active-defrag-threshold-lower", "10");
   ("active-defrag-threshold-upper", "100"); ("active-defrag-cycle-min", "1"); ("active-defrag-cycle-max", "25");
   ("maxclients", "10000"); ("hz", "10"); ("dynamic-hz", "yes"); ("tcp-backlog", "511");
   ("proto-max-bulk-len", "536870912"); ("client-query-buffer-limit", "1073741824");
   ("slowlog-log-slower-than", "10000"); ("slowlog-max-len", "128"); ("notify-keyspace-events", "");
   ("io-threads", "1"); ("io-threads-do-reads", "no"); ("lua-time-limit", "5000");
   ("latency-tracking", redisConfYes); ("cluster-migration-barrier", "1"); ("cluster-allow-reads-when-down", "no");
   ("cluster-allow-pubsub-when-down", redisConfYes); ("list-max-listpack-size", "-2"); ("list-max-ziplist-size", "-2");
   ("hash-max-listpack-entries", "128"); ("hash-max-listpack-value", "64"); ("hash-max-ziplist-entries", "128");
   ("hash-max-ziplist-value", "64"); ("set-max-intset-entries", "512"); ("set-max-listpack-entries", "128");
   ("zset-max-listpack-entries", "128"); ("zset-max-listpack-value", "64"); ("zset-max-ziplist-entries", "128");
   ("zset-max-ziplist-value", "64"); ("close-on-oom", "no")].

(** [sortStrings], the insertion sort: the element at [i] sinks through the sorted elements
    before it, which are listed from the last to the first. *)
Fixpoint sink (x : string) (before : list string) : list string :=
  match before with
  | y :: ys => if x <? y then y :: sink x ys else x :: before
  | [] => [x]
  end.

Definition sortStrings (l : list string) : list string := reverse (foldl (λ before x, sink x before) [] l).

Definition conf_entry (config : gmap string string) (kv : string * string) : option string :=
  let '(key, defaultVal) := kv in
  match config !! key with
  | None => None
  | Some val => if val =? defaultVal then None else Some (key +:+ " " +:+ val)
  end.

Definition buildRawConfig `{GoRuntime} (config : gmap string string) : string :=
  let interesting : gmap string string := list_to_map interestingKeys in
  match omap (conf_entry config) (go_range [72] interesting) with
  | [] => ""
  | lines => str_join (String lf EmptyString) (sortStrings lines)
  end.

Definition bytesToQuantity (quantity_text : Z → string) (bytesStr : string) : string :=
  match atoi bytesStr with
  | None => ""
  | Some b => if (b <=? 0)%Z then "" else quantity_text b
  end.

Definition atoiOr (s : string) (fallback : Z) : Z := default fallback (atoi s).

(** *** Images *)

Definition defaultUpstreamPath : string := "library/redis".

Definition upstreamPaths (path : string) : bool :=
  (path =? "redis") || (path =? "valkey/valkey") || (path =? defaultUpstreamPath).

Definition splitImageRef (image : string) : string * string * string :=
  let '(ref, tag) :=
    match cut_last ":"%char image with
    | Some (before, after) => if negb (contains_byte "/"%char after) then (before, after) else (image, "")
    | None => (image, "")
    end in
  match split2_on "/"%char ref with
  | [firstSegment; rest] =>
      if contains_byte "."%char firstSegment || contains_byte ":"%char firstSegment
      then (firstSegment, rest, tag) else ("", ref, tag)
  | _ => ("", ref, tag)
  end.

Definition parseContainerImage (image : string) (serverInfo : gmap string string) : list (string * yaml) :=
  let isValkey := negb (at_key serverInfo "valkey_version" =? "") in
  let serverVersion := or_text (at_key serverInfo "valkey_version") (at_key serverInfo "redis_version") in
  let upstreamPath := if isValkey then defaultUpstreamPath else "library/redis" in
  let path := if negb (upstreamPath =? defaultUpstreamPath) then [("path", YString upstreamPath)] else [] in
  let tag := if negb (serverVersion =? "") then [("tag", YString serverVersion)] else [] in
  if image =? "" then path ++ tag
  else
    let '(registry, imagePath, _) := splitImageRef image in
    (if upstreamPaths imagePath && (negb (registry =? "") && negb (registry =? "docker.io"))
     then [("registry", YString registry)] else []) ++ path ++ tag.

(** *** The custom resource *)

Section Build.
Context `{GoRuntime} (quantity_text : Z → string).

Definition config_section (config : gmap string string) : list (string * yaml) :=
  let maxmemory := at_key config "maxmemory" in
  let policy := at_key config "maxmemory-policy" in
  let timeout := atoiOr (at_key config "timeout") 0 in
  let keepalive := atoiOr (at_key config "tcp-keepalive") 300 in
  let raw := buildRawConfig config in
  (if negb (maxmemory =? "") && negb (maxmemory =? "0") && negb (bytesToQuantity quantity_text maxmemory =? "")
   then [("maxmemory", YString (bytesToQuantity quantity_text maxmemory))] else []) ++
  (if negb (policy =? "") && negb (policy =? "noeviction") then [("maxmemoryPolicy", YString policy)] else []) ++
  (if negb (timeout =? 0)%Z then [("timeout", YInt timeout)] else []) ++
  (if negb (keepalive =? 300)%Z then [("tcpKeepalive", YInt keepalive)] else []) ++
  (if negb (raw =? "") then [("raw", YString raw)] else []).

Definition cluster_section (config : gmap string string) (shards replicasPerShard : Z) : list (string * yaml) :=
  let nodeTimeout := atoiOr (at_key config "cluster-node-timeout") 15000 in
  (if (0 <? shards)%Z then [("shards", YInt shards)] else []) ++
  (if (0 <=? replicasPerShard)%Z then [("replicasPerShard", YInt replicasPerShard)] else []) ++
  (if negb (nodeTimeout =? 15000)%Z then [("clusterNodeTimeout", YInt nodeTimeout)] else []).

(** A section that is left out when it is empty. *)
Definition section (key : string) (entries : list (string * yaml)) : list (string * yaml) :=
  match entries with [] => [] | _ => [(key, YMap entries)] end.

Definition enabled_section : yaml := YMap [("enabled", YBool true); ("existingSecret", YString "")].

Definition buildSpec (mode : string) (config serverInfo : gmap string string) (shards replicasPerShard : Z)
  (containerImage : string) : list (string * yaml) :=
  [("mode", YString mode)] ++ section "config" (config_section config) ++
  [("image", YMap (parseContainerImage containerImage serverInfo))] ++
  (if negb (at_key config "requirepass" =? "") then [("auth", enabled_section)] else []) ++
  (if negb (at_key config "tls-port" =? "") && negb (at_key config "tls-port" =? "0")
   then [("tls", enabled_section)] else []) ++
  (if mode =? ModeSentinel then [("sentinel", YMap [("quorum", YInt 2)])] else []) ++
  (if mode =? ModeCluster then section "cluster" (cluster_section config shards replicasPerShard) else []).

Definition buildCR (name ns mode : string) (config serverInfo : gmap string string)
  (shards replicasPerShard : Z) (containerImage : string) : yaml :=
  YMap [("apiVersion", YString "redis.chuck-chuck-chuck.net/v1alpha1"); ("kind", YString "LittleRed");
        ("metadata", YMap [("name", YString name); ("namespace", YString ns)]);
        ("spec", YMap (buildSpec mode config serverInfo shards replicasPerShard containerImage))].

(** The command, up to the encoder: the first running pod is asked. *)
Definition importCmd (exec : string → string → list string → Gather.result string) (c : ClusterContext)
  (name crName targetNS : string) : yaml + string :=
  match cc_RedisPods c with
  | [] => inr ("no Redis pods found for " +:+ Quote name)
  | p0 :: _ =>
      let pod := default p0 (List.find (λ p, cp_Phase p =? "Running") (cc_RedisPods c)) in
      let run args := exec (cp_Name pod) (cc_RedisContainer c) (redisCliArgs args) in
      match run ["config"; "get"; "*"] with
      | inr err => inr ("CONFIG GET failed on pod " +:+ cp_Name pod +:+ ": " +:+ err_text err)
      | inl stdout =>
          let redisConfig := parseAlternatingKV stdout in
          let serverInfo := parseInfoKV (match run ["info"; "server"] with inl s => s | inr _ => "" end) in
          let mode := inferMode c serverInfo in
          let '(shards, replicasPerShard) :=
            if mode =? ModeCluster then
              match run ["cluster"; "nodes"] with
              | inl stdout => inferClusterTopology (ParseClusterNodes stdout)
              | inr _ => (0, 0)
              end
            else (0, 0) in
          let containerImage :=
            from_option ct_Image "" (List.find (λ ct, ct_Name ct =? cc_RedisContainer c) (cp_Containers pod)) in
          inl (buildCR (or_text crName name) targetNS mode redisConfig serverInfo shards replicasPerShard containerImage)
      end
  end.
End Build.

(** ** The insertion sort *)

Lemma sink_perm x l : sink x l ≡ₚ x :: l.
Proof.
  induction l as [|y l IH]; [done|]. cbn [sink]. destruct (x <? y); [|done]. rewrite IH. apply Permutation_swap.
Qed.

Lemma sink_sorted x l : StronglySorted (flip String.le) l → StronglySorted (flip String.le) (sink x l).
Proof.
  induction 1 as [|y l Hl IH Hy]; cbn [sink]; [by repeat constructor|].
  destruct (x <? y) eqn:Hxy.
  - constructor; [done|]. rewrite sink_perm. constructor; [by apply string_ltb_le|done].
  - apply string_ltb_ge in Hxy. constructor; [by constructor|]. constructor; [done|].
    eapply Forall_impl; [exact Hy|]. intros z Hz. unfold flip in *. by etrans.
Qed.

(** The sort written out for one call is [sort.Strings]. *)
Lemma sortStrings_sorts l : sortStrings l = sort_strings l.
Proof.
  assert (H : ∀ l acc, StronglySorted (flip String.le) acc →
    StronglySorted (flip String.le) (foldl (λ b x, sink x b) acc l) ∧ foldl (λ b x, sink x b) acc l ≡ₚ l ++ acc).
  { clear l. induction l as [|x l IH]; intros acc Ha; [done|]. cbn [foldl].
    destruct (IH (sink x acc)) as [Hs Hp]; [by apply sink_sorted|]. split; [done|].
    rewrite Hp, sink_perm. symmetry. apply (Permutation_middle l acc x). }
  destruct (H l []) as [Hs Hp]; [constructor|]. unfold sortStrings.
  eapply (StronglySorted_unique String.le); [|apply sort_strings_sorted|].
  - revert Hs. generalize (foldl (λ b x, sink x b) [] l). clear. induction 1 as [|x l Hl IH Hx]; [constructor|].
    rewrite reverse_cons. apply StronglySorted_app_2; [|done|by repeat constructor].
    intros y z Hy Hz. apply list_elem_of_singleton in Hz as ->. rewrite elem_of_reverse in Hy.
    by apply (proj1 (Forall_forall _ _) Hx).
  - rewrite reverse_Permutation, Hp, app_nil_r, sort_strings_perm. done.
Qed.

(** The configuration snippet does not depend on the order in which the map is visited. *)
Lemma buildRawConfig_deterministic (R1 R2 : GoRuntime) config :
  @buildRawConfig R1 config = @buildRawConfig R2 config.
Proof.
  unfold buildRawConfig. set (m := list_to_map interestingKeys : gmap string string).
  set (l1 := omap _ (@go_range R1 _ _ _ _ _ _)). set (l2 := omap _ (@go_range R2 _ _ _ _ _ _)).
  assert (Hp : l1 ≡ₚ l2) by (unfold l1, l2; by rewrite !go_range_perm).
  destruct l1 as [|x l1], l2 as [|y l2]; [done|by apply Permutation_nil_cons in Hp| |].
  - by apply Permutation_nil_r in Hp.
  - f_equal. rewrite !sortStrings_sorts. by apply sort_strings_proper.
Qed.

(** ** Image references *)

Lemma cut_last_free sep b : byte_free sep b → cut_last sep b = None.
Proof.
  induction b as [|c b IH]; [done|]. intros [Hc Hb]. cbn [cut_last]. rewrite IH by done.
  by rewrite (proj2 (Ascii.eqb_neq c sep) Hc).
Qed.

Lemma cut_last_app sep a b : byte_free sep b → cut_last sep (a +:+ String sep b) = Some (a, b).
Proof.
  intros Hb. induction a as [|c a IH].
  - change ("" +:+ String sep b) with (String sep b). cbn [cut_last]. by rewrite cut_last_free, Ascii.eqb_refl.
  - rewrite app_cons. cbn [cut_last]. by rewrite IH.
Qed.

Lemma contains_byte_free c s : byte_free c s → contains_byte c s = false.
Proof.
  intros Hs. unfold contains_byte. apply bool_decide_eq_false_2. intros [p Hp]. revert p Hp.
  induction s as [|d s IH]; intros p Hp; [done|]. destruct Hs as [Hd Hs]. cbn [cut_at] in Hp.
  rewrite (proj2 (Ascii.eqb_neq d c) Hd) in Hp. destruct (cut_at c s) as [r|]; [|done]. by eapply IH.
Qed.

(** A reference with its three parts: a registry that looks like a host, a path and a tag. *)
Record image_parts (registry path tag : string) : Prop := {
  ip_host : contains_byte "."%char registry || contains_byte ":"%char registry = true;
  ip_segment : byte_free "/"%char registry;
  ip_path : byte_free ":"%char path;
  ip_tag : byte_free ":"%char tag ∧ byte_free "/"%char tag;
}.

(** Splitting a reference gives back the parts it was put together from. *)
Lemma splitImageRef_roundtrip registry path tag : image_parts registry path tag →
  splitImageRef (registry +:+ "/" +:+ path +:+ ":" +:+ tag) = (registry, path, tag).
Proof.
  intros [Hh Hs Hp [Ht1 Ht2]]. unfold splitImageRef.
  change (":" +:+ tag) with (String ":" tag). change ("/" +:+ ?x) with (String "/" x).
  replace (registry +:+ String "/" (path +:+ String ":" tag)) with ((registry +:+ String "/" path) +:+ String ":" tag)
    by (by rewrite string_app_assoc).
  rewrite cut_last_app, contains_byte_free by done. cbn [negb]. rewrite split2_on_app by done. by rewrite Hh.
Qed.

(** The image section as the API reads it. *)
Definition text_at (key : string) (entries : list (string * yaml)) : string :=
  match List.find (λ kv, kv.1 =? key) entries with Some (_, YString s) => s | _ => "" end.

Definition imported_image (entries : list (string * yaml)) : ImageSpec :=
  mkImage (text_at "registry" entries) (text_at "path" entries) (text_at "tag" entries) "" [].

(** ** Properties *)

(** Importing an instance that the operator deployed from an upstream Redis image gives back
    its image: same registry, same path, and the version the server reports as the tag. *)
Theorem import_keeps_image (i : ImageSpec) (serverInfo : gmap string string) :
  image_parts (im_Registry i) (im_Path i) (im_Tag i) → im_Registry i ≠ "" → im_Tag i ≠ "" →
  im_Path i = DefaultImagePath → at_key serverInfo "valkey_version" = "" →
  at_key serverInfo "redis_version" = im_Tag i →
  FullImage (imported_image (parseContainerImage (FullImage i) serverInfo)) = FullImage i.
Proof.
  destruct i as [reg path tag pull secrets]. cbn [im_Registry im_Path im_Tag]. intros Hparts Hr Ht -> Hv Hver.
  assert (Hf : FullImage (mkImage reg DefaultImagePath tag pull secrets) = reg +:+ "/" +:+ DefaultImagePath +:+ ":" +:+ tag).
  { unfold FullImage, or_text. cbn [im_Registry im_Path im_Tag].
    by rewrite (proj2 (String.eqb_neq _ _) Hr), (proj2 (String.eqb_neq _ _) Ht). }
  assert (He : parseContainerImage (FullImage (mkImage reg DefaultImagePath tag pull secrets)) serverInfo =
               (if negb (reg =? "docker.io") then [("registry", YString reg)] else []) ++ [("tag", YString tag)]).
  { rewrite Hf. unfold parseContainerImage. rewrite Hv, Hver, splitImageRef_roundtrip by done.
    destruct (String.eqb_spec (reg +:+ "/" +:+ DefaultImagePath +:+ ":" +:+ tag) "") as [E|_];
      [by destruct reg|]. change (or_text "" tag) with tag. change (upstreamPaths DefaultImagePath) with true.
    rewrite (proj2 (String.eqb_neq _ _) Hr), (proj2 (String.eqb_neq _ _) Ht). done. }
  rewrite He, Hf. unfold FullImage, imported_image, or_text. cbn [im_Registry im_Path im_Tag].
  destruct (String.eqb_spec reg "docker.io") as [->|Hd]; cbn [negb app text_at List.find fst];
    unfold text_at; cbn; [by rewrite (proj2 (String.eqb_neq _ _) Ht)|].
  by rewrite (proj2 (String.eqb_neq _ _) Hr), (proj2 (String.eqb_neq _ _) Ht).
Qed.

(** *** Witnesses *)

Lemma import_keeps_image_witness :
  FullImage (imported_image (parseContainerImage "mirror.local:5000/library/redis:7.4.3"
    {["redis_version" := "7.4.3"]})) = "mirror.local:5000/library/redis:7.4.3".
Proof.
  apply (import_keeps_image (mkImage "mirror.local:5000" DefaultImagePath "7.4.3" "" []) {["redis_version" := "7.4.3"]});
    try (reflexivity || discriminate).
  split; try reflexivity; cbn; repeat split; discriminate.
Defined.

(** A Valkey server is imported as the default Redis image under Valkey's version: the path
    chosen for Valkey is the default one. *)
Lemma valkey_imported_as_redis :
  FullImage (imported_image (parseContainerImage "docker.io/valkey/valkey:8.0.1"
    (<["valkey_version" := "8.0.1"]> {["redis_version" := "7.2.4"]}))) = "docker.io/library/redis:8.0.1".
Proof. by vm_compute. Qed.

(** A data pod reports its own mode, which is never that of its deployment unless it is a
    cluster: the mode the discovery knows is not used, nor are the Sentinel pods it found. *)
Lemma sentinel_imported_as_standalone c serverInfo : at_key serverInfo "redis_mode" = ModeStandalone →
  inferMode c serverInfo = ModeStandalone.
Proof. unfold inferMode. by intros ->. Qed.

(** The Sentinel section is printed without the master name, which the API requires. *)
Lemma imported_sentinel_unnamed `{GoRuntime} quantity_text config serverInfo shards replicas image :
  List.find (λ kv, kv.1 =? "sentinel") (buildSpec quantity_text ModeSentinel config serverInfo shards replicas image) =
  Some ("sentinel", YMap [("quorum", YInt 2)]).
Proof.
  unfold buildSpec. cbn [app List.find fst]. change ("mode" =? "sentinel") with false. cbn iota.
  unfold section. destruct (config_section _ _); cbn [app List.find fst];
    repeat (case_match; cbn [app List.find fst]); done.
Qed.
