(* ===== verification/Chaos.v ===== *)
(** * The chaos client

    The client that measures an instance while its pods are killed (src/test/chaos/client.go,
    src/cmd/littlered-chaos-client/main.go): on each tick it starts one goroutine that writes
    the next number and one that reads a random confirmed number back, and after the traffic it
    re-reads every acknowledged write.  The goroutines share atomic counters, a set, a slice
    under a mutex, and the server.  [thread_step] is one atomic action of a goroutine, [step] an
    interleaving of all of them with the ticker, [Stop] and whatever else happens to the data of
    the server; the traffic is a run of [step], and the sweep a function of the replies.

    The theorems: at rest the counters add up and the slice lists each acknowledged write once
    ([traffic_accounted]); a server that keeps what it acknowledged is never accused
    ([no_false_alarm]); the sweep counts exactly the acknowledged writes that are gone, wrong or
    unreadable ([sweep_exact]). *)

From Stdlib Require Import Ascii.
From S2P Require Import Prelude GoStrings Info.
Local Open Scope Z_scope.
Local Open Scope go_scope.

(** ** Keys, values and the outcome of a read *)

Section Client.
Context (sha256_hex : string → string) (keyPrefix : string).

Definition expectedValue (key : Z) : string := sha256_hex (itoa key).

Definition keyName (n : Z) : string :=
  if negb (keyPrefix =? "") then keyPrefix +:+ ":" +:+ itoa n else itoa n.

(** A reply to GET: a value, [redis.Nil], or another error. *)
Inductive get_reply := GetValue (v : string) | GetNil | GetError.

Inductive readOutcome := readOK | readFailed | readLost | readCorrupt.
#[global] Instance readOutcome_eq_dec : EqDecision readOutcome.
Proof. solve_decision. Defined.

Definition classifyRead (reply : get_reply) (expected : string) : readOutcome :=
  match reply with
  | GetError => readFailed
  | GetNil => readLost
  | GetValue result => if negb (result =? expected) then readCorrupt else readOK
  end.

(** ** The counters *)

Inductive metric :=
  | WriteAttempts | WriteSuccesses | WriteFailures
  | ReadAttempts | ReadSuccesses | ReadFailures | LostKeys | DataCorruptions.
#[global] Instance metric_eq_dec : EqDecision metric.
Proof. solve_decision. Defined.

Definition Metrics : Type := metric → Z.

(** [atomic.Int64.Add(1)] *)
Definition bump (k : metric) (m : Metrics) : Metrics := λ j, if decide (j = k) then wrap64 (m j + 1) else m j.

Definition outcome_metric (o : readOutcome) : metric :=
  match o with readFailed => ReadFailures | readLost => LostKeys | readCorrupt => DataCorruptions | readOK => ReadSuccesses end.

(** ** The traffic *)

(** What the goroutines share.  [sh_data] is what the server holds and [sh_acked] the numbers
    whose SET it has acknowledged; both belong to the server, not to the client. *)
Record shared := mkShared {
  sh_metrics : Metrics;
  sh_highest : Z;
  sh_confirmedKeys : gset Z;
  sh_confirmedSlice : list Z;
  sh_data : gmap string string;
  sh_acked : list Z;
}.

(** Where a goroutine stands: in [doWrite n] before the attempt is counted, before SET, before
    the failure or the success is counted, before the set, the slice and the highest number are
    updated, and between load and compare-and-swap; in [doRead] likewise. *)
Inductive thread :=
  | WStart (n : Z) | WSet (n : Z) | WFailed | WAcked (n : Z) | WStore (n : Z) | WAppend (n : Z)
  | WLoad (n : Z) | WCas (n current : Z)
  | RStart | RAttempt (n : Z) | RGet (n : Z) | ROutcome (o : readOutcome).

Definition set_metrics (s : shared) (m : Metrics) : shared :=
  mkShared m (sh_highest s) (sh_confirmedKeys s) (sh_confirmedSlice s) (sh_data s) (sh_acked s).
Definition set_data (s : shared) (data : gmap string string) (acked : list Z) : shared :=
  mkShared (sh_metrics s) (sh_highest s) (sh_confirmedKeys s) (sh_confirmedSlice s) data acked.
Definition set_highest (s : shared) (h : Z) : shared :=
  mkShared (sh_metrics s) h (sh_confirmedKeys s) (sh_confirmedSlice s) (sh_data s) (sh_acked s).
Definition set_confirmed (s : shared) (keys : gset Z) (slice : list Z) : shared :=
  mkShared (sh_metrics s) (sh_highest s) keys slice (sh_data s) (sh_acked s).

(** The replies the server may give to GET: an error, or what it holds. *)
Inductive get_answers (data : gmap string string) (key : string) : get_reply → Prop :=
  | get_error : get_answers data key GetError
  | get_value v : data !! key = Some v → get_answers data key (GetValue v)
  | get_nil : data !! key = None → get_answers data key GetNil.

(** One atomic action of a goroutine; [None] is its end.  A SET that fails may have been applied. *)
Inductive thread_step (s : shared) : thread → shared → option thread → Prop :=
  | do_attempt n : thread_step s (WStart n) (set_metrics s (bump WriteAttempts (sh_metrics s))) (Some (WSet n))
  | do_set_lost n : thread_step s (WSet n) s (Some WFailed)
  | do_set_unacked n :
      thread_step s (WSet n) (set_data s (<[keyName n := expectedValue n]> (sh_data s)) (sh_acked s)) (Some WFailed)
  | do_set n :
      thread_step s (WSet n) (set_data s (<[keyName n := expectedValue n]> (sh_data s)) (n :: sh_acked s)) (Some (WAcked n))
  | do_failure : thread_step s WFailed (set_metrics s (bump WriteFailures (sh_metrics s))) None
  | do_success n : thread_step s (WAcked n) (set_metrics s (bump WriteSuccesses (sh_metrics s))) (Some (WStore n))
  | do_store n : thread_step s (WStore n) (set_confirmed s ({[n]} ∪ sh_confirmedKeys s) (sh_confirmedSlice s)) (Some (WAppend n))
  | do_append n : thread_step s (WAppend n) (set_confirmed s (sh_confirmedKeys s) (sh_confirmedSlice s ++ [n])) (Some (WLoad n))
  | do_load n :
      thread_step s (WLoad n) s (if n <=? sh_highest s then None else Some (WCas n (sh_highest s)))%Z
  | do_cas n current :
      thread_step s (WCas n current)
        (if (sh_highest s =? current)%Z then set_highest s n else s)
        (if (sh_highest s =? current)%Z then None else Some (WLoad n))
  | do_no_keys : sh_confirmedSlice s = [] → thread_step s RStart s None
  | do_pick n i : sh_confirmedSlice s !! i = Some n → thread_step s RStart s (Some (RAttempt n))
  | do_read n : thread_step s (RAttempt n) (set_metrics s (bump ReadAttempts (sh_metrics s))) (Some (RGet n))
  | do_get n reply : get_answers (sh_data s) (keyName n) reply →
      thread_step s (RGet n) s (Some (ROutcome (classifyRead reply (expectedValue n))))
  | do_outcome o : thread_step s (ROutcome o) (set_metrics s (bump (outcome_metric o) (sh_metrics s))) None.

(** The client: [tc_running] is the goroutine of [Start], [tc_closed] the channel [stopCh]. *)
Record client := mkClient {
  tc_shared : shared;
  tc_counter : Z;
  tc_threads : list thread;
  tc_running : bool;
  tc_closed : bool;
}.

(** [Start]'s loop, the goroutines it spawns and [Stop]'s close, in any order.  When the channel
    is closed and a tick is due, [select] may take either.  [env] is what may happen to the data
    of the server besides, given the numbers whose writes it has acknowledged. *)
Inductive step (env : list Z → gmap string string → gmap string string → Prop) : client → client → Prop :=
  | step_tick s c ts closed : let n := wrap64 (c + 1) in
      step env (mkClient s c ts true closed) (mkClient s n (ts ++ [WStart n; RStart]) true closed)
  | step_exit s c ts : step env (mkClient s c ts true true) (mkClient s c ts false true)
  | step_close s c ts r closed : step env (mkClient s c ts r closed) (mkClient s c ts r true)
  | step_thread s c ts1 t ts2 r closed s' t' : thread_step s t s' t' →
      step env (mkClient s c (ts1 ++ t :: ts2) r closed) (mkClient s' c (ts1 ++ option_list t' ++ ts2) r closed)
  | step_env s c ts r closed data : env (sh_acked s) (sh_data s) data →
      step env (mkClient s c ts r closed) (mkClient (set_data s data (sh_acked s)) c ts r closed).

(** [NewTestClient]'s value, just started, against a server that holds [data]. *)
Definition started (data : gmap string string) : client :=
  mkClient (mkShared (λ _, 0) 0 ∅ [] data []) 0 [] true false.

(** [Stop] has returned: the WaitGroup counts the loop and every goroutine. *)
Definition stopped (c : client) : Prop := tc_running c = false ∧ tc_threads c = [].

Definition ConfirmedKeyCount (s : shared) : Z := Z.of_nat (size (sh_confirmedKeys s)).

(** ** The sweep *)

Definition verifySweepAttempts : nat := 3.
Definition maxSample : Z := 10.

(** The attempts on one key: [replies a] is the reply to attempt [a], and [cancelled a] whether
    the wait after it ended because the context was done, which ends the loop. *)
Fixpoint sweep_key (replies : nat → get_reply) (cancelled : nat → bool) (expected : string)
  (left attempt : nat) (outcome : readOutcome) : readOutcome :=
  match left with
  | O => outcome
  | S left' =>
      let outcome := classifyRead (replies attempt) expected in
      if negb (bool_decide (outcome = readFailed)) then outcome
      else if cancelled attempt then outcome
      else sweep_key replies cancelled expected left' (S attempt) outcome
  end.

Record FinalVerification := mkFinal {
  fv_Checked : Z;
  fv_Missing : Z;
  fv_Corrupt : Z;
  fv_Unreadable : Z;
  fv_MissingSample : list Z;
}.

Definition sweep_round (v : FinalVerification) (no : Z * readOutcome) : FinalVerification :=
  let '(n, outcome) := no in
  let '(mkFinal checked missing corrupt unreadable sample) := v in
  let checked := wrap64 (checked + 1) in
  match outcome with
  | readLost => mkFinal checked (wrap64 (missing + 1)) corrupt unreadable
      (if (Z.of_nat (length sample) <? maxSample)%Z then sample ++ [n] else sample)
  | readCorrupt => mkFinal checked missing (wrap64 (corrupt + 1)) unreadable sample
  | readFailed => mkFinal checked missing corrupt (wrap64 (unreadable + 1)) sample
  | readOK => mkFinal checked missing corrupt unreadable sample
  end.

(** What the sweep sees of the key at position [i] of the slice. *)
Definition sweep_outcome (replies : nat → nat → get_reply) (cancelled : nat → nat → bool) (i : nat) (n : Z) : Z * readOutcome :=
  (n, sweep_key (replies i) (cancelled i) (expectedValue n) verifySweepAttempts 0 readFailed).

Definition VerifyAll (replies : nat → nat → get_reply) (cancelled : nat → nat → bool) (s : shared) : FinalVerification :=
  foldl sweep_round (mkFinal 0 0 0 0 []) (imap (sweep_outcome replies cancelled) (sh_confirmedSlice s)).

(** ** The program *)

(** The exit status of [main] once the client is connected. *)
Definition chaos_exit (s : shared) : Z := if (0 <? sh_metrics s DataCorruptions)%Z then 2 else 0.
End Client.

(** ** Readiness *)

Definition containsClusterStateOk (info : string) : bool := str_contains info "cluster_state:ok".
Definition containsClusterSlotsOk (info : string) : bool := str_contains info "cluster_slots_ok:16384".

(** [strings.TrimRight(line, "\r")] *)
Fixpoint trim_right_cr (s : string) : string :=
  match s with
  | EmptyString => EmptyString
  | String c s' =>
      let r := trim_right_cr s' in
      if (r =? "") && Ascii.eqb c cr then EmptyString else String c r
  end.

Definition clusterInfoField (info name : string) : string :=
  match List.find (λ line, has_prefix line (name +:+ ":")) (trim_right_cr <$> split_on lf info) with
  | Some line => line
  | None => name +:+ ":<absent>"
  end.

Section Readiness.
Context `{GoRuntime}.

Fixpoint readiness_round (infos : gmap string string) (addrs : list string) : option string :=
  match addrs with
  | [] => None
  | addr :: rest =>
      let info := default "" (infos !! addr) in
      if negb (containsClusterStateOk info) then
        Some ("cluster not ready: " +:+ addr +:+ " reports " +:+ clusterInfoField info "cluster_state")
      else if negb (containsClusterSlotsOk info) then
        Some ("cluster not ready: " +:+ addr +:+ " reports " +:+ clusterInfoField info "cluster_slots_ok" +:+
              " (an incomplete slot view)")
      else readiness_round infos rest
  end.

Definition clusterReadiness (infos : gmap string string) : option string :=
  if (Z.of_nat (size infos) =? 0)%Z then Some "cluster not ready (no reachable master answered CLUSTER INFO)"
  else readiness_round infos (sort_strings (fst <$> go_range [218] infos)).
End Readiness.

(** The connection loop of [NewTestClient]: the checks of the ticks that [select] took before
    the timeout, each with its error. *)
Fixpoint connect (checks : list (option string)) (lastErr : option string) : unit + string :=
  match checks with
  | [] => inr ("timeout waiting for Redis connectivity: " +:+ default "%!w(<nil>)" lastErr)
  | None :: _ => inl tt
  | Some err :: rest => connect rest (Some err)
  end.

(** ** The counters of a run *)

(** How many goroutines are at a point, and the numbers of the writes not yet in the slice. *)
Definition at_point (f : thread → bool) (ts : list thread) : Z := Z.of_nat (length (bfilter f ts)).

Definition is_WStart (t : thread) : bool := if t is WStart _ then true else false.
Definition in_set (t : thread) : bool := match t with WSet _ | WFailed | WAcked _ => true | _ => false end.
Definition to_confirm (t : thread) : bool := match t with WStore _ | WAppend _ => true | _ => false end.
Definition to_read (t : thread) : bool := match t with RStart | RAttempt _ => true | _ => false end.
Definition in_read (t : thread) : bool := match t with RGet _ | ROutcome _ => true | _ => false end.
Definition stored (t : thread) : option Z := if t is WAppend n then Some n else None.
Definition acked_write (t : thread) : option Z := match t with WAcked n | WStore n | WAppend n => Some n | _ => None end.
Definition pending (t : thread) : option Z :=
  match t with WStart n | WSet n | WAcked n | WStore n | WAppend n => Some n | _ => None end.

(** The numbers still to be compared with the highest one. *)
Definition raising (t : thread) : option Z := match t with WLoad n | WCas n _ => Some n | _ => None end.

Lemma at_point_app f ts1 ts2 : at_point f (ts1 ++ ts2) = at_point f ts1 + at_point f ts2.
Proof. unfold at_point. rewrite bfilter_app, length_app. lia. Qed.

Lemma at_point_cons f t ts : at_point f (t :: ts) = (if f t then 1 else 0) + at_point f ts.
Proof. unfold at_point, bfilter. cbn [List.filter]. destruct (f t); cbn [length]; lia. Qed.

Lemma at_point_nil f : at_point f [] = 0.
Proof. done. Qed.

Lemma at_point_some f t : at_point f (option_list (Some t)) = if f t then 1 else 0.
Proof. unfold at_point, bfilter. cbn. by destruct (f t). Qed.

Lemma at_point_none f : at_point f (option_list None) = 0.
Proof. done. Qed.

Lemma at_point_nonneg f ts : 0 ≤ at_point f ts.
Proof. unfold at_point. lia. Qed.

Create HintDb chaos.
#[export] Hint Rewrite at_point_app at_point_cons at_point_nil at_point_some at_point_none : chaos.

(** The bookkeeping, while no counter has reached the end of its range: the loop has made [c]
    ticks, and every attempt is at one point or counted. *)
Record balanced (c : client) : Prop := {
  bl_counter : 0 ≤ tc_counter c;
  bl_nonneg : ∀ k, 0 ≤ sh_metrics (tc_shared c) k;
  bl_started : tc_counter c = sh_metrics (tc_shared c) WriteAttempts + at_point is_WStart (tc_threads c);
  bl_written : sh_metrics (tc_shared c) WriteAttempts =
    sh_metrics (tc_shared c) WriteSuccesses + sh_metrics (tc_shared c) WriteFailures + at_point in_set (tc_threads c);
  bl_confirmed : sh_metrics (tc_shared c) WriteSuccesses =
    Z.of_nat (length (sh_confirmedSlice (tc_shared c))) + at_point to_confirm (tc_threads c);
  bl_reads : sh_metrics (tc_shared c) ReadAttempts + at_point to_read (tc_threads c) ≤ tc_counter c;
  bl_read : sh_metrics (tc_shared c) ReadAttempts =
    sh_metrics (tc_shared c) ReadSuccesses + sh_metrics (tc_shared c) ReadFailures +
    sh_metrics (tc_shared c) LostKeys + sh_metrics (tc_shared c) DataCorruptions + at_point in_read (tc_threads c);
}.

(** No counter exceeds the number of ticks. *)
Lemma balanced_bound c k : balanced c → sh_metrics (tc_shared c) k ≤ tc_counter c.
Proof.
  intros [? Hn ? ? ? ? ?]. pose proof (λ f, at_point_nonneg f (tc_threads c)) as Hp.
  pose proof (Hp is_WStart); pose proof (Hp in_set); pose proof (Hp to_confirm); pose proof (Hp to_read); pose proof (Hp in_read).
  pose proof (Hn WriteAttempts); pose proof (Hn WriteSuccesses); pose proof (Hn WriteFailures); pose proof (Hn ReadAttempts).
  pose proof (Hn ReadSuccesses); pose proof (Hn ReadFailures); pose proof (Hn LostKeys); pose proof (Hn DataCorruptions).
  destruct k; lia.
Qed.

Lemma wrap64_succ z : 0 ≤ z < 2 ^ 63 - 1 → wrap64 (z + 1) = z + 1.
Proof. intros Hz. apply wrap64_id. unfold in_int64, int64_min, int64_max. apply andb_true_iff. rewrite !Z.leb_le. lia. Qed.

Lemma bump_same k m : 0 ≤ m k < 2 ^ 63 - 1 → bump k m k = m k + 1.
Proof. intros Hm. unfold bump. rewrite decide_True by done. by apply wrap64_succ. Qed.

Lemma bump_other k j m : j ≠ k → bump k m j = m j.
Proof. intros Hj. unfold bump. by rewrite decide_False. Qed.

Section Runs.
Context (sha256_hex : string → string) (keyPrefix : string).
Notation key := (keyName keyPrefix).
Notation value := (expectedValue sha256_hex).
Notation thread_step := (thread_step sha256_hex keyPrefix).
Notation step := (step sha256_hex keyPrefix).

(** A goroutine changes the counters as [balanced] demands. *)
Lemma balanced_thread s c ts1 t ts2 r closed s' t' :
  c < 2 ^ 63 - 1 → thread_step s t s' t' → balanced (mkClient s c (ts1 ++ t :: ts2) r closed) →
  balanced (mkClient s' c (ts1 ++ option_list t' ++ ts2) r closed).
Proof.
  intros Hc Ht Hb. pose proof (λ k, balanced_bound _ k Hb) as Hle. pose proof (bl_nonneg _ Hb) as Hnn.
  assert (Hbump : ∀ k, bump k (sh_metrics s) k = sh_metrics s k + 1).
  { intros k. apply bump_same. specialize (Hle k); specialize (Hnn k). cbn in *. lia. }
  assert (Hnonneg : ∀ k j, 0 ≤ bump k (sh_metrics s) j).
  { intros k j. pose proof (Hnn k); pose proof (Hnn j).
    destruct (decide (j = k)) as [->|Hj]; [rewrite Hbump|rewrite bump_other by done]; cbn in *; lia. }
  destruct Hb as [Hb1 Hb2 Hb3 Hb4 Hb5 Hb6 Hb7].
  cbn [tc_counter tc_shared tc_threads] in *. autorewrite with chaos in *.
  destruct Ht; try destruct o; cbn [is_WStart in_set to_confirm to_read in_read] in *; repeat case_match;
    split; cbn [tc_counter tc_shared tc_threads outcome_metric
      sh_metrics sh_confirmedSlice set_metrics set_data set_confirmed set_highest];
    try (intros; by auto); autorewrite with chaos; rewrite ?length_app, ?Hbump, ?bump_other by done;
    cbn [is_WStart in_set to_confirm to_read in_read length] in *; lia.
Qed.

Lemma balanced_step env c c' : tc_counter c < 2 ^ 63 - 1 → step env c c' → balanced c → balanced c'.
Proof.
  intros Hc Hs Hb. destruct Hs; [| | |by eapply balanced_thread|]; destruct Hb; cbn [tc_counter tc_shared tc_threads] in *.
  - split; cbn [tc_counter tc_shared tc_threads]; subst n; rewrite ?wrap64_succ by lia; autorewrite with chaos;
      cbn [is_WStart in_set to_confirm to_read in_read]; try done; lia.
  - by split.
  - by split.
  - by split.
Qed.

(** ** The numbers of a run *)

(** The numbers a write or a read is about to use. *)
Definition reading (t : thread) : option Z := match t with RAttempt n | RGet n => Some n | _ => None end.
Definition numbers (f : thread → option Z) (ts : list thread) : list Z := omap f ts.

Lemma numbers_app f ts1 ts2 : numbers f (ts1 ++ ts2) = numbers f ts1 ++ numbers f ts2.
Proof. apply omap_app. Qed.

Lemma numbers_cons f t ts : numbers f (t :: ts) = option_list (f t) ++ numbers f ts.
Proof. unfold numbers. cbn. by destruct (f t). Qed.

Lemma numbers_some f t : numbers f (option_list (Some t)) = option_list (f t).
Proof. unfold numbers. cbn. by destruct (f t). Qed.

Lemma numbers_none f : numbers f (option_list None) = [].
Proof. done. Qed.

Hint Rewrite numbers_app numbers_cons numbers_some numbers_none : chaos.

(** Each number is written once: the slice and the pending writes do not repeat and come from the
    ticks so far; set, slice and acknowledgements agree up to the writes in between; the highest
    number covers the slice up to the writes that still have to raise it. *)
Record listed (s : shared) (c : Z) (ts : list thread) : Prop := {
  ls_range : ∀ n, n ∈ sh_confirmedSlice s ++ numbers pending ts → 1 ≤ n ≤ c;
  ls_nodup : NoDup (sh_confirmedSlice s ++ numbers pending ts);
  ls_keys : ∀ n, n ∈ sh_confirmedKeys s ↔ n ∈ sh_confirmedSlice s ++ numbers stored ts;
  ls_acked : sh_acked s ≡ₚ sh_confirmedSlice s ++ numbers acked_write ts;
  ls_highest : sh_highest s = 0 ∨ sh_highest s ∈ sh_confirmedSlice s;
  ls_covered : ∀ n, n ∈ sh_confirmedSlice s → n ≤ sh_highest s ∨ n ∈ numbers raising ts;
  ls_raising : ∀ n, n ∈ numbers raising ts → n ∈ sh_confirmedSlice s;
  ls_cas : ∀ n current, WCas n current ∈ ts → current < n;
  ls_reading : ∀ n, n ∈ numbers reading ts → n ∈ sh_confirmedSlice s;
}.

(** A number that leaves the pending ones, and one that moves to the end of the slice. *)
Lemma perm_out (a b d : list Z) n : a ++ b ++ n :: d ≡ₚ n :: a ++ b ++ d.
Proof. rewrite !(assoc_L app). symmetry. apply Permutation_middle. Qed.

Lemma perm_shift (a b d : list Z) n : (a ++ [n]) ++ b ++ d ≡ₚ a ++ b ++ n :: d.
Proof. rewrite perm_out, <- (assoc_L app a). symmetry. apply Permutation_middle. Qed.

Lemma elem_of_opt {A} (o : option A) x : x ∈ option_list o ↔ o = Some x.
Proof. destruct o; cbn; [rewrite list_elem_of_singleton|rewrite elem_of_nil]; naive_solver. Qed.

(** What a goroutine that acts does to the numbers. *)
Ltac chaos_cases Ht :=
  autorewrite with chaos in *; destruct Ht;
  cbn [pending stored acked_write raising reading option_list from_option
    sh_confirmedSlice sh_confirmedKeys sh_highest sh_acked set_metrics set_data set_confirmed set_highest] in *;
  repeat case_match; autorewrite with chaos;
  cbn [pending stored acked_write raising reading option_list from_option app
    sh_confirmedSlice sh_confirmedKeys sh_highest sh_acked set_metrics set_data set_confirmed set_highest] in *;
  repeat change (option_list (@None Z)) with (@nil Z) in *;
  repeat match goal with
  | |- context [option_list (Some ?n)] => change (option_list (Some n)) with [n]
  | H : context [option_list (Some ?n)] |- _ => change (option_list (Some n)) with [n] in H
  end; cbn [app] in *.

Lemma listed_thread s c ts1 t ts2 s' t' :
  thread_step s t s' t' → listed s c (ts1 ++ t :: ts2) → listed s' c (ts1 ++ option_list t' ++ ts2).
Proof.
  intros Ht [H1 H2 H3 H4 H5 H6 H7 H8 H9]. split.
  - clear -Ht H1. chaos_cases Ht; try done; set_solver.
  - clear -Ht H2. chaos_cases Ht; try done.
    1-2: rewrite perm_out in H2; by apply NoDup_cons in H2 as [_ H2].
    by rewrite perm_shift.
  - clear -Ht H3. chaos_cases Ht; try done; set_solver.
  - clear -Ht H4. chaos_cases Ht; try done.
    + by rewrite perm_out, H4.
    + by rewrite perm_shift.
  - clear -Ht H5 H7. chaos_cases Ht; try done; set_solver.
  - clear -Ht H6 H8. chaos_cases Ht; try done.
    + set_solver.
    + bool_hyps. intros m [Hm|Hm]%H6; [by left|].
      rewrite elem_of_app, elem_of_cons in Hm. destruct Hm as [?|[->|?]]; rewrite elem_of_app; [auto|left; lia|auto].
    + bool_hyps. assert (Hn : current < n) by (apply H8; set_solver). intros m [Hm|Hm]%H6; [left; lia|].
      rewrite elem_of_app, elem_of_cons in Hm. destruct Hm as [?|[->|?]]; rewrite elem_of_app; [auto|left; lia|auto].
  - clear -Ht H7. chaos_cases Ht; try done; set_solver.
  - clear -Ht H8. chaos_cases Ht; try done; intros m cur; specialize (H8 m cur);
      rewrite ?elem_of_app, ?elem_of_cons, ?elem_of_opt in *; bool_hyps; naive_solver lia.
  - clear -Ht H9. chaos_cases Ht; try done; try set_solver.
    intros m. specialize (H9 m). rewrite elem_of_app, elem_of_cons in *. intros [?|[->|?]]; [auto|by eapply list_elem_of_lookup_2|auto].
Qed.

Lemma listed_step env c c' : 0 ≤ tc_counter c < 2 ^ 63 - 1 → step env c c' →
  listed (tc_shared c) (tc_counter c) (tc_threads c) → listed (tc_shared c') (tc_counter c') (tc_threads c').
Proof.
  intros Hc Hs Hl. destruct Hs; cbn [tc_counter tc_shared tc_threads] in *; [|done..|by eapply listed_thread|by destruct Hl; split].
  subst n. rewrite wrap64_succ by done. destruct Hl as [H1 H2 H3 H4 H5 H6 H7 H8 H9].
  assert (Hn : ∀ f, numbers f [WStart (c + 1); RStart] = option_list (f (WStart (c + 1))) ++ option_list (f RStart)).
  { intros f. unfold numbers. cbn. by destruct (f (WStart _)), (f RStart). }
  split; rewrite ?numbers_app, ?Hn, ?app_nil_r; try done.
  - cbn. intros n. rewrite (assoc_L app), elem_of_app, list_elem_of_singleton. intros [Hin| ->]; [specialize (H1 n Hin)|]; lia.
  - cbn. rewrite (assoc_L app). apply NoDup_app. split_and!; [done| |apply NoDup_singleton].
    intros n Hin%H1 ->%list_elem_of_singleton. lia.
  - intros m cur. rewrite elem_of_app, !elem_of_cons, elem_of_nil. intros [?|[?|[?|[]]]]; [by apply H8|done..].
Qed.

(** What a run has established once no counter can have wrapped. *)
Lemma run_invariant env data k c : Z.of_nat k < 2 ^ 63 → nsteps (step env) k (started data) c →
  0 ≤ tc_counter c ≤ Z.of_nat k ∧ balanced c ∧ listed (tc_shared c) (tc_counter c) (tc_threads c).
Proof.
  revert c. induction k as [|k IH]; intros c Hk Hrun.
  - inversion Hrun; subst. cbn. split_and!; [lia..| |].
    + split; cbn [tc_counter tc_shared tc_threads sh_metrics sh_confirmedSlice started length]; rewrite ?at_point_nil; intros; lia.
    + split; cbn; try set_solver. constructor.
  - apply nsteps_inv_r in Hrun as (c0 & Hrun & Hs). destruct (IH c0 ltac:(lia) Hrun) as (Hc & Hb & Hl).
    split_and!; [| |apply (balanced_step env c0 c); [lia|done..]|apply (listed_step env c0 c); [lia|done..]];
      destruct Hs; cbn [tc_counter] in *; try subst n; rewrite ?wrap64_succ by lia; lia.
Qed.

(** ** A server that keeps what it acknowledged *)

Lemma keyName_inj n m : key n = key m → n = m.
Proof.
  unfold keyName. destruct (negb (keyPrefix =? "")); [|by apply itoa_inj].
  intros H%(inj (String.app keyPrefix))%(inj (String.app ":")). by apply itoa_inj.
Qed.

(** What may happen to the data besides: a SET of this client that was given up may still arrive
    or what it wrote may be lost, and the keys of others may change; the value of a key whose
    write was acknowledged stays. *)
Definition keeps (acked : list Z) (data data' : gmap string string) : Prop :=
  ∀ n, n ∈ acked → data' !! key n = data !! key n.

Record trusted (s : shared) (ts : list thread) : Prop := {
  tr_held : ∀ n, n ∈ sh_confirmedSlice s ++ numbers acked_write ts → sh_data s !! key n = Some (value n);
  tr_outcomes : ∀ o, ROutcome o ∈ ts → o = readOK ∨ o = readFailed;
  tr_lost : sh_metrics s LostKeys = 0;
  tr_corrupt : sh_metrics s DataCorruptions = 0;
}.

Lemma held_insert (data : gmap string string) n m : data !! key m = Some (value m) → <[key n := value n]> data !! key m = Some (value m).
Proof.
  intros Hm. destruct (decide (key n = key m)) as [->%keyName_inj|Hne]; [apply lookup_insert_eq|by rewrite lookup_insert_ne].
Qed.

Lemma trusted_thread s ts1 t ts2 s' t' :
  (∀ n, n ∈ numbers reading (ts1 ++ t :: ts2) → n ∈ sh_confirmedSlice s) →
  thread_step s t s' t' → trusted s (ts1 ++ t :: ts2) → trusted s' (ts1 ++ option_list t' ++ ts2).
Proof.
  intros Hread Ht [H2 H3 H4 H5]. split.
  - clear -Ht H2. chaos_cases Ht; cbn [sh_data set_metrics set_data set_confirmed set_highest] in *; try done; intros m Hm.
    + apply held_insert, H2. set_solver.
    + rewrite !elem_of_app, elem_of_cons in Hm. destruct (decide (m = n)) as [->|]; [apply lookup_insert_eq|].
      apply held_insert, H2. set_solver.
    + apply H2. set_solver.
  - intros o. rewrite !elem_of_app, elem_of_opt. intros Ho.
    assert (Hold : ROutcome o ∈ ts1 ++ t :: ts2 → o = readOK ∨ o = readFailed) by apply H3.
    rewrite elem_of_app, elem_of_cons in Hold. destruct Ho as [?|[Ho|?]]; [by auto| |by auto].
    destruct Ht; repeat case_match; simplify_eq. clear Hold.
    assert (Hin : n ∈ sh_confirmedSlice s) by (apply Hread; autorewrite with chaos; set_solver).
    assert (Hd : sh_data s !! key n = Some (value n)) by (apply H2; set_solver).
    match goal with Ha : get_answers _ _ _ |- _ => destruct Ha end; cbn; simplify_eq; [by right|rewrite String.eqb_refl; by left].
  - clear -Ht H3 H4. destruct Ht; repeat case_match; cbn; try done; rewrite bump_other; try done.
    specialize (H3 o ltac:(set_solver)). by destruct H3 as [->| ->].
  - clear -Ht H3 H5. destruct Ht; repeat case_match; cbn; try done; rewrite bump_other; try done.
    specialize (H3 o ltac:(set_solver)). by destruct H3 as [->| ->].
Qed.

Lemma trusted_run data k c : Z.of_nat k < 2 ^ 63 → nsteps (step keeps) k (started data) c →
  trusted (tc_shared c) (tc_threads c).
Proof.
  revert c. induction k as [|k IH]; intros c Hk Hrun.
  { inversion Hrun; subst. split; cbn; try done; set_solver. }
  apply nsteps_inv_r in Hrun as (c0 & Hrun & Hs). specialize (IH c0 ltac:(lia) Hrun).
  destruct (run_invariant keeps data k c0 ltac:(lia) Hrun) as (_ & _ & Hl).
  destruct Hs; cbn [tc_shared tc_threads] in *; try done.
  - destruct IH as [H2 H3 H4 H5]. split; try done; intros m; [rewrite numbers_app|rewrite elem_of_app, !elem_of_cons, elem_of_nil].
    + rewrite app_nil_r. apply H2.
    + naive_solver.
  - eapply trusted_thread; [|done..]. apply (ls_reading _ _ _ Hl).
  - destruct IH as [H2 H3 H4 H5]. split; cbn; try done. intros n Hn.
    rewrite (H n); [by apply H2|]. by rewrite (ls_acked _ _ _ Hl).
Qed.

(** ** The counts of a sweep *)

(** The sweep got an answer about a key: one attempt did not fail before the context ended. *)
Fixpoint answered (replies : nat → get_reply) (cancelled : nat → bool) (left attempt : nat) : bool :=
  match left with
  | O => false
  | S left' =>
      match replies attempt with
      | GetError => negb (cancelled attempt) && answered replies cancelled left' (S attempt)
      | _ => true
      end
  end.

(** What a key is by the data of the server. *)
Definition stands (data : gmap string string) (n : Z) : readOutcome :=
  match data !! key n with
  | None => readLost
  | Some v => if v =? value n then readOK else readCorrupt
  end.

Lemma sweep_key_spec data n replies cancelled left attempt :
  (∀ a, get_answers data (key n) (replies a)) →
  sweep_key replies cancelled (value n) left attempt readFailed =
  if answered replies cancelled left attempt then stands data n else readFailed.
Proof.
  intros Hr. revert attempt. induction left as [|left IH]; intros a; [done|]. cbn [sweep_key answered].
  destruct (Hr a) as [|v Hv|Hv]; cbn [classifyRead].
  - cbn. destruct (cancelled a); [done|apply IH].
  - unfold stands. rewrite Hv. by destruct (v =? value n).
  - unfold stands. by rewrite Hv.
Qed.

(** How many keys had an outcome, and which ones. *)
Definition with_outcome (o : readOutcome) (l : list (Z * readOutcome)) : list Z :=
  fst <$> bfilter (λ no, bool_decide (no.2 = o)) l.
Definition tally (o : readOutcome) (l : list (Z * readOutcome)) : Z := Z.of_nat (length (with_outcome o l)).

Lemma with_outcome_snoc o l no : with_outcome o (l ++ [no]) = with_outcome o l ++ (if bool_decide (no.2 = o) then [no.1] else []).
Proof. unfold with_outcome. rewrite bfilter_app, fmap_app. f_equal. unfold bfilter. cbn. by case_bool_decide. Qed.

Lemma tally_le o l : 0 ≤ tally o l ≤ Z.of_nat (length l).
Proof.
  unfold tally, with_outcome. rewrite length_fmap. unfold bfilter. pose proof (filter_length_le (λ no : Z * readOutcome, bool_decide (no.2 = o)) l). lia.
Qed.

Lemma sweep_fold l : Z.of_nat (length l) < 2 ^ 63 →
  foldl sweep_round (mkFinal 0 0 0 0 []) l =
  mkFinal (Z.of_nat (length l)) (tally readLost l) (tally readCorrupt l) (tally readFailed l) (take 10 (with_outcome readLost l)).
Proof.
  induction l as [|[n o] l IH] using rev_ind; intros Hl; [done|]. rewrite foldl_snoc, length_app in *. cbn [length] in *.
  rewrite IH by lia. unfold sweep_round.
  assert (Hw : ∀ o', wrap64 (tally o' l + 1) = tally o' l + 1) by (intros o'; pose proof (tally_le o' l); apply wrap64_succ; lia).
  assert (Ht : ∀ o', tally o' (l ++ [(n, o)]) = tally o' l + if bool_decide (o = o') then 1 else 0).
  { intros o'. unfold tally. rewrite with_outcome_snoc, length_app. cbn [snd]. case_bool_decide; cbn [length]; lia. }
  rewrite !Ht, wrap64_succ, with_outcome_snoc by lia. cbn [fst snd]. destruct o; cbn; rewrite ?Hw, ?Z.add_0_r, ?app_nil_r; f_equal; try lia.
  rewrite bool_decide_true by done. set (w := with_outcome readLost l). rewrite length_take.
  destruct (decide (length w < 10)%nat) as [Hlt|Hge]; unfold maxSample.
  - rewrite (proj2 (Z.ltb_lt _ _)) by lia. rewrite !take_ge by (rewrite ?length_app; cbn; lia). done.
  - rewrite (proj2 (Z.ltb_ge _ _)) by lia. by rewrite take_app_le by lia.
Qed.

(** The outcomes of a sweep, by the data of the server and by whether it answered. *)
Definition verdicts (data : gmap string string) (replies : nat → nat → get_reply) (cancelled : nat → nat → bool)
  (slice : list Z) : list (Z * readOutcome) :=
  imap (λ i n, (n, if answered (replies i) (cancelled i) verifySweepAttempts 0 then stands data n else readFailed)) slice.

Lemma VerifyAll_verdicts data replies cancelled s :
  Z.of_nat (length (sh_confirmedSlice s)) < 2 ^ 63 →
  (∀ i n a, sh_confirmedSlice s !! i = Some n → get_answers data (key n) (replies i a)) →
  let l := verdicts data replies cancelled (sh_confirmedSlice s) in
  VerifyAll sha256_hex replies cancelled s =
  mkFinal (Z.of_nat (length l)) (tally readLost l) (tally readCorrupt l) (tally readFailed l) (take 10 (with_outcome readLost l)).
Proof.
  intros Hl Hr l. unfold VerifyAll.
  assert (imap (sweep_outcome sha256_hex replies cancelled) (sh_confirmedSlice s) = l) as ->.
  { apply imap_ext. intros i n Hi. unfold sweep_outcome. f_equal. apply sweep_key_spec. intros a. by eapply Hr. }
  apply sweep_fold. unfold l, verdicts. by rewrite length_imap.
Qed.

Lemma tally_zero o l : tally o l = 0 ↔ ∀ no, no ∈ l → no.2 ≠ o.
Proof.
  unfold tally, with_outcome. rewrite length_fmap. trans (bfilter (λ no : Z * readOutcome, bool_decide (no.2 = o)) l = []).
  { destruct (bfilter _ l); cbn; naive_solver lia. }
  rewrite bfilter_nil. by setoid_rewrite bool_decide_eq_false.
Qed.

(** At rest the slice, the acknowledgements and the set hold the same numbers. *)
Lemma rest_listed s c : listed s c [] →
  NoDup (sh_confirmedSlice s) ∧ sh_acked s ≡ₚ sh_confirmedSlice s ∧ sh_confirmedKeys s = list_to_set (sh_confirmedSlice s).
Proof.
  intros [_ H2 H3 H4 _ _ _ _ _]. cbn in *. rewrite !app_nil_r in *. split_and!; [done..|].
  apply set_eq. intros n. by rewrite H3, ?app_nil_r, elem_of_list_to_set.
Qed.

(** ** Properties *)

(** C31. The numbers the client reports are consistent.  Whatever the server answers, whatever happens
    to its data, and however the goroutines interleave: once [Stop] has returned, every tick is one
    attempted write that succeeded or failed; every attempted read has exactly one outcome; the
    slice that the reads and the sweep draw from lists each acknowledged write exactly once and
    agrees with the set and the counter; and the highest confirmed number is the largest
    acknowledged one, none of the concurrent updates being lost. *)
Theorem traffic_accounted env data (k : nat) (c : client) :
  Z.of_nat k < 2 ^ 63 → nsteps (step env) k (started data) c → stopped c →
  let s := tc_shared c in let m := sh_metrics s in
  m WriteAttempts = tc_counter c ∧
  m WriteAttempts = m WriteSuccesses + m WriteFailures ∧
  m ReadAttempts = m ReadSuccesses + m ReadFailures + m LostKeys + m DataCorruptions ∧
  NoDup (sh_confirmedSlice s) ∧ sh_confirmedSlice s ≡ₚ sh_acked s ∧
  m WriteSuccesses = Z.of_nat (length (sh_acked s)) ∧ ConfirmedKeyCount s = m WriteSuccesses ∧
  (∀ n, n ∈ sh_acked s → n ≤ sh_highest s) ∧ (sh_acked s = [] ∨ sh_highest s ∈ sh_acked s).
Proof.
  intros Hk Hrun [_ Hts] s m. destruct (run_invariant env data k c Hk Hrun) as (_ & Hb & Hl).
  rewrite Hts in Hl. destruct (rest_listed _ _ Hl) as (Hnd & Hack & Hkeys).
  destruct Hb as [_ _ H3 H4 H5 _ H7]. rewrite Hts in *. rewrite !at_point_nil in *. fold s in Hnd, Hack, Hkeys, Hl. fold s m in H3, H4, H5, H7.
  split_and!; [lia..|done|by symmetry|rewrite Hack; lia| | |].
  - unfold ConfirmedKeyCount. rewrite Hkeys, size_list_to_set by done. lia.
  - intros n. rewrite Hack. intros [Hle|Hin]%(ls_covered _ _ _ Hl); [done|by apply elem_of_nil in Hin].
  - destruct (ls_highest _ _ _ Hl) as [H0|?]; [left|right; by rewrite Hack].
    apply Permutation_nil_r. rewrite Hack. destruct (sh_confirmedSlice s) as [|n l] eqn:Hs; [done|].
    assert (Hn : n ∈ sh_confirmedSlice s) by (rewrite Hs; left).
    pose proof (ls_range _ _ _ Hl n ltac:(apply elem_of_app; by left)).
    destruct (ls_covered _ _ _ Hl n Hn) as [?|Hin]; [lia|by apply elem_of_nil in Hin].
Qed.

(** C32. A server that keeps what it has acknowledged is never accused.  Whatever it holds at the
    start, however operations fail, time out, arrive late or are lost without having been
    acknowledged, and at any moment of the traffic, no read has been counted as a lost key or
    as a corruption; and a sweep of what the server then holds finds nothing missing or corrupt. *)
Theorem no_false_alarm data (k : nat) (c : client) replies cancelled :
  Z.of_nat k < 2 ^ 63 → nsteps (step keeps) k (started data) c →
  let s := tc_shared c in
  (∀ i n a, sh_confirmedSlice s !! i = Some n → get_answers (sh_data s) (key n) (replies i a)) →
  sh_metrics s LostKeys = 0 ∧ sh_metrics s DataCorruptions = 0 ∧ chaos_exit s = 0 ∧
  fv_Missing (VerifyAll sha256_hex replies cancelled s) = 0 ∧ fv_Corrupt (VerifyAll sha256_hex replies cancelled s) = 0.
Proof.
  intros Hk Hrun s Hr. destruct (trusted_run data k c Hk Hrun) as [Hheld _ Hlost Hcor].
  fold s in Hheld, Hlost, Hcor. destruct (run_invariant keeps data k c Hk Hrun) as (Hc & Hb & _).
  assert (Hlen : Z.of_nat (length (sh_confirmedSlice s)) < 2 ^ 63).
  { pose proof (balanced_bound c WriteSuccesses Hb). destruct Hb as [_ _ _ _ H5 _ _]. fold s in H, H5.
    pose proof (at_point_nonneg to_confirm (tc_threads c)). lia. }
  rewrite (VerifyAll_verdicts (sh_data s) replies cancelled s Hlen Hr). cbn [fv_Missing fv_Corrupt].
  assert (Hok : ∀ no, no ∈ verdicts (sh_data s) replies cancelled (sh_confirmedSlice s) → no.2 = readOK ∨ no.2 = readFailed).
  { intros no (i & n & -> & Hi)%elem_of_lookup_imap. cbn [snd]. destruct (answered _ _ _ _); [left|by right].
    unfold stands. rewrite (Hheld n) by (apply elem_of_app; left; by eapply list_elem_of_lookup_2). by rewrite String.eqb_refl. }
  split_and!; [done..|unfold chaos_exit; by rewrite Hcor| |]; apply tally_zero; intros no [-> | ->]%Hok; done.
Qed.

(** The sweep is exact.  After the traffic it checks each acknowledged write once, and counts as
    missing, corrupt or unreadable exactly the writes that the server no longer holds, holds with
    another value, or did not answer about in any attempt; the sample lists the first missing ones;
    and nothing is counted exactly if every acknowledged write was answered for and is there. *)
Theorem sweep_exact env data0 (k : nat) (c : client) data replies cancelled :
  Z.of_nat k < 2 ^ 63 → nsteps (step env) k (started data0) c → stopped c →
  let s := tc_shared c in
  (∀ i n a, sh_confirmedSlice s !! i = Some n → get_answers data (key n) (replies i a)) →
  let v := VerifyAll sha256_hex replies cancelled s in
  let l := verdicts data replies cancelled (sh_confirmedSlice s) in
  fst <$> l ≡ₚ sh_acked s ∧ fv_Checked v = Z.of_nat (length (sh_acked s)) ∧
  fv_Missing v = tally readLost l ∧ fv_Corrupt v = tally readCorrupt l ∧ fv_Unreadable v = tally readFailed l ∧
  fv_MissingSample v = take 10 (with_outcome readLost l) ∧
  (fv_Missing v = 0 ∧ fv_Corrupt v = 0 ∧ fv_Unreadable v = 0 ↔
   (∀ n, n ∈ sh_acked s → data !! key n = Some (value n)) ∧
   ∀ i, (i < length (sh_acked s))%nat → answered (replies i) (cancelled i) verifySweepAttempts 0 = true).
Proof.
  intros Hk Hrun [_ Hts] s Hr v l. destruct (run_invariant env data0 k c Hk Hrun) as (Hc & Hb & Hl).
  pose proof (balanced_bound c WriteSuccesses Hb) as Hle. destruct Hb as [_ _ _ _ H5 _ _].
  rewrite Hts in Hl, H5. rewrite at_point_nil in H5. fold s in H5, Hl, Hle. destruct (rest_listed _ _ Hl) as (_ & Hack & _).
  assert (Hlen : Z.of_nat (length (sh_confirmedSlice s)) < 2 ^ 63) by lia.
  unfold v. rewrite (VerifyAll_verdicts data replies cancelled s Hlen Hr). fold l.
  cbn [fv_Checked fv_Missing fv_Corrupt fv_Unreadable fv_MissingSample].
  assert (Hfst : fst <$> l = sh_confirmedSlice s).
  { apply list_eq. intros i. unfold l, verdicts. rewrite list_lookup_fmap, list_lookup_imap. by destruct (_ !! i). }
  assert (Hn : length l = length (sh_acked s)) by (rewrite Hack, <- Hfst; by rewrite length_fmap).
  rewrite !tally_zero, Hn. split_and!; [by rewrite Hfst, Hack|done..|].
  assert (Hl' : ∀ i n, sh_confirmedSlice s !! i = Some n →
    (n, if answered (replies i) (cancelled i) verifySweepAttempts 0 then stands data n else readFailed) ∈ l).
  { intros i n Hi. unfold l, verdicts. apply elem_of_lookup_imap. eauto. }
  split.
  - intros (H1 & H2 & H3). assert (Hall : ∀ i n, sh_confirmedSlice s !! i = Some n →
      answered (replies i) (cancelled i) verifySweepAttempts 0 = true ∧ data !! key n = Some (value n)).
    { intros i n Hi%Hl'. specialize (H1 _ Hi); specialize (H2 _ Hi); specialize (H3 _ Hi). cbn [snd] in *.
      destruct (answered _ _ _ _); [|done]. split; [done|]. revert H1 H2. unfold stands.
      destruct (data !! key n) as [w|]; [|done]. by destruct (String.eqb_spec w (value n)) as [->|]. }
    split.
    + intros n. rewrite Hack. intros [i Hi]%list_elem_of_lookup. by apply (Hall i n).
    + intros i. rewrite Hack. intros [n Hi]%lookup_lt_is_Some_2. by apply (Hall i n).
  - intros [Hd Ha].
    assert (Hall : ∀ no, no ∈ l → no.2 = readOK).
    { intros no (i & n & -> & Hi)%elem_of_lookup_imap. cbn [snd]. rewrite Ha by (rewrite Hack; by eapply lookup_lt_Some).
      unfold stands. rewrite Hd by (rewrite Hack; by eapply list_elem_of_lookup_2). by rewrite String.eqb_refl. }
    split_and!; intros no ->%Hall; done.
Qed.
End Runs.

(** ** Readiness *)

Lemma readiness_round_none infos addrs :
  readiness_round infos addrs = None ↔
  ∀ addr, addr ∈ addrs → containsClusterStateOk (default "" (infos !! addr)) = true ∧
                         containsClusterSlotsOk (default "" (infos !! addr)) = true.
Proof.
  induction addrs as [|a addrs IH]; cbn [readiness_round]; [split; [set_solver|done]|]. setoid_rewrite elem_of_cons.
  destruct (containsClusterStateOk (default "" (infos !! a))) eqn:H1, (containsClusterSlotsOk (default "" (infos !! a))) eqn:H2;
    cbn [negb]; (split; [intros H; try done|intros H]).
  - intros b [->|Hb]; [done|by apply IH].
  - apply IH. naive_solver.
  - destruct (H a) as [_ Hx]; [by left|]. by rewrite H2 in Hx.
  - destruct (H a) as [Hx _]; [by left|]. by rewrite H1 in Hx.
  - destruct (H a) as [Hx _]; [by left|]. by rewrite H1 in Hx.
Qed.

(** The gate opens exactly when some master answered and every one that did calls the cluster
    whole; one that has not learned all slots keeps it shut. *)
Lemma clusterReadiness_spec `{GoRuntime} infos :
  clusterReadiness infos = None ↔
  infos ≠ ∅ ∧ ∀ addr info, infos !! addr = Some info → containsClusterStateOk info = true ∧ containsClusterSlotsOk info = true.
Proof.
  unfold clusterReadiness. destruct (Z.eqb_spec (Z.of_nat (size infos)) 0) as [He|Hne].
  { assert (infos = ∅) as -> by (apply map_size_empty_inv; lia). naive_solver. }
  assert (Hinf : infos ≠ ∅) by (intros ->; by rewrite map_size_empty in Hne).
  rewrite readiness_round_none. setoid_rewrite sort_strings_perm. setoid_rewrite list_elem_of_fmap.
  split.
  - intros Hall. split; [done|]. intros addr info Hi. specialize (Hall addr). rewrite Hi in Hall. apply Hall.
    exists (addr, info). split; [done|]. by apply elem_of_go_range.
  - intros [_ Hall] addr ([a i] & -> & Ha%elem_of_go_range). cbn [fst]. rewrite Ha. by apply (Hall a).
Qed.

Lemma connect_spec checks lastErr : connect checks lastErr = inl tt ↔ None ∈ checks.
Proof.
  revert lastErr. induction checks as [|[e|] checks IH]; intros l; cbn [connect]; rewrite ?elem_of_cons.
  - by rewrite elem_of_nil.
  - rewrite IH. naive_solver.
  - naive_solver.
Qed.

(** ** Witnesses *)

(** One tick: the read finds no key yet, the write is acknowledged and listed, and the client
    stops. *)
Lemma one_write sha256_hex keyPrefix env (data : gmap string string) : ∃ s,
  nsteps (step sha256_hex keyPrefix env) 11 (started data) (mkClient s 1 [] false true) ∧
  sh_confirmedSlice s = [1] ∧ sh_acked s = [1] ∧ sh_metrics s DataCorruptions = 0 ∧
  sh_data s = <[keyName keyPrefix 1 := expectedValue sha256_hex 1]> data.
Proof.
  eexists. split.
  - eapply nsteps_l; [apply step_tick|]. cbn zeta. change (wrap64 (0 + 1)) with 1.
    eapply nsteps_l; [apply (step_thread _ _ _ _ _ [WStart 1] RStart []), do_no_keys; reflexivity|].
    eapply nsteps_l; [apply (step_thread _ _ _ _ _ [] (WStart 1) []), do_attempt|].
    eapply nsteps_l; [apply (step_thread _ _ _ _ _ [] (WSet 1) []), do_set|].
    eapply nsteps_l; [apply (step_thread _ _ _ _ _ [] (WAcked 1) []), do_success|].
    eapply nsteps_l; [apply (step_thread _ _ _ _ _ [] (WStore 1) []), do_store|].
    eapply nsteps_l; [apply (step_thread _ _ _ _ _ [] (WAppend 1) []), do_append|].
    eapply nsteps_l; [apply (step_thread _ _ _ _ _ [] (WLoad 1) []), do_load|].
    eapply nsteps_l; [apply (step_thread _ _ _ _ _ [] (WCas 1 0) []), do_cas|].
    eapply nsteps_l; [apply step_close|]. eapply nsteps_l; [apply step_exit|]. apply nsteps_O.
  - done.
Qed.

Lemma traffic_accounted_witness : ∃ c, nsteps (step id "chaos" (λ _ _ _, True)) 11 (started ∅) c ∧
  sh_metrics (tc_shared c) WriteSuccesses = 1 ∧ ConfirmedKeyCount (tc_shared c) = 1.
Proof.
  destruct (one_write id "chaos" (λ _ _ _, True) ∅) as (s & Hrun & _ & Hack & _).
  destruct (traffic_accounted id "chaos" (λ _ _ _, True) ∅ 11 _ eq_refl Hrun (conj eq_refl eq_refl))
    as (_ & _ & _ & _ & _ & Hw & Hc & _).
  exists (mkClient s 1 [] false true). cbn [tc_shared] in *. rewrite Hack in Hw. split; [exact Hrun|].
  split; [exact Hw|]. rewrite Hc. exact Hw.
Defined.

Lemma no_false_alarm_witness : ∃ c, nsteps (step id "chaos" (keeps "chaos")) 11 (started ∅) c ∧
  sh_acked (tc_shared c) = [1] ∧ sh_metrics (tc_shared c) LostKeys = 0 ∧
  fv_Missing (VerifyAll id (λ _ _, GetValue "1") (λ _ _, false) (tc_shared c)) = 0.
Proof.
  destruct (one_write id "chaos" (keeps "chaos") ∅) as (s & Hrun & Hs & Hack & _ & Hd).
  destruct (no_false_alarm id "chaos" ∅ 11 _ (λ _ _, GetValue "1") (λ _ _, false) eq_refl Hrun)
    as (Hl & _ & _ & Hm & _).
  - cbn [tc_shared]. rewrite Hs. intros [|i] n a Hi; [|discriminate Hi]. injection Hi as <-. apply get_value. rewrite Hd.
    apply lookup_insert_eq.
  - exists (mkClient s 1 [] false true). cbn [tc_shared] in *. auto.
Defined.

(** The acknowledged write is gone when the sweep runs. *)
Lemma sweep_exact_witness : ∃ c, nsteps (step id "chaos" (λ _ _ _, True)) 11 (started ∅) c ∧
  fv_Checked (VerifyAll id (λ _ _, GetNil) (λ _ _, false) (tc_shared c)) = 1 ∧
  fv_Missing (VerifyAll id (λ _ _, GetNil) (λ _ _, false) (tc_shared c)) = 1.
Proof.
  destruct (one_write id "chaos" (λ _ _ _, True) ∅) as (s & Hrun & Hs & Hack & _).
  destruct (sweep_exact id "chaos" (λ _ _ _, True) ∅ 11 _ ∅ (λ _ _, GetNil) (λ _ _, false) eq_refl Hrun (conj eq_refl eq_refl))
    as (_ & Hc & Hm & _).
  - intros i n a _. apply get_nil. reflexivity.
  - exists (mkClient s 1 [] false true). cbn [tc_shared] in *. rewrite Hack in Hc. rewrite Hs in Hm.
    split; [exact Hrun|]. split; [exact Hc|]. rewrite Hm. reflexivity.
Defined.

(** The exit status looks at the sampled counter only: a run whose sweep finds an acknowledged
    write with another value still ends with status 0. *)
Lemma swept_corruption_exits_zero : ∃ c, nsteps (step id "chaos" (λ _ _ _, True)) 11 (started ∅) c ∧ stopped c ∧
  fv_Corrupt (VerifyAll id (λ _ _, GetValue "other") (λ _ _, false) (tc_shared c)) = 1 ∧ chaos_exit (tc_shared c) = 0.
Proof.
  destruct (one_write id "chaos" (λ _ _ _, True) ∅) as (s & Hrun & Hs & _ & Hd & _).
  exists (mkClient s 1 [] false true). cbn [tc_shared]. unfold VerifyAll, chaos_exit. rewrite Hs, Hd. done.
Qed.
