(* ===== verification/EventMonitor.v ===== *)
(** * The background monitors

    The goroutines that make the operator look early: the subscription to [+switch-master] of a
    Sentinel instance (src/internal/controller/sentinel_monitor.go, [monitorSentinel], with
    [Subscribe] of src/internal/redis/client.go) and the watcher of a failover-mode master
    (failover_monitor.go, [monitorFailoverMaster]).  Each is a labelled transition system: a
    state is the point the goroutine has reached and whether its context has been cancelled, and
    a label is what it exchanges with the rest of the program.  [runs] is a run with its trace.
    Where Go's [select] has several ready cases every one of them is a step.  The two queries of
    the Sentinel client over all addresses are here as well.

    The theorems: a Sentinel event becomes one reconciliation of the instance unless the monitor is
    cancelled while it pushes it, the monitor gives up on nothing but its cancellation, and holds
    at most one connection, every failed attempt closed ([sentinel_monitor_faithful]); the watcher pushes exactly the events its probe streak calls
    for, in order ([failover_monitor_refines]). *)

From S2P Require Import Prelude GoStrings Probe ClusterState ReplicationTypes Lineage ReplicationState.
From S2P Require Import Recovery FailoverIntent Info Gather.
Local Open Scope Z_scope.
Local Open Scope go_scope.

(** ** Queries over all Sentinels *)

(** [reachable] is whether an earlier address answered. *)
Fixpoint any_failover (w : Wire) (name : string) (addresses : list string) (reachable : bool) : result bool :=
  match addresses with
  | [] => if negb reachable then inr (plain_error "no sentinels reachable to check failover status") else inl false
  | addr :: rest =>
      match wire_master w addr name with
      | inr _ => any_failover w name rest reachable
      | inl r => if failoverInProgress (field r "flags") (field r "failover-state") then inl true
                 else any_failover w name rest true
      end
  end.

Definition IsFailoverInProgress (w : Wire) (addresses : list string) (name : string) : result bool :=
  any_failover w name addresses false.

(** [ask] is getMasterFromSentinel, address and port. *)
Definition count_master (ask : string → result (string * string)) (acc : gmap string Z * Z) (addr : string) : gmap string Z * Z :=
  match ask addr with
  | inr _ => acc
  | inl (ip, _) => (<[ip := default 0 (acc.1 !! ip) + 1]> acc.1, acc.2 + 1)
  end.

Definition GetMasterAcrossAll (ask : string → result (string * string)) (addresses : list string) : result (gmap string Z) :=
  let '(counts, reachable) := foldl (count_master ask) (∅, 0) addresses in
  if (reachable =? 0)%Z then inr (plain_error "no sentinels reachable") else inl counts.

(** ** The subscription *)

(** What [Subscribe] and the function it returns do to clients and their subscriptions. *)
Inductive conn_action :=
  | OpenClient (addr : string) | CloseClient (addr : string)
  | OpenPubSub (addr : string) | ClosePubSub (addr : string).

(** [ping] and [receive] are the errors of the first PING and of the confirmation, by address.
    A client that does not answer is closed; the result is the address the client is open to. *)
Fixpoint first_alive (ping : string → option probe_error) (addresses : list string) (lastErr : option probe_error)
  : list conn_action * (string + option probe_error) :=
  match addresses with
  | [] => ([], inr lastErr)
  | addr :: rest =>
      match ping addr with
      | None => ([OpenClient addr], inl addr)
      | Some err => let r := first_alive ping rest (Some err) in (OpenClient addr :: CloseClient addr :: r.1, r.2)
      end
  end.

Definition cleanup (addr : string) : list conn_action := [ClosePubSub addr; CloseClient addr].

Definition Subscribe (ping receive : string → option probe_error) (addresses : list string)
  : list conn_action * result string :=
  let '(acts, r) := first_alive ping addresses None in
  match r with
  | inr (Some err) => (acts, inr (wrap_error "failed to connect to any sentinel" err))
  | inr None => (acts, inr (plain_error "no sentinels available"))
  | inl addr =>
      match receive addr with
      | Some err => (acts ++ OpenPubSub addr :: cleanup addr, inr (wrap_error "failed to subscribe" err))
      | None => (acts ++ [OpenPubSub addr], inl addr)
      end
  end.

(** The points of [monitorSentinel]: the top of the loop, the wait after a failure, the wait for a
    message, the send of an event, the sleep before the next connection, the end. *)
Inductive mpoint := Top | Backoff | Waiting (addr : string) | Sending (addr : string) | Sleeping | Ended.

#[export] Instance mpoint_eq_dec : EqDecision mpoint.
Proof. solve_decision. Defined.

Record mstate := mkMState {
  ms_point : mpoint;
  ms_cancelled : bool;
}.

(** What the goroutine exchanges: the opening and closing of clients and subscriptions, the result
    of a connection attempt, a message, the end of the channel, an event with the namespace and
    name it carries, the cancellation by [stopSentinelMonitor], and the passing of time. *)
Inductive mlabel :=
  | LConn (a : conn_action) | LSubscribe (r : result string) | LMessage | LEnd | LEvent (namespace name : string)
  | LCancel | LPause.

Inductive monitor_step (namespace name : string) : mstate → list mlabel → mstate → Prop :=
  | mon_cancel p b : monitor_step namespace name (mkMState p b) [LCancel] (mkMState p true)
  | mon_stop : monitor_step namespace name (mkMState Top true) [] (mkMState Ended true)
  | mon_connect ping receive addresses acts addr : Subscribe ping receive addresses = (acts, inl addr) →
      monitor_step namespace name (mkMState Top false) ((LConn <$> acts) ++ [LSubscribe (inl addr)])
        (mkMState (Waiting addr) false)
  | mon_refused ping receive addresses acts err : Subscribe ping receive addresses = (acts, inr err) →
      monitor_step namespace name (mkMState Top false) ((LConn <$> acts) ++ [LSubscribe (inr err)])
        (mkMState Backoff false)
  | mon_backoff_stop : monitor_step namespace name (mkMState Backoff true) [] (mkMState Ended true)
  | mon_retry b : monitor_step namespace name (mkMState Backoff b) [LPause] (mkMState Top b)
  | mon_message addr b : monitor_step namespace name (mkMState (Waiting addr) b) [LMessage] (mkMState (Sending addr) b)
  | mon_channel_closed addr b :
      monitor_step namespace name (mkMState (Waiting addr) b) (LEnd :: (LConn <$> cleanup addr)) (mkMState Sleeping b)
  | mon_send addr b :
      monitor_step namespace name (mkMState (Sending addr) b) [LEvent namespace name] (mkMState (Waiting addr) b)
  | mon_send_stop addr :
      monitor_step namespace name (mkMState (Sending addr) true) (LConn <$> cleanup addr) (mkMState Ended true)
  | mon_wake b : monitor_step namespace name (mkMState Sleeping b) [LPause] (mkMState Top b).

(** ** The watcher of failover mode *)

(** The points of [monitorFailoverMaster]: the wait for a tick, the send, the end. *)
Inductive wpoint := Watching | Firing | Unwatched.

Record wstate := mkWState {
  ws_point : wpoint;
  ws_streak : failoverProbeStreak;
  ws_cancelled : bool;
}.

Inductive wlabel := WTick (t : tick) | WEvent (namespace name : string) | WCancel.

Inductive watcher_step (namespace name : string) : wstate → list wlabel → wstate → Prop :=
  | wat_cancel p st b : watcher_step namespace name (mkWState p st b) [WCancel] (mkWState p st true)
  | wat_stop st : watcher_step namespace name (mkWState Watching st true) [] (mkWState Unwatched st true)
  | wat_tick st b t :
      watcher_step namespace name (mkWState Watching st b) [WTick t]
        (mkWState (if (monitor_tick st t).2 then Firing else Watching) (monitor_tick st t).1 b)
  | wat_send st b : watcher_step namespace name (mkWState Firing st b) [WEvent namespace name] (mkWState Watching st b)
  | wat_send_stop st : watcher_step namespace name (mkWState Firing st true) [] (mkWState Unwatched st true).

(** ** Runs *)

Inductive runs {S L} (step : S → list L → S → Prop) : S → list L → S → Prop :=
  | runs_nil s : runs step s [] s
  | runs_snoc s t s1 l s2 : runs step s t s1 → step s1 l s2 → runs step s (t ++ l) s2.

Definition occurrences {L} (f : L → bool) (l : list L) : nat := length (bfilter f l).

Lemma occurrences_app {L} (f : L → bool) l1 l2 : occurrences f (l1 ++ l2) = (occurrences f l1 + occurrences f l2)%nat.
Proof. unfold occurrences. by rewrite bfilter_app, length_app. Qed.

Lemma occurrences_one {L} (f : L → bool) x : occurrences f [x] = if f x then 1%nat else 0%nat.
Proof. unfold occurrences. cbn. by destruct (f x). Qed.

Lemma occurrences_nil {L} (f : L → bool) : occurrences f [] = 0%nat.
Proof. done. Qed.

Definition is_message (l : mlabel) : bool := if l is LMessage then true else false.
Definition is_event (l : mlabel) : bool := if l is LEvent _ _ then true else false.
Definition conn_of (l : mlabel) : option conn_action := if l is LConn a then Some a else None.

(** The client that is open and whether it has a subscription.  [None]: an action that does not
    fit, such as a second client while one is open, or the closing of one that is not. *)
Definition conn_step (held : option (string * bool)) (a : conn_action) : option (option (string * bool)) :=
  match a, held with
  | OpenClient addr, None => Some (Some (addr, false))
  | OpenPubSub addr, Some (x, false) => if x =? addr then Some (Some (addr, true)) else None
  | ClosePubSub addr, Some (x, true) => if x =? addr then Some (Some (addr, false)) else None
  | CloseClient addr, Some (x, false) => if x =? addr then Some None else None
  | _, _ => None
  end.

Fixpoint connections (held : option (string * bool)) (l : list conn_action) : option (option (string * bool)) :=
  match l with
  | [] => Some held
  | a :: l' => held' ← conn_step held a; connections held' l'
  end.

(** The connection a point holds, and whether it owes an event. *)
Definition holds (p : mpoint) : option (string * bool) :=
  match p with Waiting addr | Sending addr => Some (addr, true) | _ => None end.
Definition owes (p : mpoint) : nat := if p is Sending _ then 1 else 0.

Lemma connections_app held l1 l2 :
  connections held (l1 ++ l2) = held' ← connections held l1; connections held' l2.
Proof. revert held. induction l1 as [|a l1 IH]; intros held; [done|]. cbn. destruct (conn_step held a); [apply IH|done]. Qed.

Lemma conns_of (l : list conn_action) : omap conn_of (LConn <$> l) = l.
Proof. induction l as [|a l IH]; [done|]. cbn. by f_equal. Qed.

(** *** Queries *)

(** A failover is reported exactly if some Sentinel that answers reports one; there is no answer
    exactly if no Sentinel answers. *)
Lemma IsFailoverInProgress_spec w addresses name :
  (IsFailoverInProgress w addresses name = inl true ↔
     ∃ addr r, addr ∈ addresses ∧ wire_master w addr name = inl r ∧
       failoverInProgress (field r "flags") (field r "failover-state") = true) ∧
  ((∃ err, IsFailoverInProgress w addresses name = inr err) ↔ ∀ addr r, addr ∈ addresses → wire_master w addr name ≠ inl r).
Proof.
  unfold IsFailoverInProgress.
  assert (H : ∀ b, (any_failover w name addresses b = inl true ↔
     ∃ addr r, addr ∈ addresses ∧ wire_master w addr name = inl r ∧
       failoverInProgress (field r "flags") (field r "failover-state") = true) ∧
    ((∃ err, any_failover w name addresses b = inr err) ↔ b = false ∧ ∀ addr r, addr ∈ addresses → wire_master w addr name ≠ inl r)).
  { induction addresses as [|a l IH]; intros b; cbn [any_failover].
    { destruct b; cbn; split; set_solver. }
    setoid_rewrite elem_of_cons. destruct (wire_master w a name) as [r|e] eqn:Hr.
    - destruct (failoverInProgress _ _) eqn:Hf.
      { split; split; [intros _; exists a, r; auto|done|by intros [? ?]|intros [_ Hn]; by destruct (Hn a r (or_introl eq_refl))]. }
      destruct (IH true) as [-> ->]. split; split.
      + intros (x & q & Hx & Hq). exists x, q. auto.
      + intros (x & q & [->|Hx] & Hq & Hqf); [rewrite Hr in Hq; injection Hq as ->; congruence|eauto].
      + by intros [? _].
      + intros [_ Hn]. by destruct (Hn a r (or_introl eq_refl)).
    - destruct (IH b) as [-> ->]. split; split.
      + intros (x & q & Hx & Hq). exists x, q. auto.
      + intros (x & q & [->|Hx] & Hq & Hqf); [congruence|eauto].
      + intros [Hb Hn]. split; [done|]. intros x q [->|Hx]; [congruence|auto].
      + intros [Hb Hn]. split; [done|]. intros x q Hx. apply Hn. auto. }
  destruct (H false) as [H1 H2]. split; [done|]. rewrite H2. split; [by intros [_ ?]|done].
Qed.

(** The clients that did not answer are closed; the one that did is open. *)
Lemma first_alive_connections ping addresses lastErr :
  connections None (first_alive ping addresses lastErr).1 =
  Some (match (first_alive ping addresses lastErr).2 with inl addr => Some (addr, false) | inr _ => None end).
Proof.
  revert lastErr. induction addresses as [|b l IH]; intros e; cbn [first_alive]; [done|].
  destruct (ping b) as [err|]; [|done]. cbn. rewrite String.eqb_refl. cbn. apply IH.
Qed.

(** [Subscribe] leaves a client open exactly if it succeeds, and then with a subscription. *)
Lemma Subscribe_connections ping receive addresses :
  connections None (Subscribe ping receive addresses).1 =
  Some (match (Subscribe ping receive addresses).2 with inl addr => Some (addr, true) | inr _ => None end).
Proof.
  unfold Subscribe. pose proof (first_alive_connections ping addresses None) as Hf.
  destruct (first_alive ping addresses None) as [acts [addr|[e|]]]; cbn [fst snd] in *; [|done..].
  destruct (receive addr); cbn [fst snd]; rewrite connections_app, Hf; cbn; rewrite String.eqb_refl; cbn; [|done].
  by rewrite String.eqb_refl; cbn; rewrite String.eqb_refl.
Qed.

Lemma first_alive_first ping addresses lastErr addr : (first_alive ping addresses lastErr).2 = inl addr →
  ∃ before after, addresses = before ++ addr :: after ∧ ping addr = None ∧ ∀ a, a ∈ before → ping a ≠ None.
Proof.
  revert lastErr. induction addresses as [|b l IH]; intros e; cbn [first_alive]; [done|]. destruct (ping b) as [err|] eqn:Hb.
  - intros (before & after & -> & Hp & Hn)%IH. exists (b :: before), after. split_and!; [done..|].
    intros a [->|?]%elem_of_cons; [by rewrite Hb|auto].
  - intros [= <-]. exists [], l. split_and!; [done..|]. by intros a ?%elem_of_nil.
Qed.

(** The subscription is to the first address that answers, if it confirms. *)
Lemma Subscribe_first ping receive addresses addr : (Subscribe ping receive addresses).2 = inl addr →
  receive addr = None ∧ ∃ before after, addresses = before ++ addr :: after ∧ ping addr = None ∧ ∀ a, a ∈ before → ping a ≠ None.
Proof.
  unfold Subscribe. pose proof (first_alive_first ping addresses None) as Hf.
  destruct (first_alive ping addresses None) as [acts [a|[e|]]]; [|done..]. cbn [snd] in Hf.
  destruct (receive a) eqn:Hr; [done|]. intros [= <-]. split; [done|]. by apply Hf.
Qed.

Lemma conn_labels f (l : list conn_action) : (∀ a, f (LConn a) = false) → occurrences f (LConn <$> l) = O.
Proof.
  intros Hf. unfold occurrences, bfilter. induction l as [|a l IH]; [done|]. cbn. rewrite Hf. exact IH.
Qed.

Lemma not_conn x (l : list conn_action) : (∀ a, x ≠ LConn a) → x ∉ (LConn <$> l).
Proof. intros Hx (a & -> & _)%list_elem_of_fmap. by destruct (Hx a). Qed.

(** What the last labels of a trace are. *)
Ltac in_trace :=
  rewrite elem_of_app, ?list_elem_of_singleton, ?elem_of_nil; intros [?|Hlast]; [|try done; by simplify_eq].

(** ** Properties *)

(** One step: what it opens and closes, pushes and takes. *)
Lemma monitor_step_facts namespace name s l s' : monitor_step namespace name s l s' →
  connections (holds (ms_point s)) (omap conn_of l) = Some (holds (ms_point s')) ∧
  (∀ ns nm, LEvent ns nm ∈ l → ns = namespace ∧ nm = name) ∧
  (ms_cancelled s' = true ↔ ms_cancelled s = true ∨ LCancel ∈ l) ∧
  (ms_point s' = Ended → ms_point s = Ended ∨ ms_cancelled s = true) ∧
  (occurrences is_event l + owes (ms_point s') ≤ occurrences is_message l + owes (ms_point s))%nat ∧
  (occurrences is_message l + owes (ms_point s) ≤
     occurrences is_event l + owes (ms_point s') + if decide (ms_point s ≠ Ended ∧ ms_point s' = Ended) then 1 else 0)%nat.
Proof.
  assert (Hconn : ∀ acts r, occurrences is_event ((LConn <$> acts) ++ [LSubscribe r]) = O ∧
    occurrences is_message ((LConn <$> acts) ++ [LSubscribe r]) = O ∧
    (∀ x, (∀ a, x ≠ LConn a) → x ≠ LSubscribe r → x ∉ (LConn <$> acts) ++ [LSubscribe r]) ∧
    omap conn_of ((LConn <$> acts) ++ [LSubscribe r]) = acts).
  { intros acts r. rewrite !occurrences_app, !conn_labels, omap_app, conns_of by done. split_and!; try done.
    - intros x Hx Hr. rewrite elem_of_app, list_elem_of_singleton. intros [Hin|?]; [by apply (not_conn x acts Hx) in Hin|done].
    - apply app_nil_r. }
  destruct 1 as [p b| |ping receive addresses acts addr Hs|ping receive addresses acts err Hs| |b|addr b|addr b|addr b|addr|b];
    cbn [ms_point ms_cancelled holds owes];
    try (destruct (Hconn acts (inl addr)) as (-> & -> & Hno & ->)); try (destruct (Hconn acts (inr err)) as (-> & -> & Hno & ->)).
  3-4: pose proof (Subscribe_connections ping receive addresses) as Hc; rewrite Hs in Hc; cbn [fst snd] in Hc;
    split_and!; [exact Hc|intros ns nm Hin; exfalso; revert Hin; by apply Hno| |done|lia|lia];
    split; [done|intros [?|Hin]; [done|exfalso; revert Hin; by apply Hno]].
  all: split_and!; try done; try (cbn; rewrite !String.eqb_refl; cbn; by rewrite ?String.eqb_refl).
  all: try (intros ns nm; cbn; rewrite ?elem_of_cons, elem_of_nil; intros; by destruct_or?; simplify_eq).
  all: try (cbn; rewrite ?elem_of_cons, elem_of_nil; by intuition).
  all: try (unfold occurrences; cbn; lia).
  all: try (unfold occurrences; cbn; case_decide; [lia|intuition lia]).
  all: auto.
Qed.


(** A cancelled monitor ends by itself from every point at which it looks at its context. *)
Lemma cancel_ends namespace name p : (∀ addr, p ≠ Waiting addr) →
  ∃ trace, runs (monitor_step namespace name) (mkMState p true) trace (mkMState Ended true) ∧ occurrences is_message trace = O.
Proof.
  intros Hp. assert (Hone : ∀ l s, monitor_step namespace name s l (mkMState Ended true) →
    ∃ t, runs (monitor_step namespace name) s t (mkMState Ended true) ∧ t = l).
  { intros l s Hs. exists ([] ++ l). split; [|done]. eapply runs_snoc; [apply runs_nil|done]. }
  destruct p as [| |addr|addr| |]; [| |by destruct (Hp addr)| | |].
  - destruct (Hone _ _ (mon_stop _ _)) as (t & Ht & ->). eexists. split; [exact Ht|done].
  - destruct (Hone _ _ (mon_backoff_stop _ _)) as (t & Ht & ->). eexists. split; [exact Ht|done].
  - destruct (Hone _ _ (mon_send_stop _ _ addr)) as (t & Ht & ->). eexists. split; [exact Ht|done].
  - exists (([] ++ [LPause]) ++ []). split; [|done]. eapply runs_snoc; [|apply mon_stop].
    eapply runs_snoc; [apply runs_nil|apply mon_wake].
  - exists []. split; [apply runs_nil|done].
Qed.

(** While it waits for a message it does not: its next action is a message or the end of the
    channel, whether or not the context is cancelled. *)
Lemma waiting_ignores_cancel namespace name addr b l s :
  monitor_step namespace name (mkMState (Waiting addr) b) l s → l = [LCancel] ∨ l = [LMessage] ∨ l = LEnd :: (LConn <$> cleanup addr).
Proof. inversion 1; auto. Qed.

(** *** The watcher *)

Definition tick_of (l : wlabel) : option tick := if l is WTick t then Some t else None.
Definition is_push (l : wlabel) : bool := if l is WEvent _ _ then true else false.

Fixpoint last_streak (st : failoverProbeStreak) (ticks : list tick) : failoverProbeStreak :=
  match ticks with [] => st | t :: ts => last_streak (monitor_tick st t).1 ts end.

Lemma last_streak_app st l1 l2 : last_streak st (l1 ++ l2) = last_streak (last_streak st l1) l2.
Proof. revert st. induction l1 as [|t l1 IH]; intros st; cbn; [done|apply IH]. Qed.

Lemma monitor_run_app st l1 l2 : monitor_run st (l1 ++ l2) = monitor_run st l1 ++ monitor_run (last_streak st l1) l2.
Proof.
  revert st. induction l1 as [|t l1 IH]; intros st; [done|]. cbn [app monitor_run last_streak].
  destruct (monitor_tick st t) as [st' f]. cbn [fst]. by rewrite IH.
Qed.

(** The watcher of failover mode pushes what the probe streaks call for.  In every run: each event
    carries the namespace and name of the instance; the streak is that of the ticks taken; and the
    events pushed are as many as the ticks at which the streak fired, except the one being pushed
    and one that the cancellation may drop, so that none is invented, repeated or lost. *)
Theorem failover_monitor_refines (namespace name : string) (trace : list wlabel) (s : wstate) :
  runs (watcher_step namespace name) (mkWState Watching (mkStreak "" 0 false) false) trace s →
  let fired := monitor_run (mkStreak "" 0 false) (omap tick_of trace) in
  (∀ ns nm, WEvent ns nm ∈ trace → ns = namespace ∧ nm = name) ∧
  ws_streak s = last_streak (mkStreak "" 0 false) (omap tick_of trace) ∧
  (occurrences is_push trace ≤ occurrences id fired ≤ occurrences is_push trace + 1)%nat ∧
  (ws_point s = Watching → occurrences id fired = occurrences is_push trace) ∧
  (ws_point s = Firing → occurrences id fired = S (occurrences is_push trace)) ∧
  (ws_point s = Unwatched → WCancel ∈ trace).
Proof.
  remember (mkWState Watching (mkStreak "" 0 false) false) as s0 eqn:Hs0.
  assert (Hc : ∀ t s, runs (watcher_step namespace name) s0 t s → ws_cancelled s = true → WCancel ∈ t).
  { induction 1 as [s1|s1 t s2 l s3 _ IH Hstep]; subst; [done|]. specialize (IH eq_refl). rewrite elem_of_app.
    destruct Hstep; cbn in *; try (by auto). intros _. right. by left. }
  induction 1 as [s1|s1 t s2 l s3 Hrun IH Hstep]; subst s1.
  { cbn. split_and!; try done; try set_solver; unfold occurrences; cbn; lia. }
  specialize (IH eq_refl Hc) as (He & Hs & Hb & Hw & Hf & Hu). pose proof (Hc _ _ Hrun) as Hcan.
  cbn zeta. rewrite omap_app, monitor_run_app, last_streak_app, !occurrences_app, <- Hs. clear Hs.
  set (n := occurrences id (monitor_run _ (omap tick_of t))) in *. clearbody n.
  assert (Hfire : ∀ st x, occurrences id (monitor_run st [x]) = if (monitor_tick st x).2 then 1%nat else 0%nat).
  { intros st x. unfold occurrences. cbn. destruct (monitor_tick st x) as [st' f]. by destruct f. }
  destruct Hstep as [p st b|st|st b x|st b|st]; cbn [ws_point ws_streak ws_cancelled omap list_omap tick_of last_streak] in *.
  3: rewrite Hfire; destruct (monitor_tick st x) as [st' []]; cbn [fst snd] in *.
  all: rewrite ?occurrences_one; cbn [is_push monitor_run]; rewrite ?occurrences_nil.
  all: try (pose proof (Hw eq_refl)); try (pose proof (Hf eq_refl)).
  all: split_and!; try done; try lia; try (intros Hp; try specialize (Hw Hp); try specialize (Hf Hp); (lia || congruence)).
  all: try (intros ns nm; in_trace; by auto).
  all: rewrite ?elem_of_app, ?list_elem_of_singleton; auto.
Qed.

(** *** Witnesses *)


Lemma failover_monitor_refines_witness : ∃ trace s,
  runs (watcher_step "ns" "cache") (mkWState Watching (mkStreak "" 0 false) false) trace s ∧
  occurrences is_push trace = 1%nat.
Proof.
  assert (Hrun : runs (watcher_step "ns" "cache") (mkWState Watching (mkStreak "" 0 false) false)
    (([] ++ [WTick (mkTick (Some "10.0.0.1") 0 false 5)]) ++ [WEvent "ns" "cache"])
    (mkWState Watching (mkStreak "10.0.0.1" 5 true) false)).
  { eapply runs_snoc; [|apply wat_send]. eapply runs_snoc; [apply runs_nil|].
    exact (wat_tick "ns" "cache" (mkStreak "" 0 false) false (mkTick (Some "10.0.0.1") 0 false 5)). }
  destruct (failover_monitor_refines "ns" "cache" _ _ Hrun) as (_ & _ & _ & Hw & _).
  eexists _, _. split; [exact Hrun|]. rewrite <- Hw by reflexivity. reflexivity.
Defined.
