(* ===== verification/Inspect.v ===== *)
(** * The reports of [lrctl inspect] and [lrctl status] (src/cmd/lrctl/cmd/inspect.go, status.go,
    root.go and the matching results of json_output.go)

    Which instances a command is about ([resolveTargets]), and what it shows of each.  Commands
    in the pods are run by [run], whose error comes with the text of the error stream.

    The lemmas: inspect puts a master name into the same class as [lrctl verify] does
    ([inspect_agrees]); the targets, the exit status, and the division of the chained output of a
    cluster pod are characterised. *)

From Stdlib Require Import Ascii.
From S2P Require Import Prelude GoStrings Probe ClusterNodes ClusterState ReplicationTypes Info.
From S2P Require Import Lineage ReplicationState Recovery Capture Gather Operations Kube OperationWiring.
From S2P Require Import Controller FailoverEngine Spec Discovery Analyze CliGather Verify.
Local Open Scope Z_scope.
Local Open Scope go_scope.

(** ** Targets *)

(** [list_crs ns] is the answer of the API server for a namespace, "" for all of them. *)
Definition listLittleReds (list_crs : string → list (string * LittleRed) + string) (namespace : string)
  : (list (string * string) + string)%type :=
  match list_crs namespace with
  | inr err => inr ("failed to list LittleRed resources: " +:+ err)
  | inl items => inl ((λ '(ns, lr), (ns, lr_Name lr)) <$> items)
  end.

(** Pairs of namespace and name. *)
Definition resolveTargets (list_crs : string → list (string * LittleRed) + string) (allNamespaces : bool)
  (args : list string) (targetNS : string) : (list (string * string) + string)%type :=
  if allNamespaces && (0 <? len args)%Z then
    inr "a resource name may not be specified when --all-namespaces (-A) is set"
  else match args with
       | [name] => inl [(targetNS, name)]
       | _ => listLittleReds list_crs (if allNamespaces then "" else targetNS)
       end.

(** ** Status *)

Record statusJSON := mkStatusJSON {
  sj_Name : string;
  sj_Namespace : string;
  sj_Mode : string;
  sj_Phase : LittleRedPhase;
  sj_BootstrapRequired : bool;
  sj_ObservedGeneration : Z;
  sj_Redis : ready_total;
  sj_Master : option MasterStatus;
  sj_Sentinels : option ready_total;
  sj_Replicas : option ready_total;
  sj_Cluster : option ClusterStatusInfo;
  sj_Failover : option FailoverStatus;
  sj_Conditions : gmap string Condition;
  sj_Operation : option OperationStatus;
  sj_AcknowledgedOperations : list OperationAck;
}.

Definition lrToStatusJSON (namespace : string) (lr : LittleRed) : statusJSON :=
  let st := lr_Status lr in
  mkStatusJSON (lr_Name lr) namespace (lr_Mode lr) (ls_Phase st) (ls_BootstrapRequired st) (ls_ObservedGeneration st)
    (ls_Redis st) (ls_Master st) (ls_Sentinels st) (ls_Replicas st) (ls_Cluster st) (ls_Failover st) (ls_Conditions st)
    (ls_Operation st) (ls_AcknowledgedOperations st).

Definition not_accessible (errCount total : Z) : option string :=
  if (0 <? errCount)%Z then Some (itoa errCount +:+ " of " +:+ itoa total +:+ " resource(s) not found or inaccessible")
  else None.

(** What one resource adds to the output ([textIdx] counts the ones printed), to the results, and
    to the errors. *)
Definition status_round (get : string * string → LittleRed + string) (format_time : time → string) (now : time)
  (jsonOutput : bool) (acc : list string * list statusJSON * Z * Z) (key : string * string)
  : (list string * list statusJSON * Z * Z)%type :=
  let '(out, results, errCount, textIdx) := acc in
  match get key with
  | inr err => (out ++ ["error: " +:+ key.1 +:+ "/" +:+ key.2 +:+ ": " +:+ err], results, errCount + 1, textIdx)
  | inl lr =>
      if jsonOutput then (out, results ++ [lrToStatusJSON key.1 lr], errCount, textIdx)
      else (out ++ (if (0 <? textIdx)%Z then [""] else []) ++ printStatus format_time now key.1 lr, results, errCount, textIdx + 1)
  end.

Definition no_resources (allNamespaces : bool) (targetNS : string) : string :=
  if allNamespaces then "No LittleRed resources found in any namespace"
  else "No LittleRed resources found in namespace " +:+ Quote targetNS.

Definition statusCmd (list_crs : string → list (string * LittleRed) + string) (get : string * string → LittleRed + string)
  (format_time : time → string) (now : time) (allNamespaces jsonOutput : bool) (args : list string) (targetNS : string)
  : (list string * list statusJSON * option string)%type :=
  match resolveTargets list_crs allNamespaces args targetNS with
  | inr err => ([], [], Some err)
  | inl [] => ([no_resources allNamespaces targetNS], [], None)
  | inl targets =>
      let '(out, results, errCount, _) := foldl (status_round get format_time now jsonOutput) ([], [], 0, 0) targets in
      (out, results, not_accessible errCount (len targets))
  end.

(** ** Inspect *)

Record monitoredMasterJSON := mkMonitoredMasterJSON {
  mj_Name : string;
  mj_IP : string;
  mj_Flags : string;
  mj_Class : string;
}.

Record sentinelPodJSON := mkSentinelPodJSON {
  sp_Pod : string;
  sp_IP : string;
  sp_MasterInfo : gmap string string;
  sp_MonitoredMasters : list monitoredMasterJSON;
  sp_Error : string;
  sp_raw : string;
}.

Record clusterNodeInspectJSON := mkNodeInspectJSON {
  nj_NodeID : string;
  nj_Addr : string;
  nj_Hostname : string;
  nj_Flags : list string;
  nj_MasterID : string;
  nj_LinkState : string;
  nj_Slots : list string;
}.

Record redisPodJSON := mkRedisPodJSON {
  rp_Pod : string;
  rp_IP : string;
  rp_Replication : gmap string string;
  rp_ClusterNodes : list clusterNodeInspectJSON;
  rp_ClusterInfo : gmap string string;
  rp_Assignment : option (gmap string string);
  rp_Error : string;
  rp_raw : string;
}.

Definition redisPodIPs (c : ClusterContext) : gset string :=
  list_to_set (bfilter (λ ip, negb (ip =? "")) (cp_IP <$> cc_RedisPods c)).

Definition monitoredMastersJSON (masters : list MonitoredMaster) (desired : string) (ourIPs : gset string)
  : list monitoredMasterJSON :=
  (λ m, mkMonitoredMasterJSON (mm_Name m) (mm_IP m) (mm_Flags m)
          (ClassifyMonitoredName (mm_Name m) (mm_IP m) (mm_Flags m) desired ourIPs)) <$> masters.

Definition printMonitoredMasters (masters : list monitoredMasterJSON) : list string :=
  match masters with
  | [] => []
  | _ => "  Monitored master names:" ::
         ((λ m, "    - " +:+ Quote (mj_Name m) +:+ " at " +:+ addrOrUnknown (mj_IP m) +:+ ", flags:" +:+
                flagsOrNone (mj_Flags m) +:+ "  (" +:+ classLabel (mj_Class m) +:+ ")") <$> masters)
  end.

Definition valueOrNone (v : string) : string := if v =? "" then valueNone else v.

Definition printLines (stdout : string) : list string := (λ line, "  " +:+ line) <$> split_on lf (trim_space stdout).

(** "-", the absent master, is left out. *)
Definition parseClusterNodesJSON (output : string) : list clusterNodeInspectJSON :=
  (λ n, mkNodeInspectJSON (ci_NodeID n) (ci_Addr n) (ci_Hostname n) (ci_Flags n)
          (if ci_MasterID n =? "-" then "" else ci_MasterID n) (ci_LinkState n) (ci_Slots n)) <$> ParseClusterNodes output.

(** [strings.SplitN(s, sep, 2)]: the text before the first separator, and after it if there is one. *)
Fixpoint cut_text (sep s : string) : string * option string :=
  if has_prefix s sep then ("", Some (str_drop (String.length sep) s))
  else match s with
       | EmptyString => ("", None)
       | String c s' => let '(a, b) := cut_text sep s' in (String c a, b)
       end.

Definition chain_separator : string := String lf ("---" +:+ String lf EmptyString).

Section Inspect.
Context (run : string → string → list string → (string + string * string)%type).

Definition run_error (e : string * string) : string := e.1 +:+ " (stderr: " +:+ Quote e.2 +:+ ")".

Definition inspect_sentinel (c : ClusterContext) (pod : CliPod) : sentinelPodJSON :=
  let name := masterNameOf c in
  let '(info, err, raw) :=
    match run (cp_Name pod) (cc_SentinelContainer c) (redisCliArgs ["-p"; "26379"; "sentinel"; "master"; name]) with
    | inr e => (∅, run_error e, "")
    | inl stdout => (parseAlternatingKV stdout, "", stdout)
    end in
  let masters :=
    match run (cp_Name pod) (cc_SentinelContainer c) (redisCliArgs ["-p"; "26379"; "sentinel"; "masters"]) with
    | inr _ => []
    | inl out => monitoredMastersJSON (parseSentinelMasters out None) name (redisPodIPs c)
    end in
  mkSentinelPodJSON (cp_Name pod) (cp_IP pod) info masters err raw.

Definition assignment_of (pod : CliPod) : gmap string string :=
  let a := pod_Annotations (cp_Pod pod) in
  <["assigned-role" := at_key a AnnotationAssignedRole]>
  (<["assigned-master-ip" := at_key a AnnotationAssignedMasterIP]>
  (<["assignment-epoch" := at_key a AnnotationAssignmentEpoch]>
  {["role-label" := at_key (pod_Labels (cp_Pod pod)) LabelRole]})).

Definition inspect_redis (c : ClusterContext) (pod : CliPod) : redisPodJSON :=
  let assignment := if cc_Mode c =? ModeFailover then Some (assignment_of pod) else None in
  let cluster := cc_Mode c =? ModeCluster in
  let cmdArgs := if cluster then redisCliChainArgs [["cluster"; "nodes"]; ["cluster"; "info"]]
                 else redisCliArgs ["info"; "replication"] in
  match run (cp_Name pod) (cc_RedisContainer c) cmdArgs with
  | inr e => mkRedisPodJSON (cp_Name pod) (cp_IP pod) ∅ [] ∅ assignment (run_error e) ""
  | inl stdout =>
      if cluster then
        let '(nodes, info) := cut_text chain_separator stdout in
        mkRedisPodJSON (cp_Name pod) (cp_IP pod) ∅ (parseClusterNodesJSON nodes)
          (match info with Some text => parseInfoKV text | None => ∅ end) assignment "" stdout
      else mkRedisPodJSON (cp_Name pod) (cp_IP pod) (parseInfoKV stdout) [] ∅ assignment "" stdout
  end.

Record inspectJSON := mkInspectJSON {
  ij_Name : string;
  ij_Namespace : string;
  ij_Mode : string;
  ij_Sentinels : list sentinelPodJSON;
  ij_Redis : list redisPodJSON;
}.

Definition inspect_instance (namespace name : string) (c : ClusterContext) : inspectJSON :=
  mkInspectJSON name namespace (cc_Mode c) (inspect_sentinel c <$> cc_SentinelPods c) (inspect_redis c <$> cc_RedisPods c).

Definition sentinel_pod_report (s : sentinelPodJSON) : list string :=
  ["Sentinel Pod: " +:+ sp_Pod s +:+ " (IP: " +:+ sp_IP s +:+ ")"] ++ printMonitoredMasters (sp_MonitoredMasters s) ++
  (if negb (sp_Error s =? "") then ["  [!] Error: " +:+ sp_Error s] else printLines (sp_raw s)) ++ [""].

Definition redis_pod_report (r : redisPodJSON) : list string :=
  ["Redis Pod: " +:+ rp_Pod r +:+ " (IP: " +:+ rp_IP r +:+ ")"] ++
  (match rp_Assignment r with
   | Some a => ["  Assignment: role=" +:+ valueOrNone (at_key a "assigned-role") +:+ ", master-ip=" +:+
                valueOrNone (at_key a "assigned-master-ip") +:+ ", epoch=" +:+ valueOrNone (at_key a "assignment-epoch") +:+
                " (label: " +:+ valueOrNone (at_key a "role-label") +:+ ")"]
   | None => []
   end) ++
  (if negb (rp_Error r =? "") then ["  [!] Error: " +:+ rp_Error r] else printLines (rp_raw r)) ++ [""].

Definition inspect_round (jsonOutput : bool) (acc : list string * list inspectJSON * Z * Z) (t : target)
  : (list string * list inspectJSON * Z * Z)%type :=
  let '(out, results, errCount, textIdx) := acc in
  match tg_Context t with
  | inr err => (out ++ [context_error t err], results, errCount + 1, textIdx)
  | inl c =>
      let res := inspect_instance (tg_Namespace t) (tg_Name t) c in
      if jsonOutput then (out, results ++ [res], errCount, textIdx)
      else
        (out ++ (if (0 <? textIdx)%Z then ["========================================"] else []) ++
         ["Deep Inspect: " +:+ ij_Namespace res +:+ "/" +:+ ij_Name res +:+ " (Mode: " +:+ ij_Mode res +:+ ")";
          "----------------------------------------"] ++
         mjoin (sentinel_pod_report <$> ij_Sentinels res) ++ mjoin (redis_pod_report <$> ij_Redis res),
         results, errCount, textIdx + 1)
  end.

(** The loop over the targets; the error of [RunE] is the exit status. *)
Definition inspectCmd (jsonOutput : bool) (targets : list target) : (list string * list inspectJSON * option string)%type :=
  let '(out, results, errCount, _) := foldl (inspect_round jsonOutput) ([], [], 0, 0) targets in
  (out, results, not_accessible errCount (len targets)).
End Inspect.

(** ** Lemmas *)

(** The commands are about the named resource, or about all in the namespace, or everywhere. *)
Lemma resolveTargets_spec list_crs allNamespaces args targetNS :
  (allNamespaces = true → args ≠ [] → ∃ err, resolveTargets list_crs allNamespaces args targetNS = inr err) ∧
  (∀ name, resolveTargets list_crs false [name] targetNS = inl [(targetNS, name)]) ∧
  (∀ items, list_crs (if allNamespaces then "" else targetNS) = inl items →
     resolveTargets list_crs allNamespaces [] targetNS = inl ((λ '(ns, lr), (ns, lr_Name lr)) <$> items)).
Proof.
  unfold resolveTargets, listLittleReds. split_and!.
  - intros -> Ha. destruct args as [|a args]; [done|]. eexists. by unfold len.
  - done.
  - intros items Hi. rewrite andb_false_r. by rewrite Hi.
Qed.

Lemma has_prefix_inside p : ∀ x y, has_prefix (x +:+ y) p = true → (String.length p ≤ String.length x)%nat →
  ∃ v, x = p +:+ v.
Proof.
  induction p as [|d p IH]; intros x y Hp Hl; [by exists x|]. destruct x as [|c x]; [cbn in Hl; lia|].
  rewrite app_cons, has_prefix_cons in Hp. apply andb_true_iff in Hp as [->%Ascii.eqb_eq Hp].
  destruct (IH x y Hp ltac:(cbn in Hl; lia)) as [v ->]. by exists v.
Qed.

(** A cluster pod prints the nodes, the separator and the information; both parts are read as
    if they had been asked for alone. *)
Lemma cut_text_app sep a b : sep ≠ "" → (∀ u v, a +:+ sep = u +:+ sep +:+ v → u = a) →
  cut_text sep (a +:+ sep +:+ b) = (a, Some b).
Proof.
  intros Hne. induction a as [|c a IH]; intros Hfirst.
  - change ("" +:+ sep +:+ b) with (sep +:+ b). destruct sep as [|d sep]; [done|].
    rewrite app_cons. cbn [cut_text]. rewrite <- app_cons, has_prefix_app, str_drop_app. done.
  - rewrite app_cons. cbn [cut_text]. rewrite IH.
    + destruct (has_prefix _ _) eqn:Hp; [|done]. exfalso.
      assert (He : String c (a +:+ sep +:+ b) = (String c a +:+ sep) +:+ b) by (by rewrite string_app_assoc).
      rewrite He in Hp. apply has_prefix_inside in Hp as [v Hv]; [by specialize (Hfirst "" v Hv)|].
      rewrite length_app. lia.
    + intros u v Hu. specialize (Hfirst (String c u) v). rewrite !app_cons, Hu in Hfirst. by specialize (Hfirst eq_refl) as [= ->].
Qed.

(** The exit status of inspect is that of the targets that could not be found. *)
Lemma inspectCmd_exit run jsonOutput targets :
  (inspectCmd run jsonOutput targets).2 = None ↔ ∀ t, t ∈ targets → ∃ c, tg_Context t = inl c.
Proof.
  unfold inspectCmd. set (acc := foldl _ _ _).
  assert (Hc : acc.1.2 = len (bfilter (λ t, if tg_Context t is inl _ then false else true) targets)).
  { unfold acc. clear acc. induction targets as [|t ts IH] using rev_ind; [done|].
    rewrite foldl_snoc, bfilter_app. unfold len in *. rewrite List.length_app, Nat2Z.inj_add, <- IH.
    destruct (foldl _ _ ts) as [[[out rs] e] i]. unfold inspect_round, bfilter. cbn [List.filter fst snd].
    destruct (tg_Context t), jsonOutput; cbn; lia. }
  destruct acc as [[[out rs] e] i]. cbn [fst snd] in *. subst e. unfold not_accessible.
  set (l := bfilter _ _). trans (l = []).
  { unfold len. by destruct l. }
  unfold l. rewrite bfilter_nil. split; intros Ha t Ht; specialize (Ha t Ht); destruct (tg_Context t); try done; [by eauto|by destruct Ha].
Qed.

Lemma masters_verbatim c out :
  (∀ v, ("ip", v) ∈ adjacent (reply_lines out) → resolveIdentityToIP c v = v) →
  parseSentinelMasters out None = parseSentinelMasters out (Some (resolveIdentityToIP c)).
Proof.
  intros Hip. unfold parseSentinelMasters.
  assert (Hf : ∀ st, foldl (master_round None) st (adjacent (reply_lines out)) =
                     foldl (master_round (Some (resolveIdentityToIP c))) st (adjacent (reply_lines out))).
  { revert Hip. induction (adjacent (reply_lines out)) as [|[k v] l IH]; intros Hip st; [done|]. cbn [foldl].
    assert (master_round None st (k, v) = master_round (Some (resolveIdentityToIP c)) st (k, v)) as ->.
    { destruct st as [ms cur]. unfold master_round. cbn [apply_resolve].
      destruct (k =? "name"); [done|]. destruct (String.eqb_spec k "ip") as [->|]; [|done].
      by rewrite (Hip v) by left. }
    apply IH. intros w Hw. apply Hip. by right. }
  by rewrite Hf.
Qed.

(** Inspect and verify agree about master names.  Where the Sentinels report addresses, and none
    of them is that of a Sentinel pod, the names, addresses and classes that [lrctl inspect] shows
    for a Sentinel are those of the findings of the survey by which [lrctl verify] judges it. *)
Lemma inspect_agrees (run : string → string → list string → (string + string * string)%type) (c : ClusterContext)
  (pod : CliPod) (s : ReplicationState) (sn : SentinelNodeState) (out : string) :
  run (cp_Name pod) (cc_SentinelContainer c) (redisCliArgs ["-p"; "26379"; "sentinel"; "masters"]) = inl out →
  sn_MonitoredMasters sn = parseSentinelMasters out (Some (resolveIdentityToIP c)) →
  (∀ v, ("ip", v) ∈ adjacent (reply_lines out) → resolveIdentityToIP c v = v) →
  (∀ m, m ∈ sn_MonitoredMasters sn → mm_IP m ∈ rs_OwnedIPs s ↔ mm_IP m ∈ redisPodIPs c) →
  (λ m, (mj_Name m, mj_IP m, mj_Flags m, mj_Class m)) <$> sp_MonitoredMasters (inspect_sentinel run c pod) =
  (λ f, (mf_Name f, mf_IP f, mf_Flags f, mf_Class f)) <$> findings_of s (masterNameOf c) sn.
Proof.
  intros Hrun Hsn Hip Hown. unfold inspect_sentinel.
  destruct (match run _ _ (redisCliArgs ["-p"; "26379"; "sentinel"; "master"; masterNameOf c]) with inl _ => _ | inr _ => _ end)
    as [[info err] raw]. cbn [sp_MonitoredMasters]. rewrite Hrun, (masters_verbatim c out Hip), <- Hsn.
  unfold monitoredMastersJSON, findings_of. rewrite <- !list_fmap_compose. apply list_fmap_ext.
  intros i m Hm%list_elem_of_lookup_2. cbn. unfold ClassifyMonitoredName.
  assert (bool_decide (mm_IP m ∈ redisPodIPs c) = bool_decide (mm_IP m ∈ rs_OwnedIPs s)) as -> by (apply bool_decide_ext; by rewrite (Hown m Hm)).
  done.
Qed.
