(* ===== verification/Redact.v ===== *)
(** * Redaction in the debug dump (src/cmd/lrctl/cmd/debug_dump.go)

    The one part of [lrctl debug-dump] that decides something: which words of the collected texts
    are replaced before a file is written ([redactSecrets], [writeFile]), and which lines of the
    operator's log are kept.  A pattern of the source is a keyword, blanks if it asks for them,
    and a word; [redact] replaces the leftmost matches that do not overlap, as
    [ReplaceAllString] does.

    The lemmas: the scan ends, a text without a match is kept as it is, the word after the first
    keyword is replaced and what precedes it kept ([redact_first]); and a keyword that another
    pattern takes for a secret hides the secret behind it ([swallowed_keyword_leaks]). *)

From Stdlib Require Import Ascii.
From S2P Require Import Prelude GoStrings Info.
Local Open Scope go_scope.

(** [\s] of the regular expressions: tab, newline, form feed, carriage return and blank. *)
Definition is_blank (c : ascii) : bool :=
  existsb (Ascii.eqb c) ["009"; "010"; "012"; "013"; "032"]%char.

Fixpoint span (f : ascii → bool) (s : string) : string * string :=
  match s with
  | EmptyString => (EmptyString, EmptyString)
  | String c s' => if f c then let '(a, b) := span f s' in (String c a, b) else (EmptyString, s)
  end.

(** A pattern [(<keyword>\s+)\S+], or [(<keyword>)\S+] without the blanks. *)
Record pattern := mkPattern {
  pt_keyword : string;
  pt_blanks : bool;
}.

Definition patterns : list pattern :=
  [mkPattern "-a" true; mkPattern "--requirepass" true; mkPattern "--masterauth" true;
   mkPattern "sentinel-pass" true; mkPattern "AUTH_ARGS=" false; mkPattern "SENTINEL_AUTH_ARGS=" false].

(** A match at the start of [s]: the text of the group, and what follows the match. *)
Definition match_at (p : pattern) (s : string) : option (string * string) :=
  if has_prefix s (pt_keyword p) then
    let r := str_drop (String.length (pt_keyword p)) s in
    let '(blanks, r) := if pt_blanks p then span is_blank r else ("", r) in
    let '(word, rest) := span (λ c, negb (is_blank c)) r in
    if (pt_blanks p && (blanks =? "")) || (word =? "") then None
    else Some (pt_keyword p +:+ blanks, rest)
  else None.

Definition redacted : string := "[REDACTED]".

(** [ReplaceAllString]; [fuel] bounds the number of steps. *)
Fixpoint redact (fuel : nat) (p : pattern) (s : string) : string :=
  match fuel, s with
  | O, _ | _, EmptyString => s
  | S fuel', String c s' =>
      match match_at p s with
      | Some (group, rest) => group +:+ redacted +:+ redact fuel' p rest
      | None => String c (redact fuel' p s')
      end
  end.

Definition redactSecrets (s : string) : string :=
  foldl (λ s p, redact (String.length s) p s) s patterns.

Definition has_suffix (s suffix : string) : bool := has_prefix (String.rev s) (String.rev suffix).

(** What [writeFile] writes, if anything. *)
Definition writeFile (name content : string) : option string :=
  if content =? "" then None
  else Some (if has_suffix name ".log" || has_suffix name ".txt" then redactSecrets content else content).

(** The lines of the operator's log that are kept. *)
Definition filtered_logs (crName crNamespace allLogs : string) : list string :=
  bfilter (λ line, str_contains line crName || str_contains line crNamespace || str_contains line "error" ||
                   str_contains line "Error") (split_on lf allLogs).

(** ** Lemmas *)

Lemma span_length f s : (String.length (span f s).2 ≤ String.length s)%nat.
Proof. induction s as [|c s IH]; [done|]. cbn. destruct (f c); [|done]. destruct (span f s). cbn in *. lia. Qed.

Lemma span_app f s : (span f s).1 +:+ (span f s).2 = s.
Proof. induction s as [|c s IH]; [done|]. cbn. destruct (f c); [|done]. destruct (span f s). cbn in *. by rewrite app_cons, IH. Qed.

Lemma span_word f s : (span f s).1 ≠ "" → (String.length (span f s).2 < String.length s)%nat.
Proof. destruct s as [|c s]; [done|]. cbn. destruct (f c); [|done]. pose proof (span_length f s). destruct (span f s). cbn in *. lia. Qed.

Lemma str_drop_length n : ∀ s, (String.length (str_drop n s) ≤ String.length s)%nat.
Proof. induction n as [|n IH]; intros [|c s]; cbn; try lia. specialize (IH s). lia. Qed.

Lemma match_at_shorter p s group rest : match_at p s = Some (group, rest) → (String.length rest < String.length s)%nat.
Proof.
  unfold match_at. destruct (has_prefix s (pt_keyword p)); [|done]. set (r := str_drop _ s).
  assert (Hr : (String.length r ≤ String.length s)%nat) by apply str_drop_length.
  destruct (if pt_blanks p then span is_blank r else ("", r)) as [blanks r'] eqn:Hb.
  assert (Hr' : (String.length r' ≤ String.length r)%nat).
  { destruct (pt_blanks p); [|by injection Hb as _ <-]. pose proof (span_length is_blank r) as Hl. by rewrite Hb in Hl. }
  pose proof (span_word (λ c, negb (is_blank c)) r') as Hw. destruct (span _ r') as [word rest'].
  destruct (String.eqb_spec word ""); [by rewrite orb_true_r|]. rewrite orb_false_r. destruct (_ && _); [done|].
  intros [= _ <-]. specialize (Hw n). cbn in Hw. lia.
Qed.

(** The scan ends: with as many steps as bytes the bound makes no difference. *)
Lemma redact_fuel p n : ∀ s, (String.length s ≤ n)%nat → redact n p s = redact (String.length s) p s.
Proof.
  induction n as [n IH] using lt_wf_ind. intros s Hs. destruct s as [|c s]; [by destruct n|].
  destruct n as [|n]; [cbn in Hs; lia|]. change (String.length (String c s)) with (S (String.length s)) in *. cbn [redact].
  destruct (match_at p (String c s)) as [[group rest]|] eqn:Hm.
  - apply match_at_shorter in Hm. change (String.length (String c s)) with (S (String.length s)) in Hm.
    rewrite (IH n) by lia. by rewrite (IH (String.length s)) by lia.
  - by rewrite (IH n) by lia.
Qed.

(** A text in which the pattern matches nowhere is kept. *)
Lemma redact_absent p n : ∀ s, (∀ u v, s = u +:+ v → match_at p v = None) → redact n p s = s.
Proof.
  induction n as [|n IH]; intros s Hs; [done|]. destruct s as [|c s]; [done|]. cbn [redact].
  rewrite (Hs "" (String c s)) by done. f_equal. apply IH. intros u v ->. by apply (Hs (String c u)).
Qed.

(** The word after the first keyword is replaced, what precedes it is kept, and the scan goes on
    behind it. *)
Lemma redact_first p pre s group rest :
  (∀ u v, pre = u +:+ v → v ≠ "" → match_at p (v +:+ s) = None) → match_at p s = Some (group, rest) →
  redact (String.length (pre +:+ s)) p (pre +:+ s) = pre +:+ group +:+ redacted +:+ redact (String.length rest) p rest.
Proof.
  intros Hpre Hs. induction pre as [|c pre IH].
  - change ("" +:+ ?x) with x. pose proof (match_at_shorter _ _ _ _ Hs) as Hl. destruct s as [|c s]; [cbn in Hl; lia|].
    change (String.length (String c s)) with (S (String.length s)) in *. cbn [redact]. rewrite Hs. by rewrite redact_fuel by lia.
  - rewrite !app_cons. change (String.length (String c (pre +:+ s))) with (S (String.length (pre +:+ s))). cbn [redact].
    rewrite <- app_cons, (Hpre "" (String c pre)) by done. rewrite IH; [done|].
    intros u v -> Hv. by apply (Hpre (String c u)).
Qed.

(** The patterns are applied one after the other to the result of the last.  A word that ends in
    [-a] before a keyword makes the first pattern take the keyword for the secret; the keyword is
    gone when its own pattern is tried, and the password stays. *)
Lemma swallowed_keyword_leaks :
  redactSecrets "exec in zone-a --requirepass hunter2" = "exec in zone-a [REDACTED] hunter2".
Proof. by vm_compute. Qed.
